(* ===== verification/_CoqProject ===== *)
-Q . S2P
Prelude.v
RustStr.v
Encoding.v
Rbac.v
Capability.v
Access.v
Guide.v
Binding.v
Manifest.v
Graph.v
Plan.v
Validate.v
ValidateGuide.v
Resolver.v
Validated.v
Registry.v
Schedule.v
Split.v
Journal.v
Executor.v
SelfUpdate.v
Swap.v
Swarm.v
Calendar.v
Docker.v
Updater.v
Rollout.v
Reconcile.v
Oidc.v
Pitr.v
Archive.v
Destination.v
Restic.v
Tarball.v
Restore.v
Dumps.v
EngineCopy.v
BackupPass.v
Replication.v
Trail.v
Users.v
Doors.v
Accounts.v
Intent.v
Privd.v
Handlers.v
Signup.v
Ingress.v
CatalogIndex.v
Sources.v
IndexBuild.v
Fetch.v
