(* ===== verification/Prelude.v ===== *)
(** * Homelabus: a verification library

    Homelabus (Rust, [src/crates/]) installs self-hosted applications on a Docker Swarm: a
    manifest declares what an app needs, the resolver turns it into an ordered plan, the
    executor carries the plan out, and around them live backups, updates, access rights
    and the update of Homelabus itself. This library models the part of it that decides -
    the pure core the I/O crates call - and proves what makes those decisions right.

    ** The parts and where they are

    - [Prelude]: results ([?] is the bind of [result]), code that may panic ([outcome]),
      machine integers with their wrap-around written out (a release build), ordered maps
      ([BTreeMap] is [gmap] read in the order of its keys), iterators, automation.
    - [RustStr]: the operations of [str] the code uses, on UTF-8 bytes.
    - [Encoding] (hlb-types/src/token.rs): base64, base32, SHA-256, tokens' texts.
    - [Rbac], [Access], [Capability], [Guide], [Binding], [Manifest] (hlb-types/src/rbac.rs,
      access.rs, assertion.rs, capability.rs, guide.rs, binding.rs, manifest.rs, grants.rs):
      the data model of a manifest with its hand-written conversions, the permission
      matrix, the tokens of a manifest's values.
    - [Graph] (hlb-resolver/src/graph.rs): the services' dependencies and their order.
    - [Plan] (hlb-resolver/src/plan.rs): the actions, their display and what is read off
      a plan; [Resolver] (hlb-resolver/src/lib.rs): the manifest made into a plan. Each
      block of [resolve_with_guide] is a definition, [resolve_validated] their sequence.
    - [Validate], [ValidateGuide] (hlb-types/src/lib.rs): every check of a manifest, in the
      code's order, with its refusal; [Validated]: what a validated manifest is known to
      have, and the validation and the resolution composed.
    - [Journal] (hlb-state/src/lib.rs): the apps, the plan's journal, guides, secrets and
      volumes; [Executor] (hlb-engine/src/lib.rs): a plan applied, stopped and taken up.
    - [Swarm] (hlb-types/src/swarm.rs, hlb-orchestrator/src/lib.rs): nodes, quorum,
      placement, maintenance, what a status concludes.
    - [Updater] (hlb-updater/src/lib.rs, catalog.rs): what is proposed, authorised and
      rewritten; [Rollout] (apply.rs): an update applied and watched.
    - [Reconcile] (hlb-engine/src/reconcile.rs, hlb-state/src/lib.rs): what the cluster runs
      compared with what the store says, and what is corrected of it.
    - [Trail] (hlb-state/src/lib.rs): the audit log and its chain. [Users] and [Doors]
      (hlb-users/src/, hlb-types/src/access.rs): roles, limits, aliases, generated addresses,
      and who enters which app with what; [Accounts] (hlb-state/src/lib.rs, roles.rs): the
      tables of people. [Oidc] (hlb-identity/src/oidc.rs): signing in.
    - [Intent] (hlb-api/src/intent/, lib.rs): what the daemon is asked and answers; [Privd]
      (hlb-privd/src/confirm.rs, lib.rs): its confirmations, and one intent served;
      [Handlers] (swarm.rs, record.rs) and [Signup] (signup.rs, hlb-engine/src/mailbox.rs):
      what it does of them.
    - [Registry] (hlb-registry/src/version.rs, reference.rs), Modules [Version] and
      [Reference]: which tag is an update, how an image is named.
    - [Schedule] (hlb-backup/src/schedule.rs, retention.rs, hlb-updater/src/window.rs),
      Modules [Schedule], [Retention], [Window].
    - [Calendar]: the civil dates (hlb-backup/src/pitr.rs and the five other crates that
      carry the same arithmetic); [Pitr] (pitr.rs, docker_env.rs): a database put back as it
      was at an instant; [Archive] (hlb-state/src/lib.rs): what was backed up where;
      [Destination] (hlb-backup/src/destination.rs, restorability.rs, drill.rs, erasure.rs,
      hlb-backup-run/src/coverage.rs): where copies go, and what they are worth;
      [Replication] (replication.rs): standbys, their slots and their promotion.
    - [Docker] (hlb-orchestrator/src/swarm.rs, lib.rs): what a service asks of Docker, and the
      operations on services, nodes and one-time jobs; [Restic] (hlb-backup/src/restic.rs,
      hlb-backup-run/src/placement.rs): the commands of a backup, where they run and where a
      volume is; [Restore] (hlb-backup-run/src/restore.rs, lib.rs): what is put back, and the
      services stopped meanwhile.
    - [Dumps] (hlb-backup/src/pgdump.rs, mariadump.rs, pgrunner.rs, images.rs, sqlite.rs): how a
      database is dumped, checked and read back, the names of archives; [EngineCopy]
      (hlb-backup-run/src/engine_copy.rs): the copy a database engine takes of itself;
      [BackupPass] (hlb-backup-run/src/lib.rs, bucket.rs): one pass over the installation and
      the copy an update takes first.
    - [Tarball] (hlb-backup/src/tarball.rs, hlb-backup-run/src/bucket.rs): a bucket as one archive,
      written and put back. [Ingress] (hlb-ingress/src/caddyfile.rs, dns.rs, lib.rs,
      hlb-engine/src/ingress.rs, hlb-types/src/domain.rs): the routes of what is installed and the
      Caddyfile they give.
    - [CatalogIndex] (hlb-types/src/index.rs, quality.rs, release.rs; hlb-catalog/src/index.rs): a
      source's signed index, Modules [Disk], [Index], [Signing]; [Sources]
      (hlb-catalog/src/lib.rs): the catalog of several sources and its rules; [IndexBuild]
      (hlb-catalog/src/index.rs): an index built above the one published before; [Fetch]
      (hlb-engine/src/sources.rs, hlb-state/src/lib.rs): an index fetched into its cache.
    - [Split] (hlb-secrets/src/split.rs): a key shared among relatives.
    - [SelfUpdate] (hlb-selfupdate/src/version.rs, plan.rs, signature.rs), Modules
      [SelfVersion], [SelfPlan], [Signature]; [Swap] (hlb-selfupdate/src/swap.rs): the
      binary replaced under a crash at any point.

    [Manifest] builds on [Capability], [Access] and [Guide]; [Graph], [Plan] and [Resolver]
    on [Manifest] and [Binding]; [Split], [Rbac] and [SelfUpdate] on [Encoding]; [Executor]
    runs [Resolver]'s plans over [Journal]'s store, and [Rollout] changes it; [Restic]'s jobs
    are [Docker]'s services; [Restore] holds services in [Reconcile]'s table; [BackupPass] puts
    together [Restic]'s commands, [Dumps], [EngineCopy], [Restore]'s stops, [Schedule]'s
    instants and [Archive]'s records over one [World]; [Handlers] and
    [Signup] act on [Journal] and [Accounts], and answer [Intent]'s results. A doc comment
    names the lines a definition translates, as [@ crate/src/file.rs:first-last].

    ** What the theorems show

    - Ordering: Kahn's loop gives every service once, after what it needs, exactly when no
      service depends on itself, says truly what is missing or cyclic, and stopping is the
      reverse ([Graph]).
    - The plan: a plan is written exactly when the install can be carried out; secrets,
      volumes and companions come before what uses them, routes come last and are private
      unless declared public, a service opened after its guide stays guarded until then,
      databases get the limit their app declares ([Resolver], [Plan]).
    - Applying it: a run is a refinement of doing each action not yet done in order, stops
      where one fails, leaves a journal that says what was done, and taken up after a crash
      at any step does the rest ([Executor], [Journal]).
    - Validation: a manifest that passes gives a plan that stays in its own names, volumes
      and networks, whose tokens are of needs it declares ([Validated]).
    - The daemon: nothing destructive is done without a confirmation of that very intent,
      used once, in time ([Privd]); a node is never emptied by surprise, an alias token
      opens nothing else ([Handlers]); signing up touches nobody else ([Signup]).
    - People: an invitation lets in no more people than the link was made for, with the role it
      was made with, and no account joins another on its address ([Accounts]); who enters an app
      is who its groups say, where it has a door ([Doors]); a tampered entry of the chained log
      shows ([Trail]); a redirection stays on the site ([Oidc]).
    - The cluster: nodes drained one at a time, no downtime accepted, keep the quorum, data
      stays on its node ([Swarm]);
      the reconciliation gives only the instructions the store asks for, none without
      leave, and once it has corrected everything it finds nothing to correct
      ([Reconcile]).
    - Safety of secrets: what carries a secret is marked, a generated secret's eight forms
      are read back as themselves ([Binding]); a mistyped share is refused, any threshold
      of shares rebuilds the key and only shares that fit do ([Split]).
    - Rights: the permission matrix is a chain, several groups give the highest role, a
      token matches its own hash ([Rbac]); claims by level ([Access]).
    - Round trips and bounds of the texts: sizes, ports, references, durations, versions,
      base64url, shares.
    - Updates: which tag is proposed and what may never change ([Registry], [Updater]); a
      rollout is watched for a bounded time and concludes ([Rollout]); when a window
      is open and a backup due, and when restic keeps something ([Schedule]); when a self
      update may start, which binary is accepted ([SelfUpdate]); that the path always names
      a whole binary whatever fails ([Swap]).

    - Backups: the dates every crate computes are the calendar's and are read back
      ([Calendar]); a recovery starts from the last base that ends before its target, and
      pruning takes none of the journal it replays ([Pitr]); data said safe has copies in two
      places, proved by a restore ([Destination]); a promotion said safe loses nothing
      ([Replication]); what a job reads of secrets it reads from files, and forgetting keeps
      what no pass replaced ([Restic]); a restore takes what this installation took, and what
      a copy stopped runs again ([Restore]); what is quoted for a shell is read back, a dump
      archived is found under its name ([Dumps]); a pass says and records exactly what it did,
      one destination's failure costs no other its copy, what it stops it gives back unless the
      state refuses a reading meanwhile, and the copy an update relies on is one a restore accepts ([BackupPass]); a bucket is read back from
      its archive as it was, and no archive cut or unfinished is taken for whole ([Tarball]).
    - The ingress: no app opens a site of its own in the Caddyfile, and an app without an
      identity of its own is served behind the portal, to its groups, or to nobody, the paths it
      leaves open apart ([Ingress]).
    - The catalog: what a source's key did not sign is refused, what was signed is read back as
      itself, and a fetched directory takes the cache's place whole or not at all
      ([CatalogIndex]); no source but the carried catalog provides a platform service, and what a
      signed one brings in is in force ([Sources]); a built index can be signed, keeps every
      version and every revocation, and names no two versions alike ([IndexBuild]); a fetch answers
      with an index its source signed or records nothing, and no source waits on another's ([Fetch]).
    - Docker: an update of one thing leaves every other as it was, a secret is the file of one
      service, every wait ends ([Docker]).

    Lemmas beside them state where the code departs from what it says of itself: durations
    that wrap or panic, a way back that leaves the path empty for a moment, comments that
    say otherwise.

    ** Bounds, fuel and parameters

    Loops that are not structural take fuel: one more than the services ([Graph],
    [kahn_enough]), one more than a text's length where each turn shortens it ([Access],
    [Binding], [fill_go_enough], [generated_secrets_go_enough]), the length of a list cut
    in chunks ([Prelude], [chunks_go_enough]), one per poll before a watch's deadline
    ([Rollout], [turns], [watch_go_enough]), a text's length for its openings
    ([ValidateGuide], [openings_go_enough]), one turn per two seconds and the last before a
    wait's deadline ([Docker], [Restore], [drain_turns_enough]), the depth of the deepest file for
    a walk ([Sources], [collect_enough]; [IndexBuild], [walk_enough]). None of it is what stops a
    loop.

    Crates outside the repository are arguments: the time zones known to [chrono-tz]
    ([Resolver]), the parsing of an hour ([Schedule.Window]), [blahaj]'s sharing, [age]'s keys
    and [bech32] ([Split], classes with their laws and an instance that has them),
    [ed25519_dalek]'s verification ([SelfUpdate.Signature]) and signatures ([CatalogIndex], a class
    with its laws and an instance that has them), [semver]'s ranges, the readers of YAML and JSON
    and of a schema ([CatalogIndex], [Sources]). Docker, PocketID, Stalwart and
    the actions of a plan are interfaces over a state of their own ([Executor], [Rollout],
    [Handlers], [Signup]). Random values and the time are arguments.

    ** What is not modelled

    Tables of the store nothing modelled reads (domains, updates found), sieve scripts
    (hlb-users/src/sieve.rs), the reading back of archives (hlb-backup-run/src/verify.rs), the
    guide's automatic calls (hlb-guide) are not modelled yet. YAML and JSON parsing is [serde]'s. The clients of other services, the HTTP
    controller, the command line, the node agent and the bootstrap over SSH are I/O. In
    [Swap] a flush has no effect: what a power cut leaves of unflushed writes is not
    modelled. The database answers: what SQL refuses is modelled, and its I/O errors only where they
    change what a theorem can say: an account that cannot be recorded ([Signup]), a reading refused
    while an app is stopped for its copy ([BackupPass]). *)

From Stdlib Require Export ZArith NArith Lia ZifyNat ZifyN.
From stdpp Require Export base numbers list list_monad gmap sets strings sorting.

(** ** Notations *)

Declare Scope hlb_scope.
Delimit Scope hlb_scope with hlb.

(** A decidable equality of the source ([==] on a [PartialEq] type), as a boolean. *)
Notation "x ==? y" := (bool_decide (x = y)) (at level 70, no associativity) : hlb_scope.
#[global] Open Scope hlb_scope.

(** ** Fallible code

    [Result<A, E>] of the source; [?] is the monadic bind below. *)

Inductive result (E A : Type) : Type :=
| Ok (a : A)
| Err (e : E).
Arguments Ok {E A} a.
Arguments Err {E A} e.

#[global] Instance result_ret E : MRet (result E) := λ A a, Ok a.
#[global] Instance result_bind E : MBind (result E) := λ A B f m,
  match m with Ok a => f a | Err e => Err e end.
#[global] Instance result_fmap E : FMap (result E) := λ A B f m,
  match m with Ok a => Ok (f a) | Err e => Err e end.

#[global] Instance result_eq_dec `{EqDecision E, EqDecision A} : EqDecision (result E A).
Proof. solve_decision. Defined.

(** [Option::ok_or]. *)
Definition ok_or {E A} (e : E) (o : option A) : result E A :=
  match o with Some a => Ok a | None => Err e end.

(** [Result::map_err]. *)
Definition map_err {E F A} (f : E → F) (m : result E A) : result F A :=
  match m with Ok a => Ok a | Err e => Err (f e) end.

Definition is_ok {E A} (m : result E A) : bool :=
  match m with Ok _ => true | Err _ => false end.

(** Code that may panic. *)
Inductive outcome (A : Type) : Type :=
| Returns (a : A)
| Panics.
Arguments Returns {A} a.
Arguments Panics {A}.

(** ** Machine integers

    An unsigned integer of the source is an [N] below its bound. A release build wraps
    an overflowing [+], [*] or [<<]; [checked_*] and [saturating_*] say what they do. *)

Definition u8_max : N := 255.
Definition u16_max : N := 65535.
Definition u32_max : N := 4294967295.
Definition u64_max : N := 18446744073709551615.

Definition wrap_u8 (n : N) : N := (n mod (u8_max + 1))%N.
Definition wrap_u16 (n : N) : N := (n mod (u16_max + 1))%N.
Definition wrap_u32 (n : N) : N := (n mod (u32_max + 1))%N.
Definition wrap_u64 (n : N) : N := (n mod (u64_max + 1))%N.

(** [i64] from a [u64] with [as]. *)
Definition as_i64 (n : N) : Z :=
  let m := Z.of_N (wrap_u64 n) in if (m <? 2 ^ 63)%Z then m else (m - 2 ^ 64)%Z.

(** [+], [-] and [*] of [i64]. *)
Definition wrap_i64 (z : Z) : Z := ((z + 2 ^ 63) mod 2 ^ 64 - 2 ^ 63)%Z.

Definition checked_mul_u64 (a b : N) : option N :=
  if decide (a * b ≤ u64_max)%N then Some (a * b)%N else None.
Definition saturating_add_u32 (a b : N) : N := N.min (a + b) u32_max.
Definition saturating_mul_u32 (a b : N) : N := N.min (a * b) u32_max.

(** ** Ordered maps and sets

    A [BTreeMap<String, V>] is a [gmap string V], a [BTreeSet<String>] a [gset string];
    what iterates over one does so in the order of its keys, the byte order of [str]. *)

Definition btree_elems (s : gset string) : list string :=
  merge_sort String.le (elements s).

Definition btree_keys {V} (m : gmap string V) : list string :=
  btree_elems (dom m).

Definition btree_entries {V} (m : gmap string V) : list (string * V) :=
  omap (λ k, (λ v, (k, v)) <$> m !! k) (btree_keys m).

Definition btree_values {V} (m : gmap string V) : list V :=
  (btree_entries m).*2.

(** [BTreeMap::extend]: the entries of [n] over those of [m]. *)
Definition btree_extend {V} (m n : gmap string V) : gmap string V := n ∪ m.

(** ** Iterators *)

(** [Iterator::find]. *)
Fixpoint find_first {A} (p : A → bool) (l : list A) : option A :=
  match l with
  | [] => None
  | x :: l => if p x then Some x else find_first p l
  end.

(** [Iterator::find_map]. *)
Fixpoint find_map {A B} (f : A → option B) (l : list A) : option B :=
  match l with
  | [] => None
  | x :: l => match f x with Some y => Some y | None => find_map f l end
  end.

(** [slice::sort_by], which is stable: [x] goes before the first element it is not
    after. *)
Section Sorting.
Context {A : Type} (cmp : A → A → comparison).

Fixpoint sort_insert (x : A) (l : list A) : list A :=
  match l with
  | [] => [x]
  | y :: l => if cmp x y is Gt then y :: sort_insert x l else x :: y :: l
  end.
Definition sort_by (l : list A) : list A := foldr sort_insert [] l.
End Sorting.

(** [Ordering::then_with]; the orders of [bool], of [Option] and of the reverse. *)
Definition then_with (c d : comparison) : comparison := if c is Eq then d else c.
Definition bool_cmp (a b : bool) : comparison :=
  match a, b with false, true => Lt | true, false => Gt | _, _ => Eq end.
Definition option_cmp {A} (cmp : A → A → comparison) (a b : option A) : comparison :=
  match a, b with
  | None, None => Eq
  | None, Some _ => Lt
  | Some _, None => Gt
  | Some a, Some b => cmp a b
  end.

(** [Iterator::max_by_key]: the last of the greatest. *)
Definition max_by {A} (cmp : A → A → comparison) (l : list A) : option A :=
  foldl (λ (best : option A) x,
    match best with
    | Some b => if cmp b x is Gt then Some b else Some x
    | None => Some x
    end) None l.

(** [Iterator::max] and [Iterator::min] of [i64]. *)
Definition max_Z (l : list Z) : option Z := max_by Z.compare l.
Definition min_Z (l : list Z) : option Z := max_by (λ a b, Z.compare b a) l.

(** [<\[T\]>::chunks]: the last one may be shorter. The length is fuel enough, each chunk
    of a positive size taking one element at least. *)
Fixpoint chunks_go {A} (fuel n : nat) (l : list A) : list (list A) :=
  match fuel, l with
  | S fuel, _ :: _ => take n l :: chunks_go fuel n (drop n l)
  | _, _ => []
  end.
Definition chunks {A} (n : nat) (l : list A) : list (list A) := chunks_go (length l) n l.

(** [Iterator::filter] by a boolean predicate, and [all] / [any]. *)
Definition keep {A} (p : A → bool) (l : list A) : list A := filter (λ x, p x = true) l.
Definition all_of {A} (p : A → bool) (l : list A) : bool := forallb p l.
Definition any_of {A} (p : A → bool) (l : list A) : bool := existsb p l.

(** A loop whose body may return early with an error ([?]). *)
Fixpoint fold_m {E A B} (f : B → A → result E B) (acc : B) (l : list A) : result E B :=
  match l with [] => Ok acc | x :: l => acc ← f acc x; fold_m f acc l end.

(** ** Checks

    A check is a [result] with nothing to give: [return Err(e)] under a condition, loops
    of checks, and loops whose body also reads what came before. *)

Definition refuse_if {E} (b : bool) (e : E) : result E () := if b then Err e else Ok ().

Fixpoint each {E A} (f : A → result E ()) (l : list A) : result E () :=
  match l with [] => Ok () | x :: l => _ ← f x; each f l end.

Fixpoint each_after {E A} (f : list A → A → result E ()) (before l : list A) : result E () :=
  match l with [] => Ok () | x :: l => _ ← f before x; each_after f (before ++ [x]) l end.

(** What is absent passes. *)
Definition on_some {E A} (o : option A) (f : A → result E ()) : result E () :=
  match o with Some a => f a | None => Ok () end.

(** ** Code with a state

    What it did before an early return ([?]) is kept. *)

Definition eff (S E A : Type) : Type := S → result E A * S.

Definition eff_ret {S E A} (a : A) : eff S E A := λ s, (Ok a, s).
Definition eff_fail {S E A} (e : E) : eff S E A := λ s, (Err e, s).
Definition eff_bind {S E A B} (m : eff S E A) (f : A → eff S E B) : eff S E B := λ s,
  match m s with (Ok a, s) => f a s | (Err e, s) => (Err e, s) end.
Definition eff_get {S E A} (f : S → A) : eff S E A := λ s, (Ok (f s), s).
Definition eff_put {S E} (f : S → S) : eff S E () := λ s, (Ok (), f s).
Definition eff_of {S E A} (m : result E A) : eff S E A := λ s, (m, s).

Notation "'let!' x := m 'in' k" := (eff_bind m (λ x, k))
  (at level 10, x pattern, m at level 200, k at level 200, only parsing) : hlb_scope.
Notation "m ';;!' k" := (eff_bind m (λ _, k)) (at level 199, right associativity, only parsing) : hlb_scope.

Fixpoint eff_each {S E A} (f : A → eff S E ()) (l : list A) : eff S E () :=
  match l with [] => eff_ret () | x :: l => f x ;;! eff_each f l end.

(** [if c { m }] *)
Definition eff_when {S E} (b : bool) (m : eff S E ()) : eff S E () := if b then m else eff_ret ().

(** ** Automation *)

Create HintDb hlb.
Create Rewrite HintDb hlb.

Ltac simplify_result :=
  repeat match goal with
  | H : Ok _ = Ok _ |- _ => injection H as H
  | H : Err _ = Err _ |- _ => injection H as H
  | H : Ok _ = Err _ |- _ => discriminate H
  | H : Err _ = Ok _ |- _ => discriminate H
  | _ => progress simplify_eq/=
  end.

(** Splits the [if]s and [match]es the goal or a hypothesis is stuck on. *)
Ltac split_guards := repeat (case_match || case_decide || case_bool_decide); simplify_result.

Ltac unfold_bind := unfold mbind, mret, fmap, result_bind, result_ret, result_fmap in *.

(** ** Lemmas on the above *)

Lemma result_bind_Ok {E A B} (m : result E A) (f : A → result E B) b :
  (m ≫= f) = Ok b ↔ ∃ a, m = Ok a ∧ f a = Ok b.
Proof. destruct m; cbn; naive_solver. Qed.

Lemma ok_or_Ok {E A} (e : E) (o : option A) a : ok_or e o = Ok a ↔ o = Some a.
Proof. destruct o; cbn; naive_solver. Qed.

Lemma ok_or_Err {E A} (e e' : E) (o : option A) :
  ok_or e o = Err e' ↔ o = None ∧ e = e'.
Proof. destruct o; cbn; naive_solver. Qed.

Lemma seq_Ok {E B} (m : result E ()) (k : result E B) b :
  (m ≫= λ _, k) = Ok b ↔ m = Ok () ∧ k = Ok b.
Proof. rewrite result_bind_Ok. split; [intros ([] & ? & ?); done|]. intros [? ?]. by exists (). Qed.

Lemma refuse_if_Ok {E} b (e : E) u : refuse_if b e = Ok u ↔ b = false.
Proof. destruct b, u; naive_solver. Qed.

Lemma on_some_Ok {E A} (o : option A) (f : A → result E ()) u :
  on_some o f = Ok u ↔ ∀ a, o = Some a → f a = Ok ().
Proof. destruct o, u; cbn; naive_solver. Qed.

Lemma each_Ok {E A} (f : A → result E ()) l u :
  each f l = Ok u ↔ ∀ x, x ∈ l → f x = Ok ().
Proof.
  destruct u. induction l as [|y l IH]; cbn [each].
  - split; [|done]. intros _ x Hx. by apply elem_of_nil in Hx.
  - rewrite seq_Ok, IH. setoid_rewrite elem_of_cons. naive_solver.
Qed.

Lemma each_after_Ok {E A} (f : list A → A → result E ()) before l u :
  each_after f before l = Ok u ↔ ∀ l1 x l2, l = l1 ++ x :: l2 → f (before ++ l1) x = Ok ().
Proof.
  destruct u. revert before. induction l as [|y l IH]; intros before; cbn [each_after].
  - split; [|done]. by intros _ [] ? ?.
  - rewrite seq_Ok, IH. split.
    + intros [Hy Hl] [|z l1] x l2 [= -> ->]; [by rewrite app_nil_r|].
      specialize (Hl l1 x l2 eq_refl). by rewrite <- app_assoc in Hl.
    + intros H. split; [specialize (H [] y l eq_refl); by rewrite app_nil_r in H|].
      intros l1 x l2 ->. specialize (H (y :: l1) x l2 eq_refl). by rewrite <- app_assoc.
Qed.

(** A loop that refuses a key already seen leaves no key twice. *)
Lemma each_after_NoDup {E A K} (f : list A → A → result E ()) (key : A → K) l u :
  (∀ before x, f before x = Ok () → key x ∉ key <$> before) →
  each_after f [] l = Ok u → NoDup (key <$> l).
Proof.
  intros Hf. rewrite each_after_Ok. cbn [app]. induction l as [|x l IH] using rev_ind; intros H.
  - constructor.
  - rewrite fmap_app. apply NoDup_app. split; [|split].
    + apply IH. intros l1 y l2 ->. apply (H l1 y (l2 ++ [x])). by rewrite <- app_assoc.
    + intros k Hk. cbn. rewrite list_elem_of_singleton. intros ->.
      by apply (Hf l x); [apply (H l x [])|].
    + cbn. apply NoDup_singleton.
Qed.

Lemma mapM_Ok_Forall2 {E A B} (f : A → result E B) l k :
  mapM f l = Ok k ↔ Forall2 (λ x y, f x = Ok y) l k.
Proof.
  revert k; induction l as [|x l IH]; intros k; cbn.
  - unfold_bind. split; [intros; simplify_result; constructor|by inversion 1].
  - rewrite result_bind_Ok. setoid_rewrite result_bind_Ok. unfold mret, result_ret.
    setoid_rewrite IH. split.
    + intros (y & Hy & ys & Hys & [= <-]). by constructor.
    + inversion 1; subst; eauto.
Qed.

Lemma fold_left_cons {A B} (f : B → A → B) x l b : fold_left f (x :: l) b = fold_left f l (f b x).
Proof. reflexivity. Qed.

(** A property of small numbers, computed on each. *)
Lemma below_forallb (n : nat) (p : N → bool) :
  forallb (λ i, p (N.of_nat i)) (seq 0 n) = true → ∀ x, (x < N.of_nat n)%N → p x = true.
Proof.
  rewrite forallb_forall. intros H x Hx. specialize (H (N.to_nat x)).
  rewrite N2Nat.id in H. apply H, in_seq. lia.
Qed.

(** What every turn of a loop keeps holds at its end. *)
Lemma fold_m_ind {E A B} (P : B → Prop) (f : B → A → result E B) l acc out :
  (∀ acc x out, x ∈ l → P acc → f acc x = Ok out → P out) →
  P acc → fold_m f acc l = Ok out → P out.
Proof.
  revert acc. induction l as [|x l IH]; cbn; intros acc Hstep Hacc; [by intros [= <-]|].
  rewrite result_bind_Ok. intros (acc' & Hx & Hl). eapply IH; [|by eapply Hstep; [left| |]|done].
  intros. eapply Hstep; [right|..]; done.
Qed.

Lemma fold_m_ext {E A B} (f g : B → A → result E B) acc l :
  (∀ acc x, f acc x = g acc x) → fold_m f acc l = fold_m g acc l.
Proof.
  intros H. revert acc. induction l as [|x l IH]; intros acc; cbn; [done|]. rewrite H. by destruct (g acc x); cbn.
Qed.

Lemma find_first_Some {A} (p : A → bool) l x :
  find_first p l = Some x ↔
  ∃ l1 l2, l = l1 ++ x :: l2 ∧ p x = true ∧ Forall (λ y, p y = false) l1.
Proof.
  induction l as [|y l IH]; cbn.
  - split; [done|]. intros ([|] & l2 & ? & _); done.
  - destruct (p y) eqn:Hp.
    + split.
      * intros [= ->]. by exists [], l.
      * intros ([|z l1] & l2 & [= -> ->] & Hx & Hall); [done|].
        inversion Hall; congruence.
    + rewrite IH. split.
      * intros (l1 & l2 & -> & Hx & Hall). exists (y :: l1), l2. naive_solver.
      * intros ([|z l1] & l2 & [= -> ->] & Hx & Hall); [congruence|].
        inversion Hall; subst. eauto 10.
Qed.

Lemma find_first_None {A} (p : A → bool) l :
  find_first p l = None ↔ Forall (λ y, p y = false) l.
Proof.
  induction l as [|y l IH]; cbn; [by split|].
  destruct (p y) eqn:Hp; [|rewrite IH, Forall_cons; naive_solver].
  split; [done|]. inversion 1; congruence.
Qed.

(** An element no prefix [L] holds stands after it. *)
Lemma split_after_prefix {A} (P : A → Prop) (L R l1 : list A) a l2 :
  (∀ x, x ∈ L → ¬ P x) → P a → L ++ R = l1 ++ a :: l2 → ∃ k, l1 = L ++ k ∧ R = k ++ a :: l2.
Proof.
  intros HL Ha E. apply app_eq_inv in E as [(k & E1 & E2)|(k & E1 & E2)].
  - destruct k as [|b k].
    + rewrite app_nil_r in E1. cbn in E2. subst. exists []. by rewrite app_nil_r.
    + injection E2 as -> ->. exfalso. apply (HL b); [|done]. rewrite E1. set_solver.
  - eauto.
Qed.

(** Where the images are all different, so are what they are of. *)
Lemma NoDup_fmap_inj_on {A B} (f : A → B) l x y :
  NoDup (f <$> l) → x ∈ l → y ∈ l → f x = f y → x = y.
Proof.
  intros Hnd Hx Hy E. apply list_elem_of_lookup in Hx as [i Hi].
  apply list_elem_of_lookup in Hy as [j Hj].
  assert (i = j); [|congruence].
  eapply NoDup_lookup; [done|rewrite list_lookup_fmap, Hi; done|].
  by rewrite list_lookup_fmap, Hj, E.
Qed.

Lemma find_map_Some {A B} (f : A → option B) l y :
  find_map f l = Some y → ∃ x, x ∈ l ∧ f x = Some y.
Proof.
  induction l as [|x l IH]; cbn; [done|]. destruct (f x) eqn:E.
  - intros [= ->]. exists x. split; [by left|done].
  - intros H. destruct (IH H) as (z & ? & ?). exists z. split; [by right|done].
Qed.

Lemma find_map_None {A B} (f : A → option B) l :
  find_map f l = None ↔ ∀ x, x ∈ l → f x = None.
Proof.
  induction l as [|x l IH]; cbn; [set_solver|]. destruct (f x) eqn:E.
  - split; [done|]. intros H. rewrite H in E; [done|by left].
  - rewrite IH. set_solver.
Qed.

Lemma sort_by_perm {A} (cmp : A → A → comparison) l : sort_by cmp l ≡ₚ l.
Proof.
  assert (Hins : ∀ x k, sort_insert cmp x k ≡ₚ x :: k).
  { intros x k. induction k as [|y k IH]; [done|]. cbn. destruct (cmp x y); [done|done|].
    rewrite IH. apply Permutation_swap. }
  induction l as [|x l IH]; [done|]. cbn. by rewrite Hins, IH.
Qed.

Lemma sort_by_sorted {A} (cmp : A → A → comparison)
    (Hanti : ∀ x y, cmp x y = Gt → cmp y x ≠ Gt)
    (Htrans : ∀ x y z, cmp x y ≠ Gt → cmp y z ≠ Gt → cmp x z ≠ Gt) l :
  StronglySorted (λ x y, cmp x y ≠ Gt) (sort_by cmp l).
Proof.
  induction l as [|x l IH]; cbn; [constructor|]. fold (sort_by cmp l).
  induction IH as [|y k Hk IHk Hy]; cbn; [repeat constructor|].
  destruct (cmp x y) eqn:E.
  1,2: constructor; [by constructor|]; constructor; [congruence|];
       eapply List.Forall_impl; [|exact Hy]; intros z Hz; apply (Htrans _ y); congruence.
  constructor; [done|]. apply Forall_forall. intros z Hz.
  assert (Hz' : z ∈ x :: k).
  { clear -Hz. revert Hz. induction k as [|w k IH]; cbn; [done|].
    destruct (cmp x w); [done|done|]. rewrite !elem_of_cons. intros [->|Hz]; [tauto|].
    specialize (IH Hz) as [->|?]%elem_of_cons; tauto. }
  apply elem_of_cons in Hz' as [->|Hz']; [by apply Hanti|]. rewrite Forall_forall in Hy. by apply Hy.
Qed.

Lemma StronglySorted_weaken {A} (R S : A → A → Prop) l :
  (∀ x y, R x y → S x y) → StronglySorted R l → StronglySorted S l.
Proof.
  intros H. induction 1 as [|x l _ IH Hx]; constructor; [done|].
  eapply List.Forall_impl; [|exact Hx]. auto.
Qed.

(** The orders a stable sort is used with: total, transitive. *)
Definition total_cmp {A} (cmp : A → A → comparison) : Prop :=
  (∀ x y, cmp x y = CompOpp (cmp y x)) ∧
  (∀ x y z, cmp x y ≠ Gt → cmp y z ≠ Gt → cmp x z ≠ Gt).

Lemma sort_by_total {A} (cmp : A → A → comparison) l :
  total_cmp cmp → StronglySorted (λ x y, cmp x y ≠ Gt) (sort_by cmp l).
Proof.
  intros [Hopp Htrans]. apply sort_by_sorted; [|done].
  intros x y Hxy. rewrite Hopp, Hxy. done.
Qed.

Lemma wrap_u64_le n : (wrap_u64 n ≤ n)%N.
Proof. apply N.Div0.mod_le. Qed.

Lemma total_cmp_on {A B} (f : A → B) (cmp : B → B → comparison) :
  total_cmp cmp → total_cmp (λ x y, cmp (f x) (f y)).
Proof. intros [Hopp Htrans]. split; intros *; [apply Hopp|apply Htrans]. Qed.

Lemma total_cmp_ext {A} (c d : A → A → comparison) :
  (∀ x y, c x y = d x y) → total_cmp d → total_cmp c.
Proof. intros E [Hopp Htrans]. split; intros *; rewrite !E; [apply Hopp|apply Htrans]. Qed.

Lemma total_cmp_flip {A} (cmp : A → A → comparison) :
  total_cmp cmp → total_cmp (λ x y, cmp y x).
Proof. intros [Hopp Htrans]. split; intros *; [apply Hopp|eauto]. Qed.

Lemma total_cmp_then {A} (c d : A → A → comparison) :
  total_cmp c → total_cmp d → total_cmp (λ x y, then_with (c x y) (d x y)).
Proof.
  intros [Hc Tc] [Hd Td]. split.
  - intros x y. rewrite (Hc x y), (Hd x y). by destruct (c y x).
  - intros x y z. unfold then_with. pose proof (Tc x y z) as H1. pose proof (Tc y z x) as H2.
    pose proof (Tc z x y) as H3. pose proof (Td x y z) as H4.
    rewrite (Hc z x) in H2, H3. rewrite (Hc y x) in H2. rewrite (Hc z y) in H3.
    destruct (c x y), (c y z), (c x z); cbn in *; try done; intros; try (by auto);
      exfalso; first [by apply H2 | by apply H3 | by apply H1].
Qed.

Lemma total_cmp_option {A} (cmp : A → A → comparison) :
  total_cmp cmp → total_cmp (option_cmp cmp).
Proof. intros [Hopp Htrans]. split; [by intros [] []; cbn|]. intros [x|] [y|] [z|]; cbn; try done. apply Htrans. Qed.

Lemma total_cmp_nat : total_cmp Nat.compare.
Proof. split; intros *; [apply Nat.compare_antisym|rewrite !Nat.compare_le_iff; lia]. Qed.

Lemma total_cmp_N : total_cmp N.compare.
Proof. split; intros *; [apply N.compare_antisym|rewrite !N.compare_le_iff; lia]. Qed.

Lemma total_cmp_bool : total_cmp bool_cmp.
Proof. by split; intros [] []; try intros []. Qed.

Lemma total_cmp_string : total_cmp String.compare.
Proof.
  split; [apply String.compare_antisym|]. intros x y z Hxy Hyz.
  assert (H : ∀ s t, String.compare s t ≠ Gt ↔ String.le s t).
  { intros s t. unfold String.le, String.leb. by destruct (String.compare s t). }
  rewrite H in *. by trans y.
Qed.

Lemma max_by_elem {A} (cmp : A → A → comparison) l x : max_by cmp l = Some x → x ∈ l.
Proof.
  unfold max_by. rewrite <- (reverse_involutive l).
  induction (reverse l) as [|y k IH] in x |- *; [done|].
  rewrite reverse_cons, foldl_app. cbn.
  destruct (foldl _ None (reverse k)) as [b|] eqn:E.
  - destruct (cmp b y); intros [= <-]; rewrite elem_of_app, ?list_elem_of_singleton; auto.
  - intros [= <-]. rewrite elem_of_app, list_elem_of_singleton. auto.
Qed.

Lemma max_by_None {A} (cmp : A → A → comparison) l : max_by cmp l = None → l = [].
Proof.
  unfold max_by. rewrite <- (reverse_involutive l).
  destruct (reverse l) as [|y k]; [done|]. rewrite reverse_cons, foldl_app. cbn.
  destruct (foldl _ None (reverse k)) as [b|]; [|done]. by destruct (cmp b y).
Qed.

Lemma max_by_app {A} (cmp : A → A → comparison) l x :
  max_by cmp (l ++ [x]) = match max_by cmp l with
                          | Some b => if cmp b x is Gt then Some b else Some x
                          | None => Some x
                          end.
Proof. unfold max_by. by rewrite foldl_app. Qed.

(** Nothing of the list is greater. *)
Lemma max_by_ge {A} (cmp : A → A → comparison) l x y :
  total_cmp cmp → max_by cmp l = Some x → y ∈ l → cmp y x ≠ Gt.
Proof.
  intros [Hopp Htrans]. induction l as [|z l IH] in x, y |- * using rev_ind; [done|].
  assert (Hrefl : ∀ a, cmp a a ≠ Gt) by (intros a Ha; pose proof (Hopp a a) as E; by rewrite Ha in E).
  rewrite max_by_app, elem_of_app, list_elem_of_singleton.
  destruct (max_by cmp l) as [b|] eqn:E.
  - assert (Hby : y ∈ l → cmp y b ≠ Gt) by (by apply IH).
    destruct (cmp b z) eqn:Ebz; intros [= <-] [Hy| ->]; auto.
    + apply (Htrans _ b); [by apply Hby|by rewrite Ebz].
    + apply (Htrans _ b); [by apply Hby|by rewrite Ebz].
    + rewrite Hopp, Ebz. done.
  - intros [= <-] [Hy| ->]; [|done]. apply max_by_None in E as ->. by apply elem_of_nil in Hy.
Qed.

Lemma total_cmp_Z : total_cmp Z.compare.
Proof. split; [intros; apply Z.compare_antisym|exact Z.le_trans]. Qed.

Lemma max_Z_Some l x : max_Z l = Some x ↔ x ∈ l ∧ ∀ y, y ∈ l → (y ≤ x)%Z.
Proof.
  unfold max_Z. split.
  - intros H. split; [by apply max_by_elem in H|]. intros y Hy.
    exact (max_by_ge _ _ _ _ total_cmp_Z H Hy).
  - intros [Hx Hm]. destruct (max_by Z.compare l) as [z|] eqn:E.
    + pose proof (max_by_ge _ _ _ _ total_cmp_Z E Hx : (x ≤ z)%Z) as Hz.
      apply max_by_elem in E. specialize (Hm _ E). f_equal. lia.
    + apply max_by_None in E as ->. by apply elem_of_nil in Hx.
Qed.

Lemma min_Z_Some l x : min_Z l = Some x ↔ x ∈ l ∧ ∀ y, y ∈ l → (x ≤ y)%Z.
Proof.
  unfold min_Z. split.
  - intros H. split; [by apply max_by_elem in H|]. intros y Hy.
    exact (max_by_ge _ _ _ _ (total_cmp_flip _ total_cmp_Z) H Hy).
  - intros [Hx Hm]. destruct (max_by _ l) as [z|] eqn:E.
    + pose proof (max_by_ge _ _ _ _ (total_cmp_flip _ total_cmp_Z) E Hx : (z ≤ x)%Z) as Hz.
      apply max_by_elem in E. specialize (Hm _ E). f_equal. lia.
    + apply max_by_None in E as ->. by apply elem_of_nil in Hx.
Qed.

Lemma min_Z_None l : min_Z l = None ↔ l = [].
Proof. split; [apply max_by_None|by intros ->]. Qed.

Lemma wrap_i64_small z : (- 2 ^ 63 ≤ z < 2 ^ 63)%Z → wrap_i64 z = z.
Proof. intros H. unfold wrap_i64. rewrite Z.mod_small; lia. Qed.

Lemma wrap_i64_range z : (- 2 ^ 63 ≤ wrap_i64 z < 2 ^ 63)%Z.
Proof. unfold wrap_i64. pose proof (Z.mod_pos_bound (z + 2 ^ 63) (2 ^ 64)). lia. Qed.

Lemma keep_cons {A} (p : A → bool) x l :
  keep p (x :: l) = if p x then x :: keep p l else keep p l.
Proof. unfold keep. rewrite filter_cons. destruct (p x); by case_decide. Qed.

Lemma keep_app {A} (p : A → bool) l k : keep p (l ++ k) = keep p l ++ keep p k.
Proof. apply filter_app. Qed.

Lemma elem_of_keep {A} (p : A → bool) l x : x ∈ keep p l ↔ p x = true ∧ x ∈ l.
Proof. unfold keep. by rewrite list_elem_of_filter. Qed.

Lemma all_of_true {A} (p : A → bool) l : all_of p l = true ↔ ∀ x, x ∈ l → p x = true.
Proof. unfold all_of. rewrite forallb_forall. by setoid_rewrite list_elem_of_In. Qed.

Lemma any_of_true {A} (p : A → bool) l : any_of p l = true ↔ ∃ x, x ∈ l ∧ p x = true.
Proof. unfold any_of. rewrite existsb_exists. by setoid_rewrite list_elem_of_In. Qed.

Lemma any_of_false {A} (p : A → bool) l : any_of p l = false ↔ ∀ x, x ∈ l → p x = false.
Proof.
  rewrite <- not_true_iff_false, any_of_true. split.
  - intros H x Hx. apply not_true_iff_false. eauto.
  - intros H (x & Hx & Hp). by rewrite H in Hp.
Qed.

Lemma chunks_go_enough {A} fuel1 fuel2 n (l : list A) :
  (0 < n)%nat → (length l ≤ fuel1)%nat → (length l ≤ fuel2)%nat →
  chunks_go fuel1 n l = chunks_go fuel2 n l.
Proof.
  intros Hn. revert fuel2 l.
  induction fuel1 as [|f1 IH]; intros [|f2] [|x l]; cbn; intros; try done; try lia.
  f_equal. apply IH; rewrite length_drop; cbn; lia.
Qed.

Lemma chunks_cons {A} n (l : list A) :
  (0 < n)%nat → l ≠ [] → chunks n l = take n l :: chunks n (drop n l).
Proof.
  intros Hn Hl. destruct l as [|x l]; [done|]. unfold chunks. cbn [length chunks_go].
  f_equal. apply chunks_go_enough; [done|..]; rewrite ?length_drop; cbn; lia.
Qed.

(** Induction by blocks of [n]. *)
Lemma block_ind {A} n (Hn : (0 < n)%nat) (P : list A → Prop) :
  P [] → (∀ l, l ≠ [] → P (drop n l) → P l) → ∀ l, P l.
Proof.
  intros H0 Hstep l.
  remember (length l) as len eqn:E. revert l E.
  induction len as [len IH] using lt_wf_ind. intros l ->.
  destruct l as [|x l]; [done|]. apply Hstep; [done|].
  eapply IH; [|done]. rewrite length_drop. cbn. lia.
Qed.

Lemma elem_of_btree_elems s x : x ∈ btree_elems s ↔ x ∈ s.
Proof. unfold btree_elems. by rewrite merge_sort_Permutation, elem_of_elements. Qed.

Lemma NoDup_btree_elems s : NoDup (btree_elems s).
Proof. unfold btree_elems. rewrite merge_sort_Permutation. apply NoDup_elements. Qed.

Lemma sorted_btree_elems s : StronglySorted String.le (btree_elems s).
Proof. apply StronglySorted_merge_sort; apply _. Qed.

Lemma length_btree_elems s : length (btree_elems s) = size s.
Proof. unfold btree_elems. by rewrite merge_sort_Permutation. Qed.

Lemma elem_of_btree_keys {V} (m : gmap string V) k : k ∈ btree_keys m ↔ is_Some (m !! k).
Proof. unfold btree_keys. by rewrite elem_of_btree_elems, elem_of_dom. Qed.

Lemma NoDup_btree_keys {V} (m : gmap string V) : NoDup (btree_keys m).
Proof. apply NoDup_btree_elems. Qed.

Lemma elem_of_btree_entries {V} (m : gmap string V) k v :
  (k, v) ∈ btree_entries m ↔ m !! k = Some v.
Proof.
  unfold btree_entries. rewrite list_elem_of_omap. split.
  - intros (k' & Hk & Hv). destruct (m !! k') eqn:E; naive_solver.
  - intros H. exists k. rewrite elem_of_btree_keys, H. eauto.
Qed.

Lemma elem_of_btree_values {V} (m : gmap string V) v :
  v ∈ btree_values m ↔ ∃ k, m !! k = Some v.
Proof.
  unfold btree_values. rewrite list_elem_of_fmap. split.
  - intros ((k & v') & -> & H). apply elem_of_btree_entries in H. eauto.
  - intros (k & H). exists (k, v). by rewrite elem_of_btree_entries.
Qed.

Lemma btree_entries_keys {V} (m : gmap string V) : (btree_entries m).*1 = btree_keys m.
Proof.
  unfold btree_entries.
  assert (H : ∀ k, k ∈ btree_keys m → is_Some (m !! k))
    by (intros; by apply elem_of_btree_keys).
  induction (btree_keys m) as [|k l IH]; [done|]. cbn.
  destruct (H k) as [v ->]; [by left|]. cbn. rewrite IH; [done|].
  intros; apply H; by right.
Qed.

#[export] Hint Resolve total_cmp_on total_cmp_flip total_cmp_then total_cmp_option total_cmp_nat
  total_cmp_bool total_cmp_string : hlb.
#[export] Hint Resolve NoDup_btree_elems NoDup_btree_keys sorted_btree_elems : hlb.
#[export] Hint Rewrite @elem_of_keep @elem_of_btree_elems @elem_of_btree_keys : hlb.

Lemma sorted_lookup (l : list nat) i j x y :
  StronglySorted lt l → l !! i = Some x → l !! j = Some y → (i ≤ j)%nat → (x ≤ y)%nat.
Proof.
  intros Hs. revert i j. induction Hs as [|z l _ IH Hz]; intros i j Hx Hy Hij; [done|].
  destruct i as [|i], j as [|j]; cbn in *; simplify_eq; [lia| |lia|eapply IH; eauto; lia].
  rewrite Forall_lookup in Hz. specialize (Hz j y Hy). lia.
Qed.

Lemma sorted_NoDup (l : list nat) : StronglySorted lt l → NoDup l.
Proof.
  induction 1 as [|x l _ IH Hx]; constructor; [|done]. intros Hin.
  rewrite Forall_forall in Hx. specialize (Hx x Hin). lia.
Qed.

Lemma eff_bind_Ok {S E A B : Type} (m : eff S E A) (k : A → eff S E B) s b s' :
  eff_bind m k s = (Ok b, s') ↔ ∃ a s1, m s = (Ok a, s1) ∧ k a s1 = (Ok b, s').
Proof.
  unfold eff_bind. destruct (m s) as [[a|e] s1].
  - split; [by exists a, s1|]. by intros (x & y & [= <- <-] & H).
  - split; [done|]. by intros (x & y & [=] & _).
Qed.

(** ** What code with a state leaves alone

    [keeps R m]: the state after [m], error or not, is in [R] with the state before. *)

Definition keeps {S E A} (R : relation S) (m : eff S E A) : Prop := ∀ s, R s (m s).2.

(** What [f] reads of a state is the same. *)
Definition same_on {S T} (f : S → T) : relation S := λ s s', f s' = f s.
#[export] Instance same_on_preorder {S T} (f : S → T) : PreOrder (same_on f).
Proof. split; [by intros s|]. intros s1 s2 s3 H1 H2. unfold same_on in *. congruence. Qed.

Section keeps.
Context {S E : Type} (R : relation S) `{!PreOrder R}.

Lemma keeps_ret {A} (a : A) : keeps R (eff_ret (E := E) a).
Proof. intros s. cbn. reflexivity. Qed.
Lemma keeps_fail {A} (e : E) : keeps R (eff_fail (A := A) e).
Proof. intros s. cbn. reflexivity. Qed.
Lemma keeps_get {A} (f : S → A) : keeps R (eff_get (E := E) f).
Proof. intros s. cbn. reflexivity. Qed.
Lemma keeps_of {A} (m : result E A) : keeps R (eff_of m).
Proof. intros s. cbn. reflexivity. Qed.
Lemma keeps_bind {A B} (m : eff S E A) (k : A → eff S E B) :
  keeps R m → (∀ a, keeps R (k a)) → keeps R (eff_bind m k).
Proof.
  intros Hm Hk s. unfold eff_bind. specialize (Hm s). destruct (m s) as [[a|e] s1]; cbn in *; [|done].
  etransitivity; [exact Hm|apply Hk].
Qed.
Lemma keeps_when (b : bool) (m : eff S E ()) : keeps R m → keeps R (eff_when b m).
Proof. destruct b; [done|]. intros _. apply keeps_ret. Qed.
Lemma keeps_each {A} (f : A → eff S E ()) l : (∀ a, a ∈ l → keeps R (f a)) → keeps R (eff_each f l).
Proof.
  induction l as [|a l IH]; intros H; cbn; [apply keeps_ret|]. apply keeps_bind.
  - apply H. by left.
  - intros _. apply IH. intros b Hb. apply H. by right.
Qed.
End keeps.

Ltac keeps_steps :=
  repeat (intros; first
    [ eapply keeps_bind; [apply _|..] | eapply keeps_when; [apply _|..]
    | eapply keeps_each; [apply _|..] | apply keeps_ret; apply _ | apply keeps_fail; apply _
    | apply keeps_get; apply _ | apply keeps_of; apply _ | case_match ]).
