(* ===== verification/RustStr.v ===== *)
(** * The operations of [str] the source uses

    A [String] or [&str] is a [string] of bytes (UTF-8). Each definition is an operation
    of Rust's standard library, written for byte strings; the ones that test characters
    are exact on UTF-8, the ASCII ones by construction, [trim] by matching the encodings
    of the characters of Unicode's [White_Space] property. *)

From S2P Require Import Prelude.
From Stdlib Require Export Ascii.

#[global] Open Scope string_scope.
#[global] Open Scope list_scope.

(** ** Bytes *)

Definition byte_of (c : ascii) : N := N_of_ascii c.

Definition is_digit (c : ascii) : bool := ((48 <=? byte_of c) && (byte_of c <=? 57))%N.
Definition is_lower (c : ascii) : bool := ((97 <=? byte_of c) && (byte_of c <=? 122))%N.
Definition is_upper (c : ascii) : bool := ((65 <=? byte_of c) && (byte_of c <=? 90))%N.
Definition is_alnum (c : ascii) : bool := is_digit c || is_lower c || is_upper c.

(** [u8::is_ascii_whitespace]: space, tab, line feed, form feed, carriage return. *)
Definition is_ascii_whitespace (c : ascii) : bool :=
  bool_decide (byte_of c ∈ [32; 9; 10; 12; 13]%N).

Definition ascii_lower (c : ascii) : ascii :=
  if is_upper c then ascii_of_N (byte_of c + 32) else c.
Definition ascii_upper (c : ascii) : ascii :=
  if is_lower c then ascii_of_N (byte_of c - 32) else c.

(** [u8 as char] for a byte below 128. *)
Definition char_of (n : N) : ascii := ascii_of_N n.

(** ** Strings as lists of bytes *)

Abbreviation chars := String.list_ascii_of_string.
Abbreviation of_chars := String.string_of_list_ascii.

Fixpoint str_map (f : ascii → ascii) (s : string) : string :=
  match s with "" => "" | String c s => String (f c) (str_map f s) end.
Fixpoint str_filter (p : ascii → bool) (s : string) : string :=
  match s with
  | "" => ""
  | String c s => if p c then String c (str_filter p s) else str_filter p s
  end.
Fixpoint str_all (p : ascii → bool) (s : string) : bool :=
  match s with "" => true | String c s => p c && str_all p s end.
Fixpoint str_any (p : ascii → bool) (s : string) : bool :=
  match s with "" => false | String c s => p c || str_any p s end.

Definition to_ascii_lowercase : string → string := str_map ascii_lower.
Definition to_ascii_uppercase : string → string := str_map ascii_upper.

Definition str_is_empty (s : string) : bool :=
  match s with "" => true | _ => false end.

(** [<\[String\]>::join]. *)
Fixpoint join (sep : string) (l : list string) : string :=
  match l with
  | [] => ""
  | [s] => s
  | s :: l => s +:+ sep +:+ join sep l
  end.

(** ** Searching *)

(** [str::starts_with] and [str::strip_prefix]. *)
Fixpoint strip_prefix (p s : string) : option string :=
  match p, s with
  | "", _ => Some s
  | String a p, String b s => if decide (a = b) then strip_prefix p s else None
  | _, "" => None
  end.
Definition starts_with (p s : string) : bool := bool_decide (is_Some (strip_prefix p s)).

(** [str::strip_suffix] and [str::ends_with]. *)
Definition strip_suffix (p s : string) : option string :=
  String.rev <$> strip_prefix (String.rev p) (String.rev s).
Definition ends_with (p s : string) : bool := bool_decide (is_Some (strip_suffix p s)).

(** [str::split_once] by a character, at its first occurrence. *)
Fixpoint split_once (c : ascii) (s : string) : option (string * string) :=
  match s with
  | "" => None
  | String d s =>
      if decide (d = c) then Some ("", s)
      else '(a, b) ← split_once c s; Some (String d a, b)
  end.

(** [str::rsplit_once] by a character, at its last occurrence. *)
Fixpoint rsplit_once (c : ascii) (s : string) : option (string * string) :=
  match s with
  | "" => None
  | String d s =>
      match rsplit_once c s with
      | Some (a, b) => Some (String d a, b)
      | None => if decide (d = c) then Some ("", s) else None
      end
  end.

(** [str::split] by a predicate on ASCII characters: never empty. *)
Fixpoint split_by (p : ascii → bool) (s : string) : list string :=
  match s with
  | "" => [""]
  | String d s =>
      if p d then "" :: split_by p s
      else match split_by p s with
           | [] => [String d ""]
           | w :: ws => String d w :: ws
           end
  end.
Definition split_char (c : ascii) : string → list string := split_by (λ d, bool_decide (d = c)).

(** [str::split_once] on several ASCII characters. *)
Fixpoint split_once_by (p : ascii → bool) (s : string) : option (string * string) :=
  match s with
  | "" => None
  | String d s => if p d then Some ("", s) else '(a, b) ← split_once_by p s; Some (String d a, b)
  end.

(** [str::lines]: a last line that is empty is none, and a carriage return goes with the
    end of its line. *)
Definition strip_cr (s : string) : string := default s (strip_suffix (String "013" "") s).
Definition lines (s : string) : list string :=
  let l := split_char "010" s in
  strip_cr <$> (if default "" (last l) ==? "" then take (length l - 1) l else l).

(** [str::find] of a text, as what stands before and after its first occurrence. *)
Fixpoint find_str (p s : string) : option (string * string) :=
  match strip_prefix p s with
  | Some rest => Some ("", rest)
  | None =>
      match s with
      | "" => None
      | String d s => '(a, b) ← find_str p s; Some (String d a, b)
      end
  end.
Definition contains (p s : string) : bool := bool_decide (is_Some (find_str p s)).
Definition contains_char (c : ascii) (s : string) : bool := str_any (λ d, bool_decide (d = c)) s.

(** [str::replace] of a non-empty text: left to right, without overlap. [skip] counts the
    bytes of the occurrence just replaced. *)
Fixpoint replace_go (from to : string) (skip : nat) (s : string) : string :=
  match s with
  | "" => ""
  | String d rest =>
      match skip with
      | S k => replace_go from to k rest
      | O => if starts_with from s
             then to +:+ replace_go from to (String.length from - 1) rest
             else String d (replace_go from to 0 rest)
      end
  end.
Definition replace (from to s : string) : string := replace_go from to 0 s.

(** [str::trim]: the encodings of the [White_Space] characters. *)
Definition ws1 (a : ascii) : bool :=
  let a := byte_of a in ((9 <=? a) && (a <=? 13) || (a =? 32))%N.
Definition ws2 (a b : ascii) : bool :=
  ((byte_of a =? 194) && ((byte_of b =? 133) || (byte_of b =? 160)))%N.
Definition ws3 (a b c : ascii) : bool :=
  let a := byte_of a in let b := byte_of b in let c := byte_of c in
  ((a =? 225) && (b =? 154) && (c =? 128)
   || (a =? 226) && (b =? 128)
      && ((128 <=? c) && (c <=? 138) || (c =? 168) || (c =? 169) || (c =? 175))
   || (a =? 226) && (b =? 129) && (c =? 159)
   || (a =? 227) && (b =? 128) && (c =? 128))%N.

Fixpoint trim_start (s : string) : string :=
  match s with
  | "" => ""
  | String a r1 =>
      if ws1 a then trim_start r1 else
      match r1 with
      | "" => s
      | String b r2 =>
          if ws2 a b then trim_start r2 else
          match r2 with
          | "" => s
          | String c r3 => if ws3 a b c then trim_start r3 else s
          end
      end
  end.
(** The same on the reversed string, whose encodings read backwards. *)
Fixpoint trim_start_rev (s : string) : string :=
  match s with
  | "" => ""
  | String a r1 =>
      if ws1 a then trim_start_rev r1 else
      match r1 with
      | "" => s
      | String b r2 =>
          if ws2 b a then trim_start_rev r2 else
          match r2 with
          | "" => s
          | String c r3 => if ws3 c b a then trim_start_rev r3 else s
          end
      end
  end.
Definition trim_end (s : string) : string := String.rev (trim_start_rev (String.rev s)).
Definition trim (s : string) : string := trim_end (trim_start s).

(** [str::to_lowercase], as far as an ASCII text searched in it can tell: of the characters
    that are not ASCII the Kelvin sign alone becomes an ASCII letter, and the capital I with
    a dot one followed by the dot. The others stay as they are here. *)
Fixpoint to_lowercase (s : string) : string :=
  match s with
  | "" => ""
  | String a s1 =>
      match s1 with
      | String b s2 =>
          if ((byte_of a =? 196) && (byte_of b =? 176))%N
          then String "i" (String "204" (String "135" (to_lowercase s2)))
          else match s2 with
               | String c s3 =>
                   if ((byte_of a =? 226) && (byte_of b =? 132) && (byte_of c =? 170))%N
                   then String "k" (to_lowercase s3) else String (ascii_lower a) (to_lowercase s1)
               | "" => String (ascii_lower a) (to_lowercase s1)
               end
      | "" => String (ascii_lower a) (to_lowercase s1)
      end
  end.

(** A byte of an encoding after its first. *)
Definition is_cont (c : ascii) : bool := ((128 <=? byte_of c) && (byte_of c <=? 191))%N.

(** [str::get(..n)]: [None] past the end or inside a character. *)
Fixpoint get_to (n : nat) (s : string) : option string :=
  match n, s with
  | O, "" => Some ""
  | O, String c _ => if is_cont c then None else Some ""
  | S _, "" => None
  | S n, String c s => String c <$> get_to n s
  end.

(** The second byte an encoding may have after its first. *)
Definition utf8_second (a b : ascii) : bool :=
  let a := byte_of a in let b := byte_of b in
  (let within lo hi := (lo <=? b) && (b <=? hi) in
   if (194 <=? a) && (a <=? 223) then within 128 191
   else if a =? 224 then within 160 191
   else if a =? 237 then within 128 159
   else if (225 <=? a) && (a <=? 239) then within 128 191
   else if a =? 240 then within 144 191
   else if (241 <=? a) && (a <=? 243) then within 128 191
   else if a =? 244 then within 128 143
   else false)%N.
Definition replacement (s : string) : string := String "239" (String "191" (String "189" s)).

(** [String::from_utf8_lossy]: what cannot be the start of a character, as far as it could,
    is one replacement character. *)
Fixpoint from_utf8_lossy (l : list ascii) : string :=
  match l with
  | [] => ""
  | a :: l1 =>
      if (byte_of a <? 128)%N then String a (from_utf8_lossy l1)
      else match l1 with
      | [] => replacement ""
      | b :: l2 =>
          if negb (utf8_second a b) then replacement (from_utf8_lossy l1)
          else if (byte_of a <? 224)%N then String a (String b (from_utf8_lossy l2))
          else match l2 with
          | [] => replacement ""
          | c :: l3 =>
              if negb (is_cont c) then replacement (from_utf8_lossy l2)
              else if (byte_of a <? 240)%N then String a (String b (String c (from_utf8_lossy l3)))
              else match l3 with
              | [] => replacement ""
              | d :: l4 =>
                  if negb (is_cont d) then replacement (from_utf8_lossy l3)
                  else String a (String b (String c (String d (from_utf8_lossy l4))))
              end
          end
      end
  end.

(** A strict reading of UTF-8. *)
Definition from_utf8 (l : list ascii) : option string :=
  let s := from_utf8_lossy l in if chars s ==? l then Some s else None.

(** The last byte, and what stands before it. *)
Fixpoint split_last (s : string) : option (string * ascii) :=
  match s with
  | "" => None
  | String c "" => Some ("", c)
  | String c s => '(a, d) ← split_last s; Some (String c a, d)
  end.

(** [str::trim_start_matches] of a character. *)
Fixpoint trim_start_matches (c : ascii) (s : string) : string :=
  match s with
  | "" => ""
  | String d rest => if decide (d = c) then trim_start_matches c rest else s
  end.

(** [str::trim_end_matches] of a character. *)
Definition trim_end_matches (c : ascii) (s : string) : string :=
  String.rev (trim_start_matches c (String.rev s)).

(** [str::contains(char::is_whitespace)]: the encoding of one is found wherever it is, the
    bytes of UTF-8 marking where a character starts. *)
Fixpoint has_whitespace (s : string) : bool :=
  match s with
  | "" => false
  | String a r =>
      ws1 a
      || match r with
         | String b r' => ws2 a b || match r' with String c _ => ws3 a b c | "" => false end
         | "" => false
         end
      || has_whitespace r
  end.

(** [u8::is_ascii_control]. *)
Definition is_ascii_control (c : ascii) : bool := ((byte_of c <? 32) || (byte_of c =? 127))%N.

(** [{:?}] of a text: between quotes, the quote, the backslash and the control characters
    escaped. The other characters are written as they are, as Rust does those of ASCII and
    the printable ones beyond. *)
Definition hex_lower (n : N) : ascii := ascii_of_N (if (n <? 10)%N then 48 + n else 87 + n).
Definition debug_char (c : ascii) : string :=
  if (byte_of c =? 34)%N then "\" +:+ String c ""
  else if (byte_of c =? 92)%N then "\\"
  else if (byte_of c =? 10)%N then "\n"
  else if (byte_of c =? 13)%N then "\r"
  else if (byte_of c =? 9)%N then "\t"
  else if (byte_of c =? 0)%N then "\0"
  else if is_ascii_control c then
    "\u{" +:+ (if (byte_of c <? 16)%N then "" else String (hex_lower (byte_of c / 16)) "")
    +:+ String (hex_lower (byte_of c mod 16)) "}"
  else String c "".
Definition debug_str (s : string) : string :=
  String "034" (join "" (debug_char <$> chars s) +:+ String "034" "").

(** A text between quotes in a message. *)
Definition quoted_str (s : string) : string := String "034" (s +:+ String "034" "").

(** ** Numbers *)

Definition digit_value (c : ascii) : N := (byte_of c - 48)%N.

(** The digits of a number, none of them missing. *)
Fixpoint parse_digits (acc : N) (s : string) : option N :=
  match s with
  | "" => Some acc
  | String c s => if is_digit c then parse_digits (10 * acc + digit_value c)%N s else None
  end.

(** [str::parse] of an unsigned integer whose greatest value is [max]: an optional [+],
    then at least one digit, and no overflow. *)
Definition parse_uint (max : N) (s : string) : option N :=
  let digits := default s (strip_prefix "+" s) in
  if str_is_empty digits then None else
  n ← parse_digits 0 digits;
  if decide (n ≤ max)%N then Some n else None.

(** [str::parse::<i64>]. *)
Definition parse_i64 (s : string) : option Z :=
  match strip_prefix "-" s with
  | Some digits =>
      if str_is_empty digits then None else
      n ← parse_digits 0 digits;
      if decide (n ≤ 2 ^ 63)%N then Some (- Z.of_N n)%Z else None
  | None => Z.of_N <$> parse_uint (2 ^ 63 - 1) s
  end.

(** [char::is_ascii_hexdigit], and [from_str_radix] in base 16: an optional [+], then at
    least one digit of either case. *)
Definition hex_digit (c : ascii) : option N :=
  let b := byte_of c in
  if is_digit c then Some (b - 48)%N
  else if ((97 <=? b) && (b <=? 102))%N then Some (b - 87)%N
  else if ((65 <=? b) && (b <=? 70))%N then Some (b - 55)%N
  else None.
Definition is_hexdigit (c : ascii) : bool := bool_decide (is_Some (hex_digit c)).
Fixpoint parse_hex_digits (acc : N) (s : string) : option N :=
  match s with
  | "" => Some acc
  | String c s => v ← hex_digit c; parse_hex_digits (16 * acc + v)%N s
  end.
Definition parse_hex (max : N) (s : string) : option N :=
  let digits := default s (strip_prefix "+" s) in
  if str_is_empty digits then None else
  n ← parse_hex_digits 0 digits;
  if decide (n ≤ max)%N then Some n else None.

Definition digit_char (n : N) : ascii := ascii_of_N (48 + n).

(** [to_string] of an unsigned integer, its digits put before [acc]. *)
Fixpoint show_go (fuel : nat) (n : N) (acc : string) : string :=
  match fuel with
  | O => acc
  | S fuel =>
      let acc := String (digit_char (n mod 10)) acc in
      if (n <? 10)%N then acc else show_go fuel (n / 10) acc
  end.
Definition show_N (n : N) : string := show_go (S (N.size_nat n)) n "".
Definition show_Z (z : Z) : string :=
  match z with
  | Zneg p => "-" +:+ show_N (Npos p)
  | _ => show_N (Z.to_N z)
  end.
Definition show_nat (n : nat) : string := show_N (N.of_nat n).

(** [{:0w}] of an integer: zeros between its sign and its digits, [w] characters at least. *)
Definition pad_zeros (w : nat) (s : string) : string :=
  of_chars (replicate (w - String.length s) "0"%char) +:+ s.
Definition show_pad (w : nat) (z : Z) : string :=
  match z with
  | Zneg p => "-" +:+ pad_zeros (w - 1) (show_N (Npos p))
  | _ => pad_zeros w (show_N (Z.to_N z))
  end.
Definition show_bool (b : bool) : string := if b then "true" else "false".

(** ** Lemmas *)

Lemma append_nil_r s : s +:+ "" = s.
Proof. induction s as [|c s IH]; [done|]. change (String c (s +:+ "") = String c s). by rewrite IH. Qed.

Lemma append_cons c s t : String c s +:+ t = String c (s +:+ t).
Proof. done. Qed.

Lemma append_assoc s t u : (s +:+ t) +:+ u = s +:+ (t +:+ u).
Proof. induction s as [|c s IH]; [done|]. rewrite !append_cons. by rewrite IH. Qed.

Lemma append_inj_l s t u : s +:+ t = s +:+ u → t = u.
Proof. induction s as [|c s IH]; [done|]. rewrite !append_cons. by intros [= ?%IH]. Qed.

Lemma strip_prefix_Some p s r : strip_prefix p s = Some r ↔ s = p +:+ r.
Proof.
  revert s; induction p as [|a p IH]; intros s; cbn.
  - change ("" +:+ r) with r. naive_solver.
  - destruct s as [|b s]; rewrite append_cons; [done|].
    case_decide; subst; [rewrite IH|]; naive_solver.
Qed.

Lemma starts_with_true p s : starts_with p s = true ↔ ∃ r, s = p +:+ r.
Proof.
  unfold starts_with. rewrite bool_decide_eq_true. unfold is_Some.
  by setoid_rewrite strip_prefix_Some.
Qed.

Lemma strip_prefix_append p r : strip_prefix p (p +:+ r) = Some r.
Proof. by apply strip_prefix_Some. Qed.

Lemma split_once_Some c s a b :
  split_once c s = Some (a, b) → s = a +:+ String c b ∧ contains_char c a = false.
Proof.
  revert a b; induction s as [|d s IH]; intros a b; cbn; [done|].
  case_decide; [intros; simplify_eq; done|].
  destruct (split_once c s) as [[a' b']|]; cbn; [|done].
  intros [= <- <-]. destruct (IH a' b' eq_refl) as [-> Hc]. split; [done|].
  unfold contains_char in *. cbn. by rewrite Hc, bool_decide_eq_false_2.
Qed.

Lemma split_once_None c s : split_once c s = None ↔ contains_char c s = false.
Proof.
  unfold contains_char. induction s as [|d s IH]; cbn; [done|].
  case_decide; [subst; by rewrite bool_decide_eq_true_2|].
  rewrite bool_decide_eq_false_2 by done. cbn. rewrite <- IH.
  destruct (split_once c s) as [[]|]; cbn; naive_solver.
Qed.

Lemma split_once_append c a b :
  contains_char c a = false → split_once c (a +:+ String c b) = Some (a, b).
Proof.
  unfold contains_char. induction a as [|d a IH]; cbn.
  - intros _. change ("" +:+ ?x) with x. cbn. by rewrite decide_True.
  - case_bool_decide; [done|]. cbn. intros H'. rewrite append_cons. cbn.
    rewrite decide_False by done. by rewrite IH.
Qed.

Lemma rsplit_once_Some c s a b :
  rsplit_once c s = Some (a, b) → s = a +:+ String c b ∧ contains_char c b = false.
Proof.
  revert a b; induction s as [|d s IH]; intros a b; cbn; [done|].
  destruct (rsplit_once c s) as [[a' b']|] eqn:E.
  - intros [= <- <-]. destruct (IH a' b' eq_refl) as [-> ?]. done.
  - case_decide; [|done]. intros [= <- <-]. subst. split; [done|].
    clear IH. unfold contains_char. revert E. induction s as [|e s IH]; cbn; [done|].
    destruct (rsplit_once c s) as [[]|]; [done|]. case_decide; [done|].
    intros _. rewrite bool_decide_eq_false_2 by done. by apply IH.
Qed.

Lemma rsplit_once_None c s : rsplit_once c s = None ↔ contains_char c s = false.
Proof.
  unfold contains_char. induction s as [|d s IH]; cbn; [done|].
  destruct (rsplit_once c s) as [[]|]; cbn.
  - split; [done|]. intros [_ H]%orb_false_iff. by apply IH in H.
  - case_decide; subst; [by rewrite bool_decide_eq_true_2|].
    rewrite bool_decide_eq_false_2 by done. naive_solver.
Qed.

Lemma rsplit_once_append c a b :
  contains_char c b = false → rsplit_once c (a +:+ String c b) = Some (a, b).
Proof.
  intros Hb. induction a as [|d a IH].
  - change ("" +:+ ?x) with x. cbn.
    apply rsplit_once_None in Hb as ->. by rewrite decide_True.
  - rewrite append_cons. cbn. by rewrite IH.
Qed.

Lemma contains_char_append c a b :
  contains_char c (a +:+ b) = contains_char c a || contains_char c b.
Proof.
  unfold contains_char. induction a as [|d a IH]; [done|].
  rewrite append_cons. cbn. by rewrite IH, orb_assoc.
Qed.

(** *** Decimal round trip *)

Lemma N_of_digit_char n : (n < 10)%N → byte_of (digit_char n) = (48 + n)%N.
Proof. intros. unfold byte_of, digit_char. apply N_ascii_embedding. lia. Qed.

Lemma is_digit_char n : (n < 10)%N → is_digit (digit_char n) = true.
Proof.
  intros. unfold is_digit. rewrite N_of_digit_char by done.
  apply andb_true_iff. rewrite !N.leb_le. lia.
Qed.

Lemma digit_value_char n : (n < 10)%N → digit_value (digit_char n) = n.
Proof. intros. unfold digit_value. rewrite N_of_digit_char by done. lia. Qed.

Lemma parse_digits_cons acc n s :
  (n < 10)%N →
  parse_digits acc (String (digit_char n) s) = parse_digits (10 * acc + n) s.
Proof. intros. cbn -[N.mul]. by rewrite is_digit_char, digit_value_char. Qed.

(** What [show_go] puts before [acc] is read back as the number, once [fuel] covers it. *)
Lemma parse_show_go fuel n acc :
  (n < 2 ^ N.of_nat fuel)%N → (0 < fuel)%nat →
  ∃ s, show_go fuel n acc = s +:+ acc ∧ s ≠ "" ∧
       ∀ r, parse_digits 0 (s +:+ r) = parse_digits n r.
Proof.
  revert n acc. induction fuel as [|fuel IH]; intros n acc Hn Hf; [lia|]. cbn -[N.mul].
  assert (Hm : (n mod 10 < 10)%N) by (apply N.mod_lt; lia).
  destruct (N.ltb_spec n 10).
  - exists (String (digit_char (n mod 10)) ""). split; [done|]. split; [done|].
    intros r. rewrite append_cons. change ("" +:+ r) with r.
    rewrite parse_digits_cons by done. by rewrite N.mod_small by lia.
  - destruct (IH (n / 10)%N (String (digit_char (n mod 10)) acc)) as (s & -> & Hs & Hp).
    + rewrite Nat2N.inj_succ, N.pow_succ_r' in Hn. apply N.Div0.div_lt_upper_bound; lia.
    + destruct fuel; [cbn in Hn; lia|lia].
    + exists (s +:+ String (digit_char (n mod 10)) ""). split; [|split].
      * by rewrite append_assoc.
      * by destruct s.
      * intros r. rewrite append_assoc, Hp, append_cons. change ("" +:+ r) with r.
        rewrite parse_digits_cons by done. f_equal.
        pose proof (N.div_mod n 10). lia.
Qed.

Lemma N_size_nat_bound n : (n < 2 ^ N.of_nat (S (N.size_nat n)))%N.
Proof.
  assert (H : (n < 2 ^ N.size n)%N) by apply N.size_gt.
  assert (E : N.of_nat (N.size_nat n) = N.size n).
  { clear H. destruct n as [|p]; [done|]. cbn [N.size N.size_nat].
    induction p as [p IH|p IH|]; cbn [Pos.size Pos.size_nat];
      [rewrite Nat2N.inj_succ, IH..|]; reflexivity. }
  rewrite Nat2N.inj_succ, N.pow_succ_r', E. lia.
Qed.

Lemma parse_show_digits n : parse_digits 0 (show_N n) = Some n ∧ show_N n ≠ "".
Proof.
  unfold show_N. destruct (parse_show_go (S (N.size_nat n)) n "") as (s & -> & Hs & Hp).
  - apply N_size_nat_bound.
  - lia.
  - rewrite Hp. split; [done|]. destruct s; [done|]. by rewrite append_cons.
Qed.

Lemma show_go_digits fuel n acc :
  (n < 2 ^ N.of_nat fuel)%N → str_all is_digit acc = true →
  str_all is_digit (show_go fuel n acc) = true.
Proof.
  revert n acc. induction fuel as [|fuel IH]; intros n acc Hn Ha; [done|]. cbn -[N.mul].
  assert (Hm : (n mod 10 < 10)%N) by (apply N.mod_lt; lia).
  assert (Ha' : str_all is_digit (String (digit_char (n mod 10)) acc) = true)
    by (cbn; by rewrite is_digit_char, Ha).
  case_match; [done|]. apply IH; [|done].
  rewrite Nat2N.inj_succ, N.pow_succ_r' in Hn. apply N.Div0.div_lt_upper_bound. lia.
Qed.

Lemma show_N_digits n : str_all is_digit (show_N n) = true.
Proof. apply show_go_digits; [apply N_size_nat_bound|done]. Qed.

(** [n.to_string().parse()] is [n]. *)
Lemma parse_uint_show max n : (n ≤ max)%N → parse_uint max (show_N n) = Some n.
Proof.
  intros Hn. unfold parse_uint. destruct (parse_show_digits n) as [Hp Hne].
  pose proof (show_N_digits n) as Hd.
  assert (Hplus : strip_prefix "+" (show_N n) = None).
  { destruct (show_N n) as [|c s]; [done|]. cbn. case_decide; [|done]. by subst. }
  rewrite Hplus. cbn [default]. destruct (show_N n) as [|c s]; [done|]. cbn [str_is_empty].
  rewrite Hp. cbn. by rewrite decide_True.
Qed.

Lemma parse_uint_bound max s n : parse_uint max s = Some n → (n ≤ max)%N.
Proof.
  unfold parse_uint. case_match; [done|]. intros (m & _ & H')%bind_Some.
  case_decide; naive_solver.
Qed.

Lemma show_N_inj m n : show_N m = show_N n → m = n.
Proof.
  intros H. destruct (parse_show_digits m) as [Hm _], (parse_show_digits n) as [Hn _].
  rewrite H, Hn in Hm. congruence.
Qed.

Lemma str_all_contains_char p c s :
  str_all p s = true → p c = false → contains_char c s = false.
Proof.
  unfold contains_char. intros Hall Hc. induction s as [|d s IH]; [done|].
  cbn in *. apply andb_true_iff in Hall as [Hd Hall].
  rewrite bool_decide_eq_false_2 by congruence. by apply IH.
Qed.

Lemma show_N_no_char c n : is_digit c = false → contains_char c (show_N n) = false.
Proof. intros. eapply str_all_contains_char; [apply show_N_digits|done]. Qed.

(** *** [split] *)

Lemma split_char_one c s : contains_char c s = false → split_char c s = [s].
Proof.
  unfold contains_char, split_char. induction s as [|d s IH]; [done|]. cbn.
  case_bool_decide; [done|]. cbn. intros H'. by rewrite (IH H').
Qed.

Lemma split_char_cons c a b :
  contains_char c a = false → split_char c (a +:+ String c b) = a :: split_char c b.
Proof.
  unfold contains_char, split_char. induction a as [|d a IH]; cbn.
  - intros _. change ("" +:+ ?x) with x. cbn. by rewrite bool_decide_eq_true_2.
  - case_bool_decide; [done|]. cbn. intros H'. rewrite append_cons. cbn.
    rewrite bool_decide_eq_false_2 by done. by rewrite IH.
Qed.

Lemma split_char_ne c s : split_char c s ≠ [].
Proof.
  unfold split_char. destruct s as [|d s]; [done|]. cbn.
  destruct (bool_decide _); [done|]. by destruct (split_by _ s).
Qed.

(** What stands on both sides of a separator is split apart. *)
Lemma split_char_append c a b : split_char c (a +:+ String c b) = split_char c a ++ split_char c b.
Proof.
  induction a as [|d a IH].
  - change ("" +:+ ?x) with x. unfold split_char. cbn. by rewrite bool_decide_eq_true_2.
  - rewrite append_cons. pose proof (split_char_ne c a) as Hne. unfold split_char in *. cbn.
    rewrite IH. destruct (bool_decide _); [done|]. by destruct (split_by _ a).
Qed.

Lemma join_split c s : join (String c "") (split_char c s) = s.
Proof.
  induction s as [|d s IH]; [done|]. pose proof (split_char_ne c s) as Hne.
  unfold split_char in *. cbn [split_by]. destruct (bool_decide _) eqn:Ed.
  - apply bool_decide_eq_true in Ed as ->. cbn [join]. rewrite IH.
    by destruct (split_by _ s).
  - destruct (split_by _ s) as [|x [|y l]]; [done|by rewrite <- IH..].
Qed.

Lemma join_cons sep x l : l ≠ [] → join sep (x :: l) = x +:+ sep +:+ join sep l.
Proof. by destruct l. Qed.

Lemma join_app sep l k : l ≠ [] → k ≠ [] → join sep (l ++ k) = join sep l +:+ sep +:+ join sep k.
Proof.
  intros Hl Hk. induction l as [|x [|y l] IH]; [done|by apply join_cons|].
  change ((x :: y :: l) ++ k) with (x :: ((y :: l) ++ k)).
  rewrite !(join_cons sep x) by done. rewrite IH by done. by rewrite !append_assoc.
Qed.

(** *** [find] *)

Lemma find_str_Some p s a b : find_str p s = Some (a, b) → s = a +:+ p +:+ b.
Proof.
  revert a b. induction s as [|c s IH]; intros a b; cbn.
  - destruct (strip_prefix p "") eqn:E; [|done]. intros [= <- <-].
    by apply strip_prefix_Some in E.
  - destruct (strip_prefix p (String c s)) eqn:E.
    + intros [= <- <-]. by apply strip_prefix_Some in E.
    + destruct (find_str p s) as [[a' b']|]; cbn; [|done].
      intros [= <- <-]. rewrite append_cons. by rewrite <- (IH a' b').
Qed.

Lemma string_length_append s t :
  String.length (s +:+ t) = (String.length s + String.length t)%nat.
Proof. induction s as [|c s IH]; [done|]. rewrite append_cons. cbn. by rewrite IH. Qed.

Lemma find_str_shorter p s a b :
  find_str p s = Some (a, b) → (String.length b + String.length p ≤ String.length s)%nat.
Proof. intros ->%find_str_Some. rewrite !string_length_append. lia. Qed.

Lemma find_str_occurs p a b : is_Some (find_str p (a +:+ p +:+ b)).
Proof.
  induction a as [|c a IH].
  - change ("" +:+ ?x) with x. destruct (p +:+ b) as [|c s] eqn:E; cbn; rewrite <- ?E;
      by rewrite strip_prefix_append.
  - rewrite append_cons. cbn. destruct (strip_prefix p _); [done|].
    destruct IH as [[x y] ->]. by eexists.
Qed.

(** [contains] finds every occurrence, and only occurrences. *)
Lemma contains_true p s : contains p s = true ↔ ∃ a b, s = a +:+ p +:+ b.
Proof.
  unfold contains. rewrite bool_decide_eq_true. split.
  - intros [[a b] H]. apply find_str_Some in H. eauto.
  - intros (a & b & ->). apply find_str_occurs.
Qed.

Lemma contains_char_cons c d s :
  contains_char c (String d s) = bool_decide (d = c) || contains_char c s.
Proof. done. Qed.

(** An occurrence that starts with a character the text before it lacks is the first. *)
Lemma find_str_first c p a b :
  contains_char c a = false → find_str (String c p) (a +:+ String c p +:+ b) = Some (a, b).
Proof.
  induction a as [|d a IH].
  - intros _. change ("" +:+ ?x) with x. rewrite append_cons. cbn.
    rewrite decide_True by done. by rewrite strip_prefix_append.
  - rewrite contains_char_cons. intros [Hd Ha]%orb_false_iff.
    apply bool_decide_eq_false in Hd. rewrite append_cons. cbn.
    rewrite decide_False by congruence. by rewrite IH.
Qed.

(** *** [rev], suffixes and [trim] *)

Lemma rev_app_spec s t : String.rev_app s t = of_chars (reverse (chars s)) +:+ t.
Proof.
  revert t. induction s as [|c s IH]; intros t; [done|].
  change (chars (String c s)) with (c :: chars s).
  cbn [String.rev_app]. rewrite IH, reverse_cons.
  generalize (reverse (chars s)). intros l. induction l as [|d l IHl]; [done|].
  cbn [app]. cbn [String.string_of_list_ascii]. rewrite !append_cons. by f_equal.
Qed.

Lemma rev_spec s : String.rev s = of_chars (reverse (chars s)).
Proof. unfold String.rev. by rewrite rev_app_spec, append_nil_r. Qed.

Lemma chars_append s t : chars (s +:+ t) = chars s ++ chars t.
Proof. induction s as [|c s IH]; [done|]. rewrite append_cons. cbn. by f_equal. Qed.
Lemma length_chars s : length (chars s) = String.length s.
Proof. induction s; cbn; congruence. Qed.

Lemma chars_of_chars l : chars (of_chars l) = l.
Proof. apply String.list_ascii_of_string_of_list_ascii. Qed.

Lemma chars_inj s t : chars s = chars t → s = t.
Proof.
  intros H. by rewrite <- (String.string_of_list_ascii_of_string s), H,
    String.string_of_list_ascii_of_string.
Qed.

Lemma rev_involutive s : String.rev (String.rev s) = s.
Proof. apply chars_inj. by rewrite !rev_spec, !chars_of_chars, reverse_involutive. Qed.

Lemma rev_append s t : String.rev (s +:+ t) = String.rev t +:+ String.rev s.
Proof.
  apply chars_inj. by rewrite chars_append, !rev_spec, !chars_of_chars, chars_append, reverse_app.
Qed.

Lemma strip_suffix_Some p s r : strip_suffix p s = Some r ↔ s = r +:+ p.
Proof.
  unfold strip_suffix. rewrite fmap_Some. setoid_rewrite strip_prefix_Some. split.
  - intros (x & Hs & ->). apply (f_equal String.rev) in Hs.
    by rewrite rev_append, !rev_involutive in Hs.
  - intros ->. exists (String.rev r). by rewrite rev_append, rev_involutive.
Qed.

Lemma strip_suffix_append r p : strip_suffix p (r +:+ p) = Some r.
Proof. by apply strip_suffix_Some. Qed.

(** A visible ASCII character: [trim] stops at it. *)
Definition is_graph (c : ascii) : bool := (byte_of c <? 128)%N && negb (ws1 c).

Lemma ws2_high a b : ws2 a b = true → (194 ≤ byte_of a ∧ 128 ≤ byte_of b)%N.
Proof. unfold ws2. rewrite andb_true_iff, orb_true_iff, !N.eqb_eq. lia. Qed.

Lemma ws3_high a b c : ws3 a b c = true → (194 ≤ byte_of a ∧ 128 ≤ byte_of c)%N.
Proof.
  unfold ws3. rewrite !orb_true_iff, !andb_true_iff, !orb_true_iff, andb_true_iff.
  rewrite !N.eqb_eq, !N.leb_le. lia.
Qed.

Lemma trim_start_graph c s : is_graph c = true → trim_start (String c s) = String c s.
Proof.
  unfold is_graph. intros [Hb Hw]%andb_true_iff. apply N.ltb_lt in Hb.
  apply negb_true_iff in Hw. cbn. rewrite Hw. destruct s as [|d s]; [done|].
  destruct (ws2 c d) eqn:E2; [apply ws2_high in E2; lia|]. destruct s as [|e s]; [done|].
  destruct (ws3 c d e) eqn:E3; [apply ws3_high in E3; lia|]. done.
Qed.

Lemma trim_start_rev_graph c s : is_graph c = true → trim_start_rev (String c s) = String c s.
Proof.
  unfold is_graph. intros [Hb Hw]%andb_true_iff. apply N.ltb_lt in Hb.
  apply negb_true_iff in Hw. cbn. rewrite Hw. destruct s as [|d s]; [done|].
  destruct (ws2 d c) eqn:E2; [apply ws2_high in E2; lia|]. destruct s as [|e s]; [done|].
  destruct (ws3 e d c) eqn:E3; [apply ws3_high in E3; lia|]. done.
Qed.

(** A text that starts and ends with a visible character is its own [trim]. *)
Lemma trim_graph s :
  (∀ c r, s = String c r → is_graph c = true) →
  (∀ c r, s = r +:+ String c "" → is_graph c = true) → trim s = s.
Proof.
  intros Hhd Htl. unfold trim, trim_end.
  assert (trim_start s = s) as ->
    by (destruct s as [|c r]; [done|]; apply trim_start_graph; eauto).
  assert (trim_start_rev (String.rev s) = String.rev s) as ->; [|apply rev_involutive].
  destruct (String.rev s) as [|c r] eqn:E; [done|]. apply trim_start_rev_graph.
  apply (Htl c (String.rev r)). apply (f_equal String.rev) in E.
  rewrite rev_involutive in E. rewrite E.
  change (String c r) with (String c "" +:+ r). by rewrite rev_append.
Qed.

Lemma split_last_append s c : split_last (s +:+ String c "") = Some (s, c).
Proof.
  induction s as [|d s IH]; [done|]. rewrite append_cons. cbn.
  destruct (s +:+ String c "") eqn:E; [by destruct s|]. by rewrite IH.
Qed.

Lemma split_last_Some s a c : split_last s = Some (a, c) → s = a +:+ String c "".
Proof.
  revert a. induction s as [|d s IH]; intros a; [done|]. cbn.
  destruct s as [|e s]; [by intros [= <- <-]|].
  destruct (split_last (String e s)) as [[b f]|]; cbn in *; [|done].
  intros [= <- <-]. rewrite append_cons. by rewrite <- (IH b).
Qed.

Lemma str_all_append p s t : str_all p (s +:+ t) = str_all p s && str_all p t.
Proof. induction s as [|c s IH]; [done|]. rewrite append_cons. cbn. by rewrite IH, andb_assoc. Qed.

Lemma str_all_impl (p q : ascii → bool) s :
  (∀ c, p c = true → q c = true) → str_all p s = true → str_all q s = true.
Proof.
  intros H. induction s as [|c s IH]; [done|]. cbn [str_all].
  intros [Hc Hs]%andb_true_iff. by rewrite H, IH.
Qed.

Lemma is_graph_digit c : is_digit c = true → is_graph c = true.
Proof.
  unfold is_digit, is_graph, ws1. rewrite !andb_true_iff, negb_true_iff, orb_false_iff,
    andb_false_iff, !N.leb_le, N.ltb_lt, !N.leb_gt, N.eqb_neq. lia.
Qed.

Lemma str_all_head p c r : str_all p (String c r) = true → p c = true.
Proof. cbn. by intros [? _]%andb_true_iff. Qed.

(** A decimal number followed by a unit needs no trimming. *)
Lemma trim_show_unit n u :
  is_graph u = true → trim (show_N n +:+ String u "") = show_N n +:+ String u "".
Proof.
  intros Hu. apply trim_graph.
  - intros c r E. pose proof (show_N_digits n) as Hd.
    destruct (show_N n) as [|d s] eqn:Es; [by injection E as <- <-|].
    rewrite append_cons in E. injection E as <- <-.
    apply is_graph_digit. by eapply str_all_head.
  - intros c r E. apply (f_equal split_last) in E. rewrite !split_last_append in E.
    by simplify_eq.
Qed.

#[export] Hint Resolve show_N_no_char show_N_digits : hlb.
#[global] Arguments show_N : simpl never.

(** *** UTF-8 *)

Definition utf8 (s : string) : Prop := from_utf8_lossy (chars s) = s.
Lemma from_utf8_exact s : utf8 s → from_utf8 (chars s) = Some s.
Proof. unfold utf8, from_utf8. intros ->. by rewrite bool_decide_eq_true_2. Qed.
Lemma lossy_append n s l : (String.length s < n)%nat → utf8 s → from_utf8_lossy (chars s ++ l) = s +:+ from_utf8_lossy l.
Proof.
  revert s l. induction n as [|n IH]; intros s l Hn H; [lia|]. unfold utf8 in H.
  destruct s as [|a s]; [done|]. cbn [chars from_utf8_lossy app] in *. destruct (byte_of a <? 128)%N.
  { injection H as H. cbn in Hn. by rewrite IH by (done || lia). }
  destruct s as [|b s]; [done|]. cbn [chars app] in *. destruct (utf8_second a b) eqn:E2; cbn [negb] in *.
  2:{ unfold replacement in H. injection H as <- <- H. done. }
  destruct (byte_of a <? 224)%N eqn:E3.
  { injection H as H. cbn in Hn. by rewrite IH by (done || lia). }
  destruct s as [|c s]; [done|]. cbn [chars app] in *. destruct (is_cont c) eqn:E4; cbn [negb] in *.
  2:{ unfold replacement in H. injection H as <- <- <- H. done. }
  destruct (byte_of a <? 240)%N eqn:E5.
  { injection H as H. cbn in Hn. by rewrite IH by (done || lia). }
  destruct s as [|d s]; [unfold replacement in H; by injection H as <- <-|]. cbn [chars app] in *.
  destruct (is_cont d) eqn:E6; cbn [negb] in *.
  - injection H as H. cbn in Hn. by rewrite IH by (done || lia).
  - unfold replacement in H. injection H as <- <- <- H. done.
Qed.
Lemma utf8_append s t : utf8 s → utf8 t → utf8 (s +:+ t).
Proof. intros Hs Ht. unfold utf8. rewrite chars_append, (lossy_append (S (String.length s))) by (done || lia). by rewrite Ht. Qed.
Lemma utf8_ascii s : str_all (λ c, byte_of c <? 128)%N s = true → utf8 s.
Proof.
  unfold utf8. induction s as [|c s IH]; cbn; [done|]. intros [Hc Hs]%andb_true_iff. rewrite Hc. by rewrite IH.
Qed.
