(* ===== verification/Encoding.v ===== *)
(** * Tokens, fingerprints and their encodings

    [crates/hlb-types/src/token.rs]: the API access tokens, the SHA-256 they are stored
    by, and the base64 and base32 forms, all written by hand in the source. A byte string
    is a [list N] whose elements are below 256. *)

From S2P Require Import Prelude RustStr.

Section definitions.
Local Open Scope N_scope.

(** A byte string of the source: every element fits a [u8]. *)
Definition bytes_ok (l : list N) : Prop := Forall (λ b, b < 256) l.

Definition bytes_of (s : string) : list N := byte_of <$> chars s.

(** ** SHA-256 *)

Definition rotr32 (n x : N) : N :=
  wrap_u32 (N.lor (N.shiftr x n) (N.shiftl x (32 - n))).
Definition add32 (x y : N) : N := wrap_u32 (x + y).
Definition not32 (x : N) : N := N.lxor x u32_max.

(** The words the source writes in hexadecimal, here in decimal, row for row.
    @ hlb-types/src/token.rs:216-227 [sha256] *)
Definition sha256_K : list N :=
  [1116352408; 1899447441; 3049323471; 3921009573; 961987163; 1508970993; 2453635748;
   2870763221; 3624381080; 310598401; 607225278; 1426881987; 1925078388; 2162078206;
   2614888103; 3248222580; 3835390401; 4022224774; 264347078; 604807628; 770255983;
   1249150122; 1555081692; 1996064986; 2554220882; 2821834349; 2952996808; 3210313671;
   3336571891; 3584528711; 113926993; 338241895; 666307205; 773529912; 1294757372;
   1396182291; 1695183700; 1986661051; 2177026350; 2456956037; 2730485921; 2820302411;
   3259730800; 3345764771; 3516065817; 3600352804; 4094571909; 275423344; 430227734;
   506948616; 659060556; 883997877; 958139571; 1322822218; 1537002063; 1747873779;
   1955562222; 2024104815; 2227730452; 2361852424; 2428436474; 2756734187; 3204031479;
   3329325298].

(** @ hlb-types/src/token.rs:229-232 [sha256] *)
Definition sha256_H : list N :=
  [0x6a09e667; 0xbb67ae85; 0x3c6ef372; 0xa54ff53a; 0x510e527f; 0x9b05688c; 0x1f83d9ab;
   0x5be0cd19].

(** [u64::to_be_bytes] and [u32::to_be_bytes]. *)
Definition be_bytes (width : nat) (x : N) : list N :=
  (λ i, N.land (N.shiftr x (8 * N.of_nat (width - 1 - i))) 255) <$> seq 0 width.

(** The zeroes the [while] pushes: from [len] bytes, [len % 64] brought to 56. *)
Definition zeroes_to_56 (len : nat) : nat := (119 - len mod 64) mod 64.

(** @ hlb-types/src/token.rs:234-240 [sha256] *)
Definition sha256_pad (message : list N) : list N :=
  let bits := wrap_u64 (wrap_u64 (N.of_nat (length message)) * 8) in
  message ++ [128] ++ replicate (zeroes_to_56 (length message)) 0 ++ be_bytes 8 bits.

Definition be_word (c : list N) : N :=
  fold_left (λ acc b, N.lor (N.shiftl acc 8) b) c 0.

(** @ hlb-types/src/token.rs:247-254 [sha256] *)
Definition schedule_word (w : list N) (i : nat) : N :=
  let at_ j := default 0 (w !! j) in
  let x := at_ (i - 15)%nat in
  let y := at_ (i - 2)%nat in
  let s0 := N.lxor (N.lxor (rotr32 7 x) (rotr32 18 x)) (N.shiftr x 3) in
  let s1 := N.lxor (N.lxor (rotr32 17 y) (rotr32 19 y)) (N.shiftr y 10) in
  add32 (add32 (add32 (at_ (i - 16)%nat) s0) (at_ (i - 7)%nat)) s1.

(** @ hlb-types/src/token.rs:243-254 [sha256] *)
Definition sha256_schedule (block : list N) : list N :=
  fold_left (λ w i, w ++ [schedule_word w i]) (seq 16 48) (be_word <$> chunks 4 block).

(** One round on [a..h]. @ hlb-types/src/token.rs:259-279 [sha256] *)
Definition sha256_round (st : list N) (kw : N * N) : list N :=
  match st with
  | [a; b; c; d; e; f; g; hh] =>
      let s1 := N.lxor (N.lxor (rotr32 6 e) (rotr32 11 e)) (rotr32 25 e) in
      let ch := N.lxor (N.land e f) (N.land (not32 e) g) in
      let t1 := add32 (add32 (add32 (add32 hh s1) ch) kw.1) kw.2 in
      let s0 := N.lxor (N.lxor (rotr32 2 a) (rotr32 13 a)) (rotr32 22 a) in
      let upper := N.lxor (N.lxor (N.land a b) (N.land a c)) (N.land b c) in
      let t2 := add32 s0 upper in
      [add32 t1 t2; a; b; c; add32 d t1; e; f; g]
  | _ => st
  end.

(** @ hlb-types/src/token.rs:242-284 [sha256] *)
Definition sha256_block (h block : list N) : list N :=
  zip_with add32 h
    (fold_left sha256_round (zip sha256_K (sha256_schedule block)) h).

(** @ hlb-types/src/token.rs:215-291 [sha256] *)
Definition sha256 (message : list N) : list N :=
  fold_left sha256_block (chunks 64 (sha256_pad message)) sha256_H ≫= be_bytes 4.

(** [format!("{b:02x}")]. *)
Definition hex_digit (n : N) : ascii := ascii_of_N (if n <? 10 then 48 + n else 87 + n).
Definition hex_byte (b : N) : list ascii := [hex_digit (N.shiftr b 4); hex_digit (N.land b 15)].

(** @ hlb-types/src/token.rs:77-79 [sha256_hex] *)
Definition sha256_hex (data : list N) : string := of_chars (sha256 data ≫= hex_byte).

(** @ hlb-types/src/token.rs:161-166 [fingerprint] *)
Definition fingerprint (token : string) : string := sha256_hex (bytes_of token).

(** ** base64 *)

Definition base64url_alphabet : list ascii :=
  chars "ABCDEFGHIJKLMNOPQRSTUVWXYZabcdefghijklmnopqrstuvwxyz0123456789-_".

Definition b64_char (idx : N) : ascii :=
  default "A"%char (base64url_alphabet !! N.to_nat idx).

(** @ hlb-types/src/token.rs:104-115 [base64url] *)
Definition base64url_block (block : list N) : list ascii :=
  let b0 := default 0 (block !! 0%nat) in
  let b1 := default 0 (block !! 1%nat) in
  let b2 := default 0 (block !! 2%nat) in
  let n := N.lor (N.lor (N.shiftl b0 16) (N.shiftl b1 8)) b2 in
  (λ i, b64_char (N.land (N.shiftr n (18 - 6 * N.of_nat i)) 63)) <$> seq 0 (length block + 1).

(** @ hlb-types/src/token.rs:100-118 [base64url] *)
Definition base64url (data : list N) : string := of_chars (chunks 3 data ≫= base64url_block).

(** The [=] pushed until the length is a multiple of four. *)
Definition pad4 (s : string) : string :=
  s +:+ of_chars (replicate ((4 - String.length s mod 4) mod 4) "="%char).

(** @ hlb-types/src/token.rs:122-128 [base64_standard] *)
Definition base64_standard (data : list N) : string :=
  pad4 (replace "_" "/" (replace "-" "+" (base64url data))).

(** @ hlb-types/src/token.rs:143-150 [base64url_decode] *)
Definition b64_value (c : ascii) : option N :=
  let b := byte_of c in
  if is_upper c then Some (b - 65)
  else if is_lower c then Some (b - 97 + 26)
  else if is_digit c then Some (b - 48 + 52)
  else if decide (c = "-"%char) then Some 62
  else if decide (c = "_"%char) then Some 63
  else None.

(** The loop: [acc] is a [u32], whose [<<] drops the high bits.
    @ hlb-types/src/token.rs:139-157 [base64url_decode] *)
Fixpoint base64url_decode_go (acc bits : N) (out : list N) (s : list ascii) : option (list N) :=
  match s with
  | [] => Some out
  | c :: s =>
      if decide (c = "="%char) then Some out else
      v ← b64_value c;
      let acc := N.lor (wrap_u32 (N.shiftl acc 6)) v in
      let bits := bits + 6 in
      if 8 <=? bits then
        let bits := bits - 8 in
        base64url_decode_go acc bits (out ++ [N.land (N.shiftr acc bits) 255]) s
      else base64url_decode_go acc bits out s
  end.

(** @ hlb-types/src/token.rs:135-159 [base64url_decode] *)
Definition base64url_decode (s : string) : option (list N) :=
  base64url_decode_go 0 0 [] (chars s).

(** ** base32 *)

Definition base32_alphabet : list ascii := chars "ABCDEFGHIJKLMNOPQRSTUVWXYZ234567".
Definition b32_char (idx : N) : ascii := default "A"%char (base32_alphabet !! N.to_nat idx).

(** The inner [while bits >= 5]; [fuel] above [bits] is enough.
    @ hlb-types/src/token.rs:203-206 [base32] *)
Fixpoint base32_drain (fuel : nat) (buffer bits : N) (out : list ascii) : N * list ascii :=
  match fuel with
  | O => (bits, out)
  | S fuel =>
      if 5 <=? bits then
        let bits := bits - 5 in
        base32_drain fuel buffer bits (out ++ [b32_char (N.land (N.shiftr buffer bits) 31)])
      else (bits, out)
  end.

(** @ hlb-types/src/token.rs:200-207 [base32] *)
Fixpoint base32_go (buffer bits : N) (out : list ascii) (data : list N) : N * N * list ascii :=
  match data with
  | [] => (buffer, bits, out)
  | b :: data =>
      let buffer := N.lor (wrap_u32 (N.shiftl buffer 8)) b in
      let bits := bits + 8 in
      let '(bits, out) := base32_drain (S (N.to_nat bits)) buffer bits out in
      base32_go buffer bits out data
  end.

(** @ hlb-types/src/token.rs:194-212 [base32] *)
Definition base32 (data : list N) : string :=
  let '(buffer, bits, out) := base32_go 0 0 [] data in
  of_chars (if 0 <? bits
            then out ++ [b32_char (N.land (wrap_u32 (N.shiftl buffer (5 - bits))) 31)]
            else out).

(** ** Tokens *)

(** @ hlb-types/src/token.rs:183-191 [constant_eq] *)
Definition constant_eq (a b : string) : bool :=
  if decide (String.length a = String.length b) then
    fold_left (λ acc '(x, y), N.lor acc (N.lxor x y)) (zip (bytes_of a) (bytes_of b)) 0 =? 0
  else false.

End definitions.

(** The fuel of [base32_drain] is never what stops it. *)
Lemma base32_drain_enough fuel1 fuel2 buffer bits out :
  (N.to_nat bits < fuel1)%nat → (N.to_nat bits < fuel2)%nat →
  base32_drain fuel1 buffer bits out = base32_drain fuel2 buffer bits out.
Proof.
  revert fuel2 bits out. induction fuel1 as [|f1 IH]; intros [|f2] bits out H1 H2; try lia.
  cbn. destruct (N.leb_spec 5 bits); [|done]. apply IH; lia.
Qed.

(** ** Bits as arithmetic *)

#[local] Ltac Zify.zify_post_hook ::= Z.to_euclidean_division_equations.

Section arithmetic.
Local Open Scope N_scope.

Lemma land_shiftl_small a b k : b < 2 ^ k → N.land (N.shiftl a k) b = 0.
Proof.
  intros Hb. apply N.bits_inj. intros i. rewrite N.land_spec, N.bits_0.
  destruct (N.lt_ge_cases i k) as [Hi|Hi].
  - by rewrite N.shiftl_spec_low.
  - rewrite andb_comm. replace (N.testbit b i) with false; [done|].
    symmetry. rewrite <- (N.mod_small b (2 ^ k)) by done. by apply N.mod_pow2_bits_high.
Qed.

(** Putting [b] below [a]: the [<<] and [|] of the encoders. *)
Lemma lor_shiftl_add a b k : b < 2 ^ k → N.lor (N.shiftl a k) b = a * 2 ^ k + b.
Proof.
  intros Hb. pose proof (land_shiftl_small a b k Hb) as H0.
  rewrite <- N.lxor_lor by done. rewrite <- N.add_nocarry_lxor by done.
  by rewrite N.shiftl_mul_pow2.
Qed.

Lemma three_bytes a b c :
  a < 256 → b < 256 → c < 256 →
  N.lor (N.lor (N.shiftl a 16) (N.shiftl b 8)) c = a * 65536 + b * 256 + c.
Proof.
  intros. rewrite <- N.lor_assoc, (lor_shiftl_add b c 8) by done.
  rewrite lor_shiftl_add; change (2 ^ 16) with 65536; change (2 ^ 8) with 256; lia.
Qed.

Lemma land_63 n : N.land n 63 = n mod 64.
Proof. apply (N.land_ones n 6). Qed.
Lemma land_255 n : N.land n 255 = n mod 256.
Proof. apply (N.land_ones n 8). Qed.
Lemma land_31 n : N.land n 31 = n mod 32.
Proof. apply (N.land_ones n 5). Qed.

(** A step of the decoder's accumulator. *)
Lemma decode_step acc v :
  v < 64 → N.lor (wrap_u32 (N.shiftl acc 6)) v = (acc mod 67108864) * 64 + v.
Proof.
  intros Hv. unfold wrap_u32, u32_max. rewrite N.shiftl_mul_pow2.
  change (4294967295 + 1) with (67108864 * 64). change (2 ^ 6) with 64.
  rewrite N.Div0.mul_mod_distr_r.
  change ((acc mod 67108864) * 64 + v) with ((acc mod 67108864) * 2 ^ 6 + v).
  rewrite <- lor_shiftl_add by done. by rewrite N.shiftl_mul_pow2.
Qed.

(** ** base64 *)

(** Every character of the alphabet is read back as its index, and none is padding. *)
Lemma b64_char_value v :
  v < 64 → b64_value (b64_char v) = Some v ∧ b64_char v ≠ "="%char.
Proof.
  intros Hv.
  assert (H : forallb (λ i : nat, (b64_value (b64_char (N.of_nat i)) ==? Some (N.of_nat i))
                && negb (b64_char (N.of_nat i) ==? "="%char)) (seq 0 64) = true)
    by (vm_compute; reflexivity).
  rewrite forallb_forall in H. specialize (H (N.to_nat v)).
  rewrite N2Nat.id in H. rewrite in_seq in H.
  apply andb_true_iff in H as [H1 H2]; [|lia].
  apply bool_decide_eq_true in H1. apply negb_true_iff, bool_decide_eq_false in H2. done.
Qed.

Lemma base64url_decode_char acc bits out v s :
  v < 64 → bits < 8 →
  base64url_decode_go acc bits out (b64_char v :: s) =
  let acc' := (acc mod 67108864) * 64 + v in
  if bits <? 2 then base64url_decode_go acc' (bits + 6) out s
  else base64url_decode_go acc' (bits - 2) (out ++ [(acc' / 2 ^ (bits - 2)) mod 256]) s.
Proof.
  intros Hv Hb. destruct (b64_char_value v Hv) as [Hval Hne]. cbn -[N.add N.sub N.leb].
  rewrite decide_False by done. rewrite Hval. cbn -[N.add N.sub N.leb].
  rewrite decode_step by done. rewrite land_255, N.shiftr_div_pow2.
  destruct (N.leb_spec 8 (bits + 6)), (N.ltb_spec bits 2); try lia; [|done].
  by replace (bits + 6 - 8) with (bits - 2) by lia.
Qed.

Lemma six_bits n k : N.land (N.shiftr n k) 63 = (n / 2 ^ k) mod 64.
Proof. by rewrite land_63, N.shiftr_div_pow2. Qed.

Ltac digits_eq :=
  repeat match goal with
         | |- _ :: _ = _ :: _ => apply (f_equal2 cons); [apply (f_equal b64_char); lia|]
         end; reflexivity.
Ltac exponents :=
  change (2 ^ (18 - 6 * N.of_nat 0)) with 262144; change (2 ^ (18 - 6 * N.of_nat 1)) with 4096;
  change (2 ^ (18 - 6 * N.of_nat 2)) with 64; change (2 ^ (18 - 6 * N.of_nat 3)) with 1.

(** The characters of a block of one, two and three bytes. *)
Lemma base64url_block_1 a :
  a < 256 → base64url_block [a] = b64_char <$> [a / 4; (a mod 4) * 16].
Proof.
  intros. unfold base64url_block. cbn -[b64_char N.lor N.shiftl N.land N.shiftr].
  rewrite three_bytes, !six_bits by lia. exponents. digits_eq.
Qed.

Lemma base64url_block_2 a b :
  a < 256 → b < 256 →
  base64url_block [a; b] = b64_char <$> [a / 4; (a mod 4) * 16 + b / 16; (b mod 16) * 4].
Proof.
  intros. unfold base64url_block. cbn -[b64_char N.lor N.shiftl N.land N.shiftr].
  rewrite three_bytes, !six_bits by lia. exponents. digits_eq.
Qed.

Lemma base64url_block_3 a b c :
  a < 256 → b < 256 → c < 256 →
  base64url_block [a; b; c] =
  b64_char <$> [a / 4; (a mod 4) * 16 + b / 16; (b mod 16) * 4 + c / 64; c mod 64].
Proof.
  intros. unfold base64url_block. cbn -[b64_char N.lor N.shiftl N.land N.shiftr].
  rewrite three_bytes, !six_bits by lia. exponents. digits_eq.
Qed.

(** A byte is read from the last two characters only: the accumulator's higher bits,
    and what its width drops of them, do not reach it. *)
Lemma byte_at_4 x v w :
  v < 64 → w < 64 →
  ((x * 64 + v) mod 67108864 * 64 + w) / 16 mod 256 = v * 4 + w / 16.
Proof.
  intros. change 67108864 with (64 * 1048576). rewrite N.Div0.mod_mul_r.
  generalize ((x * 64 + v) / 64 mod 1048576). intros. lia.
Qed.
Lemma byte_at_2 x v w :
  v < 64 → w < 64 →
  ((x * 64 + v) mod 67108864 * 64 + w) / 4 mod 256 = v mod 16 * 16 + w / 4.
Proof.
  intros. change 67108864 with (64 * 1048576). rewrite N.Div0.mod_mul_r.
  generalize ((x * 64 + v) / 64 mod 1048576). intros. lia.
Qed.
Lemma byte_at_0 x v w :
  v < 64 → w < 64 →
  ((x * 64 + v) mod 67108864 * 64 + w) / 1 mod 256 = v mod 4 * 64 + w.
Proof.
  intros. change 67108864 with (64 * 1048576). rewrite N.Div0.mod_mul_r.
  generalize ((x * 64 + v) / 64 mod 1048576). intros. lia.
Qed.

(** The second, third and fourth characters of a block, after [v], give a byte each. *)
Lemma decode_char_0 acc out v s :
  v < 64 → base64url_decode_go acc 0 out (b64_char v :: s) =
           base64url_decode_go (acc mod 67108864 * 64 + v) 6 out s.
Proof. intros. by rewrite base64url_decode_char. Qed.
Lemma decode_char_6 x v w out s :
  v < 64 → w < 64 → base64url_decode_go (x * 64 + v) 6 out (b64_char w :: s) =
  base64url_decode_go ((x * 64 + v) mod 67108864 * 64 + w) 4 (out ++ [v * 4 + w / 16]) s.
Proof. intros. rewrite base64url_decode_char by done. cbv zeta. by rewrite <- (byte_at_4 x). Qed.
Lemma decode_char_4 x v w out s :
  v < 64 → w < 64 → base64url_decode_go (x * 64 + v) 4 out (b64_char w :: s) =
  base64url_decode_go ((x * 64 + v) mod 67108864 * 64 + w) 2
    (out ++ [v mod 16 * 16 + w / 4]) s.
Proof. intros. rewrite base64url_decode_char by done. cbv zeta. by rewrite <- (byte_at_2 x). Qed.
Lemma decode_char_2 x v w out s :
  v < 64 → w < 64 → base64url_decode_go (x * 64 + v) 2 out (b64_char w :: s) =
  base64url_decode_go ((x * 64 + v) mod 67108864 * 64 + w) 0
    (out ++ [v mod 4 * 64 + w]) s.
Proof. intros. rewrite base64url_decode_char by done. cbv zeta. by rewrite <- (byte_at_0 x). Qed.

Ltac bytes_eq :=
  repeat match goal with
         | |- _ :: _ = _ :: _ => apply (f_equal2 cons); [lia|]
         end; reflexivity.

(** A whole block leaves the decoder as it found it, three bytes later. *)
Lemma base64url_decode_block acc out a b c s :
  a < 256 → b < 256 → c < 256 →
  ∃ acc', base64url_decode_go acc 0 out (base64url_block [a; b; c] ++ s) =
          base64url_decode_go acc' 0 (out ++ [a; b; c]) s.
Proof.
  intros. rewrite base64url_block_3 by done. cbn [fmap list_fmap app].
  rewrite decode_char_0, decode_char_6, decode_char_4, decode_char_2 by lia.
  rewrite <- !app_assoc. cbn [app]. eexists. do 2 f_equal. bytes_eq.
Qed.

(** Decoding what was encoded, from any state a whole number of blocks leaves. *)
Lemma base64url_decode_go_encode data :
  bytes_ok data → ∀ acc out,
  base64url_decode_go acc 0 out (chunks 3 data ≫= base64url_block) = Some (out ++ data).
Proof.
  induction data as [|l Hl IH] using (block_ind 3 ltac:(lia)).
  - intros _ acc out. cbn. by rewrite app_nil_r.
  - intros Hok acc out. rewrite chunks_cons by (done || lia).
    destruct l as [|a [|b [|c l]]]; [done|..]; cbn [take drop] in *;
      unfold bytes_ok in *; rewrite !Forall_cons in Hok; destruct_and! Hok.
    + rewrite bind_cons. cbn [chunks chunks_go length mbind list_bind].
      rewrite app_nil_r, base64url_block_1 by done. cbn [fmap list_fmap].
      rewrite decode_char_0, decode_char_6 by lia. cbn. do 2 f_equal. bytes_eq.
    + rewrite bind_cons. cbn [chunks chunks_go length mbind list_bind].
      rewrite app_nil_r, base64url_block_2 by done. cbn [fmap list_fmap].
      rewrite decode_char_0, decode_char_6, decode_char_4 by lia.
      rewrite <- app_assoc. cbn. do 2 f_equal. bytes_eq.
    + rewrite take_0, drop_0, bind_cons in *.
      destruct (base64url_decode_block acc out a b c (chunks 3 l ≫= base64url_block))
        as [acc' ->]; [done..|].
      rewrite IH by done. by rewrite <- app_assoc.
Qed.

(** What [base64url] writes, [base64url_decode] reads back, whatever the bytes: the
    PKCE challenge and the [id_token] payload survive the trip, although the decoder's
    accumulator is a [u32] that overflows on any text longer than five characters. *)
Theorem base64url_roundtrip data :
  Forall (λ b, b < 256) data → base64url_decode (base64url data) = Some data.
Proof.
  intros Hok. unfold base64url_decode, base64url. rewrite chars_of_chars.
  by apply base64url_decode_go_encode.
Qed.

Lemma base64url_roundtrip_witness :
  base64url_decode (base64url [0; 255; 16; 32; 200; 7; 1]) = Some [0; 255; 16; 32; 200; 7; 1].
Proof. apply base64url_roundtrip. repeat constructor. Defined.

(** ** Comparing, hashing, drawing *)

Lemma bytes_of_length s : length (bytes_of s) = String.length s.
Proof. unfold bytes_of. rewrite length_fmap. induction s; cbn; auto. Qed.

Lemma bytes_of_inj s t : bytes_of s = bytes_of t → s = t.
Proof.
  intros H. unfold bytes_of in H.
  assert (Hi : Inj (=) (=) byte_of).
  { intros x y E. unfold byte_of in E.
    by rewrite <- (ascii_N_embedding x), <- (ascii_N_embedding y), E. }
  apply (inj (fmap byte_of)) in H.
  by apply chars_inj.
Qed.

Lemma bytes_of_ok s : bytes_ok (bytes_of s).
Proof. apply Forall_fmap, Forall_true. intros c. apply N_ascii_bounded. Qed.

(** The folded difference is zero exactly when it started so and every pair agrees. *)
Lemma fold_xor_zero (l k : list N) acc :
  length l = length k →
  fold_left (λ acc '(x, y), N.lor acc (N.lxor x y)) (zip l k) acc = 0 ↔ acc = 0 ∧ l = k.
Proof.
  revert k acc. induction l as [|x l IH]; intros [|y k] acc; cbn; intros; try done.
  { naive_solver. }
  rewrite IH by lia. rewrite N.lor_eq_0_iff, N.lxor_eq_0_iff. naive_solver.
Qed.

(** The constant-time comparison decides equality: no two different fingerprints pass
    for one another, and a fingerprint always equals itself. *)
Theorem constant_eq_spec a b : constant_eq a b = true ↔ a = b.
Proof.
  unfold constant_eq. case_decide as Hl.
  - rewrite N.eqb_eq, fold_xor_zero by (by rewrite !bytes_of_length).
    split; [|by intros ->]. intros [_ H]. by apply bytes_of_inj.
  - split; [done|]. by intros ->.
Qed.

Lemma zeroes_to_56_mod n : ((n + 1 + zeroes_to_56 n) mod 64 = 56)%nat.
Proof. unfold zeroes_to_56. pose proof (Nat.mod_upper_bound n 64). lia. Qed.

(** The [while] stops at the first length that fits: no fewer zeroes would do. *)
Lemma zeroes_to_56_least n k :
  (k < zeroes_to_56 n)%nat → ((n + 1 + k) mod 64 ≠ 56)%nat.
Proof. unfold zeroes_to_56. pose proof (Nat.mod_upper_bound n 64). lia. Qed.

Lemma length_be_bytes w x : length (be_bytes w x) = w.
Proof. unfold be_bytes. by rewrite length_fmap, length_seq. Qed.

Lemma length_sha256_pad m : (length (sha256_pad m) mod 64 = 0)%nat.
Proof.
  unfold sha256_pad. rewrite !length_app, length_replicate, length_be_bytes. cbn [length].
  pose proof (zeroes_to_56_mod (length m)). lia.
Qed.

Lemma length_sha256_round st kw : length (sha256_round st kw) = length st.
Proof. unfold sha256_round. by repeat (case_match; subst). Qed.

Lemma length_fold_rounds l st : length (fold_left sha256_round l st) = length st.
Proof.
  revert st. induction l as [|x l IH]; intros st; [done|].
  cbn. by rewrite IH, length_sha256_round.
Qed.

Lemma length_sha256_block h b : length (sha256_block h b) = length h.
Proof. unfold sha256_block. rewrite length_zip_with, length_fold_rounds. lia. Qed.

Lemma length_sha256 m : length (sha256 m) = 32%nat.
Proof.
  unfold sha256. assert (H : length sha256_H = 8%nat) by done.
  revert H. generalize sha256_H. generalize (chunks 64 (sha256_pad m)).
  intros l. induction l as [|b l IH]; intros h Hh; cbn.
  - do 9 (destruct h as [|? h]; [done|]). done.
  - apply IH. by rewrite length_sha256_block.
Qed.

Lemma be_bytes_ok w x : bytes_ok (be_bytes w x).
Proof.
  apply Forall_fmap, Forall_true. intros i. cbn. rewrite land_255. apply N.mod_lt. lia.
Qed.

Lemma sha256_ok m : bytes_ok (sha256 m).
Proof.
  unfold sha256. apply Forall_forall. intros b (x & Hb & _)%list_elem_of_bind.
  by apply (proj1 (Forall_forall _ _) (be_bytes_ok 4 x)).
Qed.

(** SHA-256 is total and gives 32 bytes whatever it is given; the two first vectors of
    FIPS 180-2 (one block, and a message whose padding takes a second block) and the
    empty message hash as the standard says. *)
Theorem sha256_vectors :
  (∀ m, length (sha256 m) = 32%nat ∧ bytes_ok (sha256 m)
        ∧ (length (sha256_pad m) mod 64 = 0)%nat) ∧
  sha256_hex [] = "e3b0c44298fc1c149afbf4c8996fb92427ae41e4649b934ca495991b7852b855" ∧
  sha256_hex (bytes_of "abc") =
    "ba7816bf8f01cfea414140de5dae2223b00361a396177a9cb410ff61f20015ad" ∧
  sha256_hex (bytes_of "abcdbcdecdefdefgefghfghighijhijkijkljklmklmnlmnomnopnopq") =
    "248d6a61d20638b8e5c026930c3e6039a33ce45964ff2167f6ecedd419db06c1".
Proof.
  split; [|by vm_compute]. intros m.
  split; [apply length_sha256|split; [apply sha256_ok|apply length_sha256_pad]].
Qed.

Lemma length_of_chars l : String.length (of_chars l) = length l.
Proof. induction l; cbn; auto. Qed.

Lemma length_base64url_go data :
  length (chunks 3 data ≫= base64url_block) = (length data + (length data + 2) / 3)%nat.
Proof.
  induction data as [|l Hl IH] using (block_ind 3 ltac:(lia)); [done|].
  rewrite chunks_cons, bind_cons, length_app, IH by (done || lia).
  unfold base64url_block at 1. rewrite length_fmap, length_seq, length_take, length_drop.
  destruct l as [|x l]; [done|]. cbn [length].
  destruct (Nat.le_gt_cases 3 (S (length l))).
  - rewrite Nat.min_l by done.
    replace (S (length l) + 2)%nat with (S (length l) - 3 + 2 + 1 * 3)%nat by lia.
    rewrite Nat.div_add by lia. lia.
  - rewrite Nat.min_r by lia. replace (S (length l) - 3)%nat with 0%nat by lia.
    destruct l as [|y [|z l]]; cbn in *; lia.
Qed.

End arithmetic.
