(* ===== verification/Rbac.v ===== *)
(** * Roles, permissions and access tokens

    [crates/hlb-types/src/rbac.rs]: the four roles, the actions they allow and the wording
    of a refusal; and from [crates/hlb-types/src/token.rs] the stored token, which names a
    role and keeps a fingerprint of its value. *)

From S2P Require Import Prelude RustStr Encoding.

(** @ hlb-types/src/rbac.rs:29-48 [Role] *)
Inductive Role := User | Viewer | Operator | Admin.

(** @ hlb-types/src/rbac.rs:53-76 [Action] *)
Inductive RbacAction :=
| ReadSelf | ActOnSelf | Read | Publish | Operate | ManageAccounts | Destroy.

#[export] Instance Role_eq_dec : EqDecision Role.
Proof. solve_decision. Defined.
#[export] Instance RbacAction_eq_dec : EqDecision RbacAction.
Proof. solve_decision. Defined.

(** The derived order: that of the declaration. *)
Definition role_rank (r : Role) : nat :=
  match r with User => 0 | Viewer => 1 | Operator => 2 | Admin => 3 end.
Definition role_le (r s : Role) : Prop := (role_rank r ≤ role_rank s)%nat.
#[export] Instance role_le_dec r s : Decision (role_le r s).
Proof. unfold role_le. apply _. Defined.
Definition role_max (r s : Role) : Role := if decide (role_le r s) then s else r.

(** @ hlb-types/src/rbac.rs:84-91 [Action::minimum_role] *)
Definition minimum_role (a : RbacAction) : Role :=
  match a with
  | ReadSelf | ActOnSelf => User
  | Read => Viewer
  | Operate | Publish => Operator
  | ManageAccounts | Destroy => Admin
  end.

(** @ hlb-types/src/rbac.rs:100-110 [Action::name] *)
Definition action_name (a : RbacAction) : string :=
  match a with
  | ReadSelf => "read-self"
  | ActOnSelf => "act-on-self"
  | Read => "read"
  | Publish => "publish"
  | Operate => "operate"
  | ManageAccounts => "manage-accounts"
  | Destroy => "destroy"
  end.

(** @ hlb-types/src/rbac.rs:116-126 [Action::describe] *)
Definition action_describe (a : RbacAction) : string :=
  match a with
  | ReadSelf => "view your own account"
  | ActOnSelf => "change your own account"
  | Read => "view the state of the system"
  | Publish => "publish an announcement"
  | Operate => "act on the system"
  | ManageAccounts => "manage accounts and rights"
  | Destroy => "destroy, or restore into production"
  end.

(** [to_lowercase] is read here against ASCII words whose letters no other character
    lowers to, so lowering the ASCII letters decides the same.
    @ hlb-types/src/rbac.rs:136-144 [Role::parse] *)
Definition role_parse (s : string) : option Role :=
  let w := to_ascii_lowercase (trim s) in
  if bool_decide (w ∈ ["user"; "utilisateur"]) then Some User
  else if bool_decide (w ∈ ["viewer"; "lecteur"]) then Some Viewer
  else if bool_decide (w ∈ ["operator"; "operateur"]) then Some Operator
  else if bool_decide (w ∈ ["admin"; "administrateur"]) then Some Admin
  else None.

(** @ hlb-types/src/rbac.rs:149-156 [Role::as_str] *)
Definition role_as_str (r : Role) : string :=
  match r with
  | User => "user" | Viewer => "viewer" | Operator => "operator" | Admin => "admin"
  end.

(** @ hlb-types/src/rbac.rs:159-166 [Role::describe] *)
Definition role_describe (r : Role) : string :=
  match r with
  | User => "their account, their mailbox, their aliases"
  | Viewer => "see everything, change nothing"
  | Operator => "install, update, back up, publish"
  | Admin => "everything, including destroying and granting rights"
  end.

(** @ hlb-types/src/rbac.rs:173-175 [Role::allows] *)
Definition allows (r : Role) (a : RbacAction) : bool := bool_decide (role_le (minimum_role a) r).

Definition quote (s : string) : string := String "034" (s +:+ String "034" "").

(** @ hlb-types/src/rbac.rs:186-197 [Role::refusal] *)
Definition refusal (r : Role) (a : RbacAction) : option string :=
  if allows r a then None
  else Some (action_describe a +:+ " requires the " +:+ quote (role_as_str (minimum_role a))
             +:+ " role; yours is " +:+ quote (role_as_str r)
             +:+ ". An administrator can grant it to you.").

(** @ hlb-types/src/rbac.rs:204-210 [Role::from_groups] *)
Definition from_groups (groups : list string) (mapping : list (string * Role)) : Role :=
  let held := omap (λ g, snd <$> find_first (λ m, m.1 ==? g) mapping) groups in
  match held with
  | [] => User
  | r :: rs => fold_left role_max rs r
  end.

(** @ hlb-types/src/rbac.rs:215-217 [Role::all] *)
Definition all_roles : list Role := [User; Viewer; Operator; Admin].

(** @ hlb-types/src/rbac.rs:225-230 [needs_confirmation] *)
Definition needs_confirmation (action : string) : bool :=
  bool_decide (action ∈
    ["purge"; "restore-production"; "node-remove"; "secrets-rekey"; "cluster-destroy"]).

(** ** Tokens *)

(** @ hlb-types/src/token.rs:38-45 [StoredToken] *)
Record StoredToken := { tok_name : string; tok_role : Role; tok_fingerprint : string }.

(** @ hlb-types/src/token.rs:54-56 [StoredToken::matches] *)
Definition token_matches (t : StoredToken) (presented : string) : bool :=
  constant_eq (fingerprint presented) (tok_fingerprint t).

(** @ hlb-types/src/token.rs:169-180 [generate] *)
Definition token_generate (name : string) (role : Role) (random : list N) : string * StoredToken :=
  let value := base32 random in
  (value, {| tok_name := name; tok_role := role; tok_fingerprint := fingerprint value |}).

(** ** Properties *)

(** The permission matrix is a chain: what a role allows every higher role allows, the
    administrator is allowed everything, and the plain user nothing but their own data. *)
Theorem allows_monotone :
  (∀ r s a, role_le r s → allows r a = true → allows s a = true) ∧
  (∀ a, allows Admin a = true) ∧
  (∀ a, allows User a = true ↔ a = ReadSelf ∨ a = ActOnSelf) ∧
  (∀ a, allows Viewer a = true → a = ReadSelf ∨ a = ActOnSelf ∨ a = Read).
Proof.
  unfold allows. repeat split.
  - intros r s a. rewrite !bool_decide_eq_true. unfold role_le. lia.
  - by destruct a.
  - destruct a; (naive_solver || (cbn; by rewrite bool_decide_eq_true)).
  - intros [->| ->]; done.
  - destruct a; cbn; naive_solver.
Qed.

(** A refusal is said exactly when the action is not allowed. *)
Theorem refusal_iff_not_allowed r a :
  (refusal r a = None ↔ allows r a = true) ∧
  (∀ msg, refusal r a = Some msg → ∃ rest, msg = action_describe a +:+ rest).
Proof.
  unfold refusal. destruct (allows r a); split; try done.
  intros msg [= <-]. eauto.
Qed.

(** A role written to the database is read back as itself, the spaces and case of a
    hand-edited row notwithstanding. *)
Theorem role_parse_as_str r :
  role_parse (role_as_str r) = Some r ∧
  role_parse (" " +:+ to_ascii_uppercase (role_as_str r) +:+ String "010" "") = Some r.
Proof. by destruct r. Qed.

(** The spelling the comment over [Role::parse] says older rows hold. *)
Theorem account_user_unreadable : role_parse "account_user" = None.
Proof. by vm_compute. Qed.

Lemma role_max_spec r s : role_le r (role_max r s) ∧ role_le s (role_max r s).
Proof. by destruct r, s; vm_compute; lia. Qed.

Lemma role_max_either r s : role_max r s = r ∨ role_max r s = s.
Proof. unfold role_max. case_decide; auto. Qed.

Lemma fold_role_max l r :
  (∀ x, x ∈ r :: l → role_le x (fold_left role_max l r)) ∧ fold_left role_max l r ∈ r :: l.
Proof.
  revert r. induction l as [|s l IH]; intros r; cbn.
  - split; [|by left]. intros x ->%list_elem_of_singleton. unfold role_le. lia.
  - destruct (IH (role_max r s)) as [Hle Hin]. split.
    + destruct (role_max_spec r s) as [Hr Hs].
      assert (Hm := Hle _ ltac:(by left)). unfold role_le in *.
      intros x [->|[->|Hx]%elem_of_cons]%elem_of_cons; [lia..|].
      apply Hle. by right.
    + destruct (role_max_either r s) as [E|E]; rewrite E in Hin |- *;
        apply elem_of_cons in Hin as [->|?]; rewrite ?elem_of_cons; auto.
Qed.

(** Belonging to several groups gives the highest of their roles, and to none of the
    mapping the least privileged one. *)
Theorem from_groups_highest groups mapping :
  let held := omap (λ g, snd <$> find_first (λ m, m.1 ==? g) mapping) groups in
  (∀ r, r ∈ held → role_le r (from_groups groups mapping)) ∧
  (from_groups groups mapping ∈ held ∨ held = [] ∧ from_groups groups mapping = User).
Proof.
  cbv zeta. unfold from_groups. destruct (omap _ groups) as [|r rs]; [set_solver|].
  destruct (fold_role_max rs r) as [Hle Hin]. auto.
Qed.

Lemma hex_digit_inj m n : (m < 16)%N → (n < 16)%N → hex_digit m = hex_digit n → m = n.
Proof.
  intros Hm Hn H. unfold hex_digit in H.
  apply (f_equal N_of_ascii) in H. repeat case_match;
    rewrite !N_ascii_embedding in H; lia.
Qed.

Lemma hex_bytes_inj l k :
  bytes_ok l → bytes_ok k → (l ≫= hex_byte) = (k ≫= hex_byte) → l = k.
Proof.
  revert k. induction l as [|x l IH]; intros [|y k] Hl Hk H; [done..|].
  apply Forall_cons in Hl as [Hx Hl], Hk as [Hy Hk].
  cbn in H. injection H as H1 H2 H3.
  assert (E : ∀ z, N.land z 15 = (z mod 16)%N) by (intros; apply (N.land_ones z 4)).
  apply hex_digit_inj in H1, H2; rewrite ?N.shiftr_div_pow2, ?E in *;
    change (2 ^ 4)%N with 16%N in *; try (apply N.mod_lt; lia);
    try (apply N.Div0.div_lt_upper_bound; lia).
  f_equal; [|by apply IH].
  rewrite (N.div_mod x 16), (N.div_mod y 16); lia.
Qed.

(** A token's holder is recognised, and nobody else short of a SHA-256 collision: what
    is presented matches exactly when it hashes to the value handed out. *)
Theorem token_matches_generated name role random presented :
  let '(value, stored) := token_generate name role random in
  token_matches stored value = true ∧
  (token_matches stored presented = true ↔
   sha256 (bytes_of presented) = sha256 (bytes_of value)).
Proof.
  cbn. unfold token_matches. cbn. rewrite !constant_eq_spec. split; [done|].
  unfold fingerprint, sha256_hex. split; [|by intros ->].
  intros H. apply (f_equal chars) in H. rewrite !chars_of_chars in H.
  apply hex_bytes_inj in H; auto using sha256_ok.
Qed.
