(* ===== verification/Capability.v ===== *)
(** * The capabilities an app declares it needs

    [crates/hlb-types/src/capability.rs]: a manifest names needs, never instances. The
    graph, the resolver and the backups all read this type. *)

From S2P Require Import Prelude RustStr.

(** @ hlb-types/src/capability.rs:216-221 [DbEngine] *)
Inductive DbEngine := Postgres | Mariadb.
(** @ hlb-types/src/capability.rs:251-255 [CacheEngine] *)
Inductive CacheEngine := Valkey.
(** @ hlb-types/src/capability.rs:265-276 [SmtpSender] *)
Inductive SmtpSender := SenderApp | SenderPerson.
(** @ hlb-types/src/capability.rs:278-290 [SsoMode] *)
Inductive SsoMode := SsoNative | SsoProxyHeader | SsoProxyOnly | SsoNone.
(** @ hlb-types/src/capability.rs:301-309 [StorageTier] *)
Inductive StorageTier := TierLocal | TierNfs.
(** @ hlb-types/src/capability.rs:311-333 [VolumeCopy] *)
Inductive VolumeCopy := CopyLive | CopyStopped | CopyPgBasebackup | CopyMariadbBackup.

(** @ hlb-types/src/capability.rs:29-149 [Capability] *)
Inductive Capability :=
| Database (engine : DbEngine) (name : option string) (extensions : list string)
    (connections : option N)
| Cache (engine : CacheEngine) (dedicated : bool)
| Sso (mode : SsoMode) (redirect_paths : list string)
| ObjectStorage (bucket : option string) (backup : bool) (expire_after_days : option N)
| Smtp (sender : SmtpSender)
| MailAccount (quota_bytes : option N) (aliases : bool)
| Storage (name path : string) (tier : StorageTier) (backup sqlite : bool)
    (copy : VolumeCopy) (owner : option string).

#[export] Instance DbEngine_eq_dec : EqDecision DbEngine.
Proof. solve_decision. Defined.
#[export] Instance CacheEngine_eq_dec : EqDecision CacheEngine.
Proof. solve_decision. Defined.
#[export] Instance SmtpSender_eq_dec : EqDecision SmtpSender.
Proof. solve_decision. Defined.
#[export] Instance SsoMode_eq_dec : EqDecision SsoMode.
Proof. solve_decision. Defined.
#[export] Instance StorageTier_eq_dec : EqDecision StorageTier.
Proof. solve_decision. Defined.
#[export] Instance VolumeCopy_eq_dec : EqDecision VolumeCopy.
Proof. solve_decision. Defined.
#[export] Instance Capability_eq_dec : EqDecision Capability.
Proof. solve_decision. Defined.

(** @ hlb-types/src/capability.rs:12-14 [PORTAL_SERVICE] *)
Definition PORTAL_SERVICE : string := "oauth2-proxy".

(** @ hlb-types/src/capability.rs:18-20 [s3_key_secrets] *)
Definition s3_key_secrets (app : string) : string * string :=
  (app +:+ "-s3-key-id", app +:+ "-s3-secret").

(** @ hlb-types/src/capability.rs:25-27 [bucket_name] *)
Definition bucket_name (bucket : option string) (app : string) : string := default app bucket.

(** @ hlb-types/src/capability.rs:224-229 [DbEngine::service_name] *)
Definition db_service_name (e : DbEngine) : string :=
  match e with Postgres => "postgres" | Mariadb => "mariadb" end.

(** @ hlb-types/src/capability.rs:232-237 [DbEngine::limit_arg] *)
Definition limit_arg (e : DbEngine) : string :=
  match e with Postgres => "max_connections=" | Mariadb => "--max-connections=" end.

(** @ hlb-types/src/capability.rs:241-248 [DbEngine::kept_for_the_administrator] *)
Definition kept_for_the_administrator (e : DbEngine) : N :=
  match e with Postgres => 3 | Mariadb => 0 end.

(** @ hlb-types/src/capability.rs:258-262 [CacheEngine::service_name] *)
Definition cache_service_name (e : CacheEngine) : string :=
  match e with Valkey => "valkey" end.

(** @ hlb-types/src/capability.rs:296-298 [SsoMode::requires_network_isolation] *)
Definition requires_network_isolation (m : SsoMode) : bool :=
  match m with SsoProxyHeader => true | _ => false end.

(** @ hlb-types/src/capability.rs:336-338 [VolumeCopy::is_live] *)
Definition copy_is_live (c : VolumeCopy) : bool := c ==? CopyLive.

(** @ hlb-types/src/capability.rs:341-347 [VolumeCopy::engine] *)
Definition copy_engine (c : VolumeCopy) : option DbEngine :=
  match c with
  | CopyLive | CopyStopped => None
  | CopyPgBasebackup => Some Postgres
  | CopyMariadbBackup => Some Mariadb
  end.

(** @ hlb-types/src/capability.rs:153-163 [Capability::id] *)
Definition capability_id (c : Capability) : string :=
  match c with
  | Database _ _ _ _ => "database"
  | Cache _ _ => "cache"
  | Sso _ _ => "sso"
  | Smtp _ => "smtp"
  | MailAccount _ _ => "mail-account"
  | Storage _ _ _ _ _ _ _ => "storage"
  | ObjectStorage _ _ _ => "object-storage"
  end.

(** @ hlb-types/src/capability.rs:169-189 [Capability::platform_service] *)
Definition platform_service (c : Capability) : option string :=
  match c with
  | Database engine _ _ _ => Some (db_service_name engine)
  | Cache engine _ => Some (cache_service_name engine)
  | Sso mode _ =>
      match mode with
      | SsoNative => Some "pocket-id"
      | SsoProxyOnly | SsoProxyHeader => Some PORTAL_SERVICE
      | SsoNone => None
      end
  | Smtp _ | MailAccount _ _ => Some "stalwart"
  | ObjectStorage _ _ _ => Some "garage"
  | Storage _ _ _ _ _ _ _ => None
  end.

(** The loop of [role_connection_limit]; the [?] on an undeclared number returns at once.
    @ hlb-types/src/capability.rs:197-213 [role_connection_limit] *)
Fixpoint role_connection_limit_go (sum : N) (any : bool) (requires : list Capability)
    (on : DbEngine) : option N :=
  match requires with
  | [] => if any then Some (saturating_mul_u32 sum 2) else None
  | Database engine _ _ connections :: rest =>
      if decide (engine = on) then
        n ← connections;
        role_connection_limit_go (saturating_add_u32 sum n) true rest on
      else role_connection_limit_go sum any rest on
  | _ :: rest => role_connection_limit_go sum any rest on
  end.

(** @ hlb-types/src/capability.rs:192-214 [role_connection_limit] *)
Definition role_connection_limit (requires : list Capability) (on : DbEngine) : option N :=
  role_connection_limit_go 0 false requires on.

(** ** Properties *)

(** What each database on the engine declares. *)
Definition declared_connections (on : DbEngine) (c : Capability) : option (option N) :=
  match c with
  | Database engine _ _ connections => if decide (engine = on) then Some connections else None
  | _ => None
  end.

Definition sum_N (l : list N) : N := foldr N.add 0%N l.

Lemma saturating_add_assoc m n k :
  saturating_add_u32 (N.min m u32_max) n = N.min (m + n) u32_max ∧
  N.min (N.min (m + n) u32_max + k) u32_max = N.min (m + n + k) u32_max.
Proof. unfold saturating_add_u32, u32_max. lia. Qed.

Lemma role_connection_limit_go_spec requires on sum any :
  role_connection_limit_go (N.min sum u32_max) any requires on =
  match mapM id (omap (declared_connections on) requires) with
  | None => None
  | Some ns =>
      if any || negb (bool_decide (ns = []))
      then Some (N.min (2 * (sum + sum_N ns)) u32_max) else None
  end.
Proof.
  revert sum any. induction requires as [|c requires IH]; intros sum any; cbn -[N.mul N.add].
  - destruct any; [|done]. cbn. f_equal. unfold saturating_mul_u32, u32_max. lia.
  - destruct c; cbn -[N.mul N.add]; try apply IH.
    case_decide; cbn -[N.mul N.add]; [|apply IH].
    destruct connections as [n|]; cbn -[N.mul N.add]; [|done].
    rewrite (proj1 (saturating_add_assoc sum n 0)), IH.
    destruct (mapM id _) as [ns|]; cbn -[N.mul N.add]; [|done].
    rewrite orb_true_r. do 2 f_equal. unfold sum_N. cbn [foldr]. lia.
Qed.

(** The limit the server is told: none when the app has no database on the engine or
    when one of them declares nothing, and otherwise twice what they declare together, at
    most what a [u32] holds - never the small number an overflow would wrap to. *)
Theorem role_connection_limit_spec requires on :
  role_connection_limit requires on =
  match mapM id (omap (declared_connections on) requires) with
  | Some (n :: ns) => Some (N.min (2 * sum_N (n :: ns)) u32_max)
  | _ => None
  end.
Proof.
  unfold role_connection_limit.
  change 0%N with (N.min 0 u32_max). rewrite role_connection_limit_go_spec.
  destruct (mapM id _) as [[|n ns]|]; done.
Qed.

(** The services a need can be met by are the platform's own. *)
Lemma platform_service_known c s :
  platform_service c = Some s →
  s ∈ ["postgres"; "mariadb"; "valkey"; "pocket-id"; PORTAL_SERVICE; "stalwart"; "garage"].
Proof. destruct c as [[]|[]|[]| | | |]; cbn; intros; simplify_eq; set_solver. Qed.
