(* ===== verification/Access.v ===== *)
(** * Who enters an app, and what the app is told about them

    [crates/hlb-types/src/access.rs] and [crates/hlb-types/src/assertion.rs]: the groups
    roles are, the claims written on them, the texts they fill, and what a running app
    must keep true. The JSON values are those of [serde_json::Value]. *)

From S2P Require Import Prelude RustStr Rbac.

(** [serde_json::Value]; a number is kept as the text it is written with. *)
Inductive Json :=
| JNull | JBool (b : bool) | JNumber (n : string) | JString (s : string)
| JArray (l : list Json) | JObject (o : list (string * Json)).

(** @ hlb-types/src/access.rs:28-34 [group_of] *)
Definition group_of (role_id : string) : string := "hlb-" +:+ role_id.

(** @ hlb-types/src/access.rs:41-51 [valid_role_id] *)
Definition valid_role_id (id : string) : bool :=
  negb (str_is_empty id)
  && (String.length id <=? 40)%nat
  && negb (starts_with "-" id)
  && negb (ends_with "-" id)
  && str_all (λ c, is_lower c || is_digit c || bool_decide (c = "-"%char)) id.

(** @ hlb-types/src/access.rs:36-39 [role_of_group] *)
Definition role_of_group (group : string) : option string :=
  id ← strip_prefix "hlb-" group;
  if valid_role_id id then Some id else None.

(** @ hlb-types/src/access.rs:53-72 [RESERVED_CLAIMS] *)
Definition RESERVED_CLAIMS : list string :=
  ["sub"; "iss"; "aud"; "exp"; "iat"; "nonce"; "email"; "email_verified"; "name";
   "given_name"; "family_name"; "display_name"; "preferred_username"; "picture"; "groups";
   "auth_time"; "acr"].

(** @ hlb-types/src/access.rs:122-134 [AdminsApply] *)
Record AdminsApply := {
  aa_service : option string; aa_grant : list string; aa_revoke : list string }.

(** @ hlb-types/src/access.rs:109-120 [Admins] *)
Record Admins := { adm_level : Role; adm_means : string; adm_apply : option AdminsApply }.

#[export] Instance Role_countable : Countable Role.
Proof.
  refine (inj_countable' role_rank (λ n, match n with 0%nat => User | 1%nat => Viewer
    | 2%nat => Operator | _ => Admin end) _). by intros [].
Defined.

(** @ hlb-types/src/access.rs:139-155 [Claim] *)
Record Claim := { by_level : option (gmap Role string); claim_json : option Json }.

(** @ hlb-types/src/access.rs:157-163 [RoleView] *)
Record RoleView := { rv_id : string; rv_name : string; rv_level : Role }.

(** @ hlb-types/src/access.rs:284-290 [QuotaUnit] *)
Inductive QuotaUnit := QBytes | QMiB | QGiB.

(** @ hlb-types/src/access.rs:293-299 [QuotaUnit::size] *)
Definition quota_size (u : QuotaUnit) : N :=
  match u with QBytes => 1 | QMiB => N.shiftl 1 20 | QGiB => N.shiftl 1 30 end.

(** @ hlb-types/src/access.rs:247-252 [QuotaClaim] *)
Record QuotaClaim := { qc_name : string; qc_unit : QuotaUnit }.
(** @ hlb-types/src/access.rs:254-279 [QuotaApply] *)
Inductive QuotaApply :=
| QuotaExec (command : list string) (unit_ : QuotaUnit)
| QuotaSql (statement : string) (database : option string) (unit_ : QuotaUnit).
(** @ hlb-types/src/access.rs:230-245 [Quota] *)
Record Quota := { quota_claim : option QuotaClaim; quota_apply : option QuotaApply }.

(** @ hlb-types/src/access.rs:360-366 [JsonAt] *)
Record JsonAt := { ja_path : string; ja_pointer : string }.
(** @ hlb-types/src/access.rs:368-373 [AccountWrite] *)
Record AccountWrite := { aw_verb : string; aw_path : string }.
(** @ hlb-types/src/access.rs:332-358 [AccountsApply] *)
Inductive AccountsApply :=
| AccountsHttp (sign_in : string) (headers : gmap string string) (links read : JsonAt)
    (disabled : string) (write : AccountWrite).
(** @ hlb-types/src/access.rs:318-330 [Accounts] *)
Record Accounts := { accounts_apply : AccountsApply }.
(** @ hlb-types/src/access.rs:378-390 [Members] *)
Inductive Members := BitwardenDirectory.
(** @ hlb-types/src/access.rs:408-418 [Nodes] *)
Inductive Nodes := NodesTermix.

(** @ hlb-types/src/access.rs:79-107 [Access] *)
Record Access := {
  access_floor : Role;
  access_admins : option Admins;
  access_claims : gmap string Claim;
  access_quota : option Quota;
  access_members : option Members;
  access_accounts : option Accounts;
  access_nodes : option Nodes }.

(** @ hlb-types/src/access.rs:435-443 [EmergencyPart] *)
Inductive EmergencyPart := PartEmail | PartPassword | PartTotp | PartApiKey.

(** @ hlb-types/src/access.rs:447-454 [EmergencyPart::suffix] *)
Definition part_suffix (p : EmergencyPart) : string :=
  match p with
  | PartEmail => "email" | PartPassword => "password" | PartTotp => "totp"
  | PartApiKey => "api-key"
  end.

(** @ hlb-types/src/access.rs:393-395 [Members::organization_id_secret] *)
Definition organization_id_secret (app : string) : string := app +:+ "-organization-id".
(** @ hlb-types/src/access.rs:396-398 [Members::organization_key_secret] *)
Definition organization_key_secret (app : string) : string := app +:+ "-organization-key".
(** @ hlb-types/src/access.rs:403-405 [Members::emergency_secret] *)
Definition emergency_secret (app : string) (p : EmergencyPart) : string :=
  app +:+ "-emergency-" +:+ part_suffix p.
(** @ hlb-types/src/access.rs:422-424 [Nodes::api_key_secret] *)
Definition api_key_secret (app : string) : string := app +:+ "-api-key".
(** @ hlb-types/src/access.rs:426-428 [Nodes::node_key_secret] *)
Definition node_key_secret (app : string) : string := app +:+ "-node-key".
(** @ hlb-types/src/access.rs:430-432 [Nodes::next_node_key_secret] *)
Definition next_node_key_secret (app : string) : string := app +:+ "-node-key-next".

(** @ hlb-types/src/assertion.rs:32-78 [Check] *)
Inductive AssertionCheck :=
| CheckHttp (path : string) (port : option N) (status : list N) (pointer : option string)
    (equals : option Json) (contains : option string) (host : option string)
| CheckEnv (name equals : string)
| CheckSql (query : string) (database : option string) (equals : string).

(** @ hlb-types/src/assertion.rs:15-30 [Assertion] *)
Record Assertion := {
  as_id : string; as_holds : string; as_check : AssertionCheck; as_fix : option string }.

(** @ hlb-types/src/assertion.rs:81-87 [Check::kind] *)
Definition check_kind (c : AssertionCheck) : string :=
  match c with
  | CheckHttp _ _ _ _ _ _ _ => "http" | CheckEnv _ _ => "env" | CheckSql _ _ _ => "sql"
  end.

(** The loop of [placeholders]; each turn leaves a shorter text, so its length is fuel.
    @ hlb-types/src/access.rs:200-208 [placeholders] *)
Fixpoint placeholders_go (fuel : nat) (rest : string) : list string :=
  match fuel with
  | O => []
  | S fuel =>
      match find_str "{{" rest with
      | None => []
      | Some (_, after) =>
          match find_str "}}" after with
          | None => []
          | Some (name, rest) => trim name :: placeholders_go fuel rest
          end
      end
  end.

(** @ hlb-types/src/access.rs:198-209 [placeholders] *)
Definition placeholders (text : string) : list string :=
  placeholders_go (S (String.length text)) text.

(** @ hlb-types/src/access.rs:216-227 [fill] *)
Fixpoint fill_go (fuel : nat) (rest : string) (value : string → option string) : string :=
  match fuel with
  | O => rest
  | S fuel =>
      match find_str "{{" rest with
      | None => rest
      | Some (before, after) =>
          match find_str "}}" after with
          | None => rest
          | Some (name, rest) =>
              before +:+ default ("{{" +:+ name +:+ "}}") (value (trim name))
              +:+ fill_go fuel rest value
          end
      end
  end.

(** @ hlb-types/src/access.rs:211-228 [fill] *)
Definition fill (text : string) (value : string → option string) : string :=
  fill_go (S (String.length text)) text value.

(** @ hlb-types/src/access.rs:182-187 [fill_json] *)
Definition role_token (role : RoleView) (t : string) : option string :=
  if decide (t = "role.id") then Some (rv_id role)
  else if decide (t = "role.name") then Some (rv_name role)
  else if decide (t = "role.group") then Some (group_of (rv_id role))
  else None.

(** @ hlb-types/src/access.rs:179-196 [fill_json] *)
Fixpoint fill_json (v : Json) (role : RoleView) : Json :=
  match v with
  | JString s => JString (fill s (role_token role))
  | JArray a => JArray (map (λ x, fill_json x role) a)
  | JObject o => JObject (map (λ '(k, x), (k, fill_json x role)) o)
  | other => other
  end.

(** @ hlb-types/src/access.rs:167-176 [Claim::value_for] *)
Definition value_for (c : Claim) (role : RoleView) : option Json :=
  match by_level c, claim_json c with
  | Some levels, _ =>
      JString <$> find_map (λ r, levels !! r)
        (reverse (filter (λ r, role_le r (rv_level role)) all_roles))
  | None, Some v => Some (fill_json v role)
  | None, None => None
  end.

(** ** Properties *)

(** A role's group is read back as the role, and only a group of Homelabus's names a
    role: nobody's own PocketID group is taken for one. *)
Theorem role_of_group_of id group :
  (valid_role_id id = true → role_of_group (group_of id) = Some id) ∧
  (role_of_group group = Some id ↔ group = group_of id ∧ valid_role_id id = true).
Proof.
  assert (H : role_of_group group = Some id ↔ group = group_of id ∧ valid_role_id id = true).
  { unfold role_of_group, group_of. rewrite bind_Some. setoid_rewrite strip_prefix_Some.
    split.
    - intros (x & -> & Hx). case_match; naive_solver.
    - intros [-> Hv]. exists id. by rewrite Hv. }
  split; [|done]. intros Hv. unfold role_of_group, group_of.
  rewrite strip_prefix_append. cbn. by rewrite Hv.
Qed.

(** The fuel of [fill] and [placeholders] is never what stops them. *)
Lemma fill_go_enough fuel1 fuel2 rest value :
  (String.length rest < fuel1)%nat → (String.length rest < fuel2)%nat →
  fill_go fuel1 rest value = fill_go fuel2 rest value.
Proof.
  revert fuel2 rest. induction fuel1 as [|f1 IH]; intros [|f2] rest H1 H2; try lia. cbn.
  destruct (find_str "{{" rest) as [[before after]|] eqn:E1; [|done].
  destruct (find_str "}}" after) as [[name rest']|] eqn:E2; [|done].
  apply find_str_shorter in E1, E2. do 2 f_equal. apply IH; cbn in *; lia.
Qed.

Lemma placeholders_go_enough fuel1 fuel2 rest :
  (String.length rest < fuel1)%nat → (String.length rest < fuel2)%nat →
  placeholders_go fuel1 rest = placeholders_go fuel2 rest.
Proof.
  revert fuel2 rest. induction fuel1 as [|f1 IH]; intros [|f2] rest H1 H2; try lia. cbn.
  destruct (find_str "{{" rest) as [[before after]|] eqn:E1; [|done].
  destruct (find_str "}}" after) as [[name rest']|] eqn:E2; [|done].
  apply find_str_shorter in E1, E2. f_equal. apply IH; cbn in *; lia.
Qed.

(** A text none of whose names is given a value is left exactly as it was written,
    whatever it holds: a mistaken token shows as its own text. *)
Theorem fill_without_values text : fill text (λ _, None) = text.
Proof.
  unfold fill. generalize (S (String.length text)). intros fuel. revert text.
  induction fuel as [|fuel IH]; intros text; [done|]. cbn.
  destruct (find_str "{{" text) as [[before after]|] eqn:E1; [|done].
  destruct (find_str "}}" after) as [[name rest]|] eqn:E2; [|done].
  rewrite IH. apply find_str_Some in E1, E2. subst. cbn. by rewrite !append_assoc.
Qed.

(** A claim by level gives the entry of the highest level at or below the role's, and
    no claim at all to a role below every entry. *)
Lemma value_for_by_level c levels role :
  by_level c = Some levels →
  match value_for c role with
  | Some v => ∃ r s, levels !! r = Some s ∧ v = JString s ∧ role_le r (rv_level role) ∧
      ∀ r', role_le r' (rv_level role) → is_Some (levels !! r') → role_le r' r
  | None => ∀ r, role_le r (rv_level role) → levels !! r = None
  end.
Proof.
  intros Hc. unfold value_for. rewrite Hc.
  destruct (levels !! User) as [u|] eqn:HU, (levels !! Viewer) as [v|] eqn:HV,
    (levels !! Operator) as [o|] eqn:HO, (levels !! Admin) as [a|] eqn:HA,
    (rv_level role); vm_compute filter; cbn; rewrite ?HU, ?HV, ?HO, ?HA; cbn;
    first
      [ intros [] Hr; unfold role_le in Hr; cbn in Hr; solve [done | lia]
      | eexists _, _; repeat split; [eassumption|unfold role_le; cbn; lia|];
        intros [] Hr [x Hx]; unfold role_le in *; cbn in *; (lia || congruence) ].
Qed.

Lemma value_for_by_level_witness :
  let levels : gmap Role string := {[ Viewer := "read"; Admin := "all" ]} in
  let c := {| by_level := Some levels; claim_json := None |} in
  let role := {| rv_id := "family"; rv_name := "Family"; rv_level := Operator |} in
  value_for c role = Some (JString "read") ∧
  match value_for c role with
  | Some v => ∃ r s, levels !! r = Some s ∧ v = JString s ∧ role_le r Operator ∧
      ∀ r', role_le r' Operator → is_Some (levels !! r') → role_le r' r
  | None => ∀ r, role_le r Operator → levels !! r = None
  end.
Proof.
  intros levels c role. split; [by vm_compute|].
  exact (value_for_by_level c levels role eq_refl).
Defined.
