(* ===== verification/Guide.v ===== *)
(** * Manual actions and hints, declared per app

    [crates/hlb-types/src/guide.rs]: the steps of an app's [guide.yaml], what can be tried
    for each before falling back to a person, and how each is known to be done. *)

From S2P Require Import Prelude RustStr.

(** @ hlb-types/src/guide.rs:96-113 [Phase] *)
Inductive Phase :=
| PreInstall | PostInstall | FirstLogin | Maintenance | PostUpgrade | PostRestore.

(** @ hlb-types/src/guide.rs:129-140 [Severity] *)
Inductive Severity := Blocking | Required | Recommended | Tip.

#[export] Instance Phase_eq_dec : EqDecision Phase.
Proof. solve_decision. Defined.
#[export] Instance Severity_eq_dec : EqDecision Severity.
Proof. solve_decision. Defined.

(** @ hlb-types/src/guide.rs:213-230 [ApiCall] *)
Record ApiCall := {
  call_verb : string; call_path : string; call_body : option string; call_merge : bool }.
(** @ hlb-types/src/guide.rs:232-241 [ApiProbe] *)
Record ApiProbe := { probe_path : string; probe_pointer : string; probe_equals : string }.
(** @ hlb-types/src/guide.rs:243-251 [JsonValue] *)
Record JsonValue := { jv_pointer : string; jv_equals : string }.

#[export] Instance ApiCall_eq_dec : EqDecision ApiCall.
Proof. solve_decision. Defined.
#[export] Instance ApiProbe_eq_dec : EqDecision ApiProbe.
Proof. solve_decision. Defined.
#[export] Instance JsonValue_eq_dec : EqDecision JsonValue.
Proof. solve_decision. Defined.

(** @ hlb-types/src/guide.rs:142-211 [Automation] *)
Inductive Automation :=
| AutoEnv (vars : gmap string string)
| AutoExec (command : list string) (service : option string) (probe : option (list string))
    (probe_matches : option string)
| AutoApi (port : option N) (sign_in : option string) (headers : gmap string string)
    (probe : option ApiProbe) (calls : list ApiCall)
| AutoSql (statement : string) (params : list string) (probe : string) (restart : bool).

(** @ hlb-types/src/guide.rs:253-295 [Verify] *)
Inductive Verify :=
| Attest
| VerifyDns (record : string) (expect_contains : option string)
| VerifyHttp (url : string) (expect_status : list N) (expect_json : option JsonValue)
| VerifyTcp (target : string)
| VerifyExec (command : list string) (expect_contains : option string).

(** @ hlb-types/src/guide.rs:25-55 [GuideStep] *)
Record GuideStep := {
  step_id : string;
  step_title : string;
  step_phase : Phase;
  step_severity : Severity;
  step_body : string;
  step_after : list string;
  step_automate : list Automation;
  step_verify : Verify;
  step_deeplink : option string;
  step_recheck : option string }.

(** @ hlb-types/src/guide.rs:17-23 [Guide] *)
Record Guide := { guide_steps : list GuideStep }.

Definition default_guide : Guide := {| guide_steps := [] |}.

#[export] Instance Automation_eq_dec : EqDecision Automation.
Proof. solve_decision. Defined.
#[export] Instance Verify_eq_dec : EqDecision Verify.
Proof. solve_decision. Defined.
#[export] Instance GuideStep_eq_dec : EqDecision GuideStep.
Proof. solve_decision. Defined.

(** @ hlb-types/src/guide.rs:57-58 [MIN_RECHECK_S] *)
Definition MIN_RECHECK_S : Z := 86400.

Definition i64_min : Z := - 2 ^ 63.
Definition i64_max : Z := 2 ^ 63 - 1.

(** [i64::checked_mul]. *)
Definition checked_mul_i64 (a b : Z) : option Z :=
  if decide (i64_min ≤ a * b ≤ i64_max)%Z then Some (a * b)%Z else None.

Definition recheck_refusal (r : string) : string :=
  "recheck " +:+ String "034" (r +:+ String "034" ": a number of hours or days, 24h or 7d").

(** @ hlb-types/src/guide.rs:61-83 [GuideStep::recheck_secs] *)
Definition recheck_secs (s : GuideStep) : result string (option Z) :=
  match step_recheck s with
  | None => Ok None
  | Some r =>
      let r := trim r in
      match split_last r with
      | Some (count, u) =>
          unit_ ← (if decide (u = "h"%char) then Ok 3600%Z
                   else if decide (u = "d"%char) then Ok 86400%Z
                   else Err (recheck_refusal r));
          Some <$> ok_or (recheck_refusal r)
            (n ← parse_i64 count;
             s ← checked_mul_i64 n unit_;
             if decide (0 ≤ s)%Z then Some s else None)
      | None => Err (recheck_refusal r)
      end
  end.

(** @ hlb-types/src/guide.rs:85-88 [GuideStep::is_blocking] *)
Definition is_blocking (s : GuideStep) : bool := step_severity s ==? Blocking.

(** @ hlb-types/src/guide.rs:90-93 [GuideStep::is_automatable] *)
Definition is_automatable (s : GuideStep) : bool :=
  match step_automate s with [] => false | _ => true end.

(** @ hlb-types/src/guide.rs:115-126 [Phase::at_install] *)
Definition at_install (p : Phase) : bool :=
  match p with
  | PreInstall | PostInstall | FirstLogin | Maintenance | PostUpgrade => true
  | PostRestore => false
  end.

(** @ hlb-types/src/guide.rs:298-301 [Verify::is_automatic] *)
Definition is_automatic (v : Verify) : bool := match v with Attest => false | _ => true end.

(** @ hlb-types/src/guide.rs:303-311 [Verify::kind] *)
Definition verify_kind (v : Verify) : string :=
  match v with
  | Attest => "attest"
  | VerifyDns _ _ => "dns"
  | VerifyHttp _ _ _ => "http"
  | VerifyTcp _ => "tcp"
  | VerifyExec _ _ => "exec"
  end.

(** @ hlb-types/src/guide.rs:318-326 [render] *)
Definition render (template : string) (vars : list (string * string)) : string :=
  fold_left (λ out '(k, v),
    replace ("{{" +:+ k +:+ "}}") v (replace ("{{ " +:+ k +:+ " }}") v out)) vars template.

(** ** Properties *)

Lemma strip_prefix_minus_show n : strip_prefix "-" (show_N n) = None.
Proof.
  pose proof (show_N_digits n) as Hd. destruct (show_N n) as [|c s]; [done|]. cbn.
  case_decide; [|done]. subst. by apply str_all_head in Hd.
Qed.

Lemma parse_i64_show n : (n < 2 ^ 63)%N → parse_i64 (show_N n) = Some (Z.of_N n).
Proof.
  intros Hn. unfold parse_i64. rewrite strip_prefix_minus_show, parse_uint_show; [done|].
  change (2 ^ 63)%N with 9223372036854775808%N in *. cbn. lia.
Qed.

(** A re-check read from a guide is a number of seconds the clock can compare with -
    never negative, never past an [i64] -, none when the step declares none; and a number
    of days written out is read back as that many days when it fits, refused when not. *)
Theorem recheck_secs_spec (s : GuideStep) (n : N) :
  (∀ z, recheck_secs s = Ok (Some z) → (0 ≤ z ≤ i64_max)%Z) ∧
  (recheck_secs s = Ok None ↔ step_recheck s = None) ∧
  (step_recheck s = Some (show_N n +:+ "d") → (n < 2 ^ 63)%N →
   recheck_secs s =
     if decide (Z.of_N n * 86400 ≤ i64_max)%Z then Ok (Some (Z.of_N n * 86400)%Z)
     else Err (recheck_refusal (show_N n +:+ "d"))).
Proof.
  unfold recheck_secs. split; [|split].
  - intros z. case_match; [|done]. case_match; [|done]. case_match.
    rewrite result_bind_Ok. intros (u & _ & Hs). revert Hs.
    destruct (parse_i64 _) as [k|]; [|done]. cbn.
    unfold checked_mul_i64. case_decide; cbn; [|done].
    case_decide; cbn; intros; simplify_result. lia.
  - case_match; [|done]. split; [|done]. case_match; [|done]. case_match.
    rewrite result_bind_Ok. intros (u & _ & Hs). revert Hs. by destruct (ok_or _ _).
  - intros -> Hn. rewrite trim_show_unit by done. rewrite split_last_append. cbn -[parse_i64].
    rewrite parse_i64_show by done. cbn. unfold checked_mul_i64, i64_min, i64_max.
    rewrite (decide_False (P := "d"%char = "h"%char)), decide_True by done. cbn.
    destruct (decide (_ ≤ 2 ^ 63 - 1)%Z).
    + rewrite decide_True by lia. cbn. by rewrite decide_True by lia.
    + by rewrite decide_False by lia.
Qed.

Lemma recheck_secs_spec_witness :
  let s := {| step_id := "dns"; step_title := ""; step_phase := PreInstall;
              step_severity := Blocking; step_body := ""; step_after := [];
              step_automate := []; step_verify := Attest; step_deeplink := None;
              step_recheck := Some "7d" |} in
  recheck_secs s = Ok (Some 604800%Z).
Proof.
  intros s. destruct (recheck_secs_spec s 7) as (_ & _ & H).
  rewrite H; [by vm_compute|by vm_compute|lia].
Defined.
