(* ===== verification/Binding.v ===== *)
(** * Binding tokens: how an app receives what was provisioned for it

    [crates/hlb-types/src/binding.rs]: the tokens a manifest writes, which of them carry a
    secret, the secrets Homelabus generates for a service, and what is masked when a
    variable is displayed. *)

From S2P Require Import Prelude RustStr Encoding.

(** @ hlb-types/src/binding.rs:28-71 [Token] *)
Inductive Token :=
| DbHost | DbPort | DbName | DbUser | DbPassword | DbUrl
| CacheHost | CachePort | CacheUrl
| OidcIssuer | OidcClientId | OidcClientSecret
| SmtpHost | SmtpPort | SmtpUser | SmtpPassword | SmtpFrom
| Domain | Timezone | BrandLogo.

#[export] Instance Token_eq_dec : EqDecision Token.
Proof. solve_decision. Defined.

(** @ hlb-types/src/binding.rs:83-106 [Token::placeholder] *)
Definition token_placeholder (t : Token) : string :=
  match t with
  | DbHost => "{{ db.host }}"
  | DbPort => "{{ db.port }}"
  | DbName => "{{ db.name }}"
  | DbUser => "{{ db.user }}"
  | DbPassword => "{{ db.password }}"
  | DbUrl => "{{ db.url }}"
  | CacheHost => "{{ cache.host }}"
  | CachePort => "{{ cache.port }}"
  | CacheUrl => "{{ cache.url }}"
  | OidcIssuer => "{{ oidc.issuer }}"
  | OidcClientId => "{{ oidc.client_id }}"
  | OidcClientSecret => "{{ oidc.client_secret }}"
  | SmtpHost => "{{ smtp.host }}"
  | SmtpPort => "{{ smtp.port }}"
  | SmtpUser => "{{ smtp.user }}"
  | SmtpPassword => "{{ smtp.password }}"
  | SmtpFrom => "{{ smtp.from }}"
  | Domain => "{{ domain }}"
  | Timezone => "{{ timezone }}"
  | BrandLogo => "{{ brand.logo }}"
  end.

(** In the order of the declaration, which is the derived one.
    @ hlb-types/src/binding.rs:109-132 [Token::all] *)
Definition all_tokens : list Token :=
  [DbHost; DbPort; DbName; DbUser; DbPassword; DbUrl; CacheHost; CachePort; CacheUrl;
   OidcIssuer; OidcClientId; OidcClientSecret; SmtpHost; SmtpPort; SmtpUser; SmtpPassword;
   SmtpFrom; Domain; Timezone; BrandLogo].

(** @ hlb-types/src/binding.rs:138-143 [Token::is_secret] *)
Definition token_is_secret (t : Token) : bool :=
  match t with
  | DbPassword | DbUrl | OidcClientSecret | SmtpPassword => true
  | _ => false
  end.

(** @ hlb-types/src/binding.rs:151-169 [Token::requires] *)
Definition token_requires (t : Token) : option string :=
  match t with
  | DbHost | DbPort | DbName | DbUser | DbPassword | DbUrl => Some "database"
  | CacheHost | CachePort | CacheUrl => Some "cache"
  | OidcIssuer | OidcClientId | OidcClientSecret => Some "sso"
  | SmtpHost | SmtpPort | SmtpUser | SmtpPassword | SmtpFrom => Some "smtp"
  | Domain | Timezone | BrandLogo => None
  end.

(** @ hlb-types/src/binding.rs:172-174 [NO_LOGO] *)
Definition NO_LOGO : string := "<!-- no logo set -->" +:+ String "010" "".

(** [u32::from_be_bytes] at [at_]. @ hlb-types/src/binding.rs:183-183 [brand_logo_svg] *)
Definition png_dim (png : list N) (at_ : nat) : N :=
  fold_left (λ acc b, N.lor (N.shiftl acc 8) b) (take 4 (drop at_ png)) 0%N.

Definition dquote : string := String "034" "".

(** @ hlb-types/src/binding.rs:176-190 [brand_logo_svg] *)
Definition brand_logo_svg (png : list N) : option string :=
  if (length png <? 24)%nat
     || negb (take 8 png ==? [137; 80; 78; 71; 13; 10; 26; 10]%N)
  then None
  else
    let w := show_N (png_dim png 16) in
    let h := show_N (png_dim png 20) in
    Some ("<svg xmlns=" +:+ dquote +:+ "http://www.w3.org/2000/svg" +:+ dquote
          +:+ " viewBox=" +:+ dquote +:+ "0 0 " +:+ w +:+ " " +:+ h +:+ dquote +:+ ">"
          +:+ "<image width=" +:+ dquote +:+ w +:+ dquote +:+ " height=" +:+ dquote +:+ h
          +:+ dquote +:+ " href=" +:+ dquote +:+ "data:image/png;base64,"
          +:+ base64_standard png +:+ dquote +:+ "/></svg>" +:+ String "010" "").

(** @ hlb-types/src/binding.rs:217-228 [SecretForm] *)
Inductive SecretForm :=
| FormPlain | FormHex | FormBcrypt | FormBase64url | FormBase64 | FormVapidPrivate
| FormVapidPublic | FormRsa.

#[export] Instance SecretForm_eq_dec : EqDecision SecretForm.
Proof. solve_decision. Defined.

(** @ hlb-types/src/binding.rs:231-240 [SecretForm::WRITTEN] *)
Definition WRITTEN : list SecretForm :=
  [FormHex; FormBcrypt; FormBase64url; FormBase64; FormVapidPrivate; FormVapidPublic; FormRsa].

(** @ hlb-types/src/binding.rs:242-254 [SecretForm::is_public] *)
Definition form_is_public (f : SecretForm) : bool :=
  match f with
  | FormVapidPublic => true
  | FormPlain | FormHex | FormBcrypt | FormBase64url | FormBase64 | FormVapidPrivate
  | FormRsa => false
  end.

(** @ hlb-types/src/binding.rs:256-267 [SecretForm::suffix] *)
Definition form_suffix (f : SecretForm) : string :=
  match f with
  | FormPlain => ""
  | FormHex => ":hex"
  | FormBcrypt => ":bcrypt"
  | FormBase64url => ":base64url"
  | FormBase64 => ":base64"
  | FormVapidPrivate => ":vapid-private"
  | FormVapidPublic => ":vapid-public"
  | FormRsa => ":rsa"
  end.

(** @ hlb-types/src/binding.rs:192-215 [GeneratedSecret] *)
Record GeneratedSecret := { gs_name : string; gs_form : SecretForm }.

#[export] Instance GeneratedSecret_eq_dec : EqDecision GeneratedSecret.
Proof. solve_decision. Defined.

(** @ hlb-types/src/binding.rs:293-297 [GeneratedSecret::vault_name] *)
Definition vault_name (g : GeneratedSecret) (app : string) : string :=
  app +:+ "-" +:+ gs_name g.

(** @ hlb-types/src/binding.rs:299-302 [GeneratedSecret::placeholder] *)
Definition secret_placeholder (g : GeneratedSecret) : string :=
  "{{ secret." +:+ gs_name g +:+ form_suffix (gs_form g) +:+ " }}".

(** The key derivations are third-party crates: [p256] gives a key from 32 bytes when
    they are a scalar, [rsa] one from a seed, [bcrypt] a hash from a salt. *)
Section render.
Context (p256_key : Type).
Context (p256_from_bytes : list N → option p256_key).
Context (p256_scalar p256_point : p256_key → list N).
Context (rsa_pkcs8_der : list N → option (list N)).
Context (bcrypt_hash : string → N → list N → option string).

(** @ hlb-types/src/binding.rs:270-277 [vapid_key] *)
Definition vapid_key (stored : string) : option p256_key :=
  find_map (λ i, p256_from_bytes
    (sha256 (bytes_of ("hlb-vapid:" +:+ show_nat i +:+ ":" +:+ stored)))) (seq 0 16).

(** @ hlb-types/src/binding.rs:279-290 [rsa_key] *)
Definition rsa_key (stored : string) : option (list N) :=
  rsa_pkcs8_der (sha256 (bytes_of ("hlb-rsa:" +:+ stored))).

(** @ hlb-types/src/binding.rs:348-349 [BCRYPT_COST] *)
Definition BCRYPT_COST : N := 10.

(** @ hlb-types/src/binding.rs:304-345 [GeneratedSecret::render] *)
Definition secret_render (g : GeneratedSecret) (stored : string) : string :=
  match gs_form g with
  | FormPlain => stored
  | FormHex => sha256_hex (bytes_of stored)
  | FormBase64url => base64url (sha256 (bytes_of stored))
  | FormBase64 => base64_standard (sha256 (bytes_of stored))
  | FormVapidPrivate => default "" ((λ k, base64url (p256_scalar k)) <$> vapid_key stored)
  | FormVapidPublic => default "" ((λ k, base64url (p256_point k)) <$> vapid_key stored)
  | FormRsa => default "" (base64_standard <$> rsa_key stored)
  | FormBcrypt =>
      let digest := sha256 (bytes_of ("hlb-bcrypt-salt:" +:+ stored)) in
      default "" (bcrypt_hash stored BCRYPT_COST (take 16 digest))
  end.
End render.

(** @ hlb-types/src/binding.rs:367-371 [generated_secrets] *)
Definition secret_name_ok (name : string) : bool :=
  negb (str_is_empty name)
  && str_all (λ c, is_lower c || is_digit c || bool_decide (c = "-"%char)) name.

(** @ hlb-types/src/binding.rs:362-378 [generated_secrets] *)
Definition generated_secret_of (inner : string) : result string GeneratedSecret :=
  let '(name, form) :=
    default (inner, FormPlain)
      (find_map (λ f, (λ n, (n, f)) <$> strip_suffix (form_suffix f) inner) WRITTEN) in
  if secret_name_ok name then Ok {| gs_name := name; gs_form := form |}
  else Err ("{{ secret." +:+ inner +:+ " }}").

(** @ hlb-types/src/binding.rs:355-381 [generated_secrets] *)
Fixpoint generated_secrets_go (fuel : nat) (rest : string) : list (result string GeneratedSecret) :=
  match fuel with
  | O => []
  | S fuel =>
      match find_str "{{ secret." rest with
      | None => []
      | Some (_, after) =>
          match find_str " }}" after with
          | None => [Err ("{{ secret." +:+ after)]
          | Some (inner, rest) => generated_secret_of inner :: generated_secrets_go fuel rest
          end
      end
  end.

(** @ hlb-types/src/binding.rs:351-382 [generated_secrets] *)
Definition generated_secrets (value : string) : list (result string GeneratedSecret) :=
  generated_secrets_go (S (String.length value)) value.

(** @ hlb-types/src/binding.rs:384-385 [S3_SECRET_KEY] *)
Definition S3_SECRET_KEY : string := "{{ s3.secret_key }}".

(** @ hlb-types/src/binding.rs:402-409 [tokens_in] *)
Definition tokens_in (value : string) : list Token :=
  filter (λ t, contains (token_placeholder t) value = true) all_tokens.

(** [Iterator::flatten] over results: those that are [Ok]. *)
Definition oks {E A} (l : list (result E A)) : list A :=
  omap (λ r, match r with Ok a => Some a | Err _ => None end) l.

(** @ hlb-types/src/binding.rs:387-400 [carries_secret] *)
Definition carries_secret (value : string) : bool :=
  any_of token_is_secret (tokens_in value)
  || contains S3_SECRET_KEY value
  || any_of (λ g, negb (form_is_public (gs_form g))) (oks (generated_secrets value)).

(** Sorted and without repetition: each token some value holds.
    @ hlb-types/src/binding.rs:411-417 [tokens_used] *)
Definition tokens_used (env : gmap string string) : list Token :=
  filter (λ t, any_of (contains (token_placeholder t)) (btree_values env) = true) all_tokens.

(** [values] is a [BTreeMap<Token, String>], read in the order of its keys.
    @ hlb-types/src/binding.rs:419-430 [substitute] *)
Definition substitute (value : string) (values : Token → option string) : string :=
  fold_left (λ out t, match values t with
                      | Some v => replace (token_placeholder t) v out
                      | None => out
                      end) all_tokens value.

(** @ hlb-types/src/binding.rs:441-455 [redact] *)
Definition sensitive_name (name : string) : bool :=
  let n := to_ascii_uppercase name in
  any_of (λ m, contains m n)
    ["PASS"; "SECRET"; "TOKEN"; "KEY"; "CREDENTIAL"; "PRIVATE"; "_URL"; "URI"; "DSN"]
  || any_of (λ seg, seg ==? "PWD") (split_char "_" n) && negb (n ==? "PWD").

(** @ hlb-types/src/binding.rs:432-462 [redact] *)
Definition redact (name value : string) : string :=
  if sensitive_name name && negb (str_is_empty value) then "••••••" else value.

(** ** Properties *)

Lemma elem_of_all_tokens t : t ∈ all_tokens.
Proof. destruct t; cbn; set_solver. Qed.

Lemma elem_of_tokens_in t value :
  t ∈ tokens_in value ↔ ∃ a b, value = a +:+ token_placeholder t +:+ b.
Proof.
  unfold tokens_in. rewrite list_elem_of_filter, contains_true.
  pose proof (elem_of_all_tokens t). naive_solver.
Qed.

(** [tokens_used] as the source computes it: every token of every value. *)
Lemma elem_of_tokens_used t env :
  t ∈ tokens_used env ↔ ∃ k v, env !! k = Some v ∧ t ∈ tokens_in v.
Proof.
  unfold tokens_used, tokens_in. rewrite list_elem_of_filter, any_of_true.
  setoid_rewrite elem_of_btree_values. setoid_rewrite list_elem_of_filter.
  pose proof (elem_of_all_tokens t). naive_solver.
Qed.

Definition name_char (c : ascii) : bool := is_lower c || is_digit c || bool_decide (c = "-"%char).

Lemma secret_name_no_char c name :
  secret_name_ok name = true → name_char c = false → contains_char c name = false.
Proof.
  unfold secret_name_ok. intros [_ H]%andb_true_iff Hc. by eapply str_all_contains_char.
Qed.

Lemma form_suffix_colon f :
  f ∈ WRITTEN → ∃ tail, form_suffix f = String ":" tail ∧ contains_char ":" tail = false.
Proof. destruct f; intros H; [set_solver|by eexists..]. Qed.

Lemma form_suffix_inj f g : form_suffix f = form_suffix g → f = g.
Proof. by destruct f, g. Qed.

(** A suffix is taken off only the inner text it ends. *)
Lemma strip_form_suffix name f g :
  contains_char ":" name = false → g ∈ WRITTEN →
  strip_suffix (form_suffix g) (name +:+ form_suffix f) =
  if decide (f = g) then Some name else None.
Proof.
  intros Hname Hg. case_decide; [subst; apply strip_suffix_append|].
  destruct (strip_suffix _ _) as [x|] eqn:E; [|done]. exfalso.
  apply strip_suffix_Some in E. destruct (form_suffix_colon g Hg) as (tg & Eg & Htg).
  apply (f_equal (rsplit_once ":")) in E. rewrite Eg, (rsplit_once_append _ x) in E by done.
  destruct (decide (f ∈ WRITTEN)) as [Hf|Hf].
  - destruct (form_suffix_colon f Hf) as (tf & Ef & Htf).
    rewrite Ef, rsplit_once_append in E by done. simplify_eq. apply H.
    apply form_suffix_inj. by rewrite Ef, Eg.
  - assert (f = FormPlain) as -> by (destruct f; [done|set_solver..]).
    cbn in E. rewrite append_nil_r in E. apply rsplit_once_None in Hname. congruence.
Qed.

Lemma find_form name f :
  contains_char ":" name = false →
  default (name +:+ form_suffix f, FormPlain)
    (find_map (λ g, (λ n, (n, g)) <$> strip_suffix (form_suffix g) (name +:+ form_suffix f))
       WRITTEN) = (name, f).
Proof.
  intros Hname.
  assert (H : ∀ g, g ∈ WRITTEN → strip_suffix (form_suffix g) (name +:+ form_suffix f) =
                if decide (f = g) then Some name else None)
    by (intros; by apply strip_form_suffix).
  unfold WRITTEN in *. cbn [find_map]. rewrite !H by set_solver.
  destruct f; cbn; by rewrite ?append_nil_r.
Qed.

(** The fuel of [generated_secrets] is never what stops it. *)
Lemma generated_secrets_go_enough fuel1 fuel2 rest :
  (String.length rest < fuel1)%nat → (String.length rest < fuel2)%nat →
  generated_secrets_go fuel1 rest = generated_secrets_go fuel2 rest.
Proof.
  revert fuel2 rest. induction fuel1 as [|f1 IH]; intros [|f2] rest H1 H2; try lia.
  cbn [generated_secrets_go].
  destruct (find_str "{{ secret." rest) as [[before after]|] eqn:E1; [|done].
  destruct (find_str " }}" after) as [[inner rest']|] eqn:E2; [|done].
  apply find_str_shorter in E1, E2. f_equal. apply IH; cbn in *; lia.
Qed.

Lemma generated_secret_of_placeholder g :
  secret_name_ok (gs_name g) = true →
  generated_secret_of (gs_name g +:+ form_suffix (gs_form g)) = Ok g.
Proof.
  intros Hok. unfold generated_secret_of. rewrite find_form.
  - cbn. rewrite Hok. by destruct g.
  - by apply secret_name_no_char.
Qed.

Lemma generated_secrets_placeholder g :
  secret_name_ok (gs_name g) = true → generated_secrets (secret_placeholder g) = [Ok g].
Proof.
  intros Hok. unfold generated_secrets, secret_placeholder.
  set (inner := gs_name g +:+ form_suffix (gs_form g)).
  assert (Hfind : find_str " }}" (inner +:+ " }}") = Some (inner, "")).
  { change " }}" with (String " " "}}" +:+ "") at 2. apply find_str_first. unfold inner.
    rewrite contains_char_append. apply orb_false_iff. split.
    - by apply secret_name_no_char.
    - by destruct (gs_form g). }
  assert (E : "{{ secret." +:+ gs_name g +:+ form_suffix (gs_form g) +:+ " }}"
              = "{{ secret." +:+ (inner +:+ " }}")) by (unfold inner; by rewrite append_assoc).
  rewrite E. cbn [generated_secrets_go].
  assert (find_str "{{ secret." ("{{ secret." +:+ (inner +:+ " }}"))
          = Some ("", inner +:+ " }}")) as ->.
  { pose proof (find_str_first "{" "{ secret." "" (inner +:+ " }}") eq_refl) as H. exact H. }
  rewrite Hfind. unfold inner at 1. rewrite generated_secret_of_placeholder by done.
  by destruct (String.length _).
Qed.

(** A generated secret written in a manifest is read back as that secret and nothing
    else, in each of its eight forms: what the resolver plans to generate is what the
    service's configuration names. *)
Theorem generated_secrets_roundtrip g :
  secret_name_ok (gs_name g) = true → generated_secrets (secret_placeholder g) = [Ok g].
Proof. apply generated_secrets_placeholder. Qed.

Lemma generated_secrets_roundtrip_witness :
  generated_secrets "{{ secret.rpc-secret:hex }}"
  = [Ok {| gs_name := "rpc-secret"; gs_form := FormHex |}].
Proof.
  exact (generated_secrets_roundtrip {| gs_name := "rpc-secret"; gs_form := FormHex |} eq_refl).
Defined.

(** No secret goes out unmarked: a value holding a secret token or the S3 key anywhere,
    or made of a generated secret in any but its public form, carries a secret. *)
Theorem carries_secret_complete a b :
  (∀ t, token_is_secret t = true → carries_secret (a +:+ token_placeholder t +:+ b) = true) ∧
  carries_secret (a +:+ S3_SECRET_KEY +:+ b) = true ∧
  (∀ g, secret_name_ok (gs_name g) = true → form_is_public (gs_form g) = false →
        carries_secret (secret_placeholder g) = true).
Proof.
  unfold carries_secret. split; [|split].
  - intros t Ht. rewrite !orb_true_iff. left. left. apply any_of_true.
    exists t. rewrite elem_of_tokens_in. eauto.
  - rewrite !orb_true_iff. left. right. apply contains_true. eauto.
  - intros g Hok Hp. rewrite generated_secrets_placeholder by done.
    rewrite orb_true_iff. right. cbn. by rewrite Hp.
Qed.

(** What a variable's display shows of a sensitive one does not depend on its value:
    two different passwords read the same. Every name spelling PASS, in any case, is one. *)
Theorem redact_hides name v w :
  (sensitive_name name = true → v ≠ "" → w ≠ "" → redact name v = redact name w) ∧
  (contains "PASS" (to_ascii_uppercase name) = true → sensitive_name name = true) ∧
  (sensitive_name name = false → redact name v = v).
Proof.
  unfold redact. split; [|split].
  - intros -> Hv Hw. by destruct v, w.
  - intros H. unfold sensitive_name. cbn. by rewrite H.
  - by intros ->.
Qed.
