(* ===== verification/Manifest.v ===== *)
(** * The application manifest

    [crates/hlb-types/src/manifest.rs]: the catalog's declarative building block, field
    for field, with the operations the resolver and the backups read it by, and
    [crates/hlb-types/src/grants.rs]: what an app is given that the defaults keep shut.
    Parsing YAML into these records is [serde]'s work; the hand-written conversions it
    calls ([TryFrom], [From], [Display]) are modelled here. *)

From S2P Require Import Prelude RustStr Capability Access Guide.

(** ** Data *)

(** @ hlb-types/src/manifest.rs:17-21 [ApiVersion] *)
Inductive ApiVersion := V1.
(** @ hlb-types/src/manifest.rs:23-29 [Kind] *)
Inductive Kind := App | PlatformService.
(** The order of the declaration is the derived one: most critical first.
    @ hlb-types/src/manifest.rs:54-69 [Criticality] *)
Inductive Criticality := Vital | Important | Normal.
(** @ hlb-types/src/manifest.rs:328-335 [Runtime] *)
Inductive Runtime := Swarm | Compose.
(** @ hlb-types/src/manifest.rs:500-510 [ExposePolicy] *)
Inductive ExposePolicy := Private | AfterGuide | Public.
(** @ hlb-types/src/manifest.rs:877-887 [UpdateChannel] *)
Inductive UpdateChannel := Pin | Patch | Minor | Latest.
(** @ hlb-types/src/manifest.rs:997-1002 [Protocol] *)
Inductive Protocol := Tcp | Udp.
(** @ hlb-types/src/manifest.rs:246-251 [Period] *)
Inductive Period := Day | Week.

#[export] Instance Kind_eq_dec : EqDecision Kind.
Proof. solve_decision. Defined.
#[export] Instance Criticality_eq_dec : EqDecision Criticality.
Proof. solve_decision. Defined.
#[export] Instance Runtime_eq_dec : EqDecision Runtime.
Proof. solve_decision. Defined.
#[export] Instance ExposePolicy_eq_dec : EqDecision ExposePolicy.
Proof. solve_decision. Defined.
#[export] Instance UpdateChannel_eq_dec : EqDecision UpdateChannel.
Proof. solve_decision. Defined.
#[export] Instance Protocol_eq_dec : EqDecision Protocol.
Proof. solve_decision. Defined.

(** @ hlb-types/src/manifest.rs:31-52 [Metadata] *)
Record Metadata := {
  md_name : string;
  md_hlb : option string;
  md_criticality : option Criticality;
  md_display_name : option string;
  md_category : option string;
  md_homepage : option string }.

(** @ hlb-types/src/manifest.rs:208-224 [Download] *)
Record Download := {
  dl_url : string; dl_sha256 : string; dl_storage : string; dl_into : string;
  dl_unzip : bool }.

(** @ hlb-types/src/manifest.rs:234-244 [Job] *)
Record Job := {
  job_id : string; job_does : string; job_every : Period; job_command : list string }.

(** @ hlb-types/src/manifest.rs:291-315 [SignIn] *)
Record SignIn := {
  si_path : string; si_body : string; si_basic : bool; si_form : bool;
  si_headers : gmap string string; si_pointer : string }.

(** @ hlb-types/src/manifest.rs:263-288 [RecoveryLogin] *)
Record RecoveryLogin := {
  rl_secret : string; rl_username : option string; rl_path : option string;
  rl_proof : option SignIn }.

(** @ hlb-types/src/manifest.rs:318-325 [ConfigFile] *)
Record ConfigFile := { cf_path : string; cf_content : string }.

(** @ hlb-types/src/manifest.rs:356-364 [ImageSigner] *)
Record ImageSigner := { signer_github : string; signer_workflow : string }.

(** @ hlb-types/src/manifest.rs:337-354 [Image] *)
Record Image := {
  img_repo : string; img_tag : string; img_digest : option string;
  img_built_here : bool; img_signed_by : option ImageSigner }.

(** @ hlb-types/src/manifest.rs:469-478 [AuthRoute] *)
Record AuthRoute := { ar_paths : list string; ar_fails_with : option N }.

(** @ hlb-types/src/manifest.rs:485-498 [PathRoute] *)
Record PathRoute := {
  pr_prefix : string; pr_companion : string; pr_port : N; pr_keep_prefix : bool }.

(** @ hlb-types/src/manifest.rs:435-462 [Ingress] *)
Record Ingress := {
  ing_host : string;
  ing_port : N;
  ing_chain : list string;
  ing_expose : ExposePolicy;
  ing_paths : list PathRoute;
  ing_auth_routes : list AuthRoute;
  ing_open_paths : list string }.

(** The number of bytes. @ hlb-types/src/manifest.rs:550-553 [Bytes] *)
Record Bytes := MkBytes { bytes_n : N }.

(** @ hlb-types/src/manifest.rs:541-548 [Memory] *)
Record Memory := { mem_reserve : Bytes; mem_limit : Bytes }.

(** @ hlb-types/src/manifest.rs:818-833 [Healthcheck] *)
Record Healthcheck := {
  hc_test : list string; hc_interval_secs : N; hc_timeout_secs : N; hc_retries : N;
  hc_start_period_secs : N }.

(** @ hlb-types/src/manifest.rs:512-531 [SwarmSpec] *)
Record SwarmSpec := {
  sw_replicas : N;
  sw_healthcheck : option Healthcheck;
  sw_tier : option string;
  sw_node_label : option string;
  sw_memory : option Memory }.

(** @ hlb-types/src/manifest.rs:835-855 [UpdatePolicy] *)
Record UpdatePolicy := {
  up_channel : UpdateChannel;
  up_backup_before : bool;
  up_auto_rollback : bool;
  up_watch_upstream : option string;
  up_window : option string;
  up_maturation_days : N }.

(** @ hlb-types/src/manifest.rs:919-926 [Tmpfs] *)
Record Tmpfs := { tmpfs_path : string; tmpfs_size : option Bytes }.

(** @ hlb-types/src/manifest.rs:989-995 [PublishedPort] *)
Record PublishedPort := { pp_port : N; pp_protocol : Protocol }.

(** @ hlb-types/src/manifest.rs:889-915 [SecuritySpec] *)
Record SecuritySpec := {
  sec_read_only_rootfs : bool;
  sec_no_new_privileges : bool;
  sec_cap_drop : list string;
  sec_cap_add : list string;
  sec_user : option string;
  sec_tmpfs : list Tmpfs;
  sec_published_ports : list PublishedPort }.

(** @ hlb-types/src/manifest.rs:1105-1110 [Ulimit] *)
Record Ulimit := { ul_soft : N; ul_hard : N }.

(** @ hlb-types/src/manifest.rs:1066-1096 [Process] *)
Record Process := {
  proc_init : bool;
  proc_stop_grace_secs : option N;
  proc_stop_signal : option string;
  proc_working_dir : option string;
  proc_hostname : option string;
  proc_ulimits : gmap string Ulimit;
  proc_sysctls : gmap string string;
  proc_groups : list string }.

(** @ hlb-types/src/manifest.rs:800-816 [CompanionVolume] *)
Record CompanionVolume := {
  cv_name : string; cv_path : string; cv_backup : bool; cv_copy : VolumeCopy }.

(** @ hlb-types/src/manifest.rs:648-713 [Companion] *)
Record Companion := {
  co_name : string;
  co_image : Image;
  co_storage : list CompanionVolume;
  co_env : gmap string string;
  co_shared_env : bool;
  co_files : list ConfigFile;
  co_command : list string;
  co_args : list string;
  co_process : Process;
  co_healthcheck : option Healthcheck;
  co_tier : option string;
  co_node_label : option string;
  co_memory : option Memory;
  co_security : SecuritySpec }.

(** @ hlb-types/src/manifest.rs:78-198 [Spec] *)
Record Spec := {
  sp_image : Image;
  sp_runtime : Runtime;
  sp_requires : list Capability;
  sp_ingress : list Ingress;
  sp_swarm : SwarmSpec;
  sp_update : UpdatePolicy;
  sp_companions : list Companion;
  sp_env : gmap string string;
  sp_shared_env : gmap string string;
  sp_security : SecuritySpec;
  sp_files : list ConfigFile;
  sp_command : list string;
  sp_args : list string;
  sp_process : Process;
  sp_assertions : list Assertion;
  sp_access : option Access;
  sp_recovery : list RecoveryLogin;
  sp_jobs : list Job;
  sp_downloads : list Download }.

(** @ hlb-types/src/manifest.rs:8-15 [Manifest] *)
Record Manifest := {
  mf_api_version : ApiVersion; mf_kind : Kind; mf_metadata : Metadata; mf_spec : Spec }.

#[export] Instance Bytes_eq_dec : EqDecision Bytes.
Proof. solve_decision. Defined.
#[export] Instance Memory_eq_dec : EqDecision Memory.
Proof. solve_decision. Defined.
#[export] Instance Healthcheck_eq_dec : EqDecision Healthcheck.
Proof. solve_decision. Defined.
#[export] Instance Tmpfs_eq_dec : EqDecision Tmpfs.
Proof. solve_decision. Defined.
#[export] Instance PublishedPort_eq_dec : EqDecision PublishedPort.
Proof. solve_decision. Defined.
#[export] Instance SecuritySpec_eq_dec : EqDecision SecuritySpec.
Proof. solve_decision. Defined.
#[export] Instance Ulimit_eq_dec : EqDecision Ulimit.
Proof. solve_decision. Defined.
#[export] Instance Process_eq_dec : EqDecision Process.
Proof. solve_decision. Defined.
#[export] Instance ConfigFile_eq_dec : EqDecision ConfigFile.
Proof. solve_decision. Defined.
#[export] Instance ImageSigner_eq_dec : EqDecision ImageSigner.
Proof. solve_decision. Defined.
#[export] Instance Image_eq_dec : EqDecision Image.
Proof. solve_decision. Defined.
#[export] Instance PathRoute_eq_dec : EqDecision PathRoute.
Proof. solve_decision. Defined.
#[export] Instance AuthRoute_eq_dec : EqDecision AuthRoute.
Proof. solve_decision. Defined.
#[export] Instance SignIn_eq_dec : EqDecision SignIn.
Proof. solve_decision. Defined.
#[export] Instance Download_eq_dec : EqDecision Download.
Proof. solve_decision. Defined.

(** ** Constants and defaults *)

(** @ hlb-types/src/manifest.rs:200-202 [DOWNLOADS_ENV] *)
Definition DOWNLOADS_ENV : string := "HLB_DOWNLOADS".
(** @ hlb-types/src/manifest.rs:422-424 [INGRESS_SERVICE] *)
Definition INGRESS_SERVICE : string := "caddy".
(** @ hlb-types/src/manifest.rs:426-428 [INGRESS_NODE_LABEL] *)
Definition INGRESS_NODE_LABEL : string := "hlb.ingress".
(** @ hlb-types/src/manifest.rs:430-433 [CHAIN_LINKS] *)
Definition CHAIN_LINKS : list string := ["caddy-front"; "caddy-back"].
(** @ hlb-types/src/manifest.rs:857-858 [MIN_MATURATION_DAYS] *)
Definition MIN_MATURATION_DAYS : N := 7.
(** @ hlb-types/src/manifest.rs:555-555 [MIB] *)
Definition MIB : N := (1024 * 1024)%N.
(** @ hlb-types/src/manifest.rs:599-602 [TIERS] *)
Definition TIERS : list string := ["light"; "heavy"].

(** @ hlb-types/src/manifest.rs:619-629 [SwarmSpec::default] *)
Definition default_swarm : SwarmSpec :=
  {| sw_replicas := 1; sw_healthcheck := None; sw_tier := None; sw_node_label := None;
     sw_memory := None |}.

(** @ hlb-types/src/manifest.rs:864-875 [UpdatePolicy::default] *)
Definition default_update : UpdatePolicy :=
  {| up_channel := Patch; up_backup_before := true; up_auto_rollback := true;
     up_watch_upstream := None; up_window := None;
     up_maturation_days := MIN_MATURATION_DAYS |}.

(** @ hlb-types/src/manifest.rs:1112-1124 [SecuritySpec::default] *)
Definition default_security : SecuritySpec :=
  {| sec_read_only_rootfs := true; sec_no_new_privileges := true; sec_cap_drop := ["ALL"];
     sec_cap_add := []; sec_user := None; sec_tmpfs := []; sec_published_ports := [] |}.

Definition default_process : Process :=
  {| proc_init := false; proc_stop_grace_secs := None; proc_stop_signal := None;
     proc_working_dir := None; proc_hostname := None; proc_ulimits := ∅;
     proc_sysctls := ∅; proc_groups := [] |}.

(** ** Operations *)

(** @ hlb-types/src/manifest.rs:1098-1102 [Process::is_default] *)
Definition process_is_default (p : Process) : bool := p ==? default_process.

(** @ hlb-types/src/manifest.rs:71-76 [Manifest::criticality] *)
Definition criticality (m : Manifest) : Criticality :=
  default Normal (md_criticality (mf_metadata m)).

(** @ hlb-types/src/manifest.rs:226-231 [Download::file_name] *)
Definition file_name (d : Download) : string :=
  match rsplit_once "/" (dl_url d) with Some (_, name) => name | None => dl_url d end.

(** @ hlb-types/src/manifest.rs:253-260 [Period::seconds] *)
Definition period_seconds (p : Period) : Z :=
  match p with Day => 86400 | Week => 7 * 86400 end.

(** A character is escaped once: the bytes of its encoding after the first are not.
    @ hlb-types/src/manifest.rs:376-384 [ImageSigner::identity_regexp] *)
Fixpoint escaped (s : string) : string :=
  match s with
  | "" => ""
  | String c s =>
      let continuation := ((128 <=? byte_of c) && (byte_of c <=? 191))%N in
      if negb (is_alnum c) && negb (bool_decide (c ∈ ["/"%char; "-"%char; "_"%char]))
         && negb continuation
      then String "\" (String c (escaped s)) else String c (escaped s)
  end.

(** @ hlb-types/src/manifest.rs:366-391 [ImageSigner::identity_regexp] *)
Definition identity_regexp (g : ImageSigner) : string :=
  "^https://github\.com/" +:+ escaped (signer_github g) +:+ "/\.github/workflows/"
  +:+ escaped (signer_workflow g) +:+ "@refs/tags/[^@]+$".

(** @ hlb-types/src/manifest.rs:394-404 [Image::reference] *)
Definition image_reference (i : Image) : string :=
  match img_digest i with
  | Some d => img_repo i +:+ ":" +:+ img_tag i +:+ "@" +:+ d
  | None => img_repo i +:+ ":" +:+ img_tag i
  end.

(** @ hlb-types/src/manifest.rs:406-408 [Image::is_pinned] *)
Definition is_pinned (i : Image) : bool := bool_decide (is_Some (img_digest i)).

(** @ hlb-types/src/manifest.rs:411-414 [data_label] *)
Definition data_label (service : string) : string := "hlb.data." +:+ service.

(** @ hlb-types/src/manifest.rs:416-419 [data_constraint] *)
Definition data_constraint (service : string) : string :=
  "node.labels." +:+ data_label service +:+ "==true".

(** @ hlb-types/src/manifest.rs:557-561 [Bytes::mib] *)
Definition bytes_mib (b : Bytes) : N := (bytes_n b / MIB)%N.

(** The three ways a written size is refused. @ hlb-types/src/manifest.rs:563-585 [Bytes::try_from] *)
Inductive BytesError := NoUnit | NotWhole | SizeOfNothing | TooLarge.

#[export] Instance BytesError_eq_dec : EqDecision BytesError.
Proof. solve_decision. Defined.

(** @ hlb-types/src/manifest.rs:563-587 [Bytes::try_from] *)
Definition bytes_try_from (s : string) : result BytesError Bytes :=
  '(count, unit_) ← match split_last s with
                    | Some (count, "M"%char) => Ok (count, MIB)
                    | Some (count, "G"%char) => Ok (count, (1024 * MIB)%N)
                    | _ => Err NoUnit
                    end;
  n ← ok_or NotWhole (parse_uint u64_max count);
  if decide (n = 0%N) then Err SizeOfNothing
  else ok_or TooLarge (MkBytes <$> checked_mul_u64 n unit_).

(** @ hlb-types/src/manifest.rs:589-597 [String::from] *)
Definition bytes_to_string (b : Bytes) : string :=
  if decide (bytes_n b mod (1024 * MIB) = 0)%N
  then show_N (bytes_n b / (1024 * MIB)) +:+ "G"
  else show_N (bytes_n b / MIB) +:+ "M".

(** @ hlb-types/src/manifest.rs:604-612 [tier_admits] *)
Definition tier_admits (node_tier wanted : string) : bool :=
  (node_tier ==? wanted) || ((wanted ==? "light") && (node_tier ==? "heavy")).

(** @ hlb-types/src/manifest.rs:614-617 [tier_constraint] *)
Definition tier_constraint (wanted : string) : option string :=
  if wanted ==? "light" then None else Some ("node.labels.tier==" +:+ wanted).

(** @ hlb-types/src/manifest.rs:715-719 [Companion::service] *)
Definition companion_service (c : Companion) (app : string) : string := app +:+ "-" +:+ co_name c.

(** @ hlb-types/src/manifest.rs:721-731 [Companion::environment] *)
Definition environment (c : Companion) (spec : Spec) : gmap string string :=
  btree_extend (if co_shared_env c then sp_shared_env spec else ∅) (co_env c).

(** @ hlb-types/src/manifest.rs:734-749 [Spec::substituted] *)
Definition substituted (s : Spec) : list string :=
  btree_values (sp_env s) ++ btree_values (sp_shared_env s)
  ++ (cf_content <$> sp_files s)
  ++ (sp_companions s ≫= λ c, btree_values (co_env c) ++ (cf_content <$> co_files c)).

(** @ hlb-types/src/manifest.rs:755-758 [Spec::service_of_volume] *)
Definition is_own_volume (app volume : string) (c : Capability) : bool :=
  match c with
  | Storage name _ _ _ _ _ None => (app +:+ "-" +:+ name) ==? volume
  | _ => false
  end.

(** @ hlb-types/src/manifest.rs:751-769 [Spec::service_of_volume] *)
Definition service_of_volume (s : Spec) (app volume : string) : option string :=
  if any_of (is_own_volume app volume) (sp_requires s) then Some app
  else find_map (λ c,
         let service := companion_service c app in
         if any_of (λ v, (service +:+ "-" +:+ cv_name v) ==? volume) (co_storage c)
         then Some service else None) (sp_companions s).

(** @ hlb-types/src/manifest.rs:771-796 [Spec::stopped_for_copy] *)
Definition stopped_for_copy (s : Spec) (app : string) : list string :=
  let own := any_of (λ c, match c with
                          | Storage _ _ _ _ _ CopyStopped _ => true
                          | _ => false
                          end) (sp_requires s) in
  (if own then [app] else [])
  ++ ((λ c, companion_service c app) <$>
      keep (λ c, any_of (λ v, cv_copy v ==? CopyStopped) (co_storage c)) (sp_companions s)).

(** @ hlb-types/src/manifest.rs:946-952 [SizedTmpfs] *)
Record SizedTmpfs := { st_path : string; st_size : string }.
(** @ hlb-types/src/manifest.rs:937-944 [TmpfsWritten] *)
Inductive TmpfsWritten := TmpfsPath (path : string) | TmpfsSized (t : SizedTmpfs).

(** @ hlb-types/src/manifest.rs:928-935 [Tmpfs::from] *)
Definition tmpfs_from (path : string) : Tmpfs := {| tmpfs_path := path; tmpfs_size := None |}.

(** @ hlb-types/src/manifest.rs:954-965 [Tmpfs::try_from] *)
Definition tmpfs_try_from (w : TmpfsWritten) : result BytesError Tmpfs :=
  match w with
  | TmpfsPath path => Ok {| tmpfs_path := path; tmpfs_size := None |}
  | TmpfsSized t =>
      size ← bytes_try_from (st_size t);
      Ok {| tmpfs_path := st_path t; tmpfs_size := Some size |}
  end.

(** @ hlb-types/src/manifest.rs:967-977 [TmpfsWritten::from] *)
Definition tmpfs_written (t : Tmpfs) : TmpfsWritten :=
  match tmpfs_size t with
  | None => TmpfsPath (tmpfs_path t)
  | Some size => TmpfsSized {| st_path := tmpfs_path t; st_size := bytes_to_string size |}
  end.

(** @ hlb-types/src/manifest.rs:979-986 [Tmpfs::fmt] *)
Definition tmpfs_display (t : Tmpfs) : string :=
  match tmpfs_size t with
  | None => tmpfs_path t
  | Some size => tmpfs_path t +:+ " (" +:+ bytes_to_string size +:+ ")"
  end.

(** @ hlb-types/src/manifest.rs:1004-1011 [PublishedPort::tcp] *)
Definition port_tcp (port : N) : PublishedPort := {| pp_port := port; pp_protocol := Tcp |}.

(** @ hlb-types/src/manifest.rs:1013-1020 [PublishedPort::fmt] *)
Definition port_display (p : PublishedPort) : string :=
  match pp_protocol p with
  | Tcp => show_N (pp_port p)
  | Udp => show_N (pp_port p) +:+ "/udp"
  end.

(** @ hlb-types/src/manifest.rs:1022-1029 [PortWritten] *)
Inductive PortWritten := PortNumber (n : N) | PortText (t : string).

(** The two ways a written port is refused.
    @ hlb-types/src/manifest.rs:1039-1046 [PublishedPort::try_from] *)
Inductive PortError := NotAPort (text : string) | UnknownProtocol (text other : string).

(** @ hlb-types/src/manifest.rs:1031-1049 [PublishedPort::try_from] *)
Definition port_try_from (w : PortWritten) : result PortError PublishedPort :=
  match w with
  | PortNumber port => Ok (port_tcp port)
  | PortText text =>
      let '(port, protocol) := default (text, "tcp") (split_once "/" text) in
      port ← ok_or (NotAPort text) (parse_uint u16_max port);
      if protocol ==? "tcp" then Ok {| pp_port := port; pp_protocol := Tcp |}
      else if protocol ==? "udp" then Ok {| pp_port := port; pp_protocol := Udp |}
      else Err (UnknownProtocol text protocol)
  end.

(** @ hlb-types/src/manifest.rs:1051-1058 [PortWritten::from] *)
Definition port_written (p : PublishedPort) : PortWritten :=
  match pp_protocol p with
  | Tcp => PortNumber (pp_port p)
  | Udp => PortText (port_display p)
  end.

(** ** What the manifest opens ([grants.rs]) *)

(** @ hlb-types/src/grants.rs:85-91 [security] *)
Definition port_grant (p : PublishedPort) : string :=
  match pp_protocol p with
  | Tcp => show_N (pp_port p) +:+ "/tcp"
  | Udp => show_N (pp_port p) +:+ "/udp"
  end.

(** @ hlb-types/src/grants.rs:73-114 [security] *)
Definition security_grants (who : string) (s : SecuritySpec) : list string :=
  (if sec_published_ports s is [] then []
   else [who +:+ ": ports " +:+ join ", " (port_grant <$> sec_published_ports s)
         +:+ " published on its node, past the proxy"])
  ++ (if any_of (λ c, to_ascii_lowercase c ==? "all") (sec_cap_drop s) then []
      else [who +:+ ": keeps the Linux capabilities its image has"])
  ++ (if sec_cap_add s is [] then []
      else [who +:+ ": Linux capabilities given back: " +:+ join ", " (sec_cap_add s)])
  ++ (if sec_no_new_privileges s then []
      else [who +:+ ": may gain privileges through a setuid program"])
  ++ (if sec_read_only_rootfs s then []
      else [who +:+ ": writes anywhere in its own filesystem"]).

(** @ hlb-types/src/grants.rs:19-37 [Manifest::grants] *)
Definition ingress_grants (domain : option string) (i : Ingress) : list string :=
  let host := match domain with
              | Some d => replace "{{domain}}" d (replace "{{ domain }}" d (ing_host i))
              | None => ing_host i
              end in
  match ing_expose i with
  | Public => ["reachable from the internet at " +:+ host]
  | AfterGuide => ["reachable from the internet at " +:+ host +:+ " once its guide is done"]
  | Private => []
  end
  ++ (if ing_open_paths i is [] then []
      else [join ", " (ing_open_paths i) +:+ " on " +:+ host
            +:+ " reached by anyone: no portal, no private range"]).

(** @ hlb-types/src/grants.rs:46-63 [Manifest::grants] *)
Definition capability_grants (c : Capability) : list string :=
  match c with
  | Smtp SenderPerson =>
      ["signs in to the mail server with each person's own mailbox password"]
  | _ => []
  end.

(** @ hlb-types/src/grants.rs:14-71 [Manifest::grants] *)
Definition grants (m : Manifest) (domain : option string) : list string :=
  let spec := mf_spec m in
  let name := md_name (mf_metadata m) in
  (sp_ingress spec ≫= ingress_grants domain)
  ++ match sp_runtime spec with
     | Compose =>
         ["runs outside the Swarm, under docker compose on a host of its own driven over SSH"]
     | Swarm => []
     end
  ++ (sp_requires spec ≫= capability_grants)
  ++ security_grants name (sp_security spec)
  ++ (sp_companions spec ≫= λ c,
        security_grants (name +:+ "'s " +:+ co_name c) (co_security c)).

(** ** Properties *)

Lemma bytes_unit_cases s b :
  bytes_try_from s = Ok b →
  ∃ count n unit_, s = count +:+ (if decide (unit_ = MIB) then "M" else "G") ∧
    (unit_ = MIB ∨ unit_ = (1024 * MIB)%N) ∧ parse_uint u64_max count = Some n ∧
    n ≠ 0%N ∧ bytes_n b = (n * unit_)%N ∧ (n * unit_ ≤ u64_max)%N.
Proof.
  unfold bytes_try_from. rewrite result_bind_Ok. intros ([count u] & Hu & H).
  rewrite result_bind_Ok in H. destruct H as (n & Hn%ok_or_Ok & H).
  case_decide; [done|]. apply ok_or_Ok in H. unfold checked_mul_u64 in H.
  case_decide as Hle; [|done]. cbn in H. injection H as <-.
  destruct (split_last s) as [[c k]|] eqn:E; [|done]. apply split_last_Some in E as ->.
  exists count, n, u.
  assert (Hk : (k = "M"%char ∧ count = c ∧ u = MIB)
               ∨ (k = "G"%char ∧ count = c ∧ u = (1024 * MIB)%N)).
  { destruct k as [[] [] [] [] [] [] [] []]; simplify_eq/=; auto. }
  destruct Hk as [(-> & -> & ->)|(-> & -> & ->)]; eauto 10.
Qed.

Lemma bytes_try_from_show n (g : bool) :
  (n ≤ u64_max)%N → n ≠ 0%N →
  bytes_try_from (show_N n +:+ (if g then "G" else "M")) =
  ok_or TooLarge (MkBytes <$> checked_mul_u64 n (if g then 1024 * MIB else MIB)%N).
Proof.
  intros Hle Hn. unfold bytes_try_from.
  destruct g; rewrite split_last_append; cbn -[checked_mul_u64 parse_uint MIB];
    rewrite parse_uint_show by done; cbn -[checked_mul_u64 MIB]; by rewrite decide_False.
Qed.

(** What is written of a size is read back as it, given a whole number of mebibytes. *)
Lemma bytes_roundtrip b :
  (bytes_n b ≠ 0)%N → (bytes_n b ≤ u64_max)%N → (MIB | bytes_n b)%N →
  bytes_try_from (bytes_to_string b) = Ok b.
Proof.
  destruct b as [n]. cbn. intros H0 Hle [k ->]. unfold bytes_to_string. cbn [bytes_n].
  assert (HM : MIB = 1048576%N) by reflexivity. unfold u64_max in *.
  case_decide as Hg.
  - apply N.Div0.mod_divides in Hg as [j Hj].
    rewrite (bytes_try_from_show _ true);
      replace (k * MIB / (1024 * MIB))%N with j by (rewrite Hj, N.mul_comm, N.div_mul; lia);
      [|unfold u64_max; lia|lia].
    unfold checked_mul_u64. rewrite decide_True by (unfold u64_max; lia). cbn. do 2 f_equal. lia.
  - rewrite N.div_mul by (rewrite HM; lia).
    rewrite (bytes_try_from_show _ false) by (unfold u64_max; lia).
    unfold checked_mul_u64. rewrite decide_True by (unfold u64_max; lia). done.
Qed.

(** A size read from a manifest is never zero, never past a [u64], always a whole
    number of mebibytes - a product that would wrap is refused - and the text it is
    written back as is read as the same size. *)
Theorem bytes_try_from_spec s b :
  bytes_try_from s = Ok b →
  (0 < bytes_n b ≤ u64_max)%N ∧ (MIB | bytes_n b)%N ∧
  bytes_try_from (bytes_to_string b) = Ok b.
Proof.
  intros (count & n & u & -> & Hu & Hp & H0 & Hb & Hle)%bytes_unit_cases.
  assert (HM : MIB = 1048576%N) by reflexivity.
  assert (Hdiv : (MIB | bytes_n b)%N).
  { rewrite Hb. destruct Hu as [->| ->]; [by exists n|exists (n * 1024)%N; lia]. }
  assert (bytes_n b ≠ 0%N) by (destruct Hu; subst; lia).
  split; [lia|]. split; [done|]. apply bytes_roundtrip; [done|lia|done].
Qed.

Lemma bytes_try_from_spec_witness :
  bytes_try_from (bytes_to_string (MkBytes 2147483648)) = Ok (MkBytes 2147483648)
  ∧ bytes_try_from "17592186044417M" = Err TooLarge.
Proof.
  split; [|by vm_compute].
  refine (proj2 (proj2 (bytes_try_from_spec "2048M" (MkBytes 2147483648) _))).
  by vm_compute.
Defined.

(** A published port written back to a manifest is read as the same port and protocol,
    and no text is read as a port past 65535. *)
Theorem port_roundtrip p t q :
  ((pp_port p ≤ u16_max)%N → port_try_from (port_written p) = Ok p) ∧
  (port_try_from (PortText t) = Ok q → (pp_port q ≤ u16_max)%N).
Proof.
  split.
  - intros Hp. destruct p as [n []]; cbn in *; [done|].
    change (show_N n +:+ "/udp") with (show_N n +:+ String "/" "udp").
    rewrite split_once_append by (by apply show_N_no_char). cbn -[parse_uint].
    by rewrite parse_uint_show.
  - cbn -[parse_uint]. destruct (default _ _) as [port protocol].
    rewrite result_bind_Ok. intros (n & Hn%ok_or_Ok & H). apply parse_uint_bound in Hn.
    split_guards; done.
Qed.

Lemma port_roundtrip_witness :
  port_try_from (port_written {| pp_port := 7882; pp_protocol := Udp |})
    = Ok {| pp_port := 7882; pp_protocol := Udp |}
  ∧ (pp_port {| pp_port := 25; pp_protocol := Tcp |} ≤ u16_max)%N.
Proof.
  split.
  - apply (proj1 (port_roundtrip {| pp_port := 7882; pp_protocol := Udp |} "" (port_tcp 0))).
    by vm_compute.
  - apply (proj2 (port_roundtrip (port_tcp 0) "25" {| pp_port := 25; pp_protocol := Tcp |})).
    by vm_compute.
Defined.

(** Port 0 is read as a port, though the refusal says "a number from 1 to 65535". *)
Lemma port_zero_read : port_try_from (PortText "0/udp") = Ok {| pp_port := 0; pp_protocol := Udp |}.
Proof. by vm_compute. Qed.

Lemma tmpfs_roundtrip t :
  match tmpfs_size t with
  | Some b => (bytes_n b ≠ 0)%N ∧ (bytes_n b ≤ u64_max)%N ∧ (MIB | bytes_n b)%N
  | None => True
  end → tmpfs_try_from (tmpfs_written t) = Ok t.
Proof.
  destruct t as [p [b|]]; cbn -[bytes_try_from bytes_to_string]; [|done]. intros (? & ? & ?). by rewrite bytes_roundtrip.
Qed.

(** The check made before an install and the constraint Swarm places by agree: a node
    of a tier admits a service exactly when the service's placement constraint, if it has
    one, is met by the node's label. *)
Theorem tier_admits_constraint node wanted :
  node ∈ TIERS → wanted ∈ TIERS →
  tier_admits node wanted = true ↔
  match tier_constraint wanted with
  | None => True
  | Some c => c = "node.labels.tier==" +:+ node
  end.
Proof. unfold TIERS. intros Hn Hw. set_unfold in Hn. set_unfold in Hw.
  destruct Hn as [->|[->|[]]], Hw as [->|[->|[]]]; vm_compute; naive_solver. Qed.

Lemma tier_admits_constraint_witness : tier_admits "light" "heavy" = true ↔ False.
Proof.
  rewrite (tier_admits_constraint "light" "heavy"); [|vm_compute; set_solver..].
  vm_compute. naive_solver.
Defined.

(** What the defaults keep shut, in a security section. *)
Definition security_shut (s : SecuritySpec) : Prop :=
  sec_published_ports s = [] ∧ (∃ c, c ∈ sec_cap_drop s ∧ to_ascii_lowercase c = "all") ∧
  sec_cap_add s = [] ∧ sec_no_new_privileges s = true ∧ sec_read_only_rootfs s = true.

Lemma security_grants_nil who s : security_grants who s = [] ↔ security_shut s.
Proof.
  unfold security_grants, security_shut. rewrite !app_nil.
  assert (Hcap : any_of (λ c, to_ascii_lowercase c ==? "all") (sec_cap_drop s) = true ↔
                 ∃ c, c ∈ sec_cap_drop s ∧ to_ascii_lowercase c = "all").
  { rewrite any_of_true. by setoid_rewrite bool_decide_eq_true. }
  rewrite <- Hcap. destruct (sec_published_ports s), (sec_cap_add s),
    (sec_no_new_privileges s), (sec_read_only_rootfs s), (any_of _ _); naive_solver.
Qed.

Lemma mbind_nil_iff {A B} (f : A → list B) l : l ≫= f = [] ↔ ∀ x, x ∈ l → f x = [].
Proof.
  induction l as [|x l IH]; cbn; [set_solver|].
  rewrite app_nil, IH. set_solver.
Qed.

Lemma ingress_grants_nil d i :
  ingress_grants d i = [] ↔ ing_expose i = Private ∧ ing_open_paths i = [].
Proof. unfold ingress_grants. rewrite app_nil. destruct (ing_expose i), (ing_open_paths i); naive_solver. Qed.

(** The preview is silent exactly when the manifest opens nothing: every route private
    and without open paths, on the Swarm, no mail sent as a person, and the defaults'
    isolation kept by the app and by each of its companions. *)
Theorem grants_nil m d :
  let spec := mf_spec m in
  grants m d = [] ↔
  (∀ i, i ∈ sp_ingress spec → ing_expose i = Private ∧ ing_open_paths i = []) ∧
  sp_runtime spec = Swarm ∧
  (Smtp SenderPerson ∉ sp_requires spec) ∧
  security_shut (sp_security spec) ∧
  (∀ c, c ∈ sp_companions spec → security_shut (co_security c)).
Proof.
  cbn zeta. unfold grants. cbn zeta. rewrite !app_nil, !mbind_nil_iff, security_grants_nil.
  setoid_rewrite ingress_grants_nil. setoid_rewrite security_grants_nil.
  assert (Hs : (∀ x, x ∈ sp_requires (mf_spec m) → capability_grants x = []) ↔
               Smtp SenderPerson ∉ sp_requires (mf_spec m)).
  { split.
    - intros H Hin. by specialize (H _ Hin).
    - intros H c Hc. destruct c as [| | | |[]| |]; done. }
  rewrite Hs. destruct (sp_runtime (mf_spec m)); naive_solver.
Qed.

(** The service that writes a volume is the app, for a volume it declares as its own,
    or the companion that declares it: a backup stops the writer, never a bystander. A
    volume mounted from another app is nobody's here unless one of these declares it. *)
Theorem service_of_volume_spec s app volume svc :
  service_of_volume s app volume = Some svc →
  (svc = app ∧ ∃ c, c ∈ sp_requires s ∧ is_own_volume app volume c = true) ∨
  (∃ c v, c ∈ sp_companions s ∧ v ∈ co_storage c ∧ svc = companion_service c app ∧
          volume = svc +:+ "-" +:+ cv_name v).
Proof.
  unfold service_of_volume. case_match eqn:Ho.
  - intros [= <-]. left. apply any_of_true in Ho as (c & Hc & H). eauto.
  - intros H. right. clear Ho. induction (sp_companions s) as [|c l IH]; [done|].
    cbn in H. case_match eqn:Hv.
    + injection H as <-. case_match eqn:Hany; simplify_eq.
      apply any_of_true in Hany as (v & Hin & Heq%bool_decide_eq_true).
      exists c, v. split; [by left|]. done.
    + destruct (IH H) as (c' & v & ? & ?). exists c', v. split; [by right|]. done.
Qed.

Definition example_image : Image :=
  {| img_repo := "ghcr.io/immich-app/immich-server"; img_tag := "v2.1.0"; img_digest := None;
     img_built_here := false; img_signed_by := None |}.

Definition example_companion : Companion :=
  {| co_name := "ml"; co_image := example_image;
     co_storage := [{| cv_name := "cache"; cv_path := "/cache"; cv_backup := false;
                       cv_copy := CopyLive |}];
     co_env := ∅; co_shared_env := false; co_files := []; co_command := []; co_args := [];
     co_process := default_process; co_healthcheck := None; co_tier := None;
     co_node_label := None; co_memory := None; co_security := default_security |}.

Definition example_spec : Spec :=
  {| sp_image := example_image; sp_runtime := Swarm;
     sp_requires := [Storage "data" "/data" TierLocal true false CopyLive None];
     sp_ingress := []; sp_swarm := default_swarm; sp_update := default_update;
     sp_companions := [example_companion]; sp_env := ∅; sp_shared_env := ∅;
     sp_security := default_security; sp_files := []; sp_command := []; sp_args := [];
     sp_process := default_process; sp_assertions := []; sp_access := None;
     sp_recovery := []; sp_jobs := []; sp_downloads := [] |}.

Lemma service_of_volume_spec_witness :
  service_of_volume example_spec "immich" "immich-ml-cache" = Some "immich-ml" ∧
  (("immich-ml" = "immich" ∧ ∃ c, c ∈ sp_requires example_spec ∧
      is_own_volume "immich" "immich-ml-cache" c = true) ∨
   (∃ c v, c ∈ sp_companions example_spec ∧ v ∈ co_storage c ∧
      "immich-ml" = companion_service c "immich" ∧
      "immich-ml-cache" = "immich-ml" +:+ "-" +:+ cv_name v)).
Proof.
  split; [by vm_compute|].
  apply (service_of_volume_spec example_spec "immich" "immich-ml-cache" "immich-ml").
  by vm_compute.
Defined.
