(* ===== verification/Graph.v ===== *)
(** * Dependency graph and deployment order

    [crates/hlb-resolver/src/graph.rs]: the edges read from the manifests, the check that
    every dependency is in the catalog, Kahn's topological sort and its reverse. The
    [while let Some(n) = ready.pop_front()] loop is the iteration of [kahn_step]; it takes
    one step per service, so one more than there are services is fuel enough
    ([kahn_enough]). *)

From S2P Require Import Prelude RustStr Capability Manifest.
From stdpp Require Import relations.

(** @ hlb-resolver/src/graph.rs:14-21 [GraphError] *)
Inductive GraphError :=
| Cycle (stuck : list string)
| MissingDependency (dependent missing : string).

(** [DependencyGraph]: the services each one depends on. *)
Abbreviation Deps := (gmap string (gset string)).

(** Another app's volume needs that app deployed first.
    @ hlb-resolver/src/graph.rs:42-51 [DependencyGraph::from_manifests] *)
Definition owner_edge (c : Capability) : option string :=
  match c with Storage _ _ _ _ _ _ owner => owner | _ => None end.

(** A platform service does not depend on itself.
    @ hlb-resolver/src/graph.rs:53-61 [DependencyGraph::from_manifests] *)
Definition service_edge (name : string) (c : Capability) : option string :=
  svc ← platform_service c; if decide (svc ≠ name) then Some svc else None.

(** A loop inserting what [edge] gives of each capability. *)
Definition insert_edges (edge : Capability → option string) (l : list Capability)
    (entry : gset string) : gset string :=
  fold_left (λ entry c, match edge c with Some y => {[y]} ∪ entry | None => entry end) l entry.

(** @ hlb-resolver/src/graph.rs:39-61 [DependencyGraph::from_manifests] *)
Definition manifest_edges (m : Manifest) (entry : gset string) : gset string :=
  let requires := sp_requires (mf_spec m) in
  insert_edges (service_edge (md_name (mf_metadata m))) requires
    (insert_edges owner_edge requires entry).

(** @ hlb-resolver/src/graph.rs:31-65 [DependencyGraph::from_manifests] *)
Definition from_manifests (manifests : list Manifest) : Deps :=
  fold_left (λ deps m,
    let name := md_name (mf_metadata m) in
    <[name := manifest_edges m (default ∅ (deps !! name))]> deps) manifests ∅.

(** @ hlb-resolver/src/graph.rs:67-69 [DependencyGraph::dependencies_of] *)
Definition dependencies_of (g : Deps) (name : string) : option (gset string) := g !! name.

(** @ hlb-resolver/src/graph.rs:76-85 [DependencyGraph::check_complete] *)
Definition first_missing (g : Deps) : option (string * string) :=
  find_map (λ '(name, deps),
    (λ d, (name, d)) <$> find_first (λ d, bool_decide (g !! d = None)) (btree_elems deps))
    (btree_entries g).

(** @ hlb-resolver/src/graph.rs:71-87 [DependencyGraph::check_complete] *)
Definition check_complete (g : Deps) : result GraphError unit :=
  match first_missing g with
  | Some (name, d) => Err (MissingDependency name d)
  | None => Ok tt
  end.

(** The state of Kahn's loop. @ hlb-resolver/src/graph.rs:96-109 [DependencyGraph::deployment_order] *)
Record Kahn := {
  k_indegree : gmap string N;
  k_ready : list string;
  k_order : list string }.

(** [*d -= 1] on a [usize]. @ hlb-resolver/src/graph.rs:119-119 [DependencyGraph::deployment_order] *)
Definition usize_pred (d : N) : N := if decide (d = 0%N) then u64_max else (d - 1)%N.

(** What [n] deployed does to one service: its count, and whether it is newly ready.
    @ hlb-resolver/src/graph.rs:116-125 [DependencyGraph::deployment_order] *)
Definition relax (n : string) (acc : gmap string N * list string)
    (entry : string * gset string) : gmap string N * list string :=
  let '(indegree, newly) := acc in
  let '(name, deps) := entry in
  if bool_decide (n ∈ deps) then
    match indegree !! name with
    | Some d =>
        let d := usize_pred d in
        (<[name := d]> indegree, if decide (d = 0%N) then newly ++ [name] else newly)
    | None => (indegree, newly)
    end
  else (indegree, newly).

(** One turn of the loop; [None] once nothing is ready.
    @ hlb-resolver/src/graph.rs:111-128 [DependencyGraph::deployment_order] *)
Definition kahn_step (g : Deps) (k : Kahn) : option Kahn :=
  match k_ready k with
  | [] => None
  | n :: ready =>
      let '(indegree, newly) := fold_left (relax n) (btree_entries g) (k_indegree k, []) in
      Some {| k_indegree := indegree;
              k_ready := ready ++ merge_sort String.le newly;
              k_order := k_order k ++ [n] |}
  end.

(** @ hlb-resolver/src/graph.rs:97-109 [DependencyGraph::deployment_order] *)
Definition kahn_init (g : Deps) : Kahn :=
  let indegree := (λ deps : gset string, N.of_nat (size deps)) <$> g in
  {| k_indegree := indegree;
     k_ready := (keep (λ '(_, d), d ==? 0%N) (btree_entries indegree)).*1;
     k_order := [] |}.

Fixpoint kahn_run (fuel : nat) (g : Deps) (k : Kahn) : Kahn :=
  match fuel with
  | O => k
  | S fuel => match kahn_step g k with Some k' => kahn_run fuel g k' | None => k end
  end.

(** @ hlb-resolver/src/graph.rs:89-141 [DependencyGraph::deployment_order] *)
Definition deployment_order (g : Deps) : result GraphError (list string) :=
  _ ← check_complete g;
  let order := k_order (kahn_run (S (size g)) g (kahn_init g)) in
  if decide (length order = size g) then Ok order
  else Err (Cycle (keep (λ k, negb (bool_decide (k ∈ order))) (btree_keys g))).

(** @ hlb-resolver/src/graph.rs:143-148 [DependencyGraph::shutdown_order] *)
Definition shutdown_order (g : Deps) : result GraphError (list string) :=
  o ← deployment_order g; Ok (reverse o).

(** ** The specification *)

(** [x] depends directly on [y]. *)
Definition depends (g : Deps) (x y : string) : Prop := ∃ deps, g !! x = Some deps ∧ y ∈ deps.

(** Every dependency is in the catalog. *)
Definition complete (g : Deps) : Prop := ∀ x y, depends g x y → is_Some (g !! y).

Definition acyclic (g : Deps) : Prop := ∀ x, ¬ tc (depends g) x x.

(** A list where each service stands after all it depends on. *)
Definition topological (g : Deps) (order : list string) : Prop :=
  ∀ l1 x l2, order = l1 ++ x :: l2 → ∀ y, depends g x y → y ∈ l1.

(** ** The edges *)

(** [m] declares that it needs [y] deployed first: [y] owns a volume it mounts, or is the
    platform service of one of its capabilities. *)
Definition requires_edge (m : Manifest) (y : string) : Prop :=
  ∃ c, c ∈ sp_requires (mf_spec m) ∧
    ((∃ name path tier backup sqlite copy, c = Storage name path tier backup sqlite copy (Some y))
     ∨ (platform_service c = Some y ∧ y ≠ md_name (mf_metadata m))).

Lemma elem_of_insert_edges edge l entry y :
  y ∈ insert_edges edge l entry ↔ y ∈ entry ∨ ∃ c, c ∈ l ∧ edge c = Some y.
Proof.
  unfold insert_edges. revert entry. induction l as [|c l IH]; intros entry; cbn; [set_solver|].
  rewrite IH. destruct (edge c) eqn:E; set_solver.
Qed.

Lemma elem_of_manifest_edges m entry y :
  y ∈ manifest_edges m entry ↔ y ∈ entry ∨ requires_edge m y.
Proof.
  unfold manifest_edges, requires_edge. rewrite !elem_of_insert_edges.
  assert (Ho : ∀ c, owner_edge c = Some y ↔
    ∃ name path tier backup sqlite copy, c = Storage name path tier backup sqlite copy (Some y)).
  { intros c. split; [destruct c; cbn; intros; simplify_eq; by repeat eexists|].
    by intros (? & ? & ? & ? & ? & ? & ->). }
  assert (Hs : ∀ c, service_edge (md_name (mf_metadata m)) c = Some y ↔
    platform_service c = Some y ∧ y ≠ md_name (mf_metadata m)).
  { intros c. unfold service_edge. destruct (platform_service c) as [s|]; simpl; [|naive_solver].
    destruct (decide (s ≠ md_name (mf_metadata m))); naive_solver. }
  setoid_rewrite Ho. setoid_rewrite Hs. naive_solver.
Qed.

Lemma depends_from_manifests ms g x y :
  depends (fold_left (λ deps m, let name := md_name (mf_metadata m) in
             <[name := manifest_edges m (default ∅ (deps !! name))]> deps) ms g) x y ↔
  depends g x y ∨ ∃ m, m ∈ ms ∧ md_name (mf_metadata m) = x ∧ requires_edge m y.
Proof.
  revert g. induction ms as [|m ms IH]; intros g; cbn; [set_solver|].
  rewrite IH. clear IH. unfold depends at 1. cbn zeta.
  destruct (decide (md_name (mf_metadata m) = x)) as [<-|Hne].
  - setoid_rewrite lookup_insert_eq. setoid_rewrite elem_of_cons. split.
    + intros [(deps & [= <-] & Hy)|(m' & ? & ?)]; [|naive_solver].
      apply elem_of_manifest_edges in Hy as [Hy|]; [|naive_solver].
      destruct (g !! _) eqn:E; cbn in Hy; [|set_solver]. left. by eexists.
    + intros [(deps & E & Hy)|(m' & [->|?] & ? & ?)].
      * left. eexists. split; [done|]. apply elem_of_manifest_edges. left. by rewrite E.
      * left. eexists. split; [done|]. apply elem_of_manifest_edges. by right.
      * right. eauto.
  - setoid_rewrite (lookup_insert_ne g _ x _ Hne). setoid_rewrite elem_of_cons.
    unfold depends. naive_solver.
Qed.

(** ** Kahn's loop *)

(** The services that depend on [n]. *)
Definition hits (n : string) (entries : list (string * gset string)) : list string :=
  (keep (λ e, bool_decide (n ∈ e.2)) entries).*1.

Lemma hits_sublist n entries : hits n entries `sublist_of` entries.*1.
Proof.
  unfold hits, keep. induction entries as [|e l IH]; [done|].
  rewrite filter_cons, fmap_cons. case_decide; rewrite ?fmap_cons; by constructor.
Qed.

Lemma elem_of_hits n g k : k ∈ hits n (btree_entries g) ↔ depends g k n.
Proof.
  unfold hits, depends. rewrite list_elem_of_fmap. split.
  - intros ([k' deps] & -> & [Hn%bool_decide_eq_true H%elem_of_btree_entries]%elem_of_keep). eauto.
  - intros (deps & H & Hn). exists (k, deps). split; [done|].
    rewrite elem_of_keep, elem_of_btree_entries. by rewrite bool_decide_eq_true.
Qed.

Lemma relax_fold n entries indegree newly indegree' newly' :
  NoDup entries.*1 →
  fold_left (relax n) entries (indegree, newly) = (indegree', newly') →
  (∀ k, indegree' !! k =
        if decide (k ∈ hits n entries) then usize_pred <$> indegree !! k else indegree !! k) ∧
  newly' = newly ++ filter (λ k, indegree' !! k = Some 0%N) (hits n entries).
Proof.
  revert indegree newly. induction entries as [|[name deps] l IH]; intros indegree newly Hnd.
  { cbn. intros [= -> ->]. split; [|by rewrite app_nil_r]. done. }
  cbn in Hnd. apply NoDup_cons in Hnd as [Hname Hnd].
  assert (Hfresh : name ∉ hits n l)
    by (intros H; apply Hname; eapply elem_of_sublist; [done|apply hits_sublist]).
  unfold hits, keep in *. cbn [fold_left]. unfold relax at 2.
  rewrite filter_cons. cbn [snd]. case_bool_decide as Hn.
  2:{ rewrite decide_False by done. apply IH; done. }
  rewrite decide_True by done. rewrite fmap_cons. cbn [fst].
  set (rest := (filter _ l).*1) in *.
  destruct (indegree !! name) as [d|] eqn:E; intros H.
  - apply IH in H as [Hk ->]; [|done]. split.
    + intros k. rewrite Hk. destruct (decide (k = name)) as [->|Hne].
      * rewrite decide_False by done. rewrite decide_True by set_solver.
        by rewrite lookup_insert_eq, E.
      * rewrite lookup_insert_ne by done.
        destruct (decide (k ∈ rest)); [rewrite decide_True by set_solver|rewrite decide_False by set_solver]; done.
    + assert (Hd : indegree' !! name = Some (usize_pred d))
        by (rewrite Hk, decide_False by done; apply lookup_insert_eq).
      rewrite filter_cons. destruct (decide (usize_pred d = 0%N)) as [H0|H0].
      * rewrite decide_True by congruence. by rewrite <- app_assoc.
      * by rewrite decide_False by congruence.
  - apply IH in H as [Hk ->]; [|done]. split.
    + intros k. rewrite Hk. destruct (decide (k = name)) as [->|Hne].
      * rewrite decide_False by done. rewrite decide_True by set_solver. by rewrite E.
      * destruct (decide (k ∈ rest)); [rewrite decide_True by set_solver|rewrite decide_False by set_solver]; done.
    + assert (Hd : indegree' !! name = None) by (by rewrite Hk, decide_False).
      rewrite filter_cons. by rewrite decide_False by congruence.
Qed.

(** What is left to deploy before [deps] is satisfied, once [order] is deployed. *)
Definition left_of (order : list string) (deps : gset string) : gset string :=
  deps ∖ list_to_set order.

Lemma left_of_empty order deps : size (left_of order deps) = 0%nat ↔ ∀ y, y ∈ deps → y ∈ order.
Proof. 
  unfold left_of. rewrite size_empty_iff. split; [|set_solver].
  intros H y Hy. destruct (decide (y ∈ order)); [done|]. set_solver.
Qed.

Lemma left_of_snoc_hit order n deps :
  n ∈ deps → n ∉ order → size (left_of order deps) = S (size (left_of (order ++ [n]) deps)).
Proof.
  intros Hin Hn. unfold left_of.
  assert (deps ∖ list_to_set order = {[n]} ∪ deps ∖ list_to_set (order ++ [n])) as ->.
  { apply set_eq. intros x. destruct (decide (x = n)) as [->|]; set_solver. }
  rewrite size_union, size_singleton; [done|set_solver].
Qed.

Lemma left_of_snoc_miss order n deps :
  n ∉ deps → left_of (order ++ [n]) deps = left_of order deps.
Proof. intros Hin. unfold left_of. apply set_eq. set_solver. Qed.

(** The invariant of the loop: nothing is queued twice, what is deployed or ready is what
    has all its dependencies deployed, and each count is of the dependencies left. *)
Record kahn_inv (g : Deps) (k : Kahn) : Prop := {
  inv_nodup : NoDup (k_order k ++ k_ready k);
  inv_ready : ∀ x, x ∈ k_order k ++ k_ready k ↔
                   ∃ deps, g !! x = Some deps ∧ ∀ y, y ∈ deps → y ∈ k_order k;
  inv_indegree : ∀ x, k_indegree k !! x =
                      (λ deps, N.of_nat (size (left_of (k_order k) deps))) <$> g !! x;
  inv_topological : topological g (k_order k) }.

Lemma topological_snoc g order n :
  topological g order → (∀ y, depends g n y → y ∈ order) → topological g (order ++ [n]).
Proof.
  intros Ht Hn l1 x l2. destruct l2 as [|z l2 _] using rev_ind.
  - intros [-> [= ->]]%app_inj_tail. done.
  - rewrite app_comm_cons, app_assoc. intros [-> [= ->]]%app_inj_tail. by eapply Ht.
Qed.

Lemma NoDup_keep_fst {A B} (p : A * B → bool) (l : list (A * B)) :
  NoDup l.*1 → NoDup (keep p l).*1.
Proof.
  unfold keep. induction l as [|[a b] l IH]; [done|]. rewrite fmap_cons.
  intros [Ha Hl]%NoDup_cons. rewrite filter_cons. case_decide; [|auto]. rewrite fmap_cons.
  apply NoDup_cons. split; [|auto]. intros Hin. apply Ha.
  apply list_elem_of_fmap in Hin as (e & -> & [_ He]%list_elem_of_filter).
  by apply list_elem_of_fmap_2.
Qed.

Lemma kahn_init_inv g : kahn_inv g (kahn_init g).
Proof.
  split; cbn.
  - apply NoDup_keep_fst. rewrite btree_entries_keys. apply NoDup_btree_keys.
  - intros x. rewrite list_elem_of_fmap. split.
    + intros ([x' d] & -> & [->%bool_decide_eq_true H%elem_of_btree_entries]%elem_of_keep). cbn.
      rewrite lookup_fmap in H. destruct (g !! x') as [deps|]; [|done]. cbn in H.
      injection H as H. exists deps. split; [done|].
      assert (deps = ∅) as -> by (apply leibniz_equiv, size_empty_iff; lia). set_solver.
    + intros (deps & Hx & Hd). exists (x, 0%N). split; [done|].
      rewrite elem_of_keep, elem_of_btree_entries, lookup_fmap, Hx. cbn.
      rewrite bool_decide_eq_true. split; [done|]. do 2 f_equal.
      assert (deps = ∅) as -> by (apply set_eq; set_solver). done.
  - intros x. rewrite lookup_fmap. destruct (g !! x) as [deps|]; [|done]. cbn. do 2 f_equal.
    unfold left_of. cbn. f_equal. apply set_eq. set_solver.
  - intros [] ? ?; done.
Qed.

(** What one turn of the loop leaves of the degrees: the services still waited for. *)
Lemma relaxed_degrees g n order (indegree indegree' : gmap string N) :
  n ∉ order →
  (∀ x, indegree !! x = (λ deps, N.of_nat (size (left_of order deps))) <$> g !! x) →
  (∀ x, indegree' !! x = if decide (x ∈ hits n (btree_entries g))
                         then usize_pred <$> indegree !! x else indegree !! x) →
  ∀ x, indegree' !! x = (λ deps, N.of_nat (size (left_of (order ++ [n]) deps))) <$> g !! x.
Proof.
  intros Hn Hin Hk x. rewrite Hk, Hin. destruct (g !! x) as [deps|] eqn:E; cbn.
  2:{ by destruct (decide _). }
  destruct (decide _) as [H|H]; rewrite elem_of_hits in H.
  - destruct H as (deps' & E' & H). simplify_eq. cbn.
    rewrite (left_of_snoc_hit order n) by done. f_equal. unfold usize_pred.
    rewrite decide_False by lia. lia.
  - rewrite left_of_snoc_miss; [done|]. intros Hin'. apply H. by exists deps.
Qed.

(** The services it makes ready: those that waited for [n] alone. *)
Lemma elem_of_newly g n order (indegree : gmap string N) x :
  (∀ x, indegree !! x = (λ deps, N.of_nat (size (left_of order deps))) <$> g !! x) →
  x ∈ filter (λ k, indegree !! k = Some 0%N) (hits n (btree_entries g)) ↔
  ∃ deps, g !! x = Some deps ∧ n ∈ deps ∧ ∀ y, y ∈ deps → y ∈ order.
Proof.
  intros Hind. rewrite list_elem_of_filter, elem_of_hits, Hind. split.
  - intros [E (deps & E' & Hx)]. rewrite E' in E. cbn in E. injection E as E.
    exists deps. split; [done|]. split; [done|]. apply left_of_empty. lia.
  - intros (deps & E & Hx & Hd). split; [|by exists deps]. rewrite E. cbn.
    apply left_of_empty in Hd. by rewrite Hd.
Qed.

Lemma kahn_step_inv g k k' : kahn_inv g k → kahn_step g k = Some k' → kahn_inv g k'.
Proof.
  intros [Hnd Hready Hin Ht]. unfold kahn_step.
  destruct (k_ready k) as [|n ready] eqn:Er; [done|].
  destruct (fold_left _ _ _) as [indegree newly] eqn:Ef. intros [= <-].
  apply relax_fold in Ef as [Hk ->]; [|rewrite btree_entries_keys; apply NoDup_btree_keys].
  rewrite app_nil_l in *. set (newly := filter _ _). set (order := k_order k) in *.
  assert (Hn : n ∉ order) by (intros H; apply NoDup_app in Hnd as (_ & Hd & _); set_solver).
  assert (Hdeps : ∀ y, depends g n y → y ∈ order).
  { intros y (deps & E & Hy). destruct (Hready n) as [H _].
    destruct H as (deps' & E' & H); [set_solver|]. simplify_eq. auto. }
  pose proof (relaxed_degrees g n order _ _ Hn Hin Hk) as Hind.
  assert (Hnewly : ∀ x, x ∈ newly ↔
            ∃ deps, g !! x = Some deps ∧ n ∈ deps ∧ ∀ y, y ∈ deps → y ∈ order ++ [n])
    by (intros x; by apply elem_of_newly).
  split; cbn.
  - rewrite merge_sort_Permutation, <- app_assoc. rewrite app_assoc. cbn.
    rewrite <- (app_assoc order). cbn. rewrite app_comm_cons, app_assoc.
    apply NoDup_app. split; [done|]. split.
    + intros x Hx (deps & E & Hxn & _)%Hnewly. apply Hready in Hx as (deps' & E' & Hd).
      simplify_eq. auto.
    + apply NoDup_filter. unfold hits. apply NoDup_keep_fst. rewrite btree_entries_keys.
      apply NoDup_btree_keys.
  - intros x. rewrite merge_sort_Permutation.
    assert (Hold : x ∈ (order ++ [n]) ++ ready ++ newly ↔ x ∈ order ++ n :: ready ∨ x ∈ newly)
      by (clear; set_solver).
    rewrite Hold, Hready, Hnewly. clear Hold. split.
    + intros [(deps & E & Hd)|(deps & E & _ & Hd)]; exists deps; split; try done.
      intros y Hy. apply elem_of_app. auto.
    + intros (deps & E & Hd). destruct (decide (n ∈ deps)) as [Hnd'|Hnd']; [eauto|].
      left. exists deps. split; [done|]. intros y Hy.
      pose proof (Hd y Hy) as Hy'. apply elem_of_app in Hy'. destruct Hy' as [|Hy']; [done|].
      apply list_elem_of_singleton in Hy'. rewrite Hy' in Hy. done.
  - done.
  - by apply topological_snoc.
Qed.

Lemma kahn_run_inv g fuel k : kahn_inv g k → kahn_inv g (kahn_run fuel g k).
Proof.
  revert k. induction fuel as [|fuel IH]; intros k Hk; cbn; [done|].
  destruct (kahn_step g k) eqn:E; [|done]. apply IH. by eapply kahn_step_inv.
Qed.

Lemma inv_dom g k x : kahn_inv g k → x ∈ k_order k ++ k_ready k → x ∈ btree_keys g.
Proof. intros Hk Hx. apply (inv_ready g k Hk) in Hx as (deps & E & _). rewrite elem_of_btree_keys. by eexists. Qed.

Lemma length_btree_keys {V} (m : gmap string V) : length (btree_keys m) = size m.
Proof. unfold btree_keys. by rewrite length_btree_elems, size_dom. Qed.

Lemma inv_length g k : kahn_inv g k → (length (k_order k) + length (k_ready k) ≤ size g)%nat.
Proof.
  intros Hk. rewrite <- length_app, <- length_btree_keys.
  apply submseteq_length, NoDup_submseteq; [apply Hk|]. intros x. by apply inv_dom.
Qed.

(** The loop ends with nothing left ready, within one step per service. *)
Lemma kahn_run_done g fuel k :
  kahn_inv g k → (size g < fuel + length (k_order k))%nat → k_ready (kahn_run fuel g k) = [].
Proof.
  revert k. induction fuel as [|fuel IH]; intros k Hk Hf; cbn.
  { pose proof (inv_length g k Hk). lia. }
  destruct (kahn_step g k) as [k'|] eqn:E.
  - apply IH; [by eapply kahn_step_inv|]. unfold kahn_step in E.
    destruct (k_ready k); [done|]. destruct (fold_left _ _ _). injection E as <-. cbn.
    rewrite length_app. cbn. lia.
  - unfold kahn_step in E. destruct (k_ready k); [done|]. by destruct (fold_left _ _ _).
Qed.

Lemma kahn_enough g fuel :
  (size g < fuel)%nat → kahn_run fuel g (kahn_init g) = kahn_run (S (size g)) g (kahn_init g).
Proof.
  intros Hf. assert (H : ∀ f1 f2 k, k_ready (kahn_run f1 g k) = [] → (f1 ≤ f2)%nat →
                       kahn_run f2 g k = kahn_run f1 g k).
  { induction f1 as [|f1 IH]; intros f2 k Hr Hle; cbn in *.
    - destruct f2; [done|]. cbn. unfold kahn_step. by rewrite Hr.
    - destruct f2; [lia|]. cbn. destruct (kahn_step g k); [apply IH; [done|lia]|done]. }
  apply H; [|lia]. apply kahn_run_done; [apply kahn_init_inv|cbn; lia].
Qed.

(** ** Cycles *)

(** A walk that never leaves a finite list, and can always go on, comes back. *)
Lemma walk_cycles (R : relation string) (S : list string) fuel visited x :
  (∀ a, a ∈ S → ∃ b, b ∈ S ∧ R a b) →
  NoDup visited → (∀ v, v ∈ visited → v ∈ S ∧ tc R v x) → x ∈ S →
  (length S < fuel + length visited)%nat → ∃ z, z ∈ S ∧ tc R z z.
Proof.
  intros Hsucc. revert visited x. induction fuel as [|fuel IH]; intros visited x Hnd Hv Hx Hf.
  { apply NoDup_submseteq with (k := S) in Hnd; [|intros v Hin; by apply Hv].
    apply submseteq_length in Hnd. lia. }
  destruct (decide (x ∈ visited)) as [Hin|Hin].
  { exists x. split; [done|]. by apply Hv. }
  destruct (Hsucc x Hx) as (y & Hy & Hxy). apply (IH (x :: visited) y); [by constructor| |done|cbn; lia].
  intros v [->|Hvin]%elem_of_cons; [split; [done|by apply tc_once]|].
  destruct (Hv v Hvin) as [? ?]. split; [done|]. by eapply tc_r.
Qed.

Lemma topological_tc g order x y l1 l2 :
  topological g order → tc (depends g) x y → order = l1 ++ x :: l2 → y ∈ l1.
Proof.
  intros Ht Htc. revert l1 l2. induction Htc as [x y Hxy|x y z Hxy _ IH]; intros l1 l2 E.
  - by eapply Ht.
  - assert (Hy : y ∈ l1) by (by eapply Ht).
    apply list_elem_of_split in Hy as (a & b & ->).
    assert (z ∈ a) by (apply (IH a (b ++ x :: l2)); rewrite E, <- app_assoc; done).
    apply elem_of_app. by left.
Qed.

Lemma topological_acyclic g order :
  NoDup order → (∀ x, is_Some (g !! x) → x ∈ order) → topological g order → acyclic g.
Proof.
  intros Hnd Hall Ht x Hx.
  assert (Hin : x ∈ order).
  { apply Hall. assert (H : ∀ a b, tc (depends g) a b → is_Some (g !! a))
      by (intros a b [? ? (? & ? & _)|? ? ? (? & ? & _) _]; by eexists).
    by eapply H. }
  apply list_elem_of_split in Hin as (l1 & l2 & E).
  assert (x ∈ l1) by (by eapply topological_tc). subst order.
  apply NoDup_app in Hnd as (_ & Hd & _). eapply Hd; [done|]. by left.
Qed.

Definition kahn_final (g : Deps) : Kahn := kahn_run (S (size g)) g (kahn_init g).

Lemma kahn_final_inv g : kahn_inv g (kahn_final g) ∧ k_ready (kahn_final g) = [].
Proof.
  split; [apply kahn_run_inv, kahn_init_inv|].
  apply kahn_run_done; [apply kahn_init_inv|cbn; lia].
Qed.

Lemma kahn_final_order g x :
  x ∈ k_order (kahn_final g) ↔
  ∃ deps, g !! x = Some deps ∧ ∀ y, y ∈ deps → y ∈ k_order (kahn_final g).
Proof.
  destruct (kahn_final_inv g) as [Hk Hr]. rewrite <- (inv_ready g _ Hk), Hr. by rewrite app_nil_r.
Qed.

Lemma first_missing_Some g x y :
  first_missing g = Some (x, y) → depends g x y ∧ g !! y = None.
Proof.
  unfold first_missing. intros ([x' deps] & Hin%elem_of_btree_entries & H)%find_map_Some.
  destruct (find_first _ _) as [d|] eqn:E; [|done]. cbn in H. simplify_eq.
  apply find_first_Some in E as (l1 & l2 & El & Hd%bool_decide_eq_true & _).
  split; [|done]. exists deps. split; [done|]. apply elem_of_btree_elems. rewrite El.
  apply elem_of_app. right. by left.
Qed.

Lemma first_missing_None g : first_missing g = None ↔ complete g.
Proof.
  unfold first_missing, complete. rewrite find_map_None. split.
  - intros H x y (deps & E & Hy). specialize (H (x, deps)). cbn in H.
    rewrite elem_of_btree_entries in H. specialize (H E).
    destruct (find_first _ _) eqn:Ef; [done|]. apply find_first_None in Ef.
    rewrite Forall_forall in Ef. specialize (Ef y).
    rewrite elem_of_btree_elems, bool_decide_eq_false in Ef. by apply not_eq_None_Some, Ef.
  - intros H [x deps] Hin%elem_of_btree_entries.
    assert (find_first (λ d, bool_decide (g !! d = None)) (btree_elems deps) = None) as ->; [|done].
    apply find_first_None, Forall_forall. intros d Hd%elem_of_btree_elems.
    apply bool_decide_eq_false, not_eq_None_Some, (H x). by exists deps.
Qed.

(** What the sort leaves out depends on something else it leaves out. *)
Lemma stuck_succ g stuck :
  complete g →
  stuck = keep (λ k, negb (bool_decide (k ∈ k_order (kahn_final g)))) (btree_keys g) →
  ∀ x, x ∈ stuck → ∃ y, y ∈ stuck ∧ depends g x y.
Proof.
  intros Hc -> x Hx. apply elem_of_keep in Hx as [Hn Hx].
  apply negb_true_iff, bool_decide_eq_false in Hn. apply elem_of_btree_keys in Hx as [deps E].
  destruct (decide (set_Forall (.∈ k_order (kahn_final g)) deps)) as [Hd|Hd].
  { exfalso. apply Hn, kahn_final_order. by exists deps. }
  apply not_set_Forall_Exists in Hd; [|tc_solve]. destruct Hd as (y & Hy & Hny).
  assert (depends g x y) by (by exists deps). exists y. split; [|done].
  apply elem_of_keep. split; [by apply negb_true_iff, bool_decide_eq_false|].
  apply elem_of_btree_keys. by eapply Hc.
Qed.

Lemma order_all g :
  length (k_order (kahn_final g)) = size g →
  ∀ x, x ∈ k_order (kahn_final g) ↔ is_Some (g !! x).
Proof.
  intros Hlen x. destruct (kahn_final_inv g) as [Hk Hr].
  pose proof (inv_nodup g _ Hk) as Hnd. rewrite Hr, app_nil_r in Hnd.
  assert (Hp : k_order (kahn_final g) ≡ₚ btree_keys g).
  { apply submseteq_length_Permutation; [|by rewrite Hlen, length_btree_keys].
    apply NoDup_submseteq; [done|]. intros z Hz. eapply inv_dom; [done|]. rewrite Hr, app_nil_r. done. }
  by rewrite Hp, elem_of_btree_keys.
Qed.

Lemma stuck_nonempty g :
  length (k_order (kahn_final g)) ≠ size g →
  keep (λ k, negb (bool_decide (k ∈ k_order (kahn_final g)))) (btree_keys g) ≠ [].
Proof.
  intros Hlen Hnil. apply Hlen. destruct (kahn_final_inv g) as [Hk Hr].
  pose proof (inv_length g _ Hk) as Hle.
  enough (size g ≤ length (k_order (kahn_final g)))%nat by lia.
  rewrite <- length_btree_keys. apply submseteq_length, NoDup_submseteq; [apply NoDup_btree_keys|].
  intros x Hx. destruct (decide (x ∈ k_order (kahn_final g))); [done|].
  assert (Hin : x ∈ keep (λ k, negb (bool_decide (k ∈ k_order (kahn_final g)))) (btree_keys g)).
  { apply elem_of_keep. split; [by apply negb_true_iff, bool_decide_eq_false|done]. }
  rewrite Hnil in Hin. by apply not_elem_of_nil in Hin.
Qed.

Lemma deployment_order_Ok g order :
  deployment_order g = Ok order →
  complete g ∧ order = k_order (kahn_final g) ∧ length order = size g.
Proof.
  unfold deployment_order, check_complete. fold (kahn_final g).
  destruct (first_missing g) as [[]|] eqn:E; cbn; [done|]. case_decide; [|done].
  intros [= <-]. split; [by apply first_missing_None|done].
Qed.

Lemma deployment_order_sound g order :
  deployment_order g = Ok order →
  NoDup order ∧ (∀ x, x ∈ order ↔ is_Some (g !! x)) ∧ topological g order.
Proof.
  intros (_ & -> & Hlen)%deployment_order_Ok. destruct (kahn_final_inv g) as [Hk Hr].
  pose proof (inv_nodup g _ Hk) as Hnd. rewrite Hr, app_nil_r in Hnd.
  split; [done|]. split; [by apply order_all|apply Hk].
Qed.

Lemma deployment_order_refused g :
  match deployment_order g with
  | Ok _ => True
  | Err (MissingDependency x y) => depends g x y ∧ g !! y = None
  | Err (Cycle stuck) =>
      (∀ x, x ∈ stuck → ∃ y, y ∈ stuck ∧ depends g x y) ∧
      ∃ x, x ∈ stuck ∧ tc (depends g) x x
  end.
Proof.
  unfold deployment_order, check_complete. fold (kahn_final g).
  destruct (first_missing g) as [[x y]|] eqn:E; cbn; [by apply first_missing_Some|].
  apply first_missing_None in E. case_decide as Hlen; [done|].
  pose proof (stuck_succ g _ E eq_refl) as Hsucc. split; [done|].
  destruct (keep _ _) as [|x stuck] eqn:Es; [by apply stuck_nonempty in Es|].
  apply (walk_cycles _ _ (S (length (x :: stuck))) [] x); [done|constructor| |by left|cbn; lia].
  intros v []%not_elem_of_nil.
Qed.

(** ** Properties *)

(** C3. The deployment order, when there is one, is every service of the graph once, each
    after all it depends on: nothing is started before what it needs. *)
Theorem deployment_order_spec g order :
  deployment_order g = Ok order →
  NoDup order ∧ (∀ x, x ∈ order ↔ is_Some (g !! x)) ∧ topological g order.
Proof. apply deployment_order_sound. Qed.

Definition example_graph : Deps :=
  {[ "immich" := {[ "postgres"; "valkey" ]}; "postgres" := ∅; "valkey" := ∅ ]}.

Lemma deployment_order_spec_witness :
  deployment_order example_graph = Ok ["postgres"; "valkey"; "immich"] ∧
  topological example_graph ["postgres"; "valkey"; "immich"].
Proof.
  split; [by vm_compute|].
  refine (proj2 (proj2 (deployment_order_spec example_graph _ _))). by vm_compute.
Defined.

(** C36. Over a graph with no dependency missing, an order is found exactly when no service
    depends on itself through others: Kahn's loop neither gives up on a graph that has an
    order nor goes on for ever on one that has none. *)
Theorem deployment_order_iff_acyclic g :
  complete g → (∃ order, deployment_order g = Ok order) ↔ acyclic g.
Proof.
  intros Hc. split.
  - intros (order & (Hnd & Hall & Ht)%deployment_order_sound).
    eapply topological_acyclic; [done| |done]. intros x. apply Hall.
  - intros Ha. pose proof (deployment_order_refused g) as H.
    destruct (deployment_order g) as [order|[stuck|x y]]; [eauto|..].
    + destruct H as (_ & x & _ & Hx). by apply Ha in Hx.
    + destruct H as [Hd Hn]. apply Hc in Hd. rewrite Hn in Hd. by destruct Hd.
Qed.

Lemma deployment_order_iff_acyclic_witness :
  ¬ acyclic {[ "a" := {[ "b" ]}; "b" := {[ "a" ]} ]}.
Proof.
  rewrite <- deployment_order_iff_acyclic.
  - intros [order H]. vm_compute in H. discriminate.
  - apply first_missing_None. by vm_compute.
Defined.

(** A refusal says what is wrong: the dependency it names is really needed and really
    absent; the services of a reported cycle all wait on one another, and one of them
    does wait on itself. *)
Theorem deployment_order_errors g :
  match deployment_order g with
  | Ok _ => True
  | Err (MissingDependency x y) => depends g x y ∧ g !! y = None
  | Err (Cycle stuck) =>
      (∀ x, x ∈ stuck → ∃ y, y ∈ stuck ∧ depends g x y) ∧
      ∃ x, x ∈ stuck ∧ tc (depends g) x x
  end.
Proof. apply deployment_order_refused. Qed.

(** The report of a cycle also names what merely waits behind it. *)
Lemma cycle_names_bystanders :
  deployment_order {[ "a" := {[ "b" ]}; "b" := {[ "a" ]}; "c" := {[ "a" ]} ]}
  = Err (Cycle ["a"; "b"; "c"]).
Proof. by vm_compute. Qed.

(** The graph's edges are what the manifests declare and nothing else: the owner of a
    mounted volume, and the platform service of each capability but the app's own. *)
Theorem from_manifests_edges ms x y :
  depends (from_manifests ms) x y ↔
  ∃ m, m ∈ ms ∧ md_name (mf_metadata m) = x ∧ requires_edge m y.
Proof.
  unfold from_manifests. rewrite depends_from_manifests. split; [|by right].
  intros [(deps & H & _)|H]; [|done]. by rewrite lookup_empty in H.
Qed.

(** Stopping goes the other way: whatever depends on a service is stopped before it. *)
Theorem shutdown_order_spec g order x y l1 l2 :
  shutdown_order g = Ok order → order = l1 ++ y :: l2 → depends g x y → x ∈ l1.
Proof.
  unfold shutdown_order. rewrite result_bind_Ok. intros (o & Ho & [= <-]) E Hxy.
  apply deployment_order_sound in Ho as (Hnd & Hall & Ht).
  assert (Hx : x ∈ o) by (apply Hall; destruct Hxy as (? & ? & _); by eexists).
  assert (Eo : o = reverse l2 ++ y :: reverse l1).
  { rewrite <- (reverse_involutive o), E, reverse_app, reverse_cons, <- app_assoc. done. }
  rewrite Eo in Hnd. apply NoDup_app in Hnd as (_ & Hd & _).
  rewrite Eo in Hx. apply elem_of_app in Hx as [Hx|[->|Hx]%elem_of_cons].
  - apply list_elem_of_split in Hx as (a & b & Ea). exfalso. apply (Hd y); [|by left].
    rewrite Ea, elem_of_app. left.
    apply (Ht a x (b ++ y :: reverse l1)); [|done]. by rewrite Eo, Ea, <- app_assoc.
  - exfalso. apply (Hd y); [|by left]. by eapply Ht.
  - by rewrite elem_of_reverse in Hx.
Qed.

Lemma shutdown_order_spec_witness :
  shutdown_order example_graph = Ok ["immich"; "valkey"; "postgres"] ∧
  "immich" ∈ ["immich"; "valkey"].
Proof.
  split; [by vm_compute|].
  apply (shutdown_order_spec example_graph ["immich"; "valkey"; "postgres"] "immich" "postgres"
           ["immich"; "valkey"] []); [by vm_compute|done|].
  exists {[ "postgres"; "valkey" ]}. split; [by vm_compute|set_solver].
Defined.
