(* ===== verification/Plan.v ===== *)
(** * The execution plan

    [crates/hlb-resolver/src/plan.rs]: the actions the resolver writes down before any is
    carried out, how each is displayed - the text an owner approves, and the one the
    journal matches an action by -, and what is read off a plan. *)

From S2P Require Import Prelude RustStr Capability Guide Manifest.

(** @ hlb-resolver/src/plan.rs:14-163 [Action] *)
Inductive Action :=
| ProvisionDatabase (engine : DbEngine) (database role password_secret : string)
    (extensions : list string) (connection_limit : option N)
| ProvisionBucket (bucket key_name secret_name : string) (expire_after_days : option N)
| GenerateSecret (name purpose : string)
| CreateOidcClient (app : string) (redirect_uris : list string)
| AddPortalCallback (uri : string)
| CreateVolume (name path : string) (tier : StorageTier) (backup sqlite : bool)
| ProvisionSmtpAccount (address secret_name : string)
| ProvisionMailAccount (address : string) (aliases : bool) (quota_bytes : option N)
| DeployService (name image : string) (replicas : N) (constraints : list string)
    (env mounts : list (string * string)) (hardening : SecuritySpec)
    (healthcheck : option Healthcheck) (files : list (string * string))
    (command args : list string) (process : Process) (memory : option Memory)
| FetchDownload (app volume url sha256 into : string) (unzip : bool)
    (constraints : list string) (mounts : list (string * string))
| ResolveDigest (repo tag : string)
| WaitHealthy (name : string) (timeout_secs : N)
| ConfigureIngress (host service : string) (port : N) (public : bool)
| PendingGuideStep (id title : string) (blocking : bool) (service : string) (step : GuideStep).

#[export] Instance Action_eq_dec : EqDecision Action.
Proof. solve_decision. Defined.

(** @ hlb-resolver/src/plan.rs:425-429 [Plan] *)
Record Plan := { actions : list Action }.

(** @ hlb-resolver/src/plan.rs:431-434 [Plan::push] *)
Definition push (p : Plan) (a : Action) : Plan := {| actions := actions p ++ [a] |}.
(** @ hlb-resolver/src/plan.rs:436-438 [Plan::is_empty] *)
Definition plan_is_empty (p : Plan) : bool := match actions p with [] => true | _ => false end.
(** @ hlb-resolver/src/plan.rs:440-442 [Plan::len] *)
Definition plan_len (p : Plan) : nat := length (actions p).

(** @ hlb-resolver/src/plan.rs:165-174 [Action::is_mutating] *)
Definition is_mutating (a : Action) : bool :=
  match a with WaitHealthy _ _ | PendingGuideStep _ _ _ _ _ => false | _ => true end.

(** @ hlb-resolver/src/plan.rs:449-449 [Plan::blocking_steps] *)
Definition is_blocking_step (a : Action) : bool :=
  match a with PendingGuideStep _ _ blocking _ _ => blocking | _ => false end.

(** @ hlb-resolver/src/plan.rs:444-451 [Plan::blocking_steps] *)
Definition blocking_steps (p : Plan) : list Action := keep is_blocking_step (actions p).

(** @ hlb-resolver/src/plan.rs:464-467 [Plan::pre_install_blockers] *)
Definition is_pre_install_blocker (a : Action) : bool :=
  match a with
  | PendingGuideStep _ _ blocking _ step => blocking && (step_phase step ==? PreInstall)
  | _ => false
  end.

(** @ hlb-resolver/src/plan.rs:453-469 [Plan::pre_install_blockers] *)
Definition pre_install_blockers (p : Plan) : list Action :=
  keep is_pre_install_blocker (actions p).

(** @ hlb-resolver/src/plan.rs:471-473 [Plan::mutating_count] *)
Definition mutating_count (p : Plan) : nat := length (keep is_mutating (actions p)).

(** ** Display *)

(** [{:?}] of a tier. *)
Definition tier_debug (t : StorageTier) : string :=
  match t with TierLocal => "Local" | TierNfs => "Nfs" end.

(** The parts in brackets after a deployment.
    @ hlb-resolver/src/plan.rs:281-364 [Action::fmt] *)
Definition deploy_details (env mounts : list (string * string)) (h : SecuritySpec)
    (healthcheck : option Healthcheck) (files : list (string * string))
    (command args : list string) (process : Process) (memory : option Memory)
    : list string :=
  (if sec_read_only_rootfs h then ["rootfs ro"] else [])
  ++ (if sec_tmpfs h is [] then []
      else ["tmpfs " +:+ join ", " (tmpfs_display <$> sec_tmpfs h)])
  ++ (if decide (proc_sysctls process = ∅) then []
      else ["sysctl " +:+ join ", "
              ((λ '(k, v), k +:+ "=" +:+ v) <$> btree_entries (proc_sysctls process))])
  ++ (if sec_no_new_privileges h then ["no-new-privileges"] else [])
  ++ (if sec_cap_drop h is [] then [] else ["cap_drop " +:+ join "+" (sec_cap_drop h)])
  ++ (if sec_cap_add h is [] then [] else ["cap_add " +:+ join "+" (sec_cap_add h)])
  ++ (if sec_published_ports h is [] then []
      else ["ports " +:+ join ", " (port_display <$> sec_published_ports h) +:+ " on the node"])
  ++ (if healthcheck is Some _ then ["probe"] else [])
  ++ (if memory is Some m
      then ["memory " +:+ bytes_to_string (mem_reserve m) +:+ " reserved, "
            +:+ bytes_to_string (mem_limit m) +:+ " at most"]
      else [])
  ++ (if files is [] then [] else ["files " +:+ join ", " files.*1])
  ++ (if command is [] then [] else ["runs " +:+ join " " command])
  ++ (if args is [] then [] else ["arguments " +:+ join " " args])
  ++ (if env is [] then [] else [show_nat (length env) +:+ " variables"])
  ++ ((λ '(vol, path), vol +:+ "→" +:+ path) <$> mounts).

Definition brackets (open_ close : string) (l : list string) : string :=
  if l is [] then "" else " " +:+ open_ +:+ join ", " l +:+ close.

(** @ hlb-resolver/src/plan.rs:176-423 [Action::fmt] *)
Definition action_display (a : Action) : string :=
  match a with
  | ProvisionDatabase engine database role password_secret extensions connection_limit =>
      "create database " +:+ database +:+ " on " +:+ db_service_name engine
      +:+ " with role " +:+ role +:+ " (isolated, password " +:+ password_secret +:+ ")"
      +:+ (if extensions is [] then "" else " + extensions " +:+ join ", " extensions)
      +:+ (if connection_limit is Some n then ", at most " +:+ show_N n +:+ " connections" else "")
  | ProvisionBucket bucket key_name secret_name expire_after_days =>
      "create bucket " +:+ bucket +:+ " with isolated key " +:+ key_name +:+ " (secret "
      +:+ secret_name +:+ ") — Garage given its layout first if it has none"
      +:+ (if expire_after_days is Some d
           then ", its objects deleted after " +:+ show_N d +:+ " days" else "")
  | GenerateSecret name purpose => "generate secret " +:+ name +:+ " (" +:+ purpose +:+ ")"
  | CreateOidcClient app redirect_uris =>
      "create OIDC client " +:+ String "034" (app +:+ String "034" (" in PocketID → "
      +:+ join ", " redirect_uris))
  | AddPortalCallback uri => "allow " +:+ uri +:+ " on the portal's OIDC client in PocketID"
  | CreateVolume name path tier backup sqlite =>
      "create volume " +:+ name +:+ " at " +:+ path +:+ " (tier " +:+ tier_debug tier
      +:+ ", backup " +:+ (if backup then "on" else "off")
      +:+ (if sqlite then ", SQLite snapshot" else "") +:+ ")"
  | ProvisionSmtpAccount address _ =>
      "create sending account " +:+ address +:+ ", tried on port 587"
  | ProvisionMailAccount address aliases quota_bytes =>
      "create mailbox " +:+ address +:+ (if aliases then " with aliases" else "")
      +:+ (if quota_bytes is Some q then " [quota " +:+ show_N q +:+ " B - NOT ENFORCED]" else "")
  | DeployService name image replicas constraints env mounts hardening healthcheck files
      command args process memory =>
      "deploy " +:+ name +:+ " ×" +:+ show_N replicas +:+ " from " +:+ image
      +:+ brackets "[" "]" constraints
      +:+ brackets "(" ")"
            (deploy_details env mounts hardening healthcheck files command args process memory)
  | FetchDownload _ volume url sha256 into unzip _ _ =>
      "fetch " +:+ url +:+ " (sha256 " +:+ sha256 +:+ ") "
      +:+ (if unzip then "unzipped into" else "into") +:+ " " +:+ volume +:+ "/" +:+ into
      +:+ ", replacing it"
  | ResolveDigest repo tag =>
      "resolve the digest of " +:+ repo +:+ ":" +:+ tag +:+ " against the registry"
  | WaitHealthy name timeout_secs =>
      "wait for " +:+ name +:+ " to become healthy (max " +:+ show_N timeout_secs +:+ " s)"
  | ConfigureIngress host service port public =>
      "route " +:+ host +:+ " → " +:+ service +:+ ":" +:+ show_N port +:+ " ("
      +:+ (if public then "public" else "VPN only") +:+ ")"
  | PendingGuideStep id title blocking _ step =>
      (if blocking then "🔴" else "🟠") +:+ " "
      +:+ (if is_automatable step then "action" else "manual action") +:+ " "
      +:+ String "034" (title +:+ String "034" (" [" +:+ id +:+ "]"))
  end.

Definition newline : string := String "010" "".
Definition plural (n : nat) : string := if decide (n = 1)%nat then "action" else "actions".

(** [{:>2}]. *)
Definition pad2 (n : nat) : string :=
  let s := show_nat n in if (String.length s <? 2)%nat then " " +:+ s else s.

(** @ hlb-resolver/src/plan.rs:476-511 [Plan::fmt] *)
Definition plan_display (p : Plan) : string :=
  if plan_is_empty p
  then "No action: the desired state is already reached." +:+ newline
  else
    let before := length (pre_install_blockers p) in
    let after := (length (blocking_steps p) - before)%nat in
    show_nat (plan_len p) +:+ " " +:+ plural (plan_len p) +:+ ", "
    +:+ show_nat (mutating_count p) +:+ " of them mutating:" +:+ newline +:+ newline
    +:+ join "" (imap (λ i a, "  " +:+ pad2 (i + 1) +:+ ". " +:+ action_display a +:+ newline)
                   (actions p))
    +:+ (if (0 <? before)%nat
         then newline +:+ "🔴 " +:+ show_nat before +:+ " prerequisite " +:+ plural before
              +:+ ": the installation will not start first." +:+ newline
         else "")
    +:+ (if (0 <? after)%nat
         then newline +:+ "🟠 " +:+ show_nat after +:+ " blocking manual " +:+ plural after
              +:+ " once it runs: until then, a route meant to open after them stays private."
              +:+ newline
         else "").

(** ** Properties *)

Lemma pre_install_is_blocking a : is_pre_install_blocker a = true → is_blocking_step a = true.
Proof. destruct a; cbn; try done. by intros [? _]%andb_true_iff. Qed.

(** [after] in [Plan::fmt] is a subtraction of [usize]: it never wraps. *)
Lemma blockers_le p : (length (pre_install_blockers p) ≤ length (blocking_steps p))%nat.
Proof.
  unfold pre_install_blockers, blocking_steps.
  induction (actions p) as [|a l IH]; [done|]. rewrite !keep_cons.
  pose proof (pre_install_is_blocking a).
  destruct (is_blocking_step a), (is_pre_install_blocker a); cbn; naive_solver lia.
Qed.

Lemma append_same_length s t u v :
  s +:+ t = u +:+ v → String.length s = String.length u → s = u ∧ t = v.
Proof.
  revert u. induction s as [|c s IH]; intros [|d u]; cbn; try done.
  rewrite !append_cons. intros [= -> H] [= Hl]. by destruct (IH u H Hl) as [-> ->].
Qed.

(** The description of a download carries its hash: of the same URL with another
    SHA-256 - both 64 hex digits -, the action reads differently, so a run that skips the
    actions the journal holds as done fetches the new file. *)
Lemma download_display_hash app volume url into unzip cs ms h1 h2 :
  String.length h1 = String.length h2 →
  action_display (FetchDownload app volume url h1 into unzip cs ms)
  = action_display (FetchDownload app volume url h2 into unzip cs ms) → h1 = h2.
Proof.
  intros Hl H. cbn [action_display] in H.
  apply append_inj_l, append_inj_l, append_inj_l in H.
  by apply append_same_length in H as [-> _].
Qed.

(** What the plan announces as held back adds up: every blocking step of the plan is
    either a prerequisite, which stops the install, or one of those that only hold the
    public route back, and the two sets do not meet. *)
Theorem blockers_partition p :
  blocking_steps p ≡ₚ pre_install_blockers p
    ++ keep (λ a, is_blocking_step a && negb (is_pre_install_blocker a)) (actions p).
Proof.
  unfold pre_install_blockers, blocking_steps.
  induction (actions p) as [|a l IH]; [done|]. rewrite !keep_cons.
  pose proof (pre_install_is_blocking a) as Hi.
  destruct (is_blocking_step a), (is_pre_install_blocker a); cbn.
  - by constructor.
  - rewrite <- Permutation_middle. by constructor.
  - by specialize (Hi eq_refl).
  - done.
Qed.
