(* ===== verification/Validate.v ===== *)
(** * What a manifest is refused for

    [crates/hlb-types/src/lib.rs], the first half: the rules [validate_with_guide] holds a
    manifest to, one definition per rule in the order of the source, the process rules and
    what the catalog adds. The guide's own rules, the assertions' and the access' are in
    [ValidateGuide]. *)

From S2P Require Import Prelude RustStr Capability Access Guide Binding Manifest.

(** @ hlb-types/src/lib.rs:46-53 [Error] *)
Inductive Error := Parse (why : string) | Validation (why : string).

#[export] Instance Error_eq_dec : EqDecision Error.
Proof. solve_decision. Defined.

Abbreviation check := (result Error ()).

Definition app_name (m : Manifest) : string := md_name (mf_metadata m).
Definition invalid (m : Manifest) (why : string) : Error := Validation (app_name m +:+ ": " +:+ why).

(** @ hlb-types/src/lib.rs:57-59 [texts_use] *)
Definition texts_use (m : Manifest) (placeholder : string) : bool :=
  any_of (contains placeholder) (substituted (mf_spec m)).

(** ** Declared, and read by nothing *)

(** @ hlb-types/src/lib.rs:79-97 [declared_and_read] *)
Definition databases_of (m : Manifest) : list DbEngine :=
  omap (λ c, match c with Database engine _ _ _ => Some engine | _ => None end)
    (sp_requires (mf_spec m)).

(** @ hlb-types/src/lib.rs:98-117 [declared_and_read] *)
Definition check_databases (m : Manifest) (used : list Token) : check :=
  let databases := databases_of m in
  if (1 <? length databases)%nat then
    _ ← refuse_if
      (any_of (λ e, negb (Some e ==? head databases)) databases
       && any_of (λ t, token_requires t ==? Some "database") used)
      (invalid m ("databases on two engines, and one set of {{ db.* }} tokens — they would " +:+
                  "name the last one's server"));
    match find_first (λ t, (t ==? DbName) || (t ==? DbUrl)) used with
    | Some t => Err (invalid m (token_placeholder t +:+
        " with several databases names the last one only — write each " +:+
        "database's name in the app's variables"))
    | None => Ok ()
    end
  else Ok ().

(** @ hlb-types/src/lib.rs:119-134 [declared_and_read] *)
Definition buckets_of (m : Manifest) : list (string * option N) :=
  omap (λ c, match c with
             | ObjectStorage bucket _ expire => Some (bucket_name bucket (app_name m), expire)
             | _ => None
             end) (sp_requires (mf_spec m)).

(** @ hlb-types/src/lib.rs:135-152 [declared_and_read] *)
Definition check_buckets (m : Manifest) : check :=
  let buckets := buckets_of m in
  _ ← each_after (λ before '(name, expire),
    _ ← refuse_if (any_of (λ '(n, _), n ==? name) before)
      (invalid m ("bucket " +:+ name +:+
        " declared twice — each `object-storage` of several names its own"));
    refuse_if (expire ==? Some 0%N)
      (invalid m ("bucket " +:+ name +:+
        ": expireAfterDays 0 would delete every object the day it is written"))) [] buckets;
  refuse_if ((1 <? length buckets)%nat && texts_use m "{{ s3.bucket }}")
    (invalid m ("{{ s3.bucket }} with several buckets names the last one only — write each " +:+
      "bucket's name in the app's variables")).

(** @ hlb-types/src/lib.rs:153-177 [declared_and_read] *)
Definition check_unread_capability (m : Manifest) (c : Capability) : check :=
  match c with
  | MailAccount _ true => Err (invalid m
      "mail-account with `aliases: true` — nothing makes or limits an app's aliases")
  | Sso mode redirect_paths =>
      refuse_if (negb (mode ==? SsoNative) && negb (redirect_paths ==? []))
        (invalid m ("redirectPaths without `mode: native` — only the app's own OIDC client " +:+
          "has callbacks; the portal's is its own"))
  | _ => Ok ()
  end.

(** @ hlb-types/src/lib.rs:61-179 [declared_and_read] *)
Definition declared_and_read (m : Manifest) (used : list Token) : check :=
  _ ← refuse_if (negb (up_auto_rollback (sp_update (mf_spec m))))
    (invalid m ("update.autoRollback: false — a failed update is always rolled back; an app " +:+
      "that cannot cope belongs on `channel: pin`"));
  _ ← refuse_if (bool_decide (is_Some (up_watch_upstream (sp_update (mf_spec m)))))
    (invalid m ("update.watchUpstream — nothing watches an upstream repository: updates follow " +:+
      "the image's own registry"));
  _ ← check_databases m used;
  _ ← check_buckets m;
  each (check_unread_capability m) (sp_requires (mf_spec m)).

(** ** Downloads *)

(** A letter, a digit, or one of [-], [_] and [.]. *)
Definition name_char (c : ascii) : bool :=
  is_alnum c || bool_decide (c ∈ ["-"%char; "_"%char; "."%char]).

(** @ hlb-types/src/lib.rs:191-198 [validate_downloads] *)
Definition segment_ok (s : string) : bool :=
  negb (str_is_empty s) && negb (s ==? ".") && negb (s ==? "..") && str_all name_char s.

(** @ hlb-types/src/lib.rs:242-243 [validate_downloads] *)
Definition within (a b : string) : bool := (a ==? b) || starts_with (b +:+ "/") a.

(** @ hlb-types/src/lib.rs:203-209 [validate_downloads] *)
Definition url_plain (url rest : string) : bool :=
  negb ((length (split_char "/" rest) <? 2)%nat
        || starts_with "/" rest
        || str_any (λ b, is_ascii_whitespace b || is_ascii_control b) url
        || contains_char "?" url || contains_char "#" url).

(** @ hlb-types/src/lib.rs:211-216 [validate_downloads] *)
Definition sha256_written (s : string) : bool :=
  (String.length s =? 64)%nat
  && str_all (λ b, is_digit b || ((97 <=? byte_of b) && (byte_of b <=? 102))%N) s.

(** @ hlb-types/src/lib.rs:219-221 [validate_downloads] *)
Definition owns_volume (m : Manifest) (storage : string) : bool :=
  any_of (λ c, match c with Storage name _ _ _ _ _ None => name ==? storage | _ => false end)
    (sp_requires (mf_spec m)).

(** @ hlb-types/src/lib.rs:244-246 [validate_downloads] *)
Definition overlaps (d o : Download) : bool :=
  (dl_storage o ==? dl_storage d)
  && (within (dl_into d) (dl_into o) || within (dl_into o) (dl_into d)).

(** @ hlb-types/src/lib.rs:185-190 [validate_downloads] *)
Definition download_refused (m : Manifest) (d : Download) (why : string) : Error :=
  Validation (app_name m +:+ ": the download " +:+ dl_url d +:+ " — " +:+ why).

(** @ hlb-types/src/lib.rs:199-258 [validate_downloads] *)
Definition check_download (m : Manifest) (before : list Download) (d : Download) : check :=
  match strip_prefix "https://" (dl_url d) with
  | None => Err (download_refused m d "not https: nothing would say who served it")
  | Some rest =>
      _ ← refuse_if (negb (url_plain (dl_url d) rest))
        (download_refused m d "not a plain https://host/path URL");
      _ ← refuse_if (negb (sha256_written (dl_sha256 d)))
        (download_refused m d "its sha256 is not 64 lowercase hexadecimal digits");
      _ ← refuse_if (negb (owns_volume m (dl_storage d)))
        (download_refused m d ("storage " +:+ debug_str (dl_storage d) +:+
          " is none of the app's own volumes (`kind: storage`, no `owner`)"));
      _ ← refuse_if (negb (all_of segment_ok (split_char "/" (dl_into d))))
        (download_refused m d ("into " +:+ debug_str (dl_into d) +:+
          " is not a relative directory of the volume"));
      _ ← refuse_if (negb (dl_unzip d) && negb (segment_ok (file_name d)))
        (download_refused m d "its URL ends in no file name to keep it under");
      match find_first (overlaps d) before with
      | Some o => Err (download_refused m d ("into " +:+ debug_str (dl_into d) +:+ " overlaps " +:+
          debug_str (dl_into o) +:+ ", which " +:+ dl_url o +:+ " replaces whole"))
      | None => Ok ()
      end
  end.

(** @ hlb-types/src/lib.rs:181-260 [validate_downloads] *)
Definition validate_downloads (m : Manifest) : check :=
  each_after (check_download m) [] (sp_downloads (mf_spec m)).

(** ** The rules on a manifest *)

(** @ hlb-types/src/lib.rs:275-278 [validate_with_guide] *)
Definition header_auth (m : Manifest) : bool :=
  any_of (λ c, match c with Sso mode _ => requires_network_isolation mode | _ => false end)
    (sp_requires (mf_spec m)).

(** @ hlb-types/src/lib.rs:282-285 [validate_with_guide] *)
Definition published (m : Manifest) : list PublishedPort :=
  (sp_security (mf_spec m) :: (co_security <$> sp_companions (mf_spec m))) ≫= sec_published_ports.

(** @ hlb-types/src/lib.rs:286-307 [validate_with_guide] *)
Definition check_ports (m : Manifest) : check :=
  let ports := published m in
  _ ← refuse_if (header_auth m && negb (ports ==? []))
    (Validation (app_name m +:+ " uses header authentication but publishes ports " +:+
       join ", " (port_display <$> ports) +:+
       ": the app must be reachable only through the proxy"));
  each_after (λ before p,
    refuse_if ((pp_port p =? 0)%N || any_of (λ q, q ==? p) before)
      (invalid m ("port " +:+ port_display p +:+ " — published twice, or zero"))) [] ports.

(** A service of the app: its name, its security, its memory, the paths of its volumes. *)
Record ServiceView := {
  sv_name : string; sv_security : SecuritySpec; sv_memory : option Memory;
  sv_volumes : list string }.

(** @ hlb-types/src/lib.rs:311-329 [validate_with_guide] *)
Definition services (m : Manifest) : list ServiceView :=
  {| sv_name := app_name m; sv_security := sp_security (mf_spec m);
     sv_memory := sw_memory (sp_swarm (mf_spec m));
     sv_volumes := omap (λ c, match c with Storage _ path _ _ _ _ _ => Some path | _ => None end)
                     (sp_requires (mf_spec m)) |}
  :: ((λ c, {| sv_name := co_name c; sv_security := co_security c; sv_memory := co_memory c;
               sv_volumes := cv_path <$> co_storage c |}) <$> sp_companions (mf_spec m)).

(** [!dir.split('/').any(|seg| seg == "." || seg == "..")] *)
Definition no_dot_segment (dir : string) : bool :=
  negb (any_of (λ seg, (seg ==? ".") || (seg ==? "..")) (split_char "/" dir)).

(** @ hlb-types/src/lib.rs:332-335 [validate_with_guide] *)
Definition tmpfs_clean (dir : string) : bool :=
  starts_with "/" dir && negb (dir ==? "/") && no_dot_segment dir.

(** @ hlb-types/src/lib.rs:331-354 [validate_with_guide] *)
Definition check_tmpfs (m : Manifest) (s : ServiceView) (before : list Tmpfs) (t : Tmpfs) : check :=
  let dir := tmpfs_path t in
  let why :=
    if negb (tmpfs_clean dir) then Some "not an absolute directory of its own"
    else if any_of (λ o, tmpfs_path o ==? dir) before then Some "given twice"
    else if bool_decide (dir ∈ sv_volumes s) then Some "a volume's path, whose data it would hide"
    else match tmpfs_size t, sv_memory s with
         | Some size, Some mem =>
             if (bytes_n (mem_limit mem) <? bytes_n size)%N
             then Some "larger than the service's memory limit" else None
         | _, _ => None
         end in
  match why with
  | Some why => Err (invalid m (sv_name s +:+ "'s tmpfs " +:+ debug_str dir +:+ " is " +:+ why))
  | None => Ok ()
  end.

(** @ hlb-types/src/lib.rs:309-355 [validate_with_guide] *)
Definition check_service_tmpfs (m : Manifest) (s : ServiceView) : check :=
  each_after (check_tmpfs m s) [] (sec_tmpfs (sv_security s)).

(** @ hlb-types/src/lib.rs:361-366 [validate_with_guide] *)
Definition signer_name_ok (p : string) : bool :=
  negb (str_is_empty p) && negb (starts_with "." p) && str_all name_char p.

(** @ hlb-types/src/lib.rs:359-389 [validate_with_guide] *)
Definition check_signer (m : Manifest) (image : Image) : check :=
  on_some (img_signed_by image) (λ s,
    let github :=
      match split_once "/" (signer_github s) with
      | Some (owner, repo) => signer_name_ok owner && signer_name_ok repo
      | None => false
      end in
    let file := match strip_suffix ".yml" (signer_workflow s) with
                | Some f => Some f
                | None => strip_suffix ".yaml" (signer_workflow s)
                end in
    let why :=
      if negb github
      then Some ("github " +:+ debug_str (signer_github s) +:+ " is not owner/repository")
      else if negb (if file is Some f then signer_name_ok f else false)
      then Some ("workflow " +:+ debug_str (signer_workflow s) +:+
                 " is not a file name in .github/workflows/")
      else None in
    match why with
    | Some why => Err (invalid m (img_repo image +:+ "'s signer — " +:+ why))
    | None => Ok ()
    end).

(** @ hlb-types/src/lib.rs:359-359 [validate_with_guide] *)
Definition images (m : Manifest) : list Image :=
  sp_image (mf_spec m) :: (co_image <$> sp_companions (mf_spec m)).

(** @ hlb-types/src/lib.rs:400-416 [validate_with_guide] *)
Definition check_redirects (m : Manifest) (c : Capability) : check :=
  match c with
  | Sso SsoNative redirect_paths =>
      refuse_if (redirect_paths ==? [])
        (Validation (app_name m +:+ " declares " +:+ quoted_str "sso: native" +:+
          " with no redirectPaths: the OIDC client would have no redirect URI and sign-in " +:+
          "would fail on the way back. Give the app's callback path, or switch to " +:+
          quoted_str "proxy-only" +:+ " if it does not speak OIDC"))
  | _ => Ok ()
  end.

(** ** Tokens and the capabilities that fill them *)

(** @ hlb-types/src/lib.rs:427-445 [validate_with_guide] *)
Definition automation_texts (a : Automation) : list string :=
  match a with
  | AutoApi _ _ _ _ calls => omap call_body calls
  | AutoSql _ params _ _ => params
  | AutoEnv _ | AutoExec _ _ _ _ => []
  end.

(** @ hlb-types/src/lib.rs:426-445 [validate_with_guide] *)
Definition texts_of (m : Manifest) (g : Guide) : list string :=
  substituted (mf_spec m) ++ ((guide_steps g ≫= step_automate) ≫= automation_texts).

(** Sorted and without repetition: each token some text holds, in the order of the
    declaration. @ hlb-types/src/lib.rs:446-448 [validate_with_guide] *)
Definition used_tokens (texts : list string) : list Token :=
  filter (λ t, any_of (contains (token_placeholder t)) texts = true) all_tokens.

Definition declares (m : Manifest) (needed : string) : bool :=
  any_of (λ c, capability_id c ==? needed) (sp_requires (mf_spec m)).

(** @ hlb-types/src/lib.rs:449-461 [validate_with_guide] *)
Definition check_token (m : Manifest) (t : Token) : check :=
  on_some (token_requires t) (λ needed,
    refuse_if (negb (declares m needed))
      (invalid m (quoted_str (token_placeholder t) +:+ " is used but the app declares no " +:+
        quoted_str needed +:+ " capability. It would go out with the token text as its value"))).

(** @ hlb-types/src/lib.rs:465-472 [validate_with_guide] *)
Definition mails_as_person (m : Manifest) : bool :=
  any_of (λ c, match c with Smtp SenderPerson => true | _ => false end) (sp_requires (mf_spec m)).

(** @ hlb-types/src/lib.rs:473-483 [validate_with_guide] *)
Definition check_person (m : Manifest) (used : list Token) : check :=
  match find_first (λ t, mails_as_person m && bool_decide (t ∈ [SmtpUser; SmtpPassword; SmtpFrom]))
          used with
  | Some t => Err (invalid m (quoted_str (token_placeholder t) +:+
      " — its mail goes out as the person signed in (sender: person), with their own " +:+
      "credentials: the app has no account to read this from"))
  | None => Ok ()
  end.

(** @ hlb-types/src/lib.rs:489-531 [validate_with_guide] *)
Definition is_read (texts : list string) (used : list Token) (c : Capability) : bool :=
  let its_tokens := any_of (λ t, token_requires t ==? Some (capability_id c)) used in
  match c with
  | Database _ _ _ _ | Cache _ _ | Smtp _ => its_tokens
  | Sso mode _ => match mode with SsoNative => its_tokens | _ => true end
  | ObjectStorage _ _ _ => any_of (contains "{{ s3.") texts
  | MailAccount _ _ | Storage _ _ _ _ _ _ _ => true
  end.

(** @ hlb-types/src/lib.rs:488-540 [validate_with_guide] *)
Definition check_read (m : Manifest) (texts : list string) (used : list Token) (c : Capability)
    : check :=
  refuse_if (negb (is_read texts used c))
    (invalid m ("requires " +:+ quoted_str (capability_id c) +:+
      " and reads none of its tokens — what is provisioned for it would reach nothing, and " +:+
      "the app run without it")).

(** ** Names, secrets, files, commands *)

(** @ hlb-types/src/lib.rs:544-552 [validate_with_guide] *)
Definition check_app_name (m : Manifest) : check :=
  refuse_if (starts_with "hlb-" (app_name m))
    (invalid m ("names starting with " +:+ quoted_str "hlb-" +:+ " are Homelabus's own services")).

(** @ hlb-types/src/lib.rs:557-571 [validate_with_guide] *)
Definition check_generated (m : Manifest) (v : string) : check :=
  each (λ found, match found with
    | Ok _ => Ok ()
    | Err bad => Err (invalid m (quoted_str bad +:+ " — a generated secret is written " +:+
        "{{ secret.<name> }} or {{ secret.<name><form> }}, the form one of " +:+
        join " " (form_suffix <$> WRITTEN) +:+
        ", with a name of lowercase letters, digits and hyphens"))
    end) (generated_secrets v).

(** @ hlb-types/src/lib.rs:585-602 [validate_with_guide] *)
Definition check_files (m : Manifest) (s : string * list ConfigFile) : check :=
  let '(service, files) := s in
  each_after (λ before f,
    _ ← refuse_if (negb (starts_with "/" (cf_path f)))
      (invalid m (service +:+ "'s file " +:+ quoted_str (cf_path f) +:+
        " — the path must be absolute"));
    refuse_if (any_of (λ o, cf_path o ==? cf_path f) before)
      (invalid m (service +:+ "'s file " +:+ cf_path f +:+ " declared twice"))) [] files.

(** @ hlb-types/src/lib.rs:579-584 [validate_with_guide] *)
Definition service_files (m : Manifest) : list (string * list ConfigFile) :=
  (app_name m, sp_files (mf_spec m))
  :: ((λ c, (co_name c, co_files c)) <$> sp_companions (mf_spec m)).

(** @ hlb-types/src/lib.rs:605-610 [validate_with_guide] *)
Definition check_shared_env (m : Manifest) : check :=
  refuse_if (negb (sp_shared_env (mf_spec m) ==? ∅)
             && negb (any_of co_shared_env (sp_companions (mf_spec m))))
    (invalid m "sharedEnv, and no companion takes it (`sharedEnv: true`)").

(** @ hlb-types/src/lib.rs:614-617 [validate_with_guide] *)
Definition commands (m : Manifest) : list string :=
  sp_command (mf_spec m) ++ sp_args (mf_spec m)
  ++ (sp_companions (mf_spec m) ≫= λ c, co_command c ++ co_args c).

(** @ hlb-types/src/lib.rs:618-626 [validate_with_guide] *)
Definition check_argument (m : Manifest) (arg : string) : check :=
  refuse_if (negb (tokens_in arg ==? []) || negb (generated_secrets arg ==? []))
    (invalid m ("command argument " +:+ quoted_str arg +:+
      " carries a token — a command takes none: put the value in a variable or a file")).

(** ** The process of a service *)

(** @ hlb-types/src/lib.rs:938-940 [validate_process] *)
Definition MAX_GRACE_SECS : N := 3600.
(** @ hlb-types/src/lib.rs:941-958 [validate_process] *)
Definition ULIMITS : list string :=
  ["core"; "cpu"; "data"; "fsize"; "locks"; "memlock"; "msgqueue"; "nice"; "nofile"; "nproc";
   "rss"; "rtprio"; "rttime"; "sigpending"; "stack"].

(** Lowercase letters, digits and hyphens. *)
Definition dns_char (c : ascii) : bool := is_lower c || is_digit c || bool_decide (c = "-"%char).

(** @ hlb-types/src/lib.rs:962-971 [validate_process] *)
Definition signal_ok (sig : string) : bool :=
  let rest := default "" (strip_prefix "SIG" sig) in
  negb (str_is_empty rest)
  && str_all (λ b, is_upper b || is_digit b || bool_decide (b = "+"%char)) rest.

(** @ hlb-types/src/lib.rs:978-984 [validate_process] *)
Definition hostname_ok (h : string) : bool :=
  negb (str_is_empty h) && (String.length h <=? 63)%nat && negb (starts_with "-" h)
  && negb (ends_with "-" h) && str_all dns_char h.

(** @ hlb-types/src/lib.rs:1001-1006 [validate_process] *)
Definition sysctl_named (key : string) : bool :=
  match strip_prefix "net." key with
  | Some k => negb (str_is_empty k) && str_all name_char k
  | None => false
  end.

(** @ hlb-types/src/lib.rs:1016-1019 [validate_process] *)
Definition group_ok (g : string) : bool :=
  negb (str_is_empty g)
  && str_all (λ b, is_lower b || is_digit b || bool_decide (b ∈ ["_"%char; "-"%char])) g.

(** @ hlb-types/src/lib.rs:937-1025 [validate_process] *)
Definition validate_process (p : Process) : result string () :=
  _ ← on_some (proc_stop_grace_secs p) (λ s,
    refuse_if (MAX_GRACE_SECS <? s)%N ("stopGraceSecs is over " +:+ show_N MAX_GRACE_SECS));
  _ ← on_some (proc_stop_signal p) (λ sig,
    refuse_if (negb (signal_ok sig))
      ("stopSignal " +:+ debug_str sig +:+ " is not a signal's name (SIGINT)"));
  _ ← on_some (proc_working_dir p) (λ dir,
    refuse_if (negb (starts_with "/" dir) || negb (no_dot_segment dir))
      ("workingDir " +:+ debug_str dir +:+ " is not an absolute directory"));
  _ ← on_some (proc_hostname p) (λ h,
    refuse_if (negb (hostname_ok h))
      ("hostname " +:+ debug_str h +:+ " is not a name of lowercase letters, digits and hyphens"));
  _ ← each (λ '(name, l),
    _ ← refuse_if (negb (bool_decide (name ∈ ULIMITS)))
      ("ulimit " +:+ debug_str name +:+ " is not one Docker knows");
    refuse_if (ul_hard l <? ul_soft l)%N
      ("ulimit " +:+ name +:+ "'s soft limit is over its hard one")) (btree_entries (proc_ulimits p));
  _ ← each (λ '(key, value),
    _ ← refuse_if (negb (sysctl_named key))
      ("sysctl " +:+ debug_str key +:+
       " is not the container's own: only `net.*` lives in its namespace");
    refuse_if (str_is_empty value || contains_char "010" value || contains_char "013" value)
      ("sysctl " +:+ key +:+ " has no value on one line")) (btree_entries (proc_sysctls p));
  each (λ g, refuse_if (negb (group_ok g))
    ("group " +:+ debug_str g +:+ " is not a group's name or number")) (proc_groups p).

(** @ hlb-types/src/lib.rs:628-637 [validate_with_guide] *)
Definition check_processes (m : Manifest) : check :=
  each (λ '(service, process),
    map_err (λ why, invalid m (service +:+ "'s " +:+ why)) (validate_process process))
    ((app_name m, sp_process (mf_spec m))
     :: ((λ c, (co_name c, co_process c)) <$> sp_companions (mf_spec m))).

(** ** Companions and volumes *)

(** A text of lowercase letters, digits and hyphens, not empty. *)
Definition dns_name (s : string) : bool := negb (str_is_empty s) && str_all dns_char s.

(** @ hlb-types/src/lib.rs:644-669 [validate_with_guide] *)
Definition check_companion_name (m : Manifest) (seen : list Companion) (c : Companion) : check :=
  _ ← refuse_if (negb (dns_name (co_name c)))
    (invalid m ("companion " +:+ quoted_str (co_name c) +:+
      " - the name becomes a DNS entry and accepts only lowercase letters, digits and hyphens"));
  refuse_if (any_of (λ o, co_name o ==? co_name c) seen)
    (invalid m ("companion " +:+ quoted_str (co_name c) +:+
      " declared twice - the second would overwrite the first without a word")).

(** @ hlb-types/src/lib.rs:673-698 [validate_with_guide] *)
Definition check_foreign_volume (m : Manifest) (c : Capability) : check :=
  match c with
  | Storage name _ tier backup sqlite copy (Some owner) =>
      refuse_if ((owner ==? app_name m) || backup || sqlite || negb (tier ==? TierLocal)
                 || negb (copy_is_live copy))
        (invalid m ("volume " +:+ quoted_str name +:+ " is " +:+ owner +:+
          "'s — a volume of another app is local, with backup and sqlite false and no copy of " +:+
          "its own: its owner keeps it"))
  | _ => Ok ()
  end.

(** @ hlb-types/src/lib.rs:713-721 [validate_with_guide] *)
Definition check_companion_copy (m : Manifest) (c : Companion) : check :=
  on_some (find_first (λ v, bool_decide (is_Some (copy_engine (cv_copy v)))) (co_storage c)) (λ v,
    Err (invalid m ("volume " +:+ quoted_str (cv_name v) +:+ " of " +:+ co_name c +:+
      " is copied by an engine's tool, which connects to the app's own service: an engine " +:+
      "runs as the app, never as a companion"))).

(** @ hlb-types/src/lib.rs:700-712 [validate_with_guide] *)
Definition copies (m : Manifest) : list (string * bool * VolumeCopy) :=
  omap (λ c, match c with Storage name _ _ backup _ copy _ => Some (name, backup, copy) | _ => None end)
    (sp_requires (mf_spec m))
  ++ ((λ v, (cv_name v, cv_backup v, cv_copy v)) <$> (sp_companions (mf_spec m) ≫= co_storage)).

(** @ hlb-types/src/lib.rs:722-730 [validate_with_guide] *)
Definition check_copy (m : Manifest) (v : string * bool * VolumeCopy) : check :=
  let '(name, backup, copy) := v in
  refuse_if (negb backup && negb (copy_is_live copy))
    (invalid m ("volume " +:+ quoted_str name +:+
      " says how its copy is taken, and is not backed up: nothing would read it")).

(** @ hlb-types/src/lib.rs:734-757 [validate_with_guide] *)
Definition check_tier (m : Manifest) (c : Capability) : check :=
  match c with
  | Storage name _ tier _ sqlite _ _ =>
      _ ← refuse_if (sqlite && (tier ==? TierNfs))
        (Validation ("volume " +:+ quoted_str name +:+ ": a SQLite database must never sit on NFS"));
      refuse_if ((tier ==? TierLocal) && (1 <? sw_replicas (sp_swarm (mf_spec m)))%N)
        (invalid m (show_N (sw_replicas (sp_swarm (mf_spec m))) +:+ " replicas over the local volume "
          +:+ quoted_str name +:+ " — a local volume exists once per node, and the data would " +:+
          "split between them: one replica, or the volume on NFS"))
  | _ => Ok ()
  end.

(** ** Routes *)

(** @ hlb-types/src/lib.rs:761-773 [validate_with_guide] *)
Definition check_chain (m : Manifest) (ing : Ingress) : check :=
  on_some (find_first (λ l, negb (bool_decide (l ∈ CHAIN_LINKS))) (ing_chain ing)) (λ bad,
    Err (invalid m (quoted_str bad +:+ " in an ingress chain — expected one of " +:+
      join ", " CHAIN_LINKS))).

(** @ hlb-types/src/lib.rs:780-790 [validate_with_guide] *)
Definition prefix_shaped (prefix : string) : bool :=
  (1 <? String.length prefix)%nat && starts_with "/" prefix && negb (ends_with "/" prefix)
  && all_of (λ seg,
       negb (str_is_empty seg) && negb (seg ==? ".") && negb (seg ==? "..")
       && str_all (λ c, is_lower c || is_digit c || bool_decide (c ∈ ["-"%char; "_"%char; "."%char]))
            seg)
     (split_char "/" (default "" (strip_prefix "/" prefix))).

(** @ hlb-types/src/lib.rs:778-812 [validate_with_guide] *)
Definition check_path (m : Manifest) (prefixes : list PathRoute) (p : PathRoute) : check :=
  _ ← refuse_if (negb (prefix_shaped (pr_prefix p)))
    (invalid m ("path " +:+ quoted_str (pr_prefix p) +:+
      " — a prefix such as /notification: a slash, then lowercase letters, digits, - _ . and " +:+
      "slashes, with no slash at the end"));
  _ ← refuse_if (negb (any_of (λ c, co_name c ==? pr_companion p) (sp_companions (mf_spec m))))
    (invalid m ("path " +:+ pr_prefix p +:+ " leads to " +:+ quoted_str (pr_companion p) +:+
      ", which is none of its companions"));
  refuse_if ((pr_port p =? 0)%N || any_of (λ o, pr_prefix o ==? pr_prefix p) prefixes)
    (invalid m ("path " +:+ pr_prefix p +:+ " — declared twice, or on port 0")).

(** @ hlb-types/src/lib.rs:777-813 [validate_with_guide] *)
Definition check_paths (m : Manifest) (ing : Ingress) : check :=
  each_after (check_path m) [] (ing_paths ing).

(** @ hlb-types/src/lib.rs:817-831 [validate_with_guide] *)
Definition check_label (m : Manifest) (l : string) : check :=
  refuse_if (str_is_empty l
             || negb (str_all (λ c, is_lower c || is_digit c || bool_decide (c ∈ ["."%char; "-"%char])) l))
    (invalid m ("nodeLabel " +:+ quoted_str l +:+ " — lowercase letters, digits, dots and hyphens")).

(** @ hlb-types/src/lib.rs:817-819 [validate_with_guide] *)
Definition node_labels (m : Manifest) : list string :=
  omap id (sw_node_label (sp_swarm (mf_spec m)) :: (co_node_label <$> sp_companions (mf_spec m))).

(** @ hlb-types/src/lib.rs:835-849 [validate_with_guide] *)
Definition check_job (m : Manifest) (ids : list Job) (j : Job) : check :=
  refuse_if (negb (dns_name (job_id j)) || any_of (λ o, job_id o ==? job_id j) ids
             || (job_command j ==? []) || str_is_empty (job_does j))
    (invalid m ("job " +:+ quoted_str (job_id j) +:+
      " — an id of lowercase letters, digits and hyphens, once, with what it does and a command")).

(** @ hlb-types/src/lib.rs:856-861 [validate_with_guide] *)
Definition check_channel (m : Manifest) : check :=
  refuse_if (up_channel (sp_update (mf_spec m)) ==? Latest)
    (invalid m ("the " +:+ quoted_str "latest" +:+
      " channel is forbidden — use patch, minor or pin")).

(** @ hlb-types/src/lib.rs:863-866 [validate_with_guide] *)
Definition open_path_shaped (p : string) : bool :=
  starts_with "/" p && negb (has_whitespace p)
  && negb (contains_char "*" (trim_end_matches "*" p))
  && negb (str_is_empty (trim_end_matches "/" (trim_end_matches "*" p))).

(** @ hlb-types/src/lib.rs:862-874 [validate_with_guide] *)
Definition check_open_path (m : Manifest) (p : string) : check :=
  refuse_if (negb (open_path_shaped p))
    (invalid m ("openPaths — " +:+ quoted_str p +:+
      ": an absolute path below the root, `*` only at its end; a whole host is opened by `expose`")).

(** @ hlb-types/src/lib.rs:886-888 [validate_with_guide] *)
Definition auth_path_shaped (p : string) : bool :=
  starts_with "/" p && negb (has_whitespace p) && negb (contains_char "*" (trim_end_matches "*" p)).

(** @ hlb-types/src/lib.rs:875-899 [validate_with_guide] *)
Definition check_auth_route (m : Manifest) (route : AuthRoute) : check :=
  let refuse (why : string) := invalid m ("authRoutes — " +:+ why) in
  _ ← refuse_if (ar_paths route ==? []) (refuse "a route with no path limits nothing");
  _ ← each (λ p, refuse_if (negb (auth_path_shaped p))
        (refuse (quoted_str p +:+ ": an absolute path, `*` only at its end"))) (ar_paths route);
  on_some (ar_fails_with route) (λ code,
    refuse_if (negb ((400 <=? code) && (code <? 500))%N)
      (refuse ("failsWith " +:+ show_N code +:+
        ": a refusal is a 4xx — an app answering a wrong secret like a right one has no " +:+
        "failure code, and leaves it out"))).

(** @ hlb-types/src/lib.rs:900-917 [validate_with_guide] *)
Definition check_memory (m : Manifest) (s : string * option Memory) : check :=
  let '(who, memory) := s in
  on_some memory (λ mem,
    refuse_if (bytes_n (mem_limit mem) <? bytes_n (mem_reserve mem))%N
      (invalid m (who +:+ " reserves " +:+ bytes_to_string (mem_reserve mem) +:+
        " and is stopped at " +:+ bytes_to_string (mem_limit mem) +:+
        " — Swarm would place it on a node with room it can never use"))).

(** @ hlb-types/src/lib.rs:900-905 [validate_with_guide] *)
Definition memories (m : Manifest) : list (string * option Memory) :=
  ("the app", sw_memory (sp_swarm (mf_spec m)))
  :: ((λ c, (co_name c, co_memory c)) <$> sp_companions (mf_spec m)).

(** @ hlb-types/src/lib.rs:918-925 [validate_with_guide] *)
Definition check_maturation (m : Manifest) : check :=
  let days := up_maturation_days (sp_update (mf_spec m)) in
  refuse_if (days <? MIN_MATURATION_DAYS)%N
    (invalid m ("update.maturationDays is " +:+ show_N days +:+ " — never under " +:+
      show_N MIN_MATURATION_DAYS)).

(** ** What the catalog and a deployment add *)

(** @ hlb-types/src/lib.rs:1034-1039 [validate_catalog_images] *)
Definition digest_written (d : string) : bool :=
  match strip_prefix "sha256:" d with
  | Some h => (String.length h =? 64)%nat
      && str_all (λ b, is_digit b || ((97 <=? byte_of b) && (byte_of b <=? 102))%N
                       || ((65 <=? byte_of b) && (byte_of b <=? 70))%N) h
  | None => false
  end.

(** @ hlb-types/src/lib.rs:1027-1048 [validate_catalog_images] *)
Definition validate_catalog_images (m : Manifest) : check :=
  each (λ '(who, image),
    refuse_if (negb (if img_digest image is Some d then digest_written d else false))
      (invalid m (who +:+ "'s image " +:+ img_repo image +:+ ":" +:+ img_tag image +:+
        " has no digest — the catalog pins every image (hlb catalog images --apply writes it)")))
    (keep (λ '(_, image), negb (img_built_here image))
      (("the app", sp_image (mf_spec m))
       :: ((λ c, (co_name c, co_image c)) <$> sp_companions (mf_spec m)))).

(** @ hlb-types/src/lib.rs:1050-1069 [validate_catalog_memory] *)
Definition validate_catalog_memory (m : Manifest) : check :=
  each (λ '(who, memory),
    refuse_if (memory ==? None)
      (invalid m (who +:+ " declares no memory — the catalog reserves and limits every service " +:+
        "(memory: { reserve: 256M, limit: 1G })")))
    (("the app", sw_memory (sp_swarm (mf_spec m)))
     :: ((λ c, ("companion " +:+ co_name c, co_memory c)) <$> sp_companions (mf_spec m))).

(** @ hlb-types/src/lib.rs:2039-2050 [validate_pinned] *)
Definition validate_pinned (m : Manifest) : check :=
  refuse_if (negb (is_pinned (sp_image (mf_spec m))))
    (invalid m "deployment refused without a resolved digest").
