(* ===== verification/ValidateGuide.v ===== *)
(** * What a guide, an assertion and an access are refused for

    [crates/hlb-types/src/lib.rs], the second half: [validate_guide], the recovery
    sign-ins, the assertions and the access, and [validate_with_guide] whole. Reading and
    writing JSON is [serde_json]'s: [parse_json] gives the value a text holds, or what is
    wrong with it, and [json_text] the text of a value. *)

From S2P Require Import Prelude RustStr Rbac Capability Access Guide Binding Manifest Validate.

(** @ hlb-types/src/access.rs:74-75 [ROLE_TOKENS] *)
Definition ROLE_TOKENS : list string := ["role.id"; "role.name"; "role.group"].
(** @ hlb-types/src/access.rs:76-77 [QUOTA_TOKENS] *)
Definition QUOTA_TOKENS : list string := ["person.sub"; "quota"].
(** @ hlb-types/src/access.rs:136-137 [ADMIN_TOKENS] *)
Definition ADMIN_TOKENS : list string := ["person.sub"].
(** @ hlb-types/src/access.rs:375-376 [ACCOUNT_TOKENS] *)
Definition ACCOUNT_TOKENS : list string := ["account"].

(** ** Texts *)

(** What stands between braces once the opening ones are read: up to the closing ones, or
    to the end. *)
Definition to_closing (after : string) : string :=
  match find_str "}}" after with Some (inner, _) => inner | None => after end.

(** Every text that follows an opening pair of braces: the successive [rest]s of the
    [while let Some(at) = rest.find("{{")] loops. Each is shorter than the one before, so
    the length is fuel enough ([openings_go_enough]). *)
Fixpoint openings_go (fuel : nat) (opening rest : string) : list string :=
  match fuel with
  | O => []
  | S fuel =>
      match find_str opening rest with
      | Some (_, after) => after :: openings_go fuel opening after
      | None => []
      end
  end.
Definition openings (opening text : string) : list string :=
  openings_go (S (String.length text)) opening text.

Lemma openings_go_enough fuel1 fuel2 opening rest :
  opening ≠ "" → (String.length rest < fuel1)%nat → (String.length rest < fuel2)%nat →
  openings_go fuel1 opening rest = openings_go fuel2 opening rest.
Proof.
  intros Ho. revert fuel2 rest. induction fuel1 as [|f1 IH]; intros [|f2] rest H1 H2; try lia. cbn.
  destruct (find_str opening rest) as [[before after]|] eqn:E; [|done].
  apply find_str_shorter in E. destruct opening as [|c opening]; [done|].
  f_equal. apply IH; cbn in *; lia.
Qed.

(** The digits a text starts with. *)
Fixpoint leading (p : ascii → bool) (s : string) : string :=
  match s with
  | String c s => if p c then String c (leading p s) else ""
  | "" => ""
  end.

(** Each [$] and the number after it, when there is one a [usize] holds.
    @ hlb-types/src/lib.rs:1365-1373 [highest_parameter] *)
Fixpoint parameters (text : string) : list N :=
  match text with
  | "" => []
  | String c rest =>
      (if decide (c = "$"%char)
       then match parse_uint u64_max (leading is_digit rest) with Some n => [n] | None => [] end
       else [])
      ++ parameters rest
  end.

(** [Iterator::max]. *)
Fixpoint max_of (l : list N) : option N :=
  match l with
  | [] => None
  | n :: l => Some (match max_of l with Some k => N.max n k | None => n end)
  end.

(** @ hlb-types/src/lib.rs:1362-1375 [highest_parameter] *)
Definition highest_parameter (text : string) : option N := max_of (parameters text).

(** One opening of a run-time text. @ hlb-types/src/lib.rs:1386-1405 [check_run_tokens] *)
Definition check_opening (m : Manifest) (after : string) : result string () :=
  let inner := trim (to_closing after) in
  if starts_with "secret." inner || (inner ==? "domain") then Ok ()
  else
    match find_first (λ t, token_placeholder t ==? ("{{ " +:+ inner +:+ " }}")) all_tokens with
    | None => Err ("{{ " +:+ inner +:+ " }} is filled by nothing")
    | Some t =>
        on_some (token_requires t) (λ needed,
          refuse_if (negb (declares m needed))
            (token_placeholder t +:+ " needs the " +:+ quoted_str needed +:+
             " capability, which the app does not declare"))
    end.

(** @ hlb-types/src/lib.rs:1377-1408 [check_run_tokens] *)
Definition check_run_tokens (m : Manifest) (text : string) : result string () :=
  _ ← each (λ found, match found with
        | Ok _ => Ok ()
        | Err bad => Err (quoted_str bad +:+ " is no generated secret")
        end) (generated_secrets text);
  each (check_opening m) (openings "{{" text).

(** @ hlb-types/src/lib.rs:1293-1296 [validate_guide] *)
Definition one_statement (verb text : string) : bool :=
  starts_with verb (to_ascii_lowercase (trim_start text))
  && negb (contains_char ";" (trim_end_matches ";" (trim_end text))).

(** ** Signing in *)

(** @ hlb-types/src/lib.rs:1706-1737 [token_sign_in] *)
Definition token_sign_in (m : Manifest) (secret : string) (headers : gmap string string)
    : result string () :=
  match find_first (λ r, rl_secret r ==? secret) (sp_recovery (mf_spec m)) with
  | None => Err ("it signs in with " +:+ quoted_str secret +:+ ", which no `recovery` entry names")
  | Some r =>
      match rl_proof r with
      | None => Err ("it signs in with " +:+ quoted_str secret +:+
                     ", whose recovery entry says no `proof` to sign in by")
      | Some proof =>
          _ ← refuse_if (si_basic proof)
            ("it signs in with " +:+ quoted_str secret +:+
             ", whose proof is HTTP Basic: a request carries a token, never the password");
          refuse_if (negb (any_of (contains "{{ token }}") (btree_values headers)))
            ("it signs in with " +:+ quoted_str secret +:+ " and sends the token in no header")
      end
  end.

(** @ hlb-types/src/lib.rs:1739-1759 [token_headers] *)
Definition token_headers (headers : gmap string string) (signed_in : bool) : result string () :=
  each (λ '(name, value),
    each (λ after,
      let inner := to_closing after in
      refuse_if (negb (inner ==? " token ") || negb signed_in)
        ("header " +:+ name +:+ " holds {{" +:+ inner +:+
         "}}: a header takes `{{ token }}`, and only from a `signIn`"))
      (openings "{{" value)) (btree_entries headers).

(** In the order of the value's texts; only whether one of them passes is asked.
    @ hlb-types/src/lib.rs:1560-1567 [json_strings] *)
Fixpoint json_strings (v : Json) : list string :=
  match v with
  | JString s => [s]
  | JArray a => (fix go l := match l with [] => [] | x :: l => json_strings x ++ go l end) a
  | JObject o => (fix go l := match l with [] => [] | (_, x) :: l => json_strings x ++ go l end) o
  | JNull | JBool _ | JNumber _ => []
  end.

Definition is_object (v : Json) : bool := if v is JObject _ then true else false.

Section json.
Context (parse_json : string → result string Json) (json_text : Json → string).

(** @ hlb-types/src/lib.rs:1514-1520 [validate_sign_in] *)
Definition flat_object (v : Json) : bool :=
  match v with
  | JObject o => all_of (λ '(_, x), if x is JString _ then true else false) o
  | _ => false
  end.

(** @ hlb-types/src/lib.rs:1541-1550 [validate_sign_in] *)
Definition unknown_token (t : string) : bool :=
  any_of (λ after, negb (starts_with " username }}" after || starts_with " password }}" after))
    (openings "{{" t).

(** @ hlb-types/src/lib.rs:1491-1558 [validate_sign_in] *)
Definition validate_sign_in (m : Manifest) (r : RecoveryLogin) : result string () :=
  match rl_proof r with
  | None => Err "none — a password nobody signs in with is not known to open anything"
  | Some p =>
      _ ← refuse_if (sp_ingress (mf_spec m) ==? []) "the app has no ingress port to sign in on";
      _ ← refuse_if (negb (starts_with "/" (si_path p)) || negb (starts_with "/" (si_pointer p)))
        "its path and its pointer start with /";
      body ← map_err (λ e, "its body is not JSON: " +:+ e) (parse_json (si_body p));
      let strings := json_strings body in
      let says (token : string) := any_of (contains token) strings in
      _ ← (if si_form p then
             _ ← refuse_if (si_basic p) "a form or HTTP Basic, not both";
             refuse_if (negb (flat_object body)) "a form's body is one JSON object of strings"
           else Ok ());
      if si_basic p then
        _ ← refuse_if (rl_username r ==? None) "HTTP Basic needs the username the deposit holds";
        refuse_if (any_of (contains "{{") strings)
          "under HTTP Basic the body sends neither {{ username }} nor {{ password }}"
      else
        _ ← refuse_if (negb (says "{{ password }}")) "its body sends no {{ password }}";
        _ ← refuse_if (negb (bool_decide (is_Some (rl_username r)) ==? says "{{ username }}"))
          (if bool_decide (is_Some (rl_username r))
           then "its body sends no {{ username }}, which the deposit holds"
           else "its body sends a {{ username }}, and the deposit holds none");
        _ ← refuse_if (any_of unknown_token strings)
          "only {{ username }} and {{ password }} are filled";
        refuse_if (any_of (λ '(k, v), contains "{{" k || contains "{{" v) (btree_entries (si_headers p)))
          "a header is sent as written: no {{ }} in it"
  end.

(** ** Recovery *)

(** @ hlb-types/src/lib.rs:1419-1431 [validate_recovery] *)
Definition recovery_texts (m : Manifest) (g : Guide) : list string :=
  substituted (mf_spec m) ++ sp_command (mf_spec m)
  ++ ((guide_steps g ≫= step_automate) ≫= automation_texts).

(** @ hlb-types/src/lib.rs:1432-1436 [validate_recovery] *)
Definition generated_names (texts : list string) : list string :=
  gs_name <$> oks (texts ≫= generated_secrets).

(** @ hlb-types/src/lib.rs:1449-1462 [validate_recovery] *)
Definition check_username (m : Manifest) (refuse : string → Error) (username : string) : check :=
  let smtp := any_of (λ c, match c with Smtp _ => true | _ => false end) (sp_requires (mf_spec m)) in
  each (λ after,
    let inner := trim (to_closing after) in
    _ ← refuse_if (negb (inner ==? "smtp.from"))
      (refuse ("the username's {{ " +:+ inner +:+
         " }} is not filled by a deposit — only {{ smtp.from }} is"));
    refuse_if (negb smtp) (refuse ("{{ smtp.from }} needs the " +:+ quoted_str "smtp" +:+ " capability")))
    (openings "{{" username).

(** @ hlb-types/src/lib.rs:1442-1468 [validate_recovery] *)
Definition check_recovery (m : Manifest) (generated : list string) (r : RecoveryLogin) : check :=
  let refuse (why : string) := invalid m ("recovery — " +:+ why) in
  _ ← refuse_if (negb (bool_decide (rl_secret r ∈ generated)))
    (refuse (quoted_str (rl_secret r) +:+ " is generated nowhere — no `{{ secret." +:+
       rl_secret r +:+ " }}` in the manifest or its guide"));
  _ ← check_username m refuse (default "" (rl_username r));
  _ ← refuse_if (if rl_path r is Some p then negb (starts_with "/" p) else false)
    (refuse ("path of " +:+ quoted_str (rl_secret r) +:+ " starts with /"));
  map_err (λ why, refuse ("proof of " +:+ quoted_str (rl_secret r) +:+ ": " +:+ why))
    (validate_sign_in m r).

(** @ hlb-types/src/lib.rs:1470-1487 [validate_recovery] *)
Definition check_read_by_hand (m : Manifest) (generated : list string) (step : GuideStep) : check :=
  each (λ rest,
    let name := leading dns_char rest in
    refuse_if (bool_decide (name ∈ generated)
               && negb (any_of (λ r, rl_secret r ==? name) (sp_recovery (mf_spec m))))
      (invalid m ("recovery — guide step " +:+ quoted_str (step_id step) +:+
        " signs a person in with " +:+ quoted_str name +:+ ", which is no recovery sign-in — " +:+
        "declare it under `recovery`, or the emergency vault never holds it")))
    (openings ("hlb secret-get " +:+ app_name m +:+ "-") (step_body step)).

(** @ hlb-types/src/lib.rs:1410-1489 [validate_recovery] *)
Definition validate_recovery (m : Manifest) (g : Guide) : check :=
  let generated := generated_names (recovery_texts m g) in
  _ ← each (check_recovery m generated) (sp_recovery (mf_spec m));
  each (check_read_by_hand m generated) (guide_steps g).

(** ** The guide's steps *)

(** @ hlb-types/src/lib.rs:1081-1086 [validate_guide] *)
Definition step_refused (m : Manifest) (step : GuideStep) (why : string) : Error :=
  invalid m ("guide step " +:+ quoted_str (step_id step) +:+ " — " +:+ why).

(** @ hlb-types/src/lib.rs:1087-1122 [validate_guide] *)
Definition check_recheck (m : Manifest) (step : GuideStep) : check :=
  every ← map_err (step_refused m step) (recheck_secs step);
  on_some every (λ every,
    _ ← refuse_if (every <? MIN_RECHECK_S)%Z
      (step_refused m step ("recheck " +:+ default "" (step_recheck step) +:+
        ": the pass that re-checks runs once a night, so never sooner than 24h"));
    _ ← refuse_if (negb (step_phase step ==? PreInstall))
      (step_refused m step ("a recheck re-reads a prerequisite (a DNS record, a router); a " +:+
        "setting of the running app is judged nightly by `spec.assertions`"));
    refuse_if (match step_verify step with Attest | VerifyExec _ _ => true | _ => false end)
      (step_refused m step ("a recheck of a `" +:+ verify_kind (step_verify step) +:+
        "` step checks nothing: it has no check the controller can run"))).

(** @ hlb-types/src/lib.rs:1145-1179 [validate_guide] *)
Definition check_restore_automation (m : Manifest) (step : GuideStep) (a : Automation) : check :=
  _ ← match a with
      | AutoEnv _ => Err (step_refused m step
          "a restore runs `exec` and `api` steps; `env` is a deploy's, read by nothing here")
      | AutoSql _ _ _ _ => Err (step_refused m step
          "a restore runs `exec` and `api` steps; `sql` is an install's, read by nothing here")
      | AutoExec _ _ _ _ | AutoApi _ _ _ _ _ => Ok ()
      end;
  let probed := match a with
                | AutoExec _ _ probe probe_matches =>
                    bool_decide (is_Some probe) || bool_decide (is_Some probe_matches)
                | AutoApi _ _ _ probe _ => bool_decide (is_Some probe)
                | AutoEnv _ | AutoSql _ _ _ _ => false
                end in
  refuse_if probed
    (step_refused m step ("a post-restore step runs on every restore: a probe saying it is done " +:+
      "already would read what the restore just replaced")).

(** @ hlb-types/src/lib.rs:1123-1181 [validate_guide] *)
Definition check_post_restore (m : Manifest) (step : GuideStep) : check :=
  if step_phase step ==? PostRestore then
    _ ← refuse_if (is_blocking step)
      (step_refused m step "a post-restore step blocks nothing: the restore is done when it runs");
    _ ← refuse_if (is_automatic (step_verify step))
      (step_refused m step ("a post-restore step is judged by its automation's exit; its `verify` " +:+
        "would be read by nothing"));
    _ ← refuse_if (negb (step_after step ==? []))
      (step_refused m step ("post-restore steps run in the order they are written; `after` would " +:+
        "be read by nothing"));
    each (check_restore_automation m step) (step_automate step)
  else Ok ().

(** @ hlb-types/src/lib.rs:1182-1193 [validate_guide] *)
Definition check_after (m : Manifest) (g : Guide) (step : GuideStep) : check :=
  each (λ before,
    refuse_if (any_of (λ s, (step_id s ==? before) && (step_phase s ==? PostRestore)) (guide_steps g)
               && at_install (step_phase step))
      (step_refused m step ("it comes after " +:+ quoted_str before +:+
        ", a post-restore step no install runs"))) (step_after step).

(** @ hlb-types/src/lib.rs:1203-1211 [validate_guide] *)
Definition check_exec (m : Manifest) (step : GuideStep) (service : option string) : check :=
  on_some service (λ c,
    refuse_if (negb (any_of (λ k, co_name k ==? c) (sp_companions (mf_spec m))))
      (step_refused m step ("its `exec` runs in " +:+ quoted_str c +:+ ", which is none of " +:+
        app_name m +:+ "'s companions"))).

(** @ hlb-types/src/lib.rs:1251-1271 [validate_guide] *)
Definition check_call (m : Manifest) (step : GuideStep) (c : ApiCall) : check :=
  _ ← refuse_if (negb (starts_with "/" (call_path c)))
    (step_refused m step ("path " +:+ quoted_str (call_path c) +:+ " starts with /"));
  _ ← on_some (call_body c) (λ body, map_err (step_refused m step) (check_run_tokens m body));
  if call_merge c then
    let object := match call_body c with
                  | Some b => match parse_json b with Ok v => is_object v | Err _ => false end
                  | None => false
                  end in
    refuse_if (negb object || (to_ascii_lowercase (call_verb c) ==? "get"))
      (step_refused m step (call_verb c +:+ " " +:+ call_path c +:+
        " merges: a body that is one JSON object, sent by another verb than the GET it is merged over"))
  else Ok ().

Definition json_ok (text : string) : bool := is_ok (parse_json text).

(** @ hlb-types/src/lib.rs:1213-1272 [validate_guide] *)
Definition check_api (m : Manifest) (step : GuideStep) (port : option N) (sign_in : option string)
    (headers : gmap string string) (probe : option ApiProbe) (calls : list ApiCall) : check :=
  _ ← on_some sign_in (λ secret,
        _ ← refuse_if (step_phase step ==? PostRestore)
          (step_refused m step "a restore signs in nowhere yet");
        map_err (step_refused m step) (token_sign_in m secret headers));
  _ ← map_err (step_refused m step) (token_headers headers (bool_decide (is_Some sign_in)));
  _ ← refuse_if (calls ==? [])
    (step_refused m step "an `api` automation with no call does nothing, and says it did");
  _ ← refuse_if ((port ==? None) && (sp_ingress (mf_spec m) ==? []))
    (step_refused m step "an `api` call with no port, and no ingress to take one from");
  _ ← on_some probe (λ p,
        refuse_if (negb (starts_with "/" (probe_pointer p)) || negb (json_ok (probe_equals p)))
          (step_refused m step ("probe " +:+ probe_pointer p +:+ " = " +:+ probe_equals p +:+
            " — a JSON pointer, and a value written as JSON")));
  each (check_call m step) calls.

(** @ hlb-types/src/lib.rs:1292-1318 [validate_guide] *)
Definition check_sql_text (m : Manifest) (step : GuideStep) (given : nat)
    (t : string * string * string * string) : check :=
  let '(what, text, verb, shown) := t in
  _ ← refuse_if (negb (one_statement verb text))
    (step_refused m step ("the " +:+ what +:+ " is one " +:+ shown));
  _ ← refuse_if (contains "{{" text)
    (step_refused m step ("the " +:+ what +:+ " takes its values as $1, $2…, never as a token"));
  on_some (highest_parameter text) (λ n,
    refuse_if (N.of_nat given <? n)%N
      (step_refused m step ("the " +:+ what +:+ " reads $" +:+ show_N n +:+ ", and " +:+
        show_nat given +:+ " params are given"))).

(** @ hlb-types/src/lib.rs:1273-1327 [validate_guide] *)
Definition check_sql (m : Manifest) (step : GuideStep) (statement : string) (params : list string)
    (probe : string) : check :=
  let postgres := any_of (λ c, match c with Database Postgres _ _ _ => true | _ => false end)
                    (sp_requires (mf_spec m)) in
  _ ← refuse_if (negb postgres)
    (step_refused m step ("an `sql` automation writes in the app's PostgreSQL database, which it " +:+
      "does not require"));
  _ ← each (check_sql_text m step (length params))
        [("statement", statement, "update ", "UPDATE"); ("probe", probe, "select ", "SELECT")];
  _ ← refuse_if (negb (highest_parameter statement ==? Some (N.of_nat (length params))))
    (step_refused m step "the statement binds every param, $1 to the last");
  each (λ p, map_err (step_refused m step) (check_run_tokens m p)) params.

(** @ hlb-types/src/lib.rs:1194-1329 [validate_guide] *)
Definition check_automation (m : Manifest) (step : GuideStep) (a : Automation) : check :=
  match a with
  | AutoEnv _ => Ok ()
  | AutoExec _ service _ _ => check_exec m step service
  | AutoApi port sign_in headers probe calls => check_api m step port sign_in headers probe calls
  | AutoSql statement params probe _ => check_sql m step statement params probe
  end.

(** @ hlb-types/src/lib.rs:1330-1357 [validate_guide] *)
Definition check_verify (m : Manifest) (step : GuideStep) : check :=
  match step_verify step with
  | VerifyHttp _ expect_status expect_json =>
      _ ← on_some expect_json (λ j,
            refuse_if (negb (starts_with "/" (jv_pointer j)) || negb (json_ok (jv_equals j)))
              (step_refused m step ("expectJson " +:+ jv_pointer j +:+ " = " +:+ jv_equals j +:+
                " — a JSON pointer, and a value written as JSON")));
      let success := any_of (λ c, (200 <=? c) && (c <? 300))%N expect_status in
      refuse_if (negb (step_phase step ==? PreInstall) && success && (expect_json ==? None))
        (step_refused m step ("a 2xx proves the app answers, which its install already established " +:+
          "— read what the step changes with `expectJson`, or let a person attest it"))
  | _ => Ok ()
  end.

(** @ hlb-types/src/lib.rs:1080-1358 [validate_guide] *)
Definition check_step (m : Manifest) (g : Guide) (step : GuideStep) : check :=
  _ ← check_recheck m step;
  _ ← check_post_restore m step;
  _ ← check_after m g step;
  _ ← each (check_automation m step) (step_automate step);
  check_verify m step.

(** @ hlb-types/src/lib.rs:1072-1360 [validate_guide] *)
Definition validate_guide (m : Manifest) (g : Guide) : check :=
  _ ← each (check_step m g) (guide_steps g);
  validate_recovery m g.

(** ** Assertions *)

(** @ hlb-types/src/lib.rs:1578-1586 [validate_assertions] *)
Definition database_names (m : Manifest) : list (option string) :=
  omap (λ c, match c with Database _ name _ _ => Some name | _ => None end) (sp_requires (mf_spec m)).

Definition assertion_refused (m : Manifest) (id why : string) : Error :=
  invalid m ("assertion " +:+ quoted_str id +:+ " — " +:+ why).

(** @ hlb-types/src/lib.rs:1616-1659 [validate_assertions] *)
Definition check_assert_http (m : Manifest) (id path : string) (port : option N) (status : list N)
    (pointer : option string) (equals : option Json) (host : option string) : check :=
  let refuse := assertion_refused m id in
  _ ← refuse_if (if host is Some h
                 then str_is_empty h
                      || negb (str_all (λ c, is_alnum c || bool_decide (c ∈ ["."%char; "-"%char])) h)
                 else false)
    (refuse "host: a name, letters, digits, dots and hyphens");
  _ ← refuse_if (negb (starts_with "/" path))
    (refuse ("path " +:+ quoted_str path +:+ " starts with /: it is read on the app's own address"));
  _ ← refuse_if ((port ==? None) && (sp_ingress (mf_spec m) ==? []))
    (refuse "no port, and no ingress to take one from");
  _ ← refuse_if (status ==? []) (refuse "no expected status: every answer would fail it");
  match pointer, equals with
  | Some p, Some _ =>
      refuse_if (negb (starts_with "/" p))
        (refuse ("pointer " +:+ quoted_str p +:+ " is a JSON pointer, starting with /"))
  | Some _, None | None, Some _ =>
      Err (refuse "`pointer` and `equals` go together: one without the other reads nothing")
  | None, None => Ok ()
  end.

(** @ hlb-types/src/lib.rs:1660-1668 [validate_assertions] *)
Definition check_assert_env (m : Manifest) (id name equals : string) : check :=
  let refuse := assertion_refused m id in
  match sp_env (mf_spec m) !! name with
  | None => Err (refuse (name +:+ " is not in spec.env: the assertion would check the image's " +:+
                 "default, which nothing here decides"))
  | Some v => refuse_if (negb (v ==? equals))
      (refuse ("spec.env sets " +:+ name +:+ " to " +:+ quoted_str v +:+ ", the assertion expects " +:+
        quoted_str equals +:+ ": it could never pass"))
  end.

(** @ hlb-types/src/lib.rs:1669-1700 [validate_assertions] *)
Definition check_assert_sql (m : Manifest) (id query : string) (database : option string) : check :=
  let refuse := assertion_refused m id in
  let databases := database_names m in
  _ ← refuse_if (databases ==? [])
    (refuse "an SQL assertion reads the app's own database, and it requires none");
  _ ← match database with
      | None => refuse_if (1 <? length databases)%nat
          (refuse "the app has several databases: say which with `database`")
      | Some d => refuse_if (negb (any_of (λ n, default (app_name m) n ==? d) databases))
          (refuse ("database " +:+ quoted_str d +:+ " is not one the app requires"))
      end;
  refuse_if (negb (one_statement "select " query)) (refuse "an SQL assertion is one SELECT").

(** @ hlb-types/src/lib.rs:1588-1702 [validate_assertions] *)
Definition check_assertion (m : Manifest) (seen : list Assertion) (a : Assertion) : check :=
  let id := as_id a in
  let refuse := assertion_refused m id in
  _ ← refuse_if (negb (dns_name id))
    (refuse "an id is lowercase letters, digits and hyphens: results are stored under it");
  _ ← refuse_if (any_of (λ o, as_id o ==? id) seen)
    (refuse "declared twice: the second result would overwrite the first");
  _ ← refuse_if (str_is_empty (trim (as_holds a)))
    (refuse "`holds` says what is true while it passes — the inbox has nothing else to say");
  match as_check a with
  | CheckHttp path port status pointer equals _ host =>
      check_assert_http m id path port status pointer equals host
  | CheckEnv name equals => check_assert_env m id name equals
  | CheckSql query database _ => check_assert_sql m id query database
  end.

(** @ hlb-types/src/lib.rs:1569-1704 [validate_assertions] *)
Definition validate_assertions (m : Manifest) : check :=
  each_after (check_assertion m) [] (sp_assertions (mf_spec m)).

(** ** Access *)

(** @ hlb-types/src/lib.rs:1803-1817 [validate_accounts] *)
Definition check_account_path (t : string * string) : result string () :=
  let '(what, path) := t in
  let tokens := placeholders path in
  _ ← on_some (find_first (λ t, negb (bool_decide (t ∈ ACCOUNT_TOKENS))) tokens) (λ t,
        Err (what +:+ "'s path: {{ " +:+ t +:+ " }} is filled by nothing — " +:+
             join ", " ACCOUNT_TOKENS));
  refuse_if (negb (bool_decide ("account" ∈ tokens)))
    (what +:+ "'s path " +:+ quoted_str path +:+ " names no {{ account }}").

(** @ hlb-types/src/lib.rs:1761-1824 [validate_accounts] *)
Definition validate_accounts (m : Manifest) (a : Accounts) : result string () :=
  let 'AccountsHttp sign_in headers links read disabled write := accounts_apply a in
  _ ← refuse_if (sp_ingress (mf_spec m) ==? []) "no ingress to take the API's port from";
  _ ← token_sign_in m sign_in headers;
  _ ← token_headers headers true;
  _ ← each (λ '(what, pointer),
        refuse_if (negb (str_is_empty pointer) && negb (starts_with "/" pointer))
          (what +:+ "'s pointer " +:+ quoted_str pointer +:+ " is a JSON pointer: " +:+
           quoted_str "" +:+ " or starting with /"))
        [("links", ja_pointer links); ("read", ja_pointer read); ("disabled", disabled)];
  _ ← refuse_if (str_is_empty disabled) "`disabled` points at the flag inside the object read";
  _ ← refuse_if (negb (bool_decide (aw_verb write ∈ ["POST"; "PUT"; "PATCH"])))
    ("write's verb " +:+ quoted_str (aw_verb write) +:+ " — POST, PUT or PATCH");
  _ ← refuse_if (negb (placeholders (ja_path links) ==? []))
    ("links' path " +:+ quoted_str (ja_path links) +:+ " is one request, filled by nothing");
  _ ← each check_account_path [("read", ja_path read); ("write", aw_path write)];
  each (λ path, refuse_if (negb (starts_with "/" path))
    ("path " +:+ quoted_str path +:+ " starts with /")) [ja_path links; ja_path read; aw_path write].

(** @ hlb-types/src/lib.rs:1865-1903 [validate_access] *)
Definition check_admins (m : Manifest) (refuse : string → Error) (floor : Role) (admins : Admins)
    : check :=
  _ ← refuse_if (negb (bool_decide (role_le floor (adm_level admins))))
    (refuse ("admins at " +:+ quoted_str (role_as_str (adm_level admins)) +:+ ", below the floor " +:+
       quoted_str (role_as_str floor) +:+ ": no allowed role is there"));
  _ ← refuse_if (str_is_empty (trim (adm_means admins)))
    (refuse "admins.means says what administering the app gives");
  on_some (adm_apply admins) (λ how,
    _ ← refuse_if ((aa_grant how ==? []) || (aa_revoke how ==? []))
      (refuse "admins.apply grants and revokes, each by a command");
    _ ← on_some (aa_service how) (λ s,
          refuse_if (negb (any_of (λ c, co_name c ==? s) (sp_companions (mf_spec m))))
            (refuse ("admins.apply runs in " +:+ quoted_str s +:+ ", which is none of its companions")));
    each (λ t, refuse_if (negb (bool_decide (t ∈ ADMIN_TOKENS)))
      (refuse ("admins.apply: {{ " +:+ t +:+ " }} is filled by nothing — " +:+ join ", " ADMIN_TOKENS)))
      (placeholders (join " " (aa_grant how ++ aa_revoke how)))).

(** @ hlb-types/src/lib.rs:1909-1924 [validate_access] *)
Definition check_claim_name (refuse : string → Error) (name : string) : check :=
  _ ← refuse_if (str_is_empty name
                 || negb (str_all (λ c, is_lower c || is_digit c || bool_decide (c = "_"%char)) name))
    (refuse ("claim " +:+ quoted_str name +:+ " — lowercase letters, digits and underscores"));
  refuse_if (bool_decide (name ∈ RESERVED_CLAIMS))
    (refuse ("claim " +:+ quoted_str name +:+
       " is PocketID's own: a custom one would be refused or ignored")).

(** @ hlb-types/src/lib.rs:1930-1963 [validate_access] *)
Definition check_claim (refuse : string → Error) (floor : Role) (t : string * Claim) : check :=
  let '(name, claim) := t in
  match by_level claim, claim_json claim with
  | Some levels, None =>
      _ ← refuse_if (negb (any_of (λ r, bool_decide (role_le r floor) && bool_decide (is_Some (levels !! r)))
                             all_roles))
        (refuse ("claim " +:+ quoted_str name +:+ " has no value at the floor " +:+
           quoted_str (role_as_str floor) +:+ ": a role allowed in would get none"));
      refuse_if (any_of (λ '(_, v), str_is_empty (trim v)) (map_to_list levels))
        (refuse ("claim " +:+ quoted_str name +:+ " has an empty value"))
  | None, Some v =>
      each (λ t, refuse_if (negb (bool_decide (t ∈ ROLE_TOKENS)))
        (refuse ("claim " +:+ quoted_str name +:+ ": {{ " +:+ t +:+ " }} is filled by nothing — " +:+
           join ", " ROLE_TOKENS))) (placeholders (json_text v))
  | _, _ => Err (refuse ("claim " +:+ quoted_str name +:+ " is `byLevel` or `json`, exactly one"))
  end.

(** The text of what applies a quota. @ hlb-types/src/lib.rs:1968-2024 [validate_access] *)
Definition quota_text (m : Manifest) (refuse : string → Error) (apply_ : option QuotaApply)
    : result Error string :=
  match apply_ with
  | None => Ok ""
  | Some (QuotaExec command _) =>
      _ ← refuse_if (command ==? []) (refuse "quota.apply runs no command");
      Ok (join " " command)
  | Some (QuotaSql statement database _) =>
      let databases := default (app_name m) <$> database_names m in
      _ ← refuse_if (databases ==? [])
        (refuse "quota.apply's statement needs a database the app requires");
      _ ← match database with
          | None => refuse_if (1 <? length databases)%nat
              (refuse "the app has several databases: say which with `database`")
          | Some d => refuse_if (negb (bool_decide (d ∈ databases)))
              (refuse ("database " +:+ quoted_str d +:+ " is not one the app requires"))
          end;
      _ ← refuse_if (negb (one_statement "update " statement))
        (refuse "quota.apply's statement is one UPDATE");
      _ ← refuse_if (negb (contains "'{{ person.sub }}'" statement))
        (refuse "quota.apply's statement takes the subject as '{{ person.sub }}', quoted");
      Ok statement
  end.

(** @ hlb-types/src/lib.rs:1964-2035 [validate_access] *)
Definition check_quota (m : Manifest) (refuse : string → Error) (q : Quota) : check :=
  _ ← refuse_if (negb (bool_decide (is_Some (quota_claim q)))
                 && negb (bool_decide (is_Some (quota_apply q))))
    (refuse "a quota with no claim and nothing to apply it reaches nobody");
  text ← quota_text m refuse (quota_apply q);
  let used := placeholders text in
  _ ← on_some (find_first (λ t, negb (bool_decide (t ∈ QUOTA_TOKENS))) used) (λ t,
        Err (refuse ("quota.apply: {{ " +:+ t +:+ " }} is filled by nothing — " +:+
               join ", " QUOTA_TOKENS)));
  refuse_if (bool_decide (is_Some (quota_apply q))
             && any_of (λ t, negb (bool_decide (t ∈ used))) QUOTA_TOKENS)
    (refuse ("quota.apply takes both {{ person.sub }} and {{ quota }}: without one it sets " +:+
       "nobody's, or nothing")).

(** @ hlb-types/src/lib.rs:1835-1838 [validate_access] *)
Definition sso_mode (m : Manifest) : option SsoMode :=
  find_map (λ c, match c with Sso mode _ => Some mode | _ => None end) (sp_requires (mf_spec m)).

(** @ hlb-types/src/lib.rs:1826-2037 [validate_access] *)
Definition validate_access (m : Manifest) : check :=
  on_some (sp_access (mf_spec m)) (λ a,
    let refuse (why : string) := invalid m ("access — " +:+ why) in
    let native := sso_mode m ==? Some SsoNative in
    _ ← refuse_if (match sso_mode m with
                   | Some (SsoNative | SsoProxyOnly | SsoProxyHeader) => false
                   | _ => true
                   end)
      (refuse "the app signs nobody in through PocketID: no role would ever be checked");
    _ ← refuse_if (negb native
                   && (negb (bool_decide (dom (access_claims a) = ∅))
                       || bool_decide (is_Some (access_quota a))
                       || bool_decide (is_Some (access_members a))
                       || bool_decide (is_Some (access_accounts a))))
      (refuse ("claims, quotas, members and accounts reach an app through its own OIDC client: " +:+
         "behind the portal it never sees them"));
    _ ← on_some (access_accounts a) (λ accounts,
          map_err (λ why, refuse ("accounts.apply: " +:+ why)) (validate_accounts m accounts));
    _ ← on_some (access_admins a) (check_admins m refuse (access_floor a));
    let quota_claim_name := qc_name <$> (access_quota a ≫= quota_claim) in
    _ ← each (check_claim_name refuse)
          (btree_keys (access_claims a) ++ match quota_claim_name with Some n => [n] | None => [] end);
    _ ← refuse_if (if quota_claim_name is Some q then bool_decide (is_Some (access_claims a !! q)) else false)
      (refuse "the quota's claim is also in `claims`: one would overwrite the other");
    _ ← each (check_claim refuse (access_floor a)) (btree_entries (access_claims a));
    on_some (access_quota a) (check_quota m refuse)).

(** ** The whole *)

(** @ hlb-types/src/lib.rs:269-927 [validate_with_guide] *)
Definition validate_with_guide (m : Manifest) (g : Guide) : check :=
  let spec := mf_spec m in
  let texts := texts_of m g in
  let used := used_tokens texts in
  _ ← check_ports m;
  _ ← each (check_service_tmpfs m) (services m);
  _ ← each (check_signer m) (images m);
  _ ← validate_downloads m;
  _ ← each (check_redirects m) (sp_requires spec);
  _ ← each (check_token m) used;
  _ ← check_person m used;
  _ ← each (check_read m texts used) (sp_requires spec);
  _ ← declared_and_read m used;
  _ ← check_app_name m;
  _ ← each (check_generated m) (substituted spec);
  _ ← each (check_files m) (service_files m);
  _ ← check_shared_env m;
  _ ← each (check_argument m) (commands m);
  _ ← check_processes m;
  _ ← each_after (check_companion_name m) [] (sp_companions spec);
  _ ← each (check_foreign_volume m) (sp_requires spec);
  _ ← each (check_companion_copy m) (sp_companions spec);
  _ ← each (check_copy m) (copies m);
  _ ← each (check_tier m) (sp_requires spec);
  _ ← each (check_chain m) (sp_ingress spec);
  _ ← each (check_paths m) (sp_ingress spec);
  _ ← each (check_label m) (node_labels m);
  _ ← each_after (check_job m) [] (sp_jobs spec);
  _ ← validate_assertions m;
  _ ← validate_access m;
  _ ← check_channel m;
  _ ← each (check_open_path m) (sp_ingress spec ≫= ing_open_paths);
  _ ← each (check_auth_route m) (sp_ingress spec ≫= ing_auth_routes);
  _ ← each (check_memory m) (memories m);
  check_maturation m.

(** @ hlb-types/src/lib.rs:262-267 [validate] *)
Definition validate (m : Manifest) : check := validate_with_guide m default_guide.

End json.
