(* ===== verification/Resolver.v ===== *)
(** * The capability resolver

    [crates/hlb-resolver/src/lib.rs]: a validated manifest, its guide and the parameters
    of the install become an ordered plan. Each block of [resolve_with_guide] is a
    definition here, in the order of the source; [resolve_validated] is the body after
    [validate_with_guide] has accepted the manifest. *)

From S2P Require Import Prelude RustStr Validate ValidateGuide Access Capability Guide Binding Manifest Plan.

(** @ hlb-resolver/src/lib.rs:19-38 [Error] *)
Inductive Error :=
| InvalidManifest (e : Validate.Error)
| MissingParam (name : string)
| Unsupported (app reason : string)
| UnknownTimezone (zone : string).

#[export] Instance Error_eq_dec : EqDecision Error.
Proof. solve_decision. Defined.

(** @ hlb-resolver/src/lib.rs:42-48 [hint] *)
Definition hint (param : string) : string :=
  if param ==? "timezone" then ": hlb config timezone Europe/Paris (your own zone)" else "".

(** @ hlb-resolver/src/lib.rs:50-61 [InstallParams] *)
Record InstallParams := {
  ip_domain : option string;
  ip_mail_domain : option string;
  ip_timezone : option string;
  ip_health_timeout_secs : N }.

(** @ hlb-resolver/src/lib.rs:63-72 [InstallParams::default] *)
Definition default_params : InstallParams :=
  {| ip_domain := None; ip_mail_domain := None; ip_timezone := None;
     ip_health_timeout_secs := 120 |}.

(** @ hlb-resolver/src/lib.rs:74-81 [InstallParams::with_domain] *)
Definition with_domain (domain : string) : InstallParams :=
  {| ip_domain := Some domain; ip_mail_domain := None; ip_timezone := None;
     ip_health_timeout_secs := 120 |}.

(** @ hlb-resolver/src/lib.rs:83-89 [PORTAL_CALLBACK] *)
Definition PORTAL_CALLBACK : string := "/oauth2/callback".

(** @ hlb-resolver/src/lib.rs:474-477 [GUIDE_VARS] *)
Definition GUIDE_VARS : list string := ["domain"; "base_domain"].

(** The sum and the product are of [u64]: they wrap.
    @ hlb-resolver/src/lib.rs:479-489 [wait_for] *)
Definition wait_for (probe : option Healthcheck) (params : InstallParams) : N :=
  match probe with
  | None => ip_health_timeout_secs params
  | Some h => N.max (ip_health_timeout_secs params)
                (wrap_u64 (hc_start_period_secs h + wrap_u64 (hc_interval_secs h * hc_retries h)))
  end.

(** @ hlb-resolver/src/lib.rs:491-506 [domain_vars] *)
Definition domain_vars (params : InstallParams) : list (string * string) :=
  match ip_domain params with
  | None => []
  | Some d =>
      let base := match split_once "." d with
                  | Some (_, rest) => if contains_char "." rest then rest else d
                  | None => d
                  end in
      [("domain", d); ("base_domain", base)]
  end.

(** @ hlb-resolver/src/lib.rs:508-511 [render_guide] *)
Definition render_guide (template : string) (vars : list (string * string)) : string :=
  render template vars.

(** @ hlb-resolver/src/lib.rs:540-543 [resolve_capability] *)
Definition generates (secret : string) (a : Action) : bool :=
  match a with GenerateSecret name _ => name ==? secret | _ => false end.

(** A secret generated once, however many ask for it.
    @ hlb-resolver/src/lib.rs:532-550 [resolve_capability] *)
Definition generate_once (plan : Plan) (secret purpose : string) : Plan :=
  if any_of (generates secret) (actions plan) then plan
  else push plan (GenerateSecret secret purpose).

(** @ hlb-resolver/src/lib.rs:513-742 [resolve_capability] *)
Definition resolve_capability (app : string) (params : InstallParams) (plan : Plan)
    (cap : Capability) : result Error Plan :=
  match cap with
  | Database engine name extensions _ =>
      let db := default app name in
      let secret := app +:+ "-db-password" in
      let plan := generate_once plan secret ("password for the " +:+ app +:+ " role") in
      Ok (push plan (ProvisionDatabase engine db app secret extensions None))
  | Cache engine dedicated =>
      if dedicated : bool
      then Err (Unsupported app
                  ("a dedicated " +:+ cache_service_name engine
                   +:+ " would run an image nothing pins — the shared one serves every app (`dedicated: false`)"))
      else Ok plan
  | Sso mode redirect_paths =>
      match mode with
      | SsoNone => Ok plan
      | SsoNative =>
          domain ← ok_or (MissingParam "domain") (ip_domain params);
          let plan := push plan (CreateOidcClient app
            ((λ p, "https://" +:+ domain +:+ p) <$> redirect_paths)) in
          Ok (push plan (GenerateSecret (app +:+ "-oidc-secret") "OIDC client secret"))
      | SsoProxyOnly | SsoProxyHeader =>
          domain ← ok_or (MissingParam "domain") (ip_domain params);
          Ok (push plan (AddPortalCallback ("https://" +:+ domain +:+ PORTAL_CALLBACK)))
      end
  | ObjectStorage bucket _ expire_after_days =>
      let secret := (s3_key_secrets app).2 in
      let plan := generate_once plan secret "S3 secret key" in
      Ok (push plan (ProvisionBucket (bucket_name bucket app) app secret expire_after_days))
  | Smtp sender =>
      match sender with
      | SenderApp =>
          domain ← ok_or (MissingParam "mail_domain") (ip_mail_domain params);
          let secret_name := app +:+ "-smtp-password" in
          let plan := push plan (GenerateSecret secret_name "SMTP submission") in
          Ok (push plan (ProvisionSmtpAccount (app +:+ "@" +:+ domain) secret_name))
      | SenderPerson => Ok plan
      end
  | MailAccount quota_bytes aliases =>
      domain ← ok_or (MissingParam "mail_domain") (ip_mail_domain params);
      Ok (push plan (ProvisionMailAccount (app +:+ "@" +:+ domain) aliases quota_bytes))
  | Storage _ _ _ _ _ _ (Some _) => Ok plan
  | Storage name path tier backup sqlite _ None =>
      Ok (push plan (CreateVolume (app +:+ "-" +:+ name) path tier backup sqlite))
  end.

(** @ hlb-resolver/src/lib.rs:744-758 [render_host] *)
Definition render_host (tpl : string) (params : InstallParams) : result Error string :=
  if negb (contains "{{" tpl) then Ok tpl
  else
    domain ← ok_or (MissingParam "domain") (ip_domain params);
    Ok (replace "{{domain}}" domain (replace "{{ domain }}" domain tpl)).

(** ** The blocks of [resolve_with_guide] *)

(** @ hlb-resolver/src/lib.rs:115-125 [resolve_with_guide] *)
Definition check_runtime (m : Manifest) : result Error unit :=
  match sp_runtime (mf_spec m) with
  | Swarm => Ok tt
  | Compose => Err (Unsupported (md_name (mf_metadata m))
      ("runtime " +:+ String "034" ("compose" +:+ String "034"
       " is not implemented: install it by hand for now — see the roadmap")))
  end.

(** @ hlb-resolver/src/lib.rs:129-132 [resolve_with_guide] *)
Definition asks_timezone (m : Manifest) : bool :=
  any_of (λ t, t ==? Timezone) (substituted (mf_spec m) ≫= tokens_in).

(** The role's limit is the app's, across its databases on the engine.
    @ hlb-resolver/src/lib.rs:150-162 [resolve_with_guide] *)
Definition set_limit (requires : list Capability) (a : Action) : Action :=
  match a with
  | ProvisionDatabase engine database role password_secret extensions _ =>
      ProvisionDatabase engine database role password_secret extensions
        (role_connection_limit requires engine)
  | _ => a
  end.

(** @ hlb-resolver/src/lib.rs:164-170 [resolve_with_guide] *)
Definition digest_actions (i : Image) : list Action :=
  if is_pinned i then [] else [ResolveDigest (img_repo i) (img_tag i)].

(** The loop over the guide's [env] automations, a later one over an earlier.
    @ hlb-resolver/src/lib.rs:194-202 [resolve_with_guide] *)
Definition guide_env (guide : Guide) (params : InstallParams) (table : gmap string string)
    : gmap string string :=
  fold_left (λ table a, match a with
    | AutoEnv vars =>
        btree_extend table ((λ v, render_guide v (domain_vars params)) <$> vars)
    | _ => table
    end) (guide_steps guide ≫= step_automate) table.

(** @ hlb-resolver/src/lib.rs:193-217 [resolve_with_guide] *)
Definition env_table (m : Manifest) (guide : Guide) (params : InstallParams)
    : gmap string string :=
  let table := guide_env guide params (sp_env (mf_spec m)) in
  if sp_downloads (mf_spec m) is [] then table
  else <[DOWNLOADS_ENV := join "," (dl_sha256 <$> sp_downloads (mf_spec m))]> table.

(** @ hlb-resolver/src/lib.rs:228-236 [resolve_with_guide] *)
Definition mount_of (app : string) (c : Capability) : option (string * string) :=
  match c with
  | Storage name path _ _ _ _ owner => Some (default app owner +:+ "-" +:+ name, path)
  | _ => None
  end.

(** @ hlb-resolver/src/lib.rs:219-237 [resolve_with_guide] *)
Definition mounts_of (m : Manifest) : list (string * string) :=
  omap (mount_of (md_name (mf_metadata m))) (sp_requires (mf_spec m)).

(** @ hlb-resolver/src/lib.rs:239-254 [resolve_with_guide] *)
Definition api_bodies (guide : Guide) : list string :=
  (guide_steps guide ≫= step_automate) ≫= λ a,
    match a with
    | AutoApi _ _ _ _ calls => omap call_body calls
    | AutoSql _ params _ _ => params
    | AutoEnv _ | AutoExec _ _ _ _ => []
    end.

Definition form_index (f : SecretForm) : N :=
  match f with
  | FormPlain => 0 | FormHex => 1 | FormBcrypt => 2 | FormBase64url => 3 | FormBase64 => 4
  | FormVapidPrivate => 5 | FormVapidPublic => 6 | FormRsa => 7
  end.

(** The derived order: by name, then by form, in the order of the declaration. *)
Definition secret_le (g h : GeneratedSecret) : Prop :=
  if decide (gs_name g = gs_name h) then (form_index (gs_form g) ≤ form_index (gs_form h))%N
  else String.le (gs_name g) (gs_name h).

#[export] Instance secret_le_dec : RelDecision secret_le.
Proof. unfold RelDecision, secret_le. intros g h. case_decide; apply _. Defined.

(** [dedup_by] on the name: of neighbours with one name, the first stays.
    @ hlb-resolver/src/lib.rs:265-265 [resolve_with_guide] *)
Fixpoint dedup_after (kept : GeneratedSecret) (l : list GeneratedSecret) : list GeneratedSecret :=
  match l with
  | [] => []
  | g :: l => if decide (gs_name g = gs_name kept) then dedup_after kept l
              else g :: dedup_after g l
  end.
Definition dedup_by_name (l : list GeneratedSecret) : list GeneratedSecret :=
  match l with [] => [] | g :: l => g :: dedup_after g l end.

(** @ hlb-resolver/src/lib.rs:257-265 [resolve_with_guide] *)
Definition generated (m : Manifest) (guide : Guide) : list GeneratedSecret :=
  dedup_by_name (merge_sort secret_le
    ((substituted (mf_spec m) ++ api_bodies guide) ≫= λ v, oks (generated_secrets v))).

(** @ hlb-resolver/src/lib.rs:266-271 [resolve_with_guide] *)
Definition generate_actions (m : Manifest) (guide : Guide) : list Action :=
  let app := md_name (mf_metadata m) in
  (λ g, GenerateSecret (vault_name g app)
          (gs_name g +:+ " of " +:+ app +:+ ", generated at install")) <$> generated m guide.

Definition label_constraint (label : option string) : list string :=
  if label is Some label then ["node.labels." +:+ label +:+ "==true"] else [].

Definition files_of (files : list ConfigFile) : list (string * string) :=
  (λ f, (cf_path f, cf_content f)) <$> files.

Definition tier_constraints (tier : option string) : list string :=
  if tier is Some t then (if tier_constraint t is Some c then [c] else []) else [].

Definition or_else {A} (a b : option A) : option A := if a is Some _ then a else b.

(** @ hlb-resolver/src/lib.rs:303-338 [resolve_with_guide] *)
Definition companion_deploy (m : Manifest) (c : Companion) : Action :=
  let service := md_name (mf_metadata m) +:+ "-" +:+ co_name c in
  DeployService service (image_reference (co_image c)) 1
    (tier_constraints (or_else (co_tier c) (sw_tier (sp_swarm (mf_spec m))))
     ++ label_constraint (co_node_label c))
    (btree_entries (environment c (mf_spec m)))
    ((λ v, (service +:+ "-" +:+ cv_name v, cv_path v)) <$> co_storage c)
    (co_security c) (co_healthcheck c) (files_of (co_files c)) (co_command c) (co_args c)
    (co_process c) (co_memory c).

(** @ hlb-resolver/src/lib.rs:273-347 [resolve_with_guide] *)
Definition companion_actions (m : Manifest) (params : InstallParams) (c : Companion)
    : list Action :=
  let service := md_name (mf_metadata m) +:+ "-" +:+ co_name c in
  ((λ v, CreateVolume (service +:+ "-" +:+ cv_name v) (cv_path v) TierLocal (cv_backup v) false)
     <$> co_storage c)
  ++ digest_actions (co_image c)
  ++ [companion_deploy m c;
      WaitHealthy service (wait_for (co_healthcheck c) params)].

(** @ hlb-resolver/src/lib.rs:349-369 [resolve_with_guide] *)
Definition constraints_of (m : Manifest) : list string :=
  let spec := mf_spec m in
  tier_constraints (sw_tier (sp_swarm spec))
  ++ label_constraint (sw_node_label (sp_swarm spec))
  ++ omap (λ c, match c with
                | Storage _ _ _ _ _ _ (Some owner) => Some (data_constraint owner)
                | _ => None
                end) (sp_requires spec).

(** @ hlb-resolver/src/lib.rs:371-384 [resolve_with_guide] *)
Definition download_actions (m : Manifest) : list Action :=
  let app := md_name (mf_metadata m) in
  (λ d, FetchDownload app (app +:+ "-" +:+ dl_storage d) (dl_url d) (dl_sha256 d) (dl_into d)
          (dl_unzip d) (constraints_of m) (mounts_of m)) <$> sp_downloads (mf_spec m).

(** @ hlb-resolver/src/lib.rs:386-406 [resolve_with_guide] *)
Definition deploy_action (m : Manifest) (guide : Guide) (params : InstallParams) : Action :=
  let spec := mf_spec m in
  DeployService (md_name (mf_metadata m)) (image_reference (sp_image spec))
    (sw_replicas (sp_swarm spec)) (constraints_of m)
    (btree_entries (env_table m guide params)) (mounts_of m) (sp_security spec)
    (sw_healthcheck (sp_swarm spec)) (files_of (sp_files spec)) (sp_command spec)
    (sp_args spec) (sp_process spec) (sw_memory (sp_swarm spec)).

(** @ hlb-resolver/src/lib.rs:414-429 [resolve_with_guide] *)
Definition guide_actions (m : Manifest) (guide : Guide) (params : InstallParams) : list Action :=
  (λ s, PendingGuideStep (step_id s) (render_guide (step_title s) (domain_vars params))
          (is_blocking s) (md_name (mf_metadata m)) s)
  <$> keep (λ s, at_install (step_phase s)) (guide_steps guide).

(** @ hlb-resolver/src/lib.rs:439-456 [resolve_with_guide] *)
Definition first_admin_step (app : string) : Action :=
  PendingGuideStep (app +:+ "-first-admin")
    ("Check " +:+ app +:+ "'s administrator account and close sign-ups") true app
    {| step_id := app +:+ "-first-admin"; step_title := "Administrator account";
       step_phase := PostInstall; step_severity := Blocking; step_body := "";
       step_after := []; step_automate := []; step_verify := Attest;
       step_deeplink := None; step_recheck := None |}.

(** @ hlb-resolver/src/lib.rs:431-457 [resolve_with_guide] *)
Definition first_admin_actions (m : Manifest) (guide : Guide) : list Action :=
  if any_of (λ i, ing_expose i ==? AfterGuide) (sp_ingress (mf_spec m))
     && negb (any_of is_blocking (guide_steps guide))
  then [first_admin_step (md_name (mf_metadata m))] else [].

(** @ hlb-resolver/src/lib.rs:459-469 [resolve_with_guide] *)
Definition expose (m : Manifest) (params : InstallParams) (plan : Plan) (i : Ingress)
    : result Error Plan :=
  host ← render_host (ing_host i) params;
  Ok (push plan (ConfigureIngress host (md_name (mf_metadata m)) (ing_port i)
                   (ing_expose i ==? Public))).

Definition extend (p : Plan) (l : list Action) : Plan := {| actions := actions p ++ l |}.

(** The time zones the tz database of [chrono_tz] knows. *)
Section resolve.
Context (is_time_zone : string → bool).

(** @ hlb-resolver/src/lib.rs:127-142 [resolve_with_guide] *)
Definition check_timezone (m : Manifest) (params : InstallParams) : result Error unit :=
  if asks_timezone m then
    match ip_timezone params with
    | None => Err (MissingParam "timezone")
    | Some z => if is_time_zone z then Ok tt else Err (UnknownTimezone z)
    end
  else Ok tt.

(** @ hlb-resolver/src/lib.rs:110-472 [resolve_with_guide] *)
Definition resolve_validated (m : Manifest) (guide : Guide) (params : InstallParams)
    : result Error Plan :=
  let app := md_name (mf_metadata m) in
  let spec := mf_spec m in
  _ ← check_runtime m;
  _ ← check_timezone m params;
  plan ← fold_m (resolve_capability app params) {| actions := [] |} (sp_requires spec);
  let plan := {| actions := set_limit (sp_requires spec) <$> actions plan |} in
  let plan := extend plan (digest_actions (sp_image spec)) in
  let plan := extend plan (generate_actions m guide) in
  let plan := extend plan (sp_companions spec ≫= companion_actions m params) in
  let plan := extend plan (download_actions m) in
  let plan := push plan (deploy_action m guide params) in
  let plan := push plan
    (WaitHealthy app (wait_for (sw_healthcheck (sp_swarm spec)) params)) in
  let plan := extend plan (guide_actions m guide params) in
  let plan := extend plan (first_admin_actions m guide) in
  fold_m (expose m params) plan (sp_ingress spec).

(** What [serde_json] writes of a value, for the rules on claims. *)
Context (json_text : Json → string).

(** @ hlb-resolver/src/lib.rs:99-109 [resolve_with_guide] *)
Definition resolve_with_guide (m : Manifest) (guide : Guide) (params : InstallParams)
    : result Error Plan :=
  _ ← map_err InvalidManifest (validate_with_guide json_text m guide);
  resolve_validated m guide params.

(** @ hlb-resolver/src/lib.rs:91-97 [resolve] *)
Definition resolve (m : Manifest) (params : InstallParams) : result Error Plan :=
  resolve_with_guide m default_guide params.
End resolve.

(** ** Kinds of actions *)

Definition is_ingress (a : Action) : Prop :=
  match a with ConfigureIngress _ _ _ _ => True | _ => False end.
Definition is_deploy (a : Action) : Prop :=
  match a with DeployService _ _ _ _ _ _ _ _ _ _ _ _ _ => True | _ => False end.

(** What [resolve_capability] writes. *)
Definition is_prerequisite (a : Action) : Prop :=
  match a with
  | ProvisionDatabase _ _ _ _ _ _ | ProvisionBucket _ _ _ _ | GenerateSecret _ _
  | CreateOidcClient _ _ | AddPortalCallback _ | CreateVolume _ _ _ _ _
  | ProvisionSmtpAccount _ _ | ProvisionMailAccount _ _ _ => True
  | _ => False
  end.

(** The secret an action needs to be there. *)
Definition needs (a : Action) : option string :=
  match a with
  | ProvisionDatabase _ _ _ secret _ _ => Some secret
  | ProvisionBucket _ _ secret _ => Some secret
  | ProvisionSmtpAccount _ secret => Some secret
  | _ => None
  end.

(** Every action of the list that needs a secret stands after its generation. *)
Definition supplied (l : list Action) : Prop :=
  ∀ l1 a l2 s, l = l1 ++ a :: l2 → needs a = Some s → ∃ purpose, GenerateSecret s purpose ∈ l1.

(** ** The shape of a plan *)

Lemma generate_once_supplied plan s p :
  supplied (actions plan) →
  supplied (actions (generate_once plan s p)) ∧
  ∃ purpose, GenerateSecret s purpose ∈ actions (generate_once plan s p).
Proof.
  unfold generate_once. intros Hs. destruct (any_of _ _) eqn:E.
  - apply any_of_true in E as (a & Ha & Hg). split; [done|].
    destruct a; try done. apply bool_decide_eq_true in Hg as ->. eauto.
  - split; cbn; [|exists p; set_solver].
    intros l1 a l2 s'. destruct l2 as [|b l2 _] using rev_ind.
    + by intros [_ [= <-]]%app_inj_tail.
    + rewrite app_comm_cons, app_assoc. intros [E' _]%app_inj_tail. by eapply Hs.
Qed.

Lemma supplied_snoc l a :
  supplied l → (∀ s, needs a = Some s → ∃ purpose, GenerateSecret s purpose ∈ l) →
  supplied (l ++ [a]).
Proof.
  intros Hs Ha l1 b l2 s. destruct l2 as [|c l2 _] using rev_ind.
  - intros [-> [= ->]]%app_inj_tail. apply Ha.
  - rewrite app_comm_cons, app_assoc. intros [-> _]%app_inj_tail. by eapply Hs.
Qed.

Lemma supplied_app l k : supplied l → (∀ a, a ∈ k → needs a = None) → supplied (l ++ k).
Proof.
  intros Hl Hk. induction k as [|a k IH] using rev_ind; [by rewrite app_nil_r|].
  rewrite app_assoc. apply supplied_snoc.
  - apply IH. set_solver.
  - intros s. rewrite Hk by set_solver. done.
Qed.

Definition prerequisites_ok (plan : Plan) : Prop :=
  supplied (actions plan) ∧ Forall is_prerequisite (actions plan).

Lemma generate_once_ok plan s p :
  prerequisites_ok plan →
  prerequisites_ok (generate_once plan s p) ∧
  ∃ purpose, GenerateSecret s purpose ∈ actions (generate_once plan s p).
Proof.
  intros [Hs Hp]. destruct (generate_once_supplied plan s p Hs) as [Hs' He].
  split; [|done]. split; [done|]. unfold generate_once. destruct (any_of _ _); [done|].
  cbn. apply Forall_app. split; [done|]. by repeat constructor.
Qed.

Lemma push_ok plan a :
  prerequisites_ok plan → is_prerequisite a →
  (∀ s, needs a = Some s → ∃ purpose, GenerateSecret s purpose ∈ actions plan) →
  prerequisites_ok (push plan a).
Proof.
  intros [Hs Hp] Ha Hn. split; cbn; [by apply supplied_snoc|].
  apply Forall_app. split; [done|]. by repeat constructor.
Qed.

Lemma resolve_capability_ok app params plan cap plan' :
  prerequisites_ok plan → resolve_capability app params plan cap = Ok plan' →
  prerequisites_ok plan'.
Proof.
  intros Hok. destruct cap as [engine name exts conns|engine dedicated|mode paths
    |bucket bk days|sender|quota aliases|name path tier bk sqlite copy owner];
    cbn [resolve_capability].
  - intros [= <-]. destruct (generate_once_ok plan (app +:+ "-db-password")
      ("password for the " +:+ app +:+ " role") Hok) as [H1 H2].
    apply push_ok; [done..|]. by intros s [= <-].
  - destruct dedicated; [done|]. by intros [= <-].
  - destruct mode; try (intros [= <-]; done);
      rewrite result_bind_Ok; intros (d & _ & [= <-]).
    + apply push_ok; [apply push_ok|..]; done.
    + by apply push_ok.
    + by apply push_ok.
  - intros [= <-].
    destruct (generate_once_ok plan (s3_key_secrets app).2 "S3 secret key" Hok) as [H1 H2].
    apply push_ok; [done..|]. by intros s [= <-].
  - destruct sender; [|by intros [= <-]].
    rewrite result_bind_Ok; intros (d & _ & [= <-]).
    apply push_ok; [apply push_ok; done|done|]. intros s [= <-]. exists "SMTP submission". cbn. set_solver.
  - rewrite result_bind_Ok; intros (d & _ & [= <-]). by apply push_ok.
  - destruct owner; intros [= <-]; [done|]. by apply push_ok.
Qed.

Lemma supplied_set_limit requires l : supplied l → supplied (set_limit requires <$> l).
Proof.
  intros Hl l1 a l2 s E Hn.
  apply fmap_app_inv in E as (k1 & k2 & -> & E & ->).
  destruct k2 as [|b k2]; [done|]. injection E as -> ->.
  destruct (Hl k1 b k2 s eq_refl) as [p Hp]; [by destruct b|].
  exists p. apply list_elem_of_fmap. by exists (GenerateSecret s p).
Qed.

Lemma set_limit_prerequisites requires l :
  Forall is_prerequisite l → Forall is_prerequisite (set_limit requires <$> l).
Proof. rewrite Forall_fmap. intros H. eapply Forall_impl; [exact H|]. by intros []. Qed.

(** The routes, each with the host it is given and public only when declared so. *)
Definition route_of (m : Manifest) (params : InstallParams) (i : Ingress) (a : Action) : Prop :=
  ∃ host, render_host (ing_host i) params = Ok host ∧
    a = ConfigureIngress host (md_name (mf_metadata m)) (ing_port i) (ing_expose i ==? Public).

Lemma fold_expose m params plan l plan' :
  fold_m (expose m params) plan l = Ok plan' →
  ∃ routes, actions plan' = actions plan ++ routes ∧ Forall2 (route_of m params) l routes.
Proof.
  revert plan. induction l as [|i l IH]; intros plan; cbn [fold_m].
  - intros [= <-]. exists []. by rewrite app_nil_r.
  - rewrite result_bind_Ok. intros (p & Hp & Hl). unfold expose in Hp.
    apply result_bind_Ok in Hp as (host & Hh & [= <-]).
    apply IH in Hl as (routes & -> & Hr). cbn. rewrite <- app_assoc.
    eexists. split; [done|]. constructor; [by exists host|done].
Qed.

(** The parts of a plan, in order. *)
Definition plan_head (m : Manifest) (guide : Guide) (pre : Plan) : list Action :=
  (set_limit (sp_requires (mf_spec m)) <$> actions pre)
  ++ digest_actions (sp_image (mf_spec m)) ++ generate_actions m guide.
Definition plan_start (m : Manifest) (guide : Guide) (params : InstallParams) : list Action :=
  (sp_companions (mf_spec m) ≫= companion_actions m params) ++ download_actions m
  ++ [deploy_action m guide params;
      WaitHealthy (md_name (mf_metadata m))
        (wait_for (sw_healthcheck (sp_swarm (mf_spec m))) params)].
Definition plan_steps (m : Manifest) (guide : Guide) (params : InstallParams) : list Action :=
  guide_actions m guide params ++ first_admin_actions m guide.

Lemma resolve_shape is_tz m guide params plan :
  resolve_validated is_tz m guide params = Ok plan →
  ∃ pre routes,
    fold_m (resolve_capability (md_name (mf_metadata m)) params) {| actions := [] |}
      (sp_requires (mf_spec m)) = Ok pre ∧ prerequisites_ok pre ∧
    Forall2 (route_of m params) (sp_ingress (mf_spec m)) routes ∧
    actions plan = plan_head m guide pre ++ plan_start m guide params
                   ++ plan_steps m guide params ++ routes.
Proof.
  unfold resolve_validated. rewrite !result_bind_Ok.
  intros (_ & _ & H). apply result_bind_Ok in H as (_ & _ & H).
  apply result_bind_Ok in H as (pre & Hpre & H). apply fold_expose in H as (routes & E & Hr).
  exists pre, routes. split; [done|]. split; [|split; [done|]].
  - refine (fold_m_ind prerequisites_ok _ _ _ _ _ _ Hpre).
    + intros acc c out _ Hacc Hc. by eapply resolve_capability_ok.
    + split; [|constructor]. intros l1 ? ? ? E'. cbn in E'. by destruct l1.
  - rewrite E. unfold plan_head, plan_start, plan_steps. cbn.
    by rewrite <- !app_assoc, <- ?app_assoc.
Qed.

(** ** What the parts hold *)

(** The kind of an action known by its constructor, or as one of a short list. *)
Ltac kinds :=
  repeat match goal with
  | H : _ ∈ [] |- _ => by apply not_elem_of_nil in H
  | H : _ ∈ _ :: _ |- _ => apply elem_of_cons in H as [->|H]
  end; cbn; tauto.

Lemma prerequisite_not_ingress a : is_prerequisite a → ¬ is_ingress a ∧ ¬ is_deploy a.
Proof. destruct a; cbn; naive_solver. Qed.

Lemma head_kinds m guide pre a :
  prerequisites_ok pre → a ∈ plan_head m guide pre →
  ¬ is_ingress a ∧ ¬ is_deploy a.
Proof.
  intros [_ Hp] Ha. unfold plan_head in Ha. rewrite !elem_of_app in Ha.
  destruct Ha as [Ha|[Ha|Ha]].
  - apply prerequisite_not_ingress. apply (set_limit_prerequisites (sp_requires (mf_spec m))) in Hp.
    rewrite Forall_forall in Hp. auto.
  - unfold digest_actions in Ha. destruct (is_pinned _); kinds.
  - unfold generate_actions in Ha. apply list_elem_of_fmap in Ha as (g & -> & _). kinds.
Qed.

Lemma start_kinds m guide params a :
  a ∈ plan_start m guide params → ¬ is_ingress a ∧ needs a = None.
Proof.
  unfold plan_start. rewrite !elem_of_app. intros [Ha|[Ha|Ha]].
  - apply list_elem_of_bind in Ha as (c & Ha & _). unfold companion_actions in Ha.
    rewrite !elem_of_app in Ha. destruct Ha as [Ha|[Ha|Ha]].
    + apply list_elem_of_fmap in Ha as (v & -> & _). kinds.
    + unfold digest_actions in Ha. destruct (is_pinned _); kinds.
    + kinds.
  - apply list_elem_of_fmap in Ha as (d & -> & _). kinds.
  - unfold deploy_action in Ha. kinds.
Qed.

Lemma steps_kinds m guide params a :
  a ∈ plan_steps m guide params → ¬ is_ingress a ∧ needs a = None.
Proof.
  unfold plan_steps, guide_actions, first_admin_actions, first_admin_step.
  rewrite elem_of_app. intros [Ha|Ha].
  - apply list_elem_of_fmap in Ha as (s & -> & _). kinds.
  - destruct (_ && _); kinds.
Qed.

Lemma route_kind m params l routes a :
  Forall2 (route_of m params) l routes → a ∈ routes → is_ingress a ∧ needs a = None.
Proof.
  induction 1 as [|i b l routes (host & _ & ->) _ IH]; [by intros ?%not_elem_of_nil|].
  intros [->|?]%elem_of_cons; [done|auto].
Qed.

(** ** The generated secrets *)

Lemma dedup_after_name g kept l :
  g ∈ l → ∃ h, h ∈ kept :: dedup_after kept l ∧ gs_name h = gs_name g.
Proof.
  revert kept. induction l as [|x l IH]; intros kept; [by intros ?%not_elem_of_nil|].
  intros [->|Hin]%elem_of_cons; cbn; case_decide as Hx.
  - exists kept. split; [by left|done].
  - exists x. split; [set_solver|done].
  - by apply IH.
  - destruct (IH x Hin) as (h & Hh & ?). exists h. set_solver.
Qed.

Lemma dedup_by_name_name g l : g ∈ l → ∃ h, h ∈ dedup_by_name l ∧ gs_name h = gs_name g.
Proof.
  destruct l as [|x l]; [by intros ?%not_elem_of_nil|]. cbn.
  intros [->|Hin]%elem_of_cons; [exists x; set_solver|by apply dedup_after_name].
Qed.

(** Of a configuration's generated secret, the generation is in the plan's head. *)
Lemma generated_in_head m guide pre v g :
  v ∈ substituted (mf_spec m) ++ api_bodies guide → Ok g ∈ generated_secrets v →
  ∃ purpose, GenerateSecret (vault_name g (md_name (mf_metadata m))) purpose
             ∈ plan_head m guide pre.
Proof.
  intros Hv Hg.
  assert (Hin : g ∈ (substituted (mf_spec m) ++ api_bodies guide) ≫= λ v, oks (generated_secrets v)).
  { apply list_elem_of_bind. exists v. split; [|done].
    unfold oks. apply list_elem_of_omap. by exists (Ok g). }
  destruct (dedup_by_name_name g (merge_sort secret_le ((substituted (mf_spec m)
    ++ api_bodies guide) ≫= λ v, oks (generated_secrets v)))) as (h & Hh & Hname).
  { by rewrite merge_sort_Permutation. }
  eexists. unfold plan_head. rewrite !elem_of_app. right. right.
  unfold generate_actions. apply list_elem_of_fmap. exists h.
  split; [|exact Hh]. unfold vault_name. by rewrite Hname.
Qed.

(** ** What a capability adds *)

Lemma generate_once_grows plan s p : ∃ new, actions (generate_once plan s p) = actions plan ++ new.
Proof.
  unfold generate_once. destruct (any_of _ _); [exists []; by rewrite app_nil_r|by eexists].
Qed.

Lemma resolve_capability_grows app params plan cap plan' :
  resolve_capability app params plan cap = Ok plan' → ∃ new, actions plan' = actions plan ++ new.
Proof.
  assert (H0 : ∃ new, actions plan = actions plan ++ new) by (exists []; by rewrite app_nil_r).
  destruct cap as [engine name exts conns|engine []|[] paths|bucket bk days|[]|quota aliases
    |name path tier bk sqlite copy []]; cbn [resolve_capability];
    rewrite ?result_bind_Ok; try (intros [= <-]); try (intros (d & _ & [= <-])); try done.
  - destruct (generate_once_grows plan (app +:+ "-db-password")
      ("password for the " +:+ app +:+ " role")) as [new E].
    cbn [push actions]. rewrite E, <- app_assoc. by eexists.
  - cbn. rewrite <- app_assoc. by eexists.
  - by eexists.
  - by eexists.
  - destruct (generate_once_grows plan (app +:+ "-s3-secret") "S3 secret key") as [new E].
    cbn [push actions]. rewrite E, <- app_assoc. by eexists.
  - cbn. rewrite <- app_assoc. by eexists.
  - by eexists.
  - by eexists.
Qed.

Lemma fold_capability_grows app params plan l plan' :
  fold_m (resolve_capability app params) plan l = Ok plan' →
  ∃ new, actions plan' = actions plan ++ new.
Proof.
  intros H. refine (fold_m_ind (λ p, ∃ new, actions p = actions plan ++ new) _ _ _ _ _ _ H).
  - intros acc c out _ (new & E) (new' & ->)%resolve_capability_grows.
    rewrite E, <- app_assoc. by eexists.
  - exists []. by rewrite app_nil_r.
Qed.

(** A volume of the app's own is created. *)
Lemma volume_created app params plan l plan' name path tier bk sqlite copy :
  fold_m (resolve_capability app params) plan l = Ok plan' →
  Storage name path tier bk sqlite copy None ∈ l →
  CreateVolume (app +:+ "-" +:+ name) path tier bk sqlite ∈ actions plan'.
Proof.
  revert plan. induction l as [|c l IH]; intros plan; [by intros _ ?%not_elem_of_nil|].
  cbn [fold_m]. rewrite result_bind_Ok. intros (p & Hp & Hl) [<-|Hin]%elem_of_cons.
  - cbn in Hp. injection Hp as <-. apply fold_capability_grows in Hl as (new & ->).
    rewrite elem_of_app. left. cbn. set_solver.
  - by eapply IH.
Qed.

(** What [resolve_capability] asks of the parameters, and refuses. *)
Definition capability_accepted (params : InstallParams) (c : Capability) : Prop :=
  match c with
  | Cache _ dedicated => dedicated = false
  | Sso (SsoNative | SsoProxyOnly | SsoProxyHeader) _ => is_Some (ip_domain params)
  | Smtp SenderApp | MailAccount _ _ => is_Some (ip_mail_domain params)
  | _ => True
  end.

Lemma resolve_capability_total app params plan c :
  (∃ plan', resolve_capability app params plan c = Ok plan') ↔ capability_accepted params c.
Proof.
  destruct c as [engine name exts conns|engine []|[] paths|bucket bk days|[]|quota aliases
    |name path tier bk sqlite copy []]; cbn;
    try (split; [done|intros _; by eexists]); try (split; [intros (? & [=])|done]).
  all: destruct (ip_domain params), (ip_mail_domain params); cbn;
    (split; [intros (? & [=])|intros [? [=]]]); eauto.
Qed.

Lemma fold_m_total {E A B} (f : B → A → result E B) (ok : A → Prop) l acc :
  (∀ acc x, x ∈ l → (∃ out, f acc x = Ok out) ↔ ok x) →
  (∃ out, fold_m f acc l = Ok out) ↔ ∀ x, x ∈ l → ok x.
Proof.
  revert acc. induction l as [|x l IH]; intros acc Hf; cbn.
  - split; [by intros _ ? ?%not_elem_of_nil|by eexists].
  - split.
    + intros (out & H). apply result_bind_Ok in H as (a & Ha & Hl).
      intros y [->|Hy]%elem_of_cons; [by apply (Hf acc x ltac:(by left)); eexists|].
      eapply (IH a); [|by eexists|done]. intros. apply Hf. by right.
    + intros Hall. destruct (proj2 (Hf acc x ltac:(by left))) as (a & Ha); [apply Hall; by left|].
      rewrite Ha. cbn. apply IH; [intros; apply Hf; by right|]. intros y Hy. apply Hall. by right.
Qed.

Lemma render_host_total tpl params :
  (∃ host, render_host tpl params = Ok host) ↔ (contains "{{" tpl = true → is_Some (ip_domain params)).
Proof.
  unfold render_host. destruct (contains _ _); cbn.
  - destruct (ip_domain params) as [d|]; cbn.
    + split; [by eexists|by eexists].
    + split; [by intros (? & [=])|]. intros H. by destruct (H eq_refl).
  - split; [done|by eexists].
Qed.

Lemma check_runtime_ok m : check_runtime m = Ok tt ↔ sp_runtime (mf_spec m) = Swarm.
Proof. unfold check_runtime. by destruct (sp_runtime _). Qed.

Lemma check_timezone_ok is_tz m params :
  check_timezone is_tz m params = Ok tt ↔
  (asks_timezone m = true → ∃ z, ip_timezone params = Some z ∧ is_tz z = true).
Proof.
  unfold check_timezone. destruct (asks_timezone m); [|by split].
  destruct (ip_timezone params) as [z|]; [destruct (is_tz z) eqn:E|]; cbn.
  - split; [by eexists|done].
  - split; [done|]. intros H. destruct (H eq_refl) as (? & [= <-] & ?). congruence.
  - split; [done|]. intros H. by destruct (H eq_refl) as (? & ? & ?).
Qed.

(** ** Properties *)

(** Whatever carries a password - a database's role, a bucket's key, the account mail
    is sent as - is created after the secret it is given: no action of a plan needs a
    secret that no earlier action generates. *)
Theorem secrets_before_use is_tz m guide params plan :
  resolve_validated is_tz m guide params = Ok plan → supplied (actions plan).
Proof.
  intros (pre & routes & _ & [Hs Hp] & Hr & ->)%resolve_shape.
  rewrite app_assoc, app_assoc. apply supplied_app.
  2:{ intros a Ha. by eapply route_kind. }
  apply supplied_app; [|intros a Ha; by eapply steps_kinds].
  apply supplied_app; [|intros a Ha; by eapply start_kinds].
  unfold plan_head. apply supplied_app; [by apply supplied_set_limit|].
  intros a. rewrite elem_of_app. unfold digest_actions, generate_actions. intros [Ha|Ha].
  - destruct (is_pinned _); kinds.
  - by apply list_elem_of_fmap in Ha as (g & -> & _).
Qed.

(** Every secret a manifest's variables or files ask Homelabus to generate - the app's
    or a companion's, or a guide's call's - is generated before any service is deployed:
    none starts with the placeholder's text for a secret. *)
Theorem generated_before_deploy is_tz m guide params plan v g l1 a l2 :
  resolve_validated is_tz m guide params = Ok plan →
  v ∈ substituted (mf_spec m) ++ api_bodies guide → Ok g ∈ generated_secrets v →
  actions plan = l1 ++ a :: l2 → is_deploy a →
  ∃ purpose, GenerateSecret (vault_name g (md_name (mf_metadata m))) purpose ∈ l1.
Proof.
  intros (pre & routes & _ & Hp & Hr & ->)%resolve_shape Hv Hg E Ha.
  apply split_after_prefix with (P := is_deploy) in E as (k & -> & _);
    [|intros x Hx; by eapply head_kinds|done].
  destruct (generated_in_head m guide pre v g Hv Hg) as (p & Hin). exists p. rewrite elem_of_app. auto.
Qed.

(** Exposure comes last: nothing but routes follows a route, and the routes are the
    manifest's, one for each, public only when declared [public] - an app to be opened
    after its guide is private until then. *)
Theorem exposure_last is_tz m guide params plan l1 a l2 :
  resolve_validated is_tz m guide params = Ok plan →
  actions plan = l1 ++ a :: l2 → is_ingress a →
  Forall is_ingress l2 ∧
  ∃ before routes, actions plan = before ++ routes ∧ Forall (λ b, ¬ is_ingress b) before ∧
    Forall2 (route_of m params) (sp_ingress (mf_spec m)) routes.
Proof.
  intros (pre & routes & _ & Hp & Hr & ->)%resolve_shape E Ha.
  rewrite !app_assoc in E |- *. rewrite <- (app_assoc (plan_head _ _ _)) in E |- *.
  set (before := plan_head m guide pre ++ _ ++ _) in *.
  assert (Hb : ∀ x, x ∈ before → ¬ is_ingress x).
  { unfold before. intros x. rewrite !elem_of_app. intros [Hx|[Hx|Hx]];
      [by eapply head_kinds|by eapply start_kinds|by eapply steps_kinds]. }
  split.
  - apply split_after_prefix with (P := is_ingress) in E as (k & _ & E); [|done..].
    apply Forall_forall. intros x Hx. eapply route_kind; [done|]. rewrite E, elem_of_app, elem_of_cons. auto.
  - exists before, routes. split; [done|]. split; [by apply Forall_forall|done].
Qed.

(** A companion is deployed and waited for before its app: the plan waits for the
    companion to be healthy, on the time its own probe allows, before deploying the app. *)
Theorem companions_before_app is_tz m guide params plan c :
  resolve_validated is_tz m guide params = Ok plan → c ∈ sp_companions (mf_spec m) →
  ∃ l1 l2 l3,
    actions plan =
      l1 ++ companion_deploy m c
         :: WaitHealthy (companion_service c (md_name (mf_metadata m)))
              (wait_for (co_healthcheck c) params)
         :: l2 ++ deploy_action m guide params :: l3.
Proof.
  intros (pre & routes & _ & _ & _ & ->)%resolve_shape Hc. unfold plan_start.
  apply list_elem_of_split in Hc as (cs1 & cs2 & ->).
  rewrite bind_app, bind_cons. unfold companion_actions at 2.
  generalize (plan_steps m guide params ++ routes), (companion_deploy m c), (digest_actions (co_image c)),
    (deploy_action m guide params), (plan_head m guide pre), (download_actions m),
    (wait_for (sw_healthcheck (sp_swarm (mf_spec m))) params).
  intros tail d dg da hd dl w. cbn zeta. set (vols := _ <$> co_storage c).
  exists (hd ++ (cs1 ≫= companion_actions m params) ++ vols ++ dg),
    ((cs2 ≫= companion_actions m params) ++ dl), (WaitHealthy (md_name (mf_metadata m)) w :: tail).
  unfold companion_service. by rewrite <- !app_assoc.
Qed.

(** What the app mounts is what was created for it: each volume the app is deployed
    with was created earlier in the plan under the same name and path, or is another
    app's, and then the app is constrained to the node that holds that app's data. *)
Theorem mounts_are_created is_tz m guide params plan :
  resolve_validated is_tz m guide params = Ok plan →
  ∃ l1 l2, actions plan = l1 ++ deploy_action m guide params :: l2 ∧
    ∀ vol path, (vol, path) ∈ mounts_of m →
      (∃ tier backup sqlite, CreateVolume vol path tier backup sqlite ∈ l1) ∨
      (∃ owner name, vol = owner +:+ "-" +:+ name ∧
         data_constraint owner ∈ constraints_of m).
Proof.
  intros (pre & routes & Hpre & _ & _ & ->)%resolve_shape. unfold plan_start.
  exists (plan_head m guide pre ++ (sp_companions (mf_spec m) ≫= companion_actions m params)
          ++ download_actions m). eexists. split; [by rewrite <- !app_assoc|].
  intros vol path Hm. unfold mounts_of in Hm. apply list_elem_of_omap in Hm as (c & Hc & Hm).
  destruct c as [| | | | | |name p tier bk sqlite copy [owner|]]; try done;
    cbn in Hm; injection Hm as <- <-.
  - right. exists owner, name. split; [done|]. unfold constraints_of. rewrite !elem_of_app.
    right. right. apply list_elem_of_omap. by eexists.
  - left. exists tier, bk, sqlite. rewrite elem_of_app. left. unfold plan_head.
    rewrite elem_of_app. left. apply list_elem_of_fmap.
    exists (CreateVolume (md_name (mf_metadata m) +:+ "-" +:+ name) p tier bk sqlite).
    split; [done|]. by eapply volume_created.
Qed.

(** An app to be opened after its guide is never without a guard: given that what
    blocks is asked at install - validation refuses a blocking post-restore step -, its
    plan holds a blocking step, and it stands before every route. *)
Lemma after_guide_guarded is_tz m guide params plan i :
  resolve_validated is_tz m guide params = Ok plan →
  i ∈ sp_ingress (mf_spec m) → ing_expose i = AfterGuide →
  (∀ s, s ∈ guide_steps guide → is_blocking s = true → at_install (step_phase s) = true) →
  ∃ before routes step, actions plan = before ++ routes ∧
    Forall2 (route_of m params) (sp_ingress (mf_spec m)) routes ∧
    step ∈ before ∧ is_blocking_step step = true.
Proof.
  intros (pre & routes & _ & _ & Hr & E)%resolve_shape Hi Hexp Hat.
  rewrite !app_assoc in E. eexists _, routes.
  assert (Hstep : ∃ step, step ∈ plan_steps m guide params ∧ is_blocking_step step = true).
  { unfold plan_steps, first_admin_actions.
    assert (any_of (λ i, ing_expose i ==? AfterGuide) (sp_ingress (mf_spec m)) = true) as ->.
    { apply any_of_true. exists i. by rewrite bool_decide_eq_true. }
    destruct (any_of is_blocking (guide_steps guide)) eqn:Hb; cbn.
    - apply any_of_true in Hb as (s & Hs & Hb).
      exists (PendingGuideStep (step_id s) (render_guide (step_title s) (domain_vars params))
                (is_blocking s) (md_name (mf_metadata m)) s).
      split; [|done]. rewrite app_nil_r. unfold guide_actions. apply list_elem_of_fmap. exists s.
      split; [reflexivity|]. apply elem_of_keep. auto.
    - exists (first_admin_step (md_name (mf_metadata m))). split; [|done].
      rewrite elem_of_app. right. by left. }
  destruct Hstep as (step & Hin & Hb). exists step. split; [exact E|]. split; [done|].
  split; [|done]. rewrite elem_of_app. by right.
Qed.

(** The plan's databases are held to the app's budget: each role is created with the
    limit its app declares over all its databases on that engine. *)
Theorem database_limits is_tz m guide params plan engine db role secret exts limit :
  resolve_validated is_tz m guide params = Ok plan →
  ProvisionDatabase engine db role secret exts limit ∈ actions plan →
  limit = role_connection_limit (sp_requires (mf_spec m)) engine.
Proof.
  intros (pre & routes & _ & _ & Hr & ->)%resolve_shape.
  assert (Hn : ∀ s, needs (ProvisionDatabase engine db role secret exts limit) = Some s → s = secret)
    by (intros s [=]; done).
  rewrite !elem_of_app. intros [Hin|[Hin|[Hin|Hin]]].
  - unfold plan_head in Hin. rewrite !elem_of_app in Hin. destruct Hin as [Hin|[Hin|Hin]].
    + apply list_elem_of_fmap in Hin as (a & E & _). by destruct a; simplify_eq/=.
    + unfold digest_actions in Hin. destruct (is_pinned _); set_solver.
    + by apply list_elem_of_fmap in Hin as (g & ? & _).
  - by apply start_kinds in Hin as [_ ?].
  - by apply steps_kinds in Hin as [_ ?].
  - by eapply route_kind in Hin as [_ ?].
Qed.

(** A plan is written exactly when it can be carried out with what was given: the app
    runs on the Swarm, its time zone is known if it reads one, no capability asks for a
    domain or a mail domain not given nor for a cache of its own, and every templated
    host has a domain. *)
Lemma resolve_total is_tz m guide params :
  (∃ plan, resolve_validated is_tz m guide params = Ok plan) ↔
  sp_runtime (mf_spec m) = Swarm ∧
  (asks_timezone m = true → ∃ z, ip_timezone params = Some z ∧ is_tz z = true) ∧
  (∀ c, c ∈ sp_requires (mf_spec m) → capability_accepted params c) ∧
  (∀ i, i ∈ sp_ingress (mf_spec m) → contains "{{" (ing_host i) = true →
        is_Some (ip_domain params)).
Proof.
  assert (Hexp : ∀ plan, (∃ out, fold_m (expose m params) plan (sp_ingress (mf_spec m)) = Ok out) ↔
    ∀ i, i ∈ sp_ingress (mf_spec m) → contains "{{" (ing_host i) = true → is_Some (ip_domain params)).
  { intros plan. apply fold_m_total. intros acc i _. rewrite <- render_host_total.
    unfold expose. split.
    - intros (out & (h & ? & _)%result_bind_Ok). by exists h.
    - intros (h & ->). by eexists. }
  assert (Hcap : (∃ out, fold_m (resolve_capability (md_name (mf_metadata m)) params)
      {| actions := [] |} (sp_requires (mf_spec m)) = Ok out) ↔
    ∀ c, c ∈ sp_requires (mf_spec m) → capability_accepted params c)
    by (apply fold_m_total; intros; apply resolve_capability_total).
  rewrite <- (check_timezone_ok is_tz), <- Hcap, <- check_runtime_ok. unfold resolve_validated. split.
  - intros (plan & H). apply result_bind_Ok in H as ([] & ? & H).
    apply result_bind_Ok in H as ([] & ? & H). apply result_bind_Ok in H as (pre & ? & H).
    split; [done|]. split; [done|]. split; [by eexists|]. eapply Hexp. by eexists.
  - intros (Hr & Ht & (pre & Hp) & Hi).
    rewrite Hr. cbn [mbind result_bind]. rewrite Ht. cbn [mbind result_bind].
    rewrite Hp. cbn [mbind result_bind]. apply Hexp, Hi.
Qed.

(** ** A manifest these hold of *)

Definition example_app : Manifest :=
  {| mf_api_version := V1; mf_kind := App;
     mf_metadata := {| md_name := "immich"; md_hlb := None; md_criticality := Some Important;
                       md_display_name := None; md_category := None; md_homepage := None |};
     mf_spec :=
       {| sp_image := example_image; sp_runtime := Swarm;
          sp_requires := [Database Postgres None ["vector"] (Some 10%N);
                          Storage "data" "/data" TierLocal true false CopyLive None;
                          Storage "files" "/files" TierLocal false false CopyLive (Some "seafile")];
          sp_ingress := [{| ing_host := "{{ domain }}"; ing_port := 2283; ing_chain := [];
                            ing_expose := AfterGuide; ing_paths := []; ing_auth_routes := [];
                            ing_open_paths := [] |}];
          sp_swarm := default_swarm; sp_update := default_update;
          sp_companions := [example_companion];
          sp_env := {[ "DB_PASSWORD" := "{{ db.password }}";
                       "JWT" := "{{ secret.jwt-key:hex }}" ]};
          sp_shared_env := ∅; sp_security := default_security; sp_files := [];
          sp_command := []; sp_args := []; sp_process := default_process; sp_assertions := [];
          sp_access := None; sp_recovery := []; sp_jobs := []; sp_downloads := [] |} |}.

Definition example_params : InstallParams := with_domain "photos.example.org".
Definition example_plan : Plan := Eval vm_compute in
  match resolve_validated (λ _, true) example_app default_guide example_params with
  | Ok plan => plan
  | Err _ => {| actions := [] |}
  end.

Lemma example_resolved :
  resolve_validated (λ _, true) example_app default_guide example_params = Ok example_plan.
Proof. by vm_compute. Qed.

(** The actions before and after the [n]th. *)
Definition before (n : nat) : list Action := take n (actions example_plan).
Definition after (n : nat) : list Action := drop (S n) (actions example_plan).

Lemma secrets_before_use_witness : supplied (actions example_plan).
Proof. exact (secrets_before_use _ _ _ _ _ example_resolved). Defined.

Lemma generated_before_deploy_witness :
  ∃ purpose, GenerateSecret "immich-jwt-key" purpose ∈ before 7.
Proof.
  refine (generated_before_deploy _ _ _ _ _ "{{ secret.jwt-key:hex }}"
    {| gs_name := "jwt-key"; gs_form := FormHex |} (before 7) (nth 7 (actions example_plan)
      (WaitHealthy "" 0)) (after 7) example_resolved _ _ _ _).
  - apply list_elem_of_In. vm_compute. tauto.
  - apply list_elem_of_In. vm_compute. tauto.
  - by vm_compute.
  - by vm_compute.
Defined.

Lemma companions_before_app_witness :
  ∃ l1 l2 l3, actions example_plan =
      l1 ++ companion_deploy example_app example_companion :: WaitHealthy "immich-ml" 120
         :: l2 ++ deploy_action example_app default_guide example_params :: l3.
Proof.
  refine (companions_before_app _ _ _ _ _ example_companion example_resolved _). by left.
Defined.

Lemma exposure_last_witness : Forall is_ingress (after (length (actions example_plan) - 1)).
Proof.
  refine (proj1 (exposure_last _ _ _ _ _ (before (length (actions example_plan) - 1))
    (nth (length (actions example_plan) - 1) (actions example_plan) (WaitHealthy "" 0)) _
    example_resolved _ _)); by vm_compute.
Defined.

Lemma mounts_are_created_witness :
  ∃ l1 l2, actions example_plan = l1 ++ deploy_action example_app default_guide example_params :: l2.
Proof.
  destruct (mounts_are_created _ _ _ _ _ example_resolved) as (l1 & l2 & H & _). by exists l1, l2.
Defined.

Lemma after_guide_guarded_witness :
  ∃ step, step ∈ actions example_plan ∧ is_blocking_step step = true.
Proof.
  destruct (after_guide_guarded _ _ _ _ _ (nth 0 (sp_ingress (mf_spec example_app))
    {| ing_host := ""; ing_port := 0; ing_chain := []; ing_expose := Private; ing_paths := [];
       ing_auth_routes := []; ing_open_paths := [] |}) example_resolved)
    as (before & routes & step & E & _ & Hin & Hb).
  - by left.
  - done.
  - intros s Hs. by apply not_elem_of_nil in Hs.
  - exists step. split; [|done]. rewrite E, elem_of_app. by left.
Defined.

Lemma database_limits_witness : Some 20%N = role_connection_limit (sp_requires (mf_spec example_app)) Postgres.
Proof.
  refine (database_limits _ _ _ _ _ Postgres "immich" "immich" "immich-db-password" ["vector"]
    (Some 20%N) example_resolved _).
  apply list_elem_of_In. vm_compute. tauto.
Defined.
