(* ===== verification/Validated.v ===== *)
(** * What an accepted manifest promises the plan

    The rules of [Validate] and [ValidateGuide] and the resolver of [Resolver] put
    together, as [resolve_with_guide] does (crates/hlb-resolver/src/lib.rs): what holds of
    a manifest that was accepted, and of the plan written from it. *)

From S2P Require Import Prelude RustStr Rbac Capability Access Guide Binding Manifest Plan Validate ValidateGuide Resolver.

(** ** Every rule holds *)

(** What each rule says once nothing is refused. *)
Record accepted (json_text : Json → string) (m : Manifest) (g : Guide) : Prop := {
  acc_ports : check_ports m = Ok ();
  acc_tmpfs : ∀ s, s ∈ services m → check_service_tmpfs m s = Ok ();
  acc_signers : ∀ i, i ∈ images m → check_signer m i = Ok ();
  acc_downloads : validate_downloads m = Ok ();
  acc_redirects : ∀ c, c ∈ sp_requires (mf_spec m) → check_redirects m c = Ok ();
  acc_tokens : ∀ t, t ∈ used_tokens (texts_of m g) → check_token m t = Ok ();
  acc_person : check_person m (used_tokens (texts_of m g)) = Ok ();
  acc_read : ∀ c, c ∈ sp_requires (mf_spec m) →
    check_read m (texts_of m g) (used_tokens (texts_of m g)) c = Ok ();
  acc_declared : declared_and_read m (used_tokens (texts_of m g)) = Ok ();
  acc_name : check_app_name m = Ok ();
  acc_generated : ∀ v, v ∈ substituted (mf_spec m) → check_generated m v = Ok ();
  acc_files : ∀ f, f ∈ service_files m → check_files m f = Ok ();
  acc_arguments : ∀ a, a ∈ commands m → check_argument m a = Ok ();
  acc_companions : each_after (check_companion_name m) [] (sp_companions (mf_spec m)) = Ok ();
  acc_foreign : ∀ c, c ∈ sp_requires (mf_spec m) → check_foreign_volume m c = Ok ();
  acc_tiers : ∀ c, c ∈ sp_requires (mf_spec m) → check_tier m c = Ok ();
  acc_paths : ∀ i, i ∈ sp_ingress (mf_spec m) → check_paths m i = Ok ();
  acc_jobs : each_after (check_job m) [] (sp_jobs (mf_spec m)) = Ok ();
  acc_assertions : validate_assertions m = Ok ();
  acc_access : validate_access json_text m = Ok ();
  acc_open : ∀ p, p ∈ sp_ingress (mf_spec m) ≫= ing_open_paths → check_open_path m p = Ok ();
  acc_auth : ∀ a, a ∈ sp_ingress (mf_spec m) ≫= ing_auth_routes → check_auth_route m a = Ok ();
  acc_memory : ∀ s, s ∈ memories m → check_memory m s = Ok () }.

Lemma validated_accepted json_text m g :
  validate_with_guide json_text m g = Ok () → accepted json_text m g.
Proof. unfold validate_with_guide. rewrite !seq_Ok, !each_Ok. intros H. by split; apply H. Qed.

Lemma resolve_with_guide_Ok is_tz json_text m g params plan :
  resolve_with_guide is_tz json_text m g params = Ok plan ↔
  validate_with_guide json_text m g = Ok () ∧ resolve_validated is_tz m g params = Ok plan.
Proof.
  unfold resolve_with_guide. destruct (validate_with_guide json_text m g) as [[]|e]; cbn; naive_solver.
Qed.

(** ** What is deployed *)

(** What is read off the deployments of a plan alone. *)
Section deploys.
Context {B : Type} (f : Action → list B) (Hf : ∀ a, ¬ is_deploy a → f a = []).

Lemma no_deploys l : (∀ a, a ∈ l → ¬ is_deploy a) → l ≫= f = [].
Proof.
  induction l as [|a l IH]; intros H; [done|]. cbn. rewrite IH by (intros; apply H; by right).
  rewrite Hf; [done|]. apply H. by left.
Qed.

Lemma companion_deploys m params c : companion_actions m params c ≫= f = f (companion_deploy m c).
Proof using Hf.
  unfold companion_actions. rewrite !bind_app, (no_deploys (_ <$> _)), (no_deploys (digest_actions _)).
  - cbn. rewrite (Hf (WaitHealthy _ _)) by kinds. by rewrite !app_nil_r.
  - unfold digest_actions. intros a Ha. destruct (is_pinned _); kinds.
  - intros a (v & -> & _)%list_elem_of_fmap. kinds.
Qed.

(** A plan deploys the companions, in order, then the app. *)
Lemma plan_deploys is_tz m g params plan :
  resolve_validated is_tz m g params = Ok plan →
  actions plan ≫= f =
    (sp_companions (mf_spec m) ≫= λ c, f (companion_deploy m c)) ++ f (deploy_action m g params).
Proof using Hf.
  intros (pre & routes & _ & Hpre & Hr & ->)%resolve_shape. rewrite !bind_app.
  rewrite (no_deploys (plan_head m g pre)) by (intros a Ha; by eapply head_kinds).
  rewrite (no_deploys (plan_steps m g params)).
  2: { unfold plan_steps, guide_actions, first_admin_actions. intros a.
       rewrite elem_of_app. intros [(s & -> & _)%list_elem_of_fmap|Ha]; [cbn; tauto|].
       unfold first_admin_step in Ha. destruct (_ && _); kinds. }
  rewrite (no_deploys routes).
  2: { intros a Ha. eapply (route_kind m params) in Ha; [|done]. by destruct a; cbn in *; try tauto. }
  rewrite !app_nil_r. unfold plan_start. cbn [app]. rewrite !bind_app.
  rewrite (no_deploys (download_actions m)) by (intros a (d & -> & _)%list_elem_of_fmap; kinds).
  cbn. rewrite (Hf (WaitHealthy _ _)) by kinds. rewrite !app_nil_r. f_equal.
  induction (sp_companions (mf_spec m)) as [|c l IH]; [done|]. cbn.
  by rewrite bind_app, companion_deploys, IH.
Qed.
End deploys.

(** ** Ports *)

(** The ports an action publishes on the node. *)
Definition action_ports (a : Action) : list PublishedPort :=
  match a with
  | DeployService _ _ _ _ _ _ hardening _ _ _ _ _ _ => sec_published_ports hardening
  | _ => []
  end.

(** A plan publishes what the manifest does, the companions' ports first. *)
Lemma plan_ports is_tz m g params plan :
  resolve_validated is_tz m g params = Ok plan →
  actions plan ≫= action_ports ≡ₚ published m.
Proof.
  intros H. erewrite plan_deploys by (done || (intros []; cbn; tauto)).
  unfold published. cbn. rewrite Permutation_app_comm. f_equiv.
  induction (sp_companions (mf_spec m)) as [|c l IH]; [done|]. cbn. by rewrite IH.
Qed.

Lemma accepted_ports m :
  check_ports m = Ok () →
  NoDup (published m) ∧ (∀ p, p ∈ published m → pp_port p ≠ 0%N) ∧
  (header_auth m = true → published m = []).
Proof.
  unfold check_ports. rewrite seq_Ok, refuse_if_Ok. intros [Hh H]. split; [|split].
  - eapply (each_after_NoDup _ id) in H; [by rewrite list_fmap_id in H|].
    intros before p (_ & Hany)%refuse_if_Ok%orb_false_iff. rewrite list_fmap_id.
    rewrite any_of_false in Hany. intros Hin. specialize (Hany p Hin).
    by rewrite bool_decide_eq_false in Hany.
  - intros p (l1 & l2 & E)%list_elem_of_split. rewrite each_after_Ok in H.
    apply H in E. cbn in E. apply refuse_if_Ok, orb_false_iff in E as [E _]. by apply N.eqb_neq.
  - intros Hha. rewrite Hha in Hh. cbn in Hh. apply negb_false_iff, bool_decide_eq_true in Hh. done.
Qed.

(** C8. An installed app never opens a way around the portal: the ports a plan publishes
    are never zero, no two services of the app publish one port, and an app that trusts
    the headers of the portal publishes none at all. *)
Theorem plan_isolated is_tz json_text m g params plan :
  resolve_with_guide is_tz json_text m g params = Ok plan →
  NoDup (actions plan ≫= action_ports) ∧
  (∀ p, p ∈ actions plan ≫= action_ports → pp_port p ≠ 0%N) ∧
  (header_auth m = true → actions plan ≫= action_ports = []).
Proof.
  intros [Hv Hp]%resolve_with_guide_Ok. apply plan_ports in Hp.
  apply validated_accepted, acc_ports, accepted_ports in Hv as (Hnd & Hz & Hha).
  split; [by rewrite Hp|]. split; [intros p; by rewrite Hp; apply Hz|].
  intros H. apply Permutation_nil. by rewrite <- (Hha H).
Qed.

(** ** Names *)

Definition deployed_name (a : Action) : list string :=
  match a with DeployService name _ _ _ _ _ _ _ _ _ _ _ _ => [name] | _ => [] end.

Lemma accepted_companions m :
  each_after (check_companion_name m) [] (sp_companions (mf_spec m)) = Ok () →
  NoDup (co_name <$> sp_companions (mf_spec m)) ∧
  ∀ c, c ∈ sp_companions (mf_spec m) → dns_name (co_name c) = true.
Proof.
  intros H. split.
  - eapply each_after_NoDup; [|done]. intros before x. unfold check_companion_name.
    rewrite seq_Ok, !refuse_if_Ok. intros [_ Hany] (y & E & Hy)%list_elem_of_fmap. rewrite any_of_false in Hany.
    specialize (Hany y Hy). by apply bool_decide_eq_false in Hany.
  - intros c (l1 & l2 & E)%list_elem_of_split. rewrite each_after_Ok in H. apply H in E.
    unfold check_companion_name in E. apply seq_Ok in E as [E _].
    by apply refuse_if_Ok, negb_false_iff in E.
Qed.

(** The services of a plan have names of their own: no companion takes another's name
    or the app's, and the app's is not one of Homelabus's services. *)
Theorem plan_names is_tz json_text m g params plan :
  resolve_with_guide is_tz json_text m g params = Ok plan →
  NoDup (actions plan ≫= deployed_name) ∧
  starts_with "hlb-" (app_name m) = false ∧ app_name m ∈ actions plan ≫= deployed_name.
Proof.
  intros [Hv Hp]%resolve_with_guide_Ok.
  erewrite plan_deploys by (done || (intros []; cbn; tauto)).
  apply validated_accepted in Hv. pose proof (acc_name _ _ _ Hv) as Hn.
  apply acc_companions, accepted_companions in Hv as [Hnd Hdns]. apply refuse_if_Ok in Hn.
  split; [|split; [done|]]; [|rewrite elem_of_app; right; by left].
  assert (E : (sp_companions (mf_spec m) ≫= λ c, deployed_name (companion_deploy m c)) =
              (λ n, app_name m +:+ "-" +:+ n) <$> (co_name <$> sp_companions (mf_spec m))).
  { clear. induction (sp_companions (mf_spec m)) as [|c l IH]; [done|]. cbn. f_equal. apply IH. }
  rewrite E. apply NoDup_app. split; [|split].
  - by apply (NoDup_fmap_2 _).
  - intros x (n & -> & _)%list_elem_of_fmap H%list_elem_of_singleton.
    assert (Hx : app_name m +:+ "-" +:+ n = app_name m +:+ "") by (rewrite append_nil_r; exact H).
    apply append_inj_l in Hx. done.
  - apply NoDup_singleton.
Qed.

(** ** Tokens *)

Lemma elem_of_used_tokens t texts :
  t ∈ used_tokens texts ↔ ∃ v, v ∈ texts ∧ contains (token_placeholder t) v = true.
Proof.
  unfold used_tokens. rewrite list_elem_of_filter, any_of_true.
  pose proof (elem_of_all_tokens t). naive_solver.
Qed.

(** A capability that fills tokens an app cannot do without. *)
Definition fills (c : Capability) : bool :=
  match c with
  | Database _ _ _ _ | Cache _ _ | Smtp _ | Sso SsoNative _ => true
  | _ => false
  end.

(** Tokens and capabilities meet: a token a value or a step of the guide holds is
    filled by a capability the app declares, a database, a cache, a mail account and an
    OIDC client the app declares are read by one of its values, every generated secret is
    written in a known form, and no command carries a token. *)
Theorem tokens_meet_capabilities json_text m g :
  validate_with_guide json_text m g = Ok () →
  (∀ v t needed, v ∈ texts_of m g → contains (token_placeholder t) v = true →
     token_requires t = Some needed → ∃ c, c ∈ sp_requires (mf_spec m) ∧ capability_id c = needed) ∧
  (∀ c, c ∈ sp_requires (mf_spec m) → fills c = true →
     ∃ v t, v ∈ texts_of m g ∧ contains (token_placeholder t) v = true ∧
       token_requires t = Some (capability_id c)) ∧
  (∀ v r, v ∈ substituted (mf_spec m) → r ∈ generated_secrets v → is_ok r = true) ∧
  (∀ a, a ∈ commands m → tokens_in a = [] ∧ generated_secrets a = []).
Proof.
  intros Hv%validated_accepted. split; [|split; [|split]].
  - intros v t needed Hin Hc Hr. assert (Ht : t ∈ used_tokens (texts_of m g))
      by (apply elem_of_used_tokens; eauto).
    apply (acc_tokens _ _ _ Hv) in Ht. unfold check_token in Ht. rewrite Hr in Ht. cbn in Ht.
    apply refuse_if_Ok, negb_false_iff, any_of_true in Ht as (c & ? & E%bool_decide_eq_true). eauto.
  - intros c Hin Hf. apply (acc_read _ _ _ Hv) in Hin. unfold check_read in Hin.
    apply refuse_if_Ok, negb_false_iff in Hin. unfold is_read in Hin.
    assert (Hany : any_of (λ t, token_requires t ==? Some (capability_id c))
              (used_tokens (texts_of m g)) = true) by (destruct c as [| |[]| | | |]; done).
    apply any_of_true in Hany as (t & (v & ? & ?)%elem_of_used_tokens & ?%bool_decide_eq_true). eauto.
  - intros v r Hin Hr. apply (acc_generated _ _ _ Hv) in Hin. unfold check_generated in Hin.
    rewrite each_Ok in Hin. specialize (Hin r Hr). by destruct r.
  - intros a Ha. apply (acc_arguments _ _ _ Hv) in Ha. unfold check_argument in Ha.
    apply refuse_if_Ok, orb_false_iff in Ha. rewrite !negb_false_iff, !bool_decide_eq_true in Ha. done.
Qed.

(** ** Downloads *)

Definition segments (dir : string) : list string := split_char "/" dir.

(** A directory holds another when the segments of the first start those of the second. *)
Lemma within_segments a b : within a b = true ↔ segments b `prefix_of` segments a.
Proof.
  unfold within, segments. rewrite orb_true_iff, bool_decide_eq_true, starts_with_true. split.
  - intros [->|(r & ->)]; [done|]. exists (split_char "/" r). rewrite append_assoc.
    apply split_char_append.
  - intros (k & E). pose proof (join_split "/" a) as Ha. rewrite E in Ha. destruct k as [|x k].
    + left. by rewrite <- Ha, app_nil_r, join_split.
    + right. exists (join "/" (x :: k)).
      rewrite join_app, join_split in Ha by (done || apply split_char_ne). by rewrite append_assoc.
Qed.

(** Accepted downloads replace nothing but their own directory: each is kept in a
    volume the app owns, under a relative path that never climbs out of it, and of two
    downloads in one volume neither's directory holds the other's. *)
Theorem downloads_disjoint json_text m g :
  validate_with_guide json_text m g = Ok () →
  (∀ d, d ∈ sp_downloads (mf_spec m) →
     owns_volume m (dl_storage d) = true ∧
     ∀ seg, seg ∈ segments (dl_into d) → seg ≠ "" ∧ seg ≠ "." ∧ seg ≠ ".." ∧ str_all name_char seg = true) ∧
  (∀ l1 d l2 e l3, sp_downloads (mf_spec m) = l1 ++ d :: l2 ++ e :: l3 →
     dl_storage d = dl_storage e →
     ¬ segments (dl_into d) `prefix_of` segments (dl_into e) ∧
     ¬ segments (dl_into e) `prefix_of` segments (dl_into d)).
Proof.
  intros Hv%validated_accepted. apply acc_downloads in Hv. unfold validate_downloads in Hv.
  rewrite each_after_Ok in Hv. cbn [app] in Hv.
  assert (Hd : ∀ l1 d l2, sp_downloads (mf_spec m) = l1 ++ d :: l2 →
    owns_volume m (dl_storage d) = true ∧ all_of segment_ok (segments (dl_into d)) = true ∧
    find_first (overlaps d) l1 = None).
  { intros l1 d l2 E. apply Hv in E. unfold check_download in E. destruct (strip_prefix _ _); [|done].
    rewrite !seq_Ok, !refuse_if_Ok, !negb_false_iff in E.
    destruct E as (_ & _ & Ho & Hs & _ & Hf). by destruct (find_first (overlaps d) l1). }
  split.
  - intros d (l1 & l2 & E)%list_elem_of_split. destruct (Hd _ _ _ E) as (Ho & Hs & _).
    split; [done|]. intros seg Hseg. rewrite all_of_true in Hs. specialize (Hs seg Hseg).
    unfold segment_ok in Hs. rewrite !andb_true_iff, !negb_true_iff, !bool_decide_eq_false in Hs.
    destruct Hs as (((Hne & ?) & ?) & ?). repeat split; try done. by intros ->.
  - intros l1 d l2 e l3 E Es.
    assert (Hf : find_first (overlaps e) (l1 ++ d :: l2) = None).
    { eapply (Hd _ _ l3). by rewrite <- app_assoc. }
    rewrite find_first_None, Forall_app, Forall_cons in Hf. destruct Hf as (_ & Hf & _).
    unfold overlaps in Hf. rewrite Es, bool_decide_eq_true_2 in Hf by done. cbn in Hf.
    apply orb_false_iff in Hf as [H1 H2]. by rewrite <- !within_segments, H1, H2.
Qed.

(** ** Volumes *)

(** A volume is created as a capability of the app's declares it. *)
Lemma volume_declared app params l plan name path tier bk sqlite :
  fold_m (resolve_capability app params) {| actions := [] |} l = Ok plan →
  CreateVolume name path tier bk sqlite ∈ actions plan →
  ∃ n copy, Storage n path tier bk sqlite copy None ∈ l ∧ name = app +:+ "-" +:+ n.
Proof.
  intros H. refine (fold_m_ind (λ p, CreateVolume name path tier bk sqlite ∈ actions p → _)
    _ _ _ _ _ _ H); [|by intros ?%not_elem_of_nil].
  intros acc c out Hc IH Hr Hin. assert (Hnew : ∀ s p, CreateVolume name path tier bk sqlite ∈
    actions (generate_once acc s p) → CreateVolume name path tier bk sqlite ∈ actions acc).
  { intros s p. unfold generate_once. case_match; [done|]. cbn. set_solver. }
  destruct c as [|? []|[]|bucket ? days|[]| |n' p' t' b' s' copy' []]; cbn in Hr;
    repeat (apply result_bind_Ok in Hr as (? & _ & Hr)); simplify_eq; try (by apply IH);
    cbn in Hin; rewrite ?elem_of_app, ?list_elem_of_singleton in Hin;
    try (by apply IH; set_solver); try (by destruct Hin as [Hin|[=]]; [eapply IH, Hnew|]).
  destruct Hin as [?|[= -> -> -> -> ->]]; [by apply IH|]. eauto.
Qed.

Lemma companion_volume m params c name path tier bk sqlite :
  CreateVolume name path tier bk sqlite ∈ companion_actions m params c → tier = TierLocal ∧ sqlite = false.
Proof.
  unfold companion_actions. rewrite !elem_of_app. intros [(v & [=] & _)%list_elem_of_fmap|[Ha|Ha]]; [done|..].
  - unfold digest_actions in Ha. destruct (is_pinned _); set_solver.
  - set_solver.
Qed.

(** Whether an action of a plan creates a volume is said by the capabilities and the
    companions alone. *)
Lemma plan_volume is_tz m g params plan name path tier bk sqlite :
  resolve_validated is_tz m g params = Ok plan →
  CreateVolume name path tier bk sqlite ∈ actions plan →
  (∃ n copy, Storage n path tier bk sqlite copy None ∈ sp_requires (mf_spec m)) ∨
  (tier = TierLocal ∧ sqlite = false).
Proof.
  intros (pre & routes & Hpre & _ & Hr & ->)%resolve_shape. rewrite !elem_of_app. intros [Ha|[Ha|[Ha|Ha]]].
  - left. unfold plan_head in Ha. rewrite !elem_of_app in Ha. destruct Ha as [Ha|[Ha|Ha]].
    + apply list_elem_of_fmap in Ha as (a & E & Hin). assert (a = CreateVolume name path tier bk sqlite)
        as -> by (by destruct a; simplify_eq/=). eapply volume_declared in Hin; [|done]. naive_solver.
    + unfold digest_actions in Ha. destruct (is_pinned _); set_solver.
    + by apply list_elem_of_fmap in Ha as (? & ? & _).
  - right. unfold plan_start in Ha. rewrite !elem_of_app in Ha. destruct Ha as [Ha|[Ha|Ha]].
    + apply list_elem_of_bind in Ha as (c & Ha & _). by eapply companion_volume.
    + by apply list_elem_of_fmap in Ha as (? & ? & _).
    + unfold deploy_action in Ha. set_solver.
  - exfalso. unfold plan_steps, guide_actions, first_admin_actions, first_admin_step in Ha.
    apply elem_of_app in Ha as [(? & ? & _)%list_elem_of_fmap|Ha]; [done|].
    destruct (_ && _); set_solver.
  - eapply (route_kind m params) in Ha; [|done]. by destruct Ha.
Qed.

Definition deploys_replicas (a : Action) : list (string * N) :=
  match a with DeployService name _ replicas _ _ _ _ _ _ _ _ _ _ => [(name, replicas)] | _ => [] end.

(** No data is lost to where it is kept: no plan puts a SQLite database on NFS, and a
    service deployed in several replicas has no volume local to a node, over which its
    data would split. *)
Theorem plan_volumes_safe is_tz json_text m g params plan :
  resolve_with_guide is_tz json_text m g params = Ok plan →
  (∀ name path tier bk, CreateVolume name path tier bk true ∈ actions plan → tier = TierLocal) ∧
  (∀ name replicas, (name, replicas) ∈ actions plan ≫= deploys_replicas → (1 < replicas)%N →
     name = app_name m ∧
     ∀ n path tier bk sqlite copy owner,
       Storage n path tier bk sqlite copy owner ∈ sp_requires (mf_spec m) → tier = TierNfs).
Proof.
  intros [Hv%validated_accepted Hp]%resolve_with_guide_Ok.
  assert (Ht : ∀ n path tier bk sqlite copy owner,
    Storage n path tier bk sqlite copy owner ∈ sp_requires (mf_spec m) →
    sqlite && (tier ==? TierNfs) = false ∧
    (tier ==? TierLocal) && (1 <? sw_replicas (sp_swarm (mf_spec m)))%N = false).
  { intros * Hin. apply (acc_tiers _ _ _ Hv) in Hin. unfold check_tier in Hin.
    by rewrite seq_Ok, !refuse_if_Ok in Hin. }
  split.
  - intros name path tier bk Hin. eapply plan_volume in Hin as [(n & copy & Hin)|[? _]]; [|done..].
    apply Ht in Hin as [Hs _]. by destruct tier.
  - intros name replicas. erewrite plan_deploys by (done || (intros []; cbn; tauto)).
    rewrite elem_of_app, list_elem_of_bind. cbn. rewrite !list_elem_of_singleton.
    intros [(c & [= -> ->]%list_elem_of_singleton & _)|[= -> ->]] Hr; [lia|].
    split; [done|]. intros * Hin. apply Ht in Hin as [_ Hs]. destruct tier; [|done].
    by apply N.ltb_lt in Hr; rewrite Hr in Hs.
Qed.

(** ** Access *)

(** A claim by level has a value for whoever is let in. *)
Lemma value_at_floor c levels role floor r :
  by_level c = Some levels → role_le floor (rv_level role) → role_le r floor → is_Some (levels !! r) →
  ∃ r' s, value_for c role = Some (JString s) ∧ levels !! r' = Some s.
Proof.
  intros Hc Hf Hr Hl. pose proof (value_for_by_level c levels role Hc) as H.
  destruct (value_for c role) as [v|].
  - destruct H as (r' & s & ? & -> & _). eauto.
  - rewrite (H r) in Hl; [by destruct Hl|]. unfold role_le in *. lia.
Qed.

(** Whoever is let into an app is told who they are: under an accepted access, every
    claim has a value for every role at or above the floor, and a claim by level gives
    a text that is not blank. *)
Theorem claims_reach_everyone json_text m g a name c role :
  validate_with_guide json_text m g = Ok () →
  sp_access (mf_spec m) = Some a → access_claims a !! name = Some c →
  role_le (access_floor a) (rv_level role) →
  ∃ v, value_for c role = Some v ∧
    (is_Some (by_level c) → ∃ s, v = JString s ∧ str_is_empty (trim s) = false).
Proof.
  intros Hv%validated_accepted Ha Hc Hf. apply acc_access in Hv. unfold validate_access in Hv.
  rewrite on_some_Ok in Hv. specialize (Hv a Ha). cbn zeta in Hv. rewrite !seq_Ok in Hv.
  destruct Hv as (_ & _ & _ & _ & _ & _ & Hcl & _). rewrite each_Ok in Hcl.
  specialize (Hcl (name, c)). rewrite elem_of_btree_entries in Hcl. specialize (Hcl Hc).
  unfold check_claim in Hcl. destruct (by_level c) as [levels|] eqn:El.
  - destruct (claim_json c); [done|]. rewrite seq_Ok, !refuse_if_Ok, negb_false_iff in Hcl.
    destruct Hcl as [Hfl Hne]. apply any_of_true in Hfl as (r & _ & Hfl).
    rewrite andb_true_iff, !bool_decide_eq_true in Hfl. destruct Hfl as [Hr Hl].
    destruct (value_at_floor c levels role (access_floor a) r El Hf Hr Hl) as (r' & s & Hval & Hs).
    exists (JString s). split; [done|]. intros _. exists s. split; [done|].
    rewrite any_of_false in Hne. apply (Hne (r', s)). by apply elem_of_map_to_list.
  - destruct (claim_json c) as [v|] eqn:Ej; [|done]. exists (fill_json v role). split; [|by intros []].
    unfold value_for. by rewrite El, Ej.
Qed.

(** ** The guide *)

Lemma max_of_spec l :
  match max_of l with
  | Some k => k ∈ l ∧ ∀ n, n ∈ l → (n ≤ k)%N
  | None => l = []
  end.
Proof.
  induction l as [|n l IH]; [done|]. cbn. destruct (max_of l) as [k|].
  - destruct IH as [Hk Hl]. split.
    + destruct (N.max_spec n k) as [[_ ->]|[_ ->]]; [by right|by left].
    + intros x [->|Hx]%elem_of_cons; [lia|]. specialize (Hl x Hx). lia.
  - subst. split; [by left|]. intros x ->%list_elem_of_singleton. lia.
Qed.

Section guide.
Context (parse_json : string → result string Json) (m : Manifest) (g : Guide).
Context (Hg : validate_guide parse_json m g = Ok ()).

Lemma accepted_step s : s ∈ guide_steps g → check_step parse_json m g s = Ok ().
Proof using Hg. unfold validate_guide in Hg. rewrite seq_Ok, each_Ok in Hg. by apply Hg. Qed.

Lemma accepted_automation s a :
  s ∈ guide_steps g → a ∈ step_automate s → check_automation parse_json m s a = Ok ().
Proof using Hg.
  intros Hs%accepted_step Ha. unfold check_step in Hs. rewrite !seq_Ok, !each_Ok in Hs. by apply Hs.
Qed.

(** A step a restore runs blocks nothing. *)
Lemma blocking_at_install s :
  s ∈ guide_steps g → is_blocking s = true → at_install (step_phase s) = true.
Proof using Hg.
  intros Hs%accepted_step Hb. unfold check_step in Hs. rewrite !seq_Ok in Hs.
  destruct Hs as (_ & Hs & _). unfold check_post_restore in Hs. destruct (step_phase s); try done.
  cbn in Hs. by rewrite Hb in Hs.
Qed.
End guide.

(** With a guide the catalog accepted, an app to be opened after its guide never has
    a route before a step that blocks: the plan asks a blocking step, and asks it before
    it opens anything. *)
Theorem guided_app_guarded is_tz json_text parse_json m g params plan i :
  resolve_with_guide is_tz json_text m g params = Ok plan →
  validate_guide parse_json m g = Ok () →
  i ∈ sp_ingress (mf_spec m) → ing_expose i = AfterGuide →
  ∃ before routes step, actions plan = before ++ routes ∧
    Forall2 (route_of m params) (sp_ingress (mf_spec m)) routes ∧
    step ∈ before ∧ is_blocking_step step = true.
Proof.
  intros [_ Hp]%resolve_with_guide_Ok Hg Hi He. eapply after_guide_guarded; [done..|].
  intros s. by apply blocking_at_install with parse_json m.
Qed.

(** The SQL a guide runs by itself is one statement whose values are bound, never
    written in it: an accepted automation is one UPDATE without a second statement, its
    highest parameter is the number of those given, its probe reads none beyond, and
    neither holds a token. *)
Theorem guide_sql_bound parse_json m g s statement params probe expect :
  validate_guide parse_json m g = Ok () →
  s ∈ guide_steps g → AutoSql statement params probe expect ∈ step_automate s →
  one_statement "update " statement = true ∧ one_statement "select " probe = true ∧
  (∀ n, n ∈ parameters statement ++ parameters probe → (n ≤ N.of_nat (length params))%N) ∧
  N.of_nat (length params) ∈ parameters statement ∧
  contains "{{" statement = false ∧ contains "{{" probe = false.
Proof.
  intros Hg Hs Ha. eapply accepted_automation in Ha; [|done..]. cbn -[check_sql_text] in Ha.
  unfold check_sql in Ha. rewrite !seq_Ok, each_Ok, !refuse_if_Ok, !negb_false_iff in Ha.
  destruct Ha as (_ & Ht & Hh%bool_decide_eq_true & _).
  assert (Htext : ∀ what text verb shown, (what, text, verb, shown) ∈
      [("statement", statement, "update ", "UPDATE"); ("probe", probe, "select ", "SELECT")] →
    one_statement verb text = true ∧ contains "{{" text = false ∧
    ∀ n, n ∈ parameters text → (n ≤ N.of_nat (length params))%N).
  { intros * Hin%Ht. unfold check_sql_text in Hin.
    rewrite !seq_Ok, !refuse_if_Ok, negb_false_iff, on_some_Ok in Hin.
    destruct Hin as (H1 & H2 & H3). split; [done|]. split; [done|]. intros n Hn.
    unfold highest_parameter in H3. pose proof (max_of_spec (parameters text)) as Hm.
    destruct (max_of (parameters text)) as [k|]; [|rewrite Hm in Hn; by apply not_elem_of_nil in Hn].
    specialize (H3 k eq_refl). apply refuse_if_Ok, N.ltb_ge in H3. apply Hm in Hn. lia. }
  pose proof (Htext "statement" statement "update " "UPDATE" ltac:(by left)) as (? & ? & Hs1).
  pose proof (Htext "probe" probe "select " "SELECT" ltac:(right; by left)) as (? & ? & Hp1).
  split; [done|]. split; [done|]. split; [|split; [|done]].
  - intros n [?|?]%elem_of_app; auto.
  - unfold highest_parameter in Hh. pose proof (max_of_spec (parameters statement)) as Hm.
    rewrite Hh in Hm. by destruct Hm.
Qed.

(** C4. An app is planned exactly when its manifest is accepted and the install was given
    what it asks: it runs on the Swarm, its time zone is known if it reads one, no
    capability misses a domain or asks for a cache of its own, every templated host has a
    domain. *)
Theorem resolve_with_guide_total is_tz json_text m g params :
  (∃ plan, resolve_with_guide is_tz json_text m g params = Ok plan) ↔
  validate_with_guide json_text m g = Ok () ∧
  sp_runtime (mf_spec m) = Swarm ∧
  (asks_timezone m = true → ∃ z, ip_timezone params = Some z ∧ is_tz z = true) ∧
  (∀ c, c ∈ sp_requires (mf_spec m) → capability_accepted params c) ∧
  (∀ i, i ∈ sp_ingress (mf_spec m) → contains "{{" (ing_host i) = true → is_Some (ip_domain params)).
Proof. rewrite <- (resolve_total is_tz m g params). setoid_rewrite resolve_with_guide_Ok. naive_solver. Qed.

(** ** A manifest these hold of *)

Definition accepted_app : Manifest :=
  let spec := mf_spec example_app in
  {| mf_api_version := V1; mf_kind := App; mf_metadata := mf_metadata example_app;
     mf_spec :=
       {| sp_image := sp_image spec; sp_runtime := Swarm;
          sp_requires := [Database Postgres None ["vector"] (Some 10%N);
                          Sso SsoNative ["/auth/login"];
                          Storage "data" "/data" TierLocal true true CopyLive None];
          sp_ingress := sp_ingress spec; sp_swarm := sp_swarm spec; sp_update := sp_update spec;
          sp_companions := sp_companions spec;
          sp_env := {[ "DB_PASSWORD" := "{{ db.password }}"; "JWT" := "{{ secret.jwt-key:hex }}";
                       "OIDC" := "{{ oidc.client_secret }}" ]};
          sp_shared_env := ∅;
          sp_security :=
            {| sec_read_only_rootfs := true; sec_no_new_privileges := true;
               sec_cap_drop := ["ALL"]; sec_cap_add := []; sec_user := None; sec_tmpfs := [];
               sec_published_ports := [{| pp_port := 2222; pp_protocol := Tcp |}] |};
          sp_files := []; sp_command := []; sp_args := ["serve"]; sp_process := default_process;
          sp_assertions := [];
          sp_access := Some
            {| access_floor := User; access_admins := None;
               access_claims := {[ "immich_role" :=
                 {| by_level := Some {[ User := "user"; Admin := "admin" ]}; claim_json := None |} ]};
               access_quota := None; access_members := None; access_accounts := None;
               access_nodes := None |};
          sp_recovery := []; sp_jobs := [];
          sp_downloads :=
            [{| dl_url := "https://example.org/models/faces.zip";
                dl_sha256 := "e3b0c44298fc1c149afbf4c8996fb92427ae41e4649b934ca495991b7852b855";
                dl_storage := "data"; dl_into := "models/faces"; dl_unzip := true |};
             {| dl_url := "https://example.org/models/clip.zip";
                dl_sha256 := "e3b0c44298fc1c149afbf4c8996fb92427ae41e4649b934ca495991b7852b855";
                dl_storage := "data"; dl_into := "models/clip"; dl_unzip := true |}] |} |}.

(** A blocking step that writes a setting by itself. *)
Definition accepted_step_sql : GuideStep :=
  {| step_id := "storage-template"; step_title := "Where the pictures are kept";
     step_phase := PostInstall; step_severity := Blocking; step_body := "";
     step_after := [];
     step_automate := [AutoSql "UPDATE settings SET value = $1 WHERE key = $2"
                        ["{{ domain }}"; "{{ db.name }}"] "SELECT 1 FROM settings WHERE key = $2" false];
     step_verify := Attest; step_deeplink := None; step_recheck := None |}.
Definition accepted_guide : Guide := {| guide_steps := [accepted_step_sql] |}.

(** A reader and a writer of JSON that know the empty object alone. *)
Definition parse_json (text : string) : result string Json :=
  if text ==? "{}" then Ok (JObject []) else Err "expected value".
Definition json_text (v : Json) : string := "{}".

Definition accepted_plan : Plan := Eval vm_compute in
  match resolve_with_guide (λ _, true) json_text accepted_app accepted_guide example_params with
  | Ok plan => plan
  | Err _ => {| actions := [] |}
  end.

Lemma app_accepted : validate_with_guide json_text accepted_app accepted_guide = Ok ().
Proof. by vm_compute. Qed.
Lemma guide_accepted : validate_guide parse_json accepted_app accepted_guide = Ok ().
Proof. by vm_compute. Qed.
Lemma app_planned :
  resolve_with_guide (λ _, true) json_text accepted_app accepted_guide example_params = Ok accepted_plan.
Proof. by vm_compute. Qed.

Lemma plan_isolated_witness : NoDup (actions accepted_plan ≫= action_ports).
Proof. exact (proj1 (plan_isolated _ _ _ _ _ _ app_planned)). Defined.

Lemma plan_names_witness : NoDup (actions accepted_plan ≫= deployed_name).
Proof. exact (proj1 (plan_names _ _ _ _ _ _ app_planned)). Defined.

Lemma tokens_meet_capabilities_witness :
  ∃ c, c ∈ sp_requires (mf_spec accepted_app) ∧ capability_id c = "database".
Proof.
  refine (proj1 (tokens_meet_capabilities _ _ _ app_accepted) "{{ db.password }}" DbPassword
    "database" _ _ _); [|by vm_compute..].
  apply list_elem_of_In. vm_compute. tauto.
Defined.

Lemma downloads_disjoint_witness :
  ¬ segments "models/faces" `prefix_of` segments "models/clip".
Proof.
  refine (proj1 (proj2 (downloads_disjoint _ _ _ app_accepted) [] _ [] _ [] eq_refl eq_refl)).
Defined.

Lemma plan_volumes_safe_witness :
  ∃ tier, CreateVolume "immich-data" "/data" tier true true ∈ actions accepted_plan ∧ tier = TierLocal.
Proof.
  exists TierLocal. assert (H : CreateVolume "immich-data" "/data" TierLocal true true ∈ actions accepted_plan)
    by (apply list_elem_of_In; vm_compute; tauto).
  split; [exact H|]. exact (proj1 (plan_volumes_safe _ _ _ _ _ _ app_planned) _ _ _ _ H).
Defined.

Lemma claims_reach_everyone_witness :
  let role := {| rv_id := "family"; rv_name := "Family"; rv_level := Operator |} in
  let c := {| by_level := Some {[ User := "user"; Admin := "admin" ]}; claim_json := None |} in
  ∃ v, value_for c role = Some v ∧
    (is_Some (by_level c) → ∃ s, v = JString s ∧ str_is_empty (trim s) = false).
Proof.
  intros role c. refine (claims_reach_everyone _ _ _ _ "immich_role" c role app_accepted eq_refl _ _).
  - by vm_compute.
  - unfold role_le. cbn. lia.
Defined.

Lemma guided_app_guarded_witness :
  ∃ step, step ∈ actions accepted_plan ∧ is_blocking_step step = true.
Proof.
  destruct (guided_app_guarded _ _ parse_json _ _ _ _ (nth 0 (sp_ingress (mf_spec accepted_app))
    {| ing_host := ""; ing_port := 0; ing_chain := []; ing_expose := Private; ing_paths := [];
       ing_auth_routes := []; ing_open_paths := [] |}) app_planned guide_accepted)
    as (before & routes & step & E & _ & Hin & Hb).
  - by left.
  - done.
  - exists step. split; [|done]. rewrite E, elem_of_app. by left.
Defined.

Lemma guide_sql_bound_witness :
  2%N ∈ parameters "UPDATE settings SET value = $1 WHERE key = $2".
Proof.
  refine (proj1 (proj2 (proj2 (proj2 (guide_sql_bound _ _ _ accepted_step_sql _
    ["{{ domain }}"; "{{ db.name }}"] _ _ guide_accepted _ _))))); by left.
Defined.

(** ** Where the rules and what they say of themselves part *)

(** An opening without its space, which is no generated secret and no token, passes where
    the comment says any other opening is refused (crates/hlb-types/src/lib.rs:1389). *)
Lemma secret_without_space_passes m : check_run_tokens m "{{secret.key}}" = Ok () ∧
  generated_secrets "{{secret.key}}" = [].
Proof. by vm_compute. Qed.

(** A segment may start with a hyphen where the comment says no option hides in a path
    (crates/hlb-types/src/lib.rs:191). *)
Lemma segment_hides_option : segment_ok "-rf" = true.
Proof. by vm_compute. Qed.

(** No statement without parameter is accepted, the rule on the last parameter asking for
    a [$0] (crates/hlb-types/src/lib.rs:1319); one that binds the last parameter only is. *)
Lemma sql_params_unread m step :
  any_of (λ c, match c with Database Postgres _ _ _ => true | _ => false end) (sp_requires (mf_spec m)) = true →
  is_ok (check_sql m step "UPDATE t SET a = 1" [] "SELECT 1") = false ∧
  is_ok (check_sql m step "UPDATE t SET a = $2" ["x"; "y"] "SELECT 1") = true.
Proof. intros H. unfold check_sql. rewrite H. by vm_compute. Qed.
