(* ===== verification/Registry.v ===== *)
(** * Image references, versions and the update channel

    [crates/hlb-registry/src/version.rs]: which tag of a registry's list a deployed tag may
    move up to, and [crates/hlb-registry/src/reference.rs]: Docker's implicit rules for
    reading an image reference, and how one is written back. *)

From S2P Require Import Prelude RustStr Manifest.

(** ** Versions *)
Module Version.

(** @ hlb-registry/src/version.rs:12-22 [Version] *)
Record Version := {
  major : N; minor : option N; patch : option N; suffix : option string; raw : string }.

(** One of the numbers after the first: absent, or a number, or the tag is refused.
    @ hlb-registry/src/version.rs:40-45 [Version::parse] *)
Definition segment (part : option string) : option (option N) :=
  match part with
  | Some p => Some <$> parse_uint u64_max p
  | None => Some None
  end.

(** @ hlb-registry/src/version.rs:25-61 [Version::parse] *)
Definition parse (tag : string) : option Version :=
  let body := default tag (strip_prefix "v" tag) in
  let '(numbers, suffix) := match split_once "-" body with
                            | Some (n, s) => (n, Some s)
                            | None => (body, None)
                            end in
  let parts := split_char "." numbers in
  major ← (head parts ≫= parse_uint u64_max);
  minor ← segment (parts !! 1%nat);
  patch ← segment (parts !! 2%nat);
  if parts !! 3%nat is Some _ then None
  else Some {| major := major; minor := minor; patch := patch; suffix := suffix; raw := tag |}.

(** @ hlb-registry/src/version.rs:63-70 [Version::cmp_numeric] *)
Definition cmp_numeric (v w : Version) : comparison :=
  match (major v ?= major w)%N with
  | Eq => match (default 0 (minor v) ?= default 0 (minor w))%N with
          | Eq => (default 0 (patch v) ?= default 0 (patch w))%N
          | c => c
          end
  | c => c
  end.

#[export] Instance comparison_eq_dec : EqDecision comparison.
Proof. solve_decision. Defined.

(** @ hlb-registry/src/version.rs:72-75 [Version::is_newer_than] *)
Definition is_newer_than (v w : Version) : bool := cmp_numeric v w ==? Gt.

(** @ hlb-registry/src/version.rs:77-86 [Version::same_flavor] *)
Definition same_flavor (v w : Version) : bool :=
  (suffix v ==? suffix w) && (starts_with "v" (raw v) ==? starts_with "v" (raw w)).

(** @ hlb-registry/src/version.rs:88-91 [Version::precision] *)
Definition precision (v : Version) : N :=
  (1 + (if minor v is Some _ then 1 else 0) + (if patch v is Some _ then 1 else 0))%N.

(** @ hlb-registry/src/version.rs:93-123 [Version::allows] *)
Definition allows (v candidate : Version) (channel : UpdateChannel) : bool :=
  if negb (same_flavor v candidate) then false
  else if negb (precision v ==? precision candidate) then false
  else if negb (cmp_numeric candidate v ==? Gt) then false
  else match channel with
       | Pin | Latest => false
       | Patch => (major candidate ==? major v) && (minor candidate ==? minor v)
       | Minor => major candidate ==? major v
       end.

(** One turn of the loop. @ hlb-registry/src/version.rs:131-143 [best_upgrade] *)
Definition consider (current : Version) (channel : UpdateChannel) (best : option Version)
    (t : string) : option Version :=
  match parse t with
  | None => best
  | Some v =>
      if negb (allows current v channel) then best
      else
        let better := match best with
                      | None => true
                      | Some b => cmp_numeric v b ==? Gt
                      end in
        if better then Some v else best
  end.

(** @ hlb-registry/src/version.rs:126-146 [best_upgrade] *)
Definition best_upgrade (current_tag : string) (tags : list string) (channel : UpdateChannel)
    : option string :=
  current ← parse current_tag;
  raw <$> fold_left (consider current channel) tags None.

(** *** The order *)

(** What [cmp_numeric] compares. *)
Definition key (v : Version) : N * N * N :=
  (major v, default 0%N (minor v), default 0%N (patch v)).
Definition key_lt (a b : N * N * N) : Prop :=
  (a.1.1 < b.1.1)%N ∨ (a.1.1 = b.1.1 ∧ ((a.1.2 < b.1.2)%N ∨ (a.1.2 = b.1.2 ∧ (a.2 < b.2)%N))).

Lemma cmp_numeric_gt v w : cmp_numeric v w = Gt ↔ key_lt (key w) (key v).
Proof.
  unfold cmp_numeric, key_lt, key. cbn.
  destruct (N.compare_spec (major v) (major w));
    [|split; [done|lia]|split; [lia|done]].
  destruct (N.compare_spec (default 0 (minor v))%N (default 0 (minor w))%N);
    [|split; [done|lia]|split; [lia|done]].
  destruct (N.compare_spec (default 0 (patch v))%N (default 0 (patch w))%N);
    split; try done; lia.
Qed.

Lemma key_lt_trans a b c : key_lt a b → key_lt b c → key_lt a c.
Proof. unfold key_lt. lia. Qed.

Lemma key_nlt_trans a b c : ¬ key_lt a b → ¬ key_lt b c → ¬ key_lt a c.
Proof. unfold key_lt. lia. Qed.

Lemma parse_raw t v : parse t = Some v → raw v = t.
Proof.
  unfold parse. destruct (match split_once _ _ with Some _ => _ | None => _ end).
  intros (? & _ & (? & _ & (? & _ & H)%bind_Some)%bind_Some)%bind_Some.
  case_match; [done|]. by injection H as <-.
Qed.

Lemma allows_true v c channel :
  allows v c channel = true ↔
  suffix c = suffix v ∧ starts_with "v" (raw c) = starts_with "v" (raw v) ∧
  precision c = precision v ∧ key_lt (key v) (key c) ∧
  match channel with
  | Pin | Latest => False
  | Patch => major c = major v ∧ minor c = minor v
  | Minor => major c = major v
  end.
Proof.
  unfold allows, same_flavor. rewrite <- cmp_numeric_gt.
  repeat case_bool_decide; cbn; destruct channel; try naive_solver;
    rewrite ?andb_true_iff, ?bool_decide_eq_true; naive_solver.
Qed.

(** The best of those seen: allowed, and no other seen is newer. *)
Definition best_of (current : Version) (channel : UpdateChannel) (seen : list string)
    (best : option Version) : Prop :=
  match best with
  | None => ∀ t v, t ∈ seen → parse t = Some v → allows current v channel = false
  | Some b =>
      raw b ∈ seen ∧ parse (raw b) = Some b ∧ allows current b channel = true ∧
      ∀ t v, t ∈ seen → parse t = Some v → allows current v channel = true →
             ¬ key_lt (key b) (key v)
  end.

Lemma consider_best current channel seen best t :
  best_of current channel seen best →
  best_of current channel (seen ++ [t]) (consider current channel best t).
Proof.
  intros H. unfold consider. destruct (parse t) as [v|] eqn:Ep.
  2:{ destruct best as [b|]; cbn in *.
      - destruct H as (? & ? & ? & Hmax). split; [set_solver|]. split; [done|]. split; [done|].
        intros t' v' [?|Ht]%elem_of_app; [by eauto|]. apply list_elem_of_singleton in Ht. congruence.
      - intros t' v' [?|Ht]%elem_of_app; [by eauto|]. apply list_elem_of_singleton in Ht. congruence. }
  pose proof (parse_raw _ _ Ep) as Hraw.
  assert (Hnew : ∀ t' v', t' ∈ seen ++ [t] → parse t' = Some v' →
            (t' ∈ seen ∧ parse t' = Some v') ∨ v' = v).
  { intros t' v' [?|Ht]%elem_of_app ?; [by left|right].
    apply list_elem_of_singleton in Ht. congruence. }
  destruct (allows current v channel) eqn:Ea; cbn.
  2:{ destruct best as [b|]; cbn in *.
      - destruct H as (? & ? & ? & Hmax). split; [set_solver|]. split; [done|]. split; [done|].
        intros t' v' Ht Hv Hal. destruct (Hnew _ _ Ht Hv) as [[? ?]| ->]; [eauto|congruence].
      - intros t' v' Ht Hv. destruct (Hnew _ _ Ht Hv) as [[? ?]| ->]; eauto. }
  assert (Hv : raw v ∈ seen ++ [t]) by set_solver.
  rewrite <- Hraw in Ep. destruct best as [b|]; cbn in *.
  - destruct H as (? & ? & ? & Hmax). case_bool_decide as Hgt; cbn.
    + apply cmp_numeric_gt in Hgt. split; [done|]. split; [done|]. split; [done|].
      intros t' v' Ht Hv' Hal Hlt. destruct (Hnew _ _ Ht Hv') as [[? ?]| ->].
      * eapply Hmax; eauto using key_lt_trans.
      * unfold key_lt in Hlt. lia.
    + rewrite cmp_numeric_gt in Hgt. split; [set_solver|]. split; [done|]. split; [done|].
      intros t' v' Ht Hv' Hal. destruct (Hnew _ _ Ht Hv') as [[? ?]| ->]; eauto.
  - split; [done|]. split; [done|]. split; [done|].
    intros t' v' Ht Hv' Hal. destruct (Hnew _ _ Ht Hv') as [[? ?]| ->].
    + by rewrite (H t' v') in Hal.
    + unfold key_lt. lia.
Qed.

Lemma fold_best current channel tags seen best :
  best_of current channel seen best →
  best_of current channel (seen ++ tags) (fold_left (consider current channel) tags best).
Proof.
  revert seen best. induction tags as [|t tags IH]; intros seen best H; cbn.
  - by rewrite app_nil_r.
  - change (t :: tags) with ([t] ++ tags). rewrite app_assoc. apply IH. by apply consider_best.
Qed.

Lemma best_upgrade_best current_tag current tags channel :
  parse current_tag = Some current →
  best_of current channel tags (fold_left (consider current channel) tags None).
Proof. intros _. apply (fold_best current channel tags [] None). intros ? ? ?%not_elem_of_nil. done. Qed.

(** *** Properties *)

(** The tag proposed as an update is one of the registry's, allowed by the channel, and
    none that is allowed is newer; and where nothing is proposed, nothing is allowed. *)
Theorem best_upgrade_spec current_tag current tags channel :
  parse current_tag = Some current →
  match best_upgrade current_tag tags channel with
  | Some t => t ∈ tags ∧ ∃ v, parse t = Some v ∧ allows current v channel = true ∧
      ∀ t' v', t' ∈ tags → parse t' = Some v' → allows current v' channel = true →
               is_newer_than v' v = false
  | None => ∀ t v, t ∈ tags → parse t = Some v → allows current v channel = false
  end.
Proof.
  intros Hc. unfold best_upgrade. rewrite Hc. cbn.
  pose proof (best_upgrade_best _ _ tags channel Hc) as H.
  destruct (fold_left _ _ _) as [b|]; cbn in *; [|done].
  destruct H as (? & ? & ? & Hmax). split; [done|]. exists b. split; [done|]. split; [done|].
  intros t' v' ? ? ?. unfold is_newer_than. apply bool_decide_eq_false.
  rewrite cmp_numeric_gt. eauto.
Qed.

Lemma best_upgrade_spec_witness :
  best_upgrade "v1.24.1" ["v1.24.3"; "1.24.9"; "v1.24.2"; "v2.0.0"; "v1.24.9-rc1"; "latest"] Patch
  = Some "v1.24.3" ∧ "v1.24.3" ∈ ["v1.24.3"; "1.24.9"; "v1.24.2"; "v2.0.0"; "v1.24.9-rc1"; "latest"].
Proof.
  split; [by vm_compute|].
  exact (proj1 (best_upgrade_spec "v1.24.1"
    {| major := 1; minor := Some 24%N; patch := Some 1%N; suffix := None; raw := "v1.24.1" |}
    ["v1.24.3"; "1.24.9"; "v1.24.2"; "v2.0.0"; "v1.24.9-rc1"; "latest"] Patch eq_refl)).
Defined.

(** What an update may never change: the major version, the variant after the hyphen,
    the leading [v], how many numbers the tag has; on [patch], the minor version either.
    It is always newer, and [pin] and [latest] propose nothing. *)
Theorem allows_guards v c channel :
  allows v c channel = true →
  major c = major v ∧ suffix c = suffix v ∧
  starts_with "v" (raw c) = starts_with "v" (raw v) ∧ precision c = precision v ∧
  is_newer_than c v = true ∧ (channel = Patch → minor c = minor v) ∧
  channel ≠ Pin ∧ channel ≠ Latest.
Proof.
  rewrite allows_true. intros (Hs & Hv & Hp & Hlt & Hch).
  apply cmp_numeric_gt in Hlt. unfold is_newer_than. rewrite bool_decide_eq_true.
  destruct channel; naive_solver.
Qed.

Lemma allows_guards_witness :
  let v := {| major := 1; minor := Some 24%N; patch := None; suffix := None; raw := "1.24" |} in
  let c := {| major := 1; minor := Some 25%N; patch := None; suffix := None; raw := "1.25" |} in
  allows v c Minor = true ∧ major c = major v.
Proof.
  intros v c. split; [by vm_compute|].
  exact (proj1 (allows_guards v c Minor eq_refl)).
Defined.

(** A tag of one number moves nowhere on any channel: [17-alpine] never moves up to
    [18-alpine], though the module's documentation says it may. *)
Lemma rolling_tag_stays v c channel : precision v = 1%N → allows v c channel = false.
Proof.
  intros Hp. apply not_true_iff_false. rewrite allows_true. intros (_ & _ & Hc & Hlt & Hch).
  rewrite Hp in Hc. unfold precision in Hp, Hc. unfold key_lt, key in Hlt. cbn in Hlt.
  destruct (minor v), (patch v), (minor c), (patch c); try lia. cbn in Hlt.
  destruct channel; naive_solver lia.
Qed.

End Version.

(** ** Image references *)
Module Reference.

(** @ hlb-registry/src/reference.rs:10-10 [DOCKER_HUB] *)
Definition DOCKER_HUB : string := "registry-1.docker.io".

(** @ hlb-registry/src/reference.rs:12-21 [ImageRef] *)
Record ImageRef := {
  registry : string; repository : string; tag : string; digest : option string }.

(** A first segment that names a registry.
    @ hlb-registry/src/reference.rs:32-37 [ImageRef::parse] *)
Definition names_registry (head : string) : bool :=
  contains_char "." head || contains_char ":" head || (head ==? "localhost").

(** @ hlb-registry/src/reference.rs:32-41 [ImageRef::parse] *)
Definition split_registry (rest : string) : string * string :=
  match split_once "/" rest with
  | Some (head, tail) => if names_registry head then (head, tail) else (DOCKER_HUB, rest)
  | None => (DOCKER_HUB, rest)
  end.

(** @ hlb-registry/src/reference.rs:43-48 [ImageRef::parse] *)
Definition split_tag (remainder : string) : string * string :=
  match rsplit_once ":" remainder with
  | Some (r, t) => if negb (contains_char "/" t) then (r, t) else (remainder, "latest")
  | None => (remainder, "latest")
  end.

(** @ hlb-registry/src/reference.rs:24-63 [ImageRef::parse] *)
Definition parse (s : string) : ImageRef :=
  let '(rest, digest) := match split_once "@" s with
                         | Some (r, d) => (r, Some d)
                         | None => (s, None)
                         end in
  let '(registry, remainder) := split_registry rest in
  let '(repo, tag) := split_tag remainder in
  {| registry := registry;
     repository := if (registry ==? DOCKER_HUB) && negb (contains_char "/" repo)
                   then "library/" +:+ repo else repo;
     tag := tag; digest := digest |}.

(** @ hlb-registry/src/reference.rs:65-71 [ImageRef::manifest_url] *)
Definition manifest_url (r : ImageRef) (reference : string) : string :=
  "https://" +:+ registry r +:+ "/v2/" +:+ repository r +:+ "/manifests/" +:+ reference.
(** @ hlb-registry/src/reference.rs:73-78 [ImageRef::blob_url] *)
Definition blob_url (r : ImageRef) (digest : string) : string :=
  "https://" +:+ registry r +:+ "/v2/" +:+ repository r +:+ "/blobs/" +:+ digest.
(** @ hlb-registry/src/reference.rs:80-85 [ImageRef::tags_url] *)
Definition tags_url (r : ImageRef) : string :=
  "https://" +:+ registry r +:+ "/v2/" +:+ repository r +:+ "/tags/list?n=1000".
(** @ hlb-registry/src/reference.rs:87-90 [ImageRef::scope] *)
Definition scope (r : ImageRef) : string := "repository:" +:+ repository r +:+ ":pull".
(** @ hlb-registry/src/reference.rs:92-94 [ImageRef::is_pinned] *)
Definition ref_is_pinned (r : ImageRef) : bool := bool_decide (is_Some (digest r)).

(** @ hlb-registry/src/reference.rs:101-111 [ImageRef::name] *)
Definition name (r : ImageRef) : string :=
  if registry r ==? DOCKER_HUB
  then default (repository r) (strip_prefix "library/" (repository r))
  else registry r +:+ "/" +:+ repository r.

(** @ hlb-registry/src/reference.rs:96-99 [ImageRef::pinned] *)
Definition pinned (r : ImageRef) (digest : string) : string :=
  name r +:+ ":" +:+ tag r +:+ "@" +:+ digest.

(** @ hlb-registry/src/reference.rs:114-122 [ImageRef::fmt] *)
Definition display (r : ImageRef) : string :=
  name r +:+ ":" +:+ tag r +:+ (if digest r is Some d then "@" +:+ d else "").

(** *** Properties *)

(** No character of a list occurs. *)
Definition lacks (cs : list ascii) (s : string) : Prop := ∀ c, c ∈ cs → contains_char c s = false.

(** The references Docker's rules read back as they are: a registry that looks like one,
    or the Hub with a path whose first segment does not. *)
Definition well_formed (r : ImageRef) : Prop :=
  lacks ["/"%char; ":"%char; "@"%char] (tag r) ∧ lacks ["@"%char] (repository r) ∧
  ((registry r ≠ DOCKER_HUB ∧ lacks ["/"%char; "@"%char] (registry r) ∧
    names_registry (registry r) = true) ∨
   (registry r = DOCKER_HUB ∧ ∃ n, repository r = "library/" +:+ n ∧ contains_char "/" n = false) ∨
   (registry r = DOCKER_HUB ∧ ∃ org n, repository r = org +:+ String "/" n ∧
      contains_char "/" org = false ∧ names_registry org = false ∧ org ≠ "library")).

Lemma split_tag_append n t :
  lacks ["/"%char; ":"%char] t → split_tag (n +:+ ":" +:+ t) = (n, t).
Proof.
  intros Ht. unfold split_tag. change (":" +:+ t) with (String ":" t).
  rewrite (rsplit_once_append ":" n t) by (apply Ht; set_solver).
  by rewrite (Ht "/"%char) by set_solver.
Qed.

(** The digest is split off whole. *)
Lemma split_digest body d :
  contains_char "@" body = false →
  match split_once "@" (body +:+ (if d is Some d then "@" +:+ d else "")) with
  | Some (r, d) => (r, Some d)
  | None => (body +:+ (if d is Some d then "@" +:+ d else ""), None)
  end = (body, d).
Proof.
  intros Hb. destruct d as [d|].
  - change ("@" +:+ d) with (String "@" d). by rewrite (split_once_append "@" body d).
  - rewrite append_nil_r. by apply split_once_None in Hb as ->.
Qed.

Lemma strip_library org n :
  contains_char "/" org = false → org ≠ "library" →
  strip_prefix "library/" (org +:+ String "/" n) = None.
Proof.
  intros Ho Hlib. destruct (strip_prefix _ _) as [x|] eqn:E; [|done]. exfalso. apply Hlib.
  apply strip_prefix_Some in E. apply (f_equal (split_once "/")) in E.
  rewrite split_once_append in E by done.
  change ("library/" +:+ x) with ("library" +:+ String "/" x) in E.
  rewrite split_once_append in E by done. congruence.
Qed.

(** What a well-formed reference is written as, before the digest, is split back. *)
Lemma name_split r :
  well_formed r →
  split_registry (name r +:+ ":" +:+ tag r) =
    (registry r, (if registry r ==? DOCKER_HUB then name r else repository r) +:+ ":" +:+ tag r).
Proof.
  intros (Ht & _ & H). unfold name. destruct H as [(Hne & Hl & Hn)|[(-> & n & -> & Hn)|(-> & org & n & -> & Ho & Hn & Hlib)]].
  - rewrite !bool_decide_eq_false_2 by done. rewrite !append_assoc. unfold split_registry.
    change ("/" +:+ ?x) with (String "/" x).
    rewrite (split_once_append "/" (registry r)) by (apply Hl; set_solver). by rewrite Hn.
  - rewrite !bool_decide_eq_true_2 by done. rewrite strip_prefix_append. cbn [from_option id].
    unfold split_registry.
    assert (split_once "/" (n +:+ ":" +:+ tag r) = None) as ->; [|done].
    apply split_once_None. rewrite !contains_char_append, Hn. cbn.
    apply (Ht "/"%char). set_solver.
  - rewrite !bool_decide_eq_true_2 by done.
    rewrite strip_library by done.
    cbn [from_option id]. unfold split_registry. rewrite append_assoc, append_cons.
    rewrite split_once_append by done. by rewrite Hn.
Qed.

Lemma name_no_at r : well_formed r → contains_char "@" (name r +:+ ":" +:+ tag r) = false.
Proof.
  intros (Ht & Hr & H). specialize (Hr "@"%char ltac:(set_solver)).
  rewrite !contains_char_append, (Ht "@"%char) by set_solver. cbn.
  rewrite !orb_false_r. unfold name. case_bool_decide.
  - destruct (strip_prefix _ _) as [x|] eqn:E; [|done].
    apply strip_prefix_Some in E. rewrite E, contains_char_append in Hr.
    by apply orb_false_iff in Hr as [_ ?].
  - destruct H as [(_ & Hl & _)|[(? & _)|(? & _)]]; [|done..].
    rewrite !contains_char_append, Hr, (Hl "@"%char) by set_solver. done.
Qed.

(** A reference written out is read back as the same image: registry, path, tag and
    digest, the Hub's implicit [library/] included. *)
Theorem image_ref_roundtrip r : well_formed r → parse (display r) = r.
Proof.
  intros Hwf. unfold parse, display. rewrite <- (append_assoc ":"), <- append_assoc.
  rewrite split_digest by (by apply name_no_at). rewrite name_split by done.
  rewrite split_tag_append by (intros c Hc; apply Hwf; set_solver).
  destruct r as [reg repo t d]. cbn [registry repository tag digest] in *. f_equal.
  destruct Hwf as (_ & _ & H). unfold name. cbn [registry repository tag digest] in *.
  destruct H as [(Hne & _)|[(-> & n & -> & Hn)|(-> & org & n & -> & Ho & Hn & Hlib)]].
  - by rewrite !bool_decide_eq_false_2.
  - rewrite !bool_decide_eq_true_2 by done. rewrite strip_prefix_append.
    cbn [from_option id andb]. by rewrite Hn.
  - rewrite !bool_decide_eq_true_2 by done. rewrite strip_library by done.
    cbn [from_option id andb]. rewrite contains_char_append, contains_char_cons.
    by rewrite bool_decide_eq_true_2, orb_true_r by done.
Qed.

Lemma image_ref_roundtrip_witness :
  parse "ghcr.io/pocket-id/pocket-id:v1@sha256:ab" =
    {| registry := "ghcr.io"; repository := "pocket-id/pocket-id"; tag := "v1";
       digest := Some "sha256:ab" |} ∧
  parse (display {| registry := DOCKER_HUB; repository := "library/postgres"; tag := "17-alpine";
                    digest := None |})
  = {| registry := DOCKER_HUB; repository := "library/postgres"; tag := "17-alpine"; digest := None |}.
Proof.
  split; [by vm_compute|]. apply image_ref_roundtrip. unfold well_formed. cbn.
  split; [|split].
  - intros c Hc. set_unfold in Hc. destruct Hc as [->|[->|[->|[]]]]; by vm_compute.
  - intros c Hc. set_unfold in Hc. destruct Hc as [->|[]]; by vm_compute.
  - right. left. split; [done|]. by exists "postgres".
Defined.

(** A path on the Hub whose first segment has a dot is not read back. *)
Lemma dotted_path_not_read_back :
  parse (display {| registry := DOCKER_HUB; repository := "my.org/app"; tag := "1"; digest := None |})
  = {| registry := "my.org"; repository := "app"; tag := "1"; digest := None |}.
Proof. by vm_compute. Qed.

End Reference.
