(* ===== verification/Schedule.v ===== *)
(** * Schedules, retention and maintenance windows

    [crates/hlb-backup/src/schedule.rs]: an interval since the last success, and the text
    durations are written in; [crates/hlb-backup/src/retention.rs]: what restic is told to
    keep; [crates/hlb-updater/src/window.rs]: when an update may be applied. *)

From S2P Require Import Prelude RustStr.

(** ** Backup schedules *)
Module Schedule.

(** A [Duration] is its nanoseconds: at most [u64::MAX] seconds and 999,999,999 more. *)
Definition NANOS : N := 1000000000.
Definition duration_max : N := (u64_max * NANOS + (NANOS - 1))%N.

Definition from_secs (s : N) : N := (s * NANOS)%N.
Definition as_secs (d : N) : N := (d / NANOS)%N.

(** [Duration * u32]: panics past [Duration::MAX]. *)
Definition duration_mul (d n : N) : outcome N :=
  if decide (d * n ≤ duration_max)%N then Returns (d * n)%N else Panics.

(** @ hlb-backup/src/schedule.rs:18-24 [Schedule] *)
Record Schedule := { every : N }.

(** @ hlb-backup/src/schedule.rs:26-33 [Schedule::default] *)
Definition default_schedule : Schedule := {| every := from_secs (4 * 3600) |}.

(** @ hlb-backup/src/schedule.rs:40-50 [Schedule::is_due] *)
Definition is_due (s : Schedule) (since_last_success : option N) : bool :=
  match since_last_success with None => true | Some age => (every s <=? age)%N end.

(** [saturating_sub] is the truncated subtraction of [N].
    @ hlb-backup/src/schedule.rs:52-58 [Schedule::time_until_due] *)
Definition time_until_due (s : Schedule) (since_last_success : option N) : N :=
  match since_last_success with None => 0%N | Some age => (every s - age)%N end.

(** @ hlb-backup/src/schedule.rs:60-69 [Schedule::is_overdue] *)
Definition is_overdue (s : Schedule) (since_last_success : option N) : outcome bool :=
  match since_last_success with
  | None => Returns false
  | Some age => match duration_mul (every s) 3 with
                | Returns t => Returns (t <=? age)%N
                | Panics => Panics
                end
  end.

(** @ hlb-backup/src/schedule.rs:71-77 [Schedule::overdue_after] *)
Definition overdue_after (s : Schedule) : outcome N := duration_mul (every s) 3.

(** @ hlb-backup/src/schedule.rs:85-97 [readable_duration::serialize] *)
Definition serialize (d : N) : string :=
  let secs := as_secs d in
  if ((secs mod 86400 =? 0) && (0 <? secs))%N then show_N (secs / 86400) +:+ "d"
  else if ((secs mod 3600 =? 0) && (0 <? secs))%N then show_N (secs / 3600) +:+ "h"
  else if ((secs mod 60 =? 0) && (0 <? secs))%N then show_N (secs / 60) +:+ "m"
  else show_N secs +:+ "s".

(** The products are of [u64]: they wrap.
    @ hlb-backup/src/schedule.rs:112-118 [readable_duration::parse] *)
Definition in_unit (unit_ : ascii) (n : N) : option N :=
  match unit_ with
  | "s"%char => Some n
  | "m"%char => Some (wrap_u64 (n * 60))
  | "h"%char => Some (wrap_u64 (n * 3600))
  | "d"%char => Some (wrap_u64 (n * 86400))
  | _ => None
  end.

(** [split_at] inside a character panics.
    @ hlb-backup/src/schedule.rs:108-121 [readable_duration::parse] *)
Definition parse (s : string) : outcome (option N) :=
  match split_last (trim s) with
  | None => Returns None
  | Some (count, last) =>
      if is_cont last then Panics
      else Returns (
        n ← parse_uint u64_max count;
        secs ← in_unit last n;
        if (0 <? secs)%N then Some (from_secs secs) else None)
  end.

(** *** Properties *)

(** A number then a unit, as [parse] splits it. *)
Lemma parse_show n u :
  (n ≤ u64_max)%N → is_graph u = true →
  parse (show_N n +:+ String u "") =
  if is_cont u then Panics
  else Returns (
    secs ← in_unit u n;
    if (0 <? secs)%N then Some (from_secs secs) else None).
Proof.
  intros Hn Hu. unfold parse. rewrite trim_show_unit by done. rewrite split_last_append.
  by rewrite parse_uint_show.
Qed.

Lemma wrap_u64_small n : (n ≤ u64_max)%N → wrap_u64 n = n.
Proof. intros. unfold wrap_u64. apply N.mod_small. lia. Qed.

(** A whole number of units, written and read back. *)
Lemma parse_whole secs k u :
  (secs mod k = 0)%N → (0 < secs ≤ u64_max)%N → (0 < k)%N →
  (u = "s"%char ∧ k = 1%N ∨ u = "m"%char ∧ k = 60%N ∨ u = "h"%char ∧ k = 3600%N
   ∨ u = "d"%char ∧ k = 86400%N) →
  parse (show_N (secs / k) +:+ String u "") = Returns (Some (from_secs secs)).
Proof.
  intros Hm Hs Hk Hu.
  assert (Hd : (secs / k * k = secs)%N) by (pose proof (N.div_mod secs k); lia).
  assert (Hle : (secs / k ≤ u64_max)%N) by nia.
  assert (H0 : (0 <? secs)%N = true) by (apply N.ltb_lt; lia).
  rewrite parse_show; [|done|by destruct Hu as [[-> _]|[[-> _]|[[-> _]|[-> _]]]]].
  assert (Hin : in_unit u (secs / k) = Some secs).
  { destruct Hu as [[-> ->]|[[-> ->]|[[-> ->]|[-> ->]]]]; cbn -[wrap_u64 N.div];
      rewrite ?Hd, ?wrap_u64_small by lia; by rewrite ?N.div_1_r. }
  rewrite Hin. cbn -[N.ltb from_secs]. rewrite H0.
  by destruct Hu as [[-> _]|[[-> _]|[[-> _]|[-> _]]]].
Qed.

(** A duration of whole seconds is read back from what is written of it, in days,
    hours, minutes or seconds. *)
Theorem duration_roundtrip secs :
  (0 < secs ≤ u64_max)%N → parse (serialize (from_secs secs)) = Returns (Some (from_secs secs)).
Proof.
  intros Hs. unfold serialize, as_secs. cbn zeta.
  replace (from_secs secs / NANOS)%N with secs by (unfold from_secs; by rewrite N.div_mul).
  assert (H0 : (0 <? secs)%N = true) by (apply N.ltb_lt; lia). rewrite H0, !andb_true_r.
  repeat match goal with |- context [(?a =? 0)%N] => destruct (N.eqb_spec a 0) end.
  - apply parse_whole; auto; lia.
  - apply parse_whole; auto; lia.
  - apply parse_whole; auto; lia.
  - rewrite <- (N.div_1_r secs) at 1. apply parse_whole; auto; [apply N.mod_1_r|lia].
Qed.

Lemma duration_roundtrip_witness :
  serialize (from_secs 604800) = "7d" ∧ parse "7d" = Returns (Some (from_secs 604800)).
Proof.
  split; [by vm_compute|]. exact (duration_roundtrip 604800 ltac:(by vm_compute)).
Defined.

(** Work is due from the first, and again once the interval is past: being due is
    having nothing left to wait; what is overdue is due; what never succeeded is due and
    not overdue; and lateness only grows with age. *)
Theorem schedule_spec s since :
  is_due s since = (time_until_due s since =? 0)%N ∧
  (is_overdue s since = Returns true → is_due s since = true) ∧
  is_due s None = true ∧ is_overdue s None = Returns false ∧
  (∀ age age', (age ≤ age')%N → is_due s (Some age) = true → is_due s (Some age') = true).
Proof.
  split; [|split; [|split; [done|split; [done|]]]].
  - destruct since as [age|]; cbn; [|done].
    destruct (N.leb_spec (every s) age), (N.eqb_spec (every s - age) 0); try done; lia.
  - destruct since as [age|]; cbn; [|done]. unfold duration_mul. case_decide; [|done].
    intros [= Hle%N.leb_le]. apply N.leb_le. lia.
  - cbn. intros age age' ? ?%N.leb_le. apply N.leb_le. lia.
Qed.

Lemma schedule_spec_witness :
  is_overdue default_schedule (Some (from_secs 43200)) = Returns true ∧
  is_due default_schedule (Some (from_secs 43200)) = true.
Proof.
  split; [by vm_compute|].
  refine (proj1 (proj2 (schedule_spec default_schedule (Some (from_secs 43200)))) _).
  by vm_compute.
Defined.

(** A number of days past [u64] in seconds is read as another duration, short of what was
    written, where the sizes of a manifest refuse such a product. *)
Lemma duration_wraps : parse "213503982334602d" = Returns (Some (from_secs 61184)).
Proof. by vm_compute. Qed.

(** A unit outside ASCII panics, where the same text given to [hlb] on its command line is
    refused. *)
Lemma duration_panics : parse "30é" = Panics.
Proof. by vm_compute. Qed.

(** A schedule of a third of [Duration::MAX] panics the check that reads it. *)
Lemma overdue_panics :
  parse "71167994111535d" = Returns (Some (from_secs 6148914691236624000)) ∧
  overdue_after {| every := from_secs 6148914691236624000 |} = Panics.
Proof. split; by vm_compute. Qed.

End Schedule.

(** ** Retention *)
Module Retention.

(** @ hlb-backup/src/retention.rs:10-18 [RetentionPolicy] *)
Record RetentionPolicy := {
  hourly : N; daily : N; weekly : N; monthly : N; yearly : N }.

(** @ hlb-backup/src/retention.rs:20-35 [RetentionPolicy::default] *)
Definition default_policy : RetentionPolicy :=
  {| hourly := 24; daily := 14; weekly := 8; monthly := 12; yearly := 3 |}.

(** The flags and what each keeps. @ hlb-backup/src/retention.rs:41-47 [RetentionPolicy::to_args] *)
Definition flags (p : RetentionPolicy) : list (string * N) :=
  [("--keep-hourly", hourly p); ("--keep-daily", daily p); ("--keep-weekly", weekly p);
   ("--keep-monthly", monthly p); ("--keep-yearly", yearly p)].

(** @ hlb-backup/src/retention.rs:38-54 [RetentionPolicy::to_args] *)
Definition to_args (p : RetentionPolicy) : list string :=
  flags p ≫= λ '(flag, n), if (0 <? n)%N then [flag; show_N n] else [].

(** The sum is of [u32]: it wraps. @ hlb-backup/src/retention.rs:56-59 [RetentionPolicy::keeps_something] *)
Definition keeps_something (p : RetentionPolicy) : bool :=
  (0 <? wrap_u32 (wrap_u32 (wrap_u32 (wrap_u32 (hourly p + daily p) + weekly p) + monthly p)
                  + yearly p))%N.

(** @ hlb-backup/src/retention.rs:61-77 [RetentionPolicy::horizon_days] *)
Definition horizon_days (p : RetentionPolicy) : N :=
  let d := 0%N in
  let d := if (0 <? yearly p)%N then N.max d (wrap_u32 (yearly p * 365)) else d in
  let d := if (0 <? monthly p)%N then N.max d (wrap_u32 (monthly p * 30)) else d in
  let d := if (0 <? weekly p)%N then N.max d (wrap_u32 (weekly p * 7)) else d in
  if (0 <? daily p)%N then N.max d (daily p) else d.

(** *** Properties *)

Lemma to_args_nil p :
  to_args p = [] ↔ (hourly p = 0 ∧ daily p = 0 ∧ weekly p = 0 ∧ monthly p = 0 ∧ yearly p = 0)%N.
Proof.
  unfold to_args, flags. cbn -[N.ltb show_N].
  repeat match goal with |- context [(0 <? ?n)%N] => destruct (N.ltb_spec 0 n) end;
    cbn; split; try done; lia.
Qed.

(** The guard before a [forget] means what it says, for counts whose sum fits 32 bits:
    it passes exactly when restic is given something to keep. *)
Theorem keeps_something_spec p :
  (hourly p + daily p + weekly p + monthly p + yearly p ≤ u32_max)%N →
  keeps_something p = true ↔ to_args p ≠ [].
Proof.
  intros Hs. rewrite to_args_nil. unfold keeps_something, wrap_u32.
  rewrite (N.mod_small (hourly p + daily p)) by lia.
  rewrite (N.mod_small (hourly p + daily p + weekly p)) by lia.
  rewrite (N.mod_small (hourly p + daily p + weekly p + monthly p)) by lia.
  rewrite N.mod_small by lia. rewrite N.ltb_lt. lia.
Qed.

Lemma keeps_something_spec_witness : to_args default_policy ≠ [].
Proof. apply (keeps_something_spec default_policy); by vm_compute. Defined.

(** Counts that add up to 2^32 are refused as keeping nothing. *)
Lemma keeps_something_wraps :
  let p := {| hourly := u32_max; daily := 1; weekly := 0; monthly := 0; yearly := 0 |} in
  keeps_something p = false ∧ to_args p = ["--keep-hourly"; "4294967295"; "--keep-daily"; "1"].
Proof. by vm_compute. Qed.

End Retention.

(** ** Maintenance windows *)
Module Window.

(** The days, [Mon] first. [Weekday::pred] is the day before, around the week. *)
Inductive Weekday := Mon | Tue | Wed | Thu | Fri | Sat | Sun.
#[export] Instance Weekday_eq_dec : EqDecision Weekday.
Proof. solve_decision. Defined.

Definition pred (d : Weekday) : Weekday :=
  match d with
  | Mon => Sun | Tue => Mon | Wed => Tue | Thu => Wed | Fri => Thu | Sat => Fri | Sun => Sat
  end.

Definition num_days_from_monday (d : Weekday) : Z :=
  match d with Mon => 0 | Tue => 1 | Wed => 2 | Thu => 3 | Fri => 4 | Sat => 5 | Sun => 6 end.

(** @ hlb-updater/src/window.rs:17-27 [ParseError] *)
Inductive ParseError :=
| Shape (input : string)
| BadDay (input day : string)
| BadTime (input time : string).

(** Times are minutes of the day: a window is written to the minute.
    @ hlb-updater/src/window.rs:29-35 [MaintenanceWindow] *)
Record MaintenanceWindow := { days : list Weekday; start : Z; end_ : Z }.

(** No name of a day differs in Unicode's lower case from ASCII's.
    @ hlb-updater/src/window.rs:103-121 [parse_day] *)
Definition parse_day (s input : string) : result ParseError Weekday :=
  let l := to_ascii_lowercase s in
  if bool_decide (l ∈ ["mon"; "lun"]) then Ok Mon
  else if bool_decide (l ∈ ["tue"; "mar"]) then Ok Tue
  else if bool_decide (l ∈ ["wed"; "mer"]) then Ok Wed
  else if bool_decide (l ∈ ["thu"; "jeu"]) then Ok Thu
  else if bool_decide (l ∈ ["fri"; "ven"]) then Ok Fri
  else if bool_decide (l ∈ ["sat"; "sam"]) then Ok Sat
  else if bool_decide (l ∈ ["sun"; "dim"]) then Ok Sun
  else Err (BadDay input s).

(** [NaiveTime::parse_from_str] of [chrono], as the minute of the day. *)
Section parse.
Context (parse_hm : string → option Z).

(** @ hlb-updater/src/window.rs:96-101 [parse_time] *)
Definition parse_time (s input : string) : result ParseError Z :=
  ok_or (BadTime input s) (parse_hm s).

(** @ hlb-updater/src/window.rs:38-62 [MaintenanceWindow::parse] *)
Definition parse (s : string) : result ParseError MaintenanceWindow :=
  let s := trim s in
  '(days_part, range) ← ok_or (Shape s) (rsplit_once " " s);
  '(from, to) ← ok_or (Shape s) (split_once "-" range);
  start ← parse_time (trim from) s;
  end_ ← parse_time (trim to) s;
  let days_part := trim days_part in
  days ← (if bool_decide (days_part ∈ ["daily"; "*"; "every"]) then Ok []
          else mapM (λ d, parse_day (trim d) s) (split_char "," days_part));
  Ok {| days := days; start := start; end_ := end_ |}.
End parse.

(** @ hlb-updater/src/window.rs:64-67 [MaintenanceWindow::wraps_midnight] *)
Definition wraps_midnight (w : MaintenanceWindow) : bool := (end_ w <=? start w)%Z.

(** @ hlb-updater/src/window.rs:87-89 [MaintenanceWindow::day_matches] *)
Definition day_matches (w : MaintenanceWindow) (d : Weekday) : bool :=
  match days w with [] => true | _ => bool_decide (d ∈ days w) end.

(** [now] as its day and its minute of the day, the seconds dropped.
    @ hlb-updater/src/window.rs:69-85 [MaintenanceWindow::is_open_at] *)
Definition is_open_at (w : MaintenanceWindow) (today : Weekday) (t : Z) : bool :=
  if negb (wraps_midnight w)
  then day_matches w today && (start w <=? t)%Z && (t <? end_ w)%Z
  else if day_matches w today && (start w <=? t)%Z then true
  else day_matches w (pred today) && (t <? end_ w)%Z.

(** *** Specification *)

Definition DAY : Z := 1440.
Definition WEEK : Z := 7 * DAY.

(** How long a window stays open: to its end of the same day, or of the next one. *)
Definition length_of (w : MaintenanceWindow) : Z :=
  (end_ w - start w + if wraps_midnight w then DAY else 0)%Z.

(** The minute of the week. *)
Definition minute_of (d : Weekday) (t : Z) : Z := (num_days_from_monday d * DAY + t)%Z.

(** [now] is within [length_of] minutes after the window opened on a declared day, around
    the week. *)
Definition open_spec (w : MaintenanceWindow) (today : Weekday) (t : Z) : Prop :=
  ∃ d, day_matches w d = true ∧
    ((minute_of today t - minute_of d (start w)) mod WEEK < length_of w)%Z.

(** *** Properties *)

(** The minutes since a window opened on [d], read on [today]: less than a day and its
    length only when [d] is today or the day before. *)
Lemma since_open today d t s len :
  (0 ≤ t < DAY)%Z → (0 ≤ s < DAY)%Z → (0 < len ≤ DAY)%Z →
  ((minute_of today t - minute_of d s) mod WEEK < len)%Z ↔
  (d = today ∧ (s ≤ t < s + len)%Z) ∨ (d = pred today ∧ (t + DAY < s + len)%Z).
Proof.
  unfold minute_of, WEEK, DAY. intros Ht Hs Hl.
  destruct today, d; cbn [num_days_from_monday pred];
    (split; [intros H|intros [[? H]|[? H]]; try done];
     [ first [left; split; [done|]; Z.to_euclidean_division_equations; lia
             | right; split; [done|]; Z.to_euclidean_division_equations; lia
             | exfalso; Z.to_euclidean_division_equations; lia ]
     | Z.to_euclidean_division_equations; lia .. ]).
Qed.

Lemma length_bounds w :
  (0 ≤ start w < DAY)%Z → (0 ≤ end_ w < DAY)%Z → (0 < length_of w ≤ DAY)%Z.
Proof.
  unfold length_of, wraps_midnight, DAY. intros ? ?.
  destruct (Z.leb_spec (end_ w) (start w)); lia.
Qed.

(** A maintenance window is open exactly during the minutes that follow its opening on
    one of its days, to its end: on the same day, or - when it crosses midnight - into
    the next, whatever day of the week that is. *)
Theorem is_open_at_spec w today t :
  (0 ≤ t < DAY)%Z → (0 ≤ start w < DAY)%Z → (0 ≤ end_ w < DAY)%Z →
  is_open_at w today t = true ↔ open_spec w today t.
Proof.
  intros Ht Hs He. pose proof (length_bounds w Hs He) as Hl.
  assert (Hspec : open_spec w today t ↔
    (day_matches w today = true ∧ (start w ≤ t < start w + length_of w)%Z) ∨
    (day_matches w (pred today) = true ∧ (t + DAY < start w + length_of w)%Z)).
  { unfold open_spec. setoid_rewrite since_open; [|done..]. naive_solver. }
  rewrite Hspec. unfold is_open_at, length_of, wraps_midnight, DAY in *.
  destruct (Z.leb_spec (end_ w) (start w)); cbn [negb].
  - destruct (day_matches w today && (start w <=? t)%Z) eqn:E.
    + apply andb_true_iff in E as [E1 E2%Z.leb_le]. split; [intros _|done].
      left. split; [done|lia].
    + rewrite andb_true_iff, Z.ltb_lt. apply andb_false_iff in E. rewrite Z.leb_gt in E.
      split; [intros [? ?]; right; split; [done|lia]|].
      intros [[? ?]|[? ?]]; [|split; [done|lia]]. destruct E; [congruence|lia].
  - rewrite !andb_true_iff, Z.leb_le, Z.ltb_lt.
    split; [intros [[? ?] ?]; left; split; [done|lia]|].
    intros [[? ?]|[? ?]]; [split; [split; [done|]|]; lia|lia].
Qed.

Lemma is_open_at_spec_witness :
  let w := {| days := [Sun]; start := 1380; end_ := 120 |} in
  is_open_at w Mon 60 = true ∧ open_spec w Mon 60 ∧ is_open_at w Sun 60 = false.
Proof.
  intros w. split; [by vm_compute|]. split; [|by vm_compute].
  apply (is_open_at_spec w Mon 60); vm_compute; intuition congruence.
Defined.

(** What is read of a window has its times within the day, and its days are the declared
    ones; a day the list does not know is refused by name. *)
Lemma parse_bounds parse_hm s w :
  (∀ x m, parse_hm x = Some m → (0 ≤ m < DAY)%Z) →
  parse parse_hm s = Ok w → (0 ≤ start w < DAY)%Z ∧ (0 ≤ end_ w < DAY)%Z.
Proof.
  intros Hhm. unfold parse, parse_time. rewrite result_bind_Ok. intros ([dp range] & _ & H).
  apply result_bind_Ok in H as ([from to] & _ & H).
  apply result_bind_Ok in H as (st & Hst%ok_or_Ok & H).
  apply result_bind_Ok in H as (en & Hen%ok_or_Ok & H).
  apply result_bind_Ok in H as (ds & _ & [= <-]). cbn. eauto.
Qed.

End Window.
