(* ===== verification/Split.v ===== *)
(** * A key split among relatives

    [crates/hlb-secrets/src/split.rs]: what a share is printed as, how it is read back,
    the checksum that names a mistyped one, and how shares rebuild a key. The secret
    sharing itself ([blahaj]), the key ([age]) and its text form ([bech32]) are crates the
    source calls: the interfaces [Shamir] and [AgeKey] say what it relies on them for. *)

From S2P Require Import Prelude RustStr Encoding.

Section definitions.
Local Open Scope N_scope.

(** @ hlb-secrets/src/split.rs:23-25 [MAX_SHARES] *)
Definition MAX_SHARES : N := 15.
Definition VERSION : N := 1.
(** @ hlb-secrets/src/split.rs:28-28 [MODHEX] *)
Definition MODHEX : list ascii := chars "cbdefghijklnrtuv".
Definition KEY_LEN : nat := 32.
(** @ hlb-secrets/src/split.rs:30-31 [LEN] *)
Definition LEN : nat := (1 + 2 + 1 + 1 + KEY_LEN + 2)%nat.

(** @ hlb-secrets/src/split.rs:35-85 [Error] *)
Inductive Error :=
| Shape (threshold count : N)
| NoShare
| Malformed (at_ : nat) (why : string)
| Mistyped (at_ : nat)
| OtherSplit (at_ : nat) (theirs ours : string)
| Twice (index count : N)
| TooFew (needed : N) (given : nat) (split : string)
| WrongKey (split : string)
| Seal (why : string)
| Open (why : string).

(** @ hlb-secrets/src/split.rs:96-104 [Share] *)
Record Share := {
  sh_split : N * N; sh_threshold : N; sh_count : N; sh_index : N; sh_y : list N }.

(** One shift of the register: the bit pushed out is divided by the polynomial.
    @ hlb-secrets/src/split.rs:415-421 [crc16] *)
Definition crc_step (c : N) : N :=
  if decide (N.land c 0x8000 ≠ 0) then N.lxor (wrap_u16 (N.shiftl c 1)) 0x1021
  else wrap_u16 (N.shiftl c 1).

(** Eight shifts: the whole of what a byte does.
    @ hlb-secrets/src/split.rs:415-421 [crc16] *)
Definition crc_shift8 (c : N) : N := fold_left (λ c _, crc_step c) (seq 0 8) c.

(** @ hlb-secrets/src/split.rs:414-422 [crc16] *)
Definition crc_byte (crc b : N) : N := crc_shift8 (N.lxor crc (wrap_u16 (N.shiftl b 8))).

(** @ hlb-secrets/src/split.rs:411-423 [crc16] *)
Definition crc16 (bytes : list N) : N := fold_left crc_byte bytes 0xffff.

Definition modhex_letter (n : N) : ascii := default "c"%char (MODHEX !! N.to_nat n).

(** @ hlb-secrets/src/split.rs:425-431 [modhex] *)
Definition modhex (bytes : list N) : string :=
  of_chars (modhex_letter <$> (bytes ≫= λ b, [N.shiftr b 4; N.land b 0x0f])).

(** @ hlb-secrets/src/split.rs:130-133 [Share::split_id] *)
Definition share_split_id (s : Share) : string := modhex [(sh_split s).1; (sh_split s).2].

(** What the checksum covers. @ hlb-secrets/src/split.rs:135-143 [Share::bytes] *)
Definition share_body (s : Share) : list N :=
  [VERSION; (sh_split s).1; (sh_split s).2;
   N.lor (wrap_u8 (N.shiftl (sh_threshold s) 4)) (sh_count s); sh_index s] ++ sh_y s.

(** @ hlb-secrets/src/split.rs:135-145 [Share::bytes] *)
Definition share_bytes (s : Share) : list N :=
  share_body s ++ be_bytes 2 (crc16 (share_body s)).

(** @ hlb-secrets/src/split.rs:147-156 [Share::groups] *)
Definition groups (s : Share) : list string :=
  of_chars <$> chunks 6 (chars (modhex (share_bytes s))).

(** What is neither a space nor a dash.
    @ hlb-secrets/src/split.rs:161-164 [Share::read] *)
Definition is_letter (c : ascii) : bool :=
  negb (is_ascii_whitespace c) && negb (bool_decide (c = "-"%char)).

(** @ hlb-secrets/src/split.rs:161-165 [Share::read] *)
Definition letters_of (text : string) : list ascii := ascii_lower <$> keep is_letter (chars text).

Fixpoint position (c : ascii) (l : list ascii) : option N :=
  match l with
  | [] => None
  | d :: l => if decide (d = c) then Some 0 else N.succ <$> position c l
  end.

(** @ hlb-secrets/src/split.rs:182-182 [Share::read] *)
Definition nibble (c : ascii) : N := default 0 (position c MODHEX).

(** @ hlb-secrets/src/split.rs:183-186 [Share::read] *)
Definition pack (letters : list ascii) : list N :=
  (λ pair, N.lor (wrap_u8 (N.shiftl (nibble (default "c"%char (pair !! 0%nat))) 4))
                 (nibble (default "c"%char (pair !! 1%nat)))) <$> chunks 2 letters.

(** @ hlb-secrets/src/split.rs:187-189 [Share::read] *)
Definition checksum_ok (b : list N) : bool :=
  be_bytes 2 (crc16 (take (LEN - 2) b)) ==? drop (LEN - 2) b.

(** @ hlb-secrets/src/split.rs:196-204 [Share::read] *)
Definition share_of (b : list N) : Share :=
  let at_ i := default 0 (b !! i) in
  {| sh_split := (at_ 1%nat, at_ 2%nat);
     sh_threshold := N.shiftr (at_ 3%nat) 4;
     sh_count := N.land (at_ 3%nat) 0x0f;
     sh_index := at_ 4%nat;
     sh_y := take KEY_LEN (drop 5 b) |}.

Definition quoted (c : ascii) : string := String "034" (String c (String "034" "")).

(** @ hlb-secrets/src/split.rs:158-207 [Share::read] *)
Definition read (text : string) (at_ : nat) : result Error Share :=
  let letters := letters_of text in
  match find_first (λ c, negb (bool_decide (c ∈ MODHEX))) letters with
  | Some c =>
      Err (Malformed at_ (quoted c +:+ " is not one of its letters (" +:+ of_chars MODHEX +:+ ")"))
  | None =>
      if negb (length letters =? LEN * 2)%nat
      then Err (Malformed at_ (show_nat (length letters) +:+ " letters, where a share has "
                               +:+ show_nat (LEN * 2)))
      else
        let b := pack letters in
        if negb (checksum_ok b) then Err (Mistyped at_)
        else if negb (default 0 (b !! 0%nat) =? VERSION)
        then Err (Malformed at_ ("made by a newer hlb (format " +:+ show_N (default 0 (b !! 0%nat))
                                 +:+ ")"))
        else Ok (share_of b)
  end.

(** @ hlb-secrets/src/split.rs:209-211 [Share::label] *)
Definition label (s : Share) : string :=
  share_split_id s +:+ " (" +:+ show_N (sh_threshold s) +:+ " of " +:+ show_N (sh_count s) +:+ ")".

(** The lines taken so far, and the share being typed.
    @ hlb-secrets/src/split.rs:279-289 [gather] *)
Definition gather_line (st : list string * string) (line : string) : list string * string :=
  let '(shares, current) := st in
  let current := current +:+ line +:+ " " in
  if (LEN * 2 <=? length (keep is_letter (chars current)))%nat
  then (shares ++ [current], "") else (shares, current).

(** @ hlb-secrets/src/split.rs:273-294 [gather] *)
Definition gather (lines : list string) : list string :=
  let '(shares, current) := fold_left gather_line lines ([], "") in
  if negb (str_is_empty (trim current)) then shares ++ [current] else shares.

(** White space and dashes left out, ASCII lowered.
    @ hlb-secrets/src/split.rs:402-407 [same_code] *)
Fixpoint bare (s : string) : string :=
  match s with
  | "" => ""
  | String a r1 =>
      if ws1 a || bool_decide (a = "-"%char) then bare r1 else
      match r1 with
      | "" => String (ascii_lower a) ""
      | String b r2 =>
          if ws2 a b then bare r2 else
          match r2 with
          | "" => String (ascii_lower a) (bare r1)
          | String c r3 => if ws3 a b c then bare r3 else String (ascii_lower a) (bare r1)
          end
      end
  end.

(** @ hlb-secrets/src/split.rs:400-409 [same_code] *)
Definition same_code (typed code : string) : bool :=
  negb (str_is_empty (bare code)) && (bare typed ==? bare code).

(** The code read off a page, from eight random bytes.
    @ hlb-secrets/src/split.rs:387-398 [draw_code] *)
Definition code_of (bytes : list N) : string :=
  join "-" (of_chars <$> chunks 4 (chars (modhex bytes))).
End definitions.

(** ** The crates it calls *)

(** [blahaj]: the shares of a key as bytes - the index, then the value -, any [threshold]
    of which recover it. *)
Class Shamir := {
  raw : Type;
  dealer : N → list N → list (list N);
  raw_try_from : list N → option raw;
  recover : N → list raw → result string (list N) }.

(** [age] and [bech32]: an identity, the bytes its text form holds, its public half as
    text; and [sha2], the hash the split's id is read from. *)
Class AgeKey := {
  identity : Type;
  to_public : identity → string;
  bech32_bytes : identity → result string (list N);
  identity_from_bytes : list N → option identity;
  digest : list N → list N }.

Section combine.
Context {Sh : Shamir} {Ag : AgeKey}.

(** @ hlb-secrets/src/split.rs:249-252 [split_id_of] *)
Definition split_id_of (recipient : string) : N * N :=
  let h := digest (bytes_of recipient) in
  (default 0%N (h !! 0%nat), default 0%N (h !! 1%nat)).

(** @ hlb-secrets/src/split.rs:244-247 [split_id] *)
Definition split_id (recipient : string) : string :=
  modhex [(split_id_of recipient).1; (split_id_of recipient).2].

(** @ hlb-secrets/src/split.rs:364-376 [identity_bytes] *)
Definition identity_bytes (id : identity) : result Error (list N) :=
  bytes ← map_err Seal (bech32_bytes id);
  if decide (length bytes ≠ KEY_LEN)
  then Err (Seal ("an age key of " +:+ show_nat (length bytes) +:+ " bytes, not "
                  +:+ show_nat KEY_LEN))
  else Ok bytes.

(** @ hlb-secrets/src/split.rs:227-238 [split] *)
Definition dealt_share (id : N * N) (threshold count : N) (raw : list N) : Share :=
  {| sh_split := id; sh_threshold := threshold; sh_count := count;
     sh_index := default 0%N (raw !! 0%nat); sh_y := drop 1 raw |}.

(** From the identity drawn. @ hlb-secrets/src/split.rs:214-242 [split] *)
Definition split (threshold count : N) (id : identity) : result Error (string * list Share) :=
  if decide (threshold < 2 ∨ count < threshold ∨ MAX_SHARES < count)%N
  then Err (Shape threshold count)
  else
    let recipient := to_public id in
    key ← identity_bytes id;
    Ok (recipient,
        dealt_share (split_id_of recipient) threshold count
        <$> take (N.to_nat count) (dealer threshold key)).

(** @ hlb-secrets/src/split.rs:254-258 [Key] *)
Record Key := { key_identity : identity; key_split : string }.

(** The loop over the shares, those before each at hand.
    @ hlb-secrets/src/split.rs:304-319 [combine] *)
Fixpoint check_shares (first : Share) (before shares : list Share) : result Error unit :=
  match shares with
  | [] => Ok tt
  | s :: rest =>
      if decide ((sh_split s, sh_threshold s, sh_count s)
                 ≠ (sh_split first, sh_threshold first, sh_count first))
      then Err (OtherSplit (length before + 1) (label s) (label first))
      else if any_of (λ o, sh_index o ==? sh_index s) before
      then Err (Twice (sh_index s) (sh_count s))
      else check_shares first (before ++ [s]) rest
  end.

(** @ hlb-secrets/src/split.rs:298-302 [combine] *)
Definition read_all (texts : list string) : result Error (list Share) :=
  mapM (λ '(i, t), read t (i + 1)) (imap pair texts).

(** @ hlb-secrets/src/split.rs:296-355 [combine] *)
Definition combine (texts : list string) : result Error Key :=
  shares ← read_all texts;
  first ← ok_or NoShare (head shares);
  _ ← check_shares first [] shares;
  if decide (N.of_nat (length shares) < sh_threshold first)%N
  then Err (TooFew (sh_threshold first) (length shares) (label first))
  else
    key ← map_err (λ e, WrongKey (share_split_id first +:+ " (" +:+ e +:+ ")"))
            (recover (sh_threshold first)
               (omap (λ s, raw_try_from (sh_index s :: sh_y s)) shares));
    match identity_from_bytes key with
    | Some identity =>
        if split_id_of (to_public identity) ==? sh_split first
        then Ok {| key_identity := identity; key_split := share_split_id first |}
        else Err (WrongKey (share_split_id first))
    | None => Err (WrongKey (share_split_id first))
    end.
End combine.

(** ** The checksum *)

Section crc.
Local Open Scope N_scope.

Lemma land_bit15 c : N.land c 0x8000 ≠ 0 ↔ N.testbit c 15 = true.
Proof.
  change 0x8000 with (2 ^ 15). split.
  - intros H. destruct (N.testbit c 15) eqn:E; [done|]. exfalso. apply H.
    apply N.bits_inj. intros i. rewrite N.land_spec, N.pow2_bits_eqb, N.bits_0.
    destruct (N.eqb_spec 15 i); subst; [by rewrite E|by rewrite andb_false_r].
  - intros H E. apply (f_equal (λ x, N.testbit x 15)) in E.
    rewrite N.land_spec, N.pow2_bits_eqb, H, N.bits_0 in E. by vm_compute in E.
Qed.

Definition crc_poly (b : bool) : N := if b then 0x1021 else 0.

Lemma crc_step_eq c : crc_step c = N.lxor (wrap_u16 (N.shiftl c 1)) (crc_poly (N.testbit c 15)).
Proof.
  unfold crc_step. pose proof (land_bit15 c). case_decide; destruct (N.testbit c 15); cbn;
    rewrite ?N.lxor_0_r; try done; naive_solver.
Qed.

Lemma wrap_u16_land n : wrap_u16 n = N.land n (N.ones 16).
Proof. by rewrite N.land_ones. Qed.

Lemma wrap_u16_lxor a b : wrap_u16 (N.lxor a b) = N.lxor (wrap_u16 a) (wrap_u16 b).
Proof.
  rewrite !wrap_u16_land. apply N.bits_inj. intros i.
  rewrite !N.land_spec, !N.lxor_spec, !N.land_spec.
  by destruct (N.testbit a i), (N.testbit b i), (N.testbit (N.ones 16) i).
Qed.

Lemma crc_step_lxor a b : crc_step (N.lxor a b) = N.lxor (crc_step a) (crc_step b).
Proof.
  rewrite !crc_step_eq, N.shiftl_lxor, wrap_u16_lxor, N.lxor_spec.
  assert (crc_poly (xorb (N.testbit a 15) (N.testbit b 15))
          = N.lxor (crc_poly (N.testbit a 15)) (crc_poly (N.testbit b 15))) as ->
    by (by destruct (N.testbit a 15), (N.testbit b 15)).
  apply N.bits_inj. intros i. rewrite !N.lxor_spec.
  by destruct (N.testbit (wrap_u16 _) i), (N.testbit (wrap_u16 _) i),
    (N.testbit (crc_poly _) i), (N.testbit (crc_poly _) i).
Qed.

Lemma lxor_bound k a b : a < 2 ^ k → b < 2 ^ k → N.lxor a b < 2 ^ k.
Proof.
  intros Ha Hb. destruct (N.eq_dec (N.lxor a b) 0) as [->|Hn]; [lia|].
  apply N.log2_lt_pow2; [lia|]. eapply N.le_lt_trans; [apply N.log2_lxor|].
  destruct (N.eq_dec k 0) as [->|Hk].
  { exfalso. apply Hn. change (2 ^ 0) with 1 in *. replace a with 0 by lia. by replace b with 0 by lia. }
  assert (∀ x, x < 2 ^ k → N.log2 x < k) as Hlog.
  { intros x Hx. destruct (N.eq_dec x 0) as [->|]; [change (N.log2 0) with 0; lia|].
    apply N.log2_lt_pow2; [lia|done]. }
  apply N.max_lub_lt; auto.
Qed.

Lemma wrap_u16_bound n : wrap_u16 n < 65536.
Proof. apply N.mod_lt. done. Qed.

Lemma crc_step_bound c : crc_step c < 65536.
Proof.
  rewrite crc_step_eq. apply (lxor_bound 16); [apply wrap_u16_bound|].
  by destruct (N.testbit c 15).
Qed.

(** The polynomial has its lowest bit: no state but zero is shifted to zero. *)
Lemma crc_step_zero c : c < 65536 → crc_step c = 0 → c = 0.
Proof.
  intros Hc. rewrite crc_step_eq. destruct (N.testbit c 15) eqn:E; cbn [crc_poly].
  - intros H. exfalso. apply (f_equal (λ x, N.testbit x 0)) in H.
    rewrite N.lxor_spec, wrap_u16_land, N.land_spec in H.
    rewrite N.shiftl_spec_low in H by lia. by vm_compute in H.
  - rewrite N.lxor_0_r, N.shiftl_mul_pow2. unfold wrap_u16, u16_max. intros H.
    assert (c < 32768).
    { destruct (N.lt_ge_cases c 32768) as [|Hge]; [done|]. exfalso.
      assert (Hd : c / 2 ^ 15 = 1) by (symmetry; apply N.div_unique with (r := c - 32768); lia).
      rewrite N.testbit_eqb, Hd in E. by vm_compute in E. }
    rewrite N.mod_small in H; lia.
Qed.

#[local] Opaque crc_step.

Lemma crc_shift8_eq c :
  crc_shift8 c = crc_step (crc_step (crc_step (crc_step
                   (crc_step (crc_step (crc_step (crc_step c))))))).
Proof. reflexivity. Qed.

#[local] Opaque crc_shift8.

Lemma crc_shift8_lxor a b : crc_shift8 (N.lxor a b) = N.lxor (crc_shift8 a) (crc_shift8 b).
Proof. by rewrite !crc_shift8_eq, !crc_step_lxor. Qed.

Lemma crc_shift8_bound c : crc_shift8 c < 65536.
Proof. rewrite crc_shift8_eq. apply crc_step_bound. Qed.

Lemma crc_shift8_zero c : c < 65536 → crc_shift8 c = 0 → c = 0.
Proof.
  intros Hc H. rewrite crc_shift8_eq in H.
  do 7 (apply crc_step_zero in H; [|apply crc_step_bound]). by apply crc_step_zero.
Qed.

Lemma crc_byte_eq c b : crc_byte c b = crc_shift8 (N.lxor c (wrap_u16 (N.shiftl b 8))).
Proof. done. Qed.

Lemma crc_byte_bound c b : crc_byte c b < 65536.
Proof. apply crc_shift8_bound. Qed.

(** The difference of two registers, after two bytes. *)
Lemma crc_byte_lxor c c' b b' :
  N.lxor (crc_byte c b) (crc_byte c' b') =
  crc_shift8 (N.lxor (N.lxor c c') (wrap_u16 (N.shiftl (N.lxor b b') 8))).
Proof.
  rewrite !crc_byte_eq, <- crc_shift8_lxor, N.shiftl_lxor, wrap_u16_lxor. f_equal.
  apply N.bits_inj. intros i. rewrite !N.lxor_spec.
  by destruct (N.testbit c i), (N.testbit c' i), (N.testbit (wrap_u16 _) i), (N.testbit (wrap_u16 _) i).
Qed.

#[local] Opaque crc_byte.

(** Past the same bytes, two registers are equal only if they were. *)
Lemma crc_fold_inj l c c' :
  c < 65536 → c' < 65536 → fold_left crc_byte l c = fold_left crc_byte l c' → c = c'.
Proof.
  revert c c'. induction l as [|b l IH]; intros c c' Hc Hc'; [done|].
  rewrite !fold_left_cons. intros H. apply IH in H; [|apply crc_byte_bound..].
  assert (Hx : N.lxor (crc_byte c b) (crc_byte c' b) = 0) by (rewrite H; apply N.lxor_nilpotent).
  rewrite crc_byte_lxor, N.lxor_nilpotent in Hx.
  change (wrap_u16 (N.shiftl 0 8)) with 0 in Hx. rewrite N.lxor_0_r in Hx.
  apply crc_shift8_zero in Hx; [|by apply (lxor_bound 16)]. by apply N.lxor_eq.
Qed.

Lemma crc_fold_bound l c : c < 65536 → fold_left crc_byte l c < 65536.
Proof.
  revert c. induction l as [|b l IH]; intros c Hc; [done|].
  rewrite fold_left_cons. apply IH, crc_byte_bound.
Qed.

#[local] Transparent crc_shift8 crc_byte crc_step.

(** A register below a byte is moved up by it. *)
Lemma crc_shift8_small x : x < 256 → crc_shift8 x = N.shiftl x 8.
Proof.
  intros Hx. apply N.eqb_eq.
  apply (below_forallb 256 (λ x, crc_shift8 x =? N.shiftl x 8)); [by vm_compute|done].
Qed.

(** What a byte's low half does to the register's low byte, a byte's high half cannot
    undo. *)
Lemma crc_shift8_low_nibble d e :
  d < 16 → e < 256 → crc_shift8 (N.shiftl d 8) = N.shiftl e 8 → d = 0.
Proof.
  intros Hd He H. apply (f_equal (λ x, x mod 256)) in H.
  rewrite (N.shiftl_mul_pow2 e), N.Div0.mod_mul in H.
  assert (Hall : ((d =? 0) || negb (crc_shift8 (N.shiftl d 8) mod 256 =? 0)) = true).
  { apply (below_forallb 16 (λ d, (d =? 0) || negb (crc_shift8 (N.shiftl d 8) mod 256 =? 0)));
      [by vm_compute|done]. }
  rewrite H in Hall. cbn in Hall. rewrite orb_false_r in Hall. by apply N.eqb_eq.
Qed.

#[local] Opaque crc_shift8 crc_byte crc_step.

Lemma wrap_byte_high b : b < 256 → wrap_u16 (N.shiftl b 8) = N.shiftl b 8.
Proof. intros. unfold wrap_u16, u16_max. rewrite N.shiftl_mul_pow2. apply N.mod_small. lia. Qed.

Lemma lxor_shiftl_add a b k : b < 2 ^ k → N.lxor (N.shiftl a k) b = a * 2 ^ k + b.
Proof.
  intros Hb. rewrite <- lor_shiftl_add by done. symmetry.
  apply N.bits_inj. intros i. rewrite N.lxor_spec, N.lor_spec.
  pose proof (f_equal (λ x, N.testbit x i) (land_shiftl_small a b k Hb)) as H. cbn in H.
  rewrite N.land_spec in H.
  by destruct (N.testbit (N.shiftl a k) i), (N.testbit b i).
Qed.

Lemma be_bytes_2 c : be_bytes 2 c = [(c / 256) mod 256; c mod 256].
Proof.
  unfold be_bytes. cbn [seq fmap list_fmap].
  rewrite !land_255, !N.shiftr_div_pow2. change (2 ^ (8 * N.of_nat (2 - 1 - 0))) with 256.
  change (2 ^ (8 * N.of_nat (2 - 1 - 1))) with 1. by rewrite N.div_1_r.
Qed.

(** The two bytes of the checksum, gone through, leave nothing exactly when they are the
    register's. *)
Lemma crc_residue c h l :
  c < 65536 → h < 256 → l < 256 →
  crc_byte (crc_byte c h) l = 0 ↔ be_bytes 2 c = [h; l].
Proof.
  intros Hc Hh Hl. set (c0 := N.lxor (N.shiftl h 8) l).
  assert (Hc0 : c0 = h * 256 + l) by (apply (lxor_shiftl_add h l 8); done).
  assert (Hz : crc_byte (crc_byte c0 h) l = 0).
  { rewrite (crc_byte_eq c0 h), wrap_byte_high by done. unfold c0.
    replace (N.lxor (N.lxor (N.shiftl h 8) l) (N.shiftl h 8)) with l
      by (by rewrite (N.lxor_comm (N.shiftl h 8)), N.lxor_assoc, N.lxor_nilpotent, N.lxor_0_r).
    rewrite crc_byte_eq, (crc_shift8_small l), wrap_byte_high by done.
    rewrite N.lxor_nilpotent. by rewrite crc_shift8_small. }
  rewrite be_bytes_2. split.
  - intros H. assert (c = c0) as ->.
    { apply (crc_fold_inj [h; l]); [done|lia|]. rewrite !fold_left_cons. cbn [fold_left].
      by rewrite H, Hz. }
    rewrite Hc0, N.div_add_l, (N.div_small l), N.add_0_r, N.mod_small by lia.
    by rewrite N.add_comm, N.Div0.mod_add, N.mod_small by lia.
  - intros [= H1 H2]. assert (c = c0) as ->; [|done].
    rewrite Hc0, <- H1, <- H2. rewrite (N.mod_small (c / 256)) by (apply N.Div0.div_lt_upper_bound; lia).
    rewrite N.mul_comm. apply N.div_mod. done.
Qed.

(** ** Mistyped letters *)

Definition residue (b : list N) : N := fold_left crc_byte b 0xffff.

Lemma checksum_residue b :
  length b = LEN → bytes_ok b → checksum_ok b = true ↔ residue b = 0.
Proof.
  intros Hlen Hok. unfold checksum_ok, residue, crc16. rewrite bool_decide_eq_true.
  rewrite <- (take_drop (LEN - 2) b) at 3. rewrite fold_left_app.
  assert (Hd : length (drop (LEN - 2) b) = 2%nat) by (rewrite length_drop, Hlen; reflexivity).
  assert (Hdo : bytes_ok (drop (LEN - 2) b)) by (by apply Forall_drop).
  destruct (drop (LEN - 2) b) as [|h [|l [|]]]; try done.
  apply Forall_cons in Hdo as [Hh Hdo]. apply Forall_cons in Hdo as [Hl _].
  rewrite !fold_left_cons. cbn [fold_left]. symmetry. apply crc_residue; [|done..].
  apply crc_fold_bound. lia.
Qed.

(** One byte altered changes the residue. *)
Lemma residue_byte p q b b' :
  b < 256 → b' < 256 → residue (p ++ b :: q) = residue (p ++ b' :: q) → b = b'.
Proof.
  intros Hb Hb'. unfold residue. rewrite !fold_left_app, !fold_left_cons.
  intros H. apply crc_fold_inj in H; [|apply crc_byte_bound..].
  set (c := fold_left _ p _) in H.
  assert (Hx : N.lxor (crc_byte c b) (crc_byte c b') = 0) by (rewrite H; apply N.lxor_nilpotent).
  rewrite crc_byte_lxor, N.lxor_nilpotent, N.lxor_0_l in Hx.
  assert (Hd : N.lxor b b' < 256) by (by apply (lxor_bound 8)).
  rewrite wrap_byte_high in Hx by done. apply crc_shift8_zero in Hx.
  - rewrite N.shiftl_mul_pow2 in Hx. apply N.lxor_eq. lia.
  - rewrite N.shiftl_mul_pow2. lia.
Qed.

(** So does altering the low half of a byte and the high half of the next. *)
Lemma residue_across p q u v x y x' y' :
  u < 16 → v < 16 → x < 16 → y < 16 → x' < 16 → y' < 16 →
  residue (p ++ N.lxor (N.shiftl u 4) x :: N.lxor (N.shiftl y 4) v :: q) =
  residue (p ++ N.lxor (N.shiftl u 4) x' :: N.lxor (N.shiftl y' 4) v :: q) →
  x = x' ∧ y = y'.
Proof.
  intros Hu Hv Hx Hy Hx' Hy'. unfold residue. rewrite !fold_left_app, !fold_left_cons.
  intros H. apply crc_fold_inj in H; [|apply crc_byte_bound..].
  set (c := fold_left _ p _) in H. set (b1 := N.lxor (N.shiftl u 4) x) in H.
  set (b1' := N.lxor (N.shiftl u 4) x') in H.
  apply (f_equal (λ z, N.lxor z (crc_byte (crc_byte c b1') (N.lxor (N.shiftl y' 4) v)))) in H.
  rewrite N.lxor_nilpotent, crc_byte_lxor, crc_byte_lxor, N.lxor_nilpotent, N.lxor_0_l in H.
  assert (H1 : N.lxor b1 b1' = N.lxor x x').
  { unfold b1, b1'. apply N.bits_inj. intros i. rewrite !N.lxor_spec.
    by destruct (N.testbit (N.shiftl u 4) i), (N.testbit x i), (N.testbit x' i). }
  assert (H2 : N.lxor (N.lxor (N.shiftl y 4) v) (N.lxor (N.shiftl y' 4) v)
               = N.shiftl (N.lxor y y') 4).
  { rewrite N.shiftl_lxor. apply N.bits_inj. intros i. rewrite !N.lxor_spec.
    by destruct (N.testbit (N.shiftl y 4) i), (N.testbit v i), (N.testbit (N.shiftl y' 4) i). }
  rewrite H1, H2 in H. clear H1 H2 b1 b1'.
  assert (Hd : N.lxor x x' < 16) by (by apply (lxor_bound 4)).
  assert (He : N.lxor y y' < 16) by (by apply (lxor_bound 4)).
  assert (Hs : N.shiftl (N.lxor y y') 4 < 256) by (rewrite N.shiftl_mul_pow2; lia).
  rewrite !wrap_byte_high in H by lia.
  apply crc_shift8_zero in H.
  2:{ apply (lxor_bound 16); [apply crc_shift8_bound|]. rewrite N.shiftl_mul_pow2. lia. }
  apply N.lxor_eq in H. pose proof H as H0.
  apply crc_shift8_low_nibble in H0; [|done|done]. rewrite H0 in H.
  change (N.shiftl 0 8) with 0 in H. rewrite (crc_shift8_small 0) in H by lia.
  rewrite !N.shiftl_mul_pow2 in H. split; apply N.lxor_eq; [done|lia].
Qed.
End crc.

(** ** Letters *)

Section letters.
Local Open Scope N_scope.

Lemma modhex_nibble c : c ∈ MODHEX → modhex_letter (nibble c) = c ∧ nibble c < 16.
Proof.
  intros Hc. assert (H : Forall (λ c, modhex_letter (nibble c) = c ∧ nibble c < 16) MODHEX)
    by (vm_compute; repeat constructor).
  rewrite Forall_forall in H. auto.
Qed.

Lemma nibble_inj c d : c ∈ MODHEX → d ∈ MODHEX → nibble c = nibble d → c = d.
Proof.
  intros Hc Hd E. rewrite <- (proj1 (modhex_nibble c Hc)), E. by apply modhex_nibble.
Qed.

Lemma nibble_letter n : n < 16 → nibble (modhex_letter n) = n ∧ modhex_letter n ∈ MODHEX ∧
  is_letter (modhex_letter n) = true ∧ ascii_lower (modhex_letter n) = modhex_letter n.
Proof.
  intros Hn. pose (p n := bool_decide (nibble (modhex_letter n) = n ∧ modhex_letter n ∈ MODHEX ∧
    is_letter (modhex_letter n) = true ∧ ascii_lower (modhex_letter n) = modhex_letter n)).
  assert (H : p n = true) by (apply (below_forallb 16 p); [by vm_compute|done]).
  by apply bool_decide_eq_true in H.
Qed.

Lemma pack_nil : pack [] = [].
Proof. done. Qed.

Lemma pack_cons2 x y r :
  nibble x < 16 → nibble y < 16 →
  pack (x :: y :: r) = N.lxor (N.shiftl (nibble x) 4) (nibble y) :: pack r.
Proof.
  intros Hx Hy. unfold pack. rewrite (chunks_cons 2) by (done || lia).
  rewrite fmap_cons. cbn [take drop lookup list_lookup from_option id]. f_equal.
  assert (wrap_u8 (N.shiftl (nibble x) 4) = N.shiftl (nibble x) 4) as ->.
  { unfold wrap_u8, u8_max. rewrite N.shiftl_mul_pow2. apply N.mod_small. lia. }
  rewrite lor_shiftl_add, lxor_shiftl_add; done.
Qed.

Definition modhex_all (l : list ascii) : Prop := Forall (.∈ MODHEX) l.

Lemma pack_app p q :
  modhex_all p → Nat.Even (length p) → pack (p ++ q) = pack p ++ pack q.
Proof.
  revert p. apply (block_ind 2 ltac:(lia) (λ p, modhex_all p → Nat.Even (length p) →
    pack (p ++ q) = pack p ++ pack q)); [done|].
  intros [|x [|y r]] Hne IH Hall Hev; [done|by destruct Hev as [[|] ?]; cbn [length] in *; lia|].
  change (drop 2 (x :: y :: r)) with r in IH.
  apply Forall_cons in Hall as [Hx Hall]. apply Forall_cons in Hall as [Hy Hall].
  cbn [app]. rewrite !pack_cons2 by (by apply modhex_nibble). cbn [app]. f_equal.
  apply IH; [done|]. destruct Hev as [k Hk]. exists (k - 1)%nat. cbn [length] in *. lia.
Qed.

Lemma length_pack l : modhex_all l → Nat.Even (length l) → (length (pack l) * 2)%nat = length l ∧ bytes_ok (pack l).
Proof.
  revert l. apply (block_ind 2 ltac:(lia) (λ l, modhex_all l → Nat.Even (length l) →
    (length (pack l) * 2)%nat = length l ∧ bytes_ok (pack l))); [by repeat constructor|].
  intros [|x [|y r]] Hne IH Hall Hev; [done|by destruct Hev as [[|] ?]; cbn [length] in *; lia|].
  change (drop 2 (x :: y :: r)) with r in IH.
  apply Forall_cons in Hall as [Hx Hall]. apply Forall_cons in Hall as [Hy Hall].
  apply modhex_nibble in Hx as [_ Hx]. apply modhex_nibble in Hy as [_ Hy].
  rewrite pack_cons2 by done. destruct IH as [IH1 IH2]; [done| |].
  - destruct Hev as [k Hk]. exists (k - 1)%nat. cbn [length] in *. lia.
  - split; [cbn [length] in *; lia|]. constructor; [|done].
    rewrite lxor_shiftl_add by done. lia.
Qed.

#[local] Opaque residue crc_byte pack nibble.

(** Two adjacent letters altered, wherever they fall in the bytes, change the residue. *)
Lemma letters_burst p q x y x' y' :
  modhex_all (p ++ [x; y] ++ q) → modhex_all (p ++ [x'; y'] ++ q) →
  Nat.Even (length (p ++ [x; y] ++ q)) →
  residue (pack (p ++ [x; y] ++ q)) = residue (pack (p ++ [x'; y'] ++ q)) → x = x' ∧ y = y'.
Proof.
  unfold modhex_all. rewrite !Forall_app, !Forall_cons.
  intros (Hp & (Hx & Hy & _) & Hq) (_ & (Hx' & Hy' & _) & _) Hev.
  assert (Hn : ∀ c, c ∈ MODHEX → nibble c < 16) by (intros; by apply modhex_nibble).
  assert (Hs : ∀ a b, nibble a < 16 → nibble b < 16 →
    N.lxor (N.shiftl (nibble a) 4) (nibble b) = nibble a * 16 + nibble b)
    by (intros; by apply (lxor_shiftl_add _ _ 4)).
  destruct (Nat.Even_or_Odd (length p)) as [He|Ho].
  - rewrite (pack_app p ([x; y] ++ q)), (pack_app p ([x'; y'] ++ q)) by done.
    cbn [app]. rewrite !pack_cons2, !Hs by auto. intros H.
    pose proof (Hn x Hx). pose proof (Hn y Hy). pose proof (Hn x' Hx'). pose proof (Hn y' Hy').
    apply residue_byte in H; [|lia..]. split; apply nibble_inj; auto; lia.
  - destruct p as [|u p _] using rev_ind; [by destruct Ho; cbn in *; lia|].
    rewrite length_app in Ho. cbn in Ho. rewrite !length_app in Hev. cbn in Hev.
    destruct q as [|v q].
    { exfalso. destruct Hev as [a ?], Ho as [b ?]. cbn in *. lia. }
    apply Forall_app in Hp as [Hp Hu]. apply Forall_cons in Hu as [Hu _].
    apply Forall_cons in Hq as [Hv Hq].
    assert (Hev' : Nat.Even (length p)) by (destruct Ho as [b ?]; exists b; lia).
    rewrite <- !app_assoc, (pack_app p ([u] ++ [x; y] ++ v :: q)),
      (pack_app p ([u] ++ [x'; y'] ++ v :: q)) by done.
    cbn [app]. rewrite !pack_cons2 by auto. intros H.
    apply residue_across in H as [H1 H2]; auto. split; apply nibble_inj; auto.
Qed.
End letters.
#[local] Opaque residue crc_byte crc16 nibble pack.

(** ** Reading a share back *)

Definition share_ok (s : Share) : Prop :=
  ((sh_split s).1 < 256 ∧ (sh_split s).2 < 256 ∧ sh_threshold s < 16 ∧ sh_count s < 16 ∧
   sh_index s < 256)%N ∧ length (sh_y s) = KEY_LEN ∧ bytes_ok (sh_y s).

(** The letters a share is printed with. *)
Definition letters (s : Share) : list ascii := chars (modhex (share_bytes s)).

Lemma modhex_cons b bs :
  chars (modhex (b :: bs)) =
  modhex_letter (N.shiftr b 4) :: modhex_letter (N.land b 0x0f) :: chars (modhex bs).
Proof. unfold modhex. by rewrite bind_cons, fmap_app, chars_of_chars, chars_of_chars. Qed.

Lemma byte_nibbles b : (b < 256 → N.shiftr b 4 < 16 ∧ N.land b 0x0f < 16 ∧
  N.shiftr b 4 * 16 + N.land b 0x0f = b)%N.
Proof.
  intros Hb. rewrite N.shiftr_div_pow2. change 15%N with (N.ones 4). rewrite N.land_ones.
  change (2 ^ 4)%N with 16%N. split; [apply N.Div0.div_lt_upper_bound; lia|].
  split; [apply N.mod_lt; lia|]. pose proof (N.div_mod b 16). lia.
Qed.

Lemma modhex_facts bs :
  bytes_ok bs →
  modhex_all (chars (modhex bs)) ∧ length (chars (modhex bs)) = (length bs * 2)%nat ∧
  pack (chars (modhex bs)) = bs ∧ letters_of (modhex bs) = chars (modhex bs).
Proof.
  unfold letters_of. induction bs as [|b bs IH]; intros Hok.
  { split; [constructor|]. split; [done|]. split; [apply pack_nil|done]. }
  apply Forall_cons in Hok as [Hb Hok]. destruct (IH Hok) as (H1 & H2 & H3 & H4).
  destruct (byte_nibbles b Hb) as (Hh & Hl & Hs).
  destruct (nibble_letter _ Hh) as (Eh & Mh & Lh & Ah).
  destruct (nibble_letter _ Hl) as (El & Ml & Ll & Al).
  rewrite modhex_cons. split; [constructor; [done|by constructor]|]. split; [cbn [length]; lia|]. split.
  - rewrite pack_cons2 by (rewrite ?Eh, ?El; done). rewrite Eh, El, H3. f_equal.
    rewrite (lxor_shiftl_add _ _ 4) by done. exact Hs.
  - rewrite !keep_cons, Lh, Ll, !fmap_cons, Ah, Al. by rewrite H4.
Qed.

Lemma lor_threshold t c : (t < 16 → c < 16 →
  N.lor (wrap_u8 (N.shiftl t 4)) c = t * 16 + c)%N.
Proof.
  intros Ht Hc. assert (wrap_u8 (N.shiftl t 4) = N.shiftl t 4) as ->.
  { unfold wrap_u8, u8_max. rewrite N.shiftl_mul_pow2. apply N.mod_small. lia. }
  by apply (lor_shiftl_add t c 4).
Qed.

Lemma share_body_ok s : share_ok s → length (share_body s) = (LEN - 2)%nat ∧ bytes_ok (share_body s).
Proof.
  intros ((H1 & H2 & H3 & H4 & H5) & Hl & Hy). unfold share_body. split.
  - rewrite length_app, Hl. done.
  - rewrite lor_threshold by done. repeat constructor; try done. lia.
Qed.

Lemma share_bytes_ok s : share_ok s → length (share_bytes s) = LEN ∧ bytes_ok (share_bytes s).
Proof.
  intros [Hl Hb]%share_body_ok. unfold share_bytes. split.
  - by rewrite length_app, Hl, length_be_bytes.
  - apply Forall_app. split; [done|apply be_bytes_ok].
Qed.

Lemma share_of_bytes s : share_ok s → share_of (share_bytes s) = s.
Proof.
  intros ((H1 & H2 & H3 & H4 & H5) & Hl & Hy).
  assert (Hyy : take KEY_LEN (drop 5 (share_bytes s)) = sh_y s).
  { unfold share_bytes, share_body. rewrite <- app_assoc, drop_app_length' by done.
    by rewrite take_app_length'. }
  unfold share_of. rewrite Hyy.
  destruct s as [[a b] t c i y]. unfold share_bytes, share_body.
  cbn [sh_split sh_threshold sh_count sh_index sh_y fst snd app lookup list_lookup from_option id] in *.
  rewrite lor_threshold by done.
  assert (Ht : N.shiftr (t * 16 + c) 4 = t).
  { rewrite N.shiftr_div_pow2. change (2 ^ 4)%N with 16%N.
    rewrite N.div_add_l, N.div_small by lia. lia. }
  assert (Hc : N.land (t * 16 + c) 15 = c).
  { change 15%N with (N.ones 4). rewrite N.land_ones. change (2 ^ 4)%N with 16%N.
    rewrite N.add_comm, N.Div0.mod_add, N.mod_small by lia. done. }
  by rewrite Ht, Hc.
Qed.

Lemma find_not_modhex l :
  modhex_all l → find_first (λ c, negb (bool_decide (c ∈ MODHEX))) l = None.
Proof.
  intros Hl. apply find_first_None. eapply Forall_impl; [exact Hl|].
  intros c Hc. cbn beta. by rewrite bool_decide_eq_true_2.
Qed.

Lemma checksum_share s : share_ok s → checksum_ok (share_bytes s) = true.
Proof.
  intros [Hl _]%share_body_ok. unfold checksum_ok, share_bytes. apply bool_decide_eq_true.
  by rewrite take_app_length', drop_app_length' by done.
Qed.

(** Whatever is typed around a share's letters, it is read back. *)
Lemma read_letters s text at_ : share_ok s → letters_of text = letters s → read text at_ = Ok s.
Proof.
  intros Hs Ht. unfold read. rewrite Ht. unfold letters.
  destruct (share_bytes_ok s Hs) as [Hlen Hok].
  destruct (modhex_facts _ Hok) as (Hall & Hl & Hp & _).
  rewrite find_not_modhex by done. rewrite Hl, Hlen, Hp. cbn [negb Nat.eqb].
  rewrite Nat.eqb_refl, checksum_share by done. cbn [negb].
  assert (share_bytes s !! 0%nat = Some 1%N) as -> by done. cbn [from_option id].
  by rewrite share_of_bytes.
Qed.

Lemma letters_of_append a b : letters_of (a +:+ b) = letters_of a ++ letters_of b.
Proof. unfold letters_of. by rewrite chars_append, keep_app, fmap_app. Qed.

Lemma letters_of_join sep l : letters_of sep = [] → letters_of (join sep l) = l ≫= letters_of.
Proof.
  intros Hs. induction l as [|a [|b l] IH]; [done| |].
  - cbn. by rewrite app_nil_r.
  - change (join sep (a :: b :: l)) with (a +:+ sep +:+ join sep (b :: l)).
    by rewrite !letters_of_append, Hs, IH.
Qed.

Lemma letters_of_upper t : letters_of (to_ascii_uppercase t) = letters_of t.
Proof.
  assert (Hc : ∀ c, is_letter (ascii_upper c) = is_letter c ∧
                    ascii_lower (ascii_upper c) = ascii_lower c).
  { intros c. pose (p n := bool_decide (is_letter (ascii_upper (ascii_of_N n)) = is_letter (ascii_of_N n)
      ∧ ascii_lower (ascii_upper (ascii_of_N n)) = ascii_lower (ascii_of_N n))).
    assert (H : p (N_of_ascii c) = true).
    { apply (below_forallb 256 p); [by vm_compute|apply N_ascii_bounded]. }
    apply bool_decide_eq_true in H. by rewrite ascii_N_embedding in H. }
  unfold letters_of, to_ascii_uppercase. induction t as [|c t IH]; [done|].
  destruct (Hc c) as [H1 H2]. change (chars (str_map ascii_upper (String c t)))
    with (ascii_upper c :: chars (str_map ascii_upper t)).
  change (chars (String c t)) with (c :: chars t). rewrite !keep_cons, H1.
  destruct (is_letter c); [|done]. rewrite !fmap_cons, H2. by f_equal.
Qed.

Lemma concat_chunks {X} n (l : list X) : (0 < n)%nat → mjoin (chunks n l) = l.
Proof.
  intros Hn. revert l. apply (block_ind n Hn (λ l, mjoin (chunks n l) = l)); [done|].
  intros l Hne IH. rewrite chunks_cons by done.
  change (mjoin (?a :: ?b)) with (a ++ mjoin b). by rewrite IH, take_drop.
Qed.

Lemma letters_of_groups s : share_ok s → groups s ≫= letters_of = letters s.
Proof.
  intros [_ Hok]%share_bytes_ok. destruct (modhex_facts _ Hok) as (_ & _ & _ & Hlet).
  unfold groups, letters. rewrite <- Hlet at 2.
  assert (H : ∀ ls, (of_chars <$> ls) ≫= letters_of = ascii_lower <$> keep is_letter (mjoin ls)).
  { intros ls. induction ls as [|x ls IH]; [done|]. rewrite fmap_cons, bind_cons, IH.
    change (mjoin (x :: ls)) with (x ++ mjoin ls).
    rewrite keep_app, fmap_app. unfold letters_of. by rewrite chars_of_chars. }
  rewrite H, concat_chunks by lia. done.
Qed.

(** A share printed in groups is read back as the same share however it is typed:
    with any spaces, dashes or line breaks between its groups, in either case. *)
Theorem share_roundtrip s sep at_ :
  share_ok s → letters_of sep = [] →
  read (join sep (groups s)) at_ = Ok s ∧
  read (to_ascii_uppercase (join sep (groups s))) at_ = Ok s.
Proof.
  intros Hs Hsep. split; apply read_letters; try done.
  - by rewrite letters_of_join, letters_of_groups.
  - by rewrite letters_of_upper, letters_of_join, letters_of_groups.
Qed.

Definition example_share : Share :=
  {| sh_split := (18, 52)%N; sh_threshold := 2; sh_count := 3; sh_index := 1;
     sh_y := N.of_nat <$> seq 0 32 |}.

Lemma example_share_ok : share_ok example_share.
Proof. split; [by vm_compute|]. split; [done|]. by repeat constructor. Qed.

Lemma share_roundtrip_witness :
  read (join " - " (groups example_share)) 1 = Ok example_share.
Proof. apply (share_roundtrip example_share " - " 1 example_share_ok). by vm_compute. Defined.

(** A share copied with a slip is never read as another: one letter, or two adjacent
    ones, taken for others of the alphabet - exchanged among them - are refused as
    mistyped, wherever they stand. *)
Theorem mistyped_refused text text' at_ at' s p q x y x' y' :
  read text at_ = Ok s →
  letters_of text = p ++ [x; y] ++ q → letters_of text' = p ++ [x'; y'] ++ q →
  x' ∈ MODHEX → y' ∈ MODHEX → (x, y) ≠ (x', y') →
  read text' at' = Err (Mistyped at').
Proof.
  intros Hr Ht Ht' Hx' Hy' Hne. unfold read in *. rewrite Ht in Hr. rewrite Ht'.
  destruct (find_first _ (p ++ [x; y] ++ q)) eqn:Hf; [done|]. apply find_first_None in Hf.
  assert (Hall : modhex_all (p ++ [x; y] ++ q)).
  { eapply Forall_impl; [exact Hf|]. intros c. cbn beta.
    rewrite negb_false_iff. apply bool_decide_eq_true. }
  assert (Hall' : modhex_all (p ++ [x'; y'] ++ q)).
  { unfold modhex_all in *. rewrite !Forall_app in *. split; [apply Hall|]. split; [|apply Hall].
    constructor; [done|by constructor]. }
  rewrite find_not_modhex by done.
  assert (Hlen : length (p ++ [x'; y'] ++ q) = length (p ++ [x; y] ++ q))
    by (by rewrite !length_app).
  rewrite Hlen. destruct (Nat.eqb_spec (length (p ++ [x; y] ++ q)) (LEN * 2)) as [E|]; [|done].
  cbn [negb] in *. assert (Hev : Nat.Even (length (p ++ [x; y] ++ q))) by (rewrite E; by exists LEN).
  destruct (length_pack _ Hall Hev) as [Hl Hok].
  destruct (length_pack _ Hall' ltac:(by rewrite Hlen)) as [Hl' Hok'].
  destruct (checksum_ok (pack (p ++ [x; y] ++ q))) eqn:Hc; [|done]. clear Hr.
  destruct (checksum_ok (pack (p ++ [x'; y'] ++ q))) eqn:Hc'; [|done]. exfalso.
  apply checksum_residue in Hc; [|lia|done]. apply checksum_residue in Hc'; [|lia|done].
  destruct (letters_burst p q x y x' y') as [-> ->]; try done. congruence.
Qed.

(** The check value of CRC-16/CCITT-FALSE, on "123456789". *)
Lemma crc_check_value : crc16 (bytes_of "123456789") = 0x29b1%N.
Proof. by vm_compute. Qed.

Lemma mistyped_refused_witness :
  let text := modhex (share_bytes example_share) in
  let text' := "bc" +:+ of_chars (drop 2 (chars text)) in
  text' ≠ text ∧ read text' 3 = Err (Mistyped 3).
Proof.
  intros text text'. split; [by vm_compute|].
  refine (mistyped_refused text text' 1 3 example_share [] (drop 2 (chars text))
    "c"%char "b"%char "b"%char "c"%char _ _ _ _ _ _).
  - apply read_letters; [exact example_share_ok|]. by vm_compute.
  - by vm_compute.
  - by vm_compute.
  - apply list_elem_of_In. vm_compute. tauto.
  - apply list_elem_of_In. vm_compute. tauto.
  - done.
Defined.

(** ** Rebuilding the key *)

(** What the source relies on [blahaj] for: the shares dealt have an index each of its
    own and the key's length, are read back, and enough of them recover the key. *)
Class ShamirLaws {Sh : Shamir} := {
  dealt_ok : ∀ t key r, length key = KEY_LEN → bytes_ok key → r ∈ dealer t key →
    length r = S KEY_LEN ∧ bytes_ok r ∧ is_Some (raw_try_from r);
  dealt_indices : ∀ t key, length key = KEY_LEN → NoDup (head <$> dealer t key);
  recover_dealt : ∀ t key l rs, length key = KEY_LEN → (2 ≤ t)%N → (t ≤ N.of_nat (length l))%N →
    NoDup l → (∀ r, r ∈ l → r ∈ dealer t key) → omap raw_try_from l = rs →
    recover t rs = Ok key }.

(** And [age]: an identity's bytes are its key, from which one with the same public half
    is rebuilt; the hash has bytes to take the id from. *)
Class AgeLaws {Ag : AgeKey} := {
  identity_rebuilt : ∀ id key, bech32_bytes id = Ok key → length key = KEY_LEN →
    bytes_ok key ∧ ∃ id', identity_from_bytes key = Some id' ∧ to_public id' = to_public id;
  digest_ok : ∀ m, bytes_ok (digest m) }.

Section combined.
Context {Sh : Shamir} {Ag : AgeKey}.

(** The loop accepts shares of one split, each given once. *)
Lemma check_shares_ok first before shares :
  check_shares first before shares = Ok tt ↔
  (∀ s, s ∈ shares → (sh_split s, sh_threshold s, sh_count s)
                     = (sh_split first, sh_threshold first, sh_count first)) ∧
  NoDup (sh_index <$> shares) ∧ (∀ s o, s ∈ shares → o ∈ before → sh_index o ≠ sh_index s).
Proof.
  revert before. induction shares as [|s rest IH]; intros before; cbn.
  - split; [intros _|done]. split; [by intros ? ?%not_elem_of_nil|].
    split; [constructor|by intros ? ? ?%not_elem_of_nil].
  - case_decide as Hd.
    { split; [done|]. intros (H & _). exfalso. apply Hd, H. by left. }
    destruct (any_of _ before) eqn:Ha.
    { split; [done|]. intros (_ & _ & H). apply any_of_true in Ha as (o & Ho & E).
      apply bool_decide_eq_true in E. exfalso. apply (H s o); [by left|done..]. }
    rewrite any_of_false in Ha. rewrite IH, NoDup_cons. setoid_rewrite elem_of_cons.
    setoid_rewrite elem_of_app. split.
    + intros (H1 & H2 & H3). split; [intros s' [->|?]; auto|]. split; [split; [|done]|].
      * intros (o & E & Ho)%list_elem_of_fmap. apply (H3 o s); [done| |by rewrite E].
        right. by apply list_elem_of_singleton.
      * intros s' o [->|Hs'] Ho; [|by apply H3; [|left]].
        specialize (Ha o Ho). by apply bool_decide_eq_false in Ha.
    + intros (H1 & [Hn H2] & H3). split; [auto|]. split; [done|].
      intros s' o Hs' [Ho|Ho]; [by apply H3; [right|]|]. apply list_elem_of_singleton in Ho as ->.
      intros E. apply Hn. rewrite E. by apply list_elem_of_fmap_2.
Qed.

Lemma read_all_ok texts shares :
  read_all texts = Ok shares ↔
  Forall2 (λ it s, read it.2 (it.1 + 1) = Ok s) (imap pair texts) shares.
Proof.
  unfold read_all. rewrite mapM_Ok_Forall2.
  split; intros H; eapply Forall2_impl; [exact H|by intros [i t] s|exact H|by intros [i t] s].
Qed.

(** A key is only rebuilt from shares that fit: all of one split, each given once, as
    many as it takes at least, and the key's public half is the one the split's id was
    made from - whatever the interpolation gave. *)
Theorem combine_checks texts k :
  combine texts = Ok k →
  ∃ first shares, read_all texts = Ok shares ∧ head shares = Some first ∧
    (∀ s, s ∈ shares → (sh_split s, sh_threshold s, sh_count s)
                       = (sh_split first, sh_threshold first, sh_count first)) ∧
    NoDup (sh_index <$> shares) ∧ (sh_threshold first ≤ N.of_nat (length shares))%N ∧
    split_id_of (to_public (key_identity k)) = sh_split first ∧
    key_split k = split_id (to_public (key_identity k)).
Proof.
  unfold combine. intros (shares & Hr & H)%result_bind_Ok. exists (default example_share (head shares)), shares.
  apply result_bind_Ok in H as (first & Hf%ok_or_Ok & H).
  apply result_bind_Ok in H as ([] & (H1 & H2 & _)%check_shares_ok & H).
  case_decide as Ht; [done|]. apply result_bind_Ok in H as (key & _ & H).
  destruct (identity_from_bytes key) as [ident|]; [|done]. case_bool_decide as Hid; [|done].
  injection H as <-. rewrite Hf. cbn [from_option id key_identity key_split].
  repeat split; try done; [lia|].
  unfold split_id, share_split_id. by rewrite Hid.
Qed.
End combined.

Section split_combine.
Context {Sh : Shamir} {Ag : AgeKey} {ShL : ShamirLaws} {AgL : AgeLaws}.

Lemma digest_byte m i : (default 0 (digest m !! i) < 256)%N.
Proof.
  destruct (digest m !! i) as [b|] eqn:E; cbn; [|done].
  pose proof (digest_ok m) as H. eapply Forall_lookup_1 in H; [|done]. done.
Qed.

Lemma read_texts texts shares :
  Forall2 (λ text s, share_ok s ∧ letters_of text = letters s) texts shares →
  Forall2 (λ it s, read it.2 (it.1 + 1) = Ok s) (imap pair texts) shares.
Proof.
  intros H. apply Forall2_same_length_lookup. split.
  - rewrite length_imap. by eapply Forall2_length.
  - intros i [j t] s Hi Hs. apply list_lookup_imap_Some in Hi as (t' & Ht' & [= -> ->]).
    eapply Forall2_lookup_lr in H; [|done..]. destruct H as [? ?]. by apply read_letters.
Qed.

Lemma Forall2_impl_r {X Y} (P : X → Y → Prop) (Q : Y → Prop) l k :
  Forall2 P l k → (∀ y, y ∈ k → Q y) → Forall2 (λ x y, Q y ∧ P x y) l k.
Proof. induction 1; intros Hq; constructor; [|apply IHForall2]; set_solver. Qed.

(** What [split] hands out are shares, the bytes of which are those dealt. *)
Lemma dealt_share_ok t n key r recipient :
  (t < 16)%N → (n < 16)%N → length key = KEY_LEN → bytes_ok key → r ∈ dealer t key →
  let s := dealt_share (split_id_of recipient) t n r in
  share_ok s ∧ sh_index s :: sh_y s = r ∧ Some (sh_index s) = head r.
Proof.
  intros Ht Hn Hk Hko Hr. destruct (dealt_ok t key r Hk Hko Hr) as (Hl & Hb & _).
  destruct r as [|i y]; [done|]. apply Forall_cons in Hb as [Hi Hy]. cbn in Hl.
  unfold dealt_share. cbn. rewrite drop_0. split; [|done]. unfold share_ok. cbn.
  split; [|split; [lia|done]]. repeat split; try done; apply digest_byte.
Qed.

(** Distinct shares of one key have distinct numbers, and enough of them give it back. *)
Lemma dealt_recover t n key recipient chosen :
  (2 ≤ t)%N → (t < 16)%N → (n < 16)%N → length key = KEY_LEN → bytes_ok key →
  NoDup chosen → (t ≤ N.of_nat (length chosen))%N →
  (∀ s, s ∈ chosen → ∃ r, s = dealt_share (split_id_of recipient) t n r ∧ r ∈ dealer t key) →
  NoDup (sh_index <$> chosen) ∧
  recover t (omap (λ s, raw_try_from (sh_index s :: sh_y s)) chosen) = Ok key.
Proof.
  intros Ht2 Ht Hn Hkl Hkok Hnd Hlen Hch. set (mk := dealt_share (split_id_of recipient) t n) in *.
  assert (Hmk : ∀ r, r ∈ dealer t key →
    share_ok (mk r) ∧ sh_index (mk r) :: sh_y (mk r) = r ∧ Some (sh_index (mk r)) = head r)
    by (intros r Hr; by apply (dealt_share_ok t n key)).
  split.
  - apply NoDup_fmap_2_strong; [|done]. intros a b (ra & -> & Ha)%Hch (rb & -> & Hb')%Hch E.
    f_equal. apply (NoDup_fmap_inj_on head (dealer t key)); [by apply dealt_indices|done..|].
    destruct (Hmk ra Ha) as (_ & _ & <-), (Hmk rb Hb') as (_ & _ & <-). by rewrite E.
  - apply (recover_dealt t key ((λ s, sh_index s :: sh_y s) <$> chosen)); [done|lia| | | |].
    + by rewrite length_fmap.
    + apply NoDup_fmap_2_strong; [|done]. intros a b (ra & -> & Ha)%Hch (rb & -> & Hb')%Hch.
      destruct (Hmk ra Ha) as (_ & -> & _), (Hmk rb Hb') as (_ & -> & _). by intros ->.
    + intros r (s & -> & (r' & -> & Hr)%Hch)%list_elem_of_fmap.
      by destruct (Hmk r' Hr) as (_ & -> & _).
    + clear. induction chosen as [|s l IH]; [done|]. rewrite fmap_cons. cbn.
      destruct (raw_try_from _); by rewrite IH.
Qed.

(** C35. Any [threshold] shares of a split, typed in any order, rebuild its key: the one
    whose public half the kit was sealed to. *)
Theorem split_combine t n id recipient shares chosen texts :
  split t n id = Ok (recipient, shares) →
  NoDup chosen → (∀ s, s ∈ chosen → s ∈ shares) → (t ≤ N.of_nat (length chosen))%N →
  Forall2 (λ text s, letters_of text = letters s) texts chosen →
  ∃ k, combine texts = Ok k ∧ to_public (key_identity k) = recipient ∧
       key_split k = split_id recipient.
Proof.
  unfold split. case_decide as Hshape; [done|]. unfold MAX_SHARES in Hshape.
  intros (key & Hkey & H)%result_bind_Ok Hnd Hin Hlen Htexts. injection H as <- <-.
  unfold identity_bytes in Hkey. apply result_bind_Ok in Hkey as (key' & Hkey & Hl).
  case_decide as Hkl; [done|]. injection Hl as ->.
  destruct (bech32_bytes id) as [k|] eqn:Hb; [|done]. cbn in Hkey. injection Hkey as ->.
  destruct (identity_rebuilt id key Hb Hkl) as (Hkok & id' & Hid & Hpub).
  set (mk := dealt_share (split_id_of (to_public id)) t n) in *.
  assert (Hch : ∀ s, s ∈ chosen → ∃ r, s = mk r ∧ r ∈ dealer t key).
  { intros s Hs. apply Hin in Hs. apply list_elem_of_fmap in Hs as (r & -> & Hr).
    exists r. split; [done|]. apply elem_of_take in Hr as (i & Hi & _).
    by eapply list_elem_of_lookup_2. }
  clear Hin.
  (* The shares are read back. *)
  assert (Hread : read_all texts = Ok chosen).
  { apply read_all_ok, read_texts. eapply Forall2_impl_r; [exact Htexts|].
    intros s Hs. destruct (Hch s Hs) as (r & -> & Hr). apply (dealt_share_ok t n key); [lia|lia|done..]. }
  destruct chosen as [|first rest] eqn:Ech; [cbn in Hlen; lia|]. rewrite <- Ech in *.
  assert (Hfirst : first ∈ chosen) by (rewrite Ech; by left).
  assert (Hsame : ∀ s, s ∈ chosen → (sh_split s, sh_threshold s, sh_count s)
                         = (split_id_of (to_public id), t, n))
    by (intros s (r & -> & _)%Hch; done).
  (* Their indices differ, and their values are dealt ones. *)
  destruct (dealt_recover t n key (to_public id) chosen) as [Hidx Hrec]; [lia|lia|lia|done..|].
  exists {| key_identity := id'; key_split := share_split_id first |}.
  assert (Hf := Hsame first Hfirst). injection Hf as Hsp Hth Hco.
  split; [|split; [done|]].
  - unfold combine. rewrite Hread. cbn [mbind result_bind]. rewrite Ech at 1. cbn [head ok_or mbind result_bind].
    rewrite (proj2 (check_shares_ok first [] chosen)).
    2:{ split; [intros s Hs; by rewrite (Hsame s Hs), Hsp, Hth, Hco|].
        split; [done|by intros ? ? ? ?%not_elem_of_nil]. }
    cbn [mbind result_bind]. rewrite Hth, decide_False by lia. rewrite Hrec.
    cbn [map_err mbind result_bind]. rewrite Hid, Hpub, Hsp. by rewrite bool_decide_eq_true_2.
  - cbn. unfold share_split_id, split_id. by rewrite Hsp.
Qed.
End split_combine.

(** ** A sharing these hold of

    Each share carries the key itself: no secret is kept, and the laws hold. *)

#[local] Instance plain_shamir : Shamir := {|
  raw := list N;
  dealer _ key := (λ i, N.of_nat i :: key) <$> seq 1 255;
  raw_try_from r := Some r;
  recover _ rs := match rs with (_ :: key) :: _ => Ok key | _ => Err "no share" end |}.

#[local] Instance plain_age : AgeKey := {|
  identity := list N;
  to_public id := sha256_hex id;
  bech32_bytes id := if decide (bytes_ok id) then Ok id else Err "not bytes";
  identity_from_bytes := Some;
  digest := sha256 |}.

#[local] Instance plain_shamir_laws : ShamirLaws.
Proof.
  split; cbn -[seq].
  - intros t key r Hk Hok (i & -> & Hi)%list_elem_of_fmap. rewrite <- Hk. split; [done|].
    split; [|done]. apply list_elem_of_In, in_seq in Hi. constructor; [lia|done].
  - intros t key _. rewrite <- list_fmap_compose. apply NoDup_fmap_2_strong; [|apply NoDup_seq].
    intros i j _ _ [=]. lia.
  - intros t key l rs _ Ht Hl _ Hin <-. destruct l as [|r l]; [cbn in Hl; lia|].
    destruct (proj1 (list_elem_of_fmap _ _ _) (Hin r ltac:(by left))) as (i & -> & _). done.
Qed.

#[local] Instance plain_age_laws : AgeLaws.
Proof.
  split; cbn.
  - intros id key H _. case_decide; [|done]. injection H as <-. split; [done|by eexists].
  - apply sha256_ok.
Qed.

Definition plain_key : @identity plain_age := replicate 32 7%N.

Definition plain_shares : list Share := Eval vm_compute in
  match split 2 3 plain_key with Ok (_, shares) => shares | Err _ => [] end.

Lemma split_combine_witness :
  ∃ k, combine ((λ s, join " " (groups s)) <$> reverse (take 2 plain_shares)) = Ok k ∧
       to_public (key_identity k) = to_public plain_key ∧
       key_split k = split_id (to_public plain_key).
Proof.
  apply (split_combine (Sh := plain_shamir) (Ag := plain_age) 2 3 plain_key (to_public plain_key) plain_shares
           (reverse (take 2 plain_shares))).
  - by vm_compute.
  - apply (NoDup_fmap_1 sh_index). vm_compute. repeat constructor; set_solver.
  - intros s Hs. rewrite elem_of_reverse in Hs. apply elem_of_take in Hs as (i & Hi & _).
    by eapply list_elem_of_lookup_2.
  - apply N.leb_le. vm_compute. reflexivity.
  - repeat apply Forall2_cons_2; [vm_compute; reflexivity..|constructor].
Defined.

Lemma combine_checks_witness :
  ∃ k first shares,
    combine ((λ s, join "-" (groups s)) <$> take 2 plain_shares) = Ok k ∧
    head shares = Some first ∧ split_id_of (to_public (key_identity k)) = sh_split first.
Proof.
  assert (Hok : is_ok (combine ((λ s, join "-" (groups s)) <$> take 2 plain_shares)) = true)
    by (vm_compute; reflexivity).
  destruct (combine ((λ s, join "-" (groups s)) <$> take 2 plain_shares)) as [k|e] eqn:E;
    [|discriminate Hok].
  destruct (combine_checks _ _ E) as (first & shares & _ & Hh & _ & _ & _ & Hid & _).
  exists k, first, shares. exact (conj eq_refl (conj Hh Hid)).
Defined.
