(* ===== verification/Journal.v ===== *)
(** * The state store: plans, guides and secrets

    [crates/hlb-state/src/lib.rs]: what Homelabus remembers of an app - the manifest
    frozen when it was deployed, its plan with what became of each action, its manual
    steps, its secrets (never their values). A table is a map from its primary key, the
    rows of a plan in the order of theirs; the columns of dates are left out, nothing here
    reads them. A manifest is stored as YAML, read back by the [serde] that wrote it. The
    database itself answers: what fails here is what SQL refuses. *)

From S2P Require Import Prelude RustStr Capability Guide Manifest.

(** @ hlb-state/src/lib.rs:39-91 [Error] *)
Inductive Error :=
| Db (why : string)
| UnknownApp (name : string)
| VaultChanged (names : string).

#[export] Instance Error_eq_dec : EqDecision Error.
Proof. solve_decision. Defined.

(** ** Progress *)

(** @ hlb-state/src/lib.rs:500-508 [ActionStatus] *)
Inductive ActionStatus := Pending | Done | Failed | Unimplemented.

#[export] Instance ActionStatus_eq_dec : EqDecision ActionStatus.
Proof. solve_decision. Defined.

(** @ hlb-state/src/lib.rs:511-518 [ActionStatus::as_str] *)
Definition status_as_str (s : ActionStatus) : string :=
  match s with
  | Pending => "pending"
  | Done => "done"
  | Failed => "failed"
  | Unimplemented => "unimplemented"
  end.

(** @ hlb-state/src/lib.rs:520-527 [ActionStatus::parse] *)
Definition status_parse (s : string) : ActionStatus :=
  if s ==? "done" then Done
  else if s ==? "failed" then Failed
  else if s ==? "unimplemented" then Unimplemented
  else Pending.

(** @ hlb-state/src/lib.rs:529-532 [ActionStatus::is_terminal] *)
Definition is_terminal (s : ActionStatus) : bool := match s with Done => true | _ => false end.

(** @ hlb-state/src/lib.rs:535-542 [ActionRecord] *)
Record ActionRecord := {
  ar_seq : nat; ar_kind : string; ar_description : string;
  ar_status : ActionStatus; ar_error : option string }.

(** A row records the action of a kind and a description.
    @ hlb-state/src/lib.rs:692-694 [carry_progress] *)
Definition same (r : ActionRecord) (action : string * string) : bool :=
  (ar_kind r ==? action.1) && (ar_description r ==? action.2).

(** @ hlb-state/src/lib.rs:698-704 [carry_progress] *)
Definition row_for (recorded : list ActionRecord) (used : list bool) (seq_ : nat)
    (action : string * string) : option nat :=
  let at_ (p : ActionRecord → bool) (i : nat) :=
    if recorded !! i is Some r then p r else false in
  let free i := negb (default true (used !! i)) && at_ (λ r, same r action) i in
  let rows := seq 0 (length recorded) in
  match find_first (λ i, at_ (λ r, (ar_seq r =? seq_)%nat) i && free i) rows with
  | Some i => Some i
  | None =>
      match find_first (λ i, at_ (λ r, ar_status r ==? Done) i && free i) rows with
      | Some i => Some i
      | None => find_first free rows
      end
  end.

Fixpoint carry_go (recorded : list ActionRecord) (used : list bool) (seq_ : nat)
    (plan : list (string * string)) : list (option nat) :=
  match plan with
  | [] => []
  | action :: plan =>
      let found := row_for recorded used seq_ action in
      let used := if found is Some i then <[i := true]> used else used in
      found :: carry_go recorded used (S seq_) plan
  end.

(** @ hlb-state/src/lib.rs:691-711 [carry_progress] *)
Definition carry_progress (recorded : list ActionRecord) (plan : list (string * string))
    : list (option nat) :=
  carry_go recorded (replicate (length recorded) false) 0 plan.

(** ** The tables *)

(** [migrations/0001_initial.up.sql], with the replicas decided since. *)
Record AppRow := {
  row_manifest : Manifest; row_domain : option string; row_status : string;
  row_replicas : option N }.

(** A row of [plan_actions], its status as it is written. *)
Record PlanRow := {
  pr_seq : nat; pr_kind : string; pr_description : string;
  pr_status : string; pr_error : option string }.

Record GuideRow := { gr_title : string; gr_blocking : bool; gr_verified : bool; gr_forced : bool }.
Record SecretRow := { sr_ciphertext : list N; sr_purpose : string }.
Record VolumeRow := { vr_mountpoint : string; vr_backup : bool; vr_sqlite : bool }.

Record Store := {
  t_apps : gmap string AppRow;
  t_plan : gmap string (list PlanRow);
  t_guides : gmap (string * string) GuideRow;
  t_ahead : gmap (string * string) bool;
  t_secrets : gmap string SecretRow;
  t_volumes : gmap (string * string) VolumeRow }.

Definition empty_store : Store :=
  {| t_apps := ∅; t_plan := ∅; t_guides := ∅; t_ahead := ∅; t_secrets := ∅; t_volumes := ∅ |}.

Definition set_apps (m : gmap string AppRow) (s : Store) : Store :=
  {| t_apps := m; t_plan := t_plan s; t_guides := t_guides s; t_ahead := t_ahead s;
     t_secrets := t_secrets s; t_volumes := t_volumes s |}.
Definition set_plan (m : gmap string (list PlanRow)) (s : Store) : Store :=
  {| t_apps := t_apps s; t_plan := m; t_guides := t_guides s; t_ahead := t_ahead s;
     t_secrets := t_secrets s; t_volumes := t_volumes s |}.
Definition set_guides (m : gmap (string * string) GuideRow) (s : Store) : Store :=
  {| t_apps := t_apps s; t_plan := t_plan s; t_guides := m; t_ahead := t_ahead s;
     t_secrets := t_secrets s; t_volumes := t_volumes s |}.
Definition set_ahead (m : gmap (string * string) bool) (s : Store) : Store :=
  {| t_apps := t_apps s; t_plan := t_plan s; t_guides := t_guides s; t_ahead := m;
     t_secrets := t_secrets s; t_volumes := t_volumes s |}.
Definition set_secrets (m : gmap string SecretRow) (s : Store) : Store :=
  {| t_apps := t_apps s; t_plan := t_plan s; t_guides := t_guides s; t_ahead := t_ahead s;
     t_secrets := m; t_volumes := t_volumes s |}.
Definition set_volumes (m : gmap (string * string) VolumeRow) (s : Store) : Store :=
  {| t_apps := t_apps s; t_plan := t_plan s; t_guides := t_guides s; t_ahead := t_ahead s;
     t_secrets := t_secrets s; t_volumes := m |}.

Abbreviation db := (eff Store Error).

(** A row that names an app needs it recorded ([REFERENCES apps(name)]). *)
Definition references (app : string) : db () := λ s,
  if t_apps s !! app is Some _ then (Ok (), s) else (Err (Db "FOREIGN KEY constraint failed"), s).

(** ** Apps *)

(** @ hlb-state/src/lib.rs:807-834 [upsert_app] *)
Definition upsert_app (name : string) (m : Manifest) (domain : option string) : db () :=
  eff_put (λ s, set_apps (<[name :=
    match t_apps s !! name with
    | Some r => {| row_manifest := m; row_domain := domain; row_status := row_status r;
                   row_replicas := row_replicas r |}
    | None => {| row_manifest := m; row_domain := domain; row_status := "installing";
                 row_replicas := None |}
    end]> (t_apps s)) s).

(** @ hlb-state/src/lib.rs:836-849 [app_manifest] *)
Definition app_manifest (name : string) : db Manifest := λ s,
  (ok_or (UnknownApp name) (row_manifest <$> t_apps s !! name), s).

(** @ hlb-state/src/lib.rs:1051-1061 [app_domain] *)
Definition app_domain (name : string) : db (option string) :=
  eff_get (λ s, t_apps s !! name ≫= row_domain).

(** @ hlb-state/src/lib.rs:3338-3345 [set_app_status] *)
Definition set_app_status (name status : string) : db () :=
  eff_put (λ s, set_apps (alter (λ r,
    {| row_manifest := row_manifest r; row_domain := row_domain r; row_status := status;
       row_replicas := row_replicas r |}) name (t_apps s)) s).

(** @ hlb-state/src/lib.rs:3347-3354 [installed_apps] *)
Definition installed_apps : db (list (string * string)) :=
  eff_get (λ s, (λ '(n, r), (n, row_status r)) <$> btree_entries (t_apps s)).

(** [image.digest = Some(digest)] *)
Definition with_digest (digest : string) (i : Image) : Image :=
  {| img_repo := img_repo i; img_tag := img_tag i; img_digest := Some digest;
     img_built_here := img_built_here i; img_signed_by := img_signed_by i |}.

(** Each image of a manifest, the app's and its companions', through [f]. *)
Definition map_companion_image (f : Companion → Image) (c : Companion) : Companion :=
  {| co_name := co_name c; co_image := f c; co_storage := co_storage c;
     co_env := co_env c; co_shared_env := co_shared_env c; co_files := co_files c;
     co_command := co_command c; co_args := co_args c; co_process := co_process c;
     co_healthcheck := co_healthcheck c; co_tier := co_tier c; co_node_label := co_node_label c;
     co_memory := co_memory c; co_security := co_security c |}.
Definition with_images (image : Image) (companions : list Companion) (m : Manifest) : Manifest :=
  let s := mf_spec m in
  {| mf_api_version := mf_api_version m; mf_kind := mf_kind m; mf_metadata := mf_metadata m;
     mf_spec :=
       {| sp_image := image; sp_runtime := sp_runtime s; sp_requires := sp_requires s;
          sp_ingress := sp_ingress s; sp_swarm := sp_swarm s; sp_update := sp_update s;
          sp_companions := companions; sp_env := sp_env s; sp_shared_env := sp_shared_env s;
          sp_security := sp_security s; sp_files := sp_files s; sp_command := sp_command s;
          sp_args := sp_args s; sp_process := sp_process s; sp_assertions := sp_assertions s;
          sp_access := sp_access s; sp_recovery := sp_recovery s; sp_jobs := sp_jobs s;
          sp_downloads := sp_downloads s |} |}.

Definition image_is (repo tag : string) (i : Image) : bool :=
  (img_repo i ==? repo) && (img_tag i ==? tag).

(** @ hlb-state/src/lib.rs:3249-3271 [set_image_digest] *)
Definition set_image_digest (name repo tag digest : string) : db bool :=
  let! m := app_manifest name in
  let spec := mf_spec m in
  let pin i := if image_is repo tag i then with_digest digest i else i in
  let found := any_of (image_is repo tag) (sp_image spec :: (co_image <$> sp_companions spec)) in
  let m := with_images (pin (sp_image spec))
    (map_companion_image (λ c, pin (co_image c)) <$> sp_companions spec) m in
  if found then
    let! domain := app_domain name in
    upsert_app name m domain ;;! eff_ret found
  else eff_ret found.

(** @ hlb-state/src/lib.rs:3273-3278 [set_app_digest] *)
Definition set_app_digest (name digest : string) : db () :=
  let! m := app_manifest name in
  let! domain := app_domain name in
  upsert_app name
    (with_images (with_digest digest (sp_image (mf_spec m))) (sp_companions (mf_spec m)) m) domain.

(** @ hlb-state/src/lib.rs:1088-1098 [set_app_replicas] *)
Definition set_app_replicas (name : string) (replicas : option N) : db bool := λ s,
  (Ok (bool_decide (is_Some (t_apps s !! name))),
   set_apps (alter (λ r,
     {| row_manifest := row_manifest r; row_domain := row_domain r; row_status := row_status r;
        row_replicas := replicas |}) name (t_apps s)) s).

(** @ hlb-state/src/lib.rs:1221-1232 [app_replicas] *)
Definition app_replicas (name : string) : db (option N) :=
  eff_get (λ s, t_apps s !! name ≫= row_replicas).

(** ** Plans *)

Definition record_of (r : PlanRow) : ActionRecord :=
  {| ar_seq := pr_seq r; ar_kind := pr_kind r; ar_description := pr_description r;
     ar_status := status_parse (pr_status r); ar_error := pr_error r |}.

Definition plan_rows (app : string) (s : Store) : list PlanRow := default [] (t_plan s !! app).

(** @ hlb-state/src/lib.rs:3537-3558 [plan_actions] *)
Definition plan_actions (app : string) : db (list ActionRecord) :=
  eff_get (λ s, record_of <$> plan_rows app s).

(** @ hlb-state/src/lib.rs:3477-3484 [record_plan] *)
Definition carried_row (recorded : list ActionRecord) (seq_ : nat)
    (t : (string * string) * option nat) : PlanRow :=
  let '((kind, description), from) := t in
  let old := from ≫= λ i, recorded !! i in
  {| pr_seq := seq_; pr_kind := kind; pr_description := description;
     pr_status := status_as_str (default Pending (ar_status <$> old));
     pr_error := old ≫= ar_error |}.

(** @ hlb-state/src/lib.rs:3444-3499 [record_plan] *)
Definition record_plan (app : string) (actions : list (string * string)) : db () := λ s,
  let recorded := record_of <$> plan_rows app s in
  let rows := imap (carried_row recorded) (zip actions (carry_progress recorded actions)) in
  let written := set_plan (<[app := rows]> (t_plan s)) s in
  if (t_apps s !! app ==? None) && negb (actions ==? [])
  then (Err (Db "FOREIGN KEY constraint failed"), s)
  else (Ok (), written).

(** @ hlb-state/src/lib.rs:3504-3514 [completed_actions] *)
Definition completed_actions (app : string) (actions : list (string * string)) : db (list bool) :=
  let! recorded := plan_actions app in
  eff_ret ((λ from, if from ≫= λ i, recorded !! i is Some r then ar_status r ==? Done else false)
           <$> carry_progress recorded actions).

(** @ hlb-state/src/lib.rs:3516-3535 [set_action_status] *)
Definition set_action_status (app : string) (seq_ : nat) (status : ActionStatus)
    (error : option string) : db () :=
  eff_put (λ s, set_plan (alter (fmap (λ r,
    if (pr_seq r =? seq_)%nat
    then {| pr_seq := pr_seq r; pr_kind := pr_kind r; pr_description := pr_description r;
            pr_status := status_as_str status; pr_error := error |}
    else r)) app (t_plan s)) s).

(** @ hlb-state/src/lib.rs:3566-3572 [reset_plan] *)
Definition reset_plan (app : string) : db () :=
  eff_put (λ s, set_plan (delete app (t_plan s)) s).

(** @ hlb-state/src/lib.rs:3576-3586 [plan_finished] *)
Definition plan_finished (app : string) : db bool :=
  eff_get (λ s, let rows := plan_rows app s in
    (0 <? length rows)%nat
    && (length (keep (λ r, negb (pr_status r ==? "done")) rows) =? 0)%nat).

(** @ hlb-state/src/lib.rs:3588-3596 [completed_seqs] *)
Definition completed_seqs (app : string) : db (list nat) :=
  eff_get (λ s, pr_seq <$> keep (λ r, pr_status r ==? "done") (plan_rows app s)).

Definition is_unimplemented (r : PlanRow) : bool := pr_status r ==? "unimplemented".

(** @ hlb-state/src/lib.rs:3175-3219 [complete_unimplemented] *)
Definition complete_unimplemented (kind : string) (among : list string) : db (list string) := λ s,
  let apps := keep (λ app,
    any_of (λ r, (pr_kind r ==? kind) && is_unimplemented r) (plan_rows app s)
    && bool_decide (app ∈ among)) (btree_keys (t_plan s)) in
  let complete rows := (λ r,
    if (pr_kind r ==? kind) && is_unimplemented r
    then {| pr_seq := pr_seq r; pr_kind := pr_kind r; pr_description := pr_description r;
            pr_status := "done"; pr_error := None |}
    else r) <$> rows in
  let s := fold_left (λ s app, set_plan (alter complete app (t_plan s)) s) apps s in
  let s := fold_left (λ s app,
    if any_of is_unimplemented (plan_rows app s) then s
    else set_apps (alter (λ r, if row_status r ==? "partial"
      then {| row_manifest := row_manifest r; row_domain := row_domain r;
              row_status := "running"; row_replicas := row_replicas r |}
      else r) app (t_apps s)) s) apps s in
  (Ok apps, s).

(** ** Manual steps *)

(** @ hlb-state/src/lib.rs:3902-3935 [add_guide] *)
Definition add_guide (app id title : string) (blocking : bool) : db () :=
  references app ;;!
  eff_put (λ s,
    let row := match t_guides s !! (app, id) with
      | Some r => {| gr_title := title; gr_blocking := blocking; gr_verified := gr_verified r;
                     gr_forced := gr_forced r |}
      | None => {| gr_title := title; gr_blocking := blocking; gr_verified := false;
                   gr_forced := false |}
      end in
    let row := match t_ahead s !! (app, id) with
      | Some forced => {| gr_title := gr_title row; gr_blocking := gr_blocking row;
                          gr_verified := true; gr_forced := forced |}
      | None => row
      end in
    set_ahead (delete (app, id) (t_ahead s)) (set_guides (<[(app, id) := row]> (t_guides s)) s)).

(** @ hlb-state/src/lib.rs:3939-3950 [attest_ahead] *)
Definition attest_ahead (app id : string) (forced : bool) : db () :=
  eff_put (λ s, set_ahead (<[(app, id) := forced]> (t_ahead s)) s).

(** An update of one step's row, where its state is [verified]: whether there was one. *)
Definition update_guide (app id : string) (verified : bool) (f : GuideRow → GuideRow) : db bool := λ s,
  match t_guides s !! (app, id) with
  | Some r => if Bool.eqb (gr_verified r) verified
              then (Ok true, set_guides (<[(app, id) := f r]> (t_guides s)) s) else (Ok false, s)
  | None => (Ok false, s)
  end.

Definition guide_state (verified forced : bool) (r : GuideRow) : GuideRow :=
  {| gr_title := gr_title r; gr_blocking := gr_blocking r; gr_verified := verified;
     gr_forced := forced |}.

(** @ hlb-state/src/lib.rs:3976-3987 [handle_guide] *)
Definition handle_guide (app id : string) (forced : bool) : db bool :=
  update_guide app id false (guide_state true forced).
(** @ hlb-state/src/lib.rs:3966-3968 [verify_guide] *)
Definition verify_guide (app id : string) : db bool := handle_guide app id false.
(** @ hlb-state/src/lib.rs:3972-3974 [force_guide] *)
Definition force_guide (app id : string) : db bool := handle_guide app id true.
(** @ hlb-state/src/lib.rs:4013-4023 [reconfirm_guide] *)
Definition reconfirm_guide (app id : string) : db bool :=
  update_guide app id true (guide_state true false).
(** @ hlb-state/src/lib.rs:4027-4037 [reopen_guide] *)
Definition reopen_guide (app id : string) : db bool :=
  update_guide app id true (guide_state false false).

(** The steps of an app in a state, in the order of their ids. *)
Definition guides_where (p : GuideRow → bool) (app : string) (s : Store) : list string :=
  btree_elems (list_to_set ((λ t, t.1.2) <$>
    keep (λ '((a, _), r), (a ==? app) && p r) (map_to_list (t_guides s)))).

(** SQL gives them no order; the caller keeps none.
    @ hlb-state/src/lib.rs:4040-4048 [unverified_guides] *)
Definition unverified_guides (app : string) : db (list string) :=
  eff_get (guides_where (λ r, negb (gr_verified r)) app).

(** @ hlb-state/src/lib.rs:4051-4062 [verified_guides] *)
Definition verified_guides (app : string) : db (gset string) :=
  eff_get (λ s,
    list_to_set (guides_where gr_verified app s)
    ∪ list_to_set ((λ t, t.1.2) <$> keep (λ '((a, _), _), a ==? app) (map_to_list (t_ahead s)))).

(** @ hlb-state/src/lib.rs:4065-4075 [unverified_blocking] *)
Definition unverified_blocking (app : string) : db nat :=
  eff_get (λ s, length (guides_where (λ r, gr_blocking r && negb (gr_verified r)) app s)).

(** ** Secrets *)

(** @ hlb-state/src/lib.rs:3602-3619 [store_secret_if_absent] *)
Definition store_secret_if_absent (name : string) (ciphertext : list N) (purpose : string)
    : db bool := λ s,
  match t_secrets s !! name with
  | Some _ => (Ok false, s)
  | None => (Ok true, set_secrets (<[name := {| sr_ciphertext := ciphertext; sr_purpose := purpose |}]>
                                     (t_secrets s)) s)
  end.

(** @ hlb-state/src/lib.rs:3622-3632 [rotate_secret] *)
Definition rotate_secret (name : string) (ciphertext : list N) : db () :=
  eff_put (λ s, set_secrets (alter (λ r,
    {| sr_ciphertext := ciphertext; sr_purpose := sr_purpose r |}) name (t_secrets s)) s).

(** @ hlb-state/src/lib.rs:3636-3642 [forget_secret] *)
Definition forget_secret (name : string) : db () :=
  eff_put (λ s, set_secrets (delete name (t_secrets s)) s).

(** @ hlb-state/src/lib.rs:3709-3719 [secret] *)
Definition secret (name : string) : db (option (list N)) :=
  eff_get (λ s, sr_ciphertext <$> t_secrets s !! name).

(** @ hlb-state/src/lib.rs:3648-3655 [all_ciphertexts] *)
Definition all_ciphertexts : db (list (string * list N)) :=
  eff_get (λ s, (λ '(n, r), (n, sr_ciphertext r)) <$> btree_entries (t_secrets s)).

(** @ hlb-state/src/lib.rs:3722-3730 [secret_names] *)
Definition secret_names : db (list (string * string)) :=
  eff_get (λ s, (λ '(n, r), (n, sr_purpose r)) <$> btree_entries (t_secrets s)).

(** [BTreeMap::collect]: the last entry of a key stays. *)
Definition btree_of {V} (l : list (string * V)) : gmap string V :=
  fold_left (λ m '(k, v), <[k := v]> m) l ∅.

(** What changed in the vault since it was read. @ hlb-state/src/lib.rs:3681-3695 [rewrite_ciphertexts] *)
Definition vault_changes (s : Store) (entries : list (string * list N * list N)) : list string :=
  let now := (λ '(n, r), (n, sr_ciphertext r)) <$> btree_entries (t_secrets s) in
  let read := btree_of ((λ '(n, old, _), (n, old)) <$> entries) in
  (keep (λ '(n, ct), negb (read !! n ==? Some ct)) now).*1
  ++ keep (λ n, negb (any_of (λ '(k, _), k ==? n) now)) (btree_keys read).

(** @ hlb-state/src/lib.rs:3672-3707 [rewrite_ciphertexts] *)
Definition rewrite_ciphertexts (entries : list (string * list N * list N)) : db () := λ s,
  let changed := vault_changes s entries in
  if changed ==? [] then
    (Ok (), fold_left (λ s '(name, _, ciphertext), (rotate_secret name ciphertext s).2) entries s)
  else (Err (VaultChanged (join ", " changed)), s).

(** ** Volumes *)

(** @ hlb-state/src/lib.rs:1235-1260 [add_volume] *)
Definition add_volume (app name mountpoint : string) (backup sqlite : bool) : db () :=
  references app ;;!
  eff_put (λ s, set_volumes (<[(app, name) :=
    {| vr_mountpoint := mountpoint; vr_backup := backup; vr_sqlite := sqlite |}]> (t_volumes s)) s).

(** ** Progress follows the action *)

(** @ hlb-state/src/lib.rs:1323-1342 [app_volumes] *)
Definition app_volumes (app : string) : db (list (string * VolumeRow)) :=
  eff_get (λ s, omap (λ name, (name,.) <$> t_volumes s !! (app, name))
    (btree_elems (set_omap (λ k : string * string, if k.1 ==? app then Some k.2 else None)
                    (dom (t_volumes s))))).

(** @ hlb-state/src/lib.rs:1388-1399 [volumes_to_backup] *)
Definition volumes_to_backup (app : string) : db (list (string * string)) :=
  let! rows := app_volumes app in
  eff_ret ((λ r, (r.1, vr_mountpoint r.2)) <$> keep (λ r, vr_backup r.2) rows).

(** @ hlb-state/src/lib.rs:1669-1685 [buckets_to_backup] *)
Definition buckets_to_backup (app : string) : db (list string) :=
  let! m := app_manifest app in
  eff_ret (omap (λ c, match c with
    | ObjectStorage bucket true _ => Some (bucket_name bucket app)
    | _ => None
    end) (sp_requires (mf_spec m))).

(** @ hlb-state/src/lib.rs:1687-1711 [backup_kinds] *)
Definition backup_kinds (app : string) : db (list string) :=
  let! volumes := volumes_to_backup app in
  let! rows := app_volumes app in
  let sqlite := any_of (λ r, vr_backup r.2 && vr_sqlite r.2) rows in
  let! m := app_manifest app in
  let databases := any_of (λ c, if c is Database _ _ _ _ then true else false)
                     (sp_requires (mf_spec m)) in
  let! buckets := buckets_to_backup app in
  eff_ret (omap (λ '(has, kind), if (has : bool) then Some (kind : string) else None)
    [(negb (volumes ==? []), "volume"); (sqlite, "sqlite-snapshot"); (databases, "sql-dump");
     (negb (buckets ==? []), "bucket")]).

Lemma status_parse_as_str s : status_parse (status_as_str s) = s.
Proof. by destruct s. Qed.

Lemma elem_of_rows {A} i (l : list A) : i ∈ seq 0 (length l) ↔ is_Some (l !! i).
Proof. rewrite elem_of_seq, lookup_lt_is_Some. lia. Qed.

(** A row that [row_for] may take: not taken yet, and of the action. *)
Definition takeable (recorded : list ActionRecord) (used : list bool) (action : string * string)
    (i : nat) : Prop :=
  used !! i = Some false ∧ ∃ r, recorded !! i = Some r ∧ same r action = true.

Lemma free_takeable recorded used action i :
  negb (default true (used !! i))
    && (if recorded !! i is Some r then same r action else false) = true
  ↔ takeable recorded used action i.
Proof.
  unfold takeable. destruct (used !! i) as [[]|], (recorded !! i) as [r|]; cbn; naive_solver.
Qed.

Lemma row_for_Some recorded used seq_ action i :
  row_for recorded used seq_ action = Some i → takeable recorded used action i.
Proof.
  unfold row_for. intros H. apply free_takeable.
  repeat (case_match eqn:E; simplify_eq; [apply find_first_Some in E as (? & ? & _ & E & _);
    apply andb_true_iff in E as [_ E]; exact E|clear E]).
  apply find_first_Some in H as (? & ? & _ & H & _). exact H.
Qed.

Lemma row_for_None recorded used seq_ action :
  row_for recorded used seq_ action = None ↔ ∀ i, ¬ takeable recorded used action i.
Proof.
  split.
  - unfold row_for. intros H i Hi. repeat (case_match; [done|]).
    rewrite find_first_None, Forall_forall in H. pose proof Hi as (_ & r & Hr & _).
    apply free_takeable in Hi. rewrite H in Hi; [done|]. apply elem_of_rows. eauto.
  - intros H. destruct (row_for _ _ _ _) as [i|] eqn:E; [|done].
    apply row_for_Some in E. by apply H in E.
Qed.

(** The row at the action's own place, when it may be taken. *)
Lemma row_for_own recorded used seq_ action r :
  recorded !! seq_ = Some r → ar_seq r = seq_ →
  (∀ i r', recorded !! i = Some r' → ar_seq r' = seq_ → i = seq_) →
  takeable recorded used action seq_ → row_for recorded used seq_ action = Some seq_.
Proof.
  intros Hr Hs Huniq Ht. unfold row_for.
  destruct (find_first _ _) as [i|] eqn:E.
  - apply find_first_Some in E as (? & ? & _ & Ei & _). apply andb_true_iff in Ei as [Ei _].
    destruct (recorded !! i) as [r'|] eqn:Er; [|done]. apply Nat.eqb_eq in Ei.
    f_equal. by eapply Huniq.
  - exfalso. rewrite find_first_None, Forall_forall in E. specialize (E seq_).
    apply free_takeable in Ht. rewrite Ht, Hr, Hs, Nat.eqb_refl in E.
    discriminate E. apply elem_of_rows. by eexists.
Qed.

Section carry.
Context (recorded : list ActionRecord).

Lemma carry_go_spec used k plan :
  length used = length recorded →
  let out := carry_go recorded used k plan in
  length out = length plan ∧
  (∀ j i, out !! j = Some (Some i) →
     used !! i = Some false ∧ ∃ r a, recorded !! i = Some r ∧ plan !! j = Some a ∧ same r a = true) ∧
  (∀ j j' i, out !! j = Some (Some i) → out !! j' = Some (Some i) → j = j') ∧
  (∀ j a i, out !! j = Some None → plan !! j = Some a → takeable recorded used a i →
     ∃ j', (j' < j)%nat ∧ out !! j' = Some (Some i)).
Proof.
  revert used k. induction plan as [|a plan IH]; intros used k Hlen; cbn [carry_go].
  { cbn. split; [done|]. repeat split; intros; done. }
  destruct (row_for recorded used k a) as [i0|] eqn:E; cbn zeta.
  - apply row_for_Some in E. destruct E as (Hu & r0 & Hr0 & Hs0).
    destruct (IH (<[i0 := true]> used) (S k)) as (IHl & IHv & IHi & IHm); [by rewrite length_insert|].
    assert (Hne : ∀ i, <[i0 := true]> used !! i = Some false → used !! i = Some false ∧ i ≠ i0).
    { intros i. destruct (decide (i = i0)) as [->|?].
      - rewrite list_lookup_insert_eq by (apply lookup_lt_is_Some; eauto). done.
      - by rewrite list_lookup_insert_ne. }
    split; [cbn; by rewrite IHl|]. split; [|split].
    + intros [|j] i; cbn; [intros [= <-]; eauto 6|]. intros Hj. apply IHv in Hj as (Hj & ?).
      apply Hne in Hj as [? _]. done.
    + intros [|j] [|j'] i; cbn; try done.
      * intros [= <-] Hj'. apply IHv in Hj' as (Hj' & _). by apply Hne in Hj' as [_ ?].
      * intros Hj [= <-]. apply IHv in Hj as (Hj & _). by apply Hne in Hj as [_ ?].
      * intros H1 H2. f_equal. by eapply IHi.
    + intros [|j] b i; cbn; [done|]. intros Hj Hb Ht.
      destruct (decide (i = i0)) as [->|Hi]; [exists 0%nat; split; [lia|done]|].
      destruct (IHm j b i Hj Hb) as (j' & ? & ?).
      { destruct Ht as (? & ?). split; [by rewrite list_lookup_insert_ne|done]. }
      exists (S j'). split; [lia|done].
  - apply row_for_None with (i := 0%nat) in E as E0. rewrite row_for_None in E.
    destruct (IH used (S k) Hlen) as (IHl & IHv & IHi & IHm).
    split; [cbn; by rewrite IHl|]. split; [|split].
    + intros [|j] i; cbn; [done|]. apply IHv.
    + intros [|j] [|j'] i; cbn; try done. intros H1 H2. f_equal. by eapply IHi.
    + intros [|j] b i; cbn; [intros _ [= <-] Ht; by apply E in Ht|]. intros Hj Hb Ht.
      destruct (IHm j b i Hj Hb Ht) as (j' & ? & ?). exists (S j'). split; [lia|done].
Qed.

Lemma unused_rows i : replicate (length recorded) false !! i = Some false ↔ is_Some (recorded !! i).
Proof. rewrite lookup_replicate, lookup_lt_is_Some. naive_solver. Qed.
End carry.

(** Progress follows the action: a row gives what became of it to one action at most,
    of its kind and description, wherever that action now stands, and an action starts
    from nothing only when every row of its kind and description has been given to an
    action before it - none is lost, and none is given twice. *)
Theorem progress_follows_action recorded plan :
  length (carry_progress recorded plan) = length plan ∧
  (∀ j i, carry_progress recorded plan !! j = Some (Some i) →
     ∃ r a, recorded !! i = Some r ∧ plan !! j = Some a ∧ same r a = true) ∧
  (∀ j j' i, carry_progress recorded plan !! j = Some (Some i) →
     carry_progress recorded plan !! j' = Some (Some i) → j = j') ∧
  (∀ j a i r, carry_progress recorded plan !! j = Some None → plan !! j = Some a →
     recorded !! i = Some r → same r a = true →
     ∃ j', (j' < j)%nat ∧ carry_progress recorded plan !! j' = Some (Some i)).
Proof.
  unfold carry_progress. pose proof (carry_go_spec recorded (replicate (length recorded) false) 0 plan
    (length_replicate _ _)) as (Hl & Hv & Hi & Hm).
  split; [done|]. split; [intros j i (_ & H)%Hv; exact H|]. split; [done|].
  intros j a i r Hj Ha Hr Hs. apply (Hm j a i Hj Ha). split; [|eauto].
  apply unused_rows. eauto.
Qed.

(** ** The journal of a plan *)

Definition key_of (r : PlanRow) : string * string := (pr_kind r, pr_description r).

(** The rows of an app record a plan: one row per action, in order, numbered from zero. *)
Definition journal_of (plan : list (string * string)) (rows : list PlanRow) : Prop :=
  key_of <$> rows = plan ∧ pr_seq <$> rows = seq 0 (length plan) ∧
  Forall (λ r, ∃ st, pr_status r = status_as_str st) rows.

Definition statuses (rows : list PlanRow) : list ActionStatus := (λ r, status_parse (pr_status r)) <$> rows.

Lemma journal_length plan rows : journal_of plan rows → length rows = length plan.
Proof. intros (<- & _ & _). by rewrite length_fmap. Qed.

Lemma journal_row plan rows j r :
  journal_of plan rows → rows !! j = Some r → pr_seq r = j ∧ plan !! j = Some (key_of r).
Proof.
  intros (<- & Hs & _) Hr. rewrite list_lookup_fmap, Hr. split; [|done].
  assert (H : (pr_seq <$> rows) !! j = Some (pr_seq r)) by (by rewrite list_lookup_fmap, Hr).
  rewrite Hs in H. apply lookup_seq in H. cbn in H. lia.
Qed.

Lemma record_of_same r : same (record_of r) (key_of r) = true.
Proof. unfold same. cbn. by rewrite !bool_decide_eq_true_2. Qed.

(** A plan recorded again finds each of its actions where it was. *)
Lemma carry_own plan rows :
  journal_of plan rows → carry_progress (record_of <$> rows) plan = Some <$> seq 0 (length plan).
Proof.
  intros HJ. pose proof (journal_length _ _ HJ) as Hlen. unfold carry_progress.
  set (recorded := record_of <$> rows).
  assert (Hrec : length recorded = length plan) by (unfold recorded; by rewrite length_fmap).
  assert (H : ∀ k, (k ≤ length plan)%nat →
    carry_go recorded (replicate k true ++ replicate (length plan - k) false) k (drop k plan) =
    Some <$> seq k (length plan - k)).
  2: { specialize (H 0%nat ltac:(lia)). rewrite drop_0, Nat.sub_0_r in H. by rewrite Hrec. }
  intros k. remember (length plan - k)%nat as n eqn:En. revert k En.
  induction n as [|n IH]; intros k En Hk.
  { rewrite drop_ge by lia. done. }
  destruct (lookup_lt_is_Some_2 plan k ltac:(lia)) as [a Ha].
  destruct (lookup_lt_is_Some_2 rows k ltac:(lia)) as [r Hr].
  destruct (journal_row _ _ _ _ HJ Hr) as [Hseq Hkey]. rewrite Hkey in Ha. injection Ha as <-.
  rewrite (drop_S _ (key_of r)) by done. cbn [carry_go].
  rewrite (row_for_own recorded _ k _ (record_of r)).
  - cbn [seq fmap list_fmap]. f_equal.
    assert (E : <[k := true]> (replicate k true ++ replicate (S n) false) =
                replicate (S k) true ++ replicate n false).
    { rewrite insert_app_r_alt by (rewrite length_replicate; lia).
      rewrite length_replicate, Nat.sub_diag. cbn.
      rewrite app_comm_cons, replicate_cons_app, <- app_assoc. done. }
    rewrite E. apply IH; lia.
  - unfold recorded. by rewrite list_lookup_fmap, Hr.
  - done.
  - intros i r'. unfold recorded. rewrite list_lookup_fmap.
    destruct (rows !! i) as [r''|] eqn:Ei; [|done]. cbn. intros [= <-].
    intros Hk'. destruct (journal_row _ _ _ _ HJ Ei) as [Hi _]. cbn in Hk'. congruence.
  - split; [|exists (record_of r); split; [unfold recorded; by rewrite list_lookup_fmap, Hr|
      apply record_of_same]].
    rewrite lookup_app_r by (rewrite length_replicate; lia).
    rewrite length_replicate, Nat.sub_diag. done.
Qed.

(** ** What recording a plan leaves *)

Lemma progress_length recorded plan : length (carry_progress recorded plan) = length plan.
Proof. apply carry_go_spec, length_replicate. Qed.

(** The rows written over [recorded]. *)
Definition carried (recorded : list ActionRecord) (plan : list (string * string)) : list PlanRow :=
  imap (carried_row recorded) (zip plan (carry_progress recorded plan)).

Lemma lookup_carried recorded plan j :
  carried recorded plan !! j =
  (a ← plan !! j; f ← carry_progress recorded plan !! j; Some (carried_row recorded j (a, f))).
Proof.
  unfold carried. rewrite list_lookup_imap, lookup_zip_with.
  destruct (plan !! j) as [a|]; cbn; [|done]. by destruct (carry_progress recorded plan !! j).
Qed.

Lemma carried_length recorded plan : length (carried recorded plan) = length plan.
Proof. unfold carried. rewrite length_imap, length_zip_with, progress_length. lia. Qed.

(** Whatever was recorded before, the rows written are a journal of the plan. *)
Lemma carried_journal recorded plan : journal_of plan (carried recorded plan).
Proof.
  assert (H : ∀ j r, carried recorded plan !! j = Some r → ∃ a f, plan !! j = Some a ∧
    r = carried_row recorded j (a, f)).
  { intros j r. rewrite lookup_carried. destruct (plan !! j) as [a|]; cbn; [|done].
    destruct (carry_progress recorded plan !! j) as [f|]; cbn; [|done]. intros [= <-]. eauto. }
  pose proof (carried_length recorded plan) as Hl. split; [|split].
  - apply list_eq_same_length with (length plan); [done|by rewrite length_fmap|].
    intros j x y _ Hx Hy. rewrite list_lookup_fmap in Hx.
    destruct (carried recorded plan !! j) as [r|] eqn:Er; [|done].
    apply H in Er as ([k d] & f & E & ->). unfold key_of in Hx. cbn in *. congruence.
  - apply list_eq_same_length with (length plan); [by rewrite length_seq|by rewrite length_fmap|].
    intros j x y _ Hx Hy. rewrite list_lookup_fmap in Hx.
    destruct (carried recorded plan !! j) as [r|] eqn:Er; [|done].
    apply H in Er as ([k d] & f & E & ->). apply lookup_seq in Hy. cbn in *. simplify_eq. lia.
  - apply Forall_forall. intros r (j & Hj)%list_elem_of_lookup.
    apply H in Hj as ([k d] & f & _ & ->). by eexists.
Qed.

(** Recorded again, a plan's rows stay what they are. *)
Lemma carried_same plan rows : journal_of plan rows → carried (record_of <$> rows) plan = rows.
Proof.
  intros HJ. pose proof (journal_length _ _ HJ) as Hl.
  apply list_eq_same_length with (length plan); [done|by rewrite carried_length|].
  intros j x r Hj Hx Hr. rewrite lookup_carried, (carry_own plan rows HJ) in Hx.
  destruct (journal_row _ _ _ _ HJ Hr) as [Hs Hk]. rewrite Hk in Hx. cbn in Hx.
  rewrite list_lookup_fmap, lookup_seq_lt in Hx by done. cbn in Hx.
  rewrite list_lookup_fmap, Hr in Hx. cbn in Hx. injection Hx as <-.
  destruct HJ as (_ & _ & Hst). rewrite Forall_lookup in Hst. destruct (Hst j r Hr) as [st E].
  destruct r; cbn in *. by rewrite E, status_parse_as_str, Hs.
Qed.

Lemma plan_rows_set app m s : plan_rows app (set_plan m s) = default [] (m !! app).
Proof. done. Qed.

Lemma record_plan_rows app plan s :
  is_Some (t_apps s !! app) →
  record_plan app plan s =
  (Ok (), set_plan (<[app := carried (record_of <$> plan_rows app s) plan]> (t_plan s)) s).
Proof. intros [r Hr]. unfold record_plan. rewrite Hr. done. Qed.

Lemma completed_same app plan s :
  journal_of plan (plan_rows app s) →
  completed_actions app plan s = (Ok ((λ st, st ==? Done) <$> statuses (plan_rows app s)), s).
Proof.
  intros HJ. unfold completed_actions, eff_bind, plan_actions, eff_get, eff_ret. do 2 f_equal.
  rewrite (carry_own _ _ HJ). pose proof (journal_length _ _ HJ) as Hl.
  apply list_eq_same_length with (length plan);
    [by unfold statuses; rewrite !length_fmap|by rewrite !length_fmap, length_seq|].
  intros j x y Hj. unfold statuses. rewrite !list_lookup_fmap, lookup_seq_lt by done. cbn.
  rewrite list_lookup_fmap.
  destruct (lookup_lt_is_Some_2 (plan_rows app s) j ltac:(lia)) as [r ->]. cbn. congruence.
Qed.

Lemma set_action_status_rows app j st e s :
  plan_rows app (set_action_status app j st e s).2 =
  (λ r, if (pr_seq r =? j)%nat
        then {| pr_seq := pr_seq r; pr_kind := pr_kind r; pr_description := pr_description r;
                pr_status := status_as_str st; pr_error := e |}
        else r) <$> plan_rows app s.
Proof.
  unfold set_action_status, eff_put. cbn [snd]. rewrite plan_rows_set, lookup_alter_eq.
  unfold plan_rows. by destruct (t_plan s !! app).
Qed.

Lemma set_action_status_journal plan app j st e s :
  journal_of plan (plan_rows app s) →
  journal_of plan (plan_rows app (set_action_status app j st e s).2).
Proof.
  rewrite set_action_status_rows. intros (Hk & Hs & Hst). split; [|split].
  - rewrite <- Hk, <- list_fmap_compose. apply list_fmap_ext. intros i r _. cbn.
    by destruct (pr_seq r =? j)%nat.
  - rewrite <- Hs, <- list_fmap_compose. apply list_fmap_ext. intros i r _. cbn.
    by destruct (pr_seq r =? j)%nat.
  - apply Forall_fmap. eapply Forall_impl; [exact Hst|]. intros r Hr. cbn.
    destruct (pr_seq r =? j)%nat; [by eexists|done].
Qed.

Lemma set_action_status_statuses plan app j st e s :
  journal_of plan (plan_rows app s) →
  statuses (plan_rows app (set_action_status app j st e s).2) =
  <[j := st]> (statuses (plan_rows app s)).
Proof.
  intros HJ. rewrite set_action_status_rows. apply list_eq. intros i. unfold statuses.
  rewrite list_lookup_fmap, list_lookup_fmap.
  destruct (plan_rows app s !! i) as [r|] eqn:Hr; cbn.
  - destruct (journal_row _ _ _ _ HJ Hr) as [-> _]. destruct (Nat.eqb_spec i j) as [->|Hij]; cbn.
    + rewrite status_parse_as_str, list_lookup_insert_eq; [done|].
      rewrite length_fmap. apply lookup_lt_is_Some. eauto.
    + rewrite list_lookup_insert_ne by done. by rewrite list_lookup_fmap, Hr.
  - symmetry. apply lookup_ge_None. rewrite length_insert, length_fmap. by apply lookup_ge_None.
Qed.

Lemma list_find_NoDup {A} `{EqDecision A} (l : list A) i x :
  NoDup l → l !! i = Some x → list_find (λ y, y = x) l = Some (i, x).
Proof.
  intros Hnd Hi. apply list_find_Some. split; [done|]. split; [done|].
  intros j y Hj Hji ->. assert (i = j) by (eapply NoDup_lookup; eauto). lia.
Qed.

(** A plan that gains, loses or reorders actions resumes where it was: with no two
    actions alike, each action of the new plan has the status of the row that recorded it,
    and one the journal never held is pending. *)
Theorem replanned_statuses app old plan s :
  is_Some (t_apps s !! app) → journal_of old (plan_rows app s) → NoDup old → NoDup plan →
  ∀ j a, plan !! j = Some a →
    statuses (plan_rows app (record_plan app plan s).2) !! j =
    Some match list_find (λ b, b = a) old with
         | Some (i, _) => default Pending (statuses (plan_rows app s) !! i)
         | None => Pending
         end.
Proof.
  intros Happ HJ Hold Hplan j a Ha. rewrite (record_plan_rows _ _ _ Happ). cbn [snd].
  rewrite plan_rows_set, lookup_insert_eq. cbn [from_option]; unfold id at 1. unfold statuses at 1.
  rewrite list_lookup_fmap, lookup_carried, Ha.
  set (recorded := record_of <$> plan_rows app s).
  assert (is_Some (carry_progress recorded plan !! j)) as [f Hf]
    by (apply lookup_lt_is_Some; rewrite progress_length; apply lookup_lt_is_Some; eauto).
  rewrite Hf. cbn. destruct a as [k d]. cbn.
  pose proof (carry_go_spec recorded (replicate (length recorded) false) 0 plan
    (length_replicate _ _)) as (_ & Hv & _ & Hm). fold (carry_progress recorded plan) in Hv, Hm.
  assert (Hrow : ∀ i r, recorded !! i = Some r → old !! i = Some (ar_kind r, ar_description r)).
  { intros i r. unfold recorded. rewrite list_lookup_fmap.
    destruct (plan_rows app s !! i) as [p|] eqn:Ep; [|done]. cbn. intros [= <-].
    by destruct (journal_row _ _ _ _ HJ Ep) as [_ ->]. }
  assert (Hsame : ∀ r b, same r b = true → b = (ar_kind r, ar_description r)).
  { intros r [k' d']. unfold same. rewrite andb_true_iff, !bool_decide_eq_true. cbn. by intros [-> ->]. }
  rewrite status_parse_as_str. f_equal. destruct f as [i|]; cbn.
  - apply Hv in Hf as (_ & r & b & Hr & Hb & Hs). rewrite Ha in Hb. injection Hb as <-.
    apply Hsame in Hs. apply Hrow in Hr as Ho. rewrite <- Hs in Ho.
    rewrite (list_find_NoDup old i (k, d)) by done. rewrite Hr. cbn.
    unfold recorded in Hr. rewrite list_lookup_fmap in Hr. unfold statuses. rewrite list_lookup_fmap.
    destruct (plan_rows app s !! i); simplify_eq/=. done.
  - destruct (list_find _ old) as [[i b]|] eqn:E; [|done]. exfalso.
    apply list_find_Some in E as (Ho & -> & _).
    destruct (lookup_lt_is_Some_2 recorded i) as [r Hr].
    { unfold recorded. rewrite length_fmap, (journal_length _ _ HJ). apply lookup_lt_is_Some. eauto. }
    apply Hrow in Hr as Ho'. rewrite Ho in Ho'. injection Ho' as -> ->.
    destruct (Hm j (ar_kind r, ar_description r) i Hf Ha) as (j' & Hj' & Hf').
    { split; [apply unused_rows; eauto|]. exists r. split; [done|]. unfold same. cbn.
      by rewrite !bool_decide_eq_true_2. }
    apply Hv in Hf' as (_ & r' & a' & Hr' & Ha' & Hs'). rewrite Hr in Hr'. injection Hr' as <-.
    apply Hsame in Hs' as ->. assert (j = j') by (eapply NoDup_lookup; eauto). lia.
Qed.

(** ** Rows that only advance

    What an action does to the journal beside its own row: a route published completes
    the routes left unimplemented ([complete_unimplemented]), and nothing else. *)

Definition status_advances (x y : ActionStatus) : Prop := y = x ∨ x = Unimplemented ∧ y = Done.

Definition row_advances (r r' : PlanRow) : Prop :=
  key_of r' = key_of r ∧ pr_seq r' = pr_seq r ∧
  (r' = r ∨ pr_status r = "unimplemented" ∧ pr_status r' = "done").

#[export] Instance status_advances_preorder : PreOrder status_advances.
Proof. split; [by left|]. intros x y z [->|[-> ->]] [->|[? ?]]; unfold status_advances; naive_solver. Qed.

#[export] Instance row_advances_preorder : PreOrder row_advances.
Proof.
  split; [by repeat split; left|]. intros x y z (K1 & S1 & H1) (K2 & S2 & H2).
  split; [congruence|]. split; [congruence|].
  destruct H1 as [->|[E1 E2]], H2 as [->|[E3 E4]]; [by left|by right..|].
  rewrite E2 in E3. discriminate.
Qed.

(** The app stays recorded and its rows advance. *)
Definition store_advances (app : string) (s s' : Store) : Prop :=
  (is_Some (t_apps s !! app) → is_Some (t_apps s' !! app)) ∧
  Forall2 row_advances (plan_rows app s) (plan_rows app s').

#[export] Instance store_advances_preorder app : PreOrder (store_advances app).
Proof.
  split.
  - intros s. split; [done|]. reflexivity.
  - intros x y z [A1 B1] [A2 B2]. split; [auto|]. by etransitivity.
Qed.

Lemma advances_journal plan rows rows' :
  Forall2 row_advances rows rows' → journal_of plan rows → journal_of plan rows'.
Proof.
  intros H (Hk & Hs & Hst). split; [|split].
  - rewrite <- Hk. clear -H. induction H as [|x y l k (? & _) _ IH]; [done|]. cbn. by f_equal.
  - rewrite <- Hs. clear -H. induction H as [|x y l k (_ & ? & _) _ IH]; [done|]. cbn. by f_equal.
  - clear -H Hst. induction H as [|x y l k (_ & _ & Hxy) _ IH]; [done|].
    apply Forall_cons in Hst as [Hx Hl]. constructor; [|auto].
    destruct Hxy as [->|[_ ->]]; [done|]. by exists Done.
Qed.

Lemma advances_statuses rows rows' :
  Forall2 row_advances rows rows' → Forall2 status_advances (statuses rows) (statuses rows').
Proof.
  induction 1 as [|x y l k (_ & _ & Hxy) _ IH]; [constructor|]. cbn. constructor; [|done].
  destruct Hxy as [->|[-> ->]]; [by left|by right].
Qed.

Lemma fold_advances {A} app (f : Store → A → Store) l s :
  (∀ s a, store_advances app s (f s a)) → store_advances app s (fold_left f l s).
Proof.
  intros Hf. revert s. induction l as [|a l IH]; intros s; [reflexivity|]. cbn.
  etransitivity; [apply Hf|apply IH].
Qed.

Lemma complete_unimplemented_advances kind among app s :
  store_advances app s (complete_unimplemented kind among s).2.
Proof.
  unfold complete_unimplemented. cbn [snd]. etransitivity; apply (fold_advances (A := string)); clear s; intros s a.
  - split; [done|]. rewrite plan_rows_set. unfold plan_rows. destruct (decide (a = app)) as [->|Ha].
    + rewrite lookup_alter_eq. destruct (t_plan s !! app) as [rows|]; [|constructor].
      cbn. apply Forall2_fmap_r, Forall2_same_length_lookup_2; [done|].
      intros i x y Hx Hy. simplify_eq. unfold compose. destruct ((pr_kind x ==? kind) && is_unimplemented x) eqn:E; [|reflexivity].
      apply andb_true_iff in E as [_ E]. apply bool_decide_eq_true in E. repeat split. by right.
    + rewrite lookup_alter_ne by done. reflexivity.
  - destruct (any_of is_unimplemented _); [reflexivity|]. split; [|reflexivity]. cbn. intros [r Hr].
    destruct (decide (a = app)) as [->|Ha].
    + rewrite lookup_alter_eq, Hr. by eexists.
    + rewrite lookup_alter_ne by done. eauto.
Qed.

(** A plan that gains an action in the middle: the ones around it keep their progress. *)
Definition example_row : AppRow :=
  {| row_manifest := {| mf_api_version := V1; mf_kind := App;
       mf_metadata := {| md_name := "gitea"; md_hlb := None; md_criticality := None;
                         md_display_name := None; md_category := None; md_homepage := None |};
       mf_spec := example_spec |};
     row_domain := None; row_status := "failed"; row_replicas := None |}.
Definition example_store : Store :=
  set_plan {[ "gitea" := [
    {| pr_seq := 0; pr_kind := "GenerateSecret"; pr_description := "a"; pr_status := "done"; pr_error := None |};
    {| pr_seq := 1; pr_kind := "DeployService"; pr_description := "b"; pr_status := "done"; pr_error := None |};
    {| pr_seq := 2; pr_kind := "WaitHealthy"; pr_description := "c"; pr_status := "failed";
       pr_error := Some "timeout" |}] ]}
    (set_apps {[ "gitea" := example_row ]} empty_store).

Lemma replanned_statuses_witness :
  statuses (plan_rows "gitea" (record_plan "gitea"
    [("GenerateSecret", "a"); ("CreateVolume", "v"); ("DeployService", "b"); ("WaitHealthy", "c")]
    example_store).2) !! 2 = Some Done.
Proof.
  refine (replanned_statuses "gitea"
    [("GenerateSecret", "a"); ("DeployService", "b"); ("WaitHealthy", "c")]
    [("GenerateSecret", "a"); ("CreateVolume", "v"); ("DeployService", "b"); ("WaitHealthy", "c")]
    example_store _ _ _ _ 2 ("DeployService", "b") eq_refl).
  - by eexists.
  - split; [done|]. split; [done|].
    repeat constructor; [by exists Done|by exists Done|by exists Failed].
  - by apply (bool_decide_unpack _).
  - by apply (bool_decide_unpack _).
Defined.

(** ** The vault re-encrypted *)

Lemma btree_of_go {V} (l : list (string * V)) m k v :
  NoDup l.*1 →
  fold_left (λ (m : gmap string V) '(k, v), <[k := v]> m) l m !! k = Some v ↔
  (k, v) ∈ l ∨ (m !! k = Some v ∧ k ∉ l.*1).
Proof.
  revert m. induction l as [|[k' v'] l IH]; intros m Hnd; cbn [fold_left].
  { cbn. rewrite !elem_of_nil. naive_solver. }
  apply NoDup_cons in Hnd as [Hk' Hnd]. cbn in Hk'. rewrite IH by done. cbn. rewrite !elem_of_cons.
  destruct (decide (k = k')) as [->|Hne].
  - rewrite lookup_insert_eq. split.
    + intros [H|[[= ->] H]]; [by left; right|by left; left].
    + intros [[[= ->]|H]|[_ H]]; [by right|by left|tauto].
  - rewrite lookup_insert_ne by done. split; [intros [H|[H1 H2]]; [by left; right|right; tauto]|].
    intros [[[= -> ->]|H]|[H1 H2]]; [done|by left|right; tauto].
Qed.

Lemma lookup_btree_of {V} (l : list (string * V)) k v :
  NoDup l.*1 → btree_of l !! k = Some v ↔ (k, v) ∈ l.
Proof. intros H. unfold btree_of. rewrite btree_of_go by done. rewrite lookup_empty. naive_solver. Qed.

Definition vault (s : Store) : gmap string (list N) := sr_ciphertext <$> t_secrets s.
Definition as_read (entries : list (string * list N * list N)) : gmap string (list N) :=
  btree_of ((λ '(n, old, _), (n, old)) <$> entries).

Lemma vault_changes_nil s entries : vault_changes s entries = [] ↔ as_read entries = vault s.
Proof.
  unfold vault_changes. rewrite app_nil. fold (as_read entries).
  assert (Hnow : ∀ n ct, (n, ct) ∈ (λ '(n, r), (n, sr_ciphertext r)) <$> btree_entries (t_secrets s)
    ↔ vault s !! n = Some ct).
  { intros n ct. unfold vault. rewrite list_elem_of_fmap, lookup_fmap, fmap_Some. split.
    - intros ([n' r] & [= -> ->] & Hin%elem_of_btree_entries). eauto.
    - intros (r & Hr & ->). exists (n, r). split; [done|]. by apply elem_of_btree_entries. }
  split.
  - intros [H1 H2]. apply map_eq. intros n. destruct (vault s !! n) as [ct|] eqn:Hn.
    + apply fmap_nil_inv in H1. apply Hnow in Hn.
      destruct (as_read entries !! n ==? Some ct) eqn:E; [by apply bool_decide_eq_true in E|].
      assert (Hin : (n, ct) ∈ keep (λ '(n, ct), negb (as_read entries !! n ==? Some ct))
        ((λ '(n, r), (n, sr_ciphertext r)) <$> btree_entries (t_secrets s)))
        by (apply elem_of_keep; by rewrite E). rewrite H1 in Hin. by apply not_elem_of_nil in Hin.
    + destruct (as_read entries !! n) as [ct|] eqn:Er; [|done]. exfalso.
      assert (Hin : n ∈ keep (λ n, negb (any_of (λ '(k, _), k ==? n)
          ((λ '(n, r), (n, sr_ciphertext r)) <$> btree_entries (t_secrets s))))
        (btree_keys (as_read entries))); [|rewrite H2 in Hin; by apply not_elem_of_nil in Hin].
      apply elem_of_keep. split; [|apply elem_of_btree_keys; eauto]. apply negb_true_iff, any_of_false.
      intros [k c] Hk%Hnow. apply bool_decide_eq_false. intros ->. congruence.
  - intros E. split.
    + refine (f_equal (fmap fst) (_ : _ = [])). apply elem_of_nil_inv. intros [n ct] [Hne Hin%Hnow]%elem_of_keep.
      rewrite E, Hin in Hne. by rewrite bool_decide_eq_true_2 in Hne.
    + apply elem_of_nil_inv. intros n [Hne [ct Hin]%elem_of_btree_keys]%elem_of_keep.
      rewrite E in Hin. apply Hnow in Hin. apply negb_true_iff in Hne.
      rewrite any_of_false in Hne. specialize (Hne _ Hin). by apply bool_decide_eq_false in Hne.
Qed.

Definition rewritten (entries : list (string * list N * list N)) (s : Store) : Store :=
  fold_left (λ s '(name, _, ciphertext), (rotate_secret name ciphertext s).2) entries s.

Lemma lookup_rewritten entries s n :
  (n ∉ entries.*1.*1 → t_secrets (rewritten entries s) !! n = t_secrets s !! n) ∧
  (NoDup entries.*1.*1 → ∀ old new, (n, old, new) ∈ entries →
     t_secrets (rewritten entries s) !! n =
     (λ r, {| sr_ciphertext := new; sr_purpose := sr_purpose r |}) <$> t_secrets s !! n).
Proof.
  unfold rewritten. revert s. induction entries as [|[[k o] c] l IH]; intros s.
  { split; [done|]. by intros _ ? ? ?%not_elem_of_nil. }
  cbn [fold_left]. destruct (IH (rotate_secret k c s).2) as [IH1 IH2]. split.
  - rewrite !fmap_cons, not_elem_of_cons. intros [Hne Hl]. rewrite IH1 by done. cbn. by rewrite lookup_alter_ne.
  - rewrite !fmap_cons, NoDup_cons. intros [Hk Hnd] old new [[= -> -> ->]|Hin]%elem_of_cons.
    + rewrite IH1 by done. cbn. by rewrite lookup_alter_eq.
    + rewrite (IH2 Hnd _ _ Hin). cbn. rewrite lookup_alter_ne; [done|]. intros <-. apply Hk.
      apply list_elem_of_fmap. exists (k, old). split; [done|]. apply list_elem_of_fmap. by exists (k, old, new).
Qed.

(** Re-encrypting the vault is all or nothing: it is done exactly when the vault is what
    was read, and then every secret there is has its new text, its purpose kept, and there
    is no other; anything stored, rotated or removed meanwhile leaves all as it was. *)
Theorem rekey_atomic entries s :
  NoDup entries.*1.*1 →
  match rewrite_ciphertexts entries s with
  | (Ok _, s') =>
      (∀ n old new, (n, old, new) ∈ entries →
         ∃ r, t_secrets s !! n = Some r ∧ sr_ciphertext r = old ∧
           t_secrets s' !! n = Some {| sr_ciphertext := new; sr_purpose := sr_purpose r |}) ∧
      (∀ n, is_Some (t_secrets s' !! n) ↔ n ∈ entries.*1.*1) ∧
      ∀ n, is_Some (t_secrets s' !! n) ↔ is_Some (t_secrets s !! n)
  | (Err _, s') => s' = s ∧ as_read entries ≠ vault s
  end.
Proof.
  intros Hnd. unfold rewrite_ciphertexts. case_bool_decide as E; rewrite vault_changes_nil in E; [|done].
  fold (rewritten entries s).
  assert (Hp : NoDup ((λ '(n, old, _), (n, old)) <$> entries : list (string * list N)).*1).
  { rewrite <- list_fmap_compose. rewrite <- list_fmap_compose in Hnd.
    erewrite list_fmap_ext; [exact Hnd|]. by intros i [[? ?] ?] _. }
  assert (Hin : ∀ n old new, (n, old, new) ∈ entries → ∃ r, t_secrets s !! n = Some r ∧ sr_ciphertext r = old).
  { intros n old new H. assert (Hr : as_read entries !! n = Some old).
    { apply lookup_btree_of; [done|]. apply list_elem_of_fmap. by exists (n, old, new). }
    rewrite E in Hr. unfold vault in Hr. rewrite lookup_fmap, fmap_Some in Hr.
    destruct Hr as (r & ? & ?). eauto. }
  assert (Hall : ∀ n, is_Some (t_secrets s !! n) ↔ n ∈ entries.*1.*1).
  { intros n. rewrite <- (fmap_is_Some sr_ciphertext), <- lookup_fmap. fold (vault s). rewrite <- E. split.
    - intros [ct H]. apply lookup_btree_of in H; [|done].
      apply list_elem_of_fmap in H as ([[n' o] c] & [= -> ->] & H).
      apply list_elem_of_fmap. exists (n', o). split; [done|]. apply list_elem_of_fmap. by exists (n', o, c).
    - intros ([n' o] & -> & ([[n'' o'] c] & [= -> ->] & H)%list_elem_of_fmap)%list_elem_of_fmap.
      exists o'. apply lookup_btree_of; [done|]. apply list_elem_of_fmap. by exists (n'', o', c). }
  assert (Hsame : ∀ n, is_Some (t_secrets (rewritten entries s) !! n) ↔ is_Some (t_secrets s !! n)).
  { intros n. destruct (lookup_rewritten entries s n) as [H1 H2].
    destruct (decide (n ∈ entries.*1.*1)) as [H|H]; [|by rewrite (H1 H)].
    apply list_elem_of_fmap in H as ([n' o] & -> & ([[n'' o'] c] & [= -> ->] & H)%list_elem_of_fmap).
    rewrite (H2 Hnd _ _ H). apply fmap_is_Some. }
  split; [|split; [|exact Hsame]].
  - intros n old new H. destruct (Hin _ _ _ H) as (r & Hr & Ho). exists r. split; [done|]. split; [done|].
    destruct (lookup_rewritten entries s n) as [_ H2]. by rewrite (H2 Hnd _ _ H), Hr.
  - intros n. by rewrite Hsame, Hall.
Qed.

Definition example_vault : Store :=
  set_secrets {[ "gitea-db-password" := {| sr_ciphertext := [1%N]; sr_purpose := "db" |} ]} empty_store.
Definition example_rekey : list (string * list N * list N) := [("gitea-db-password", [1%N], [2%N])].

Lemma rekey_atomic_witness :
  t_secrets (rewrite_ciphertexts example_rekey example_vault).2 !! "gitea-db-password" =
  Some {| sr_ciphertext := [2%N]; sr_purpose := "db" |}.
Proof.
  assert (E : rewrite_ciphertexts example_rekey example_vault =
    (Ok (), (rewrite_ciphertexts example_rekey example_vault).2)) by (by vm_compute).
  pose proof (rekey_atomic example_rekey example_vault ltac:(by apply (bool_decide_unpack _))) as H.
  rewrite E in H. destruct H as (H & _).
  destruct (H "gitea-db-password" [1%N] [2%N] ltac:(by left)) as (r & Hr & _ & Hs).
  rewrite Hs. assert (Hp : t_secrets example_vault !! "gitea-db-password" =
    Some {| sr_ciphertext := [1%N]; sr_purpose := "db" |}) by (by vm_compute).
  rewrite Hp in Hr. injection Hr as <-. reflexivity.
Defined.
