(* ===== verification/Executor.v ===== *)
(** * Carrying a plan out

    [crates/hlb-engine/src/lib.rs], [Executor::run]: the plan is recorded, its manual
    steps asked, its prerequisites checked, and its actions carried out one after the
    other, each recorded as it ends - what makes a run resume where the last one stopped.

    What an action does ([execute_one]), what the orchestrator answers of a service and
    what the verifier finds of a step are the environment's: the loop is proved whatever
    they do, with the state store of [Journal] and the services' state in a world of
    theirs. *)

From S2P Require Import Prelude RustStr Capability Guide Manifest Plan Journal.

(** @ hlb-engine/src/lib.rs:1897-1915 [kind_of] *)
Definition kind_of (a : Action) : string :=
  match a with
  | ProvisionDatabase _ _ _ _ _ _ => "ProvisionDatabase"
  | ProvisionBucket _ _ _ _ => "ProvisionBucket"
  | GenerateSecret _ _ => "GenerateSecret"
  | CreateOidcClient _ _ => "CreateOidcClient"
  | AddPortalCallback _ => "AddPortalCallback"
  | CreateVolume _ _ _ _ _ => "CreateVolume"
  | ProvisionSmtpAccount _ _ => "ProvisionSmtpAccount"
  | ProvisionMailAccount _ _ _ => "ProvisionMailAccount"
  | DeployService _ _ _ _ _ _ _ _ _ _ _ _ _ => "DeployService"
  | FetchDownload _ _ _ _ _ _ _ _ => "FetchDownload"
  | ResolveDigest _ _ => "ResolveDigest"
  | WaitHealthy _ _ => "WaitHealthy"
  | ConfigureIngress _ _ _ _ => "ConfigureIngress"
  | PendingGuideStep _ _ _ _ _ => "PendingGuideStep"
  end.

(** @ hlb-engine/src/lib.rs:162-168 [Outcome] *)
Record Outcome := {
  executed : nat; skipped : nat; unimplemented : nat; failed : option (nat * string) }.
Definition default_outcome : Outcome :=
  {| executed := 0; skipped := 0; unimplemented := 0; failed := None |}.
(** @ hlb-engine/src/lib.rs:170-174 [Outcome::is_success] *)
Definition is_success (o : Outcome) : bool := bool_decide (failed o = None).

Definition one_executed (o : Outcome) : Outcome :=
  {| executed := S (executed o); skipped := skipped o; unimplemented := unimplemented o;
     failed := failed o |}.
Definition one_skipped (o : Outcome) : Outcome :=
  {| executed := executed o; skipped := S (skipped o); unimplemented := unimplemented o;
     failed := failed o |}.
Definition one_unimplemented (o : Outcome) : Outcome :=
  {| executed := executed o; skipped := skipped o; unimplemented := S (unimplemented o);
     failed := failed o |}.
Definition with_failure (at_ : nat) (why : string) (o : Outcome) : Outcome :=
  {| executed := executed o; skipped := skipped o; unimplemented := unimplemented o;
     failed := Some (at_, why) |}.

(** @ hlb-engine/src/lib.rs:1892-1895 [Step] *)
Inductive Step := StepDone | StepNotImplemented.

(** What stops a run before its actions. *)
Inductive Error := State (e : Journal.Error) | BlockedByGuide (blocking : nat).

Definition is_deploy_of (a : Action) : option string :=
  match a with DeployService name _ _ _ _ _ _ _ _ _ _ _ _ => Some name | _ => None end.

(** What [run] records of a plan. @ hlb-engine/src/lib.rs:605-609 [Executor::run] *)
Definition records (plan : Plan) : list (string * string) :=
  (λ a, (kind_of a, action_display a)) <$> actions plan.

(** An image of the frozen manifest lost its digest.
    @ hlb-engine/src/lib.rs:682-689 [Executor::run] *)
Definition lost_digest (frozen : option Manifest) (repo tag : string) : bool :=
  if frozen is Some m then
    any_of (λ i, (img_repo i ==? repo) && (img_tag i ==? tag) && negb (is_pinned i))
      (sp_image (mf_spec m) :: (co_image <$> sp_companions (mf_spec m)))
  else false.

(** @ hlb-engine/src/lib.rs:690-696 [Executor::run] *)
Definition redeploys (vanished : list string) (frozen : option Manifest) (a : Action) : bool :=
  match a with
  | DeployService name _ _ _ _ _ _ _ _ _ _ _ _ | WaitHealthy name _ => bool_decide (name ∈ vanished)
  | ResolveDigest repo tag => lost_digest frozen repo tag
  | _ => false
  end.

Section run.
Context {World : Type}.
(** The orchestrator says a service is not there. *)
Context (not_found : World → string → bool).
(** The check of a step, with the install's domain: whether it is proven done. *)
Context (verified_by_check : World → Store → GuideStep → option string → bool).
(** What carrying out one action does, on the store and the world, and how it ends. *)
Context (execute_one : string → Action → Store * World → result string Step * (Store * World)).

Abbreviation M := (eff (Store * World) Error).

Definition of_db {A} (m : db A) : M A := λ '(st, w),
  match m st with (r, st) => (map_err State r, (st, w)) end.

(** @ hlb-engine/src/lib.rs:282-290 [Prerequisites] *)
Record Prerequisites := { verified : list string; open_ : list Action }.

(** @ hlb-engine/src/lib.rs:298-324 [prerequisites] *)
Definition prerequisites (app : string) (plan : Plan) (domain : option string) : M Prerequisites :=
  let! handled := of_db (verified_guides app) in
  let! (st, w) := eff_get id in
  eff_ret (fold_left (λ out a,
    match a with
    | PendingGuideStep id _ _ _ step =>
        if bool_decide (id ∈ handled) then out
        else if verified_by_check w st step domain
        then {| verified := verified out ++ [id]; open_ := open_ out |}
        else {| verified := verified out; open_ := open_ out ++ [a] |}
    | _ => out
    end) (pre_install_blockers plan) {| verified := []; open_ := [] |}).

(** @ hlb-engine/src/lib.rs:616-626 [Executor::run] *)
Definition record_guide (app : string) (a : Action) : M () :=
  match a with
  | PendingGuideStep id title blocking _ _ => of_db (add_guide app id title blocking)
  | _ => eff_ret ()
  end.

(** The part of a run that applies, before its actions.
    @ hlb-engine/src/lib.rs:614-644 [Executor::run] *)
Definition prepare (app : string) (plan : Plan) : M () :=
  of_db (record_plan app (records plan)) ;;!
  eff_each (record_guide app) (actions plan) ;;!
  let! domain := of_db (app_domain app) in
  let! found := prerequisites app plan domain in
  eff_each (λ id, eff_bind (of_db (verify_guide app id)) (λ _, eff_ret ())) (verified found) ;;!
  if open_ found ==? [] then eff_ret () else eff_fail (BlockedByGuide (length (open_ found))).

(** @ hlb-engine/src/lib.rs:646-659 [Executor::run] *)
Definition resume_failed (app : string) : M () :=
  let! apps := of_db installed_apps in
  eff_when (any_of (λ '(name, status), (name ==? app) && (status ==? "failed")) apps)
    (of_db (set_app_status app "installing")).

(** The services deployed once and gone since.
    @ hlb-engine/src/lib.rs:671-689 [Executor::run] *)
Definition vanished_services (w : World) (done : list bool) (plan : Plan) : list string :=
  omap (λ '(a, d), name ← is_deploy_of a; if d && not_found w name then Some name else None)
    (zip (actions plan) done).

(** One action, and what is written of it: [inr] ends the run.
    @ hlb-engine/src/lib.rs:710-741 [Executor::run] *)
Definition perform (app : string) (seq_ : nat) (a : Action) (out : Outcome)
    : M (Outcome + Outcome) := λ s,
  match execute_one app a s with
  | (Ok StepDone, s) =>
      (of_db (set_action_status app seq_ Done None) ;;! eff_ret (inl (one_executed out))) s
  | (Ok StepNotImplemented, s) =>
      (of_db (set_action_status app seq_ Unimplemented None) ;;! eff_ret (inl (one_unimplemented out))) s
  | (Err msg, s) =>
      (of_db (set_action_status app seq_ Failed (Some msg)) ;;!
       of_db (set_app_status app "failed") ;;!
       eff_ret (inr (with_failure seq_ msg out))) s
  end.

(** The actions from the [seq_]th on, with what is known to be done of each.
    @ hlb-engine/src/lib.rs:698-742 [Executor::run] *)
Fixpoint actions_from (apply : bool) (app : string) (redo : Action → bool) (seq_ : nat)
    (l : list (Action * bool)) (out : Outcome) : M (Outcome + Outcome) :=
  match l with
  | [] => eff_ret (inl out)
  | (a, done) :: l =>
      if done && negb (redo a) then actions_from apply app redo (S seq_) l (one_skipped out)
      else if negb apply then actions_from apply app redo (S seq_) l (one_executed out)
      else
        let! r := perform app seq_ a out in
        match r with
        | inl out => actions_from apply app redo (S seq_) l out
        | inr out => eff_ret (inr out)
        end
  end.

(** @ hlb-engine/src/lib.rs:604-754 [Executor::run] *)
Definition run (apply : bool) (app : string) (plan : Plan) : M Outcome :=
  eff_when apply (prepare app plan) ;;!
  eff_when apply (resume_failed app) ;;!
  let! done := of_db (completed_actions app (records plan)) in
  let! (st, w) := eff_get id in
  let vanished := vanished_services w done plan in
  let frozen := row_manifest <$> t_apps st !! app in
  let! r := actions_from apply app (redeploys vanished frozen) 0 (zip (actions plan) done)
              default_outcome in
  match r with
  | inr out => eff_ret out
  | inl out =>
      eff_when apply (of_db (set_app_status app
        (if (0 <? unimplemented out)%nat then "partial" else "running"))) ;;!
      eff_ret out
  end.
End run.

(** ** A preview *)

Section preview.
Context {World : Type} (not_found : World → string → bool)
  (verified_by_check : World → Store → GuideStep → option string → bool)
  (execute_one : string → Action → Store * World → result string Step * (Store * World)).

Lemma preview_actions app redo k l out s :
  ∃ out', actions_from execute_one false app redo k l out s = (Ok (inl out'), s) ∧
    failed out' = failed out ∧
    executed out' + skipped out' = executed out + skipped out + length l ∧
    unimplemented out' = unimplemented out.
Proof.
  revert k out. induction l as [|[a d] l IH]; intros k out; cbn [actions_from].
  - exists out. split; [done|]. cbn. split_and!; (done || lia).
  - destruct (_ && _); cbn [negb]; [destruct (IH (S k) (one_skipped out)) as (out' & -> & H)
      |destruct (IH (S k) (one_executed out)) as (out' & -> & H)];
      exists out'; (split; [done|]); destruct H as (-> & Hn & ->); cbn in *; split_and!; (done || lia).
Qed.

(** A preview writes nothing, neither in the state nor outside: whatever the plan, the
    journal and the services, it changes nothing, never fails and counts every action
    once, as to be done or as done already. *)
Theorem preview_pure app plan st w :
  ∃ out, run not_found verified_by_check execute_one false app plan (st, w) = (Ok out, (st, w)) ∧
    failed out = None ∧ unimplemented out = 0 ∧ executed out + skipped out = plan_len plan.
Proof.
  unfold run, eff_when, eff_bind, eff_ret, of_db, eff_get, completed_actions, plan_actions.
  cbn -[actions_from zip].
  edestruct preview_actions as (out & -> & Hf & Hn & Hu). exists out. split; [done|].
  cbn in *. split; [done|]. split; [done|]. rewrite Hn.
  rewrite length_zip_with, length_fmap, progress_length. unfold records, plan_len.
  rewrite length_fmap. lia.
Qed.
End preview.

(** ** What comes before the actions *)

Section prepare.
Context {World : Type} (verified_by_check : World → Store → GuideStep → option string → bool).

(** Everything but the manual steps. *)
Definition but_guides (s : Store * World) :=
  (t_apps s.1, t_plan s.1, t_secrets s.1, t_volumes s.1, s.2).

Lemma of_db_keeps {A T} (f : Store * World → T) (m : db A) :
  (∀ st w, f ((m st).2, w) = f (st, w)) → keeps (same_on f) (of_db m).
Proof. intros H [st w]. unfold of_db, same_on. specialize (H st w). by destruct (m st). Qed.

Lemma update_guide_keeps app id v f st w :
  but_guides ((update_guide app id v f st).2, w) = but_guides (st, w).
Proof. unfold update_guide. repeat case_match; done. Qed.

Lemma add_guide_keeps app id title b st w :
  but_guides ((add_guide app id title b st).2, w) = but_guides (st, w).
Proof. unfold add_guide, eff_bind, references. by destruct (t_apps st !! app). Qed.

(** The part of [prepare] after the plan is recorded. *)
Definition ask_guides (app : string) (plan : Plan) : eff (Store * World) Error () :=
  eff_each (record_guide app) (actions plan) ;;!
  let! domain := of_db (app_domain app) in
  let! found := prerequisites verified_by_check app plan domain in
  eff_each (λ id, eff_bind (of_db (verify_guide app id)) (λ _, eff_ret ())) (verified found) ;;!
  if open_ found ==? [] then eff_ret () else eff_fail (BlockedByGuide (length (open_ found))).

(** *** The prerequisites, as a specification

    A step is handled when its row says so or when it was attested before the app's plan
    knew it; a prerequisite is open when it is neither handled nor proven by its check. *)

Definition handled (app : string) (st : Store) (id : string) : bool :=
  ((gr_verified <$> t_guides st !! (app, id)) ==? Some true)
  || negb (t_ahead st !! (app, id) ==? None).

Definition recorded_guide (app : string) (st : Store) (id : string) : Prop :=
  is_Some (t_guides st !! (app, id)).

Definition domain_of (app : string) (st : Store) : option string := t_apps st !! app ≫= row_domain.

(** The prerequisites the check is asked about, and what it answers. *)
Definition unhandled (app : string) (st : Store) (a : Action) : bool :=
  if a is PendingGuideStep id _ _ _ _ then negb (handled app st id) else false.
Definition proven (app : string) (w : World) (st : Store) (a : Action) : bool :=
  if a is PendingGuideStep _ _ _ _ step
  then verified_by_check w st step (domain_of app st) else false.
Definition step_id (a : Action) : option string :=
  if a is PendingGuideStep id _ _ _ _ then Some id else None.

Definition still_open (app : string) (plan : Plan) (w : World) (st : Store) : list Action :=
  keep (λ a, unhandled app st a && negb (proven app w st a)) (pre_install_blockers plan).
Definition now_proven (app : string) (plan : Plan) (w : World) (st : Store) : list string :=
  omap step_id (keep (λ a, unhandled app st a && proven app w st a) (pre_install_blockers plan)).

(** The plan's steps recorded: what was handled is handled still, nothing else is. *)
Definition asked (app : string) (plan : Plan) (st st0 : Store) : Prop :=
  (∀ id, handled app st0 id = handled app st id) ∧
  ∀ a id, a ∈ actions plan → step_id a = Some id → recorded_guide app st0 id.

Lemma elem_of_verified_guides app st id :
  bool_decide (id ∈ (list_to_set (guides_where gr_verified app st) : gset string)
    ∪ list_to_set ((λ t, t.1.2) <$> keep (λ '((a, _), _), a ==? app) (map_to_list (t_ahead st)))) =
  handled app st id.
Proof.
  apply eq_iff_eq_true. unfold handled. rewrite bool_decide_eq_true, orb_true_iff, negb_true_iff,
    bool_decide_eq_true, bool_decide_eq_false, elem_of_union, !elem_of_list_to_set.
  unfold guides_where. rewrite elem_of_btree_elems, elem_of_list_to_set, fmap_Some.
  split; (intros [H|H]; [left|right]).
  - apply list_elem_of_fmap in H as ([[a i] r] & -> & [Hp Hin]%elem_of_keep). cbn in *.
    apply andb_true_iff in Hp as [->%bool_decide_eq_true Hv]. apply elem_of_map_to_list in Hin. eauto.
  - apply list_elem_of_fmap in H as ([[a i] r] & -> & [Hp Hin]%elem_of_keep). cbn in *.
    apply bool_decide_eq_true in Hp as ->. apply elem_of_map_to_list in Hin. by rewrite Hin.
  - destruct H as (r & Hr & Hv). apply list_elem_of_fmap. exists ((app, id), r). split; [done|].
    apply elem_of_keep. split; [|by apply elem_of_map_to_list]. by rewrite bool_decide_eq_true_2, <- Hv.
  - destruct (t_ahead st !! (app, id)) as [f|] eqn:E; [|done]. apply list_elem_of_fmap.
    exists ((app, id), f). split; [done|]. apply elem_of_keep.
    split; [by rewrite bool_decide_eq_true_2|by apply elem_of_map_to_list].
Qed.

Lemma add_guide_spec app id title b st :
  is_Some (t_apps st !! app) → ∃ st', add_guide app id title b st = (Ok (), st') ∧
    t_apps st' = t_apps st ∧ (∀ i, handled app st' i = handled app st i) ∧
    recorded_guide app st' id ∧ ∀ i, recorded_guide app st i → recorded_guide app st' i.
Proof.
  intros [r Hr]. unfold add_guide, references, eff_bind, recorded_guide. rewrite Hr. cbn.
  eexists. split; [done|]. split; [done|]. cbn. split; [|split; [by rewrite lookup_insert_eq|]].
  - intros i. unfold handled. cbn. destruct (decide (i = id)) as [->|Hne].
    + rewrite lookup_insert_eq, lookup_delete_eq. cbn.
      destruct (t_ahead st !! (app, id)), (t_guides st !! (app, id)) as [g|]; cbn;
        rewrite ?orb_true_r, ?orb_false_r; try done.
    + by rewrite lookup_insert_ne, lookup_delete_ne by congruence.
  - intros i Hi. destruct (decide (i = id)) as [->|]; [by rewrite lookup_insert_eq|].
    by rewrite lookup_insert_ne by congruence.
Qed.

Lemma record_guides_spec app l st (w : World) :
  is_Some (t_apps st !! app) → ∃ st', eff_each (record_guide app) l (st, w) = (Ok (), (st', w)) ∧
    t_apps st' = t_apps st ∧ (∀ i, handled app st' i = handled app st i) ∧
    (∀ i, recorded_guide app st i → recorded_guide app st' i) ∧
    ∀ a i, a ∈ l → step_id a = Some i → recorded_guide app st' i.
Proof.
  revert st. induction l as [|a l IH]; intros st Happ; cbn [eff_each].
  { exists st. split_and!; try done. by intros ?? ?%not_elem_of_nil. }
  assert (Ha : ∃ st', record_guide app a (st, w) = (Ok (), (st', w)) ∧ t_apps st' = t_apps st ∧
    (∀ i, handled app st' i = handled app st i) ∧
    (∀ i, recorded_guide app st i → recorded_guide app st' i) ∧
    ∀ i, step_id a = Some i → recorded_guide app st' i).
  { destruct a; try (exists st; split_and!; done). unfold record_guide, of_db.
    destruct (add_guide_spec app id title blocking st Happ) as (st' & -> & Ha & Hh & Hid & Hr).
    exists st'. split_and!; try done. intros i [= <-]. done. }
  destruct Ha as (st1 & E & Ha1 & Hh1 & Hr1 & Hi1). destruct (IH st1) as (st2 & E2 & Ha2 & Hh2 & Hr2 & Hi2).
  { by rewrite Ha1. }
  exists st2. unfold eff_bind. rewrite E, E2. split_and!; [done|congruence|..].
  - intros i. by rewrite Hh2, Hh1.
  - auto.
  - intros b i [->|Hb]%elem_of_cons Hi; eauto.
Qed.

Lemma prerequisites_spec app plan st w :
  prerequisites verified_by_check app plan (domain_of app st) (st, w) =
  (Ok {| verified := now_proven app plan w st; open_ := still_open app plan w st |}, (st, w)).
Proof.
  unfold prerequisites, of_db, verified_guides, eff_bind, eff_get, eff_ret, id. cbn -[fold_left].
  f_equal. f_equal. unfold now_proven, still_open.
  cut (∀ l v o, Forall (λ a, is_pre_install_blocker a = true) l →
    fold_left (λ out a, match a with
      | PendingGuideStep id _ _ _ step =>
          if bool_decide (id ∈ (list_to_set (guides_where gr_verified app st) : gset string)
            ∪ list_to_set ((λ t, t.1.2) <$> keep (λ '((a, _), _), a ==? app) (map_to_list (t_ahead st))))
          then out
          else if verified_by_check w st step (domain_of app st)
          then {| verified := verified out ++ [id]; open_ := open_ out |}
          else {| verified := verified out; open_ := open_ out ++ [a] |}
      | _ => out end) l {| verified := v; open_ := o |} =
    {| verified := v ++ omap step_id (keep (λ a, unhandled app st a && proven app w st a) l);
       open_ := o ++ keep (λ a, unhandled app st a && negb (proven app w st a)) l |}).
  { intros H. rewrite H; [done|]. apply Forall_forall. by intros a [? _]%elem_of_keep. }
  induction l as [|a l IH]; intros v o Hl; cbn [fold_left]; [by rewrite !app_nil_r|].
  apply Forall_cons in Hl as [Ha Hl]. destruct a; try done. rewrite elem_of_verified_guides.
  rewrite !keep_cons. cbn [unhandled proven]. destruct (handled app st id); cbn [negb andb]; [by rewrite IH|].
  destruct (verified_by_check _ _ _ _); cbn [negb verified open_]; rewrite IH by done; cbn; by rewrite <- app_assoc.
Qed.

Lemma verify_guides_spec app ids st (w : World) :
  (∀ i, i ∈ ids → recorded_guide app st i) →
  ∃ st', eff_each (λ id, eff_bind (of_db (verify_guide app id)) (λ _, eff_ret ())) ids (st, w) =
    (Ok (E := Error) (), (st', w)) ∧
    ∀ i, handled app st' i = handled app st i || bool_decide (i ∈ ids).
Proof.
  revert st. induction ids as [|k ids IH]; intros st Hr; cbn [eff_each].
  { exists st. split; [done|]. intros i. by rewrite orb_false_r. }
  assert (Hk : ∃ st1, of_db (verify_guide app k) (st, w) = (Ok (E := Error) (gr_verified <$> t_guides st !! (app, k) ==? Some false), (st1, w)) ∧
    (∀ i, handled app st1 i = handled app st i || bool_decide (i = k)) ∧
    ∀ i, recorded_guide app st i → recorded_guide app st1 i).
  { unfold of_db, verify_guide, handle_guide, update_guide, recorded_guide, handled.
    destruct (Hr k ltac:(by left)) as [r E]. rewrite E. destruct (gr_verified r) eqn:Ev; cbn.
    - rewrite Ev. cbn. exists st. split_and!; [done| |done]. intros i. destruct (decide (i = k)) as [->|].
      + rewrite E. cbn. by rewrite Ev.
      + by rewrite (bool_decide_eq_false_2 (i = k)), orb_false_r.
    - rewrite Ev. cbn. eexists. split; [done|]. cbn. split; intros i; destruct (decide (i = k)) as [->|].
      + by rewrite lookup_insert_eq, (bool_decide_eq_true_2 (k = k)), orb_true_r.
      + by rewrite lookup_insert_ne, (bool_decide_eq_false_2 (i = k)), orb_false_r by congruence.
      + by rewrite lookup_insert_eq.
      + by rewrite lookup_insert_ne by congruence. }
  destruct Hk as (st1 & E & Hh & Hrec). destruct (IH st1) as (st2 & E2 & Hh2).
  { intros i Hi. apply Hrec, Hr. by right. }
  exists st2. unfold eff_bind at 1, eff_bind at 1. rewrite E. unfold eff_ret at 1. rewrite E2. split; [done|].
  intros i. rewrite Hh2, Hh, <- orb_assoc. f_equal. apply eq_iff_eq_true.
  by rewrite orb_true_iff, !bool_decide_eq_true, elem_of_cons.
Qed.

(** Asking the steps stops on the prerequisites that are open, exactly; those proven now
    are handled from then on. *)
Lemma ask_guides_spec app plan st (w : World) :
  is_Some (t_apps st !! app) → ∃ st0 st1, asked app plan st st0 ∧
    ask_guides app plan (st, w) =
      (if still_open app plan w st0 is [] then Ok ()
       else Err (BlockedByGuide (length (still_open app plan w st0))), (st1, w)) ∧
    (∀ i, handled app st1 i = handled app st i || bool_decide (i ∈ now_proven app plan w st0)).
Proof.
  intros Happ. destruct (record_guides_spec app (actions plan) st w Happ) as (st0 & E & Ha & Hh & _ & Hi).
  destruct (verify_guides_spec app (now_proven app plan w st0) st0 w) as (st1 & E1 & H1).
  { intros i (a & Hin & Hs)%list_elem_of_omap. apply elem_of_keep in Hin as [_ Hin].
    apply elem_of_keep in Hin as [_ Hin]. eauto. }
  exists st0, st1. split; [done|]. split; [|intros i; by rewrite H1, Hh].
  unfold ask_guides. unfold eff_bind at 1. rewrite E. unfold eff_bind at 1.
  assert (Ed : of_db (app_domain app) (st0, w) = (Ok (E := Error) (domain_of app st0), (st0, w))).
  { unfold of_db, app_domain, eff_get, domain_of. done. }
  rewrite Ed. unfold eff_bind at 1. rewrite prerequisites_spec. unfold eff_bind at 1. cbn [verified open_].
  rewrite E1. by destruct (still_open app plan w st0).
Qed.

Lemma ask_guides_keeps app plan : keeps (same_on but_guides) (ask_guides app plan).
Proof.
  unfold ask_guides, prerequisites, record_guide. keeps_steps.
  - apply of_db_keeps, add_guide_keeps.
  - by apply of_db_keeps.
  - by apply of_db_keeps.
  - apply of_db_keeps, update_guide_keeps.
Qed.

Lemma prepare_spec app plan st w :
  is_Some (t_apps st !! app) →
  prepare verified_by_check app plan (st, w) = ask_guides app plan
    (set_plan (<[app := carried (record_of <$> plan_rows app st) (records plan)]> (t_plan st)) st, w).
Proof.
  intros H. unfold prepare, ask_guides, eff_bind at 1, of_db at 1. by rewrite record_plan_rows.
Qed.
End prepare.

(** ** The actions, as a specification

    What a run owes: the actions not known to be done, in their order, each recorded as it
    ends, up to the first that fails. *)

Section carry_out.
Context {World : Type} (execute_one : string → Action → Store * World → result string Step * (Store * World)).

Definition recorded_as (app : string) (seq_ : nat) (st : ActionStatus) (error : option string)
    (s : Store * World) : Store * World := ((set_action_status app seq_ st error s.1).2, s.2).

Fixpoint carry_out (app : string) (l : list (nat * Action)) (s : Store * World)
    : (list Step * option (nat * string)) * (Store * World) :=
  match l with
  | [] => (([], None), s)
  | (seq_, a) :: l =>
      match execute_one app a s with
      | (Ok step, s) =>
          let s := recorded_as app seq_ (if step is StepDone then Done else Unimplemented) None s in
          let '((steps, why), s) := carry_out app l s in ((step :: steps, why), s)
      | (Err msg, s) =>
          let s := recorded_as app seq_ Failed (Some msg) s in
          (([], Some (seq_, msg)), ((set_app_status app "failed" s.1).2, s.2))
      end
  end.

(** The actions to carry out, of those from the [seq_]th on. *)
Fixpoint todo (redo : Action → bool) (seq_ : nat) (l : list (Action * bool)) : list (nat * Action) :=
  match l with
  | [] => []
  | (a, done) :: l =>
      if done && negb (redo a) then todo redo (S seq_) l else (seq_, a) :: todo redo (S seq_) l
  end.

Definition dones (steps : list Step) : nat :=
  length (keep (λ s, if s is StepDone then true else false) steps).

Lemma dones_cons s steps :
  dones (s :: steps) = (if s is StepDone then 1 else 0) + dones steps.
Proof. unfold dones. rewrite keep_cons. by destruct s. Qed.

Definition tag (out : Outcome) : Outcome + Outcome :=
  if failed out is Some _ then inr out else inl out.

Lemma actions_refine app redo l k out s :
  failed out = None →
  let '((steps, why), s') := carry_out app (todo redo k l) s in
  ∃ out', actions_from execute_one true app redo k l out s = (Ok (tag out'), s') ∧
    failed out' = why ∧ executed out' = executed out + dones steps ∧
    unimplemented out' = unimplemented out + (length steps - dones steps).
Proof.
  revert k out s. induction l as [|[a d] l IH]; intros k out s Hout; cbn [actions_from todo].
  { cbn. exists out. unfold tag. rewrite Hout. split_and!; (done || lia). }
  destruct (d && negb (redo a)); [by apply (IH (S k) (one_skipped out))|].
  cbn [negb carry_out]. unfold perform. destruct (execute_one app a s) as [[step|msg] [st w]] eqn:E.
  - specialize (IH (S k) (if step is StepDone then one_executed out else one_unimplemented out)
      (recorded_as app k (if step is StepDone then Done else Unimplemented) None (st, w))).
    destruct (carry_out app (todo redo (S k) l) _) as [[steps why] s'].
    destruct IH as (out' & H & ? & ? & ?); [by destruct step|].
    assert (Hd : (dones steps ≤ length steps)%nat) by (apply length_filter).
    exists out'. split.
    + unfold eff_bind at 1. rewrite E. by destruct step.
    + rewrite dones_cons. destruct step; cbn in *; split_and!; (done || lia).
  - exists (with_failure k msg out). split; [unfold eff_bind at 1; by rewrite E|].
    cbn. split_and!; (done || lia).
Qed.
End carry_out.

(** ** The journal of a run *)

Section journal.
Context {World : Type} (execute_one : string → Action → Store * World → result string Step * (Store * World)).
Context (app : string).
(** Beside what it records of itself, an action only completes routes left unimplemented
    ([complete_unimplemented_advances]): the journal is the loop's. *)
Context (Hexec : ∀ a s, store_advances app s.1 (execute_one app a s).2.1).

Abbreviation sts s := (statuses (plan_rows app s.1)).

(** What became of a step, once later ones have had their effect. *)
Definition ended_as (step : Step) (y : ActionStatus) : Prop :=
  y = Done ∨ step = StepNotImplemented ∧ y = Unimplemented.

(** An action carried out, then recorded: its row says how it ended, the others advance. *)
Lemma recorded_step plan a k x e s :
  journal_of plan (plan_rows app s.1) → (k < length plan)%nat →
  let s' := recorded_as app k x e (execute_one app a s).2 in
  journal_of plan (plan_rows app s'.1) ∧ sts s' !! k = Some x ∧
  ∀ j y, sts s !! j = Some y → j ≠ k → ∃ z, sts s' !! j = Some z ∧ status_advances y z.
Proof.
  intros HJ Hk. destruct (Hexec a s) as [_ Hadv]. unfold recorded_as. cbn [fst].
  pose proof (advances_journal _ _ _ Hadv HJ) as HJ1. apply advances_statuses in Hadv.
  pose proof (set_action_status_statuses plan app k x e _ HJ1) as ->.
  split; [by apply set_action_status_journal|]. split.
  - rewrite list_lookup_insert_eq; [done|]. unfold statuses.
    by rewrite length_fmap, (journal_length _ _ HJ1).
  - intros j y Hy Hj. eapply Forall2_lookup_l in Hy as (z & Hz & Hyz); [|exact Hadv].
    exists z. by rewrite list_lookup_insert_ne.
Qed.

Lemma carry_out_journal plan l s steps why s' :
  journal_of plan (plan_rows app s.1) →
  NoDup l.*1 → (∀ j a, (j, a) ∈ l → (j < length plan)%nat) →
  carry_out execute_one app l s = ((steps, why), s') →
  journal_of plan (plan_rows app s'.1) ∧
  (∀ j x, sts s !! j = Some x → j ∉ l.*1 → ∃ y, sts s' !! j = Some y ∧ status_advances x y) ∧
  (∀ i j a step, l !! i = Some (j, a) → steps !! i = Some step →
     ∃ y, sts s' !! j = Some y ∧ ended_as step y) ∧
  match why with
  | None => length steps = length l
  | Some (j, msg) => (∃ a, l !! length steps = Some (j, a)) ∧ sts s' !! j = Some Failed
  end.
Proof.
  revert s steps why s'. induction l as [|[k a] l IH]; intros s steps why s' HJ Hnd Hlt; cbn [carry_out].
  { intros [= <- <- <-]. cbn. split_and!; try done. intros j x Hx _. by exists x; split; [|left]. }
  apply NoDup_cons in Hnd as [Hk Hnd]. assert (Hkl : (k < length plan)%nat) by (eapply Hlt; by left).
  pose proof (λ x e, recorded_step plan a k x e s HJ Hkl) as Hrec.
  destruct (execute_one app a s) as [[step|msg] s1]; cbn [snd] in Hrec.
  - specialize (Hrec (if step is StepDone then Done else Unimplemented) None) as (HJ1 & Hst & Hoth).
    destruct (carry_out execute_one app l (recorded_as _ _ _ _ _)) as [[steps' why'] s2] eqn:E.
    intros [= <- <- <-]. apply IH in E as (HJ' & Hrest & Hsteps & Hend); [|done..|set_solver].
    split; [done|]. split; [|split].
    + intros j x Hx [Hjk Hj]%not_elem_of_cons. destruct (Hoth j x Hx Hjk) as (y & Hy & Hxy).
      destruct (Hrest j y Hy Hj) as (z & Hz & Hyz). exists z. split; [done|]. by etransitivity.
    + intros [|i] j b step'; cbn; [|apply Hsteps]. intros [= <- <-] [= <-].
      destruct (Hrest k _ Hst Hk) as (y & Hy & Hys). exists y. split; [done|]. unfold ended_as.
      destruct step, Hys as [->|[_ ->]]; auto.
    + destruct why' as [[j msg]|]; cbn; [done|by f_equal].
  - specialize (Hrec Failed (Some msg)) as (HJ1 & Hst & Hoth). intros [= <- <- Hs'].
    assert (E : plan_rows app s'.1 = plan_rows app (recorded_as app k Failed (Some msg) s1).1)
      by (by rewrite <- Hs'). rewrite E. clear Hs' E.
    split; [done|]. split; [|split; [by intros [|i]|]].
    + intros j x Hx [Hjk _]%not_elem_of_cons. eauto.
    + split; [by exists a|done].
Qed.
End journal.

(** ** A run *)

Section whole.
Context {World : Type} (not_found : World → string → bool)
  (verified_by_check : World → Store → GuideStep → option string → bool)
  (execute_one : string → Action → Store * World → result string Step * (Store * World)).

(** A failed app resuming is installing again. *)
Definition resumed (app : string) (st : Store) : Store :=
  if (row_status <$> t_apps st !! app) ==? Some "failed"
  then (set_app_status app "installing" st).2 else st.

Lemma resume_failed_spec app st (w : World) :
  resume_failed app (st, w) = (Ok (), (resumed app st, w)).
Proof.
  unfold resume_failed, resumed, eff_bind, of_db, installed_apps, eff_get, eff_when. cbn [map_err].
  assert (E : any_of (λ '(name, status), (name ==? app) && (status ==? "failed"))
      ((λ '(n, r), (n, row_status r)) <$> btree_entries (t_apps st)) =
    ((row_status <$> t_apps st !! app) ==? Some "failed")).
  { apply eq_iff_eq_true. rewrite any_of_true, bool_decide_eq_true, fmap_Some.
    setoid_rewrite list_elem_of_fmap. split.
    - intros ([n s] & ([k r] & [= -> ->] & Hin) & Hb). apply elem_of_btree_entries in Hin.
      rewrite andb_true_iff, !bool_decide_eq_true in Hb. destruct Hb as [-> Hs]. eauto.
    - intros (r & Hr & Hs). exists (app, row_status r). split.
      + exists (app, r). split; [done|]. by apply elem_of_btree_entries.
      + by rewrite !bool_decide_eq_true_2. }
  rewrite E. destruct (_ ==? _); done.
Qed.

Lemma resumed_rows app st : plan_rows app (resumed app st) = plan_rows app st.
Proof. unfold resumed. by destruct (_ ==? _). Qed.

(** What the journal says is done. *)
Definition done_in (app : string) (st : Store) : list bool :=
  (λ x, x ==? Done) <$> statuses (plan_rows app st).

(** What a run owes from a state where its plan is recorded. *)
Definition owed (app : string) (plan : Plan) (st : Store) (w : World) : list (nat * Action) :=
  let done := done_in app st in
  todo (redeploys (vanished_services not_found w done plan) (row_manifest <$> t_apps st !! app)) 0
    (zip (actions plan) done).

(** The state in which a run starts on its actions: the plan recorded over what was, the
    steps asked. *)
Definition starts (app : string) (plan : Plan) (st st1 : Store) : Prop :=
  plan_rows app st1 = carried (record_of <$> plan_rows app st) (records plan) ∧
  t_secrets st1 = t_secrets st ∧ t_volumes st1 = t_volumes st ∧
  row_manifest <$> t_apps st1 !! app = row_manifest <$> t_apps st !! app.

Definition ends_as (app : string) (out : Outcome) (s : Store * World) : Store * World :=
  if failed out is Some _ then s
  else ((set_app_status app (if (0 <? unimplemented out)%nat then "partial" else "running") s.1).2, s.2).

Lemma prepared app plan st w :
  is_Some (t_apps st !! app) → ∃ st0 st1, asked app plan st st0 ∧
    prepare verified_by_check app plan (st, w) =
      (if still_open verified_by_check app plan w st0 is [] then Ok ()
       else Err (BlockedByGuide (length (still_open verified_by_check app plan w st0))), (st1, w)) ∧
    (∀ i, handled app st1 i =
       handled app st i || bool_decide (i ∈ now_proven verified_by_check app plan w st0)) ∧
    t_apps st1 = t_apps st ∧ t_secrets st1 = t_secrets st ∧ t_volumes st1 = t_volumes st ∧
    plan_rows app st1 = carried (record_of <$> plan_rows app st) (records plan).
Proof.
  intros Happ. rewrite (prepare_spec _ _ _ _ _ Happ).
  set (st' := set_plan _ st). pose proof (ask_guides_keeps verified_by_check app plan (st', w)) as K.
  destruct (ask_guides_spec verified_by_check app plan st' w Happ) as (st0 & st1 & Hasked & E & Hh).
  rewrite E in K. unfold same_on, but_guides in K. cbn [fst snd] in K. injection K as Ka Kp Ks Kv.
  exists st0, st1. split_and!; try done. unfold plan_rows at 1. rewrite Kp. unfold st'. cbn.
  by rewrite lookup_insert_eq.
Qed.

(** What is open at the end is what no row and no check says is done. *)
Lemma all_handled app plan (w : World) st st0 st1 :
  asked app plan st st0 → still_open verified_by_check app plan w st0 = [] →
  (∀ i, handled app st1 i =
    handled app st i || bool_decide (i ∈ now_proven verified_by_check app plan w st0)) →
  ∀ a i, a ∈ pre_install_blockers plan → step_id a = Some i → handled app st1 i = true.
Proof.
  intros [Hh _] Ho H1 a i Ha Hi. rewrite H1. destruct (handled app st i) eqn:E; [done|]. cbn.
  apply bool_decide_eq_true, list_elem_of_omap. exists a. split; [|done]. apply elem_of_keep.
  split; [|done]. destruct a; try done. injection Hi as ->. cbn [unhandled]. rewrite Hh, E. cbn [negb andb].
  destruct (proven _ _ _ _ _) eqn:Ep; [done|]. exfalso.
  assert (Hin : PendingGuideStep i title blocking service step ∈ still_open verified_by_check app plan w st0);
    [|rewrite Ho in Hin; by apply not_elem_of_nil in Hin].
  apply elem_of_keep. split; [|done]. rewrite Ep. cbn [unhandled negb andb]. by rewrite Hh, E.
Qed.

(** What asking the steps leaves of the state. *)
Definition prepared_from (app : string) (plan : Plan) (st stb : Store) : Prop :=
  t_apps stb = t_apps st ∧ t_secrets stb = t_secrets st ∧ t_volumes stb = t_volumes st ∧
  plan_rows app stb = carried (record_of <$> plan_rows app st) (records plan).

(** A run that is let through carries out what it owes. *)
Lemma run_started app plan st w stb :
  is_Some (t_apps st !! app) →
  prepare verified_by_check app plan (st, w) = (Ok (), (stb, w)) → prepared_from app plan st stb →
  ∃ out st1 steps s2,
    run not_found verified_by_check execute_one true app plan (st, w) = (Ok out, ends_as app out s2) ∧
    starts app plan st st1 ∧ (∀ i, handled app st1 i = handled app stb i) ∧
    carry_out execute_one app (owed app plan st1 w) (st1, w) = ((steps, failed out), s2) ∧
    executed out = dones steps ∧ unimplemented out = length steps - dones steps.
Proof.
  intros Happ Hp (Ha & Hs & Hv & Hrows). unfold run, eff_when. unfold eff_bind at 1. rewrite Hp.
  unfold eff_bind at 1. rewrite resume_failed_spec. set (st1 := resumed app stb).
  assert (HJ : journal_of (records plan) (plan_rows app st1)).
  { unfold st1. rewrite resumed_rows, Hrows. apply carried_journal. }
  unfold eff_bind at 1, of_db at 1. rewrite (completed_same _ _ _ HJ). cbn [map_err].
  unfold eff_bind at 1, eff_get, id.
  pose proof (actions_refine execute_one app (redeploys (vanished_services not_found w (done_in app st1) plan)
    (row_manifest <$> t_apps st1 !! app)) (zip (actions plan) (done_in app st1)) 0 default_outcome (st1, w)
    eq_refl) as H. fold (owed app plan st1 w) in H.
  destruct (carry_out execute_one app (owed app plan st1 w) (st1, w)) as [[steps why] s2] eqn:E.
  destruct H as (out & H & Hf & He & Hu). unfold eff_bind at 1.
  unfold done_in in H. rewrite H. clear H. exists out, st1, steps, s2.
  assert (Hst : starts app plan st st1).
  { unfold starts, st1. rewrite resumed_rows. split; [done|]. unfold resumed.
    destruct (_ ==? _); cbn; [|by rewrite Ha]. rewrite Ha, lookup_alter_eq. by destruct (t_apps st !! app). }
  rewrite E, Hf. split; [|split_and!; try done; intros i; unfold st1, resumed; by destruct (_ ==? _)].
  unfold tag, ends_as. destruct (failed out) as [[k msg]|]; [done|]. by destruct s2 as [st2 w2].
Qed.

Lemma run_blocked app plan st w e s :
  prepare verified_by_check app plan (st, w) = (Err e, s) →
  run not_found verified_by_check execute_one true app plan (st, w) = (Err e, s).
Proof. intros Hp. unfold run, eff_when. unfold eff_bind at 1. by rewrite Hp. Qed.

Lemma run_ok app plan st w out s :
  is_Some (t_apps st !! app) →
  run not_found verified_by_check execute_one true app plan (st, w) = (Ok out, s) →
  ∃ st1 steps s2, starts app plan st st1 ∧
    carry_out execute_one app (owed app plan st1 w) (st1, w) = ((steps, failed out), s2) ∧
    executed out = dones steps ∧ unimplemented out = length steps - dones steps ∧
    s = ends_as app out s2.
Proof.
  intros Happ H. destruct (prepared app plan st w Happ) as (sta & stb & _ & Hp & _ & Hkept).
  destruct (still_open verified_by_check app plan w sta) as [|o os] eqn:Ho;
    [|by rewrite (run_blocked _ _ _ _ _ _ Hp) in H].
  destruct (run_started app plan st w stb Happ Hp Hkept) as (out' & st1 & steps & s2 & E & Hst & _ & Hc & ? & ?).
  rewrite E in H. injection H as <- <-. by exists st1, steps, s2.
Qed.

(** C2. A run of a recorded app does what the journal leaves to do, and nothing else. It stops before its
    first action exactly when a prerequisite is open - a blocking pre-install step the
    state does not hold as handled, whose check does not prove it done - with their number,
    and with nothing touched but the journal and the steps. Otherwise every prerequisite
    is handled when the actions start; it carries out, in order, the actions the journal
    does not hold as done (and those whose service or digest is gone), until one fails; it
    says how many were done and how many could not be, and leaves the app running, partial
    or failed accordingly. *)
Theorem run_refines app plan st w :
  is_Some (t_apps st !! app) →
  ∃ st0, asked app plan st st0 ∧
  let open := still_open verified_by_check app plan w st0 in
  match run not_found verified_by_check execute_one true app plan (st, w) with
  | (Err e, (st', w')) =>
      open ≠ [] ∧ e = BlockedByGuide (length open) ∧ w' = w ∧ t_apps st' = t_apps st ∧
      t_secrets st' = t_secrets st ∧ t_volumes st' = t_volumes st
  | (Ok out, s') => open = [] ∧ ∃ st1 steps s2,
      starts app plan st st1 ∧
      (∀ a i, a ∈ pre_install_blockers plan → step_id a = Some i → handled app st1 i = true) ∧
      carry_out execute_one app (owed app plan st1 w) (st1, w) = ((steps, failed out), s2) ∧
      executed out = dones steps ∧ unimplemented out = length steps - dones steps ∧
      s' = ends_as app out s2
  end.
Proof.
  intros Happ. destruct (prepared app plan st w Happ) as (sta & stb & Hasked & Hp & Hh & Hkept).
  exists sta. split; [done|]. cbv zeta. pose proof (all_handled app plan w st sta stb Hasked) as Hall.
  destruct (still_open verified_by_check app plan w sta) as [|o os] eqn:Ho.
  - destruct (run_started app plan st w stb Happ Hp Hkept) as (out & st1 & steps & s2 & -> & Hst & Hg & H).
    split; [done|]. exists st1, steps, s2. split; [done|].
    split; [intros a i Ha Hi; rewrite Hg; by eapply Hall|by destruct H as (? & ? & ?)].
  - rewrite (run_blocked app plan st w _ _ Hp). by destruct Hkept as (? & ? & ? & _); split_and!.
Qed.
End whole.

(** ** What a run leaves in the journal *)

Lemma todo_spec redo k l :
  todo redo k l = omap (λ '(j, (a, d)), if d && negb (redo a) then None else Some (j, a))
    (zip (seq k (length l)) l).
Proof.
  revert k. induction l as [|[a d] l IH]; intros k; cbn; [done|]. rewrite IH. by destruct (_ && _).
Qed.

Lemma elem_of_todo redo k l j a :
  (j, a) ∈ todo redo k l ↔
  ∃ i d, j = (k + i)%nat ∧ l !! i = Some (a, d) ∧ d && negb (redo a) = false.
Proof.
  rewrite todo_spec, list_elem_of_omap. split.
  - intros ([j' [a' d]] & Hin & E). apply elem_of_lookup_zip_with in Hin as (i & j'' & p & E' & Hj & Hp).
    simplify_eq. apply lookup_seq in Hj as [-> _].
    destruct (d && negb (redo a')) eqn:Ed; simplify_eq. eauto.
  - intros (i & d & -> & Hl & Hd). exists ((k + i)%nat, (a, d)). split; [|by rewrite Hd].
    apply elem_of_lookup_zip_with. exists i, (k + i)%nat, (a, d). split; [done|]. split; [|done].
    apply lookup_seq_lt. apply lookup_lt_is_Some. eauto.
Qed.

Lemma todo_sorted redo k l : StronglySorted lt (todo redo k l).*1 ∧ ∀ j, j ∈ (todo redo k l).*1 → (k ≤ j)%nat.
Proof.
  revert k. induction l as [|[a d] l IH]; intros k; cbn [todo].
  { cbn. split; [constructor|]. by intros j ?%not_elem_of_nil. }
  destruct (IH (S k)) as [Hs Hk]. destruct (d && negb (redo a)).
  - split; [done|]. intros j Hj. specialize (Hk j Hj). lia.
  - cbn. split.
    + constructor; [done|]. apply Forall_forall. intros j Hj. specialize (Hk j Hj). lia.
    + intros j [->|Hj]%elem_of_cons; [lia|]. specialize (Hk j Hj). lia.
Qed.

Section ends.
Context {World : Type} (not_found : World → string → bool)
  (verified_by_check : World → Store → GuideStep → option string → bool)
  (execute_one : string → Action → Store * World → result string Step * (Store * World)).
Context (app : string) (Hexec : ∀ a s, store_advances app s.1 (execute_one app a s).2.1).

Lemma set_app_status_app status st :
  is_Some (t_apps st !! app) →
  row_status <$> t_apps (set_app_status app status st).2 !! app = Some status.
Proof. intros [r Hr]. cbn. by rewrite lookup_alter_eq, Hr. Qed.

Lemma carry_out_app l s steps why s' :
  is_Some (t_apps s.1 !! app) → carry_out execute_one app l s = ((steps, why), s') →
  is_Some (t_apps s'.1 !! app) ∧
  (is_Some why → row_status <$> t_apps s'.1 !! app = Some "failed").
Proof.
  revert s steps why s'. induction l as [|[k a] l IH]; intros s steps why s' Happ; cbn [carry_out].
  { intros [= <- <- <-]. split; [done|]. by intros [? ?]. }
  destruct (Hexec a s) as [Ha _]. destruct (execute_one app a s) as [[step|msg] s1]; cbn [fst snd] in Ha.
  - destruct (carry_out execute_one app l _) as [[steps' why'] s2] eqn:E. intros [= <- <- <-].
    eapply IH; [|exact E]. cbn. auto.
  - intros [= <- <- Hs']. assert (Hf : row_status <$> t_apps s'.1 !! app = Some "failed").
    { rewrite <- Hs'.
      exact (set_app_status_app "failed" (set_action_status app k Failed (Some msg) s1.1).2 (Ha Happ)). }
    split; [|done]. by destruct (t_apps s'.1 !! app).
Qed.

Lemma dones_all steps : length steps - dones steps = 0 → ∀ x, x ∈ steps → x = StepDone.
Proof.
  induction steps as [|s steps IH]; intros H x; [by intros ?%not_elem_of_nil|].
  rewrite dones_cons in H. cbn in H. assert (Hd : (dones steps ≤ length steps)%nat) by (apply length_filter).
  destruct s; [|lia]. intros [->|Hx]%elem_of_cons; [done|]. apply IH; [lia|done].
Qed.

(** What is not owed is done. *)
Lemma not_owed plan st1 (w : World) j :
  journal_of (records plan) (plan_rows app st1) → (j < plan_len plan)%nat →
  j ∉ (owed not_found app plan st1 w).*1 → statuses (plan_rows app st1) !! j = Some Done.
Proof.
  intros HJ Hj Hnot. destruct (lookup_lt_is_Some_2 (actions plan) j Hj) as [a Ha].
  destruct (lookup_lt_is_Some_2 (statuses (plan_rows app st1)) j) as [x Hx].
  { unfold statuses. rewrite length_fmap, (journal_length _ _ HJ). unfold records. by rewrite length_fmap. }
  destruct (decide (x = Done)) as [->|Hne]; [done|]. exfalso. apply Hnot.
  apply list_elem_of_fmap. exists (j, a). split; [done|]. unfold owed. apply elem_of_todo.
  exists j, false. split; [done|]. split; [|done]. apply lookup_zip_with_Some. exists a, false.
  split; [done|]. split; [done|]. unfold done_in. rewrite list_lookup_fmap, Hx. cbn.
  by rewrite bool_decide_eq_false_2.
Qed.

Lemma owed_journal plan st1 (w : World) steps why s2 :
  journal_of (records plan) (plan_rows app st1) →
  carry_out execute_one app (owed not_found app plan st1 w) (st1, w) = ((steps, why), s2) →
  let status j := statuses (plan_rows app s2.1) !! j in
  journal_of (records plan) (plan_rows app s2.1) ∧
  (∀ j, (j < plan_len plan)%nat → (if why is Some (k, _) then j < k else True)%nat →
     status j = Some Done ∨
     status j = Some Unimplemented ∧ StepNotImplemented ∈ steps) ∧
  (if why is Some (k, _) then status k = Some Failed else True).
Proof.
  intros HJ Hco. set (l := owed not_found app plan st1 w) in Hco.
  assert (Hsorted : StronglySorted lt l.*1) by apply todo_sorted.
  pose proof Hco as Hco'. eapply carry_out_journal in Hco' as (HJ2 & Hrest & Hsteps & Hend);
    [|done|exact HJ|by apply sorted_NoDup|].
  2: { intros j a (i & d & -> & Hl & _)%elem_of_todo. unfold records. rewrite length_fmap.
       apply lookup_zip_with_Some in Hl as (? & ? & ? & ? & _). apply lookup_lt_is_Some. eauto. }
  split; [done|]. split; [|destruct why as [[k msg]|]; [apply Hend|done]].
  intros j Hj Hbefore. destruct (decide (j ∈ l.*1)) as [Hin|Hnot].
  - apply list_elem_of_fmap in Hin as ([j' a] & -> & [i Hi]%list_elem_of_lookup). cbn in *.
    destruct (steps !! i) as [step|] eqn:Hstep.
    + destruct (Hsteps i j' a step Hi Hstep) as (y & -> & [->|[-> ->]]); [by left|right].
      split; [done|]. apply list_elem_of_lookup. eauto.
    + exfalso. apply lookup_ge_None in Hstep. destruct why as [[k msg]|].
      * destruct Hend as [[b Hb] _]. assert (k ≤ j')%nat; [|lia].
        eapply (sorted_lookup _ (length steps) i); [exact Hsorted|..|done];
          by rewrite list_lookup_fmap, ?Hb, ?Hi.
      * apply lookup_lt_Some in Hi. lia.
  - left. pose proof (not_owed _ _ _ _ HJ Hj Hnot) as Hd.
    by destruct (Hrest j Done Hd Hnot) as (y & -> & [->|[? _]]).
Qed.

(** What a run leaves in the journal is what happened. It records the plan, one row
    per action. A run that ends whole leaves every action done or unimplemented, the
    first only when it says none was left, the app running or partial to match; one that
    fails leaves the failed action marked as such, none after it tried, all before it done
    or unimplemented, and the app failed. *)
Theorem run_leaves_journal plan st w out st' w' :
  is_Some (t_apps st !! app) →
  run not_found verified_by_check execute_one true app plan (st, w) = (Ok out, (st', w')) →
  journal_of (records plan) (plan_rows app st') ∧
  let status j := statuses (plan_rows app st') !! j in
  match failed out with
  | None =>
      (∀ j, (j < plan_len plan)%nat → status j = Some Done ∨ status j = Some Unimplemented) ∧
      (unimplemented out = 0 → ∀ j, (j < plan_len plan)%nat → status j = Some Done) ∧
      row_status <$> t_apps st' !! app =
        Some (if (0 <? unimplemented out)%nat then "partial" else "running")
  | Some (k, _) =>
      status k = Some Failed ∧
      (∀ j, (j < k)%nat → status j = Some Done ∨ status j = Some Unimplemented) ∧
      row_status <$> t_apps st' !! app = Some "failed"
  end.
Proof.
  intros Happ Hrun. pose proof (run_ok not_found verified_by_check execute_one _ _ _ _ _ _ Happ Hrun)
    as (st1 & steps & s2 & (Hrows & _ & _ & Hm) & Hco & _ & Hu & Hend).
  assert (HJ : journal_of (records plan) (plan_rows app st1)) by (rewrite Hrows; apply carried_journal).
  assert (Happ1 : is_Some (t_apps st1 !! app)).
  { destruct Happ as [r Hr]. rewrite Hr in Hm. by destruct (t_apps st1 !! app). }
  destruct (carry_out_app _ (st1, w) _ _ _ Happ1 Hco) as [Happ2 Hfail].
  destruct (owed_journal _ _ _ _ _ _ HJ Hco) as (HJ2 & Hall & Hk).
  unfold ends_as in Hend. destruct (failed out) as [[k msg]|].
  - subst s2. split; [done|]. split; [done|]. split; [|apply Hfail; by eexists].
    intros j Hj. destruct (Hall j) as [?|[? _]]; [|done|by left|by right].
    assert (k < plan_len plan)%nat; [|lia]. unfold plan_len, records in *.
    apply journal_length in HJ2. rewrite length_fmap in HJ2. cbn in *. rewrite <- HJ2.
    rewrite <- (length_fmap (λ r, status_parse (pr_status r))). apply lookup_lt_is_Some. by eexists.
  - injection Hend as -> ->. split; [exact HJ2|]. split; [|split].
    + intros j Hj. destruct (Hall j Hj I) as [?|[? _]]; [by left|by right].
    + intros Hz j Hj. destruct (Hall j Hj I) as [?|[_ Hin]]; [done|]. rewrite Hz in Hu.
      by apply dones_all in Hin.
    + by apply set_app_status_app.
Qed.
(** ** Resuming *)

(** An action whose effect is lost: the service a done step deployed is there no more (its
    deployment and the wait for it), the frozen manifest lost the digest resolved. *)
Definition gone (plan : Plan) (w : World) (st : Store) (a : Action) : Prop :=
  match a with
  | DeployService name _ _ _ _ _ _ _ _ _ _ _ _ | WaitHealthy name _ =>
      not_found w name = true ∧ ∃ j b, actions plan !! j = Some b ∧
        is_deploy_of b = Some name ∧ statuses (plan_rows app st) !! j = Some Done
  | ResolveDigest repo tag => lost_digest (row_manifest <$> t_apps st !! app) repo tag = true
  | _ => False
  end.

Definition nothing_lost (plan : Plan) (w : World) (st : Store) : Prop :=
  ∀ a, a ∈ actions plan → ¬ gone plan w st a.

Lemma elem_of_vanished plan w st name :
  name ∈ vanished_services not_found w (done_in app st) plan ↔
  not_found w name = true ∧ ∃ j b, actions plan !! j = Some b ∧
    is_deploy_of b = Some name ∧ statuses (plan_rows app st) !! j = Some Done.
Proof.
  unfold vanished_services. rewrite list_elem_of_omap. setoid_rewrite elem_of_lookup_zip_with.
  unfold done_in. split.
  - intros ([a d] & (j & a' & d' & Ep & Ha & Hd) & He). injection Ep as <- <-. cbn in He.
    rewrite list_lookup_fmap in Hd. apply fmap_Some in Hd as (x & Hx & ->).
    destruct (is_deploy_of a) as [n|] eqn:En; [|done]. cbn in He.
    destruct (_ && _) eqn:Eb; [|done]. injection He as ->. apply andb_true_iff in Eb as [Ex Hn].
    apply bool_decide_eq_true in Ex as ->. split; [done|]. by exists j, a.
  - intros (Hn & j & b & Hb & Hd & Hs). exists (b, true). split.
    + exists j, b, true. split; [done|]. split; [done|]. rewrite list_lookup_fmap, Hs. done.
    + rewrite Hd. cbn. by rewrite Hn.
Qed.

Lemma redeploys_gone plan w st st1 a :
  journal_of (records plan) (plan_rows app st) → starts app plan st st1 →
  redeploys (vanished_services not_found w (done_in app st1) plan) (row_manifest <$> t_apps st1 !! app) a = true
  ↔ gone plan w st a.
Proof.
  intros HJ (Hrows & _ & _ & ->). rewrite carried_same in Hrows by done.
  assert (E : done_in app st1 = done_in app st) by (unfold done_in; by rewrite Hrows). rewrite E.
  destruct a; cbn [redeploys gone]; try done; by rewrite bool_decide_eq_true, elem_of_vanished.
Qed.

(** A plan run again owes what its journal does not hold as done, and what is done of it
    and lost. *)
Lemma rerun_owes plan w st st1 j a :
  journal_of (records plan) (plan_rows app st) → starts app plan st st1 →
  (j, a) ∈ owed not_found app plan st1 w ↔
  actions plan !! j = Some a ∧ (statuses (plan_rows app st) !! j ≠ Some Done ∨ gone plan w st a).
Proof.
  intros HJ Hst. pose proof (redeploys_gone plan w st st1 a HJ Hst) as Hgone.
  assert (Hrows : plan_rows app st1 = plan_rows app st).
  { destruct Hst as (-> & _). by apply carried_same. }
  unfold owed. rewrite elem_of_todo. setoid_rewrite lookup_zip_with_Some. rewrite <- Hgone.
  set (redo := redeploys _ _ a). unfold done_in. rewrite Hrows. split.
  - intros (i & d & -> & (a' & d' & [= <- <-] & Ha & Hd) & Hr). split; [done|].
    apply andb_false_iff in Hr as [->|Hr%negb_false_iff]; [left|by right]. cbn.
    intros E. rewrite list_lookup_fmap, E in Hd. cbn in Hd. by rewrite bool_decide_eq_true_2 in Hd.
  - intros [Ha Hne]. destruct (lookup_lt_is_Some_2 (statuses (plan_rows app st)) j) as [x Hx].
    { unfold statuses. rewrite length_fmap, (journal_length _ _ HJ). unfold records.
      rewrite length_fmap. apply lookup_lt_is_Some. eauto. }
    exists j, (x ==? Done). split; [done|]. split.
    + exists a, (x ==? Done). split; [done|]. split; [done|]. by rewrite list_lookup_fmap, Hx.
    + destruct Hne as [Hne|Hr]; [|by rewrite andb_false_iff, negb_false_iff; right].
      rewrite bool_decide_eq_false_2; [done|]. intros ->. by apply Hne.
Qed.

(** C1. A run cut short, anywhere - before its first action, after any number of them,
    during the next, which wrote to the state what an action may - resumes where it was: from
    the journal of this plan, a run of the same plan from the journal it left owes, in the plan's order, exactly the actions the journal does not hold as done,
    all of them among those left to carry out or that could not be (unimplemented), and
    those done whose service is gone since or whose digest the frozen manifest lost.
    Nothing else done is done again, nothing left is forgotten. *)
Theorem crash_resumes plan w st1 n steps st2 w2 stc st3 w3 :
  journal_of (records plan) (plan_rows app st1) →
  carry_out execute_one app (take n (owed not_found app plan st1 w)) (st1, w) =
    ((steps, None), (st2, w2)) →
  store_advances app st2 stc → starts app plan stc st3 →
  let status j := statuses (plan_rows app stc) !! j in
  StronglySorted lt (owed not_found app plan st3 w3).*1 ∧
  (∀ j a, (j, a) ∈ owed not_found app plan st3 w3 ↔
    actions plan !! j = Some a ∧ (status j ≠ Some Done ∨ gone plan w3 stc a)) ∧
  ∀ j a, actions plan !! j = Some a → status j ≠ Some Done →
    (j, a) ∈ drop n (owed not_found app plan st1 w) ∨ status j = Some Unimplemented.
Proof.
  intros HJ Hco [_ Hadv] Hst status. set (l := owed not_found app plan st1 w) in *.
  assert (Hnd : NoDup l.*1) by apply sorted_NoDup, todo_sorted.
  assert (Hin : ∀ i b, (i, b) ∈ l → actions plan !! i = Some b).
  { intros i b (i' & d & -> & Hl & _)%elem_of_todo.
    apply lookup_zip_with_Some in Hl as (? & ? & ? & ? & _). by simplify_eq. }
  pose proof Hco as Hco'. eapply carry_out_journal in Hco' as (HJ2 & Hrest & Hsteps & Hlen);
    [|done|exact HJ|rewrite fmap_take; by eapply sublist_NoDup, sublist_take|].
  2: { intros i b Hb%subseteq_take%Hin. unfold records. rewrite length_fmap. apply lookup_lt_is_Some. eauto. }
  cbn [fst] in *. split; [apply todo_sorted|].
  pose proof (advances_journal _ _ _ Hadv HJ2) as HJc.
  split; [intros j a; by apply rerun_owes|]. intros j a Ha Hne. apply advances_statuses in Hadv.
  assert (Hc : ∀ x, statuses (plan_rows app st2) !! j = Some x →
    ∃ y, status j = Some y ∧ status_advances x y).
  { intros x Hx. by eapply Forall2_lookup_l in Hx as (y & ? & ?); [exists y|exact Hadv]. }
  assert (Hj : j ∈ l.*1).
  { destruct (decide (j ∈ l.*1)) as [|Hnot]; [done|]. exfalso. apply Hne.
    assert (Hjl : (j < plan_len plan)%nat) by (apply lookup_lt_is_Some; eauto).
    pose proof (not_owed _ _ _ _ HJ Hjl Hnot) as Hd.
    destruct (Hrest j Done Hd) as (y & Hy & Hady); cycle 1.
    { destruct Hady as [->|[? _]]; [|done]. by destruct (Hc _ Hy) as (z & Hz & [->|[? _]]). }
    intros (q & -> & Hq%subseteq_take)%list_elem_of_fmap.
    apply Hnot, list_elem_of_fmap. eauto. }
  apply list_elem_of_fmap in Hj as ([j' b] & -> & Hb). cbn in *. rewrite (Hin _ _ Hb) in Ha. simplify_eq.
  rewrite <- (take_drop n l) in Hb. apply elem_of_app in Hb as [Hb|Hb]; [right|by left].
  apply list_elem_of_lookup in Hb as [i Hi].
  destruct (lookup_lt_is_Some_2 steps i) as [step Hs]; [rewrite Hlen; apply lookup_lt_is_Some; eauto|].
  by destruct (Hsteps _ _ _ _ Hi Hs) as (y & Hy & [->|[_ ->]]);
    destruct (Hc _ Hy) as (z & Hz & [->|[? ->]]).
Qed.

(** A plan carried out whole is carried out once: run again with nothing lost since, it
    does nothing at all, neither outside nor to what was done. *)
Theorem run_idempotent plan st w out st' w' out' st'' w'' :
  is_Some (t_apps st !! app) →
  run not_found verified_by_check execute_one true app plan (st, w) = (Ok out, (st', w')) →
  failed out = None → unimplemented out = 0 → nothing_lost plan w' st' →
  run not_found verified_by_check execute_one true app plan (st', w') = (Ok out', (st'', w'')) →
  executed out' = 0 ∧ unimplemented out' = 0 ∧ failed out' = None ∧ w'' = w' ∧
  t_secrets st'' = t_secrets st' ∧ plan_rows app st'' = plan_rows app st'.
Proof.
  intros Happ H1 Hf Hu Hlost H2.
  pose proof (run_leaves_journal _ _ _ _ _ _ Happ H1) as (HJ & Hall). rewrite Hf in Hall.
  destruct Hall as (_ & Hdone & Hrow). specialize (Hdone Hu).
  assert (Happ' : is_Some (t_apps st' !! app)) by (by destruct (t_apps st' !! app)).
  destruct (run_ok not_found verified_by_check execute_one _ _ _ _ _ _ Happ' H2) as (st1 & steps & s2 & Hst & Hco & He & Hu' & Hend).
  assert (Ho : owed not_found app plan st1 w' = []).
  { apply elem_of_nil_inv. intros [j a] Hin. rewrite (rerun_owes _ _ st') in Hin by done.
    destruct Hin as [Ha [Hne|Hgone]]; [apply Hne, Hdone, lookup_lt_is_Some; eauto|].
    by apply (Hlost a); [apply list_elem_of_lookup; eauto|]. }
  rewrite Ho in Hco. cbn in Hco. injection Hco as <- Hf' <-. rewrite He, Hu'. cbn.
  unfold ends_as in Hend. rewrite <- Hf' in Hend. injection Hend as -> ->.
  destruct Hst as (Hrows & Hs & _). split_and!; try done. cbn. rewrite <- (carried_same _ _ HJ). exact Hrows.
Qed.
End ends.

(** ** A run these hold of

    A world of the services that run; one action, the route, is not implemented until the
    ingress runs. *)

Definition small_world : Type := list string.
Definition absent (w : small_world) (name : string) : bool := bool_decide (name ∉ w).
Definition small_exec (app : string) (a : Action) (s : Store * small_world)
    : result string Step * (Store * small_world) :=
  match a with
  | DeployService name _ _ _ _ _ _ _ _ _ _ _ _ => (Ok StepDone, (s.1, name :: s.2))
  | WaitHealthy name _ =>
      (if bool_decide (name ∈ s.2) then Ok StepDone else Err (name +:+ " is not healthy"), s)
  | ConfigureIngress _ _ _ _ =>
      (Ok (if bool_decide ("caddy" ∈ s.2) then StepDone else StepNotImplemented), s)
  | _ => (Ok StepDone, s)
  end.

Lemma small_exec_keeps app a s : store_advances app s.1 (small_exec app a s).2.1.
Proof. destruct a; cbn; try reflexivity; by destruct s. Qed.

Definition small_deploy : Action :=
  DeployService "gitea" "gitea/gitea:1.22" 1 [] [] [] default_security None [] [] [] default_process None.
Definition small_plan : Plan :=
  {| actions := [GenerateSecret "gitea-jwt" "a token"; small_deploy; WaitHealthy "gitea" 120;
                 ConfigureIngress "git.example.org" "gitea" 3000 false] |}.
Definition small_image : Image :=
  {| img_repo := "gitea/gitea"; img_tag := "1.22"; img_digest := Some "sha256:00";
     img_built_here := false; img_signed_by := None |}.
Definition small_manifest : Manifest :=
  {| mf_api_version := V1; mf_kind := App;
     mf_metadata := {| md_name := "gitea"; md_hlb := None; md_criticality := None;
                       md_display_name := None; md_category := None; md_homepage := None |};
     mf_spec :=
       {| sp_image := small_image; sp_runtime := Swarm; sp_requires := []; sp_ingress := [];
          sp_swarm := default_swarm; sp_update := default_update; sp_companions := [];
          sp_env := ∅; sp_shared_env := ∅; sp_security := default_security; sp_files := [];
          sp_command := []; sp_args := []; sp_process := default_process; sp_assertions := [];
          sp_access := None; sp_recovery := []; sp_jobs := []; sp_downloads := [] |} |}.
Definition small_store : Store := (upsert_app "gitea" small_manifest None empty_store).2.

(** A run of the small plan, the ingress there or not. *)
Definition small_run (s : Store * small_world) :=
  run absent (λ _ _ _ _, true) small_exec true "gitea" small_plan s.

Definition out_of (executed_ skipped_ unimplemented_ : nat) : Outcome :=
  {| executed := executed_; skipped := skipped_; unimplemented := unimplemented_; failed := None |}.

Lemma ran {E A} (x : result E A * (Store * small_world)) o :
  x.1 = Ok o → x = (Ok o, (x.2.1, x.2.2)).
Proof. destruct x as [? [? ?]]. cbn. by intros ->. Qed.

Lemma run_refines_witness : ∃ st1 steps s2,
  starts "gitea" small_plan small_store st1 ∧
  carry_out small_exec "gitea" (owed absent "gitea" small_plan st1 ["caddy"]) (st1, ["caddy"]) =
    ((steps, None), s2) ∧ dones steps = 4.
Proof.
  pose proof (run_refines absent (λ _ _ _ _, true) small_exec "gitea" small_plan small_store
    ["caddy"] ltac:(by eexists)) as (st0 & _ & H). cbv zeta in H.
  change (run _ _ _ _ _ _ _) with (small_run (small_store, ["caddy"])) in H.
  rewrite (ran (small_run (small_store, ["caddy"])) (out_of 4 0 0)) in H by (by vm_compute).
  destruct H as (_ & st1 & steps & s2 & Hst & _ & Hco & He & _). exists st1, steps, s2.
  split; [exact Hst|]. split; [exact Hco|]. symmetry. exact He.
Defined.

Lemma run_leaves_journal_witness :
  row_status <$> t_apps (small_run (small_store, [])).2.1 !! "gitea" = Some "partial".
Proof.
  refine (proj2 (proj2 (proj2 (run_leaves_journal absent (λ _ _ _ _, true) small_exec "gitea"
    (small_exec_keeps "gitea") small_plan small_store [] (out_of 3 0 1) _ _ _
    (ran (small_run (small_store, [])) _ _))))); [by eexists|by vm_compute].
Defined.

(** The state after a whole run. *)
Definition small_done : Store * small_world := (small_run (small_store, ["caddy"])).2.

Lemma small_nothing_lost : nothing_lost absent "gitea" small_plan small_done.2 small_done.1.
Proof.
  assert (E : absent small_done.2 "gitea" = false) by (by vm_compute).
  assert (H : Forall (λ a, ¬ gone absent "gitea" small_plan small_done.2 small_done.1 a)
    [GenerateSecret "gitea-jwt" "a token"; small_deploy; WaitHealthy "gitea" 120;
     ConfigureIngress "git.example.org" "gitea" 3000 false]).
  { revert E. generalize small_done.2, small_done.1. intros w st E.
    repeat (apply Forall_cons; split); [exact (λ x, x)|..|exact (λ x, x)|constructor];
      intros [Hg _]; by rewrite E in Hg. }
  intros a Ha. by apply (proj1 (Forall_forall _ _) H a Ha).
Qed.

Lemma run_idempotent_witness : executed (out_of 0 4 0) = 0 ∧ (small_run small_done).2.2 = small_done.2.
Proof.
  assert (H1 : small_run (small_store, ["caddy"]) = (Ok (out_of 4 0 0), (small_done.1, small_done.2)))
    by (apply ran; by vm_compute).
  assert (H2 : small_run (small_done.1, small_done.2) =
    (Ok (out_of 0 4 0), ((small_run small_done).2.1, (small_run small_done).2.2)))
    by (apply ran; by vm_compute).
  destruct (run_idempotent absent (λ _ _ _ _, true) small_exec "gitea" (small_exec_keeps "gitea")
    small_plan small_store ["caddy"] (out_of 4 0 0) small_done.1 small_done.2 (out_of 0 4 0) _ _
    ltac:(by eexists) H1 eq_refl eq_refl small_nothing_lost H2) as (He & _ & _ & Hw & _).
  split; [exact He|exact Hw].
Defined.

(** Cut after its second action, the service removed before the run is tried again: it is
    deployed again, and what was left is carried out. *)
Definition small_start : Store := (record_plan "gitea" (records small_plan) small_store).2.
Definition small_owed : list (nat * Action) := owed absent "gitea" small_plan small_start [].
Definition small_cut := carry_out small_exec "gitea" (take 2 small_owed) (small_start, []).
Definition small_again : Store := (record_plan "gitea" (records small_plan) small_cut.2.1).2.

Lemma small_cut_ok : small_cut.1 = ([StepDone; StepDone], None).
Proof. by vm_compute. Qed.

Lemma small_cut_starts : starts "gitea" small_plan small_cut.2.1 small_again.
Proof. split_and!; by vm_compute. Qed.

Lemma crash_resumes_witness :
  (owed absent "gitea" small_plan small_again []).*1 = [1; 2; 3]%nat ∧
  (owed absent "gitea" small_plan small_again ["gitea"]).*1 = [2; 3]%nat ∧
  StronglySorted lt (owed absent "gitea" small_plan small_again []).*1.
Proof.
  split; [by vm_compute|]. split; [by vm_compute|].
  refine (proj1 (crash_resumes absent small_exec "gitea" (small_exec_keeps "gitea")
    small_plan [] small_start 2 [StepDone; StepDone] small_cut.2.1 small_cut.2.2 small_cut.2.1
    small_again [] (carried_journal [] (records small_plan)) _ _ small_cut_starts)).
  - change (small_cut = ([StepDone; StepDone], None, (small_cut.2.1, small_cut.2.2))).
    rewrite <- small_cut_ok. by destruct small_cut as [? [? ?]].
  - reflexivity.
Defined.
