(* ===== verification/SelfUpdate.v ===== *)
(** * Updating Homelabus itself

    [crates/hlb-selfupdate/src/version.rs]: versions, their order and which agent may talk
    to which controller; [crates/hlb-selfupdate/src/plan.rs]: what has to hold before an
    update starts and what is undone after one; [crates/hlb-selfupdate/src/signature.rs]:
    which downloaded binary is accepted. The signature scheme ([ed25519_dalek]) is an
    argument. *)

From S2P Require Import Prelude RustStr Encoding.

Definition in_quotes (s : string) : string := String "034" (s +:+ String "034" "").

(** ** Versions *)
Module SelfVersion.

(** @ hlb-selfupdate/src/version.rs:30-36 [Version] *)
Record Version := { major : N; minor : N; patch : N }.

#[export] Instance version_eq_dec : EqDecision Version.
Proof. solve_decision. Defined.

(** The derived [Ord]: field by field, in their order.
    @ hlb-selfupdate/src/version.rs:31-36 [Version] *)
Definition cmp (v w : Version) : comparison :=
  match (major v ?= major w)%N with
  | Eq => match (minor v ?= minor w)%N with
          | Eq => (patch v ?= patch w)%N
          | c => c
          end
  | c => c
  end.

(** @ hlb-selfupdate/src/version.rs:52-72 [Version::parse] *)
Definition parse (s : string) : option Version :=
  let s := trim_start_matches "v" (trim s) in
  s ← head (split_by (λ c, bool_decide (c = "-"%char) || bool_decide (c = "+"%char)) s);
  let it := split_char "." s in
  major ← (it !! 0%nat ≫= parse_uint u32_max);
  minor ← (it !! 1%nat ≫= parse_uint u32_max);
  patch ← parse_uint u32_max (default "0" (it !! 2%nat));
  if it !! 3%nat is Some _ then None
  else Some {| major := major; minor := minor; patch := patch |}.

(** @ hlb-selfupdate/src/version.rs:75-79 [Version::fmt] *)
Definition display (v : Version) : string :=
  show_N (major v) +:+ "." +:+ show_N (minor v) +:+ "." +:+ show_N (patch v).

(** @ hlb-selfupdate/src/version.rs:81-88 [Compatibility] *)
Inductive Compatibility :=
| Compatible
| Incompatible (reason : string).

(** @ hlb-selfupdate/src/version.rs:91-93 [Compatibility::is_ok] *)
Definition compat_is_ok (c : Compatibility) : bool :=
  match c with Compatible => true | Incompatible _ => false end.

(** @ hlb-selfupdate/src/version.rs:95-100 [Compatibility::describe] *)
Definition compat_describe (c : Compatibility) : string :=
  match c with Compatible => "compatibles" | Incompatible reason => reason end.

(** @ hlb-selfupdate/src/version.rs:110-121 [compatible] *)
Definition compatible (agent controller : Version) : Compatibility :=
  if decide (major agent = major controller) then Compatible
  else Incompatible
    ("agent " +:+ display agent +:+ " and controller " +:+ display controller +:+
     ": different MAJOR versions. A major changes the dialogue incompatibly; updating one " +:+
     "without the other would cut control of the cluster.").

(** @ hlb-selfupdate/src/version.rs:123-136 [Jump] *)
Inductive Jump := JNone | JPatch | JMinor | JMajor | JDowngrade.

#[export] Instance jump_eq_dec : EqDecision Jump.
Proof. solve_decision. Defined.

(** @ hlb-selfupdate/src/version.rs:138-148 [Jump::between] *)
Definition between (from to : Version) : Jump :=
  match cmp to from with
  | Eq => JNone
  | Lt => JDowngrade
  | Gt => if (major from <? major to)%N then JMajor
          else if (minor from <? minor to)%N then JMinor
          else JPatch
  end.

(** @ hlb-selfupdate/src/version.rs:150-153 [Jump::needs_confirmation] *)
Definition needs_confirmation (j : Jump) : bool :=
  match j with JMajor | JDowngrade => true | _ => false end.

(** @ hlb-selfupdate/src/version.rs:155-163 [Jump::describe] *)
Definition jump_describe (j : Jump) : string :=
  match j with
  | JNone => "no change"
  | JPatch => "patch"
  | JMinor => "minor version"
  | JMajor => "🔴 MAJOR version - a deliberate break"
  | JDowngrade => "🔴 DOWNGRADE"
  end.

(** *** Properties *)

(** The order of versions, as a relation. *)
Definition lt (v w : Version) : Prop :=
  (major v < major w ∨
   major v = major w ∧ (minor v < minor w ∨ minor v = minor w ∧ patch v < patch w))%N.

Definition in_bounds (v : Version) : Prop :=
  (major v ≤ u32_max ∧ minor v ≤ u32_max ∧ patch v ≤ u32_max)%N.

Lemma cmp_Gt v w : cmp w v = Gt ↔ lt v w.
Proof.
  unfold cmp, lt. destruct (N.compare_spec (major w) (major v)),
    (N.compare_spec (minor w) (minor v)), (N.compare_spec (patch w) (patch v));
    split; intros; first [done | lia].
Qed.

Lemma cmp_Eq v w : cmp w v = Eq ↔ v = w.
Proof.
  unfold cmp. destruct v as [a b c], w as [a' b' c']. cbn.
  destruct (N.compare_spec a' a), (N.compare_spec b' b), (N.compare_spec c' c);
    split; intros; simplify_eq; first [done | lia].
Qed.

Lemma split_by_head p a c b :
  str_any p a = false → p c = true → head (split_by p (a +:+ String c b)) = Some a.
Proof.
  induction a as [|d a IH]; intros Ha Hc.
  - change ("" +:+ String c b) with (String c b). cbn. by rewrite Hc.
  - rewrite append_cons. cbn in *. apply orb_false_iff in Ha as [Hd Ha].
    rewrite Hd. specialize (IH Ha Hc). by destruct (split_by p (a +:+ String c b)); simplify_eq/=.
Qed.

Lemma split_by_none p a : str_any p a = false → split_by p a = [a].
Proof.
  induction a as [|d a IH]; intros Ha; [done|]. cbn in *.
  apply orb_false_iff in Ha as [-> Ha]. by rewrite IH.
Qed.

Lemma trim_visible s : str_all is_graph s = true → trim s = s.
Proof.
  intros Hs. apply trim_graph; intros c r ->; [by eapply str_all_head|].
  rewrite str_all_append in Hs. apply andb_true_iff in Hs as [_ Hs].
  by eapply str_all_head.
Qed.

Lemma str_any_none (p q : ascii → bool) s :
  (∀ c, p c = true → q c = false) → str_all p s = true → str_any q s = false.
Proof.
  intros Hpq. induction s as [|c s IH]; [done|]. cbn.
  rewrite andb_true_iff, orb_false_iff. naive_solver.
Qed.

(** The characters a version is displayed with. *)
Definition version_char (c : ascii) : bool := is_digit c || bool_decide (c = "."%char).

Lemma display_chars v : str_all version_char (display v) = true.
Proof.
  assert (∀ n, str_all version_char (show_N n) = true) as H.
  { intros n. eapply str_all_impl, (show_N_digits n). intros c Hc. unfold version_char. by rewrite Hc. }
  unfold display. by rewrite !str_all_append, !H.
Qed.

Lemma version_char_graph c : version_char c = true → is_graph c = true.
Proof.
  unfold version_char. rewrite orb_true_iff, bool_decide_eq_true.
  intros [?%is_graph_digit| ->]; done.
Qed.

Lemma version_char_no c d : is_digit d = false → d ≠ "."%char → version_char c = true → c ≠ d.
Proof.
  unfold version_char. rewrite orb_true_iff, bool_decide_eq_true. intros ? ? [? | ?] ->; congruence.
Qed.

Lemma display_head v : ∃ c r, display v = String c r ∧ is_digit c = true.
Proof.
  unfold display. destruct (parse_show_digits (major v)) as [_ Hne].
  pose proof (show_N_digits (major v)) as Hd.
  destruct (show_N (major v)) as [|c r]; [done|]. exists c. eexists.
  rewrite append_cons. split; [done|]. by eapply str_all_head.
Qed.

Lemma display_segments v :
  split_char "." (display v) = [show_N (major v); show_N (minor v); show_N (patch v)].
Proof.
  change (display v) with
    (show_N (major v) +:+ String "." (show_N (minor v) +:+ String "." (show_N (patch v)))).
  rewrite !split_char_cons, split_char_one by (by apply show_N_no_char). done.
Qed.

(** What a tag or a pre-release adds to a version: nothing, or a mark and visible
    characters. *)
Definition decoration (s : string) : Prop :=
  s = "" ∨ ∃ c r, s = String c r ∧ (c = "-"%char ∨ c = "+"%char) ∧ str_all is_graph r = true.

Lemma decoration_graph s : decoration s → str_all is_graph s = true.
Proof. intros [->|(c & r & -> & Hc & Hr)]; [done|]. cbn. rewrite Hr. by destruct Hc as [->| ->]. Qed.

Lemma cut_decoration v s :
  decoration s →
  head (split_by (λ c, bool_decide (c = "-"%char) || bool_decide (c = "+"%char)) (display v +:+ s))
  = Some (display v).
Proof.
  assert (str_any (λ c, bool_decide (c = "-"%char) || bool_decide (c = "+"%char)) (display v) = false)
    as Hv.
  { eapply str_any_none, display_chars. intros c Hc. cbn.
    rewrite !bool_decide_eq_false_2; [done|by eapply version_char_no..]. }
  intros [->|(c & r & -> & Hc & _)].
  - rewrite append_nil_r, split_by_none by done. done.
  - apply split_by_head; [done|]. by destruct Hc as [->| ->].
Qed.

(** A version is read back as it is displayed, with a [v] in front (a Git tag) or
    without, and whatever pre-release or build suffix follows it. *)
Theorem self_version_roundtrip v pre suf :
  in_bounds v → pre = "" ∨ pre = "v" → decoration suf →
  parse (pre +:+ display v +:+ suf) = Some v.
Proof.
  intros (Ha & Hb & Hc) Hpre Hsuf. unfold parse.
  rewrite trim_visible.
  2: { rewrite !str_all_append, (decoration_graph suf), andb_true_r by done.
       rewrite (str_all_impl version_char is_graph (display v) version_char_graph) by apply display_chars.
       by destruct Hpre as [->| ->]. }
  assert (trim_start_matches "v" (pre +:+ display v +:+ suf) = display v +:+ suf) as ->.
  { destruct (display_head v) as (c & r & -> & Hd).
    assert (c ≠ "v"%char) by (by intros ->).
    assert (∀ x, trim_start_matches "v" (String c x) = String c x) as Hv
      by (intros x; cbn; by rewrite decide_False).
    destruct Hpre as [->| ->]; [apply Hv|].
    change ("v" +:+ ?x) with (String "v" x). rewrite append_cons. cbn [trim_start_matches].
    rewrite decide_True by done. apply Hv. }
  rewrite cut_decoration by done. unfold mbind, option_bind.
  rewrite display_segments. cbn. rewrite !parse_uint_show by done. by destruct v.
Qed.

Lemma self_version_roundtrip_witness :
  parse "v0.2.0-rc1" = Some {| major := 0; minor := 2; patch := 0 |}.
Proof.
  apply (self_version_roundtrip {| major := 0; minor := 2; patch := 0 |} "v" "-rc1").
  - repeat split; cbn; unfold u32_max; lia.
  - by right.
  - right. by exists "-"%char, "rc1"; split; [|split; [left|]].
Defined.

(** The kind of jump is read off the versions: a downgrade is a target earlier in the
    order of versions, a major jump one whose first number is greater, and what needs an
    explicit approval is one of the two. *)
Theorem jump_spec from to :
  (between from to = JNone ↔ from = to) ∧
  (between from to = JDowngrade ↔ lt to from) ∧
  (between from to = JMajor ↔ (major from < major to)%N) ∧
  (between from to = JMinor ↔ major from = major to ∧ (minor from < minor to)%N) ∧
  (between from to = JPatch ↔
     major from = major to ∧ minor from = minor to ∧ (patch from < patch to)%N) ∧
  (needs_confirmation (between from to) = true ↔
     lt to from ∨ (major from < major to)%N) ∧
  (compat_is_ok (compatible from to) = true ↔ major from = major to).
Proof.
  assert (compat_is_ok (compatible from to) = true ↔ major from = major to) as Hc
    by (unfold compatible; by case_decide).
  unfold between, cmp, lt, needs_confirmation in *. destruct from as [a b c], to as [a' b' c'].
  cbn in *.
  destruct (N.compare_spec a' a), (N.ltb_spec a a'); try lia;
    destruct (N.compare_spec b' b), (N.ltb_spec b b'); try lia;
    destruct (N.compare_spec c' c);
    repeat split; intros; simplify_eq; try done; first [lia | tauto].
Qed.

End SelfVersion.

(** ** The sequence, and what stands in its way *)
Module SelfPlan.
Import SelfVersion.

Definition newline : string := String "010" "".

(** @ hlb-selfupdate/src/plan.rs:39-45 [AgentNode] *)
Record AgentNode := { node : string; version : option Version }.

(** @ hlb-selfupdate/src/plan.rs:47-63 [Blocker] *)
Inductive Blocker :=
| IrreversibleMigration (name : string)
| BIncompatible (detail : string)
| UnreachableAgents (nodes : list string)
| NoStateBackup
| StaleStateBackup (age_s : Z)
| AlreadyCurrent.

(** @ hlb-selfupdate/src/plan.rs:65-93 [Blocker::describe] *)
Definition describe (b : Blocker) : string :=
  match b with
  | IrreversibleMigration name =>
      "🔴 migration " +:+ in_quotes name +:+ " has no inverse. If the new version fails, " +:+
      "the previous binary will read a schema it does not understand - and " +:+
      "there will be no way back. Write the `down` first."
  | BIncompatible detail => detail
  | UnreachableAgents nodes =>
      "🔴 " +:+ show_nat (length nodes) +:+ " unreachable " +:+
      (if decide (length nodes = 1%nat) then "agent" else "agents") +:+ ": " +:+ join ", " nodes +:+
      ". A fleet you cannot see does not get updated - silent nodes would stay on version N " +:+
      "with no way to know whether they work."
  | NoStateBackup =>
      "🔴 no backup of Homelabus's state: a failure during migration would be final. " +:+
      "Run `hlb backup run --app hlb` first."
  | StaleStateBackup age_s =>
      "🔴 the newest backup of Homelabus's state is " +:+ show_Z (Z.quot age_s 3600) +:+
      " h old: what changed since would be lost with a failed migration. " +:+
      "Run `hlb backup run --app hlb` first."
  | AlreadyCurrent => "already up to date"
  end.

(** @ hlb-selfupdate/src/plan.rs:95-98 [Blocker::is_refusal] *)
Definition is_refusal (b : Blocker) : bool :=
  match b with AlreadyCurrent => false | _ => true end.

(** @ hlb-selfupdate/src/plan.rs:101-107 [Migration] *)
Record Migration := { mig_name : string; reversible : bool }.

(** @ hlb-selfupdate/src/plan.rs:109-122 [Preflight] *)
Record Preflight := {
  pf_from : Version; pf_to : Version; pf_agents : list AgentNode;
  pf_migrations : list Migration; state_backup_age_s : option Z; no_app_installed : bool }.

(** @ hlb-selfupdate/src/plan.rs:124-127 [STATE_BACKUP_MAX_AGE_S] *)
Definition STATE_BACKUP_MAX_AGE_S : Z := 24 * 3600.

(** @ hlb-selfupdate/src/plan.rs:129-141 [UpdatePlan] *)
Record UpdatePlan := {
  up_from : Version; up_to : Version; up_jump : Jump; up_agents : list string;
  up_migrations : list Migration }.

(** @ hlb-selfupdate/src/plan.rs:143-176 [UpdatePlan::describe] *)
Definition plan_describe (u : UpdatePlan) : string :=
  "Update " +:+ display (up_from u) +:+ " → " +:+ display (up_to u) +:+ " (" +:+
  jump_describe (up_jump u) +:+ ")" +:+ newline +:+
  "  1. state backup" +:+ newline +:+ "  2. " +:+ show_nat (length (up_agents u)) +:+ " " +:+
  (if decide (length (up_agents u) = 1%nat) then "agent" else "agents") +:+
  ", one at a time: " +:+
  (if decide (up_agents u = []) then "none" else join ", " (up_agents u)) +:+ newline +:+
  "  3. controller LAST (" +:+ show_nat (length (up_migrations u)) +:+ " reversible " +:+
  (if decide (length (up_migrations u) = 1%nat) then "migration" else "migrations") +:+ ")" +:+
  newline +:+ "  4. a dry-run reconciliation to check" +:+ newline.

(** The age of the state's backup, unless nothing is installed.
    @ hlb-selfupdate/src/plan.rs:207-215 [plan] *)
Definition check_backup (p : Preflight) : result Blocker () :=
  if no_app_installed p then Ok ()
  else match state_backup_age_s p with
       | None => Err NoStateBackup
       | Some age_s => if (STATE_BACKUP_MAX_AGE_S <? age_s)%Z then Err (StaleStateBackup age_s)
                       else Ok ()
       end.

(** @ hlb-selfupdate/src/plan.rs:217-223 [plan] *)
Definition silent (p : Preflight) : list string :=
  node <$> keep (λ a, if version a is None then true else false) (pf_agents p).

(** One agent against the target controller.
    @ hlb-selfupdate/src/plan.rs:229-236 [plan] *)
Definition check_agent (to : Version) (_ : ()) (a : AgentNode) : result Blocker () :=
  match version a with
  | None => Ok ()
  | Some v => match compatible v to with
              | Incompatible reason => Err (BIncompatible (node a +:+ " : " +:+ reason))
              | Compatible => Ok ()
              end
  end.

(** @ hlb-selfupdate/src/plan.rs:184-249 [plan] *)
Definition plan (p : Preflight) : result Blocker UpdatePlan :=
  match find_first (λ m, negb (reversible m)) (pf_migrations p) with
  | Some m => Err (IrreversibleMigration (mig_name m))
  | None =>
      let jump := between (pf_from p) (pf_to p) in
      if decide (jump = JNone) then Err AlreadyCurrent
      else if decide (jump = JDowngrade) then
        Err (BIncompatible
          ("🔴 " +:+ display (pf_to p) +:+ " is EARLIER than " +:+ display (pf_from p) +:+
           " - this is not an update. To go back, use `hlb self rollback`, which restores " +:+
           "the schema as well."))
      else
        _ ← check_backup p;
        if decide (silent p ≠ []) then Err (UnreachableAgents (silent p))
        else
          _ ← fold_m (check_agent (pf_to p)) () (pf_agents p);
          Ok {| up_from := pf_from p; up_to := pf_to p; up_jump := jump;
                up_agents := merge_sort String.le (node <$> pf_agents p);
                up_migrations := pf_migrations p |}
  end.

(** @ hlb-selfupdate/src/plan.rs:256-264 [Rollback] *)
Record Rollback := {
  previous_version : Version; previous_binary : string; state_export : string;
  undo : list Migration }.

(** @ hlb-selfupdate/src/plan.rs:273-275 [Rollback::undo_order] *)
Definition undo_order (r : Rollback) : list Migration := reverse (undo r).

(** @ hlb-selfupdate/src/plan.rs:277-285 [Rollback::describe] *)
Definition rollback_describe (r : Rollback) : string :=
  "Back to " +:+ display (previous_version r) +:+ ":" +:+ newline +:+
  "  binary : " +:+ previous_binary r +:+ newline +:+
  "  state  : " +:+ state_export r +:+ newline +:+
  "  " +:+ show_nat (length (undo r)) +:+ " migrations to undo".

(** *** Properties *)

(** What has to hold for an update to start. *)
Definition may_start (p : Preflight) : Prop :=
  (∀ m, m ∈ pf_migrations p → reversible m = true) ∧
  lt (pf_from p) (pf_to p) ∧
  (no_app_installed p = true ∨
     ∃ age, state_backup_age_s p = Some age ∧ (age ≤ 86400)%Z) ∧
  (∀ a, a ∈ pf_agents p → ∃ v, version a = Some v ∧ major v = major (pf_to p)).

(** What the plan of a started update says. *)
Definition planned (p : Preflight) (u : UpdatePlan) : Prop :=
  up_from u = pf_from p ∧ up_to u = pf_to p ∧ up_jump u = between (pf_from p) (pf_to p) ∧
  up_agents u ≡ₚ node <$> pf_agents p ∧ StronglySorted String.le (up_agents u) ∧
  up_migrations u = pf_migrations p.

Lemma check_backup_Ok p :
  check_backup p = Ok () ↔
  no_app_installed p = true ∨ ∃ age, state_backup_age_s p = Some age ∧ (age ≤ 86400)%Z.
Proof.
  unfold check_backup, STATE_BACKUP_MAX_AGE_S.
  destruct (no_app_installed p); [naive_solver|].
  destruct (state_backup_age_s p) as [age|]; [|naive_solver].
  destruct (Z.ltb_spec (24 * 3600) age); split; try done.
  - intros [?|(x & [= <-] & ?)]; [done|lia].
  - intros _. right. exists age. split; [done|lia].
Qed.

Lemma silent_nil p : silent p = [] ↔ ∀ a, a ∈ pf_agents p → is_Some (version a).
Proof.
  unfold silent. split.
  - intros H a Ha. destruct (version a) eqn:E; [done|].
    assert (a ∈ keep (λ a, if version a is None then true else false) (pf_agents p)) as Hin
      by (apply elem_of_keep; by rewrite E).
    apply fmap_nil_inv in H. rewrite H in Hin. by apply elem_of_nil in Hin.
  - intros H. enough (keep (λ a, if version a is None then true else false) (pf_agents p) = [])
      as -> by done.
    apply elem_of_nil_inv. intros a [Hv Ha]%elem_of_keep.
    destruct (H a Ha) as [v E]. by rewrite E in Hv.
Qed.

Lemma fold_unit_Ok {A E} (f : () → A → result E ()) l :
  fold_m f () l = Ok () ↔ ∀ a, a ∈ l → f () a = Ok ().
Proof.
  induction l as [|a l IH]; cbn [fold_m].
  - split; [|done]. intros _ a Ha. by apply elem_of_nil in Ha.
  - rewrite result_bind_Ok. setoid_rewrite elem_of_cons. split.
    + intros ([] & Ha & Hl) b [->|Hb]; [done|]. by apply IH.
    + intros H. exists (). split; [by apply H; left|]. apply IH. auto.
Qed.

Lemma check_agent_Ok to a :
  check_agent to () a = Ok () ↔ ∀ v, version a = Some v → major v = major to.
Proof.
  unfold check_agent, compatible. destruct (version a) as [v|]; [|naive_solver].
  case_decide; naive_solver.
Qed.

Lemma check_agents_Ok to l :
  fold_m (check_agent to) () l = Ok () ↔
  ∀ a v, a ∈ l → version a = Some v → major v = major to.
Proof. rewrite fold_unit_Ok. setoid_rewrite check_agent_Ok. naive_solver. Qed.

Lemma check_agents_Err to l b :
  fold_m (check_agent to) () l = Err b → ∃ d, b = BIncompatible d.
Proof.
  assert (∀ a b, check_agent to () a = Err b → ∃ d, b = BIncompatible d) as Ha
    by (intros a c; unfold check_agent, compatible; repeat case_match; intros [= <-]; eauto).
  induction l as [|a l IH]; cbn [fold_m]; [done|]. unfold mbind, result_bind.
  destruct (check_agent to () a) as [[]|e] eqn:E; [done|]. intros [= <-]. eauto.
Qed.

Lemma irreversible_none p :
  find_first (λ m, negb (reversible m)) (pf_migrations p) = None ↔
  ∀ m, m ∈ pf_migrations p → reversible m = true.
Proof.
  rewrite find_first_None, Forall_forall. split; intros H m Hm; specialize (H m Hm); by destruct (reversible m).
Qed.

Lemma between_forward from to : between from to ≠ JNone → between from to ≠ JDowngrade → lt from to.
Proof.
  unfold between. destruct (cmp to from) eqn:E; try done. by apply cmp_Gt in E.
Qed.

Lemma forward_between from to : lt from to → between from to ≠ JNone ∧ between from to ≠ JDowngrade.
Proof. intros H%cmp_Gt. unfold between. rewrite H. by repeat case_match. Qed.

(** An update starts exactly when every migration has its inverse, the target is later
    than what runs, the state was backed up within the day (or nothing is installed) and
    every agent answers and has the target's major version; its plan takes every node once,
    in the order of their names. *)
Theorem self_plan_spec p u : plan p = Ok u ↔ may_start p ∧ planned p u.
Proof.
  unfold plan, may_start, planned. split.
  - destruct (find_first _ _) eqn:Hm; [done|]. rewrite irreversible_none in Hm.
    case_decide as Hn; [done|]. case_decide as Hd; [done|].
    rewrite result_bind_Ok. intros ([] & Hb%check_backup_Ok & H). case_decide as Hs; [done|].
    apply result_bind_Ok in H as ([] & Ha & [= <-]).
    rewrite silent_nil in Hs. rewrite check_agents_Ok in Ha.
    cbn. repeat split; auto using between_forward, merge_sort_Permutation.
    + intros a Hin. destruct (Hs a Hin) as [v Hv]. eauto.
    + apply StronglySorted_merge_sort; apply _.
  - intros ((Hm & Hl & Hb & Ha) & Hf & Ht & Hj & Hp & Hsort & Hmig).
    rewrite <- irreversible_none in Hm. rewrite Hm. apply forward_between in Hl as [??].
    rewrite !decide_False by done. apply check_backup_Ok in Hb as ->. unfold mbind, result_bind.
    assert (silent p = []) as Hs by (apply silent_nil; intros a (v & -> & _)%Ha; done).
    rewrite decide_False by auto. rewrite (proj2 (check_agents_Ok _ _)).
    2: { intros a v Hin Hv. destruct (Ha a Hin) as (w & Hw & <-). by simplify_eq. }
    destruct u. cbn in *. subst. do 2 f_equal.
    eapply (StronglySorted_unique String.le); [|done|by rewrite merge_sort_Permutation].
    apply StronglySorted_merge_sort; apply _.
Qed.

(** What forecloses going back is said before anything else, and only being up to date
    is no refusal: with an irreversible migration the blocker names the first one whatever
    the rest; else an equal target says there is nothing to do, and every other blocker
    refuses. *)
Theorem self_plan_refusals p b :
  plan p = Err b →
  (∀ m, find_first (λ m, negb (reversible m)) (pf_migrations p) = Some m →
        b = IrreversibleMigration (mig_name m)) ∧
  (is_refusal b = false ↔
     (∀ m, m ∈ pf_migrations p → reversible m = true) ∧ pf_from p = pf_to p) ∧
  (∀ nodes, b = UnreachableAgents nodes →
     nodes ≠ [] ∧ ∀ n, n ∈ nodes ↔ ∃ a, a ∈ pf_agents p ∧ node a = n ∧ version a = None).
Proof.
  unfold plan. rewrite <- irreversible_none.
  assert (between (pf_from p) (pf_to p) = JNone ↔ pf_from p = pf_to p) as Hcur.
  { unfold between. pose proof (cmp_Eq (pf_from p) (pf_to p)) as Hc.
    destruct (cmp (pf_to p) (pf_from p)); [tauto|naive_solver|].
    repeat case_match; naive_solver. }
  destruct (find_first _ _) as [m|] eqn:Hm; [intros [= <-]; naive_solver|].
  case_decide as Hn; [intros [= <-]; naive_solver|].
  case_decide as Hd; [intros [= <-]; naive_solver|].
  unfold mbind, result_bind.
  assert (∀ b, check_backup p = Err b → is_refusal b = true ∧ ∀ n, b ≠ UnreachableAgents n) as Hb
    by (unfold check_backup; intros ?; repeat case_match; naive_solver).
  destruct (check_backup p) as [[]|e]; [|].
  2: { intros [= ->]. destruct (Hb b) as [Hr Hu]; [done|]. split; [done|].
       split; [|by intros ? ?%Hu]. split; [congruence|]. by intros [_ ?%Hcur]. }
  case_decide as Hs.
  - intros [= <-]. split; [done|]. split; [naive_solver|]. intros ? [= <-]. split; [done|].
    intros n. unfold silent. rewrite list_elem_of_fmap. setoid_rewrite elem_of_keep.
    split; intros (a & H); exists a; destruct (version a); naive_solver.
  - destruct (fold_m _ _ _) as [[]|e] eqn:Ef; [done|]. intros [= ->].
    apply check_agents_Err in Ef as [d ->]. split; [done|]. split; [|done]. naive_solver.
Qed.

Definition example_preflight : Preflight :=
  {| pf_from := {| major := 0; minor := 1; patch := 0 |};
     pf_to := {| major := 0; minor := 2; patch := 0 |};
     pf_agents := [{| node := "node2"; version := Some {| major := 0; minor := 1; patch := 0 |} |};
                   {| node := "node1"; version := None |}];
     pf_migrations := [{| mig_name := "0007"; reversible := true |}];
     state_backup_age_s := Some 86400%Z; no_app_installed := false |}.

Lemma self_plan_refusals_witness :
  plan example_preflight = Err (UnreachableAgents ["node1"]) ∧
  is_refusal (UnreachableAgents ["node1"]) = true.
Proof.
  assert (plan example_preflight = Err (UnreachableAgents ["node1"])) as H by reflexivity.
  split; [done|].
  destruct (self_plan_refusals _ _ H) as (_ & Hr & _).
  destruct (is_refusal _) eqn:E; [done|]. by destruct (proj1 Hr eq_refl) as [_ [=]].
Defined.

(** A major jump is planned only when no agent is left on the major version that runs: with
    one, the update is refused, whatever the approval [needs_confirmation] asks for. *)
Lemma major_jump_refused p u :
  plan p = Ok u → up_jump u = JMajor →
  ∀ a v, a ∈ pf_agents p → version a = Some v → major v ≠ major (pf_from p).
Proof.
  unfold plan. destruct (find_first _ _); [done|]. case_decide; [done|]. case_decide; [done|].
  rewrite result_bind_Ok. intros (x & _ & Hk). case_decide; [done|].
  apply result_bind_Ok in Hk as ([] & Ha & [= <-]). rewrite check_agents_Ok in Ha. cbn.
  unfold between. intros Hj a v Hin Hv. rewrite (Ha a v Hin Hv).
  destruct (cmp _ _); try done.
  destruct (N.ltb_spec (major (pf_from p)) (major (pf_to p))); [lia|].
  by destruct (_ <? _)%N.
Qed.

(** Undoing a rollback's migrations in its order, each with the inverse of its own,
    brings back the schema they were applied to, whatever the schema and the migrations. *)
Theorem undo_order_restores (Schema : Type) (up down : Migration → Schema → option Schema) r s t :
  (∀ m s t, m ∈ undo r → up m s = Some t → down m t = Some s) →
  fold_left (λ s m, s ≫= up m) (undo r) (Some s) = Some t →
  fold_left (λ s m, s ≫= down m) (undo_order r) (Some t) = Some s.
Proof.
  unfold undo_order. generalize (undo r). intros l Hinv. revert s.
  induction l as [|m l IH]; intros s; [by intros [= ->]|]. cbn [fold_left].
  change (Some s ≫= up m) with (up m s). destruct (up m s) as [s'|] eqn:Hm.
  - intros H. rewrite reverse_cons, fold_left_app. rewrite (IH ltac:(set_solver) s' H).
    cbn. apply Hinv; [left|done].
  - intros H. exfalso. revert H. clear. induction l; cbn; auto; done.
Qed.

Lemma undo_order_restores_witness :
  let r := {| previous_version := {| major := 0; minor := 1; patch := 0 |};
              previous_binary := "/opt/hlb/hlb-0.1.0"; state_export := "/var/lib/hlb/before.sql";
              undo := [{| mig_name := "0007_column"; reversible := true |};
                       {| mig_name := "0008_index"; reversible := true |}] |} in
  fold_left (λ s m, s ≫= λ s : list string,
               match s with
               | [] => None
               | n :: s => if decide (n = mig_name m) then Some s else None
               end) (undo_order r) (Some ["0008_index"; "0007_column"]) = Some [].
Proof.
  apply (undo_order_restores (list string) (λ m s, Some (mig_name m :: s))).
  - intros m s t _ [= <-]. by rewrite decide_True.
  - reflexivity.
Defined.

End SelfPlan.

(** ** Which binary is accepted *)
Module Signature.
Import SelfVersion.

(** @ hlb-selfupdate/src/signature.rs:42-50 [Manifest] *)
Record Manifest := { mf_version : Version; mf_sha256 : string; mf_signature : string }.

(** @ hlb-selfupdate/src/signature.rs:52-66 [Rejected] *)
Inductive Rejected :=
| Unsigned
| BadSignature
| ChecksumMismatch (expected actual : string)
| WrongVersion (expected found : Version)
| BadKey (detail : string).

(** [&s\[..n\]] of a text: it panics inside a character, whose continuation bytes are those
    from 128 to 191, and past the end. *)
Definition slice_to (n : nat) (s : string) : outcome string :=
  match String.get n s with
  | Some c => if ((128 <=? byte_of c) && (byte_of c <? 192))%N then Panics
              else Returns (String.substring 0 n s)
  | None => if decide (n = String.length s) then Returns s else Panics
  end.

(** @ hlb-selfupdate/src/signature.rs:68-94 [Rejected::describe] *)
Definition rejected_describe (r : Rejected) : outcome string :=
  match r with
  | Unsigned => Returns
      ("🔴 UNSIGNED binary. This is not " +:+ in_quotes "less safe" +:+ ", it is unusable: " +:+
       "nothing says where it came from. An update replaces the binary that holds the vault " +:+
       "key and drives Docker.")
  | BadSignature => Returns
      ("🔴 INVALID SIGNATURE. The file was modified after signing, or it does not come from " +:+
       "who you think. Install nothing and check where this download came from.")
  | ChecksumMismatch expected actual =>
      match slice_to (8 `min` String.length expected) expected,
            slice_to (8 `min` String.length actual) actual with
      | Returns e, Returns a => Returns
          ("🔴 DIFFERENT FINGERPRINT. Expected " +:+ e +:+ "..., got " +:+ a +:+ "..." +:+
           String "010" "" +:+ "The manifest is signed but does not describe this file: a " +:+
           "truncated download, or the binary alone was substituted.")
      | _, _ => Panics
      end
  | WrongVersion expected found => Returns
      ("the manifest announces " +:+ display found +:+ ", " +:+ display expected +:+
       " was requested. A manifest signed for ANOTHER version stays cryptographically valid " +:+
       "- that is how an old vulnerable version gets replayed.")
  | BadKey detail => Returns ("unreadable public key: " +:+ detail)
  end.

(** @ hlb-selfupdate/src/signature.rs:101-103 [signed_payload] *)
Definition signed_payload (version : Version) (sha256 : string) : string :=
  "hlb-release" +:+ String "010" ("version=" +:+ display version) +:+
  String "010" ("sha256=" +:+ sha256 +:+ String "010" "").

(** [char::to_digit(16)]. *)
Definition hex_value (c : ascii) : option N :=
  if is_digit c then Some (byte_of c - 48)%N
  else if ((97 <=? byte_of c) && (byte_of c <=? 102))%N then Some (byte_of c - 87)%N
  else if ((65 <=? byte_of c) && (byte_of c <=? 70))%N then Some (byte_of c - 55)%N
  else None.

(** [u8::from_str_radix] in base 16 on two bytes: a leading [+] is a sign, and one digit is
    enough after it.
    @ hlb-selfupdate/src/signature.rs:184-184 [from_hex] *)
Definition hex_pair (a b : ascii) : option N :=
  if decide (a = "+"%char) then hex_value b
  else x ← hex_value a; y ← hex_value b; Some (16 * x + y)%N.

Fixpoint hex_pairs (s : string) : option (list N) :=
  match s with
  | "" => Some []
  | String a (String b s) => n ← hex_pair a b; l ← hex_pairs s; Some (n :: l)
  | String _ "" => None
  end.

(** @ hlb-selfupdate/src/signature.rs:177-186 [from_hex] *)
Definition from_hex (s : string) : option (list N) :=
  let s := trim s in
  if decide (String.length s `mod` 2 = 0)%nat then hex_pairs s else None.

(** @ hlb-selfupdate/src/signature.rs:167-175 [constant_eq] *)
Definition constant_eq (a b : string) : bool :=
  if decide (String.length a = String.length b) then
    (fold_left (λ acc '(x, y), N.lor acc (N.lxor x y)) (zip (bytes_of a) (bytes_of b)) 0 =? 0)%N
  else false.

(** The signature scheme: how 32 bytes make a key [from_bytes], and when a key accepts 64
    bytes as the signature of a message [ed_verify].
    @ hlb-selfupdate/src/signature.rs:106-118 [parse_key] *)
Definition parse_key {Key : Type} (from_bytes : list N → result string Key) (hex : string)
    : result Rejected Key :=
  bytes ← ok_or (BadKey "invalid hexadecimal") (from_hex (trim hex));
  if decide (length bytes = 32%nat) then map_err BadKey (from_bytes bytes)
  else Err (BadKey "an Ed25519 key is exactly 32 bytes").

Section scheme.
Context {Key : Type} (ed_verify : Key → list N → list N → bool).

(** @ hlb-selfupdate/src/signature.rs:126-164 [verify] *)
Definition verify (key : Key) (manifest : Manifest) (expected_version : Version)
    (binary : list N) : result Rejected () :=
  if str_is_empty (trim (mf_signature manifest)) then Err Unsigned
  else
    sig_bytes ← ok_or BadSignature (from_hex (mf_signature manifest));
    if decide (length sig_bytes ≠ 64%nat) then Err BadSignature
    else
      let message := signed_payload (mf_version manifest) (mf_sha256 manifest) in
      if negb (ed_verify key (bytes_of message) sig_bytes) then Err BadSignature
      else if decide (mf_version manifest ≠ expected_version)
      then Err (WrongVersion expected_version (mf_version manifest))
      else
        let actual := sha256_hex binary in
        if negb (constant_eq actual (mf_sha256 manifest))
        then Err (ChecksumMismatch (mf_sha256 manifest) actual)
        else Ok ().

(** *** Properties *)

Lemma constant_eq_true a b : constant_eq a b = true ↔ a = b.
Proof.
  unfold constant_eq. case_decide as Hl.
  - rewrite N.eqb_eq, fold_xor_zero by (by rewrite !bytes_of_length).
    split; [|by intros ->]. intros [_ H]. by apply bytes_of_inj.
  - split; [done|]. by intros ->.
Qed.

Lemma display_no_newline v : contains_char "010" (display v) = false.
Proof.
  unfold contains_char. eapply str_any_none, display_chars. intros c Hc.
  rewrite bool_decide_eq_false_2; [done|]. by eapply version_char_no.
Qed.

Lemma display_inj v w : display v = display w → v = w.
Proof.
  intros H. apply (f_equal (split_char ".")) in H. rewrite !display_segments in H.
  injection H as ?%show_N_inj ?%show_N_inj ?%show_N_inj. destruct v, w; cbn in *; congruence.
Qed.

(** The signed message names its version and its fingerprint: no two releases share one. *)
Lemma signed_payload_inj v h w k : signed_payload v h = signed_payload w k → v = w ∧ h = k.
Proof.
  unfold signed_payload. intros H%append_inj_l. rewrite !append_cons in H.
  injection H as H. rewrite !append_assoc in H. apply append_inj_l in H.
  apply (f_equal (split_once "010")) in H.
  rewrite !split_once_append in H by apply display_no_newline.
  injection H as Hv H. split; [by apply display_inj|].
  apply append_inj_l in H. apply (f_equal split_last) in H.
  rewrite !split_last_append in H. by simplify_eq.
Qed.

Lemma verify_Ok key m v binary :
  verify key m v binary = Ok () ↔
  ∃ sig, from_hex (mf_signature m) = Some sig ∧ length sig = 64%nat ∧
    ed_verify key (bytes_of (signed_payload v (sha256_hex binary))) sig = true ∧
    mf_version m = v ∧ mf_sha256 m = sha256_hex binary.
Proof.
  unfold verify. split.
  - destruct (str_is_empty _); [done|]. rewrite result_bind_Ok.
    intros (sig & Hs%ok_or_Ok & H). exists sig. split; [done|].
    case_decide; [done|]. split; [lia|].
    destruct (ed_verify _ _ _) eqn:Hv; [|done]. cbn in H. case_decide; [done|].
    destruct (constant_eq _ _) eqn:Hc; [|done]. apply constant_eq_true in Hc.
    split; [congruence|]. split; congruence.
  - intros (sig & Hs & Hl & Hv & <- & Hh).
    assert (str_is_empty (trim (mf_signature m)) = false) as ->.
    { destruct (trim (mf_signature m)) eqn:E; [|done].
      unfold from_hex in Hs. rewrite E in Hs. injection Hs as <-. discriminate Hl. }
    rewrite Hs. cbn [ok_or]. unfold mbind, result_bind.
    rewrite decide_False by lia. rewrite Hh, Hv. cbn [negb].
    rewrite decide_False by auto. by rewrite (proj2 (constant_eq_true _ _)).
Qed.

(** C39. A binary passes the check exactly when the manifest's signature reads as sixty-four bytes -
    pairs read as the program reads hexadecimal, which lets a plus sign stand for a zero - that the
    key accepts for the version asked for and the binary's own fingerprint, the manifest naming
    both. So with a scheme in which the key only accepts what its holder signed, an accepted binary
    is one of the published releases, under the version asked for. *)
Theorem only_published_binaries key (published : list (Version * string)) m v binary :
  (verify key m v binary = Ok () ↔
    ∃ sig, from_hex (mf_signature m) = Some sig ∧ length sig = 64%nat ∧
      ed_verify key (bytes_of (signed_payload v (sha256_hex binary))) sig = true ∧
      mf_version m = v ∧ mf_sha256 m = sha256_hex binary) ∧
  ((∀ message sig, ed_verify key message sig = true →
      ∃ r, r ∈ published ∧ message = bytes_of (signed_payload r.1 r.2)) →
   verify key m v binary = Ok () → (v, sha256_hex binary) ∈ published).
Proof.
  split; [apply verify_Ok|]. intros Hsigned (sig & _ & _ & Hv & _)%verify_Ok.
  apply Hsigned in Hv as ([w h] & Hin & Heq%bytes_of_inj%signed_payload_inj).
  by destruct Heq as [-> ->].
Qed.

(** The signature speaks first: a manifest the key does not accept is refused for its
    signature, whatever its version and fingerprint; an accepted one of another version is
    refused for it, and one of the right version for its fingerprint, naming both. *)
Theorem verify_refusals key m v binary :
  verify key m v binary =
    match from_hex (mf_signature m) with
    | Some sig =>
        if decide (trim (mf_signature m) = "") then Err Unsigned
        else if decide (length sig = 64%nat ∧
               ed_verify key (bytes_of (signed_payload (mf_version m) (mf_sha256 m))) sig = true)
        then if decide (mf_version m = v)
             then if decide (mf_sha256 m = sha256_hex binary) then Ok ()
                  else Err (ChecksumMismatch (mf_sha256 m) (sha256_hex binary))
             else Err (WrongVersion v (mf_version m))
        else Err BadSignature
    | None => Err BadSignature
    end.
Proof.
  unfold verify.
  destruct (from_hex (mf_signature m)) as [sig|] eqn:Hs.
  - destruct (trim (mf_signature m)) eqn:E; [done|]. cbn [str_is_empty ok_or].
    rewrite (decide_False (P := String _ _ = "")) by done.
    unfold mbind, result_bind. case_decide as Hl.
    { rewrite decide_False; [done|]. tauto. }
    destruct (ed_verify _ _ _); cbn [negb].
    2: { rewrite decide_False; [done|]. intros [_ [=]]. }
    rewrite (decide_True (P := length sig = 64%nat ∧ true = true)) by done.
    destruct (decide (mf_version m = v)) as [Hv|Hv].
    2: { by rewrite decide_True. }
    rewrite decide_False by (intros []; done).
    destruct (constant_eq _ _) eqn:Hc.
    + apply constant_eq_true in Hc. by rewrite decide_True.
    + rewrite decide_False; [done|]. intros H%symmetry%constant_eq_true. congruence.
  - destruct (trim (mf_signature m)) eqn:E; [|done].
    unfold from_hex in Hs. by rewrite E in Hs.
Qed.

End scheme.

(** A published release of a scheme with one key, which accepts one message. *)
Lemma only_published_binaries_witness :
  let v := {| major := 0; minor := 2; patch := 0 |} in
  let h := sha256_hex [127; 69; 76; 70]%N in
  verify (λ (_ : ()) msg _, bool_decide (msg = bytes_of (signed_payload v h))) ()
    {| mf_version := v; mf_sha256 := h; mf_signature := join "" (replicate 64 "ab") |} v
    [127; 69; 76; 70]%N = Ok () ∧
  (v, h) ∈ [(v, h)].
Proof.
  cbv zeta. set (v := {| major := 0; minor := 2; patch := 0 |}).
  assert (verify (λ (_ : ()) msg _, bool_decide (msg = bytes_of (signed_payload v
      (sha256_hex [127; 69; 76; 70]%N)))) ()
    {| mf_version := v; mf_sha256 := sha256_hex [127; 69; 76; 70]%N;
       mf_signature := join "" (replicate 64 "ab") |} v [127; 69; 76; 70]%N = Ok ()) as Hok
    by (vm_compute; reflexivity).
  split; [exact Hok|].
  eapply (proj2 (only_published_binaries _ _ _ _ _ _)); [|exact Hok].
  clear Hok. generalize (sha256_hex [127; 69; 76; 70]%N). intros h msg sig.
  rewrite bool_decide_eq_true. intros ->. exists (v, h). split; [left|reflexivity].
Defined.

(** A sign is read where a digit is expected. *)
Lemma hex_reads_a_sign : from_hex "+f" = from_hex "0f".
Proof. reflexivity. Qed.

(** A fingerprint cut inside a character makes the refusal itself panic. *)
Lemma mismatch_panics a :
  rejected_describe (ChecksumMismatch "aaaaaaaé" a) = Panics.
Proof. reflexivity. Qed.

End Signature.
