(* ===== verification/Swap.v ===== *)
(** * Replacing the running binary

    [crates/hlb-selfupdate/src/swap.rs]: the checks on a downloaded file, and the file
    operations that put it in place of the binary that runs. A program here is a tree of
    file operations, run on a folder in which any operation may fail, a write leaving part
    of what it wrote: the states it goes through are all those a crash can leave. *)

From S2P Require Import Prelude RustStr Encoding.
Local Open Scope N_scope.

(** ** A folder

    Names are links to files, several names of one file included. The file of a running
    program cannot be opened for writing ([ETXTBSY]); renaming or removing its names can.
    What a folder holds after a power cut, when some writes were not flushed, is not
    modelled: the flushes have no effect. *)

Record file := { content : list N; mode : N }.
Record folder := { names : gmap string nat; files : gmap nat file; busy : option nat }.

Definition lookup_file (s : folder) (n : string) : option file := names s !! n ≫= λ i, files s !! i.

Inductive op :=
| Create (n : string)            (* File::create: new and empty, or emptied *)
| WriteAll (n : string) (data : list N)
| SyncAll (n : string)
| SetMode (n : string) (m : N)
| Metadata (n : string)
| Remove (n : string)
| HardLink (a b : string)
| Copy (a b : string)
| Rename (a b : string)
| Exists (n : string).

Definition set_names (s : folder) (m : gmap string nat) : folder :=
  {| names := m; files := files s; busy := busy s |}.
Definition set_file (s : folder) (i : nat) (f : file) : folder :=
  {| names := names s; files := <[i := f]> (files s); busy := busy s |}.

(** A file opened for writing, emptied: its number, unless it runs. *)
Definition open_empty (s : folder) (n : string) : option (nat * folder) :=
  match names s !! n with
  | Some i =>
      if decide (busy s = Some i) then None
      else Some (i, set_file s i
        {| content := []; mode := if files s !! i is Some f then mode f else 420 |})
  | None =>
      let i := fresh (dom (files s)) in
      Some (i, set_file (set_names s (<[n := i]> (names s))) i {| content := []; mode := 420 |})
  end.

(** One operation. A [fault] makes it fail; a write or a copy has then written as many bytes
    as it says. The answer is a number for what asks for one. *)
Definition fs_step (o : op) (fault : option nat) (s : folder) : result string N * folder :=
  match o with
  | Create n =>
      match fault, open_empty s n with
      | None, Some (_, s) => (Ok 0, s)
      | _, _ => (Err "create", s)
      end
  | WriteAll n data =>
      match names s !! n with
      | Some i =>
          let f := default {| content := []; mode := 420 |} (files s !! i) in
          let written := if fault is Some k then take k data else data in
          (if fault is Some _ then Err "write" else Ok 0,
           set_file s i {| content := content f ++ written; mode := mode f |})
      | None => (Err "write", s)
      end
  | SyncAll n => (if fault is Some _ then Err "sync" else Ok 0, s)
  | SetMode n m =>
      match fault, names s !! n ≫= λ i, (i,.) <$> files s !! i with
      | None, Some (i, f) => (Ok 0, set_file s i {| content := content f; mode := m |})
      | _, _ => (Err "chmod", s)
      end
  | Metadata n =>
      match fault, lookup_file s n with
      | None, Some f => (Ok (mode f), s)
      | _, _ => (Err "stat", s)
      end
  | Remove n =>
      match fault, names s !! n with
      | None, Some _ => (Ok 0, set_names s (delete n (names s)))
      | _, _ => (Err "remove", s)
      end
  | HardLink a b =>
      match fault, names s !! a, names s !! b with
      | None, Some i, None => (Ok 0, set_names s (<[b := i]> (names s)))
      | _, _, _ => (Err "link", s)
      end
  | Copy a b =>
      match lookup_file s a, open_empty s b with
      | Some _, Some (j, s1) =>
          (* emptying [b] empties [a] when they are one file *)
          let f := default {| content := []; mode := 420 |} (lookup_file s1 a) in
          match fault with
          | None => (Ok 0, set_file s1 j {| content := content f; mode := mode f |})
          | Some k => (Err "copy", set_file s1 j {| content := take k (content f); mode := 420 |})
          end
      | _, _ => (Err "copy", s)
      end
  | Rename a b =>
      match fault, names s !! a with
      | None, Some i =>
          if decide (names s !! b = Some i) then (Ok 0, s)
          else (Ok 0, set_names s (<[b := i]> (delete a (names s))))
      | _, _ => (Err "rename", s)
      end
  | Exists n =>
      match fault, names s !! n with
      | None, Some _ => (Ok 1, s)
      | _, _ => (Ok 0, s)
      end
  end.

(** A program: operations, each followed by what its answer decides. *)
Inductive prog (A : Type) :=
| Ret (a : A)
| Do (o : op) (k : result string N → prog A).
Arguments Ret {A} a.
Arguments Do {A} o k.

Fixpoint prog_bind {A B} (f : A → prog B) (p : prog A) : prog B :=
  match p with Ret a => f a | Do o k => Do o (λ r, prog_bind f (k r)) end.

(** A program run, the [n]th operation meeting the [n]th fault, no more faults after them:
    its answer, and every state on the way, the first one and the last included. *)
Fixpoint run {A} (p : prog A) (faults : list (option nat)) (s : folder) : A * list folder :=
  match p with
  | Ret a => (a, [s])
  | Do o k =>
      let '(r, s') := fs_step o (default None (head faults)) s in
      let '(a, states) := run (k r) (tail faults) s' in
      (a, s :: states)
  end.

Definition final (states : list folder) (s : folder) : folder := default s (last states).

(** ** The switch *)

(** @ hlb-selfupdate/src/swap.rs:35-46 [SwapError] *)
Inductive SwapError :=
| NotWritable (detail : string)
| NotExecutable (path : string)
| NotABinary (detail : string)
| Io (step detail : string).

(** The binary in service, by its name in its folder.
    @ hlb-selfupdate/src/swap.rs:71-83 [Paths] *)
Record Paths := { current : string }.

(** @ hlb-selfupdate/src/swap.rs:98-106 [Paths::with_suffix] *)
Definition with_suffix (p : Paths) (suffix : string) : string := current p +:+ suffix.
(** @ hlb-selfupdate/src/swap.rs:85-91 [Paths::incoming] *)
Definition incoming (p : Paths) : string := with_suffix p ".new".
(** @ hlb-selfupdate/src/swap.rs:93-96 [Paths::previous] *)
Definition previous (p : Paths) : string := with_suffix p ".previous".

(** [Path::with_extension] on a file's name: what follows its last dot is replaced, unless
    the dot is its first character. *)
Definition with_extension (n ext : string) : string :=
  match rsplit_once "." n with
  | Some (stem, _) => (if str_is_empty stem then n else stem) +:+ "." +:+ ext
  | None => n +:+ "." +:+ ext
  end.

(** The signatures of ELF and Mach-O files.
    @ hlb-selfupdate/src/swap.rs:121-131 [looks_like_binary] *)
Definition known_magic (magic : list N) : bool :=
  bool_decide (magic ∈ [[127; 69; 76; 70]; [207; 250; 237; 254]; [254; 237; 250; 207];
                        [202; 254; 186; 190]]).

(** The words looked for are ASCII, and no other character has one of their letters as its
    lower case: folding the ASCII letters of the bytes finds them the same.
    @ hlb-selfupdate/src/swap.rs:114-148 [looks_like_binary] *)
Definition looks_like_binary (data : list N) : result SwapError () :=
  if decide (length data < 4)%nat then
    Err (NotABinary (show_nat (length data) +:+ " bytes only"))
  else
    let magic := take 4 data in
    if known_magic magic then Ok ()
    else
      let start := to_ascii_lowercase (of_chars (char_of <$> take 16 data)) in
      Err (NotABinary
        (if contains "<!doctype" start || contains "<html" start
         then "an HTML page received instead of the binary"
         else if starts_with "#!" start then "a script, not a native executable"
         else "unknown signature: [" +:+ join ", " ((λ b, of_chars (hex_byte b)) <$> magic) +:+ "]")).

(** [?] on an operation's answer. *)
Definition try_ {A} (o : op) (e : string → SwapError) (k : N → prog (result SwapError A))
    : prog (result SwapError A) :=
  Do o (λ r, match r with Ok n => k n | Err d => Ret (Err (e d)) end).

(** [let _ = ...]: the answer is ignored. *)
Definition ignore {A} (o : op) (k : prog A) : prog A := Do o (λ _, k).

Definition probe : string := ".hlb-write-probe".

(** @ hlb-selfupdate/src/swap.rs:155-175 [preflight] *)
Definition preflight {A} (k : prog (result SwapError A)) : prog (result SwapError A) :=
  try_ (Create probe) NotWritable (λ _, ignore (Remove probe) k).

(** @ hlb-selfupdate/src/swap.rs:253-262 [write_synced] *)
Definition write_synced {A} (path : string) (data : list N) (k : prog (result SwapError A))
    : prog (result SwapError A) :=
  let io := Io "writing the new binary" in
  try_ (Create path) io (λ _, try_ (WriteAll path data) io (λ _, try_ (SyncAll path) io (λ _, k))).

(** @ hlb-selfupdate/src/swap.rs:279-292 [check_executable] *)
Definition check_executable {A} (p : string) (k : prog (result SwapError A))
    : prog (result SwapError A) :=
  try_ (Metadata p) (Io "reading the permissions") (λ m,
    if N.land m 73 =? 0 then Ret (Err (NotExecutable p)) else k).

(** A second name for the binary, or a copy of it.
    @ hlb-selfupdate/src/swap.rs:206-215 [swap] *)
Definition keep_old {A} (p : Paths) (k : prog (result SwapError A)) : prog (result SwapError A) :=
  ignore (Remove (previous p))
    (Do (HardLink (current p) (previous p)) (λ r,
       match r with
       | Ok _ => k
       | Err _ => try_ (Copy (current p) (previous p)) (Io "keeping the old binary") (λ _, k)
       end)).

(** @ hlb-selfupdate/src/swap.rs:264-277 [sync_directory] *)
Definition sync_directory {A} (k : prog A) : prog A := ignore (SyncAll ".") k.

(** @ hlb-selfupdate/src/swap.rs:180-226 [swap] *)
Definition swap (p : Paths) (binary : list N) : prog (result SwapError string) :=
  match looks_like_binary binary with
  | Err e => Ret (Err e)
  | Ok () =>
      preflight
        (write_synced (incoming p) binary
          (try_ (SetMode (incoming p) 493) (Io "setting the execute bit") (λ _,
            check_executable (incoming p)
              (keep_old p
                (try_ (Rename (incoming p) (current p))
                   (Io "putting the new binary in place (old one untouched)") (λ _,
                   sync_directory (Ret (Ok (previous p)))))))))
  end.

(** @ hlb-selfupdate/src/swap.rs:229-251 [rollback] *)
Definition rollback (p : Paths) : prog (result SwapError ()) :=
  Do (Exists (previous p)) (λ there,
    if decide (there = Ok 1) then
      let set_aside := with_extension (current p) "failed" in
      ignore (Remove set_aside)
        (ignore (Rename (current p) set_aside)
          (try_ (Rename (previous p) (current p)) (Io "restoring the old binary")
             (λ _, Ret (Ok ()))))
    else Ret (Err (Io "rollback" (previous p +:+ " is missing - nothing to restore")))).

(** ** Crash safety *)

(** [inv] holds in every state a run goes through, whatever fails, and [post] of its answer
    and its last state. *)
Fixpoint safe {A} (inv : folder → Prop) (post : A → folder → Prop) (p : prog A) (s : folder) : Prop :=
  inv s ∧
  match p with
  | Ret a => post a s
  | Do o k => ∀ fault, let '(r, s') := fs_step o fault s in safe inv post (k r) s'
  end.

Lemma safe_run {A} inv post (p : prog A) faults s a states :
  safe inv post p s → run p faults s = (a, states) →
  (∀ t, t ∈ states → inv t) ∧ ∃ t, last states = Some t ∧ post a t.
Proof.
  revert faults s a states. induction p as [b|o k IH]; intros faults s a states; cbn.
  - intros [Hi Hp] [= <- <-]. split; [|by eauto]. by intros t ->%list_elem_of_singleton.
  - intros [Hi Hs]. specialize (Hs (default None (head faults))).
    destruct (fs_step _ _ _) as [r s']. destruct (run _ _ _) as [a' st] eqn:E. intros [= <- <-].
    destruct (IH _ _ _ _ _ Hs E) as (Hall & t & Hl & Hp). split.
    + intros u [->|Hu]%elem_of_cons; auto.
    + exists t. split; [|done]. destruct st; [done|]. by rewrite last_cons_cons.
Qed.

Lemma safe_try {A} inv post (o : op) e (k : N → prog (result SwapError A)) s :
  inv s →
  (∀ fault r s', fs_step o fault s = (r, s') →
     match r with Ok n => safe inv post (k n) s' | Err d => inv s' ∧ post (Err (e d)) s' end) →
  safe inv post (try_ o e k) s.
Proof.
  intros Hi H. split; [done|]. intros fault.
  specialize (H fault). destruct (fs_step o fault s) as [r s']. specialize (H r s' eq_refl).
  by destruct r.
Qed.

Lemma safe_ignore {A} inv post (o : op) (k : prog A) s :
  inv s → (∀ fault r s', fs_step o fault s = (r, s') → safe inv post k s') →
  safe inv post (ignore o k) s.
Proof.
  intros Hi H. split; [done|]. intros fault. specialize (H fault).
  destruct (fs_step o fault s) as [r s']. by apply (H r s').
Qed.

Section switch.
Context (p : Paths) (c : nat) (old : file) (binary : list N).

(** The binary in service is the file [c], and none of its other names can be written
    through. *)
Record in_service (s : folder) : Prop := {
  sv_name : names s !! current p = Some c;
  sv_file : files s !! c = Some old;
  sv_busy : ∀ n, n ≠ current p → names s !! n = Some c → busy s = Some c }.

(** What a switch starts from: the names are those of files, and the two the switch writes
    are not one file's. *)
Record ready (s : folder) : Prop := {
  rd_service : in_service s;
  rd_files : ∀ n i, names s !! n = Some i → is_Some (files s !! i);
  rd_apart : ∀ i, names s !! incoming p = Some i → names s !! previous p ≠ Some i;
  rd_probe : current p ≠ probe }.

(** The new binary being written: a file of its own, [d]. *)
Record staged (d : nat) (g : file) (s : folder) : Prop := {
  st_service : in_service s;
  st_name : names s !! incoming p = Some d;
  st_other : d ≠ c;
  st_file : files s !! d = Some g;
  st_apart : names s !! previous p ≠ Some d }.

(** The old binary kept: the path still names it, and so does [previous], or a copy. *)
Record kept (d : nat) (g : file) (s : folder) : Prop := {
  kp_name : names s !! current p = Some c;
  kp_file : files s !! c = Some old;
  kp_incoming : names s !! incoming p = Some d;
  kp_other : d ≠ c;
  kp_new : files s !! d = Some g;
  kp_previous : ∃ e h, names s !! previous p = Some e ∧ e ≠ d ∧ files s !! e = Some h ∧
                       content h = content old }.

(** The path names a whole binary: the old one, or the new one, executable. *)
Definition whole (s : folder) : Prop :=
  ∃ g, lookup_file s (current p) = Some g ∧ (g = old ∨ content g = binary ∧ mode g = 493).

(** What the answer of a switch says of the folder. *)
Definition switched (r : result SwapError string) (s : folder) : Prop :=
  match r with
  | Ok path => path = previous p ∧
      (∃ g, lookup_file s (current p) = Some g ∧ content g = binary ∧ mode g = 493) ∧
      (∃ h, lookup_file s (previous p) = Some h ∧ content h = content old)
  | Err _ => lookup_file s (current p) = Some old
  end.

Lemma in_service_lookup s : in_service s → lookup_file s (current p) = Some old.
Proof. intros [Hn Hf _]. unfold lookup_file. by rewrite Hn. Qed.

Lemma in_service_whole s : in_service s → whole s.
Proof. intros H%in_service_lookup. exists old. auto. Qed.

Lemma incoming_current : incoming p ≠ current p.
Proof.
  intros H. apply (f_equal String.length) in H. unfold incoming, with_suffix in H.
  rewrite string_length_append in H. cbn in H. lia.
Qed.

Lemma previous_current : previous p ≠ current p.
Proof.
  intros H. apply (f_equal String.length) in H. unfold previous, with_suffix in H.
  rewrite string_length_append in H. cbn in H. lia.
Qed.

Lemma with_suffix_not s x : strip_suffix s x = None → with_suffix p s ≠ x.
Proof. intros H <-. unfold with_suffix in H. by rewrite strip_suffix_append in H. Qed.

Lemma incoming_previous : incoming p ≠ previous p.
Proof.
  unfold incoming, previous, with_suffix. intros H.
  apply (f_equal String.length) in H. rewrite !string_length_append in H. cbn in H. lia.
Qed.

(** Opening another name than the path's leaves the binary in service alone. *)
Lemma open_other s n i s' :
  in_service s → n ≠ current p → open_empty s n = Some (i, s') →
  in_service s' ∧ i ≠ c ∧ names s' !! n = Some i ∧ (∃ m, files s' !! i = Some {| content := []; mode := m |}) ∧
  (∀ x, x ≠ n → names s' !! x = names s !! x) ∧ (∀ j, j ≠ i → files s' !! j = files s !! j) ∧
  (names s !! n = None → files s !! i = None) ∧ (∀ j, names s !! n = Some j → i = j).
Proof.
  intros [Hn Hf Hb] Hne. unfold open_empty. destruct (names s !! n) as [j|] eqn:E.
  - case_decide as Hbusy; [done|]. intros [= <- <-].
    assert (j ≠ c) by (intros ->; by apply Hbusy, (Hb n)).
    cbn. repeat split; cbn; eauto; try (eexists; by simplify_map_eq); intros; by simplify_map_eq.
  - intros [= <- <-]. pose proof (is_fresh (dom (files s))) as Hfresh.
    rewrite not_elem_of_dom in Hfresh. set (i := fresh _) in *.
    assert (i ≠ c) by congruence.
    cbn. repeat split; cbn; eauto; try (eexists; by simplify_map_eq); intros; try by simplify_map_eq.
    destruct (decide (n0 = n)); simplify_map_eq; eauto.
Qed.

Lemma set_file_service s i f : in_service s → i ≠ c → in_service (set_file s i f).
Proof. intros [Hn Hf Hb] Hi. split; cbn; [done|by simplify_map_eq|done]. Qed.

Lemma remove_service s n :
  in_service s → n ≠ current p → in_service (set_names s (delete n (names s))).
Proof.
  intros [Hn Hf Hb] Hne. split; cbn; [by simplify_map_eq|done|].
  intros m Hm Hl. apply (Hb m Hm). by apply lookup_delete_Some in Hl as [_ ?].
Qed.

Lemma probe_names s :
  ready s → probe ≠ current p ∧ probe ≠ incoming p ∧ probe ≠ previous p.
Proof.
  intros Hr. split_and!.
  - intros H. by apply (rd_probe s Hr).
  - intros H. symmetry in H. revert H. by apply with_suffix_not.
  - intros H. symmetry in H. revert H. by apply with_suffix_not.
Qed.

Lemma ready_create_probe s fault : ready s → ready (fs_step (Create probe) fault s).2.
Proof.
  intros Hr. destruct (probe_names s Hr) as (Hc & Hi & Hp).
  cbn. destruct fault; [done|]. destruct (open_empty s probe) as [[i s']|] eqn:E; [|done]. cbn.
  destruct Hr as [Hs Hf Ha Hpr].
  destruct (open_other _ _ _ _ Hs (not_eq_sym (not_eq_sym Hc)) E)
    as (Hs' & _ & Hi' & (m & Hm) & Hnames & Hfiles & _).
  split; [done| | |done].
  - intros x j Hn. destruct (decide (j = i)) as [->|Hj]; [by eexists|]. rewrite (Hfiles j) by done.
    destruct (decide (x = probe)) as [->|Hne]; [congruence|].
    rewrite Hnames in Hn by done. by eapply Hf.
  - intros j. rewrite !Hnames by done. apply Ha.
Qed.

Lemma ready_remove_probe s fault : ready s → ready (fs_step (Remove probe) fault s).2.
Proof.
  intros Hr. destruct (probe_names s Hr) as (Hc & Hi & Hp).
  cbn. destruct fault; [done|]. destruct (names s !! probe) eqn:E; [|done]. cbn.
  destruct Hr as [Hs Hf Ha Hpr]. split; [by apply remove_service| | |done]; cbn.
  - intros x i [_ Hn]%lookup_delete_Some. by eapply Hf.
  - intros i. rewrite !lookup_delete_ne by done. apply Ha.
Qed.

Lemma stage_create s fault r s' :
  ready s → fs_step (Create (incoming p)) fault s = (r, s') →
  in_service s' ∧ (∀ n, r = Ok n → ∃ d m, staged d {| content := []; mode := m |} s').
Proof.
  intros [Hs Hf Ha _]. cbn. destruct fault; [intros [= <- <-]; done|].
  destruct (open_empty s (incoming p)) as [[d t]|] eqn:E; [|intros [= <- <-]; done].
  intros [= <- <-].
  destruct (open_other _ _ _ _ Hs incoming_current E)
    as (Hs' & Hd & Hi & (m & Hm) & Hnames & _ & Hnew & Hold).
  split; [done|]. intros _ _. exists d, m. split; try done.
  rewrite Hnames by (apply not_eq_sym, incoming_previous).
  destruct (names s !! incoming p) as [j|] eqn:Ej.
  - rewrite (Hold j eq_refl). by apply Ha.
  - intros Hp. destruct (Hf _ _ Hp) as [f Hfd]. by rewrite Hnew in Hfd.
Qed.

Lemma staged_set s d g h : staged d g s → staged d h (set_file s d h).
Proof.
  intros [Hs Hn Hd Hf Ha]. split; cbn; try done; [by apply set_file_service|by simplify_map_eq].
Qed.

Lemma stage_write s d g data fault r s' :
  staged d g s → fs_step (WriteAll (incoming p) data) fault s = (r, s') →
  in_service s' ∧ (∀ n, r = Ok n → staged d {| content := content g ++ data; mode := mode g |} s').
Proof.
  intros Hst. cbn. rewrite (st_name _ _ _ Hst), (st_file _ _ _ Hst). cbn. intros [= <- <-].
  destruct fault; cbn; (split; [by eapply st_service, staged_set|]); [done|].
  intros _ _. by eapply staged_set.
Qed.

Lemma stage_mode s d g m fault r s' :
  staged d g s → fs_step (SetMode (incoming p) m) fault s = (r, s') →
  in_service s' ∧ (∀ n, r = Ok n → staged d {| content := content g; mode := m |} s').
Proof.
  intros Hst. cbn. rewrite (st_name _ _ _ Hst). cbn. rewrite (st_file _ _ _ Hst). cbn.
  destruct fault; intros [= <- <-]; [by split; [eapply st_service|]|].
  split; [by eapply st_service, staged_set|]. intros _ _. by eapply staged_set.
Qed.

Lemma stage_remove s d g fault r s' :
  staged d g s → fs_step (Remove (previous p)) fault s = (r, s') → staged d g s'.
Proof.
  intros Hst. cbn. destruct fault; [by intros [= <- <-]|].
  destruct (names s !! previous p); [|by intros [= <- <-]]. intros [= <- <-].
  destruct Hst as [Hs Hn Hd Hf Ha]. split; cbn; try done.
  - apply remove_service; [done|]. apply previous_current.
  - rewrite lookup_delete_ne; [done|]. apply not_eq_sym, incoming_previous.
  - by simplify_map_eq.
Qed.

Lemma stage_link s d g fault r s' :
  staged d g s → fs_step (HardLink (current p) (previous p)) fault s = (r, s') →
  match r with Ok _ => kept d g s' | Err _ => s' = s end.
Proof.
  intros [[Hc Hcf Hb] Hn Hd Hf Ha]. cbn. rewrite Hc. destruct fault; [by intros [= <- <-]|].
  destruct (names s !! previous p); [by intros [= <- <-]|]. intros [= <- <-].
  pose proof previous_current. pose proof incoming_previous.
  split; cbn; try by simplify_map_eq.
  exists c, old. by simplify_map_eq.
Qed.

Lemma stage_copy s d g fault r s' :
  staged d g s → fs_step (Copy (current p) (previous p)) fault s = (r, s') →
  match r with Ok _ => kept d g s' | Err _ => in_service s' end.
Proof.
  intros Hst. pose proof Hst as [Hs Hn Hd Hf Ha]. cbn. rewrite (in_service_lookup s Hs).
  destruct (open_empty s (previous p)) as [[j t]|] eqn:E; [|by intros [= <- <-]].
  destruct (open_other _ _ _ _ Hs previous_current E)
    as (Hs' & Hj & Hpj & (m & Hm) & Hnames & Hfiles & Hnew & Hold).
  rewrite (in_service_lookup t Hs'). cbn [default from_option id].
  assert (j ≠ d) as Hjd.
  { intros ->. destruct (names s !! previous p) as [i|] eqn:Ei.
    - by rewrite (Hold i eq_refl) in Ha.
    - rewrite Hnew in Hf; done. }
  destruct fault as [k|]; intros [= <- <-]; [by apply set_file_service|].
  destruct Hs' as [Hc' Hcf' Hb']. split; cbn; try done.
  - by simplify_map_eq.
  - rewrite Hnames by apply incoming_previous. done.
  - rewrite lookup_insert_ne by done. by rewrite Hfiles by done.
  - exists j, {| content := content old; mode := mode old |}. by simplify_map_eq.
Qed.

Lemma kept_whole s d g : kept d g s → lookup_file s (current p) = Some old.
Proof. intros [Hc Hf _ _ _ _]. unfold lookup_file. by rewrite Hc. Qed.

Lemma stage_rename s d g fault r s' :
  kept d g s → content g = binary → mode g = 493 →
  fs_step (Rename (incoming p) (current p)) fault s = (r, s') →
  match r with Ok _ => switched (Ok (previous p)) s' | Err _ => s' = s end.
Proof.
  intros [Hc Hcf Hi Hd Hdf (e & h & He & Hed & Hh & Hcont)] Hb Hm. cbn.
  destruct fault; [by intros [= <- <-]|]. rewrite Hi. rewrite decide_False by congruence.
  intros [= <- <-]. cbn. pose proof previous_current. pose proof incoming_previous.
  split; [done|]. unfold lookup_file. cbn. split.
  - exists g. by simplify_map_eq.
  - exists h. rewrite lookup_insert_ne, lookup_delete_ne by done. by rewrite He.
Qed.

(** While it holds the binary in service, a state is sound and a refusal says the truth. *)
Lemma refused s e : in_service s → whole s ∧ switched (Err e) s.
Proof. intros Hs. split; [by apply in_service_whole|by apply in_service_lookup]. Qed.

Lemma staged_whole s d g : staged d g s → whole s.
Proof. intros Hst. by eapply in_service_whole, st_service. Qed.

Lemma rename_safe s d g :
  kept d g s → content g = binary → mode g = 493 →
  safe whole switched
    (try_ (Rename (incoming p) (current p))
       (Io "putting the new binary in place (old one untouched)")
       (λ _, sync_directory (Ret (Ok (previous p))))) s.
Proof.
  intros Hk Hb Hm.
  assert (whole s) as Hw by (exists old; split; [by eapply kept_whole|by left]).
  apply safe_try; [done|]. intros fault r s' Hstep.
  pose proof (stage_rename _ _ _ _ _ _ Hk Hb Hm Hstep) as Hr.
  destruct r as [n|e]; [|subst; split; [done|]; by eapply kept_whole].
  assert (whole s') as Hw' by (destruct Hr as (_ & (f & Hf & ?) & _); exists f; auto).
  apply safe_ignore; [done|]. intros fault' r' s'' [= _ <-]. by split.
Qed.

Lemma keep_old_safe s d g k :
  staged d g s → (∀ t, kept d g t → safe whole switched k t) →
  safe whole switched (keep_old p k) s.
Proof.
  intros Hst Hk. apply safe_ignore; [by eapply staged_whole|].
  intros fault r s1 Hrm. apply (stage_remove _ _ _ _ _ _ Hst) in Hrm as Hst1.
  split; [by eapply staged_whole|]. intros fault1.
  destruct (fs_step (HardLink _ _) fault1 s1) as [r1 s2] eqn:E.
  pose proof (stage_link _ _ _ _ _ _ Hst1 E) as Hl. destruct r1 as [n|e]; [by apply Hk|subst].
  apply safe_try; [by eapply staged_whole|]. intros fault2 r2 s3 Hc.
  pose proof (stage_copy _ _ _ _ _ _ Hst1 Hc) as Hcp.
  destruct r2; [by apply Hk|by apply refused].
Qed.

Lemma swap_safe s : ready s → safe whole switched (swap p binary) s.
Proof.
  intros Hr. unfold swap.
  pose proof (refused s) as Hrefused. pose proof (rd_service s Hr) as Hs.
  destruct (looks_like_binary binary) as [[]|e]; [|by apply Hrefused].
  apply safe_try; [by apply in_service_whole|]. intros f1 r1 s1 H1.
  pose proof (ready_create_probe s f1 Hr) as Hr1. rewrite H1 in Hr1. cbn in Hr1.
  destruct r1; [|by apply refused, rd_service].
  apply safe_ignore; [by apply in_service_whole, rd_service|]. intros f2 r2 s2 H2.
  pose proof (ready_remove_probe s1 f2 Hr1) as Hr2. rewrite H2 in Hr2. cbn in Hr2.
  apply safe_try; [by apply in_service_whole, rd_service|]. intros f3 r3 s3 H3.
  destruct (stage_create _ _ _ _ Hr2 H3) as [Hs3 Hst3].
  destruct r3 as [n3|]; [|by apply refused]. destruct (Hst3 n3 eq_refl) as (d & m & Hd3).
  apply safe_try; [by apply in_service_whole|]. intros f4 r4 s4 H4.
  destruct (stage_write _ _ _ _ _ _ _ Hd3 H4) as [Hs4 Hst4].
  destruct r4 as [n4|]; [|by apply refused]. pose proof (Hst4 n4 eq_refl) as Hd4. cbn in Hd4.
  apply safe_try; [by apply in_service_whole|]. intros f5 r5 s5 [= Hr5 <-].
  destruct r5 as [n5|]; [|by apply refused].
  apply safe_try; [by apply in_service_whole|]. intros f6 r6 s6 H6.
  destruct (stage_mode _ _ _ _ _ _ _ Hd4 H6) as [Hs6 Hst6].
  destruct r6 as [n6|]; [|by apply refused]. pose proof (Hst6 n6 eq_refl) as Hd6. cbn in Hd6.
  apply safe_try; [by apply in_service_whole|]. intros f7 r7 s7 H7.
  assert (s7 = s6) as -> by (cbn in H7; repeat case_match; congruence).
  destruct r7 as [n7|]; [|by apply refused].
  destruct (_ =? 0); [by apply refused|].
  eapply keep_old_safe; [done|]. intros t Ht. by eapply rename_safe.
Qed.

End switch.

(** C5. A switch interrupted anywhere, any of its operations failing or cut short, leaves at
    the path a whole binary: the old one, or the new one with its execute bits. When it
    succeeds the path names the new one and [previous] a file with the old one's content;
    when it fails the path still names the old one. *)
Theorem swap_crash_safe p c old binary s faults r states :
  ready p c old s → run (swap p binary) faults s = (r, states) →
  (∀ t, t ∈ states → whole p old binary t) ∧
  ∃ t, last states = Some t ∧ switched p old binary r t.
Proof. intros Hr. apply safe_run. by eapply swap_safe. Qed.

(** ** What a switch without faults does *)

Lemma run_try {A} (o : op) e (k : N → prog (result SwapError A)) s n s' :
  fs_step o None s = (Ok n, s') → (run (try_ o e k) [] s).1 = (run (k n) [] s').1.
Proof. intros H. cbn. rewrite H. by destruct (run (k n) [] s'). Qed.

Lemma run_ignore {A} (o : op) (k : prog A) s :
  (run (ignore o k) [] s).1 = (run k [] (fs_step o None s).2).1.
Proof. cbn. destruct (fs_step o None s) as [r s']. cbn. by destruct (run k [] s'). Qed.

Lemma create_works s n : names s !! n = None → ∃ s', fs_step (Create n) None s = (Ok 0, s').
Proof. intros H. cbn. unfold open_empty. rewrite H. by eexists. Qed.

Lemma run_keep_old p c old d g s k :
  staged p c old d g s →
  (∀ t, kept p c old d g t → (run k [] t).1 = Ok (previous p)) →
  (run (keep_old p k) [] s).1 = Ok (previous p).
Proof.
  intros Hst Hk. unfold keep_old. rewrite run_ignore.
  destruct (fs_step (Remove (previous p)) None s) as [r s1] eqn:E.
  pose proof (stage_remove _ _ _ _ _ _ _ _ _ Hst E) as Hst1. cbn [snd].
  assert (names s1 !! previous p = None) as Hp.
  { cbn in E. destruct (names s !! previous p) eqn:Ep; injection E as <- <-; [|done].
    cbn. by simplify_map_eq. }
  cbn [run]. destruct (fs_step (HardLink (current p) (previous p)) (default None (head [])) s1)
    as [r2 s2] eqn:E2.
  pose proof (stage_link _ _ _ _ _ _ _ _ _ Hst1 E2) as Hl.
  cbn in E2. rewrite (sv_name _ _ _ _ (st_service _ _ _ _ _ _ Hst1)), Hp in E2.
  injection E2 as <- <-. cbn [tail]. specialize (Hk _ Hl).
  by destruct (run k [] _).
Qed.

(** Nothing in the way, a switch succeeds: the file looks like a binary, its two working
    names are free and no operation fails. *)
Lemma swap_succeeds p c old binary s :
  ready p c old s → looks_like_binary binary = Ok () →
  names s !! probe = None → names s !! incoming p = None →
  (run (swap p binary) [] s).1 = Ok (previous p).
Proof.
  intros Hr Hb Hprobe Hinc. unfold swap. rewrite Hb.
  destruct (probe_names _ _ _ s Hr) as (_ & Hpi & _).
  destruct (create_works s probe Hprobe) as [s1 E1]. unfold preflight.
  rewrite (run_try _ _ _ _ _ _ E1), run_ignore.
  pose proof (ready_create_probe _ _ _ s None Hr) as Hr1. rewrite E1 in Hr1. cbn [snd] in Hr1.
  pose proof (ready_remove_probe _ _ _ s1 None Hr1) as Hr2.
  assert (names (fs_step (Remove probe) None s1).2 !! incoming p = None) as Hi2.
  { cbn in E1. unfold open_empty in E1. rewrite Hprobe in E1. injection E1 as <-.
    cbn. simplify_map_eq. cbn. by simplify_map_eq. }
  set (s2 := (fs_step (Remove probe) None s1).2) in *.
  destruct (create_works s2 (incoming p) Hi2) as [s3 E3].
  unfold write_synced. rewrite (run_try _ _ _ _ _ _ E3).
  destruct (stage_create _ _ _ _ _ _ _ Hr2 E3) as [_ H3].
  destruct (H3 0 eq_refl) as (d & m & Hd3).
  destruct (fs_step (WriteAll (incoming p) binary) None s3) as [r4 s4] eqn:E4.
  destruct (stage_write _ _ _ _ _ _ _ _ _ _ Hd3 E4) as [_ H4].
  assert (r4 = Ok 0) as -> by (cbn in E4; rewrite (st_name _ _ _ _ _ _ Hd3) in E4; congruence).
  specialize (H4 0 eq_refl). rewrite (run_try _ _ _ _ _ _ E4), (run_try (SyncAll (incoming p)) _ _ s4 0 s4 eq_refl).
  destruct (fs_step (SetMode (incoming p) 493) None s4) as [r6 s6] eqn:E6.
  destruct (stage_mode _ _ _ _ _ _ _ _ _ _ H4 E6) as [_ H6].
  assert (r6 = Ok 0) as ->.
  { cbn in E6. rewrite (st_name _ _ _ _ _ _ H4) in E6. cbn in E6.
    rewrite (st_file _ _ _ _ _ _ H4) in E6. cbn in E6. congruence. }
  specialize (H6 0 eq_refl). rewrite (run_try _ _ _ _ _ _ E6). cbn in H6.
  unfold check_executable. rewrite (run_try _ _ _ s6 493 s6).
  2: { cbn. unfold lookup_file. rewrite (st_name _ _ _ _ _ _ H6). cbn.
       by rewrite (st_file _ _ _ _ _ _ H6). }
  change (N.land 493 73 =? 0) with false. cbv iota.
  eapply run_keep_old; [done|]. intros t Ht.
  destruct (fs_step (Rename (incoming p) (current p)) None t) as [r8 s8] eqn:E8.
  assert (r8 = Ok 0) as ->.
  { cbn in E8. rewrite (kp_incoming _ _ _ _ _ _ Ht) in E8. case_decide; congruence. }
  rewrite (run_try _ _ _ _ _ _ E8). reflexivity.
Qed.

(** ** Going back *)

Section going_back.
Context (p : Paths) (cur prev : nat) (s : folder).
Let set_aside := with_extension (current p) "failed".
Hypothesis (Hcur : names s !! current p = Some cur) (Hprev : names s !! previous p = Some prev)
  (Haside : set_aside ≠ current p) (Haside' : set_aside ≠ previous p).

(** The folder once the binary in service is set aside, and once the old one is back. *)
Definition aside_names : gmap string nat :=
  <[set_aside := cur]> (delete (current p) (delete set_aside (names s))).
Definition back_names : gmap string nat :=
  <[current p := prev]> (delete (previous p) aside_names).

Lemma rollback_run :
  ∃ s1, run (rollback p) [] s =
    (Ok (), [s; s; s1; set_names s aside_names; set_names s back_names]).
Proof.
  unfold rollback. cbn. rewrite Hprev. rewrite decide_True by done. cbn.
  fold set_aside. pose proof previous_current p as Hpc.
  assert (∀ m, m = names s ∨ m = delete set_aside (names s) →
    m !! current p = Some cur ∧ <[set_aside := cur]> (delete (current p) m) = aside_names) as Hm.
  { unfold aside_names. intros m [->| ->].
    - split; [done|]. apply map_eq. intros n.
      destruct (decide (n = set_aside)) as [->|]; [by rewrite !lookup_insert_eq|].
      destruct (decide (n = current p)) as [->|]; by simplify_map_eq.
    - by simplify_map_eq. }
  assert (∀ m, m = delete set_aside (names s) ∨ (m = names s ∧ names s !! set_aside = None) →
    m !! set_aside = None) as Hn by (intros m [->|[-> ?]]; by simplify_map_eq).
  assert (aside_names !! current p = None ∧ aside_names !! previous p = Some prev) as [Hac Hap].
  { unfold aside_names. split; by simplify_map_eq. }
  destruct (names s !! set_aside) as [x|] eqn:Ex; cbn.
  - destruct (Hm (delete set_aside (names s)) (or_intror eq_refl)) as [-> ->].
    rewrite (Hn _ (or_introl eq_refl)). rewrite decide_False by done. cbn. rewrite Hap.
    rewrite Hac. rewrite decide_False by done. cbn. by eexists.
  - destruct (Hm (names s) (or_introl eq_refl)) as [-> ->].
    rewrite Ex. rewrite decide_False by done. cbn. rewrite Hap, Hac.
    rewrite decide_False by done. cbn. by eexists.
Qed.

Lemma back_lookup :
  lookup_file (set_names s back_names) (current p) = files s !! prev ∧
  lookup_file (set_names s back_names) set_aside = files s !! cur.
Proof.
  pose proof previous_current p. unfold lookup_file, back_names, aside_names. cbn.
  split; by simplify_map_eq.
Qed.

Lemma aside_lookup : lookup_file (set_names s aside_names) (current p) = None.
Proof. unfold lookup_file, aside_names. cbn. by simplify_map_eq. Qed.

End going_back.

Lemma aside_previous p : with_extension (current p) "failed" ≠ previous p.
Proof.
  intros H. assert (∃ x, with_extension (current p) "failed" = (x +:+ ".faile") +:+ "d") as [x Hx].
  { unfold with_extension. destruct (rsplit_once _ _) as [[a b]|]; [case_match|];
      eexists; by rewrite append_assoc. }
  rewrite Hx in H. unfold previous, with_suffix in H.
  change ".previous" with (".previou" +:+ "s") in H. rewrite <- append_assoc in H.
  apply (f_equal split_last) in H. by rewrite !split_last_append in H.
Qed.

(** Nothing in the way, a switch succeeds, and going back after it puts the old binary's
    content back at the path, the version it leaves kept beside it. *)
Theorem rollback_undoes_swap p c old binary s :
  ready p c old s → looks_like_binary binary = Ok () →
  names s !! probe = None → names s !! incoming p = None →
  with_extension (current p) "failed" ≠ current p →
  ∃ states states' t u,
    run (swap p binary) [] s = (Ok (previous p), states) ∧ last states = Some t ∧
    run (rollback p) [] t = (Ok (), states') ∧ last states' = Some u ∧
    (∃ h, lookup_file u (current p) = Some h ∧ content h = content old) ∧
    (∃ g, lookup_file u (with_extension (current p) "failed") = Some g ∧ content g = binary).
Proof.
  intros Hr Hb Hp Hi Ha.
  pose proof (swap_succeeds _ _ _ _ _ Hr Hb Hp Hi) as Hok.
  destruct (run (swap p binary) [] s) as [r states] eqn:E. cbn in Hok. subst r.
  destruct (safe_run _ _ _ _ _ _ _ (swap_safe p c old binary s Hr) E)
    as (_ & t & Ht & _ & (g & Hg & Hgb & _) & (h & Hh & Hhc)).
  unfold lookup_file in Hg, Hh.
  destruct (names t !! current p) as [i|] eqn:Ei; [|done].
  destruct (names t !! previous p) as [j|] eqn:Ej; [|done]. cbn in Hg, Hh.
  destruct (rollback_run p i j t Ei Ej Ha (aside_previous p)) as [s1 Hrun].
  destruct (back_lookup p i j t Ha (aside_previous p)) as [Hc Hf].
  eexists states, _, t, _. split; [done|]. split; [done|]. split; [exact Hrun|].
  split; [reflexivity|]. split; [exists h|exists g]; by rewrite ?Hc, ?Hf.
Qed.

(** *** A concrete folder *)

Definition usr_bin : Paths := {| current := "hlb" |}.
Definition example_old : file := {| content := [127; 69; 76; 70; 1]; mode := 493 |}.
Definition example_new : list N := [127; 69; 76; 70; 2].
Definition example_folder : folder :=
  {| names := {[ "hlb" := 7%nat ]}; files := {[ 7%nat := example_old ]}; busy := Some 7%nat |}.

Lemma example_ready : ready usr_bin 7%nat example_old example_folder.
Proof.
  split; [split| | |done]; cbn; try reflexivity.
  - intros n i Hn. apply lookup_singleton_Some in Hn as [_ <-]. by eexists.
  - intros i Hn. by apply lookup_singleton_Some in Hn as [? _].
Qed.

(** The rename that puts the new binary in place fails. *)
Lemma swap_crash_safe_witness :
  ∃ states, run (swap usr_bin example_new) (replicate 9 None ++ [Some 0%nat]) example_folder =
    (Err (Io "putting the new binary in place (old one untouched)" "rename"), states) ∧
  ∃ t, last states = Some t ∧ lookup_file t "hlb" = Some example_old.
Proof.
  destruct (run (swap usr_bin example_new) (replicate 9 None ++ [Some 0%nat]) example_folder)
    as [r states] eqn:E.
  destruct (swap_crash_safe usr_bin 7%nat example_old example_new example_folder _ _ _
              example_ready E) as (_ & t & Ht & Hs).
  assert (r = Err (Io "putting the new binary in place (old one untouched)" "rename")) as ->.
  { apply (f_equal fst) in E. cbn [fst] in E. rewrite <- E. vm_compute. reflexivity. }
  exists states. split; [done|]. exists t. split; [exact Ht|exact Hs].
Defined.

Lemma rollback_undoes_swap_witness :
  ∃ states states' t u,
    run (swap usr_bin example_new) [] example_folder = (Ok "hlb.previous", states) ∧
    last states = Some t ∧ run (rollback usr_bin) [] t = (Ok (), states') ∧ last states' = Some u ∧
    (∃ h, lookup_file u "hlb" = Some h ∧ content h = content example_old) ∧
    (∃ g, lookup_file u "hlb.failed" = Some g ∧ content g = example_new).
Proof.
  apply (rollback_undoes_swap usr_bin 7%nat example_old example_new example_folder);
    [exact example_ready|reflexivity..|discriminate].
Defined.

(** Going back renames the binary in service aside before the old one takes its place: even
    when nothing fails, a state on the way has no binary at the path, and when the second
    rename fails there is none after it. *)
Lemma rollback_leaves_a_gap :
  let t := {| names := {[ "hlb" := 1%nat; "hlb.previous" := 2%nat ]};
              files := {[ 1%nat := example_old; 2%nat := example_old ]}; busy := Some 1%nat |} in
  (∃ u, u ∈ (run (rollback usr_bin) [] t).2 ∧ lookup_file u "hlb" = None) ∧
  (run (rollback usr_bin) [None; None; None; Some 0%nat] t).1 =
    Err (Io "restoring the old binary" "rename") ∧
  ∀ u, last (run (rollback usr_bin) [None; None; None; Some 0%nat] t).2 = Some u →
       lookup_file u "hlb" = None.
Proof.
  intros t. split; [|split; [by vm_compute|]].
  - destruct (rollback_run usr_bin 1%nat 2%nat t) as [s1 Hrun]; try done.
    exists (set_names t (aside_names usr_bin 1%nat t)). rewrite Hrun. split; [set_solver|].
    by apply aside_lookup.
  - intros u. vm_compute. by intros [= <-].
Qed.
