(* ===== verification/Swarm.v ===== *)
(** * The cluster: nodes, failure domains, quorum, maintenance, tasks

    [crates/hlb-types/src/swarm.rs], and what a service's status concludes
    ([crates/hlb-orchestrator/src/lib.rs]). *)

From S2P Require Import Prelude RustStr Manifest.

(** ** Nodes *)

(** @ hlb-types/src/swarm.rs:13-20 [NodeRole] *)
Inductive NodeRole := Manager | Worker.
#[export] Instance NodeRole_eq_dec : EqDecision NodeRole.
Proof. solve_decision. Defined.

(** @ hlb-types/src/swarm.rs:22-29 [NodeRole::as_str] *)
Definition role_as_str (r : NodeRole) : string :=
  match r with Manager => "manager" | Worker => "worker" end.

(** @ hlb-types/src/swarm.rs:31-68 [NodeInfo] *)
Record NodeInfo := {
  n_id : string; n_hostname : string; n_role : NodeRole; n_status : string;
  n_availability : string; n_tier : option string; n_protection : option string;
  n_disk_tangs : list string; n_is_leader : bool; n_memory_mb : option N;
  n_failure_domain : option string; n_data : list string; n_ingress : bool;
  n_addr : option string }.

(** @ hlb-types/src/swarm.rs:70-74 [NodeInfo::is_ready] *)
Definition is_ready (n : NodeInfo) : bool :=
  to_ascii_lowercase (n_status n) ==? to_ascii_lowercase "ready".

(** ** Failure domains *)

(** @ hlb-types/src/swarm.rs:84-91 [FailureDomain] *)
Record FailureDomain := { fd_name : option string; fd_nodes : list string }.

(** @ hlb-types/src/swarm.rs:93-99 [FailureDomain::concentrated] *)
Definition concentrated (d : FailureDomain) (total_nodes : nat) : bool :=
  (1 <? total_nodes)%nat && (total_nodes <? length (fd_nodes d) * 2)%nat.

(** One node filed: under its domain, or among the unknowns.
    @ hlb-types/src/swarm.rs:110-115 [group_by_domain] *)
Definition file_node (acc : gmap string (list string) * list string) (n : NodeInfo)
    : gmap string (list string) * list string :=
  let '(known, unknowns) := acc in
  match n_failure_domain n with
  | Some d => (<[d := default [] (known !! d) ++ [n_id n]]> known, unknowns)
  | None => (known, unknowns ++ [n_id n])
  end.

(** Most concentrated first.
    @ hlb-types/src/swarm.rs:126-131 [group_by_domain] *)
Definition domain_cmp (a b : FailureDomain) : comparison :=
  then_with (Nat.compare (length (fd_nodes b)) (length (fd_nodes a)))
    (option_cmp String.compare (fd_name a) (fd_name b)).

(** @ hlb-types/src/swarm.rs:101-140 [group_by_domain] *)
Definition group_by_domain (nodes : list NodeInfo) : list FailureDomain :=
  let '(known, unknowns) := foldl file_node (∅, []) nodes in
  let out := (λ '(name, ids), {| fd_name := Some name; fd_nodes := ids |}) <$> btree_entries known in
  sort_by domain_cmp out ++
  (if decide (unknowns = []) then [] else [{| fd_name := None; fd_nodes := unknowns |}]).

(** @ hlb-types/src/swarm.rs:142-152 [Violation] *)
Record Violation := {
  v_service : string; v_domain : option string; v_replicas : nat; v_total : nat }.

(** @ hlb-types/src/swarm.rs:154-160 [Violation::total_violation] *)
Definition total_violation (v : Violation) : bool :=
  (v_replicas v =? v_total v)%nat && (1 <? v_total v)%nat.

(** @ hlb-types/src/swarm.rs:162-180 [Violation::describe] *)
Definition violation_describe (v : Violation) : string :=
  let where_ :=
    match v_domain v with
    | Some d => "domain " +:+ quoted_str d
    | None => "nodes with no declared failure domain"
    end in
  if total_violation v then
    v_service v +:+ ": all " +:+ show_nat (v_total v) +:+ " of its replicas are on " +:+ where_
      +:+ ": the redundancy is an illusion"
  else
    v_service v +:+ ": " +:+ show_nat (v_replicas v) +:+ " of its " +:+ show_nat (v_total v)
      +:+ " replicas share " +:+ where_.

(** The domain each node declares, by id: a later node takes its id's place.
    @ hlb-types/src/swarm.rs:190-193 [anti_affinity_violations] *)
Definition domain_of (nodes : list NodeInfo) : gmap string (option string) :=
  foldl (λ m n, <[n_id n := n_failure_domain n]> m) ∅ nodes.

(** @ hlb-types/src/swarm.rs:196-207 [anti_affinity_violations] *)
Definition count_placement (domains : gmap string (option string))
    (par_service : gmap string (gmap (option string) nat)) (placement : string * string)
    : gmap string (gmap (option string) nat) :=
  let '(service, node) := placement in
  let d := default None (domains !! node) in
  let counts := default ∅ (par_service !! service) in
  <[service := <[d := S (default 0 (counts !! d))]> counts]> par_service.

(** The counts of a service in the order of their domains, none declared first. *)
Definition domain_entries (counts : gmap (option string) nat) : list (option string * nat) :=
  omap (λ d, (d,.) <$> counts !! d)
    (None :: (Some <$> btree_elems (set_omap id (dom counts)))).

(** @ hlb-types/src/swarm.rs:210-227 [anti_affinity_violations] *)
Definition violations_of (service : string) (counts : gmap (option string) nat)
    : list Violation :=
  let total := sum_list (domain_entries counts).*2 in
  if (total <? 2)%nat then []
  else omap (λ '(domain, n),
         if (1 <? n)%nat
         then Some {| v_service := service; v_domain := domain; v_replicas := n; v_total := total |}
         else None) (domain_entries counts).

(** Total violations first: those are the ones that lie the most.
    @ hlb-types/src/swarm.rs:230-235 [anti_affinity_violations] *)
Definition violation_cmp (a b : Violation) : comparison :=
  then_with (bool_cmp (total_violation b) (total_violation a))
    (then_with (Nat.compare (v_replicas b) (v_replicas a))
       (String.compare (v_service a) (v_service b))).

(** @ hlb-types/src/swarm.rs:183-237 [anti_affinity_violations] *)
Definition anti_affinity_violations (placements : list (string * string)) (nodes : list NodeInfo)
    : list Violation :=
  let par_service := foldl (count_placement (domain_of nodes)) ∅ placements in
  sort_by violation_cmp
    (mjoin ((λ '(service, counts), violations_of service counts) <$> btree_entries par_service)).

(** ** Where a service's data lives *)

(** @ hlb-types/src/swarm.rs:276-278 [is_true] *)
Definition is_true_label (v : option string) : bool :=
  if v is Some v then v ==? "true" else false.

(** @ hlb-types/src/swarm.rs:280-288 [Candidate] *)
Record Candidate := {
  cd_id : string; cd_hostname : string; cd_available : bool; cd_labels : gmap string string }.

(** @ hlb-types/src/swarm.rs:306-317 [data_node] *)
Definition meets (constraints : list string) (n : Candidate) : bool :=
  all_of (λ c,
    match find_str "==" c with
    | Some (key, want) =>
        match strip_prefix "node.labels." (trim key) with
        | Some l => (cd_labels n !! l) ==? Some (trim want)
        | None =>
            if trim key ==? "node.hostname" then cd_hostname n ==? trim want else true
        end
    | None => true
    end) constraints.

(** @ hlb-types/src/swarm.rs:318-319 [data_node] *)
Definition fit_nodes (nodes : list Candidate) (constraints : list string) : list Candidate :=
  sort_by (λ a b, String.compare (cd_hostname a) (cd_hostname b))
    (keep (λ n, cd_available n && meets constraints n) nodes).

(** @ hlb-types/src/swarm.rs:290-330 [data_node] *)
Definition data_node (service : string) (nodes : list Candidate) (constraints : list string)
    : result string string :=
  let label := data_label service in
  match find_first (λ n, is_true_label (cd_labels n !! label)) nodes with
  | Some n => Ok (cd_id n)
  | None =>
      ok_or ("no available node meets " +:+
             (if decide (constraints = []) then "nothing" else join " and " constraints) +:+
             " for " +:+ quoted_str service +:+
             ", which keeps its data on the node it runs on")
        (cd_id <$> head (fit_nodes nodes constraints))
  end.

(** @ hlb-types/src/swarm.rs:332-337 [HEAVY_TIER_MIN_MB] *)
Definition HEAVY_TIER_MIN_MB : N := 7168.

(** @ hlb-types/src/swarm.rs:339-345 [tier_for_memory] *)
Definition tier_for_memory (memory_mb : N) : string :=
  if (HEAVY_TIER_MIN_MB <=? memory_mb)%N then "heavy" else "light".

(** ** The quorum *)

(** @ hlb-types/src/swarm.rs:347-360 [QuorumHealth] *)
Inductive QuorumHealth :=
| Solo
| Dangerous (managers : nat)
| Healthy (managers tolerates : nat)
| Wasteful (managers tolerates : nat).

(** @ hlb-types/src/swarm.rs:362-376 [QuorumHealth::assess] *)
Definition assess (managers : nat) : QuorumHealth :=
  match managers with
  | 0%nat | 1%nat => Solo
  | 2%nat => Dangerous 2
  | n => if (n mod 2 =? 1)%nat then Healthy n ((n - 1) / 2) else Wasteful n ((n - 1) / 2)
  end.

(** @ hlb-types/src/swarm.rs:378-381 [QuorumHealth::needs_attention] *)
Definition needs_attention (q : QuorumHealth) : bool :=
  match q with Dangerous _ => true | _ => false end.

(** @ hlb-types/src/swarm.rs:383-414 [QuorumHealth::describe] *)
Definition quorum_describe (q : QuorumHealth) : string :=
  match q with
  | Solo => "1 manager - no fault tolerance, but coherent. Add two managers for a real quorum."
  | Dangerous managers =>
      "🔴 " +:+ show_nat managers +:+ " managers - WORSE than one: losing either blocks the " +:+
      "whole cluster. Go to 3, or back down to 1."
  | Healthy managers tolerates =>
      show_nat managers +:+ " managers - tolerates " +:+ show_nat tolerates +:+ " " +:+
      (if (tolerates =? 1)%nat then "failure" else "failures")
  | Wasteful managers tolerates =>
      show_nat managers +:+ " managers - tolerates the same " +:+ show_nat tolerates +:+ " as " +:+
      show_nat (managers - 1) +:+ " would. The extra manager buys nothing."
  end.

(** ** Maintenance *)

(** @ hlb-types/src/swarm.rs:417-427 [Maintenance] *)
Inductive Maintenance := Go | Downtime (why : string) | Refused (why : string).

(** A node by id or by hostname.
    @ hlb-types/src/swarm.rs:436-439 [maintenance] *)
Definition node_named (target : string) (n : NodeInfo) : bool :=
  (n_id n ==? target) || (n_hostname n ==? target).

(** @ hlb-types/src/swarm.rs:447 [maintenance] *)
Definition in_service (n : NodeInfo) : bool := is_ready n && (n_availability n ==? "active").

Definition is_manager (n : NodeInfo) : bool := n_role n ==? Manager.
Definition managers (nodes : list NodeInfo) : nat := length (keep is_manager nodes).
(** @ hlb-types/src/swarm.rs:469-472 [maintenance] *)
Definition remaining (me : string) (nodes : list NodeInfo) : nat :=
  length (keep (λ n, is_manager n && negb (n_id n ==? me) && is_ready n) nodes).

(** @ hlb-types/src/swarm.rs:429-490 [maintenance] *)
Definition maintenance (nodes : list NodeInfo) (target : string) : Maintenance :=
  match find_first (node_named target) nodes with
  | None => Refused ("no node " +:+ quoted_str target +:+ " in the cluster")
  | Some me =>
      let others := keep (λ n, negb (n_id n ==? n_id me)) nodes in
      match find_first (λ n, negb (is_ready n) || negb (n_availability n ==? "active")) others with
      | Some other =>
          Refused (n_hostname other +:+ " is " +:+ n_status other +:+ " / " +:+
                   n_availability other +:+ ": one node at a time — bring it back first")
      | None =>
          if (length (keep in_service others) =? 0)%nat then
            Downtime (n_hostname me +:+
                      " is the only node: every application stops while it is down")
          else if is_manager me && (remaining (n_id me) nodes * 2 <=? managers nodes)%nat then
            Downtime (n_hostname me +:+ " is one of " +:+ show_nat (managers nodes) +:+
                      " managers and the others are not a majority without it: the running " +:+
                      "services keep running, but nothing is scheduled, updated or restarted " +:+
                      "until it is back")
          else if decide (n_data me = []) then Go
          else Downtime (join ", " (n_data me) +:+ " keep their data on " +:+ n_hostname me +:+
                         ": they stop while it is down, rather than start empty on another node")
      end
  end.

(** @ hlb-types/src/swarm.rs:492-501 [ClusterProfile] *)
Inductive ClusterProfile := SoloProfile | Paired | Quorum.

(** @ hlb-types/src/swarm.rs:503-510 [ClusterProfile::for_node_count] *)
Definition for_node_count (n : nat) : ClusterProfile :=
  match n with 0%nat | 1%nat => SoloProfile | 2%nat => Paired | _ => Quorum end.

(** @ hlb-types/src/swarm.rs:512-520 [ClusterProfile::recommended_managers] *)
Definition recommended_managers (p : ClusterProfile) : nat :=
  match p with SoloProfile | Paired => 1 | Quorum => 3 end.

(** @ hlb-types/src/swarm.rs:522-528 [ClusterProfile::as_str] *)
Definition profile_as_str (p : ClusterProfile) : string :=
  match p with SoloProfile => "solo" | Paired => "paired" | Quorum => "quorum" end.

(** @ hlb-types/src/swarm.rs:531-538 [JoinTokens] *)
Record JoinTokens := { jt_manager : string; jt_worker : string; jt_advertise_addr : string }.

(** @ hlb-types/src/swarm.rs:540-547 [JoinTokens::for_role] *)
Definition for_role (t : JoinTokens) (role : NodeRole) : string :=
  match role with Manager => jt_manager t | Worker => jt_worker t end.

(** ** Tasks and services *)

(** @ hlb-types/src/swarm.rs:557-578 [TaskInfo] *)
Record TaskInfo := {
  t_id : string; t_service : string; t_slot : option N; t_node_id : option string;
  t_desired_state : string; t_state : string; t_image : string; t_message : option string;
  t_err : option string; t_updated_at : option Z }.

(** @ hlb-types/src/swarm.rs:581-587 [TaskInfo::is_alive] *)
Definition is_alive (t : TaskInfo) : bool :=
  (t_desired_state t ==? "running") && (t_state t ==? "running").

(** @ hlb-types/src/swarm.rs:589-596 [TaskInfo::has_failed] *)
Definition has_failed (t : TaskInfo) : bool :=
  (t_state t ==? "failed") || (t_state t ==? "rejected") || (t_state t ==? "orphaned").

(** @ hlb-types/src/swarm.rs:598-607 [TaskInfo::explanation] *)
Definition explanation (t : TaskInfo) : option string :=
  match (if t_err t is Some e then Some e else t_message t) with
  | Some m => if str_is_empty m then None else Some m
  | None => None
  end.

(** @ hlb-types/src/swarm.rs:610-618 [why_not_running] *)
Definition why_not_running (tasks : list TaskInfo) : option string :=
  max_by (λ a b, option_cmp Z.compare (t_updated_at a) (t_updated_at b))
    (keep (λ t, negb (is_alive t)) tasks) ≫= explanation.

(** @ hlb-orchestrator/src/lib.rs:481-494 [UpdateState] *)
Inductive UpdateState :=
| Updating | UpdatePaused | Completed | RollbackStarted | RollbackPaused | RollbackCompleted
| Unknown.
#[export] Instance UpdateState_eq_dec : EqDecision UpdateState.
Proof. solve_decision. Defined.

(** @ hlb-orchestrator/src/lib.rs:496-503 [UpdateState::is_failure] *)
Definition is_failure (u : UpdateState) : bool :=
  match u with
  | UpdatePaused | RollbackStarted | RollbackPaused | RollbackCompleted => true
  | _ => false
  end.

(** @ hlb-orchestrator/src/lib.rs:425-439 [ServiceStatus] *)
Record ServiceStatus := {
  st_name : string; st_id : string; st_desired_replicas : N; st_running_replicas : nat;
  st_global : bool; st_image : string; st_update_state : option UpdateState }.

(** @ hlb-orchestrator/src/lib.rs:442-450 [ServiceStatus::replicas_text] *)
Definition replicas_text (st : ServiceStatus) : string :=
  if st_global st then show_nat (st_running_replicas st) +:+ " global"
  else show_nat (st_running_replicas st) +:+ "/" +:+ show_N (st_desired_replicas st).

(** @ hlb-orchestrator/src/lib.rs:452-454 [ServiceStatus::is_converged] *)
Definition is_converged (st : ServiceStatus) : bool :=
  (N.of_nat (st_running_replicas st) =? st_desired_replicas st)%N.

(** Swarm has finished watching the update, or there was none. *)
Definition update_finished (u : option UpdateState) : bool :=
  match u with None | Some Completed => true | _ => false end.

(** @ hlb-orchestrator/src/lib.rs:456-478 [ServiceStatus::rollout_concluded] *)
Definition rollout_concluded (st : ServiceStatus) (tasks : list TaskInfo) : bool :=
  if negb (update_finished (st_update_state st)) || negb (is_converged st) then false
  else
    let wanted := if split_once "@" (st_image st) is Some (_, digest) then digest
                  else st_image st in
    let on_spec := length (keep (λ t, (t_service t ==? st_name st) && is_alive t &&
                                        contains wanted (t_image t)) tasks) in
    (st_desired_replicas st <=? N.of_nat on_spec)%N.

(** ** Grouping *)

(** The nodes declaring a domain, in their order. *)
Definition declaring (d : option string) (nodes : list NodeInfo) : list string :=
  n_id <$> keep (λ n, n_failure_domain n ==? d) nodes.

Lemma declaring_snoc d nodes n :
  declaring d (nodes ++ [n]) =
  declaring d nodes ++ (if n_failure_domain n ==? d then [n_id n] else []).
Proof.
  unfold declaring. rewrite keep_app, fmap_app, keep_cons. by destruct (_ ==? _).
Qed.

Lemma file_nodes nodes :
  (∀ d, default [] ((foldl file_node (∅, []) nodes).1 !! d) = declaring (Some d) nodes) ∧
  (∀ d, (foldl file_node (∅, []) nodes).1 !! d ≠ Some []) ∧
  (foldl file_node (∅, []) nodes).2 = declaring None nodes.
Proof.
  induction nodes as [|n nodes IH] using rev_ind; [done|].
  rewrite foldl_app. cbn [foldl]. setoid_rewrite declaring_snoc.
  destruct (foldl file_node (∅, []) nodes) as [known unknowns]. cbn in IH |- *.
  destruct IH as (Hk & Hne & Hu), (n_failure_domain n) as [d|] eqn:Ed; cbn.
  - rewrite bool_decide_false by done. rewrite app_nil_r. split_and!; [|..|done]; intros e.
    all: destruct (decide (e = d)) as [->|He].
    + rewrite lookup_insert_eq, bool_decide_true by done. cbn. by rewrite Hk.
    + rewrite lookup_insert_ne, bool_decide_false by congruence. by rewrite app_nil_r.
    + rewrite lookup_insert_eq. by destruct (default [] (known !! d)).
    + by rewrite lookup_insert_ne.
  - rewrite (bool_decide_true (None = None)) by done. rewrite Hu. split_and!; [|done..].
    intros e. rewrite bool_decide_false, app_nil_r by done. apply Hk.
Qed.

Lemma domain_cmp_Gt a b :
  domain_cmp a b ≠ Gt → (length (fd_nodes b) ≤ length (fd_nodes a))%nat.
Proof. unfold domain_cmp. destruct (Nat.compare_spec (length (fd_nodes b)) (length (fd_nodes a))); cbn; lia || done. Qed.

Lemma domain_cmp_total : total_cmp domain_cmp.
Proof.
  apply (total_cmp_then (λ a b, Nat.compare (length (fd_nodes b)) (length (fd_nodes a)))
           (λ a b, option_cmp String.compare (fd_name a) (fd_name b))).
  - apply (total_cmp_flip (λ a b, Nat.compare (length (fd_nodes a)) (length (fd_nodes b)))).
    apply (total_cmp_on (λ d, length (fd_nodes d))). auto with hlb.
  - apply (total_cmp_on fd_name). auto with hlb.
Qed.

(** The groups named, in the order of the keys. *)
Lemma named_groups nodes d :
  d ∈ ((λ '(name, ids), {| fd_name := Some name; fd_nodes := ids |})
         <$> btree_entries (foldl file_node (∅, []) nodes).1) ↔
  ∃ name, fd_name d = Some name ∧ fd_nodes d = declaring (Some name) nodes ∧ fd_nodes d ≠ [].
Proof.
  destruct (file_nodes nodes) as (Hk & Hne & _).
  rewrite list_elem_of_fmap. split.
  - intros ([name ids] & -> & Hin%elem_of_btree_entries). exists name. cbn.
    specialize (Hk name). rewrite Hin in Hk. cbn in Hk. split_and!; [done..|].
    intros ->. by apply (Hne name).
  - intros (name & En & Ei & Hne'). exists (name, fd_nodes d). split; [destruct d as [n ids]; cbn in *; by rewrite <- En|].
    apply elem_of_btree_entries. specialize (Hk name). rewrite Ei in Hne' |- *. rewrite <- Hk in Hne' |- *.
    by destruct ((foldl file_node (∅, []) nodes).1 !! name).
Qed.

Lemma NoDup_names nodes :
  NoDup (fd_name <$> ((λ '(name, ids), {| fd_name := Some name; fd_nodes := ids |})
           <$> btree_entries (foldl file_node (∅, []) nodes).1)).
Proof.
  rewrite <- list_fmap_compose.
  replace (fd_name ∘ _ <$> _) with (Some <$> (btree_entries (foldl file_node (∅, []) nodes).1).*1).
  - rewrite btree_entries_keys. apply NoDup_fmap_2; [apply _|auto with hlb].
  - rewrite <- list_fmap_compose. apply list_fmap_ext. by intros i [].
Qed.

(** The topology view: a domain is shown with exactly the nodes that declare it and
    as many as declare it, once; the nodes that declare none form one group, shown last;
    the domains come with the most concentrated first. *)
Theorem group_by_domain_spec (nodes : list NodeInfo) :
  ∃ named, group_by_domain nodes =
      named ++ (if decide (declaring None nodes = []) then []
                else [{| fd_name := None; fd_nodes := declaring None nodes |}]) ∧
    (∀ d, d ∈ named ↔ ∃ name, fd_name d = Some name ∧
                        fd_nodes d = declaring (Some name) nodes ∧ fd_nodes d ≠ []) ∧
    NoDup (fd_name <$> named) ∧
    StronglySorted (λ a b, (length (fd_nodes b) ≤ length (fd_nodes a))%nat) named.
Proof.
  unfold group_by_domain. pose proof (file_nodes nodes) as (_ & _ & Hu).
  pose proof (named_groups nodes) as Hn. pose proof (NoDup_names nodes) as Hd.
  destruct (foldl file_node (∅, []) nodes) as [known unknowns]. cbn in Hu, Hn, Hd. subst unknowns.
  eexists. split; [reflexivity|]. split_and!.
  - intros d. rewrite sort_by_perm. apply Hn.
  - by rewrite sort_by_perm.
  - eapply StronglySorted_weaken; [|apply sort_by_total, domain_cmp_total].
    apply domain_cmp_Gt.
Qed.

(** ** Replicas on the same hardware *)

(** The domain a replica's node declares, and the replicas of a service in a domain. *)
Definition domain_at (nodes : list NodeInfo) (node : string) : option string :=
  default None (domain_of nodes !! node).
Definition replicas_in (placements : list (string * string)) (nodes : list NodeInfo)
    (service : string) (domain : option string) : nat :=
  length (keep (λ p, (p.1 ==? service) && (domain_at nodes p.2 ==? domain)) placements).
Definition replicas_of (placements : list (string * string)) (service : string) : nat :=
  length (keep (λ p, p.1 ==? service) placements).

Lemma domain_entries_perm counts : domain_entries counts ≡ₚ map_to_list counts.
Proof.
  unfold domain_entries. set (ks := None :: _).
  assert (Hks : NoDup ks).
  { constructor; [by rewrite list_elem_of_fmap; intros (? & ? & _)|].
    apply NoDup_fmap_2; [apply _|auto with hlb]. }
  assert (Hin : ∀ d n, (d, n) ∈ omap (λ d, (d,.) <$> counts !! d) ks ↔ counts !! d = Some n).
  { intros d n. rewrite list_elem_of_omap. split.
    - intros (e & _ & He). apply fmap_Some in He as (x & Ex & [= -> ->]). done.
    - intros Ed. exists d. rewrite Ed. split; [|done]. unfold ks. rewrite elem_of_cons.
      destruct d as [d|]; [right|by left]. apply list_elem_of_fmap_2, elem_of_btree_elems.
      apply elem_of_set_omap. exists (Some d). split; [by apply elem_of_dom_2 in Ed|done]. }
  apply NoDup_Permutation.
  - apply (NoDup_fmap_1 fst). apply (sublist_NoDup _ ks); [done|]. clear.
    induction ks as [|k ks IH]; cbn; [done|].
    destruct (counts !! k); cbn; [by apply sublist_skip|by apply sublist_cons].
  - apply NoDup_map_to_list.
  - intros [d n]. by rewrite Hin, elem_of_map_to_list.
Qed.

Lemma sum_entries_insert (counts : gmap (option string) nat) d :
  sum_list (domain_entries (<[d := S (default 0%nat (counts !! d))]> counts)).*2 =
  S (sum_list (domain_entries counts).*2).
Proof.
  rewrite !domain_entries_perm. destruct (counts !! d) as [n|] eqn:E; cbn.
  - rewrite <- insert_delete_eq, map_to_list_insert by apply lookup_delete_eq.
    rewrite <- (map_to_list_delete _ _ _ E). done.
  - by rewrite map_to_list_insert.
Qed.

Lemma replicas_in_snoc placements nodes service domain p :
  replicas_in (placements ++ [p]) nodes service domain =
  (replicas_in placements nodes service domain +
   (if (p.1 ==? service) && (domain_at nodes p.2 ==? domain) then 1 else 0))%nat.
Proof. unfold replicas_in. rewrite keep_app, length_app, keep_cons. by destruct (_ && _). Qed.

Lemma replicas_of_snoc placements service p :
  replicas_of (placements ++ [p]) service =
  (replicas_of placements service + (if p.1 ==? service then 1 else 0))%nat.
Proof. unfold replicas_of. rewrite keep_app, length_app, keep_cons. by destruct (_ ==? _). Qed.

Lemma counted placements nodes service :
  let counts := default ∅ (foldl (count_placement (domain_of nodes)) ∅ placements !! service) in
  (∀ d, default 0%nat (counts !! d) = replicas_in placements nodes service d) ∧
  (∀ d, counts !! d ≠ Some 0%nat) ∧
  sum_list (domain_entries counts).*2 = replicas_of placements service.
Proof.
  induction placements as [|[s node] placements IH] using rev_ind; [done|].
  rewrite foldl_app, replicas_of_snoc. cbn [foldl count_placement fst snd]. setoid_rewrite replicas_in_snoc.
  cbn [fst snd] in *. set (m := foldl _ ∅ placements) in *.
  fold (domain_at nodes node). destruct (decide (s = service)) as [->|Hs].
  - rewrite lookup_insert_eq, bool_decide_true by done.
    cbn [from_option]. repeat change (id ?c) with c. set (counts := default ∅ (m !! service)) in *.
    destruct IH as (Hc & Hz & Hsum). split_and!.
    + intros d. destruct (decide (domain_at nodes node = d)) as [<-|Hd].
      * rewrite lookup_insert_eq, bool_decide_true by done. cbn. rewrite Hc. lia.
      * rewrite lookup_insert_ne, bool_decide_false, Hc by done. cbn. lia.
    + intros d. destruct (decide (domain_at nodes node = d)) as [<-|Hd].
      * by rewrite lookup_insert_eq.
      * by rewrite lookup_insert_ne.
    + rewrite sum_entries_insert. lia.
  - rewrite lookup_insert_ne, bool_decide_false by done. cbn [andb].
    destruct IH as (Hc & Hz & Hsum). split_and!; [|done|lia].
    intros d. rewrite Hc. lia.
Qed.

Lemma elem_of_violations_of service counts v :
  (∀ d, counts !! d ≠ Some 0%nat) →
  v ∈ violations_of service counts ↔
  v_service v = service ∧ counts !! v_domain v = Some (v_replicas v) ∧ (1 < v_replicas v)%nat ∧
  v_total v = sum_list (domain_entries counts).*2.
Proof.
  intros Hz. unfold violations_of. set (total := sum_list _).
  assert (Hin : ∀ d n, (d, n) ∈ domain_entries counts ↔ counts !! d = Some n).
  { intros d n. by rewrite domain_entries_perm, elem_of_map_to_list. }
  assert (Hle : ∀ d n, counts !! d = Some n → (n ≤ total)%nat).
  { intros d n Hd%Hin. apply list_elem_of_split in Hd as (l & k & E). unfold total. rewrite E.
    rewrite fmap_app, sum_list_with_app. cbn. lia. }
  split.
  - destruct (Nat.ltb_spec total 2); [by intros ?%elem_of_nil|].
    rewrite list_elem_of_omap. intros ([d n] & Hd%Hin & Hv).
    destruct (Nat.ltb_spec 1 n); [|done]. by injection Hv as <-.
  - intros (<- & Hd & Hn & Ht). specialize (Hle _ _ Hd).
    destruct (Nat.ltb_spec total 2); [lia|]. apply list_elem_of_omap.
    exists (v_domain v, v_replicas v). rewrite Hin. split; [done|].
    destruct (Nat.ltb_spec 1 (v_replicas v)); [by rewrite <- Ht; destruct v|lia].
Qed.

(** Every concentration of replicas is reported and nothing else: a violation names a
    service, a domain more than one of its replicas run in - as declared by their nodes -
    their exact number and the service's; those that lie the most come first. *)
Theorem anti_affinity_exact (placements : list (string * string)) (nodes : list NodeInfo)
    (v : Violation) :
  v ∈ anti_affinity_violations placements nodes ↔
  (1 < v_replicas v)%nat ∧
  v_replicas v = replicas_in placements nodes (v_service v) (v_domain v) ∧
  v_total v = replicas_of placements (v_service v).
Proof.
  unfold anti_affinity_violations. rewrite sort_by_perm. rewrite list_elem_of_join.
  set (m := foldl (count_placement (domain_of nodes)) ∅ placements). split.
  - intros (l & Hv & Hl). apply list_elem_of_fmap in Hl as ([service counts] & -> & Hm).
    apply elem_of_btree_entries in Hm. destruct (counted placements nodes service) as (Hc & Hz & Hs).
    fold m in Hc, Hz, Hs. rewrite Hm in Hc, Hz, Hs. cbn in Hc, Hz.
    change (sum_list (domain_entries counts).*2 = replicas_of placements service) in Hs.
    apply elem_of_violations_of in Hv as (<- & Hd & Hn & Ht); [|done].
    split_and!; [done| |by rewrite Ht]. rewrite <- Hc. by rewrite Hd.
  - intros (Hn & Hr & Ht). destruct (counted placements nodes (v_service v)) as (Hc & Hz & Hs).
    fold m in Hc, Hz, Hs. rewrite <- Hc in Hr.
    destruct (m !! v_service v) as [counts|] eqn:Em; cbn in Hc, Hz, Hr;
      [|rewrite lookup_empty in Hr; cbn in Hr; lia]. change (sum_list (domain_entries counts).*2 = replicas_of placements (v_service v)) in Hs.
    exists (violations_of (v_service v) counts). split.
    + apply elem_of_violations_of; [done|]. rewrite Hs, <- Ht. split_and!; try done.
      destruct (counts !! v_domain v) as [n|]; cbn in Hr; [by rewrite Hr|lia].
    + apply list_elem_of_fmap. exists (v_service v, counts). by rewrite elem_of_btree_entries.
Qed.

(** ** Where data lives *)

Definition pinned_here (service : string) (n : Candidate) : bool :=
  is_true_label (cd_labels n !! data_label service).

(** A service with data on its node goes where its data is, whatever state that node is
    in; with no data yet it goes to an available node that meets its constraints, the
    first by hostname; it is refused exactly when there is neither. *)
Theorem data_node_spec (service : string) (nodes : list Candidate) (constraints : list string) :
  match data_node service nodes constraints with
  | Ok id =>
      ∃ n, n ∈ nodes ∧ cd_id n = id ∧
        (pinned_here service n = true ∨
         (∀ m, m ∈ nodes → pinned_here service m = false) ∧
         cd_available n = true ∧ meets constraints n = true ∧
         ∀ m, m ∈ nodes → cd_available m = true → meets constraints m = true →
           String.le (cd_hostname n) (cd_hostname m))
  | Err _ =>
      ∀ n, n ∈ nodes → pinned_here service n = false ∧
        (cd_available n && meets constraints n = false)
  end.
Proof.
  unfold data_node. fold (pinned_here service).
  change (λ n, is_true_label (cd_labels n !! data_label service)) with (pinned_here service).
  destruct (find_first (pinned_here service) nodes) as [n|] eqn:Ef.
  { apply find_first_Some in Ef as (l & k & -> & Hn & _). exists n.
    split; [apply elem_of_app; right; left|auto]. }
  assert (Hno : ∀ m, m ∈ nodes → pinned_here service m = false)
    by (by apply Forall_forall, find_first_None).
  assert (Hs : StronglySorted (λ a b, String.le (cd_hostname a) (cd_hostname b))
                 (fit_nodes nodes constraints)).
  { eapply StronglySorted_weaken; [|apply sort_by_total, (total_cmp_on cd_hostname); auto with hlb].
    intros a b. cbn. unfold String.le, String.leb. by destruct (String.compare _ _). }
  assert (Hin : ∀ m, m ∈ fit_nodes nodes constraints ↔
                     cd_available m && meets constraints m = true ∧ m ∈ nodes).
  { intros m. unfold fit_nodes. by rewrite sort_by_perm, elem_of_keep. }
  destruct (fit_nodes nodes constraints) as [|n fit]; cbn.
  - intros n Hn. split; [by apply Hno|]. destruct (cd_available n && meets constraints n) eqn:E; [|done].
    exfalso. by apply (not_elem_of_nil n), Hin.
  - exists n. assert (Hn : n ∈ n :: fit) by left. apply Hin in Hn as [[Ha Hm]%andb_true_iff Hn].
    split_and!; [done..|]. right. split_and!; [done..|]. intros m Hm' Ham Hmm.
    assert (Hf : m ∈ n :: fit) by (apply Hin; by rewrite Ham, Hmm).
    apply elem_of_cons in Hf as [->|Hf]; [done|]. inversion Hs as [|?? _ Hall]; subst.
    rewrite Forall_forall in Hall. by apply Hall.
Qed.

(** The cluster seen later: the node just labelled carries the label, any node may have
    come or gone from service. *)
Definition later (label id : string) (available : string → bool) (n : Candidate) : Candidate :=
  {| cd_id := cd_id n; cd_hostname := cd_hostname n; cd_available := available (cd_id n);
     cd_labels := if cd_id n ==? id then <[label := "true"]> (cd_labels n) else cd_labels n |}.

(** A service never starts empty on another node: once the node chosen for its data is
    labelled, every later choice is that node - whatever nodes have left the service since,
    that one included, and whatever constraints the service has by then. *)
Theorem data_node_sticky (service id : string) (nodes : list Candidate)
    (constraints constraints' : list string) (available : string → bool)
    (Hid : NoDup (cd_id <$> nodes)) (H : data_node service nodes constraints = Ok id) :
  data_node service (later (data_label service) id available <$> nodes) constraints' = Ok id.
Proof.
  assert (Hlab : ∀ n, pinned_here service (later (data_label service) id available n) =
                      (cd_id n ==? id) || pinned_here service n).
  { intros n. unfold pinned_here, later. cbn. case_bool_decide; [by rewrite lookup_insert_eq|done]. }
  pose proof (data_node_spec service nodes constraints) as Hspec. rewrite H in Hspec.
  destruct Hspec as (n & Hn & Eid & _).
  assert (Hfirst : find_first (pinned_here service) (later (data_label service) id available <$> nodes) =
                   Some (later (data_label service) id available n)).
  { unfold data_node in H.
    change (λ n, is_true_label (cd_labels n !! data_label service)) with (pinned_here service) in H.
    assert (Huniq : ∀ m, m ∈ nodes → cd_id m = id → m = n).
    { intros m Hm Em. apply (NoDup_fmap_inj_on cd_id nodes m n); [done..|congruence]. }
    clear Hid. destruct (find_first (pinned_here service) nodes) as [p|] eqn:Ep.
    - injection H as Ep'. apply find_first_Some in Ep as (l & k & -> & Hp & Hl).
      assert (p = n) as -> by (apply Huniq; [apply elem_of_app; right; left|done]).
      rewrite fmap_app, fmap_cons. apply find_first_Some.
      eexists _, _. split; [reflexivity|]. rewrite Hlab, Eid, bool_decide_true by done.
      split; [done|]. apply Forall_forall. intros y (m & -> & Hm)%list_elem_of_fmap.
      rewrite Forall_forall in Hl. rewrite Hlab, (Hl m Hm), orb_false_r.
      apply bool_decide_eq_false. intros Em.
      assert (m = n) as -> by (apply Huniq; [apply elem_of_app; by left|done]).
      by rewrite (Hl n Hm) in Hp.
    - rewrite find_first_None, Forall_forall in Ep.
      destruct (find_first _ (later _ _ _ <$> nodes)) as [y|] eqn:Ey.
      + apply find_first_Some in Ey as (l & k & E & Hy & _).
        assert (Hin : y ∈ later (data_label service) id available <$> nodes)
          by (rewrite E; apply elem_of_app; right; left).
        apply list_elem_of_fmap in Hin as (m & -> & Hm). rewrite Hlab, (Ep m Hm), orb_false_r in Hy.
        apply bool_decide_eq_true in Hy. by rewrite (Huniq m Hm Hy).
      + rewrite find_first_None, Forall_forall in Ey.
        specialize (Ey _ (list_elem_of_fmap_2 (later (data_label service) id available) _ _ Hn)).
        rewrite Hlab, Eid, bool_decide_true in Ey by done. done. }
  unfold data_node.
  change (λ n, is_true_label (cd_labels n !! data_label service)) with (pinned_here service).
  rewrite Hfirst.
  by rewrite <- Eid.
Qed.

(** ** The quorum *)

(** Raft decides while a strict majority of all the managers is up. *)
Definition majority (up managers : nat) : Prop := (managers < up * 2)%nat.

(** What [assess] promises of a cluster of [n] managers: losing as many as it tolerates
    leaves a majority and losing one more does not; an even count tolerates no more than
    one manager fewer; at two, the one count it calls dangerous, any loss blocks. *)
Theorem assess_spec (n : nat) :
  match assess n with
  | Solo => (n ≤ 1)%nat
  | Dangerous m => m = n ∧ majority n n ∧ ¬ majority (n - 1) n
  | Healthy m t => m = n ∧ majority (n - t) n ∧ ¬ majority (n - S t) n
  | Wasteful m t =>
      m = n ∧ majority (n - t) n ∧ ¬ majority (n - S t) n ∧ assess (n - 1) = Healthy (n - 1) t
  end.
Proof.
  destruct n as [|[|[|n]]]; cbn -[Nat.div Nat.modulo]; [lia|lia|unfold majority; lia|].
  destruct (Nat.eqb_spec (S (S (S n)) mod 2) 1) as [E|E]; unfold majority.
  - split_and!; [done|..]; Z.to_euclidean_division_equations; lia.
  - destruct n as [|n]; [done|]. cbn -[Nat.div Nat.modulo].
    assert (E' : (S (S (S n)) mod 2 = 1)%nat) by (Z.to_euclidean_division_equations; lia).
    rewrite E'. cbn -[Nat.div]. split_and!; [done|..]; try (Z.to_euclidean_division_equations; lia).
    f_equal; Z.to_euclidean_division_equations; lia.
Qed.

(** ** Maintenance *)

(** The nodes other than [me], by id. *)
Definition out_of_service (n : NodeInfo) : bool := negb (in_service n).

Lemma maintenance_Go nodes target :
  maintenance nodes target = Go ↔
  ∃ me, find_first (node_named target) nodes = Some me ∧
    (∀ n, n ∈ nodes → n_id n ≠ n_id me → in_service n = true) ∧
    (∃ n, n ∈ nodes ∧ n_id n ≠ n_id me) ∧
    (is_manager me = true → majority (remaining (n_id me) nodes) (managers nodes)) ∧
    n_data me = [].
Proof.
  unfold maintenance. destruct (find_first (node_named target) nodes) as [me|]; [|naive_solver].
  set (others := keep _ nodes).
  assert (Hin : ∀ n, n ∈ others ↔ n_id n ≠ n_id me ∧ n ∈ nodes).
  { intros n. unfold others. rewrite elem_of_keep. case_bool_decide; naive_solver. }
  destruct (find_first _ others) as [other|] eqn:Ef.
  { apply find_first_Some in Ef as (l & k & E & Ho & _). split; [done|].
    intros (? & [= <-] & Hall & _). exfalso.
    assert (Ho' : other ∈ others) by (rewrite E; apply elem_of_app; right; left).
    apply Hin in Ho' as [Hid Hn]. specialize (Hall other Hn Hid). unfold in_service in Hall.
    by destruct (is_ready other), (n_availability other ==? "active"). }
  rewrite find_first_None, Forall_forall in Ef.
  assert (Hall : ∀ n, n ∈ nodes → n_id n ≠ n_id me → in_service n = true).
  { intros n Hn Hid. specialize (Ef n (proj2 (Hin n) (conj Hid Hn))). unfold in_service.
    by destruct (is_ready n), (n_availability n ==? "active"). }
  assert (Hkeep : ∀ n, n ∈ keep in_service others ↔ n ∈ nodes ∧ n_id n ≠ n_id me).
  { intros n. rewrite elem_of_keep, Hin. naive_solver. }
  destruct (keep in_service others) as [|o ks]; cbn [length Nat.eqb].
  { split; [done|]. intros (? & [= <-] & _ & (n & Hn%Hkeep) & _). by apply elem_of_nil in Hn. }
  assert (Ho : ∃ n, n ∈ nodes ∧ n_id n ≠ n_id me) by (exists o; apply Hkeep; left).
  unfold majority. destruct (Nat.leb_spec (remaining (n_id me) nodes * 2) (managers nodes)) as [Hm|Hm];
    destruct (is_manager me) eqn:Em; cbn [andb]; try case_decide.
  1: split; [done|]; intros (? & [= <-] & _ & _ & Hm' & _); specialize (Hm' Em); lia.
  all: split; try done; first [by intros (? & [= <-] & _ & _ & _ & ?)|intros _].
  all: exists me; split_and!; auto; try done; by intros E; rewrite E in Em.
Qed.

(** A node let go, or let go at the cost of a downtime, leaves every other in service. *)
Definition goes_ahead (accept : bool) (v : Maintenance) : bool :=
  match v with Go => true | Downtime _ => accept | Refused _ => false end.
Lemma maintenance_others nodes target accept :
  goes_ahead accept (maintenance nodes target) = true →
  ∃ me, find_first (node_named target) nodes = Some me ∧
    ∀ n, n ∈ nodes → n_id n ≠ n_id me → in_service n = true.
Proof.
  unfold maintenance. destruct (find_first (node_named target) nodes) as [me|]; [|done].
  destruct (find_first _ (keep _ nodes)) as [other|] eqn:Ef; [done|]. intros _. exists me. split; [done|].
  intros n Hn Hid. rewrite find_first_None, Forall_forall in Ef. specialize (Ef n). rewrite elem_of_keep in Ef.
  specialize (Ef ltac:(split; [by apply negb_true_iff, bool_decide_eq_false|done])). unfold in_service.
  by destruct (is_ready n), (n_availability n ==? "active").
Qed.

(** ** A rolling upgrade *)

Definition with_availability (a : string) (n : NodeInfo) : NodeInfo :=
  {| n_id := n_id n; n_hostname := n_hostname n; n_role := n_role n; n_status := n_status n;
     n_availability := a; n_tier := n_tier n; n_protection := n_protection n;
     n_disk_tangs := n_disk_tangs n; n_is_leader := n_is_leader n; n_memory_mb := n_memory_mb n;
     n_failure_domain := n_failure_domain n; n_data := n_data n; n_ingress := n_ingress n;
     n_addr := n_addr n |}.
Definition with_status (s : string) (n : NodeInfo) : NodeInfo :=
  {| n_id := n_id n; n_hostname := n_hostname n; n_role := n_role n; n_status := s;
     n_availability := n_availability n; n_tier := n_tier n; n_protection := n_protection n;
     n_disk_tangs := n_disk_tangs n; n_is_leader := n_is_leader n; n_memory_mb := n_memory_mb n;
     n_failure_domain := n_failure_domain n; n_data := n_data n; n_ingress := n_ingress n;
     n_addr := n_addr n |}.
Definition at_node (id : string) (f : NodeInfo → NodeInfo) (nodes : list NodeInfo) : list NodeInfo :=
  (λ n, if n_id n ==? id then f n else n) <$> nodes.

(** A run of [hlb node upgrade]: it looked at the cluster and goes ahead with a node, it
    drained it. *)
Inductive Stage := Checked | Drained.
Record Fleet := { fl_nodes : list NodeInfo; fl_run : option (string * Stage) }.
Definition with_run (r : option (string * Stage)) (f : Fleet) : Fleet :=
  {| fl_nodes := fl_nodes f; fl_run := r |}.
Definition with_nodes (nodes : list NodeInfo) (f : Fleet) : Fleet :=
  {| fl_nodes := nodes; fl_run := fl_run f |}.

(** What the runs of [hlb node upgrade] do to the cluster, one at a time, with or without
    [--accept-downtime]: a run looks at the nodes and goes ahead with one [maintenance] lets
    go - or lets go at the cost of a downtime, accepted -; later it drains it; the drained
    node reboots, by the run or by hand; the run puts it back once Swarm sees it ready. A run
    may stop after any step.
    @ hlb-cli/src/main.rs:3639-3837 [node_upgrade] *)
Inductive upgrade_step (accept : bool) : Fleet → Fleet → Prop :=
| upgrade_checks f target me :
    fl_run f = None → find_first (node_named target) (fl_nodes f) = Some me →
    goes_ahead accept (maintenance (fl_nodes f) target) = true →
    upgrade_step accept f (with_run (Some (n_id me, Checked)) f)
| upgrade_drains f id :
    fl_run f = Some (id, Checked) →
    upgrade_step accept f {| fl_nodes := at_node id (with_availability "drain") (fl_nodes f);
                             fl_run := Some (id, Drained) |}
| upgrade_reboots f me status :
    me ∈ fl_nodes f → n_availability me = "drain" →
    upgrade_step accept f (with_nodes (at_node (n_id me) (with_status status) (fl_nodes f)) f)
| upgrade_returns f id me :
    fl_run f = Some (id, Drained) → me ∈ fl_nodes f → n_id me = id → is_ready me = true →
    upgrade_step accept f {| fl_nodes := at_node id (with_availability "active") (fl_nodes f); fl_run := None |}
| upgrade_stops f :
    upgrade_step accept f (with_run None f).

Definition up_managers (nodes : list NodeInfo) : nat :=
  length (keep (λ n, is_manager n && is_ready n) nodes).

(** One node out at a time, and a quorum without it where no downtime is accepted. *)
Record rolling (accept : bool) (nodes : list NodeInfo) : Prop := {
  rolling_ids : NoDup (n_id <$> nodes);
  rolling_one : ∀ n m, n ∈ nodes → m ∈ nodes →
    in_service n = false → in_service m = false → n_id n = n_id m;
  rolling_drained : ∀ n, n ∈ nodes → is_ready n = false → n_availability n = "drain";
  rolling_quorum : accept = false → ∀ n, n ∈ nodes → n_availability n = "drain" → is_manager n = true →
    majority (remaining (n_id n) nodes) (managers nodes) }.

(** A node that may be taken out: the others are in service, and a quorum. *)
Record spare (accept : bool) (id : string) (nodes : list NodeInfo) : Prop := {
  spare_there : ∃ me, me ∈ nodes ∧ n_id me = id;
  spare_others : ∀ n, n ∈ nodes → n_id n ≠ id → in_service n = true;
  spare_quorum : accept = false → ∀ n, n ∈ nodes → n_id n = id → is_manager n = true →
    majority (remaining id nodes) (managers nodes) }.

Lemma length_keep_fmap {A} (p q : A → bool) (f : A → A) l :
  (∀ x, x ∈ l → p (f x) = q x) → length (keep p (f <$> l)) = length (keep q l).
Proof.
  induction l as [|x l IH]; intros H; [done|]. rewrite fmap_cons, !keep_cons, (H x) by left.
  assert (E : length (keep p (f <$> l)) = length (keep q l))
    by (apply IH; intros; apply H; by right).
  destruct (q x); cbn; congruence.
Qed.

Lemma at_node_ids id f nodes : (∀ n, n_id (f n) = n_id n) → n_id <$> at_node id f nodes = n_id <$> nodes.
Proof.
  intros Hf. unfold at_node. rewrite <- list_fmap_compose. apply list_fmap_ext. intros i n _. cbn.
  destruct (_ ==? _); auto.
Qed.

Lemma at_node_managers id f nodes :
  (∀ n, n_role (f n) = n_role n) → managers (at_node id f nodes) = managers nodes.
Proof.
  intros Hf. apply length_keep_fmap. intros n _. unfold is_manager.
  destruct (_ ==? id); by rewrite ?Hf.
Qed.

(** What the others count is not touched by what is done to a node. *)
Lemma at_node_remaining id f nodes :
  (∀ n, n_id (f n) = n_id n) → remaining id (at_node id f nodes) = remaining id nodes.
Proof.
  intros Hf. apply length_keep_fmap. intros n _. destruct (bool_decide_reflect (n_id n = id)) as [E|E].
  - rewrite Hf, bool_decide_true by done. by rewrite !andb_false_r.
  - by rewrite bool_decide_false.
Qed.

(** What another counts only grows when the node is ready after. *)
Lemma at_node_remaining_le x id f nodes :
  (∀ n, n_id (f n) = n_id n) → (∀ n, n_role (f n) = n_role n) →
  (∀ n, n ∈ nodes → n_id n = id → is_ready (f n) = true) →
  (remaining x nodes ≤ remaining x (at_node id f nodes))%nat.
Proof.
  intros Hid Hrole. unfold remaining, at_node.
  induction nodes as [|n nodes IH]; intros Hf; [done|]. rewrite fmap_cons, !keep_cons.
  assert (Hle : ∀ m, m ∈ nodes → n_id m = id → is_ready (f m) = true) by (intros; apply Hf; [by right|done]).
  specialize (IH Hle). destruct (bool_decide_reflect (n_id n = id)) as [E|E].
  - rewrite (Hf n (list_elem_of_here _ _) E). rewrite Hid.
    replace (is_manager (f n)) with (is_manager n) by (unfold is_manager; by rewrite Hrole).
    destruct (is_manager n), (negb (n_id n ==? x)), (is_ready n); cbn; lia.
  - destruct (_ && _); cbn; lia.
Qed.

Lemma elem_of_at_node id f nodes m :
  m ∈ at_node id f nodes ↔ ∃ n, n ∈ nodes ∧ m = if n_id n ==? id then f n else n.
Proof. unfold at_node. rewrite list_elem_of_fmap. naive_solver. Qed.

Lemma in_service_true n : in_service n = true ↔ is_ready n = true ∧ n_availability n = "active".
Proof. unfold in_service. by rewrite andb_true_iff, bool_decide_eq_true. Qed.

Lemma spare_at_node accept id f nodes :
  (∀ n, n_id (f n) = n_id n) → (∀ n, n_role (f n) = n_role n) →
  spare accept id nodes → spare accept id (at_node id f nodes).
Proof.
  intros Hid Hrole [(me & Hme & E) Hothers Hq]. constructor.
  - exists (f me). split; [|by rewrite Hid]. apply elem_of_at_node. exists me. split; [done|]. by rewrite bool_decide_true.
  - intros n (m & Hm & ->)%elem_of_at_node. case_bool_decide as Em; [by rewrite Hid|]. by apply Hothers.
  - intros Ha n (m & Hm & ->)%elem_of_at_node. rewrite at_node_managers, at_node_remaining by done.
    case_bool_decide as Em; [|by intros]. unfold is_manager. rewrite Hid, Hrole. by apply Hq.
Qed.

(** What is done to one node - the only one that may be out of service then - keeps the
    upgrade rolling, if that node could spare itself or is back. *)
Lemma rolling_at_node accept nodes me f :
  rolling accept nodes → me ∈ nodes →
  (∀ n, n_id (f n) = n_id n) → (∀ n, n_role (f n) = n_role n) →
  (∀ n, n ∈ nodes → in_service n = false → n_id n = n_id me ∨ in_service (f me) = true) →
  (is_ready (f me) = false → n_availability (f me) = "drain") →
  (accept = false → n_availability (f me) = "drain" → is_manager me = true →
     majority (remaining (n_id me) nodes) (managers nodes)) →
  rolling accept (at_node (n_id me) f nodes).
Proof.
  intros Hr Hme Hid Hrole Hone Hdown Hq.
  assert (Huniq : ∀ n, n ∈ nodes → n_id n = n_id me → n = me).
  { intros n Hn E. by apply (NoDup_fmap_inj_on n_id nodes n me); [apply Hr|..]. }
  assert (Hel : ∀ m, m ∈ at_node (n_id me) f nodes → m = f me ∨ (m ∈ nodes ∧ n_id m ≠ n_id me)).
  { intros m (n & Hn & ->)%elem_of_at_node. case_bool_decide as E; [left|by right].
    by rewrite (Huniq n Hn E). }
  constructor.
  - rewrite at_node_ids by done. apply Hr.
  - intros n m [->|[Hn En]]%Hel [->|[Hm Em]]%Hel Hon Hom; rewrite ?Hid.
    + done.
    + destruct (Hone m Hm Hom); congruence.
    + destruct (Hone n Hn Hon); congruence.
    + by apply (rolling_one _ _ Hr).
  - intros n [->|[Hn En]]%Hel; [done|]. by apply (rolling_drained _ _ Hr).
  - intros Hacc n [->|[Hn En]]%Hel; rewrite at_node_managers by done.
    + rewrite Hid, at_node_remaining by done. unfold is_manager. rewrite Hrole. by apply Hq.
    + intros Ha Hman. pose proof (rolling_quorum _ _ Hr Hacc n Hn Ha Hman) as Hm.
      assert (Ho : in_service n = false) by (unfold in_service; rewrite Ha; apply andb_false_r).
      destruct (Hone n Hn Ho) as [|[Hup _]%in_service_true]; [done|].
      unfold majority in *. eapply Nat.lt_le_trans; [exact Hm|]. apply Nat.mul_le_mono_r.
      apply at_node_remaining_le; [done..|]. intros m Hm' Em. by rewrite (Huniq m Hm' Em).
Qed.

(** What the runs keep: the cluster rolls, and the node a run goes ahead with can be spared. *)
Definition rolls (accept : bool) (f : Fleet) : Prop :=
  rolling accept (fl_nodes f) ∧ ∀ id st, fl_run f = Some (id, st) → spare accept id (fl_nodes f).

Lemma checked_spare accept nodes target me :
  NoDup (n_id <$> nodes) → find_first (node_named target) nodes = Some me →
  goes_ahead accept (maintenance nodes target) = true → spare accept (n_id me) nodes.
Proof.
  intros Hnd Hf Hgo. destruct (maintenance_others _ _ _ Hgo) as (me' & Hf' & Hothers). assert (me' = me) as -> by congruence.
  assert (Hme : me ∈ nodes) by (apply find_first_Some in Hf as (l & k & -> & _); apply elem_of_app; right; left).
  constructor; [by exists me|done|]. intros -> n Hn En Hman.
  assert (maintenance nodes target = Go) as Hg by by destruct (maintenance nodes target).
  apply maintenance_Go in Hg as (me' & Hf'' & _ & _ & Hq & _). assert (me' = me) as -> by congruence.
  apply Hq. by rewrite <- (NoDup_fmap_inj_on n_id nodes n me Hnd Hn Hme En).
Qed.

Lemma rolls_step accept f f' : rolls accept f → upgrade_step accept f f' → rolls accept f'.
Proof.
  intros [Hr Hrun] Hstep.
  destruct Hstep as [f target me Hno Hf Hgo|f id Hc|f me status Hme Ha|f id me Hd Hme Eme Hready|f]; unfold rolls; cbn [fl_nodes fl_run with_run with_nodes].
  - split; [done|]. intros id st [= <- <-]. eapply checked_spare; [apply Hr|done..].
  - pose proof (Hrun _ _ Hc) as Hs. split; [|intros ? ? [= <- _]; by apply spare_at_node].
    destruct (spare_there _ _ _ Hs) as (me & Hme & <-). apply rolling_at_node; [done..| | |].
    + intros n Hn Ho. left. destruct (decide (n_id n = n_id me)) as [|Hne]; [done|].
      by rewrite (spare_others _ _ _ Hs n Hn Hne) in Ho.
    + done.
    + intros Hacc _ Hman. by apply (spare_quorum _ _ _ Hs Hacc me).
  - assert (Ho : in_service me = false) by (unfold in_service; rewrite Ha; apply andb_false_r). split.
    + apply rolling_at_node; [done..| | |].
      * intros n Hn Hon. left. by apply (rolling_one _ _ Hr).
      * done.
      * intros Hacc _. by apply (rolling_quorum _ _ Hr Hacc).
    + intros id st E. pose proof (Hrun _ _ E) as Hs. destruct (decide (n_id me = id)) as [<-|Hne]; [by apply spare_at_node|].
      by rewrite (spare_others _ _ _ Hs me Hme Hne) in Ho.
  - subst id. split; [|done]. apply rolling_at_node; [done..| | |].
    + intros n Hn Ho. right. by apply in_service_true.
    + intros E. change (is_ready me = false) in E. congruence.
    + done.
  - by split.
Qed.

Lemma up_managers_all nodes :
  (∀ n, n ∈ nodes → is_manager n = true → is_ready n = true) → up_managers nodes = managers nodes.
Proof.
  intros H. unfold up_managers, managers. f_equal. induction nodes as [|n nodes IH]; [done|].
  rewrite !keep_cons, IH by (intros; apply H; [by right|done]).
  specialize (H n (list_elem_of_here _ _)). destruct (is_manager n); [by rewrite H|done].
Qed.

Lemma up_managers_remaining id nodes : (remaining id nodes ≤ up_managers nodes)%nat.
Proof.
  unfold remaining, up_managers. induction nodes as [|n nodes IH]; [done|]. rewrite !keep_cons.
  destruct (is_manager n), (is_ready n), (n_id n ==? id); cbn; lia.
Qed.

(** C18. Rolling an upgrade over a healthy cluster - every node in service, none named as another -, one run at a time, however many of them
    stop half way and whatever the reboots do between what a run looked at and what it does:
    at no moment are two nodes out of service, even where a downtime is accepted; and where
    none is, the managers that are up are a strict majority of all of them - the quorum is
    never lost. *)
Theorem rolling_upgrade_keeps_quorum (accept : bool) (nodes : list NodeInfo) (f : Fleet)
    (Hid : NoDup (n_id <$> nodes)) (Hall : ∀ n, n ∈ nodes → in_service n = true)
    (H : rtc (upgrade_step accept) {| fl_nodes := nodes; fl_run := None |} f) :
  (∀ n m, n ∈ fl_nodes f → m ∈ fl_nodes f → in_service n = false → in_service m = false →
     n_id n = n_id m) ∧
  (accept = false → (0 < managers (fl_nodes f))%nat →
     majority (up_managers (fl_nodes f)) (managers (fl_nodes f))).
Proof.
  assert (Hr0 : rolls accept {| fl_nodes := nodes; fl_run := None |}).
  { split; [|done]. constructor; [done|intros n m Hn Hm Ho|intros n Hn Ha|intros _ n Hn Ha].
    - by rewrite Hall in Ho.
    - apply Hall, in_service_true in Hn as [? _]. congruence.
    - apply Hall, in_service_true in Hn as [_ E]. by rewrite Ha in E. }
  assert (Hr : rolling accept (fl_nodes f)).
  { cut (rolls accept f); [by intros [? _]|]. clear Hid Hall. induction H; eauto using rolls_step. }
  split; [apply Hr|]. intros Hacc Hpos.
  destruct (decide (Exists (λ n, is_manager n && negb (is_ready n) = true) (fl_nodes f))) as [He|He].
  - apply Exists_exists in He as (n & Hn & [Hman Hdown%negb_true_iff]%andb_true_iff).
    pose proof (rolling_quorum _ _ Hr Hacc n Hn (rolling_drained _ _ Hr n Hn Hdown) Hman) as Hq.
    pose proof (up_managers_remaining (n_id n) (fl_nodes f)). unfold majority in *. lia.
  - rewrite up_managers_all; [unfold majority; lia|]. intros n Hn Hman.
    destruct (is_ready n) eqn:E; [done|]. exfalso. apply He, Exists_exists. exists n.
    by rewrite Hman, E.
Qed.

(** ** Examples *)

Definition example_node (id : string) (role : NodeRole) : NodeInfo :=
  {| n_id := id; n_hostname := "host-" +:+ id; n_role := role; n_status := "ready";
     n_availability := "active"; n_tier := None; n_protection := None; n_disk_tangs := [];
     n_is_leader := false; n_memory_mb := None; n_failure_domain := None; n_data := [];
     n_ingress := false; n_addr := None |}.
Definition three_managers : list NodeInfo :=
  [example_node "a" Manager; example_node "b" Manager; example_node "c" Manager].
Definition one_drained : list NodeInfo := at_node "a" (with_availability "drain") three_managers.
Definition one_rebooting : list NodeInfo := at_node "a" (with_status "down") one_drained.

Lemma example_upgrade :
  rtc (upgrade_step false) {| fl_nodes := three_managers; fl_run := None |}
    {| fl_nodes := one_rebooting; fl_run := Some ("a", Drained) |}.
Proof.
  eapply rtc_l; [apply (upgrade_checks _ _ "host-a" (example_node "a" Manager)); by vm_compute|].
  eapply rtc_l; [by apply (upgrade_drains _ _ "a")|].
  apply rtc_once, (upgrade_reboots _ {| fl_nodes := one_drained; fl_run := Some ("a", Drained) |}
    (with_availability "drain" (example_node "a" Manager)) "down"); [left|by vm_compute].
Qed.

Lemma rolling_upgrade_keeps_quorum_witness :
  majority (up_managers one_rebooting) (managers one_rebooting) ∧ up_managers one_rebooting = 2%nat.
Proof.
  split; [|by vm_compute].
  apply (proj2 (rolling_upgrade_keeps_quorum false three_managers {| fl_nodes := one_rebooting; fl_run := Some ("a", Drained) |}
    ltac:(apply (bool_decide_unpack _); by vm_compute)
    ltac:(apply Forall_forall; apply (bool_decide_unpack _); by vm_compute) example_upgrade)); [done|].
  vm_compute. lia.
Defined.

(** Nothing keeps two runs from looking at the cluster before either drains its node: each
    sees the others in service, both go ahead, and two managers of three are out at once. *)
Lemma two_runs_lose_quorum :
  maintenance three_managers "host-a" = Go ∧ maintenance three_managers "host-b" = Go ∧
  let out := at_node "b" (with_availability "drain") (at_node "a" (with_availability "drain") three_managers) in
  let rebooting := at_node "b" (with_status "down") (at_node "a" (with_status "down") out) in
  ¬ majority (up_managers rebooting) (managers rebooting).
Proof. split; [by vm_compute|]. split; [by vm_compute|]. vm_compute. lia. Qed.

Definition example_candidates : list Candidate :=
  [{| cd_id := "2"; cd_hostname := "b"; cd_available := true; cd_labels := ∅ |};
   {| cd_id := "1"; cd_hostname := "a"; cd_available := true; cd_labels := ∅ |}].

(** The first node by hostname is chosen, and kept once it is drained. *)
Lemma data_node_sticky_witness :
  data_node "db" (later (data_label "db") "1" (λ _, false) <$> example_candidates)
    ["node.labels.tier==heavy"] = Ok "1".
Proof.
  apply (data_node_sticky "db" "1" example_candidates [] ["node.labels.tier==heavy"] (λ _, false)).
  - apply (bool_decide_unpack _). by vm_compute.
  - by vm_compute.
Defined.

Example quorum_of_two : assess 2 = Dangerous 2 ∧ assess 4 = Wasteful 4 1 ∧ assess 5 = Healthy 5 2.
Proof. by vm_compute. Qed.
