(* ===== verification/Calendar.v ===== *)
(** * The calendar

    Homelabus carries no calendar crate: the days of 1970 are turned into dates, and dates into
    seconds, by copies of one algorithm, written out in [crates/hlb-backup/src/pitr.rs],
    [hlb-state/src/lib.rs], [hlb-objstore/src/s3.rs], [hlb-controller/src/runbook.rs],
    [hlb-orchestrator/src/swarm.rs] and [hlb-agent/src/pki.rs]. Each is here; what they agree on
    is the Gregorian calendar, counted day after day. *)

From S2P Require Import Prelude RustStr.

#[local] Open Scope hlb_scope.
#[local] Open Scope Z_scope.

(** ** hlb-backup *)

(** The date of an instant: year, month, day, hour, minute, second. *)
Record Civil := { cy : Z; cm : Z; cd : Z; chh : Z; cmm : Z; css : Z }.
#[global] Instance Civil_eq_dec : EqDecision Civil.
Proof. solve_decision. Defined.

(** Year, month and day of a number of days since 1970. The divisions but the first have a
    dividend that is not negative.
    @ hlb-backup/src/pitr.rs:425-436 [civil] *)
Definition civil_day (days : Z) : Z * Z * Z :=
  let z := days + 719468 in
  let era := z / 146097 in
  let doe := z mod 146097 in
  let yoe := (doe - doe / 1460 + doe / 36524 - doe / 146096) / 365 in
  let y := yoe + era * 400 in
  let doy := doe - (365 * yoe + yoe / 4 - yoe / 100) in
  let mp := (5 * doy + 2) / 153 in
  let d := doy - (153 * mp + 2) / 5 + 1 in
  let m := if mp <? 10 then mp + 3 else mp - 9 in
  let y := if m <=? 2 then y + 1 else y in
  (y, m, d).

(** No step of it overflows, and what is cast to [u32] is in its range ([civil_ranges]).
    @ hlb-backup/src/pitr.rs:421-446 [civil] *)
Definition civil (epoch : Z) : Civil :=
  let '(y, m, d) := civil_day (epoch / 86400) in
  let remaining := epoch mod 86400 in
  {| cy := y; cm := m; cd := d; chh := remaining / 3600;
     cmm := remaining mod 3600 / 60; css := remaining mod 60 |}.

(** Exact up to the last wrap: [y - 1] is the only step whose result is divided.
    @ hlb-backup/src/pitr.rs:406-414 [days_from_civil] *)
Definition days_from_civil (y m d : Z) : Z :=
  let y := if m <=? 2 then wrap_i64 (y - 1) else y in
  let era := y / 400 in
  let yoe := y - era * 400 in
  let mp := if 2 <? m then m - 3 else m + 9 in
  let doy := (153 * mp + 2) / 5 + d - 1 in
  let doe := yoe * 365 + yoe / 4 - yoe / 100 + doy in
  wrap_i64 (era * 146097 + doe - 719468).

(** What the dates have in common: [YYYY-MM-DD HH:MM:SS]. *)
Definition date_time (c : Civil) : string :=
  show_pad 4 (cy c) +:+ "-" +:+ show_pad 2 (cm c) +:+ "-" +:+ show_pad 2 (cd c) +:+ " " +:+
  show_pad 2 (chh c) +:+ ":" +:+ show_pad 2 (cmm c) +:+ ":" +:+ show_pad 2 (css c).

(** @ hlb-backup/src/pitr.rs:346-354 [iso8601] *)
Definition iso8601 (epoch : Z) : string := date_time (civil epoch) +:+ " UTC".
(** @ hlb-backup/src/pitr.rs:356-363 [pg_timestamp] *)
Definition pg_timestamp (epoch : Z) : string := date_time (civil epoch) +:+ "+00".

(** @ hlb-backup/src/pitr.rs:374-380 [parse_utc] *)
Definition parse_date (date : string) : option (Z * Z * Z) :=
  match split_char "-" date with
  | [a; b; c] =>
      y ← parse_i64 a; m ← parse_i64 b; d ← parse_i64 c;
      if (1 <=? m) && (m <=? 12) && ((1 <=? d) && (d <=? 31)) then Some (y, m, d) else None
  | _ => None
  end.

(** The seconds may be left out; nothing refuses a negative number.
    @ hlb-backup/src/pitr.rs:382-392 [parse_utc] *)
Definition parse_hour (hour : string) : option (Z * Z * Z) :=
  let bounded hh mm ss := if (23 <? hh) || (59 <? mm) || (59 <? ss) then None else Some (hh, mm, ss) in
  match split_char ":" (trim_end_matches "Z" hour) with
  | [a; b] => hh ← parse_i64 a; mm ← parse_i64 b; bounded hh mm 0
  | [a; b; c] => hh ← parse_i64 a; mm ← parse_i64 b; ss ← parse_i64 c; bounded hh mm ss
  | _ => None
  end.

(** @ hlb-backup/src/pitr.rs:365-403 [parse_utc] *)
Definition parse_utc (s : string) : option Z :=
  '(date, hour) ← split_once_by (λ c, bool_decide (c = "T"%char) || bool_decide (c = " "%char)) (trim s);
  '(y, m, day) ← parse_date date;
  '(hh, mm, ss) ← parse_hour hour;
  let epoch := wrap_i64 (days_from_civil y m day * 86400 + hh * 3600 + mm * 60 + ss) in
  let c := civil epoch in
  if bool_decide ((cy c, cm c, cd c) = (y, m, day)) then Some epoch else None.

(** ** The other copies *)

(** [\[y\]-\[m\]-\[d\]], with the first division written as [/] of an adjusted dividend.
    @ hlb-state/src/lib.rs:4134-4151 [civil_date] *)
Definition civil_date (epoch : Z) : string :=
  let days := epoch / 86400 in
  let z := days + 719468 in
  let ere := Z.quot (if 0 <=? z then z else z - 146096) 146097 in
  let doe := z - ere * 146097 in
  let yoe := Z.quot (doe - Z.quot doe 1460 + Z.quot doe 36524 - Z.quot doe 146096) 365 in
  let y := yoe + ere * 400 in
  let doy := doe - (365 * yoe + Z.quot yoe 4 - Z.quot yoe 100) in
  let mp := Z.quot (5 * doy + 2) 153 in
  let d := doy - Z.quot (153 * mp + 2) 5 + 1 in
  let m := if mp <? 10 then mp + 3 else mp - 9 in
  let y := if m <=? 2 then y + 1 else y in
  show_pad 4 y +:+ "-" +:+ show_pad 2 m +:+ "-" +:+ show_pad 2 d.

(** @ hlb-controller/src/runbook.rs:221-248 [readable_timestamp] *)
Definition readable_timestamp (t : Z) : string :=
  let days := t / 86400 in
  let remaining := t mod 86400 in
  let z := days + 719468 in
  let ere := Z.quot (if 0 <=? z then z else z - 146096) 146097 in
  let doe := z - ere * 146097 in
  let yoe := Z.quot (doe - Z.quot doe 1460 + Z.quot doe 36524 - Z.quot doe 146096) 365 in
  let y := yoe + ere * 400 in
  let doy := doe - (365 * yoe + Z.quot yoe 4 - Z.quot yoe 100) in
  let mp := Z.quot (5 * doy + 2) 153 in
  let d := doy - Z.quot (153 * mp + 2) 5 + 1 in
  let m := if mp <? 10 then mp + 3 else mp - 9 in
  let y := if m <=? 2 then y + 1 else y in
  show_pad 4 y +:+ "-" +:+ show_pad 2 m +:+ "-" +:+ show_pad 2 d +:+ " " +:+
  show_pad 2 (Z.quot remaining 3600) +:+ ":" +:+ show_pad 2 (Z.quot (Z.rem remaining 3600) 60).

(** @ hlb-objstore/src/s3.rs:602-625 [amz_date] *)
Definition amz_date (epoch : Z) : string :=
  let days := epoch / 86400 in
  let secs := epoch mod 86400 in
  let z := days + 719468 in
  let era := z / 146097 in
  let doe := z - era * 146097 in
  let yoe := Z.quot (doe - Z.quot doe 1460 + Z.quot doe 36524 - Z.quot doe 146096) 365 in
  let doy := doe - (365 * yoe + Z.quot yoe 4 - Z.quot yoe 100) in
  let mp := Z.quot (5 * doy + 2) 153 in
  let d := doy - Z.quot (153 * mp + 2) 5 + 1 in
  let m := if mp <? 10 then mp + 3 else mp - 9 in
  let y := yoe + era * 400 + (if m <=? 2 then 1 else 0) in
  show_pad 4 y +:+ show_pad 2 m +:+ show_pad 2 d +:+ "T" +:+ show_pad 2 (Z.quot secs 3600) +:+
  show_pad 2 (Z.quot (Z.rem secs 3600) 60) +:+ show_pad 2 (Z.rem secs 60) +:+ "Z".

(** The days of a date read without any check of it: of two or four characters its numbers
    leave every step far from overflowing.
    @ hlb-objstore/src/s3.rs:502-510 [epoch_of] *)
Definition days_of (y m d : Z) : Z :=
  let y := if m <=? 2 then y - 1 else y in
  let era := y / 400 in
  let yoe := y - era * 400 in
  let mp := Z.rem (m + 9) 12 in
  let doy := Z.quot (153 * mp + 2) 5 + d - 1 in
  let doe := yoe * 365 + Z.quot yoe 4 - Z.quot yoe 100 + doy in
  era * 146097 + doe - 719468.

(** [str::get(a..a + n)] read as a number, and [str::get(n..)]. *)
Definition field (a n : nat) (s : string) : option Z :=
  _ ← get_to (a + n) s; _ ← get_to a s; parse_i64 (String.substring a n s).
Definition get_from (n : nat) (s : string) : option string :=
  _ ← get_to n s; Some (String.substring n (String.length s - n) s).

(** @ hlb-objstore/src/s3.rs:497-512 [epoch_of] *)
Definition epoch_of (s : string) : option Z :=
  y ← field 0 4 s; m ← field 5 2 s; d ← field 8 2 s;
  hh ← field 11 2 s; mm ← field 14 2 s; ss ← field 17 2 s;
  Some (days_of y m d * 86400 + hh * 3600 + mm * 60 + ss).

(** @ hlb-agent/src/pki.rs:357-388 [asn1_time] *)
Definition asn1_time (tag : N) (text : string) : option Z :=
  digits ← strip_suffix "Z" text;
  '(year, rest) ←
    (if ((tag =? 23)%N && Nat.eqb (String.length digits) 12)%bool then
       yy ← field 0 2 digits;
       rest ← get_from 2 digits;
       Some (if 50 <=? yy then 1900 + yy else 2000 + yy, rest)
     else if ((tag =? 24)%N && Nat.eqb (String.length digits) 14)%bool then
       y ← field 0 4 digits; rest ← get_from 4 digits; Some (y, rest)
     else None);
  month ← field 0 2 rest; day ← field 2 2 rest;
  hour ← field 4 2 rest; minute ← field 6 2 rest; second ← field 8 2 rest;
  if ((month <? 1) || (12 <? month) || (day <? 1) || (31 <? day)) then None
  else Some (days_of year month day * 86400 + hour * 3600 + minute * 60 + second).

(** Up to a dot or a [Z]. *)
Fixpoint until_fraction (s : string) : string :=
  match s with
  | "" => ""
  | String c s => if bool_decide (c = "."%char) || bool_decide (c = "Z"%char) then ""
                  else String c (until_fraction s)
  end.
(** @ hlb-orchestrator/src/swarm.rs:139-148 [unix_timestamp] *)
Definition docker_days (a m j : Z) : Z :=
  let a2 := wrap_i64 (a - (if m <=? 2 then 1 else 0)) in
  let ere := Z.quot (if 0 <=? a2 then a2 else wrap_i64 (a2 - 399)) 400 in
  let year_of_era := wrap_i64 (a2 - ere * 400) in
  let day_of_year := wrap_i64 (Z.quot (wrap_i64 (153 * (m + (if 2 <? m then -3 else 9)) + 2)) 5 + j - 1) in
  let day_of_era := wrap_i64 (year_of_era * 365 + Z.quot year_of_era 4 - Z.quot year_of_era 100 + day_of_year) in
  wrap_i64 (ere * 146097 + day_of_era - 719468).
(** @ hlb-orchestrator/src/swarm.rs:121-151 [unix_timestamp] *)
Definition unix_timestamp (s : string) : option Z :=
  '(date, remaining) ← split_once "T" s;
  '(a, remainder_of) ← split_once "-" date;
  '(m, j) ← split_once "-" remainder_of;
  match split_char ":" (until_fraction remaining) with
  | h :: mi :: se :: _ =>
      a ← parse_i64 a; m ← parse_i64 m; j ← parse_i64 j;
      h ← parse_i64 h; mi ← parse_i64 mi; se ← parse_i64 se;
      Some (wrap_i64 (docker_days a m j * 86400 + h * 3600 + mi * 60 + se))
  | _ => None
  end.

(** ** The calendar itself *)

Definition leap (y : Z) : bool := (y mod 4 =? 0) && (negb (y mod 100 =? 0) || (y mod 400 =? 0)).
Definition days_in (y m : Z) : Z :=
  if m =? 2 then (if leap y then 29 else 28)
  else if (m =? 4) || (m =? 6) || (m =? 9) || (m =? 11) then 30 else 31.
Definition tomorrow (date : Z * Z * Z) : Z * Z * Z :=
  let '(y, m, d) := date in
  if d <? days_in y m then (y, m, d + 1) else if m <? 12 then (y, m + 1, 1) else (y + 1, 1, 1).

(** The days before the year [y], a year starting on 1 March of the year 0. *)
Definition start (y : Z) : Z := 365 * y + y / 4 - y / 100 + y / 400.
(** Month and day of the [doy]-th day of such a year. *)
Definition month_day (doy : Z) : Z * Z :=
  let mp := (5 * doy + 2) / 153 in
  (if mp <? 10 then mp + 3 else mp - 9, doy - (153 * mp + 2) / 5 + 1).
(** [days_from_civil] with no step wrapped. *)
Definition days_civil (y m d : Z) : Z :=
  start (if m <=? 2 then y - 1 else y) +
    ((153 * (if 2 <? m then m - 3 else m + 9) + 2) / 5 + d - 1) - 719468.

Lemma start_next y : start (y + 1) = start y + 365 + (if leap (y + 1) then 1 else 0).
Proof.
  unfold start, leap.
  destruct ((y + 1) mod 4 =? 0) eqn:E1, ((y + 1) mod 100 =? 0) eqn:E2, ((y + 1) mod 400 =? 0) eqn:E3;
    cbn; Z.div_mod_to_equations; lia.
Qed.

(** The year of a day of the 400 years the calendar repeats after, as the code finds it. *)
Lemma year_of_era y x :
  0 ≤ y ≤ 399 → start y ≤ x < start (y + 1) → (x - x / 1460 + x / 36524 - x / 146096) / 365 = y.
Proof. unfold start. intros. Z.div_mod_to_equations; lia. Qed.

Lemma start_later y k : start (y + k * 400) = start y + k * 146097.
Proof.
  unfold start. rewrite Z.div_add by lia.
  replace (y + k * 400) with (y + (k * 100) * 4) at 2 by lia. rewrite Z.div_add by lia.
  replace (y + k * 400) with (y + (k * 4) * 100) by lia. rewrite Z.div_add by lia. lia.
Qed.

(** Some year holds the day. *)
Lemma year_exists x : 0 ≤ x < 146097 → ∃ y, 0 ≤ y ≤ 399 ∧ start y ≤ x < start (y + 1).
Proof.
  intros Hx. assert (H : ∀ n : nat, (n <= 400)%nat → x < start (Z.of_nat n) →
    ∃ y, 0 ≤ y ≤ 399 ∧ start y ≤ x < start (y + 1)).
  { induction n as [|n IH]; [unfold start; cbn; intros; lia|]. intros Hn Hs.
    destruct (decide (x < start (Z.of_nat n))) as [|Hge]; [apply IH; [lia|done]|].
    exists (Z.of_nat n). rewrite Nat2Z.inj_succ in Hs. unfold Z.succ in Hs. split; [lia|]. lia. }
  apply (H 400%nat); [lia|]. replace (start (Z.of_nat 400)) with 146097 by reflexivity; lia.
Qed.

(** The date of a day, told from the year that holds it. *)
Lemma civil_day_of y x :
  start y ≤ x < start (y + 1) →
  civil_day (x - 719468) =
    let '(m, d) := month_day (x - start y) in (if m <=? 2 then y + 1 else y, m, d).
Proof.
  intros Hx. assert (Hy : y = y mod 400 + y / 400 * 400) by (pose proof (Z.div_mod y 400); lia).
  pose proof (Z.mod_pos_bound y 400 ltac:(lia)) as Hr. set (r := y mod 400) in *. set (k := y / 400) in *.
  clearbody r k. subst y. replace (r + k * 400 + 1) with (r + 1 + k * 400) in Hx by lia.
  rewrite !start_later in Hx. rewrite start_later.
  assert (Hin : 0 ≤ start r ∧ start (r + 1) ≤ 146097) by (unfold start; Z.div_mod_to_equations; lia).
  assert (Hdiv : x / 146097 = k ∧ x mod 146097 = x - k * 146097) by (Z.div_mod_to_equations; lia).
  unfold civil_day. replace (x - 719468 + 719468) with x by lia. destruct Hdiv as [-> ->].
  rewrite (year_of_era r) by lia.
  replace (365 * r + r / 4 - r / 100) with (start r) by (unfold start; Z.div_mod_to_equations; lia).
  unfold month_day. replace (x - (start r + k * 146097)) with (x - k * 146097 - start r) by lia.
  cbv zeta. destruct (_ <=? 2); f_equal; f_equal; lia.
Qed.

Lemma year_of_day n : ∃ y, start y ≤ n + 719468 < start (y + 1).
Proof.
  destruct (year_exists ((n + 719468) mod 146097)) as (y & Hy & Hs); [by apply Z.mod_pos_bound|].
  exists (y + (n + 719468) / 146097 * 400).
  replace (y + (n + 719468) / 146097 * 400 + 1) with (y + 1 + (n + 719468) / 146097 * 400) by lia.
  rewrite !start_later. pose proof (Z.div_mod (n + 719468) 146097). lia.
Qed.

(** The months from March to February: where they start, and how they follow one another. *)
Definition month_ok (doy : Z) : bool :=
  let '(m, d) := month_day doy in
  (1 <=? m) && (m <=? 12) && (1 <=? d) && (d <=? 31) &&
  (if m =? 2 then d =? doy - 336 else (doy <=? 336) && (d <=? days_in 1 m)) &&
  ((153 * (if 2 <? m then m - 3 else m + 9) + 2) / 5 + d - 1 =? doy) &&
  bool_decide (month_day (doy + 1) =
    if (m =? 2) || (d <? days_in 1 m) then (m, d + 1) else (m mod 12 + 1, 1)).

Lemma days_in_any y m : m ≠ 2 → days_in y m = days_in 1 m.
Proof. intros Hm. unfold days_in. by apply Z.eqb_neq in Hm as ->. Qed.

Lemma month_day_facts doy y :
  0 ≤ doy ≤ 365 →
  let '(m, d) := month_day doy in
  1 ≤ m ≤ 12 ∧ 1 ≤ d ≤ 31 ∧ (if m =? 2 then d = doy - 336 else doy ≤ 336 ∧ d ≤ days_in y m) ∧
  (153 * (if 2 <? m then m - 3 else m + 9) + 2) / 5 + d - 1 = doy ∧
  month_day (doy + 1) =
    if (m =? 2) || (d <? days_in y m) then (m, d + 1) else (m mod 12 + 1, 1).
Proof.
  intros Hd. assert (Hok : month_ok (Z.of_N (Z.to_N doy)) = true).
  { apply (below_forallb 366 (λ i, month_ok (Z.of_N i))); [by vm_compute|lia]. }
  rewrite Z2N.id in Hok by lia. unfold month_ok in Hok.
  destruct (month_day doy) as [m d]. rewrite !andb_true_iff, bool_decide_eq_true in Hok.
  destruct Hok as [[[[[[H1 H2] H3] H4] H5] H6] H7].
  destruct (m =? 2) eqn:Em; [repeat split; [lia..|done]|].
  rewrite (days_in_any y) by lia. repeat split; [lia..|done].
Qed.

(** A date that exists. *)
Definition is_date (date : Z * Z * Z) : Prop :=
  let '(y, m, d) := date in 1 ≤ m ≤ 12 ∧ 1 ≤ d ≤ days_in y m.

Lemma days_in_31 y m : days_in y m ≤ 31.
Proof. unfold days_in. repeat case_match; lia. Qed.

(** The day after the [doy]-th of a year that ends in February of [y + 1]. *)
Lemma tomorrow_step y doy :
  0 ≤ doy < 365 + (if leap (y + 1) then 1 else 0) →
  let '(m, d) := month_day doy in
  tomorrow (if m <=? 2 then y + 1 else y, m, d) =
    if decide (doy + 1 < 365 + (if leap (y + 1) then 1 else 0)) then
      let '(m, d) := month_day (doy + 1) in (if m <=? 2 then y + 1 else y, m, d)
    else (y + 1, 3, 1).
Proof.
  intros Hdoy. assert (Hd : 0 ≤ doy ≤ 365) by (destruct (leap (y + 1)); lia).
  pose proof (month_day_facts doy (y + 1) Hd) as Hm.
  destruct (month_day doy) as [m d]. destruct Hm as (H1 & H2 & H3 & _ & ->).
  unfold tomorrow. destruct (m =? 2) eqn:Em.
  - apply Z.eqb_eq in Em as ->. cbn [Z.leb orb Z.ltb Z.compare Pos.compare Pos.compare_cont].
    unfold days_in. cbn [Z.eqb Pos.eqb]. subst d.
    destruct (leap (y + 1)), (decide _) as [Hl|Hl]; (destruct (_ <? _) eqn:E; [|]; try reflexivity; lia).
  - rewrite decide_True by (destruct (leap (y + 1)); lia). cbn [orb].
    assert (Hin : ∀ y', days_in y' m = days_in (y + 1) m) by (intros y'; rewrite (days_in_any y'), (days_in_any (y + 1)) by lia; done).
    rewrite Hin. destruct (d <? days_in (y + 1) m) eqn:E; [done|].
    destruct (m <? 12) eqn:E'.
    + replace (m mod 12) with m by (rewrite Z.mod_small; lia).
      destruct (m <=? 2) eqn:E2, (m + 1 <=? 2) eqn:E3; try done; lia.
    + replace m with 12 by lia. done.
Qed.

Lemma civil_day_facts n :
  civil_day (n + 1) = tomorrow (civil_day n) ∧ is_date (civil_day n) ∧
  let '(y, m, d) := civil_day n in days_civil y m d = n ∧ start (y - 1) ≤ n + 719468 < start (y + 1).
Proof.
  destruct (year_of_day n) as (y & Hy). replace n with (n + 719468 - 719468) at 1 2 3 4 by lia.
  replace (n + 719468 - 719468 + 1) with (n + 719468 + 1 - 719468) by lia.
  pose proof (start_next y) as Hlen. pose proof (start_next (y + 1)) as Hlen'.
  pose proof (start_next (y - 1)) as Hlen''. replace (y - 1 + 1) with y in Hlen'' by lia.
  set (doy := n + 719468 - start y).
  assert (Hdoy : 0 ≤ doy < 365 + (if leap (y + 1) then 1 else 0)) by (unfold doy; lia).
  assert (Hd : 0 ≤ doy ≤ 365) by (destruct (leap (y + 1)); lia).
  pose proof (tomorrow_step y doy Hdoy) as Hstep. pose proof (month_day_facts doy (y + 1) Hd) as Hm.
  rewrite (civil_day_of y (n + 719468)) by done. fold doy. split; [|].
  - destruct (month_day doy) as [m d]. rewrite Hstep. case_decide.
    + rewrite (civil_day_of y) by lia. by replace (n + 719468 + 1 - start y) with (doy + 1) by (unfold doy; lia).
    + rewrite (civil_day_of (y + 1)) by (destruct (leap (y + 1)), (leap (y + 1 + 1)); lia).
      replace (n + 719468 + 1 - start (y + 1)) with 0 by (unfold doy in *; lia). done.
  - destruct (month_day doy) as [m d]. destruct Hm as (H1 & H2 & H3 & H4 & _). split.
    + split; [done|]. destruct (m =? 2) eqn:Em; [|rewrite (days_in_any (y + 1)) in H3 by lia; rewrite days_in_any by lia; lia].
      apply Z.eqb_eq in Em as ->. cbn. unfold days_in. cbn. destruct (leap (y + 1)); lia.
    + unfold days_civil. rewrite H4. destruct (m <=? 2) eqn:E.
      * replace (y + 1 - 1) with y by lia. destruct (leap (y + 1 + 1)); unfold doy in *; lia.
      * destruct (leap y); unfold doy in *; lia.
Qed.

Lemma days_from_civil_exact y m d :
  - 10 ^ 12 ≤ y ≤ 10 ^ 12 → 1 ≤ m ≤ 12 → 1 ≤ d ≤ 31 → days_from_civil y m d = days_civil y m d.
Proof.
  intros Hy Hm Hd. unfold days_from_civil, days_civil.
  assert (Hw : wrap_i64 (y - 1) = y - 1) by (apply wrap_i64_small; lia).
  rewrite Hw. set (y' := if m <=? 2 then y - 1 else y).
  assert (Hy' : - 10 ^ 12 - 1 ≤ y' ≤ 10 ^ 12) by (unfold y'; destruct (m <=? 2); lia). clearbody y'.
  replace (y' - y' / 400 * 400) with (y' mod 400) by (pose proof (Z.div_mod y' 400); lia).
  assert (Hs : start y' = y' / 400 * 146097 + (y' mod 400 * 365 + y' mod 400 / 4 - y' mod 400 / 100)).
  { unfold start. Z.div_mod_to_equations; lia. }
  assert (Hb : 0 ≤ (153 * (if 2 <? m then m - 3 else m + 9) + 2) / 5 ≤ 400)
    by (destruct (2 <? m) eqn:E; Z.div_mod_to_equations; lia).
  rewrite wrap_i64_small; [lia|]. Z.div_mod_to_equations; lia.
Qed.

(** An instant of [i64]. *)
Definition instant (e : Z) : Prop := - 2 ^ 63 ≤ e < 2 ^ 63.

Lemma civil_ranges e :
  let c := civil e in
  is_date (cy c, cm c, cd c) ∧ 1 ≤ cm c ≤ 12 ∧ 1 ≤ cd c ≤ 31 ∧
  0 ≤ chh c ≤ 23 ∧ 0 ≤ cmm c ≤ 59 ∧ 0 ≤ css c ≤ 59.
Proof.
  unfold civil. destruct (civil_day_facts (e / 86400)) as (_ & Hd & _).
  destruct (civil_day (e / 86400)) as [[y m] d]. cbn in *. pose proof (days_in_31 y m).
  repeat split; try lia; Z.div_mod_to_equations; lia.
Qed.

Lemma civil_seconds e : chh (civil e) * 3600 + cmm (civil e) * 60 + css (civil e) = e mod 86400.
Proof. unfold civil. destruct (civil_day _) as [[y m] d]. cbn. Z.div_mod_to_equations; lia. Qed.

Lemma civil_date_fields e : civil_day (e / 86400) = (cy (civil e), cm (civil e), cd (civil e)).
Proof. unfold civil. by destruct (civil_day _) as [[y m] d]. Qed.

Lemma civil_days e :
  instant e → days_from_civil (cy (civil e)) (cm (civil e)) (cd (civil e)) = e / 86400.
Proof.
  unfold instant. intros He. pose proof (civil_ranges e) as (_ & Hm & Hd & _).
  pose proof (civil_day_facts (e / 86400)) as (_ & _ & Hf). rewrite civil_date_fields in Hf.
  destruct Hf as [Hdays Hy]. rewrite days_from_civil_exact; [done| |done|done].
  assert (He' : - 2 ^ 63 ≤ 86400 * (e / 86400) + 86400 ∧ 86400 * (e / 86400) < 2 ^ 63)
    by (Z.div_mod_to_equations; lia).
  unfold start in Hy. clear -Hy He'. Z.div_mod_to_equations; lia.
Qed.

(** ** Numbers of a fixed width *)

#[local] Ltac divide := zify; Z.div_mod_to_equations; lia.

(** The last [w] digits. *)
Fixpoint fixed (w : nat) (n : N) : string :=
  match w with
  | O => ""
  | S w => fixed w (n / 10)%N +:+ String (digit_char (n mod 10)) ""
  end.

Lemma show_go_acc fuel n acc : show_go fuel n acc = show_go fuel n "" +:+ acc.
Proof.
  induction fuel as [|fuel IH] in n, acc |- *; [done|]. cbn [show_go].
  destruct (n <? 10)%N; [done|]. rewrite IH, (IH (n / 10)%N (String _ "")), append_assoc. done.
Qed.

Lemma show_go_S fuel n acc :
  show_go (S fuel) n acc =
    if (n <? 10)%N then String (digit_char (n mod 10)) acc
    else show_go fuel (n / 10) (String (digit_char (n mod 10)) acc).
Proof. done. Qed.

Lemma show_go_enough f g n :
  (n < 2 ^ N.of_nat f)%N → (n < 2 ^ N.of_nat g)%N → show_go (S f) n "" = show_go (S g) n "".
Proof.
  induction f as [|f IH] in g, n |- *; intros Hf Hg.
  - cbn in Hf. assert (n = 0)%N as -> by lia. done.
  - rewrite (show_go_S (S f)), (show_go_S g). destruct (n <? 10)%N eqn:E; [done|]. apply N.ltb_ge in E.
    destruct g as [|g]; [cbn in Hg; lia|].
    rewrite Nat2N.inj_succ, N.pow_succ_r' in Hf, Hg.
    rewrite (show_go_acc (S f)), (show_go_acc (S g)). f_equal. apply IH; divide.
Qed.

Lemma size_bound n : (n < 2 ^ N.of_nat (N.size_nat n))%N.
Proof.
  destruct n as [|p]; [cbn; lia|]. pose proof (N_size_nat_bound (Npos p)) as H. cbn [N.size_nat] in *.
  assert (E : ∀ q, N.of_nat (Pos.size_nat q) = Npos (Pos.size q)).
  { induction q as [q IH|q IH|]; cbn [Pos.size Pos.size_nat]; [rewrite Nat2N.inj_succ, IH..|]; reflexivity. }
  rewrite E. exact (Pos.size_gt p).
Qed.

Lemma show_N_tens n :
  (10 ≤ n)%N → show_N n = show_N (n / 10) +:+ String (digit_char (n mod 10)) "".
Proof.
  intros Hn. unfold show_N. rewrite (show_go_S _ n). destruct (N.ltb_spec n 10); [lia|].
  pose proof (size_bound n) as Hb. pose proof (size_bound (n / 10)) as Hb'.
  rewrite show_go_acc. f_equal. destruct (N.size_nat n) as [|s]; [cbn in Hb; lia|].
  apply show_go_enough; [|done]. rewrite Nat2N.inj_succ, N.pow_succ_r' in Hb.
  divide.
Qed.

Lemma pad_append w s c : pad_zeros (S w) (s +:+ String c "") = pad_zeros w s +:+ String c "".
Proof. unfold pad_zeros. rewrite string_length_append, append_assoc. cbn [String.length]. by replace (S w - _)%nat with (w - String.length s)%nat by lia. Qed.

Lemma fixed_zeros w : fixed w 0 = of_chars (replicate w "0"%char).
Proof.
  induction w as [|w IH]; [done|]. cbn [fixed]. change (0 / 10)%N with 0%N. rewrite IH.
  apply chars_inj. by rewrite chars_append, !chars_of_chars, replicate_S_end.
Qed.

(** What is padded to a width it does not pass is its last digits. *)
Lemma pad_fixed w n : (n < 10 ^ N.of_nat (S w))%N → pad_zeros (S w) (show_N n) = fixed (S w) n.
Proof.
  induction w as [|w IH] in n |- *; intros Hn.
  - change (10 ^ N.of_nat 1)%N with 10%N in Hn. unfold show_N. rewrite show_go_S.
    destruct (N.ltb_spec n 10); [done|lia].
  - rewrite Nat2N.inj_succ, N.pow_succ_r' in Hn. destruct (decide (n < 10)%N) as [Hlt|Hge].
    + unfold show_N. rewrite show_go_S. destruct (N.ltb_spec n 10); [|lia].
      unfold pad_zeros. cbn [String.length]. cbn [fixed]. rewrite (N.div_small n 10) by done.
      change (fixed w (0 / 10) +:+ _) with (fixed (S w) 0). rewrite fixed_zeros.
      by replace (S (S w) - 1)%nat with (S w) by lia.
    + rewrite show_N_tens by lia. rewrite pad_append, IH; [done|]. divide.
Qed.

Lemma show_pad_fixed w z : 0 ≤ z < 10 ^ Z.of_nat (S w) → show_pad (S w) z = fixed (S w) (Z.to_N z).
Proof.
  intros Hz. rewrite <- pad_fixed.
  - destruct z; [done|done|lia].
  - change 10%N with (Z.to_N 10). rewrite <- (N2Z.id (N.of_nat (S w))), nat_N_Z, <- Z2N.inj_pow by lia. lia.
Qed.

Lemma length_fixed w n : String.length (fixed w n) = w.
Proof. induction w as [|w IH] in n |- *; [done|]. cbn [fixed]. rewrite string_length_append, IH. cbn. lia. Qed.

Lemma fixed_digits w n : str_all is_digit (fixed w n) = true.
Proof.
  induction w as [|w IH] in n |- *; [done|]. cbn [fixed]. rewrite str_all_append, IH. cbn [str_all].
  by rewrite is_digit_char by (apply N.mod_lt; lia).
Qed.

Lemma parse_digits_app acc s t :
  parse_digits acc (s +:+ t) = parse_digits acc s ≫= λ a, parse_digits a t.
Proof.
  induction s as [|c s IH] in acc |- *; [done|]. rewrite append_cons. cbn [parse_digits].
  destruct (is_digit c); [apply IH|done].
Qed.

Lemma parse_fixed w n : (n < 10 ^ N.of_nat w)%N → parse_digits 0 (fixed w n) = Some n.
Proof.
  induction w as [|w IH] in n |- *; intros Hn; [cbn in *; f_equal; lia|]. cbn [fixed].
  rewrite Nat2N.inj_succ, N.pow_succ_r' in Hn. rewrite parse_digits_app, IH by divide.
  cbn [mbind option_bind]. rewrite parse_digits_cons; [|apply N.mod_lt; lia].
  cbn [parse_digits]. f_equal. divide.
Qed.

(** A field is read back as its number. *)
Lemma parse_pad w z :
  0 ≤ z < 10 ^ Z.of_nat (S w) → z < 2 ^ 63 → parse_i64 (show_pad (S w) z) = Some z.
Proof.
  intros Hz Hb. rewrite show_pad_fixed by done. pose proof (fixed_digits (S w) (Z.to_N z)) as Hd.
  pose proof (length_fixed (S w) (Z.to_N z)) as Hl.
  assert (Hp : parse_digits 0 (fixed (S w) (Z.to_N z)) = Some (Z.to_N z)).
  { apply parse_fixed. change 10%N with (Z.to_N 10).
    rewrite <- (N2Z.id (N.of_nat (S w))), nat_N_Z, <- Z2N.inj_pow by lia. lia. }
  unfold parse_i64, parse_uint. destruct (fixed _ _) as [|c s] eqn:E; [done|]. clear E.
  apply str_all_head in Hd.
  destruct (strip_prefix "-" (String c s)) eqn:E1.
  { apply strip_prefix_Some in E1. injection E1 as -> _. done. }
  destruct (strip_prefix "+" (String c s)) eqn:E2.
  { apply strip_prefix_Some in E2. injection E2 as -> _. done. }
  cbn [default str_is_empty]. unfold default, id. cbn [str_is_empty]. rewrite Hp. cbn.
  rewrite decide_True by lia. cbn. f_equal. lia.
Qed.

(** ** Texts *)

Definition ascii_char (c : ascii) : bool := (byte_of c <? 128)%N.

Lemma digit_ascii c : is_digit c = true → ascii_char c = true.
Proof. unfold is_digit, ascii_char. rewrite andb_true_iff, !N.leb_le, N.ltb_lt. lia. Qed.

Lemma fixed_ascii w n : str_all ascii_char (fixed w n) = true.
Proof. apply (str_all_impl is_digit); [apply digit_ascii|apply fixed_digits]. Qed.

Lemma fixed_no_char c w n : is_digit c = false → contains_char c (fixed w n) = false.
Proof. intros Hc. eapply str_all_contains_char; [apply fixed_digits|done]. Qed.

Lemma get_to_append s t : str_all ascii_char t = true → get_to (String.length s) (s +:+ t) = Some s.
Proof.
  intros Ht. induction s as [|c s IH]; cbn [String.length].
  - change ("" +:+ t) with t. destruct t as [|c t]; [done|]. cbn. apply str_all_head in Ht. unfold ascii_char, is_cont in *.
    apply N.ltb_lt in Ht. destruct (N.leb_spec 128 (byte_of c)); [lia|done].
  - rewrite append_cons. cbn [get_to]. by rewrite IH.
Qed.

Lemma substring_append s t u : String.substring (String.length s) (String.length t) (s +:+ t +:+ u) = t.
Proof.
  induction s as [|c s IH]; [|exact IH].
  cbn [String.length]. change ("" +:+ ?x) with x.
  induction t as [|c t IH]; [change ("" +:+ u) with u; by destruct u|].
  rewrite append_cons. cbn in *. by f_equal.
Qed.

Lemma field_at a n pre mid post :
  String.length pre = a → String.length mid = n → str_all ascii_char (mid +:+ post) = true →
  field a n (pre +:+ mid +:+ post) = parse_i64 mid.
Proof.
  intros <- <- Ha. unfold field. rewrite substring_append.
  rewrite <- string_length_append, <- append_assoc, get_to_append; cycle 1.
  { rewrite str_all_append in Ha. by apply andb_true_iff in Ha as [_ ?]. }
  rewrite append_assoc, get_to_append by done. done.
Qed.

(** The parts of a text of a date and an hour. *)
Definition day_text (c : Civil) : string :=
  show_pad 4 (cy c) +:+ "-" +:+ show_pad 2 (cm c) +:+ "-" +:+ show_pad 2 (cd c).
Definition hour_text (c : Civil) : string :=
  show_pad 2 (chh c) +:+ ":" +:+ show_pad 2 (cmm c) +:+ ":" +:+ show_pad 2 (css c).
(** What such a text can say: a year of four digits, and two for the rest. *)
Definition writable (c : Civil) : Prop :=
  0 ≤ cy c ≤ 9999 ∧ 0 ≤ cm c ≤ 99 ∧ 0 ≤ cd c ≤ 99 ∧ 0 ≤ chh c ≤ 99 ∧ 0 ≤ cmm c ≤ 99 ∧ 0 ≤ css c ≤ 99.

Lemma date_time_parts c : date_time c = day_text c +:+ " " +:+ hour_text c.
Proof. unfold date_time, day_text, hour_text. by rewrite !append_assoc. Qed.

#[local] Arguments civil : simpl never.

(** The fields as digits of their width. *)
Lemma day_text_fixed c :
  writable c →
  day_text c = fixed 4 (Z.to_N (cy c)) +:+ String "-" (fixed 2 (Z.to_N (cm c)) +:+ String "-" (fixed 2 (Z.to_N (cd c)))).
Proof. unfold writable, day_text. intros H. rewrite !show_pad_fixed by (cbn; lia). done. Qed.
Lemma hour_text_fixed c :
  writable c →
  hour_text c = fixed 2 (Z.to_N (chh c)) +:+ String ":" (fixed 2 (Z.to_N (cmm c)) +:+ String ":" (fixed 2 (Z.to_N (css c)))).
Proof. unfold writable, hour_text. intros H. rewrite !show_pad_fixed by (cbn; lia). done. Qed.

Lemma parse_fixed_i64 w z :
  (w ≤ 3)%nat → 0 ≤ z < 10 ^ Z.of_nat (S w) → parse_i64 (fixed (S w) (Z.to_N z)) = Some z.
Proof.
  intros Hw Hz. rewrite <- show_pad_fixed by done. apply parse_pad; [done|].
  enough (10 ^ Z.of_nat (S w) ≤ 10 ^ 4) by lia. apply Z.pow_le_mono_r; lia.
Qed.

#[local] Ltac no_char :=
  repeat first [rewrite contains_char_append | rewrite contains_char_cons | rewrite fixed_no_char by done]; done.

Lemma parse_date_text c :
  writable c →
  parse_date (day_text c) =
    if (1 <=? cm c) && (cm c <=? 12) && ((1 <=? cd c) && (cd c <=? 31))
    then Some (cy c, cm c, cd c) else None.
Proof.
  intros Hc. rewrite day_text_fixed by done. unfold writable in Hc. unfold parse_date.
  rewrite !split_char_cons, split_char_one by no_char.
  rewrite !parse_fixed_i64 by (cbn; lia). done.
Qed.

Lemma fixed_last w n : ∃ r d, fixed (S w) n = r +:+ String d "" ∧ is_digit d = true.
Proof. exists (fixed w (n / 10)), (digit_char (n mod 10)). split; [done|]. apply is_digit_char, N.mod_lt. lia. Qed.

(** The text of an hour ends in a digit. *)
Lemma hour_text_last c : writable c → ∃ r d, hour_text c = r +:+ String d "" ∧ is_digit d = true.
Proof.
  intros Hc. rewrite hour_text_fixed by done. destruct (fixed_last 1 (Z.to_N (css c))) as (r & d & -> & Hd).
  exists (fixed 2 (Z.to_N (chh c)) +:+ String ":" (fixed 2 (Z.to_N (cmm c)) +:+ String ":" r)), d.
  split; [|done]. by rewrite (append_assoc (fixed 2 (Z.to_N (chh c)))), append_cons, append_assoc, append_cons.
Qed.

Lemma trim_Z s d z :
  is_digit d = true → z ∈ [""; "Z"] →
  trim_end_matches "Z" ((s +:+ String d "") +:+ z) = s +:+ String d "".
Proof.
  intros Hd Hz. unfold trim_end_matches. set (t := s +:+ String d "").
  assert (Hr : trim_start_matches "Z" (String.rev t) = String.rev t).
  { unfold t. rewrite rev_append. change (String.rev (String d "")) with (String d "").
    change (String d "" +:+ ?x) with (String d x). cbn [trim_start_matches].
    rewrite decide_False; [done|]. by intros ->. }
  rewrite rev_append, !elem_of_cons, elem_of_nil in *. destruct Hz as [->|[->|[]]].
  - change (String.rev "" +:+ ?x) with x. rewrite Hr. apply rev_involutive.
  - change (String.rev "Z" +:+ ?x) with (String "Z" x). cbn [trim_start_matches].
    rewrite decide_True, Hr by done. apply rev_involutive.
Qed.

Lemma parse_hour_text c z :
  writable c → z ∈ [""; "Z"] →
  parse_hour (hour_text c +:+ z) =
    if (23 <? chh c) || (59 <? cmm c) || (59 <? css c) then None else Some (chh c, cmm c, css c).
Proof.
  intros Hc Hz. unfold parse_hour. destruct (hour_text_last c Hc) as (r & d & E & Hd).
  rewrite E, trim_Z, <- E, hour_text_fixed by done. unfold writable in Hc.
  rewrite !split_char_cons, split_char_one by no_char.
  rewrite !parse_fixed_i64 by (cbn; lia). done.
Qed.

(** The text of a date and an hour: what stands between them, and a [Z] or not after. *)
Lemma split_date_hour c sep z :
  writable c → sep ∈ ["T"%char; " "%char] →
  split_once_by (λ c, bool_decide (c = "T"%char) || bool_decide (c = " "%char))
    (day_text c +:+ String sep (hour_text c +:+ z)) = Some (day_text c, hour_text c +:+ z).
Proof.
  intros Hc Hsep. set (p := λ c, _).
  assert (H : ∀ s t, str_all (λ c, negb (p c)) s = true → p sep = true →
    split_once_by p (s +:+ String sep t) = Some (s, t)).
  { intros s t Hs Hp. induction s as [|a s IH].
    - change ("" +:+ ?x) with x. cbn. by rewrite Hp.
    - cbn in Hs. apply andb_true_iff in Hs as [Ha Hs]. rewrite append_cons. cbn.
      apply negb_true_iff in Ha as ->. by rewrite IH. }
  apply H.
  - rewrite day_text_fixed by done.
    assert (Hf : ∀ w n, str_all (λ c, negb (p c)) (fixed w n) = true).
    { intros w n. apply (str_all_impl is_digit); [|apply fixed_digits].
      intros a Ha. unfold p. destruct (decide (a = "T"%char)) as [->|]; [done|].
      destruct (decide (a = " "%char)) as [->|]; [done|]. by rewrite !bool_decide_eq_false_2. }
    rewrite str_all_append. cbn [str_all]. rewrite str_all_append. cbn [str_all]. by rewrite !Hf.
  - rewrite !elem_of_cons, elem_of_nil in Hsep. by destruct Hsep as [->|[->|[]]].
Qed.

Lemma trim_date_hour c sep z :
  writable c → z ∈ [""; "Z"] →
  trim (day_text c +:+ String sep (hour_text c +:+ z)) = day_text c +:+ String sep (hour_text c +:+ z).
Proof.
  intros Hc Hz. apply trim_graph.
  - intros a r E. rewrite day_text_fixed in E by done. pose proof (fixed_digits 4 (Z.to_N (cy c))) as Hd.
    pose proof (length_fixed 4 (Z.to_N (cy c))) as Hl. destruct (fixed 4 _) as [|b s]; [done|].
    rewrite !append_cons in E. injection E as -> _. apply is_graph_digit. by apply str_all_head in Hd.
  - intros a r E. destruct (hour_text_last c Hc) as (t & d & Et & Hd). rewrite Et in E.
    rewrite !elem_of_cons, elem_of_nil in Hz. apply (f_equal split_last) in E.
    rewrite split_last_append in E. destruct Hz as [->|[->|[]]].
    + rewrite append_nil_r, <- append_cons, <- append_assoc, split_last_append in E.
      injection E as _ ->. by apply is_graph_digit.
    + rewrite <- append_cons, <- append_assoc, split_last_append in E. by injection E as _ <-.
Qed.

(** ** Order *)

(** Year, month and day in one number. *)
Definition day_number (date : Z * Z * Z) : Z := let '(y, m, d) := date in (y * 100 + m) * 100 + d.

Lemma day_number_tomorrow date : is_date date → day_number date < day_number (tomorrow date).
Proof.
  destruct date as [[y m] d]. intros [Hm Hd]. pose proof (days_in_31 y m). unfold tomorrow.
  destruct (d <? _), (m <? 12); cbn; lia.
Qed.

Lemma day_number_mono a b : a < b → day_number (civil_day a) < day_number (civil_day b).
Proof.
  intros Hab. replace b with (a + 1 + Z.of_nat (Z.to_nat (b - a - 1))) by lia.
  assert (Hstep : ∀ n, day_number (civil_day n) < day_number (civil_day (n + 1))).
  { intros n. destruct (civil_day_facts n) as (-> & Hd & _). by apply day_number_tomorrow. }
  induction (Z.to_nat (b - a - 1)) as [|n IH]; [rewrite Z.add_0_r; apply Hstep|].
  etrans; [exact IH|]. rewrite Nat2Z.inj_succ. replace (a + 1 + Z.succ (Z.of_nat n)) with (a + 1 + Z.of_nat n + 1) by lia. apply Hstep.
Qed.

(** A date and an hour in one number. *)
Definition stamp (c : Civil) : Z :=
  ((((cy c * 100 + cm c) * 100 + cd c) * 100 + chh c) * 100 + cmm c) * 100 + css c.

Lemma stamp_mono a b : a < b → stamp (civil a) < stamp (civil b).
Proof.
  intros Hab. pose proof (civil_ranges a) as (_ & _ & _ & A1 & A2 & A3).
  pose proof (civil_ranges b) as (_ & _ & _ & B1 & B2 & B3).
  pose proof (civil_seconds a) as Sa. pose proof (civil_seconds b) as Sb.
  pose proof (Z.div_mod a 86400) as Da. pose proof (Z.div_mod b 86400) as Db.
  assert (Ea : day_number (civil_day (a / 86400)) = (cy (civil a) * 100 + cm (civil a)) * 100 + cd (civil a))
    by (by rewrite civil_date_fields).
  assert (Eb : day_number (civil_day (b / 86400)) = (cy (civil b) * 100 + cm (civil b)) * 100 + cd (civil b))
    by (by rewrite civil_date_fields).
  unfold stamp. rewrite <- Ea, <- Eb. assert (Hle : a / 86400 ≤ b / 86400) by (apply Z.div_le_mono; lia).
  destruct (decide (a / 86400 = b / 86400)) as [Heq|Hne]; [rewrite Heq in *; nia|].
  assert (Hlt : a / 86400 < b / 86400) by lia. apply day_number_mono in Hlt. lia.
Qed.

Lemma stamp_compare a b : (stamp (civil a) ?= stamp (civil b)) = (a ?= b).
Proof.
  destruct (Z.compare_spec a b) as [->|Hlt|Hgt]; [apply Z.compare_refl| |].
  - by apply Z.compare_lt_iff, stamp_mono.
  - by apply Z.compare_gt_iff, stamp_mono.
Qed.

(** Texts of one length, one after the other. *)
Lemma compare_append s s' t t' :
  String.length s = String.length s' →
  String.compare (s +:+ t) (s' +:+ t') = then_with (String.compare s s') (String.compare t t').
Proof.
  induction s as [|c s IH] in s' |- *; destruct s' as [|c' s']; intros Hl; [done|done|done|].
  rewrite !append_cons. cbn [String.compare]. injection Hl as Hl. rewrite IH by done.
  by destruct (Ascii.compare c c').
Qed.

Lemma compare_tens (a b c d : Z) k :
  0 ≤ c < k → 0 ≤ d < k → then_with (a ?= b) (c ?= d) = (a * k + c ?= b * k + d).
Proof.
  intros Hc Hd. unfold then_with.
  destruct (Z.compare_spec a b) as [->|H|H]; symmetry.
  - apply Zcompare_plus_compat.
  - apply Z.compare_lt_iff. nia.
  - apply Z.compare_gt_iff. nia.
Qed.

Lemma compare_digits m n :
  (m < 10)%N → (n < 10)%N → String.compare (String (digit_char m) "") (String (digit_char n) "") = (Z.of_N m ?= Z.of_N n).
Proof.
  intros Hm Hn. cbn [String.compare]. unfold Ascii.compare.
  change (N_of_ascii (digit_char m)) with (byte_of (digit_char m)).
  change (N_of_ascii (digit_char n)) with (byte_of (digit_char n)).
  rewrite !N_of_digit_char, N2Z.inj_compare by done.
  assert (E : (48 + m ?= 48 + n)%N = (m ?= n)%N).
  { destruct (N.compare_spec m n); [subst; apply N.compare_refl|apply N.compare_lt_iff|apply N.compare_gt_iff]; lia. }
  rewrite E. by destruct (m ?= n)%N.
Qed.

Lemma compare_fixed w m n : String.compare (fixed w m) (fixed w n) =
  (Z.of_N m mod 10 ^ Z.of_nat w ?= Z.of_N n mod 10 ^ Z.of_nat w).
Proof.
  induction w as [|w IH] in m, n |- *; [change (10 ^ Z.of_nat 0) with 1; by rewrite !Z.mod_1_r|]. cbn [fixed].
  rewrite compare_append by (by rewrite !length_fixed). rewrite IH, compare_digits by (apply N.mod_lt; lia).
  rewrite !N2Z.inj_div, !N2Z.inj_mod. change (Z.of_N 10) with 10.
  rewrite (compare_tens _ _ _ _ 10) by (apply Z.mod_pos_bound; lia).
  rewrite Nat2Z.inj_succ, Z.pow_succ_r, !Z.rem_mul_r by lia. f_equal; lia.
Qed.

Lemma compare_pad w a b :
  0 ≤ a < 10 ^ Z.of_nat (S w) → 0 ≤ b < 10 ^ Z.of_nat (S w) →
  String.compare (show_pad (S w) a) (show_pad (S w) b) = (a ?= b).
Proof.
  intros Ha Hb. rewrite !show_pad_fixed, compare_fixed by done. rewrite !Z2N.id, !Z.mod_small by lia. done.
Qed.

(** ** Theorems *)

(** The calendar of the code is the Gregorian one: 1970 starts at the instant zero, and each
    day of 86,400 seconds is followed by the next day of the calendar, whatever the years, with
    an hour that is what is left of the day. *)
Theorem civil_calendar e :
  let date e := (cy (civil e), cm (civil e), cd (civil e)) in
  date 0 = (1970, 1, 1) ∧ date (e + 86400) = tomorrow (date e) ∧ is_date (date e) ∧
  chh (civil e) * 3600 + cmm (civil e) * 60 + css (civil e) = e mod 86400 ∧
  0 ≤ chh (civil e) ≤ 23 ∧ 0 ≤ cmm (civil e) ≤ 59 ∧ 0 ≤ css (civil e) ≤ 59.
Proof.
  pose proof (civil_ranges e) as (Hd & _ & _ & H1 & H2 & H3).
  split; [done|]. split; [|split; [exact Hd|split; [apply civil_seconds|done]]].
  rewrite <- !civil_date_fields. replace ((e + 86400) / 86400) with (e / 86400 + 1).
  - apply civil_day_facts.
  - replace (e + 86400) with (e + 1 * 86400) by lia. by rewrite Z.div_add.
Qed.

Lemma days_civil_bound y m d :
  0 ≤ y ≤ 9999 → 1 ≤ m ≤ 12 → 1 ≤ d ≤ 31 → - 800000 ≤ days_civil y m d ≤ 3000000.
Proof.
  intros. unfold days_civil, start. destruct (m <=? 2) eqn:E1, (2 <? m) eqn:E2; try lia;
    Z.div_mod_to_equations; lia.
Qed.

Lemma civil_at c days :
  0 ≤ chh c ≤ 23 → 0 ≤ cmm c ≤ 59 → 0 ≤ css c ≤ 59 →
  let e := days * 86400 + chh c * 3600 + cmm c * 60 + css c in
  e / 86400 = days ∧ chh (civil e) = chh c ∧ cmm (civil e) = cmm c ∧ css (civil e) = css c.
Proof.
  intros H1 H2 H3 e. assert (Hd : e / 86400 = days) by (unfold e; Z.div_mod_to_equations; lia).
  assert (Hm : e mod 86400 = chh c * 3600 + cmm c * 60 + css c) by (unfold e; Z.div_mod_to_equations; lia).
  split; [done|]. unfold civil. destruct (civil_day _) as [[y m] d]. cbn. rewrite Hm.
  repeat split; Z.div_mod_to_equations; lia.
Qed.

(** An instant is made of its date's days and of its hour. *)
Lemma civil_instant e :
  e = e / 86400 * 86400 + chh (civil e) * 3600 + cmm (civil e) * 60 + css (civil e).
Proof. pose proof (civil_seconds e). pose proof (Z.div_mod e 86400). lia. Qed.

(** A date and an hour typed by hand are read as the one instant the calendar gives them, and
    refused when they are none (31 February, 24:00): [parse_utc] is the inverse of [civil] on
    every text of four digits of year, whichever separator is written and with or without [Z]. *)
Theorem parse_utc_spec c e sep z :
  writable c → sep ∈ ["T"%char; " "%char] → z ∈ [""; "Z"] →
  parse_utc (day_text c +:+ String sep (hour_text c +:+ z)) = Some e ↔ instant e ∧ civil e = c.
Proof.
  intros Hc Hsep Hz. unfold parse_utc. rewrite trim_date_hour, split_date_hour by done.
  cbn [mbind option_bind]. rewrite parse_date_text, parse_hour_text by done.
  unfold writable in Hc. split.
  - destruct ((1 <=? cm c) && _ && _) eqn:Ed; [|done]. cbn [mbind option_bind].
    destruct (_ || _) eqn:Eh; [done|]. cbn [mbind option_bind].
    rewrite days_from_civil_exact by lia. pose proof (days_civil_bound (cy c) (cm c) (cd c)).
    destruct (civil_at c (days_civil (cy c) (cm c) (cd c))) as (He & E1 & E2 & E3); [lia..|].
    rewrite wrap_i64_small by lia. case_bool_decide as Eq; [|done]. intros [= <-].
    split; [unfold instant; lia|]. revert Eq E1 E2 E3. destruct c as [y m d hh mm ss]. cbn [cy cm cd chh cmm css].
    generalize (civil (days_civil y m d * 86400 + hh * 3600 + mm * 60 + ss)).
    intros [y' m' d' hh' mm' ss']. cbn. congruence.
  - intros [He <-]. pose proof (civil_ranges e) as (_ & Hm & Hd & H1 & H2 & H3).
    destruct (_ && _) eqn:Ed; [|lia]. cbn [mbind option_bind]. destruct (_ || _) eqn:Eh; [lia|].
    cbn [mbind option_bind]. rewrite civil_days by done. rewrite <- civil_instant.
    rewrite wrap_i64_small by (unfold instant in He; lia). by rewrite bool_decide_eq_true_2.
Qed.

Lemma quot_nonneg a b : 0 ≤ a → 0 < b → Z.quot a b = a / b.
Proof. intros. apply Z.quot_div_nonneg; lia. Qed.

(** A division written for a dividend that may be negative. *)
Lemma quot_adjusted z b : 0 < b → Z.quot (if 0 <=? z then z else z - (b - 1)) b = z / b.
Proof.
  intros Hb. destruct (0 <=? z) eqn:E; [apply quot_nonneg; lia|].
  replace (z - (b - 1)) with (- (b - 1 - z)) by lia. rewrite Z.quot_opp_l by lia.
  rewrite quot_nonneg by lia. pose proof (Z.div_mod z b). pose proof (Z.mod_pos_bound z b).
  assert ((b - 1 - z) / b = - (z / b)); [|lia].
  symmetry. apply (Z.div_unique _ _ _ (b - 1 - z mod b)); lia.
Qed.

Lemma doe_bound z : 0 ≤ z - z / 146097 * 146097 < 146097.
Proof. pose proof (Z.div_mod z 146097). pose proof (Z.mod_pos_bound z 146097). lia. Qed.

(** The copies with truncating divisions compute the same date. *)
Lemma copies_civil_day days :
  let z := days + 719468 in
  let ere := z / 146097 in
  let doe := z - ere * 146097 in
  let yoe := Z.quot (doe - Z.quot doe 1460 + Z.quot doe 36524 - Z.quot doe 146096) 365 in
  let doy := doe - (365 * yoe + Z.quot yoe 4 - Z.quot yoe 100) in
  let mp := Z.quot (5 * doy + 2) 153 in
  let d := doy - Z.quot (153 * mp + 2) 5 + 1 in
  let m := if mp <? 10 then mp + 3 else mp - 9 in
  civil_day days = (if m <=? 2 then yoe + ere * 400 + 1 else yoe + ere * 400, m, d).
Proof.
  intros z ere. unfold civil_day. fold z. fold ere.
  assert (Hm : z mod 146097 = z - ere * 146097) by (unfold ere; pose proof (Z.div_mod z 146097); lia).
  rewrite Hm. pose proof (doe_bound z) as Hb. fold ere in Hb. generalize dependent (z - ere * 146097).
  clearbody z ere. intros doe _ Hb.
  destruct (year_exists doe Hb) as (y & Hy & Hs). pose proof (start_next y).
  rewrite !(quot_nonneg doe) by lia.
  rewrite (quot_nonneg _ 365), (year_of_era y doe) by (try done; Z.div_mod_to_equations; lia). cbv zeta.
  rewrite !(quot_nonneg y) by lia.
  assert (Hd : 0 ≤ doe - (365 * y + y / 4 - y / 100)) by (unfold start in Hs; Z.div_mod_to_equations; lia).
  rewrite (quot_nonneg _ 153) by lia.
  rewrite (quot_nonneg _ 5) by (try done; Z.div_mod_to_equations; lia). done.
Qed.

Lemma days_of_civil y m d : 1 ≤ m ≤ 12 → 1 ≤ d → days_of y m d = days_civil y m d.
Proof.
  intros Hm Hd. unfold days_of, days_civil. set (y' := if m <=? 2 then y - 1 else y). clearbody y'.
  assert (Hr : Z.rem (m + 9) 12 = if 2 <? m then m - 3 else m + 9).
  { rewrite Z.rem_mod_nonneg by lia. destruct (2 <? m) eqn:E; [|rewrite Z.mod_small; lia].
    replace (m + 9) with (m - 3 + 1 * 12) by lia. rewrite Z.mod_add, Z.mod_small; lia. }
  rewrite Hr. pose proof (Z.mod_pos_bound y' 400). pose proof (Z.div_mod y' 400).
  assert (0 ≤ y' - y' / 400 * 400 ≤ 399) by lia.
  rewrite !(quot_nonneg _ 4), !(quot_nonneg _ 100), !(quot_nonneg _ 5) by (try destruct (2 <? m) eqn:E; lia).
  unfold start. destruct (2 <? m); Z.div_mod_to_equations; lia.
Qed.

Lemma docker_days_civil y m d :
  0 ≤ y ≤ 9999 → 1 ≤ m ≤ 12 → 1 ≤ d ≤ 31 → docker_days y m d = days_civil y m d.
Proof.
  intros Hy Hm Hd. unfold docker_days, days_civil.
  assert (Ha : wrap_i64 (y - (if m <=? 2 then 1 else 0)) = if m <=? 2 then y - 1 else y).
  { rewrite wrap_i64_small by (destruct (m <=? 2); lia). destruct (m <=? 2); lia. }
  rewrite Ha. clear Ha. set (y' := if m <=? 2 then y - 1 else y).
  assert (Hy' : - 1 ≤ y' ≤ 9999) by (unfold y'; destruct (m <=? 2); lia). clearbody y'.
  rewrite (wrap_i64_small (y' - 399)) by lia. pose proof (quot_adjusted y' 400 ltac:(lia)) as Hq.
  change (400 - 1) with 399 in Hq. rewrite Hq. clear Hq.
  pose proof (Z.mod_pos_bound y' 400). pose proof (Z.div_mod y' 400).
  rewrite (wrap_i64_small (y' - _)) by lia.
  assert (Hyr : 0 ≤ y' - y' / 400 * 400 ≤ 399) by lia.
  rewrite !(quot_nonneg _ 4), !(quot_nonneg _ 100) by lia.
  rewrite (wrap_i64_small (153 * _ + 2)) by (destruct (2 <? m) eqn:E; lia).
  rewrite (quot_nonneg _ 5) by (destruct (2 <? m) eqn:E; lia).
  replace (m + (if 2 <? m then -3 else 9)) with (if 2 <? m then m - 3 else m + 9) by (destruct (2 <? m); lia).
  assert (Hb : 0 ≤ (153 * (if 2 <? m then m - 3 else m + 9) + 2) / 5 ≤ 400)
    by (destruct (2 <? m) eqn:E; Z.div_mod_to_equations; lia).
  set (q := (153 * _ + 2) / 5) in *. clearbody q.
  assert (Hyoe : 0 ≤ (y' - y' / 400 * 400) / 4 ≤ 100 ∧ 0 ≤ (y' - y' / 400 * 400) / 100 ≤ 4)
    by (clear Hb q; Z.div_mod_to_equations; lia).
  rewrite (wrap_i64_small (q + d - 1)) by lia.
  rewrite (wrap_i64_small (_ + (q + d - 1))) by lia.
  assert (Hera : - 1 ≤ y' / 400 ≤ 25) by (clear Hb Hyoe q; Z.div_mod_to_equations; lia).
  rewrite wrap_i64_small by lia.
  unfold start. clear Hb Hyoe Hera. Z.div_mod_to_equations; lia.
Qed.

(** The dates Homelabus writes are one date: the status history, the runbook and the
    signature of an S3 request each carry a copy of the algorithm, and for every instant write
    the year, month, day and hour of [civil]. *)
Theorem dates_rendered e :
  let c := civil e in
  civil_date e = day_text c ∧
  readable_timestamp e = day_text c +:+ " " +:+ show_pad 2 (chh c) +:+ ":" +:+ show_pad 2 (cmm c) ∧
  amz_date e = show_pad 4 (cy c) +:+ show_pad 2 (cm c) +:+ show_pad 2 (cd c) +:+ "T" +:+
    show_pad 2 (chh c) +:+ show_pad 2 (cmm c) +:+ show_pad 2 (css c) +:+ "Z".
Proof.
  pose proof (copies_civil_day (e / 86400)) as Hday. rewrite civil_date_fields in Hday. cbv zeta in Hday.
  apply pair_equal_spec in Hday as [[Hy Hm]%pair_equal_spec Hd].
  pose proof (Z.mod_pos_bound e 86400 ltac:(lia)) as Hr.
  assert (Hh : chh (civil e) = e mod 86400 / 3600 ∧ cmm (civil e) = e mod 86400 mod 3600 / 60 ∧
    css (civil e) = e mod 86400 mod 60) by (unfold civil; by destruct (civil_day _) as [[? ?] ?]).
  destruct Hh as (Hh & Hmi & Hs). unfold day_text. rewrite Hy, Hm, Hd, Hh, Hmi, Hs. clear Hy Hm Hd Hh Hmi Hs.
  pose proof (quot_adjusted (e / 86400 + 719468) 146097 ltac:(lia)) as Hq. change (146097 - 1) with 146096 in Hq.
  unfold civil_date, readable_timestamp, amz_date. rewrite Hq. clear Hq.
  rewrite !(quot_nonneg (e mod 86400)) by lia. rewrite !Z.rem_mod_nonneg by lia.
  rewrite (quot_nonneg (_ mod 3600)) by (try apply Z.mod_pos_bound; lia).
  split; [done|]. split; [by rewrite !append_assoc|].
  destruct (_ <=? 2); [done|]. by rewrite !Z.add_0_r.
Qed.

Lemma until_fraction_text s a r :
  str_all (λ c, is_digit c || bool_decide (c = ":"%char)) s = true → a ∈ ["."%char; "Z"%char] →
  until_fraction (s +:+ String a r) = s.
Proof.
  intros Hs Ha. rewrite !elem_of_cons, elem_of_nil in Ha. induction s as [|c s IH].
  - change ("" +:+ ?x) with x. by destruct Ha as [->|[->|[]]].
  - cbn [str_all] in Hs. apply andb_true_iff in Hs as [Hc Hs]. rewrite append_cons. cbn.
    rewrite IH by done. destruct (decide (c = "."%char)) as [->|]; [done|].
    destruct (decide (c = "Z"%char)) as [->|]; [done|]. by rewrite !bool_decide_eq_false_2.
Qed.

Lemma writable_civil e : 0 ≤ cy (civil e) ≤ 9999 → writable (civil e).
Proof.
  intros H. destruct (civil_ranges e) as (_ & H1 & H2 & H3 & H4 & H5). unfold writable.
  split; [done|]. lia.
Qed.

Lemma days_civil_at e :
  days_civil (cy (civil e)) (cm (civil e)) (cd (civil e)) = e / 86400.
Proof.
  pose proof (civil_day_facts (e / 86400)) as (_ & _ & Hf). rewrite civil_date_fields in Hf. apply Hf.
Qed.

Lemma unix_timestamp_reads e a r :
  0 ≤ cy (civil e) ≤ 9999 → a ∈ ["."%char; "Z"%char] →
  unix_timestamp (day_text (civil e) +:+ String "T" (hour_text (civil e) +:+ String a r)) = Some e.
Proof.
  intros Hy Ha. pose proof (writable_civil e Hy) as Hc. pose proof (civil_ranges e) as (_ & Hm & Hd & H1 & H2 & H3).
  pose proof (days_civil_at e) as Hdays. pose proof (civil_instant e) as Hi. unfold unix_timestamp.
  rewrite split_once_append by (rewrite day_text_fixed by done; no_char). cbn [mbind option_bind].
  assert (Hh : until_fraction (hour_text (civil e) +:+ String a r) = hour_text (civil e)).
  { apply until_fraction_text; [|done]. rewrite hour_text_fixed by done.
    assert (Hf : ∀ w n, str_all (λ c, is_digit c || bool_decide (c = ":"%char)) (fixed w n) = true).
    { intros w n. apply (str_all_impl is_digit); [|apply fixed_digits]. by intros x ->. }
    rewrite str_all_append. cbn [str_all]. rewrite str_all_append. cbn [str_all]. by rewrite !Hf. }
  rewrite Hh. rewrite day_text_fixed, hour_text_fixed by done. unfold writable in Hc.
  rewrite (split_once_append "-" (fixed 4 _)) by no_char. cbn [mbind option_bind].
  rewrite (split_once_append "-" (fixed 2 _)) by no_char. cbn [mbind option_bind].
  rewrite !split_char_cons, split_char_one by no_char.
  rewrite !parse_fixed_i64 by (cbn; lia). cbn [mbind option_bind].
  rewrite docker_days_civil, Hdays, <- Hi by lia. rewrite wrap_i64_small; [done|].
  pose proof (days_civil_bound (cy (civil e)) (cm (civil e)) (cd (civil e))). lia.
Qed.

(** A field between what stands before it and after it. *)
Lemma field_in t a n pre mid post :
  t = pre +:+ mid +:+ post → String.length pre = a → String.length mid = n →
  str_all ascii_char (mid +:+ post) = true → field a n t = parse_i64 mid.
Proof. intros ->. apply field_at. Qed.

(** The six fields of a text of digits, whatever ASCII texts stand between them. *)
Lemma six_fields w0 (n0 n1 n2 n3 n4 n5 : N) b1 b2 b3 b4 b5 b6 t :
  t = fixed w0 n0 +:+ b1 +:+ fixed 2 n1 +:+ b2 +:+ fixed 2 n2 +:+ b3 +:+ fixed 2 n3 +:+ b4 +:+
      fixed 2 n4 +:+ b5 +:+ fixed 2 n5 +:+ b6 →
  Forall (λ b, str_all ascii_char b = true) [b1; b2; b3; b4; b5; b6] →
  let l := String.length in
  field 0 w0 t = parse_i64 (fixed w0 n0) ∧
  field (w0 + l b1) 2 t = parse_i64 (fixed 2 n1) ∧
  field (w0 + 2 + l b1 + l b2) 2 t = parse_i64 (fixed 2 n2) ∧
  field (w0 + 4 + l b1 + l b2 + l b3) 2 t = parse_i64 (fixed 2 n3) ∧
  field (w0 + 6 + l b1 + l b2 + l b3 + l b4) 2 t = parse_i64 (fixed 2 n4) ∧
  field (w0 + 8 + l b1 + l b2 + l b3 + l b4 + l b5) 2 t = parse_i64 (fixed 2 n5).
Proof.
  intros -> Hb. rewrite !Forall_cons in Hb. destruct Hb as (H1 & H2 & H3 & H4 & H5 & H6 & _). cbv zeta.
  set (p1 := fixed w0 n0 +:+ b1). set (p2 := p1 +:+ fixed 2 n1 +:+ b2). set (p3 := p2 +:+ fixed 2 n2 +:+ b3).
  set (p4 := p3 +:+ fixed 2 n3 +:+ b4). set (p5 := p4 +:+ fixed 2 n4 +:+ b5).
  assert (Ha : ∀ t, str_all ascii_char t = true → ∀ w n b, str_all ascii_char b = true →
    str_all ascii_char (fixed w n +:+ b +:+ t) = true).
  { intros t Ht w' n b Hb. by rewrite !str_all_append, fixed_ascii, Hb, Ht. }
  assert (A5 : str_all ascii_char (fixed 2 n5 +:+ b6) = true) by (by rewrite str_all_append, fixed_ascii).
  assert (A4 := Ha _ A5 2%nat n4 b5 H5). assert (A3 := Ha _ A4 2%nat n3 b4 H4).
  assert (A2 := Ha _ A3 2%nat n2 b3 H3). assert (A1 := Ha _ A2 2%nat n1 b2 H2).
  assert (A0 := Ha _ A1 w0 n0 b1 H1).
  repeat split.
  - eapply (field_in _ _ _ ""); [done|done|apply length_fixed|done].
  - eapply (field_in _ _ _ p1); [|unfold p1; by rewrite string_length_append, length_fixed|apply length_fixed|done].
    unfold p1. by rewrite !append_assoc.
  - eapply (field_in _ _ _ p2); [| |apply length_fixed|done].
    + unfold p2, p1. by rewrite !append_assoc.
    + unfold p2, p1. rewrite !string_length_append, !length_fixed. lia.
  - eapply (field_in _ _ _ p3); [| |apply length_fixed|done].
    + unfold p3, p2, p1. by rewrite !append_assoc.
    + unfold p3, p2, p1. rewrite !string_length_append, !length_fixed. lia.
  - eapply (field_in _ _ _ p4); [| |apply length_fixed|done].
    + unfold p4, p3, p2, p1. by rewrite !append_assoc.
    + unfold p4, p3, p2, p1. rewrite !string_length_append, !length_fixed. lia.
  - eapply (field_in _ _ _ p5); [| |apply length_fixed|done].
    + unfold p5, p4, p3, p2, p1. by rewrite !append_assoc.
    + unfold p5, p4, p3, p2, p1. rewrite !string_length_append, !length_fixed. lia.
Qed.

Lemma epoch_of_reads e r :
  0 ≤ cy (civil e) ≤ 9999 → str_all ascii_char r = true →
  epoch_of (day_text (civil e) +:+ String "T" (hour_text (civil e) +:+ r)) = Some e.
Proof.
  intros Hy Hr. pose proof (writable_civil e Hy) as Hc. pose proof (civil_ranges e) as (_ & Hm & Hd & H1 & H2 & H3).
  pose proof (days_civil_at e) as Hdays. pose proof (civil_instant e) as Hi.
  edestruct (six_fields 4 (Z.to_N (cy (civil e))) (Z.to_N (cm (civil e))) (Z.to_N (cd (civil e)))
    (Z.to_N (chh (civil e))) (Z.to_N (cmm (civil e))) (Z.to_N (css (civil e))) "-" "-" "T" ":" ":" r)
    as (F0 & F1 & F2 & F3 & F4 & F5); [|by repeat constructor|].
  { reflexivity. }
  rewrite day_text_fixed, hour_text_fixed by done.
  match goal with |- epoch_of ?u = _ => match type of F0 with field _ _ ?t = _ => replace u with t end end; cycle 1.
  { by repeat (rewrite append_assoc || rewrite append_cons). }
  cbn [String.length Nat.add] in *. unfold epoch_of. rewrite F0, F1, F2, F3, F4, F5. unfold writable in Hc.
  rewrite !parse_fixed_i64 by (cbn; lia). cbn [mbind option_bind].
  rewrite days_of_civil, Hdays by lia. by rewrite <- Hi.
Qed.

Lemma get_from_append s t n :
  String.length s = n → str_all ascii_char t = true → get_from n (s +:+ t) = Some t.
Proof.
  intros <- Ht. unfold get_from. rewrite get_to_append by done. cbn [mbind option_bind].
  replace (String.length (s +:+ t) - String.length s)%nat with (String.length t)
    by (rewrite string_length_append; lia).
  pose proof (substring_append s t "") as H. by rewrite append_nil_r in H; rewrite H.
Qed.

(** The ten digits after the year of a time of a certificate. *)
Definition ten_digits (c : Civil) : string :=
  fixed 2 (Z.to_N (cm c)) +:+ fixed 2 (Z.to_N (cd c)) +:+ fixed 2 (Z.to_N (chh c)) +:+
  fixed 2 (Z.to_N (cmm c)) +:+ fixed 2 (Z.to_N (css c)).

Lemma asn1_reads e :
  0 ≤ cy (civil e) ≤ 9999 →
  asn1_time 24 (fixed 4 (Z.to_N (cy (civil e))) +:+ ten_digits (civil e) +:+ "Z") = Some e ∧
  (1950 ≤ cy (civil e) ≤ 2049 →
    asn1_time 23 (fixed 2 (Z.to_N (cy (civil e) mod 100)) +:+ ten_digits (civil e) +:+ "Z") = Some e).
Proof.
  intros Hy. pose proof (writable_civil e Hy) as Hc. pose proof (civil_ranges e) as (_ & Hm & Hd & H1 & H2 & H3).
  pose proof (days_civil_at e) as Hdays. pose proof (civil_instant e) as Hi. unfold writable in Hc.
  destruct (six_fields 0 0 (Z.to_N (cm (civil e))) (Z.to_N (cd (civil e)))
    (Z.to_N (chh (civil e))) (Z.to_N (cmm (civil e))) (Z.to_N (css (civil e))) "" "" "" "" "" ""
    (ten_digits (civil e))) as (_ & F1 & F2 & F3 & F4 & F5); [by rewrite append_nil_r|by repeat constructor|].
  cbn [String.length Nat.add] in F1, F2, F3, F4, F5. set (R := ten_digits (civil e)) in *.
  assert (HR : str_all ascii_char R = true)
    by (unfold R, ten_digits; by rewrite !str_all_append, !fixed_ascii).
  assert (Hl : String.length R = 10%nat)
    by (unfold R, ten_digits; by rewrite !string_length_append, !length_fixed).
  assert (Hend : ∀ year : Z, year = cy (civil e) →
    (month ← field 0 2 R; day ← field 2 2 R; hour ← field 4 2 R; minute ← field 6 2 R; second ← field 8 2 R;
     if ((month <? 1) || (12 <? month) || (day <? 1) || (31 <? day)) then None
     else Some (days_of year month day * 86400 + hour * 3600 + minute * 60 + second)) = Some e).
  { intros year ->. rewrite F1, F2, F3, F4, F5. rewrite !parse_fixed_i64 by (cbn; lia).
    cbn [mbind option_bind]. destruct (_ || _) eqn:E; [lia|]. rewrite days_of_civil, Hdays by lia. by rewrite <- Hi. }
  clear F1 F2 F3 F4 F5.
  assert (Hlen : ∀ w n, String.length (fixed w n +:+ R) = (w + 10)%nat)
    by (intros; by rewrite string_length_append, length_fixed, Hl).
  assert (Hhead : ∀ w n, field 0 w (fixed w n +:+ R) = parse_i64 (fixed w n)).
  { intros w n. apply (field_in _ _ _ "" _ R); [done|done|apply length_fixed|]. by rewrite str_all_append, fixed_ascii. }
  split; [|intros Hy2]; unfold asn1_time; rewrite <- append_assoc, strip_suffix_append; cbn [mbind option_bind].
  - rewrite Hlen. cbn [N.eqb Pos.eqb andb Nat.add Nat.eqb]. rewrite Hhead, parse_fixed_i64 by (cbn; lia).
    cbn [mbind option_bind]. rewrite get_from_append by (by rewrite ?length_fixed). cbn [mbind option_bind].
    by apply Hend.
  - rewrite Hlen. cbn [N.eqb Pos.eqb andb Nat.add Nat.eqb]. pose proof (Z.mod_pos_bound (cy (civil e)) 100).
    rewrite Hhead, parse_fixed_i64 by (cbn; lia).
    cbn [mbind option_bind]. rewrite get_from_append by (by rewrite ?length_fixed). cbn [mbind option_bind].
    apply Hend. pose proof (Z.div_mod (cy (civil e)) 100). destruct (50 <=? _) eqn:E; lia.
Qed.

(** The dates Homelabus reads are the instants they say: a log line of Docker, an object
    listed by S3, a certificate's validity in either of its forms - read by three more copies of
    the algorithm - each give back the instant whose date they write, for every year of four
    digits. *)
Theorem dates_read e a rest :
  0 ≤ cy (civil e) ≤ 9999 → a ∈ ["."%char; "Z"%char] → str_all ascii_char rest = true →
  let c := civil e in
  let iso := λ r, day_text c +:+ String "T" (hour_text c +:+ r) in
  unix_timestamp (iso (String a rest)) = Some e ∧ epoch_of (iso rest) = Some e ∧
  asn1_time 24 (show_pad 4 (cy c) +:+ ten_digits c +:+ "Z") = Some e ∧
  (1950 ≤ cy c ≤ 2049 → asn1_time 23 (show_pad 2 (cy c mod 100) +:+ ten_digits c +:+ "Z") = Some e).
Proof.
  intros Hy Ha Hr c iso. pose proof (asn1_reads e Hy) as [H4 H2].
  pose proof (Z.mod_pos_bound (cy (civil e)) 100). unfold c.
  rewrite !show_pad_fixed by (cbn; lia). split; [by apply unix_timestamp_reads|].
  split; [by apply epoch_of_reads|done].
Qed.

(** 26 October 2026. *)
Lemma dates_read_witness : unix_timestamp "2026-10-26T19:43:26.000Z" = Some 1793043806.
Proof. destruct (dates_read 1793043806 "." "000Z") as [H _]; [by vm_compute|left|done|]. exact H. Defined.

Lemma parse_utc_spec_witness : parse_utc "2026-10-26T19:43:26Z" = Some 1793043806.
Proof.
  apply (parse_utc_spec {| cy := 2026; cm := 10; cd := 26; chh := 19; cmm := 43; css := 26 |} 1793043806 "T" "Z").
  - unfold writable. cbn. lia.
  - left.
  - right. left.
  - split; [unfold instant; lia|by vm_compute].
Defined.

(** A minute below zero is taken for one, as long as the day is the day. *)
Lemma negative_minutes_read :
  parse_utc "2026-10-26 05:-30" = Some 1792989000 ∧ iso8601 1792989000 = "2026-10-26 04:30:00 UTC".
Proof. split; by vm_compute. Qed.

(** A date that does not exist is a number all the same to the reader of Docker's. *)
Lemma docker_reads_any_date :
  unix_timestamp "2026-02-31T25:61:61Z" = unix_timestamp "2026-03-04T02:02:01Z" ∧
  unix_timestamp "2026-03-04T02:02:01Z" = Some 1772589721.
Proof. split; by vm_compute. Qed.
