(* ===== verification/Docker.v ===== *)
(** * What Swarm is asked to run

    [ServiceSpec] of [crates/hlb-orchestrator/src/lib.rs] and the Docker Swarm client of
    [swarm.rs]: the translation into what Docker's API takes, the names of the secrets a service's
    files ride on and of a job's runs, and the operations over Docker - a deployment, an image
    moved, a scale, a one-off job, a node labelled. Docker itself is an interface over a state of
    its own; the command line it is sometimes read through is one of its operations. *)

From S2P Require Import Prelude RustStr Encoding Manifest Calendar Swarm.

#[local] Open Scope hlb_scope.

(** ** What is asked *)

(** @ hlb-orchestrator/src/lib.rs:114-120 [Bind] *)
Record Bind_ := { bi_source : string; bi_target : string; bi_read_only : bool }.
(** @ hlb-orchestrator/src/lib.rs:296-308 [ServiceMode] *)
Inductive ServiceMode := Replicated | Global_ | Job_.
#[global] Instance ServiceMode_eq_dec : EqDecision ServiceMode.
Proof. solve_decision. Defined.
(** @ hlb-orchestrator/src/lib.rs:328-358 [VolumeBacking] *)
Inductive VolumeBacking := DockerVolume | BindPath (path : string) | Nfs (server export : string).
#[global] Instance VolumeBacking_eq_dec : EqDecision VolumeBacking.
Proof. solve_decision. Defined.

(** @ hlb-orchestrator/src/lib.rs:361-386 [VolumeBacking::driver_options] *)
Definition driver_options (b : VolumeBacking) : option (gmap string string) :=
  match b with
  | DockerVolume => None
  | BindPath path => Some (<["type" := "none"]> (<["o" := "bind"]> (<["device" := path]> ∅)))
  | Nfs server export =>
      Some (<["type" := "nfs"]> (<["o" := "addr=" +:+ server +:+ ",rw,nfsvers=4"]>
              (<["device" := ":" +:+ export]> ∅)))
  end.

(** @ hlb-orchestrator/src/lib.rs:54-112 [ServiceSpec] *)
Record ServiceSpec := MkSpec {
  ss_name : string; ss_image : string; ss_replicas : N; ss_command : list string; ss_args : list string;
  ss_process : Process; ss_env : list (string * string); ss_constraints : list string;
  ss_labels : list (string * string); ss_networks : list string; ss_aliases : list string;
  ss_mode : ServiceMode; ss_mounts : list (string * string); ss_backings : list (string * VolumeBacking);
  ss_read_only_volumes : list string; ss_hardening : SecuritySpec; ss_healthcheck : option Healthcheck;
  ss_files : list (string * string); ss_binds : list Bind_; ss_memory : option Memory; ss_alone : bool }.

(** @ hlb-orchestrator/src/lib.rs:123-147 [ServiceSpec::new] *)
Definition new_spec (name image : string) : ServiceSpec :=
  MkSpec name image 1 [] [] default_process [] [] [] [] [] Replicated [] [] [] default_security None [] [] None false.

Definition with_name v (s : ServiceSpec) : ServiceSpec :=
  let '(MkSpec n i r c a p e cs l nw al md mt bk ro h hc f b m x) := s in MkSpec v i r c a p e cs l nw al md mt bk ro h hc f b m x.
Definition with_image v (s : ServiceSpec) : ServiceSpec :=
  let '(MkSpec n i r c a p e cs l nw al md mt bk ro h hc f b m x) := s in MkSpec n v r c a p e cs l nw al md mt bk ro h hc f b m x.
(** @ hlb-orchestrator/src/lib.rs:264-267 [ServiceSpec::replicas] *)
Definition with_replicas v (s : ServiceSpec) : ServiceSpec :=
  let '(MkSpec n i r c a p e cs l nw al md mt bk ro h hc f b m x) := s in MkSpec n i v c a p e cs l nw al md mt bk ro h hc f b m x.
(** @ hlb-orchestrator/src/lib.rs:281-288 [ServiceSpec::command] *)
Definition with_command v (s : ServiceSpec) : ServiceSpec :=
  let '(MkSpec n i r c a p e cs l nw al md mt bk ro h hc f b m x) := s in MkSpec n i r v a p e cs l nw al md mt bk ro h hc f b m x.
Definition with_args v (s : ServiceSpec) : ServiceSpec :=
  let '(MkSpec n i r c a p e cs l nw al md mt bk ro h hc f b m x) := s in MkSpec n i r c v p e cs l nw al md mt bk ro h hc f b m x.
Definition with_process v (s : ServiceSpec) : ServiceSpec :=
  let '(MkSpec n i r c a p e cs l nw al md mt bk ro h hc f b m x) := s in MkSpec n i r c a v e cs l nw al md mt bk ro h hc f b m x.
(** @ hlb-orchestrator/src/lib.rs:248-252 [ServiceSpec::env] *)
Definition with_env v (s : ServiceSpec) : ServiceSpec :=
  let '(MkSpec n i r c a p e cs l nw al md mt bk ro h hc f b m x) := s in MkSpec n i r c a p v cs l nw al md mt bk ro h hc f b m x.
Definition with_constraints v (s : ServiceSpec) : ServiceSpec :=
  let '(MkSpec n i r c a p e cs l nw al md mt bk ro h hc f b m x) := s in MkSpec n i r c a p e v l nw al md mt bk ro h hc f b m x.
Definition with_networks v (s : ServiceSpec) : ServiceSpec :=
  let '(MkSpec n i r c a p e cs l nw al md mt bk ro h hc f b m x) := s in MkSpec n i r c a p e cs l v al md mt bk ro h hc f b m x.
(** @ hlb-orchestrator/src/lib.rs:269-273 [ServiceSpec::aliases] *)
Definition with_aliases v (s : ServiceSpec) : ServiceSpec :=
  let '(MkSpec n i r c a p e cs l nw al md mt bk ro h hc f b m x) := s in MkSpec n i r c a p e cs l nw v md mt bk ro h hc f b m x.
Definition with_mode v (s : ServiceSpec) : ServiceSpec :=
  let '(MkSpec n i r c a p e cs l nw al md mt bk ro h hc f b m x) := s in MkSpec n i r c a p e cs l nw al v mt bk ro h hc f b m x.
Definition with_mounts v (s : ServiceSpec) : ServiceSpec :=
  let '(MkSpec n i r c a p e cs l nw al md mt bk ro h hc f b m x) := s in MkSpec n i r c a p e cs l nw al md v bk ro h hc f b m x.
Definition with_backings v (s : ServiceSpec) : ServiceSpec :=
  let '(MkSpec n i r c a p e cs l nw al md mt bk ro h hc f b m x) := s in MkSpec n i r c a p e cs l nw al md mt v ro h hc f b m x.
Definition with_read_only_volumes v (s : ServiceSpec) : ServiceSpec :=
  let '(MkSpec n i r c a p e cs l nw al md mt bk ro h hc f b m x) := s in MkSpec n i r c a p e cs l nw al md mt bk v h hc f b m x.
(** @ hlb-orchestrator/src/lib.rs:254-257 [ServiceSpec::hardening] *)
Definition with_hardening v (s : ServiceSpec) : ServiceSpec :=
  let '(MkSpec n i r c a p e cs l nw al md mt bk ro h hc f b m x) := s in MkSpec n i r c a p e cs l nw al md mt bk ro v hc f b m x.
(** @ hlb-orchestrator/src/lib.rs:259-262 [ServiceSpec::healthcheck] *)
Definition with_healthcheck v (s : ServiceSpec) : ServiceSpec :=
  let '(MkSpec n i r c a p e cs l nw al md mt bk ro h hc f b m x) := s in MkSpec n i r c a p e cs l nw al md mt bk ro h v f b m x.
Definition with_files v (s : ServiceSpec) : ServiceSpec :=
  let '(MkSpec n i r c a p e cs l nw al md mt bk ro h hc f b m x) := s in MkSpec n i r c a p e cs l nw al md mt bk ro h hc v b m x.
Definition with_binds v (s : ServiceSpec) : ServiceSpec :=
  let '(MkSpec n i r c a p e cs l nw al md mt bk ro h hc f b m x) := s in MkSpec n i r c a p e cs l nw al md mt bk ro h hc f v m x.
Definition with_memory v (s : ServiceSpec) : ServiceSpec :=
  let '(MkSpec n i r c a p e cs l nw al md mt bk ro h hc f b m x) := s in MkSpec n i r c a p e cs l nw al md mt bk ro h hc f b v x.
(** @ hlb-orchestrator/src/lib.rs:241-246 [ServiceSpec::alone] *)
Definition with_alone v (s : ServiceSpec) : ServiceSpec :=
  let '(MkSpec n i r c a p e cs l nw al md mt bk ro h hc f b m x) := s in MkSpec n i r c a p e cs l nw al md mt bk ro h hc f b m v.

(** @ hlb-orchestrator/src/lib.rs:149-163 [ServiceSpec::bind] *)
Definition bind_path (source target : string) (read_only : bool) (s : ServiceSpec) : ServiceSpec :=
  with_binds (ss_binds s ++ [{| bi_source := source; bi_target := target; bi_read_only := read_only |}]) s.
(** @ hlb-orchestrator/src/lib.rs:165-169 [ServiceSpec::file] *)
Definition file (path content : string) (s : ServiceSpec) : ServiceSpec := with_files (ss_files s ++ [(path, content)]) s.
(** @ hlb-orchestrator/src/lib.rs:171-175 [ServiceSpec::job] *)
Definition job (s : ServiceSpec) : ServiceSpec := with_mode Job_ s.
(** @ hlb-orchestrator/src/lib.rs:177-184 [ServiceSpec::global] *)
Definition global (s : ServiceSpec) : ServiceSpec := with_mode Global_ s.
(** @ hlb-orchestrator/src/lib.rs:186-190 [ServiceSpec::mount] *)
Definition mount_volume (volume path : string) (s : ServiceSpec) : ServiceSpec :=
  with_mounts (ss_mounts s ++ [(volume, path)]) s.
(** @ hlb-orchestrator/src/lib.rs:192-198 [ServiceSpec::mount_read_only] *)
Definition mount_read_only (volume path : string) (s : ServiceSpec) : ServiceSpec :=
  mount_volume volume path (with_read_only_volumes (ss_read_only_volumes s ++ [volume]) s).
(** @ hlb-orchestrator/src/lib.rs:200-211 [ServiceSpec::mount_backed] *)
Definition mount_backed (volume path : string) (b : VolumeBacking) (s : ServiceSpec) : ServiceSpec :=
  mount_volume volume path (with_backings (ss_backings s ++ [(volume, b)]) s).
(** @ hlb-orchestrator/src/lib.rs:213-220 [ServiceSpec::backing_of] *)
Definition backing_of (s : ServiceSpec) (volume : string) : VolumeBacking :=
  if find_first (λ b, b.1 ==? volume) (ss_backings s) is Some b then b.2 else DockerVolume.
Definition is_nfs (b : VolumeBacking) : bool := if b is Nfs _ _ then true else false.
Definition is_bind (b : VolumeBacking) : bool := if b is BindPath _ then true else false.
(** @ hlb-orchestrator/src/lib.rs:222-234 [ServiceSpec::keeps_data_on_its_node] *)
Definition keeps_data_on_its_node (s : ServiceSpec) : bool :=
  (ss_mode s ==? Replicated) && any_of (λ m, negb (is_nfs (backing_of s m.1))) (ss_mounts s).
(** @ hlb-orchestrator/src/lib.rs:236-240 [ServiceSpec::stops_first] *)
Definition stops_first (s : ServiceSpec) : bool :=
  ss_alone s || keeps_data_on_its_node s || negb (sec_published_ports (ss_hardening s) ==? []).
(** @ hlb-orchestrator/src/lib.rs:275-279 [ServiceSpec::network] *)
Definition network (name : string) (s : ServiceSpec) : ServiceSpec := with_networks (ss_networks s ++ [name]) s.
(** @ hlb-orchestrator/src/lib.rs:290-293 [ServiceSpec::constraint] *)
Definition constraint (c : string) (s : ServiceSpec) : ServiceSpec := with_constraints (ss_constraints s ++ [c]) s.

(** ** What Docker takes

    The models of [bollard], with the fields this client writes or reads; [None] is a field left
    out. *)

Definition NS : Z := 1000000000.
Definition MANAGED_LABEL : string := "hlb.managed".

Inductive MountType := VolumeMount | BindMount | TmpfsMount.
Record Mount := { mo_target : string; mo_source : option string; mo_type : MountType; mo_read_only : option bool;
  mo_volume : option (gmap string string * option bool); mo_tmpfs : option (N * option Z) }.
Record Probe := { pb_test : list string; pb_interval : Z; pb_timeout : Z; pb_retries : Z; pb_start_period : Z }.
Record SecretFile := { sf_path : string; sf_uid : string; sf_gid : string; sf_mode : N; sf_id : option string; sf_secret : string }.
Record ContainerSpec := { ct_image : option string; ct_command : option (list string); ct_args : option (list string);
  ct_env : list string; ct_init : option bool; ct_stop_grace : option Z; ct_stop_signal : option string;
  ct_dir : option string; ct_hostname : option string; ct_ulimits : option (list (string * option Z * option Z));
  ct_sysctls : option (gmap string string); ct_groups : option (list string); ct_read_only : bool;
  ct_user : option string; ct_cap_drop : option (list string); ct_cap_add : option (list string);
  ct_no_new_privileges : bool; ct_mounts : option (list Mount); ct_probe : option Probe;
  ct_secrets : option (list SecretFile) }.
Record Attachment := { at_network : string; at_aliases : option (list string) }.
Record TaskTemplate := { tt_container : option ContainerSpec; tt_constraints : option (list string);
  tt_memory : option (option Z * option Z); tt_never_restarted : bool; tt_networks : option (list Attachment);
  tt_force_update : option Z }.
Inductive Mode := ModeGlobal | ModeReplicated (n : Z) | ModeJob (concurrent completions : Z).
Inductive Order := STOP_FIRST | START_FIRST.
#[global] Instance Order_eq_dec : EqDecision Order.
Proof. solve_decision. Defined.
Inductive FailureAction := ROLLBACK | PAUSE.
Record UpdateConfig := { uc_parallelism : Z; uc_order : Order; uc_failure : FailureAction; uc_monitor : Z;
  uc_max_failure : Z; uc_delay : Z }.
Record Port := { po_protocol : Protocol; po_target : N; po_published : N; po_host : bool }.
Record DockerSpec := { ds_name : option string; ds_labels : option (gmap string string); ds_task : option TaskTemplate;
  ds_mode : option Mode; ds_update : option UpdateConfig; ds_rollback : option UpdateConfig;
  ds_ports : option (list Port) }.

(** ** The translation *)

Definition some_unless_empty {A} (l : list A) : option (list A) := if l is [] then None else Some l.
(** [i64::try_from] of a [u64]. *)
Definition try_i64 (n : N) : option Z := if (Z.of_N n <? 2 ^ 63)%Z then Some (Z.of_N n) else None.
Definition key_value (kv : string * string) : string := kv.1 +:+ "=" +:+ kv.2.

(** @ hlb-orchestrator/src/swarm.rs:576-604 [SwarmOrchestrator::update_config] *)
Definition update_config (stops_first : bool) : UpdateConfig :=
  {| uc_parallelism := 1; uc_order := if stops_first then STOP_FIRST else START_FIRST; uc_failure := ROLLBACK;
     uc_monitor := 30 * NS; uc_max_failure := 0; uc_delay := 5 * NS |}.
(** @ hlb-orchestrator/src/swarm.rs:606-619 [SwarmOrchestrator::rollback_config] *)
Definition rollback_config : UpdateConfig :=
  {| uc_parallelism := 1; uc_order := STOP_FIRST; uc_failure := PAUSE; uc_monitor := 30 * NS;
     uc_max_failure := 0; uc_delay := 5 * NS |}.

(** @ hlb-orchestrator/src/swarm.rs:706-731 [SwarmOrchestrator::to_bollard] *)
Definition volume_mount (s : ServiceSpec) (m : string * string) : Mount :=
  {| mo_target := m.2; mo_source := Some m.1; mo_type := VolumeMount;
     mo_read_only := if bool_decide (m.1 ∈ ss_read_only_volumes s) then Some true else None;
     mo_volume := (λ o, (o, if is_nfs (backing_of s m.1) then Some true else None)) <$> driver_options (backing_of s m.1);
     mo_tmpfs := None |}.
(** @ hlb-orchestrator/src/swarm.rs:733-739 [SwarmOrchestrator::to_bollard] *)
Definition bind_mount (b : Bind_) : Mount :=
  {| mo_target := bi_target b; mo_source := Some (bi_source b); mo_type := BindMount;
     mo_read_only := Some (bi_read_only b); mo_volume := None; mo_tmpfs := None |}.
(** [0o1777]. @ hlb-orchestrator/src/swarm.rs:740-755 [SwarmOrchestrator::to_bollard] *)
Definition tmpfs_mount (t : Tmpfs) : Mount :=
  {| mo_target := tmpfs_path t; mo_source := None; mo_type := TmpfsMount; mo_read_only := None; mo_volume := None;
     mo_tmpfs := Some (1023%N, tmpfs_size t ≫= λ b, try_i64 (bytes_n b)) |}.
(** @ hlb-orchestrator/src/swarm.rs:698-758 [SwarmOrchestrator::to_bollard] *)
Definition mounts_of (s : ServiceSpec) : option (list Mount) :=
  some_unless_empty ((volume_mount s <$> ss_mounts s) ++ (bind_mount <$> ss_binds s) ++
                     (tmpfs_mount <$> sec_tmpfs (ss_hardening s))).

(** The seconds in nanoseconds: the product is of [u64], which wraps.
    @ hlb-orchestrator/src/swarm.rs:760-768 [SwarmOrchestrator::to_bollard] *)
Definition probe_of (h : Healthcheck) : Probe :=
  {| pb_test := hc_test h; pb_interval := as_i64 (wrap_u64 (hc_interval_secs h * 1000000000));
     pb_timeout := as_i64 (wrap_u64 (hc_timeout_secs h * 1000000000)); pb_retries := as_i64 (hc_retries h);
     pb_start_period := as_i64 (wrap_u64 (hc_start_period_secs h * 1000000000)) |}.

(** @ hlb-orchestrator/src/swarm.rs:641-770 [SwarmOrchestrator::to_bollard] *)
Definition container_of (s : ServiceSpec) : ContainerSpec :=
  let p := ss_process s in
  let h := ss_hardening s in
  {| ct_image := Some (ss_image s); ct_command := some_unless_empty (ss_command s);
     ct_args := some_unless_empty (ss_args s); ct_env := key_value <$> ss_env s;
     ct_init := if proc_init p then Some true else None;
     ct_stop_grace := proc_stop_grace_secs p ≫= λ n, (λ z, wrap_i64 (z * NS)) <$> try_i64 n;
     ct_stop_signal := proc_stop_signal p; ct_dir := proc_working_dir p; ct_hostname := proc_hostname p;
     ct_ulimits := some_unless_empty ((λ '(n, l), (n, try_i64 (ul_soft l), try_i64 (ul_hard l))) <$> btree_entries (proc_ulimits p));
     ct_sysctls := if bool_decide (proc_sysctls p = ∅) then None else Some (proc_sysctls p);
     ct_groups := some_unless_empty (proc_groups p); ct_read_only := sec_read_only_rootfs h; ct_user := sec_user h;
     ct_cap_drop := some_unless_empty (sec_cap_drop h); ct_cap_add := some_unless_empty (sec_cap_add h);
     ct_no_new_privileges := sec_no_new_privileges h; ct_mounts := mounts_of s;
     ct_probe := probe_of <$> ss_healthcheck s; ct_secrets := None |}.

(** [sort] and [dedup]: what the set holds, in order.
    @ hlb-orchestrator/src/swarm.rs:799-818 [SwarmOrchestrator::to_bollard] *)
Definition attachments (s : ServiceSpec) : option (list Attachment) :=
  some_unless_empty ((λ n, {| at_network := n;
    at_aliases := some_unless_empty (btree_elems (list_to_set (ss_aliases s))) |}) <$> ss_networks s).
(** @ hlb-orchestrator/src/swarm.rs:820-841 [SwarmOrchestrator::to_bollard] *)
Definition mode_of (s : ServiceSpec) : Mode :=
  match ss_mode s with Global_ => ModeGlobal | Replicated => ModeReplicated (as_i64 (ss_replicas s)) | Job_ => ModeJob 1 1 end.
(** @ hlb-orchestrator/src/swarm.rs:846-878 [SwarmOrchestrator::to_bollard] *)
Definition ports_of (s : ServiceSpec) : option (list Port) :=
  some_unless_empty ((λ p, {| po_protocol := pp_protocol p; po_target := pp_port p; po_published := pp_port p;
                              po_host := true |}) <$> sec_published_ports (ss_hardening s)).
(** @ hlb-orchestrator/src/swarm.rs:621-881 [SwarmOrchestrator::to_bollard] *)
Definition to_bollard (s : ServiceSpec) : DockerSpec :=
  let is_job := ss_mode s ==? Job_ in
  {| ds_name := Some (ss_name s); ds_labels := Some (<[MANAGED_LABEL := "true"]> (list_to_map (rev (ss_labels s))));
     ds_task := Some {| tt_container := Some (container_of s); tt_constraints := Some (ss_constraints s);
       tt_memory := (λ m, (try_i64 (bytes_n (mem_limit m)), try_i64 (bytes_n (mem_reserve m)))) <$> ss_memory s;
       tt_never_restarted := is_job; tt_networks := attachments s; tt_force_update := None |};
     ds_mode := Some (mode_of s);
     ds_update := if is_job then None else Some (update_config (stops_first s));
     ds_rollback := if is_job then None else Some rollback_config;
     ds_ports := ports_of s |}.

(** ** Reading it back *)

(** @ hlb-orchestrator/src/swarm.rs:1169-1194 [stops_first] *)
Definition spec_stops_first (d : DockerSpec) : bool :=
  (uc_order <$> ds_update d ==? Some STOP_FIRST)
  || any_of (starts_with ("node.labels." +:+ data_label "")) (from_option (λ t, default [] (tt_constraints t)) [] (ds_task d))
  || any_of po_host (default [] (ds_ports d)).

Definition map_container (f : ContainerSpec → ContainerSpec) (t : TaskTemplate) : TaskTemplate :=
  {| tt_container := f <$> tt_container t; tt_constraints := tt_constraints t; tt_memory := tt_memory t;
     tt_never_restarted := tt_never_restarted t; tt_networks := tt_networks t; tt_force_update := tt_force_update t |}.
Definition with_ct_image (image : string) (c : ContainerSpec) : ContainerSpec :=
  {| ct_image := Some image; ct_command := ct_command c; ct_args := ct_args c; ct_env := ct_env c; ct_init := ct_init c;
     ct_stop_grace := ct_stop_grace c; ct_stop_signal := ct_stop_signal c; ct_dir := ct_dir c;
     ct_hostname := ct_hostname c; ct_ulimits := ct_ulimits c; ct_sysctls := ct_sysctls c; ct_groups := ct_groups c;
     ct_read_only := ct_read_only c; ct_user := ct_user c; ct_cap_drop := ct_cap_drop c; ct_cap_add := ct_cap_add c;
     ct_no_new_privileges := ct_no_new_privileges c; ct_mounts := ct_mounts c; ct_probe := ct_probe c;
     ct_secrets := ct_secrets c |}.
Definition with_ct_secrets (l : option (list SecretFile)) (c : ContainerSpec) : ContainerSpec :=
  {| ct_image := ct_image c; ct_command := ct_command c; ct_args := ct_args c; ct_env := ct_env c; ct_init := ct_init c;
     ct_stop_grace := ct_stop_grace c; ct_stop_signal := ct_stop_signal c; ct_dir := ct_dir c;
     ct_hostname := ct_hostname c; ct_ulimits := ct_ulimits c; ct_sysctls := ct_sysctls c; ct_groups := ct_groups c;
     ct_read_only := ct_read_only c; ct_user := ct_user c; ct_cap_drop := ct_cap_drop c; ct_cap_add := ct_cap_add c;
     ct_no_new_privileges := ct_no_new_privileges c; ct_mounts := ct_mounts c; ct_probe := ct_probe c; ct_secrets := l |}.
Definition with_ct_probe (p : option Probe) (c : ContainerSpec) : ContainerSpec :=
  {| ct_image := ct_image c; ct_command := ct_command c; ct_args := ct_args c; ct_env := ct_env c; ct_init := ct_init c;
     ct_stop_grace := ct_stop_grace c; ct_stop_signal := ct_stop_signal c; ct_dir := ct_dir c;
     ct_hostname := ct_hostname c; ct_ulimits := ct_ulimits c; ct_sysctls := ct_sysctls c; ct_groups := ct_groups c;
     ct_read_only := ct_read_only c; ct_user := ct_user c; ct_cap_drop := ct_cap_drop c; ct_cap_add := ct_cap_add c;
     ct_no_new_privileges := ct_no_new_privileges c; ct_mounts := ct_mounts c; ct_probe := p; ct_secrets := ct_secrets c |}.
Definition with_task (t : option TaskTemplate) (d : DockerSpec) : DockerSpec :=
  {| ds_name := ds_name d; ds_labels := ds_labels d; ds_task := t; ds_mode := ds_mode d; ds_update := ds_update d;
     ds_rollback := ds_rollback d; ds_ports := ds_ports d |}.
Definition with_policy (u r : option UpdateConfig) (d : DockerSpec) : DockerSpec :=
  {| ds_name := ds_name d; ds_labels := ds_labels d; ds_task := ds_task d; ds_mode := ds_mode d; ds_update := u;
     ds_rollback := r; ds_ports := ds_ports d |}.
Definition with_ds_mode (m : Mode) (d : DockerSpec) : DockerSpec :=
  {| ds_name := ds_name d; ds_labels := ds_labels d; ds_task := ds_task d; ds_mode := Some m; ds_update := ds_update d;
     ds_rollback := ds_rollback d; ds_ports := ds_ports d |}.

(** The policy reasserted. @ hlb-orchestrator/src/swarm.rs:1299-1301 [SwarmOrchestrator::update_image] *)
Definition reasserted (d : DockerSpec) : DockerSpec :=
  with_policy (Some (update_config (spec_stops_first d))) (Some rollback_config) d.
(** @ hlb-orchestrator/src/swarm.rs:1293-1301 [SwarmOrchestrator::update_image] *)
Definition moved_image (image : string) (d : DockerSpec) : DockerSpec :=
  reasserted (with_task (map_container (with_ct_image image) <$> ds_task d) d).
(** @ hlb-orchestrator/src/swarm.rs:1491-1497 [SwarmOrchestrator::scale] *)
Definition scaled (replicas : N) (d : DockerSpec) : DockerSpec := with_ds_mode (ModeReplicated (as_i64 replicas)) d.

(** ** Names *)

(** @ hlb-orchestrator/src/swarm.rs:49-55 [registry_host] *)
Definition registry_host (image : string) : option string :=
  match split_once "/" image with
  | Some (first, rest) =>
      if negb (str_is_empty rest) && (contains_char "." first || contains_char ":" first || (first ==? "localhost"))
      then Some first else None
  | None => None
  end.

(** [64 - 6 - 12]. @ hlb-orchestrator/src/swarm.rs:57-58 [FILE_SECRET_ROOM] *)
Definition FILE_SECRET_ROOM : nat := 46.
Definition NL : string := String "010" "".
(** The longest prefix of a byte length, cut back to a character's boundary.
    @ hlb-orchestrator/src/swarm.rs:74-77 [file_secret_name] *)
Fixpoint cut (n : nat) (s : string) : string :=
  match get_to n s, n with
  | Some p, _ => p
  | None, O => ""
  | None, S n => cut n s
  end.
(** The first twelve characters of a text in hexadecimal. *)
Definition first12 (hex : string) : string := String.substring 0 12 hex.
(** @ hlb-orchestrator/src/swarm.rs:60-83 [file_secret_name] *)
Definition file_secret_name (service path content : string) : string :=
  if (String.length service <=? FILE_SECRET_ROOM)%nat
  then service +:+ "-file-" +:+ first12 (sha256_hex (bytes_of (path +:+ NL +:+ content)))
  else trim_end_matches "-" (cut FILE_SECRET_ROOM service) +:+ "-file-" +:+
       first12 (sha256_hex (bytes_of (service +:+ NL +:+ path +:+ NL +:+ content))).
Definition is_lower_hex (c : ascii) : bool := is_digit c || ((97 <=? byte_of c) && (byte_of c <=? 102))%N.
(** @ hlb-orchestrator/src/swarm.rs:85-98 [is_file_secret_of] *)
Definition is_file_secret_of (service secret : string) : bool :=
  (String.length service <=? FILE_SECRET_ROOM)%nat &&
  match strip_prefix service secret ≫= strip_prefix "-file-" with
  | Some hash => (String.length hash =? 12)%nat && str_all is_lower_hex hash
  | None => false
  end.
(** @ hlb-orchestrator/src/swarm.rs:100-110 [spec_secrets] *)
Definition spec_secrets (d : DockerSpec) : list string :=
  match ds_task d ≫= tt_container with
  | Some c => sf_secret <$> default [] (ct_secrets c)
  | None => []
  end.
(** @ hlb-orchestrator/src/swarm.rs:112-119 [stale_file_secrets] *)
Definition stale_file_secrets (service : string) (listed held : list string) : list string :=
  keep (λ name, is_file_secret_of service name && negb (bool_decide (name ∈ held))) listed.

(** @ hlb-orchestrator/src/swarm.rs:218-226 [job_base] *)
Definition job_base (name : string) : string := trim_end_matches "-" (cut (Nat.min (String.length name) 46) name).
(** The lower-case hexadecimal digits of a number, as many as asked. *)
Fixpoint hex_fixed (w : nat) (n : N) : string :=
  match w with O => "" | S w => hex_fixed w (n / 16) +:+ String (hex_lower (n mod 16)) "" end.
(** The clock in nanoseconds, the process and the counter.
    @ hlb-orchestrator/src/swarm.rs:228-244 [job_name] *)
Definition job_name (name : string) (t pid n : N) : string :=
  job_base name +:+ "-" +:+ hex_fixed 8 (wrap_u32 t) +:+ hex_fixed 4 (wrap_u16 pid) +:+ hex_fixed 4 (wrap_u16 n).
(** @ hlb-orchestrator/src/swarm.rs:246-254 [is_run_of] *)
Definition is_run_of (service name : string) : bool :=
  (service ==? name) ||
  match strip_prefix (job_base name) service ≫= strip_prefix "-" with
  | Some r => (String.length r =? 16)%nat && str_all is_hexdigit r
  | None => false
  end.

(** ** The client *)

(** A service as Docker holds it; a field read may be absent. *)
Record DkService := { dv_id : option string; dv_version : option N; dv_spec : option DockerSpec;
  dv_update_state : option string }.
Record Credentials := { cr_username : string; cr_password : string; cr_server : string }.
Record DkTask := { dt_id : option string; dt_service_id : option string; dt_slot : option Z; dt_node_id : option string;
  dt_desired_state : option string; dt_state : option string; dt_image : option string; dt_message : option string;
  dt_err : option string; dt_timestamp : option string }.
Record NodeSpec := { ns_labels : option (gmap string string); ns_availability : option string }.
Record DkNode := { nd_id : option string; nd_version : option N; nd_hostname : option string; nd_state : option string;
  nd_spec : option NodeSpec }.

(** [Docker] is any other error, with the status and the message of the daemon's refusal.
    @ hlb-orchestrator/src/lib.rs:25-48 [Error] *)
Inductive DkErr :=
| DockerError (status : option N) (message : string) | NotFound (name : string)
| HealthTimeout (service : string) (timeout_secs : N) (running : nat) (desired : N) (why : option string)
| Unexpected (why : string).

(** The message of the API's own errors is as the API's crate renders them.
    @ hlb-orchestrator/src/lib.rs:24-48 [Error] *)
Definition dk_display (e : DkErr) : string :=
  match e with
  | DockerError _ message => "error docker : " +:+ message
  | NotFound name => "service " +:+ quoted_str name +:+ " not found"
  | HealthTimeout service timeout_secs running desired why =>
      "service " +:+ quoted_str service +:+ " did not become healthy within " +:+ show_N timeout_secs +:+ " s (" +:+
      show_nat running +:+ "/" +:+ show_N desired +:+ " tasks running)" +:+
      from_option (λ w, " — Swarm says: " +:+ w) "" why
  | Unexpected why => "unexpected response from the daemon: " +:+ why
  end.

(** Docker's API, and what is read of its command line: a service's probe, the spec before
    ([PreviousSpec]), a service's log; the clock in milliseconds. An id or a name names a service. *)
Class DockerApi (X : Type) := {
  api_inspect : string → X → result DkErr DkService * X;
  api_probe : string → X → result DkErr (option Probe) * X;
  api_previous : string → X → result DkErr (option DockerSpec) * X;
  api_create : DockerSpec → option Credentials → X → result DkErr (option string) * X;
  api_update : string → Z → DockerSpec → option Credentials → X → result DkErr () * X;
  api_delete : string → X → result DkErr () * X;
  api_services : option string → X → result DkErr (list DkService) * X;
  api_tasks : option string → X → result DkErr (list DkTask) * X;
  api_nodes : X → result DkErr (list DkNode) * X;
  api_inspect_node : string → X → result DkErr DkNode * X;
  api_update_node : string → Z → NodeSpec → X → result DkErr () * X;
  api_secrets : X → result DkErr (list (option string)) * X;
  api_inspect_secret : string → X → result DkErr (option string) * X;
  api_create_secret : string → string → X → result DkErr string * X;
  api_delete_secret : string → X → result DkErr () * X;
  api_logs : string → N → X → result DkErr (bool * list ascii * list ascii) * X;
  api_sleep : N → X → X;
  api_clock : X → N }.

Section client.
Context {X : Type} `{!DockerApi X}.
(** The credentials given, per registry. *)
Context (registries : gmap string (string * string)).

Abbreviation M := (eff X DkErr).

(** @ hlb-orchestrator/src/swarm.rs:564-574 [SwarmOrchestrator::credentials_for] *)
Definition credentials_for (image : string) : option Credentials :=
  host ← registry_host image; '(user, password) ← registries !! host;
  Some {| cr_username := user; cr_password := password; cr_server := host |}.

(** What is not found is said by its name. @ hlb-orchestrator/src/swarm.rs:1008-1021 [SwarmOrchestrator::inspect] *)
Definition not_found (name : string) (e : DkErr) : DkErr :=
  match e with DockerError (Some 404%N) _ => NotFound name | e => e end.
Definition inspect (name : string) : M DkService := λ x,
  match api_inspect name x with (r, x) => (map_err (not_found name) r, x) end.

(** The probe is read apart when the API reads none.
    @ hlb-orchestrator/src/swarm.rs:985-1006 [SwarmOrchestrator::inspect_whole] *)
Definition inspect_whole (name : string) : M DkService :=
  let! svc := inspect name in
  match dv_spec svc with
  | Some d =>
      match ds_task d with
      | Some t =>
          match tt_container t with
          | Some c =>
              match ct_probe c with
              | Some _ => eff_ret svc
              | None =>
                  let! p := api_probe name in
                  eff_ret {| dv_id := dv_id svc; dv_version := dv_version svc;
                             dv_spec := Some (with_task (Some (map_container (with_ct_probe p) t)) d);
                             dv_update_state := dv_update_state svc |}
              end
          | None => eff_ret svc
          end
      | None => eff_ret svc
      end
  | None => eff_ret svc
  end.

(** *** Files *)

(** One file's secret: [0o444].
    @ hlb-orchestrator/src/swarm.rs:333-362 [SwarmOrchestrator::file_secrets] *)
Definition file_secret (service : string) (f : string * string) : M SecretFile :=
  let '(path, content) := f in
  let name := file_secret_name service path content in
  let mounted id := {| sf_path := path; sf_uid := "0"; sf_gid := "0"; sf_mode := 292; sf_id := id; sf_secret := name |} in
  λ x, match api_inspect_secret name x with
       | (Ok id, x) => (Ok (mounted id), x)
       | (Err _, x) =>
           match api_create_secret name (base64_standard (bytes_of content)) x with
           | (Ok id, x) => (Ok (mounted (Some id)), x)
           | (Err e, x) => (Err e, x)
           end
       end.
(** @ hlb-orchestrator/src/swarm.rs:319-365 [SwarmOrchestrator::file_secrets] *)
Fixpoint file_secrets (service : string) (files : list (string * string)) : M (list SecretFile) :=
  match files with
  | [] => eff_ret []
  | f :: files => let! s := file_secret service f in let! l := file_secrets service files in eff_ret (s :: l)
  end.

(** The secrets that carry the label. @ hlb-orchestrator/src/swarm.rs:367-381 [SwarmOrchestrator::managed_secrets] *)
Definition managed_secrets : M (list string) := let! l := api_secrets in eff_ret (omap id l).

(** @ hlb-orchestrator/src/swarm.rs:416-432 [SwarmOrchestrator::delete_secret_patiently] *)
Fixpoint delete_secret_tries (tries : nat) (name : string) : M () := λ x,
  match api_delete_secret name x with
  | (Ok _, x) => (Ok (), x)
  | (Err (DockerError (Some 404%N) _), x) => (Ok (), x)
  | (Err e, x) =>
      match tries with
      | O => (Err e, x)
      | S tries => delete_secret_tries tries name (api_sleep 500 x)
      end
  end.
Definition delete_secret_patiently (name : string) : M () := delete_secret_tries 10 name.

(** What fails is only said. @ hlb-orchestrator/src/swarm.rs:434-442 [SwarmOrchestrator::forget_run_secrets] *)
Definition forget_run_secrets (secrets : list string) : M () :=
  eff_each (λ name x, match delete_secret_patiently name x with (_, x) => (Ok (), x) end) secrets.

(** @ hlb-orchestrator/src/swarm.rs:383-391 [SwarmOrchestrator::remove_file_secrets] *)
Definition remove_file_secrets (service : string) : M () :=
  let! names := managed_secrets in
  eff_each delete_secret_patiently (keep (is_file_secret_of service) names).

(** What the spec in place and the one before mount. @ hlb-orchestrator/src/swarm.rs:402-404 [SwarmOrchestrator::prune_file_secrets] *)
Definition held_secrets (service : string) : M (list string) :=
  let! current := inspect service in
  let! previous := api_previous service in
  eff_ret (from_option spec_secrets [] (dv_spec current) ++ from_option spec_secrets [] previous).
(** A failure is only said, and stops there.
    @ hlb-orchestrator/src/swarm.rs:393-414 [SwarmOrchestrator::prune_file_secrets] *)
Definition prune_file_secrets (service : string) : M () := λ x,
  match (let! held := held_secrets service in
         let! listed := managed_secrets in
         eff_each (λ name, let! _ := api_delete_secret name in eff_ret ()) (stale_file_secrets service listed held)) x with
  | (_, x) => (Ok (), x)
  end.

(** *** Tasks and status *)

Definition lowercase_debug (o : option string) : string := default "" (to_lowercase <$> o).
Definition unless_empty (o : option string) : option string :=
  s ← o; if str_is_empty s then None else Some s.
(** @ hlb-orchestrator/src/swarm.rs:936-971 [SwarmOrchestrator::to_task_info] *)
Definition to_task_info (names : gmap string string) (t : DkTask) : TaskInfo :=
  {| t_id := default "" (dt_id t);
     t_service := default "" ((λ id, default id (names !! id)) <$> dt_service_id t);
     t_slot := (λ z, Z.to_N (z mod 2 ^ 64)) <$> dt_slot t; t_node_id := unless_empty (dt_node_id t);
     t_desired_state := lowercase_debug (dt_desired_state t); t_state := lowercase_debug (dt_state t);
     t_image := default "" (dt_image t); t_message := unless_empty (dt_message t); t_err := unless_empty (dt_err t);
     t_updated_at := dt_timestamp t ≫= unix_timestamp |}.
(** The names of the services, by id: the last one listed of an id stays.
    @ hlb-orchestrator/src/swarm.rs:919-926 [SwarmOrchestrator::read_tasks] *)
Definition service_names (l : list DkService) : gmap string string :=
  foldl (λ m svc, match dv_id svc, dv_spec svc ≫= ds_name with
                  | Some id, Some name => <[id := name]> m
                  | _, _ => m
                  end) ∅ l.
(** @ hlb-orchestrator/src/swarm.rs:898-934 [SwarmOrchestrator::read_tasks] *)
Definition read_tasks (service : option string) : M (list TaskInfo) :=
  let! tasks := api_tasks service in
  let! services := api_services None in
  eff_ret (to_task_info (service_names services) <$> tasks).
(** @ hlb-orchestrator/src/swarm.rs:883-896 [SwarmOrchestrator::running_tasks] *)
Definition running_tasks (service : string) : M nat :=
  let! tasks := read_tasks (Some service) in eff_ret (length (keep is_alive tasks)).

(** @ hlb-orchestrator/src/swarm.rs:973-983 [SwarmOrchestrator::parse_update_state] *)
Definition parse_update_state (s : string) : UpdateState :=
  if s ==? "updating" then Updating
  else if s ==? "paused" then UpdatePaused
  else if s ==? "completed" then Completed
  else if s ==? "rollback_started" then RollbackStarted
  else if s ==? "rollback_paused" then RollbackPaused
  else if s ==? "rollback_completed" then RollbackCompleted
  else Unknown.
(** A global service and a job have no count of replicas: zero.
    @ hlb-orchestrator/src/swarm.rs:1083-1110 [SwarmOrchestrator::to_status] *)
Definition to_status (svc : DkService) (running : nat) : ServiceStatus :=
  let mode := dv_spec svc ≫= ds_mode in
  {| st_name := default "" (dv_spec svc ≫= ds_name); st_id := default "" (dv_id svc);
     st_desired_replicas := if mode is Some (ModeReplicated n) then Z.to_N (n mod 2 ^ 64) else 0%N;
     st_running_replicas := running; st_global := if mode is Some ModeGlobal then true else false;
     st_image := match dv_spec svc ≫= ds_task with
                 | Some t => default "" (tt_container t ≫= ct_image)
                 | None => ""
                 end;
     st_update_state := parse_update_state <$> dv_update_state svc |}.
(** Its tasks are looked for by id. @ hlb-orchestrator/src/swarm.rs:1964-1974 [SwarmOrchestrator::status] *)
Definition status (name : string) : M ServiceStatus :=
  let! svc := inspect name in
  let! running := running_tasks (default name (dv_id svc)) in
  eff_ret (to_status svc running).

(** *** Where a service's data is *)

(** @ hlb-orchestrator/src/swarm.rs:1117-1140 [SwarmOrchestrator::pin_to_its_data] *)
Definition candidate_of (n : DkNode) : Candidate :=
  let reads want o := from_option (λ s, to_ascii_lowercase s ==? want) false o in
  {| cd_id := default "" (nd_id n); cd_hostname := default "" (nd_hostname n);
     cd_available := reads "ready" (nd_state n) && reads "active" (nd_spec n ≫= ns_availability);
     cd_labels := default ∅ (nd_spec n ≫= ns_labels) |}.
(** A volume bound on the pool is on the storage node only.
    @ hlb-orchestrator/src/swarm.rs:1141-1150 [SwarmOrchestrator::pin_to_its_data] *)
Definition data_constraints (s : ServiceSpec) : list string :=
  ss_constraints s ++ if any_of (λ m, is_bind (backing_of s m.1)) (ss_mounts s)
                      then ["node.labels.hlb.storage==true"] else [].

(** The update is read again from the new version while Docker finds it out of sequence.
    @ hlb-orchestrator/src/swarm.rs:2123-2130 [out_of_sequence] *)
Definition out_of_sequence (e : DkErr) : bool :=
  match e with DockerError (Some _) message => contains "update out of sequence" message | _ => false end.
Definition as_i32 (n : N) : Z :=
  let m := (Z.of_N n mod 2 ^ 32)%Z in if (m <? 2 ^ 31)%Z then m else (m - 2 ^ 32)%Z.
Definition version_of (what : string) (v : option N) : M N :=
  eff_of (ok_or (Unexpected (what +:+ " with no version")) v).
(** @ hlb-orchestrator/src/swarm.rs:1756-1788 [SwarmOrchestrator::label_node] *)
Fixpoint label_tries (tries : nat) (node key value : string) : M () :=
  let! n := api_inspect_node node in
  let! version := version_of "node" (nd_version n) in
  let spec := default {| ns_labels := None; ns_availability := None |} (nd_spec n) in
  let spec := {| ns_labels := Some (<[key := value]> (default ∅ (ns_labels spec))); ns_availability := ns_availability spec |} in
  λ x, match api_update_node node (as_i64 version) spec x with
       | (Ok _, x) => (Ok (), x)
       | (Err e, x) =>
           if out_of_sequence e then
             match tries with O => (Err e, x) | S tries => label_tries tries node key value (api_sleep 500 x) end
           else (Err e, x)
       end.
Definition label_node (node key value : string) : M () := label_tries 5 node key value.
(** The whole spec is sent back, its labels with it.
    @ hlb-orchestrator/src/swarm.rs:1790-1826 [SwarmOrchestrator::set_node_availability] *)
Definition set_node_availability (node availability : string) : M () :=
  if negb (bool_decide (availability ∈ ["active"; "pause"; "drain"]))
  then eff_fail (Unexpected ("unknown availability " +:+ quoted_str availability +:+ ": expected active, pause or drain"))
  else
    let! n := api_inspect_node node in
    let! version := version_of "node" (nd_version n) in
    api_update_node node (as_i64 version) {| ns_labels := nd_spec n ≫= ns_labels; ns_availability := Some availability |}.

(** @ hlb-orchestrator/src/swarm.rs:1114-1166 [SwarmOrchestrator::pin_to_its_data] *)
Definition pin_to_its_data (s : ServiceSpec) : M ServiceSpec :=
  let! nodes := api_nodes in
  let candidates := candidate_of <$> nodes in
  let! node := eff_of (map_err Unexpected (data_node (ss_name s) candidates (data_constraints s))) in
  let label := data_label (ss_name s) in
  eff_when (negb (any_of (λ c, (cd_id c ==? node) && is_true_label (cd_labels c !! label)) candidates))
    (label_node node label "true") ;;!
  eff_ret (constraint (data_constraint (ss_name s)) s).
(** @ hlb-orchestrator/src/swarm.rs:1203-1209 [SwarmOrchestrator::place_with_data] *)
Definition place_with_data (s : ServiceSpec) : M ServiceSpec :=
  if keeps_data_on_its_node s then pin_to_its_data s else eff_ret s.

(** *** Services *)

Definition spec_of (svc : DkService) : M DockerSpec := eff_of (ok_or (Unexpected "service with no spec") (dv_spec svc)).
(** A service in place is updated from the version read, under its policy; none, it is created.
    @ hlb-orchestrator/src/swarm.rs:1225-1252 [SwarmOrchestrator::deploy] *)
Definition create_or_update (name image : string) (service : DockerSpec) : M string := λ x,
  match inspect name x with
  | (Ok current, x) =>
      (let! version := version_of "service" (dv_version current) in
       api_update name (as_i32 version) service (credentials_for image) ;;!
       eff_ret (default "" (dv_id current))) x
  | (Err (NotFound _), x) =>
      (let! id := api_create service (credentials_for image) in
       eff_of (ok_or (Unexpected "creation returned no id") id)) x
  | (Err e, x) => (Err e, x)
  end.
(** What is deployed of a spec already placed, with its files' secrets. *)
Definition with_secrets (files : list SecretFile) (d : DockerSpec) : DockerSpec :=
  with_task (map_container (with_ct_secrets (Some files)) <$> ds_task d) d.
(** @ hlb-orchestrator/src/swarm.rs:1211-1255 [SwarmOrchestrator::deploy] *)
Definition deploy (s : ServiceSpec) : M string :=
  let! s := place_with_data s in
  let! files := file_secrets (ss_name s) (ss_files s) in
  let service := if files is [] then to_bollard s else with_secrets files (to_bollard s) in
  let! id := create_or_update (ss_name s) (ss_image s) service in
  prune_file_secrets (ss_name s) ;;! eff_ret id.
(** A service read, changed and written back from the version read. *)
Definition rewritten (name : string) (f : DockerSpec → DockerSpec) (credentials : option Credentials) : M () :=
  let! current := inspect_whole name in
  let! version := version_of "service" (dv_version current) in
  let! spec := spec_of current in
  api_update name (as_i32 version) (f spec) credentials.
(** @ hlb-orchestrator/src/swarm.rs:1279-1311 [SwarmOrchestrator::update_image] *)
Definition update_image (name image : string) : M () := rewritten name (moved_image image) (credentials_for image).
(** @ hlb-orchestrator/src/swarm.rs:1480-1505 [SwarmOrchestrator::scale] *)
Definition scale (name : string) (replicas : N) : M () := rewritten name (scaled replicas) None.
(** What [docker service update --force] changes. @ hlb-orchestrator/src/swarm.rs:1257-1277 [SwarmOrchestrator::reschedule] *)
Definition reschedule (name : string) : M () :=
  let! current := inspect_whole name in
  let! version := version_of "service" (dv_version current) in
  let! spec := spec_of current in
  let! t := eff_of (ok_or (Unexpected "service with no task template") (ds_task spec)) in
  let t := {| tt_container := tt_container t; tt_constraints := tt_constraints t; tt_memory := tt_memory t;
              tt_never_restarted := tt_never_restarted t; tt_networks := tt_networks t;
              tt_force_update := Some (wrap_i64 (default 0%Z (tt_force_update t) + 1)) |} in
  api_update name (as_i32 version) (with_task (Some t) spec) None.
(** Its files' secrets go too, also when it was gone already.
    @ hlb-orchestrator/src/swarm.rs:1998-2011 [SwarmOrchestrator::remove] *)
Definition remove (name : string) : M () := λ x,
  match api_delete name x with
  | (Ok _, x) => remove_file_secrets name x
  | (Err e, x) =>
      match not_found name e with
      | NotFound n => (remove_file_secrets name ;;! eff_fail (NotFound n)) x
      | e => (Err e, x)
      end
  end.

(** *** The ingress reconfigured *)

(** A file put in the place of the one mounted at its path, and whether that changes anything.
    @ hlb-orchestrator/src/swarm.rs:1428-1440 [SwarmOrchestrator::reconfigure] *)
Fixpoint put_secret (new : SecretFile) (l : list SecretFile) : list SecretFile * bool :=
  match l with
  | [] => ([new], true)
  | old :: l =>
      if sf_path old ==? sf_path new
      then if sf_secret old ==? sf_secret new then (old :: l, false) else (new :: l, true)
      else let '(l, changed) := put_secret new l in (old :: l, changed)
  end.
(** @ hlb-orchestrator/src/swarm.rs:1423-1442 [SwarmOrchestrator::reconfigure] *)
Definition put_secrets (fresh : list SecretFile) (c : ContainerSpec) : ContainerSpec * bool :=
  let '(l, changed) := foldl (λ '(l, changed) new, let '(l, now) := put_secret new l in (l, changed || now))
                         (default [] (ct_secrets c), false) fresh in
  (with_ct_secrets (Some l) c, changed).
(** @ hlb-orchestrator/src/swarm.rs:1444-1454 [SwarmOrchestrator::reconfigure] *)
Definition put_aliases (wanted : list string) (n : Attachment) : Attachment * bool :=
  let have := sort_by String.compare (default [] (at_aliases n)) in
  if have ==? wanted then (n, false)
  else ({| at_network := at_network n; at_aliases := some_unless_empty wanted |}, true).
(** @ hlb-orchestrator/src/swarm.rs:1417-1454 [SwarmOrchestrator::reconfigure] *)
Definition reconfigured (fresh : list SecretFile) (aliases : list string) (t : TaskTemplate) : TaskTemplate * bool :=
  let wanted := btree_elems (list_to_set aliases) in
  let c := put_secrets fresh <$> tt_container t in
  let nets := (λ l, put_aliases wanted <$> l) <$> tt_networks t in
  ({| tt_container := fst <$> c; tt_constraints := tt_constraints t; tt_memory := tt_memory t;
      tt_never_restarted := tt_never_restarted t; tt_networks := (λ l : list (Attachment * bool), l.*1) <$> nets;
      tt_force_update := tt_force_update t |},
   from_option snd false c || any_of snd (default [] nets)).
(** @ hlb-orchestrator/src/swarm.rs:1401-1478 [SwarmOrchestrator::reconfigure] *)
Definition reconfigure (name : string) (files : list (string * string)) (aliases : list string) : M bool :=
  let! current := inspect_whole name in
  let! version := version_of "service" (dv_version current) in
  let! spec := spec_of current in
  let! fresh := file_secrets name files in
  let! t := eff_of (ok_or (Unexpected "service with no task template") (ds_task spec)) in
  let '(t, changed) := reconfigured fresh aliases t in
  if negb changed then prune_file_secrets name ;;! eff_ret false
  else
    let image := default "" (tt_container t ≫= ct_image) in
    api_update name (as_i32 version) (reasserted (with_task (Some t) spec)) (credentials_for image) ;;!
    prune_file_secrets name ;;! eff_ret true.

(** *** Logs *)

Record LogLine := { ll_at : option Z; ll_error : bool; ll_line : string }.
(** @ hlb-orchestrator/src/swarm.rs:2079-2085 [SwarmOrchestrator::logs] *)
Definition log_line (error : bool) (text : string) : LogLine :=
  match split_once " " text with
  | Some (h, remaining) => {| ll_at := unix_timestamp h; ll_error := error; ll_line := remaining |}
  | None => {| ll_at := None; ll_error := error; ll_line := text |}
  end.
(** Both streams, put back in time order.
    @ hlb-orchestrator/src/swarm.rs:2046-2090 [SwarmOrchestrator::logs] *)
Definition logs (service : string) (rows : N) : M (list LogLine) :=
  let! (success, out, err) := api_logs service (N.min (N.max rows 1) 2000) in
  if negb success && bool_decide (out = [])
  then eff_fail (Unexpected ("logs of " +:+ service +:+ ": " +:+ trim (from_utf8_lossy err)))
  else eff_ret (sort_by (λ a b, option_cmp Z.compare (ll_at a) (ll_at b))
    ((log_line false <$> lines (from_utf8_lossy out)) ++ (log_line true <$> lines (from_utf8_lossy err)))).

(** *** One-off jobs *)

(** @ hlb-orchestrator/src/lib.rs:310-316 [JobOutcome] *)
Record JobOutcome := { jo_succeeded : bool; jo_output : list string }.
Definition task_ended (t : TaskInfo) : bool :=
  bool_decide (t_state t ∈ ["complete"; "failed"; "rejected"; "shutdown"; "orphaned"; "remove"]).
(** @ hlb-orchestrator/src/swarm.rs:267-294 [SwarmOrchestrator::clear_ended_runs] *)
Definition clear_run (name : string) (svc : DkService) : M () := λ x,
  match dv_spec svc with
  | None => (Ok (), x)
  | Some spec =>
      match ds_name spec with
      | None => (Ok (), x)
      | Some service =>
          if negb (is_run_of service name) then (Ok (), x)
          else match read_tasks (Some service) x with
               | (Err _, x) => (Ok (), x)
               | (Ok tasks, x) =>
                   if negb (bool_decide (tasks = [])) && all_of task_ended tasks then
                     match api_delete service x with
                     | (Ok _, x) => forget_run_secrets (spec_secrets spec) x
                     | (Err _, x) => (Ok (), x)
                     end
                   else (Ok (), x)
               end
      end
  end.
(** What an interrupted process left, once it has ended: what fails is left.
    @ hlb-orchestrator/src/swarm.rs:256-295 [SwarmOrchestrator::clear_ended_runs] *)
Definition clear_ended_runs (name : string) : M () := λ x,
  match api_services (Some (job_base name)) x with
  | (Err _, x) => (Ok (), x)
  | (Ok services, x) => eff_each (clear_run name) services x
  end.

(** How a task's state answers: done, failed, or not yet.
    @ hlb-orchestrator/src/swarm.rs:1345-1354 [SwarmOrchestrator::run_job] *)
Definition job_verdict (tasks : list TaskInfo) : option bool :=
  if any_of (λ t, t_state t ==? "complete") tasks then Some true
  else if any_of (λ t, bool_decide (t_state t ∈ ["failed"; "rejected"; "orphaned"])) tasks then Some false
  else None.
(** The wait, as many turns as [fuel]: [None] of the option when they are not enough.
    @ hlb-orchestrator/src/swarm.rs:1343-1359 [SwarmOrchestrator::run_job] *)
Fixpoint job_wait_go (fuel : nat) (deadline : N) (name : string) (x : X) : option (result DkErr (option bool) * X) :=
  match fuel with
  | O => None
  | S fuel =>
      match read_tasks (Some name) x with
      | (Err e, x) => Some (Err e, x)
      | (Ok tasks, x) =>
          match job_verdict tasks with
          | Some v => Some (Ok (Some v), x)
          | None => if (deadline <=? api_clock x)%N then Some (Ok None, x)
                    else job_wait_go fuel deadline name (api_sleep 500 x)
          end
      end
  end.
(** The turns there is time for: one each half second, and the last. *)
Definition job_turns (timeout_secs : N) : nat := S (S (N.to_nat (timeout_secs * 2))).
Definition job_wait (timeout_secs : N) (name : string) : M (option bool) := λ x,
  default (Ok None, x) (job_wait_go (job_turns timeout_secs) (api_clock x + timeout_secs * 1000) name x).

(** What Swarm says of the tasks that do not run. *)
Definition swarm_says (name : string) : M (option string) := λ x,
  match read_tasks (Some name) x with
  | (Ok tasks, x) => (Ok (why_not_running tasks), x)
  | (Err _, x) => (Ok None, x)
  end.
(** A log that cannot be read is said. @ hlb-orchestrator/src/swarm.rs:1360-1368 [SwarmOrchestrator::run_job] *)
Definition job_log (name : string) : M (list string) := λ x,
  match logs name 2000 x with
  | (Ok l, x) => (Ok (ll_line <$> l), x)
  | (Err e, x) => (Ok ["its log could not be read: " +:+ dk_display e], x)
  end.
(** @ hlb-orchestrator/src/swarm.rs:1364-1391 [SwarmOrchestrator::run_job] *)
Definition job_output (name : string) (timeout_secs : N) (outcome : option bool) : M (list string) :=
  let! output := job_log name in
  match outcome with
  | None =>
      let! says := swarm_says name in
      eff_ret (output ++ ["did not end within " +:+ show_N timeout_secs +:+ " s" +:+
                          from_option (λ w, " — Swarm says: " +:+ w) "" says])
  | Some false =>
      if bool_decide (output = []) then
        let! says := swarm_says name in eff_ret [default "the job failed and wrote nothing" says]
      else eff_ret output
  | Some true => eff_ret output
  end.
(** A run of its own name; what it read as files does not outlive it. The error of a task list on the
    way out of the wait leaves the run as it is.
    @ hlb-orchestrator/src/swarm.rs:1313-1399 [SwarmOrchestrator::run_job] *)
Definition run_job (s : ServiceSpec) (timeout_secs t pid n : N) : M JobOutcome :=
  clear_ended_runs (ss_name s) ;;!
  let s := with_name (job_name (ss_name s) t pid n) s in
  let! files := file_secrets (ss_name s) (ss_files s) in
  let secrets := sf_secret <$> files in
  (λ x, match api_create (with_secrets files (to_bollard s)) (credentials_for (ss_image s)) x with
        | (Ok _, x) => (Ok (), x)
        | (Err e, x) => (forget_run_secrets secrets ;;! eff_fail e) x
        end) ;;!
  let! outcome := job_wait timeout_secs (ss_name s) in
  let! output := job_output (ss_name s) timeout_secs outcome in
  (λ x, match api_delete (ss_name s) x with (_, x) => (Ok (), x) end) ;;!
  forget_run_secrets secrets ;;!
  eff_ret {| jo_succeeded := outcome ==? Some true; jo_output := output |}.

(** *** Waiting *)

(** One reading, [Some] when the wait ends there: healthy, or rolled back.
    @ hlb-orchestrator/src/swarm.rs:2097-2106 [SwarmOrchestrator::wait_healthy] *)
Definition healthy_turn (name : string) : M (ServiceStatus * option bool) :=
  let! last := status name in
  if from_option is_failure false (st_update_state last) then eff_ret (last, Some false)
  else if is_converged last then
    let! tasks := read_tasks (Some name) in
    eff_ret (last, if rollout_concluded last tasks then Some true else None)
  else eff_ret (last, None).
(** @ hlb-orchestrator/src/swarm.rs:2096-2108 [SwarmOrchestrator::wait_healthy] *)
Fixpoint wait_healthy_go (fuel : nat) (deadline : N) (name : string) (last : ServiceStatus) (x : X)
    : option (result DkErr (ServiceStatus * bool) * X) :=
  if (api_clock x <? deadline)%N then
    match fuel with
    | O => None
    | S fuel =>
        match healthy_turn name x with
        | (Err e, x) => Some (Err e, x)
        | (Ok (last, Some ok), x) => Some (Ok (last, ok), x)
        | (Ok (last, None), x) => wait_healthy_go fuel deadline name last (api_sleep 500 x)
        end
    end
  else Some (Ok (last, false), x).
(** @ hlb-orchestrator/src/swarm.rs:2092-2120 [SwarmOrchestrator::wait_healthy] *)
Definition wait_healthy (name : string) (timeout_secs : N) : M ServiceStatus := λ x,
  let deadline := (api_clock x + timeout_secs * 1000)%N in
  (let! first := status name in
   let! r := (λ x, default (Ok (first, false), x) (wait_healthy_go (job_turns timeout_secs) deadline name first x)) in
   if (r.2 : bool) then eff_ret r.1
   else
     let! why := swarm_says name in
     eff_fail (HealthTimeout name timeout_secs (st_running_replicas r.1) (st_desired_replicas r.1) why)) x.

End client.

(** Reading Docker never turns the clock back, and sleeping takes at least what is asked. *)
Class DockerClock (X : Type) `{DockerApi X} := {
  clock_inspect name x : (api_clock x ≤ api_clock (api_inspect name x).2)%N;
  clock_tasks name x : (api_clock x ≤ api_clock (api_tasks name x).2)%N;
  clock_services name x : (api_clock x ≤ api_clock (api_services name x).2)%N;
  clock_sleep d x : (api_clock x + d ≤ api_clock (api_sleep d x))%N }.

(** ** Theorems *)

(** *** A service moved in place *)

(** What is deployed of a spec: constrained to its data when it has some. *)
Definition placed (s : ServiceSpec) : ServiceSpec :=
  if keeps_data_on_its_node s then constraint (data_constraint (ss_name s)) s else s.
(** A constraint that says where data is. *)
Definition says_data : string → bool := starts_with ("node.labels." +:+ data_label "").

Lemma starts_with_append p t : starts_with p (p +:+ t) = true.
Proof. unfold starts_with. apply bool_decide_eq_true. exists t. apply strip_prefix_append. Qed.

Lemma data_constraint_says name : says_data (data_constraint name) = true.
Proof. exact (starts_with_append "node.labels.hlb.data." (name +:+ "==true")). Qed.

Lemma placed_stops_first s : stops_first (placed s) = stops_first s.
Proof. unfold placed. destruct (keeps_data_on_its_node s); [|done]. by destruct s. Qed.

Lemma ports_hold s :
  any_of po_host (default [] (ports_of s)) = negb (sec_published_ports (ss_hardening s) ==? []).
Proof. unfold ports_of. by destruct (sec_published_ports (ss_hardening s)). Qed.

(** Read back, a deployed service stops first exactly when it was asked to. *)
Lemma read_back_stops_first s files :
  ss_mode s ≠ Job_ → Forall (λ c, says_data c = false) (ss_constraints s) →
  spec_stops_first (with_secrets files (to_bollard (placed s))) = stops_first s.
Proof.
  intros Hm Hc. unfold spec_stops_first, with_secrets, with_task. cbn [ds_update ds_task ds_ports to_bollard].
  assert (Hmode : ss_mode (placed s) = ss_mode s)
    by (unfold placed; destruct (keeps_data_on_its_node s); [|done]; by destruct s).
  assert (Hj : (ss_mode (placed s) ==? Job_) = false) by (rewrite Hmode; by apply bool_decide_eq_false_2).
  rewrite Hj, placed_stops_first.
  destruct (stops_first s) eqn:E; [done|]. cbn.
  assert (Hk : keeps_data_on_its_node s = false).
  { unfold stops_first in E. by apply orb_false_iff in E as [[_ ->]%orb_false_iff _]. }
  unfold placed. rewrite Hk, ports_hold.
  unfold stops_first in E. apply orb_false_iff in E as [_ ->]. rewrite orb_false_r.
  apply any_of_false. intros c Hin. rewrite Forall_forall in Hc. exact (Hc c Hin).
Qed.

Lemma stops_first_container f d :
  spec_stops_first (with_task (map_container f <$> ds_task d) d) = spec_stops_first d.
Proof. unfold spec_stops_first. cbn. by destruct (ds_task d). Qed.

Lemma placed_mode s : ss_mode (placed s) = ss_mode s.
Proof. unfold placed. destruct (keeps_data_on_its_node s); [|done]. by destruct s. Qed.

Lemma placed_image image s : placed (with_image image s) = with_image image (placed s).
Proof.
  assert (E : keeps_data_on_its_node (with_image image s) = keeps_data_on_its_node s) by (by destruct s).
  unfold placed. rewrite E. destruct (keeps_data_on_its_node s); [|done]. by destruct s.
Qed.

Lemma placed_replicas n s : placed (with_replicas n s) = with_replicas n (placed s).
Proof.
  assert (E : keeps_data_on_its_node (with_replicas n s) = keeps_data_on_its_node s) by (by destruct s).
  unfold placed. rewrite E. destruct (keeps_data_on_its_node s); [|done]. by destruct s.
Qed.

(** C30. An image moved on a service in place is that service deployed again with the image: what is
    read back of Docker, changed and written, policy and order of the update included, is what the
    specification with the new image translates to. A count changed likewise. *)
Theorem moved_in_place s files image n :
  ss_mode s = Replicated → Forall (λ c, says_data c = false) (ss_constraints s) →
  let deployed s := with_secrets files (to_bollard (placed s)) in
  moved_image image (deployed s) = deployed (with_image image s) ∧
  scaled n (deployed s) = deployed (with_replicas n s).
Proof.
  intros Hm Hc deployed. subst deployed. cbn beta. rewrite placed_image, placed_replicas.
  pose proof (placed_stops_first s) as Hs. pose proof (placed_mode s) as Hp. rewrite Hm in Hp.
  pose proof (read_back_stops_first s files ltac:(by rewrite Hm) Hc) as Hb.
  destruct (placed s) eqn:E. cbn in Hp. subst. split; [|done].
  unfold moved_image, reasserted.
  rewrite stops_first_container, Hb, <- Hs. done.
Qed.

Lemma moved_in_place_witness :
  let s := mount_volume "postgres-data" "/data" (new_spec "postgres" "postgres:17") in
  ss_mode s = Replicated ∧
  moved_image "postgres:18" (with_secrets [] (to_bollard (placed s))) =
    with_secrets [] (to_bollard (placed (with_image "postgres:18" s))).
Proof.
  intros s. split; [reflexivity|].
  exact (proj1 (moved_in_place s [] "postgres:18" 1 eq_refl (Forall_nil_2 _))).
Defined.

(** *** Whose a file's secret is *)

Lemma append_length_inj a b c d :
  String.length a = String.length c → a +:+ b = c +:+ d → a = c ∧ b = d.
Proof.
  revert c. induction a as [|x a IH]; intros [|y c]; cbn [String.length]; try lia.
  - change ("" +:+ ?x) with x. done.
  - rewrite !append_cons. intros [= Hl] [= -> H]. apply IH in H as [-> ->]; done.
Qed.

Lemma hex_byte_lower b : (b < 256)%N → forallb is_lower_hex (hex_byte b) = true.
Proof. apply (below_forallb 256 (λ b, forallb is_lower_hex (hex_byte b))). by vm_compute. Qed.

Lemma str_all_of_chars p l : str_all p (of_chars l) = forallb p l.
Proof. induction l as [|c l IH]; [done|]. cbn. by rewrite IH. Qed.

Lemma sha256_hex_lower data : str_all is_lower_hex (sha256_hex data) = true.
Proof.
  unfold sha256_hex. rewrite str_all_of_chars. pose proof (sha256_ok data) as H.
  induction H as [|b l Hb _ IH]; [done|]. rewrite bind_cons, forallb_app, IH, andb_true_r. by apply hex_byte_lower.
Qed.

Lemma length_sha256_hex data : String.length (sha256_hex data) = 64%nat.
Proof.
  unfold sha256_hex. rewrite length_of_chars.
  assert (H : ∀ l : list N, length (l ≫= hex_byte) = (2 * length l)%nat).
  { induction l as [|b l IH]; [done|]. rewrite bind_cons, length_app, IH. cbn. lia. }
  by rewrite H, length_sha256.
Qed.

Lemma substring_prefix p n s : str_all p s = true → (n ≤ String.length s)%nat →
  String.length (String.substring 0 n s) = n ∧ str_all p (String.substring 0 n s) = true.
Proof.
  revert n. induction s as [|c s IH]; intros [|n] Hp Hn; cbn in *; try (split; [lia|done]); [lia..|].
  apply andb_true_iff in Hp as [Hc Hp]. destruct (IH n Hp ltac:(lia)) as [-> ->]. by rewrite Hc.
Qed.

Lemma first12_hex data :
  String.length (first12 (sha256_hex data)) = 12%nat ∧ str_all is_lower_hex (first12 (sha256_hex data)) = true.
Proof. apply substring_prefix; [apply sha256_hex_lower|]. rewrite length_sha256_hex. lia. Qed.

Lemma length_trim_start_matches c s : (String.length (trim_start_matches c s) ≤ String.length s)%nat.
Proof. induction s as [|d s IH]; cbn; [lia|]. destruct (decide (d = c)); cbn; lia. Qed.

Lemma length_rev s : String.length (String.rev s) = String.length s.
Proof. rewrite rev_spec, length_of_chars, length_reverse. induction s as [|c s IH]; [done|]. cbn. by rewrite IH. Qed.

Lemma length_trim_end_matches c s : (String.length (trim_end_matches c s) ≤ String.length s)%nat.
Proof.
  unfold trim_end_matches. rewrite length_rev. etrans; [apply length_trim_start_matches|]. by rewrite length_rev.
Qed.

Lemma length_get_to n s t : get_to n s = Some t → String.length t = n.
Proof.
  revert s t. induction n as [|n IH]; intros [|c s] t; cbn; try done.
  - by intros [= <-].
  - destruct (is_cont c); [done|]. by intros [= <-].
  - destruct (get_to n s) as [u|] eqn:E; [|done]. intros [= <-]. cbn. f_equal. by eapply IH.
Qed.

Lemma length_cut n s : (String.length (cut n s) ≤ n)%nat.
Proof.
  induction n as [|n IH]; cbn [cut]; destruct (get_to _ s) as [t|] eqn:E;
    try (apply length_get_to in E; lia); cbn; lia.
Qed.

Lemma is_file_secret_of_Some service secret :
  is_file_secret_of service secret = true ↔
  (String.length service ≤ FILE_SECRET_ROOM)%nat ∧
  ∃ hash, secret = service +:+ "-file-" +:+ hash ∧ String.length hash = 12%nat ∧ str_all is_lower_hex hash = true.
Proof.
  unfold is_file_secret_of. rewrite andb_true_iff, Nat.leb_le. apply and_iff_compat_l. split.
  - destruct (strip_prefix service secret) as [r|] eqn:E1; [|done]. cbn [mbind option_bind].
    destruct (strip_prefix "-file-" r) as [hash|] eqn:E2; [|done]. intros [Hl Hh]%andb_true_iff.
    exists hash. apply strip_prefix_Some in E1 as ->. apply strip_prefix_Some in E2 as ->.
    apply Nat.eqb_eq in Hl. split_and!; done.
  - intros (hash & -> & Hl & Hh). rewrite strip_prefix_append. cbn [mbind option_bind].
    rewrite strip_prefix_append. by rewrite Hl, Hh.
Qed.

(** The name of a file's secret fits the 64 characters Swarm allows and, whenever the service's
    name is whole in it, is that service's and no other's, whatever the paths and the contents: no
    service is taken for another its name starts with, when its old files are deleted. *)
Theorem file_secret_owned service path content :
  (String.length (file_secret_name service path content) ≤ 64)%nat ∧
  ((String.length service ≤ FILE_SECRET_ROOM)%nat →
   ∀ other, is_file_secret_of other (file_secret_name service path content) = true ↔ other = service).
Proof.
  unfold file_secret_name. split.
  - destruct (Nat.leb_spec (String.length service) FILE_SECRET_ROOM) as [Hl|Hl].
    + rewrite !string_length_append, (proj1 (first12_hex _)). unfold FILE_SECRET_ROOM in Hl. cbn [String.length]. lia.
    + rewrite !string_length_append, (proj1 (first12_hex _)).
      pose proof (length_trim_end_matches "-" (cut FILE_SECRET_ROOM service)).
      pose proof (length_cut FILE_SECRET_ROOM service). unfold FILE_SECRET_ROOM in *. cbn [String.length]. lia.
  - intros Hl other. rewrite (proj2 (Nat.leb_le _ _) Hl), is_file_secret_of_Some. split.
    + intros [_ (hash & E & Hh & _)]. symmetry. apply append_length_inj in E as [E _]; [done|].
      apply (f_equal String.length) in E. rewrite !string_length_append, (proj1 (first12_hex _)), Hh in E. lia.
    + intros ->. split; [done|]. eexists. split; [done|]. apply first12_hex.
Qed.

(** A job's run cut to fit is taken for a service named as what is left of it. *)
Lemma cut_name_taken :
  let service := "hlb-backup-a-very-long-application-name-of-46c" in
  is_file_secret_of service (file_secret_name (service +:+ "-00c0ffee00110022") "/run/key" "secret") = true.
Proof.
  intros service. apply is_file_secret_of_Some. split; [by vm_compute; lia|].
  eexists. split; [unfold file_secret_name|apply first12_hex].
  change (_ <=? _)%nat with false. cbv iota.
  change (trim_end_matches "-" (cut FILE_SECRET_ROOM (service +:+ "-00c0ffee00110022"))) with service. done.
Qed.

(** An interval of so many seconds that its nanoseconds pass 64 bits is asked of Docker as less than
    one second. *)
Lemma probe_interval_wraps :
  pb_interval (probe_of {| hc_test := []; hc_interval_secs := 18446744074; hc_timeout_secs := 5; hc_retries := 3;
                           hc_start_period_secs := 30 |}) = 290448384%Z.
Proof. vm_compute. reflexivity. Qed.

(** *** Waiting *)

Section waiting.
Context {X : Type} `{DockerApi X, !DockerClock X}.

Definition later_clock : relation X := λ x x', (api_clock x ≤ api_clock x')%N.
#[local] Instance later_clock_preorder : PreOrder later_clock.
Proof. split; [by intros x; unfold later_clock|]. unfold later_clock. intros x y z. lia. Qed.

Lemma later_inspect name : keeps later_clock (inspect name).
Proof. intros x. unfold inspect. pose proof (clock_inspect name x). by destruct (api_inspect name x). Qed.

Ltac later_steps :=
  keeps_steps; first [apply later_inspect|intros x; apply clock_tasks|intros x; apply clock_services].

Lemma later_tasks name : keeps later_clock (read_tasks name).
Proof. unfold read_tasks. later_steps. Qed.
Lemma later_turn name : keeps later_clock (healthy_turn name).
Proof. unfold healthy_turn, status. later_steps. Qed.

Lemma job_wait_enough n deadline name x :
  (deadline ≤ api_clock x + 500 * N.of_nat n)%N →
  ∃ r, ∀ fuel, (n < fuel)%nat → job_wait_go fuel deadline name x = Some r.
Proof.
  revert x. induction n as [|n IH]; intros x Hd.
  all: pose proof (later_tasks (Some name) x) as Hl; unfold later_clock in Hl.
  all: destruct (read_tasks (Some name) x) as [[tasks|e] x1] eqn:E; cbn [snd] in Hl.
  all: try (exists (Err e, x1); intros [|fuel] Hf; [lia|]; cbn [job_wait_go]; by rewrite E).
  all: destruct (job_verdict tasks) as [v|] eqn:Ev;
    [exists (Ok (Some v), x1); intros [|fuel] Hf; [lia|]; cbn [job_wait_go]; by rewrite E, Ev|].
  all: destruct (N.leb_spec deadline (api_clock x1)) as [Hc|Hc];
    [exists (Ok None, x1); intros [|fuel] Hf; [lia|]; cbn [job_wait_go]; rewrite E, Ev;
     by rewrite (proj2 (N.leb_le _ _) Hc)|].
  - lia.
  - destruct (IH (api_sleep 500 x1)) as [r Hr]; [pose proof (clock_sleep 500 x1); lia|].
    exists r. intros [|fuel] Hf; [lia|]. cbn [job_wait_go]. rewrite E, Ev, (proj2 (N.leb_gt _ _) Hc).
    apply Hr. lia.
Qed.

Lemma wait_healthy_enough n deadline name last x :
  (deadline ≤ api_clock x + 500 * N.of_nat n)%N →
  ∃ r, ∀ fuel, (n ≤ fuel)%nat → wait_healthy_go fuel deadline name last x = Some r.
Proof.
  revert last x. induction n as [|n IH]; intros last x Hd;
    destruct (N.ltb_spec (api_clock x) deadline) as [Hc|Hc]; try lia.
  1,3: exists (Ok (last, false), x); intros [|fuel] _; cbn [wait_healthy_go];
       by rewrite (proj2 (N.ltb_ge _ _) Hc).
  pose proof (later_turn name x) as Hl. unfold later_clock in Hl.
  destruct (healthy_turn name x) as [[[st o]|e] x1] eqn:E; cbn [snd] in Hl.
  2: { exists (Err e, x1). intros [|fuel] Hf; [lia|]. cbn [wait_healthy_go]. by rewrite (proj2 (N.ltb_lt _ _) Hc), E. }
  destruct o as [ok|].
  - exists (Ok (st, ok), x1). intros [|fuel] Hf; [lia|]. cbn [wait_healthy_go].
    by rewrite (proj2 (N.ltb_lt _ _) Hc), E.
  - destruct (IH st (api_sleep 500 x1)) as [r Hr]; [pose proof (clock_sleep 500 x1); lia|].
    exists r. intros [|fuel] Hf; [lia|]. cbn [wait_healthy_go]. rewrite (proj2 (N.ltb_lt _ _) Hc), E. apply Hr. lia.
Qed.

(** Every wait ends: with a clock that goes forward, the polls there is time for before the
    deadline are enough for the wait of a service's health and for that of a job, which stop on an
    answer, on an error or at the deadline, the same whatever more they were given. *)
Theorem waits_end name timeout_secs last x x1 :
  later_clock x x1 →
  let deadline := (api_clock x + timeout_secs * 1000)%N in
  (∃ r, ∀ fuel, (job_turns timeout_secs ≤ fuel)%nat → wait_healthy_go fuel deadline name last x1 = Some r) ∧
  (∃ r, ∀ fuel, (job_turns timeout_secs ≤ fuel)%nat → job_wait_go fuel deadline name x1 = Some r).
Proof.
  intros Hc deadline. unfold later_clock in Hc. unfold job_turns.
  assert (Hd : (deadline ≤ api_clock x1 + 500 * N.of_nat (N.to_nat (timeout_secs * 2)))%N) by lia.
  split.
  - destruct (wait_healthy_enough _ _ name last x1 Hd) as [r Hr]. exists r. intros fuel Hf. apply Hr. lia.
  - destruct (job_wait_enough _ _ name x1 Hd) as [r Hr]. exists r. intros fuel Hf. apply Hr. lia.
Qed.

Lemma wait_healthy_go_healthy fuel deadline name last x st x' :
  wait_healthy_go fuel deadline name last x = Some (Ok (st, true), x') →
  ∃ x1 x2 tasks, (api_clock x1 < deadline)%N ∧ status name x1 = (Ok st, x2) ∧
    read_tasks (Some name) x2 = (Ok tasks, x') ∧ from_option is_failure false (st_update_state st) = false ∧
    is_converged st = true ∧ rollout_concluded st tasks = true.
Proof.
  revert last x. induction fuel as [|fuel IH]; intros last x; cbn [wait_healthy_go];
    (destruct (N.ltb_spec (api_clock x) deadline) as [Hc|_]; [|intros [= ]; done]); [done|].
  destruct (healthy_turn name x) as [[[st1 o]|e] x1] eqn:E; [|done]. destruct o as [ok|]; [|by apply IH].
  intros [= <- -> <-]. exists x. unfold healthy_turn, eff_bind in E.
  destruct (status name x) as [[st2|e] x2]; [|done].
  destruct (from_option is_failure false (st_update_state st2)) eqn:Ef; [by simplify_eq|].
  destruct (is_converged st2) eqn:Econv; [|by simplify_eq].
  destruct (read_tasks (Some name) x2) as [[tasks|e] x3] eqn:Et; [|done]. unfold eff_ret in E.
  destruct (rollout_concluded st2 tasks) eqn:Er; [|by simplify_eq]. simplify_eq.
  exists x2, tasks. split_and!; done.
Qed.

(** A service is said to be healthy only on what Swarm said before the deadline: as many tasks as
    asked run, the update is over and was not taken back, and as many live tasks as asked run the
    image the service names now, not the one it had. *)
Theorem wait_healthy_spec name timeout_secs x last x' :
  wait_healthy name timeout_secs x = (Ok last, x') →
  ∃ x1 x2 tasks, (api_clock x1 < api_clock x + timeout_secs * 1000)%N ∧
    status name x1 = (Ok last, x2) ∧ read_tasks (Some name) x2 = (Ok tasks, x') ∧
    from_option is_failure false (st_update_state last) = false ∧
    is_converged last = true ∧ rollout_concluded last tasks = true.
Proof.
  unfold wait_healthy, eff_bind. destruct (status name x) as [[first|e] x1]; [|done].
  destruct (wait_healthy_go _ _ name first x1) as [[[[st ok]|e] x2]|] eqn:E; cbn [default from_option fst snd id];
    [|done|].
  - destruct ok.
    + intros [= <- <-]. by eapply wait_healthy_go_healthy.
    + by destruct (swarm_says name x2) as [[]].
  - by destruct (swarm_says name x1) as [[]].
Qed.
End waiting.

(** ** A Docker that obeys *)

Module Toy.

(** What it holds, and the state every task is in; [None] when tasks cannot be listed. *)
Record Toy := { ty_services : gmap string DkService; ty_secrets : gmap string string; ty_state : option string;
  ty_clock : N }.
Definition with_services (m : gmap string DkService) (y : Toy) : Toy :=
  {| ty_services := m; ty_secrets := ty_secrets y; ty_state := ty_state y; ty_clock := ty_clock y |}.
Definition with_toy_secrets (m : gmap string string) (y : Toy) : Toy :=
  {| ty_services := ty_services y; ty_secrets := m; ty_state := ty_state y; ty_clock := ty_clock y |}.
Definition gone : DkErr := DockerError (Some 404%N) "not found".
Definition task (name state : string) (svc : DkService) : DkTask :=
  {| dt_id := Some "t1"; dt_service_id := dv_id svc; dt_slot := Some 1%Z; dt_node_id := Some "n1";
     dt_desired_state := Some "running"; dt_state := Some state;
     dt_image := match dv_spec svc ≫= ds_task with Some t => tt_container t ≫= ct_image | None => None end;
     dt_message := None; dt_err := None; dt_timestamp := None |}.

#[global] Instance toy_docker : DockerApi Toy := {
  api_inspect name y := (ok_or gone (ty_services y !! name), y);
  api_probe _ y := (Ok None, y);
  api_previous _ y := (Ok None, y);
  api_create d _ y :=
    let name := default "" (ds_name d) in
    (Ok (Some name), with_services (<[name := {| dv_id := Some name; dv_version := Some 1%N; dv_spec := Some d;
                                                 dv_update_state := None |}]> (ty_services y)) y);
  api_update name _ d _ y :=
    (Ok (), with_services (<[name := {| dv_id := Some name; dv_version := Some 2%N; dv_spec := Some d;
                                        dv_update_state := None |}]> (ty_services y)) y);
  api_delete name y := (Ok (), with_services (delete name (ty_services y)) y);
  api_services _ y := (Ok (btree_values (ty_services y)), y);
  api_tasks name y :=
    (match ty_state y with
     | None => Err (DockerError (Some 500%N) "the tasks cannot be listed")
     | Some state => Ok (omap (λ '(n, svc), if name ==? Some n then Some (task n state svc) else None)
                           (btree_entries (ty_services y)))
     end, y);
  api_nodes y := (Ok [], y);
  api_inspect_node _ y := (Err gone, y);
  api_update_node _ _ _ y := (Err gone, y);
  api_secrets y := (Ok (Some <$> btree_keys (ty_secrets y)), y);
  api_inspect_secret name y := (ok_or gone ((λ _, Some name) <$> ty_secrets y !! name), y);
  api_create_secret name data y := (Ok name, with_toy_secrets (<[name := data]> (ty_secrets y)) y);
  api_delete_secret name y := (Ok (), with_toy_secrets (delete name (ty_secrets y)) y);
  api_logs _ _ y := (Ok (true, [], []), y);
  api_sleep d y := {| ty_services := ty_services y; ty_secrets := ty_secrets y; ty_state := ty_state y;
                      ty_clock := ty_clock y + d |};
  api_clock := ty_clock }.
#[global] Instance toy_clock : DockerClock Toy.
Proof. split; intros; cbn; lia. Qed.

Definition gitea : ServiceSpec := new_spec "gitea" "gitea/gitea:1.22".
Definition serving : Toy :=
  (api_create (to_bollard gitea) None
    {| ty_services := ∅; ty_secrets := ∅; ty_state := Some "running"; ty_clock := 0 |}).2.
End Toy.

Lemma waits_end_witness :
  later_clock Toy.serving (api_sleep 7 Toy.serving) ∧
  ∃ r, ∀ fuel, (job_turns 60 ≤ fuel)%nat →
    job_wait_go fuel (api_clock Toy.serving + 60 * 1000) "gitea" (api_sleep 7 Toy.serving) = Some r.
Proof.
  assert (H : later_clock Toy.serving (api_sleep 7 Toy.serving)) by (unfold later_clock; cbn; lia).
  split; [exact H|]. exact (proj2 (waits_end "gitea" 60 (to_status
    {| dv_id := None; dv_version := None; dv_spec := None; dv_update_state := None |} 0)
    Toy.serving (api_sleep 7 Toy.serving) H)).
Defined.

Lemma wait_healthy_spec_witness :
  match wait_healthy "gitea" 60 Toy.serving with (Ok last, _) => is_converged last = true | (Err _, _) => False end.
Proof.
  destruct (wait_healthy "gitea" 60 Toy.serving) as [[last|e] y] eqn:E.
  - destruct (wait_healthy_spec "gitea" 60 Toy.serving last y E) as (_ & _ & _ & _ & _ & _ & _ & Hc & _). exact Hc.
  - vm_compute in E. discriminate.
Defined.

(** The tasks of a run that cannot be listed once end the wait there: the run goes on, and what it
    was given to read stays. *)
Lemma run_left_behind :
  let key := file "/run/hlb/restic-password" "secret" (job (new_spec "hlb-backup-gitea" "restic/restic:0.19.1")) in
  match run_job ∅ key 60 1 2 3 {| Toy.ty_services := ∅; Toy.ty_secrets := ∅; Toy.ty_state := None; Toy.ty_clock := 0 |} with
  | (Err _, y) => size (Toy.ty_services y) = 1%nat ∧ size (Toy.ty_secrets y) = 1%nat
  | (Ok _, _) => False
  end.
Proof. vm_compute. split; reflexivity. Qed.
