(* ===== verification/Updater.v ===== *)
(** * What can be updated, and to what

    [crates/hlb-updater/src/lib.rs] and [catalog.rs]: the candidates a pass over the
    registries finds - an image of the catalog's, what a channel allows, a build
    republished - how mature each is, what must be verified before it starts and what may
    be applied now. Registries are read, never written: their answers are the
    environment's. *)

From S2P Require Import Prelude RustStr Capability Manifest Registry Schedule Journal.

(** ** Maturity *)

(** @ hlb-updater/src/lib.rs:109-120 [Maturity] *)
Inductive Maturity := Mature | Young (ready_at : Z) | Undated.
#[export] Instance Maturity_eq_dec : EqDecision Maturity.
Proof. solve_decision. Defined.

(** @ hlb-updater/src/lib.rs:123-135 [Maturity::of] *)
Definition maturity_of (published : option Z) (days : N) (now : Z) : Maturity :=
  match published with
  | None => Undated
  | Some at_ =>
      let ready_at := (at_ + Z.of_N days * 86400)%Z in
      if (ready_at <=? now)%Z then Mature else Young ready_at
  end.

(** @ hlb-updater/src/lib.rs:137-139 [Maturity::is_mature] *)
Definition is_mature (m : Maturity) : bool := if m is Mature then true else false.

(** @ hlb-updater/src/lib.rs:141-151 [Maturity::or_younger] *)
Definition or_younger (m other : Maturity) : Maturity :=
  match m, other with
  | Undated, _ | _, Undated => Undated
  | Young a, Young b => Young (Z.max a b)
  | Young a, Mature | Mature, Young a => Young a
  | Mature, Mature => Mature
  end.

Section refusal.
(** A date as chrono writes it; nothing when it is out of its range. *)
Context (date_time : Z → string).

(** @ hlb-updater/src/lib.rs:153-170 [Maturity::refusal] *)
Definition refusal (m : Maturity) (now : Z) : option string :=
  match m with
  | Mature => None
  | Young ready_at =>
      let left := match (Z.max (ready_at - now) 0 / 86400)%Z with
                  | 0%Z => "within a day"
                  | 1%Z => "in 1 day"
                  | n => "in " +:+ show_Z n +:+ " days"
                  end in
      Some ("published too recently - mature on " +:+ date_time ready_at +:+ ", " +:+ left)
  | Undated => Some "the image does not say when it was built"
  end.
End refusal.

(** ** Candidates *)

(** @ hlb-updater/src/lib.rs:64-76 [UpdateKind] *)
Inductive UpdateKind :=
| DigestOnly
| NewVersion (to_tag : string)
| CatalogMove (repo tag : string)
| Companions.
#[export] Instance UpdateKind_eq_dec : EqDecision UpdateKind.
Proof. solve_decision. Defined.

(** @ hlb-updater/src/lib.rs:78-89 [CompanionMove] *)
Record CompanionMove := {
  cm_name : string; cm_service : string; cm_to : Image; cm_maturity : Maturity }.

(** @ hlb-updater/src/lib.rs:91-107 [Candidate] *)
Record Candidate := {
  ca_app : string; ca_kind : UpdateKind; ca_from_tag : string; ca_from_digest : option string;
  ca_to_digest : string; ca_in_window : bool; ca_needs_backup : bool; ca_maturity : Maturity;
  ca_companions : list CompanionMove }.

(** The repository and the tag a candidate moves an image to.
    @ hlb-updater/src/lib.rs:186-192 [Candidate::to_verify] *)
Definition target_of (kind : UpdateKind) (installed : Image) : string * string :=
  match kind with
  | NewVersion to_tag => (img_repo installed, to_tag)
  | CatalogMove repo tag => (repo, tag)
  | DigestOnly | Companions => (img_repo installed, img_tag installed)
  end.

(** @ hlb-updater/src/lib.rs:173-206 [Candidate::to_verify] *)
Definition to_verify (c : Candidate) (installed : Image) (catalog : option Image)
    : list (string * option ImageSigner) :=
  let '(repo, tag) := target_of (ca_kind c) installed in
  let signer :=
    match catalog with
    | Some i => if img_repo i ==? repo then img_signed_by i
                else if img_repo installed ==? repo then img_signed_by installed else None
    | None => if img_repo installed ==? repo then img_signed_by installed else None
    end in
  (if ca_kind c ==? Companions then []
   else [(repo +:+ ":" +:+ tag +:+ "@" +:+ ca_to_digest c, signer)]) ++
  ((λ m, (image_reference (cm_to m), img_signed_by (cm_to m))) <$> ca_companions c).

(** @ hlb-updater/src/lib.rs:208-234 [Candidate::describe] *)
Definition describe (c : Candidate) : string :=
  let own := match ca_kind c with
    | DigestOnly => ca_app c +:+ ": " +:+ ca_from_tag c +:+ " republished"
    | NewVersion to_tag => ca_app c +:+ " : " +:+ ca_from_tag c +:+ " → " +:+ to_tag
    | CatalogMove repo tag =>
        ca_app c +:+ ": " +:+ ca_from_tag c +:+ " → " +:+ repo +:+ ":" +:+ tag +:+
        ", from the catalog"
    | Companions => ca_app c +:+ ": its companions, from the catalog"
    end in
  let with_ := (λ m, cm_name m +:+ " → " +:+ img_tag (cm_to m)) <$> ca_companions c in
  if decide (with_ = []) then own else own +:+ " (" +:+ join ", " with_ +:+ ")".

(** @ hlb-updater/src/lib.rs:248-263 [catalog_move] *)
Definition catalog_move (installed : Image) (catalog : option Image) : option Image :=
  c ← catalog;
  let same_build := bool_decide (is_Some (img_digest c)) && (img_digest c ==? img_digest installed) in
  if same_build || ((img_repo c ==? img_repo installed) && (img_tag c ==? img_tag installed))
  then None
  else if img_repo c ==? img_repo installed then
    match Version.parse (img_tag installed), Version.parse (img_tag c) with
    | Some from, Some to =>
        if Version.same_flavor from to && negb (Version.is_newer_than to from) then None else Some c
    | _, _ => Some c
    end
  else Some c.

(** @ hlb-updater/src/lib.rs:289-307 [own_volumes] *)
Definition own_volumes (m : Manifest) : list string :=
  merge_sort String.le
    (omap (λ c, match c with Storage name _ _ _ _ _ None => Some name | _ => None end)
       (sp_requires (mf_spec m))).

(** @ hlb-updater/src/lib.rs:272-287 [held_move] *)
Definition held_move (installed catalog : Manifest) : option string :=
  _ ← catalog_move (sp_image (mf_spec installed)) (Some (sp_image (mf_spec catalog)));
  let before := own_volumes installed in
  let after := own_volumes catalog in
  if before ==? after then None
  else Some ("the catalog moves it to " +:+ img_repo (sp_image (mf_spec catalog)) +:+ ":" +:+
             img_tag (sp_image (mf_spec catalog)) +:+ " with volumes of its own (" +:+
             join ", " before +:+ " → " +:+ join ", " after +:+ "): its image waits for `hlb upgrade "
             +:+ md_name (mf_metadata catalog) +:+ "`").

(** @ hlb-updater/src/lib.rs:35-60 [Error] *)
Inductive Error :=
| Scan (why : string)
| State (e : Journal.Error)
| Registry (why : string)
| Window (e : Window.ParseError)
| Orchestrator (why : string)
| BackupRequired (app : string)
| Immature (app why : string).

(** @ hlb-updater/src/lib.rs:309-323 [Checked] *)
Record Checked := {
  ck_candidates : list Candidate;
  ck_unreadable : list (string * Error);
  ck_held : list (string * string) }.
Definition nothing_checked : Checked :=
  {| ck_candidates := []; ck_unreadable := []; ck_held := [] |}.

Abbreviation M := (eff Store Error).
Definition of_db {A} (m : db A) : M A := λ st, let '(r, st) := m st in (map_err State r, st).

(** @ hlb-updater/src/lib.rs:448-450 [owes_backup] *)
Definition owes_backup (app : string) (m : Manifest) : M bool :=
  if up_backup_before (sp_update (mf_spec m)) then
    let! kinds := of_db (backup_kinds app) in eff_ret (negb (kinds ==? []))
  else eff_ret false.

(** What a registry answers: the tags of a repository, the digest a tag names, when an
    image was built. *)
Class Registries := {
  list_tags : Reference.ImageRef → result string (list string);
  resolve_digest : Reference.ImageRef → result string string;
  created : Reference.ImageRef → result string (option Z) }.

Section registry.
Context `{Registries}.
(** [NaiveTime::parse_from_str] of [chrono], as the minute of the day. *)
Context (parse_hm : string → option Z).

(** @ hlb-updater/src/lib.rs:575-587 [older_than_running] *)
Definition older_than_running (running : Image) (published : option Z) : bool :=
  match published, img_digest running with
  | Some to, Some _ =>
      match created (Reference.parse (image_reference running)) with
      | Ok (Some from) => (to <? from)%Z
      | _ => false
      end
  | _, _ => false
  end.

(** What an image of the app moves to, and whether by the catalog.
    @ hlb-updater/src/lib.rs:459-487 [app_move] *)
Definition own_target (m : Manifest) (catalog : option Image)
    : result Error (UpdateKind * Reference.ImageRef) :=
  let installed := sp_image (mf_spec m) in
  let channel := up_channel (sp_update (mf_spec m)) in
  let image := Reference.parse (img_repo installed +:+ ":" +:+ img_tag installed) in
  match catalog_move installed catalog with
  | Some c => Ok (CatalogMove (img_repo c) (img_tag c), Reference.parse (image_reference c))
  | None =>
      candidate_tag ← (if channel ==? Pin then Ok None
                       else tags ← map_err Registry (list_tags image);
                            Ok (Version.best_upgrade (img_tag installed) tags channel));
      match candidate_tag with
      | Some t => Ok (NewVersion t, Reference.parse (img_repo installed +:+ ":" +:+ t))
      | None => Ok (DigestOnly, image)
      end
  end.

(** [ImageRef { digest: Some(..), ..target }] *)
Definition dated_by (d : string) (r : Reference.ImageRef) : Reference.ImageRef :=
  {| Reference.registry := Reference.registry r; Reference.repository := Reference.repository r;
     Reference.tag := Reference.tag r; Reference.digest := Some d |}.

(** The digest a reference carries, else the one its tag names today.
    @ hlb-updater/src/lib.rs:491-494 [app_move] *)
Definition digest_of (target : Reference.ImageRef) : result Error string :=
  match Reference.digest target with
  | Some d => Ok d
  | None => map_err Registry (resolve_digest target)
  end.

(** @ hlb-updater/src/lib.rs:452-517 [app_move] *)
Definition app_move (at_ : Z) (m : Manifest) (catalog : option Image)
    : result Error (option (UpdateKind * string * Maturity)) :=
  '(kind, target) ← own_target m catalog;
  to_digest ← digest_of target;
  if (kind ==? DigestOnly) && (img_digest (sp_image (mf_spec m)) ==? Some to_digest) then Ok None
  else
    published ← map_err Registry (created (dated_by to_digest target));
    if (if kind is CatalogMove _ _ then true else false)
       && older_than_running (sp_image (mf_spec m)) published
    then Ok None
    else Ok (Some (kind, to_digest,
                   maturity_of published (up_maturation_days (sp_update (mf_spec m))) at_)).

(** One companion of the install. @ hlb-updater/src/lib.rs:536-566 [companion_moves] *)
Definition companion_move (app : string) (catalog : Manifest) (days : N) (at_ : Z)
    (installed : Companion) : result Error (option CompanionMove) :=
  match find_first (λ c, co_name c ==? co_name installed) (sp_companions (mf_spec catalog)) with
  | None => Ok None
  | Some c =>
      match catalog_move (co_image installed) (Some (co_image c)) with
      | None => Ok None
      | Some to =>
          digest ← match img_digest to with
                   | Some d => Ok d
                   | None => map_err Registry (resolve_digest (Reference.parse (image_reference to)))
                   end;
          let to := with_digest digest to in
          published ← map_err Registry (created (Reference.parse (image_reference to)));
          if older_than_running (co_image installed) published then Ok None
          else Ok (Some {| cm_name := co_name installed;
                           cm_service := companion_service installed app;
                           cm_to := to; cm_maturity := maturity_of published days at_ |})
      end
  end.

(** @ hlb-updater/src/lib.rs:519-569 [companion_moves] *)
Definition companion_moves (app : string) (m : Manifest) (catalog : option Manifest)
    (days : N) (at_ : Z) : result Error (list CompanionMove) :=
  match catalog with
  | None => Ok []
  | Some catalog =>
      moves ← mapM (companion_move app catalog days at_) (sp_companions (mf_spec m));
      Ok (omap id moves)
  end.

(** The window a manifest declares, open now: any time without one.
    @ hlb-updater/src/lib.rs:425-429 [candidate] *)
Definition in_window (m : Manifest) (today : Window.Weekday) (t : Z) : result Error bool :=
  match up_window (sp_update (mf_spec m)) with
  | Some w => w ← map_err Window (Window.parse parse_hm w); Ok (Window.is_open_at w today t)
  | None => Ok true
  end.

(** @ hlb-updater/src/lib.rs:397-442 [candidate] *)
Definition candidate (today : Window.Weekday) (t at_ : Z) (app : string) (m : Manifest)
    (catalog : option Manifest) : M (option Candidate) :=
  let days := up_maturation_days (sp_update (mf_spec m)) in
  let! companions := eff_of (companion_moves app m catalog days at_) in
  let! own := eff_of (app_move at_ m ((λ c, sp_image (mf_spec c)) <$> catalog)) in
  if bool_decide (own = None) && bool_decide (companions = []) then eff_ret None
  else
    let '(kind, to_digest, maturity) := default
      (Companions, default "" (img_digest (sp_image (mf_spec m))), Mature) own in
    let maturity := fold_left (λ y c, or_younger y (cm_maturity c)) companions maturity in
    let! in_window := eff_of (in_window m today t) in
    let! needs_backup := owes_backup app m in
    eff_ret (Some {|
      ca_app := app; ca_kind := kind; ca_from_tag := img_tag (sp_image (mf_spec m));
      ca_from_digest := img_digest (sp_image (mf_spec m)); ca_to_digest := to_digest;
      ca_in_window := in_window; ca_needs_backup := needs_backup; ca_maturity := maturity;
      ca_companions := companions |}).

(** One app of the pass: what it found is added to what was.
    @ hlb-updater/src/lib.rs:340-358 [check] *)
Definition check_app (today : Window.Weekday) (t at_ : Z) (catalog : gmap string Manifest)
    (out : Checked) (installed : string * string) : M Checked :=
  let '(app, status) := installed in
  if negb (status ==? "running") && negb (status ==? "partial") then eff_ret out
  else
    let! m := of_db (app_manifest app) in
    let held := catalog !! app ≫= held_move m in
    let theirs := if held is Some _ then None else catalog !! app in
    let out := if held is Some why
      then {| ck_candidates := ck_candidates out; ck_unreadable := ck_unreadable out;
              ck_held := ck_held out ++ [(app, why)] |}
      else out in
    λ st, match candidate today t at_ app m theirs st with
    | (Ok (Some c), st) =>
        (Ok {| ck_candidates := ck_candidates out ++ [c]; ck_unreadable := ck_unreadable out;
               ck_held := ck_held out |}, st)
    | (Ok None, st) => (Ok out, st)
    | (Err e, st) =>
        (Ok {| ck_candidates := ck_candidates out; ck_unreadable := ck_unreadable out ++ [(app, e)];
               ck_held := ck_held out |}, st)
    end.

Fixpoint check_apps (today : Window.Weekday) (t at_ : Z) (catalog : gmap string Manifest)
    (out : Checked) (apps : list (string * string)) : M Checked :=
  match apps with
  | [] => eff_ret out
  | a :: apps =>
      let! out := check_app today t at_ catalog out a in check_apps today t at_ catalog out apps
  end.

(** @ hlb-updater/src/lib.rs:325-361 [check] *)
Definition check (today : Window.Weekday) (t at_ : Z) (catalog : gmap string Manifest) : M Checked :=
  let! apps := of_db installed_apps in
  check_apps today t at_ catalog nothing_checked apps.
End registry.

(** @ hlb-updater/src/lib.rs:387-395 [proposed_digests] *)
Definition proposed_digests (c : Candidate) : list string :=
  keep (λ d, negb (str_is_empty d))
    ((if ca_kind c ==? Companions then [] else [ca_to_digest c]) ++
     omap (λ m, img_digest (cm_to m)) (ca_companions c)).

Section authorize.
Context (date_time : Z → string).

(** @ hlb-updater/src/lib.rs:597-627 [authorize] *)
Definition authorize (c : Candidate) (backup : bool) (force_window before_maturity : bool)
    (now : Z) : result Error () :=
  if ca_needs_backup c && negb backup then Err (BackupRequired (ca_app c))
  else match refusal date_time (ca_maturity c) now with
       | Some why => if before_maturity then Ok () else Err (Immature (ca_app c) why)
       | None => Ok ()
       end.
End authorize.

(** ** The catalog's own images *)

(** @ hlb-updater/src/catalog.rs:21-23 [DATED_AT_MOST] *)
Definition DATED_AT_MOST : nat := 4.

(** @ hlb-updater/src/catalog.rs:25-39 [Proposal] *)
Record Proposal := {
  pr_owner : string; pr_current : Image; pr_to : option Image; pr_published : option Z;
  pr_held : list string; pr_major : option string }.

(** One tag of the loop: kept among those of its major, or as the later major.
    @ hlb-updater/src/catalog.rs:49-60 [later_tags] *)
Definition sort_tag (now : Version.Version) (acc : list Version.Version * option Version.Version)
    (t : string) : list Version.Version * option Version.Version :=
  let '(same_major, major) := acc in
  match Version.parse t with
  | None => acc
  | Some v =>
      if Version.allows now v Minor then (same_major ++ [v], major)
      else if Version.same_flavor v now && (Version.precision v ==? Version.precision now)
              && (Version.major now <? Version.major v)%N
              && (if major is Some m then Version.is_newer_than v m else true)
           then (same_major, Some v)
           else (same_major, major)
  end.

(** Newest first. @ hlb-updater/src/catalog.rs:61-69 [later_tags] *)
Definition newest_first (a b : Version.Version) : comparison :=
  if Version.is_newer_than a b then Lt
  else if Version.is_newer_than b a then Gt
  else String.compare (Version.raw a) (Version.raw b).

(** @ hlb-updater/src/catalog.rs:41-74 [later_tags] *)
Definition later_tags (current : string) (tags : list string) : list string * option string :=
  match Version.parse current with
  | None => ([], None)
  | Some now =>
      let '(same_major, major) := fold_left (sort_tag now) tags ([], None) in
      (Version.raw <$> sort_by newest_first same_major, Version.raw <$> major)
  end.

Section propose.
Context `{Registries} (date_time : Z → string).

(** [at]: a tag of the image's repository. @ hlb-updater/src/catalog.rs:101 [propose] *)
Definition at_tag (current : Image) (tag : string) : Reference.ImageRef :=
  Reference.parse (img_repo current +:+ ":" +:+ tag).

(** The tags tried in turn, until one is mature or is what the catalog has.
    @ hlb-updater/src/catalog.rs:109-138 [propose] *)
Fixpoint try_tags (current : Image) (maturation_days : N) (now : Z) (tags : list string)
    (p : Proposal) : result Error Proposal :=
  match tags with
  | [] => Ok p
  | tag :: tags =>
      digest ← map_err Registry (resolve_digest (at_tag current tag));
      if (tag ==? img_tag current) && (img_digest current ==? Some digest) then Ok p
      else
        published ← map_err Registry (created (dated_by digest (at_tag current tag)));
        match refusal date_time (maturity_of published maturation_days now) now with
        | Some why =>
            try_tags current maturation_days now tags
              {| pr_owner := pr_owner p; pr_current := pr_current p; pr_to := pr_to p;
                 pr_published := pr_published p; pr_held := pr_held p ++ [tag +:+ ": " +:+ why];
                 pr_major := pr_major p |}
        | None =>
            Ok {| pr_owner := pr_owner p; pr_current := pr_current p;
                  pr_to := Some {| img_repo := img_repo current; img_tag := tag;
                                   img_digest := Some digest; img_built_here := false;
                                   img_signed_by := img_signed_by current |};
                  pr_published := published; pr_held := pr_held p; pr_major := pr_major p |}
        end
  end.

(** @ hlb-updater/src/catalog.rs:76-140 [propose] *)
Definition propose (owner : string) (current : Image) (maturation_days : N) (now : Z)
    : result Error Proposal :=
  let p := {| pr_owner := owner; pr_current := current; pr_to := None; pr_published := None;
              pr_held := []; pr_major := None |} in
  if img_built_here current then
    Ok {| pr_owner := owner; pr_current := current; pr_to := None; pr_published := None;
          pr_held := ["built here: its release builds it, from the Dockerfile's pinned bases"];
          pr_major := None |}
  else
    tags ← map_err Registry (list_tags (at_tag current (img_tag current)));
    let '(later, major) := later_tags (img_tag current) tags in
    try_tags current maturation_days now (take DATED_AT_MOST (later ++ [img_tag current]))
      {| pr_owner := owner; pr_current := current; pr_to := None; pr_published := None;
         pr_held := []; pr_major := major |}.
End propose.

(** [str::match_indices] of a text that is not empty: what stands before and after each
    occurrence, from the left and without overlap. *)
Fixpoint match_go (fuel : nat) (p before s : string) : list (string * string) :=
  match fuel with
  | O => []
  | S fuel =>
      match find_str p s with
      | Some (a, b) => (before +:+ a, b) :: match_go fuel p (before +:+ a +:+ p) b
      | None => []
      end
  end.
Definition match_indices (p s : string) : list (string * string) :=
  match_go (S (String.length s)) p "" s.

(** An image as the catalog writes it, to where its fields end.
    @ hlb-updater/src/catalog.rs:149-161 [rewrite] *)
Definition written_image (i : Image) : string :=
  "{ repo: " +:+ img_repo i +:+ ", tag: " +:+ quoted_str (img_tag i) +:+
  (if img_digest i is Some d then ", digest: " +:+ quoted_str d else "").

(** @ hlb-updater/src/catalog.rs:164-170 [rewrite] *)
Definition fields_end (rest : string) : bool :=
  starts_with " }" rest || starts_with ", signedBy:" rest.

(** @ hlb-updater/src/catalog.rs:142-178 [rewrite] *)
Definition rewrite_image (manifest : string) (from to : Image) : option string :=
  _ ← img_digest to;
  match keep (λ '(_, rest), fields_end rest) (match_indices (written_image from) manifest) with
  | [(before, rest)] => Some (before +:+ written_image to +:+ rest)
  | _ => None
  end.

(** ** Maturity of a move *)

Lemma or_younger_mature a b : or_younger a b = Mature ↔ a = Mature ∧ b = Mature.
Proof. destruct a, b; cbn; naive_solver. Qed.

Lemma fold_younger_mature (l : list CompanionMove) m :
  fold_left (λ y c, or_younger y (cm_maturity c)) l m = Mature ↔
  m = Mature ∧ ∀ c, c ∈ l → cm_maturity c = Mature.
Proof.
  induction l as [|c l IH] in m |- *; cbn.
  - split; [|by intros [? _]]. intros H. split; [done|]. intros c Hc. by apply elem_of_nil in Hc.
  - rewrite IH, or_younger_mature. setoid_rewrite elem_of_cons. naive_solver.
Qed.

(** ** What a move goes to *)

Lemma catalog_move_Some installed catalog to :
  catalog_move installed catalog = Some to →
  catalog = Some to ∧ (img_repo to ≠ img_repo installed ∨ img_tag to ≠ img_tag installed) ∧
  (∀ from v, img_repo to = img_repo installed → Version.parse (img_tag installed) = Some from →
     Version.parse (img_tag to) = Some v → Version.same_flavor from v = true →
     Version.is_newer_than v from = true) ∧
  (is_Some (img_digest to) → img_digest to ≠ img_digest installed).
Proof.
  unfold catalog_move. destruct catalog as [c|]; [|done]. cbn [mbind option_bind].
  set (down := match Version.parse (img_tag installed) with _ => _ end).
  destruct (bool_decide_reflect (is_Some (img_digest c))),
    (bool_decide_reflect (img_digest c = img_digest installed)),
    (bool_decide_reflect (img_repo c = img_repo installed)),
    (bool_decide_reflect (img_tag c = img_tag installed)); cbn [andb orb]; try done.
  all: unfold down; clear down; intros H.
  all: assert (c = to) as -> by (repeat case_match; congruence).
  all: split_and!; try done; try (by left); try (by right).
  all: intros from v Hr Ef Ev Hfl; try done; rewrite Ef, Ev, Hfl in H; cbn in H.
  all: by destruct (Version.is_newer_than v from).
Qed.

Section moves.
Context `{Registries}.

Lemma own_target_kind m catalog kind target :
  own_target m catalog = Ok (kind, target) →
  match kind with
  | CatalogMove repo tag => ∃ c, catalog_move (sp_image (mf_spec m)) catalog = Some c ∧
      repo = img_repo c ∧ tag = img_tag c ∧ target = Reference.parse (image_reference c)
  | NewVersion t => up_channel (sp_update (mf_spec m)) ≠ Pin ∧
      (∃ tags, list_tags (Reference.parse (img_repo (sp_image (mf_spec m)) +:+ ":" +:+
                                           img_tag (sp_image (mf_spec m)))) = Ok tags ∧
        Version.best_upgrade (img_tag (sp_image (mf_spec m))) tags
          (up_channel (sp_update (mf_spec m))) = Some t) ∧
      target = Reference.parse (img_repo (sp_image (mf_spec m)) +:+ ":" +:+ t)
  | DigestOnly => target = Reference.parse (img_repo (sp_image (mf_spec m)) +:+ ":" +:+
                                            img_tag (sp_image (mf_spec m)))
  | Companions => False
  end.
Proof.
  unfold own_target. destruct (catalog_move _ catalog) as [c|].
  { intros [= <- <-]. by exists c. }
  rewrite result_bind_Ok. intros (t & Ht & Hk). case_bool_decide as Ep.
  - injection Ht as <-. by injection Hk as <- <-.
  - apply result_bind_Ok in Ht as (tags & Htags & Hb). injection Hb as <-.
    destruct (Version.best_upgrade _ tags _) as [t|] eqn:Eb; injection Hk as <- <-; [|done].
    split_and!; [done| |done]. exists tags. split; [|done].
    unfold map_err in Htags. destruct (list_tags _) as [x|]; naive_solver.
Qed.

(** What an app's image may be moved to. By the catalog: the very image the catalog
    names, never an older version of the same flavour, nor a build older than the one
    running where both say when they were built. By its channel: the greatest version the
    channel allows, never on [pin]. Otherwise only another build of its own tag. Each dated
    by the digest that would run. *)
Theorem app_move_spec (at_ : Z) (m : Manifest) (catalog : option Image) (kind : UpdateKind)
    (d : string) (mat : Maturity) (Hmove : app_move at_ m catalog = Ok (Some (kind, d, mat))) :
  let installed := sp_image (mf_spec m) in
  (∃ target published, created (dated_by d target) = Ok published ∧
     mat = maturity_of published (up_maturation_days (sp_update (mf_spec m))) at_ ∧
     (Reference.digest target = Some d ∨ resolve_digest target = Ok d) ∧
     (∀ repo tag, kind = CatalogMove repo tag →
        ∀ from to, img_digest installed ≠ None → published = Some to →
          created (Reference.parse (image_reference installed)) = Ok (Some from) → (from ≤ to)%Z)) ∧
  match kind with
  | CatalogMove repo tag => ∃ c, catalog = Some c ∧ repo = img_repo c ∧ tag = img_tag c ∧
      (∀ from v, img_repo c = img_repo installed → Version.parse (img_tag installed) = Some from →
         Version.parse (img_tag c) = Some v → Version.same_flavor from v = true →
         Version.is_newer_than v from = true)
  | NewVersion t => up_channel (sp_update (mf_spec m)) ≠ Pin ∧ ∃ tags,
      Version.best_upgrade (img_tag installed) tags (up_channel (sp_update (mf_spec m))) = Some t
  | DigestOnly => img_digest installed ≠ Some d
  | Companions => False
  end.
Proof.
  unfold app_move in Hmove. apply result_bind_Ok in Hmove as ([k target] & Ht & Hmove).
  apply result_bind_Ok in Hmove as (d' & Hd & Hmove). apply own_target_kind in Ht.
  destruct ((k ==? DigestOnly) && _) eqn:Enew; [done|].
  apply result_bind_Ok in Hmove as (published & Hp & Hmove).
  destruct ((if k is CatalogMove _ _ then true else false) && _) eqn:Eold; [done|].
  injection Hmove as -> -> <-. cbn. split.
  - exists target, published. split_and!; [|done|..].
    + unfold map_err in Hp. destruct (created _); naive_solver.
    + unfold digest_of in Hd. destruct (Reference.digest target); [left; congruence|right].
      unfold map_err in Hd. destruct (resolve_digest target); naive_solver.
    + intros repo tag -> from to Hdig -> Hc. cbn in Eold. unfold older_than_running in Eold.
      destruct (img_digest _); [|done]. rewrite Hc in Eold. lia.
  - destruct kind as [|t|repo tag|].
    + apply andb_false_iff in Enew as [E|E]; by apply bool_decide_eq_false in E.
    + destruct Ht as (? & (tags & _ & ?) & _). eauto.
    + destruct Ht as (c & Hc & -> & -> & _). apply catalog_move_Some in Hc as (-> & _ & Hv & _). eauto.
    + done.
Qed.

Lemma companion_move_Some app catalog days at_ installed mv :
  companion_move app catalog days at_ installed = Ok (Some mv) →
  cm_name mv = co_name installed ∧ is_Some (img_digest (cm_to mv)).
Proof.
  unfold companion_move. destruct (find_first _ _) as [c|]; [|done].
  destruct (catalog_move _ _) as [to|]; [|done].
  rewrite result_bind_Ok. intros (d & _ & Hr). apply result_bind_Ok in Hr as (p & _ & Hr).
  destruct (older_than_running _ p); [done|]. injection Hr as <-. cbn. eauto.
Qed.
End moves.

(** ** A pass over the registries *)

Section check.
Context `{Registries} (parse_hm : string → option Z)
  (today : Window.Weekday) (t at_ : Z) (catalog : gmap string Manifest).

(** What an app's look uses of the catalog: nothing of a move that is held. *)
Definition catalog_of (app : string) (m : Manifest) : option Manifest :=
  if catalog !! app ≫= held_move m is Some _ then None else catalog !! app.

Definition found (st : Store) (app : string) (m : Manifest) : result Error (option Candidate) :=
  (candidate parse_hm today t at_ app m (catalog_of app m) st).1.

Lemma candidate_reads app m theirs st :
  (candidate parse_hm today t at_ app m theirs st).2 = st.
Proof.
  assert (Ho : ∀ app m st, (owes_backup app m st).2 = st).
  { intros app' m' st'. unfold owes_backup, of_db, backup_kinds, buckets_to_backup,
      volumes_to_backup, app_volumes, app_manifest, eff_bind, eff_get, eff_ret.
    by destruct (up_backup_before _), (t_apps st' !! app'). }
  unfold candidate, eff_bind, eff_of. destruct (companion_moves _ _ _ _ _); [|done].
  destruct (app_move _ _ _) as [own|]; [|done].
  destruct (bool_decide (own = None) && _); [done|].
  destruct (default _ own) as [[kind d] mat]. destruct (in_window _ _ _ _); [|done].
  specialize (Ho app m st). by destruct (owes_backup app m st) as [[|] ?].
Qed.

(** What a pass adds for one app. *)
Definition eligible (status : string) : bool := (status ==? "running") || (status ==? "partial").
Definition looked (st : Store) (apps : list (string * string)) : list (string * Manifest) :=
  omap (λ '(app, status),
    if eligible status then (λ r, (app, row_manifest r)) <$> t_apps st !! app else None) apps.

#[local] Arguments candidate : simpl never.
Lemma check_apps_spec st apps out :
  (∀ app status, (app, status) ∈ apps → is_Some (t_apps st !! app)) →
  check_apps parse_hm today t at_ catalog out apps st =
  (Ok {| ck_candidates := ck_candidates out ++
           omap (λ '(app, m), if found st app m is Ok (Some c) then Some c else None) (looked st apps);
         ck_unreadable := ck_unreadable out ++
           omap (λ '(app, m), if found st app m is Err e then Some (app, e) else None) (looked st apps);
         ck_held := ck_held out ++
           omap (λ '(app, m), (app,.) <$> (catalog !! app ≫= held_move m)) (looked st apps) |}, st).
Proof.
  induction apps as [|[app status] apps IH] in out |- *; intros Hin; cbn [check_apps].
  { cbn. rewrite !app_nil_r. by destruct out. }
  assert (Hin' : ∀ app status, (app, status) ∈ apps → is_Some (t_apps st !! app)).
  { intros a s Ha. apply (Hin a s). by right. }
  unfold eff_bind, check_app. unfold looked. cbn [omap list_omap]. fold (looked st apps). unfold eligible.
  destruct (Hin app status (list_elem_of_here _ _)) as [row Hrow].
  destruct (status ==? "running"), (status ==? "partial"); cbn [negb andb orb].
  4: { unfold eff_ret. cbv beta match. by rewrite IH. }
  all: unfold of_db, app_manifest, eff_bind; rewrite Hrow; cbn.
  all: pose proof (candidate_reads app (row_manifest row) (catalog_of app (row_manifest row)) st) as Hr.
  all: unfold found, catalog_of in *;
    destruct (catalog !! app ≫= held_move (row_manifest row));
    destruct (candidate _ _ _ _ _ _ _ st) as [[[c|]|e] st']; cbn in Hr; subst st'; cbn;
    rewrite IH by done; cbn; by rewrite <- ?app_assoc.
Qed.

Lemma elem_of_looked st app m :
  (app, m) ∈ looked st ((λ '(n, r), (n, row_status r)) <$> btree_entries (t_apps st)) ↔
  ∃ row, t_apps st !! app = Some row ∧ eligible (row_status row) = true ∧ m = row_manifest row.
Proof.
  unfold looked. rewrite list_elem_of_omap. split.
  - intros ([a s] & Ha & Hm). apply list_elem_of_fmap in Ha as ([a' r] & [= -> ->] & Hr).
    apply elem_of_btree_entries in Hr. destruct (eligible _) eqn:El; [|done].
    rewrite Hr in Hm. injection Hm as <- <-. eauto.
  - intros (row & Hr & El & ->). exists (app, row_status row). rewrite El, Hr. split; [|done].
    apply list_elem_of_fmap. exists (app, row). by rewrite elem_of_btree_entries.
Qed.

(** A pass over the registries changes nothing, always ends, and looks at each app that
    runs by itself: its update is found, its registry's failure is said and its held move
    explained whatever the registries answer of the others. *)
Theorem check_isolated (st : Store) :
  ∃ out, check parse_hm today t at_ catalog st = (Ok out, st) ∧
    (∀ c, c ∈ ck_candidates out ↔ ∃ app row, t_apps st !! app = Some row ∧
       eligible (row_status row) = true ∧ found st app (row_manifest row) = Ok (Some c)) ∧
    (∀ app e, (app, e) ∈ ck_unreadable out ↔ ∃ row, t_apps st !! app = Some row ∧
       eligible (row_status row) = true ∧ found st app (row_manifest row) = Err e) ∧
    (∀ app why, (app, why) ∈ ck_held out ↔ ∃ row, t_apps st !! app = Some row ∧
       eligible (row_status row) = true ∧ catalog !! app ≫= held_move (row_manifest row) = Some why).
Proof.
  unfold check, eff_bind, of_db, installed_apps, eff_get. cbn [map_err].
  rewrite check_apps_spec.
  2:{ intros app status Ha. apply list_elem_of_fmap in Ha as ([a r] & [= -> ->] & Hr).
      apply elem_of_btree_entries in Hr. eauto. }
  eexists. split; [reflexivity|]. cbn [ck_candidates ck_unreadable ck_held nothing_checked app].
  split_and!; intros *; rewrite list_elem_of_omap.
  - split.
    + intros ([app m] & (row & Hr & El & ->)%elem_of_looked & Hc). exists app, row.
      destruct (found st app (row_manifest row)) as [[?|]|]; naive_solver.
    + intros (app & row & Hr & El & Hf). exists (app, row_manifest row).
      rewrite elem_of_looked, Hf. eauto.
  - split.
    + intros ([a m] & (row & Hr & El & ->)%elem_of_looked & Hc). exists row.
      destruct (found st a (row_manifest row)) as [|] eqn:Ef; [done|]. injection Hc as <- <-. done.
    + intros (row & Hr & El & Hf). exists (app, row_manifest row). rewrite elem_of_looked, Hf. eauto.
  - split.
    + intros ([a m] & (row & Hr & El & ->)%elem_of_looked & Hc).
      apply fmap_Some in Hc as (? & Hc & [= <- <-]). eauto.
    + intros (row & Hr & El & Hf). exists (app, row_manifest row). rewrite elem_of_looked, Hf. eauto.
Qed.
End check.

(** What may be applied now. *)
Section authorized.
Context (date_time : Z → string).

(** What may be applied now: an update that owes a copy only where a backup can be
    taken, and an image still young or of unknown age only on a person's decision. *)
Theorem authorize_spec (c : Candidate) (backup force_window before_maturity : bool) (now : Z) :
  authorize date_time c backup force_window before_maturity now = Ok () ↔
  (ca_needs_backup c = true → backup = true) ∧
  (ca_maturity c = Mature ∨ before_maturity = true).
Proof.
  unfold authorize. destruct (ca_needs_backup c), backup; cbn [negb andb].
  2: split; [done|]; intros [? _]; naive_solver.
  all: destruct (ca_maturity c), before_maturity; cbn; naive_solver.
Qed.
End authorized.

(** ** The catalog's own moves *)

Section later.
Context (now : Version.Version).

(** A later major of the same shape. *)
Definition later_major (v : Version.Version) : bool :=
  Version.same_flavor v now && (Version.precision v ==? Version.precision now)
  && (Version.major now <? Version.major v)%N.

(** The tags read as versions with a property. *)
Definition versions_with (p : Version.Version → bool) (tags : list string) : list Version.Version :=
  omap (λ t, v ← Version.parse t; if p v then Some v else None) tags.

(** The newest so far. *)
Definition newest (best : option Version.Version) (v : Version.Version) : option Version.Version :=
  match best with
  | Some m => if Version.is_newer_than v m then Some v else Some m
  | None => Some v
  end.

Lemma allowed_not_later v : Version.allows now v Minor = true → later_major v = false.
Proof.
  intros (_ & _ & _ & _ & E)%Version.allows_true. unfold later_major.
  apply andb_false_iff. right. apply N.ltb_ge. lia.
Qed.

Lemma sort_tags tags same major :
  fold_left (sort_tag now) tags (same, major) =
  (same ++ versions_with (λ v, Version.allows now v Minor) tags,
   fold_left newest (versions_with later_major tags) major).
Proof.
  induction tags as [|t tags IH] in same, major |- *; cbn; [by rewrite app_nil_r|].
  destruct (Version.parse t) as [v|]; cbn; [|apply IH].
  destruct (Version.allows now v Minor) eqn:Ea; cbn.
  - rewrite (allowed_not_later v Ea), IH, <- app_assoc. done.
  - fold (later_major v). destruct (later_major v); cbn; [|apply IH].
    destruct major as [m|]; cbn; [destruct (Version.is_newer_than v m)|]; apply IH.
Qed.

Lemma elem_of_versions_with p tags v :
  v ∈ versions_with p tags ↔ p v = true ∧ ∃ t, t ∈ tags ∧ Version.parse t = Some v.
Proof.
  unfold versions_with. rewrite list_elem_of_omap. split.
  - intros (t & Ht & (w & Hw & Hp)%bind_Some). destruct (p w) eqn:E; [|done].
    injection Hp as ->. eauto.
  - intros (Hp & t & Ht & Ev). exists t. rewrite Ev. cbn. by rewrite Hp.
Qed.

Lemma not_newer_trans a b c :
  Version.is_newer_than a b = false → Version.is_newer_than b c = false →
  Version.is_newer_than a c = false.
Proof.
  unfold Version.is_newer_than. rewrite !bool_decide_eq_false, !Version.cmp_numeric_gt.
  intros H1 H2. by apply (Version.key_nlt_trans _ (Version.key b)).
Qed.

Lemma newer_not_newer a b : Version.is_newer_than a b = true → Version.is_newer_than b a = false.
Proof.
  unfold Version.is_newer_than. rewrite bool_decide_eq_true, bool_decide_eq_false, !Version.cmp_numeric_gt.
  unfold Version.key_lt. lia.
Qed.

Lemma not_newer_self v : Version.is_newer_than v v = false.
Proof.
  unfold Version.is_newer_than. rewrite bool_decide_eq_false, Version.cmp_numeric_gt.
  unfold Version.key_lt. lia.
Qed.

Lemma newest_of l best :
  match fold_left newest l best with
  | Some m => (Some m = best ∨ m ∈ l) ∧
      (∀ v, v ∈ l ∨ best = Some v → Version.is_newer_than v m = false)
  | None => best = None ∧ l = []
  end.
Proof.
  induction l as [|v l IH] in best |- *; cbn.
  { destruct best as [m|]; [|done]. split; [by left|].
    intros v [?%elem_of_nil|[= <-]]; [done|]. apply not_newer_self. }
  specialize (IH (newest best v)). destruct (fold_left newest l (newest best v)) as [m|].
  2:{ destruct IH as [IH _]. unfold newest in IH. by repeat case_match. }
  destruct IH as [Hm Hall].
  assert (Hv : Version.is_newer_than v m = false ∧
               ∀ b, best = Some b → Version.is_newer_than b m = false).
  { unfold newest in Hall. destruct best as [b|].
    - destruct (Version.is_newer_than v b) eqn:En.
      + pose proof (Hall v (or_intror eq_refl)) as Hv. split; [done|]. intros ? [= <-].
        by apply (not_newer_trans b v m); [apply newer_not_newer|].
      + pose proof (Hall b (or_intror eq_refl)) as Hb. split; [|by intros ? [= <-]].
        by apply (not_newer_trans v b m).
    - split; [by apply Hall; right|done]. }
  split.
  - setoid_rewrite elem_of_cons. destruct Hm as [Hm|Hm]; [|auto]. unfold newest in Hm.
    destruct best as [b|]; [destruct (Version.is_newer_than v b)|]; injection Hm as ->; auto.
  - intros w [[->|Hw]%elem_of_cons|Hw]; [exact (proj1 Hv)|by apply Hall; left|by apply (proj2 Hv)].
Qed.
End later.

Lemma total_cmp_version : total_cmp Version.cmp_numeric.
Proof.
  eapply (total_cmp_ext _ (λ v w, then_with (N.compare (Version.major v) (Version.major w))
    (then_with (N.compare (default 0%N (Version.minor v)) (default 0%N (Version.minor w)))
               (N.compare (default 0%N (Version.patch v)) (default 0%N (Version.patch w)))))).
  { intros v w. unfold Version.cmp_numeric. by repeat case_match. }
  apply total_cmp_then; [apply (total_cmp_on Version.major), total_cmp_N|].
  apply total_cmp_then; [apply (total_cmp_on (λ v, default 0%N (Version.minor v))), total_cmp_N|].
  apply (total_cmp_on (λ v, default 0%N (Version.patch v))), total_cmp_N.
Qed.

Lemma newest_first_total : total_cmp newest_first.
Proof.
  apply (total_cmp_ext _ (λ v w, then_with (Version.cmp_numeric w v)
           (String.compare (Version.raw v) (Version.raw w)))).
  { intros v w. unfold newest_first, Version.is_newer_than.
    rewrite (proj1 total_cmp_version v w). by destruct (Version.cmp_numeric w v). }
  apply total_cmp_then; [apply (total_cmp_flip Version.cmp_numeric), total_cmp_version|].
  apply (total_cmp_on Version.raw), total_cmp_string.
Qed.

(** What the catalog's maintainers are shown for an image: every later tag of its shape
    within its major, the newest first, and nothing else; and the newest later major of that
    shape, if there is one - said, never among what is written. *)
Theorem later_tags_spec (current : string) (now : Version.Version) (tags : list string)
    (Hnow : Version.parse current = Some now) :
  ∃ same, (later_tags current tags).1 = Version.raw <$> same ∧
    (∀ v, v ∈ same ↔ Version.allows now v Minor = true ∧ ∃ t, t ∈ tags ∧ Version.parse t = Some v) ∧
    StronglySorted (λ v w, Version.is_newer_than w v = false) same ∧
    match (later_tags current tags).2 with
    | Some t => ∃ m, Version.raw m = t ∧ later_major now m = true ∧ t ∈ tags ∧
        ∀ v t', t' ∈ tags → Version.parse t' = Some v → later_major now v = true →
          Version.is_newer_than v m = false
    | None => ∀ v t', t' ∈ tags → Version.parse t' = Some v → later_major now v = false
    end.
Proof.
  unfold later_tags. rewrite Hnow, sort_tags. cbn.
  exists (sort_by newest_first (versions_with (λ v, Version.allows now v Minor) tags)).
  split; [done|]. split_and!.
  - intros v. by rewrite sort_by_perm, elem_of_versions_with.
  - eapply StronglySorted_weaken; [|apply sort_by_total, newest_first_total].
    intros v w. unfold newest_first. destruct (Version.is_newer_than v w) eqn:E; [by apply newer_not_newer in E|].
    by destruct (Version.is_newer_than w v).
  - pose proof (newest_of (versions_with (later_major now) tags) None) as Hn.
    destruct (fold_left newest _ None) as [m|]; cbn.
    + destruct Hn as [[?|(Hl & t & Ht & Ep)%elem_of_versions_with] Hall]; [done|].
      exists m. rewrite (Version.parse_raw t m Ep). split_and!; [done..|].
      intros v t' Ht' Ev Hv. apply Hall. left. apply elem_of_versions_with. eauto.
    + destruct Hn as [_ Hn]. intros v t' Ht' Ev. destruct (later_major now v) eqn:E; [|done].
      exfalso. apply (not_elem_of_nil v). rewrite <- Hn. apply elem_of_versions_with. eauto.
Qed.

Section proposed.
Context `{Registries} (date_time : Z → string).

(** What a tag is written as, when it is. *)
Definition tried (current : Image) (maturation_days : N) (now : Z) (tags : list string)
    (i : Image) (published : option Z) : Prop :=
  ∃ digest, img_tag i ∈ tags ∧ resolve_digest (at_tag current (img_tag i)) = Ok digest ∧
    created (dated_by digest (at_tag current (img_tag i))) = Ok published ∧
    maturity_of published maturation_days now = Mature ∧
    (img_tag i = img_tag current → img_digest current ≠ Some digest) ∧
    i = {| img_repo := img_repo current; img_tag := img_tag i; img_digest := Some digest;
           img_built_here := false; img_signed_by := img_signed_by current |}.

Lemma map_err_Ok {E F A} (f : E → F) (m : result E A) a : map_err f m = Ok a ↔ m = Ok a.
Proof. destruct m; cbn; naive_solver. Qed.

Lemma try_tags_spec current days now tags p p' :
  try_tags date_time current days now tags p = Ok p' →
  pr_major p' = pr_major p ∧
  (pr_to p' = pr_to p ∨
   ∃ i, pr_to p' = Some i ∧ tried current days now tags i (pr_published p')).
Proof.
  induction tags as [|tag tags IH] in p |- *; cbn; [intros [= ->]; auto|].
  rewrite result_bind_Ok. intros (digest & Hd%map_err_Ok & Hr).
  destruct ((tag ==? img_tag current) && _) eqn:Es; [injection Hr as ->; auto|].
  apply result_bind_Ok in Hr as (published & Hp%map_err_Ok & Hr).
  destruct (refusal _ _ _) as [why|] eqn:Em.
  - specialize (IH _ Hr) as [Hmaj [Hto|(i & Hi & d & Hin & Ht)]]; split; try done; [by left|right].
    exists i. split; [done|]. exists d. split; [by right|done].
  - injection Hr as <-. cbn. split; [done|]. right. eexists. split; [done|]. exists digest. cbn.
    split_and!; try done; [left| |].
    + by destruct (maturity_of _ _ _).
    + intros Et Ed. by rewrite !bool_decide_true in Es.
Qed.

(** What is written in the catalog for an image: a build of its own repository, with the
    digest its tag names now, old enough to be mature, held to the same signer; its tag is
    a later one within its major, or its own with another build. Never a major. *)
Theorem propose_spec (owner : string) (current : Image) (days : N) (now : Z) (p : Proposal)
    (i : Image) (H1 : propose date_time owner current days now = Ok p) (H2 : pr_to p = Some i) :
  img_built_here current = false ∧
  ∃ tags, list_tags (at_tag current (img_tag current)) = Ok tags ∧
    tried current days now ((later_tags (img_tag current) tags).1 ++ [img_tag current]) i
      (pr_published p) ∧
    pr_major p = (later_tags (img_tag current) tags).2.
Proof.
  unfold propose in H1. destruct (img_built_here current); [by injection H1 as <-|].
  split; [done|]. apply result_bind_Ok in H1 as (tags & Ht%map_err_Ok & Hr). exists tags.
  split; [done|]. destruct (later_tags (img_tag current) tags) as [later major]. cbn [fst snd].
  apply try_tags_spec in Hr as [Hm [Hto|(j & Hj & d & Hin & Hrest)]]; [by rewrite H2 in Hto|].
  assert (j = i) as -> by congruence. split; [|done]. exists d. split; [|done].
  rewrite <- (take_drop DATED_AT_MOST (later ++ _)). apply elem_of_app. by left.
Qed.
End proposed.

Lemma match_go_sound fuel p before s a b :
  (a, b) ∈ match_go fuel p before s → before +:+ s = a +:+ p +:+ b.
Proof.
  induction fuel as [|fuel IH] in before, s |- *; cbn; [by intros ?%elem_of_nil|].
  destruct (find_str p s) as [[x y]|] eqn:E; [|by intros ?%elem_of_nil].
  apply find_str_Some in E as ->. intros [[= -> ->]|Hin]%elem_of_cons.
  - by rewrite append_assoc.
  - rewrite <- (IH _ _ Hin). by rewrite !append_assoc.
Qed.

(** The catalog's text is edited at one place only: the image's own fields, where they
    end, found exactly once; everything around is kept, and only a pinned image is written. *)
Theorem rewrite_spec (manifest written : string) (from to : Image)
    (H : rewrite_image manifest from to = Some written) :
  ∃ before rest,
    keep (λ '(_, rest), fields_end rest) (match_indices (written_image from) manifest)
      = [(before, rest)] ∧
    manifest = before +:+ written_image from +:+ rest ∧
    written = before +:+ written_image to +:+ rest ∧ is_Some (img_digest to).
Proof.
  unfold rewrite_image in H. destruct (img_digest to) as [d|] eqn:Ed; [|done].
  cbn [mbind option_bind] in H.
  destruct (keep _ _) as [|[before rest] [|]] eqn:Ek; [done| |done]. injection H as <-.
  exists before, rest. split_and!; try done.
  assert (Hin : (before, rest) ∈ keep (λ '(_, rest), fields_end rest)
                  (match_indices (written_image from) manifest)) by (rewrite Ek; left).
  apply elem_of_keep in Hin as [_ Hin]. by apply match_go_sound in Hin.
Qed.

(** ** Examples *)

Definition installed_image : Image :=
  {| img_repo := "ghcr.io/immich-app/immich-server"; img_tag := "v2.1.0";
     img_digest := Some "sha256:old"; img_built_here := false; img_signed_by := None |}.
Definition installed_manifest : Manifest :=
  with_images installed_image []
    {| mf_api_version := V1; mf_kind := App;
       mf_metadata := {| md_name := "immich"; md_hlb := None; md_criticality := None;
                         md_display_name := None; md_category := None; md_homepage := None |};
       mf_spec := {| sp_image := installed_image; sp_runtime := Manifest.Swarm;
         sp_requires := [Storage "data" "/data" TierLocal true false CopyLive None];
         sp_ingress := []; sp_swarm := default_swarm;
         sp_update := {| up_channel := Minor; up_backup_before := true; up_auto_rollback := true;
                         up_watch_upstream := None; up_window := None; up_maturation_days := 7 |};
         sp_companions := []; sp_env := ∅; sp_shared_env := ∅; sp_security := default_security;
         sp_files := []; sp_command := []; sp_args := []; sp_process := default_process;
         sp_assertions := []; sp_access := None; sp_recovery := []; sp_jobs := [];
         sp_downloads := [] |} |}.

(** A registry that lists a later version, built on day 100. *)
Definition example_registry : Registries := {|
  list_tags _ := Ok ["v2.1.0"; "v2.2.0"; "v3.0.0"];
  resolve_digest r := Ok ("sha256:" +:+ Reference.tag r);
  created _ := Ok (Some 8640000%Z) |}.
#[local] Existing Instance example_registry.

Lemma app_move_spec_witness :
  app_move 9504000 installed_manifest None = Ok (Some (NewVersion "v2.2.0", "sha256:v2.2.0", Mature)) ∧
  up_channel (sp_update (mf_spec installed_manifest)) ≠ Pin.
Proof.
  assert (E : app_move 9504000 installed_manifest None =
              Ok (Some (NewVersion "v2.2.0", "sha256:v2.2.0", Mature))) by (by vm_compute).
  split; [exact E|].
  destruct (app_move_spec 9504000 installed_manifest None (NewVersion "v2.2.0") "sha256:v2.2.0"
              Mature E) as [_ [H _]]. exact H.
Defined.

Definition current_version : Version.Version := default
  {| Version.major := 0; Version.minor := None; Version.patch := None; Version.suffix := None;
     Version.raw := "" |} (Version.parse "v2.1.0").

Lemma later_tags_spec_witness :
  later_tags "v2.1.0" ["v3.0.0"; "v2.1.4"; "2.9.0"; "v2.2.0"; "v4.1.0"; "v4.0.9"]
    = (["v2.2.0"; "v2.1.4"], Some "v4.1.0") ∧
  ∃ same, ["v2.2.0"; "v2.1.4"] = Version.raw <$> same.
Proof.
  split; [by vm_compute|].
  destruct (later_tags_spec "v2.1.0" current_version
    ["v3.0.0"; "v2.1.4"; "2.9.0"; "v2.2.0"; "v4.1.0"; "v4.0.9"] ltac:(by vm_compute)) as (same & E & _).
  exists same. rewrite <- E. by vm_compute.
Defined.

Definition written_proposal : Proposal := 
  {| pr_owner := "immich"; pr_current := installed_image;
     pr_to := Some (with_digest "sha256:v2.2.0"
       {| img_repo := "ghcr.io/immich-app/immich-server"; img_tag := "v2.2.0"; img_digest := None;
          img_built_here := false; img_signed_by := None |});
     pr_published := Some 8640000%Z; pr_held := []; pr_major := Some "v3.0.0" |}.

Lemma propose_spec_witness :
  propose (λ _, "") "immich" installed_image 7 9504000 = Ok written_proposal ∧
  img_built_here installed_image = false.
Proof.
  split; [by vm_compute|].
  apply (propose_spec (λ _, "") "immich" installed_image 7 9504000 written_proposal
    (default installed_image (pr_to written_proposal))); by vm_compute.
Defined.

(** A line of a manifest, its quotes written apart. *)
Definition catalog_line (tag rest : string) : string :=
  "  image: { repo: nginx, tag: " +:+ quoted_str tag +:+ rest +:+ " }  # web".
Definition nginx (tag : string) (digest : option string) : Image :=
  {| img_repo := "nginx"; img_tag := tag; img_digest := digest; img_built_here := false;
     img_signed_by := None |}.

Lemma rewrite_spec_witness :
  ∃ before rest, catalog_line "1.27" "" = before +:+ written_image (nginx "1.27" None) +:+ rest ∧
    catalog_line "1.28" (", digest: " +:+ quoted_str "sha256:ab") =
      before +:+ written_image (nginx "1.28" (Some "sha256:ab")) +:+ rest.
Proof.
  destruct (rewrite_spec (catalog_line "1.27" "") (catalog_line "1.28" (", digest: " +:+ quoted_str "sha256:ab"))
    (nginx "1.27" None) (nginx "1.28" (Some "sha256:ab")) ltac:(by vm_compute))
    as (before & rest & _ & H1 & H2 & _).
  by exists before, rest.
Defined.
