(* ===== verification/Rollout.v ===== *)
(** * Applying an update, and watching Swarm carry it out

    [crates/hlb-updater/src/apply.rs]: the companions a move brings are switched first,
    each watched until Swarm concludes, then the app; the manifest is frozen with the new
    image only once it runs. Swarm is a world of its own, with a clock: its operations are
    an interface, and [watch] is a loop on it, bounded by the deadline. *)

From S2P Require Import Prelude RustStr Manifest Journal Swarm Updater.

(** What is asked of Swarm, and the clock: whole milliseconds since any moment. *)
Class SwarmWorld (W : Type) := {
  update_image : string → string → W → result string () * W;
  status : string → W → result string ServiceStatus * W;
  tasks : string → W → result string (list TaskInfo) * W;
  clock : W → N;
  sleep : N → W → W }.

(** The clock never goes back, and sleeping takes at least what is asked. *)
Class SwarmLaws (W : Type) `{SwarmWorld W} := {
  clock_status name w : (clock w ≤ clock (status name w).2)%N;
  clock_tasks name w : (clock w ≤ clock (tasks name w).2)%N;
  clock_sleep d w : (clock w + d ≤ clock (sleep d w))%N }.

(** @ hlb-updater/src/apply.rs:18-29 [UpdateOutcome] *)
Inductive UpdateOutcome :=
| Applied (digest : string) | RolledBack (reason : string) | UpdatePaused | Inconclusive.

(** @ hlb-updater/src/apply.rs:31-35 [UpdateOutcome::is_success] *)
Definition is_success (o : UpdateOutcome) : bool := if o is Applied _ then true else false.

Definition POLL : N := 2000.

Section watch.
Context {W : Type} `{SwarmWorld W}.

(** One reading of Swarm, [None] when nothing can be concluded yet.
    @ hlb-updater/src/apply.rs:164-208 [watch] *)
Definition turn (app target_digest : string) : eff W Error (option UpdateOutcome) := λ w,
  match status app w with
  | (Err why, w) => (Err (Orchestrator why), w)
  | (Ok st, w) =>
      match st_update_state st with
      | Some Swarm.RollbackCompleted =>
          (Ok (Some (RolledBack "the new tasks did not start")), w)
      | Some Swarm.RollbackStarted => (Ok None, w)
      | Some Swarm.UpdatePaused | Some Swarm.RollbackPaused => (Ok (Some UpdatePaused), w)
      | _ =>
          if update_finished (st_update_state st) && is_converged st then
            match tasks app w with
            | (Err why, w) => (Err (Orchestrator why), w)
            | (Ok tasks, w) =>
                let on_target := length (keep (λ t, is_alive t && contains target_digest (t_image t))
                                           tasks) in
                if (st_desired_replicas st <=? N.of_nat on_target)%N
                then (Ok (Some (Applied target_digest)), w) else (Ok None, w)
            end
          else (Ok None, w)
      end
  end.

(** The loop, as many turns as [fuel]: [None] when they are not enough.
    @ hlb-updater/src/apply.rs:163-213 [watch] *)
Fixpoint watch_go (fuel : nat) (deadline : N) (app target_digest : string) (w : W)
    : option (result Error UpdateOutcome * W) :=
  if (clock w <? deadline)%N then
    match fuel with
    | O => None
    | S fuel =>
        match turn app target_digest w with
        | (Err e, w) => Some (Err e, w)
        | (Ok (Some o), w) => Some (Ok o, w)
        | (Ok None, w) => watch_go fuel deadline app target_digest (sleep POLL w)
        end
    end
  else Some (Ok Inconclusive, w).

(** The turns there is time for: one each two seconds. *)
Definition turns (timeout_secs : N) : nat := S (N.to_nat (timeout_secs / 2)).

(** @ hlb-updater/src/apply.rs:149-214 [watch] *)
Definition watch (app target_digest : string) (timeout_secs : N) : eff W Error UpdateOutcome := λ w,
  default (Ok Inconclusive, w)
    (watch_go (turns timeout_secs) (clock w + timeout_secs * 1000) app target_digest w).

(** ** Applying *)

Abbreviation RM := (eff (Store * W) Error).
Definition on_state {A} (m : db A) : RM A := λ '(st, w),
  match m st with (r, st) => (map_err State r, (st, w)) end.
Definition on_swarm {A} (m : eff W Error A) : RM A := λ '(st, w),
  match m w with (r, w) => (r, (st, w)) end.
Definition switch (service reference : string) : eff W Error () := λ w,
  match update_image service reference w with (r, w) => (map_err Orchestrator r, w) end.

(** [image = to] for the first companion of the name.
    @ hlb-updater/src/apply.rs:66-68 [apply] *)
Fixpoint freeze_companion (name : string) (to : Image) (l : list Companion) : list Companion :=
  match l with
  | [] => []
  | c :: l => if co_name c ==? name then map_companion_image (λ _, to) c :: l
              else c :: freeze_companion name to l
  end.

(** One companion of the move; [Some] ends the update there.
    @ hlb-updater/src/apply.rs:51-71 [apply] *)
Definition apply_companion (app : string) (timeout_secs : N) (c : CompanionMove)
    : RM (option UpdateOutcome) :=
  match img_digest (cm_to c) with
  | None => eff_ret None
  | Some digest =>
      on_swarm (switch (cm_service c) (image_reference (cm_to c))) ;;!
      let! outcome := on_swarm (watch (cm_service c) digest timeout_secs) in
      if negb (is_success outcome) then eff_ret (Some outcome)
      else
        let! m := on_state (app_manifest app) in
        let m := with_images (sp_image (mf_spec m))
                   (freeze_companion (cm_name c) (cm_to c) (sp_companions (mf_spec m))) m in
        let! domain := on_state (app_domain app) in
        on_state (upsert_app app m domain) ;;!
        eff_ret None
  end.

Fixpoint apply_companions (app : string) (timeout_secs : N) (l : list CompanionMove)
    : RM (option UpdateOutcome) :=
  match l with
  | [] => eff_ret None
  | c :: l =>
      let! r := apply_companion app timeout_secs c in
      match r with
      | Some outcome => eff_ret (Some outcome)
      | None => apply_companions app timeout_secs l
      end
  end.

(** @ hlb-updater/src/apply.rs:125-147 [status_after_update] *)
Definition status_after_update (app : string) : db (option string) :=
  let! journal := plan_actions app in
  eff_ret (
    if any_of (λ a, ar_status a ==? Failed) journal then None
    else Some (if any_of (λ a, ar_status a ==? Unimplemented) journal
               then "partial" else "running")).

(** The image frozen once it runs. @ hlb-updater/src/apply.rs:96-102 [apply] *)
Definition frozen_image (repo tag digest : string) (i : Image) : Image :=
  {| img_repo := repo; img_tag := tag; img_digest := Some digest;
     img_built_here := img_built_here i; img_signed_by := img_signed_by i |}.

(** @ hlb-updater/src/apply.rs:94-106 [apply] *)
Definition freeze (app repo tag digest : string) : db () :=
  let! m := app_manifest app in
  let m := with_images (frozen_image repo tag digest (sp_image (mf_spec m)))
             (sp_companions (mf_spec m)) m in
  let! domain := app_domain app in
  upsert_app app m domain ;;!
  let! status := status_after_update app in
  match status with
  | Some status => set_app_status app status
  | None => eff_ret ()
  end.

(** @ hlb-updater/src/apply.rs:37-123 [apply] *)
Definition apply (candidate : Candidate) (timeout_secs : N) : RM UpdateOutcome :=
  let app := ca_app candidate in
  let! stopped := apply_companions app timeout_secs (ca_companions candidate) in
  match stopped with
  | Some outcome => eff_ret outcome
  | None =>
      let! m := on_state (app_manifest app) in
      if ca_kind candidate ==? Companions then eff_ret (Applied (ca_to_digest candidate))
      else
        let '(repo, tag) := target_of (ca_kind candidate) (sp_image (mf_spec m)) in
        on_swarm (switch app (repo +:+ ":" +:+ tag +:+ "@" +:+ ca_to_digest candidate)) ;;!
        let! outcome := on_swarm (watch app (ca_to_digest candidate) timeout_secs) in
        match outcome with
        | Applied digest => on_state (freeze app repo tag digest) ;;! eff_ret outcome
        | _ => eff_ret outcome
        end
  end.
End watch.

(** ** The loop *)

Section loop.
Context {W : Type} `{SwarmLaws W}.

Lemma turn_clock app d w : (clock w ≤ clock (turn app d w).2)%N.
Proof.
  unfold turn. pose proof (clock_status app w) as Hs.
  destruct (status app w) as [[st|] w1]; cbn in *; [|done].
  assert (Ht : (clock w ≤ clock (if update_finished (st_update_state st) && is_converged st then
    match tasks app w1 with
    | (Err why, w) => (Err (Orchestrator why), w)
    | (Ok tasks, w) =>
        if (st_desired_replicas st <=? N.of_nat (length (keep
             (λ t, is_alive t && contains d (t_image t)) tasks)))%N
        then (Ok (Some (Applied d)), w) else (Ok None, w)
    end else (Ok None, w1) : result Error (option UpdateOutcome) * W).2)%N).
  { destruct (_ && _); [|done]. pose proof (clock_tasks app w1).
    destruct (tasks app w1) as [[ts|] w2]; cbn in *; [|lia]. destruct (_ <=? _)%N; cbn; lia. }
  by destruct (st_update_state st) as [[]|].
Qed.

(** A turn that concludes nothing, and the two seconds after it. *)
Definition waits (deadline : N) (app d : string) (w w' : W) : Prop :=
  (clock w < deadline)%N ∧ ∃ w1, turn app d w = (Ok None, w1) ∧ w' = sleep POLL w1.

Lemma waits_clock deadline app d w w' : waits deadline app d w w' → (clock w + POLL ≤ clock w')%N.
Proof.
  intros (_ & w1 & Ht & ->). pose proof (turn_clock app d w) as Hc. rewrite Ht in Hc. cbn in Hc.
  pose proof (clock_sleep POLL w1). lia.
Qed.

Lemma watch_go_enough fuel deadline app d w :
  (deadline ≤ clock w + N.of_nat fuel * POLL)%N → is_Some (watch_go fuel deadline app d w).
Proof.
  induction fuel as [|fuel IH] in w |- *; cbn [watch_go]; destruct (N.ltb_spec (clock w) deadline);
    intros Hf; try (by eexists); [unfold POLL in Hf; lia|].
  destruct (turn app d w) as [[[o|]|e] w1] eqn:Et; [by eexists| |by eexists].
  apply IH. pose proof (waits_clock deadline app d w (sleep POLL w1)) as Hw.
  specialize (Hw (conj H1 (ex_intro _ w1 (conj Et eq_refl)))). unfold POLL in *. lia.
Qed.

(** How a watch ends: at its deadline, or with the first turn that concludes or fails. *)
Definition ends (deadline : N) (app d : string) (w : W) (r : result Error UpdateOutcome) (w' : W) : Prop :=
  ((deadline ≤ clock w)%N ∧ r = Ok Inconclusive ∧ w' = w) ∨
  ((clock w < deadline)%N ∧
   ((∃ o, turn app d w = (Ok (Some o), w') ∧ r = Ok o) ∨ (∃ e, turn app d w = (Err e, w') ∧ r = Err e))).

Lemma watch_go_ends fuel deadline app d w r w' :
  watch_go fuel deadline app d w = Some (r, w') →
  ∃ wn, rtc (waits deadline app d) w wn ∧ ends deadline app d wn r w'.
Proof.
  unfold ends. induction fuel as [|fuel IH] in w |- *; cbn [watch_go];
    destruct (N.ltb_spec (clock w) deadline) as [Hlt|Hge]; intros Hr; try done.
  - injection Hr as <- <-. exists w. split; [done|]. by left.
  - destruct (turn app d w) as [[[o|]|e] w1] eqn:Et.
    + injection Hr as <- <-. exists w. split; [done|]. right. eauto.
    + apply IH in Hr as (wn & Hn & He). exists wn. split; [|done].
      eapply rtc_l; [|done]. split; [done|]. eauto.
    + injection Hr as <- <-. exists w. split; [done|]. right. eauto.
  - injection Hr as <- <-. exists w. split; [done|]. by left.
Qed.

(** C32. Watching a switch always ends, within one turn each two seconds of the time given:
    with what the first turn that concludes saw, the error of the first that fails, or
    inconclusive - and only once the deadline has passed. *)
Theorem watch_spec (app d : string) (timeout_secs : N) (w : W) :
  is_Some (watch_go (turns timeout_secs) (clock w + timeout_secs * 1000) app d w) ∧
  ∃ wn, rtc (waits (clock w + timeout_secs * 1000) app d) w wn ∧
    ends (clock w + timeout_secs * 1000) app d wn
      (watch app d timeout_secs w).1 (watch app d timeout_secs w).2.
Proof.
  assert (Hs : is_Some (watch_go (turns timeout_secs) (clock w + timeout_secs * 1000) app d w)).
  { apply watch_go_enough. unfold turns, POLL. rewrite Nat2N.inj_succ, N2Nat.id.
    pose proof (N.div_mod timeout_secs 2 ltac:(done)).
    pose proof (N.mod_lt timeout_secs 2 ltac:(done)). lia. }
  split; [done|]. destruct Hs as [[r w'] Hr]. unfold watch. rewrite Hr. cbn.
  by eapply watch_go_ends.
Qed.

(** An update is reported applied only when Swarm has finished watching it and as many
    live tasks as asked run the new digest - never on the old image, nor on the service's
    word. *)
Theorem watch_applied (app d d' : string) (timeout_secs : N) (w w' : W)
    (Happ : watch app d timeout_secs w = (Ok (Applied d'), w')) :
  d' = d ∧ ∃ wn st w1 ts,
    (clock wn < clock w + timeout_secs * 1000)%N ∧
    status app wn = (Ok st, w1) ∧ tasks app w1 = (Ok ts, w') ∧
    update_finished (st_update_state st) = true ∧ is_converged st = true ∧
    (st_desired_replicas st ≤
       N.of_nat (length (keep (λ t, is_alive t && contains d (t_image t)) ts)))%N.
Proof.
  destruct (watch_spec app d timeout_secs w) as (_ & wn & _ & He). rewrite Happ in He. cbn in He.
  destruct He as [(_ & ? & _)|[Hlt [(o & Ht & [= <-])|(e & _ & ?)]]]; [done| |done].
  unfold turn in Ht. destruct (status app wn) as [[st|] w1] eqn:Es; [|done].
  destruct (update_finished (st_update_state st) && is_converged st) eqn:Ef.
  2:{ destruct (st_update_state st) as [[]|]; done. }
  apply andb_true_iff in Ef as [Ef Ec].
  assert (Ht' : match tasks app w1 with
    | (Err why, w) => (Err (Orchestrator why), w)
    | (Ok tasks, w) =>
        if (st_desired_replicas st <=? N.of_nat (length (keep
             (λ t, is_alive t && contains d (t_image t)) tasks)))%N
        then (Ok (Some (Applied d)), w) else (Ok None, w)
    end = (Ok (Some (Applied d')), w')) by (destruct (st_update_state st) as [[]|]; done).
  destruct (tasks app w1) as [[ts|] w2] eqn:Ets; [|done].
  destruct (N.leb_spec (st_desired_replicas st) (N.of_nat (length (keep
    (λ t, is_alive t && contains d (t_image t)) ts)))); [|done].
  injection Ht' as <- <-. split; [done|]. exists wn, st, w1, ts. done.
Qed.

(** A switch Swarm settles in time is concluded: if every turn from some moment on
    concludes (or fails), and a turn with its sleep takes no more than [pace], a watch
    whose deadline leaves one turn after that moment never ends inconclusive. *)
Theorem watch_concludes (app d : string) (timeout_secs settled pace : N) (w : W)
    (Htime : (0 < timeout_secs)%N)
    (Hpace : ∀ w w1, turn app d w = (Ok None, w1) → (clock (sleep POLL w1) ≤ clock w + pace)%N)
    (Hsettled : ∀ w, (settled ≤ clock w)%N → (turn app d w).1 ≠ Ok None)
    (Hroom : (settled + pace ≤ clock w + timeout_secs * 1000)%N) :
  (watch app d timeout_secs w).1 ≠ Ok Inconclusive.
Proof.
  destruct (watch_spec app d timeout_secs w) as (_ & wn & Hn & He).
  set (deadline := (clock w + timeout_secs * 1000)%N) in *.
  assert (Hin : (clock wn < deadline)%N).
  { apply rtc_inv_r in Hn as [->|(wp & _ & Hlt & w1 & Ht & ->)]; [unfold deadline; lia|].
    destruct (N.lt_ge_cases (clock wp) settled) as [Hb|Hb].
    - specialize (Hpace wp w1 Ht). lia.
    - apply Hsettled in Hb. by rewrite Ht in Hb. }
  destruct He as [(Hge & _)|[_ [(o & Ht & ->)|(e & _ & ->)]]]; [lia| |done].
  intros [= ->]. unfold turn in Ht. destruct (status app wn) as [[st|] w1]; [|done].
  destruct (st_update_state st) as [[]|]; repeat case_match; done.
Qed.
End loop.

(** ** What is started *)

(** A world that remembers what it was asked to run. *)
Abbreviation logged W := (W * list (string * string))%type (only parsing).
#[export] Instance logged_world {W} `{SwarmWorld W} : SwarmWorld (logged W) := {
  update_image name image w := let '(r, w') := update_image name image w.1 in
                               (r, (w', w.2 ++ [(name, image)]));
  status name w := let '(r, w') := status name w.1 in (r, (w', w.2));
  tasks name w := let '(r, w') := tasks name w.1 in (r, (w', w.2));
  clock w := clock w.1;
  sleep d w := (sleep d w.1, w.2) }.

(** What an update starts, in its order: the companions it moves, then the app. *)
Definition companion_switches (l : list CompanionMove) : list (string * string) :=
  omap (λ c, _ ← img_digest (cm_to c); Some (cm_service c, image_reference (cm_to c))) l.
Definition switches (c : Candidate) (installed : Image) : list (string * string) :=
  companion_switches (ca_companions c) ++
  (if ca_kind c ==? Companions then []
   else let '(repo, tag) := target_of (ca_kind c) installed in
        [(ca_app c, repo +:+ ":" +:+ tag +:+ "@" +:+ ca_to_digest c)]).

Section started.
Context {W : Type} `{SwarmWorld W}.

Lemma turn_log app d : keeps (same_on snd) (turn (W := logged W) app d).
Proof.
  intros [w log]. unfold same_on, turn. cbn [status tasks logged_world fst snd].
  destruct (status app w) as [[st|] w1]; [|done]. destruct (st_update_state st) as [[]|]; try done;
  destruct (_ && _); try done; cbn; by destruct (tasks app w1) as [[|] ?]; [destruct (_ <=? _)%N|].
Qed.

Lemma watch_log app d timeout_secs : keeps (same_on snd) (watch (W := logged W) app d timeout_secs).
Proof.
  intros w. unfold watch. set (deadline := (_ + _)%N). generalize (turns timeout_secs) as fuel.
  assert (Hgo : ∀ fuel w r w', watch_go fuel deadline app d w = Some (r, w') → w'.2 = w.2).
  { induction fuel as [|fuel IH]; intros v r v'; cbn [watch_go]; destruct (_ <? _)%N; try done;
      try by intros [= <- <-].
    pose proof (turn_log app d v) as Ht. unfold same_on in Ht.
    destruct (turn app d v) as [[[o|]|e] v1]; cbn in Ht; [by intros [= <- <-]| |by intros [= <- <-]].
    intros Hw%IH. by rewrite Hw. }
  intros fuel. unfold same_on.
  destruct (watch_go fuel deadline app d w) as [[r w']|] eqn:E; [|done]. by apply Hgo in E.
Qed.

(** The image of an app is what it is installed at, as far as the state knows. *)
Definition installed_at (app : string) (i : Image) (st : Store) : Prop :=
  ∃ row, t_apps st !! app = Some row ∧ sp_image (mf_spec (row_manifest row)) = i.

(** What is left of a companion's move: the app's image as it was, and what was started. *)
Lemma apply_companion_log app timeout_secs c i st (w : logged W) :
  installed_at app i st →
  let '(r, (st', w')) := apply_companion (W := logged W) app timeout_secs c (st, w) in
  installed_at app i st' ∧
  ∃ k, w'.2 = w.2 ++ take k (companion_switches [c]) ∧
    (r = Ok None → w'.2 = w.2 ++ companion_switches [c]) ∧
    (∀ o, r = Ok (Some o) → is_success o = false).
Proof.
  intros (row & Hrow & Hi). unfold apply_companion, companion_switches. cbn [omap list_omap].
  destruct (img_digest (cm_to c)) as [digest|]; cbn [mbind option_bind].
  2:{ cbn. rewrite app_nil_r. split; [by exists row|]. exists 0. by rewrite app_nil_r. }
  unfold eff_bind, on_swarm, switch. destruct w as [w log]. cbn [update_image logged_world fst snd].
  destruct (update_image (cm_service c) _ w) as [[|why] w1]; cbn [map_err].
  2:{ split; [by exists row|]. exists 1%nat. cbn. done. }
  pose proof (watch_log (cm_service c) digest timeout_secs
    (w1, log ++ [(cm_service c, image_reference (cm_to c))])) as Hlog. unfold same_on in Hlog.
  destruct (watch (cm_service c) digest timeout_secs _) as [[o|e] w2]; cbn [snd] in Hlog.
  2:{ split; [by exists row|]. exists 1%nat. cbn. rewrite Hlog. done. }
  destruct (is_success o) eqn:Eo; cbn [negb].
  - unfold on_state, app_manifest, app_domain, upsert_app, eff_get, eff_put. rewrite Hrow. cbn. split.
    + eexists. cbn [t_apps set_apps]. rewrite lookup_insert_eq. by split.
    + exists 1%nat. cbn. by rewrite Hlog.
  - cbn. split; [by exists row|]. exists 1%nat. cbn. rewrite Hlog. split_and!; naive_solver.
Qed.

Lemma companion_switches_cons c l :
  companion_switches (c :: l) = companion_switches [c] ++ companion_switches l.
Proof. change (c :: l) with ([c] ++ l). unfold companion_switches. by rewrite omap_app. Qed.

Lemma take_within {A} k (a b : list A) : take (k `min` length a) (a ++ b) = take k a.
Proof.
  rewrite take_app_le by lia. destruct (Nat.le_ge_cases k (length a)).
  - by rewrite Nat.min_l.
  - rewrite Nat.min_r by done. rewrite (take_ge a (length a)), (take_ge a k) by lia. done.
Qed.

Lemma apply_companions_log app timeout_secs l i st (w : logged W) :
  installed_at app i st →
  let '(r, (st', w')) := apply_companions (W := logged W) app timeout_secs l (st, w) in
  installed_at app i st' ∧
  ∃ k, w'.2 = w.2 ++ take k (companion_switches l) ∧
    (r = Ok None → w'.2 = w.2 ++ companion_switches l) ∧
    (∀ o, r = Ok (Some o) → is_success o = false).
Proof.
  induction l as [|c l IH] in st, w |- *; intros Hi; cbn [apply_companions].
  { cbn. split; [done|]. exists 0. cbn. rewrite app_nil_r. naive_solver. }
  unfold eff_bind. pose proof (apply_companion_log app timeout_secs c i st w Hi) as Hc.
  rewrite companion_switches_cons.
  destruct (apply_companion app timeout_secs c (st, w)) as [[[o|]|e] [st1 w1]];
    destruct Hc as (Hi1 & k & Hk & Hall & Hs).
  - split; [done|]. exists (k `min` length (companion_switches [c])). rewrite take_within.
    split_and!; [done|done|]. intros ? [= <-]. by apply Hs.
  - specialize (IH st1 w1 Hi1). destruct (apply_companions app timeout_secs l (st1, w1)) as [r [st2 w2]].
    destruct IH as (Hi2 & k2 & Hk2 & Hall2 & Hs2). split; [done|].
    rewrite (Hall eq_refl) in Hk2, Hall2.
    exists (length (companion_switches [c]) + k2). split_and!; [|intros Hr|done].
    + by rewrite take_app_add, Hk2, app_assoc.
    + by rewrite (Hall2 Hr), app_assoc.
  - split; [done|]. exists (k `min` length (companion_switches [c])). by rewrite take_within.
Qed.

Lemma switches_verified c installed catalog service image :
  (service, image) ∈ switches c installed → image ∈ (to_verify c installed catalog).*1.
Proof.
  unfold switches, to_verify. destruct (target_of (ca_kind c) installed) as [repo tag].
  rewrite fmap_app, !elem_of_app. intros [Hc|Ho].
  - right. apply list_elem_of_omap in Hc as (m & Hm & E). destruct (img_digest (cm_to m)); [|done].
    injection E as <- <-. rewrite <- list_fmap_compose. apply list_elem_of_fmap. by exists m.
  - left. destruct (ca_kind c ==? Companions); [by apply elem_of_nil in Ho|].
    apply list_elem_of_singleton in Ho as [= -> ->]. left.
Qed.

(** An update starts nothing that was not to be verified: what Swarm is asked to run is
    the companions' images then the app's, each only once all before it run, and all of
    them are among those [to_verify] lists; an update reported applied started them all. *)
Theorem apply_starts_verified (c : Candidate) (installed : Image) (catalog : option Image)
    (timeout_secs : N) (st : Store) (w : W) (Hin : installed_at (ca_app c) installed st) :
  let '(r, (_, (_, started))) := apply (W := logged W) c timeout_secs (st, (w, [])) in
  (∃ k, started = take k (switches c installed)) ∧
  (∀ d, r = Ok (Applied d) → started = switches c installed) ∧
  (∀ service image, (service, image) ∈ started → image ∈ (to_verify c installed catalog).*1).
Proof.
  assert (Hsub : ∀ k service image, (service, image) ∈ take k (switches c installed) →
                   image ∈ (to_verify c installed catalog).*1).
  { intros k service image Hk. apply (switches_verified _ _ _ service).
    rewrite <- (take_drop k), elem_of_app. by left. }
  unfold apply, eff_bind at 1.
  pose proof (apply_companions_log (ca_app c) timeout_secs (ca_companions c) installed st (w, []) Hin) as Hc.
  set (cs := companion_switches (ca_companions c)) in *.
  assert (Hcs : ∀ k, take (k `min` length cs) (switches c installed) = take k cs)
    by (intros k; apply take_within).
  destruct (apply_companions _ _ _ _) as [[[o|]|e] [st1 [w1 log]]]; cbn [fst snd app] in Hc;
    destruct Hc as (Hin1 & k & Hk & Hall & Hs).
  1,3: cbn; rewrite Hk, <- Hcs; split_and!; [by eexists| |by apply Hsub].
  { intros d [= ->]. by specialize (Hs _ eq_refl). }
  { done. }
  specialize (Hall eq_refl). clear Hs Hk Hcs k. cbn in Hall. subst log.
  destruct Hin1 as (row & Hrow & Hi). unfold eff_bind, on_state at 1, app_manifest. rewrite Hrow.
  cbn [fmap option_fmap option_map ok_or map_err].
  destruct (ca_kind c ==? Companions) eqn:Ek.
  { assert (Ew : switches c installed = cs) by (unfold switches; by rewrite Ek, app_nil_r).
    cbn. rewrite Ew in *. split_and!; [exists (length cs); by rewrite take_ge|done|].
    intros s im Hs. apply (Hsub (length cs) s). by rewrite take_ge. }
  rewrite Hi. destruct (target_of (ca_kind c) installed) as [repo tag] eqn:Et.
  assert (Ew : switches c installed = cs ++ [(ca_app c, repo +:+ ":" +:+ tag +:+ "@" +:+ ca_to_digest c)])
    by (unfold switches; by rewrite Ek, Et).
  set (all := switches c installed) in *.
  assert (Hdone : (∃ k, all = take k all) ∧
                  (∀ s im, (s, im) ∈ all → im ∈ (to_verify c installed catalog).*1)).
  { split; [exists (length all); by rewrite take_ge|]. intros s im Hs. apply (Hsub (length all) s).
    by rewrite take_ge. }
  clear Hsub. unfold eff_bind, on_swarm, switch. cbn [update_image logged_world fst snd].
  rewrite <- Ew. destruct (update_image (ca_app c) _ w1) as [[|why] w2]; cbn [map_err];
    [|split_and!; [apply Hdone|done|apply Hdone]].
  pose proof (watch_log (ca_app c) (ca_to_digest c) timeout_secs (w2, all)) as Hlog.
  destruct (watch (ca_app c) (ca_to_digest c) timeout_secs (w2, all)) as [[o|e] [w3 log]];
    unfold same_on in Hlog; cbn in Hlog; subst log; [|split_and!; [apply Hdone|done|apply Hdone]].
  destruct o; [|split_and!; [apply Hdone|done|apply Hdone]..].
  unfold on_state. destruct (freeze _ _ _ _ st1) as [[|] ?]; cbn; split_and!; try done; apply Hdone.
Qed.
End started.

(** ** What the state says *)

(** A companion of the install, its image moved or not. *)
Definition companion_moved (moves : list CompanionMove) (old new : Companion) : Prop :=
  new = map_companion_image (λ _, co_image new) old ∧
  (co_image new = co_image old ∨
   ∃ mv, mv ∈ moves ∧ is_Some (img_digest (cm_to mv)) ∧ cm_name mv = co_name old ∧
         co_image new = cm_to mv).

(** The row of an app while its update is under way: its companions moved, nothing else. *)
Record row_moving (moves : list CompanionMove) (row row' : AppRow) : Prop := {
  moving_image : sp_image (mf_spec (row_manifest row')) = sp_image (mf_spec (row_manifest row));
  moving_rest : row_manifest row' = with_images (sp_image (mf_spec (row_manifest row)))
    (sp_companions (mf_spec (row_manifest row'))) (row_manifest row);
  moving_companions : Forall2 (companion_moved moves) (sp_companions (mf_spec (row_manifest row)))
    (sp_companions (mf_spec (row_manifest row')));
  moving_domain : row_domain row' = row_domain row;
  moving_status : row_status row' = row_status row;
  moving_replicas : row_replicas row' = row_replicas row }.

(** Everything but an app's row. *)
Definition but_row (app : string) (st : Store) :=
  (delete app (t_apps st), t_plan st, t_guides st, t_ahead st, t_secrets st, t_volumes st).

Lemma companion_moved_refl moves c : companion_moved moves c c.
Proof. split; [by destruct c|by left]. Qed.

Lemma companion_moved_step moves mv old mid :
  mv ∈ moves → is_Some (img_digest (cm_to mv)) → cm_name mv = co_name mid →
  companion_moved moves old mid →
  companion_moved moves old (map_companion_image (λ _, cm_to mv) mid).
Proof.
  intros Hmv Hd Hn [E _]. rewrite E in Hn |- *. destruct old. split; [done|]. right. by exists mv.
Qed.

Lemma freeze_companion_moved moves mv old mid :
  mv ∈ moves → is_Some (img_digest (cm_to mv)) → Forall2 (companion_moved moves) old mid →
  Forall2 (companion_moved moves) old (freeze_companion (cm_name mv) (cm_to mv) mid).
Proof.
  intros Hmv Hd. induction 1 as [|o m old mid Hm Hl IH]; [done|]. cbn.
  destruct (bool_decide_reflect (co_name m = cm_name mv)) as [E|E]; constructor; try done.
  by apply companion_moved_step.
Qed.

Section state.
Context {W : Type} `{SwarmWorld W}.

Definition moving (app : string) (moves : list CompanionMove) (row : AppRow) (st st' : Store) : Prop :=
  but_row app st' = but_row app st ∧
  ∃ row', t_apps st' !! app = Some row' ∧ row_moving moves row row'.

Lemma apply_companion_moving app timeout_secs moves c row st0 st (w : W) :
  c ∈ moves → moving app moves row st0 st →
  moving app moves row st0 (apply_companion app timeout_secs c (st, w)).2.1.
Proof.
  intros Hc [Hb (row1 & Hrow & Hm)]. unfold apply_companion.
  assert (Hsame : moving app moves row st0 st) by (split; [done|by exists row1]).
  destruct (img_digest (cm_to c)) as [digest|] eqn:Ed; [|done].
  unfold eff_bind, on_swarm. destruct (switch _ _ w) as [[|e] w1]; [|done].
  destruct (watch _ _ _ w1) as [[o|e] w2]; [|done]. destruct (negb (is_success o)); [done|].
  unfold on_state, app_manifest, app_domain, upsert_app, eff_get, eff_put. rewrite Hrow. cbn.
  split.
  - rewrite <- Hb. unfold but_row. cbn. by rewrite delete_insert_eq.
  - eexists. cbn. rewrite lookup_insert_eq. split; [done|].
    destruct Hm as [H1 H2 H3 H4 H5 H6]. constructor; cbn; try done.
    + by rewrite H1, H2.
    + by apply freeze_companion_moved; [| |].
Qed.

Lemma apply_companions_moving app timeout_secs moves l row st0 st (w : W) :
  (∀ c, c ∈ l → c ∈ moves) → moving app moves row st0 st →
  moving app moves row st0 (apply_companions app timeout_secs l (st, w)).2.1.
Proof.
  induction l as [|c l IH] in st, w |- *; intros Hl Hm; [done|]. cbn [apply_companions].
  unfold eff_bind. pose proof (apply_companion_moving app timeout_secs moves c row st0 st w
    (Hl c (list_elem_of_here _ _)) Hm) as Hc.
  destruct (apply_companion app timeout_secs c (st, w)) as [[[o|]|e] [st1 w1]]; [done| |done].
  apply IH; [|done]. intros d Hd. apply Hl. by right.
Qed.

(** The status an app has once its new image runs. *)
Definition status_then (app status : string) (st : Store) : string :=
  let journal := record_of <$> plan_rows app st in
  if any_of (λ a, ar_status a ==? Failed) journal then status
  else if any_of (λ a, ar_status a ==? Unimplemented) journal then "partial" else "running".

Lemma freeze_spec app repo tag digest st row :
  t_apps st !! app = Some row →
  let '(r, st') := freeze app repo tag digest st in
  r = Ok () ∧ but_row app st' = but_row app st ∧
  t_apps st' !! app = Some
    {| row_manifest := with_images (frozen_image repo tag digest (sp_image (mf_spec (row_manifest row))))
         (sp_companions (mf_spec (row_manifest row))) (row_manifest row);
       row_domain := row_domain row; row_status := status_then app (row_status row) st;
       row_replicas := row_replicas row |}.
Proof.
  intros Hrow. unfold freeze, eff_bind, app_manifest, app_domain, eff_get, upsert_app, eff_put,
    status_after_update, plan_actions, status_then, but_row. rewrite Hrow. cbn.
  unfold any_of. destruct (existsb _ _); [|destruct (existsb _ _)]; cbn.
  - rewrite lookup_insert_eq, delete_insert_eq. done.
  - rewrite alter_insert_eq. cbn. by rewrite lookup_insert_eq, delete_insert_eq.
  - rewrite alter_insert_eq. cbn. by rewrite lookup_insert_eq, delete_insert_eq.
Qed.

Lemma watch_digest app d timeout_secs (w : W) d' :
  (watch app d timeout_secs w).1 = Ok (Applied d') → d' = d.
Proof.
  unfold watch. destruct (watch_go _ _ _ _ _) as [[r w']|] eqn:E; [|done]. cbn. intros ->.
  apply watch_go_ends in E as (wn & _ & [(_ & ? & _)|[_ [(o & Ht & [= <-])|(e & _ & ?)]]]); try done.
  unfold turn in Ht. destruct (status app wn) as [[st|] w1]; [|done].
  destruct (st_update_state st) as [[]|]; try done; (destruct (_ && _); [|done]);
    destruct (tasks app w1) as [[ts|] w2]; try done; (destruct (_ <=? _)%N; [|done]);
    by injection Ht as <-.
Qed.

Lemma apply_companions_stopped app timeout_secs l s o :
  (apply_companions (W := W) app timeout_secs l s).1 = Ok (Some o) → is_success o = false.
Proof.
  induction l as [|c l IH] in s |- *; [done|]. cbn [apply_companions]. unfold eff_bind.
  destruct (apply_companion app timeout_secs c s) as [[[o'|]|e] s1] eqn:E; [|apply IH|done].
  intros [= <-]. unfold apply_companion in E. destruct (img_digest (cm_to c)) as [d|]; [|done].
  unfold eff_bind, on_swarm in E. destruct s as [st w]. destruct (switch _ _ w) as [[|] w1]; [|done].
  destruct (watch _ _ _ w1) as [[o2|] w2]; [|done]. destruct (is_success o2) eqn:Eo; cbn [negb] in E.
  - unfold on_state, app_manifest, app_domain, eff_get, upsert_app, eff_put in E.
    by destruct (t_apps st !! app).
  - injection E as <- _. done.
Qed.

(** What an update that ends with [r] leaves: the app's row moving, or the image switched to. *)
Definition freezes (c : Candidate) (st : Store) (row : AppRow) (st' : Store)
    (r : result Error UpdateOutcome) : Prop :=
  but_row (ca_app c) st' = but_row (ca_app c) st ∧
  ∃ row1 row', row_moving (ca_companions c) row row1 ∧ t_apps st' !! ca_app c = Some row' ∧
    (row' = row1 ∧ (∀ d, r = Ok (Applied d) → ca_kind c = Companions) ∨
     r = Ok (Applied (ca_to_digest c)) ∧ ca_kind c ≠ Companions ∧
     let '(repo, tag) := target_of (ca_kind c) (sp_image (mf_spec (row_manifest row))) in
     row' = {| row_manifest := with_images
                 (frozen_image repo tag (ca_to_digest c) (sp_image (mf_spec (row_manifest row))))
                 (sp_companions (mf_spec (row_manifest row1))) (row_manifest row1);
               row_domain := row_domain row;
               row_status := status_then (ca_app c) (row_status row) st;
               row_replicas := row_replicas row |}).

(** The state says what runs. Whatever the outcome of an update, nothing but the app's row
    changes, and in it nothing but images and the status; a companion's image is the one it
    had or the one it was moved to. The app's own image and its status change only on an
    update reported applied - then to the image switched to, and to a status that never
    hides a plan that failed or is incomplete. *)
Theorem apply_freezes_last (c : Candidate) (timeout_secs : N) (st : Store) (w : W) (row : AppRow)
    (Hrow : t_apps st !! ca_app c = Some row) :
  let '(r, (st', _)) := apply c timeout_secs (st, w) in
  freezes c st row st' r.
Proof.
  unfold apply. pose proof (apply_companions_moving (ca_app c) timeout_secs (ca_companions c)
    (ca_companions c) row st st w (λ _ H, H)) as Hmv.
  unfold eff_bind at 1.
  pose proof (apply_companions_stopped (ca_app c) timeout_secs (ca_companions c) (st, w)) as Hstop.
  destruct (apply_companions _ _ _ (st, w)) as [stopped [st1 w1]]. cbn in Hmv, Hstop.
  destruct Hmv as [Hb (row1 & Hrow1 & Hm)]; [split; [done|]; exists row; split; [done|]|].
  { constructor; try done; [by destruct row as [[? ? ? []] ? ? ?]|].
    induction (sp_companions _); constructor; [apply companion_moved_refl|done]. }
  assert (Hstay : ∀ r, (∀ d, r = Ok (Applied d) → ca_kind c = Companions) →
    freezes c st row st1 r).
  { intros r Hr. split; [done|]. exists row1, row1. eauto. }
  destruct stopped as [[o|]|e]; [|clear Hstop|by apply Hstay].
  { apply Hstay. intros d [= ->]. by specialize (Hstop _ eq_refl). }
  unfold eff_bind, on_state at 1, app_manifest. rewrite Hrow1.
  cbn [fmap option_fmap option_map ok_or map_err].
  destruct (bool_decide_reflect (ca_kind c = Companions)) as [Ek|Ek]; [by apply Hstay|].
  rewrite (moving_image _ _ _ Hm).
  destruct (target_of _ (sp_image (mf_spec (row_manifest row)))) as [repo tag] eqn:Et.
  unfold on_swarm. destruct (switch _ _ w1) as [[|] w2]; [|by apply Hstay].
  pose proof (watch_digest (ca_app c) (ca_to_digest c) timeout_secs w2) as Hd.
  destruct (watch _ _ _ w2) as [[[d|?| |]|] w3]; try by apply Hstay. specialize (Hd d eq_refl). subst d.
  unfold on_state. pose proof (freeze_spec (ca_app c) repo tag (ca_to_digest c) st1 row1 Hrow1) as Hf.
  destruct (freeze _ _ _ _ st1) as [r st2]. destruct Hf as (-> & Hb2 & Hrow2). cbn. split; [by trans (but_row (ca_app c) st1)|].
  exists row1. eexists. split; [done|]. split; [done|]. right. rewrite Et. split_and!; [done..|].
  destruct Hm as [Hi Hr _ Hdom Hst Hrep]. rewrite Hi, Hdom, Hst, Hrep.
  unfold status_then, plan_rows. unfold but_row in Hb. injection Hb as _ -> _ _ _ _. done.
Qed.
End state.

(** ** Examples *)

(** A cluster whose update takes four seconds; its world is its clock. *)
Definition live_task : TaskInfo :=
  {| t_id := "t1"; t_service := "immich"; t_slot := Some 1%N; t_node_id := None;
     t_desired_state := "running"; t_state := "running"; t_image := "immich:v2.2.0@sha256:new";
     t_message := None; t_err := None; t_updated_at := None |}.
Definition service_at (ms : N) : ServiceStatus :=
  {| st_name := "immich"; st_id := "s1"; st_desired_replicas := 1; st_running_replicas := 1;
     st_global := false; st_image := "immich:v2.2.0@sha256:new";
     st_update_state := Some (if (ms <? 4000)%N then Updating else Swarm.Completed) |}.
#[local] Instance example_world : SwarmWorld N := {
  update_image _ _ w := (Ok (), w);
  status _ w := (Ok (service_at w), w);
  tasks _ w := (Ok [live_task], w);
  clock w := w;
  sleep d w := (w + d)%N }.
#[local] Instance example_laws : SwarmLaws N.
Proof. split; intros; cbn; lia. Qed.

Lemma watch_spec_witness :
  watch "immich" "sha256:new" 60 0%N = (Ok (Applied "sha256:new"), 4000%N) ∧
  ∃ wn, rtc (waits 60000 "immich" "sha256:new") 0%N wn ∧
    ends 60000 "immich" "sha256:new" wn (Ok (Applied "sha256:new")) 4000%N.
Proof.
  assert (E : watch "immich" "sha256:new" 60 0%N = (Ok (Applied "sha256:new"), 4000%N))
    by (by vm_compute).
  split; [exact E|].
  destruct (watch_spec "immich" "sha256:new" 60 0%N) as (_ & wn & H1 & H2).
  rewrite E in H2. exists wn. exact (conj H1 H2).
Defined.

Lemma watch_applied_witness : ∃ wn st, (wn < 60000)%N ∧ status "immich" wn = (Ok st, wn) ∧
  is_converged st = true.
Proof.
  assert (E : watch "immich" "sha256:new" 60 0%N = (Ok (Applied "sha256:new"), 4000%N))
    by (by vm_compute).
  destruct (watch_applied "immich" "sha256:new" "sha256:new" 60 0%N 4000%N E)
    as (_ & wn & st & w1 & ts & H1 & H2 & _ & _ & H3 & _).
  exists wn, st. split; [exact H1|]. split; [|exact H3]. cbn in *. congruence.
Defined.

Lemma example_settles (w : N) : (4000 ≤ w)%N → (turn "immich" "sha256:new" w).1 ≠ Ok None.
Proof.
  intros Hw. unfold turn. cbn. destruct (N.ltb_spec w 4000); [lia|]. by vm_compute.
Qed.

Lemma example_pace (w w1 : N) :
  turn "immich" "sha256:new" w = (Ok None, w1) → (clock (sleep POLL w1) ≤ clock w + POLL)%N.
Proof.
  intros H. replace w1 with w; [done|]. unfold turn in H. cbn in H.
  destruct (_ <? _)%N; [by injection H|]. by vm_compute in H.
Qed.

Lemma watch_concludes_witness : (watch "immich" "sha256:new" 10 0%N).1 ≠ Ok Inconclusive.
Proof.
  apply (watch_concludes "immich" "sha256:new" 10 4000 POLL 0%N ltac:(done) example_pace example_settles).
  by vm_compute.
Defined.

Definition example_candidate : Candidate :=
  {| ca_app := "immich"; ca_kind := NewVersion "v2.2.0"; ca_from_tag := "v2.1.0";
     ca_from_digest := Some "sha256:old"; ca_to_digest := "sha256:new"; ca_in_window := true;
     ca_needs_backup := true; ca_maturity := Mature; ca_companions := [] |}.
Definition example_row : AppRow :=
  {| row_manifest := installed_manifest; row_domain := None; row_status := "running";
     row_replicas := None |}.
Definition example_store : Store := set_apps {[ "immich" := example_row ]} empty_store.

Lemma example_installed : t_apps example_store !! "immich" = Some example_row.
Proof. by vm_compute. Qed.

Definition example_started : result Error UpdateOutcome * list (string * string) :=
  let '(r, (_, (_, started))) := apply (W := logged N) example_candidate 60 (example_store, (0%N, [])) in
  (r, started).

Lemma apply_starts_verified_witness :
  example_started =
    (Ok (Applied "sha256:new"),
     [("immich", "ghcr.io/immich-app/immich-server:v2.2.0@sha256:new")]) ∧
  example_started.2 = switches example_candidate installed_image.
Proof.
  assert (E : example_started = (Ok (Applied "sha256:new"),
     [("immich", "ghcr.io/immich-app/immich-server:v2.2.0@sha256:new")])) by (by vm_compute).
  split; [exact E|].
  pose proof (apply_starts_verified (W := N) example_candidate installed_image None 60 example_store 0%N
    (ex_intro _ example_row (conj example_installed eq_refl))) as H.
  unfold example_started in *. destruct (apply _ _ _) as [r [st [w started]]].
  injection E as -> ->. destruct H as (_ & H & _). exact (H _ eq_refl).
Defined.

Lemma apply_freezes_last_witness :
  let '(r, (st', _)) := apply example_candidate 60 (example_store, 0%N) in
  r = Ok (Applied "sha256:new") ∧ is_Some (t_apps st' !! "immich") ∧ t_plan st' = ∅.
Proof.
  pose proof (apply_freezes_last example_candidate 60 example_store 0%N example_row example_installed) as H.
  assert (E : (apply example_candidate 60 (example_store, 0%N)).1 = Ok (Applied "sha256:new"))
    by (by vm_compute).
  destruct (apply example_candidate 60 (example_store, 0%N)) as [r [st' w]]. cbn in E.
  destruct H as [Hb (row1 & row' & _ & Hrow & _)]. split; [exact E|]. split; [by eexists|].
  injection Hb as _ Hp _ _ _ _. exact Hp.
Defined.
