(* ===== verification/Reconcile.v ===== *)
(** * Reconciliation: what drifted, and what is put right

    [crates/hlb-engine/src/reconcile.rs], with the holds of [crates/hlb-state/src/lib.rs]: what
    the installed apps should run is compared with what Swarm runs; the gaps that can be are
    corrected, the others are said. Swarm, Garage and PocketID are read and asked through an
    interface. *)

From S2P Require Import Prelude RustStr Capability Manifest Journal Swarm Resolver.

#[local] Open Scope hlb_scope.

(** ** Holds *)

(** @ hlb-state/src/lib.rs:1134-1157 [State::hold_services] *)
Record HoldRow := { ho_why : string; ho_until : Z; ho_replicas : option Z; ho_node : option string }.
Definition Holds : Type := gmap string HoldRow.

(** One service held; held again, the larger count stays.
    @ hlb-state/src/lib.rs:1140-1155 [State::hold_services] *)
Definition hold_service (now : Z) (why : string) (secs : Z) (h : Holds) (service : string * N) : Holds :=
  let '(name, replicas) := service in
  let n := as_i64 replicas in
  <[name := match h !! name with
            | Some r => {| ho_why := why; ho_until := now + secs;
                           ho_replicas := Some (Z.max (default 0%Z (ho_replicas r)) n);
                           ho_node := ho_node r |}
            | None => {| ho_why := why; ho_until := now + secs; ho_replicas := Some n; ho_node := None |}
            end]> h.
(** @ hlb-state/src/lib.rs:1129-1158 [State::hold_services] *)
Definition hold_services (now : Z) (services : list (string * N)) (why : string) (secs : Z) (h : Holds) : Holds :=
  foldl (hold_service now why secs) h services.
(** @ hlb-state/src/lib.rs:1175-1185 [State::set_hold_node] *)
Definition set_hold_node (services : list string) (node : string) (h : Holds) : Holds :=
  foldl (λ h s, alter (λ r, {| ho_why := ho_why r; ho_until := ho_until r; ho_replicas := ho_replicas r;
                               ho_node := Some node |}) s h) h services.
(** @ hlb-state/src/lib.rs:1187-1195 [State::hold_node] *)
Definition hold_node (service : string) (h : Holds) : option string := h !! service ≫= ho_node.
(** @ hlb-state/src/lib.rs:1197-1205 [State::release_services] *)
Definition release_services (services : list string) (h : Holds) : Holds :=
  foldl (λ h s, delete s h) h services.
(** @ hlb-state/src/lib.rs:1207-1217 [State::held] *)
Definition held (now : Z) (service : string) (h : Holds) : option string :=
  r ← h !! service; if (now <? ho_until r)%Z then Some (ho_why r) else None.

(** ** Room *)

(** @ hlb-engine/src/reconcile.rs:36-41 [Ask] *)
Record Ask := { ask_reserve_mib : N; ask_tier : string }.

(** A service that declares no memory is left out.
    @ hlb-engine/src/reconcile.rs:43-68 [service_asks] *)
Definition service_asks (app : string) (m : Manifest) : gmap string Ask :=
  let ask (mem : Memory) tier :=
    {| ask_reserve_mib := bytes_mib (mem_reserve mem); ask_tier := default "light" tier |} in
  let own := match sw_memory (sp_swarm (mf_spec m)) with
             | Some mem => [(app, ask mem (sw_tier (sp_swarm (mf_spec m))))]
             | None => []
             end in
  let companions := omap (λ c, (λ mem, (companion_service c app, ask mem (co_tier c))) <$> co_memory c)
                      (sp_companions (mf_spec m)) in
  foldl (λ acc '(s, a), <[s := a]> acc) ∅ (own ++ companions).

(** The memory the services known to ask for some reserve on a node, in MiB.
    @ hlb-engine/src/reconcile.rs:88-95 [make_room] *)
Definition reserved_on (tasks : list TaskInfo) (asks : gmap string Ask) (node : string) : N :=
  foldl (λ n a, wrap_u64 (n + ask_reserve_mib a)) 0%N
    (omap (λ t, asks !! t_service t)
       (keep (λ t, is_alive t && (t_node_id t ==? Some node)) tasks)).

(** A node and what it has left.
    @ hlb-engine/src/reconcile.rs:96-100 [make_room] *)
Definition rooms (home : NodeInfo) (nodes : list NodeInfo) (tasks : list TaskInfo)
    (asks : gmap string Ask) : list (NodeInfo * N) :=
  omap (λ n, (λ mb, (n, mb - reserved_on tasks asks (n_id n))%N) <$> n_memory_mb n)
    (keep (λ n, negb (n_id n ==? n_id home) && (n_status n ==? "ready") &&
                (n_availability n ==? "active")) nodes).

(** [Vec::dedup_by_key]: of neighbours with one key, the first stays. *)
Fixpoint dedup_fst {A} (last : option string) (l : list (string * A)) : list (string * A) :=
  match l with
  | [] => []
  | (k, a) :: l => if last ==? Some k then dedup_fst last l else (k, a) :: dedup_fst (Some k) l
  end.

Definition movable_cmp (a b : string * Ask) : comparison :=
  then_with (N.compare (ask_reserve_mib b.2) (ask_reserve_mib a.2)) (String.compare a.1 b.1).

(** @ hlb-engine/src/reconcile.rs:101-109 [make_room] *)
Definition movable (home : NodeInfo) (nodes : list NodeInfo) (tasks : list TaskInfo)
    (asks : gmap string Ask) (held_ : gset string) : list (string * Ask) :=
  dedup_fst None (sort_by movable_cmp
    (omap (λ t, (t_service t,.) <$> asks !! t_service t)
       (keep (λ t, negb (any_of (λ n, bool_decide (t_service t ∈ n_data n)) nodes))
          (keep (λ t, negb (bool_decide (t_service t ∈ held_)))
             (keep (λ t, is_alive t && (t_node_id t ==? Some (n_id home))) tasks))))).

(** @ hlb-engine/src/reconcile.rs:116-121 [make_room] *)
Definition has_room (a : Ask) (room : NodeInfo * N) : bool :=
  (ask_reserve_mib a <=? room.2)%N &&
  match n_tier room.1 with Some t => tier_admits t (ask_tier a) | None => false end.

(** The first room a service fits in, and the rooms left once it moved there.
    @ hlb-engine/src/reconcile.rs:116-123 [make_room] *)
Fixpoint settle (a : Ask) (others : list (NodeInfo * N)) : option (list (NodeInfo * N)) :=
  match others with
  | [] => None
  | (n, free) :: others =>
      if has_room a (n, free) then Some ((n, (free - ask_reserve_mib a)%N) :: others)
      else ((n, free) ::.) <$> settle a others
  end.

(** @ hlb-engine/src/reconcile.rs:111-127 [make_room] *)
Fixpoint move_out (wanted : N) (freed : N) (others : list (NodeInfo * N)) (l : list (string * Ask))
    : list string * N :=
  match l with
  | [] => ([], freed)
  | (service, a) :: l =>
      if (wanted <=? freed)%N then ([], freed)
      else
        match settle a others with
        | Some others =>
            let '(moves, total) := move_out wanted (wrap_u64 (freed + ask_reserve_mib a)) others l in
            (service :: moves, total)
        | None => move_out wanted freed others l
        end
  end.

(** @ hlb-engine/src/reconcile.rs:70-133 [make_room] *)
Definition make_room (wanted : N) (home : NodeInfo) (nodes : list NodeInfo) (tasks : list TaskInfo)
    (asks : gmap string Ask) (held_ : gset string) : list string :=
  let '(moves, freed) := move_out wanted 0 (rooms home nodes tasks asks)
                           (movable home nodes tasks asks held_) in
  if (wanted <=? freed)%N then moves else [].

(** @ hlb-engine/src/reconcile.rs:135-138 [PULL_STUCK_AFTER_SECS] *)
Definition PULL_STUCK_AFTER_SECS : Z := 300.

(** @ hlb-engine/src/reconcile.rs:140-150 [repeated_pull_failure] *)
Definition repeated_pull_failure (now : Z) (t : TaskInfo) : option string :=
  since ← t_updated_at t;
  err ← t_err t;
  if (t_desired_state t ==? "running") && (t_state t ==? "preparing") &&
     (PULL_STUCK_AFTER_SECS <=? now - since)%Z
  then Some err else None.

(** @ hlb-engine/src/reconcile.rs:152-155 [key_id_secret] *)
Definition key_id_secret (app : string) : string := (s3_key_secrets app).1.

(** ** Drifts *)

(** @ hlb-engine/src/reconcile.rs:523-529 [AppBucket] *)
Record AppBucket := { ab_name : string; ab_backed_up : bool }.

(** @ hlb-engine/src/reconcile.rs:159-228 [Drift] *)
Inductive Drift :=
| ServiceMissing (app image : string)
| ReplicasDiverged (app : string) (desired actual : N)
| ImageDiverged (app expected actual : string)
| OrphanService (name : string)
| Converging (app : string) (running : nat) (desired : N)
| NoRoom (app node : string) (moves : list string)
| PullStuck (app error : string)
| Held (app why : string)
| StorageLost (app : string) (buckets : list AppBucket) (key : option string)
| StorageUnread (why : string)
| OrphanCallback (url : string).

(** @ hlb-engine/src/reconcile.rs:231-240 [Drift::is_correctable] *)
Definition is_correctable (d : Drift) : bool :=
  match d with
  | NoRoom _ _ moves => negb (moves ==? [])
  | ReplicasDiverged _ _ _ | ImageDiverged _ _ _ | PullStuck _ _ => true
  | _ => false
  end.

(** @ hlb-engine/src/reconcile.rs:242-265 [Drift::fix] *)
Definition fix_of (d : Drift) : option string :=
  match d with
  | StorageLost app buckets _ =>
      Some (foldl (λ fix_ b, fix_ +:+ ", then hlb backup restore " +:+ app +:+ " " +:+ ab_name b)
              ("hlb redeploy " +:+ app +:+ " --apply") (keep ab_backed_up buckets))
  | OrphanCallback url => Some ("hlb portal drop-callback " +:+ url +:+ " --apply")
  | _ => None
  end.

(** @ hlb-engine/src/reconcile.rs:267-320 [Drift::refusal] *)
Definition drift_refusal (d : Drift) : option string :=
  match d with
  | ReplicasDiverged _ _ _ | ImageDiverged _ _ _ | PullStuck _ _ => None
  | NoRoom _ _ (_ :: _) => None
  | NoRoom _ _ [] => Some
      ("no other node has the memory to take what runs there, and its data keeps it " +:+
       "on this one: it needs a service stopped or a node added, which is a person's choice")
  | ServiceMissing _ _ => Some
      ("recreated here it would lack its volumes, its environment and its " +:+
       "probe, and write its data where nothing keeps it: `hlb install <app> " +:+
       "--apply` rebuilds it whole")
  | OrphanService _ => Some
      ("an orphan is NEVER deleted automatically: this service may hold " +:+
       "data, and a system that over-corrects is more dangerous than one that corrects nothing")
  | Converging _ _ _ => Some
      ("Swarm is converging: progress is transient and gets left alone - " +:+
       "only the instruction is corrected")
  | Held _ _ => Some
      ("stopped on purpose, and started again by whoever stopped it: started " +:+
       "here, it would write to a volume being copied or restored")
  | StorageLost _ _ _ => Some
      ("a key made here would reach neither the vault nor the app's " +:+
       "environment, and an empty bucket holds none of the app's objects: " +:+
       "the redeploy makes them and hands the app its new key, the restore puts the objects back")
  | StorageUnread _ => Some
      "nothing is known of the apps' buckets until Garage answers: nothing is done on a guess"
  | OrphanCallback _ => Some
      ("a callback added by hand reads the same as one left behind, and only a " +:+
       "person knows which this is")
  end.

(** @ hlb-api/src/lib.rs:2868-2884 [DriftHarm] *)
Inductive DriftHarm := Harmless | UnknownHarm | Broken.

(** @ hlb-engine/src/reconcile.rs:335-353 [Drift::harm] *)
Definition harm (d : Drift) : DriftHarm :=
  match d with
  | ServiceMissing _ _ | StorageLost _ _ _ | NoRoom _ _ _ | PullStuck _ _ => Broken
  | StorageUnread _ => UnknownHarm
  | _ => Harmless
  end.

(** @ hlb-engine/src/reconcile.rs:355-369 [Drift::app] *)
Definition drift_app (d : Drift) : string :=
  match d with
  | ServiceMissing app _ | ReplicasDiverged app _ _ | ImageDiverged app _ _ | Converging app _ _
  | Held app _ | NoRoom app _ _ | PullStuck app _ | StorageLost app _ _ => app
  | OrphanService name => name
  | StorageUnread _ => "garage"
  | OrphanCallback _ => PORTAL_SERVICE
  end.

(** @ hlb-engine/src/reconcile.rs:372-448 [Drift::fmt] *)
Definition drift_display (d : Drift) : string :=
  match d with
  | ServiceMissing app image => app +:+ ": service missing, should be running from " +:+ image
  | ReplicasDiverged app desired actual =>
      app +:+ ": " +:+ show_N actual +:+ " " +:+
      (if (actual =? 1)%N then "replica" else "replicas") +:+
      " instructed, the manifest asks for " +:+ show_N desired
  | ImageDiverged app expected actual => app +:+ ": running " +:+ actual +:+ ", expected " +:+ expected
  | OrphanService name => name +:+ ": managed service with no matching app - check before deleting"
  | Converging app running desired =>
      app +:+ ": converging (" +:+ show_nat running +:+ "/" +:+ show_N desired +:+ ")"
  | Held app why => app +:+ ": held stopped — " +:+ why
  | NoRoom app node [] =>
      app +:+ ": stays down, " +:+ node +:+ " holds its data and has no memory left for it"
  | NoRoom app node moves =>
      app +:+ ": stays down, " +:+ node +:+ " holds its data and has no memory left for it — moving " +:+
      join ", " moves +:+ " makes room"
  | PullStuck app error =>
      app +:+ ": stays down, Swarm repeats an old pull failure and will not try again — " +:+ error
  | StorageLost app buckets key =>
      app +:+ ": Garage no longer has " +:+
      join ", " (((λ b, if ab_backed_up b then "its bucket " +:+ ab_name b
                        else "its bucket " +:+ ab_name b +:+ " (not backed up: it comes back empty)")
                    <$> buckets) ++ match key with Some k => [k] | None => [] end) +:+
      " — the app runs against storage that is gone"
  | StorageUnread why => "garage: the apps' buckets could not be read — " +:+ why
  | OrphanCallback url =>
      PORTAL_SERVICE +:+ ": accepts a return to " +:+ url +:+ ", where no installed app is served"
  end.

(** @ hlb-api/src/lib.rs:2844-2861 [DriftSummary] *)
Record DriftSummary := {
  du_target : string; du_description : string; du_corrigible : bool; du_refusal : option string;
  du_fix : option string; du_harm : DriftHarm }.

(** @ hlb-engine/src/reconcile.rs:322-333 [Drift::summary] *)
Definition drift_summary (d : Drift) : DriftSummary :=
  {| du_target := drift_app d; du_description := drift_display d; du_corrigible := is_correctable d;
     du_refusal := drift_refusal d; du_fix := fix_of d; du_harm := harm d |}.

(** @ hlb-api/src/lib.rs:196-203 [Attention] *)
Inductive Attention := AttentionOk | Notice | Critical.

(** @ hlb-api/src/lib.rs:2887-2900 [DriftSummary::attention] *)
Definition drift_attention (s : DriftSummary) : Attention :=
  if du_corrigible s then Notice
  else match du_harm s with Harmless => AttentionOk | UnknownHarm => Notice | Broken => Critical end.

(** @ hlb-engine/src/reconcile.rs:450-455 [Report] *)
Record Report := { re_drifts : list Drift; re_corrected : list Drift; re_failed : list (Drift * string) }.
(** @ hlb-engine/src/reconcile.rs:458-460 [Report::is_clean] *)
Definition is_clean (r : Report) : bool := re_drifts r ==? [].
(** @ hlb-engine/src/reconcile.rs:462-464 [Report::correctable] *)
Definition correctable (r : Report) : list Drift := keep is_correctable (re_drifts r).

(** ** What an app should run *)

(** @ hlb-engine/src/reconcile.rs:467-474 [is_reconcilable] *)
Definition is_reconcilable (status : string) : bool := bool_decide (status ∈ ["running"; "partial"]).

(** @ hlb-engine/src/reconcile.rs:476-483 [Expected] *)
Record Expected := { ex_service : string; ex_image : option string; ex_replicas : N }.

(** @ hlb-engine/src/reconcile.rs:485-521 [expected_services] *)
Definition expected_services (app : string) (m : Manifest) (decided : option N) : list Expected :=
  {| ex_service := app; ex_image := Some (image_reference (sp_image (mf_spec m)));
     ex_replicas := default (sw_replicas (sp_swarm (mf_spec m))) decided |} ::
  ((λ c, {| ex_service := companion_service c app; ex_image := Some (image_reference (co_image c));
            ex_replicas := 1 |}) <$> sp_companions (mf_spec m)) ++
  omap (λ c, match c with
             | Cache engine true =>
                 Some {| ex_service := app +:+ "-" +:+ cache_service_name engine; ex_image := None;
                         ex_replicas := 1 |}
             | _ => None
             end) (sp_requires (mf_spec m)).

(** @ hlb-engine/src/reconcile.rs:546-565 [app_buckets] *)
Definition app_buckets (app : string) (m : Manifest) : list AppBucket :=
  omap (λ c, match c with
             | ObjectStorage bucket backup _ =>
                 Some {| ab_name := bucket_name bucket app; ab_backed_up := backup |}
             | _ => None
             end) (sp_requires (mf_spec m)).

(** @ hlb-engine/src/reconcile.rs:584-612 [portal_callbacks_of] *)
Definition portal_callbacks_of (app domain : string) (m : Manifest) : list string :=
  sp_requires (mf_spec m) ≫= λ need,
    match need with
    | Sso SsoNative redirect_paths =>
        if app ==? PORTAL_SERVICE then (λ p, "https://" +:+ domain +:+ p) <$> redirect_paths else []
    | Sso SsoProxyOnly _ | Sso SsoProxyHeader _ => ["https://" +:+ domain +:+ PORTAL_CALLBACK]
    | _ => []
    end.

(** ** Detecting *)

(** What is asked of Swarm; reading changes nothing. *)
Class Cluster (W : Type) := {
  cl_list : W → result string (list ServiceStatus);
  cl_tasks : W → result string (list TaskInfo);
  cl_nodes : W → result string (list NodeInfo);
  cl_scale : string → N → W → result string () * W;
  cl_update_image : string → string → W → result string () * W;
  cl_reschedule : string → W → result string () * W }.

(** [hlb_objstore::Inventory]. @ hlb-objstore/src/lib.rs:138-145 [Inventory] *)
Record Inventory := { iv_buckets : gset string; iv_keys : gmap string string }.

(** @ hlb-engine/src/lib.rs:51-62 [Error] *)
Inductive EngineError := StateError (e : Journal.Error) | OrchestratorError (why : string) | SecretsError (why : string).

(** @ hlb-orchestrator/src/lib.rs:528-532 [SYSTEM_PREFIX] *)
Definition SYSTEM_PREFIX : string := "hlb-".

(** What is read of the state: a query, without what it leaves. *)
Definition ask {A} (m : db A) (s : Store) : result EngineError A := map_err StateError (m s).1.

(** Every callback an installed app has on the portal's client.
    @ hlb-engine/src/reconcile.rs:614-625 [claimed_callbacks] *)
Definition claimed_callbacks (s : Store) : result EngineError (gset string) :=
  apps ← ask installed_apps s;
  fold_m (λ claimed '(app, _),
    domain ← ask (app_domain app) s;
    match domain with
    | Some domain =>
        m ← ask (app_manifest app) s;
        Ok (claimed ∪ list_to_set (portal_callbacks_of app domain m))
    | None => Ok claimed
    end) ∅ apps.

Section detect.
Context {W : Type} `{!Cluster W}.
(** The state, the clock, and what the reconciler was given: Garage's inventory, the vault's
    decryption, what the portal's client accepts. *)
Context (st : Store) (holds : Holds) (now : Z).
Context (store : option (result string Inventory)).
Context (vault : option (list N → result string string)).
Context (portal : option (result string (option (list string)))).

(** @ hlb-engine/src/reconcile.rs:656-688 [Reconciler::portal_drifts] *)
Definition portal_drifts (apps : list (string * string)) : result EngineError (list Drift) :=
  match portal with
  | None => Ok []
  | Some accepted =>
      if negb (any_of (λ '(name, _), name ==? PORTAL_SERVICE) apps) then Ok []
      else
        match accepted with
        | Ok (Some urls) =>
            claimed ← claimed_callbacks st;
            Ok (OrphanCallback <$> keep (λ url, negb (bool_decide (url ∈ claimed))) urls)
        | Ok None | Err _ => Ok []
        end
  end.

(** @ hlb-engine/src/reconcile.rs:720-746 [Reconciler::storage_drifts] *)
Definition storage_drift (inv : Inventory) (given : string * list AppBucket) : result EngineError (list Drift) :=
  let '(app, buckets) := given in
  let gone := keep (λ b, negb (bool_decide (ab_name b ∈ iv_buckets inv))) buckets in
  key ← match iv_keys inv !! app with
        | None => Ok (Some ("its key " +:+ app))
        | Some id =>
            ct ← ask (secret (key_id_secret app)) st;
            signs_with ← match vault, ct with
                         | Some decrypt, Some ct => Some <$> map_err SecretsError (decrypt ct)
                         | _, _ => Ok None
                         end;
            Ok (match signs_with with
                | Some s => if negb (s ==? id) then
                    Some ("the key " +:+ app +:+ " signs with (a key of that name is another)") else None
                | None => None
                end)
        end;
  Ok (if negb (gone ==? []) || bool_decide (is_Some key) then [StorageLost app gone key] else []).

(** @ hlb-engine/src/reconcile.rs:701-748 [Reconciler::storage_drifts] *)
Definition storage_drifts (given : list (string * list AppBucket)) : result EngineError (list Drift) :=
  match store with
  | None => Ok []
  | Some inventory =>
      if given ==? [] then Ok []
      else
        match inventory with
        | Err why => Ok [StorageUnread why]
        | Ok inv => fold_m (λ acc g, d ← storage_drift inv g; Ok (acc ++ d)) [] given
        end
  end.

(** One expected service against what Swarm lists.
    @ hlb-engine/src/reconcile.rs:774-822 [Reconciler::detect] *)
Definition service_drifts (observed : list ServiceStatus) (e : Expected) : list Drift :=
  match find_first (λ s, st_name s ==? ex_service e) observed with
  | None => [ServiceMissing (ex_service e) (default "" (ex_image e))]
  | Some svc =>
      match held now (ex_service e) holds with
      | Some why =>
          if (st_desired_replicas svc =? ex_replicas e)%N then [] else [Held (ex_service e) why]
      | None =>
          (if negb (st_desired_replicas svc =? ex_replicas e)%N then
             [ReplicasDiverged (ex_service e) (ex_replicas e) (st_desired_replicas svc)]
           else if negb (is_converged svc) then
             [Converging (ex_service e) (st_running_replicas svc) (st_desired_replicas svc)]
           else []) ++
          match ex_image e with
          | Some image =>
              if negb (starts_with image (st_image svc)) && negb (st_image svc ==? image) then
                [ImageDiverged (ex_service e) image (st_image svc)] else []
          | None => []
          end
      end
  end.

(** The drifts, the services known and the storage given so far.
    @ hlb-engine/src/reconcile.rs:761-823 [Reconciler::detect] *)
Definition app_drifts (observed : list ServiceStatus)
    (acc : list Drift * gset string * list (string * list AppBucket)) (app : string * string)
    : result EngineError (list Drift * gset string * list (string * list AppBucket)) :=
  let '(drifts, known, storage) := acc in
  let '(name, status) := app in
  m ← ask (app_manifest name) st;
  decided ← ask (app_replicas name) st;
  let expected := expected_services name m decided in
  let known := known ∪ list_to_set (ex_service <$> expected) in
  if negb (is_reconcilable status) then Ok (drifts, known, storage)
  else
    let buckets := app_buckets name m in
    Ok (drifts ++ (expected ≫= service_drifts observed), known,
        if buckets ==? [] then storage else storage ++ [(name, buckets)]).

(** A convergence Swarm will never finish, as what it is.
    @ hlb-engine/src/reconcile.rs:866-900 [Reconciler::unfinishable_drifts] *)
Definition unfinishable (tasks : list TaskInfo) (nodes : list NodeInfo) (asks : gmap string Ask)
    (held_ : gset string) (d : Drift) : Drift :=
  match d with
  | Converging app _ _ =>
      match find_map (repeated_pull_failure now) (keep (λ t, t_service t ==? app) tasks) with
      | Some error => PullStuck app error
      | None =>
          let starved := any_of (λ t, (t_service t ==? app) && (t_desired_state t ==? "running") &&
            (t_state t ==? "pending") &&
            any_of (contains "insufficient resources") (option_list (t_err t) ++ option_list (t_message t)))
            tasks in
          match starved, find_first (λ n, bool_decide (app ∈ n_data n)) nodes, asks !! app with
          | true, Some home, Some wanted =>
              NoRoom app (n_hostname home)
                (make_room (ask_reserve_mib wanted) home nodes tasks asks held_)
          | _, _, _ => d
          end
      end
  | _ => d
  end.

Definition is_converging (d : Drift) : bool := if d is Converging _ _ _ then true else false.

(** @ hlb-engine/src/reconcile.rs:856-859 [Reconciler::unfinishable_drifts] *)
Definition all_asks (apps : list (string * string)) : result EngineError (gmap string Ask) :=
  fold_m (λ acc '(name, _), m ← ask (app_manifest name) st; Ok (btree_extend acc (service_asks name m)))
    ∅ apps.

(** @ hlb-engine/src/reconcile.rs:842-902 [Reconciler::unfinishable_drifts] *)
Definition unfinishable_drifts (w : W) (apps : list (string * string)) (drifts : list Drift)
    : result EngineError (list Drift) :=
  if negb (any_of is_converging drifts) then Ok drifts
  else
    tasks ← map_err OrchestratorError (cl_tasks w);
    nodes ← map_err OrchestratorError (cl_nodes w);
    asks ← all_asks apps;
    let held_ : gset string := list_to_set (keep (λ s, bool_decide (is_Some (held now s holds))) (t_service <$> tasks)) in
    Ok (unfinishable tasks nodes asks held_ <$> drifts).

(** @ hlb-engine/src/reconcile.rs:829-837 [Reconciler::detect] *)
Definition orphans (observed : list ServiceStatus) (known : gset string) : list Drift :=
  omap (λ s, if negb (bool_decide (st_name s ∈ known)) && negb (starts_with SYSTEM_PREFIX (st_name s))
             then Some (OrphanService (st_name s)) else None) observed.

(** @ hlb-engine/src/reconcile.rs:750-840 [Reconciler::detect] *)
Definition detect (w : W) : result EngineError (list Drift) :=
  apps ← ask installed_apps st;
  observed ← map_err OrchestratorError (cl_list w);
  found ← fold_m (app_drifts observed) ([], ∅, []) apps;
  let '(drifts, known, storage) := found in
  drifts ← unfinishable_drifts w apps drifts;
  lost ← storage_drifts storage;
  left ← portal_drifts apps;
  Ok (drifts ++ lost ++ left ++ orphans observed known).

(** ** Correcting *)

Abbreviation CM := (eff W EngineError).
Definition on_swarm (m : W → result string () * W) : CM () := λ w,
  let '(r, w) := m w in (map_err OrchestratorError r, w).

(** @ hlb-engine/src/reconcile.rs:935-969 [Reconciler::correct] *)
Definition correct (d : Drift) : CM () :=
  match d with
  | ReplicasDiverged app desired _ => on_swarm (cl_scale app desired)
  | ImageDiverged app expected _ => on_swarm (cl_update_image app expected)
  | NoRoom _ _ moves => eff_each (λ s, on_swarm (cl_reschedule s)) moves
  | PullStuck app _ => on_swarm (cl_reschedule app)
  | _ => eff_ret ()
  end.

Definition engine_display (e : EngineError) : string :=
  match e with
  | StateError (Db why) => "state database: " +:+ why
  | StateError (UnknownApp n) => "unknown app " +:+ quoted_str n
  | StateError (VaultChanged names) =>
      "the vault changed while it was being re-encrypted (" +:+ names +:+ ") — nothing was rewritten; " +:+
      "stop whatever writes secrets (the controller) and run it again"
  | OrchestratorError why | SecretsError why => why
  end.

(** One drift corrected, or why it could not be.
    @ hlb-engine/src/reconcile.rs:916-930 [Reconciler::reconcile] *)
Definition correct_one (acc : Report * W) (d : Drift) : Report * W :=
  let '(r, w) := acc in
  match correct d w with
  | (Ok _, w) => ({| re_drifts := re_drifts r; re_corrected := re_corrected r ++ [d];
                     re_failed := re_failed r |}, w)
  | (Err e, w) => ({| re_drifts := re_drifts r; re_corrected := re_corrected r;
                      re_failed := re_failed r ++ [(d, engine_display e)] |}, w)
  end.

(** @ hlb-engine/src/reconcile.rs:904-933 [Reconciler::reconcile] *)
Definition reconcile (apply : bool) : CM Report := λ w,
  match detect w with
  | Err e => (Err e, w)
  | Ok drifts =>
      let report := {| re_drifts := drifts; re_corrected := []; re_failed := [] |} in
      if negb apply then (Ok report, w)
      else let '(r, w) := foldl correct_one (report, w) (keep is_correctable drifts) in (Ok r, w)
  end.
End detect.

(** ** Making room *)

(** Where services are moved: each with what it asks and the node it would fit on. *)
Definition moved : Type := string * Ask * NodeInfo.
Definition demand (l : list moved) : N := foldr (λ '(_, a, _) n, (ask_reserve_mib a + n)%N) 0%N l.
Definition onto (id : string) (l : list moved) : list moved := keep (λ '(_, _, n), n_id n ==? id) l.

Lemma settle_Some a others others' :
  settle a others = Some others' →
  ∃ l1 n free l2, others = l1 ++ (n, free) :: l2 ∧ has_room a (n, free) = true ∧
    others' = l1 ++ (n, free - ask_reserve_mib a)%N :: l2.
Proof.
  revert others'. induction others as [|[n free] others IH]; intros others'; cbn; [done|].
  destruct (has_room a (n, free)) eqn:E.
  - intros [= <-]. by exists [], n, free, others.
  - destruct (settle a others) as [o|]; cbn; [|done]. intros [= <-].
    destruct (IH o eq_refl) as (l1 & m & f & l2 & -> & Hm & ->). by exists ((n, free) :: l1), m, f, l2.
Qed.

Lemma demand_cons s a n l : demand ((s, a, n) :: l) = (ask_reserve_mib a + demand l)%N.
Proof. done. Qed.
Lemma onto_cons id s a n l :
  demand (onto id ((s, a, n) :: l)) = ((if n_id n ==? id then ask_reserve_mib a else 0) + demand (onto id l))%N.
Proof. unfold onto. rewrite keep_cons. by case_bool_decide. Qed.

(** What the loop moves fits where it goes, all of it together. *)
Lemma move_out_spec wanted l : ∀ freed others moves total,
  NoDup (n_id <$> (others.*1)) → move_out wanted freed others l = (moves, total) →
  moves `sublist_of` l.*1 ∧ ∃ ps : list moved, (λ p, p.1.1) <$> ps = moves ∧
    (total ≤ freed + demand ps)%N ∧
    (∀ s a n, (s, a, n) ∈ ps → (s, a) ∈ l ∧ n ∈ others.*1 ∧
       ∃ t, n_tier n = Some t ∧ tier_admits t (ask_tier a) = true) ∧
    ∀ n free, (n, free) ∈ others → (demand (onto (n_id n) ps) ≤ free)%N.
Proof.
  induction l as [|[s a] l IH]; intros freed others moves total Hnd H; cbn in H.
  { injection H as <- <-. split; [done|]. exists []. cbn.
    split_and!; [done|lia| |lia]. intros s a n []%not_elem_of_nil. }
  destruct (N.leb_spec wanted freed).
  { injection H as <- <-. split; [apply sublist_nil_l|]. exists []. cbn.
    split_and!; [done|lia| |lia]. intros s' a' n []%not_elem_of_nil. }
  destruct (settle a others) as [others'|] eqn:Es.
  - destruct (move_out wanted _ others' l) as [moves' total'] eqn:Em. injection H as <- <-.
    apply settle_Some in Es as (l1 & m & free & l2 & -> & Hroom & ->).
    assert (Hids : (l1 ++ (m, (free - ask_reserve_mib a)%N) :: l2).*1 = (l1 ++ (m, free) :: l2).*1)
      by (by rewrite !fmap_app).
    apply IH in Em as (Hsub & ps & Hps & Htot & Hin & Hload); [|by rewrite Hids].
    split; [by constructor|]. exists ((s, a, m) :: ps). unfold has_room in Hroom.
    apply andb_true_iff in Hroom as [Hfree%N.leb_le Htier]. cbn [fst snd] in *. split_and!.
    + cbn. by rewrite Hps.
    + rewrite demand_cons. pose proof (wrap_u64_le (freed + ask_reserve_mib a)). lia.
    + rewrite Hids in Hin. intros s' a' n [[= -> -> ->]|Hp]%elem_of_cons.
      * split; [left|]. split; [rewrite fmap_app; set_solver|]. destruct (n_tier m) as [t|]; [|done]. eauto.
      * apply Hin in Hp as (? & ? & ?). split; [by right|]. done.
    + intros n f Hn. rewrite onto_cons. rewrite fmap_app in Hnd. cbn in Hnd.
      rewrite fmap_app in Hnd. cbn in Hnd. apply NoDup_app in Hnd as (_ & Hd1 & [Hd2 _]%NoDup_cons).
      case_bool_decide as Eid.
      * assert ((n, f) = (m, free)) as [= -> ->].
        { apply elem_of_app in Hn as [Hn|[Hn|Hn]%elem_of_cons]; [|done|].
          - destruct (Hd1 (n_id n)); [|rewrite <- Eid; left].
            apply list_elem_of_fmap. exists n. split; [done|]. apply list_elem_of_fmap. by exists (n, f).
          - destruct Hd2. rewrite Eid. apply list_elem_of_fmap. exists n. split; [done|].
            apply list_elem_of_fmap. by exists (n, f). }
        specialize (Hload m (free - ask_reserve_mib a)%N). rewrite elem_of_app in Hload.
        specialize (Hload (or_intror (list_elem_of_here _ _))). cbn in *. lia.
      * apply Hload. apply elem_of_app in Hn as [Hn|[Hn|Hn]%elem_of_cons]; [by apply elem_of_app; left| |].
        -- injection Hn as -> ->. done.
        -- apply elem_of_app. right. by right.
  - apply IH in H as (Hsub & ps & Hps & Htot & Hin & Hload); [|done].
    split; [by apply sublist_cons|]. exists ps. split_and!; [done..| |done].
    intros s' a' n Hp. apply Hin in Hp as (? & ? & ?). split; [by right|]. done.
Qed.

Section dedup.
Context {A : Type} (cmp : string * A → string * A → comparison).
Context (Hcmp : total_cmp cmp) (Heq : ∀ x y, cmp x y = Eq → x.1 = y.1).

(** A list sorted by an order that tells its keys apart has equal ones side by side. *)
Lemma dedup_after x l :
  StronglySorted (λ x y, cmp x y ≠ Gt) (x :: l) →
  (∀ y z, y ∈ x :: l → z ∈ x :: l → y.1 = z.1 → y = z) →
  NoDup ((dedup_fst (Some x.1) l).*1) ∧ ¬ (x.1 ∈ (dedup_fst (Some x.1) l).*1) ∧
  sublist (dedup_fst (Some x.1) l) l.
Proof.
  revert x. induction l as [|[k a] l IH]; intros x Hs Hkey; cbn.
  { split_and!; [constructor|apply not_elem_of_nil|done]. }
  apply StronglySorted_inv in Hs as [Hl Hx]. rewrite List.Forall_cons_iff in Hx. destruct Hx as [Hxy Hx].
  case_bool_decide as E.
  - injection E as E. destruct (IH x) as (H1 & H2 & H3).
    { constructor; [by apply StronglySorted_inv in Hl as [? _]|done]. }
    { intros y z Hy Hz. apply Hkey; rewrite !elem_of_cons in *; tauto. }
    split_and!; [done..|by apply sublist_cons].
  - destruct (IH (k, a) Hl) as (H1 & H2 & H3); [intros y z Hy Hz; apply Hkey; by right|]. cbn [fst] in *.
    split_and!; [by constructor| |by constructor].
    rewrite fmap_cons, not_elem_of_cons. cbn [fst]. split; [congruence|].
    intros ([k' a'] & Ek & Hin)%list_elem_of_fmap. cbn in Ek. subst k'.
    assert (Hl' : (x.1, a') ∈ l) by (eapply elem_of_sublist; done).
    assert (x = (x.1, a')) as Ex by (apply Hkey; [left|by right; right|done]).
    apply StronglySorted_inv in Hl as [_ Hle]. rewrite List.Forall_forall in Hle.
    specialize (Hle _ (proj1 (list_elem_of_In _ _) Hl')). rewrite <- Ex in Hle.
    apply E. f_equal. apply (Heq x (k, a)). destruct Hcmp as [Hopp _].
    rewrite Hopp in Hle. destruct (cmp x (k, a)); done.
Qed.

Lemma dedup_sorted l :
  (∀ y z, y ∈ l → z ∈ l → y.1 = z.1 → y = z) →
  NoDup ((dedup_fst None (sort_by cmp l)).*1) ∧ ∀ x, x ∈ dedup_fst None (sort_by cmp l) → x ∈ l.
Proof.
  intros Hkey. pose proof (sort_by_total cmp l Hcmp) as Hs. pose proof (sort_by_perm cmp l) as Hp.
  assert (Hmem : ∀ x, x ∈ sort_by cmp l ↔ x ∈ l) by (intros x; by rewrite Hp). clear Hp.
  destruct (sort_by cmp l) as [|[k a] s]; cbn; [by split; [constructor|intros x []%not_elem_of_nil]|].
  rewrite bool_decide_false by done.
  destruct (dedup_after (k, a) s Hs) as (H1 & H2 & H3).
  { intros y z. rewrite !Hmem. apply Hkey. }
  split; [by constructor|]. intros x. rewrite <- Hmem, !elem_of_cons.
  intros [->|Hx]; [by left|right]. by eapply elem_of_sublist.
Qed.
End dedup.

Lemma movable_cmp_total : total_cmp movable_cmp.
Proof.
  apply total_cmp_then.
  - apply (total_cmp_on (λ x : string * Ask, ask_reserve_mib x.2) (λ x y, N.compare y x)).
    apply total_cmp_flip, total_cmp_N.
  - apply (total_cmp_on fst), total_cmp_string.
Qed.

Lemma movable_spec home nodes tasks asks held_ :
  NoDup ((movable home nodes tasks asks held_).*1) ∧
  ∀ s a, (s, a) ∈ movable home nodes tasks asks held_ →
    asks !! s = Some a ∧ ¬ (s ∈ held_) ∧ (∀ n, n ∈ nodes → s ∉ n_data n) ∧
    ∃ t, t ∈ tasks ∧ t_service t = s ∧ is_alive t = true ∧ t_node_id t = Some (n_id home).
Proof.
  unfold movable. set (l := omap _ _).
  assert (Hl : ∀ s a, (s, a) ∈ l → asks !! s = Some a ∧ ¬ (s ∈ held_) ∧ (∀ n, n ∈ nodes → s ∉ n_data n) ∧
    ∃ t, t ∈ tasks ∧ t_service t = s ∧ is_alive t = true ∧ t_node_id t = Some (n_id home)).
  { intros s a (t & Ht & E)%list_elem_of_omap. rewrite !elem_of_keep in Ht.
    destruct Ht as (Hdata & Hheld & Hhome & Hin).
    destruct (asks !! t_service t) as [a'|] eqn:Ea; [|done]. cbn in E. injection E as <- <-.
    rewrite negb_true_iff in Hdata, Hheld. rewrite any_of_false in Hdata.
    apply andb_true_iff in Hhome as [? ?%bool_decide_eq_true].
    split_and!; [done|by apply bool_decide_eq_false in Hheld| |by exists t].
    intros n Hn. specialize (Hdata n Hn). by apply bool_decide_eq_false in Hdata. }
  destruct (dedup_sorted movable_cmp movable_cmp_total) with (l := l) as [H1 H2].
  - intros x y. unfold movable_cmp, then_with. destruct (N.compare_spec (ask_reserve_mib y.2) (ask_reserve_mib x.2)); try done.
    intros Hc. by apply String.compare_eq_iff.
  - intros [s a] [s' a'] (E1 & _)%Hl (E2 & _)%Hl E. cbn in E. subst s'. congruence.
  - split; [done|]. intros s a Hin. apply Hl, H2, Hin.
Qed.

Lemma rooms_spec home nodes tasks asks n free :
  (n, free) ∈ rooms home nodes tasks asks ↔
  n ∈ nodes ∧ n_id n ≠ n_id home ∧ n_status n = "ready" ∧ n_availability n = "active" ∧
  ∃ mb, n_memory_mb n = Some mb ∧ free = (mb - reserved_on tasks asks (n_id n))%N.
Proof.
  unfold rooms. rewrite list_elem_of_omap. split.
  - intros (m & Hm & E). rewrite elem_of_keep, !andb_true_iff, negb_true_iff, bool_decide_eq_false,
      !bool_decide_eq_true in Hm. destruct Hm as (((? & ?) & ?) & ?).
    destruct (n_memory_mb m) as [mb|] eqn:Em; [|done]. cbn in E. injection E as <- <-.
    split_and!; try done. by exists mb.
  - intros (? & ? & ? & ? & mb & E & ->). exists n. rewrite elem_of_keep, !andb_true_iff, negb_true_iff,
      bool_decide_eq_false, !bool_decide_eq_true, E. done.
Qed.

Lemma rooms_ids home nodes tasks asks :
  NoDup (n_id <$> nodes) → NoDup (n_id <$> ((rooms home nodes tasks asks).*1)).
Proof.
  intros Hnd. eapply sublist_NoDup; [exact Hnd|]. unfold rooms. clear Hnd.
  induction nodes as [|n nodes IH]; [done|]. rewrite keep_cons. destruct (_ && _); cbn; [|by apply sublist_cons].
  destruct (n_memory_mb n); cbn; [by constructor|by apply sublist_cons].
Qed.

(** Room is made without breaking anything else: what is moved off a node frees what was
    asked, runs there now, is held by nobody and keeps no data on any node; and each has a
    node to go to, in service and of its tier, which can reserve for all it is given on top of
    what it reserves already. *)
Theorem make_room_spec (wanted : N) (home : NodeInfo) (nodes : list NodeInfo) (tasks : list TaskInfo)
    (asks : gmap string Ask) (held_ : gset string) (Hnd : NoDup (n_id <$> nodes)) :
  let moves := make_room wanted home nodes tasks asks held_ in
  NoDup moves ∧
  (moves ≠ [] → ∃ ps : list moved, (λ p, p.1.1) <$> ps = moves ∧ (wanted ≤ demand ps)%N ∧
    (∀ s a n, (s, a, n) ∈ ps →
       asks !! s = Some a ∧ ¬ (s ∈ held_) ∧ (∀ m, m ∈ nodes → s ∉ n_data m) ∧
       (∃ t, t ∈ tasks ∧ t_service t = s ∧ is_alive t = true ∧ t_node_id t = Some (n_id home)) ∧
       n ∈ nodes ∧ n_id n ≠ n_id home ∧ n_status n = "ready" ∧ n_availability n = "active" ∧
       ∃ t, n_tier n = Some t ∧ tier_admits t (ask_tier a) = true) ∧
    ∀ n mb, n ∈ nodes → n_memory_mb n = Some mb →
      (demand (onto (n_id n) ps) ≤ mb - reserved_on tasks asks (n_id n))%N).
Proof.
  intros moves. unfold moves, make_room. clear moves.
  destruct (movable_spec home nodes tasks asks held_) as [Hmnd Hmov].
  destruct (move_out wanted 0 _ _) as [moves freed] eqn:Em.
  apply move_out_spec in Em as (Hsub & ps & Hps & Htot & Hin & Hload); [|by apply rooms_ids].
  assert (NoDup moves) by by eapply sublist_NoDup.
  destruct (N.leb_spec wanted freed); [|split; [constructor|done]].
  split; [done|]. intros _. exists ps. split_and!; [done|lia| |].
  - intros s a n Hp. apply Hin in Hp as (Hsa & Hn & Ht). apply Hmov in Hsa as (? & ? & ? & ?).
    apply list_elem_of_fmap in Hn as ([n' free] & -> & Hr). apply rooms_spec in Hr as (? & ? & ? & ? & _).
    by split_and!.
  - intros n mb Hn Emb.
    destruct (onto (n_id n) ps) as [|[[s a] m] l] eqn:Eo; [cbn; lia|]. rewrite <- Eo. apply Hload.
    assert (Hm : (s, a, m) ∈ onto (n_id n) ps) by (rewrite Eo; left).
    apply elem_of_keep in Hm as [Em%bool_decide_eq_true Hm]. apply Hin in Hm as (_ & Hm & _).
    apply list_elem_of_fmap in Hm as ([m' free] & -> & Hr). cbn in *. apply rooms_spec in Hr.
    destruct Hr as (Hm' & Hne & Hst & Hav & _). apply rooms_spec.
    assert (n = m') as ->.
    { apply list_elem_of_lookup in Hn as [i Hi], Hm' as [j Hj].
      assert (i = j) as -> by (eapply (NoDup_lookup (n_id <$> nodes)); [done|..]; rewrite list_lookup_fmap;
        [rewrite Hi|rewrite Hj]; cbn; by rewrite ?Em). congruence. }
    split_and!; eauto.
Qed.

(** ** What is compared, and what is touched *)

(** A service reconciliation watches over: one a running app should have. *)
Definition expected_by (st : Store) (e : Expected) : Prop :=
  ∃ app row, t_apps st !! app = Some row ∧ is_reconcilable (row_status row) = true ∧
    e ∈ expected_services app (row_manifest row) (row_replicas row).

Definition app_found (st : Store) (holds : Holds) (now : Z) (observed : list ServiceStatus)
    (app : string * string) : list Drift :=
  let '(name, status) := app in
  match t_apps st !! name with
  | Some row => if is_reconcilable status then
      expected_services name (row_manifest row) (row_replicas row) ≫= service_drifts holds now observed else []
  | None => []
  end.

Lemma app_drifts_found st holds now observed l ds k s ds' k' s' :
  fold_m (app_drifts st holds now observed) (ds, k, s) l = Ok (ds', k', s') →
  ds' = ds ++ (l ≫= app_found st holds now observed).
Proof.
  revert ds k s. induction l as [|[name status] l IH]; intros ds k s; cbn.
  { intros [= -> _ _]. by rewrite app_nil_r. }
  rewrite result_bind_Ok. intros ([[ds1 k1] s1] & H1 & H2). apply IH in H2 as ->.
  unfold app_drifts, ask, app_manifest, app_replicas in H1. cbn in H1.
  destruct (t_apps st !! name) as [row|]; [|done]. cbn in H1.
  destruct (is_reconcilable status); cbn in H1; simplify_result; by rewrite ?app_nil_r, ?app_assoc.
Qed.

Lemma elem_of_installed st name status :
  (name, status) ∈ (λ '(n, r), (n, row_status r)) <$> btree_entries (t_apps st) ↔
  ∃ row, t_apps st !! name = Some row ∧ row_status row = status.
Proof.
  rewrite list_elem_of_fmap. split.
  - intros ([n row] & [= -> ->] & H%elem_of_btree_entries). eauto.
  - intros (row & H & <-). exists (name, row). split; [done|]. by apply elem_of_btree_entries.
Qed.

Section found.
Context {W : Type} `{!Cluster W}.
Context (st : Store) (holds : Holds) (now : Z) (store : option (result string Inventory))
  (vault : option (list N → result string string)) (portal : option (result string (option (list string)))).

#[local] Abbreviation detect := (Reconcile.detect st holds now store vault portal).

Lemma not_converging_kept tasks nodes asks held_ d :
  is_converging d = false → unfinishable now tasks nodes asks held_ d = d.
Proof. by destruct d. Qed.

Lemma storage_inert given lost d :
  storage_drifts st store vault given = Ok lost → d ∈ lost → is_correctable d = false.
Proof.
  unfold storage_drifts. destruct store as [[inv|why]|]; cbn.
  - destruct (given ==? []); [by intros [= <-] []%not_elem_of_nil|]. intros Hf. revert d.
    eapply (fold_m_ind (λ l, ∀ d, d ∈ l → is_correctable d = false)); [|by intros d []%not_elem_of_nil|exact Hf].
    clear Hf. intros acc [app buckets] out _ Hacc H d. rewrite result_bind_Ok in H. destruct H as (ds & Hds & [= <-]).
    intros [Hd|Hd]%elem_of_app; [eauto|]. unfold storage_drift in Hds. rewrite result_bind_Ok in Hds.
    destruct Hds as (key & _ & [= <-]). destruct (_ || _); [|by apply elem_of_nil in Hd].
    by apply list_elem_of_singleton in Hd as ->.
  - destruct (given ==? []); intros [= <-]; [by intros []%not_elem_of_nil|].
    by intros ->%list_elem_of_singleton.
  - by intros [= <-] []%not_elem_of_nil.
Qed.

Lemma portal_inert apps left_ d :
  portal_drifts st portal apps = Ok left_ → d ∈ left_ → is_correctable d = false.
Proof.
  unfold portal_drifts. destruct portal as [accepted|]; [|by intros [= <-] []%not_elem_of_nil].
  destruct (negb _); [by intros [= <-] []%not_elem_of_nil|].
  destruct accepted as [[urls|]|]; [|by intros [= <-] []%not_elem_of_nil..].
  rewrite result_bind_Ok. intros (claimed & _ & [= <-]).
  by intros (url & -> & _)%list_elem_of_fmap.
Qed.

(** What [detect] says of the services expected, read back from a drift it gives. *)
Lemma detect_spec w drifts :
  detect w = Ok drifts →
  ∃ observed, cl_list w = Ok observed ∧
  (∀ d, d ∈ drifts → is_correctable d = true →
     ∃ e d0, expected_by st e ∧ d0 ∈ service_drifts holds now observed e ∧
       (d = d0 ∨ ∃ tasks nodes asks held_, is_converging d0 = true ∧
          cl_tasks w = Ok tasks ∧ cl_nodes w = Ok nodes ∧
          all_asks st ((λ '(n, r), (n, row_status r)) <$> btree_entries (t_apps st)) = Ok asks ∧
          held_ = list_to_set (keep (λ s, bool_decide (is_Some (held now s holds))) (t_service <$> tasks)) ∧
          d = unfinishable now tasks nodes asks held_ d0)) ∧
  (∀ e d, expected_by st e → d ∈ service_drifts holds now observed e → is_converging d = false → d ∈ drifts).
Proof.
  unfold Reconcile.detect, ask, installed_apps. cbn [eff_get fst map_err mbind result_bind].
  set (apps := _ <$> btree_entries (t_apps st)). rewrite result_bind_Ok. intros (observed & Hl & H).
  destruct (cl_list w) as [l|] eqn:El; [|done]. cbn in Hl. injection Hl as <-. exists l. split; [done|].
  rewrite result_bind_Ok in H. destruct H as ([[ds known] storage] & Hf & H).
  apply app_drifts_found in Hf. cbn in Hf. subst ds. set (ds := apps ≫= _) in *.
  rewrite result_bind_Ok in H. destruct H as (ds' & Hu & H).
  rewrite result_bind_Ok in H. destruct H as (lost & Hlost & H).
  rewrite result_bind_Ok in H. destruct H as (left_ & Hleft & [= <-]).
  assert (Hds : ∀ d, d ∈ ds ↔ ∃ e, expected_by st e ∧ d ∈ service_drifts holds now l e).
  { intros d. unfold ds. rewrite list_elem_of_bind. split.
    - intros ([name status] & Hd & Hin). apply elem_of_installed in Hin as (row & Hr & <-).
      unfold app_found in Hd. rewrite Hr in Hd. destruct (is_reconcilable _) eqn:Es; [|by apply elem_of_nil in Hd].
      apply list_elem_of_bind in Hd as (e & Hd & He). exists e. split; [|done]. by exists name, row.
    - intros (e & (name & row & Hr & Hs & He) & Hd). exists (name, row_status row).
      split; [|apply elem_of_installed; eauto]. unfold app_found. rewrite Hr, Hs. apply list_elem_of_bind. eauto. }
  assert (Hrest : ∀ d, d ∈ lost ++ left_ ++ orphans l known → is_correctable d = false).
  { intros d. rewrite !elem_of_app. intros [Hd|[Hd|Hd]].
    - by eapply storage_inert.
    - by eapply portal_inert.
    - unfold orphans in Hd. apply list_elem_of_omap in Hd as (x & _ & E). by destruct (_ && _); simplify_eq. }
  unfold unfinishable_drifts in Hu. destruct (any_of is_converging ds); cbn [negb] in Hu.
  - rewrite result_bind_Ok in Hu. destruct Hu as (tasks & Ht & Hu).
    rewrite result_bind_Ok in Hu. destruct Hu as (nodes & Hn & Hu).
    rewrite result_bind_Ok in Hu. destruct Hu as (asks & Ha & [= <-]).
    destruct (cl_tasks w) as [tasks'|] eqn:Et; [|done]. injection Ht as ->.
    destruct (cl_nodes w) as [nodes'|] eqn:En; [|done]. injection Hn as ->. split.
    + intros d Hd Hc. apply elem_of_app in Hd as [Hd|Hd]; [|by rewrite (Hrest d Hd) in Hc].
      apply list_elem_of_fmap in Hd as (d0 & -> & Hd0). apply Hds in Hd0 as (e & He & Hd0).
      exists e, d0. split_and!; [done..|]. destruct (is_converging d0) eqn:Ec.
      * right. eexists _, _, _, _. by split_and!.
      * left. by apply not_converging_kept.
    + intros e d He Hd Hc. apply elem_of_app. left. apply list_elem_of_fmap. exists d.
      split; [by rewrite not_converging_kept|]. apply Hds. eauto.
  - injection Hu as <-. split.
    + intros d Hd Hc. apply elem_of_app in Hd as [Hd|Hd]; [|by rewrite (Hrest d Hd) in Hc].
      apply Hds in Hd as (e & He & Hd0). exists e, d. auto.
    + intros e d He Hd _. apply elem_of_app. left. apply Hds. eauto.
Qed.

(** What Swarm lists of a service: its instruction and its image. *)
Definition seen (w : W) (s : string) : option (N * string) :=
  match cl_list w with
  | Ok l => (λ x, (st_desired_replicas x, st_image x)) <$> find_first (λ x, st_name x ==? s) l
  | Err _ => None
  end.

Lemma service_drift_cases w observed e d :
  cl_list w = Ok observed → d ∈ service_drifts holds now observed e →
  match d with
  | ReplicasDiverged s n actual =>
      s = ex_service e ∧ n = ex_replicas e ∧ held now s holds = None ∧ actual ≠ n ∧
      ∃ image, seen w s = Some (actual, image)
  | ImageDiverged s image actual =>
      s = ex_service e ∧ ex_image e = Some image ∧ held now s holds = None ∧
      starts_with image actual = false ∧ ∃ n, seen w s = Some (n, actual)
  | Converging s _ _ => s = ex_service e ∧ held now s holds = None
  | NoRoom _ _ _ | PullStuck _ _ => False
  | _ => True
  end.
Proof.
  intros Hl. unfold service_drifts, seen. rewrite Hl.
  destruct (find_first _ observed) as [svc|] eqn:Ef; [|by intros ->%list_elem_of_singleton].
  destruct (held now (ex_service e) holds) as [why|] eqn:Eh.
  { destruct (N.eqb _ _); [by intros []%not_elem_of_nil|by intros ->%list_elem_of_singleton]. }
  intros [Hd|Hd]%elem_of_app.
  - destruct (N.eqb_spec (st_desired_replicas svc) (ex_replicas e)); cbn in Hd.
    + destruct (is_converged svc); [by apply elem_of_nil in Hd|]. by apply list_elem_of_singleton in Hd as ->.
    + apply list_elem_of_singleton in Hd as ->. rewrite Ef. eauto 10.
  - destruct (ex_image e) as [image|] eqn:Ei; [|by apply elem_of_nil in Hd].
    destruct (starts_with image (st_image svc)) eqn:Es; [by apply elem_of_nil in Hd|].
    cbn in Hd. destruct (st_image svc ==? image); [by apply elem_of_nil in Hd|].
    apply list_elem_of_singleton in Hd as ->.
    rewrite Ef. eauto 10.
Qed.

Lemma service_drift_replicas w observed e n image :
  cl_list w = Ok observed → held now (ex_service e) holds = None →
  seen w (ex_service e) = Some (n, image) → n ≠ ex_replicas e →
  ReplicasDiverged (ex_service e) (ex_replicas e) n ∈ service_drifts holds now observed e.
Proof.
  intros Hl Hh. unfold seen, service_drifts. rewrite Hl, Hh.
  destruct (find_first _ observed) as [svc|]; [|done]. cbn. intros [= <- <-] Hne.
  destruct (N.eqb_spec (st_desired_replicas svc) (ex_replicas e)); [done|]. cbn. left.
Qed.

Lemma service_drift_image w observed e n image actual :
  cl_list w = Ok observed → held now (ex_service e) holds = None → ex_image e = Some image →
  seen w (ex_service e) = Some (n, actual) → starts_with image actual = false → actual ≠ image →
  ImageDiverged (ex_service e) image actual ∈ service_drifts holds now observed e.
Proof.
  intros Hl Hh Hi. unfold seen, service_drifts. rewrite Hl, Hh, Hi.
  destruct (find_first _ observed) as [svc|]; [|done]. cbn. intros [= <- <-] Hs Hne.
  rewrite Hs, bool_decide_false by done. apply elem_of_app. right. left.
Qed.

(** ** Hands off *)

(** A service an instruction may be given to: one a running app should have, as it should be,
    that nobody holds. *)
Definition instructed (s : string) (ok : Expected → Prop) : Prop :=
  ∃ e, expected_by st e ∧ ex_service e = s ∧ ok e ∧ held now s holds = None.

(** A service that may be started again elsewhere: an installed app's, that nobody holds and
    whose data is on no node. *)
Definition free_to_move (w : W) (s : string) : Prop :=
  held now s holds = None ∧
  (∃ app row a, t_apps st !! app = Some row ∧ service_asks app (row_manifest row) !! s = Some a) ∧
  ∃ nodes, cl_nodes w = Ok nodes ∧ ∀ n, n ∈ nodes → s ∉ n_data n.

Lemma all_asks_of apps asks s a :
  all_asks st apps = Ok asks → asks !! s = Some a →
  ∃ app row, t_apps st !! app = Some row ∧ service_asks app (row_manifest row) !! s = Some a.
Proof.
  intros H. revert s a.
  eapply (fold_m_ind (λ asks, ∀ s a, asks !! s = Some a →
    ∃ app row, t_apps st !! app = Some row ∧ service_asks app (row_manifest row) !! s = Some a));
    [|by intros s a; rewrite lookup_empty|exact H].
  intros acc [name status] out _ Hacc Ho s a Ha. unfold ask, app_manifest in Ho. cbn in Ho.
  destruct (t_apps st !! name) as [row|] eqn:Er; [|done]. cbn in Ho. injection Ho as <-.
  unfold btree_extend in Ha. rewrite lookup_union_Some_raw in Ha. destruct Ha as [Ha|[_ Ha]]; [eauto|].
  by apply Hacc.
Qed.

(** What one correction asks of Swarm, of which services. *)
Definition permitted (w0 : W) (d : Drift) : Prop :=
  match d with
  | ReplicasDiverged s n _ => instructed s (λ e, ex_replicas e = n)
  | ImageDiverged s image _ => instructed s (λ e, ex_image e = Some image)
  | PullStuck s _ => instructed s (λ _, True)
  | NoRoom _ _ moves => ∀ s, s ∈ moves → free_to_move w0 s
  | _ => True
  end.

Lemma detect_permitted w drifts d :
  (∀ nodes, cl_nodes w = Ok nodes → NoDup (n_id <$> nodes)) →
  detect w = Ok drifts → d ∈ drifts → is_correctable d = true → permitted w d.
Proof.
  intros Hids H Hd Hc. apply detect_spec in H as (observed & Hl & Hfrom & _).
  destruct (Hfrom d Hd Hc) as (e & d0 & He & Hd0 & Hcase).
  pose proof (service_drift_cases w observed e d0 Hl Hd0) as Hs.
  destruct Hcase as [<-|(tasks & nodes & asks & held_ & Hconv & Ht & Hn & Ha & Hheld & ->)].
  - destruct d; try done; cbn in *; [destruct Hs as (-> & -> & Hh & _)|destruct Hs as (-> & Hi & Hh & _)];
      exists e; by split_and!.
  - destruct d0 as [| | | |s running desired| | | | | |]; try done. cbn in Hs, Hc |- *. destruct Hs as [-> Hh].
    destruct (find_map _ _) as [error|]; [by exists e|].
    destruct (any_of _ tasks); [|done]. destruct (find_first _ nodes) as [home|]; [|done].
    destruct (asks !! ex_service e) as [wanted|]; [|done]. cbn. intros s Hs.
    destruct (make_room_spec (ask_reserve_mib wanted) home nodes tasks asks held_ (Hids _ Hn)) as [_ Hroom].
    destruct Hroom as (ps & Hps & _ & Hp & _); [intros E; rewrite E in Hs; by apply elem_of_nil in Hs|].
    rewrite <- Hps in Hs. apply list_elem_of_fmap in Hs as ([[s' a] n] & -> & Hin). cbn.
    destruct (Hp _ _ _ Hin) as (Ha' & Hh' & Hdata & (t & Htask & <- & _) & _). split; [|split].
    + destruct (held now (t_service t) holds) eqn:E; [|done]. destruct Hh'. rewrite Hheld.
      apply elem_of_list_to_set, elem_of_keep. rewrite E. split; [by apply bool_decide_eq_true|].
      apply list_elem_of_fmap. eauto.
    + destruct (all_asks_of _ _ _ _ Ha Ha') as (app & row & ? & ?). eauto.
    + exists nodes. auto.
Qed.

(** C19. Reconciliation keeps its hands off: whatever the steps it takes, each is one of three -
    a service a running app should have told the replicas it should have, or the image, or
    started again - or a service with nowhere its data is moved to make room. An orphan, a
    service held, one no app has, are asked nothing; and nothing at all is when it only looks. *)
Theorem reconcile_hands_off (R : relation W) `{!PreOrder R} (apply : bool) (w : W)
    (Hids : ∀ nodes, cl_nodes w = Ok nodes → NoDup (n_id <$> nodes))
    (Hscale : ∀ s n x, instructed s (λ e, ex_replicas e = n) → R x (cl_scale s n x).2)
    (Himage : ∀ s i x, instructed s (λ e, ex_image e = Some i) → R x (cl_update_image s i x).2)
    (Hagain : ∀ s x, instructed s (λ _, True) ∨ free_to_move w s → R x (cl_reschedule s x).2) :
  R w (reconcile st holds now store vault portal apply w).2 ∧
  (apply = false → (reconcile st holds now store vault portal apply w).2 = w).
Proof.
  unfold reconcile. destruct (detect w) as [drifts|e] eqn:Ed; [|done].
  destruct apply; cbn [negb]; [|done]. split; [|done].
  assert (Hcorrect : ∀ d x, permitted w d → R x (correct d x).2).
  { intros d x Hp. unfold correct, on_swarm. destruct d; cbn in Hp; try reflexivity.
    - specialize (Hscale _ _ x Hp). by destruct (cl_scale _ _ x).
    - specialize (Himage _ _ x Hp). by destruct (cl_update_image _ _ x).
    - revert x. induction moves as [|s moves IH]; intros x; [reflexivity|]. cbn. unfold eff_bind at 1.
      pose proof (Hagain s x (or_intror (Hp s (list_elem_of_here _ _)))) as Hs.
      destruct (cl_reschedule s x) as [[[]|why] x1]; cbn in *; [|done].
      etrans; [exact Hs|]. apply IH. intros t Ht. apply Hp. by right.
    - specialize (Hagain _ x (or_introl Hp)). by destruct (cl_reschedule _ x). }
  assert (Hgo : ∀ l, (∀ d, d ∈ l → permitted w d) → ∀ r x, R x (foldl correct_one (r, x) l).2).
  { induction l as [|d l IH]; intros Hall r x; [reflexivity|]. cbn [foldl].
    pose proof (Hcorrect d x (Hall d (list_elem_of_here _ _))) as Hd. unfold correct_one at 2.
    destruct (correct d x) as [[[]|why] x1]; cbn in Hd; (etrans; [exact Hd|]); apply IH; intros; apply Hall; by right. }
  specialize (Hgo (keep is_correctable drifts)). destruct (foldl _ _ _) as [r' x'] eqn:Ef. cbn.
  rewrite <- (eq_refl : (r', x').2 = x'), <- Ef. apply Hgo.
  intros d [Hc Hd]%elem_of_keep. by eapply detect_permitted.
Qed.

(** ** Convergence *)

Lemma failed_grows r w l r' w' :
  foldl correct_one (r, w) l = (r', w') → re_failed r' = [] → re_failed r = [].
Proof.
  revert r w. induction l as [|d l IH]; intros r w; [by intros [= -> _]|]. cbn [foldl]. unfold correct_one at 2.
  destruct (correct d w) as [[[]|why] w1]; intros H Hf; specialize (IH _ _ H Hf); [done|].
  cbn in IH. by destruct (re_failed r).
Qed.

(** What each correction keeps, and one of them brings, holds once all of them are done. *)
Lemma corrections_bring (good : W → Prop) (fixer : Drift) l r w r' w' :
  (∀ d x x', d ∈ l → good x → correct d x = (Ok (), x') → good x') →
  (∀ x x', correct fixer x = (Ok (), x') → good x') →
  foldl correct_one (r, w) l = (r', w') → re_failed r' = [] → good w ∨ fixer ∈ l → good w'.
Proof.
  intros Hkeep Hfix. revert r w. induction l as [|d l IH]; intros r w; cbn [foldl].
  { intros [= _ <-] _ [Hg|[]%not_elem_of_nil]. done. }
  unfold correct_one at 2. destruct (correct d w) as [[[]|why] w1] eqn:Ec; intros H Hf Hg.
  - eapply IH; [intros; eapply Hkeep; [by right|..]; done|exact H|done|].
    destruct Hg as [Hg|[->|Hg]%elem_of_cons]; [left|left|by right]; [|by eapply Hfix].
    eapply Hkeep; [left|exact Hg|exact Ec].
  - apply failed_grows in H; [|done]. cbn in H. by destruct (re_failed r).
Qed.
End found.

(** Swarm resolves the image it is told: it is read back as it was given, or with its digest
    after it. *)
Definition resolves (given seen_ : string) : Prop :=
  ∃ digest, seen_ = given +:+ digest ∧ (digest = "" ∨ starts_with "@" digest = true).
Lemma resolves_starts given seen_ : resolves given seen_ → starts_with given seen_ = true.
Proof. intros (d & -> & _). apply starts_with_true. by exists d. Qed.

(** What Docker documents of these calls: an instruction taken changes what it names, of the
    service it names; starting a task again changes no instruction. *)
Class ClusterLaws (W : Type) `{!Cluster W} := {
  scale_sets s n w w' : cl_scale s n w = (Ok (), w') → ∀ t,
    seen w' t = if t ==? s then (λ '(_, i), (n, i)) <$> seen w t else seen w t;
  image_sets s i w w' : cl_update_image s i w = (Ok (), w') → ∃ i', resolves i i' ∧ ∀ t,
    seen w' t = if t ==? s then (λ '(n, _), (n, i')) <$> seen w t else seen w t;
  again_keeps s w w' : cl_reschedule s w = (Ok (), w') → ∀ t, seen w' t = seen w t }.

Section converge.
Context {W : Type} `{!Cluster W} `{!ClusterLaws W}.
Context (st : Store) (holds : Holds) (now : Z) (store : option (result string Inventory))
  (vault : option (list N → result string string)) (portal : option (result string (option (list string)))).

Lemma correct_seen (d : Drift) (x x' : W) s :
  correct d x = (Ok (), x') →
  match d with
  | ReplicasDiverged t n _ => seen x' s = if s ==? t then (λ '(_, i), (n, i)) <$> seen x s else seen x s
  | ImageDiverged t i _ => ∃ i', resolves i i' ∧
      seen x' s = if s ==? t then (λ '(n, _), (n, i')) <$> seen x s else seen x s
  | _ => seen x' s = seen x s
  end.
Proof.
  unfold correct, on_swarm. destruct d; try by intros [= <-].
  - destruct (cl_scale app desired x) as [[[]|] x1] eqn:E; [|done]. intros [= <-]. by apply scale_sets.
  - destruct (cl_update_image app expected x) as [[[]|] x1] eqn:E; [|done]. intros [= <-].
    apply image_sets in E as (i' & Hi & E). by exists i'.
  - revert x. induction moves as [|m moves IH]; intros x; [by intros [= <-]|]. cbn. unfold eff_bind.
    destruct (cl_reschedule m x) as [[[]|] x1] eqn:E; cbn; [|done].
    intros H. apply IH in H as ->. by apply (again_keeps m).
  - destruct (cl_reschedule app x) as [[[]|] x1] eqn:E; [|done]. intros [= <-]. by apply (again_keeps app).
Qed.

(** A service instructed as it should be, when Swarm lists it. *)
Definition has_replicas (e : Expected) (x : W) : Prop :=
  ∀ n i, seen x (ex_service e) = Some (n, i) → n = ex_replicas e.
Definition has_image (e : Expected) (image : string) (x : W) : Prop :=
  ∀ n i, seen x (ex_service e) = Some (n, i) → starts_with image i = true ∨ i = image.

(** No two apps should have one service. *)
Context (Hone : ∀ e e', expected_by st e → expected_by st e' → ex_service e = ex_service e' → e = e').

Lemma instructed_same s e (ok : Expected → Prop) :
  expected_by st e → ex_service e = s → instructed st holds now s ok → ok e.
Proof. intros He <- (e' & He' & Es & Hok' & _). by rewrite (Hone e e' He He' (eq_sym Es)). Qed.

Lemma has_replicas_kept e (w : W) d x x' :
  expected_by st e → permitted st holds now w d → has_replicas e x → correct d x = (Ok (), x') →
  has_replicas e x'.
Proof.
  intros He Hp Hx Hc n i. apply (correct_seen _ _ _ (ex_service e)) in Hc.
  destruct d; try (rewrite Hc; by apply Hx).
  - rewrite Hc. case_bool_decide as Es; [|by apply Hx]. destruct (seen x _) as [[]|]; [|done].
    intros [= <- <-]. symmetry. by eapply (instructed_same _ e _ He Es Hp).
  - destruct Hc as (i' & _ & ->). case_bool_decide; [|by apply Hx]. destruct (seen x _) as [[m j]|] eqn:Ex; [|done].
    intros [= <- <-]. by eapply Hx.
Qed.

Lemma has_image_kept e image (w : W) d x x' :
  expected_by st e → ex_image e = Some image → permitted st holds now w d → has_image e image x →
  correct d x = (Ok (), x') → has_image e image x'.
Proof.
  intros He Hi Hp Hx Hc n i. apply (correct_seen _ _ _ (ex_service e)) in Hc.
  destruct d; try (rewrite Hc; by apply Hx).
  - rewrite Hc. case_bool_decide; [|by apply Hx]. destruct (seen x _) as [[m j]|] eqn:Ex; [|done].
    intros [= <- <-]. by eapply Hx.
  - destruct Hc as (i' & Hr & ->). case_bool_decide as Es; [|by apply Hx]. destruct (seen x _) as [[]|]; [|done].
    intros [= <- <-]. left. pose proof (instructed_same _ e _ He Es Hp) as E. cbn in E.
    apply resolves_starts. congruence.
Qed.

(** What a pass that corrected everything leaves. *)
Lemma reconciled (w w' : W) report e :
  (∀ nodes, cl_nodes w = Ok nodes → NoDup (n_id <$> nodes)) →
  reconcile st holds now store vault portal true w = (Ok report, w') → re_failed report = [] →
  expected_by st e → held now (ex_service e) holds = None →
  has_replicas e w' ∧ ∀ image, ex_image e = Some image → has_image e image w'.
Proof.
  intros Hids H Hok He Hh. unfold reconcile in H.
  destruct (detect st holds now store vault portal w) as [found|] eqn:Ed; [|done].
  cbn [negb] in H. destruct (foldl _ _ _) as [r x] eqn:Ef. injection H as -> ->.
  assert (Hperm : ∀ d, d ∈ keep is_correctable found → permitted st holds now w d).
  { intros d [Hc Hd]%elem_of_keep. by eapply detect_permitted. }
  apply detect_spec in Ed as (observed & Hl & _ & Hall).
  assert (Hin : ∀ d, d ∈ service_drifts holds now observed e → is_correctable d = true →
            is_converging d = false → d ∈ keep is_correctable found).
  { intros d Hd Hc Hv. apply elem_of_keep. split; [done|]. by eapply Hall. }
  split; [|intros image Hi].
  - destruct (seen w (ex_service e)) as [[n i]|] eqn:Ew; [destruct (decide (n = ex_replicas e)) as [->|Hne]|].
    all: eapply (corrections_bring (has_replicas e) (ReplicasDiverged (ex_service e) (ex_replicas e) _));
      [intros ??? Hd; by eapply has_replicas_kept; [|apply Hperm]| |exact Ef|done|].
    all: try (intros y y' Hc m j; apply (correct_seen _ _ _ (ex_service e)) in Hc; rewrite Hc, bool_decide_true by done;
      destruct (seen y _) as [[]|]; [|done]; by intros [= <- <-]).
    + left. intros m j. rewrite Ew. by intros [= <- <-].
    + right. apply Hin; [by eapply service_drift_replicas|done..].
    + left. intros m j. by rewrite Ew.
  - destruct (seen w (ex_service e)) as [[n i]|] eqn:Ew;
      [destruct (decide (starts_with image i = true ∨ i = image)) as [Hm|Hm]|].
    all: eapply (corrections_bring (has_image e image) (ImageDiverged (ex_service e) image _));
      [intros ??? Hd; by eapply has_image_kept; [..|apply Hperm]| |exact Ef|done|].
    all: try (intros y y' Hc m j; apply (correct_seen _ _ _ (ex_service e)) in Hc as (i' & Hr & ->); rewrite bool_decide_true by done;
      destruct (seen y _) as [[]|]; [|done]; intros [= <- <-]; left; by apply resolves_starts).
    + left. intros m j. rewrite Ew. by intros [= <- <-].
    + right. apply Hin; [|done..]. eapply service_drift_image; [done..| |].
      * destruct (starts_with image i); [by destruct Hm; left|done].
      * intros E. apply Hm. by right.
    + left. intros m j. by rewrite Ew.
Unshelve. all: first [exact 0%N|exact ""].
Qed.

(** C20. Reconciliation converges, provided no two apps should have one service and no two nodes
    one identifier: once a pass
    that was applied corrected all it set out to, a service an app should have is instructed
    the replicas and the image it should have - the next pass finds no instruction to correct,
    though Swarm lists an image it was told with the digest it resolved it to. *)
Theorem reconcile_converges (w w' : W) (report : Report) (drifts : list Drift)
    (Hids : ∀ nodes, cl_nodes w = Ok nodes → NoDup (n_id <$> nodes))
    (H : reconcile st holds now store vault portal true w = (Ok report, w'))
    (Hok : re_failed report = [])
    (H' : detect st holds now store vault portal w' = Ok drifts) :
  ∀ d, d ∈ drifts → match d with ReplicasDiverged _ _ _ | ImageDiverged _ _ _ => False | _ => True end.
Proof.
  intros d Hd. destruct (is_correctable d) eqn:Hc; [|by destruct d].
  apply detect_spec in H' as (observed & Hl & Hfrom & _).
  destruct (Hfrom d Hd Hc) as (e & d0 & He & Hd0 & [<-|(? & ? & ? & ? & Hconv & _ & _ & _ & _ & ->)]).
  2: { destruct d0; try done. cbn. destruct (find_map _ _); [done|]. by repeat case_match. }
  apply (service_drift_cases holds now w' observed e d Hl) in Hd0. destruct d; try done.
  - destruct Hd0 as (-> & -> & Hh & Hne & image & Hseen).
    by apply Hne, (proj1 (reconciled w w' report e Hids H Hok He Hh) _ _ Hseen).
  - destruct Hd0 as (-> & Hi & Hh & Hs & n & Hseen).
    destruct (proj2 (reconciled w w' report e Hids H Hok He Hh) _ Hi _ _ Hseen) as [E|E]; [congruence|]. subst actual.
    assert (starts_with expected expected = true) by (apply starts_with_true; exists ""; by rewrite append_nil_r).
    congruence.
Qed.
End converge.

(** ** At concrete inputs *)

Module Sample.
(** A manifest of one service that reserves [mib] of memory. *)
Definition image : Image :=
  {| img_repo := "docker.io/gitea"; img_tag := "1.22"; img_digest := None; img_built_here := false;
     img_signed_by := None |}.
Definition manifest (name : string) (mib : N) : Manifest :=
  {| mf_api_version := V1; mf_kind := App;
     mf_metadata := {| md_name := name; md_hlb := None; md_criticality := None;
                       md_display_name := None; md_category := None; md_homepage := None |};
     mf_spec :=
       {| sp_image := image; sp_runtime := Manifest.Swarm; sp_requires := []; sp_ingress := [];
          sp_swarm := {| sw_replicas := 1; sw_healthcheck := None; sw_tier := None; sw_node_label := None;
                         sw_memory := Some {| mem_reserve := {| bytes_n := mib * MIB |};
                                              mem_limit := {| bytes_n := mib * MIB |} |} |};
          sp_update := default_update; sp_companions := [];
          sp_env := ∅; sp_shared_env := ∅; sp_security := default_security; sp_files := [];
          sp_command := []; sp_args := []; sp_process := default_process; sp_assertions := [];
          sp_access := None; sp_recovery := []; sp_jobs := []; sp_downloads := [] |} |}.
Definition row (name status : string) (mib : N) : AppRow :=
  {| row_manifest := manifest name mib; row_domain := None; row_status := status; row_replicas := None |}.
Definition state : Store :=
  set_apps {[ "gitea" := row "gitea" "running" 512; "site" := row "site" "installing" 1024 ]} empty_store.

(** What Swarm lists, its tasks and its nodes. *)
Record swarm := { sm_services : list ServiceStatus; sm_tasks : list TaskInfo; sm_nodes : list NodeInfo }.
Definition with_services (l : list ServiceStatus) (w : swarm) : swarm :=
  {| sm_services := l; sm_tasks := sm_tasks w; sm_nodes := sm_nodes w |}.
Definition on_service (s : string) (f : ServiceStatus → ServiceStatus) (w : swarm) : result string () * swarm :=
  (Ok (), with_services ((λ x, if st_name x ==? s then f x else x) <$> sm_services w) w).
#[global] Instance cluster : Cluster swarm := {|
  cl_list w := Ok (sm_services w); cl_tasks w := Ok (sm_tasks w); cl_nodes w := Ok (sm_nodes w);
  cl_scale s n := on_service s (λ x,
    {| st_name := st_name x; st_id := st_id x; st_desired_replicas := n;
       st_running_replicas := st_running_replicas x; st_global := st_global x; st_image := st_image x;
       st_update_state := st_update_state x |});
  cl_update_image s i := on_service s (λ x,
    {| st_name := st_name x; st_id := st_id x; st_desired_replicas := st_desired_replicas x;
       st_running_replicas := st_running_replicas x; st_global := st_global x; st_image := i +:+ "@sha256:0f";
       st_update_state := st_update_state x |});
  cl_reschedule s w := (Ok (), w) |}.

Lemma on_service_seen s f w t :
  (∀ x, st_name (f x) = st_name x) →
  seen (on_service s f w).2 t =
  match find_first (λ x, st_name x ==? t) (sm_services w) with
  | Some x => Some (if t ==? s then (st_desired_replicas (f x), st_image (f x))
                    else (st_desired_replicas x, st_image x))
  | None => None
  end.
Proof.
  intros Hf. unfold seen. cbn. induction (sm_services w) as [|x l IH]; [done|]. cbn.
  assert (E : st_name (if st_name x ==? s then f x else x) = st_name x)
    by (destruct (st_name x ==? s); [apply Hf|done]).
  rewrite E. destruct (bool_decide_reflect (st_name x = t)) as [<-|Et]; [|exact IH]. cbn. by case_bool_decide.
Qed.

#[global] Instance laws : ClusterLaws swarm.
Proof.
  split.
  - intros s n w w' [= <-] t. change (with_services _ w) with (cl_scale s n w).2.
    cbn [cl_scale cluster]. rewrite on_service_seen by done. unfold seen. cbn.
    destruct (find_first _ _); cbn; by case_bool_decide.
  - intros s i w w' [= <-]. exists (i +:+ "@sha256:0f"). split; [exists "@sha256:0f"; by split; [|right]|]. intros t.
    change (with_services _ w) with (cl_update_image s i w).2. cbn [cl_update_image cluster]. rewrite on_service_seen by done. unfold seen. cbn.
    destruct (find_first _ _); cbn; by case_bool_decide.
  - by intros s w w' [= <-] t.
Qed.

Definition service (name : string) (desired : N) (running : nat) (img : string) : ServiceStatus :=
  {| st_name := name; st_id := name; st_desired_replicas := desired; st_running_replicas := running;
     st_global := false; st_image := img; st_update_state := None |}.
Definition node (id : string) (data : list string) : NodeInfo :=
  {| n_id := id; n_hostname := "host-" +:+ id; n_role := Manager; n_status := "ready";
     n_availability := "active"; n_tier := Some "light"; n_protection := None; n_disk_tangs := [];
     n_is_leader := false; n_memory_mb := Some 2048%N; n_failure_domain := None; n_data := data;
     n_ingress := false; n_addr := None |}.
Definition task (service state : string) (node err : option string) : TaskInfo :=
  {| t_id := service; t_service := service; t_slot := None; t_node_id := node; t_desired_state := "running";
     t_state := state; t_image := ""; t_message := None; t_err := err; t_updated_at := None |}.

(** Gitea pulled up to three replicas of another image, beside a service nobody knows. *)
Definition drifted : swarm :=
  {| sm_services := [service "gitea" 3 3 "docker.io/gitea:1.21"; service "old" 2 2 "docker.io/old:1"];
     sm_tasks := []; sm_nodes := [node "a" []] |}.
(** Gitea waiting for the room the site takes, on the node of its data. *)
Definition crowded : swarm :=
  {| sm_services := [service "gitea" 1 0 "docker.io/gitea:1.22"; service "site" 1 1 "docker.io/gitea:1.22"];
     sm_tasks := [task "site" "running" (Some "a") None;
                  task "gitea" "pending" None (Some "no suitable node (insufficient resources on 1 node)")];
     sm_nodes := [node "a" ["gitea"]; node "b" []] |}.

Definition pass (apply : bool) (w : swarm) := reconcile state ∅ 1000 None None None apply w.

Lemma gitea_only e : expected_by state e →
  e = {| ex_service := "gitea"; ex_image := Some "docker.io/gitea:1.22"; ex_replicas := 1 |}.
Proof.
  intros (app & r & Hr & Hs & He). change (t_apps state) with
    ({[ "gitea" := row "gitea" "running" 512; "site" := row "site" "installing" 1024 ]} : gmap string AppRow) in Hr.
  apply lookup_insert_Some in Hr as [[<- <-]|[_ Hr]].
  - apply list_elem_of_singleton in He as ->. by vm_compute.
  - apply lookup_singleton_Some in Hr as [<- <-]. by vm_compute in Hs.
Qed.
End Sample.

(** The site leaves for the other node: it asks 1024 MiB, and 2048 are free there. *)
Lemma make_room_spec_witness :
  let held_ : gset string := ∅ in
  let asks : gmap string Ask := {[ "site" := {| ask_reserve_mib := 1024; ask_tier := "light" |} ]} in
  make_room 512 (Sample.node "a" ["gitea"]) (Sample.sm_nodes Sample.crowded) (Sample.sm_tasks Sample.crowded) asks held_
    = ["site"] ∧
  ∃ n, n ∈ Sample.sm_nodes Sample.crowded ∧ n_id n ≠ "a".
Proof.
  intros held_ asks.
  assert (E : make_room 512 (Sample.node "a" ["gitea"]) (Sample.sm_nodes Sample.crowded) (Sample.sm_tasks Sample.crowded)
                asks held_ = ["site"]) by (by vm_compute).
  split; [exact E|].
  assert (Hnd : NoDup (n_id <$> Sample.sm_nodes Sample.crowded)) by (apply (bool_decide_unpack _); by vm_compute).
  destruct (make_room_spec 512 (Sample.node "a" ["gitea"]) (Sample.sm_nodes Sample.crowded) (Sample.sm_tasks Sample.crowded)
    asks held_ Hnd) as [_ H].
  rewrite E in H. destruct H as ([|[[s a] n] ps] & Hps & _ & Hin & _); [done|done|].
  destruct (Hin s a n) as (_ & _ & _ & _ & Hn & Hne & _); [left|]. by exists n.
Defined.

(** A service nobody knows is left as it is, whatever is corrected beside it. *)
Lemma reconcile_hands_off_witness :
  seen (Sample.pass true Sample.drifted).2 "old" = Some (2%N, "docker.io/old:1").
Proof.
  assert (Hids : ∀ nodes, cl_nodes Sample.drifted = Ok nodes → NoDup (n_id <$> nodes)).
  { intros nodes [= <-]. apply (bool_decide_unpack _). by vm_compute. }
  pose (R := λ x y : Sample.swarm, seen y "old" = seen x "old").
  assert (HR : PreOrder R) by (split; [by intros x|intros x y z; unfold R; congruence]).
  assert (Hnot : ∀ s ok, instructed Sample.state ∅ 1000 s ok → ("old" ==? s) = false).
  { intros s ok (e & He & <- & _). by rewrite (Sample.gitea_only e He). }
  destruct (reconcile_hands_off Sample.state ∅ 1000 None None None R true Sample.drifted Hids) as [H _].
  - intros s n x Hs. unfold R. destruct (cl_scale s n x) as [[[]|] x'] eqn:E; [|done].
    rewrite (scale_sets s n x x' E). by rewrite (Hnot s _ Hs).
  - intros s i x Hs. unfold R. destruct (cl_update_image s i x) as [[[]|] x'] eqn:E; [|done].
    destruct (image_sets s i x x' E) as (i' & _ & ->). by rewrite (Hnot s _ Hs).
  - done.
  - exact H.
Defined.

(** The pass after finds no instruction to correct. *)
Lemma reconcile_converges_witness :
  ∃ drifts, detect Sample.state ∅ 1000 None None None (Sample.pass true Sample.drifted).2 = Ok drifts ∧
    ReplicasDiverged "gitea" 1 3 ∉ drifts.
Proof.
  destruct (Sample.pass true Sample.drifted) as [[report|] w'] eqn:E.
  2: { assert (Eq : is_ok (Sample.pass true Sample.drifted).1 = true) by (by vm_compute). by rewrite E in Eq. }
  assert (Hok : re_failed report = []).
  { assert (Eq : match (Sample.pass true Sample.drifted).1 with Ok r => re_failed r | Err _ => [] end = [])
      by (by vm_compute). by rewrite E in Eq. }
  assert (Hd : is_ok (detect Sample.state ∅ 1000 None None None (Sample.pass true Sample.drifted).2) = true)
    by (by vm_compute).
  rewrite E in Hd. cbn [snd] in *.
  destruct (detect Sample.state ∅ 1000 None None None w') as [drifts|] eqn:Ed; [|done].
  exists drifts. split; [done|]. intros Hin.
  assert (Hone : ∀ e e', expected_by Sample.state e → expected_by Sample.state e' →
            ex_service e = ex_service e' → e = e').
  { intros e e' H%Sample.gitea_only H'%Sample.gitea_only _. congruence. }
  assert (Hids : ∀ nodes, cl_nodes Sample.drifted = Ok nodes → NoDup (n_id <$> nodes)).
  { intros nodes [= <-]. apply (bool_decide_unpack _). by vm_compute. }
  exact (reconcile_converges Sample.state ∅ 1000 None None None Hone Sample.drifted w' report drifts
    Hids E Hok Ed _ Hin).
Defined.

(** An app being installed is moved to make room for another, where the module's comment says
    an installation in progress is stayed away from. *)
Lemma moves_an_installing_app :
  (row_status <$> t_apps Sample.state !! "site") = Some "installing" ∧
  detect Sample.state ∅ 1000 None None None Sample.crowded = Ok [NoRoom "gitea" "host-a" ["site"]].
Proof. split; by vm_compute. Qed.

(** A service that runs twice on the node it leaves is counted once: room for one of the two is
    enough to send both. *)
Lemma counted_once :
  let twice := [Sample.task "site" "running" (Some "a") None; Sample.task "site" "running" (Some "a") None] in
  let small := {| n_id := "b"; n_hostname := "host-b"; n_role := Manager; n_status := "ready";
     n_availability := "active"; n_tier := Some "light"; n_protection := None; n_disk_tangs := [];
     n_is_leader := false; n_memory_mb := Some 1024%N; n_failure_domain := None; n_data := [];
     n_ingress := false; n_addr := None |} in
  make_room 512 (Sample.node "a" ["gitea"]) [Sample.node "a" ["gitea"]; small] twice
    {[ "site" := {| ask_reserve_mib := 1024; ask_tier := "light" |} ]} ∅ = ["site"].
Proof. by vm_compute. Qed.
