(* ===== verification/Oidc.v ===== *)
(** * Signing in, and confirming with a passkey

    [crates/hlb-identity/src/oidc.rs]: the request a browser is sent away with, the
    destination it comes back to, and the exchange of its code, server to server. The
    network and the JSON reader are the environment's. *)

From S2P Require Import Prelude RustStr Encoding.

(** @ hlb-identity/src/oidc.rs:46-50 [REQUEST_TIMEOUT_S] *)
Definition REQUEST_TIMEOUT_S : Z := 600.
(** @ hlb-identity/src/oidc.rs:52-54 [CONFIRMATION_MAX_AGE_S] *)
Definition CONFIRMATION_MAX_AGE_S : Z := 300.

(** [i64::saturating_sub]. *)
Definition saturating_sub_i64 (a b : Z) : Z :=
  Z.max (-9223372036854775808) (Z.min 9223372036854775807 (a - b)).

(** @ hlb-identity/src/lib.rs:33-54 [Error] *)
Inductive OidcError :=
| Http (source context : string)
| Api (status : N) (detail : string)
| Unauthorized
| Unexpected (why : string).

(** @ hlb-identity/src/oidc.rs:124-140 [Identity] *)
Record Identity := {
  id_sub : string; id_preferred_username : option string; id_email : option string;
  id_name : option string; id_groups : list string }.

(** @ hlb-identity/src/oidc.rs:143-149 [Identity::account_name] *)
Definition account_name (i : Identity) : string := default (id_sub i) (id_preferred_username i).
(** @ hlb-identity/src/oidc.rs:151-153 [Identity::display_name] *)
Definition display_name (i : Identity) : string := default (account_name i) (id_name i).

(** @ hlb-identity/src/oidc.rs:56-62 [Confirmation] *)
Record Confirmation := { cf_identity : Identity; cf_auth_time : Z }.

(** @ hlb-identity/src/oidc.rs:64-76 [Endpoints] *)
Record Endpoints := {
  ep_issuer : string; ep_authorization : string; ep_token : string; ep_userinfo : string;
  ep_end_session : option string }.

(** @ hlb-identity/src/oidc.rs:78-92 [PendingRequest] *)
Record PendingRequest := {
  rq_state : string; rq_check : string; rq_nonce : string; rq_created_at : Z;
  rq_return_to : option string }.

(** @ hlb-identity/src/oidc.rs:95-97 [PendingRequest::is_expired] *)
Definition is_expired (r : PendingRequest) (now : Z) : bool :=
  (REQUEST_TIMEOUT_S <? saturating_sub_i64 now (rq_created_at r))%Z.

(** [char::is_control] of some character: below U+0020, U+007F to U+009F. *)
Fixpoint has_control (s : string) : bool :=
  match s with
  | "" => false
  | String a rest =>
      is_ascii_control a ||
      match rest with
      | String b _ => (byte_of a =? 194)%N && ((128 <=? byte_of b) && (byte_of b <=? 159))%N
      | "" => false
      end || has_control rest
  end.

(** @ hlb-identity/src/oidc.rs:99-121 [PendingRequest::return_onto] *)
Definition return_onto (r : PendingRequest) : string :=
  match rq_return_to r with
  | Some r =>
      if starts_with "/" r && negb (starts_with "//" r)
         && negb (contains_char "\" r || has_whitespace r || has_control r)
      then r else "/"
  | None => "/"
  end.

(** ** The request *)

(** A byte kept as it is in a query.
    @ hlb-identity/src/oidc.rs:528-530 [percent_encode] *)
Definition unreserved (c : ascii) : bool :=
  is_alnum c || bool_decide (c ∈ ["-"; "."; "_"; "~"]%char).

Definition upper_hex (n : N) : ascii := ascii_of_N (if (n <? 10)%N then 48 + n else 55 + n).

(** @ hlb-identity/src/oidc.rs:520-535 [percent_encode] *)
Fixpoint percent_encode (s : string) : string :=
  match s with
  | "" => ""
  | String c s =>
      if unreserved c then String c (percent_encode s)
      else String "%" (String (upper_hex (byte_of c / 16)) (String (upper_hex (byte_of c mod 16))
             (percent_encode s)))
  end.

(** @ hlb-identity/src/oidc.rs:163-171 [Oidc] *)
Record Oidc := {
  oi_endpoints : Endpoints; oi_client_id : string; oi_client_secret : string;
  oi_redirect_uri : string }.

(** @ hlb-identity/src/oidc.rs:315-341 [Oidc::authorize_url] *)
Definition authorize_url (o : Oidc) (state check nonce scope extra : string) : string :=
  let challenge := base64url (sha256 (bytes_of check)) in
  let sep := if contains_char "?" (ep_authorization (oi_endpoints o)) then "&" else "?" in
  ep_authorization (oi_endpoints o) +:+ sep +:+ "response_type=code&client_id=" +:+
  percent_encode (oi_client_id o) +:+ "&redirect_uri=" +:+ percent_encode (oi_redirect_uri o) +:+
  "&scope=" +:+ percent_encode scope +:+ "&state=" +:+ percent_encode state +:+ "&nonce=" +:+
  percent_encode nonce +:+ "&code_challenge=" +:+ percent_encode challenge +:+
  "&code_challenge_method=S256" +:+ extra.

(** @ hlb-identity/src/oidc.rs:256-283 [Oidc::start] *)
Definition start (o : Oidc) (entropy : list N) (return_to : option string) (now : Z)
    : string * PendingRequest :=
  let state := base64url (take 32 entropy) in
  let check := base64url (take 32 (drop 32 entropy)) in
  let nonce := base64url (take 32 (drop 64 entropy)) in
  (authorize_url o state check nonce "openid profile email groups" "",
   {| rq_state := state; rq_check := check; rq_nonce := nonce; rq_created_at := now;
      rq_return_to := return_to |}).

(** @ hlb-identity/src/oidc.rs:285-313 [Oidc::start_confirming] *)
Definition start_confirming (o : Oidc) (entropy : list N) (nonce : string) (now : Z)
    : string * PendingRequest :=
  let state := base64url (take 32 entropy) in
  let check := base64url (take 32 (drop 32 entropy)) in
  (authorize_url o state check nonce "openid"
     ("&prompt=login&max_age=" +:+ show_Z CONFIRMATION_MAX_AGE_S),
   {| rq_state := state; rq_check := check; rq_nonce := nonce; rq_created_at := now;
      rq_return_to := None |}).

(** ** The exchange *)

(** @ hlb-identity/src/oidc.rs:156-161 [TokenResponse] *)
Record TokenResponse := { tk_access_token : string; tk_id_token : option string }.

(** What an answer carries: its status, the length it announces and its body, chunk by
    chunk as it is read. *)
Record Response := {
  rs_status : N; rs_content_length : option N; rs_chunks : list (result string (list N)) }.

(** The claims a confirmation reads of an [id_token]. *)
Record Claims := { cl_nonce : option string; cl_auth_time : option Z }.

(** [StatusCode::is_success]. *)
Definition is_success (status : N) : bool := ((200 <=? status) && (status <? 300))%N.

(** @ hlb-identity/src/oidc.rs:537-539 [MAX_BODY] *)
Definition MAX_BODY : N := (1024 * 1024)%N.

Definition too_large (max : N) : string :=
  "an answer larger than " +:+ show_N max +:+ " bytes, not read".

(** @ hlb-identity/src/oidc.rs:562-568 [bounded] *)
Fixpoint read_chunks (max : N) (body : list N) (chunks : list (result string (list N)))
    : result string (list N) :=
  match chunks with
  | [] => Ok body
  | Err e :: _ => Err e
  | Ok chunk :: chunks =>
      if (max <? N.of_nat (length body) + N.of_nat (length chunk))%N then Err (too_large max)
      else read_chunks max (body ++ chunk) chunks
  end.

(** @ hlb-identity/src/oidc.rs:553-570 [bounded] *)
Definition bounded (r : Response) (max : N) : result string (list N) :=
  if (if rs_content_length r is Some n then (max <? n)%N else false) then Err (too_large max)
  else read_chunks max [] (rs_chunks r).

Section exchange.
(** The HTTP client, and serde's readers. *)
Context (post_form : string → list (string * string) → result string Response)
  (get_bearer : string → string → result string Response)
  (token_of : list N → result string TokenResponse)
  (identity_of : list N → result string Identity)
  (claims_json : list N → option Claims)
  (lossy : list N → string).

(** @ hlb-identity/src/oidc.rs:541-546 [read_json] *)
Definition read_json {T} (reader : list N → result string T) (r : Response) (what : string)
    : result OidcError T :=
  body ← map_err (λ e, Unexpected (what +:+ ": " +:+ e)) (bounded r MAX_BODY);
  map_err (λ e, Unexpected ("unreadable " +:+ what +:+ ": " +:+ e)) (reader body).

(** @ hlb-identity/src/oidc.rs:548-551 [read_text] *)
Definition read_text (r : Response) : string :=
  lossy (if bounded r (64 * 1024) is Ok b then b else []).

(** @ hlb-identity/src/oidc.rs:513-518 [claims_of] *)
Definition claims_of (jwt : string) : option Claims :=
  load ← split_char "." jwt !! 1%nat;
  raw ← base64url_decode load;
  claims_json raw.

(** @ hlb-identity/src/oidc.rs:415-501 [Oidc::exchange] *)
Definition exchange (o : Oidc) (request : PendingRequest) (received_state code : string) (now : Z)
    : result OidcError (option string * Identity) :=
  if negb (constant_eq (rq_state request) received_state) then
    Err (Unexpected ("invalid sign-in state: the response does not match a request " +:+
      "started here (a forged request, or a sign-in begun in another tab)"))
  else if is_expired request now then
    Err (Unexpected ("sign-in request expired (beyond " +:+ show_Z REQUEST_TIMEOUT_S +:+
                     " s) - start again"))
  else
    let form := [("grant_type", "authorization_code"); ("code", code);
                 ("redirect_uri", oi_redirect_uri o); ("client_id", oi_client_id o);
                 ("client_secret", oi_client_secret o); ("code_verifier", rq_check request)] in
    r ← map_err (λ e, Http e "authorisation code exchange")
          (post_form (ep_token (oi_endpoints o)) form);
    if (rs_status r =? 401)%N then Err Unauthorized
    else if negb (is_success (rs_status r)) then
      Err (Api (rs_status r) ("code exchange refused: " +:+ read_text r))
    else
      token ← read_json token_of r "the token endpoint's response";
      r ← map_err (λ e, Http e "reading userinfo")
            (get_bearer (ep_userinfo (oi_endpoints o)) (tk_access_token token));
      if negb (is_success (rs_status r)) then
        Err (Api (rs_status r) ("userinfo refused: " +:+ read_text r))
      else
        identity ← read_json identity_of r "userinfo";
        if str_is_empty (id_sub identity) then
          Err (Unexpected ("userinfo with no " +:+ quoted_str "sub" +:+
            ": an account cannot be linked to an identity stable"))
        else Ok (tk_id_token token, identity).

(** @ hlb-identity/src/oidc.rs:504-511 [nonce_of] *)
Definition nonce_of (jwt : string) : option string := claims_of jwt ≫= cl_nonce.

(** @ hlb-identity/src/oidc.rs:343-377 [Oidc::finish] *)
Definition finish (o : Oidc) (request : PendingRequest) (received_state code : string) (now : Z)
    : result OidcError Identity :=
  '(id_token, identity) ← exchange o request received_state code now;
  match id_token ≫= nonce_of with
  | Some n =>
      if constant_eq (rq_nonce request) n then Ok identity
      else Err (Unexpected "the id_token nonce does not match: replayed response")
  | None => Ok identity
  end.

(** @ hlb-identity/src/oidc.rs:379-413 [Oidc::finish_confirming] *)
Definition finish_confirming (o : Oidc) (request : PendingRequest) (received_state code : string)
    (now : Z) : result OidcError Confirmation :=
  '(id_token, identity) ← exchange o request received_state code now;
  claims ← ok_or (Unexpected "a confirmation answered with no readable id_token")
             (id_token ≫= claims_of);
  if (if cl_nonce claims is Some n then constant_eq (rq_nonce request) n else false) then
    auth_time ← ok_or (Unexpected "the id_token does not say when the passkey was used")
                  (cl_auth_time claims);
    Ok {| cf_identity := identity; cf_auth_time := auth_time |}
  else
    Err (Unexpected ("the passkey confirmed something else: the id_token's nonce is not " +:+
                     "this action's")).
End exchange.

(** ** Where the browser comes back to *)

(** Whatever address a sign-in was asked to come back to, the browser is sent to a path
    of this site: it begins with one slash, and holds no backslash, no whitespace and no
    control character a browser would read as another, so never leads elsewhere. *)
Theorem return_onto_local (r : PendingRequest) :
  ∃ rest, return_onto r = String "/" rest ∧ starts_with "/" rest = false ∧
    contains_char "\" rest = false ∧ has_whitespace rest = false ∧ has_control rest = false.
Proof.
  unfold return_onto. destruct (rq_return_to r) as [s|]; [|by exists ""].
  destruct (starts_with "/" s) eqn:E1; [|by exists ""].
  destruct (starts_with "//" s) eqn:E2; [by exists ""|].
  destruct (contains_char "\" s || _ || _) eqn:E3; [by exists ""|].
  apply starts_with_true in E1 as [rest ->]. change ("/" +:+ rest) with (String "/" rest) in *.
  cbn [andb negb]. exists rest.
  apply orb_false_iff in E3 as [[Hb Hw]%orb_false_iff Hc]. split; [done|].
  split_and!.
  - apply not_true_iff_false. intros [rest' ->]%starts_with_true.
    apply not_true_iff_false in E2. apply E2, starts_with_true. by exists rest'.
  - rewrite contains_char_cons in Hb. by apply orb_false_iff in Hb as [_ ?].
  - cbn in Hw. by apply orb_false_iff in Hw as [_ ?].
  - cbn in Hc. by apply orb_false_iff in Hc as [_ ?].
Qed.

(** ** Queries *)

Definition hex_value (c : ascii) : N :=
  if is_digit c then (byte_of c - 48)%N else (byte_of c - 55)%N.

(** How a server reads a parameter back. *)
Fixpoint percent_decode (s : string) : string :=
  match s with
  | String "%" (String h (String l s)) =>
      String (ascii_of_N (hex_value h * 16 + hex_value l)) (percent_decode s)
  | String c s => String c (percent_decode s)
  | "" => ""
  end.

(** What goes in a query is read back as it was, whatever its bytes, and opens nothing
    else in it: it is written with letters, digits, - . _ ~ and % alone. *)
Theorem percent_encode_roundtrip (s : string) :
  percent_decode (percent_encode s) = s ∧
  str_all (λ c, unreserved c || bool_decide (c = "%"%char)) (percent_encode s) = true.
Proof.
  assert (Hun : ∀ c s, unreserved c = true →
    percent_decode (String c s) = String c (percent_decode s)).
  { by intros [[] [] [] [] [] [] [] []] t Hc. }
  assert (Hhex : ∀ c, ascii_of_N (hex_value (upper_hex (byte_of c / 16)) * 16 +
    hex_value (upper_hex (byte_of c mod 16))) = c) by (by intros [[] [] [] [] [] [] [] []]).
  assert (Hall : ∀ c, unreserved (upper_hex (byte_of c / 16)) = true ∧
    unreserved (upper_hex (byte_of c mod 16)) = true) by (by intros [[] [] [] [] [] [] [] []]).
  induction s as [|c s [IH1 IH2]]; [done|]. cbn [percent_encode].
  destruct (unreserved c) eqn:E.
  - rewrite Hun by done. cbn [str_all]. by rewrite IH1, IH2, E.
  - cbn [percent_decode str_all]. destruct (Hall c) as [-> ->]. by rewrite Hhex, IH1, IH2.
Qed.

(** ** The exchange *)

(** An answer is never read past its bound, whatever length it announces and however it
    comes. *)
Theorem bounded_bound (r : Response) (max : N) (body : list N) (H : bounded r max = Ok body) :
  (N.of_nat (length body) ≤ max)%N ∧ ∃ chunks, rs_chunks r = Ok <$> chunks ∧ body = mjoin chunks.
Proof.
  unfold bounded in H. destruct (if rs_content_length r is Some n then _ else false); [done|].
  assert (Hgo : ∀ chunks acc, (N.of_nat (length acc) ≤ max)%N → read_chunks max acc chunks = Ok body →
    (N.of_nat (length body) ≤ max)%N ∧ ∃ l, chunks = Ok <$> l ∧ body = acc ++ mjoin l).
  { induction chunks as [|[chunk|e] chunks IH]; intros acc Hacc; cbn.
    - intros [= ->]. split; [done|]. exists []. by rewrite app_nil_r.
    - destruct (N.ltb_spec max (N.of_nat (length acc) + N.of_nat (length chunk))); [done|].
      intros Hr. destruct (IH (acc ++ chunk)) as (Hb & l & -> & ->); [rewrite length_app; lia|done|].
      split; [done|]. exists (chunk :: l). by rewrite <- app_assoc.
    - done. }
  apply Hgo in H as (Hb & l & E & ->); [eauto|cbn; lia].
Qed.

Section exchanged.
Context (post_form : string → list (string * string) → result string Response)
  (get_bearer : string → string → result string Response)
  (token_of : list N → result string TokenResponse)
  (identity_of : list N → result string Identity)
  (claims_json : list N → option Claims)
  (lossy : list N → string).

Lemma exchange_Ok o rq state code now id_token who :
  exchange post_form get_bearer token_of identity_of lossy o rq state code now = Ok (id_token, who) →
  rq_state rq = state ∧ (saturating_sub_i64 now (rq_created_at rq) ≤ REQUEST_TIMEOUT_S)%Z ∧
  id_sub who ≠ "" ∧
  ∃ r body, post_form (ep_token (oi_endpoints o))
      [("grant_type", "authorization_code"); ("code", code);
       ("redirect_uri", oi_redirect_uri o); ("client_id", oi_client_id o);
       ("client_secret", oi_client_secret o); ("code_verifier", rq_check rq)] = Ok r ∧
    is_success (rs_status r) = true ∧ bounded r MAX_BODY = Ok body ∧
    ∃ token, token_of body = Ok token ∧ tk_id_token token = id_token.
Proof.
  unfold exchange. destruct (constant_eq (rq_state rq) state) eqn:Es; [|done].
  apply constant_eq_spec in Es. destruct (is_expired rq now) eqn:Ee; [done|].
  apply Z.ltb_ge in Ee. cbn [negb].
  rewrite result_bind_Ok. intros (r & Hr & H).
  destruct (rs_status r =? 401)%N; [done|]. destruct (is_success (rs_status r)) eqn:Eok; [|done].
  cbn [negb] in H. apply result_bind_Ok in H as (token & Ht & H).
  apply result_bind_Ok in H as (r2 & _ & H). destruct (is_success (rs_status r2)); [|done].
  cbn [negb] in H. apply result_bind_Ok in H as (who' & _ & H).
  destruct (str_is_empty (id_sub who')) eqn:Eid; [done|]. injection H as <- <-.
  split_and!; [done|done|by intros Ew; rewrite Ew in Eid|].
  unfold read_json in Ht. apply result_bind_Ok in Ht as (body & Hb & Ht).
  exists r, body. split_and!.
  - unfold map_err in Hr. destruct (post_form _ _); naive_solver.
  - done.
  - unfold map_err in Hb. destruct (bounded r MAX_BODY); naive_solver.
  - exists token. unfold map_err in Ht. destruct (token_of body); naive_solver.
Qed.

(** A passkey confirms one thing at one moment: a confirmation is had only for the request
    begun - its state, within its time - by exchanging the code with the check this side
    alone holds, and only when the token answered carries the nonce asked and says when the
    passkey was used. *)
Theorem finish_confirming_spec (o : Oidc) (rq : PendingRequest) (state code : string) (now : Z)
    (c : Confirmation)
    (H : finish_confirming post_form get_bearer token_of identity_of claims_json lossy
           o rq state code now = Ok c) :
  rq_state rq = state ∧ (saturating_sub_i64 now (rq_created_at rq) ≤ REQUEST_TIMEOUT_S)%Z ∧
  id_sub (cf_identity c) ≠ "" ∧
  ∃ form r body token jwt claims,
    post_form (ep_token (oi_endpoints o)) form = Ok r ∧ ("code", code) ∈ form ∧
    ("code_verifier", rq_check rq) ∈ form ∧ bounded r MAX_BODY = Ok body ∧
    token_of body = Ok token ∧ tk_id_token token = Some jwt ∧
    claims_of claims_json jwt = Some claims ∧
    cl_nonce claims = Some (rq_nonce rq) ∧ cl_auth_time claims = Some (cf_auth_time c).
Proof.
  unfold finish_confirming in H. apply result_bind_Ok in H as ([id_token who] & Hx & H).
  apply exchange_Ok in Hx as (Hs & He & Hid & r & body & Hr & _ & Hb & token & Ht & Hjwt).
  apply result_bind_Ok in H as (claims & Hc & H). apply ok_or_Ok in Hc.
  apply bind_Some in Hc as (jwt & -> & Hc).
  destruct (cl_nonce claims) as [n|] eqn:En; [|done].
  destruct (constant_eq (rq_nonce rq) n) eqn:Eq; [|done]. apply constant_eq_spec in Eq as <-.
  apply result_bind_Ok in H as (t & Hauth & H). apply ok_or_Ok in Hauth. injection H as <-. cbn.
  split_and!; [done..|]. eexists _, r, body, token, jwt, claims.
  split_and!; try done; set_solver.
Qed.
End exchanged.

(** ** One exchange *)

Module Sample.
Definition endpoints : Endpoints := {|
  ep_issuer := "https://id.example"; ep_authorization := "https://id.example/authorize";
  ep_token := "https://id.example/token"; ep_userinfo := "https://id.example/userinfo";
  ep_end_session := None |}.
Definition issuer : Oidc := {|
  oi_endpoints := endpoints; oi_client_id := "hlb"; oi_client_secret := "secret";
  oi_redirect_uri := "https://hlb.example/auth/confirmed" |}.
Definition response (body : string) : Response :=
  {| rs_status := 200; rs_content_length := Some (N.of_nat (String.length body));
     rs_chunks := [Ok (bytes_of body)] |}.
Definition post (_ : string) (_ : list (string * string)) : result string Response :=
  Ok (response "token").
Definition get (_ _ : string) : result string Response := Ok (response "alice").
(** The token's payload is the nonce of the request, as [base64url]. *)
Definition token_with (nonce : string) (body : list N) : result string TokenResponse :=
  Ok {| tk_access_token := "access";
        tk_id_token := Some ("head." +:+ base64url (bytes_of nonce) +:+ ".signature") |}.
Definition text_of (bytes : list N) : string := of_chars (ascii_of_N <$> bytes).
Definition identity (body : list N) : result string Identity :=
  Ok {| id_sub := text_of body; id_preferred_username := None; id_email := None;
        id_name := None; id_groups := [] |}.
Definition claims (at_ : Z) (raw : list N) : option Claims :=
  Some {| cl_nonce := Some (text_of raw); cl_auth_time := Some at_ |}.
Definition request : PendingRequest := {|
  rq_state := "state"; rq_check := "check"; rq_nonce := "nonce"; rq_created_at := 1000;
  rq_return_to := None |}.
End Sample.

Lemma bounded_bound_witness :
  (N.of_nat (length [1; 2; 3]%N) ≤ 4)%N ∧ ∃ chunks, [Ok [1; 2]%N; Ok [3]%N] = Ok (E := string) <$> chunks ∧
    [1; 2; 3]%N = mjoin chunks.
Proof.
  apply (bounded_bound {| rs_status := 200; rs_content_length := None;
    rs_chunks := [Ok [1; 2]%N; Ok [3]%N] |} 4). reflexivity.
Defined.

Lemma finish_confirming_spec_witness :
  rq_state Sample.request = "state" ∧
  (saturating_sub_i64 1100 (rq_created_at Sample.request) ≤ REQUEST_TIMEOUT_S)%Z.
Proof.
  assert (E : finish_confirming Sample.post Sample.get (Sample.token_with "nonce") Sample.identity
    (Sample.claims 1050) Sample.text_of Sample.issuer Sample.request "state" "code" 1100 =
    Ok {| cf_identity := {| id_sub := "alice"; id_preferred_username := None; id_email := None;
            id_name := None; id_groups := [] |}; cf_auth_time := 1050 |}) by (by vm_compute).
  destruct (finish_confirming_spec _ _ _ _ _ _ _ _ _ _ _ _ E) as (Hs & Ht & _). by split.
Defined.
