(* ===== verification/Archive.v ===== *)
(** * The record of the backups

    The tables of [crates/hlb-state/src/lib.rs] a backup pass writes and everything about backups
    reads: each attempt with its destination, the snapshots taken, the destinations declared and
    what is routed to them, the restores verified and the proofs of what can be erased. The time
    is an argument, in seconds: a row's is text in the database, in the same order. *)

From S2P Require Import Prelude RustStr Journal.

#[local] Open Scope hlb_scope.
#[local] Open Scope Z_scope.

(** ** Kinds *)

(** @ hlb-state/src/lib.rs:22-37 [backup_kind] *)
Definition VOLUME : string := "volume".
Definition SQLITE : string := "sqlite-snapshot".
Definition SQL_DUMP : string := "sql-dump".
Definition STATE : string := "state".
Definition BUCKET : string := "bucket".

(** ** Tables *)

(** An attempt; it failed when it has an error. The rows are in the order of their ids. *)
Record Run := { ru_app : string; ru_kind : string; ru_destination : option string;
  ru_snapshot : option string; ru_error : option string; ru_finished : Z }.
Record DestinationRow := { dr_location : string; dr_classes : string; dr_secret : option string }.
Record Verification := { ve_app : string; ve_snapshot : string; ve_ok : bool; ve_detail : option string; ve_at : Z }.
Record ProofRow := { pf_location : string; pf_verdict : string; pf_detail : string; pf_at : Z }.

(** The routes are a set of applications, classes and destinations: a primary key. *)
Record Archive := {
  a_runs : list Run; a_taken : gmap string (string * string); a_destinations : gmap string DestinationRow;
  a_routes : gset (string * string * string); a_verifications : list Verification;
  a_proofs : gmap string ProofRow }.

Definition empty_archive : Archive :=
  {| a_runs := []; a_taken := ∅; a_destinations := ∅; a_routes := ∅; a_verifications := []; a_proofs := ∅ |}.

Definition set_runs (l : list Run) (a : Archive) : Archive :=
  {| a_runs := l; a_taken := a_taken a; a_destinations := a_destinations a; a_routes := a_routes a;
     a_verifications := a_verifications a; a_proofs := a_proofs a |}.
Definition set_taken (m : gmap string (string * string)) (a : Archive) : Archive :=
  {| a_runs := a_runs a; a_taken := m; a_destinations := a_destinations a; a_routes := a_routes a;
     a_verifications := a_verifications a; a_proofs := a_proofs a |}.
Definition set_destinations (m : gmap string DestinationRow) (a : Archive) : Archive :=
  {| a_runs := a_runs a; a_taken := a_taken a; a_destinations := m; a_routes := a_routes a;
     a_verifications := a_verifications a; a_proofs := a_proofs a |}.
Definition with_routes (r : gset (string * string * string)) (a : Archive) : Archive :=
  {| a_runs := a_runs a; a_taken := a_taken a; a_destinations := a_destinations a; a_routes := r;
     a_verifications := a_verifications a; a_proofs := a_proofs a |}.

(** ** Attempts *)

Definition succeeded (r : Run) : bool := bool_decide (ru_error r = None).

(** @ hlb-state/src/lib.rs:1641-1661 [State::record_backup] *)
Definition record_backup (now : Z) (app kind : string) (snapshot error : option string) (a : Archive) : Archive :=
  set_runs (a_runs a ++ [{| ru_app := app; ru_kind := kind; ru_destination := None; ru_snapshot := snapshot;
                            ru_error := error; ru_finished := now |}]) a.

(** The first to record an id keeps it ([INSERT OR IGNORE]).
    @ hlb-state/src/lib.rs:1792-1808 [State::record_snapshot] *)
Definition record_snapshot (app destination id : string) (a : Archive) : Archive :=
  set_taken (if a_taken a !! id is Some _ then a_taken a else <[id := (app, destination)]> (a_taken a)) a.

(** @ hlb-state/src/lib.rs:1761-1790 [State::record_backup_to] *)
Definition record_backup_to (now : Z) (app kind destination : string) (snapshot error : option string)
    (a : Archive) : Archive :=
  let a := set_runs (a_runs a ++ [{| ru_app := app; ru_kind := kind; ru_destination := Some destination;
             ru_snapshot := snapshot; ru_error := error; ru_finished := now |}]) a in
  match snapshot, error with
  | Some id, None => record_snapshot app destination id a
  | _, _ => a
  end.

(** The successes of a kind, on a destination or anywhere. *)
Definition successes (app kind : string) (destination : option string) (a : Archive) : list Run :=
  keep (λ r, (ru_app r ==? app) && (ru_kind r ==? kind) && succeeded r &&
             match destination with None => true | Some d => ru_destination r ==? Some d end) (a_runs a).
(** @ hlb-state/src/lib.rs:1730-1745 [State::seconds_since_last_success_of] *)
Definition age_of_kind (now : Z) (app : string) (destination : option string) (a : Archive) (kind : string) : option Z :=
  (λ m, now - m) <$> max_Z (ru_finished <$> successes app kind destination a).
(** @ hlb-state/src/lib.rs:1729-1752 [State::seconds_since_last_success_of] *)
Fixpoint oldest_age (ages : list (option Z)) (oldest : option Z) : option Z :=
  match ages with
  | [] => oldest
  | None :: _ => None
  | Some age :: ages => oldest_age ages (Some (match oldest with None => age | Some o => Z.max o age end))
  end.
(** @ hlb-state/src/lib.rs:1713-1752 [State::seconds_since_last_success_of] *)
Definition seconds_since_last_success_of (now : Z) (app : string) (kinds : list string)
    (destination : option string) (a : Archive) : option Z :=
  oldest_age (age_of_kind now app destination a <$> kinds) None.
(** @ hlb-state/src/lib.rs:1754-1759 [State::backup_age] *)
Definition backup_age (now : Z) (app : string) (a : Archive) : db (option Z) :=
  let! kinds := backup_kinds app in
  eff_ret (seconds_since_last_success_of now app kinds None a).

(** The attempts on a destination, each with its id. *)
Definition attempts_on (app destination : string) (a : Archive) : list (nat * Run) :=
  keep (λ '(_, r), (ru_app r ==? app) && (ru_destination r ==? Some destination))
    (zip (seq 1 (length (a_runs a))) (a_runs a)).
(** @ hlb-state/src/lib.rs:1999-2026 [State::consecutive_failures_on] *)
Definition consecutive_failures_on (app destination : string) (a : Archive) : nat :=
  let rows := attempts_on app destination a in
  let last_ok := foldr (λ '(id, r) m, if succeeded r then Nat.max id m else m) 0%nat rows in
  length (keep (λ '(id, r), negb (succeeded r) && (last_ok <? id)%nat) rows).

(** @ hlb-state/src/lib.rs:1884-1893 [State::snapshots_taken] *)
Definition snapshots_taken (app : string) (a : Archive) : gset string :=
  dom (filter (λ p : string * (string * string), p.2.1 = app) (a_taken a)).

(** ** Destinations and routes *)

(** @ hlb-state/src/lib.rs:2028-2048 [State::upsert_destination] *)
Definition upsert_destination (name location classes : string) (secret : option string) (a : Archive) : Archive :=
  set_destinations (<[name := {| dr_location := location; dr_classes := classes; dr_secret := secret |}]>
    (a_destinations a)) a.
(** @ hlb-state/src/lib.rs:2050-2059 [State::set_destination_classes] *)
Definition set_destination_classes (name classes : string) (a : Archive) : bool * Archive :=
  match a_destinations a !! name with
  | Some r => (true, set_destinations (<[name := {| dr_location := dr_location r; dr_classes := classes;
                                                    dr_secret := dr_secret r |}]> (a_destinations a)) a)
  | None => (false, a)
  end.
(** @ hlb-state/src/lib.rs:2061-2081 [State::destinations] *)
Definition destinations (a : Archive) : list (string * DestinationRow) := btree_entries (a_destinations a).
(** Its routes go with it ([ON DELETE CASCADE]).
    @ hlb-state/src/lib.rs:2083-2089 [State::remove_destination] *)
Definition remove_destination (name : string) (a : Archive) : Archive :=
  with_routes (filter (λ r : string * string * string, r.2 ≠ name) (a_routes a))
    (set_destinations (delete name (a_destinations a)) a).

(** A route names a destination declared, and is written once. *)
Definition insert_route (app class : string) (a : Archive) (d : string) : result string Archive :=
  if bool_decide (a_destinations a !! d = None) then Err "FOREIGN KEY constraint failed"
  else if bool_decide ((app, class, d) ∈ a_routes a) then Err "UNIQUE constraint failed"
  else Ok (with_routes ({[ (app, class, d) ]} ∪ a_routes a) a).
(** One class's routes, in the place of those it had.
    @ hlb-state/src/lib.rs:2104-2122 [State::set_routes] *)
Definition replace_route (app : string) (a : Archive) (route : string * list string) : result string Archive :=
  let a := with_routes (filter (λ r : string * string * string, r.1 ≠ (app, route.1)) (a_routes a)) a in
  fold_m (insert_route app route.1) a route.2.
(** A transaction: what fails changes nothing.
    @ hlb-state/src/lib.rs:2100-2125 [State::set_routes] *)
Definition set_routes (app : string) (routes : list (string * list string)) : eff Archive string () := λ a,
  match fold_m (replace_route app) a routes with
  | Ok a' => (Ok (), a')
  | Err e => (Err e, a)
  end.
(** @ hlb-state/src/lib.rs:2091-2098 [State::set_route] *)
Definition set_route (app class : string) (ds : list string) : eff Archive string () := set_routes app [(class, ds)].
(** @ hlb-state/src/lib.rs:2126-2140 [State::route] *)
Definition route (app class : string) (a : Archive) : list string :=
  btree_elems (set_omap (λ r : string * string * string, if r.1 ==? (app, class) then Some r.2 else None) (a_routes a)).

(** ** Proofs and verifications *)

(** @ hlb-state/src/lib.rs:1810-1838 [State::record_destination_proof] *)
Definition record_destination_proof (destination location verdict detail : string) (at_ : Z) (a : Archive) : Archive :=
  {| a_runs := a_runs a; a_taken := a_taken a; a_destinations := a_destinations a; a_routes := a_routes a;
     a_verifications := a_verifications a;
     a_proofs := <[destination := {| pf_location := location; pf_verdict := verdict; pf_detail := detail;
                                     pf_at := at_ |}]> (a_proofs a) |}.
(** @ hlb-state/src/lib.rs:1840-1855 [State::destination_proof] *)
Definition destination_proof (destination location : string) (a : Archive) : option (string * string * Z) :=
  p ← a_proofs a !! destination;
  if pf_location p ==? location then Some (pf_verdict p, pf_detail p, pf_at p) else None.

(** @ hlb-state/src/lib.rs:2820-2845 [State::record_verification] *)
Definition record_verification (now : Z) (app snapshot : string) (ok : bool) (detail : option string) (a : Archive) : Archive :=
  {| a_runs := a_runs a; a_taken := a_taken a; a_destinations := a_destinations a; a_routes := a_routes a;
     a_verifications := a_verifications a ++
       [{| ve_app := app; ve_snapshot := snapshot; ve_ok := ok; ve_detail := detail; ve_at := now |}];
     a_proofs := a_proofs a |}.
(** @ hlb-state/src/lib.rs:2847-2858 [State::seconds_since_last_verification] *)
Definition seconds_since_last_verification (now : Z) (app : string) (a : Archive) : option Z :=
  (λ m, now - m) <$> max_Z (ve_at <$> keep (λ v, (ve_app v ==? app) && ve_ok v) (a_verifications a)).
(** @ hlb-state/src/lib.rs:2860-2871 [State::seconds_since_last_verification_attempt] *)
Definition seconds_since_last_verification_attempt (now : Z) (app : string) (a : Archive) : option Z :=
  (λ m, now - m) <$> max_Z (ve_at <$> keep (λ v, ve_app v ==? app) (a_verifications a)).
(** @ hlb-state/src/lib.rs:2873-2888 [State::last_verification_failed] *)
Definition last_verification_failed (app : string) (a : Archive) : bool :=
  match last (keep (λ v, ve_app v ==? app) (a_verifications a)) with
  | Some v => negb (ve_ok v)
  | None => false
  end.
