(* ===== verification/Destination.v ===== *)
(** * Where backups go, and what they are worth

    [crates/hlb-backup/src/destination.rs], [restorability.rs], [drill.rs], [erasure.rs] and the
    state as they read it ([crates/hlb-backup-run/src/coverage.rs]): which destinations receive
    what, how fresh each is, whether what is there would come back, what may be drilled on, and
    whether a destination can be erased by who writes to it. *)

From S2P Require Import Prelude RustStr Journal Archive Calendar Pitr.

#[local] Open Scope hlb_scope.
#[local] Open Scope Z_scope.

(** ** Classes *)

(** @ hlb-backup/src/destination.rs:34-47 [Class] *)
Inductive Class_ := Critical | Bulky.
#[global] Instance Class_eq_dec : EqDecision Class_.
Proof. solve_decision. Defined.

(** @ hlb-backup/src/destination.rs:50-55 [Class::name] *)
Definition class_name (c : Class_) : string := match c with Critical => "critical" | Bulky => "bulky" end.
(** @ hlb-backup/src/destination.rs:57-67 [Class::parse] *)
Definition class_parse (s : string) : option Class_ :=
  let l := to_ascii_lowercase (trim s) in
  if bool_decide (l ∈ ["critical"; "dumps"]) then Some Critical
  else if bool_decide (l ∈ ["bulky"; "volumes"; "bulk"]) then Some Bulky else None.

(** ** Destinations *)

(** @ hlb-backup/src/destination.rs:70-81 [Destination] *)
Record Destination := { de_name : string; de_location : string; de_classes : list Class_;
  de_credentials_secret : option string }.
#[global] Instance Destination_eq_dec : EqDecision Destination.
Proof. solve_decision. Defined.

(** @ hlb-backup/src/destination.rs:84-93 [Destination::is_s3] *)
Definition is_s3 (d : Destination) : bool :=
  let l := trim_start (de_location d) in starts_with "s3:" l || starts_with "s3s:" l.
(** @ hlb-backup/src/destination.rs:95-102 [Destination::is_remote] *)
Definition is_remote (d : Destination) : bool := is_s3 d || starts_with "rest:" (trim_start (de_location d)).
(** @ hlb-backup/src/destination.rs:104-106 [Destination::accepts] *)
Definition accepts (d : Destination) (c : Class_) : bool := bool_decide (c ∈ de_classes d).

(** @ hlb-backup/src/destination.rs:108-125 [Destination::masked_location] *)
Definition masked_location (d : Destination) : string :=
  match split_once "@" (de_location d) with
  | Some (before, after) =>
      match find_str "://" before with
      | Some (schema, _) => schema +:+ "://••••@" +:+ after
      | None => de_location d
      end
  | None => de_location d
  end.
(** @ hlb-backup/src/destination.rs:127-141 [Destination::describe] *)
Definition describe (d : Destination) : string :=
  match de_classes d with
  | [] => de_name d +:+ " -> " +:+ masked_location d +:+ "  ⚠️ accepts NO class: nothing will be sent there"
  | classes => de_name d +:+ " -> " +:+ masked_location d +:+ "  [" +:+ join ", " (class_name <$> classes) +:+ "]"
  end.

(** @ hlb-backup/src/destination.rs:143-175 [Destination::env] *)
Definition env (d : Destination) (credentials : option string) : result string (list (string * string)) :=
  if negb (is_s3 d) then Ok []
  else match credentials with
  | None => Err ("destination " +:+ quoted_str (de_name d) +:+ ": S3 repository with no credentials. Store them with " +:+
      quoted_str ("hlb backup dest add " +:+ de_name d +:+ " --location … --access-key …"))
  | Some id =>
      match split_once ":" id with
      | None => Err ("destination " +:+ quoted_str (de_name d) +:+ ": unreadable credentials, expected format " +:+
                     quoted_str "access_key:secret_key")
      | Some (key, secret) => Ok [("AWS_ACCESS_KEY_ID", key); ("AWS_SECRET_ACCESS_KEY", secret)]
      end
  end.

(** A container restic runs in.
    @ hlb-backup/src/runner.rs:149-160 [ContainerRunner] *)
Record ContainerRunner := { cr_image : string; cr_mounts : list (string * string); cr_network : option string }.
(** @ hlb-backup/src/runner.rs:176-179 [ContainerRunner::mount] *)
Definition mount (r : ContainerRunner) (host container : string) : ContainerRunner :=
  {| cr_image := cr_image r; cr_mounts := cr_mounts r ++ [(host, container)]; cr_network := cr_network r |}.
(** @ hlb-backup/src/runner.rs:188-215 [ContainerRunner::docker] *)
Definition docker_command (r : ContainerRunner) (arguments : list string) (vars : list (string * string))
    (name : option string) : Command :=
  let cmd := {| args := ["run"; "--rm"]; envs := [] |} in
  let cmd := if name is Some n then arg cmd ["-i"; "--name"; n] else cmd in
  let cmd := pass_by_name cmd vars in
  let cmd := arg cmd (concat ((λ '(h, c), ["-v"; h +:+ ":" +:+ c]) <$> cr_mounts r)) in
  let cmd := if cr_network r is Some n then arg cmd ["--network"; n] else cmd in
  arg cmd (cr_image r :: arguments).

(** @ hlb-backup/src/destination.rs:178-200 [Destination::runner] *)
Definition runner (image : string) (d : Destination) (network : option string) : ContainerRunner * string :=
  let r := {| cr_image := image; cr_mounts := []; cr_network := None |} in
  if is_remote d then
    (match network with
     | Some n => {| cr_image := image; cr_mounts := []; cr_network := Some n |}
     | None => r
     end, de_location d)
  else (mount r (de_location d) "/repo", "/repo").

(** ** Freshness *)

(** @ hlb-backup/src/destination.rs:203-220 [State] *)
Inductive Freshness := Never | Fresh (age_s : Z) | Stale (age_s : Z).
#[global] Instance Freshness_eq_dec : EqDecision Freshness.
Proof. solve_decision. Defined.
(** @ hlb-backup/src/destination.rs:222-229 [State::judge] *)
Definition judge (age_s : option Z) (threshold_s : Z) : Freshness :=
  match age_s with
  | None => Never
  | Some a => if threshold_s <? a then Stale a else Fresh a
  end.
(** @ hlb-backup/src/destination.rs:231-233 [State::is_alarming] *)
Definition is_alarming (s : Freshness) : bool := match s with Fresh _ => false | _ => true end.
Definition is_fresh (s : Freshness) : bool := match s with Fresh _ => true | _ => false end.

(** @ hlb-backup/src/destination.rs:236-244 [Coverage] *)
Record Coverage := { cv_app : string; per_destination : list (string * Freshness); cv_classes : list Class_ }.
(** @ hlb-backup/src/destination.rs:247-254 [Coverage::needs_backup] *)
Definition needs_backup (c : Coverage) : bool := negb (bool_decide (cv_classes c = [])).
(** How bad a state is: the negation of [i64] wraps at its least value.
    @ hlb-backup/src/destination.rs:266-271 [Coverage::worst] *)
Definition badness (s : Freshness) : Z :=
  match s with Never => 2 ^ 63 - 1 | Stale a => a | Fresh a => wrap_i64 (- a) end.
(** @ hlb-backup/src/destination.rs:256-272 [Coverage::worst] *)
Definition worst (c : Coverage) : option Freshness :=
  max_by (λ a b, badness a ?= badness b) (per_destination c).*2.
(** @ hlb-backup/src/destination.rs:274-280 [Coverage::alarming] *)
Definition alarming (c : Coverage) : list (string * Freshness) := keep (λ e, is_alarming e.2) (per_destination c).
(** @ hlb-backup/src/destination.rs:282-292 [Coverage::up_to_date_copies] *)
Definition up_to_date_copies (c : Coverage) : nat := length (keep (λ e, is_fresh e.2) (per_destination c)).

(** ** Coverage *)

(** What the calculation is told.
    @ hlb-backup/src/destination.rs:295-324 [CoverageSource] *)
Record CoverageSource := {
  src_destinations : list Destination;
  src_route : string → Class_ → list string;
  src_classes : string → list Class_;
  src_age_of : string → string → Class_ → option Z }.

(** @ hlb-backup/src/destination.rs:326-349 [destinations_for] *)
Definition destinations_for (s : CoverageSource) (app : string) (c : Class_) : list Destination :=
  match src_route s app c with
  | [] => keep (λ d, accepts d c) (src_destinations s)
  | explicit => keep (λ d, bool_decide (de_name d ∈ explicit)) (src_destinations s)
  end.

(** @ hlb-backup/src/destination.rs:367-373 [coverage_of] *)
Definition worse (s : CoverageSource) (app : string) (ages : gmap string (option Z))
    (cd : Class_ * Destination) : gmap string (option Z) :=
  let age := src_age_of s app (de_name cd.2) cd.1 in
  <[de_name cd.2 := match ages !! de_name cd.2 with
                    | None => age
                    | Some seen => a ← seen; b ← age; Some (Z.max a b)
                    end]> ages.
(** The two loops, as the pairs they go through. *)
Definition served (s : CoverageSource) (app : string) : list (Class_ * Destination) :=
  c ← src_classes s app; (c,.) <$> destinations_for s app c.
(** @ hlb-backup/src/destination.rs:351-385 [coverage_of] *)
Definition coverage_of (s : CoverageSource) (app : string) (threshold_s : Z) : Coverage :=
  let ages := foldl (worse s app) ∅ (served s app) in
  {| cv_app := app;
     per_destination := (λ '(n, age), (n, judge age threshold_s)) <$> btree_entries ages;
     cv_classes := src_classes s app |}.

(** ** The state as a source *)

(** @ hlb-backup-run/src/coverage.rs:12-21 [kinds_of] *)
Definition kinds_of (c : Class_) : list string :=
  match c with Critical => [SQLITE; SQL_DUMP] | Bulky => [VOLUME; BUCKET] end.
(** @ hlb-backup-run/src/coverage.rs:23-29 [class_of] *)
Definition class_of (kind : string) : option Class_ :=
  find_first (λ c, bool_decide (kind ∈ kinds_of c)) [Critical; Bulky].

(** @ hlb-backup-run/src/lib.rs:89-104 [load_destinations] *)
Definition load_destinations (a : Archive) : list Destination :=
  (λ '(name, r), {| de_name := name; de_location := dr_location r;
                    de_classes := omap class_parse (split_char "," (dr_classes r));
                    de_credentials_secret := dr_secret r |}) <$> destinations a.

Section StateSource.
Context (now : Z) (s : Store) (a : Archive).

(** What the app holds of a class; what cannot be read counts as every kind of it.
    @ hlb-backup-run/src/coverage.rs:34-43 [StateSource::kinds] *)
Definition held_kinds (app : string) (c : Class_) : list string :=
  match (backup_kinds app s).1 with
  | Ok held => keep (λ k, bool_decide (k ∈ held)) (kinds_of c)
  | Err _ => kinds_of c
  end.
(** @ hlb-backup-run/src/coverage.rs:58-66 [StateSource::classes] *)
Definition held_classes (app : string) : list Class_ :=
  keep (λ c, negb (bool_decide (held_kinds app c = []))) [Critical; Bulky].
(** @ hlb-backup-run/src/coverage.rs:68-78 [StateSource::age_of] *)
Definition age_of (app destination : string) (c : Class_) : option Z :=
  match held_kinds app c with
  | [] => None
  | kinds => seconds_since_last_success_of now app kinds (Some destination) a
  end.
(** @ hlb-backup-run/src/coverage.rs:46-79 [StateSource] *)
Definition StateSource : CoverageSource :=
  {| src_destinations := load_destinations a;
     src_route := λ app c, route app (class_name c) a;
     src_classes := held_classes;
     src_age_of := age_of |}.
End StateSource.

(** ** Drills *)

(** @ hlb-backup/src/drill.rs:86-97 [Target] *)
Record DrillTarget := { dt_container : string; dt_disposable : bool }.
(** @ hlb-backup/src/drill.rs:99-108 [Refused] *)
Inductive Refused := NotDisposable (container : string) | LooksLikeProduction (container pattern : string) | NothingToRestore.
(** @ hlb-backup/src/drill.rs:131-135 [FORBIDDEN_NAMES] *)
Definition FORBIDDEN_NAMES : list string := ["prod"; "production"; "live"; "main"; "primary"; "primaire"].
(** @ hlb-backup/src/drill.rs:137-160 [authorize] *)
Definition authorize (t : DrillTarget) (has_backup : bool) : result Refused () :=
  match find_first (λ m, contains m (to_lowercase (dt_container t))) FORBIDDEN_NAMES with
  | Some m => Err (LooksLikeProduction (dt_container t) m)
  | None =>
      if negb (dt_disposable t) then Err (NotDisposable (dt_container t))
      else if negb has_backup then Err NothingToRestore else Ok ()
  end.
(** @ hlb-backup/src/drill.rs:162-173 [Outcome] *)
Record DrillOutcome := { do_opened : bool; do_tables : option Z; do_seconds : N; do_detail : string }.
(** @ hlb-backup/src/drill.rs:176-183 [Outcome::succeeded] *)
Definition drill_succeeded (o : DrillOutcome) : bool :=
  do_opened o && match do_tables o with Some n => 0 <? n | None => false end.
(** @ hlb-backup/src/drill.rs:378-387 [container_name] *)
Definition container_name (at_ : Z) : string :=
  let c := civil at_ in
  "hlb-exercice-" +:+ show_pad 4 (cy c) +:+ show_pad 2 (cm c) +:+ show_pad 2 (cd c) +:+ "T" +:+
  show_pad 2 (chh c) +:+ show_pad 2 (cmm c) +:+ show_pad 2 (css c) +:+ "Z".
(** @ hlb-backup/src/drill.rs:43-66 [startup_args] *)
Definition startup_args (t : DrillTarget) (mount image : string) : list string :=
  ["run"; "-d"; "--name"; dt_container t; "--network"; "none"; "--entrypoint"; "sleep"; "-v"; mount; image; "600"].

(** @ hlb-backup/src/drill.rs:207-212 [INTERVAL_DAYS] *)
Definition INTERVAL_DAYS : Z := 30.
Definition LATE_DAYS : Z := 60.
(** @ hlb-backup/src/drill.rs:214-225 [Readiness] *)
Inductive Readiness := Ready (days : Z) | Due (days : Z) | Overdue (days : Z) | NeverDrilled.
(** @ hlb-backup/src/drill.rs:228-235 [Readiness::from_days] *)
Definition from_days (days : option Z) : Readiness :=
  match days with
  | None => NeverDrilled
  | Some d => if LATE_DAYS <? d then Overdue d else if INTERVAL_DAYS <? d then Due d else Ready d
  end.
(** @ hlb-backup/src/drill.rs:237-240 [Readiness::needs_attention] *)
Definition readiness_needs_attention (r : Readiness) : bool := match r with Ready _ => false | _ => true end.

(** ** Restorability *)

(** @ hlb-backup/src/restorability.rs:24-59 [Restorability] *)
Record Restorability := { rs_app : string; rpo_s : option Z; copies : nat; stale_since_s : option Z;
  verified_s_ago : option Z; verification_failed : bool; pitr_depth_s : option Z; drills : Readiness }.
(** @ hlb-backup/src/restorability.rs:77-88 [Confidence] *)
Inductive Confidence := Nothing | Assumed | Previous | Verified.
#[global] Instance Confidence_eq_dec : EqDecision Confidence.
Proof. solve_decision. Defined.
(** @ hlb-backup/src/restorability.rs:101-102 [VERIFICATION_STALE_S] *)
Definition VERIFICATION_STALE_S : Z := 45 * 86400.

(** @ hlb-backup/src/restorability.rs:105-150 [Restorability::compute] *)
Definition compute (c : Coverage) (verified_s_ago_ pitr_depth_s_ : option Z) (drills_ : Readiness) : Restorability :=
  let rpo := min_Z (omap (λ e : string * Freshness, match e.2 with Fresh age => Some age | _ => None end) (per_destination c)) in
  let stale := match rpo with
               | None => min_Z (omap (λ e : string * Freshness, match e.2 with Stale age => Some age | _ => None end) (per_destination c))
               | Some _ => None
               end in
  {| rs_app := cv_app c; rpo_s := rpo; copies := up_to_date_copies c; stale_since_s := stale;
     verified_s_ago := verified_s_ago_; verification_failed := false; pitr_depth_s := pitr_depth_s_;
     drills := drills_ |}.
(** @ hlb-backup/src/restorability.rs:152-156 [Restorability::with_failed_verification] *)
Definition with_failed_verification (failed : bool) (r : Restorability) : Restorability :=
  {| rs_app := rs_app r; rpo_s := rpo_s r; copies := copies r; stale_since_s := stale_since_s r;
     verified_s_ago := verified_s_ago r; verification_failed := failed; pitr_depth_s := pitr_depth_s r;
     drills := drills r |}.
(** @ hlb-backup/src/restorability.rs:158-178 [Restorability::confidence] *)
Definition confidence (r : Restorability) : Confidence :=
  if bool_decide (rpo_s r = None) || Nat.eqb (copies r) 0 then Nothing
  else if verification_failed r then Nothing
  else match verified_s_ago r with
  | None => Assumed
  | Some age => if VERIFICATION_STALE_S <? age then Previous
                else if (2 <=? copies r)%nat then Verified else Previous
  end.

(** @ hlb-backup/src/restorability.rs:282-290 [humanise] *)
Definition humanise (s : Z) : string :=
  if s <? 90 then show_Z s +:+ " s"
  else if s <? 5400 then show_Z (Z.quot s 60) +:+ " min"
  else if s <? 172800 then show_Z (Z.quot s 3600) +:+ " h"
  else show_Z (Z.quot s 86400) +:+ " d".
(** @ hlb-backup/src/restorability.rs:180-216 [Restorability::verdict] *)
Definition verdict (r : Restorability) : string :=
  match rpo_s r with
  | None =>
      match stale_since_s r with
      | Some age => "NO up-to-date copy: the most recent one is " +:+ humanise age +:+
                    " old, and backups have stopped succeeding since."
      | None => "NO restore possible: this application has NEVER been backed up."
      end
  | Some rpo =>
      let base := "you would lose roughly " +:+ humanise rpo +:+ " of data, from " +:+
        (if Nat.eqb (copies r) 1 then "the single up-to-date copy" else show_nat (copies r) +:+ " up-to-date copies") in
      match pitr_depth_s r with
      | Some p => base +:+ ". Restore possible at any instant in the past " +:+ humanise p +:+ "."
      | None => base +:+ ". Restore possible at the instants of the backups."
      end
  end.
(** @ hlb-backup/src/restorability.rs:218-279 [Restorability::remedies] *)
Definition remedies (r : Restorability) : list string :=
  match rpo_s r with
  | None =>
      [match stale_since_s r with
       | Some _ => "understand why the backups are failing: " +:+ quoted_str "hlb backup status" +:+
                   " names the destination and its consecutive failure count"
       | None => "configure a backup: " +:+ quoted_str "hlb backup dest add <name> --location <path> --apply"
       end]
  | Some _ =>
      (if (copies r <? 2)%nat then ["add a second destination: a single copy disappears with the machine carrying it"] else []) ++
      (if verification_failed r then
         ["find out why the last restore verification failed: " +:+ quoted_str "hlb backup verify <app>" +:+
          " says what did not come back"] else []) ++
      (match verified_s_ago r with
       | None => ["verify a restore: " +:+ quoted_str "hlb backup verify <app>" +:+
                  " — a backup never read back is a hypothesis"]
       | Some age => if VERIFICATION_STALE_S <? age
                     then ["re-verify a restore: the last one goes back " +:+ humanise age] else []
       end) ++
      (match drills r with
       | NeverDrilled | Overdue _ =>
           ["run a recovery drill: " +:+ quoted_str "hlb dr exercise" +:+ " — it is the only reliable indicator"]
       | _ => []
       end)
  end.

(** ** Erasure *)

(** @ hlb-backup/src/erasure.rs:21-30 [Erasure] *)
Inductive Erasure := Kept (how : string) | Erasable (why : string) | Unproven (why : string).
(** @ hlb-backup/src/erasure.rs:33-42 [Erasure::verdict] *)
Definition erasure_verdict (e : Erasure) : string :=
  match e with Kept _ => "kept" | Erasable _ => "erasable" | Unproven _ => "unproven" end.
(** @ hlb-backup/src/erasure.rs:44-49 [Erasure::detail] *)
Definition erasure_detail (e : Erasure) : string := match e with Kept d | Erasable d | Unproven d => d end.
(** @ hlb-backup/src/erasure.rs:51-58 [Erasure::from_stored] *)
Definition from_stored (v detail : string) : Erasure :=
  if v ==? "kept" then Kept detail else if v ==? "erasable" then Erasable detail else Unproven detail.
(** @ hlb-backup/src/erasure.rs:69-76 [Proof] *)
Inductive ProofKind := PathProof | RestProof | S3Proof.
(** @ hlb-backup/src/erasure.rs:78-86 [proof_for] *)
Definition proof_for (d : Destination) : ProofKind :=
  if is_s3 d then S3Proof else if starts_with "rest:" (trim_start (de_location d)) then RestProof else PathProof.
(** A slice inside a character panics.
    @ hlb-backup/src/erasure.rs:197-199 [short] *)
Definition short (id : string) : outcome string :=
  match get_to (Nat.min (String.length id) 8) id with Some s => Returns s | None => Panics end.
(** @ hlb-backup/src/erasure.rs:88-95 [path] *)
Definition erasure_path : Erasure :=
  Erasable ("a directory: whoever is root on the machine holding it erases it — " +:+
            "a restic REST server in --append-only mode, or a versioned S3 bucket, is not").
Definition on_outcome {A B} (f : A → B) (o : outcome A) : outcome B :=
  match o with Returns a => Returns (f a) | Panics => Panics end.
(** @ hlb-backup/src/erasure.rs:97-121 [rest] *)
Definition erasure_rest (forget : result string ()) (witness : string) : outcome Erasure :=
  match forget with
  | Ok _ => on_outcome (λ s, Erasable ("the witness snapshot " +:+ s +:+
              " was deleted: start the REST server with --append-only")) (short witness)
  | Err e =>
      if contains "response (403)" e || contains "403 Forbidden" e
      then on_outcome (λ s, Kept ("the server refused to delete the witness snapshot " +:+ s)) (short witness)
      else Returns (Unproven ("deleting the witness failed for another reason: " +:+ e))
  end.
(** @ hlb-backup/src/erasure.rs:123-134 [S3Steps] *)
Record S3Steps := { st_versioning : option (N * option string); st_put : option (N * option string);
  st_delete_version : option N; st_get_version : option N }.
Definition is_2xx (n : N) : bool := ((200 <=? n) && (n <? 300))%N.
(** [{:?}] of an optional status. *)
Definition debug_status (o : option N) : string :=
  match o with Some n => "Some(" +:+ show_N n +:+ ")" | None => "None" end.
(** What the bucket says of itself, or else the version of the witness.
    @ hlb-backup/src/erasure.rs:150-160 [s3] *)
Definition unversioned (steps : S3Steps) (version : option string) : option string :=
  match st_versioning steps with
  | Some (200%N, Some s) => if s ==? "Enabled" then None else Some ("versioning is " +:+ s)
  | Some (200%N, None) | Some (501%N, None) => Some "the bucket keeps no versions"
  | _ => match version with None => Some "the witness got no version" | Some _ => None end
  end.
(** @ hlb-backup/src/erasure.rs:136-195 [s3] *)
Definition erasure_s3 (steps : S3Steps) (witness : string) : Erasure :=
  let lifecycle := "a lifecycle rule expiring old versions would still erase them: " +:+
    "refuse s3:PutLifecycleConfiguration to this credential (not tried — trying writes a rule)" in
  match st_put steps with
  | None => Unproven "the witness was never written"
  | Some (put, version) =>
      if negb (is_2xx put) then Unproven ("writing the witness " +:+ witness +:+ " was answered " +:+ show_N put)
      else match unversioned steps version with
      | Some said => Erasable (said +:+ ": a deletion is final — and this credential writes, so it deletes")
      | None =>
          match version with
          | None => Unproven "the bucket says it is versioned, and the witness got no version"
          | Some version =>
              match st_delete_version steps, st_get_version steps with
              | Some d, got =>
                  if is_2xx d then
                    if got ==? Some 200%N
                    then Unproven ("deleting the witness's version was answered " +:+ show_N d +:+ ", and it is still there")
                    else Erasable ("the credential deleted the witness's version " +:+ version +:+
                      ": whoever holds it erases every version — DENY it s3:DeleteObjectVersion (on MinIO, leaving " +:+
                      "it out is not enough: s3:DeleteObject deletes versions too)")
                  else if (d =? 403)%N then
                    if got ==? Some 200%N
                    then Kept ("versioned, and deleting the witness's version was refused; " +:+ witness +:+
                      " is still there. ⚠️ " +:+ lifecycle)
                    else Unproven ("the witness's version could not be read back (" +:+ debug_status got +:+ ")")
                  else Unproven ("deleting the witness's version was answered " +:+ debug_status (Some d))
              | None, _ => Unproven ("deleting the witness's version was answered " +:+ debug_status None)
              end
          end
      end
  end.

(** ** Lemmas *)

(** The age of a set of ages: none when one is missing, the greatest otherwise. *)
Lemma oldest_age_Some ages o a :
  oldest_age ages o = Some a ↔
    (∀ x, x ∈ ages → is_Some x) ∧ (is_Some o ∨ ages ≠ []) ∧
    (∀ x, Some x ∈ o :: ages → x ≤ a) ∧ Some a ∈ o :: ages.
Proof.
  induction ages as [|x ages IH] in o |- *; cbn [oldest_age].
  - split.
    + intros ->. repeat split; [intros x Hx%elem_of_nil; done|by left| |by left].
      intros x [[= ->]|Hx%elem_of_nil]%elem_of_cons; [lia|done].
    + intros (_ & _ & _ & [->|H%elem_of_nil]%elem_of_cons); done.
  - destruct x as [age|]; cycle 1.
    { split; [done|]. intros (H & _). specialize (H None ltac:(by left)). by destruct H. }
    rewrite IH. set (o' := Some _). split.
    + intros (H1 & _ & H3 & H4). repeat split.
      * intros x [->|Hx]%elem_of_cons; [by eexists|by apply H1].
      * by right.
      * intros x Hx. destruct (decide (Some x ∈ ages)) as [Hin|Hout]; [apply H3; by right|].
        assert (Ho : x ≤ match o with Some y => Z.max y age | None => age end).
        { rewrite !elem_of_cons in Hx. destruct Hx as [<-|[[= ->]|Hx]]; [lia|destruct o; lia|done]. }
        etrans; [exact Ho|]. apply H3. by left.
      * rewrite !elem_of_cons in *. destruct H4 as [[= ->]|H4]; [|auto].
        destruct o as [y|]; [|auto]. destruct (Z.max_spec y age) as [[_ ->]|[_ ->]]; auto.
    + intros (H1 & _ & H3 & H4). repeat split.
      * intros x Hx. apply H1. by right.
      * left. by eexists.
      * intros x [[= ->]|Hx]%elem_of_cons; [|apply H3; by repeat right].
        destruct o as [y|]; [|apply H3; right; by left].
        apply Z.max_lub; apply H3; [by left|right; by left].
      * assert (Hmax : match o with Some y => Z.max y age | None => age end ≤ a).
        { destruct o as [y|]; [|apply H3; right; by left].
          apply Z.max_lub; apply H3; [by left|right; by left]. }
        rewrite !elem_of_cons in H4. rewrite elem_of_cons. unfold o'.
        destruct H4 as [Ho|[[= ->]|H4]]; [|left; f_equal; destruct o as [y|]; lia|by right].
        subst o. left. f_equal. lia.
Qed.

Lemma oldest_age_None_nil ages a : oldest_age ages None = Some a → ages ≠ [].
Proof. intros (_ & [H|H] & _)%oldest_age_Some; [by destruct H|done]. Qed.

(** What the loops of [coverage_of] leave for a destination: the oldest of its classes' ages. *)
Definition ages_on (s : CoverageSource) (app n : string) (l : list (Class_ * Destination)) : list (option Z) :=
  (λ cd : Class_ * Destination, src_age_of s app n cd.1) <$> keep (λ cd, de_name cd.2 ==? n) l.

Lemma oldest_age_snoc ages x o :
  oldest_age (ages ++ [x]) o =
    match oldest_age ages o, x with
    | None, _ => if decide (o = None ∧ ages = []) then x else None
    | Some a, Some b => Some (Z.max a b)
    | Some _, None => None
    end.
Proof.
  induction ages as [|y ages IH] in o |- *; cbn [app oldest_age].
  - destruct x as [b|]; cbn [oldest_age]; destruct o as [a|]; cbn; try done; by rewrite decide_True.
  - destruct y as [y|]; [|by rewrite decide_False by (by intros [_ ?])].
    rewrite IH. destruct (oldest_age ages _); [done|]. rewrite !decide_False; [done|by intros [_ ?]|by intros [? _]].
Qed.

Lemma worse_lookup s app l n :
  foldl (worse s app) ∅ l !! n =
    if bool_decide (ages_on s app n l = []) then None else Some (oldest_age (ages_on s app n l) None).
Proof.
  induction l as [|[c d] l IH] using rev_ind; [done|]. rewrite foldl_app. cbn [foldl].
  unfold worse at 1. cbn [fst snd]. unfold ages_on. rewrite keep_app, fmap_app. fold (ages_on s app n l).
  assert (Hk : keep (λ cd, de_name cd.2 ==? n) [(c, d)] = if bool_decide (de_name d = n) then [(c, d)] else []).
  { rewrite keep_cons. cbn [snd]. by case_bool_decide. }
  rewrite Hk. case_bool_decide as Hn.
  - subst n. rewrite lookup_insert_eq, IH. cbn [fmap list_fmap fst snd].
    rewrite (bool_decide_eq_false_2 (_ ++ _ = [])) by (by destruct (ages_on s app (de_name d) l)).
    rewrite oldest_age_snoc. case_bool_decide as He.
    + rewrite He. cbn. by rewrite decide_True.
    + f_equal. destruct (oldest_age _ None) as [a|]; cbn; [by destruct (src_age_of s app (de_name d) c)|].
      rewrite decide_False by (by intros [_ ?]). done.
  - rewrite lookup_insert_ne, IH by done. cbn. by rewrite app_nil_r.
Qed.

(** An entry of a coverage: a destination served, judged by the oldest age of what it receives. *)
Lemma coverage_entry s app threshold n st :
  (n, st) ∈ per_destination (coverage_of s app threshold) ↔
    (∃ c d, (c, d) ∈ served s app ∧ de_name d = n) ∧
    st = judge (oldest_age (ages_on s app n (served s app)) None) threshold.
Proof.
  unfold coverage_of. cbn [per_destination]. rewrite list_elem_of_fmap.
  assert (Hne : ages_on s app n (served s app) ≠ [] ↔ ∃ c d, (c, d) ∈ served s app ∧ de_name d = n).
  { unfold ages_on. split.
    - intros H. destruct (keep _ (served s app)) as [|[c d] l] eqn:E; [done|].
      assert (Hin : (c, d) ∈ keep (λ cd : Class_ * Destination, de_name cd.2 ==? n) (served s app)) by (rewrite E; by left).
      apply elem_of_keep in Hin as [Hn Hin]. exists c, d. by apply bool_decide_eq_true in Hn.
    - intros (c & d & Hin & Hn) E.
      assert (Hk : (c, d) ∈ keep (λ cd : Class_ * Destination, de_name cd.2 ==? n) (served s app))
        by (apply elem_of_keep; split; [by apply bool_decide_eq_true|done]).
      apply fmap_nil_inv in E. rewrite E in Hk. by apply elem_of_nil in Hk. }
  rewrite <- Hne. split.
  - intros ([k age] & [= -> ->] & Hin). apply elem_of_btree_entries in Hin. rewrite worse_lookup in Hin.
    case_bool_decide; [done|]. by injection Hin as <-.
  - intros [H ->]. exists (n, oldest_age (ages_on s app n (served s app)) None). split; [done|].
    apply elem_of_btree_entries. rewrite worse_lookup. by rewrite bool_decide_eq_false_2.
Qed.

Lemma elem_of_served s app c d :
  (c, d) ∈ served s app ↔ c ∈ src_classes s app ∧ d ∈ destinations_for s app c.
Proof.
  unfold served. rewrite list_elem_of_bind. split.
  - intros (c' & Hin & Hc). apply list_elem_of_fmap in Hin as (d' & [= -> ->] & Hd). done.
  - intros [Hc Hd]. exists c. split; [|done]. apply list_elem_of_fmap. by exists d.
Qed.

Lemma elem_of_ages s app n x :
  x ∈ ages_on s app n (served s app) ↔
    ∃ c d, (c, d) ∈ served s app ∧ de_name d = n ∧ x = src_age_of s app n c.
Proof.
  unfold ages_on. rewrite list_elem_of_fmap. split.
  - intros ([c d] & -> & [Hn Hin]%elem_of_keep). apply bool_decide_eq_true in Hn. by exists c, d.
  - intros (c & d & Hin & Hn & ->). exists (c, d). split; [done|]. apply elem_of_keep.
    split; [by apply bool_decide_eq_true|done].
Qed.

Lemma NoDup_per_destination s app threshold : NoDup (per_destination (coverage_of s app threshold)).*1.
Proof.
  unfold coverage_of. cbn [per_destination]. rewrite <- list_fmap_compose.
  assert (E : (fst ∘ λ '(n, age), (n, judge age threshold)) <$> btree_entries (foldl (worse s app) ∅ (served s app))
    = (btree_entries (foldl (worse s app) ∅ (served s app))).*1) by (apply list_fmap_ext; by intros i [n age] _).
  rewrite E, btree_entries_keys. apply NoDup_btree_keys.
Qed.

(** An age the state gives: every kind of the class succeeded there, none of them longer ago. *)
Lemma age_of_Some now s a app n c age :
  age_of now s a app n c = Some age →
  ∀ k, k ∈ held_kinds s app c → ∃ r, r ∈ successes app k (Some n) a ∧ now - ru_finished r ≤ age.
Proof.
  unfold age_of. intros H k Hk. destruct (held_kinds s app c) as [|k0 ks] eqn:E; [done|].
  unfold seconds_since_last_success_of in H. apply oldest_age_Some in H as (Hall & _ & Hle & _).
  assert (Hin : age_of_kind now app (Some n) a k ∈ age_of_kind now app (Some n) a <$> (k0 :: ks))
    by (apply list_elem_of_fmap_2; done).
  destruct (Hall _ Hin) as [x Hx]. rewrite Hx in Hin. specialize (Hle x ltac:(by right)).
  unfold age_of_kind in Hx. destruct (max_Z _) as [m|] eqn:Em; [|done]. injection Hx as <-.
  apply max_Z_Some in Em as [Hm _]. apply list_elem_of_fmap in Hm as (r & -> & Hr). by exists r.
Qed.

(** ** Theorems *)

(** What a declared destination holds of an app: something of it is routed there, and there is a
    success, on it and young enough, of every kind of data the app has of each class routed there. *)
Definition protects (now : Z) (s : Store) (a : Archive) (app n : string) (age : Z) : Prop :=
  let routed c := c ∈ held_classes s app ∧ ∃ d, d ∈ destinations_for (StateSource now s a) app c ∧ de_name d = n in
  let succeeded k := ∃ r, r ∈ successes app k (Some n) a ∧ now - ru_finished r ≤ age in
  n ∈ de_name <$> load_destinations a ∧
  (∃ c k, routed c ∧ k ∈ held_kinds s app c ∧ succeeded k) ∧
  ∀ c, routed c → ∀ k, k ∈ held_kinds s app c → succeeded k.

Lemma destinations_for_declared s app c d : d ∈ destinations_for s app c → d ∈ src_destinations s.
Proof. unfold destinations_for. destruct (src_route s app c); by intros [_ ?]%elem_of_keep. Qed.
(** A destination read as fresh protects what it should: no kind of data stands behind another. *)
Lemma fresh_protects now s a app threshold n age :
  (n, Fresh age) ∈ per_destination (coverage_of (StateSource now s a) app threshold) →
  age ≤ threshold ∧ protects now s a app n age.
Proof.
  intros [(c0 & d0 & [Hc0 Hd0]%elem_of_served & Hn0) Hst]%coverage_entry.
  unfold judge in Hst. destruct (oldest_age _ _) as [x|] eqn:E; [|done].
  destruct (threshold <? x) eqn:Et; [done|]. injection Hst as ->. split; [lia|].
  assert (Hall : ∀ c, c ∈ held_classes s app ∧ (∃ d, d ∈ destinations_for (StateSource now s a) app c ∧ de_name d = n) →
    ∀ k, k ∈ held_kinds s app c → ∃ r, r ∈ successes app k (Some n) a ∧ now - ru_finished r ≤ x).
  { intros c (Hc & d & Hd & <-) k Hk.
    apply oldest_age_Some in E as (Hall & _ & Hle & _).
    assert (Hin : src_age_of (StateSource now s a) app (de_name d) c ∈
      ages_on (StateSource now s a) app (de_name d) (served (StateSource now s a) app)).
    { apply elem_of_ages. exists c, d. split; [by apply elem_of_served|done]. }
    destruct (Hall _ Hin) as [y Hy]. rewrite Hy in Hin. specialize (Hle y ltac:(by right)).
    destruct (age_of_Some now s a app (de_name d) c y Hy k Hk) as (r & Hr & Hage). exists r. split; [done|lia]. }
  split; [|split; [|exact Hall]].
  - apply list_elem_of_fmap. exists d0. split; [done|]. by apply destinations_for_declared in Hd0.
  - pose proof Hc0 as Hk. apply elem_of_keep in Hk as [Hk _]. apply negb_true_iff, bool_decide_eq_false in Hk.
    destruct (held_kinds s app c0) as [|k ks] eqn:Ek; [done|]. exists c0, k. split_and!; [done|by exists d0|rewrite Ek; by left|].
    apply (Hall c0); [by split; [|exists d0]|rewrite Ek; by left].
Qed.

Lemma keep_two {A} (p : A → bool) (f : A → string) l :
  NoDup (f <$> l) → (2 <= length (keep p l))%nat → ∃ x y, x ∈ keep p l ∧ y ∈ keep p l ∧ f x ≠ f y.
Proof.
  intros Hnd Hl. destruct (keep p l) as [|x [|y l']] eqn:E; [cbn in Hl; lia..|].
  exists x, y. split; [by left|]. split; [right; by left|]. intros Hf.
  assert (Hs : sublist (f <$> keep p l) (f <$> l)) by (apply fmap_sublist, sublist_filter).
  assert (Hk : NoDup (f <$> keep p l)) by (by eapply sublist_NoDup). clear Hnd. rename Hk into Hnd. rewrite E in Hnd. cbn in Hnd. rewrite Hf in Hnd.
  inversion Hnd as [|? ? Hin _]; subst. apply Hin. by left.
Qed.

(** C31. "Verified" is said of an app only when two different declared destinations, with data of
    the app routed to each, each hold a success, young enough, of every kind of data the app has of
    what is routed to it, when a restore of it
    was read back in the last 45 days and the latest attempt to did not fail. A stale or silent
    destination, a fresh dump beside an old volume, a single copy do not make one. *)
Theorem verified_means_two_copies now s a app threshold pitr drills :
  let c := coverage_of (StateSource now s a) app threshold in
  let r := with_failed_verification (last_verification_failed app a)
             (compute c (seconds_since_last_verification now app a) pitr drills) in
  confidence r = Verified →
  (∃ n m age age', n ≠ m ∧ age ≤ threshold ∧ age' ≤ threshold ∧
     protects now s a app n age ∧ protects now s a app m age') ∧
  last_verification_failed app a = false ∧
  ∃ v, v ∈ a_verifications a ∧ ve_app v = app ∧ ve_ok v = true ∧ now - ve_at v ≤ 45 * 86400.
Proof.
  intros c r. unfold confidence. destruct (_ || _) eqn:E0; [done|].
  destruct (verification_failed r) eqn:E1; [done|]. destruct (verified_s_ago r) as [age|] eqn:E2; [|done].
  destruct (VERIFICATION_STALE_S <? age) eqn:E3; [done|]. destruct (2 <=? copies r)%nat eqn:E4; [|done]. intros _.
  split; [|split; [done|]].
  - apply Nat.leb_le in E4. change (copies r) with (up_to_date_copies c) in E4.
    destruct (keep_two _ fst _ (NoDup_per_destination (StateSource now s a) app threshold) E4)
      as ([n f] & [m f'] & [Hf Hn]%elem_of_keep & [Hf' Hm]%elem_of_keep & Hne).
    destruct f as [|age1|]; [done| |done]. destruct f' as [|age2|]; [done| |done].
    apply fresh_protects in Hn as [], Hm as []. by exists n, m, age1, age2.
  - change (verified_s_ago r) with (seconds_since_last_verification now app a) in E2.
    unfold seconds_since_last_verification in E2. destruct (max_Z _) as [t|] eqn:Et; [|done].
    apply max_Z_Some in Et as [Ht _]. apply list_elem_of_fmap in Ht as (v & -> & [Hv Hin]%elem_of_keep).
    apply andb_true_iff in Hv as [Hv1%bool_decide_eq_true Hv2]. exists v. injection E2 as <-.
    unfold VERIFICATION_STALE_S in E3. repeat split; [done..|lia].
Qed.

(** Nothing is advised exactly when all is well: the list of what is left to do is empty when,
    and only when, the restore is verified and the recovery drill is not overdue. *)
Theorem remedies_empty_iff c v p d failed :
  let r := with_failed_verification failed (compute c v p d) in
  remedies r = [] ↔ confidence r = Verified ∧ match d with Ready _ | Due _ => True | _ => False end.
Proof.
  intros r. unfold remedies, confidence.
  assert (Hc : rpo_s r = None ↔ copies r = 0%nat).
  { unfold r, with_failed_verification, compute, up_to_date_copies. cbn [rpo_s copies]. rewrite min_Z_None.
    induction (per_destination c) as [|[n f] l IH]; [done|]. rewrite keep_cons. cbn [omap list_omap snd].
    destruct f; cbn [is_fresh length]; [exact IH|done|exact IH]. }
  change (drills r) with d.
  destruct (rpo_s r) as [rpo|]; cycle 1.
  { rewrite (proj1 Hc eq_refl). cbn. by split; [|intros [? ?]]. }
  rewrite (bool_decide_eq_false_2 (Some rpo = None)) by done.
  destruct (Nat.eqb_spec (copies r) 0) as [H0|H0]; [apply Hc in H0; done|]. cbn [orb].
  destruct (Nat.ltb_spec (copies r) 2) as [H2|H2]; cbn [app].
  { split; [done|]. intros [H _]. destruct (verification_failed r); [done|].
    destruct (verified_s_ago r) as [age|]; [|done]. destruct (_ <? age); [done|].
    destruct (Nat.leb_spec 2 (copies r)); [lia|done]. }
  destruct (verification_failed r); [by split; [|intros [? _]]|].
  destruct (verified_s_ago r) as [age|]; [|by split; [|intros [? _]]].
  destruct (_ <? age); [by split; [|intros [? _]]|].
  destruct (Nat.leb_spec 2 (copies r)); [|lia]. cbn [app]. destruct d; cbn; split; try done; by intros [_ []].
Qed.

(** A destination counts as one nobody can erase only on a proof: the witness was written,
    the bucket is versioned or gave it a version, deleting that version with the same credential
    was refused with 403, and it was read back after; for a REST server, the deletion was
    refused. A path never does, nor a proof that stopped on the way. *)
Theorem kept_is_proved steps witness forget how :
  (erasure_s3 steps witness = Kept how →
    ∃ put version, st_put steps = Some (put, Some version) ∧ (200 <= put < 300)%N ∧
      st_delete_version steps = Some 403%N ∧ st_get_version steps = Some 200%N ∧
      match st_versioning steps with
      | Some (200%N, v) => v = Some "Enabled"
      | Some (501%N, v) => v ≠ None
      | _ => True
      end) ∧
  (erasure_rest forget witness = Returns (Kept how) →
    ∃ e, forget = Err e ∧ (contains "response (403)" e || contains "403 Forbidden" e) = true) ∧
  erasure_path ≠ Kept how.
Proof.
  split; [|split; [|done]].
  - unfold erasure_s3. destruct (st_put steps) as [[put version]|]; [|done].
    destruct (negb (is_2xx put)) eqn:Ep; [done|]. destruct (unversioned steps version) eqn:Eu; [done|].
    destruct version as [version|]; [|done].
    destruct (st_delete_version steps) as [d|] eqn:Ed; [|by destruct (st_get_version steps)].
    destruct (is_2xx d); [by case_bool_decide|]. destruct (d =? 403)%N eqn:E403; [|done].
    case_bool_decide as Eg; [|done]. intros _. exists put, version.
    apply negb_false_iff, andb_true_iff in Ep as [H1%N.leb_le H2%N.ltb_lt]. apply N.eqb_eq in E403 as ->.
    repeat split; [done..|]. unfold unversioned in Eu.
    destruct (st_versioning steps) as [[code v]|]; [|done].
    destruct (decide (code = 200%N)) as [->|]; [destruct v as [v|]; [|done]; by case_bool_decide; subst|].
    destruct (decide (code = 501%N)) as [->|]; [by destruct v|].
    clear -n n0. destruct code as [|p]; [done|]. do 9 (destruct p as [p|p|]; try done).
  - unfold erasure_rest. destruct forget as [[]|e].
    + unfold on_outcome. by destruct (short witness).
    + destruct (_ || _) eqn:E; [|done]. intros _. by exists e.
Qed.

(** A drill is let start only on a target declared disposable, with something to restore, and
    whose name, whatever its case, holds none of the words of a production server: the name is
    looked at first, and no declaration gets around it. *)
Theorem drill_authorized t has_backup :
  (authorize t has_backup = Ok () ↔
    Forall (λ m, contains m (to_lowercase (dt_container t)) = false) FORBIDDEN_NAMES ∧
    dt_disposable t = true ∧ has_backup = true) ∧
  ∀ disposable has_backup' p, authorize t has_backup = Err (LooksLikeProduction (dt_container t) p) →
    authorize {| dt_container := dt_container t; dt_disposable := disposable |} has_backup' =
      Err (LooksLikeProduction (dt_container t) p).
Proof.
  unfold authorize. destruct (find_first _ FORBIDDEN_NAMES) as [m|] eqn:E.
  - split; [|intros disposable has_backup' p [= ->]; cbn [dt_container]; by rewrite E]. split; [done|]. intros [H _].
    apply find_first_Some in E. rewrite Forall_forall in H.
    destruct E as (l1 & l2 & El & Hm & _). rewrite H in Hm; [done|]. rewrite El. set_solver.
  - apply find_first_None in E. split; [|by destruct (dt_disposable t), has_backup].
    destruct (dt_disposable t), has_backup; cbn [negb]; split; try done; by intros (_ & ? & ?).
Qed.

(** ** Witnesses *)

Module Sample.
Definition store : Store :=
  set_volumes {[ ("gitea", "gitea-data") := {| vr_mountpoint := "/v"; vr_backup := true; vr_sqlite := true |} ]}
    example_store.
Definition two_destinations : Archive :=
  upsert_destination "offsite" "s3:https://s3.example/b" "critical,bulky" (Some "offsite-key")
    (upsert_destination "nas" "/mnt/nas" "critical,bulky" None empty_archive).
(** A pass at the second 1000, and a restore read back at 2000. *)
Definition backed_up : Archive :=
  record_verification 2000 "gitea" "s1" true None
    (foldl (λ a '(d, k), record_backup_to 1000 "gitea" k d (Some "s1") None a) two_destinations
       [("nas", VOLUME); ("nas", SQLITE); ("offsite", VOLUME); ("offsite", SQLITE)]).
End Sample.

Lemma verified_means_two_copies_witness :
  confidence (with_failed_verification (last_verification_failed "gitea" Sample.backed_up)
    (compute (coverage_of (StateSource 3000 Sample.store Sample.backed_up) "gitea" 43200)
       (seconds_since_last_verification 3000 "gitea" Sample.backed_up) None (from_days (Some 3)))) = Verified ∧
  ∃ n m age age', n ≠ m ∧ age ≤ 43200 ∧ age' ≤ 43200 ∧
    protects 3000 Sample.store Sample.backed_up "gitea" n age ∧
    protects 3000 Sample.store Sample.backed_up "gitea" m age'.
Proof.
  match goal with |- ?A ∧ _ => assert (H : A) by (by vm_compute) end. split; [exact H|].
  exact (proj1 (verified_means_two_copies 3000 Sample.store Sample.backed_up "gitea" 43200 None _ H)).
Defined.

(** ** Where the comments are too kind *)

(** The mask stops at the first [@]: a secret holding one is shown from there on. *)
Lemma mask_shows_after_at :
  masked_location {| de_name := "offsite"; de_location := "s3:https://key:se@cret@s3.example/b";
                     de_classes := []; de_credentials_secret := None |} = "s3:https://••••@cret@s3.example/b".
Proof. by vm_compute. Qed.

(** An age below zero - a clock set back - reads as worse than a stale destination: the fresh one
    is the worst case, and the stale one hides behind it. *)
Lemma fresh_masks_stale :
  worst {| cv_app := "gitea"; per_destination := [("nas", Fresh (-5000)); ("offsite", Stale 4000)];
           cv_classes := [Bulky] |} = Some (Fresh (-5000)).
Proof. by vm_compute. Qed.

(** A witness whose eighth byte is inside a character: naming it panics. *)
Lemma short_panics : erasure_rest (Ok ()) "witnessé" = Panics.
Proof. by vm_compute. Qed.

(** Otherwise the worst case is one: nothing ever received before a delay, and the longest delay. *)
Lemma worst_is_worst c :
  (∀ e, e ∈ per_destination c → match e.2 with Never => True | Fresh a => 0 ≤ a < 2 ^ 63 | Stale a => 0 < a < 2 ^ 63 end) →
  (∃ e, e ∈ per_destination c ∧ is_alarming e.2 = true) → ∃ w, worst c = Some w ∧ is_alarming w = true.
Proof.
  intros Hages (e & He & Ha). destruct (worst c) as [w|] eqn:E; cycle 1.
  { unfold worst in E. apply max_by_None, fmap_nil_inv in E. rewrite E in He. by apply elem_of_nil in He. }
  exists w. split; [done|]. pose proof E as Hw%max_by_elem. apply list_elem_of_fmap in Hw as (e' & -> & He').
  pose proof (max_by_ge _ _ _ e.2 (total_cmp_on badness _ total_cmp_Z) E (list_elem_of_fmap_2 snd _ _ He)) as Hle.
  change (badness e.2 ≤ badness e'.2) in Hle.
  pose proof (Hages _ He) as H1. pose proof (Hages _ He') as H2.
  destruct e as [n [|a|a]], e' as [m [|b|b]]; cbn in *; try done; rewrite wrap_i64_small in Hle; lia.
Qed.
