(* ===== verification/Restic.v ===== *)
(** * restic, and where it is run

    [crates/hlb-backup/src/restic.rs] and [crates/hlb-backup-run/src/placement.rs] with the runner of
    [lib.rs]: the commands a repository is driven by, where each volume of an app is, and the job
    restic runs as on the node that holds it. restic itself, the container it runs in here and the
    reading of its JSON are arguments. *)

From S2P Require Import Prelude RustStr Binding Journal Schedule Swarm Calendar Docker Pitr Archive Destination.

#[local] Open Scope hlb_scope.

(** ** Errors and output *)

(** @ hlb-backup/src/lib.rs:94-115 [Error] *)
Inductive BackupError :=
| PitrError (target reason : string) | ResticMissing (why : string) | ResticFailed (command stderr : string)
| EmptyRetention | DumpFailed (database stderr : string) | UnexpectedBackup (why : string) | IoError (why : string).
(** @ hlb-backup/src/lib.rs:95-115 [Error] *)
Definition backup_error (e : BackupError) : string :=
  match e with
  | PitrError target reason => "restore to " +:+ target +:+ " impossible: " +:+ reason
  | ResticMissing why => "restic unavailable: " +:+ why
  | ResticFailed command stderr => "restic " +:+ command +:+ " failed: " +:+ stderr
  | EmptyRetention => "empty retention policy: `forget` would delete every snapshot"
  | DumpFailed database stderr => "dump of " +:+ quoted_str database +:+ ": " +:+ stderr
  | UnexpectedBackup why => why
  | IoError why => why
  end.
(** @ hlb-backup/src/restic.rs:50-61 [Output] *)
Record Output := { out_status : Z; out_stdout : string; out_stderr : string }.
Definition out_ok (o : Output) : bool := (out_status o =? 0)%Z.

(** ** Snapshots *)

(** @ hlb-backup/src/restic.rs:79-90 [Snapshot] *)
Record Snapshot := { sn_id : string; sn_time : string; sn_paths : list string; sn_tags : list string; sn_hostname : string }.
#[global] Instance Snapshot_eq_dec : EqDecision Snapshot.
Proof. solve_decision. Defined.

(** The last of the two signs. *)
Definition rsplit_sign (s : string) : option (string * Z * string) :=
  match rsplit_once "+" s, rsplit_once "-" s with
  | Some (a, b), Some (c, d) =>
      if (String.length c <? String.length a)%nat then Some (a, 1%Z, b) else Some (c, (-1)%Z, d)
  | Some (a, b), None => Some (a, 1%Z, b)
  | None, Some (c, d) => Some (c, (-1)%Z, d)
  | None, None => None
  end.
(** The local time, and its offset. @ hlb-backup/src/restic.rs:104-119 [Snapshot::epoch] *)
Definition epoch (s : Snapshot) : option Z :=
  let t := trim (sn_time s) in
  '(day, clock) ← split_once "T" t;
  '(local, offset) ← match strip_suffix "Z" clock with
    | Some clock => Some (clock, 0%Z)
    | None =>
        '(clock, sign, offset) ← rsplit_sign clock;
        '(h, m) ← split_once ":" offset;
        h ← parse_i64 h; m ← parse_i64 m;
        Some (clock, wrap_i64 (sign * wrap_i64 (wrap_i64 (h * 3600) + wrap_i64 (m * 60))))
    end;
  let whole := match split_once "." (day +:+ "T" +:+ local) with Some (a, _) => a | None => day +:+ "T" +:+ local end in
  e ← parse_utc whole;
  Some (wrap_i64 (e - offset)).

(** ** Commands *)

Definition DEFAULT_HOST : string := "homelabus".
(** @ hlb-backup/src/restic.rs:125-129 [LOCK_WAIT] *)
Definition LOCK_WAIT : string := "10m".
Definition NFS4_ACL : string := "system.nfs4_acl".
(** @ hlb-backup/src/restic.rs:137-141 [waiting] *)
Definition waiting (args : list string) : list string := args ++ ["--retry-lock"; LOCK_WAIT].

(** @ hlb-backup/src/restic.rs:256-265 [Repository::backup_paths] *)
Definition backup_args (host : string) (paths tags : list string) : list string :=
  ["backup"] ++ paths ++ ["--json"; "--host"; host] ++ (tags ≫= λ t, ["--tag"; t]).
(** @ hlb-backup/src/restic.rs:324-329 [Repository::snapshots] *)
Definition snapshots_args (tag : option string) : list string :=
  ["snapshots"; "--json"] ++ from_option (λ t, ["--tag"; t]) [] tag.
(** @ hlb-backup/src/restic.rs:349-359 [Repository::restore_path] *)
Definition restore_path_args (snapshot path : string) : list string :=
  ["restore"; snapshot +:+ ":" +:+ path; "--target"; path; "--delete"; "--exclude-xattr"; NFS4_ACL].
(** @ hlb-backup/src/restic.rs:371-380 [Repository::restore_files_in] *)
Definition restore_files_args (snapshot dir : string) : list string :=
  ["restore"; snapshot +:+ ":" +:+ dir; "--target"; dir; "--exclude-xattr"; NFS4_ACL].

(** The dumps by their tags, never by path; the space reclaimed once, after both.
    @ hlb-backup/src/restic.rs:412-446 [forget_passes] *)
Definition forget_passes (policy : Retention.RetentionPolicy) (prune : bool) : result BackupError (list (list string)) :=
  _ ← refuse_if (negb (Retention.keeps_something policy)) EmptyRetention;
  Ok [["forget"] ++ Retention.to_args policy;
      ["forget"; "--tag"; "kind:sql-dump"; "--group-by"; "host,tags"] ++ Retention.to_args policy ++
        (if prune then ["--prune"] else [])].

(** ** Where a volume is *)

(** @ hlb-backup-run/src/placement.rs:30-39 [Place] *)
Inductive Place := Here | OnNode (id hostname : string) | UnknownPlace (why : string).
#[global] Instance Place_eq_dec : EqDecision Place.
Proof. solve_decision. Defined.
(** The derived order: the variants, then their fields. *)
Definition place_cmp (a b : Place) : comparison :=
  match a, b with
  | Here, Here => Eq
  | Here, _ => Lt
  | _, Here => Gt
  | OnNode i h, OnNode j k => then_with (String.compare i j) (String.compare h k)
  | OnNode _ _, UnknownPlace _ => Lt
  | UnknownPlace _, OnNode _ _ => Gt
  | UnknownPlace v, UnknownPlace w => String.compare v w
  end.
(** A [BTreeMap] of places: its entries, in order. *)
Definition Places : Type := list (Place * list string).
(** [entry(place).or_default().push(v)] *)
Fixpoint push_at (p : Place) (v : string) (l : Places) : Places :=
  match l with
  | [] => [(p, [v])]
  | (q, vs) :: l =>
      match place_cmp p q with
      | Eq => (q, vs ++ [v]) :: l
      | Lt => (p, [v]) :: (q, vs) :: l
      | Gt => (q, vs) :: push_at p v l
      end
  end.

(** The longest of the services the name starts with, the last of the longest; the first service of
    the app otherwise. @ hlb-backup-run/src/placement.rs:41-52 [owner] *)
Definition owner (volume : string) (services : list string) : string :=
  default "" (match max_by (λ a b, Nat.compare (String.length a) (String.length b))
                      (keep (λ s, starts_with (s +:+ "-") volume) services) with
              | Some s => Some s
              | None => head services
              end).

(** @ hlb-backup-run/src/placement.rs:69-106 [locate] *)
Definition place_of (services : list string) (tasks : list TaskInfo) (nodes : list NodeInfo) (local : option string)
    (v : string) : Place :=
  let service := owner v services in
  match local with
  | None => Here
  | Some here =>
      let running := find_first (λ t, is_alive t && (t_service t ==? service)) tasks ≫= t_node_id in
      let pinned := n_id <$> find_first (λ n, any_of (λ d, d ==? service) (n_data n)) nodes in
      let starting := head (omap t_node_id
        (keep (λ t, negb (t_desired_state t ==? "shutdown") && (t_service t ==? service)) tasks)) in
      match (match running with Some _ => running | None => match pinned with Some _ => pinned | None => starting end end) with
      | Some id => if id ==? here then Here
                   else OnNode id (from_option n_hostname id (find_first (λ n, n_id n ==? id) nodes))
      | None => UnknownPlace (service +:+ " runs nowhere and no node holds its data: which machine has " +:+ v +:+
                              " cannot be told")
      end
  end.
(** @ hlb-backup-run/src/placement.rs:60-111 [locate] *)
Definition locate (volumes services : list string) (tasks : list TaskInfo) (nodes : list NodeInfo)
    (local : option string) : Places :=
  foldl (λ out v, push_at (place_of services tasks nodes local v) v out) [] volumes.

(** ** The job *)

(** @ hlb-backup-run/src/lib.rs:53-60 [volume_path] *)
Definition volume_path (volume : string) : string := "/donnees/" +:+ volume.
Definition PASSWORD_FILE : string := "/run/hlb/restic-password".
Definition ENV_DIR : string := "/run/hlb/env".
(** @ hlb-backup-run/src/placement.rs:27-28 [JOB_TIMEOUT_S] *)
Definition JOB_TIMEOUT_S : N := 3600.
(** The shell that reads the files back. @ hlb-backup-run/src/placement.rs:191-194 [job_spec] *)
Definition env_script : string :=
  "for f in " +:+ ENV_DIR +:+ "/*; do export " +:+ quoted_str ("${f##*/}=$(cat " +:+ quoted_str "$f" +:+ ")") +:+
  "; done; exec " +:+ quoted_str "$0" +:+ " " +:+ quoted_str "$@".
(** Each variable as a file. @ hlb-backup-run/src/placement.rs:174-187 [job_spec] *)
Definition env_file (acc : ServiceSpec * list (string * string) * bool) (kv : string * string) :
    ServiceSpec * list (string * string) * bool :=
  let '(j, vars, in_files) := acc in
  let '(k, v) := kv in
  if k ==? "RESTIC_PASSWORD"
  then (file PASSWORD_FILE v j, vars ++ [("RESTIC_PASSWORD_FILE", PASSWORD_FILE)], in_files)
  else (file (ENV_DIR +:+ "/" +:+ k) v j, vars, true).
Definition with_caps (caps : list string) (h : Manifest.SecuritySpec) : Manifest.SecuritySpec :=
  {| Manifest.sec_read_only_rootfs := false; Manifest.sec_no_new_privileges := Manifest.sec_no_new_privileges h;
     Manifest.sec_cap_drop := Manifest.sec_cap_drop h; Manifest.sec_cap_add := caps;
     Manifest.sec_user := Manifest.sec_user h; Manifest.sec_tmpfs := Manifest.sec_tmpfs h;
     Manifest.sec_published_ports := Manifest.sec_published_ports h |}.
(** @ hlb-backup-run/src/placement.rs:158-213 [job_spec] *)
Definition job_spec (j : ServiceSpec) (mounts : list (string * string)) (net : option string) (writes : bool)
    (args : list string) (env : list (string * string)) : ServiceSpec :=
  let j := foldl (λ j m, mount_volume m.1 m.2 j) j mounts in
  let j := if net is Some n then network n j else j in
  let '(j, vars, in_files) := foldl env_file (j, [], false) env in
  let restic := "restic" :: args in
  let j := with_command (if in_files : bool then ["sh"; "-c"; env_script] ++ restic else restic) (with_env vars j) in
  with_hardening (with_caps (if writes then ["CHOWN"; "DAC_OVERRIDE"; "FOWNER"] else ["DAC_READ_SEARCH"]) (ss_hardening j)) j.

(** @ hlb-backup-run/src/placement.rs:129-141 [JobRunner] *)
Record JobRunner := { jr_node : string; jr_mounts : list (string * string); jr_network : option string; jr_name : string;
  jr_writes : bool }.
(** @ hlb-backup-run/src/placement.rs:113-117 [PlacedRunner] *)
Inductive PlacedRunner := RunHere (r : ContainerRunner) | RunJob (r : JobRunner).
(** @ hlb-backup-run/src/placement.rs:143-156 [JobRunner::spec] *)
Definition runner_spec (image : string) (r : JobRunner) (args : list string) (env : list (string * string)) : ServiceSpec :=
  job_spec (constraint ("node.id==" +:+ jr_node r) (job (new_spec (jr_name r) image)))
    (jr_mounts r) (jr_network r) (jr_writes r) args env.

Definition source_of (sources : gmap string string) (v : string) : string := default v (sources !! v).
(** @ hlb-backup-run/src/lib.rs:626-685 [runner_at] *)
Definition runner_at (image : string) (orchestrated : bool) (net : string) (d : Destination) (app : string) (place : Place)
    (volumes : list string) (sources : gmap string string) (writes : bool) : result string (PlacedRunner * string) :=
  match place with
  | Here =>
      let '(r, location) := runner image d (Some net) in
      Ok (RunHere (foldl (λ r v, mount r (source_of sources v) (volume_path v)) r volumes), location)
  | OnNode id hostname =>
      if negb (is_remote d) then
        Err (join ", " volumes +:+ (if (length volumes =? 1)%nat then " is" else " are") +:+ " on " +:+ hostname +:+
             ", and " +:+ quoted_str (de_name d) +:+ " is a path on this machine — restic run there would use " +:+ hostname +:+
             "'s own disk. Give it a destination every node reaches: S3, or a restic REST server (rest:http://…)")
      else if negb orchestrated then Err (join ", " volumes +:+ " on " +:+ hostname +:+ ": no orchestrator")
      else Ok (RunJob {| jr_node := id; jr_mounts := (λ v, (source_of sources v, volume_path v)) <$> volumes;
                         jr_network := Some net; jr_name := "hlb-backup-" +:+ app; jr_writes := writes |}, de_location d)
  | UnknownPlace why => Err why
  end.

(** ** A repository *)

(** A container run here - docker absent, its output otherwise -, a job run by the orchestrator. *)
Class Runners (X : Type) := {
  run_container : ContainerRunner → list string → list (string * string) → X → result string Output * X;
  run_placed_job : ServiceSpec → N → X → result DkErr JobOutcome * X }.

(** @ hlb-backup/src/restic.rs:143-157 [Repository] *)
Record Repository := { re_runner : PlacedRunner; re_location : string; re_password : string; re_host : string;
  re_extra_env : list (string * string) }.
(** @ hlb-backup/src/restic.rs:159-175 [Repository::new] *)
Definition new_repository (runner : PlacedRunner) (location password : string) (extra : list (string * string)) : Repository :=
  {| re_runner := runner; re_location := location; re_password := password; re_host := DEFAULT_HOST; re_extra_env := extra |}.
(** @ hlb-backup/src/restic.rs:199-208 [Repository::env] *)
Definition repository_env (r : Repository) : list (string * string) :=
  [("RESTIC_REPOSITORY", re_location r); ("RESTIC_PASSWORD", re_password r)] ++ re_extra_env r.

Section repository.
Context {X : Type} `{!Runners X}.
(** The image restic is run from; the id a line of [--json] says, when it is the summary's; the list
    of snapshots. *)
Context (image : string) (json_summary : string → option string) (json_snapshots : string → option (list Snapshot)).

(** @ hlb-backup-run/src/placement.rs:119-127 [PlacedRunner::run] *)
Definition run (r : PlacedRunner) (args : list string) (env : list (string * string)) : eff X BackupError Output := λ x,
  match r with
  | RunHere c =>
      match run_container c args env x with
      | (Ok o, x) => (Ok o, x)
      | (Err e, x) => (Err (ResticMissing ("docker not found: " +:+ e)), x)
      end
  | RunJob j =>
      match run_placed_job (runner_spec image j args env) JOB_TIMEOUT_S x with
      | (Ok out, x) =>
          let text := join (String "010" "") (jo_output out) in
          (Ok {| out_status := if jo_succeeded out then 0 else 1; out_stdout := text; out_stderr := text |}, x)
      | (Err e, x) => (Err (UnexpectedBackup (dk_display e)), x)
      end
  end.
(** @ hlb-backup/src/restic.rs:210-221 [Repository::exec] *)
Definition exec (r : Repository) (args : list string) : eff X BackupError Output :=
  let! out := run (re_runner r) (waiting args) (repository_env r) in
  if negb (out_ok out) then eff_fail (ResticFailed (join " " args) (trim (out_stderr out))) else eff_ret out.
(** @ hlb-backup/src/restic.rs:228-249 [Repository::init] *)
Definition init (r : Repository) : eff X BackupError () :=
  let! out := run (re_runner r) ["init"] (repository_env r) in
  if out_ok out then eff_ret ()
  else if contains "already initialized" (out_stderr out) || contains "already exists" (out_stderr out)
          || contains "already initialized" (out_stdout out) then eff_ret ()
  else eff_fail (ResticFailed "init" (trim (out_stderr out))).
(** @ hlb-backup/src/restic.rs:63-77 [summary_id] *)
Definition summary_id (stdout : string) : result BackupError string :=
  ok_or (UnexpectedBackup "restic returned no snapshot id") (head (omap json_summary (rev (lines stdout)))).
(** @ hlb-backup/src/restic.rs:256-270 [Repository::backup_paths] *)
Definition backup_paths (r : Repository) (paths tags : list string) : eff X BackupError string :=
  let! out := exec r (backup_args (re_host r) paths tags) in
  eff_of (summary_id (out_stdout out)).
(** @ hlb-backup/src/restic.rs:251-254 [Repository::backup] *)
Definition backup (r : Repository) (path : string) (tags : list string) : eff X BackupError string :=
  backup_paths r [path] tags.
(** @ hlb-backup/src/restic.rs:324-333 [Repository::snapshots] *)
Definition snapshots (r : Repository) (tag : option string) : eff X BackupError (list Snapshot) :=
  let! out := exec r (snapshots_args tag) in
  eff_of (ok_or (UnexpectedBackup "unreadable snapshot list") (json_snapshots (out_stdout out))).
(** @ hlb-backup/src/restic.rs:343-362 [Repository::restore_path] *)
Definition restore_path (r : Repository) (snapshot path : string) : eff X BackupError () :=
  let! _ := exec r (restore_path_args snapshot path) in eff_ret ().
(** @ hlb-backup/src/restic.rs:364-383 [Repository::restore_files_in] *)
Definition restore_files_in (r : Repository) (snapshot dir : string) : eff X BackupError () :=
  let! _ := exec r (restore_files_args snapshot dir) in eff_ret ().
(** @ hlb-backup/src/restic.rs:391-400 [Repository::forget] *)
Definition forget (r : Repository) (policy : Retention.RetentionPolicy) (prune : bool) : eff X BackupError () :=
  let! passes := eff_of (forget_passes policy prune) in
  eff_each (λ args, let! _ := exec r args in eff_ret ()) passes.
End repository.

(** ** Theorems *)

(** *** Places *)

Lemma place_cmp_Eq p q : place_cmp p q = Eq → p = q.
Proof.
  destruct p as [|i h|v], q as [|j k|w]; cbn; try done; unfold then_with.
  - destruct (String.compare i j) eqn:E; try done. apply String.compare_eq_iff in E as ->.
    by intros ->%String.compare_eq_iff.
  - by intros ->%String.compare_eq_iff.
Qed.

Lemma total_cmp_place : total_cmp place_cmp.
Proof.
  set (variant p := match p with Here => 0%nat | OnNode _ _ => 1%nat | UnknownPlace _ => 2%nat end).
  set (one p := match p with Here => "" | OnNode i _ => i | UnknownPlace w => w end).
  set (two p := match p with OnNode _ h => h | _ => "" end).
  apply (total_cmp_ext _ (λ p q, then_with (Nat.compare (variant p) (variant q))
    (then_with (String.compare (one p) (one q)) (String.compare (two p) (two q))))).
  - intros [|i h|v] [|j k|w]; cbn; try done. by destruct (String.compare v w).
  - apply total_cmp_then; [apply (total_cmp_on variant), total_cmp_nat|].
    apply total_cmp_then; [apply (total_cmp_on one), total_cmp_string|apply (total_cmp_on two), total_cmp_string].
Qed.

Lemma place_cmp_refl p : place_cmp p p = Eq.
Proof. destruct total_cmp_place as [H _]. specialize (H p p). by destruct (place_cmp p p). Qed.

(** Places in their order, none twice. *)
Definition place_lt (p q : Place) : Prop := place_cmp p q = Lt.
Definition ordered (l : Places) : Prop := StronglySorted place_lt (l.*1).

Lemma place_lt_trans p q r : place_lt p q → place_lt q r → place_lt p r.
Proof.
  unfold place_lt. destruct total_cmp_place as [Ho Ht]. intros H1 H2.
  pose proof (Ht p q r ltac:(by rewrite H1) ltac:(by rewrite H2)) as H.
  destruct (place_cmp p r) eqn:E; [|done|done]. apply place_cmp_Eq in E as <-.
  rewrite Ho, H1 in H2. done.
Qed.

Lemma place_lt_ne p q : place_lt p q → p ≠ q.
Proof. unfold place_lt. intros H ->. by rewrite place_cmp_refl in H. Qed.

Lemma push_at_keys p v l x : x ∈ (push_at p v l).*1 → x = p ∨ x ∈ l.*1.
Proof.
  induction l as [|[q vs] l IH]; cbn; [intros ->%list_elem_of_singleton; by left|].
  destruct (place_cmp p q); cbn; rewrite ?elem_of_cons; [tauto|tauto|].
  intros [->|H]; [tauto|]. apply IH in H. tauto.
Qed.

Lemma push_at_ordered p v l : ordered l → ordered (push_at p v l).
Proof.
  unfold ordered. induction l as [|[q vs] l IH]; cbn; [by repeat constructor|]. intros Hs.
  inversion Hs as [|? ? Hl Hq]; subst. destruct (place_cmp p q) eqn:E; cbn.
  - done.
  - constructor; [done|]. constructor; [done|]. eapply Forall_impl; [exact Hq|]. intros r.
    by apply place_lt_trans.
  - constructor; [by apply IH|]. apply Forall_forall. intros r [->|Hr]%push_at_keys.
    + unfold place_lt. destruct total_cmp_place as [-> _]. by rewrite E.
    + rewrite Forall_forall in Hq. by apply Hq.
Qed.

(** What a map of places holds at one. *)
Definition at_place (p : Place) (l : Places) : list string := concat (snd <$> keep (λ e, e.1 ==? p) l).

Lemma at_place_cons p q vs l : at_place p ((q, vs) :: l) = (if decide (q = p) then vs else []) ++ at_place p l.
Proof.
  unfold at_place. rewrite keep_cons. cbn. destruct (decide (q = p)) as [->|Hn].
  - by rewrite bool_decide_eq_true_2.
  - by rewrite bool_decide_eq_false_2.
Qed.

Lemma at_place_absent p l : p ∉ l.*1 → at_place p l = [].
Proof.
  induction l as [|[q vs] l IH]; [done|]. rewrite fmap_cons, elem_of_cons, at_place_cons. cbn [fst]. intros Hn.
  destruct (decide (q = p)) as [->|]; [tauto|]. apply IH. tauto.
Qed.

Lemma above_absent p (l : Places) : Forall (place_lt p) (l.*1) → p ∉ l.*1.
Proof. rewrite Forall_forall. intros H Hin. by apply H, place_lt_ne in Hin. Qed.

Lemma at_place_push p q v l :
  ordered l → at_place p (push_at q v l) = at_place p l ++ if decide (q = p) then [v] else [].
Proof.
  unfold ordered. induction l as [|[r vs] l IH]; cbn [push_at].
  - intros _. rewrite at_place_cons. destruct (decide (q = p)); done.
  - intros Hs. inversion Hs as [|? ? Hl Hr]; subst. destruct (place_cmp q r) eqn:E.
    + apply place_cmp_Eq in E as ->. rewrite !at_place_cons. apply above_absent in Hr.
      destruct (decide (r = p)) as [->|]; [|by rewrite app_nil_r]. rewrite (at_place_absent p l) by done.
      by rewrite !app_nil_r.
    + rewrite at_place_cons. destruct (decide (q = p)) as [->|]; [|by rewrite app_nil_r].
      rewrite (at_place_absent p ((r, vs) :: l)); [done|]. apply above_absent. constructor; [exact E|].
      eapply Forall_impl; [exact Hr|]. intros x. by apply place_lt_trans.
    + rewrite !at_place_cons, IH by done. by rewrite app_assoc.
Qed.

Lemma at_place_entry p vs l : ordered l → (p, vs) ∈ l → at_place p l = vs.
Proof.
  unfold ordered. induction l as [|[q ws] l IH]; [by intros _ ?%elem_of_nil|]. rewrite fmap_cons. cbn [fst]. intros Hs.
  inversion Hs as [|? ? Hl Hq]; subst. rewrite elem_of_cons, at_place_cons. intros [[= -> ->]|Hin].
  - rewrite decide_True by done. rewrite at_place_absent; [by rewrite app_nil_r|]. by apply above_absent.
  - rewrite decide_False; [by apply IH|]. intros ->. apply above_absent in Hq. apply Hq.
    by apply (list_elem_of_fmap_2 fst _ (p, vs)).
Qed.

Section located.
Context (services : list string) (tasks : list TaskInfo) (nodes : list NodeInfo) (local : option string).

Lemma push_at_filled q v l : Forall (λ e, e.2 ≠ []) l → Forall (λ e, e.2 ≠ []) (push_at q v l).
Proof.
  induction 1 as [|[r vs] l Hv Hl IH]; cbn [push_at]; [by repeat constructor|].
  destruct (place_cmp q r); repeat (constructor; try done). cbn. by destruct vs.
Qed.

(** Each volume of an app is looked for on one machine, the same whatever the others, and every
    volume is in the set of its machine, in the order given, nothing else is, and no machine has an
    empty set or two: a pass reads each volume once, where its service's data is. *)
Theorem locate_spec volumes :
  let l := locate volumes services tasks nodes local in
  NoDup (l.*1) ∧
  ∀ p vs, (p, vs) ∈ l ↔ vs = keep (λ v, place_of services tasks nodes local v ==? p) volumes ∧ vs ≠ [].
Proof.
  cbn zeta. unfold locate. set (f := place_of services tasks nodes local).
  assert (H : ∀ vs l, ordered l → Forall (λ e, e.2 ≠ []) l →
    let out := foldl (λ out v, push_at (f v) v out) l vs in
    ordered out ∧ Forall (λ e, e.2 ≠ []) out ∧
    ∀ p, at_place p out = at_place p l ++ keep (λ v, f v ==? p) vs).
  { induction vs as [|v vs IH]; intros l Ho Hf; cbn [foldl]; [split_and!; [done|done|]; intros p; by rewrite app_nil_r|].
    destruct (IH (push_at (f v) v l)) as (H1 & H2 & H3); [by apply push_at_ordered|by apply push_at_filled|].
    split_and!; [done|done|]. intros p. rewrite H3, at_place_push, keep_cons by done.
    destruct (decide (f v = p)) as [->|Hn]; [rewrite bool_decide_eq_true_2 by done|rewrite bool_decide_eq_false_2 by done];
      by rewrite <- app_assoc. }
  destruct (H volumes []) as (H1 & H2 & H3); [constructor|constructor|]. set (out := foldl _ _ _) in *.
  split.
  - unfold ordered in H1. clear -H1. induction H1 as [|p l _ IH Hp]; constructor; [|done].
    intros Hin. rewrite Forall_forall in Hp. by apply Hp, place_lt_ne in Hin.
  - intros p vs. split.
    + intros Hin. rewrite <- (at_place_entry p vs out H1 Hin), H3. split; [done|].
      rewrite <- H3, (at_place_entry p vs out H1 Hin). rewrite Forall_forall in H2. exact (H2 _ Hin).
    + intros [-> Hne]. destruct (decide (p ∈ out.*1)) as [Hin|Hn].
      * apply list_elem_of_fmap in Hin as ([q ws] & -> & Hin). cbn in *.
        by rewrite <- (app_nil_l (keep _ _)), <- (H3 q), (at_place_entry q ws out H1 Hin).
      * apply at_place_absent in Hn. rewrite H3 in Hn. done.
Qed.
End located.

(** *** The job *)

Definition env_path (k : string) : string := if k ==? "RESTIC_PASSWORD" then PASSWORD_FILE else ENV_DIR +:+ "/" +:+ k.
(** A specification without what its files hold. *)
Definition without_files (s : ServiceSpec) : ServiceSpec := with_files [] s.

Lemma env_files_go env j vars b :
  foldl env_file (j, vars, b) env =
  (with_files (ss_files j ++ ((λ '(k, v), (env_path k, v)) <$> env)) j,
   vars ++ ((λ _, ("RESTIC_PASSWORD_FILE", PASSWORD_FILE)) <$> keep (λ k, k ==? "RESTIC_PASSWORD") (env.*1)),
   b || any_of (λ k, negb (k ==? "RESTIC_PASSWORD")) (env.*1)).
Proof.
  revert j vars b. induction env as [|[k v] env IH]; intros j vars b.
  - cbn. rewrite !app_nil_r, orb_false_r. by destruct j.
  - cbn [foldl env_file]. unfold env_path. case_bool_decide as Hk; rewrite IH.
    + subst. rewrite !fmap_cons. cbn [fst any_of existsb]. rewrite keep_cons, bool_decide_eq_true_2 by done.
      unfold file. destruct j. cbn. by rewrite <- !app_assoc.
    + rewrite !fmap_cons. cbn [fst any_of existsb]. rewrite keep_cons, bool_decide_eq_false_2 by done.
      cbn [negb orb]. rewrite orb_true_r. unfold file. destruct j. cbn. by rewrite <- !app_assoc.
Qed.

Lemma mounted_files (mounts : list (string * string)) j :
  ss_files (foldl (λ j m, mount_volume m.1 m.2 j) j mounts) = ss_files j.
Proof. revert j. induction mounts as [|m mounts IH]; intros j; [done|]. cbn. rewrite IH. by destruct j. Qed.

(** No value of restic's environment - its password, a bucket's keys - is in the command, the
    environment, the labels or any other part of the job it runs as: for other values under the same
    names, the job is the same but for what its files hold. Each value is one file, under its name. *)
Theorem job_hides_secrets j mounts net writes args env env' :
  env.*1 = env'.*1 →
  without_files (job_spec j mounts net writes args env) = without_files (job_spec j mounts net writes args env') ∧
  ss_files (job_spec j mounts net writes args env) = ss_files j ++ ((λ '(k, v), (env_path k, v)) <$> env).
Proof.
  intros Hk. unfold job_spec. rewrite !env_files_go, Hk.
  pose proof (mounted_files mounts j) as Hm. set (j1 := foldl _ j mounts) in *.
  assert (H : ∃ j2, (if net is Some n then network n j1 else j1) = j2 ∧ ss_files j2 = ss_files j).
  { destruct net as [n|]; eexists; (split; [done|]); [|done]. rewrite <- Hm. by destruct j1. }
  destruct H as (j2 & -> & <-). destruct j2. cbn. split; done.
Qed.

Lemma job_hides_secrets_witness :
  [("RESTIC_PASSWORD", "one")].*1 = [("RESTIC_PASSWORD", "two")].*1 ∧
  without_files (runner_spec "restic/restic:0.19.1" {| jr_node := "n1"; jr_mounts := []; jr_network := None;
    jr_name := "hlb-backup-gitea"; jr_writes := false |} ["snapshots"] [("RESTIC_PASSWORD", "one")]) =
  without_files (runner_spec "restic/restic:0.19.1" {| jr_node := "n1"; jr_mounts := []; jr_network := None;
    jr_name := "hlb-backup-gitea"; jr_writes := false |} ["snapshots"] [("RESTIC_PASSWORD", "two")]).
Proof. split; [reflexivity|]. unfold runner_spec. apply (job_hides_secrets _ _ _ _ _ [("RESTIC_PASSWORD", "one")] [("RESTIC_PASSWORD", "two")] eq_refl). Defined.

(** *** Forgetting *)

(** A flag given with its count. *)
Definition gives (flag : string) (n : N) (args : list string) : Prop := ∃ a b, args = a ++ [flag; show_N n] ++ b.

Lemma gives_app flag n a args b : gives flag n args → gives flag n (a ++ args ++ b).
Proof. intros (x & y & ->). exists (a ++ x), (y ++ b). by rewrite <- !app_assoc. Qed.

Lemma kept_flag policy : Retention.keeps_something policy = true →
  ∃ flag n, (0 < n)%N ∧ (flag, n) ∈ Retention.flags policy ∧ gives flag n (Retention.to_args policy).
Proof.
  intros H.
  assert (Hn : ∃ e, e ∈ Retention.flags policy ∧ (0 < e.2)%N).
  { destruct (decide (Exists (λ e, (0 < e.2)%N) (Retention.flags policy))) as [He|He].
    - apply Exists_exists in He as (e & He & Hp). eauto.
    - exfalso. apply not_Exists_Forall in He; [|intros ?; apply _].
      assert (Hz : ∀ e, e ∈ Retention.flags policy → e.2 = 0%N).
      { rewrite Forall_forall in He. intros e Hin. specialize (He e Hin). unfold compose in He. lia. }
      unfold Retention.flags in Hz. destruct policy as [h d w m y]. cbn in Hz.
      pose proof (Hz ("--keep-hourly", h) ltac:(by repeat constructor)).
      pose proof (Hz ("--keep-daily", d) ltac:(by repeat constructor)).
      pose proof (Hz ("--keep-weekly", w) ltac:(by repeat constructor)).
      pose proof (Hz ("--keep-monthly", m) ltac:(by repeat constructor)).
      pose proof (Hz ("--keep-yearly", y) ltac:(by repeat constructor)). cbn in *. by subst. }
  destruct Hn as ([flag n] & Hin & Hp). cbn in Hp. exists flag, n. split; [done|]. split; [done|].
  unfold Retention.to_args. apply list_elem_of_split in Hin as (l1 & l2 & ->).
  rewrite bind_app, bind_cons, (proj2 (N.ltb_lt _ _) Hp). by eexists _, _.
Qed.

(** Forgetting never empties a repository by way of its policy: of two commands, each names at
    least one period with a count above zero, and a policy with no such count runs none at all. The
    space is reclaimed, where it is asked, by the last command alone. *)
Theorem forget_keeps policy prune :
  (∀ passes, forget_passes policy prune = Ok passes →
     Forall (λ args, ∃ flag n, (0 < n)%N ∧ (flag, n) ∈ Retention.flags policy ∧ gives flag n args) passes ∧
     ∃ files dumps, passes = [files; dumps ++ if prune then ["--prune"] else []] ∧
       forget_passes policy false = Ok [files; dumps]) ∧
  (Forall (λ e, e.2 = 0%N) (Retention.flags policy) → forget_passes policy prune = Err EmptyRetention).
Proof.
  unfold forget_passes. split.
  - intros passes. destruct (Retention.keeps_something policy) eqn:Hk; [|done]. intros [= <-].
    destruct (kept_flag policy Hk) as (flag & n & Hp & Hin & Hs). split.
    + repeat constructor; exists flag, n; (split; [done|]; split; [done|]).
      * rewrite <- (app_nil_r (Retention.to_args policy)). exact (gives_app flag n ["forget"] _ [] Hs).
      * exact (gives_app flag n ["forget"; "--tag"; "kind:sql-dump"; "--group-by"; "host,tags"] _ _ Hs).
    + eexists _, (["forget"; "--tag"; "kind:sql-dump"; "--group-by"; "host,tags"] ++ Retention.to_args policy).
      split; [by rewrite <- app_assoc|]. cbn [mbind result_bind refuse_if negb]. by rewrite app_nil_r.
  - intros Hz. destruct (Retention.keeps_something policy) eqn:Hk; [|done].
    destruct (kept_flag policy Hk) as (flag & n & Hp & Hin & _). rewrite Forall_forall in Hz.
    specialize (Hz _ Hin). cbn in Hz. lia.
Qed.
