(* ===== verification/Tarball.v ===== *)
(** * A bucket as one stream

    [crates/hlb-backup/src/tarball.rs]: the archive a bucket is saved as, written object after object
    and read back the same way, and [crates/hlb-backup-run/src/bucket.rs]: what is written in it, and
    what a restore puts back. A stream read is served in any pieces; the store of the buckets is an
    interface. *)

From S2P Require Import Prelude RustStr Archive Restic.

#[local] Open Scope hlb_scope.

(** A refusal, or the panic of an index out of its slice. *)
Inductive Stopped := Refused (e : BackupError) | Panicked.
Definition unexpected (why : string) : Stopped := Refused (UnexpectedBackup why).
Definition stopped (s : Stopped) : string := match s with Refused e => backup_error e | Panicked => "panic" end.

(** ** The pipe *)

(** @ hlb-backup/src/tarball.rs:38-42 [Sink] *)
Record Sink := { sk_bytes : list ascii; sk_closed : bool }.
(** What a reader reads: the bytes, and the error it meets at their end, if not a clean one. *)
Record Source := { so_bytes : list ascii; so_end : option string }.
(** An end the writer did not say is an error. @ hlb-backup/src/tarball.rs:69-88 [Source::poll_read] *)
Definition source_of (s : Sink) : Source :=
  {| so_bytes := sk_bytes s;
     so_end := if sk_closed s then None else Some "the archive's writer stopped before it finished it" |}.

(** ** Blocks *)

(** @ hlb-backup/src/tarball.rs:90-90 [BLOCK] *)
Definition BLOCK : N := 512.
(** @ hlb-backup/src/tarball.rs:92-94 [TRAILER] *)
Definition TRAILER : string := ".homelabus-complete".
(** @ hlb-backup/src/tarball.rs:96-98 [HEADER] *)
Definition HEADER : string := "HOMELABUS.header.".
(** @ hlb-backup/src/tarball.rs:100-101 [USTAR_MAX] *)
Definition USTAR_MAX : N := 8589934591.
(** @ hlb-backup/src/tarball.rs:103-113 [Entry] *)
Record Entry := { en_path : string; en_size : N; en_mtime : Z; en_headers : list (string * string) }.
#[global] Instance Entry_eq_dec : EqDecision Entry.
Proof. solve_decision. Defined.

Definition NUL : ascii := ascii_of_N 0.
Definition NL : ascii := ascii_of_N 10.
Definition zeros (n : nat) : list ascii := replicate n NUL.
(** The length counts itself. @ hlb-backup/src/tarball.rs:118-121 [record] *)
Fixpoint counted_length (fuel : nat) (rest n : N) : N :=
  match fuel with
  | O => n
  | S fuel => if (N.of_nat (String.length (show_N n)) + rest =? n)%N then n else counted_length fuel rest (n + 1)
  end.
(** @ hlb-backup/src/tarball.rs:115-123 [record] *)
Definition record (key value : string) : string :=
  let rest := " " +:+ key +:+ "=" +:+ value +:+ String NL "" in
  let n := N.of_nat (String.length rest) in
  show_N (counted_length (S (S (String.length rest))) n (n + 1)) +:+ rest.
(** The last digits, after zeros. @ hlb-backup/src/tarball.rs:125-131 [octal] *)
Fixpoint oct_digits (d : nat) (v : N) : list ascii :=
  match d with O => [] | S d => oct_digits d (v / 8) ++ [digit_char (v mod 8)] end.
(** @ hlb-backup/src/tarball.rs:125-131 [octal] *)
Definition octal (field : nat) (v : N) : list ascii := oct_digits (field - 1) v ++ [NUL].
Definition sum_bytes (l : list ascii) : N := foldl (λ s c, s + byte_of c)%N 0%N l.
(** A header block around the field of its sum. @ hlb-backup/src/tarball.rs:136-152 [ustar] *)
Definition ustar_around (name : string) (size : N) (mtime : Z) (kind : ascii) (sum : list ascii) : list ascii :=
  let short := take 99 (keep (λ c, byte_of c <? 128)%N (chars name)) in
  (short ++ zeros (100 - length short) ++ octal 8 420 ++ octal 8 0 ++ octal 8 0) ++
  octal 12 (N.min size USTAR_MAX) ++ octal 12 (Z.to_N (Z.max mtime 0)) ++ sum ++ [kind] ++
  (zeros 100 ++ chars "ustar" ++ [NUL] ++ chars "00" ++ zeros 247).
(** @ hlb-backup/src/tarball.rs:133-157 [ustar] *)
Definition ustar (name : string) (size : N) (mtime : Z) (kind : ascii) : list ascii :=
  ustar_around name size mtime kind
    (oct_digits 6 (sum_bytes (ustar_around name size mtime kind (replicate 8 " "%char))) ++ [NUL; " "%char]).
(** @ hlb-backup/src/tarball.rs:159-161 [padding] *)
Definition padding (size : N) : N := ((BLOCK - size mod BLOCK) mod BLOCK)%N.
Definition pad (size : N) : list ascii := zeros (N.to_nat (padding size)).

(** ** Writing *)

(** @ hlb-backup/src/tarball.rs:163-170 [Writer] *)
Record Writer := { wr_out : Sink; wr_count : N; wr_owed : N; wr_size : N }.
(** @ hlb-backup/src/tarball.rs:173-180 [Writer::new] *)
Definition new_writer : Writer := {| wr_out := {| sk_bytes := []; sk_closed := false |}; wr_count := 0; wr_owed := 0; wr_size := 0 |}.
Definition write_all (l : list ascii) : eff Writer Stopped () := eff_put (λ w,
  {| wr_out := {| sk_bytes := sk_bytes (wr_out w) ++ l; sk_closed := sk_closed (wr_out w) |};
     wr_count := wr_count w; wr_owed := wr_owed w; wr_size := wr_size w |}).
(** What an object's path, size and headers travel in. @ hlb-backup/src/tarball.rs:195-201 [Writer::start] *)
Definition pax_records (e : Entry) : list (string * string) :=
  ("path", en_path e) :: (if (USTAR_MAX <? en_size e)%N then [("size", show_N (en_size e))] else []) ++
  ((λ '(k, v), (HEADER +:+ k, v)) <$> en_headers e).
(** @ hlb-backup/src/tarball.rs:195-201 [Writer::start] *)
Definition written (kvs : list (string * string)) : list ascii := kvs ≫= λ '(k, v), chars (record k v).
(** @ hlb-backup/src/tarball.rs:182-215 [Writer::start] *)
Definition start (e : Entry) : eff Writer Stopped () :=
  let! owed := eff_get wr_owed in
  if negb (owed =? 0)%N then
    eff_fail (unexpected ("archive: " +:+ show_N owed +:+ " bytes still owed to the previous object"))
  else if en_path e ==? TRAILER then
    eff_fail (unexpected ("archive: an object named " +:+ TRAILER +:+ " would read as the archive's end"))
  else
    let pax := written (pax_records e) in
    let n := N.of_nat (length pax) in
    write_all (ustar "PaxHeader" n (en_mtime e) "x") ;;!
    write_all pax ;;!
    write_all (pad n) ;;!
    write_all (ustar (en_path e) (en_size e) (en_mtime e) "0") ;;!
    eff_put (λ w, {| wr_out := wr_out w; wr_count := wr_count w; wr_owed := en_size e; wr_size := en_size e |}).
(** More than it said it holds is refused. @ hlb-backup/src/tarball.rs:217-228 [Writer::write] *)
Definition write (chunk : list ascii) : eff Writer Stopped () :=
  let! owed := eff_get wr_owed in
  if (owed <? N.of_nat (length chunk))%N then
    eff_fail (unexpected "archive: the object is longer than its size — it changed while read")
  else
    write_all chunk ;;!
    eff_put (λ w, {| wr_out := wr_out w; wr_count := wr_count w; wr_owed := wr_owed w - N.of_nat (length chunk); wr_size := wr_size w |}).
(** @ hlb-backup/src/tarball.rs:230-243 [Writer::end_entry] *)
Definition end_entry : eff Writer Stopped () :=
  let! owed := eff_get wr_owed in
  if negb (owed =? 0)%N then
    eff_fail (unexpected ("archive: the object ended " +:+ show_N owed +:+ " bytes short of its size"))
  else
    let! size := eff_get wr_size in
    write_all (pad size) ;;!
    eff_put (λ w, {| wr_out := wr_out w; wr_count := wr_count w + 1; wr_owed := wr_owed w; wr_size := wr_size w |}).
(** The trailer, whole but for its padding. @ hlb-backup/src/tarball.rs:248-252 [Writer::finish] *)
Definition trailer (count : N) : list ascii :=
  let digits := chars (show_N count) in ustar TRAILER (N.of_nat (length digits)) 0 "0" ++ digits.
(** What follows it. @ hlb-backup/src/tarball.rs:253-256 [Writer::finish] *)
Definition after_trailer (count : N) : list ascii :=
  pad (N.of_nat (String.length (show_N count))) ++ zeros (N.to_nat (2 * BLOCK)).
(** @ hlb-backup/src/tarball.rs:245-260 [Writer::finish] *)
Definition finish : eff Writer Stopped N :=
  let! count := eff_get wr_count in
  write_all (trailer count) ;;!
  write_all (after_trailer count) ;;!
  eff_put (λ w, {| wr_out := {| sk_bytes := sk_bytes (wr_out w); sk_closed := true |};
                   wr_count := wr_count w; wr_owed := wr_owed w; wr_size := wr_size w |}) ;;!
  eff_ret count.

(** An object of a bucket, as it is read: its key and date, then, once opened, its size and headers,
    its bytes in pieces, and the error the reading may stop at. *)
Record Download := { dl_size : N; dl_headers : list (string * string); dl_chunks : list (list ascii); dl_broken : option string }.
Record Object_ := { ob_key : string; ob_modified : Z; ob_open : result string Download }.
(** @ hlb-backup-run/src/bucket.rs:93-98 [write_archive] *)
Definition entry_of (o : Object_) (d : Download) : Entry :=
  {| en_path := ob_key o; en_size := dl_size d; en_mtime := ob_modified o; en_headers := dl_headers d |}.
Definition saying {S A} (f : string → string) (m : eff S Stopped A) : eff S string A := λ s,
  let '(r, s) := m s in (map_err (λ e, f (stopped e)) r, s).
(** @ hlb-backup-run/src/bucket.rs:92-107 [write_archive] *)
Definition write_object (o : Object_) : eff Writer string () :=
  let of_it e := ob_key o +:+ ": " +:+ e in
  let! d := eff_of (ob_open o) in
  saying of_it (start (entry_of o d)) ;;!
  eff_each (λ c, saying of_it (write c)) (dl_chunks d) ;;!
  eff_of (match dl_broken d with Some e => Err e | None => Ok () end) ;;!
  saying of_it end_entry.
(** @ hlb-backup-run/src/bucket.rs:84-109 [write_archive] *)
Definition write_archive (objects : result string (list Object_)) : eff Writer string N :=
  let! objects := eff_of objects in
  eff_each write_object objects ;;!
  saying id finish.

(** ** Reading *)

(** @ hlb-backup/src/tarball.rs:263-270 [Reader] *)
Record Reader := { rd_input : Source; rd_left : N; rd_pad : N; rd_count : N }.
(** @ hlb-backup/src/tarball.rs:273-280 [Reader::new] *)
Definition new_reader (s : Source) : Reader := {| rd_input := s; rd_left := 0; rd_pad := 0; rd_count := 0 |}.
Definition with_input (l : list ascii) (r : Reader) : Reader :=
  {| rd_input := {| so_bytes := l; so_end := so_end (rd_input r) |}; rd_left := rd_left r; rd_pad := rd_pad r; rd_count := rd_count r |}.
Definition with_owed (left pad : N) (r : Reader) : Reader :=
  {| rd_input := rd_input r; rd_left := left; rd_pad := pad; rd_count := rd_count r |}.
Definition counted (r : Reader) : Reader :=
  {| rd_input := rd_input r; rd_left := rd_left r; rd_pad := rd_pad r; rd_count := rd_count r + 1 |}.
(** @ hlb-backup/src/tarball.rs:414-419 [incomplete] *)
Definition incomplete : Stopped :=
  unexpected ("archive: it ends before its " +:+ TRAILER +:+ " — a bucket read that failed halfway, which would restore without the objects after the cut").
(** A byte as the character of its number. *)
Definition latin1 (l : list ascii) : string :=
  of_chars (l ≫= λ c, if (byte_of c <? 128)%N then [c] else [ascii_of_N (192 + byte_of c / 64); ascii_of_N (128 + byte_of c mod 64)]).
Fixpoint parse_octal_digits (acc : N) (s : string) : option N :=
  match s with
  | "" => Some acc
  | String c s => if is_digit c && (digit_value c <? 8)%N then parse_octal_digits (8 * acc + digit_value c)%N s else None
  end.
(** [u64::from_str_radix] in base 8. *)
Definition from_octal (s : string) : option N :=
  let digits := default s (strip_prefix "+" s) in
  if str_is_empty digits then None else
  n ← parse_octal_digits 0 digits; if (n <? 2 ^ 64)%N then Some n else None.
Fixpoint until_blank (l : list ascii) : list ascii :=
  match l with [] => [] | c :: l => if (c ==? NUL) || (c ==? " "%char) then [] else c :: until_blank l end.
(** @ hlb-backup/src/tarball.rs:421-431 [parse_octal] *)
Definition parse_octal (field : list ascii) : result Stopped N :=
  let s := latin1 (until_blank field) in
  if str_is_empty s then Ok 0%N
  else ok_or (unexpected ("archive: unreadable number " +:+ debug_str s)) (from_octal (trim s)).
Fixpoint up_to_space (l : list ascii) : option (list ascii * list ascii) :=
  match l with
  | [] => None
  | c :: l => if c ==? " "%char then Some ([], l) else '(a, b) ← up_to_space l; Some (c :: a, b)
  end.
Definition usize_max : N := 2 ^ 64 - 1.
(** A length that leaves its record no room, not even its newline, is an index out of the slice.
    @ hlb-backup/src/tarball.rs:437-451 [parse_pax] *)
Definition parse_record (rest : list ascii) : result Stopped (option (string * string) * list ascii) :=
  '(digits, after) ← ok_or (unexpected "archive: unreadable pax record") (up_to_space rest);
  let space := length digits in
  n ← ok_or (unexpected "archive: unreadable pax length")
        (s ← from_utf8 digits; n ← parse_uint usize_max s;
         if (N.of_nat space <? n)%N && (n <=? N.of_nat (length rest))%N then Some n else None);
  let n := N.to_nat n in
  if (n =? S space)%nat then Err Panicked
  else
    rec ← ok_or (unexpected "archive: a pax record is not UTF-8") (from_utf8 (take (n - S space - 1) after));
    Ok (split_once "=" rec, drop n rest).
(** @ hlb-backup/src/tarball.rs:433-454 [parse_pax] *)
Fixpoint parse_pax_go (fuel : nat) (rest : list ascii) : result Stopped (list (string * string)) :=
  match fuel, rest with
  | O, _ | _, [] => Ok []
  | S fuel, c :: _ =>
      if c ==? NUL then Ok []
      else
        '(kv, rest) ← parse_record rest;
        kvs ← parse_pax_go fuel rest;
        Ok (option_list kv ++ kvs)
  end.
(** @ hlb-backup/src/tarball.rs:433-454 [parse_pax] *)
Definition parse_pax (body : list ascii) : result Stopped (list (string * string)) := parse_pax_go (length body) body.

Section reading.
(** How many bytes a stream serves when so many are wanted and so many are left: one at least. *)
Context (serve : N → nat → nat).
Definition served (want : N) (have : nat) : nat := Nat.max 1 (Nat.min (serve want have) (Nat.min (N.to_nat (N.min want (N.of_nat have))) have)).

(** One reading: nothing at the end. *)
Definition poll (want : N) : eff Reader Stopped (list ascii) := λ r,
  let input := so_bytes (rd_input r) in
  match input, so_end (rd_input r) with
  | [], Some e => (Err (Refused (IoError e)), r)
  | [], None => (Ok [], r)
  | _, _ => let n := served want (length input) in (Ok (take n input), with_input (drop n input) r)
  end.
(** As many bytes as that, or the error of an end come first. *)
Definition read_exact (short : option string → Stopped) (n : N) : eff Reader Stopped (list ascii) := λ r,
  let input := so_bytes (rd_input r) in
  if (n <=? N.of_nat (length input))%N then (Ok (take (N.to_nat n) input), with_input (drop (N.to_nat n) input) r)
  else (Err (short (so_end (rd_input r))), with_input [] r).
(** @ hlb-backup/src/tarball.rs:282-292 [Reader::drain] *)
Definition drain : eff Reader Stopped () := λ r,
  (match so_end (rd_input r) with
   | Some e => Err (unexpected ("reading the archive's end: " +:+ e))
   | None => Ok ()
   end, with_input [] r).
(** @ hlb-backup/src/tarball.rs:294-301 [Reader::block] *)
Definition block : eff Reader Stopped (list ascii) :=
  read_exact (λ e, match e with None => incomplete | Some e => Refused (IoError e) end) BLOCK.
(** @ hlb-backup/src/tarball.rs:305-312 [Reader::skip] *)
Fixpoint skip_go (fuel : nat) (n : N) : eff Reader Stopped () :=
  match fuel with
  | O => eff_ret ()
  | S fuel =>
      if (n =? 0)%N then eff_ret ()
      else
        let! got := poll (N.min n 8192) in
        match got with [] => eff_fail incomplete | _ => skip_go fuel (n - N.of_nat (length got)) end
  end.
(** Each turn takes a byte. @ hlb-backup/src/tarball.rs:303-314 [Reader::skip] *)
Definition skip (n : N) : eff Reader Stopped () := λ r, skip_go (S (length (so_bytes (rd_input r)))) n r.

(** [{:?}] of a byte as the character of its number. *)
Definition debug_kind (c : ascii) : string :=
  let shown := if (byte_of c =? 39)%N then "\'" else if (byte_of c =? 34)%N then String c ""
    else if (byte_of c <? 128)%N then debug_char c
    else if (byte_of c <=? 160)%N || (byte_of c =? 173)%N then
      "\u{" +:+ String (hex_lower (byte_of c / 16)) (String (hex_lower (byte_of c mod 16)) "}")
    else latin1 [c] in
  "'" +:+ shown +:+ "'".
(** @ hlb-backup/src/tarball.rs:344-355 [Reader::next] *)
Definition named (pax : list (string * string)) (k : string) : option string :=
  snd <$> head (keep (λ kv, kv.1 ==? k) pax).
Definition entry_in (pax : list (string * string)) (h : list ascii) (size : N) : string * N :=
  (default (trim_end_matches NUL (from_utf8_lossy (take 100 h))) (named pax "path"),
   default size (named pax "size" ≫= parse_uint usize_max)).
(** @ hlb-backup/src/tarball.rs:356-373 [Reader::next] *)
Definition at_trailer (size : N) : eff Reader Stopped (option Entry) :=
  let! body := read_exact (λ _, incomplete) (N.min size 32) in
  let! said := eff_of (ok_or incomplete (parse_uint usize_max (trim (from_utf8_lossy body)))) in
  let! count := eff_get rd_count in
  if negb (said =? count)%N then
    eff_fail (unexpected ("archive: its trailer counts " +:+ show_N said +:+ " objects, " +:+ show_N count +:+ " were read"))
  else eff_ret None.
(** @ hlb-backup/src/tarball.rs:374-387 [Reader::next] *)
Definition at_object (pax : list (string * string)) (path : string) (size mtime : N) : eff Reader Stopped (option Entry) :=
  eff_put (λ r, counted (with_owed size (padding size) r)) ;;!
  eff_ret (Some {| en_path := path; en_size := size; en_mtime := Z.of_N mtime;
                   en_headers := omap (λ '(k, v), h ← strip_prefix HEADER k; Some (h, v)) pax |}).
(** @ hlb-backup/src/tarball.rs:325-396 [Reader::next] *)
Fixpoint next_go (fuel : nat) (pax : list (string * string)) : eff Reader Stopped (option Entry) :=
  match fuel with
  | O => eff_fail incomplete
  | S fuel =>
      let! h := block in
      if all_of (λ c, c ==? NUL) h then eff_fail incomplete
      else
        let! size := eff_of (parse_octal (take 12 (drop 124 h))) in
        let! mtime := eff_of (parse_octal (take 12 (drop 136 h))) in
        let kind := default NUL (h !! 156%nat) in
        if kind ==? "x"%char then
          let! body := read_exact (λ _, incomplete) size in
          skip (padding size) ;;!
          let! pax := eff_of (parse_pax body) in
          next_go fuel pax
        else if (kind ==? "0"%char) || (kind ==? NUL) then
          let '(path, size) := entry_in pax h size in
          if path ==? TRAILER then at_trailer size else at_object pax path size mtime
        else eff_fail (unexpected ("archive: an entry of type " +:+ debug_kind kind +:+ ", which no bucket archive holds"))
  end.
(** Each turn takes a block. @ hlb-backup/src/tarball.rs:316-397 [Reader::next] *)
Definition next : eff Reader Stopped (option Entry) :=
  let! rest := eff_get (λ r, rd_left r + rd_pad r)%N in
  skip rest ;;!
  eff_put (with_owed 0 0) ;;!
  λ r, next_go (S (length (so_bytes (rd_input r)))) [] r.
(** @ hlb-backup/src/tarball.rs:399-411 [Reader::read] *)
Definition read (buf : N) : eff Reader Stopped (list ascii) :=
  let! owed := eff_get rd_left in
  if (owed =? 0)%N then eff_ret []
  else
    let! got := poll (N.min owed buf) in
    match got with
    | [] => eff_fail incomplete
    | _ => eff_put (λ r, with_owed (rd_left r - N.of_nat (length got)) (rd_pad r) r) ;;! eff_ret got
    end.
Definition BUFFER : N := 256 * 1024.
(** The pieces of the current object, and the error they stop at if any.
    @ hlb-backup-run/src/bucket.rs:219-224 [read_archive] *)
Fixpoint pieces_go (fuel : nat) : Reader → list (list ascii) * option Stopped * Reader := λ r,
  match fuel with
  | O => ([], None, r)
  | S fuel =>
      match read BUFFER r with
      | (Err e, r) => ([], Some e, r)
      | (Ok [], r) => ([], None, r)
      | (Ok got, r) => let '(l, e, r) := pieces_go fuel r in (got :: l, e, r)
      end
  end.
Definition pieces (r : Reader) : list (list ascii) * option Stopped * Reader := pieces_go (S (length (so_bytes (rd_input r)))) r.

(** ** A bucket put back *)

(** The store: [bk_put] is a request to write a key, with headers and a content that may break off, and
    its answer, a status and the start of its text. *)
Class Buckets (X : Type) := {
  bk_list : X → result string (list string) * X;
  bk_put : string → list (string * string) → list ascii → option string → X → result string (N * string) * X;
  bk_delete : string → X → result string N * X }.
Context {X : Type} `{!Buckets X}.

(** @ hlb-backup-run/src/bucket.rs:181-186 [Read] *)
Record Read := { re_objects : N; re_bytes : N }.
(** Each object takes a block. @ hlb-backup-run/src/bucket.rs:217-227 [read_archive] *)
Fixpoint read_objects (fuel : nat) (seen : Read) : eff Reader string Read :=
  match fuel with
  | O => eff_fail (stopped incomplete)
  | S fuel =>
      let! e := saying id next in
      match e with
      | None => saying id drain ;;! eff_ret seen
      | Some _ => λ r,
          let '(l, broken, r) := pieces r in
          match broken with
          | Some e => (Err (stopped e), r)
          | None => read_objects fuel {| re_objects := re_objects seen + 1;
                                         re_bytes := foldl (λ n c, n + N.of_nat (length c))%N (re_bytes seen) l |} r
          end
      end
  end.
(** @ hlb-backup-run/src/bucket.rs:209-228 [read_archive] *)
Definition read_archive (r : Reader) : result string Read * Reader :=
  read_objects (S (length (so_bytes (rd_input r)))) {| re_objects := 0; re_bytes := 0 |} r.
(** The headers an object keeps. @ hlb-objstore/src/s3.rs:433-442 [KEPT] *)
Definition KEPT : list string :=
  ["content-type"; "content-disposition"; "content-encoding"; "content-language"; "cache-control"; "expires"].
Definition kept_header (h : string * string) : bool := bool_decide (h.1 ∈ KEPT) || starts_with "x-amz-meta-" h.1.
(** @ hlb-objstore/src/s3.rs:298-328 [Bucket::put_stream] *)
Definition put_stream (key : string) (size : N) (headers : list (string * string)) (content : list ascii) (broken : option string) :
    eff X string () := λ x,
  match bk_put key (("content-length", show_N size) :: keep kept_header headers) content broken x with
  | (Ok (status, body), x) =>
      (if (200 <=? status)%N && (status <? 300)%N then Ok ()
       else Err ("Garage refused PutObject: " +:+ show_N status +:+ " - " +:+ body), x)
  | (Err e, x) => (Err e, x)
  end.
(** The store takes an object as it is read; what stops the reading breaks what it is given.
    @ hlb-backup-run/src/bucket.rs:237-260 [write_back] *)
Definition put_object (e : Entry) : eff (Reader * X) string () := λ '(r, x),
  let '(l, broken, r) := pieces r in
  let '(put, x) := put_stream (en_path e) (en_size e) (en_headers e) (concat l) (stopped <$> broken) x in
  let of_it why := en_path e +:+ ": " +:+ why in
  (match broken with Some b => Err (of_it (stopped b)) | None => map_err of_it put end, (r, x)).
Definition on_reader {A} (m : eff Reader string A) : eff (Reader * X) string A := λ '(r, x), let '(a, r) := m r in (a, (r, x)).
(** Each object takes a block. @ hlb-backup-run/src/bucket.rs:236-262 [write_back] *)
Fixpoint put_objects (fuel : nat) (keys : list string) : eff (Reader * X) string (list string) :=
  match fuel with
  | O => eff_fail (stopped incomplete)
  | S fuel =>
      let! e := on_reader (saying id next) in
      match e with
      | None => eff_ret keys
      | Some e => put_object e ;;! put_objects fuel (keys ++ [en_path e])
      end
  end.
(** The keys written. @ hlb-backup-run/src/bucket.rs:230-265 [write_back] *)
Definition write_back (r : Reader) : eff X string (list string) := λ x,
  let '(keys, (_, x)) := (let! keys := put_objects (S (length (so_bytes (rd_input r)))) [] in
                          on_reader (saying id drain) ;;! eff_ret keys) (r, x) in (keys, x).
(** @ hlb-backup-run/src/bucket.rs:168-178 [restore] *)
Fixpoint delete_others (keys : list string) (deleted : N) (objects : list string) : eff X string N :=
  match objects with
  | [] => eff_ret deleted
  | o :: objects =>
      if bool_decide (o ∈ keys) then delete_others keys deleted objects
      else
        let! status := bk_delete o in
        if (200 <=? status)%N && (status <? 300)%N then delete_others keys (deleted + 1)%N objects
        else eff_fail (o +:+ ": deleting it answered " +:+ show_N status)
  end.
(** The streamed dump and its outcome; what is written, and how many others are deleted.
    @ hlb-backup-run/src/bucket.rs:145-179 [restore] *)
Definition restore_bucket (dumped : result BackupError ()) (stream : list ascii) : eff X string (N * N) :=
  let! kept := (λ x, let '(written, x) := write_back (new_reader {| so_bytes := stream; so_end := None |}) x in
                     (match dumped with Err e => Err (backup_error e) | Ok _ => written end, x)) in
  let! objects := bk_list in
  let! deleted := delete_others kept 0 objects in
  eff_ret (N.of_nat (length (remove_dups kept)), deleted).
(** @ hlb-backup-run/src/bucket.rs:188-207 [read] *)
Definition read_bucket (dumped : result BackupError ()) (stream : list ascii) : result string Read :=
  seen ← (read_archive (new_reader {| so_bytes := stream; so_end := None |})).1;
  match dumped with Err e => Err (backup_error e) | Ok _ => Ok seen end.
End reading.

(** ** Laws *)

(** *** Numbers *)

Lemma oct_digits_length d v : length (oct_digits d v) = d.
Proof. revert v. induction d as [|d IH]; intros v; cbn [oct_digits]; [done|]. rewrite length_app, IH. cbn. lia. Qed.
Lemma octal_length f v : (0 < f)%nat → length (octal f v) = f.
Proof. intros H. unfold octal. rewrite length_app, oct_digits_length. cbn. lia. Qed.
Lemma oct_digits_all d v : Forall (λ c, is_digit c = true ∧ (digit_value c < 8)%N) (oct_digits d v).
Proof.
  revert v. induction d as [|d IH]; intros v; cbn [oct_digits]; [done|]. apply Forall_app. split; [apply IH|].
  apply Forall_singleton. pose proof (N.mod_lt v 8). rewrite is_digit_char, digit_value_char by lia. split; [done|lia].
Qed.
Lemma parse_octal_app l k acc :
  Forall (λ c, is_digit c = true ∧ (digit_value c < 8)%N) l →
  parse_octal_digits acc (of_chars (l ++ k)) = (v ← parse_octal_digits acc (of_chars l); parse_octal_digits v (of_chars k)).
Proof.
  intros H. revert acc. induction H as [|c l [Hd Hv] _ IH]; intros acc; [done|]. cbn.
  assert ((digit_value c <? 8)%N = true) as -> by (by apply N.ltb_lt). rewrite Hd. cbn. apply IH.
Qed.
Lemma parse_oct_digits d v acc : parse_octal_digits acc (of_chars (oct_digits d v)) = Some (8 ^ N.of_nat d * acc + v mod 8 ^ N.of_nat d)%N.
Proof.
  revert v. induction d as [|d IH]; intros v.
  { cbn. f_equal. rewrite N.mod_1_r. lia. }
  cbn [oct_digits]. rewrite parse_octal_app, IH by apply oct_digits_all. cbn [mbind option_bind of_chars String.string_of_list_ascii parse_octal_digits].
  pose proof (N.mod_lt v 8). rewrite is_digit_char, digit_value_char by lia.
  assert ((v mod 8 <? 8)%N = true) as -> by (apply N.ltb_lt; lia). cbn [andb]. f_equal.
  rewrite Nat2N.inj_succ, N.pow_succ_r'. rewrite (N.Div0.mod_mul_r v 8 (8 ^ N.of_nat d)). lia.
Qed.
Lemma until_blank_digits l : Forall (λ c, is_digit c = true ∧ (digit_value c < 8)%N) l → until_blank (l ++ [NUL]) = l.
Proof.
  induction 1 as [|c l [Hd _] _ IH]; [done|]. cbn [app until_blank].
  rewrite !bool_decide_eq_false_2 by (intros ->; done). cbn [orb]. by rewrite IH.
Qed.
Lemma latin1_ascii l : Forall (λ c, byte_of c < 128)%N l → latin1 l = of_chars l.
Proof.
  unfold latin1. intros H. f_equal. induction H as [|c l Hc _ IH]; [done|]. cbn. rewrite IH.
  assert ((byte_of c <? 128)%N = true) as -> by (by apply N.ltb_lt). done.
Qed.
Lemma is_digit_below c : is_digit c = true → (byte_of c < 128)%N.
Proof. unfold is_digit. intros [_ H%N.leb_le]%andb_true_iff. lia. Qed.
Lemma trim_all_graph s : str_all is_graph s = true → trim s = s.
Proof.
  intros H. apply trim_graph; intros c r ->; [by apply str_all_head in H|].
  rewrite str_all_append, andb_true_iff in H. destruct H as [_ H]. by apply str_all_head in H.
Qed.
Lemma str_all_digits l : Forall (λ c, is_digit c = true ∧ (digit_value c < 8)%N) l → str_all is_graph (of_chars l) = true.
Proof. induction 1 as [|c l [Hd _] _ IH]; [done|]. cbn. by rewrite is_graph_digit. Qed.
Lemma parse_octal_octal field v : (1 < field)%nat → (v < 8 ^ N.of_nat (field - 1))%N → (v < 2 ^ 64)%N → parse_octal (octal field v) = Ok v.
Proof.
  intros Hf Hv Hw. unfold parse_octal, octal. pose proof (oct_digits_all (field - 1) v) as Ha.
  rewrite until_blank_digits by done. rewrite latin1_ascii by (eapply Forall_impl; [exact Ha|]; intros c [Hc _]; by apply is_digit_below).
  assert (Hl : length (oct_digits (field - 1) v) = (field - 1)%nat) by apply oct_digits_length.
  pose proof (parse_oct_digits (field - 1) v 0) as Hp. destruct (oct_digits (field - 1) v) as [|c l]; [cbn in Hl; lia|].
  rewrite trim_all_graph by by apply str_all_digits. rewrite N.mul_0_r, N.mod_small in Hp by done. cbn [N.add] in Hp.
  unfold from_octal. assert (Hplus : strip_prefix "+" (of_chars (c :: l)) = None).
  { apply Forall_cons in Ha as [[Hd _] _]. cbn. destruct (decide _) as [e|]; [by subst c|done]. }
  rewrite Hplus. cbn [default from_option]. cbn [of_chars String.string_of_list_ascii str_is_empty] in *. rewrite Hp.
  cbn [mbind option_bind].
  match goal with |- context [if ?b then _ else _] => assert (b = true) as -> by (apply N.ltb_lt; exact Hw) end. done.
Qed.

(** A record's length, counting itself, is found. *)
Lemma show_go_length fuel n acc :
  (n < 10 ^ N.of_nat fuel)%N → (0 < fuel)%nat →
  let d := (String.length (show_go fuel n acc) - String.length acc)%nat in
  (1 ≤ d)%nat ∧ (n < 10 ^ N.of_nat d)%N ∧ (n = 0 ∧ d = 1%nat ∨ 10 ^ N.of_nat (d - 1) ≤ n)%N ∧ (String.length acc ≤ String.length (show_go fuel n acc))%nat.
Proof.
  revert n acc. induction fuel as [|fuel IH]; intros n acc Hn Hf; [lia|]. cbn [show_go].
  destruct (n <? 10)%N eqn:E.
  - apply N.ltb_lt in E. cbn [String.length]. replace (S (String.length acc) - String.length acc)%nat with 1%nat by lia.
    change (10 ^ N.of_nat 1)%N with 10%N. change (10 ^ N.of_nat (1 - 1))%N with 1%N. split_and!; [lia|lia| |lia]. destruct (decide (n = 0%N)); [by left|right; lia].
  - apply N.ltb_ge in E. destruct fuel as [|fuel]; [cbn in Hn; lia|].
    destruct (IH (n / 10)%N (String (digit_char (n mod 10)) acc)) as (H1 & H2 & H3 & H4); [|lia|].
    { rewrite Nat2N.inj_succ, N.pow_succ_r' in Hn. apply N.Div0.div_lt_upper_bound. lia. }
    cbn [String.length] in *. set (L := String.length (show_go _ _ _)) in *.
    replace (L - String.length acc)%nat with (S (L - S (String.length acc)))%nat by lia.
    set (d := (L - S (String.length acc))%nat) in *. rewrite Nat2N.inj_succ, N.pow_succ_r'.
    pose proof (N.div_mod n 10 ltac:(lia)). pose proof (N.mod_lt n 10 ltac:(lia)).
    assert (n / 10 ≠ 0)%N by (intros ?%N.div_small_iff; lia).
    split_and!; [lia|lia| |lia]. right. destruct H3 as [[? _]|H3]; [done|].
    replace (S d - 1)%nat with (S (d - 1)) by lia. rewrite Nat2N.inj_succ, N.pow_succ_r'. lia.
Qed.
Definition digits_of (n : N) : nat := String.length (show_N n).
Lemma digits_of_spec n : (1 ≤ digits_of n)%nat ∧ (n < 10 ^ N.of_nat (digits_of n))%N ∧ (n = 0 ∧ digits_of n = 1%nat ∨ 10 ^ N.of_nat (digits_of n - 1) ≤ n)%N.
Proof.
  unfold digits_of, show_N. destruct (show_go_length (S (N.size_nat n)) n "") as (H1 & H2 & H3 & _); [|lia|].
  - eapply N.lt_le_trans; [apply N_size_nat_bound|]. apply N.pow_le_mono_l. lia.
  - cbn [String.length] in *. by rewrite Nat.sub_0_r in *.
Qed.
Lemma digits_of_mono m n : (m ≤ n)%N → (digits_of m ≤ digits_of n)%nat.
Proof.
  intros H. destruct (digits_of_spec m) as (H1 & _ & Hm), (digits_of_spec n) as (_ & Hn & _).
  destruct Hm as [[_ ->]|Hm]; [apply digits_of_spec|]. destruct (decide (digits_of m ≤ digits_of n)%nat); [done|].
  exfalso. assert (10 ^ N.of_nat (digits_of n) ≤ 10 ^ N.of_nat (digits_of m - 1))%N by (apply N.pow_le_mono_r; lia). lia.
Qed.
Lemma pow10_above k : (N.of_nat k < 10 ^ N.of_nat k)%N.
Proof. induction k as [|k IH]; [done|]. rewrite Nat2N.inj_succ, N.pow_succ_r'. lia. Qed.
Lemma digits_of_bound n : (2 * (N.of_nat (digits_of n) - 1) ≤ n)%N.
Proof.
  destruct (digits_of_spec n) as (H1 & _ & [[-> ->]|H]); [done|].
  assert (∀ k, 2 * N.of_nat k ≤ 10 ^ N.of_nat k)%N as Hk.
  { induction k as [|k IH]; [done|]. rewrite Nat2N.inj_succ, N.pow_succ_r'. destruct k; [done|]. lia. }
  specialize (Hk (digits_of n - 1)%nat). lia.
Qed.
Lemma counted_length_spec fuel rest n :
  (n ≤ rest + N.of_nat (digits_of n) ∧ 2 * rest + 3 ≤ n + N.of_nat fuel)%N →
  let r := counted_length fuel rest n in (N.of_nat (digits_of r) + rest = r)%N.
Proof.
  revert n. induction fuel as [|fuel IH]; intros n [H1 H2]; cbn [counted_length].
  - pose proof (digits_of_bound n). lia.
  - fold (digits_of n). destruct (N.eqb_spec (N.of_nat (digits_of n) + rest) n) as [E|E]; [done|]. apply IH.
    pose proof (digits_of_mono n (n + 1)). lia.
Qed.

(** *** A record read back *)

Definition plain_key (k : string) : bool := negb (contains_char "=" k).
Lemma record_spec k v : ∃ digits, record k v = digits +:+ String " " ((k +:+ "=" +:+ v) +:+ String NL "") ∧
  str_all is_digit digits = true ∧ digits = show_N (N.of_nat (String.length (record k v))).
Proof.
  unfold record. set (rest := " " +:+ k +:+ "=" +:+ v +:+ String NL ""). set (n := counted_length _ _ _).
  exists (show_N n). split_and!; [by rewrite append_assoc|apply show_N_digits|]. f_equal.
  assert (Hn : (N.of_nat (digits_of n) + N.of_nat (String.length rest) = n)%N).
  { apply counted_length_spec. pose proof (digits_of_spec (N.of_nat (String.length rest) + 1)). lia. }
  rewrite string_length_append. unfold digits_of in Hn. lia.
Qed.
Lemma up_to_space_digits d l : str_all is_digit d = true → up_to_space (chars d ++ " "%char :: l) = Some (chars d, l).
Proof.
  induction d as [|c d IH]; [done|]. cbn [str_all chars app up_to_space]. intros [Hc Hd]%andb_true_iff.
  rewrite bool_decide_eq_false_2 by (intros ->; done). by rewrite IH.
Qed.
Lemma parse_record_record k v l :
  utf8 k → utf8 v → plain_key k = true → (N.of_nat (String.length (record k v)) ≤ usize_max)%N →
  parse_record (chars (record k v) ++ l) = Ok (Some (k, v), l).
Proof.
  intros Hk Hv Hp Hn. destruct (record_spec k v) as (d & E & Hd & Ed). unfold parse_record.
  set (total := String.length (record k v)) in *. assert (Hl : length (chars (record k v)) = total) by apply length_chars.
  assert (Hlen : total = (String.length d + 1 + String.length (k +:+ "=" +:+ v) + 1)%nat).
  { unfold total. rewrite E, string_length_append. cbn [String.length]. rewrite (string_length_append _ (String NL _)). cbn. lia. }
  assert (Ec : chars (record k v) ++ l = chars d ++ " "%char :: (chars (k +:+ "=" +:+ v) ++ NL :: l)).
  { rewrite E, chars_append. cbn [chars]. rewrite <- app_assoc. f_equal. cbn [app]. f_equal.
    rewrite (chars_append _ (String NL "")). by rewrite <- app_assoc. }
  rewrite Ec at 1. rewrite up_to_space_digits by done. cbn [ok_or mbind result_bind].
  rewrite from_utf8_exact by (apply utf8_ascii; eapply str_all_impl; [|exact Hd]; intros c Hc; apply N.ltb_lt; by apply is_digit_below).
  cbn [mbind option_bind]. rewrite Ed at 1. rewrite parse_uint_show by done. cbn [mbind option_bind].
  rewrite length_chars, length_app, Hl.
  assert ((N.of_nat (String.length d) <? N.of_nat total)%N && (N.of_nat total <=? N.of_nat (total + length l))%N = true) as ->
    by (apply andb_true_iff; rewrite N.ltb_lt, N.leb_le; lia).
  cbn [ok_or mbind result_bind]. rewrite Nat2N.id.
  assert ((total =? S (String.length d))%nat = false) as -> by (apply Nat.eqb_neq; lia).
  replace (total - S (String.length d) - 1)%nat with (length (chars (k +:+ "=" +:+ v))) by (rewrite length_chars; lia).
  rewrite take_app_length, from_utf8_exact by (repeat apply utf8_append; done). cbn [ok_or mbind result_bind].
  rewrite <- Hl, drop_app_length. f_equal. f_equal. rewrite append_cons.
  apply split_once_append. by apply negb_true_iff.
Qed.
Definition readable (kv : string * string) : Prop :=
  utf8 kv.1 ∧ utf8 kv.2 ∧ plain_key kv.1 = true ∧ (N.of_nat (String.length (record kv.1 kv.2)) ≤ usize_max)%N.
Lemma written_cons k v kvs : written ((k, v) :: kvs) = chars (record k v) ++ written kvs.
Proof. done. Qed.
Lemma record_head k v : ∃ c l, chars (record k v) = c :: l ∧ is_digit c = true.
Proof.
  destruct (record_spec k v) as (d & E & Hd & Ed). destruct (parse_show_digits (N.of_nat (String.length (record k v)))) as [_ Hne].
  rewrite <- Ed in Hne. destruct d as [|c d]; [done|]. rewrite E. apply str_all_head in Hd. by eexists _, _.
Qed.
Lemma parse_pax_records kvs fuel :
  Forall readable kvs → (length (written kvs) ≤ fuel)%nat → parse_pax_go fuel (written kvs) = Ok kvs.
Proof.
  intros H. revert fuel. induction H as [|[k v] kvs (Hk & Hv & Hp & Hn) _ IH]; intros fuel Hf; [by destruct fuel|].
  destruct (record_head k v) as (c & l & E & Hc). rewrite written_cons in *. rewrite length_app, E in Hf. cbn [length] in Hf.
  destruct fuel as [|fuel]; [lia|]. pose proof (parse_record_record k v (written kvs) Hk Hv Hp Hn) as Hr.
  rewrite E in Hr |- *. cbn [app parse_pax_go] in *. rewrite bool_decide_eq_false_2 by (intros ->; done).
  rewrite Hr. cbn [mbind result_bind]. rewrite IH by lia. done.
Qed.

(** *** A block read back *)

Lemma ustar_around_parts name size mtime kind sum :
  ∃ a c, ustar_around name size mtime kind sum =
    a ++ octal 12 (N.min size USTAR_MAX) ++ octal 12 (Z.to_N (Z.max mtime 0)) ++ sum ++ [kind] ++ c ∧
    length a = 124%nat ∧ length c = 355%nat ∧ "u"%char ∈ c.
Proof.
  unfold ustar_around. eexists _, _. split_and!; [reflexivity|..].
  - set (short := take 99 _). assert (length short ≤ 99)%nat by apply firstn_le_length.
    rewrite !length_app, !octal_length by lia. unfold zeros. rewrite length_replicate. lia.
  - done.
  - rewrite !elem_of_app. right. left. by left.
Qed.
Lemma ustar_parts name size mtime kind :
  ∃ a s c, ustar name size mtime kind =
    a ++ octal 12 (N.min size USTAR_MAX) ++ octal 12 (Z.to_N (Z.max mtime 0)) ++ s ++ [kind] ++ c ∧
    length a = 124%nat ∧ length s = 8%nat ∧ length c = 355%nat ∧ "u"%char ∈ c.
Proof.
  unfold ustar. set (s := oct_digits 6 _ ++ _). destruct (ustar_around_parts name size mtime kind s) as (a & c & -> & Ha & Hc & Hu).
  exists a, s, c. by split_and!.
Qed.
Lemma ustar_read name size mtime kind :
  (mtime < 8 ^ 11)%Z →
  let h := ustar name size mtime kind in
  length h = 512%nat ∧ all_of (λ c, c ==? NUL) h = false ∧
  parse_octal (take 12 (drop 124 h)) = Ok (N.min size USTAR_MAX) ∧
  parse_octal (take 12 (drop 136 h)) = Ok (Z.to_N (Z.max mtime 0)) ∧
  h !! 156%nat = Some kind.
Proof.
  intros Hm h. subst h. destruct (ustar_parts name size mtime kind) as (a & s & c & -> & Ha & Hs & Hc & Hu).
  set (f1 := octal 12 _). set (f2 := octal 12 (Z.to_N _)).
  assert (Hf1 : length f1 = 12%nat) by (apply octal_length; lia). assert (Hf2 : length f2 = 12%nat) by (apply octal_length; lia).
  split_and!.
  - rewrite !length_app. cbn [length]. lia.
  - apply not_true_iff_false. rewrite all_of_true. intros H. specialize (H "u"%char). rewrite !elem_of_app in H.
    specialize (H ltac:(tauto)). done.
  - rewrite (drop_app_length' a) by done. rewrite (take_app_length' f1) by done.
    apply parse_octal_octal; unfold USTAR_MAX; [lia|cbn; lia..].
  - rewrite app_assoc, (drop_app_length' (a ++ f1)) by (rewrite length_app; lia). rewrite (take_app_length' f2) by done.
    apply parse_octal_octal; [lia|cbn; lia..].
  - rewrite !app_assoc, <- app_assoc. rewrite lookup_app_r by (rewrite !length_app; lia).
    replace (156 - length (((a ++ f1) ++ f2) ++ s))%nat with 0%nat by (rewrite !length_app; lia). done.
Qed.

(** *** What a reading takes of its stream *)

Section reading_laws.
Context (serve : N → nat → nat).
Abbreviation input r := (so_bytes (rd_input r)).

Lemma with_input_same r : with_input (input r) r = r.
Proof. by destruct r as [[] ? ? ?]. Qed.
Lemma poll_some want r : input r ≠ [] → ∃ k, (1 ≤ k ≤ length (input r))%nat ∧ (want ≠ 0 → N.of_nat k ≤ want)%N ∧
  poll serve want r = (Ok (take k (input r)), with_input (drop k (input r)) r).
Proof.
  intros H. exists (served serve want (length (input r))). unfold served. assert (0 < length (input r))%nat by (destruct (input r); cbn; [done|lia]).
  split_and!; [lia|lia|lia|]. unfold poll. by destruct (input r).
Qed.
Lemma take_nonempty {A} k (l : list A) : (1 ≤ k)%nat → l ≠ [] → ∃ a l', take k l = a :: l'.
Proof. destruct k, l; try done; [lia|]. intros _ _. by eexists _, _. Qed.
Lemma skip_go_spec fuel n r :
  (length (input r) < fuel)%nat →
  match skip_go serve fuel n r with
  | (Ok _, r') => (n ≤ N.of_nat (length (input r)))%N ∧ r' = with_input (drop (N.to_nat n) (input r)) r
  | (Err _, _) => (N.of_nat (length (input r)) < n)%N
  end.
Proof.
  revert n r. induction fuel as [|fuel IH]; intros n r Hf; [lia|]. cbn [skip_go].
  destruct (N.eqb_spec n 0) as [->|Hn]; [cbn; split; [lia|by destruct r as [[] ? ? ?]]|].
  destruct (decide (input r = [])) as [E|E].
  { unfold eff_bind, poll. rewrite E. destruct (so_end (rd_input r)); cbn [eff_fail]; cbn; lia. }
  destruct (poll_some (N.min n 8192) r E) as (k & Hk & Hw & Hp). unfold eff_bind. rewrite Hp.
  destruct (take_nonempty k (input r)) as (a & l & Ht); [lia|done|]. assert (Hl : length (take k (input r)) = k) by (rewrite length_take; lia).
  rewrite Ht in Hl |- *. rewrite Hl. specialize (IH (n - N.of_nat k)%N (with_input (drop k (input r)) r)).
  cbn [with_input rd_input so_bytes] in IH. rewrite length_drop in IH. specialize (IH ltac:(lia)).
  assert (Hle : (N.of_nat k ≤ n)%N) by lia.
  destruct (skip_go serve fuel _ _) as [[u|e] r']; [|lia]. destruct IH as [H1 ->]. split; [lia|].
  unfold with_input. cbn. rewrite drop_drop. by replace (k + N.to_nat (n - N.of_nat k))%nat with (N.to_nat n) by lia.
Qed.
Lemma skip_spec n r :
  match skip serve n r with
  | (Ok _, r') => (n ≤ N.of_nat (length (input r)))%N ∧ r' = with_input (drop (N.to_nat n) (input r)) r
  | (Err _, _) => (N.of_nat (length (input r)) < n)%N
  end.
Proof. apply skip_go_spec. lia. Qed.
Lemma skip_enough n r : (n ≤ N.of_nat (length (input r)))%N → skip serve n r = (Ok (), with_input (drop (N.to_nat n) (input r)) r).
Proof. intros H. pose proof (skip_spec n r) as Hs. destruct (skip serve n r) as [[[]|e] r']; [|lia]. by destruct Hs as [_ ->]. Qed.
Lemma pieces_go_spec fuel r :
  (length (input r) < fuel)%nat →
  match pieces_go serve fuel r with
  | (l, None, r') => (rd_left r ≤ N.of_nat (length (input r)))%N ∧ concat l = take (N.to_nat (rd_left r)) (input r) ∧
      r' = with_owed 0 (rd_pad r) (with_input (drop (N.to_nat (rd_left r)) (input r)) r)
  | (_, Some _, _) => (N.of_nat (length (input r)) < rd_left r)%N
  end.
Proof.
  revert r. induction fuel as [|fuel IH]; intros r Hf; [lia|]. cbn [pieces_go].
  unfold read, eff_bind, eff_get. destruct (N.eqb_spec (rd_left r) 0) as [E0|Hn].
  { cbn [eff_ret]. unfold eff_ret. cbn [pieces_go]. rewrite E0. cbn. split_and!; [lia|done|]. destruct r as [[] ? ? ?]; cbn in *. by subst. }
  destruct (decide (input r = [])) as [E|E].
  { unfold poll. rewrite E. destruct (so_end (rd_input r)); cbn; lia. }
  destruct (poll_some (N.min (rd_left r) BUFFER) r E) as (k & Hk & Hw & Hp). rewrite Hp.
  destruct (take_nonempty k (input r)) as (a & l & Ht); [lia|done|]. assert (Hl : length (take k (input r)) = k) by (rewrite length_take; lia).
  assert (Hle : (N.of_nat k ≤ rd_left r)%N) by (unfold BUFFER in *; lia).
  rewrite Ht in Hl |- *. cbn [eff_put]. unfold eff_put, eff_ret. rewrite Hl.
  match goal with |- context [pieces_go serve fuel ?r1] => specialize (IH r1) end.
  cbn [with_owed with_input rd_input so_bytes rd_left rd_pad] in IH. rewrite length_drop in IH. specialize (IH ltac:(lia)).
  destruct (pieces_go serve fuel _) as [[l1 [e|]] r1]; [lia|]. destruct IH as (H1 & H2 & ->). split_and!; [lia| |].
  - cbn [concat]. rewrite H2, <- Ht. rewrite <- (take_drop k (input r)) at 3. rewrite take_app_ge by (rewrite length_take; lia).
    f_equal. f_equal. rewrite length_take. lia.
  - unfold with_owed, with_input. cbn. rewrite drop_drop. by replace (k + N.to_nat (rd_left r - N.of_nat k))%nat with (N.to_nat (rd_left r)) by lia.
Qed.
Lemma pieces_spec r :
  match pieces serve r with
  | (l, None, r') => (rd_left r ≤ N.of_nat (length (input r)))%N ∧ concat l = take (N.to_nat (rd_left r)) (input r) ∧
      r' = with_owed 0 (rd_pad r) (with_input (drop (N.to_nat (rd_left r)) (input r)) r)
  | (_, Some _, _) => (N.of_nat (length (input r)) < rd_left r)%N
  end.
Proof. apply pieces_go_spec. lia. Qed.

(** *** A longer stream reads the same *)

Definition fed (t : list ascii) (r : Reader) : Reader := with_input (input r ++ t) r.
Definition framed {A} (m m' : eff Reader Stopped A) : Prop := ∀ r a r' t, m r = (Ok a, r') → m' (fed t r) = (Ok a, fed t r').
Lemma framed_ret {A} (a : A) : framed (eff_ret a) (eff_ret a).
Proof. by intros r b r' t [= <- <-]. Qed.
Lemma framed_fail {A} e (m : eff Reader Stopped A) : framed (eff_fail e) m.
Proof. by intros r b r' t. Qed.
Lemma framed_of {A} (m : result Stopped A) : framed (eff_of m) (eff_of m).
Proof. by intros r b r' t [= -> <-]. Qed.
Lemma framed_bind {A B} (m m' : eff Reader Stopped A) (k k' : A → eff Reader Stopped B) :
  framed m m' → (∀ a, framed (k a) (k' a)) → framed (eff_bind m k) (eff_bind m' k').
Proof.
  intros Hm Hk r b r' t. unfold eff_bind. destruct (m r) as [[a|e] r1] eqn:E; [|done]. rewrite (Hm _ _ _ _ E). apply Hk.
Qed.
Lemma framed_get {A} (f : Reader → A) : (∀ r t, f (fed t r) = f r) → framed (eff_get f) (eff_get f).
Proof. intros H r b r' t [= <- <-]. unfold eff_get. by rewrite H. Qed.
Lemma framed_put f : (∀ r t, f (fed t r) = fed t (f r)) → framed (eff_put f) (eff_put f).
Proof. intros H r b r' t [= <- <-]. unfold eff_put. by rewrite H. Qed.
Lemma fed_drop n r t : (n ≤ length (input r))%nat → with_input (drop n (input (fed t r))) (fed t r) = fed t (with_input (drop n (input r)) r).
Proof. intros H. unfold fed, with_input. cbn. by rewrite drop_app_le. Qed.
Lemma fed_length t r : length (input (fed t r)) = (length (input r) + length t)%nat.
Proof. cbn. by rewrite length_app. Qed.
Lemma framed_read_exact s n : framed (read_exact s n) (read_exact s n).
Proof.
  intros r a r' t. unfold read_exact. destruct (N.leb_spec n (N.of_nat (length (input r)))) as [H|H]; [|done]. intros [= <- <-].
  destruct (N.leb_spec n (N.of_nat (length (input (fed t r))))) as [H'|H']; [|rewrite fed_length in H'; lia].
  rewrite fed_drop by lia. f_equal. f_equal. cbn. by rewrite take_app_le by lia.
Qed.
Lemma framed_skip n : framed (skip serve n) (skip serve n).
Proof.
  intros r a r' t E. pose proof (skip_spec n r) as H. rewrite E in H. destruct H as [H ->].
  rewrite skip_enough by (rewrite fed_length; lia). destruct a. by rewrite fed_drop by lia.
Qed.
Ltac framed_steps := repeat first
  [ apply framed_ret | apply framed_fail | apply framed_of | apply framed_read_exact | apply framed_skip
  | apply framed_get; by intros ?? | apply framed_put; by intros [[] ? ? ?] ? | eapply framed_bind; [|intros ?] | case_match ].
Lemma framed_next_go f f' pax : (f ≤ f')%nat → framed (next_go serve f pax) (next_go serve f' pax).
Proof.
  revert f' pax. induction f as [|f IH]; intros f' pax Hf; [apply framed_fail|]. destruct f' as [|f']; [lia|].
  cbn [next_go]. unfold block, at_trailer, at_object. framed_steps; apply IH; lia.
Qed.
Lemma framed_next : framed (next serve) (next serve).
Proof.
  unfold next. repeat (eapply framed_bind; [framed_steps|intros ?]).
  intros r a' r' t E. eapply framed_next_go; [|exact E]. rewrite fed_length. lia.
Qed.
Lemma framed_pieces l r r' t : pieces serve r = (l, None, r') → ∃ l', pieces serve (fed t r) = (l', None, fed t r') ∧ concat l' = concat l.
Proof.
  intros E. pose proof (pieces_spec r) as H. rewrite E in H. destruct H as (H1 & H2 & ->).
  pose proof (pieces_spec (fed t r)) as H. destruct (pieces serve (fed t r)) as [[l' [e|]] r''].
  { rewrite fed_length in H. cbn in H. lia. }
  destruct H as (H3 & H4 & ->). exists l'. split.
  - f_equal. rewrite fed_drop by (cbn; lia). done.
  - rewrite H4, H2. cbn. by rewrite take_app_le by lia.
Qed.
Context {X : Type} `{!Buckets X}.
Lemma put_objects_fed f f' keys r x ks r' x' t :
  put_objects serve f keys (r, x) = (Ok ks, (r', x')) → (f ≤ f')%nat →
  put_objects serve f' keys (fed t r, x) = (Ok ks, (fed t r', x')).
Proof.
  revert f' keys r x. induction f as [|f IH]; intros f' keys r x E Hf; [done|]. destruct f' as [|f']; [lia|]. revert E.
  cbn [put_objects]. unfold eff_bind at 1 3, on_reader, saying. destruct (next serve r) as [[[e|]|e] r1] eqn:En; [..|done].
  2:{ intros [= <- <- <-]. rewrite (framed_next _ _ _ t En). done. }
  rewrite (framed_next _ _ _ t En). cbn [map_err]. unfold eff_bind, put_object. destruct (pieces serve r1) as [[l [b|]] r2] eqn:Ep.
  { by destruct (put_stream _ _ _ _ _ _). }
  destruct (framed_pieces _ _ _ t Ep) as (l' & -> & ->). cbn [fmap option_fmap option_map].
  destruct (put_stream _ _ _ (concat l) None x) as [[u|why] x1]; [|done]. cbn [map_err]. intros E. apply IH; [done|lia].
Qed.

(** *** An object read as it was written *)

(** The bytes of an object in an archive. *)
Definition stored (e : Entry) (content : list ascii) : list ascii :=
  let pax := written (pax_records e) in let n := N.of_nat (length pax) in
  ustar "PaxHeader" n (en_mtime e) "x" ++ pax ++ pad n ++ ustar (en_path e) (en_size e) (en_mtime e) "0" ++ content ++ pad (en_size e).
(** What an archive can hold: texts in UTF-8, names of headers without [=], a date of eleven octal digits. *)
Record storable (e : Entry) : Prop := {
  st_path : utf8 (en_path e) ∧ en_path e ≠ TRAILER;
  st_headers : Forall (λ kv, utf8 kv.1 ∧ utf8 kv.2 ∧ plain_key kv.1 = true) (en_headers e);
  st_mtime : (0 ≤ en_mtime e < 8 ^ 11)%Z;
  st_size : (en_size e ≤ usize_max)%N;
  st_pax : (N.of_nat (length (written (pax_records e))) ≤ USTAR_MAX)%N }.
Lemma length_pad n : N.of_nat (length (pad n)) = padding n.
Proof. unfold pad, zeros. by rewrite length_replicate, N2Nat.id. Qed.
Lemma length_written kvs kv : kv ∈ kvs → (String.length (record kv.1 kv.2) ≤ length (written kvs))%nat.
Proof.
  induction 1 as [[k v] kvs|kv [k v] kvs _ IH]; rewrite written_cons, length_app, length_chars; cbn; lia.
Qed.
Lemma plain_key_header k : plain_key k = true → plain_key (HEADER +:+ k) = true.
Proof. unfold plain_key. rewrite !negb_true_iff. intros H. by rewrite contains_char_append, H. Qed.
Lemma storable_readable e : storable e → Forall readable (pax_records e).
Proof.
  intros [[Hp _] Hh _ _ Hn]. apply Forall_forall. intros kv Hkv. pose proof (length_written _ _ Hkv).
  unfold readable. rewrite !(assoc (∧)). split; [|unfold USTAR_MAX, usize_max in *; lia]. rewrite <- !(assoc (∧)). unfold pax_records in Hkv.
  rewrite elem_of_cons, elem_of_app, list_elem_of_fmap in Hkv. destruct Hkv as [->|[Hkv|[[k v] [-> Hkv]]]].
  - done.
  - destruct (_ <? _)%N; [|by apply not_elem_of_nil in Hkv]. apply list_elem_of_singleton in Hkv as ->. split_and!; [done| |done].
    apply utf8_ascii. eapply str_all_impl; [|apply show_N_digits]. intros c Hc. apply N.ltb_lt. by apply is_digit_below.
  - rewrite Forall_forall in Hh. destruct (Hh _ Hkv) as (H1 & H2 & H3). cbn in *. split_and!; [by apply utf8_append|done|by apply plain_key_header].
Qed.
Lemma headers_of (l : list (string * string)) :
  omap (λ '(k, v), h ← strip_prefix HEADER k; Some (h, v)) ((λ '(k, v), (HEADER +:+ k, v)) <$> l) = l.
Proof.
  induction l as [|[k v] l IH]; [done|]. cbn [fmap list_fmap omap list_omap]. rewrite strip_prefix_append. cbn [mbind option_bind].
  f_equal. exact IH.
Qed.
Lemma headers_back e : omap (λ '(k, v), h ← strip_prefix HEADER k; Some (h, v)) (pax_records e) = en_headers e.
Proof.
  unfold pax_records. set (f := λ _, _). change (omap f (("path", en_path e) :: ?l)) with (omap f l). rewrite omap_app.
  replace (omap f (if _ : bool then _ else _)) with ([] : list (string * string)) by (by destruct (_ <? _)%N). apply headers_of.
Qed.
Lemma keep_header_none k (l : list (string * string)) :
  strip_prefix HEADER k = None → keep (λ kv, kv.1 ==? k) ((λ '(k, v), (HEADER +:+ k, v)) <$> l) = [].
Proof.
  intros H. induction l as [|[h v] l IH]; [done|]. cbn [fmap list_fmap]. rewrite keep_cons. cbn [fst].
  rewrite bool_decide_eq_false_2; [done|]. intros <-. by rewrite strip_prefix_append in H.
Qed.
Lemma named_path e : named (pax_records e) "path" = Some (en_path e).
Proof. unfold named, pax_records. by rewrite keep_cons. Qed.
Lemma named_size e : named (pax_records e) "size" = if (USTAR_MAX <? en_size e)%N then Some (show_N (en_size e)) else None.
Proof.
  unfold named, pax_records. rewrite keep_cons. cbn [fst]. rewrite bool_decide_eq_false_2 by done. rewrite keep_app, keep_header_none by done.
  by destruct (_ <? _)%N.
Qed.
Lemma entry_back e h : storable e → entry_in (pax_records e) h (N.min (en_size e) USTAR_MAX) = (en_path e, en_size e).
Proof.
  intros H. unfold entry_in. rewrite named_path, named_size. cbn [default from_option]. f_equal.
  destruct (N.ltb_spec USTAR_MAX (en_size e)); cbn [mbind option_bind default from_option]; [|lia].
  rewrite parse_uint_show by apply H. done.
Qed.

Lemma read_app s n r a b : input r = a ++ b → N.of_nat (length a) = n → read_exact s n r = (Ok a, with_input b r).
Proof.
  intros Hi Hn. unfold read_exact. rewrite Hi. subst n.
  assert ((N.of_nat (length a) <=? N.of_nat (length (a ++ b)))%N = true) as -> by (rewrite length_app; apply N.leb_le; lia).
  by rewrite Nat2N.id, take_app_length, drop_app_length.
Qed.
(** A reader at these bytes, nothing owed. *)
Definition at_bytes (l : list ascii) (ending : option string) (count : N) : Reader :=
  {| rd_input := {| so_bytes := l; so_end := ending |}; rd_left := 0; rd_pad := 0; rd_count := count |}.
Definition owed_of (r : Reader) : nat := N.to_nat (rd_left r + rd_pad r).
Lemma next_at r : (owed_of r ≤ length (input r))%nat →
  let l := drop (owed_of r) (input r) in
  next serve r = next_go serve (S (length l)) [] (at_bytes l (so_end (rd_input r)) (rd_count r)).
Proof.
  intros H l. subst l. unfold owed_of in *. unfold next, eff_bind, eff_get. rewrite skip_enough by lia. done.
Qed.
Lemma next_go_block f pax h l ending count :
  length h = 512%nat → all_of (λ c, c ==? NUL) h = false →
  next_go serve (S f) pax (at_bytes (h ++ l) ending count) =
    (let! size := eff_of (parse_octal (take 12 (drop 124 h))) in
     let! mtime := eff_of (parse_octal (take 12 (drop 136 h))) in
     let kind := default NUL (h !! 156%nat) in
     if kind ==? "x"%char then
       let! body := read_exact (λ _, incomplete) size in
       skip serve (padding size) ;;!
       let! pax := eff_of (parse_pax body) in
       next_go serve f pax
     else if (kind ==? "0"%char) || (kind ==? NUL) then
       let '(path, size) := entry_in pax h size in
       if path ==? TRAILER then at_trailer size else at_object pax path size mtime
     else eff_fail (unexpected ("archive: an entry of type " +:+ debug_kind kind +:+ ", which no bucket archive holds")))
    (at_bytes l ending count).
Proof.
  intros Hl Hz. cbn [next_go]. unfold block. unfold eff_bind at 1. rewrite (read_app _ _ _ h l) by (done || by rewrite Hl). by rewrite Hz.
Qed.
Lemma max_mtime e : storable e → Z.of_N (Z.to_N (Z.max (en_mtime e) 0)) = en_mtime e.
Proof. intros [_ _ H _ _]. lia. Qed.
Lemma next_stored e content rest r :
  storable e → N.of_nat (length content) = en_size e → (owed_of r ≤ length (input r))%nat → drop (owed_of r) (input r) = stored e content ++ rest →
  next serve r = (Ok (Some e), counted (with_owed (en_size e) (padding (en_size e)) (with_input (content ++ pad (en_size e) ++ rest) r))).
Proof.
  intros He Hc Ho Hr. rewrite next_at by done. rewrite Hr. unfold stored. rewrite <- !app_assoc.
  set (pax := written (pax_records e)). set (n := N.of_nat (length pax)).
  destruct (ustar_read "PaxHeader" n (en_mtime e) "x") as (Hl & Hz & Hs & Hm & Hk); [apply He|].
  destruct (ustar_read (en_path e) (en_size e) (en_mtime e) "0") as (Hl' & Hz' & Hs' & Hm' & Hk'); [apply He|].
  rewrite next_go_block, Hs, Hm, Hk by done. cbn [default from_option]. rewrite bool_decide_eq_true_2 by done.
  assert (Hn : N.min n USTAR_MAX = n) by (apply N.min_l, He). rewrite Hn.
  unfold eff_bind at 1 2, eff_of. unfold eff_bind at 1. rewrite (read_app _ _ _ pax (pad n ++ ustar (en_path e) (en_size e) (en_mtime e) "0" ++ content ++ pad (en_size e) ++ rest)) by done.
  unfold eff_bind at 1. rewrite skip_enough by (cbn; rewrite !length_app, !Nat2N.inj_add, length_pad; lia).
  rewrite <- length_pad, Nat2N.id. cbn [with_input at_bytes rd_input so_bytes so_end]. rewrite drop_app_length.
  assert (Hp : parse_pax pax = Ok (pax_records e)) by (apply parse_pax_records; [by apply storable_readable|done]).
  rewrite Hp. unfold eff_bind at 1. cbn iota.
  match goal with |- next_go _ ?g _ ?r1 = _ => change r1 with (at_bytes (ustar (en_path e) (en_size e) (en_mtime e) "0" ++ content ++ pad (en_size e) ++ rest) (so_end (rd_input r)) (rd_count r)); destruct g as [|f] eqn:Ef end.
  { rewrite length_app, Hl in Ef. lia. }
  rewrite next_go_block, Hs', Hm', Hk' by done. unfold eff_bind at 1 2, eff_of. cbn [default from_option].
  rewrite bool_decide_eq_false_2 by done. rewrite bool_decide_eq_true_2 by done. cbn [orb]. rewrite entry_back by done.
  rewrite bool_decide_eq_false_2 by apply He. unfold at_object, eff_bind, eff_put, eff_ret. rewrite headers_back, max_mtime by done.
  destruct e, r; done.
Qed.
Lemma next_trailer n rest r :
  (n < 10 ^ 32)%N → (n ≤ usize_max)%N → (owed_of r ≤ length (input r))%nat → drop (owed_of r) (input r) = trailer n ++ rest → rd_count r = n →
  next serve r = (Ok None, at_bytes rest (so_end (rd_input r)) n).
Proof.
  intros Hn Hu Ho Hr Hc. rewrite next_at by done. rewrite Hr, Hc. unfold trailer. rewrite <- app_assoc.
  set (d := chars (show_N n)). assert (Hd : (length d ≤ 32)%nat).
  { subst d. rewrite length_chars. fold (digits_of n). destruct (digits_of_spec n) as (_ & _ & [[_ ->]|H]); [lia|].
    destruct (decide (digits_of n ≤ 32)%nat); [done|]. assert (10 ^ 32 ≤ 10 ^ N.of_nat (digits_of n - 1))%N by (apply N.pow_le_mono_r; lia). lia. }
  destruct (ustar_read TRAILER (N.of_nat (length d)) 0 "0") as (Hl & Hz & Hs & Hm & Hk); [done|].
  rewrite next_go_block, Hs, Hm, Hk by done. unfold eff_bind at 1 2, eff_of. cbn [default from_option].
  rewrite bool_decide_eq_false_2 by done. rewrite bool_decide_eq_true_2 by done. cbn [orb].
  assert (entry_in [] (ustar TRAILER (N.of_nat (length d)) 0 "0") (N.min (N.of_nat (length d)) USTAR_MAX) = (TRAILER, N.of_nat (length d))) as ->.
  { apply injective_projections; [|cbn; unfold USTAR_MAX; lia]. unfold entry_in. cbn [fst].
    change (take 100 (ustar TRAILER (N.of_nat (length d)) 0 "0")) with (take 100 (ustar TRAILER 0 0 "0")). vm_compute. reflexivity. }
  rewrite bool_decide_eq_true_2 by done. unfold at_trailer. rewrite N.min_l by lia.
  unfold eff_bind at 1. rewrite (read_app _ _ _ d rest) by done. unfold eff_bind at 1, eff_of.
  assert (Hlossy : from_utf8_lossy d = show_N n).
  { subst d. apply utf8_ascii. eapply str_all_impl; [|apply show_N_digits]. intros c Hc'. apply N.ltb_lt. by apply is_digit_below. }
  rewrite Hlossy, trim_all_graph by (eapply str_all_impl; [|apply show_N_digits]; intros c Hc'; by apply is_graph_digit).
  rewrite parse_uint_show by done. cbn [ok_or]. unfold eff_bind, eff_get. cbn [with_input at_bytes rd_count]. rewrite N.eqb_refl. done.
Qed.

(** *** A bucket written *)

(** An object read whole, as it said it is. *)
Definition whole (od : Object_ * Download) : Prop :=
  ob_open od.1 = Ok od.2 ∧ dl_broken od.2 = None ∧ N.of_nat (length (concat (dl_chunks od.2))) = dl_size od.2 ∧
  storable (entry_of od.1 od.2).
Definition stored_object (od : Object_ * Download) : list ascii := stored (entry_of od.1 od.2) (concat (dl_chunks od.2)).
Definition writer_at (l : list ascii) (count owed size : N) : Writer :=
  {| wr_out := {| sk_bytes := l; sk_closed := false |}; wr_count := count; wr_owed := owed; wr_size := size |}.
Lemma write_ok f c l count owed size :
  (N.of_nat (length c) ≤ owed)%N →
  saying f (write c) (writer_at l count owed size) = (Ok (), writer_at (l ++ c) count (owed - N.of_nat (length c)) size).
Proof.
  intros H. unfold saying, write, eff_bind, eff_get. cbn [writer_at wr_owed].
  destruct (N.ltb_spec owed (N.of_nat (length c))); [lia|done].
Qed.
Lemma write_chunks f chunks l count owed size :
  (N.of_nat (length (concat chunks)) ≤ owed)%N →
  eff_each (λ c, saying f (write c)) chunks (writer_at l count owed size) =
    (Ok (), writer_at (l ++ concat chunks) count (owed - N.of_nat (length (concat chunks))) size).
Proof.
  revert l owed. induction chunks as [|c chunks IH]; intros l owed H; cbn [eff_each].
  { cbn. by rewrite app_nil_r, N.sub_0_r. }
  cbn [concat] in *. rewrite length_app in H. unfold eff_bind at 1. rewrite write_ok, IH by lia.
  rewrite <- app_assoc, length_app. do 2 f_equal. lia.
Qed.
(** What comes before an object's content. *)
Definition opening (e : Entry) : list ascii :=
  let pax := written (pax_records e) in let n := N.of_nat (length pax) in
  ustar "PaxHeader" n (en_mtime e) "x" ++ pax ++ pad n ++ ustar (en_path e) (en_size e) (en_mtime e) "0".
Lemma start_ok f e l count size :
  en_path e ≠ TRAILER →
  saying f (start e) (writer_at l count 0 size) = (Ok (), writer_at (l ++ opening e) count (en_size e) (en_size e)).
Proof.
  intros H. unfold saying, start, eff_bind, eff_get. cbn [writer_at wr_owed N.eqb negb]. rewrite bool_decide_eq_false_2 by done.
  unfold opening. generalize (written (pax_records e)). intros pax.
  generalize (ustar "PaxHeader" (N.of_nat (length pax)) (en_mtime e) "x") (pad (N.of_nat (length pax))) (ustar (en_path e) (en_size e) (en_mtime e) "0").
  intros a b c. unfold write_all, eff_put, writer_at. cbn [map_err wr_out wr_count sk_bytes sk_closed]. by rewrite <- !app_assoc.
Qed.
Lemma end_ok f l count size :
  saying f end_entry (writer_at l count 0 size) = (Ok (), writer_at (l ++ pad size) (count + 1) 0 size).
Proof. done. Qed.
Lemma write_object_whole od l count size :
  whole od → write_object od.1 (writer_at l count 0 size) = (Ok (), writer_at (l ++ stored_object od) (count + 1) 0 (dl_size od.2)).
Proof.
  intros (Ho & Hb & Hs & He). destruct od as [o d]. cbn [fst snd] in *. unfold write_object. rewrite Ho. unfold eff_bind at 1, eff_of at 1.
  unfold eff_bind at 1. rewrite start_ok by apply He. unfold eff_bind at 1. cbn [entry_of en_size].
  rewrite write_chunks by lia. rewrite Hb, Hs, N.sub_diag. unfold eff_bind, eff_of. rewrite end_ok.
  unfold stored_object, stored, opening. cbn [fst snd entry_of en_path en_size en_mtime en_headers]. by rewrite <- !app_assoc.
Qed.
Lemma write_objects_whole ods l count size :
  Forall whole ods → ∃ size', eff_each write_object (ods.*1) (writer_at l count 0 size) =
    (Ok (), writer_at (l ++ concat (stored_object <$> ods)) (count + N.of_nat (length ods)) 0 size').
Proof.
  intros H. revert l count size. induction H as [|od ods Hod _ IH]; intros l count size.
  { exists size. cbn. by rewrite app_nil_r, N.add_0_r. }
  cbn [fmap list_fmap eff_each]. unfold eff_bind. rewrite write_object_whole by done.
  destruct (IH (l ++ stored_object od) (count + 1)%N (dl_size od.2)) as [size' E]. exists size'. etransitivity; [exact E|].
  cbn [concat length]. rewrite <- app_assoc. do 2 f_equal. lia.
Qed.
Definition archived (ods : list (Object_ * Download)) : list ascii := concat (stored_object <$> ods) ++ trailer (N.of_nat (length ods)).
Lemma finish_ok f l n size :
  saying f finish (writer_at l n 0 size) =
    (Ok n, {| wr_out := {| sk_bytes := l ++ trailer n ++ after_trailer n; sk_closed := true |}; wr_count := n; wr_owed := 0; wr_size := size |}).
Proof.
  unfold saying, finish, eff_bind, eff_get. cbn [writer_at wr_count]. generalize (trailer n) (after_trailer n). intros a b.
  unfold write_all, eff_put, eff_ret, writer_at. cbn. by rewrite <- app_assoc.
Qed.
Lemma write_archive_whole ods :
  Forall whole ods → ∃ w, write_archive (Ok ods.*1) new_writer = (Ok (N.of_nat (length ods)), w) ∧
    wr_out w = {| sk_bytes := archived ods ++ after_trailer (N.of_nat (length ods)); sk_closed := true |}.
Proof.
  intros H. destruct (write_objects_whole ods [] 0 0 H) as [size E]. change (writer_at [] 0 0 0) with new_writer in E.
  eexists. unfold write_archive, eff_bind at 1, eff_of. unfold eff_bind. rewrite E. cbn [app]. rewrite finish_ok. split; [reflexivity|].
  cbn [wr_out]. unfold archived. by rewrite <- app_assoc.
Qed.

(** *** And read back *)

(** The object put as it was read: at its key, of its size, with its headers and all its bytes. *)
Definition put_exact (od : Object_ * Download) : eff X string () := λ x,
  let '(put, x) := put_stream (ob_key od.1) (dl_size od.2) (dl_headers od.2) (concat (dl_chunks od.2)) None x in
  (map_err (λ why, ob_key od.1 +:+ ": " +:+ why) put, x).
Lemma stored_length e c : (512 ≤ length (stored e c))%nat.
Proof.
  unfold stored. rewrite length_app. destruct (ustar_parts "PaxHeader" (N.of_nat (length (written (pax_records e)))) (en_mtime e) "x") as (a & s & c' & -> & Ha & Hs & Hc & _).
  rewrite !length_app, !octal_length, Ha, Hs, Hc by lia. cbn [length]. lia.
Qed.
Lemma pieces_whole content tail r :
  rd_left r = N.of_nat (length content) → input r = content ++ tail →
  ∃ l, pieces serve r = (l, None, with_owed 0 (rd_pad r) (with_input tail r)) ∧ concat l = content.
Proof.
  intros Hl Hi. pose proof (pieces_spec r) as H. rewrite Hi, Hl, Nat2N.id in H. destruct (pieces serve r) as [[l [b|]] r'].
  { rewrite length_app in H. lia. }
  destruct H as (_ & Hc & ->). exists l. rewrite Hc, drop_app_length, take_app_length. done.
Qed.
Lemma put_objects_stored ods rest n fuel keys r x :
  Forall whole ods → (length ods < fuel)%nat → (n < 10 ^ 32)%N → (n ≤ usize_max)%N → (rd_count r + N.of_nat (length ods) = n)%N →
  (owed_of r ≤ length (input r))%nat → drop (owed_of r) (input r) = concat (stored_object <$> ods) ++ trailer n ++ rest →
  match eff_each put_exact ods x with
  | (Ok _, x') => put_objects serve fuel keys (r, x) = (Ok (keys ++ (ob_key <$> ods.*1)), (at_bytes rest (so_end (rd_input r)) n, x'))
  | (Err e, x') => ∃ r', put_objects serve fuel keys (r, x) = (Err e, (r', x'))
  end.
Proof.
  intros H. revert fuel keys r x. induction H as [|od ods Hod _ IH]; intros fuel keys r x Hf Hn Hu Hc Ho Hr; (destruct fuel as [|fuel]; [lia|]);
    cbn [eff_each put_objects].
  - cbn [eff_ret]. unfold eff_ret at 1. unfold eff_bind, on_reader, saying. rewrite (next_trailer n rest) by (done || (cbn in Hc; lia)).
    cbn [map_err]. unfold eff_ret. cbn. by rewrite app_nil_r.
  - destruct Hod as (H1 & H2 & H3 & He). cbn [fmap list_fmap concat] in Hr. rewrite <- app_assoc in Hr.
    unfold eff_bind at 1. unfold put_exact at 1. unfold eff_bind at 1 3, on_reader, saying.
    rewrite (next_stored _ _ _ r He H3 Ho Hr). cbn [map_err]. set (e := entry_of od.1 od.2) in *. set (c := concat (dl_chunks od.2)) in *.
    set (tail := concat _ ++ trailer n ++ rest) in *. set (r1 := counted _). unfold put_object, eff_bind.
    destruct (pieces_whole c (pad (en_size e) ++ tail) r1) as (l & Hp & Hl); [symmetry; exact H3|done|]. rewrite Hp, Hl.
    cbn [fmap option_fmap option_map]. change (put_stream (en_path e) (en_size e) (en_headers e) c None x) with (put_stream (ob_key od.1) (dl_size od.2) (dl_headers od.2) c None x).
    destruct (put_stream _ _ _ c None x) as [[[]|why] x1]; cbn [map_err]; [|by eexists].
    set (r2 := with_owed _ _ _).
    rewrite fmap_cons. change (ob_key <$> od.1 :: ods.*1) with (en_path e :: (ob_key <$> ods.*1)).
    replace (keys ++ en_path e :: (ob_key <$> ods.*1)) with ((keys ++ [en_path e]) ++ (ob_key <$> ods.*1)) by (by rewrite <- app_assoc).
    assert (Ho2 : owed_of r2 = length (pad (en_size e))) by (unfold pad, zeros; by rewrite length_replicate).
    specialize (IH fuel (keys ++ [en_path e]) r2 x1). change (so_end (rd_input r)) with (so_end (rd_input r2)).
    assert (Hi : input r2 = pad (en_size e) ++ tail) by done.
    apply IH; [cbn [length] in Hf; lia|exact Hn|exact Hu| | |].
    + change (rd_count r2) with (rd_count r + 1)%N. cbn [length] in Hc. lia.
    + rewrite Ho2, Hi, length_app. lia.
    + by rewrite Ho2, Hi, drop_app_length.
Qed.
End reading_laws.

(** *** The whole of it *)

Lemma stored_count (ods : list (Object_ * Download)) : (length ods ≤ length (concat (stored_object <$> ods)))%nat.
Proof.
  induction ods as [|od ods IH]; [done|]. rewrite fmap_cons. cbn [concat length]. rewrite length_app.
  pose proof (stored_length (entry_of od.1 od.2) (concat (dl_chunks od.2))) as H. fold (stored_object od) in H. lia.
Qed.

(** C27. A bucket is put back as it was: its objects each read whole - of the size said and with no
    break -, their keys and headers in UTF-8 and no key that of the trailer, no header's name
    holding an equals sign, each date one a tar writes in eleven octal digits, each object's texts
    within what a tar's field counts and sizes and counts within a machine's, writing them gives an archive, and the stream of that archive,
    read in any pieces and served in any pieces, has the store write each object again in its order,
    at its key, of its size, with its headers and its bytes, up to the first write the store refuses,
    and nothing else. *)
Theorem bucket_roundtrip serve {X} `{!Buckets X} (ods : list (Object_ * Download)) :
  Forall whole ods → (N.of_nat (length ods) ≤ usize_max)%N →
  ∃ w, write_archive (Ok ods.*1) new_writer = (Ok (N.of_nat (length ods)), w) ∧
    ∀ x : X, write_back serve (new_reader (source_of (wr_out w))) x =
      (eff_each put_exact ods ;;! eff_ret (ob_key <$> ods.*1)) x.
Proof.
  intros Hw Hn. destruct (write_archive_whole serve ods Hw) as (w & E & Hout). exists w. split; [exact E|]. intros x. clear E.
  set (n := N.of_nat (length ods)) in *. assert (Hn32 : (n < 10 ^ 32)%N) by (eapply N.le_lt_trans; [exact Hn|reflexivity]).
  set (r := new_reader _). assert (Hi : so_bytes (rd_input r) = concat (stored_object <$> ods) ++ trailer n ++ after_trailer n).
  { subst r. rewrite Hout. unfold archived. cbn [new_reader source_of rd_input so_bytes sk_bytes]. by rewrite <- app_assoc. }
  assert (He : so_end (rd_input r) = None) by (subst r; by rewrite Hout).
  assert (Hlen : (length ods < S (length (so_bytes (rd_input r))))%nat).
  { rewrite Hi, length_app. pose proof (stored_count ods). lia. }
  assert (Ho : owed_of r = 0%nat) by done. assert (Hc : (rd_count r + N.of_nat (length ods))%N = n) by done.
  pose proof (put_objects_stored serve ods (after_trailer n) n (S (length (so_bytes (rd_input r)))) [] r x Hw Hlen Hn32 Hn Hc) as H.
  rewrite Ho, Hi in H. specialize (H ltac:(lia) eq_refl). unfold write_back, eff_bind at 1. rewrite Hi. unfold eff_bind at 2.
  destruct (eff_each put_exact ods x) as [[[]|e] x'].
  - rewrite H. unfold eff_bind, on_reader, saying, drain. cbn [at_bytes rd_input so_end]. by rewrite He.
  - destruct H as [r' ->]. done.
Qed.

(** *** Neither a cut archive nor an unfinished one *)

Section endings.
Context (serve : N → nat → nat) {X : Type} `{!Buckets X}.

Definition same_end (r r' : Reader) : Prop := so_end (rd_input r') = so_end (rd_input r).
#[local] Instance same_end_preorder : PreOrder same_end.
Proof. split; [done|]. intros r1 r2 r3 H1 H2. unfold same_end in *. congruence. Qed.
Lemma end_put f : (∀ r, same_end r (f r)) → keeps same_end (eff_put (E := Stopped) f).
Proof. intros H r. apply H. Qed.
Lemma end_read_exact s n : keeps same_end (read_exact s n).
Proof. intros r. unfold read_exact. by destruct (_ <=? _)%N. Qed.
Lemma end_poll n : keeps same_end (poll serve n).
Proof. intros r. unfold same_end, poll. by destruct (so_bytes (rd_input r)), (so_end (rd_input r)) eqn:E. Qed.
#[local] Hint Resolve end_read_exact end_poll : core.
Ltac end_steps := repeat (intros; first [ solve [auto 1] | eapply keeps_bind; [apply _|..] | apply keeps_ret; apply _ | apply keeps_fail; apply _
  | apply keeps_get; apply _ | apply keeps_of; apply _ | apply end_put; by intros [[] ? ? ?] | case_match ]); intros.
Lemma end_skip_go fuel n : keeps same_end (skip_go serve fuel n).
Proof. revert n. induction fuel as [|fuel IH]; intros n; cbn [skip_go]; end_steps. Qed.
Lemma end_skip n : keeps same_end (skip serve n).
Proof. intros r. apply end_skip_go. Qed.
#[local] Hint Resolve end_skip : core.
Lemma end_next_go fuel pax : keeps same_end (next_go serve fuel pax).
Proof. revert pax. induction fuel as [|fuel IH]; intros pax; cbn [next_go]; unfold block, at_trailer, at_object; end_steps. Qed.
Lemma end_next : keeps same_end (next serve).
Proof. unfold next. end_steps. intros r. apply end_next_go. Qed.
Lemma end_pieces_go fuel r : same_end r (pieces_go serve fuel r).2.
Proof.
  revert r. induction fuel as [|fuel IH]; intros r; [done|]. cbn [pieces_go].
  assert (H : same_end r (read serve BUFFER r).2) by (revert r; change (keeps same_end (read serve BUFFER)); unfold read; end_steps).
  destruct (read serve BUFFER r) as [[[|a got]|e] r1]; cbn [snd] in *; [done| |done].
  specialize (IH r1). destruct (pieces_go serve fuel r1) as [[l e] r2]. by etransitivity.
Qed.
Lemma end_put_objects fuel keys r x : same_end r (put_objects serve fuel keys (r, x)).2.1.
Proof.
  revert keys r x. induction fuel as [|fuel IH]; intros keys r x; [done|]. cbn [put_objects].
  unfold eff_bind at 1, on_reader, saying. pose proof (end_next r) as H. destruct (next serve r) as [[[e|]|e] r1]; cbn [map_err snd] in *; [|done|done].
  unfold eff_bind, put_object. pose proof (end_pieces_go (S (length (so_bytes (rd_input r1)))) r1) as Hp. unfold pieces.
  destruct (pieces_go _ _ _) as [[l b] r2]. destruct (put_stream _ _ _ _ _ _) as [put x1]. assert (same_end r r2) by (by etransitivity).
  destruct b as [b|]; [done|]. destruct put; cbn [map_err]; [|done]. etransitivity; [done|apply IH].
Qed.
(** A stream that breaks at its end is never read as whole. *)
Lemma broken_refused r x e : so_end (rd_input r) = Some e → ∃ why, (write_back serve r x).1 = Err why.
Proof.
  intros He. unfold write_back, eff_bind at 1. pose proof (end_put_objects (S (length (so_bytes (rd_input r)))) [] r x) as H.
  destruct (put_objects _ _ _ _) as [[keys|why] [r' x']]; cbn [fst snd] in *; [|by eexists]. unfold eff_bind, on_reader, saying, drain.
  rewrite H, He. by eexists.
Qed.

Definition same_open (w w' : Writer) : Prop := sk_closed (wr_out w') = sk_closed (wr_out w).
#[local] Instance same_open_preorder : PreOrder same_open.
Proof. split; [done|]. intros w1 w2 w3 H1 H2. unfold same_open in *. congruence. Qed.
Lemma keeps_saying {S A} (R : relation S) f (m : eff S Stopped A) : keeps R m → keeps R (saying f m).
Proof. intros H s. specialize (H s). unfold saying. by destruct (m s). Qed.
Lemma open_put f : (∀ w, same_open w (f w)) → keeps same_open (eff_put (E := Stopped) f).
Proof. intros H w. apply H. Qed.
Lemma open_write_object o : keeps same_open (write_object o).
Proof.
  unfold write_object, start, end_entry, write_all. repeat (intros; first [ eapply keeps_bind; [apply _|..] | apply keeps_each; [apply _|]
    | apply keeps_saying | apply keeps_ret; apply _ | apply keeps_fail; apply _ | apply keeps_get; apply _ | apply keeps_of; apply _
    | apply open_put; by intros [[] ? ? ?] | progress unfold write, write_all | case_match ]).
Qed.
End endings.

(** C28. A bucket read in part is never restored: an archive cut before the end of its trailer, or whose
    writing failed and so was never closed, is refused whatever pieces it is served in; and a restore
    of one cut deletes nothing of the bucket, even when restic says it gave it whole. *)
Theorem partial_archive_refused serve {X} `{!Buckets X} (ods : list (Object_ * Download)) (k : nat) (x : X) :
  Forall whole ods → (N.of_nat (length ods) ≤ usize_max)%N → (k < length (archived ods))%nat →
  let cut := take k (archived ods) in
  (∀ ending, ∃ why, (write_back serve (new_reader {| so_bytes := cut; so_end := ending |}) x).1 = Err why) ∧
  (∀ dumped, ∃ why, restore_bucket serve dumped cut x =
     (Err why, (write_back serve (new_reader {| so_bytes := cut; so_end := None |}) x).2)) ∧
  (∀ objects why w, write_archive objects new_writer = (Err why, w) →
     ∃ why', (write_back serve (new_reader (source_of (wr_out w))) x).1 = Err why').
Proof.
  intros Hw Hn Hk cut.
  assert (Hcut : ∀ ending, ∃ why, (write_back serve (new_reader {| so_bytes := cut; so_end := ending |}) x).1 = Err why).
  { intros ending. set (r := new_reader _). unfold write_back, eff_bind at 1.
    destruct (put_objects serve (S (length (so_bytes (rd_input r)))) [] (r, x)) as [[keys|why] [r' x']] eqn:E; [|by eexists]. exfalso.
    set (n := N.of_nat (length ods)) in *. assert (Hn32 : (n < 10 ^ 32)%N) by (eapply N.le_lt_trans; [exact Hn|reflexivity]).
    set (after := after_trailer n). set (t := drop k (archived ods) ++ after).
    pose proof (stored_count ods) as Hcount.
    assert (Hi : so_bytes (rd_input (fed t r)) = concat (stored_object <$> ods) ++ trailer n ++ after).
    { unfold fed, t. cbn [with_input rd_input so_bytes r new_reader]. unfold cut. rewrite app_assoc, take_drop. unfold archived. by rewrite <- app_assoc. }
    eapply (put_objects_fed serve _ (S (length (so_bytes (rd_input (fed t r))))) _ _ _ _ _ _ t) in E; [|rewrite fed_length; lia].
    pose proof (put_objects_stored serve ods after n (S (length (so_bytes (rd_input (fed t r))))) [] (fed t r) x Hw) as H.
    specialize (H ltac:(rewrite Hi, length_app; lia) Hn32 Hn eq_refl). rewrite E in H.
    change (owed_of (fed t r)) with 0%nat in H. rewrite Hi in H. specialize (H ltac:(lia) eq_refl).
    destruct (eff_each put_exact ods x) as [[[]|e] x2]; [|by destruct H as [? [=]]]. injection H as _ Hr _.
    apply (f_equal length) in Hr. rewrite length_app in Hr.
    unfold t in Hr. rewrite length_app, length_drop in Hr. lia. }
  split_and!; [exact Hcut| |].
  - intros dumped. destruct (Hcut None) as [why H]. unfold restore_bucket, eff_bind.
    destruct (write_back serve _ x) as [keys x1]. cbn [fst snd] in *. rewrite H. destruct dumped as [u|e]; by eexists.
  - intros objects why w E. apply (broken_refused _ _ _ "the archive's writer stopped before it finished it").
    cbn [new_reader source_of rd_input so_end]. enough (sk_closed (wr_out w) = false) as -> by done. revert E.
    unfold write_archive, eff_bind at 1, eff_of. destruct objects as [objects|e]; [|by intros [= _ <-]]. unfold eff_bind.
    pose proof (keeps_each same_open write_object objects (λ o _, open_write_object o) new_writer) as Ho.
    destruct (eff_each write_object objects new_writer) as [[u|e] w1]; [|by intros [= _ <-]]. done.
Qed.

(** ** Examples *)

(** A store that keeps what it is given. *)
#[local] Instance kept_buckets : Buckets (list (string * list (string * string) * list ascii)) := {|
  bk_list := λ x, (Ok ((λ o, o.1.1) <$> x), x);
  bk_put := λ key headers content broken x,
    match broken with None => (Ok (200%N, ""), x ++ [(key, headers, content)]) | Some why => (Err why, x) end;
  bk_delete := λ key x, (Ok 204%N, keep (λ o, negb (o.1.1 ==? key)) x) |}.
Definition a_photo : Object_ * Download :=
  let d := {| dl_size := 5; dl_headers := [("content-type", "image/png")]; dl_chunks := [chars "he"; chars "llo"]; dl_broken := None |} in
  ({| ob_key := "albums/été.png"; ob_modified := 1700000000; ob_open := Ok d |}, d).
Definition an_empty : Object_ * Download :=
  let d := {| dl_size := 0; dl_headers := []; dl_chunks := []; dl_broken := None |} in
  ({| ob_key := "empty"; ob_modified := 0; ob_open := Ok d |}, d).
Lemma sample_whole : Forall whole [a_photo; an_empty].
Proof. repeat constructor; try (vm_compute; congruence); vm_compute; reflexivity. Qed.
Lemma bucket_roundtrip_witness :
  ∃ w, write_archive (Ok [a_photo; an_empty].*1) new_writer = (Ok 2%N, w) ∧
    ∀ x : list (string * list (string * string) * list ascii), write_back (λ _ _, 3%nat) (new_reader (source_of (wr_out w))) x =
      (eff_each put_exact [a_photo; an_empty] ;;! eff_ret ["albums/été.png"; "empty"]) x.
Proof. apply (bucket_roundtrip (λ _ _, 3%nat) [a_photo; an_empty]); [exact sample_whole|vm_compute; congruence]. Defined.
Lemma partial_archive_refused_witness :
  ∃ why, restore_bucket (λ _ _, 100%nat) (Ok ()) (take 1500 (archived [a_photo; an_empty])) [] =
    (Err why, (write_back (λ _ _, 100%nat) (new_reader {| so_bytes := take 1500 (archived [a_photo; an_empty]); so_end := None |}) []).2).
Proof.
  destruct (partial_archive_refused (λ _ _, 100%nat) [a_photo; an_empty] 1500 []) as (_ & H & _);
    [exact sample_whole|vm_compute; congruence|vm_compute; lia|apply H].
Defined.
Lemma sample_read :
  read_bucket (λ _ _, 7%nat) (Ok ()) (archived [a_photo; an_empty] ++ after_trailer 2) = Ok {| re_objects := 2; re_bytes := 5 |}.
Proof. vm_compute. reflexivity. Qed.
Lemma sample_put_back :
  (eff_each put_exact [a_photo; an_empty] []).2 =
    [("albums/été.png", [("content-length", "5"); ("content-type", "image/png")], chars "hello"); ("empty", [("content-length", "0")], [])].
Proof. vm_compute. reflexivity. Qed.
(** A length that counts its own digits and space alone is an index out of the slice, not a refusal. *)
Lemma short_record_panics : parse_pax (chars "2 path=a") = Err Panicked.
Proof. vm_compute. reflexivity. Qed.
