(* ===== verification/Restore.v ===== *)
(** * Putting data back, and stopping what writes it

    [crates/hlb-backup-run/src/restore.rs] with [stop_for_copy] of [lib.rs]: the snapshot a restore
    takes and those it sets aside, the databases that go with a volume, and the services stopped
    and held while a volume is copied or written, then given back what they ran. The time is in
    the state of the orchestrator, an interface; the holds are [Reconcile]'s. *)

From S2P Require Import Prelude RustStr Binding Capability Manifest Journal Swarm Reconcile Archive Destination Restic.

#[local] Open Scope hlb_scope.

(** ** The snapshot taken *)

(** @ hlb-backup-run/src/restore.rs:21-22 [BEFORE_RESTORE] *)
Definition BEFORE_RESTORE : string := "kind:pre-restore".
(** @ hlb-backup-run/src/restore.rs:27-35 [SetAside] *)
Inductive SetAside := NotTaken | Future.
(** @ hlb-backup-run/src/restore.rs:37-44 [SetAside::describe] *)
Definition set_aside_text (a : SetAside) : string :=
  match a with
  | NotTaken => "not taken by this installation"
  | Future => "not taken by this installation, and dated in the future"
  end.
(** @ hlb-backup-run/src/restore.rs:46-48 [CLOCK_SKEW] *)
Definition CLOCK_SKEW : Z := 3600.
(** @ hlb-backup-run/src/restore.rs:50-56 [Picked] *)
Record Picked := { pk_snapshot : option Snapshot; pk_set_aside : list (Snapshot * SetAside) }.

Section pick.
Context (taken : gset string) (now : Z).

(** @ hlb-backup-run/src/restore.rs:131-134 [pick_where] *)
Definition why_aside (s : Snapshot) : SetAside :=
  match epoch s with
  | Some t => if (wrap_i64 (now + CLOCK_SKEW) <? t)%Z then Future else NotTaken
  | None => NotTaken
  end.
Definition before_restore (s : Snapshot) : bool := any_of (λ t, t ==? BEFORE_RESTORE) (sn_tags s).
Definition is_taken (s : Snapshot) : bool := bool_decide (sn_id s ∈ taken).
(** @ hlb-backup-run/src/restore.rs:141-160 [pick_where] *)
Fixpoint pick_go (wanted : option string) (aside : list (Snapshot * SetAside)) (l : list Snapshot) : Picked :=
  match l with
  | [] => {| pk_snapshot := None; pk_set_aside := aside |}
  | s :: l =>
      match wanted with
      | Some w =>
          if negb (starts_with w (sn_id s)) then pick_go wanted aside l
          else if is_taken s || (sn_id s ==? w) then {| pk_snapshot := Some s; pk_set_aside := aside |}
          else {| pk_snapshot := None; pk_set_aside := aside ++ [(s, why_aside s)] |}
      | None =>
          if before_restore s then pick_go wanted aside l
          else if is_taken s then {| pk_snapshot := Some s; pk_set_aside := aside |}
          else pick_go wanted (aside ++ [(s, why_aside s)]) l
      end
  end.
(** restic lists them oldest first. @ hlb-backup-run/src/restore.rs:124-161 [pick_where] *)
Definition pick_where (snapshots : list Snapshot) (holds : Snapshot → bool) (wanted : option string) : Picked :=
  pick_go wanted [] (keep holds (rev snapshots)).
(** @ hlb-backup-run/src/restore.rs:79-89 [pick_at] *)
Definition pick_at (snapshots : list Snapshot) (path : string) (wanted : option string) : Picked :=
  pick_where snapshots (λ s, bool_decide (path ∈ sn_paths s)) wanted.
(** @ hlb-backup-run/src/restore.rs:58-77 [pick] *)
Definition pick (snapshots : list Snapshot) (volume : string) (wanted : option string) : Picked :=
  pick_at snapshots (volume_path volume) wanted.
(** @ hlb-backup-run/src/restore.rs:111-122 [is_dump_of] *)
Definition is_dump_of (s : Snapshot) (engine : DbEngine) (database : string) : bool :=
  bool_decide ("db:" +:+ database ∈ sn_tags s) &&
  match sn_paths s with
  | [p] => starts_with "/staging/" p && ends_with (match engine with Postgres => ".dump" | Mariadb => ".sql" end) p
  | _ => false
  end.
(** @ hlb-backup-run/src/restore.rs:91-109 [pick_dump] *)
Definition pick_dump (snapshots : list Snapshot) (engine : DbEngine) (database : string) (wanted : option string) : Picked :=
  pick_where snapshots (λ s, is_dump_of s engine database) wanted.

(** ** The databases of a volume *)

(** @ hlb-backup-run/src/lib.rs:829-841 [PASS_TAG] *)
Definition PASS_TAG : string := "pass:".
Definition BACKED_UP : string := "kind:pre-update".
Definition STOPPED_TAG : string := "kind:copied-stopped".
Definition SNAPSHOT_KIND : string := "kind:sqlite-snapshot".
(** @ hlb-backup-run/src/restore.rs:163-166 [copied_stopped] *)
Definition copied_stopped (s : Snapshot) : bool := any_of (λ t, t ==? STOPPED_TAG) (sn_tags s).
(** @ hlb-backup-run/src/restore.rs:168-174 [pass_of] *)
Definition pass_of (s : Snapshot) : option string := find_first (starts_with PASS_TAG) (sn_tags s).
(** @ hlb-backup-run/src/restore.rs:211-213 [sqlite_of_pass] *)
Definition db_of (s : Snapshot) : option string := head (omap (strip_prefix "db:") (sn_tags s)).
(** @ hlb-backup-run/src/restore.rs:197-207 [sqlite_of_pass] *)
Definition of_pass (volume pass : string) (s : Snapshot) : bool :=
  any_of (λ t, t ==? SNAPSHOT_KIND) (sn_tags s) && (pass_of s ==? Some pass) && is_taken s &&
  negb (bool_decide (sn_paths s = [])) && all_of (starts_with (volume_path volume +:+ "/")) (sn_paths s).
(** @ hlb-backup-run/src/restore.rs:196-220 [sqlite_of_pass] *)
Definition first_of (volume pass : string) (first : gmap string Snapshot) (s : Snapshot) : gmap string Snapshot :=
  if negb (of_pass volume pass s) then first
  else match epoch s, db_of s with
       | Some at_, Some db =>
           match first !! db ≫= epoch with
           | Some e => if (e <=? at_)%Z then first else <[db := s]> first
           | None => <[db := s]> first
           end
       | _, _ => first
       end.
(** @ hlb-backup-run/src/restore.rs:176-222 [sqlite_of_pass] *)
Definition sqlite_of_pass (snapshots : list Snapshot) (volume : string) (source : Snapshot) : list (string * Snapshot) :=
  match pass_of source with
  | None => []
  | Some pass => btree_entries (foldl (first_of volume pass) ∅ snapshots)
  end.
End pick.

(** @ hlb-backup-run/src/restore.rs:244-267 [databases_of] *)
Definition databases_of (m : Manifest) (app : string) : list (DbEngine * string * list string) :=
  omap (λ c, match c with
             | Database engine name extensions _ => Some (engine, default app name, extensions)
             | _ => None
             end) (sp_requires (mf_spec m)).

(** ** Services stopped and started again *)

(** What is asked of the orchestrator, the monotonic clock in milliseconds and the clock of the
    database in seconds. *)
Class Services (X : Type) := {
  sv_status : string → X → result string ServiceStatus * X;
  sv_scale : string → N → X → result string () * X;
  sv_sleep : N → X → X;
  sv_clock : X → N;
  sv_now : X → Z }.

(** @ hlb-backup-run/src/restore.rs:938-940 [COPY_HOLD] *)
Definition COPY_HOLD : string := "backup copy of ".
(** @ hlb-backup-run/src/restore.rs:894-896 [HOLD_SECS] *)
Definition HOLD_SECS : Z := 24 * 3600.
(** A stored count, read back. @ hlb-state/src/lib.rs:1159-1173 [State::service_holds] *)
Definition as_u64 (z : Z) : N := Z.to_N (z mod 2 ^ 64).

Section services.
Context {X : Type} `{!Services X}.

Abbreviation M := (eff (Holds * X) string).
Definition asked {A} (f : X → result string A * X) (g : string → string) : M A := λ '(h, x),
  match f x with (r, x) => (map_err g r, (h, x)) end.

(** @ hlb-backup-run/src/restore.rs:883-892 [replicas] *)
Fixpoint replicas (services : list string) : eff X string (list (string * N)) :=
  match services with
  | [] => eff_ret []
  | s :: services => λ x,
      match sv_status s x with
      | (Ok st, x) => (let! l := replicas services in eff_ret ((s, st_desired_replicas st) :: l)) x
      | (Err _, x) => replicas services x
      end
  end.

(** @ hlb-backup-run/src/restore.rs:24-25 [STOP_TIMEOUT] *)
Definition STOP_TIMEOUT : N := 120.
(** The wait until no task of a service runs, as many turns as [fuel].
    @ hlb-backup-run/src/restore.rs:921-933 [stop] *)
Fixpoint drained_go (fuel : nat) (deadline : N) (s : string) (x : X) : option (result string () * X) :=
  match fuel with
  | O => None
  | S fuel =>
      match sv_status s x with
      | (Err e, x) => Some (Err e, x)
      | (Ok st, x) =>
          if (0 <? st_running_replicas st)%nat then
            if (deadline <? sv_clock x)%N then Some (Err (s +:+ " still runs after " +:+ show_N STOP_TIMEOUT +:+ " s"), x)
            else drained_go fuel deadline s (sv_sleep 2000 x)
          else Some (Ok (), x)
      end
  end.
(** One turn each two seconds, and the last. *)
Definition drain_turns : nat := 63.
Definition drained (deadline : N) (s : string) : M () := λ '(h, x),
  match drained_go drain_turns deadline s x with
  | Some (r, x) => (r, (h, x))
  | None => (Err "", (h, x))
  end.
(** @ hlb-backup-run/src/restore.rs:898-936 [stop] *)
Definition stop (services : list (string * N)) (why : string) : M () :=
  (λ '(h, x), (Ok (), (hold_services (sv_now x) services why HOLD_SECS h, x))) ;;!
  eff_each (λ '(s, n), eff_when (0 <? n)%N (asked (sv_scale s 0) (λ e, "stopping " +:+ s +:+ ": " +:+ e))) services ;;!
  let! deadline := (λ '(h, x), (Ok (sv_clock x + STOP_TIMEOUT * 1000)%N, (h, x))) in
  eff_each (λ '(s, _), drained deadline s) services.

(** The count given back: the hold's when it is larger.
    @ hlb-backup-run/src/restore.rs:1044-1048 [start] *)
Definition given_back (h : Holds) (s : string) (n : N) : N :=
  match h !! s ≫= ho_replicas with Some held => N.max (as_u64 held) n | None => n end.
(** @ hlb-backup-run/src/restore.rs:1043-1054 [start] *)
Fixpoint start_each (h : Holds) (failed : option string) (l : list (string * N)) (x : X) : option string * X :=
  match l with
  | [] => (failed, x)
  | (s, n) :: l =>
      let n := given_back h s n in
      if (0 <? n)%N then
        match sv_scale s n x with
        | (Ok _, x) => start_each h failed l x
        | (Err e, x) => start_each h (match failed with Some _ => failed | None => Some ("starting " +:+ s +:+ " again: " +:+ e) end) l x
        end
      else start_each h failed l x
  end.
(** Released whatever happened. @ hlb-backup-run/src/restore.rs:1029-1060 [start] *)
Definition start (stopped : list (string * N)) : M () := λ '(h, x),
  let '(failed, x) := start_each h None (rev stopped) x in
  (match failed with None => Ok () | Some e => Err e end, (release_services (stopped.*1) h, x)).

(** Started again what could not be stopped, and what is then said.
    @ hlb-backup-run/src/lib.rs:565-570 [stop_for_copy] *)
Definition started_again (services : list (string * N)) (e : string) : M string := λ w,
  match start services w with
  | (Ok _, w) => (Ok e, w)
  | (Err again, w) => (Ok (e +:+ "; and then " +:+ again), w)
  end.

(** The hold that is not a copy's, if any. @ hlb-backup-run/src/lib.rs:544-550 [stop_for_copy] *)
Fixpoint held_otherwise (names : list string) (now : Z) (h : Holds) : option (string * string) :=
  match names with
  | [] => None
  | s :: names =>
      match held now s h with
      | Some why => if negb (starts_with COPY_HOLD why) then Some (s, why) else held_otherwise names now h
      | None => held_otherwise names now h
      end
  end.
(** Each service's count: one that cannot be read is not copied.
    @ hlb-backup-run/src/lib.rs:551-563 [stop_for_copy] *)
Fixpoint counts (names : list string) : M (list (string * N)) :=
  match names with
  | [] => eff_ret []
  | s :: names =>
      let! st := asked (sv_status s) (λ e, "whether " +:+ s +:+ " runs cannot be read, so it is not copied: " +:+ e) in
      let! l := counts names in
      eff_ret ((s, st_desired_replicas st) :: l)
  end.
(** [Err]: no copy is taken. [None]: nothing to stop.
    @ hlb-backup-run/src/lib.rs:524-572 [stop_for_copy] *)
Definition stop_for_copy (orchestrated : bool) (names volumes : list string) : M (option (list (string * N))) :=
  match names with
  | [] => eff_ret None
  | _ :: _ =>
      if negb orchestrated
      then eff_fail (join ", " names +:+ " must be stopped for the copy, and no orchestrator can stop it")
      else
        let! other := (λ '(h, x), (Ok (held_otherwise names (sv_now x) h), (h, x))) in
        match other with
        | Some (s, why) => eff_fail (s +:+ " is held stopped, not copied: " +:+ why)
        | None =>
            let! services := counts names in
            λ w, match stop services (COPY_HOLD +:+ join ", " volumes) w with
                 | (Ok _, w) => (Ok (Some services), w)
                 | (Err e, w) => (let! said := started_again services e in eff_fail said) w
                 end
        end
  end.

(** @ hlb-backup-run/src/restore.rs:942-958 [NotStopped] *)
Inductive NotStopped := Copying (why : string) | StopFailed (why : string).
(** The hold of a copy, if any. @ hlb-backup-run/src/restore.rs:976-987 [stop_for_restore] *)
Fixpoint copying (services : list (string * N)) (now : Z) (h : Holds) : option (string * string) :=
  match services with
  | [] => None
  | (s, _) :: services =>
      match held now s h with
      | Some why => if starts_with COPY_HOLD why then Some (s, why) else copying services now h
      | None => copying services now h
      end
  end.
(** @ hlb-backup-run/src/restore.rs:960-1004 [stop_for_restore] *)
Definition stop_for_restore (services : list (string * N)) (why : string) (at_ : option string) :
    eff (Holds * X) NotStopped () := λ '(h, x),
  match copying services (sv_now x) h with
  | Some (s, why) =>
      (Err (Copying (s +:+ " is stopped for a " +:+ why +:+ ", which starts it when it ends. Wait for that pass; if none is running, restarting hlb-privd gives it back")),
       (h, x))
  | None =>
      let h := match at_ with
               | Some node => set_hold_node (services.*1) node (hold_services (sv_now x) services why HOLD_SECS h)
               | None => h
               end in
      match stop services why (h, x) with
      | (Ok _, w) => (Ok (), w)
      | (Err e, w) => match started_again services e w with
                      | (Ok said, w) => (Err (StopFailed said), w)
                      | (Err said, w) => (Err (StopFailed said), w)
                      end
      end
  end.

(** @ hlb-backup-run/src/restore.rs:1018-1025 [restart_interrupted_copies] *)
Fixpoint restart_each (l : list (string * HoldRow)) (started : list string) : M (list string) :=
  match l with
  | [] => eff_ret started
  | (s, row) :: l =>
      match ho_replicas row with
      | Some n => start [(s, as_u64 n)] ;;! restart_each l (started ++ [s])
      | None => restart_each l started
      end
  end.
(** @ hlb-backup-run/src/restore.rs:1006-1027 [restart_interrupted_copies] *)
Definition restart_interrupted_copies : M (list string) := λ '(h, x),
  restart_each (keep (λ '(_, row), starts_with COPY_HOLD (ho_why row)) (btree_entries h)) [] (h, x).
End services.

(** ** Theorems *)

(** *** What is restored *)

Section picked.
Context (taken : gset string) (now : Z).

Lemma pick_latest l aside :
  ∃ newer rest, keep (λ s, negb (before_restore s)) l = newer ++ rest ∧
    Forall (λ s, is_taken taken s = false) newer ∧
    pk_set_aside (pick_go taken now None aside l) = aside ++ ((λ s, (s, why_aside now s)) <$> newer) ∧
    match pk_snapshot (pick_go taken now None aside l) with
    | Some s => is_taken taken s = true ∧ head rest = Some s
    | None => rest = []
    end.
Proof.
  revert aside. induction l as [|s l IH]; intros aside; cbn [pick_go].
  - exists [], []. split_and!; try done. cbn. by rewrite app_nil_r.
  - rewrite keep_cons. destruct (before_restore s) eqn:Eb; cbn [negb]; [apply IH|].
    destruct (is_taken taken s) eqn:Et.
    + exists [], (s :: keep (λ s, negb (before_restore s)) l). split_and!; try done. cbn. by rewrite app_nil_r.
    + destruct (IH (aside ++ [(s, why_aside now s)])) as (newer & rest & E & Hn & Ha & Hs).
      exists (s :: newer), rest. rewrite E, Ha, <- app_assoc. split_and!; try done. by constructor.
Qed.

Lemma pick_named w l aside :
  pick_go taken now (Some w) aside l =
  match head (keep (λ s, starts_with w (sn_id s)) l) with
  | Some s => if is_taken taken s || (sn_id s ==? w) then {| pk_snapshot := Some s; pk_set_aside := aside |}
              else {| pk_snapshot := None; pk_set_aside := aside ++ [(s, why_aside now s)] |}
  | None => {| pk_snapshot := None; pk_set_aside := aside |}
  end.
Proof.
  induction l as [|s l IH]; [done|]. cbn [pick_go]. rewrite keep_cons.
  destruct (starts_with w (sn_id s)); [done|]. apply IH.
Qed.

Lemma keep_keep {A} (p q : A → bool) l : keep p (keep q l) = keep (λ x, q x && p x) l.
Proof.
  induction l as [|x l IH]; [done|]. rewrite !keep_cons. destruct (q x) eqn:Eq; cbn [andb]; [|done].
  by rewrite keep_cons, IH.
Qed.

Lemma keep_rev {A} (p : A → bool) (l : list A) : keep p (rev l) = rev (keep p l).
Proof.
  induction l as [|x l IH]; [done|]. cbn [rev]. rewrite keep_app, IH, !keep_cons.
  destruct (p x); [done|]. by rewrite app_nil_r.
Qed.

Lemma head_rev {A} (l : list A) : head (rev l) = last l.
Proof. rewrite rev_alt. fold (reverse l). apply head_reverse. Qed.

(** C23. Unasked, a restore takes the newest snapshot this installation took, whoever else wrote into
    the repository since and under whatever date, and never the copy of a restore before it; each
    newer one it did not take is set aside and said. Asked by a name, it takes the newest that name
    begins, if this installation took it or the name is its whole id, and no other in its place. *)
Theorem pick_spec snapshots holds :
  (let candidates := keep (λ s, holds s && negb (before_restore s)) snapshots in
   let p := pick_where taken now snapshots holds None in
   ∃ older newer, candidates = older ++ newer ∧ Forall (λ s, is_taken taken s = false) newer ∧
     pk_set_aside p = (λ s, (s, why_aside now s)) <$> rev newer ∧
     match pk_snapshot p with
     | Some s => is_taken taken s = true ∧ last older = Some s
     | None => older = []
     end) ∧
  ∀ w, pick_where taken now snapshots holds (Some w) =
    match last (keep (λ s, holds s && starts_with w (sn_id s)) snapshots) with
    | Some s => if is_taken taken s || (sn_id s ==? w) then {| pk_snapshot := Some s; pk_set_aside := [] |}
                else {| pk_snapshot := None; pk_set_aside := [(s, why_aside now s)] |}
    | None => {| pk_snapshot := None; pk_set_aside := [] |}
    end.
Proof.
  unfold pick_where. split.
  - cbn zeta. destruct (pick_latest (keep holds (rev snapshots)) []) as (newer & rest & E & Hn & Ha & Hs).
    rewrite keep_keep, keep_rev in E. exists (rev rest), (rev newer).
    split; [by rewrite <- rev_app_distr, <- E, List.rev_involutive|].
    split; [apply Forall_rev in Hn; exact Hn|]. rewrite List.rev_involutive. split; [exact Ha|].
    destruct (pk_snapshot _) as [s|]; [|by subst]. by rewrite <- head_rev, List.rev_involutive.
  - intros w. rewrite pick_named, keep_keep, keep_rev, head_rev. done.
Qed.

(** *** The databases that go with a volume *)

Definition eligible (volume pass : string) (db : string) (s : Snapshot) : Prop :=
  of_pass taken volume pass s = true ∧ db_of s = Some db ∧ is_Some (epoch s).

Lemma first_of_lookup volume pass (l : list Snapshot) db :
  match foldl (first_of taken volume pass) ∅ l !! db with
  | Some s => s ∈ l ∧ eligible volume pass db s ∧
      ∀ s', s' ∈ l → eligible volume pass db s' → (default 0 (epoch s) ≤ default 0 (epoch s'))%Z
  | None => ∀ s', s' ∈ l → ¬ eligible volume pass db s'
  end.
Proof.
  induction l as [|s l IH] using rev_ind; [cbn; rewrite lookup_empty; by intros s' ?%elem_of_nil|].
  rewrite foldl_app. cbn [foldl]. set (m := foldl _ ∅ l) in *. unfold first_of.
  assert (Hkeep : (∀ db', db' = db → ¬ eligible volume pass db' s) →
    match m !! db with
    | Some s0 => s0 ∈ l ++ [s] ∧ eligible volume pass db s0 ∧
        ∀ s', s' ∈ l ++ [s] → eligible volume pass db s' → (default 0 (epoch s0) ≤ default 0 (epoch s'))%Z
    | None => ∀ s', s' ∈ l ++ [s] → ¬ eligible volume pass db s'
    end).
  { intros Hs. destruct (m !! db) as [s0|].
    - destruct IH as (H1 & H2 & H3). split; [apply elem_of_app; by left|]. split; [done|].
      intros s' [Hin| ->%list_elem_of_singleton]%elem_of_app He; [by apply H3|]. by apply Hs in He.
    - intros s' [Hin| ->%list_elem_of_singleton]%elem_of_app; [by apply IH|by apply Hs]. }
  destruct (of_pass taken volume pass s) eqn:Eo; cbn [negb]; [|apply Hkeep; by intros db' _ [? _]; congruence].
  destruct (epoch s) as [e|] eqn:Ee; [|apply Hkeep; intros db' _ (_ & _ & [? ?]); congruence].
  destruct (db_of s) as [d|] eqn:Ed; [|apply Hkeep; intros db' _ (_ & ? & _); congruence].
  assert (Hel : eligible volume pass d s) by (split_and!; [done|done|by exists e]).
  destruct (decide (d = db)) as [->|Hne].
  - assert (Hput : (∀ s', s' ∈ l → eligible volume pass db s' → (e ≤ default 0 (epoch s'))%Z) →
      match <[db:=s]> m !! db with
      | Some s0 => s0 ∈ l ++ [s] ∧ eligible volume pass db s0 ∧
          ∀ s', s' ∈ l ++ [s] → eligible volume pass db s' → (default 0 (epoch s0) ≤ default 0 (epoch s'))%Z
      | None => ∀ s', s' ∈ l ++ [s] → ¬ eligible volume pass db s'
      end).
    { intros Hle. rewrite lookup_insert_eq. split; [apply elem_of_app; right; by left|]. split; [done|].
      rewrite Ee. cbn [default from_option id].
      intros s' [Hin| ->%list_elem_of_singleton]%elem_of_app He; [by apply Hle|]. rewrite Ee. cbn. lia. }
    destruct (m !! db) as [s0|] eqn:Em; cbn [mbind option_bind].
    + destruct IH as (H1 & H2 & H3). destruct (epoch s0) as [e0|] eqn:E0; [|by destruct H2 as (_ & _ & [? ?]); congruence].
      destruct (Z.leb_spec e0 e) as [Hle|Hlt].
      * rewrite Em. split; [apply elem_of_app; by left|]. split; [done|]. rewrite E0 in *. cbn [default from_option id] in *.
        intros s' [Hin| ->%list_elem_of_singleton]%elem_of_app He; [by apply H3|]. rewrite Ee. cbn. lia.
      * apply Hput. intros s' Hin He. specialize (H3 s' Hin He). cbn in H3. lia.
    + apply Hput. intros s' Hin He. by apply IH in He.
  - assert (Hgo : ∀ x : gmap string Snapshot, x !! db = m !! db →
      match x !! db with
      | Some s0 => s0 ∈ l ++ [s] ∧ eligible volume pass db s0 ∧
          ∀ s', s' ∈ l ++ [s] → eligible volume pass db s' → (default 0 (epoch s0) ≤ default 0 (epoch s'))%Z
      | None => ∀ s', s' ∈ l ++ [s] → ¬ eligible volume pass db s'
      end).
    { intros x ->. apply Hkeep. intros db' -> (_ & ? & _). congruence. }
    destruct (m !! d ≫= epoch) as [e0|]; [destruct (e0 <=? e)%Z|]; apply Hgo; by rewrite ?lookup_insert_ne.
Qed.

(** With a volume go the databases of the pass that took it and no other: for each database, at
    most one snapshot, one this installation took in that same pass with every file inside the
    volume, the earliest of those; a database that has one gets it, and a volume of no pass none. *)
Theorem sqlite_of_pass_spec snapshots volume source :
  NoDup ((sqlite_of_pass taken snapshots volume source).*1) ∧
  (∀ db s, (db, s) ∈ sqlite_of_pass taken snapshots volume source →
    s ∈ snapshots ∧ ∃ pass, pass_of source = Some pass ∧ eligible volume pass db s ∧
      ∀ s', s' ∈ snapshots → eligible volume pass db s' → (default 0 (epoch s) ≤ default 0 (epoch s'))%Z) ∧
  (∀ pass db s', pass_of source = Some pass → s' ∈ snapshots → eligible volume pass db s' →
    ∃ s, (db, s) ∈ sqlite_of_pass taken snapshots volume source).
Proof.
  unfold sqlite_of_pass. destruct (pass_of source) as [pass|]; cycle 1.
  { split; [constructor|]. split; [by intros db s ?%elem_of_nil|done]. }
  set (m := foldl _ ∅ snapshots).
  pose proof (first_of_lookup volume pass snapshots) as Hm. fold m in Hm. split_and!.
  - rewrite btree_entries_keys. apply NoDup_btree_keys.
  - intros db s Hin. apply elem_of_btree_entries in Hin. specialize (Hm db). rewrite Hin in Hm.
    destruct Hm as (H1 & H2 & H3). split; [done|]. by exists pass.
  - intros pass' db s' [= <-] Hin He. specialize (Hm db). destruct (m !! db) as [s|] eqn:E.
    + exists s. by apply elem_of_btree_entries.
    + by apply Hm in He.
Qed.
End picked.

Lemma release_lookup (names : list string) (h : Holds) s :
  release_services names h !! s = if decide (s ∈ names) then None else h !! s.
Proof.
  unfold release_services. revert h. induction names as [|t names IH]; intros h; cbn [foldl]; [done|].
  rewrite IH. destruct (decide (s ∈ names)) as [Hin|Hn].
  { by rewrite decide_True by (by right). }
  destruct (decide (s = t)) as [->|Hne].
  - rewrite decide_True by (by left). apply lookup_delete_eq.
  - rewrite decide_False; [by apply lookup_delete_ne|]. by intros [?|?]%elem_of_cons.
Qed.

Lemma hold_lookup_ne now services why secs (h : Holds) s :
  s ∉ services.*1 → hold_services now services why secs h !! s = h !! s.
Proof.
  unfold hold_services. revert h. induction services as [|[t n] l IH]; intros h; cbn [foldl]; [done|].
  rewrite fmap_cons. cbn [fst]. intros [Hne Hn]%not_elem_of_cons. rewrite (IH _ Hn). unfold hold_service.
  by apply lookup_insert_ne.
Qed.

(** *** What is held after *)

Section held_after.
Context {X : Type} `{Services X}.
Implicit Types (h : Holds) (x : X).

#[local] Instance fst_preorder : PreOrder (same_on (@fst Holds X)).
Proof. apply same_on_preorder. Qed.

Lemma keeps_asked {A} (f : X → result string A * X) g : keeps (same_on (@fst Holds X)) (asked f g).
Proof. intros [h x]. unfold asked. by destruct (f x) as [r y]. Qed.
Lemma keeps_drained deadline s : keeps (same_on (@fst Holds X)) (drained deadline s).
Proof. intros [h x]. unfold drained. by destruct (drained_go _ _ _ _) as [[r y]|]. Qed.

Lemma counts_holds names h x :
  (counts names (h, x)).2.1 = h ∧ ∀ l, (counts names (h, x)).1 = Ok l → l.*1 = names.
Proof.
  revert x. induction names as [|s names IH]; intros x; cbn [counts].
  { split; [done|]. by intros l [= <-]. }
  unfold eff_bind, asked. destruct (sv_status s x) as [[st|e] y]; cbn [map_err]; [|done].
  specialize (IH y). destruct (counts names (h, y)) as [[l|e] [h' z]]; cbn [fst snd] in *; destruct IH as [-> Hl]; [|done].
  split; [done|]. intros l' [= <-]. rewrite fmap_cons. cbn [fst]. f_equal. by apply Hl.
Qed.

Lemma stop_holds services why h x :
  (stop services why (h, x)).2.1 = hold_services (sv_now x) services why HOLD_SECS h.
Proof.
  unfold stop. unfold eff_bind at 1. set (h1 := hold_services _ _ _ _ _).
  match goal with |- (?m (h1, x)).2.1 = _ => assert (Hk : keeps (same_on (@fst Holds X)) m); [|exact (Hk (h1, x))] end.
  keeps_steps.
  - apply keeps_asked.
  - by intros [? ?].
  - apply keeps_drained.
Qed.

Lemma start_holds services h x : (start services (h, x)).2.1 = release_services (services.*1) h.
Proof. unfold start. by destruct (start_each _ _ _ _). Qed.

(** Nothing more is held once a copy was refused; once it was not, nothing but what it stopped. *)
Lemma stop_for_copy_holds orchestrated names volumes h x r h' x' :
  stop_for_copy orchestrated names volumes (h, x) = (r, (h', x')) →
  (∀ s, s ∉ names → h' !! s = h !! s) ∧
  match r with
  | Ok None => h' = h
  | Ok (Some services) => services.*1 = names
  | Err _ => ∀ s, h' !! s = h !! s ∨ h' !! s = None
  end.
Proof.
  destruct names as [|n names]; [by intros [= <- <- <-]|]. cbn [stop_for_copy]. set (ns := n :: names).
  destruct orchestrated; cbn [negb]; [|intros [= <- <- <-]; split; [done|by left]].
  unfold eff_bind at 1. destruct (held_otherwise _ _ _) as [[t why]|]; [intros [= <- <- <-]; split; [done|by left]|].
  unfold eff_bind at 1. pose proof (counts_holds ns h x) as Hc. destruct (counts ns (h, x)) as [[l|e] [h1 x1]]; cbn [fst snd] in Hc;
    destruct Hc as [-> Hl]; [|intros [= <- <- <-]; split; [done|by left]].
  specialize (Hl l eq_refl). pose proof (stop_holds l (COPY_HOLD +:+ join ", " volumes) h x1) as Hs.
  assert (Hne : ∀ s, s ∉ ns → hold_services (sv_now x1) l (COPY_HOLD +:+ join ", " volumes) HOLD_SECS h !! s = h !! s).
  { intros s Hn. apply hold_lookup_ne. by rewrite Hl. }
  destruct (stop l _ (h, x1)) as [[[]|e] [h2 x2]]; cbn [fst snd] in Hs; subst h2; [by intros [= <- <- <-]|].
  unfold eff_bind, started_again. pose proof (start_holds l (hold_services (sv_now x1) l (COPY_HOLD +:+ join ", " volumes) HOLD_SECS h) x2) as Hr.
  destruct (start l _) as [[[]|again] [h3 x3]]; cbn [fst snd] in Hr; subst h3; intros [= <- <- <-];
    (split; [intros s Hn; rewrite release_lookup, Hl, decide_False by done; by apply Hne|]);
    intros s; rewrite release_lookup, Hl; (destruct (decide (s ∈ ns)) as [|Hn]; [by right|left; by apply Hne]).
Qed.
End held_after.

(** What is held for longer is held for what was asked. *)
Lemma hold_services_why now services why secs (h : Holds) s row :
  hold_services now services why secs h !! s = Some row → h !! s = Some row ∨ ho_why row = why.
Proof.
  unfold hold_services. revert h. induction services as [|[t n] l IH]; intros h; cbn [foldl]; [by left|].
  intros [H|?]%IH; [|by right]. unfold hold_service in H. apply lookup_insert_Some in H as [[_ <-]|[_ H]]; [right|by left].
  by destruct (h !! t).
Qed.
Lemma stop_for_copy_why {X : Type} `{Services X} orchestrated names volumes h (x : X) services h' x' s row :
  stop_for_copy orchestrated names volumes (h, x) = (Ok services, (h', x')) → h' !! s = Some row →
  h !! s = Some row ∨ ho_why row = COPY_HOLD +:+ join ", " volumes.
Proof.
  destruct names as [|n names]; [intros [= <- <- <-]; by left|]. cbn [stop_for_copy]. set (ns := n :: names).
  destruct orchestrated; cbn [negb]; [|done]. unfold eff_bind at 1. destruct (held_otherwise _ _ _) as [[t why]|]; [done|].
  unfold eff_bind at 1. pose proof (counts_holds ns h x) as Hc. destruct (counts ns (h, x)) as [[l|e] [h1 x1]]; cbn [fst snd] in Hc;
    destruct Hc as [-> _]; [|done].
  pose proof (stop_holds l (COPY_HOLD +:+ join ", " volumes) h x1) as Hs.
  destruct (stop l _ (h, x1)) as [[[]|e] [h2 x2]]; cbn [fst snd] in Hs; subst h2.
  - intros [= <- <- <-]. apply hold_services_why.
  - unfold eff_bind, started_again. by destruct (start l _) as [[[]|again] ?].
Qed.

(** *** What a copy stops *)

(** What Docker does of it: the counts asked are of the services, a count scaled is the one asked and
    no other changes, reading and waiting change none; time goes forward. *)
Class ServicesLaws (X : Type) `{Services X} := {
  desired : X → gmap string N;
  desired_status s x : desired (sv_status s x).2 = desired x;
  status_desired s x st x' : sv_status s x = (Ok st, x') → desired x !! s = Some (st_desired_replicas st);
  desired_sleep d x : desired (sv_sleep d x) = desired x;
  scale_ok s n x x' : sv_scale s n x = (Ok (), x') → desired x' = <[s := n]> (desired x);
  scale_err s n x e x' : sv_scale s n x = (Err e, x') → ∀ t, t ≠ s → desired x' !! t = desired x !! t;
  services_clock_status s x : (sv_clock x ≤ sv_clock (sv_status s x).2)%N;
  services_clock_sleep d x : (sv_clock x + d ≤ sv_clock (sv_sleep d x))%N }.

Section gives_back.
Context {X : Type} `{Services X, !ServicesLaws X}.
Implicit Types (h : Holds) (x : X).

Lemma drained_go_desired fuel deadline s x r x' :
  drained_go fuel deadline s x = Some (r, x') → desired x' = desired x.
Proof.
  revert x. induction fuel as [|fuel IH]; intros x; cbn [drained_go]; [done|].
  pose proof (desired_status s x) as Hd. destruct (sv_status s x) as [[st|e] x1]; cbn [snd] in Hd.
  2: by intros [= _ <-].
  destruct (_ <? _)%nat; [|by intros [= _ <-]]. destruct (_ <? _)%N; [by intros [= _ <-]|].
  intros E%IH. by rewrite E, desired_sleep.
Qed.

(** The turns there is time for are enough. *)
Lemma drained_go_enough n deadline s x :
  (deadline < sv_clock x + 2000 * N.of_nat n)%N → ∃ r, ∀ fuel, (n < fuel)%nat → drained_go fuel deadline s x = Some r.
Proof.
  revert x. induction n as [|n IH]; intros x Hd;
    pose proof (services_clock_status s x) as Hc; destruct (sv_status s x) as [[st|e] x1] eqn:E; cbn [snd] in Hc.
  2,4: exists (Err e, x1); intros [|fuel] Hf; [lia|]; cbn [drained_go]; by rewrite E.
  all: destruct (0 <? st_running_replicas st)%nat eqn:Er;
    [|exists (Ok (), x1); intros [|fuel] Hf; [lia|]; cbn [drained_go]; by rewrite E, Er].
  all: destruct (N.ltb_spec deadline (sv_clock x1)) as [Hl|Hl];
    [eexists; intros [|fuel] Hf; [lia|]; cbn [drained_go]; rewrite E, Er, (proj2 (N.ltb_lt _ _) Hl); reflexivity|].
  - lia.
  - destruct (IH (sv_sleep 2000 x1)) as [r Hr]; [pose proof (services_clock_sleep 2000 x1); lia|].
    exists r. intros [|fuel] Hf; [lia|]. cbn [drained_go]. rewrite E, Er, (proj2 (N.ltb_ge _ _) Hl). apply Hr. lia.
Qed.

Lemma drain_turns_enough s x :
  ∃ r, ∀ fuel, (drain_turns ≤ fuel)%nat → drained_go fuel (sv_clock x + STOP_TIMEOUT * 1000) s x = Some r.
Proof.
  destruct (drained_go_enough 61 (sv_clock x + STOP_TIMEOUT * 1000) s x) as [r Hr]; [unfold STOP_TIMEOUT; lia|].
  exists r. intros fuel Hf. apply Hr. unfold drain_turns in Hf. lia.
Qed.

Lemma counts_spec names h x r h' x' :
  counts names (h, x) = (r, (h', x')) →
  h' = h ∧ desired x' = desired x ∧
  ∀ l, r = Ok l → l.*1 = names ∧ ∀ s n, (s, n) ∈ l → desired x !! s = Some n.
Proof.
  revert x r h' x'. induction names as [|s names IH]; intros x r h' x'; cbn [counts].
  - intros [= <- <- <-]. split_and!; try done. intros l [= <-]. split; [done|]. by intros s n ?%elem_of_nil.
  - unfold eff_bind, asked. pose proof (desired_status s x) as Hd.
    destruct (sv_status s x) as [[st|e] x1] eqn:E; cbn [map_err snd] in *.
    2: { intros [= <- <- <-]. by split_and!. }
    destruct (counts names (h, x1)) as [[l|e] [h1 x2]] eqn:Ec; apply IH in Ec as (-> & Hx & Hl).
    2: { intros [= <- <- <-]. by rewrite Hx. }
    intros [= <- <- <-]. rewrite Hx. split_and!; [done|done|]. intros l' [= <-].
    destruct (Hl l eq_refl) as [<- Hc]. split; [done|]. intros t n. rewrite elem_of_cons. intros [[= -> ->]|Hin].
    + by eapply status_desired.
    + rewrite <- Hd. by apply Hc.
Qed.

(** What of the state a service is not in. *)
Definition elsewhere (names : list string) (x x' : X) : Prop :=
  ∀ t, t ∉ names → desired x' !! t = desired x !! t.
#[local] Instance elsewhere_preorder names : PreOrder (elsewhere names).
Proof. split; [by intros x t|]. intros x y z H1 H2 t Ht. rewrite H2, H1; done. Qed.

Lemma scale_elsewhere names s n x : s ∈ names → elsewhere names x (sv_scale s n x).2.
Proof.
  intros Hs t Ht. destruct (sv_scale s n x) as [[[]|e] x'] eqn:E; cbn.
  - rewrite (scale_ok _ _ _ _ E). apply lookup_insert_ne. by intros ->.
  - eapply scale_err; [exact E|]. by intros ->.
Qed.

(** The scaling to zero, over the orchestrator alone. *)
Lemma scaled_down services h x r h' x' :
  eff_each (λ '(s, n), eff_when (0 <? n)%N (asked (sv_scale s 0) (λ e, "stopping " +:+ s +:+ ": " +:+ e))) services (h, x)
    = (r, (h', x')) →
  h' = h ∧ elsewhere (services.*1) x x' ∧
  (r = Ok () → (∀ s n, (s, n) ∈ services → desired x !! s = Some n ∨ desired x !! s = Some 0%N) →
   ∀ s, s ∈ services.*1 → desired x' !! s = Some 0%N).
Proof.
  revert x. induction services as [|[s n] l IH]; intros x; cbn [eff_each].
  - intros [= <- <- <-]. split_and!; [done|done|]. by intros _ _ s ?%elem_of_nil.
  - unfold eff_bind. set (step := eff_when _ _ (h, x)).
    assert (Hs : ∃ r1 x1, step = (r1, (h, x1)) ∧ elsewhere [s] x x1 ∧
      (r1 = Ok () → desired x !! s = Some n ∨ desired x !! s = Some 0%N → desired x1 !! s = Some 0%N)).
    { subst step. unfold eff_when. destruct (N.ltb_spec 0 n) as [Hn|Hn].
      - unfold asked. pose proof (scale_elsewhere [s] s 0 x ltac:(by left)) as Hel.
        destruct (sv_scale s 0 x) as [[[]|e] x1] eqn:E; eexists _, _; (split; [done|]); (split; [exact Hel|]); [|done].
        intros _ _. rewrite (scale_ok _ _ _ _ E). apply lookup_insert_eq.
      - exists (Ok ()), x. split; [done|]. split; [done|]. intros _ [->|?]; [f_equal; lia|done]. }
    destruct Hs as (r1 & x1 & -> & Hel & Hz).
    assert (Hsub : elsewhere (s :: l.*1) x x1).
    { intros t Ht. apply Hel. intros ->%list_elem_of_singleton. apply Ht. by left. }
    destruct r1 as [[]|e]; cycle 1.
    { intros [= <- <- <-]. by split_and!. }
    intros (-> & Hl & Ho)%IH. split; [done|]. rewrite fmap_cons. cbn [fst]. split.
    { intros t Ht. rewrite (Hl t), (Hsub t); [done|done|]. intros Hin. apply Ht. by right. }
    intros -> Hc t Ht.
    assert (H1 : desired x1 !! s = Some 0%N) by (apply Hz; [done|]; apply Hc; by left).
    destruct (decide (t ∈ l.*1)) as [Hin|Hn].
    + apply Ho; [done| |done]. intros u k Hu. destruct (decide (u = s)) as [->|Hne]; [by right|].
      rewrite (Hel u) by (by intros ->%list_elem_of_singleton). apply Hc. by right.
    + rewrite (Hl t Hn). apply elem_of_cons in Ht as [->|?]; done.
Qed.

Lemma drained_each deadline (services : list (string * N)) h x r h' x' :
  eff_each (λ '(s, _), drained deadline s) services (h, x) = (r, (h', x')) → h' = h ∧ desired x' = desired x.
Proof.
  revert x. induction services as [|[s n] l IH]; intros x; cbn [eff_each]; [by intros [= _ <- <-]|].
  unfold eff_bind, drained at 1. destruct (drained_go _ _ _ _) as [[[[]|e] x1]|] eqn:E; [| |by intros [= _ <- <-]].
  - apply drained_go_desired in E. intros [-> ->]%IH. by rewrite E.
  - apply drained_go_desired in E. by intros [= _ <- <-].
Qed.

(** Every service left is at zero, and held; what is not named is untouched. *)
Lemma stop_desired services why h x r h' x' :
  stop services why (h, x) = (r, (h', x')) →
  h' = hold_services (sv_now x) services why HOLD_SECS h ∧ elsewhere (services.*1) x x' ∧
  (r = Ok () → (∀ s n, (s, n) ∈ services → desired x !! s = Some n) → ∀ s, s ∈ services.*1 → desired x' !! s = Some 0%N).
Proof.
  unfold stop. unfold eff_bind at 1. unfold eff_bind at 1. destruct (eff_each _ services _) as [r1 [h1 x1]] eqn:E1.
  apply scaled_down in E1 as (-> & Hel & Hz). destruct r1 as [[]|e]; [|by intros [= <- <- <-]].
  unfold eff_bind. intros (-> & Hd)%drained_each. split; [done|]. split; [intros t Ht; rewrite Hd; by apply Hel|].
  intros _ Hc s Hs. rewrite Hd. apply Hz; [done| |done]. intros u n Hu. left. by apply Hc.
Qed.

Lemma given_back_le h s n : (n ≤ given_back h s n)%N.
Proof. unfold given_back. destruct (_ ≫= _); lia. Qed.

Lemma start_each_desired h failed l x f x' :
  start_each h failed l x = (f, x') →
  elsewhere (l.*1) x x' ∧ (f = None → failed = None ∧
    ∀ s m, (∀ n, (s, n) ∈ l → given_back h s n = m) → (0 < m)%N → s ∈ l.*1 → desired x' !! s = Some m).
Proof.
  revert failed x. induction l as [|[s n] l IH]; intros failed x; cbn [start_each].
  { intros [= <- <-]. split; [done|]. intros ->. split; [done|]. by intros s m _ _ ?%elem_of_nil. }
  set (go := match sv_scale _ _ x with (Ok _, _) => _ | (Err _, _) => _ end).
  assert (Hgo : ∀ failed' x1, start_each h failed' l x1 = (f, x') → elsewhere [s] x x1 → (failed' = None → failed = None) →
    (failed' = None → (0 < given_back h s n)%N → desired x1 !! s = Some (given_back h s n)) →
    elsewhere (s :: l.*1) x x' ∧ (f = None → failed = None ∧
      ∀ t m, (∀ k, (t, k) ∈ (s, n) :: l → given_back h t k = m) → (0 < m)%N → t ∈ s :: l.*1 → desired x' !! t = Some m)).
  { intros failed' x1 (Hl & Ho)%IH Hel Hf Hz. split.
    - intros t [Hts Htl]%not_elem_of_cons. rewrite (Hl t Htl). apply Hel. by intros ->%list_elem_of_singleton.
    - intros (-> & Hm)%Ho. split; [by apply Hf|]. intros t m Hk Hpos Ht.
      destruct (decide (t ∈ l.*1)) as [Hin|Hn]; [apply Hm; [|done|done]; intros k Hin'; apply Hk; by right|].
      rewrite (Hl t Hn). apply elem_of_cons in Ht as [->|?]; [|done].
      assert (given_back h s n = m) as <- by (apply Hk; by left). by apply Hz. }
  rewrite fmap_cons. cbn [fst]. destruct (N.ltb_spec 0 (given_back h s n)) as [Hn|Hn].
  - subst go. pose proof (scale_elsewhere [s] s (given_back h s n) x ltac:(by left)) as Hel.
    destruct (sv_scale _ _ x) as [[[]|e] x1] eqn:E; intros Hgo'; apply (Hgo _ _ Hgo' Hel).
    + done.
    + intros _ _. rewrite (scale_ok _ _ _ _ E). apply lookup_insert_eq.
    + by destruct failed.
    + by destruct failed.
  - intros Hgo'. apply (Hgo _ _ Hgo'); [done|done|]. lia.
Qed.

(** What is started again: the count each had, or a larger one held. *)
Lemma start_desired services h x r h' x' (counts_of : gmap string N) :
  (∀ s n, (s, n) ∈ services → counts_of !! s = Some n) →
  start services (h, x) = (r, (h', x')) →
  elsewhere (services.*1) x x' ∧ h' = release_services (services.*1) h ∧
  (r = Ok () → ∀ s n, (s, n) ∈ services → (0 < n)%N → ∃ m, (n ≤ m)%N ∧ desired x' !! s = Some m).
Proof.
  intros Hc. unfold start. destruct (start_each h None (rev services) x) as [f x1] eqn:E.
  apply start_each_desired in E as [Hel Ho]. intros [= <- <- <-].
  assert (Hin : ∀ s, s ∈ (rev services).*1 ↔ s ∈ services.*1).
  { intros s. rewrite rev_alt. fold (reverse services). by rewrite fmap_reverse, elem_of_reverse. }
  split; [intros t Ht; apply Hel; by rewrite Hin|]. split; [done|].
  destruct f; [done|]. intros _. destruct (Ho eq_refl) as [_ Hm]. intros s n Hsn Hpos.
  exists (given_back h s n). split; [apply given_back_le|]. apply Hm.
  - intros k Hk. rewrite rev_alt in Hk. fold (reverse services) in Hk. rewrite elem_of_reverse in Hk. apply Hc in Hk, Hsn. congruence.
  - pose proof (given_back_le h s n). lia.
  - apply Hin. apply list_elem_of_fmap. by exists (s, n).
Qed.

(** The cases of a copy's stop: refused before anything moved; stopped; or stopped badly and started again. *)
Lemma stop_for_copy_cases names volumes h x r h' x' :
  stop_for_copy true names volumes (h, x) = (r, (h', x')) →
  (names = [] ∧ r = Ok None ∧ h' = h ∧ x' = x) ∨ (∃ e, r = Err e ∧ h' = h ∧ desired x' = desired x) ∨
  (∃ services x1 why, services.*1 = names ∧ desired x1 = desired x ∧ (∀ s n, (s, n) ∈ services → desired x !! s = Some n) ∧
     held_otherwise names (sv_now x) h = None ∧
     ((r = Ok (Some services) ∧ stop services why (h, x1) = (Ok (), (h', x'))) ∨
      ∃ e w r2, stop services why (h, x1) = (Err e, w) ∧ start services w = (r2, (h', x')) ∧
        r = Err (match r2 with Ok _ => e | Err again => e +:+ "; and then " +:+ again end))).
Proof.
  destruct names as [|s names]; [intros [= <- <- <-]; by left|]. cbn [stop_for_copy negb]. intros E. right.
  revert E. set (ns := s :: names). unfold eff_bind at 1.
  destruct (held_otherwise ns (sv_now x) h) as [[t why]|]; [intros [= <- <- <-]; left; by eexists|].
  unfold eff_bind at 1. destruct (counts ns (h, x)) as [rc [h1 x1]] eqn:Ec. apply counts_spec in Ec as (-> & Hd & Hc).
  destruct rc as [services|e]; [|intros [= <- <- <-]; left; by eexists].
  destruct (Hc services eq_refl) as [Hn Hcs]. intros E. right. exists services, x1, (COPY_HOLD +:+ join ", " volumes).
  split_and!; try done. revert E.
  destruct (stop services _ (h, x1)) as [[[]|e] w] eqn:Es; [intros [= <- ->]; by left|].
  intros E. right. exists e, w. revert E. unfold eff_bind, started_again.
  destruct (start services w) as [[[]|again] w2] eqn:Et; intros [= <- ->]; eexists; done.
Qed.

(** C22. A copy gives back what it stopped. Told to go on, every service named is at zero; started again
    after it, whatever ran meanwhile, each has at least the count it had before the stop and is held
    no longer, and no other service's count or hold was touched. *)
Theorem copy_gives_back names volumes h x services h1 x1 y h2 x2 :
  stop_for_copy true names volumes (h, x) = (Ok (Some services), (h1, x1)) →
  start services (h1, y) = (Ok (), (h2, x2)) →
  (∀ s, s ∈ names → desired x1 !! s = Some 0%N) ∧
  (∀ s n, s ∈ names → desired x !! s = Some n → (0 < n)%N → ∃ m, (n ≤ m)%N ∧ desired x2 !! s = Some m) ∧
  (∀ s, s ∈ names → h2 !! s = None) ∧
  ∀ s, s ∉ names → desired x1 !! s = desired x !! s ∧ desired x2 !! s = desired y !! s ∧ h2 !! s = h !! s.
Proof.
  intros E1 E2. destruct (stop_for_copy_cases _ _ _ _ _ _ _ E1)
    as [(_ & ? & _)|[(? & ? & _)|(l & x0 & why & Hn & Hd & Hc & _ & [[[= <-] Es]|(? & ? & ? & _ & _ & ?)])]]; try done.
  apply stop_desired in Es as (-> & Hel & Hz). apply (start_desired _ _ _ _ _ _ (desired x) Hc) in E2 as (Hy & -> & Hm).
  rewrite Hn in *. split_and!.
  - apply Hz; [done|]. intros s n. rewrite Hd. apply Hc.
  - intros s n Hs Hsn Hpos. rewrite <- Hn in Hs. apply list_elem_of_fmap in Hs as ([s' k] & -> & Hin). cbn in *.
    assert (k = n) as -> by (apply Hc in Hin; congruence). by apply (Hm eq_refl s' n).
  - intros s Hs. rewrite release_lookup. by rewrite decide_True.
  - intros s Hs. rewrite release_lookup, decide_False by done. rewrite <- Hd.
    split_and!; [by apply Hel|by apply Hy|]. apply hold_lookup_ne. by rewrite Hn.
Qed.

(** C38. A copy that may not be taken leaves the services as they were: nothing was asked of any, or each
    was started again, with at least the count it had, and holds nothing — or the message says the
    start failed too. No service outside the names is touched either way. *)
Theorem refused_copy_leaves names volumes h x e h' x' :
  stop_for_copy true names volumes (h, x) = (Err e, (h', x')) →
  (h' = h ∧ desired x' = desired x) ∨
  ((∀ s, s ∈ names → h' !! s = None) ∧ (∀ s, s ∉ names → h' !! s = h !! s ∧ desired x' !! s = desired x !! s) ∧
   ((∀ s n, s ∈ names → desired x !! s = Some n → (0 < n)%N → ∃ m, (n ≤ m)%N ∧ desired x' !! s = Some m) ∨
    ∃ first again, e = first +:+ "; and then " +:+ again)).
Proof.
  intros E. destruct (stop_for_copy_cases _ _ _ _ _ _ _ E)
    as [(_ & ? & _)|[(? & _ & -> & ->)|(l & x0 & why & Hn & Hd & Hc & _ & [[? _]|(e1 & [h1 x1] & r2 & Es & Et & Hr)])]]; try done.
  { by left. }
  right. apply stop_desired in Es as (-> & Hel & _).
  apply (start_desired _ _ _ _ _ _ (desired x) Hc) in Et as (Hy & -> & Hm). rewrite Hn in *. split_and!.
  - intros s Hs. rewrite release_lookup. by rewrite decide_True.
  - intros s Hs. rewrite release_lookup, decide_False by done. split; [apply hold_lookup_ne; by rewrite Hn|].
    by rewrite (Hy s Hs), (Hel s Hs), Hd.
  - destruct r2 as [[]|again]; [left|right; injection Hr as ->; by eexists _, _].
    intros s n Hs Hsn Hpos. rewrite <- Hn in Hs. apply list_elem_of_fmap in Hs as ([s' k] & -> & Hin). cbn in *.
    assert (k = n) as -> by (apply Hc in Hin; congruence). by apply (Hm eq_refl s' n).
Qed.
End gives_back.

(** ** An orchestrator of two counts *)

Module Counts.
(** Its services' counts and a clock; a service asked to stop stops at once. *)
Record State := { counts_of : gmap string N; ticks : N }.
Definition status_of (s : string) (x : State) : result string ServiceStatus * State :=
  match counts_of x !! s with
  | Some n => (Ok {| st_name := s; st_id := s; st_desired_replicas := n; st_running_replicas := N.to_nat n;
                     st_global := false; st_image := ""; st_update_state := None |}, x)
  | None => (Err ("no service " +:+ s), x)
  end.
Definition scaled (s : string) (n : N) (x : State) : result string () * State :=
  (Ok (), {| counts_of := <[s := n]> (counts_of x); ticks := ticks x |}).
#[global] Instance services : Services State := {
  sv_status := status_of;
  sv_scale := scaled;
  sv_sleep d x := {| counts_of := counts_of x; ticks := ticks x + d |};
  sv_clock := ticks;
  sv_now _ := 0%Z }.
#[global] Program Instance laws : ServicesLaws State := {| desired := counts_of |}.
Next Obligation. intros s x. cbn. unfold status_of. by destruct (_ !! s). Qed.
Next Obligation. intros s x st x'. cbn. unfold status_of. destruct (_ !! s) eqn:E; [|done]. by intros [= <- <-]. Qed.
Next Obligation. done. Qed.
Next Obligation. cbn. by intros s n x x' [= <-]. Qed.
Next Obligation. done. Qed.
Next Obligation. intros s x. cbn. unfold status_of. destruct (_ !! s); cbn; lia. Qed.
Next Obligation. intros d x. cbn. lia. Qed.

Definition running : State := {| counts_of := {["cloud" := 2%N; "cloud_db" := 1%N; "mail" := 1%N]}; ticks := 0 |}.
Definition restoring : Holds :=
  {["mail" := {| ho_why := "restore of mail"; ho_until := 10; ho_replicas := Some 1%Z; ho_node := None |}]}.
End Counts.

Definition copied : eff (Holds * Counts.State) string (option (list (string * N))) :=
  stop_for_copy true ["cloud"; "cloud_db"] ["cloud_data"].

Lemma copy_gives_back_witness :
  desired (copied (∅, Counts.running)).2.2 !! "cloud" = Some 0%N ∧
  ∃ m, (2 ≤ m)%N ∧ desired (start [("cloud", 2%N); ("cloud_db", 1%N)] (copied (∅, Counts.running)).2).2.2 !! "cloud" = Some m.
Proof.
  destruct (copy_gives_back ["cloud"; "cloud_db"] ["cloud_data"] ∅ Counts.running [("cloud", 2%N); ("cloud_db", 1%N)]
    (copied (∅, Counts.running)).2.1 (copied (∅, Counts.running)).2.2 (copied (∅, Counts.running)).2.2
    (start [("cloud", 2%N); ("cloud_db", 1%N)] (copied (∅, Counts.running)).2).2.1
    (start [("cloud", 2%N); ("cloud_db", 1%N)] (copied (∅, Counts.running)).2).2.2) as (Hz & Hm & _).
  1, 2: by vm_compute.
  split; [apply Hz; by left|]. apply (Hm "cloud" 2%N); [by left|done|done].
Defined.

Lemma refused_copy_leaves_witness :
  ∃ e, (stop_for_copy true ["mail"] ["mail_data"] (Counts.restoring, Counts.running)).1 = Err e ∧
  (∀ n, desired (stop_for_copy true ["mail"] ["mail_data"] (Counts.restoring, Counts.running)).2.2 !! "mail" = Some n →
    (1 ≤ n)%N).
Proof.
  eexists. split; [by vm_compute|]. intros n Hn.
  destruct (refused_copy_leaves ["mail"] ["mail_data"] Counts.restoring Counts.running
    "mail is held stopped, not copied: restore of mail"
    (stop_for_copy true ["mail"] ["mail_data"] (Counts.restoring, Counts.running)).2.1
    (stop_for_copy true ["mail"] ["mail_data"] (Counts.restoring, Counts.running)).2.2) as [[_ Hd]|(_ & _ & [Hm|(first & again & Hw)])].
  - by vm_compute.
  - rewrite Hd in Hn. vm_compute in Hn. injection Hn as <-. done.
  - destruct (Hm "mail" 1%N) as (m & ? & Hm'); [by left|by vm_compute|done|]. congruence.
  - exfalso. destruct first as [|c first]; [done|].
    repeat (injection Hw as ? Hw; destruct first as [|? first]; try discriminate).
Defined.
