(* ===== verification/Dumps.v ===== *)
(** * Databases dumped and put back

    [crates/hlb-backup/src/pgdump.rs], [mariadump.rs], [pgrunner.rs], [images.rs] and the archiving of
    [sqlite.rs]: the client tools run in a container, the dumps they give and what is refused of
    one, the volume a dump crosses on its way to restic. The process started is an interface, its
    output any bytes. *)

From S2P Require Import Prelude RustStr Encoding Binding Capability Journal Schedule Swarm Calendar Docker Pitr Archive Destination Restic Reconcile Restore.

#[local] Open Scope hlb_scope.

(** ** A process *)

(** Where a process started with a stream to read can fail. *)
Inductive CliErr := NotStarted (why : string) | StdinNotWritten (why : string) | StdinNotClosed (why : string)
| NotWaited (why : string).
(** @ hlb-backup/src/pgdump.rs:32-36 [RawOutput] *)
Record RawOutput := { raw_status : Z; raw_stdout : string; raw_stderr : string }.
(** A process given a stream to read; one run for its output; a file read; a name not used yet. *)
Class DockerCli (X : Type) := {
  docker_cli : Command → string → X → result CliErr RawOutput * X;
  docker_output : list string → X → result string RawOutput * X;
  read_staged : string → X → result string string * X;
  public_token : X → string * X }.

(** ** The images *)

(** @ hlb-backup/src/images.rs:7-9 [RESTIC] *)
Definition RESTIC : string :=
  "restic/restic:0.19.1@sha256:136600b6ff6843d61d355f7f71f460a166429f35de6fd11b568fece3c9a4d510".
(** @ hlb-backup/src/images.rs:11-14 [POSTGRES_CLIENT] *)
Definition POSTGRES_CLIENT : string :=
  "postgres:17-alpine@sha256:b0f9560a2de083e2cc7382e75f808c7381a32852a7ec49117deedb300e552b24".
(** @ hlb-backup/src/images.rs:16-19 [MARIADB_CLIENT] *)
Definition MARIADB_CLIENT : string :=
  "mariadb:12.3.2@sha256:a02fe89cb597d4375812b2eac90cf9d0775d4686daa7f7cc750ebbcad7525bbc".

(** ** A tool in a container *)

Definition plain_char (c : ascii) : bool :=
  is_alnum c || bool_decide (c ∈ ["-"; "_"; "="; "."; "/"; ":"]%char).
(** @ hlb-backup/src/pgrunner.rs:168-178 [shell_quote] *)
Definition shell_quote (s : string) : string :=
  if str_all plain_char s then s else "'" +:+ replace "'" "'\''" s +:+ "'".

(** The payload does not travel as a variable. @ hlb-backup/src/pgrunner.rs:89-124 [PgContainerRunner::command] *)
Definition pg_command (image : string) (net : option string) (arguments : list string) (env : list (string * string))
    (stdin : bool) : Command :=
  let cmd := {| args := ["run"; "--rm"; "-i"]; envs := [] |} in
  let cmd := if net is Some n then arg cmd ["--network"; n] else cmd in
  let cmd := pass_by_name cmd (keep (λ '(k, _), negb (k ==? "HLB_STDIN_B64")) env) in
  let inner := join " " (shell_quote <$> arguments) in
  arg cmd ["--entrypoint"; "sh"; image; "-c"; if stdin then "base64 -d | " +:+ inner else inner].

Section runner.
Context {X : Type} `{!DockerCli X}.

(** @ hlb-backup/src/pgrunner.rs:127-166 [PgContainerRunner::run] *)
Definition client_run (image : string) (net : option string) (arguments : list string) (env : list (string * string)) :
    eff X BackupError RawOutput := λ x,
  let payload := snd <$> find_first (λ '(k, _), k ==? "HLB_STDIN_B64") env in
  match docker_cli (pg_command image net arguments env (bool_decide (is_Some payload))) (default "" payload) x with
  | (Ok out, x) => (Ok out, x)
  | (Err e, x) => (Err match e with
                       | NotStarted e => ResticMissing ("docker not found: " +:+ e)
                       | StdinNotWritten e => UnexpectedBackup ("writing stdin: " +:+ e)
                       | StdinNotClosed e => UnexpectedBackup ("closing stdin: " +:+ e)
                       | NotWaited e => UnexpectedBackup ("waiting for the container: " +:+ e)
                       end, x)
  end.
End runner.

(** ** base64, by hand *)

Definition b64_standard_char (n : N) : ascii :=
  default "A"%char (chars "ABCDEFGHIJKLMNOPQRSTUVWXYZabcdefghijklmnopqrstuvwxyz0123456789+/" !! N.to_nat (N.land n 63)).
(** @ hlb-backup/src/pgdump.rs:254-274 [base64_encode] *)
Definition base64_chunk (chunk : list N) : list ascii :=
  let b0 := default 0%N (chunk !! 0%nat) in
  let b1 := default 0%N (chunk !! 1%nat) in
  let b2 := default 0%N (chunk !! 2%nat) in
  let n := N.lor (N.lor (N.shiftl b0 16) (N.shiftl b1 8)) b2 in
  [b64_standard_char (N.shiftr n 18); b64_standard_char (N.shiftr n 12);
   if (1 <? length chunk)%nat then b64_standard_char (N.shiftr n 6) else "="%char;
   if (2 <? length chunk)%nat then b64_standard_char n else "="%char].
(** @ hlb-backup/src/pgdump.rs:247-276 [base64_encode] *)
Definition base64_encode (data : list N) : string := of_chars (chunks 3 data ≫= base64_chunk).
Definition payload_of (dump : string) : string * string := ("HLB_STDIN_B64", base64_encode (byte_of <$> chars dump)).

(** ** PostgreSQL *)

(** @ hlb-backup/src/pgdump.rs:38-46 [PgTarget] *)
Record Target := { dt_host : string; dt_port : N; dt_database : string; dt_user : string; dt_password : string }.
(** @ hlb-backup/src/pgdump.rs:48-60 [PgTarget::env] *)
Definition pg_env (t : Target) : list (string * string) :=
  [("PGPASSWORD", dt_password t); ("PGHOST", dt_host t); ("PGPORT", show_N (dt_port t)); ("PGUSER", dt_user t);
   ("PGDATABASE", dt_database t)].

(** An extension's name goes into a pattern. @ hlb-backup/src/pgdump.rs:181-186 [PgDumper::restore_as] *)
Definition extension_name (e : string) : bool :=
  negb (str_is_empty e) && str_all (λ c, is_lower c || is_digit c || bool_decide (c = "_"%char)) e.
(** @ hlb-backup/src/pgdump.rs:162-178 [PgDumper::restore_as] *)
Definition restore_as_command (database role : string) : string :=
  join " " (shell_quote <$> ["pg_restore"; "--no-owner"; "--no-privileges"; "--role"; role; "--single-transaction";
                             "--exit-on-error"; "--dbname"; database]).
(** @ hlb-backup/src/pgdump.rs:192-208 [PgDumper::restore_as] *)
Definition restore_as_script (database role : string) (enabled : list string) : string :=
  let restore := restore_as_command database role in
  "set -e; cat > /tmp/hlb.dump; " +:+
  (if enabled ==? [] then restore +:+ " /tmp/hlb.dump"
   else "pg_restore --list /tmp/hlb.dump | grep -Ev " +:+
        shell_quote ("^[0-9]+; [0-9]+ [0-9]+ (EXTENSION - |COMMENT - EXTENSION )(" +:+ join "|" enabled +:+ ") *$") +:+
        " > /tmp/hlb.list && " +:+ restore +:+ " --use-list /tmp/hlb.list /tmp/hlb.dump").

Section pg.
Context {X : Type} (exec_ : list string → list (string * string) → eff X BackupError RawOutput).

Definition failed_with (database stderr : string) : BackupError := DumpFailed database (trim stderr).
(** A tool whose status is not zero fails. *)
Definition exec_ok (database : string) (args : list string) (env : list (string * string)) : eff X BackupError string :=
  let! out := exec_ args env in
  if (raw_status out =? 0)%Z then eff_ret (raw_stdout out) else eff_fail (failed_with database (raw_stderr out)).

(** @ hlb-backup/src/pgdump.rs:71-114 [PgDumper::dump] *)
Definition pg_dump_bytes (t : Target) : eff X BackupError string :=
  let! out := exec_ok (dt_database t)
    ["pg_dump"; "--format=custom"; "--no-owner"; "--no-privileges"; "--serializable-deferrable"] (pg_env t) in
  if str_is_empty out then eff_fail (DumpFailed (dt_database t) "empty dump") else eff_ret out.
(** @ hlb-backup/src/pgdump.rs:116-143 [PgDumper::restore] *)
Definition pg_restore (t : Target) (dump : string) (clean : bool) : eff X BackupError () :=
  let! _ := exec_ok (dt_database t)
    (["pg_restore"; "--no-owner"] ++ (if clean then ["--clean"; "--if-exists"] else []) ++ ["--dbname"; dt_database t])
    (pg_env t ++ [payload_of dump]) in
  eff_ret ().
(** @ hlb-backup/src/pgdump.rs:145-220 [PgDumper::restore_as] *)
Definition pg_restore_as (t : Target) (dump role : string) (enabled : list string) : eff X BackupError () :=
  match find_first (λ e, negb (extension_name e)) enabled with
  | Some bad => eff_fail (DumpFailed (dt_database t) (quoted_str bad +:+ " is not an extension's name"))
  | None =>
      let! _ := exec_ok (dt_database t) ["sh"; "-c"; restore_as_script (dt_database t) role enabled]
                  (pg_env t ++ [payload_of dump]) in
      eff_ret ()
  end.
(** @ hlb-backup/src/pgdump.rs:222-244 [PgDumper::psql] *)
Definition psql (t : Target) (statements : list string) : eff X BackupError () :=
  let! _ := exec_ok (dt_database t)
    (["psql"; "--no-psqlrc"; "--quiet"; "--set"; "ON_ERROR_STOP=1"] ++ (statements ≫= λ s, ["--command"; s])) (pg_env t) in
  eff_ret ().
End pg.

(** ** MariaDB *)

(** @ hlb-backup/src/mariadump.rs:45-49 [GUARD_LINE] *)
Definition GUARD_LINE : string := "-- Dump completed".
(** @ hlb-backup/src/mariadump.rs:51-55 [NON_TRANSACTIONNEL] *)
Definition NON_TRANSACTIONNEL : list string := ["MyISAM"; "Aria"; "MEMORY"; "CSV"; "ARCHIVE"].
(** @ hlb-backup/src/mariadump.rs:67-75 [MariaTarget::env] *)
Definition maria_env (t : Target) : list (string * string) := [("MYSQL_PWD", dt_password t)].
(** @ hlb-backup/src/mariadump.rs:77-88 [MariaTarget::connection] *)
Definition connection (t : Target) : list string :=
  ["--host=" +:+ dt_host t; "--port=" +:+ show_N (dt_port t); "--user=" +:+ dt_user t].
(** @ hlb-backup/src/mariadump.rs:91-108 [Consistency] *)
Inductive Consistency := Transactional | LockRequired.
#[global] Instance Consistency_eq_dec : EqDecision Consistency.
Proof. solve_decision. Defined.
(** @ hlb-backup/src/mariadump.rs:119-151 [MariaDumper::dump_args] *)
Definition dump_args (database : string) (c : Consistency) : list string :=
  ["mariadb-dump"; match c with Transactional => "--single-transaction" | LockRequired => "--lock-tables" end;
   "--routines"; "--triggers"; "--events"; "--databases"; database].
(** @ hlb-backup/src/mariadump.rs:310-331 [consistency_for] *)
Definition consistency_for (engines : list string) : Consistency :=
  if engines ==? [] then LockRequired
  else if any_of (λ m, any_of (λ nt, to_ascii_lowercase nt ==? to_ascii_lowercase (trim m)) NON_TRANSACTIONNEL) engines
  then LockRequired else Transactional.
(** @ hlb-backup/src/mariadump.rs:303-308 [engines_query] *)
Definition engines_query (database : string) : string :=
  "SELECT DISTINCT ENGINE FROM information_schema.TABLES WHERE TABLE_SCHEMA = '" +:+ database +:+ "' AND ENGINE IS NOT NULL".

(** Bytes that are not text are replaced before the line is looked for; the line is ASCII, found in
    the text where it is in the bytes. @ hlb-backup/src/mariadump.rs:264-296 [check_full] *)
Definition check_full (database dump : string) : result BackupError () :=
  _ ← refuse_if (str_is_empty dump) (DumpFailed database "empty dump");
  let tail := from_utf8_lossy (drop (String.length dump - 4096) (chars dump)) in
  refuse_if (negb (contains GUARD_LINE tail))
    (DumpFailed database ("TRUNCATED dump: the guard line " +:+ quoted_str GUARD_LINE +:+ " is missing. The file stays valid SQL but its end is gone, and restoring it would give an incomplete database without an error. Usual causes: disk full, container killed, connection dropped.")).

(** [<\[u8\]>::trim_ascii_end] *)
Fixpoint trim_ascii_start (s : string) : string :=
  match s with "" => "" | String c r => if is_ascii_whitespace c then trim_ascii_start r else s end.
Definition trim_ascii_end (s : string) : string := String.rev (trim_ascii_start (String.rev s)).
Definition use_of (database : string) : string := "USE `" +:+ database +:+ "`;".
(** @ hlb-backup/src/mariadump.rs:239-242 [check_database] *)
Definition use_lines (dump : string) : list string := keep (starts_with "USE ") (split_char "010" dump).
(** @ hlb-backup/src/mariadump.rs:231-262 [check_database] *)
Definition check_database (database dump : string) : result BackupError () :=
  match use_lines dump with
  | [] => Err (DumpFailed database "the dump names no database (no `USE`): it would restore into whichever one the connection had")
  | used =>
      match find_first (λ l, negb (trim_ascii_end l ==? use_of database)) used with
      | Some other => Err (DumpFailed database ("the dump is another database's — " +:+ quoted_str (trim_end (from_utf8_lossy (chars other))) +:+
                                                ": restored, it would write over that one"))
      | None => Ok ()
      end
  end.

Section maria.
Context {X : Type} (exec_ : list string → list (string * string) → eff X BackupError RawOutput).

(** @ hlb-backup/src/mariadump.rs:153-179 [MariaDumper::dump] *)
Definition maria_dump_bytes (t : Target) (c : Consistency) : eff X BackupError string :=
  let a := dump_args (dt_database t) c in
  let! out := exec_ok exec_ (dt_database t) (take 1 a ++ connection t ++ drop 1 a) (maria_env t) in
  eff_of (check_full (dt_database t) out) ;;! eff_ret out.
(** @ hlb-backup/src/mariadump.rs:181-211 [MariaDumper::restore] *)
Definition maria_restore (t : Target) (dump : string) : eff X BackupError () :=
  eff_of (check_full (dt_database t) dump) ;;!
  eff_of (check_database (dt_database t) dump) ;;!
  let! _ := exec_ok exec_ (dt_database t) ("mariadb" :: connection t) (maria_env t ++ [payload_of dump]) in
  eff_ret ().
(** @ hlb-backup/src/mariadump.rs:213-228 [MariaDumper::sql] *)
Definition maria_sql (t : Target) (statements : list string) : eff X BackupError () :=
  let! _ := exec_ok exec_ (dt_database t)
    ("mariadb" :: connection t ++ ["--execute"; join (";" +:+ String "010" "") statements]) (maria_env t) in
  eff_ret ().
End maria.

(** ** Archived *)

(** @ hlb-backup/src/pgdump.rs:287-294 [Dump] *)
Record Dump := { dp_app : string; dp_database : string; dp_filename : string; dp_bytes : string }.
(** @ hlb-backup/src/pgdump.rs:19-21 [DUMP_KIND] *)
Definition DUMP_KIND : string := "kind:sql-dump".
Definition stamp (at_ : Z) : string :=
  let c := civil at_ in
  show_pad 4 (cy c) +:+ show_pad 2 (cm c) +:+ show_pad 2 (cd c) +:+ "T" +:+
  show_pad 2 (chh c) +:+ show_pad 2 (cmm c) +:+ show_pad 2 (css c) +:+ "Z".
(** @ hlb-backup/src/pgdump.rs:296-305 [Dump::name_for] *)
Definition name_for (app database : string) (at_ : Z) : string := app +:+ "-" +:+ database +:+ "-" +:+ stamp at_ +:+ ".dump".
(** @ hlb-backup/src/mariadump.rs:357-361 [file_name] *)
Definition file_name (app database : string) (at_ : Z) : string := app +:+ "-" +:+ database +:+ "-" +:+ stamp at_ +:+ ".sql".

Section produce.
Context {X : Type} (exec_ : list string → list (string * string) → eff X BackupError RawOutput).
(** @ hlb-backup/src/pgdump.rs:307-321 [produce] *)
Definition produce_pg (app : string) (t : Target) (at_ : Z) : eff X BackupError Dump :=
  let! bytes := pg_dump_bytes exec_ t in
  eff_ret {| dp_app := app; dp_database := dt_database t; dp_filename := name_for app (dt_database t) at_; dp_bytes := bytes |}.
(** @ hlb-backup/src/mariadump.rs:338-355 [produce] *)
Definition produce_maria (app : string) (t : Target) (c : Consistency) (at_ : Z) : eff X BackupError Dump :=
  let! bytes := maria_dump_bytes exec_ t c in
  eff_ret {| dp_app := app; dp_database := dt_database t; dp_filename := file_name app (dt_database t) at_; dp_bytes := bytes |}.
End produce.

(** *** The volume a dump crosses *)

(** [m], then [after] whatever [m] gave, whose own failure is only logged. *)
Definition and_then {S E A} (m : eff S E A) (after : eff S E ()) : eff S E A := λ s,
  let '(r, s) := m s in (r, (after s).2).

Section archive.
Context {X : Type} `{!DockerCli X, !Runners X} (json_summary : string → option string).

(** @ hlb-backup/src/pgdump.rs:466-479 [docker] *)
Definition docker (arguments : list string) : eff X BackupError string := λ x,
  match docker_output arguments x with
  | (Err e, x) => (Err (UnexpectedBackup ("docker not found: " +:+ e)), x)
  | (Ok out, x) => (if (raw_status out =? 0)%Z then Ok (raw_stdout out) else Err (UnexpectedBackup (trim (raw_stderr out))), x)
  end.
(** What of a stream sent into a container can fail, each as it is said.
    @ hlb-backup/src/pgdump.rs:426-447 [archive_to_destination] *)
Definition fed (what subject : string) (c : Command) (bytes : string) : eff X BackupError () := λ x,
  match docker_cli c bytes x with
  | (Ok out, x) => (if (raw_status out =? 0)%Z then Ok ()
                    else Err (UnexpectedBackup (subject +:+ " not transferred: " +:+ trim (raw_stderr out))), x)
  | (Err e, x) => (Err (UnexpectedBackup match e with
                     | NotStarted e => "docker not found: " +:+ e
                     | StdinNotWritten e => "sending the " +:+ what +:+ ": " +:+ e
                     | StdinNotClosed e => "closing the stream: " +:+ e
                     | NotWaited e => "transferring the " +:+ what +:+ ": " +:+ e
                     end), x)
  end.
(** @ hlb-backup/src/pgdump.rs:409-421 [archive_to_destination] *)
Definition dump_in (volume : string) (d : Dump) : Command :=
  {| args := ["run"; "--rm"; "-i"; "--entrypoint"; "sh"; "-v"; volume +:+ ":/staging"; RESTIC; "-c";
              "cat > /staging/" +:+ dp_filename d]; envs := [] |}.
(** @ hlb-backup/src/pgdump.rs:455-462 [archive_to_destination] *)
Definition dump_tags (d : Dump) (kind : string) : list string := ["app:" +:+ dp_app d; "db:" +:+ dp_database d; kind].
Definition dump_path (d : Dump) : string := "/staging/" +:+ dp_filename d.
(** @ hlb-backup/src/pgdump.rs:391-464 [archive_to_destination] *)
Definition archive_to_destination (volume : string) (dest : Destination) (credentials net : option string) (password : string)
    (d : Dump) (kind : string) : eff X BackupError string :=
  let! vars := eff_of (map_err UnexpectedBackup (env dest credentials)) in
  fed "dump" "dump" (dump_in volume d) (dp_bytes d) ;;!
  let '(r, path) := runner RESTIC dest net in
  let repo := new_repository (RunHere (mount r volume "/staging")) path password vars in
  init RESTIC repo ;;! backup RESTIC json_summary repo (dump_path d) (dump_tags d kind).
(** The volume goes in every case. @ hlb-backup/src/pgdump.rs:369-389 [archive_as] *)
Definition archive_as (dest : Destination) (credentials net : option string) (password : string) (d : Dump) (kind : string) :
    eff X BackupError string := λ x,
  let '(token, x) := public_token x in
  let volume := "hlb-dump-" +:+ token in
  (docker ["volume"; "create"; volume] ;;!
   and_then (archive_to_destination volume dest credentials net password d kind)
            (docker ["volume"; "rm"; "-f"; volume] ;;! eff_ret ())) x.
(** @ hlb-backup/src/pgdump.rs:348-367 [archive_to] *)
Definition archive_dump (dest : Destination) (credentials net : option string) (password : string) (d : Dump) :
    eff X BackupError string := archive_as dest credentials net password d DUMP_KIND.
(** @ hlb-backup/src/pgdump.rs:338-346 [archive] *)
Definition archive (location password : string) (d : Dump) : eff X BackupError string :=
  archive_dump {| de_name := "default"; de_location := location; de_classes := [Destination.Critical]; de_credentials_secret := None |}
    None None password d.

(** @ hlb-backup/src/sqlite.rs:186-198 [Snapshotted] *)
Record Snapshotted := { sd_relative : string; sd_staged : string; sd_uid : N; sd_gid : N; sd_mode : N }.
(** [{:o}] *)
Fixpoint octal_go (fuel : nat) (n : N) (acc : string) : string :=
  match fuel with
  | O => acc
  | S fuel => let acc := String (digit_char (n mod 8)) acc in if (n <? 8)%N then acc else octal_go fuel (n / 8) acc
  end.
Definition show_octal (n : N) : string := octal_go (S (N.size_nat n)) n "".
(** @ hlb-backup/src/sqlite.rs:330 [archive_to] *)
Definition put_script : string :=
  "set -e; f=" +:+ quoted_str "$1" +:+ "; mkdir -p " +:+ quoted_str ("$(dirname " +:+ quoted_str "$f" +:+ ")") +:+
  "; cat > " +:+ quoted_str "$f" +:+ "; : > " +:+ quoted_str "$f-wal" +:+ "; : > " +:+ quoted_str "$f-shm" +:+
  "; chown " +:+ quoted_str "$2:$3" +:+ " " +:+ quoted_str "$f" +:+ " " +:+ quoted_str "$f-wal" +:+ " " +:+ quoted_str "$f-shm" +:+
  "; chmod " +:+ quoted_str "$4" +:+ " " +:+ quoted_str "$f" +:+ " " +:+ quoted_str "$f-wal" +:+ " " +:+ quoted_str "$f-shm".
(** @ hlb-backup/src/sqlite.rs:300-305 [archive_to] *)
Definition inside_volume (rel : string) : bool :=
  negb (str_is_empty rel) && negb (starts_with "/" rel) && negb (any_of (λ c, c ==? "..") (split_char "/" rel)).
Definition file_in (volume_path rel : string) : string := trim_end_matches "/" volume_path +:+ "/" +:+ rel.
(** @ hlb-backup/src/sqlite.rs:331-337 [archive_to] *)
Definition sqlite_in (transit volume_path : string) (s : Snapshotted) : Command :=
  {| args := ["run"; "--rm"; "-i"; "--entrypoint"; "sh"; "-v"; transit +:+ ":" +:+ volume_path; RESTIC; "-c"; put_script; "sh";
              file_in volume_path (sd_relative s); show_N (sd_uid s); show_N (sd_gid s); show_octal (sd_mode s)]; envs := [] |}.
(** @ hlb-backup/src/sqlite.rs:323-370 [archive_to] *)
Definition archive_sqlite_at (transit : string) (dest : Destination) (credentials net : option string) (password app volume_path : string)
    (s : Snapshotted) (tags : list string) : eff X BackupError string :=
  let file := file_in volume_path (sd_relative s) in
  let! bytes := (λ x, match read_staged (sd_staged s) x with
                      | (r, x) => (map_err (λ e, UnexpectedBackup ("reading the snapshot: " +:+ e)) r, x)
                      end) in
  fed "snapshot" "snapshot" (sqlite_in transit volume_path s) bytes ;;!
  let '(r, location) := runner RESTIC dest net in
  let! vars := eff_of (map_err UnexpectedBackup (env dest credentials)) in
  let repo := new_repository (RunHere (mount r transit volume_path)) location password vars in
  init RESTIC repo ;;!
  backup_paths RESTIC json_summary repo [file; file +:+ "-wal"; file +:+ "-shm"]
    (["app:" +:+ app; "db:" +:+ sd_relative s; SNAPSHOT_KIND] ++ tags).
(** @ hlb-backup/src/sqlite.rs:277-383 [archive_to] *)
Definition archive_sqlite (dest : Destination) (credentials net : option string) (password app volume_path : string)
    (s : Snapshotted) (tags : list string) : eff X BackupError string :=
  if negb (inside_volume (sd_relative s)) then eff_fail (UnexpectedBackup (sd_relative s +:+ ": not a path inside the volume"))
  else λ x,
  let '(token, x) := public_token x in
  let transit := "hlb-sqlite-" +:+ token in
  (docker ["volume"; "create"; transit] ;;!
   and_then (archive_sqlite_at transit dest credentials net password app volume_path s tags)
            (docker ["volume"; "rm"; "-f"; transit] ;;! eff_ret ())) x.
End archive.

(** ** Theorems *)

(** *** The words of a shell *)

(** What a POSIX shell makes of a line of words, blanks, single quotes and backslashes: the words;
    anything else unquoted, or a quote left open, is not such a line. *)
Fixpoint words_go (s : string) (quoted : bool) (w : option string) : option (list string) :=
  match s with
  | "" => if quoted then None else Some (match w with Some w => [w] | None => [] end)
  | String c s =>
      if quoted then
        if decide (c = "'"%char) then words_go s false w else words_go s true (Some (default "" w +:+ String c ""))
      else if decide (c = "'"%char) then words_go s true (Some (default "" w))
      else if decide (c = "\"%char) then
        match s with String d s => words_go s false (Some (default "" w +:+ String d "")) | "" => None end
      else if decide (c = " "%char) then
        match w with Some w => cons w <$> words_go s false None | None => words_go s false None end
      else if plain_char c then words_go s false (Some (default "" w +:+ String c "")) else None
  end.
Definition sh_words (s : string) : option (list string) := words_go s false None.

Lemma words_plain a rest w :
  str_all plain_char a = true → a ≠ "" → words_go (a +:+ rest) false w = words_go rest false (Some (default "" w +:+ a)).
Proof.
  revert w. induction a as [|c a IH]; intros w Ha Hne; [done|]. cbn [str_all] in Ha.
  apply andb_prop in Ha as [Hc Ha]. rewrite append_cons. cbn [words_go].
  assert (c ≠ "'"%char ∧ c ≠ "\"%char ∧ c ≠ " "%char) as (H1 & H2 & H3) by (split_and!; intros ->; vm_compute in Hc; discriminate).
  rewrite !decide_False by done. rewrite Hc. destruct (decide (a = "")) as [->|Ha'].
  - done.
  - rewrite IH by done. cbn [default from_option id]. by rewrite append_assoc.
Qed.

Definition escaped : string := "'\''".


Lemma replace_quote_cons c s :
  replace "'" escaped (String c s) = (if decide (c = "'"%char) then escaped else String c "") +:+ replace "'" escaped s.
Proof.
  unfold replace. cbn [replace_go]. unfold starts_with. cbn [strip_prefix].
  destruct (decide ("'"%char = c)) as [<-|Hc]; [by rewrite decide_True|]. by rewrite decide_False by congruence.
Qed.

Lemma words_quoted a rest w :
  words_go (replace "'" escaped a +:+ "'" +:+ rest) true (Some w) = words_go rest false (Some (w +:+ a)).
Proof.
  revert w. induction a as [|c a IH]; intros w; [by rewrite append_nil_r|].
  rewrite replace_quote_cons, append_assoc. destruct (decide (c = "'"%char)) as [->|Hc].
  - unfold escaped at 1. rewrite !append_cons. cbn [words_go].
    repeat (first [rewrite decide_True by done|rewrite decide_False by done]; cbn [words_go]).
    cbn [default from_option id]. change ("" +:+ ?r) with r. rewrite IH. by rewrite append_assoc.
  - rewrite append_cons. cbn [words_go]. rewrite decide_False by done. change ("" +:+ ?r) with r.
    rewrite IH. cbn [default from_option id]. by rewrite append_assoc.
Qed.

Lemma words_of_quoted a rest :
  a ≠ "" → words_go (shell_quote a +:+ rest) false None = words_go rest false (Some a).
Proof.
  intros Ha. unfold shell_quote. destruct (str_all plain_char a) eqn:Hp.
  - by rewrite words_plain.
  - fold escaped. rewrite !append_assoc. change ("'" +:+ ?r) with (String "'" r) at 1. cbn [words_go].
    rewrite decide_True by done. apply words_quoted.
Qed.

(** A command written for [sh -c] is read back as the arguments it was written from, one word
    each, whatever bytes they hold: nothing in an argument ends it, opens another or runs a
    command. No argument may be empty: the shell would read it as none ([empty_argument_lost]). *)
Theorem quoted_words l :
  Forall (λ a, a ≠ "") l → sh_words (join " " (shell_quote <$> l)) = Some l.
Proof.
  unfold sh_words. induction l as [|a l IH]; [done|]. intros [Ha Hl]%Forall_cons. rewrite fmap_cons.
  destruct l as [|b l].
  - cbn [join fmap list_fmap]. rewrite <- (append_nil_r (shell_quote a)), words_of_quoted by done. done.
  - rewrite fmap_cons in IH |- *. change (join " " (?x :: ?y :: ?t)) with (x +:+ " " +:+ join " " (y :: t)).
    rewrite words_of_quoted by done. change (" " +:+ ?r) with (String " " r). cbn [words_go].
    rewrite decide_False by done. rewrite decide_False by done. rewrite decide_True by done. by rewrite IH.
Qed.

Lemma quoted_words_witness :
  sh_words (join " " (shell_quote <$> ["psql"; "--command"; "DROP DATABASE d; -- it's $HOME"])) =
  Some ["psql"; "--command"; "DROP DATABASE d; -- it's $HOME"].
Proof. apply quoted_words. repeat constructor; done. Defined.

(** An empty argument is written as nothing: the shell reads one word less. *)
Lemma empty_argument_lost :
  sh_words (join " " (shell_quote <$> ["pg_restore"; "--role"; ""; "--dbname"; "d"])) = Some ["pg_restore"; "--role"; "--dbname"; "d"].
Proof. vm_compute. reflexivity. Qed.

(** *** A dump found again *)

Lemma ends_with_append r p : ends_with p (r +:+ p) = true.
Proof. unfold ends_with. rewrite strip_suffix_append. by apply bool_decide_eq_true_2. Qed.

Lemma ends_with_other r p q :
  strip_prefix (String.rev p) (String.rev q +:+ String.rev r) = None → ends_with p (r +:+ q) = false.
Proof.
  intros H. unfold ends_with, strip_suffix. rewrite rev_append, H. apply bool_decide_eq_false_2. by intros [? ?].
Qed.

Lemma db_tag_of d kind database : starts_with "kind:" kind = true →
  "db:" +:+ database ∈ dump_tags d kind ↔ database = dp_database d.
Proof.
  intros Hk. unfold dump_tags. rewrite !elem_of_cons, elem_of_nil. split; [|by intros ->; auto].
  intros [H|[H|[H|[]]]]; [done| |].
  - by apply append_inj_l in H.
  - exfalso. rewrite <- H in Hk. by vm_compute in Hk.
Qed.

(** The files the dumps are archived as. *)
Definition dump_name (e : DbEngine) (app database : string) (at_ : Z) : string :=
  match e with Postgres => name_for app database at_ | Mariadb => file_name app database at_ end.

(** A dump is found again as what it is: a snapshot with the tags and the path a dump is archived
    with is, for the restore that looks for one, the dump of that database by that engine, and of
    no other database and no other engine. *)
Theorem archived_dump_found e app t at_ bytes s engine database :
  let d := {| dp_app := app; dp_database := dt_database t; dp_filename := dump_name e app (dt_database t) at_; dp_bytes := bytes |} in
  sn_tags s = dump_tags d DUMP_KIND → sn_paths s = [dump_path d] →
  is_dump_of s engine database = true ↔ engine = e ∧ database = dt_database t.
Proof.
  intros d Ht Hp. unfold is_dump_of. rewrite Ht, Hp.
  assert (Hs : starts_with "/staging/" (dump_path d) = true).
  { unfold starts_with, dump_path. rewrite strip_prefix_append. by apply bool_decide_eq_true_2. }
  rewrite Hs. cbn [andb]. rewrite andb_true_iff, bool_decide_eq_true, db_tag_of by done. change (dp_database d) with (dt_database t).
  assert (He : ends_with (match engine with Postgres => ".dump" | Mariadb => ".sql" end) (dump_path d) = true ↔ engine = e).
  { unfold dump_path, d. cbn [dp_filename]. destruct e, engine; unfold dump_name, name_for, file_name; rewrite <- !append_assoc.
    - by rewrite ends_with_append.
    - by rewrite ends_with_other.
    - by rewrite ends_with_other.
    - by rewrite ends_with_append. }
  rewrite He. tauto.
Qed.

Lemma archived_dump_found_witness :
  let s := {| sn_id := "1"; sn_time := ""; sn_paths := ["/staging/wiki-wiki-20260731T000000Z.sql"];
              sn_tags := ["app:wiki"; "db:wiki"; "kind:sql-dump"]; sn_hostname := "homelabus" |} in
  is_dump_of s Mariadb "wiki" = true ∧ is_dump_of s Postgres "wiki" = false ∧ is_dump_of s Mariadb "wi" = false.
Proof.
  intros s.
  pose proof (λ engine database, archived_dump_found Mariadb "wiki"
    {| dt_host := "mariadb"; dt_port := 3306; dt_database := "wiki"; dt_user := "root"; dt_password := "p" |}
    1785456000 "bytes" s engine database ltac:(by vm_compute) ltac:(by vm_compute)) as H.
  cbn [dt_database] in H. split_and!.
  - by apply H.
  - apply not_true_iff_false. rewrite H. by intros [? _].
  - apply not_true_iff_false. rewrite H. by intros [_ ?].
Defined.

(** A dump cut short passes when the guard line is in its data, near where it was cut. *)
Lemma guard_in_data_passes :
  check_full "wiki" ("INSERT INTO page VALUES ('how we know: " +:+ GUARD_LINE +:+ "') ; INSERT INTO pa") = Ok ().
Proof. vm_compute. reflexivity. Qed.

(** *** What MariaDB is given to restore *)

(** What a dump restored here names: one database at least, and this one each time. *)
Lemma check_database_Ok database dump u :
  check_database database dump = Ok u ↔
  use_lines dump ≠ [] ∧ ∀ l, l ∈ use_lines dump → trim_ascii_end l = use_of database.
Proof.
  unfold check_database. destruct (use_lines dump) as [|l ls]; [by split; [|intros [? _]]|].
  destruct (find_first _ (l :: ls)) as [other|] eqn:E.
  - split; [done|]. intros [_ H]. apply find_first_Some in E as (l1 & l2 & Hl & Hne & _).
    rewrite (H other) in Hne; [by rewrite bool_decide_eq_true_2 in Hne|]. rewrite Hl. set_solver.
  - destruct u. split; [|done]. intros _. split; [done|]. intros k Hk. apply find_first_None in E.
    rewrite Forall_forall in E. specialize (E k Hk). cbn in E. by apply negb_false_iff, bool_decide_eq_true in E.
Qed.

(** A dump that ended, and every database it names is this one. *)
Definition whole_and_own (database dump : string) : Prop :=
  check_full database dump = Ok () ∧ use_lines dump ≠ [] ∧ ∀ l, l ∈ use_lines dump → trim_ascii_end l = use_of database.

(** MariaDB is given a dump only when it is whole and its own: the tool runs, with the dump, when
    the guard line closes it and every database it names is the target's; otherwise the restore is
    refused and nothing runs. *)
Theorem maria_restore_guarded {X} exec_ t dump (x : X) :
  (whole_and_own (dt_database t) dump ∧
   (maria_restore exec_ t dump x).2 = (exec_ ("mariadb" :: connection t) (maria_env t ++ [payload_of dump]) x).2) ∨
  (¬ whole_and_own (dt_database t) dump ∧ ∃ e, maria_restore exec_ t dump x = (Err e, x)).
Proof.
  unfold maria_restore, whole_and_own. unfold eff_bind at 1 3, eff_of at 1 3.
  destruct (check_full (dt_database t) dump) as [[]|e] eqn:Ef; cycle 1.
  { right. split; [by intros [? _]|]. by exists e. }
  unfold eff_bind at 1 3, eff_of at 1 2. destruct (check_database (dt_database t) dump) as [u|e] eqn:Ed; cycle 1.
  - right. split; [|by exists e]. intros [_ H]. by rewrite (proj2 (check_database_Ok _ _ ()) H) in Ed.
  - left. split; [split; [done|]; by eapply check_database_Ok|]. unfold exec_ok, eff_bind.
    destruct (exec_ _ _ x) as [[out|e] y]; [|done]. by destruct (_ =? _)%Z.
Qed.
