(* ===== verification/EngineCopy.v ===== *)
(** * A volume copied by its engine's tool

    [crates/hlb-backup-run/src/engine_copy.rs]: a database server's directory copied by the server's
    own tool into a volume beside it, which a pass backs up in its place, where it lives, and empties
    after. What a pass works on is here too: the tables, the holds and the world outside, an
    interface. *)

From S2P Require Import Prelude RustStr Binding Capability Manifest Journal Schedule Swarm Calendar Docker Reconcile Pitr Archive Destination Restic Restore Dumps.

#[local] Open Scope hlb_scope.

(** ** What a pass works on *)

(** What a pass did, one item at a time.
    @ hlb-backup-run/src/lib.rs:770-788 [Event] *)
Inductive Event :=
| DoneItem (what destination snapshot : string)
| FailedItem (what : string) (destination : option string) (error : string)
| NotCovered (what why : string).
#[global] Instance Event_eq_dec : EqDecision Event.
Proof. solve_decision. Defined.
(** @ hlb-backup-run/src/lib.rs:892-897 [Summary] *)
Record Summary := { sm_done : nat; sm_failed : nat }.

(** The tables, the world outside, what was reported and counted. *)
Record World (X : Type) := {
  w_store : Store; w_archive : Archive; w_holds : Holds; w_x : X; w_events : list Event; w_sum : Summary }.
Arguments w_store {X}.
Arguments w_archive {X}.
Arguments w_holds {X}.
Arguments w_x {X}.
Arguments w_events {X}.
Arguments w_sum {X}.

Definition with_store {X} (s : Store) (w : World X) : World X :=
  {| w_store := s; w_archive := w_archive w; w_holds := w_holds w; w_x := w_x w; w_events := w_events w; w_sum := w_sum w |}.
Definition with_archive {X} (a : Archive) (w : World X) : World X :=
  {| w_store := w_store w; w_archive := a; w_holds := w_holds w; w_x := w_x w; w_events := w_events w; w_sum := w_sum w |}.
Definition with_held {X} (hx : Holds * X) (w : World X) : World X :=
  {| w_store := w_store w; w_archive := w_archive w; w_holds := hx.1; w_x := hx.2; w_events := w_events w; w_sum := w_sum w |}.
Definition with_x {X} (x : X) (w : World X) : World X := with_held (w_holds w, x) w.

(** Code whose error ends the pass; code whose error is an outcome, as text. *)
Abbreviation P X := (eff (World X) Journal.Error).
Abbreviation T X := (eff (World X) string).

(** @ hlb-state/src/lib.rs:39-91 [Error] *)
Definition state_display (e : Journal.Error) : string :=
  match e with
  | Db why => "state database: " +:+ why
  | UnknownApp name => "unknown app " +:+ quoted_str name
  | VaultChanged names => "the vault changed while it was being re-encrypted (" +:+ names +:+
      ") — nothing was rewritten; stop whatever writes secrets (the controller) and run it again"
  end.

Definition on_store {X A} (m : db A) : P X A := λ w, let '(r, s) := m (w_store w) in (r, with_store s w).
(** The outcome, whatever it is. *)
Definition outcome_of {X A} (m : T X A) : P X (result string A) := λ w, let '(r, w) := m w in (Ok r, w).
(** [map_err(|e| e.to_string())?] of what reads the tables. *)
Definition told {X A} (m : P X A) : T X A := λ w, let '(r, w) := m w in (map_err state_display r, w).
Definition on_x {X E A} (f : E → string) (m : eff X E A) : T X A := λ w, let '(r, x) := m (w_x w) in (map_err f r, with_x x w).
Definition on_held {X A} (m : eff (Holds * X) string A) : T X A := λ w,
  let '(r, hx) := m (w_holds w, w_x w) in (r, with_held hx w).

(** ** The copy *)

(** @ hlb-backup-run/src/engine_copy.rs:17-23 [STAGE] *)
Definition STAGE : string := "/stage".
Definition COPY_TIMEOUT_S : N := 3600.
(** @ hlb-backup-run/src/engine_copy.rs:25-30 [Admins] *)
Record Admins := { ad_postgres : option string; ad_mariadb : option string }.
(** @ hlb-backup-run/src/engine_copy.rs:32-35 [staging] *)
Definition staging (volume : string) : string := "hlb-copy-" +:+ volume.
(** @ hlb-backup-run/src/engine_copy.rs:37-44 [Copy] *)
Record Copy := { cy_volume : string; cy_path : string; cy_engine : DbEngine }.
(** @ hlb-backup-run/src/engine_copy.rs:53-64 [declared] *)
Definition copies_of (app : string) (m : Manifest) : list Copy :=
  omap (λ c, match c with
             | Storage name path _ _ _ copy _ =>
                 (λ e, {| cy_volume := app +:+ "-" +:+ name; cy_path := path; cy_engine := e |}) <$> copy_engine copy
             | _ => None
             end) (sp_requires (mf_spec m)).
(** @ hlb-backup-run/src/engine_copy.rs:46-66 [declared] *)
Definition declared {X} (app : string) : P X (list Copy) :=
  let! m := on_store (app_manifest app) in eff_ret (copies_of app m).

(** @ hlb-backup-run/src/engine_copy.rs:182-184 [clear_script] *)
Definition clear_script : string := "find " +:+ STAGE +:+ " -mindepth 1 -delete".
(** @ hlb-backup-run/src/engine_copy.rs:186-203 [pg_script] *)
Definition pg_script : string :=
  "set -eu; find " +:+ STAGE +:+ " -mindepth 1 -delete; pg_basebackup --pgdata=" +:+ STAGE +:+
  " --format=plain --wal-method=stream --checkpoint=fast --no-password; chown -R postgres:postgres " +:+ STAGE +:+
  "; chmod 700 " +:+ STAGE.
(** @ hlb-backup-run/src/engine_copy.rs:215-220 [maria_script] *)
Definition maria_run (arguments : string) : string :=
  "mariadb-backup " +:+ arguments +:+ " >/tmp/hlb-copy.log 2>&1 || { tail -n 20 /tmp/hlb-copy.log >&2; exit 1; }; ".
(** @ hlb-backup-run/src/engine_copy.rs:205-232 [maria_script] *)
Definition maria_script (host datadir : string) : string :=
  "set -eu; find " +:+ STAGE +:+ " -mindepth 1 -delete; " +:+
  maria_run ("--backup --target-dir=" +:+ STAGE +:+ " --datadir=" +:+ datadir +:+ " --host=" +:+ host +:+
             " --port=3306 --user=" +:+ quoted_str "$MARIADB_USER") +:+
  maria_run ("--prepare --target-dir=" +:+ STAGE) +:+
  "for f in .my-healthcheck.cnf mariadb_upgrade_info; do if [ -f " +:+ datadir +:+ "/$f ]; then cp -p " +:+ datadir +:+
  "/$f " +:+ STAGE +:+ "/; fi; done; chown -R mysql:mysql " +:+ STAGE.

(** What reads the variables back from their files.
    @ hlb-backup-run/src/engine_copy.rs:310-314 [job] *)
Definition read_back (vars : list (string * string)) : string :=
  if vars ==? [] then ""
  else "for f in " +:+ ENV_DIR +:+ "/*; do export " +:+ quoted_str ("${f##*/}=$(cat " +:+ quoted_str "$f" +:+ ")") +:+ "; done; ".
(** @ hlb-backup-run/src/engine_copy.rs:286-324 [job] *)
Definition copy_job (id net image to : string) (live : option (string * string)) (script : string)
    (vars : list (string * string)) : ServiceSpec :=
  let j := mount_volume to STAGE (constraint ("node.id==" +:+ id) (job (new_spec to image))) in
  let j := if live is Some (volume, path) then mount_read_only volume path j else j in
  let j := if negb (net ==? "none") then network net j else j in
  let j := foldl (λ j '(k, v), file (ENV_DIR +:+ "/" +:+ k) v j) j vars in
  let j := with_command ["sh"; "-c"; read_back vars +:+ script] j in
  with_hardening (with_caps ["CHOWN"; "DAC_OVERRIDE"; "FOWNER"] (ss_hardening j)) j.
(** @ hlb-backup-run/src/engine_copy.rs:249-257 [run_at] *)
Definition copy_command (net image to : string) (live : option (string * string)) (script : string)
    (vars : list (string * string)) : Command :=
  let cmd := {| args := ["run"; "--rm"; "--network"; net; "--entrypoint"; "sh"]; envs := [] |} in
  let cmd := pass_by_name cmd vars in
  let cmd := arg cmd ["-v"; to +:+ ":" +:+ STAGE] in
  let cmd := if live is Some (volume, path) then arg cmd ["-v"; volume +:+ ":" +:+ path +:+ ":ro"] else cmd in
  arg cmd [image; "-c"; script].

(** A process given a time: not started, or not ended in it. *)
Inductive TimedErr := StillRunning | NotRun (why : string).
Class CopyDocker (X : Type) := { docker_timed : Command → N → X → result TimedErr RawOutput * X }.

Section copy.
Context {X : Type} `{!Runners X, !CopyDocker X} (orchestrated : bool).

(** @ hlb-backup-run/src/engine_copy.rs:234-284 [run_at] *)
Definition copy_run (place : Place) (net image to : string) (live : option (string * string)) (script : string)
    (vars : list (string * string)) : eff X string () := λ x,
  match place with
  | Here =>
      match docker_timed (copy_command net image to live script vars) COPY_TIMEOUT_S x with
      | (Ok out, x) => (if (raw_status out =? 0)%Z then Ok () else Err (trim (raw_stderr out)), x)
      | (Err StillRunning, x) => (Err ("still running after " +:+ show_N COPY_TIMEOUT_S +:+ " s"), x)
      | (Err (NotRun e), x) => (Err ("docker could not be run: " +:+ e), x)
      end
  | OnNode id hostname =>
      if negb orchestrated then (Err (to +:+ " is on " +:+ hostname +:+ ": no orchestrator"), x)
      else match run_placed_job (copy_job id net image to live script vars) COPY_TIMEOUT_S x with
           | (Ok out, x) => (if jo_succeeded out then Ok () else Err (join (String "010" "") (jo_output out)), x)
           | (Err e, x) => (Err (dk_display e), x)
           end
  | UnknownPlace why => (Err why, x)
  end.
(** @ hlb-backup-run/src/engine_copy.rs:173-180 [clear] *)
Definition clear (place : Place) (image to : string) : eff X string () :=
  copy_run place "none" image to None clear_script [].

(** Where a volume is: the first place that has it. *)
Definition place_with (volume : string) (places : Places) : option Place :=
  fst <$> find_first (λ '(_, vs), bool_decide (volume ∈ (vs : list string))) places.
(** The script, the variables and the live volume of one copy.
    @ hlb-backup-run/src/engine_copy.rs:90-131 [take] *)
Definition copy_means (admins : Admins) (app : string) (c : Copy) :
    result string (string * list (string * string) * option (string * string)) :=
  match cy_engine c with
  | Postgres =>
      match ad_postgres admins ≫= parse_pg_url with
      | None => Err (cy_volume c +:+ " is copied by pg_basebackup, and no PostgreSQL administrator is known (--postgres-admin): it is not copied live instead")
      | Some creds =>
          Ok (pg_script, [("PGHOST", app); ("PGPORT", "5432"); ("PGUSER", cr_user creds); ("PGPASSWORD", cr_password creds)], None)
      end
  | Mariadb =>
      match ad_mariadb admins ≫= parse_maria_url with
      | None => Err (cy_volume c +:+ " is copied by mariadb-backup, and no MariaDB administrator is known (--mariadb-admin): it is not copied live instead")
      | Some creds =>
          Ok (maria_script app (cy_path c), [("MARIADB_USER", cr_user creds); ("MYSQL_PWD", cr_password creds)],
              Some (cy_volume c, cy_path c))
      end
  end.
(** @ hlb-backup-run/src/engine_copy.rs:81-138 [take] *)
Fixpoint take_each (net image : string) (admins : Admins) (app : string) (places : Places) (copies : list Copy)
    (sources : gmap string string) : eff X string (gmap string string) :=
  match copies with
  | [] => eff_ret sources
  | c :: copies =>
      match place_with (cy_volume c) places with
      | None => eff_fail ("where " +:+ cy_volume c +:+ " is cannot be told")
      | Some place =>
          let! (script, vars, live) := eff_of (copy_means admins app c) in
          let to := staging (cy_volume c) in
          (λ x, match copy_run place net image to live script vars x with
                | (Ok _, x) => take_each net image admins app places copies (<[cy_volume c := to]> sources) x
                | (Err e, x) => (Err (cy_volume c +:+ " not copied: " +:+ e), (clear place image to x).2)
                end)
      end
  end.
(** @ hlb-backup-run/src/engine_copy.rs:68-140 [take] *)
Definition take_copies (net : string) (admins : Admins) (app : string) (copies : list Copy) (places : Places) :
    P X (result string (gmap string string)) :=
  let! m := on_store (app_manifest app) in
  outcome_of (on_x id (take_each net (image_reference (sp_image (mf_spec m))) admins app places copies ∅)).

(** @ hlb-backup-run/src/engine_copy.rs:158-165 [clear_all] *)
Fixpoint clear_each (image : string) (places : Places) (sources : list (string * string)) (x : X) : list string * X :=
  match sources with
  | [] => ([], x)
  | (volume, to) :: sources =>
      match place_with volume places with
      | None => clear_each image places sources x
      | Some place =>
          let '(r, x) := clear place image to x in
          let '(failed, x) := clear_each image places sources x in
          (match r with Ok _ => failed | Err e => (to +:+ ": " +:+ e) :: failed end, x)
      end
  end.
(** @ hlb-backup-run/src/engine_copy.rs:142-171 [clear_all] *)
Definition clear_all (app : string) (sources : gmap string string) (places : Places) : T X () :=
  let! m := told (on_store (app_manifest app)) in
  on_x id (λ x, let '(failed, x) := clear_each (image_reference (sp_image (mf_spec m))) places (btree_entries sources) x in
                (match failed with [] => Ok () | _ => Err ("staging not emptied — " +:+ join "; " failed) end, x)).
End copy.
