(* ===== verification/BackupPass.v ===== *)
(** * One backup pass

    [crates/hlb-backup-run/src/lib.rs] with the backup half of [bucket.rs]: every volume, bucket, database
    and SQLite file of the installation, and its own state, to every destination that should have
    it; and the copy an update takes first. What is outside - the cluster's answers, files, the
    vault's ciphers, the streams - is an interface. *)

From S2P Require Import Prelude RustStr Binding Capability Manifest Journal Schedule Swarm Calendar Docker Reconcile Pitr Archive Destination Restic Restore Dumps EngineCopy.

#[local] Open Scope hlb_scope.

(** A search that failed, or whose thread stopped. *)
Inductive SearchErr := Unsearched (why : string) | SearchStopped (why : string).
(** @ hlb-backup-run/src/bucket.rs:38-42 [S3Key] *)
Record S3Key := { k3_id : string; k3_secret : string }.

(** Beside what is outside, the state: whether it refuses what is read of it while the services
    of an app are stopped. *)
Class PassOutside (X : Type) := {
  px_refuses : string → X → option Journal.Error;
  px_local_node : X → result string (option string) * X;
  px_tasks : X → result string (list TaskInfo) * X;
  px_nodes : X → result string (list NodeInfo) * X;
  px_path_exists : string → X → bool * X;
  px_has_sqlite : string → X → result SearchErr bool * X;
  px_sqlite_snapshots : string → X → result BackupError (list Snapshotted) * X;
  px_staging : X → result string () * X;
  px_vacuum_state : X → result BackupError () * X;
  px_generate : X → string * X;
  px_encrypt : string → X → result string (list N) * X;
  px_engines : string → string → X → option (list string) * X;
  px_os_now : X → Z * X;
  px_connect : string → string → S3Key → X → result string () * X;
  px_stream : string → string → S3Key → PlacedRunner → list string → list (string * string) → X →
              result string N * result BackupError Output * X }.

(** ** Destinations *)

(** @ hlb-backup-run/src/lib.rs:106-121 [destinations_for] *)
Definition destinations_for (a : Archive) (app : string) (c : Class_) : list Destination :=
  let all := load_destinations a in
  let explicit := route app (class_name c) a in
  if explicit ==? [] then keep (λ d, accepts d c) all
  else keep (λ d, bool_decide (de_name d ∈ explicit)) all.
(** @ hlb-backup-run/src/lib.rs:137-146 [effective_destinations] *)
Definition fallback_destination (location : string) : Destination :=
  {| de_name := "default"; de_location := location; de_classes := [Destination.Critical; Bulky]; de_credentials_secret := None |}.
(** @ hlb-backup-run/src/lib.rs:123-147 [effective_destinations] *)
Definition effective_destinations (a : Archive) (app : string) (c : Class_) (fallback : option string) : list Destination :=
  match destinations_for a app c with
  | [] => match fallback with Some l => [fallback_destination l] | None => [] end
  | d => d
  end.
(** @ hlb-backup-run/src/lib.rs:816-818 [STATE_APP] *)
Definition STATE_APP : string := "hlb".
(** Each destination once, by its name. @ hlb-backup-run/src/lib.rs:169-173 [destinations_of_app] *)
Definition push_new (out : list Destination) (d : Destination) : list Destination :=
  if any_of (λ o, de_name o ==? de_name d) out then out else out ++ [d].
(** @ hlb-backup-run/src/lib.rs:149-176 [destinations_of_app] *)
Definition destinations_of_app {X} (app : string) (fallback : option string) : P X (list Destination) :=
  let! kinds := if app ==? STATE_APP then eff_ret [STATE] else on_store (backup_kinds app) in
  λ w, (Ok (foldl (λ out c,
               if any_of (λ k, default Destination.Critical (class_of k) ==? c) kinds
               then foldl push_new out (effective_destinations (w_archive w) app c fallback) else out)
             [] [Destination.Critical; Bulky]), w).
(** @ hlb-backup-run/src/lib.rs:820-827 [state_backup_age] *)
Definition state_backup_age (now : Z) (a : Archive) : option Z := seconds_since_last_success_of now STATE_APP [STATE] None a.

Section pass.
Context {X : Type} `{!Services X, !Runners X, !DockerCli X, !CopyDocker X, !PassOutside X}.
(** The cipher of the vault, and the reading of restic's JSON. *)
Context (decrypt : list N → result string string) (json_summary : string → option string).

Definition archive_put (f : Archive → Archive) : P X () := eff_put (λ w, with_archive (f (w_archive w)) w).
Definition recorded_at (f : Z → Archive → Archive) : P X () :=
  eff_put (λ w, with_archive (f (sv_now (w_x w)) (w_archive w)) w).
(** A question to what is outside, that always answers. *)
Definition ask {A} (f : X → A * X) : P X A := λ w, let '(a, x) := f (w_x w) in (Ok a, with_x x w).
Definition askt {A} (f : X → A * X) : T X A := λ w, let '(a, x) := f (w_x w) in (Ok a, with_x x w).

(** ** The vault *)

(** @ hlb-backup-run/src/lib.rs:62-63 [RESTIC_PASSWORD_SECRET] *)
Definition RESTIC_PASSWORD_SECRET : string := "restic-repo-password".
(** The one that won is read again. @ hlb-backup-run/src/lib.rs:65-87 [restic_password] *)
Definition restic_password : T X string :=
  let! ct := told (on_store (secret RESTIC_PASSWORD_SECRET)) in
  match ct with
  | Some ct => eff_of (decrypt ct)
  | None =>
      let! p := askt px_generate in
      let! ct := on_x id (px_encrypt p) in
      let! _ := told (on_store (store_secret_if_absent RESTIC_PASSWORD_SECRET ct "backup repository encryption")) in
      let! ct := told (on_store (secret RESTIC_PASSWORD_SECRET)) in
      match ct with Some ct => eff_of (decrypt ct) | None => eff_ret p end
  end.
(** @ hlb-backup-run/src/lib.rs:178-191 [credentials] *)
Definition credentials (d : Destination) : T X (option string) :=
  match de_credentials_secret d with
  | None => eff_ret None
  | Some name =>
      let! ct := told (on_store (secret name)) in
      match ct with Some ct => let! v := eff_of (decrypt ct) in eff_ret (Some v) | None => eff_ret None end
  end.
(** An error said as what it is of. *)
Definition because {A} (f : string → string) (m : T X A) : T X A := λ w, let '(r, w) := m w in (map_err f r, w).
(** @ hlb-backup-run/src/lib.rs:1321-1336 [Pass::access] *)
Definition access (d : Destination) : T X (string * option string) :=
  let! password := because (λ e, "the repository password cannot be read: " +:+ e) restic_password in
  let! creds := because (λ e, "the credentials of " +:+ quoted_str (de_name d) +:+ " cannot be read: " +:+ e) (credentials d) in
  eff_ret (password, creds).

(** ** Snapshots recorded *)

(** @ hlb-backup-run/src/lib.rs:859-865 [snapshot] *)
Fixpoint snapshot_each (repo : Repository) (dest app : string) (tags : list string) (paths : list string) (last : string) : T X string :=
  match paths with
  | [] => eff_ret last
  | p :: paths =>
      let! id := on_x backup_error (backup RESTIC json_summary repo p tags) in
      told (archive_put (record_snapshot app dest id)) ;;!
      snapshot_each repo dest app tags paths id
  end.
(** @ hlb-backup-run/src/lib.rs:843-867 [snapshot] *)
Definition snapshot (repo : Repository) (dest app : string) (paths tags : list string) : T X string :=
  on_x backup_error (init RESTIC repo) ;;!
  snapshot_each repo dest app (("app:" +:+ app) :: tags) paths "".

(** @ hlb-backup-run/src/lib.rs:574-597 [locate_volumes] *)
Definition locate_volumes (orchestrated : bool) (volumes services : list string) (x : X) : Places * X :=
  let here := [(Here, volumes)] in
  if negb orchestrated then (here, x)
  else match px_local_node x with
       | (Ok (Some local), x) =>
           let '(tasks, x) := px_tasks x in
           let '(nodes, x) := px_nodes x in
           (match tasks, nodes with
            | Ok tasks, Ok nodes => locate volumes services tasks nodes (Some local)
            | Err e, _ | _, Err e => [(UnknownPlace ("the cluster could not say where they are: " +:+ e), volumes)]
            end, x)
       | (_, x) => (here, x)
       end.
(** @ hlb-backup-run/src/lib.rs:617-622 [back_up_where_they_are] *)
Fixpoint back_up_each (orchestrated : bool) (net : string) (d : Destination) (password : string) (vars : list (string * string))
    (app : string) (sources : gmap string string) (tags : list string) (places : Places) (last : result string string) : T X string :=
  match places with
  | [] => eff_of last
  | (place, volumes) :: places =>
      let! (r, location) := eff_of (runner_at RESTIC orchestrated net d app place volumes sources false) in
      let! id := snapshot (new_repository r location password vars) (de_name d) app (volume_path <$> volumes) tags in
      back_up_each orchestrated net d password vars app sources tags places (Ok id)
  end.
(** @ hlb-backup-run/src/lib.rs:599-624 [back_up_where_they_are] *)
Definition back_up_where_they_are (orchestrated : bool) (net : string) (d : Destination) (password : string)
    (vars : list (string * string)) (app : string) (places : Places) (sources : gmap string string) (pass : option string) : T X string :=
  back_up_each orchestrated net d password vars app sources (BACKED_UP :: option_list pass) places
    (Err ("no volume of " +:+ app +:+ " to back up")).
(** @ hlb-backup-run/src/lib.rs:481-494 [services_of] *)
Definition services_of (app : string) : P X (list string) :=
  let! m := on_store (app_manifest app) in
  eff_ret (app :: ((λ c, companion_service c app) <$> sp_companions (mf_spec m))).

(** ** Buckets *)

(** @ hlb-backup-run/src/bucket.rs:21-30 [archive_name] *)
Definition archive_name (bucket : string) : string := "bucket-" +:+ bucket +:+ ".tar".
(** @ hlb-backup-run/src/bucket.rs:35-36 [BUCKET_TAG] *)
Definition BUCKET_TAG : string := "kind:bucket".
(** @ hlb-backup-run/src/bucket.rs:46-52 [key] *)
Definition read_secret (name : string) : T X (option string) :=
  let! ct := told (on_store (secret name)) in
  match ct with Some ct => let! v := eff_of (decrypt ct) in eff_ret (Some v) | None => eff_ret None end.
(** @ hlb-backup-run/src/bucket.rs:44-59 [key] *)
Definition bucket_key (app : string) : T X S3Key :=
  let! id := read_secret (s3_key_secrets app).1 in
  let! secret := read_secret (s3_key_secrets app).2 in
  match id, secret with
  | Some id, Some secret => eff_ret {| k3_id := id; k3_secret := secret |}
  | _, _ => eff_fail (app +:+ "'s S3 key is not in the vault: its buckets were never provisioned here")
  end.
(** @ hlb-backup-run/src/bucket.rs:61-71 [at] *)
Definition bucket_at (endpoint bucket : string) (key : S3Key) : T X () := on_x id (px_connect endpoint bucket key).
(** @ hlb-backup/src/restic.rs:265-285 [Repository::backup_stdin] *)
Definition stdin_args (r : Repository) (name : string) (tags : list string) : list string :=
  waiting (["backup"; "--stdin"; "--stdin-filename"; name; "--json"; "--host"; re_host r] ++ (tags ≫= λ t, ["--tag"; t])).
(** @ hlb-backup/src/restic.rs:286-296 [Repository::backup_stdin] *)
Definition stdin_saved (out : result BackupError Output) : result BackupError string :=
  out ← out;
  if out_ok out then summary_id json_summary (out_stdout out)
  else Err (ResticFailed "backup --stdin" (trim (out_stderr out))).
(** @ hlb-backup/src/restic.rs:385-389 [Repository::forget_snapshot] *)
Definition forget_snapshot (r : Repository) (id : string) : eff X BackupError () :=
  let! _ := exec RESTIC r ["forget"; id] in eff_ret ().
(** The bucket is read while restic saves: what it saved of one read in part goes.
    @ hlb-backup-run/src/bucket.rs:111-135 [back_up] *)
Definition back_up_bucket (r : Repository) (endpoint bucket : string) (key : S3Key) (tags : list string) : eff X string string := λ x,
  let '(written, saved, x) := px_stream endpoint bucket key (re_runner r) (stdin_args r (archive_name bucket) tags) (repository_env r) x in
  match written, stdin_saved saved with
  | Ok _, Ok id => (Ok id, x)
  | Err e, Ok id => (Err (bucket +:+ ": " +:+ e), (forget_snapshot r id x).2)
  | Err e, Err _ => (Err (bucket +:+ ": " +:+ e), x)
  | Ok _, Err e => (Err (bucket +:+ ": " +:+ backup_error e), x)
  end.
(** The app is read off the first tag. @ hlb-backup-run/src/lib.rs:869-887 [bucket_snapshot] *)
Definition bucket_snapshot (r : Repository) (dest endpoint bucket : string) (key : S3Key) (tags : list string) : T X string :=
  let! id := on_x id (back_up_bucket r endpoint bucket key tags) in
  let app := default "" (head tags ≫= strip_prefix "app:") in
  told (archive_put (record_snapshot app dest id)) ;;! eff_ret id.

(** ** Dumps *)

(** @ hlb-backup-run/src/lib.rs:1645-1651 [pg_dump] *)
Definition target_of (creds : Credentials) (database : string) : Target :=
  {| dt_host := cr_host creds; dt_port := cr_port creds; dt_database := database; dt_user := cr_user creds;
     dt_password := cr_password creds |}.
(** @ hlb-backup-run/src/lib.rs:1632-1656 [pg_dump] *)
Definition pg_dump (net app base admin_url : string) : T X Dump :=
  let! creds := eff_of (ok_or "unreadable PostgreSQL admin URL" (parse_pg_url admin_url)) in
  let! now := askt px_os_now in
  on_x backup_error (produce_pg (client_run POSTGRES_CLIENT (Some net)) app (target_of creds base) now).
(** An engine list that cannot be read means locking. @ hlb-backup-run/src/lib.rs:1658-1690 [maria_dump] *)
Definition maria_dump (net app base admin_url : string) : T X Dump :=
  let! creds := eff_of (ok_or "unreadable MariaDB admin URL" (parse_maria_url admin_url)) in
  let! engines := askt (px_engines admin_url (engines_query base)) in
  let consistency := match engines with Some engines => consistency_for engines | None => LockRequired end in
  let! now := askt px_os_now in
  on_x backup_error (produce_maria (client_run MARIADB_CLIENT (Some net)) app (target_of creds base) consistency now).

(** ** The pass *)

(** @ hlb-backup-run/src/lib.rs:790-814 [Pass] *)
Record Pass := { ps_fallback : option string; ps_network : string; ps_postgres : option string; ps_mariadb : option string;
  ps_schedule : Schedule.Schedule; ps_force : bool; ps_only : option string; ps_orchestrated : bool; ps_s3 : option string }.
Context (self : Pass).

(** @ hlb-backup-run/src/lib.rs:926-934 [Pass::run] *)
Definition count_event (e : Event) (s : Summary) : Summary :=
  match e with
  | DoneItem _ _ _ => {| sm_done := S (sm_done s); sm_failed := sm_failed s |}
  | FailedItem _ _ _ => {| sm_done := sm_done s; sm_failed := S (sm_failed s) |}
  | NotCovered _ _ => s
  end.
(** Counted, then reported. @ hlb-backup-run/src/lib.rs:926-934 [Pass::run] *)
Definition emit (e : Event) : P X () := eff_put (λ w,
  {| w_store := w_store w; w_archive := w_archive w; w_holds := w_holds w; w_x := w_x w;
     w_events := w_events w ++ [e]; w_sum := count_event e (w_sum w) |}).
(** @ hlb-backup-run/src/lib.rs:1281-1284 [Pass::includes] *)
Definition includes (app : string) : bool := match ps_only self with None => true | Some only => only ==? app end.
(** @ hlb-backup-run/src/lib.rs:1274-1279 [Pass::admins] *)
Definition pass_admins : Admins := {| ad_postgres := ps_postgres self; ad_mariadb := ps_mariadb self |}.
(** By its own age there. @ hlb-backup-run/src/lib.rs:1286-1297 [Pass::is_due] *)
Definition due_at (now : Z) (a : Archive) (app kind : string) (d : Destination) : bool :=
  ps_force self ||
  Schedule.is_due (ps_schedule self)
    ((λ s, Schedule.from_secs (Z.to_N (Z.max s 0))) <$> seconds_since_last_success_of now app [kind] (Some (de_name d)) a).
Definition is_due (app kind : string) (d : Destination) : P X bool :=
  eff_get (λ w, due_at (sv_now (w_x w)) (w_archive w) app kind d).
(** @ hlb-backup-run/src/lib.rs:1312-1317 [Pass::due] *)
Fixpoint due_each (app kind : string) (out dests : list Destination) : P X (list Destination) :=
  match dests with
  | [] => eff_ret out
  | d :: dests =>
      if any_of (λ o, de_name o ==? de_name d) out then due_each app kind out dests
      else let! due := is_due app kind d in due_each app kind (if due : bool then out ++ [d] else out) dests
  end.
(** @ hlb-backup-run/src/lib.rs:1299-1319 [Pass::due] *)
Definition due_on (app kind : string) (also : list Destination) : P X (option (list Destination)) := λ w,
  let dests := effective_destinations (w_archive w) app Destination.Critical (ps_fallback self) in
  if (dests ==? []) && (also ==? []) then (Ok None, w)
  else (let! out := due_each app kind also dests in eff_ret (Some out)) w.
(** @ hlb-backup-run/src/lib.rs:1338-1370 [Pass::record] *)
Definition record (app kind what : string) (d : Destination) (outcome : result string string) : P X Event :=
  match outcome with
  | Ok id => recorded_at (λ now, record_backup_to now app kind (de_name d) (Some id) None) ;;! eff_ret (DoneItem what (de_name d) id)
  | Err e => recorded_at (λ now, record_backup_to now app kind (de_name d) None (Some e)) ;;! eff_ret (FailedItem what (Some (de_name d)) e)
  end.
(** @ hlb-backup-run/src/lib.rs:1372-1380 [Pass::places] *)
Definition places_of (app : string) (volumes : list string) : P X Places :=
  let! services := services_of app in
  ask (locate_volumes (ps_orchestrated self) volumes services).

(** @ hlb-backup-run/src/lib.rs:903-915 [Pass::most_critical_first] *)
Definition criticality_rank (c : Criticality) : nat := match c with Vital => 0 | Important => 1 | Normal => 2 end.
Definition app_cmp (a b : Criticality * string * string) : comparison :=
  then_with (Nat.compare (criticality_rank a.1.1) (criticality_rank b.1.1))
    (then_with (String.compare a.1.2 b.1.2) (String.compare a.2 b.2)).
Definition ranked (s : Store) (app status : string) : Criticality * string * string :=
  (match (app_manifest app s).1 with Ok m => criticality m | Err _ => Normal end, app, status).
(** @ hlb-backup-run/src/lib.rs:899-919 [Pass::most_critical_first] *)
Definition most_critical_first : P X (list (string * string)) := λ w,
  match (installed_apps (w_store w)).1 with
  | Ok apps => (Ok ((λ '(_, app, status), (app, status)) <$> sort_by app_cmp ((λ '(app, status), ranked (w_store w) app status) <$> apps)), w)
  | Err e => (Err e, w)
  end.

(** *** To one destination *)

(** @ hlb-backup-run/src/lib.rs:1413-1436 [Pass::volumes_to] *)
Definition volumes_to (app : string) (d : Destination) (places : Places) (sources : gmap string string) (pass : string) : T X string :=
  let! (password, creds) := access d in
  let! vars := eff_of (env d creds) in
  back_up_where_they_are (ps_orchestrated self) (ps_network self) d password vars app places sources (Some pass).
(** @ hlb-backup-run/src/lib.rs:1455-1459 [Pass::buckets_to] *)
Fixpoint buckets_each (repo : Repository) (dest endpoint app : string) (tags buckets : list string) (last : string) : T X string :=
  match buckets with
  | [] => eff_ret last
  | b :: buckets =>
      let! key := bucket_key app in
      bucket_at endpoint b key ;;!
      let! id := bucket_snapshot repo dest endpoint b key tags in
      buckets_each repo dest endpoint app tags buckets id
  end.
(** @ hlb-backup-run/src/lib.rs:1438-1461 [Pass::buckets_to] *)
Definition buckets_to (app : string) (buckets : list string) (endpoint : string) (d : Destination) (pass : string) : T X string :=
  let! (password, creds) := access d in
  let! vars := eff_of (env d creds) in
  let '(r, location) := runner RESTIC d (Some (ps_network self)) in
  let repo := new_repository (RunHere r) location password vars in
  on_x backup_error (init RESTIC repo) ;;!
  buckets_each repo (de_name d) endpoint app ["app:" +:+ app; BUCKET_TAG; pass] buckets "".
(** @ hlb-backup-run/src/lib.rs:1614-1625 [Pass::archive_to] *)
Definition dump_to (d : Destination) (dump : Dump) : T X string :=
  let! (password, creds) := access d in
  on_x backup_error (archive_dump json_summary d creds (Some (ps_network self)) password dump).
(** @ hlb-backup-run/src/lib.rs:1603-1629 [Pass::archive_to] *)
Definition archive_to (app kind what : string) (dump : Dump) (dests : list Destination) (report : Event → P X ()) : P X () :=
  eff_each (λ d,
    let! outcome := outcome_of (dump_to d dump) in
    let! e := record app kind what d outcome in
    report e) dests.

(** ** Homelabus's own state *)

Definition state_failed (error : string) : Event := FailedItem "hlb state" None error.
(** @ hlb-backup-run/src/lib.rs:1490-1495 [Pass::state_snapshot] *)
Definition state_dump (bytes : string) : Dump :=
  {| dp_app := STATE_APP; dp_database := "state"; dp_filename := "hlb-state.snapshot"; dp_bytes := bytes |}.
(** @ hlb-backup-run/src/lib.rs:1463-1508 [Pass::state_snapshot] *)
Definition state_snapshot (report : Event → P X ()) : P X () :=
  let! staging := ask px_staging in
  match staging with
  | Err e => report (state_failed ("no staging directory: " +:+ e))
  | Ok _ =>
      let! taken := ask px_vacuum_state in
      match taken with
      | Err e => report (state_failed (backup_error e))
      | Ok _ =>
          let! bytes := ask (read_staged "hlb-state.snapshot") in
          match bytes with
          | Err e => report (state_failed ("reading the snapshot: " +:+ e))
          | Ok bytes =>
              let! dests := eff_get (λ w, effective_destinations (w_archive w) STATE_APP Destination.Critical (ps_fallback self)) in
              if dests ==? []
              then report (NotCovered "hlb state" "no destination accepts critical data: the dump went nowhere")
              else archive_to STATE_APP STATE "hlb state" (state_dump bytes) dests report
          end
      end
  end.

(** ** Volumes *)

(** Where each app's volumes went in this pass. *)
Abbreviation Reached := (gmap string (list Destination)).

(** @ hlb-backup-run/src/lib.rs:982-987 [Pass::run] *)
Fixpoint due_among (app kind : string) (dests : list Destination) : P X (list Destination) :=
  match dests with
  | [] => eff_ret []
  | d :: dests =>
      let! due := is_due app kind d in
      let! rest := due_among app kind dests in
      eff_ret (if due : bool then d :: rest else rest)
  end.
(** @ hlb-backup-run/src/lib.rs:1017-1024 [Pass::run] *)
Fixpoint volume_outcomes (app : string) (places : Places) (sources : result string (gmap string string)) (pass : string)
    (due : list Destination) : P X (list (Destination * result string string)) :=
  match due with
  | [] => eff_ret []
  | d :: due =>
      let! outcome := match sources with
                      | Ok sources => outcome_of (volumes_to app d places sources pass)
                      | Err e => eff_ret (Err e)
                      end in
      let! rest := volume_outcomes app places sources pass due in
      eff_ret ((d, outcome) :: rest)
  end.
(** @ hlb-backup-run/src/lib.rs:1054-1067 [Pass::run] *)
Fixpoint record_volumes (app : string) (outcomes : list (Destination * result string string)) (reached : Reached) : P X Reached :=
  match outcomes with
  | [] => eff_ret reached
  | (d, outcome) :: outcomes =>
      let reached := match outcome with Ok _ => <[app := default [] (reached !! app) ++ [d]]> reached | Err _ => reached end in
      let! e := record app VOLUME (app +:+ " volumes") d outcome in
      emit e ;;!
      record_volumes app outcomes reached
  end.
(** A reading of the state, by what reads it. *)
Definition state_read {A} (what : string) (m : P X A) : P X A := λ w,
  match px_refuses what (w_x w) with Some e => (Err e, w) | None => m w end.
(** What an engine copied, empty when none does: [Err] when the services could not be stopped.
    A reading the state refuses ends the pass there.
    @ hlb-backup-run/src/lib.rs:999-1016 [Pass::run] *)
Definition engine_sources (app : string) (places : Places) (stopped : result string (option (list (string * N)))) :
    P X (result string (gmap string string)) :=
  let! copies := state_read "declared" (declared app) in
  match stopped with
  | Err e => eff_ret (Err e)
  | Ok _ =>
      match copies with
      | [] => eff_ret (Ok ∅)
      | _ => state_read "take" (take_copies (ps_orchestrated self) (ps_network self) pass_admins app copies places)
      end
  end.
(** Copied while stopped, started again before anything is recorded.
    @ hlb-backup-run/src/lib.rs:991-1067 [Pass::run] *)
Definition copy_volumes (app : string) (volumes : list string) (places : Places) (due : list Destination) (pass : string)
    (reached : Reached) : P X Reached :=
  let! m := on_store (app_manifest app) in
  let! stopped := outcome_of (on_held (stop_for_copy (ps_orchestrated self) (stopped_for_copy (mf_spec m) app) volumes)) in
  let! sources := engine_sources app places stopped in
  let! outcomes := volume_outcomes app places sources pass due in
  match sources with
  | Ok sources =>
      let! cleared := outcome_of (clear_all (ps_orchestrated self) app sources places) in
      match cleared with
      | Err e => emit (FailedItem (app +:+ " copy emptied after its backup") None e)
      | Ok _ => eff_ret ()
      end
  | Err _ => eff_ret ()
  end ;;!
  match stopped with
  | Ok (Some services) =>
      let! started := outcome_of (on_held (start services)) in
      match started with
      | Err e => emit (FailedItem (app +:+ " started again after its copy") None e)
      | Ok _ => eff_ret ()
      end
  | _ => eff_ret ()
  end ;;!
  record_volumes app outcomes reached.
(** @ hlb-backup-run/src/lib.rs:949-1068 [Pass::run] *)
Definition volumes_of_app (pass app status : string) (reached : Reached) : P X Reached :=
  if (status ==? "failed") || negb (includes app) then eff_ret reached
  else
    let! rows := on_store (volumes_to_backup app) in
    let volumes := rows.*1 in
    if volumes ==? [] then eff_ret reached
    else
      let! dests := eff_get (λ w, effective_destinations (w_archive w) app Bulky (ps_fallback self)) in
      if dests ==? [] then emit (NotCovered (app +:+ " volumes") "no destination accepts bulky data") ;;! eff_ret reached
      else
        let! places := places_of app volumes in
        let! due := due_among app VOLUME dests in
        if due ==? [] then eff_ret reached
        else copy_volumes app volumes places due pass reached.
Fixpoint volumes_pass (pass : string) (apps : list (string * string)) (reached : Reached) : P X Reached :=
  match apps with
  | [] => eff_ret reached
  | (app, status) :: apps => let! reached := volumes_of_app pass app status reached in volumes_pass pass apps reached
  end.

(** ** Buckets of a pass *)

(** @ hlb-backup-run/src/lib.rs:1105-1113 [Pass::run] *)
Definition bucket_to_dest (pass app : string) (buckets : list string) (endpoint : string) (d : Destination) : P X () :=
  let! due := is_due app BUCKET d in
  eff_when due
    (let! outcome := outcome_of (buckets_to app buckets endpoint d pass) in
     let! e := record app BUCKET (app +:+ " buckets") d outcome in
     emit e).
(** @ hlb-backup-run/src/lib.rs:1074-1114 [Pass::run] *)
Definition buckets_of_app (pass : string) (entry : string * string) : P X () :=
  let '(app, status) := entry in
  if (status ==? "failed") || negb (includes app) then eff_ret ()
  else
    let! buckets := on_store (buckets_to_backup app) in
    if buckets ==? [] then eff_ret ()
    else
      match ps_s3 self with
      | None => emit (NotCovered (app +:+ " buckets") "Garage's S3 API is not reachable from here")
      | Some endpoint =>
          let! dests := eff_get (λ w, effective_destinations (w_archive w) app Bulky (ps_fallback self)) in
          if dests ==? [] then emit (NotCovered (app +:+ " buckets") "no destination accepts bulky data")
          else eff_each (bucket_to_dest pass app buckets endpoint) dests
      end.

(** ** SQLite *)

(** By application and volume. @ hlb-state/src/lib.rs:1285-1303 [State::backed_up_volumes] *)
Definition backed_up_volumes (s : Store) : list (string * string * string * bool) :=
  (λ '((app, name), r), (app, name, vr_mountpoint r, vr_sqlite r)) <$>
    sort_by (λ a b, then_with (String.compare a.1.1 b.1.1) (String.compare a.1.2 b.1.2))
      (keep (λ e, vr_backup e.2) (map_to_list (t_volumes s))).
(** @ hlb-state/src/lib.rs:1305-1315 [State::mark_sqlite] *)
Definition mark_sqlite (app name : string) (s : Store) : Store :=
  set_volumes (alter (λ r, {| vr_mountpoint := vr_mountpoint r; vr_backup := vr_backup r; vr_sqlite := true |}) (app, name) (t_volumes s)) s.

Definition is_here (p : Place) : bool := match p with Here => true | _ => false end.
(** Only one on this machine is looked in. @ hlb-backup-run/src/lib.rs:1382-1411 [Pass::holds_sqlite] *)
Definition holds_sqlite (app volume mountpoint : string) : P X (result string bool) :=
  let! places := places_of app [volume] in
  if negb (all_of is_here places.*1) then eff_ret (Ok false)
  else
    let! there := ask (px_path_exists mountpoint) in
    if negb there then eff_ret (Ok false)
    else
      let! found := ask (px_has_sqlite mountpoint) in
      eff_ret (map_err (λ e, match e with
        | Unsearched e => mountpoint +:+ " could not be searched for SQLite databases: " +:+ e
        | SearchStopped e => "the search for SQLite databases stopped: " +:+ e
        end) found).
(** @ hlb-backup-run/src/lib.rs:1537-1547 [Pass::sqlite] *)
Definition elsewhere_of (app volume : string) (p : Place) : option string :=
  match p with
  | Here => None
  | OnNode _ hostname => Some (volume +:+ " is on " +:+ hostname +:+ ", which runs " +:+ app +:+ ": run " +:+
                               quoted_str "hlb backup run" +:+ " there")
  | UnknownPlace why => Some why
  end.
(** @ hlb-backup-run/src/lib.rs:1572-1599 [Pass::sqlite] *)
Definition sqlite_to (app volume pass : string) (b : Snapshotted) (d : Destination) : P X () :=
  let what := app +:+ "/" +:+ volume +:+ "/" +:+ sd_relative b in
  let! outcome := outcome_of
    (let! (password, creds) := access d in
     on_x backup_error (archive_sqlite json_summary d creds (Some (ps_network self)) password app (volume_path volume) b [pass])) in
  match outcome with
  | Ok id => archive_put (record_snapshot app (de_name d) id)
  | Err _ => eff_ret ()
  end ;;!
  let! e := record app SQLITE what d outcome in
  emit e.
(** @ hlb-backup-run/src/lib.rs:1510-1601 [Pass::sqlite] *)
Definition sqlite (app volume mountpoint : string) (dests : list Destination) (pass : string) : P X () :=
  let failed error := FailedItem (app +:+ "/" +:+ volume +:+ " SQLite") None error in
  let! staging := ask px_staging in
  match staging with
  | Err e => emit (failed ("no staging directory: " +:+ e))
  | Ok _ =>
      let! places := places_of app [volume] in
      match head (omap (elsewhere_of app volume) places.*1) with
      | Some error => emit (failed error)
      | None =>
          let! there := ask (px_path_exists mountpoint) in
          if negb there
          then emit (failed (mountpoint +:+ " is not on this machine — the volume is on the node that runs " +:+ app +:+
                             ": run " +:+ quoted_str "hlb backup run" +:+ " there"))
          else
            let! bases := ask (px_sqlite_snapshots mountpoint) in
            match bases with
            | Err e => emit (failed (backup_error e))
            | Ok bases => eff_each (λ b, eff_each (sqlite_to app volume pass b) dests) bases
            end
      end
  end.
(** @ hlb-backup-run/src/lib.rs:1121-1144 [Pass::run] *)
Fixpoint sqlite_found (rows : list (string * string * string * bool)) : P X (list (string * string * string)) :=
  match rows with
  | [] => eff_ret []
  | (app, volume, mountpoint, flagged) :: rows =>
      if negb (includes app) then sqlite_found rows
      else
        let! taken := if flagged : bool then eff_ret true
          else let! found := holds_sqlite app volume mountpoint in
               match found with
               | Ok false => eff_ret false
               | Ok true => eff_put (λ w, with_store (mark_sqlite app volume (w_store w)) w) ;;! eff_ret true
               | Err error => emit (FailedItem (app +:+ "/" +:+ volume +:+ " SQLite") None error) ;;! eff_ret false
               end in
        let! rest := sqlite_found rows in
        eff_ret (if taken : bool then (app, volume, mountpoint) :: rest else rest)
  end.
(** Decided per app before any is taken. @ hlb-backup-run/src/lib.rs:1145-1152 [Pass::run] *)
Fixpoint due_of_apps (kind : string) (also : string → list Destination) (apps : list string)
    (due : gmap string (option (list Destination))) : P X (gmap string (option (list Destination))) :=
  match apps with
  | [] => eff_ret due
  | app :: apps =>
      match due !! app with
      | Some _ => due_of_apps kind also apps due
      | None => let! d := due_on app kind (also app) in due_of_apps kind also apps (<[app := d]> due)
      end
  end.
(** @ hlb-backup-run/src/lib.rs:1153-1174 [Pass::run] *)
Definition sqlite_of_volume (pass : string) (due : gmap string (option (list Destination))) (entry : string * string * string) : P X () :=
  let '(app, volume, mountpoint) := entry in
  match default None (due !! app) with
  | None => emit (NotCovered (app +:+ "/" +:+ volume +:+ " SQLite") "no destination accepts critical data: the snapshot went nowhere")
  | Some [] => eff_ret ()
  | Some dests => sqlite app volume mountpoint dests pass
  end.
(** @ hlb-backup-run/src/lib.rs:1116-1174 [Pass::run] *)
Definition sqlite_pass (pass : string) (reached : Reached) : P X () :=
  let! rows := eff_get (λ w, backed_up_volumes (w_store w)) in
  let! found := sqlite_found rows in
  let! due := due_of_apps SQLITE (λ app, default [] (reached !! app)) (found.*1.*1) ∅ in
  eff_each (sqlite_of_volume pass due) found.

(** ** Databases *)

(** @ hlb-state/src/lib.rs:2740-2752 [State::app_databases] *)
Definition databases_in (app : string) (m : Manifest) : list (string * string * string) :=
  omap (λ c, match c with
             | Database engine name _ _ => Some (app, db_service_name engine, default app name)
             | _ => None
             end) (sp_requires (mf_spec m)).
(** The role and the secret of each are not read by a pass. @ hlb-state/src/lib.rs:2727-2756 [State::app_databases] *)
Definition app_databases (s : Store) : list (string * string * string) :=
  concat ((λ '(app, r), if row_status r ==? "failed" then [] else databases_in app (row_manifest r)) <$> btree_entries (t_apps s)).

(** @ hlb-backup-run/src/lib.rs:1191-1244 [Pass::run] *)
Definition dump_database (due : gmap string (option (list Destination))) (entry : string * string * string) : P X () :=
  let '(app, engine, base) := entry in
  let what := app +:+ "/" +:+ base in
  match (if engine ==? "postgres" then Some (ps_postgres self) else if engine ==? "mariadb" then Some (ps_mariadb self) else None) with
  | None => emit (NotCovered what ("engine " +:+ quoted_str engine +:+ " has no dumper"))
  | Some None => emit (NotCovered what ("--" +:+ engine +:+ "-admin missing: the volume alone does not restore"))
  | Some (Some url) =>
      match default None (due !! app) with
      | None => emit (NotCovered what "no destination accepts critical data: the dump went nowhere")
      | Some [] => eff_ret ()
      | Some dests =>
          let! dump := outcome_of (if engine ==? "postgres" then pg_dump (ps_network self) app base url
                                   else maria_dump (ps_network self) app base url) in
          match dump with
          | Ok d => archive_to app SQL_DUMP what d dests emit
          | Err e => recorded_at (λ now, record_backup now app SQL_DUMP None (Some e)) ;;! emit (FailedItem what None e)
          end
      end
  end.
(** @ hlb-backup-run/src/lib.rs:1176-1257 [Pass::run] *)
Definition databases_pass : P X () :=
  let! all := eff_get (λ w, app_databases (w_store w)) in
  let databases := keep (λ e, includes e.1.1) all in
  let! due := due_of_apps SQL_DUMP (λ _, []) (databases.*1.*1) ∅ in
  eff_each (dump_database due) databases.

(** ** The whole of it *)

(** Saying there is no destination once is enough. @ hlb-backup-run/src/lib.rs:1264-1269 [Pass::run] *)
Definition emit_again (e : Event) : P X () := match e with NotCovered _ _ => eff_ret () | _ => emit e end.
(** @ hlb-backup-run/src/lib.rs:935-1272 [Pass::run] *)
Definition pass_steps : P X Summary :=
  let! token := ask public_token in
  let pass := PASS_TAG +:+ token in
  eff_when (includes STATE_APP) (state_snapshot emit) ;;!
  let! before_the_apps := eff_get (λ w, sm_done (w_sum w)) in
  let! apps := most_critical_first in
  let! reached := volumes_pass pass apps ∅ in
  let! apps := most_critical_first in
  eff_each (buckets_of_app pass) apps ;;!
  sqlite_pass pass reached ;;!
  databases_pass ;;!
  let! done_ := eff_get (λ w, sm_done (w_sum w)) in
  eff_when (includes STATE_APP && (before_the_apps <? done_)%nat) (state_snapshot emit_again) ;;!
  eff_get w_sum.
(** A pass begins with nothing counted. @ hlb-backup-run/src/lib.rs:921-934 [Pass::run] *)
Definition begun (w : World X) : World X :=
  {| w_store := w_store w; w_archive := w_archive w; w_holds := w_holds w; w_x := w_x w; w_events := w_events w;
     w_sum := {| sm_done := 0; sm_failed := 0 |} |}.
(** @ hlb-backup-run/src/lib.rs:917-1272 [Pass::run] *)
Definition run_pass : P X Summary := λ w, pass_steps (begun w).

(** ** The copy an update takes first *)

(** @ hlb-backup-run/src/lib.rs:210-218 [PriorBuckets] *)
Record PriorBuckets := { pb_app : string; pb_names : list string; pb_endpoint : option string; pb_key : result string S3Key }.
(** @ hlb-backup-run/src/lib.rs:193-208 [PlacedProvider] *)
Record PlacedProvider := { pp_network : string; pp_admins : Admins; pp_password : string;
  pp_volumes_to : option (Destination * list (string * string)); pp_dumps_to : option (Destination * option string);
  pp_volumes : gmap string (list string); pp_services : gmap string (list string); pp_buckets : option PriorBuckets }.
(** @ hlb-backup-run/src/lib.rs:271-277 [PriorDump] *)
Record PriorDump := { pd_engine : string; pd_name : string; pd_admin : string; pd_to : Destination * option string }.

(** @ hlb-backup-run/src/lib.rs:509-519 [stopped_for_update_copy] *)
Definition stop_also (app : string) (names : list string) (service : string) : list string :=
  if bool_decide (service ∈ names) then names
  else if service ==? app then service :: names else names ++ [service].
(** @ hlb-backup-run/src/lib.rs:496-522 [stopped_for_update_copy] *)
Definition stopped_for_update_copy (app : string) : P X (list string) :=
  let! m := on_store (app_manifest app) in
  let! rows := eff_get (λ w, backed_up_volumes (w_store w)) in
  eff_ret (foldl (λ names '(owner, volume, _, sqlite),
             if negb (owner ==? app) || negb sqlite then names
             else stop_also app names (default app (service_of_volume (mf_spec m) app volume)))
           (stopped_for_copy (mf_spec m) app) rows).

Section provider.
Context (pp : PlacedProvider) (orchestrated : bool).

(** @ hlb-backup-run/src/lib.rs:333-363 [PlacedProvider::databases_to_dump] *)
Fixpoint databases_each (app : string) (rows : list (string * string * string)) : result string (list PriorDump) :=
  match rows with
  | [] => Ok []
  | (owner, engine, name) :: rows =>
      if negb (owner ==? app) then databases_each app rows
      else
        admin ← (if engine ==? "postgres" then Ok (ad_postgres (pp_admins pp))
                 else if engine ==? "mariadb" then Ok (ad_mariadb (pp_admins pp))
                 else Err ("engine " +:+ quoted_str engine +:+ " has no dumper"));
        to ← ok_or ("no destination accepts critical data: " +:+ name +:+ " cannot be dumped first") (pp_dumps_to pp);
        admin ← ok_or ("--" +:+ engine +:+ "-admin missing: " +:+ name +:+ " cannot be dumped first") admin;
        rest ← databases_each app rows;
        Ok ({| pd_engine := engine; pd_name := name; pd_admin := admin; pd_to := to |} :: rest)
  end.
(** @ hlb-backup-run/src/lib.rs:326-365 [PlacedProvider::databases_to_dump] *)
Definition databases_to_dump (app : string) : T X (list PriorDump) := λ w,
  (databases_each app (app_databases (w_store w)), w).
(** @ hlb-backup-run/src/lib.rs:297-302 [PlacedProvider::buckets_to_read] *)
Fixpoint connect_each (refused : string → string) (endpoint : string) (key : S3Key) (names : list string) : T X () :=
  match names with
  | [] => eff_ret ()
  | name :: names => because refused (bucket_at endpoint name key) ;;! connect_each refused endpoint key names
  end.
(** The buckets opened, with what each is read by. @ hlb-backup-run/src/lib.rs:279-303 [PlacedProvider::buckets_to_read] *)
Definition buckets_to_read (app : string) : T X (list (string * string * S3Key)) :=
  match pp_buckets pp with
  | Some b =>
      if negb (pb_app b ==? app) then eff_ret []
      else
        let refused why := app +:+ "'s buckets cannot be copied first: " +:+ why in
        match pp_volumes_to pp with
        | None => eff_fail (refused "no destination accepts bulky data")
        | Some _ =>
            match pb_endpoint b with
            | None => eff_fail (refused "Garage's S3 API is not reachable from here")
            | Some endpoint =>
                let! key := eff_of (map_err refused (pb_key b)) in
                connect_each refused endpoint key (pb_names b) ;;!
                eff_ret ((λ name, (name, endpoint, key)) <$> pb_names b)
            end
        end
  | None => eff_ret []
  end.
(** @ hlb-backup-run/src/lib.rs:319-323 [PlacedProvider::copy_buckets] *)
Fixpoint copy_buckets_each (repo : Repository) (dest : string) (tags : list string) (buckets : list (string * string * S3Key))
    (last : result string string) : T X string :=
  match buckets with
  | [] => eff_of last
  | (name, endpoint, key) :: buckets =>
      let! id := bucket_snapshot repo dest endpoint name key tags in copy_buckets_each repo dest tags buckets (Ok id)
  end.
(** @ hlb-backup-run/src/lib.rs:305-324 [PlacedProvider::copy_buckets] *)
Definition copy_buckets (app : string) (buckets : list (string * string * S3Key)) (to : Destination * list (string * string)) : T X string :=
  let '(r, location) := runner RESTIC to.1 (Some (pp_network pp)) in
  let repo := new_repository (RunHere r) location (pp_password pp) to.2 in
  on_x backup_error (init RESTIC repo) ;;!
  copy_buckets_each repo (de_name to.1) ["app:" +:+ app; BUCKET_TAG] buckets (Err ("no bucket of " +:+ app +:+ " to back up")).
(** @ hlb-backup-run/src/lib.rs:367-395 [PlacedProvider::dump_first] *)
Definition dump_first (app : string) (db : PriorDump) : T X string :=
  let! dump := because (λ e, pd_name db +:+ " could not be dumped first: " +:+ e)
    (if pd_engine db ==? "postgres" then pg_dump (pp_network pp) app (pd_name db) (pd_admin db)
     else maria_dump (pp_network pp) app (pd_name db) (pd_admin db)) in
  let '(d, creds) := pd_to db in
  let! id := because (λ e, pd_name db +:+ " could not be backed up first: " +:+ e)
    (on_x backup_error (archive_dump json_summary d creds (Some (pp_network pp)) (pp_password pp) dump)) in
  told (archive_put (record_snapshot app (de_name d) id)) ;;! eff_ret id.
(** @ hlb-backup-run/src/lib.rs:429-478 [PlacedProvider::copy_and_back_up] *)
Definition copy_and_back_up (app : string) (places : Places) (to : Destination * list (string * string)) (stopped : bool) : T X string :=
  let! copies := told (declared app) in
  let! sources := match copies with
    | [] => eff_ret ∅
    | _ => let! r := told (take_copies orchestrated (pp_network pp) (pp_admins pp) app copies places) in eff_of r
    end in
  λ w, let '(taken, w) := back_up_where_they_are orchestrated (pp_network pp) to.1 (pp_password pp) to.2 app places sources
                            (if stopped then Some STOPPED_TAG else None) w in
       (taken, (clear_all orchestrated app sources places w).2).
(** @ hlb-backup-run/src/lib.rs:416-426 [PlacedProvider::copy_volumes] *)
Definition started_after (taken : result string string) (started : result string ()) : result string string :=
  match started, taken with
  | Ok _, taken => taken
  | Err e, Ok _ => Err e
  | Err e, Err t => Err (t +:+ "; and then " +:+ e)
  end.
(** @ hlb-backup-run/src/lib.rs:397-427 [PlacedProvider::copy_volumes] *)
Definition copy_volumes_first (app : string) (volumes : list string) (to : Destination * list (string * string)) : T X string :=
  let! places := askt (locate_volumes orchestrated volumes (default [] (pp_services pp !! app))) in
  let! names := told (stopped_for_update_copy app) in
  let! stopped := on_held (stop_for_copy orchestrated names volumes) in
  λ w, let '(taken, w) := copy_and_back_up app places to (bool_decide (is_Some stopped)) w in
       match stopped with
       | None => (taken, w)
       | Some services => let '(started, w) := on_held (start services) w in (started_after taken started, w)
       end.
(** @ hlb-backup-run/src/lib.rs:264-267 [PlacedProvider::copy] *)
Fixpoint dump_each (app : string) (dbs : list PriorDump) (last : option string) : T X (option string) :=
  match dbs with
  | [] => eff_ret last
  | db :: dbs => let! id := dump_first app db in dump_each app dbs (Some id)
  end.
(** @ hlb-backup-run/src/lib.rs:251-259 [PlacedProvider::copy] *)
Definition volumes_first (app : string) : T X (option string) :=
  match pp_volumes pp !! app with
  | None => eff_ret None
  | Some volumes =>
      match pp_volumes_to pp with
      | None => eff_fail ("no destination accepts bulky data: " +:+ app +:+ "'s volumes cannot be copied first")
      | Some to => let! id := copy_volumes_first app volumes to in eff_ret (Some id)
      end
  end.
(** @ hlb-backup-run/src/lib.rs:260-263 [PlacedProvider::copy] *)
Definition buckets_first (app : string) (buckets : list (string * string * S3Key)) (last : option string) : T X (option string) :=
  match buckets, pp_volumes_to pp with
  | _ :: _, Some to => let! id := copy_buckets app buckets to in eff_ret (Some id)
  | _, _ => eff_ret last
  end.
(** No copying nothing and saying it is fine. @ hlb-backup-run/src/lib.rs:233-269 [PlacedProvider::copy] *)
Definition prior_copy (app : string) : T X string :=
  let! databases := databases_to_dump app in
  let! buckets := buckets_to_read app in
  match pp_volumes pp !! app, databases, buckets with
  | None, [], [] =>
    eff_fail ("no known volume or database for " +:+ quoted_str app +:+ " — the backup cannot be guaranteed")
  | _, _, _ =>
    let! last := volumes_first app in
    let! last := buckets_first app buckets last in
    let! last := dump_each app databases last in
    eff_of (ok_or ("nothing of " +:+ app +:+ " was copied") last)
  end.
End provider.

(** @ hlb-backup-run/src/lib.rs:742-755 [provider_for_update] *)
Fixpoint volumes_known (apps : list (string * string)) (known : gmap string (list string) * gmap string (list string)) :
    P X (gmap string (list string) * gmap string (list string)) :=
  match apps with
  | [] => eff_ret known
  | (app, _) :: apps =>
      let! rows := on_store (volumes_to_backup app) in
      match rows.*1 with
      | [] => volumes_known apps known
      | v => let! services := services_of app in
             volumes_known apps (<[app := v]> known.1, <[app := services]> known.2)
      end
  end.
(** [None] when there is no destination of either class: the update is then refused.
    @ hlb-backup-run/src/lib.rs:687-768 [provider_for_update] *)
Definition provider_for_update (net : string) (admins : Admins) (s3 fallback : option string) (app : string) : T X (option PlacedProvider) :=
  let! a := eff_get w_archive in
  match head (effective_destinations a app Bulky fallback), head (effective_destinations a app Destination.Critical fallback) with
  | None, None => eff_ret None
  | bulky, critical =>
      let! volumes_to := match bulky with
        | None => eff_ret None
        | Some d => let! creds := credentials d in let! vars := eff_of (env d creds) in eff_ret (Some (d, vars))
        end in
      let! dumps_to := match critical with
        | None => eff_ret None
        | Some d => let! creds := credentials d in eff_ret (Some (d, creds))
        end in
      let! names := told (on_store (buckets_to_backup app)) in
      let! buckets := match names with
        | [] => eff_ret None
        | _ => let! key := (λ w, let '(r, w) := bucket_key app w in (Ok r, w)) in
               eff_ret (Some {| pb_app := app; pb_names := names; pb_endpoint := s3; pb_key := key |})
        end in
      let! apps := told (on_store installed_apps) in
      let! known := told (volumes_known apps (∅, ∅)) in
      let! password := restic_password in
      eff_ret (Some {| pp_network := net; pp_admins := admins; pp_password := password; pp_volumes_to := volumes_to;
                       pp_dumps_to := dumps_to; pp_volumes := known.1; pp_services := known.2; pp_buckets := buckets |})
  end.
End pass.

Create HintDb quiet.
(** ** What a pass leaves alone *)

Section laws.
Context {X : Type} `{!Services X, !Runners X, !DockerCli X, !CopyDocker X, !PassOutside X}.
Context (decrypt : list N → result string string) (json_summary : string → option string) (self : Pass).
Implicit Types (w : World X).

(** Nothing reported, recorded or held; what was taken still is. *)
Definition quiet w w' : Prop :=
  w_events w' = w_events w ∧ w_sum w' = w_sum w ∧ w_holds w' = w_holds w ∧
  a_runs (w_archive w') = a_runs (w_archive w) ∧
  ∀ id, is_Some (a_taken (w_archive w) !! id) → is_Some (a_taken (w_archive w') !! id).
#[local] Instance quiet_preorder : PreOrder quiet.
Proof.
  split; [by intros w; split_and!|]. intros w1 w2 w3 (H1 & H2 & H3 & H4 & H5) (K1 & K2 & K3 & K4 & K5).
  split_and!; [congruence..|auto].
Qed.

Lemma quiet_on_store {A} (m : db A) : keeps quiet (on_store (X := X) m).
Proof. intros w. unfold on_store. destruct (m _) as [r s]. by split_and!. Qed.
Lemma quiet_on_x {E A} (f : E → string) (m : eff X E A) : keeps quiet (on_x f m).
Proof. intros w. unfold on_x. destruct (m _) as [r x]. by split_and!. Qed.
Lemma quiet_ask {A} (f : X → A * X) : keeps quiet (ask f).
Proof. intros w. unfold ask. destruct (f _) as [r x]. by split_and!. Qed.
Lemma quiet_askt {A} (f : X → A * X) : keeps quiet (askt f).
Proof. intros w. unfold askt. destruct (f _) as [r x]. by split_and!. Qed.
Lemma quiet_recorded app dest id : keeps quiet (archive_put (X := X) (record_snapshot app dest id)).
Proof.
  intros w. split_and!; try done. intros k Hk. cbn. destruct (a_taken (w_archive w) !! id) eqn:E; [done|].
  destruct (decide (k = id)) as [->|Hne]; [by rewrite lookup_insert_eq|by rewrite lookup_insert_ne].
Qed.

Section lifts.
Context (R : relation (World X)) `{!PreOrder R}.
Lemma keeps_outcome_of {A} (m : T X A) : keeps R m → keeps R (outcome_of m).
Proof. intros H w. specialize (H w). unfold outcome_of. by destruct (m w). Qed.
Lemma keeps_told {A} (m : P X A) : keeps R m → keeps R (told m).
Proof. intros H w. specialize (H w). unfold told. by destruct (m w). Qed.
Lemma keeps_because {A} f (m : T X A) : keeps R m → keeps R (because f m).
Proof. intros H w. specialize (H w). unfold because. by destruct (m w). Qed.
End lifts.

#[local] Hint Resolve quiet_on_store quiet_on_x quiet_ask quiet_askt quiet_recorded : quiet.
Ltac quiet_steps :=
  repeat (intros; first
    [ solve [auto 1 with quiet nocore] | eapply keeps_bind; [apply _|..] | eapply keeps_when; [apply _|..] | apply keeps_outcome_of | apply keeps_told
    | apply keeps_because | apply quiet_on_store | apply quiet_on_x | apply quiet_ask | apply quiet_askt | apply quiet_recorded
    | apply keeps_ret; apply _ | apply keeps_fail; apply _ | apply keeps_get; apply _ | apply keeps_of; apply _ | case_match ]); intros.

Lemma quiet_restic_password : keeps quiet (restic_password decrypt).
Proof. unfold restic_password. quiet_steps. Qed.
#[local] Hint Resolve quiet_restic_password : quiet.
Lemma quiet_access d : keeps quiet (access decrypt d).
Proof. unfold access, credentials. quiet_steps. Qed.
#[local] Hint Resolve quiet_access : quiet.
Lemma quiet_snapshot_each repo dest app tags paths last : keeps quiet (snapshot_each json_summary repo dest app tags paths last).
Proof. revert last. induction paths as [|p paths IH]; intros last; cbn [snapshot_each]; quiet_steps. Qed.
#[local] Hint Resolve quiet_snapshot_each : quiet.
Lemma quiet_back_up_each orchestrated net d password vars app sources tags places last :
  keeps quiet (back_up_each json_summary orchestrated net d password vars app sources tags places last).
Proof.
  revert last. induction places as [|[place vs] places IH]; intros last; cbn [back_up_each]; unfold snapshot; quiet_steps.

Qed.
#[local] Hint Resolve quiet_back_up_each : quiet.
Lemma quiet_buckets_each repo dest endpoint app tags buckets last :
  keeps quiet (buckets_each decrypt json_summary repo dest endpoint app tags buckets last).
Proof.
  revert last. induction buckets as [|b buckets IH]; intros last; cbn [buckets_each];
    unfold bucket_key, read_secret, bucket_at, bucket_snapshot; quiet_steps.
Qed.
#[local] Hint Resolve quiet_buckets_each : quiet.
Lemma quiet_volumes_to app d places sources pass : keeps quiet (volumes_to decrypt json_summary self app d places sources pass).
Proof. unfold volumes_to, back_up_where_they_are. quiet_steps. Qed.
#[local] Hint Resolve quiet_volumes_to : quiet.
Lemma quiet_buckets_to app buckets endpoint d pass : keeps quiet (buckets_to decrypt json_summary self app buckets endpoint d pass).
Proof. unfold buckets_to. quiet_steps. Qed.
#[local] Hint Resolve quiet_buckets_to : quiet.
Lemma quiet_clear_all orchestrated app sources places : keeps quiet (clear_all (X := X) orchestrated app sources places).
Proof. unfold clear_all. quiet_steps. Qed.
#[local] Hint Resolve quiet_clear_all : quiet.
Lemma quiet_state_read {A} what (m : P X A) : keeps quiet m → keeps quiet (state_read what m).
Proof. intros H w. unfold state_read. by destruct (px_refuses what (w_x w)). Qed.
Lemma quiet_engine_sources app places stopped : keeps quiet (engine_sources self app places stopped).
Proof. unfold engine_sources, declared, take_copies. quiet_steps; apply quiet_state_read; quiet_steps. Qed.
#[local] Hint Resolve quiet_engine_sources : quiet.
Lemma quiet_volume_outcomes app places sources pass due :
  keeps quiet (volume_outcomes decrypt json_summary self app places sources pass due).
Proof.
  induction due as [|d due IH]; cbn [volume_outcomes]; quiet_steps.
Qed.
#[local] Hint Resolve quiet_volume_outcomes : quiet.
Lemma quiet_places_of app volumes : keeps quiet (places_of self app volumes).
Proof. unfold places_of, services_of. quiet_steps. Qed.
#[local] Hint Resolve quiet_places_of : quiet.
Lemma quiet_due_each app kind out dests : keeps quiet (due_each (X := X) self app kind out dests).
Proof. revert out. induction dests as [|d dests IH]; intros out; cbn [due_each]; unfold is_due; quiet_steps. Qed.
#[local] Hint Resolve quiet_due_each : quiet.
Lemma quiet_due_on app kind also : keeps quiet (due_on (X := X) self app kind also).
Proof.
  intros w. unfold due_on. destruct (_ && _); [reflexivity|].
  assert (H : keeps quiet (let! out := due_each self app kind also
      (effective_destinations (w_archive w) app Destination.Critical (ps_fallback self)) in eff_ret (Some out)))
    by (quiet_steps). apply H.
Qed.
#[local] Hint Resolve quiet_due_on : quiet.
Lemma quiet_due_among app kind dests : keeps quiet (due_among (X := X) self app kind dests).
Proof. induction dests as [|d dests IH]; cbn [due_among]; unfold is_due; quiet_steps. Qed.
#[local] Hint Resolve quiet_due_among : quiet.
Lemma quiet_due_of_apps kind also apps due : keeps quiet (due_of_apps (X := X) self kind also apps due).
Proof.
  revert due. induction apps as [|app apps IH]; intros due; cbn [due_of_apps]; [quiet_steps|].
  destruct (due !! app); [apply IH|]. quiet_steps.
Qed.
#[local] Hint Resolve quiet_due_of_apps : quiet.
Lemma quiet_apps : keeps quiet (most_critical_first (X := X)).
Proof. intros w. unfold most_critical_first. by destruct (installed_apps _).1. Qed.
#[local] Hint Resolve quiet_apps : quiet.
Lemma quiet_pg_dump net app base url : keeps quiet (pg_dump (X := X) net app base url).
Proof. unfold pg_dump. quiet_steps. Qed.
#[local] Hint Resolve quiet_pg_dump : quiet.
Lemma quiet_maria_dump net app base url : keeps quiet (maria_dump (X := X) net app base url).
Proof. unfold maria_dump. quiet_steps. Qed.
#[local] Hint Resolve quiet_maria_dump : quiet.
Lemma quiet_holds_sqlite app volume mountpoint : keeps quiet (holds_sqlite (X := X) self app volume mountpoint).
Proof. unfold holds_sqlite. quiet_steps. Qed.
#[local] Hint Resolve quiet_holds_sqlite : quiet.
Lemma quiet_marked app volume : keeps quiet (eff_put (E := Journal.Error) (λ w, with_store (mark_sqlite app volume (w_store w)) w)).
Proof. intros w. by split_and!. Qed.
#[local] Hint Resolve quiet_marked : quiet.

(** *** What is held *)

(** No service is held that was not. *)
Definition released w w' : Prop := ∀ s row, w_holds w' !! s = Some row → w_holds w !! s = Some row.
#[local] Instance released_preorder : PreOrder released.
Proof. split; [by intros w s row|]. intros w1 w2 w3 H1 H2 s row H. by apply H1, H2. Qed.
Lemma quiet_released w w' : quiet w w' → released w w'.
Proof. intros (_ & _ & H & _) s row. by rewrite H. Qed.
Lemma keeps_quiet_released {E A} (m : eff (World X) E A) : keeps quiet m → keeps released m.
Proof. intros H w. apply quiet_released, H. Qed.
Lemma released_emit e : keeps released (emit (X := X) e).
Proof. by intros w s row. Qed.
Lemma released_recorded f : keeps released (recorded_at (X := X) f).
Proof. by intros w s row. Qed.
#[local] Hint Resolve released_emit released_recorded : quiet.
#[local] Hint Extern 1 (keeps released _) => (apply keeps_quiet_released; solve [auto 2 with quiet nocore]) : quiet.

Ltac released_steps :=
  repeat (intros; first
    [ solve [auto 2 with quiet nocore] | eapply keeps_bind; [apply _|..] | eapply keeps_when; [apply _|..]
    | eapply keeps_each; [apply _|..] | apply keeps_outcome_of | apply keeps_told
    | apply keeps_ret; apply _ | apply keeps_fail; apply _ | apply keeps_get; apply _ | apply keeps_of; apply _ | case_match ]); intros.

Lemma released_record app kind what d outcome : keeps released (record (X := X) app kind what d outcome).
Proof. unfold record. released_steps. Qed.
#[local] Hint Resolve released_record : quiet.
Lemma released_record_volumes app outcomes reached : keeps released (record_volumes (X := X) app outcomes reached).
Proof.
  revert reached. induction outcomes as [|[d o] outcomes IH]; intros reached; cbn [record_volumes]; released_steps.
Qed.
#[local] Hint Resolve released_record_volumes : quiet.

(** The state refused a reading. *)
Definition refused (e : Journal.Error) : Prop := ∃ what (x : X), px_refuses what x = Some e.
Lemma engine_sources_ends app places stopped w m :
  app_manifest app (w_store w) = (Ok m, w_store w) →
  (∃ r, (engine_sources self app places stopped w).1 = Ok r) ∨
  ∃ e, (engine_sources self app places stopped w).1 = Err e ∧ refused e.
Proof.
  intros Hm. destruct (engine_sources self app places stopped w) as [r w'] eqn:E. cbn [fst].
  revert E. unfold engine_sources, declared, eff_bind, state_read, on_store.
  destruct (px_refuses "declared" (w_x w)) as [e|] eqn:E1; [intros [= <- _]; right; exists e; split; [done|by eexists _, _]|].
  rewrite Hm. cbn [eff_ret]. destruct stopped as [o|e]; [|intros [= <- _]; left; by eexists].
  destruct (copies_of app m) as [|c cs]; [intros [= <- _]; left; by eexists|]. cbn [w_x with_store].
  destruct (px_refuses "take" (w_x w)) as [e|] eqn:E2; [intros [= <- _]; right; exists e; split; [done|by eexists _, _]|].
  unfold take_copies, eff_bind, on_store. cbn [w_store with_store]. rewrite Hm. unfold outcome_of.
  destruct (on_x _ _ _) as [? ?]. intros [= <- _]. left. by eexists.
Qed.
Lemma volume_outcomes_total app places sources pass due w :
  ∃ l, (volume_outcomes decrypt json_summary self app places sources pass due w).1 = Ok l ∧ l.*1 = due.
Proof.
  revert w. induction due as [|d due IH]; intros w; cbn [volume_outcomes]; [by exists []|].
  unfold eff_bind at 1. set (o := match sources with Ok _ => _ | Err _ => _ end).
  assert (Ho : ∃ a w1, o w = (Ok a, w1)).
  { subst o. destruct sources; [|by eexists _, _]. unfold outcome_of. destruct (volumes_to _ _ _ _ _ _ _ _ _) as [r w1]. by eexists _, _. }
  destruct Ho as (a & w1 & ->). unfold eff_bind. destruct (IH w1) as (l & Hl & <-).
  destruct (volume_outcomes _ _ _ _ _ _ _ _ w1) as [[l'|e] w2]; [|done]. eexists. split; [done|]. by injection Hl as ->.
Qed.
(** An event that tells of an attempt on a destination. *)
Definition attempted (e : Event) : bool :=
  match e with DoneItem _ _ _ | FailedItem _ (Some _) _ => true | _ => false end.
(** What is said of a step that always ends. *)
Lemma said_if_failed {A} (m : T X A) (f : string → Event) w :
  w_events (m w).2 = w_events w → (∀ e, attempted (f e) = false) →
  ∃ w' said, (let! r := outcome_of m in match r with Err e => emit (f e) | Ok _ => eff_ret () end) w = (Ok (), w') ∧
    w_holds w' = w_holds (m w).2 ∧ w_events w' = w_events w ++ said ∧ Forall (λ e, attempted e = false) said.
Proof.
  intros He Hf. unfold eff_bind, outcome_of. destruct (m w) as [[a|e] w1]; cbn in He.
  - exists w1, []. by rewrite app_nil_r.
  - eexists _, [f e]. split; [done|]. cbn. rewrite He. split_and!; [done|done|]. by repeat constructor.
Qed.

(** Held for a copy. *)
Definition copy_held (row : HoldRow) : Prop := starts_with COPY_HOLD (ho_why row) = true.
(** Nothing is held that was not but for a copy. *)
Definition held_for_copies w w' : Prop :=
  ∀ s row, w_holds w' !! s = Some row → w_holds w !! s = Some row ∨ copy_held row.

(** The copy of an app's volumes ends, with an outcome for each destination, and what it stopped is
    given back by then; unless the state refuses a reading while they are stopped, which ends it there. *)
Lemma copy_volumes_ends app volumes places due pass reached w m :
  app_manifest app (w_store w) = (Ok m, w_store w) →
  (∃ outcomes said w5,
    copy_volumes decrypt json_summary self app volumes places due pass reached w = record_volumes app outcomes reached w5 ∧
    outcomes.*1 = due ∧ w_events w5 = w_events w ++ said ∧ Forall (λ e, attempted e = false) said ∧ released w w5) ∨
  ∃ e w5, copy_volumes decrypt json_summary self app volumes places due pass reached w = (Err e, w5) ∧ refused e ∧
    w_events w5 = w_events w ∧ held_for_copies w w5.
Proof.
  intros Em. destruct (copy_volumes _ _ _ _ _ _ _ _ _ w) as [rr ww] eqn:Ecopy. revert Ecopy. unfold copy_volumes.
  unfold eff_bind at 1, on_store. rewrite Em. unfold eff_bind at 1, outcome_of at 1, on_held at 1. cbn [w_holds w_x with_store].
  destruct (stop_for_copy _ _ _ _) as [stopped [h1 x1]] eqn:Es. pose proof Es as Ewhy. apply stop_for_copy_holds in Es as [Hne Hst].
  set (w1 := with_held (h1, x1) _). unfold eff_bind at 1.
  pose proof (engine_sources_ends app places stopped w1 m Em) as Hends.
  assert (Hq := quiet_engine_sources app places stopped w1).
  destruct (engine_sources _ _ _ _ w1) as [r' w2]. cbn [fst snd] in Hends, Hq. destruct Hq as (He2 & _ & Hh2 & _).
  destruct Hends as [[r ->]|(e & -> & Hrefused)].
  2: { intros [= <- <-]. right. exists e, w2. split; [done|]. split; [done|]. split; [by rewrite He2|]. intros s row. rewrite Hh2. change (w_holds w1) with h1.
    intros Hrow. destruct stopped as [services|err].
    - destruct (stop_for_copy_why _ _ _ _ _ _ _ _ s row Ewhy Hrow) as [?|Hw]; [by left|right].
      unfold copy_held. rewrite Hw. apply starts_with_true. by eexists.
    - left. destruct (Hst s) as [E|E]; congruence. }
  unfold eff_bind at 1. destruct (volume_outcomes_total app places r pass due w2) as (l & Hl & Hdue).
  assert (Hq := quiet_volume_outcomes app places r pass due w2).
  destruct (volume_outcomes _ _ _ _ _ _ _ _ w2) as [r' w3]. cbn in Hl, Hq. subst r'. destruct Hq as (He3 & _ & Hh3 & _).
  unfold eff_bind at 1.
  assert (H4 : ∃ w4 said, match r with
    | Ok sources => let! cleared := outcome_of (clear_all (ps_orchestrated self) app sources places) in
                    match cleared with Err e => emit (FailedItem (app +:+ " copy emptied after its backup") None e) | Ok _ => eff_ret () end
    | Err _ => eff_ret () end w3 = (Ok (), w4) ∧ w_holds w4 = w_holds w3 ∧ w_events w4 = w_events w3 ++ said ∧
    Forall (λ e, attempted e = false) said).
  { destruct r as [src|e]; [|exists w3, []; by rewrite app_nil_r].
    destruct (quiet_clear_all (ps_orchestrated self) app src places w3) as (He & _ & Hh & _).
    destruct (said_if_failed _ (λ e, FailedItem (app +:+ " copy emptied after its backup") None e) w3 He ltac:(done)) as (w4 & said & ? & ? & ? & ?).
    exists w4, said. split_and!; try done. congruence. }
  destruct H4 as (w4 & said4 & -> & Hh4 & He4 & Hf4). unfold eff_bind at 1.
  assert (H5 : ∃ w5 said, match stopped with
    | Ok (Some services) => let! started := outcome_of (on_held (start services)) in
        match started with Err e => emit (FailedItem (app +:+ " started again after its copy") None e) | Ok _ => eff_ret () end
    | _ => eff_ret () end w4 = (Ok (), w5) ∧
    w_holds w5 = match stopped with Ok (Some services) => release_services (services.*1) (w_holds w4) | _ => w_holds w4 end ∧
    w_events w5 = w_events w4 ++ said ∧ Forall (λ e, attempted e = false) said).
  { destruct stopped as [[services|]|e]; [|exists w4, []; by rewrite app_nil_r..].
    destruct (said_if_failed (on_held (start services)) (λ e, FailedItem (app +:+ " started again after its copy") None e) w4) as (w5 & said & ? & Hh & ? & ?);
      [by unfold on_held; destruct (start _ _)|done|].
    exists w5, said. split_and!; try done. rewrite Hh. unfold on_held.
    pose proof (start_holds services (w_holds w4) (w_x w4)) as Hs. by destruct (start services _). }
  destruct H5 as (w5 & said5 & -> & Hh5 & He5 & Hf5). intros Elast. left. exists l, (said4 ++ said5), w5. split_and!; try done.
  - by rewrite He5, He4, He3, He2, app_assoc.
  - by apply Forall_app.
  - intros s row. rewrite Hh5, Hh4, Hh3, Hh2. change (w_holds w1) with h1. destruct stopped as [[services|]|e].
    + rewrite release_lookup, Hst. destruct (decide _) as [|Hn]; [done|]. by rewrite Hne.
    + by rewrite Hst.
    + by destruct (Hst s) as [->| ->].
Qed.
Lemma app_manifest_same app (s : Store) : (app_manifest app s).2 = s.
Proof. done. Qed.
(** What ends a pass leaves nothing held, or is the state's refusal of a reading, and what is then
    newly held is held for a copy. *)
Definition gives_back {A} (m : P X A) : Prop :=
  ∀ w, released w (m w).2 ∨ ∃ e, (m w).1 = Err e ∧ refused e ∧ held_for_copies w (m w).2.
Lemma held_after_released w1 w2 w3 : released w1 w2 → held_for_copies w2 w3 → held_for_copies w1 w3.
Proof. intros H1 H2 s row [?|?]%H2; [left; by apply H1|by right]. Qed.
Lemma gives_back_released {A} (m : P X A) : keeps released m → gives_back m.
Proof. intros H w. left. apply H. Qed.
Lemma gives_back_bind {A B} (m : P X A) (k : A → P X B) : gives_back m → (∀ a, gives_back (k a)) → gives_back (eff_bind m k).
Proof.
  intros Hm Hk w. unfold eff_bind. specialize (Hm w). destruct (m w) as [[a|e] w1]; cbn [fst snd] in *.
  - destruct Hm as [Hm|(? & ? & _)]; [|done].
    destruct (Hk a w1) as [H|(e & ? & ? & H)]; [left; by transitivity w1|right].
    exists e. split_and!; [done..|by eapply held_after_released].
  - destruct Hm as [Hm|(e' & [= ->] & ? & ?)]; [by left|right]. by exists e'.
Qed.
Lemma gives_back_copy_volumes app volumes places due pass reached :
  gives_back (copy_volumes decrypt json_summary self app volumes places due pass reached).
Proof.
  intros w. destruct (app_manifest app (w_store w)) as [[m|e] s0] eqn:Em; pose proof (app_manifest_same app (w_store w)) as Hs;
    rewrite Em in Hs; cbn in Hs; subst s0.
  - destruct (copy_volumes_ends app volumes places due pass reached w m Em) as [(l & said & w5 & -> & _ & _ & _ & H)|(e & w5 & -> & Hr & _ & Hh)].
    + left. transitivity w5; [done|apply released_record_volumes].
    + right. by exists e.
  - left. unfold copy_volumes, eff_bind, on_store. rewrite Em. by intros s row.
Qed.
#[local] Hint Resolve gives_back_copy_volumes : quiet.
(** The steps that give back, and those that hold nothing. *)
Ltac gives_back_steps :=
  repeat (intros; first
    [ solve [auto 2 with quiet nocore] | (apply gives_back_released; solve [released_steps]) | apply gives_back_bind | case_match ]); intros.

Lemma released_archive_to app kind what dump dests report :
  (∀ e, keeps released (report e)) → keeps released (archive_to decrypt json_summary self app kind what dump dests report).
Proof. intros H. unfold archive_to, dump_to. released_steps; try apply H. Qed.
Lemma released_emit_again e : keeps released (emit_again (X := X) e).
Proof. destruct e; cbn; released_steps. Qed.
Lemma released_state_snapshot report :
  (∀ e, keeps released (report e)) → keeps released (state_snapshot decrypt json_summary self report).
Proof. intros H. unfold state_snapshot. released_steps; try apply H. Qed.
Lemma gives_back_volumes_of_app pass app status reached : gives_back (volumes_of_app decrypt json_summary self pass app status reached).
Proof. unfold volumes_of_app, volumes_to_backup. gives_back_steps. Qed.
Lemma gives_back_volumes_pass pass apps reached : gives_back (volumes_pass decrypt json_summary self pass apps reached).
Proof.
  revert reached. induction apps as [|[app status] apps IH]; intros reached; cbn [volumes_pass]; [apply gives_back_released, keeps_ret, _|].
  apply gives_back_bind; [apply gives_back_volumes_of_app|done].
Qed.
Lemma released_buckets_of_app pass e : keeps released (buckets_of_app decrypt json_summary self pass e).
Proof. unfold buckets_of_app, bucket_to_dest, is_due. released_steps. Qed.
Lemma released_sqlite_found rows : keeps released (sqlite_found (X := X) self rows).
Proof. induction rows as [|[[[app v] mp] f] rows IH]; cbn [sqlite_found]; released_steps. Qed.
Lemma released_sqlite app v mp dests pass : keeps released (sqlite decrypt json_summary self app v mp dests pass).
Proof. unfold sqlite, sqlite_to. released_steps. Qed.
#[local] Hint Resolve released_archive_to released_state_snapshot released_emit_again gives_back_volumes_pass released_buckets_of_app released_sqlite_found released_sqlite : quiet.

(** Refused what it reads next, the pass ends with the services still held. *)
Lemma refused_reading_leaves_held app volumes places due pass reached w m services h x e :
  app_manifest app (w_store w) = (Ok m, w_store w) →
  stop_for_copy (ps_orchestrated self) (stopped_for_copy (mf_spec m) app) volumes (w_holds w, w_x w) = (Ok (Some services), (h, x)) →
  px_refuses "declared" x = Some e →
  ∃ w', copy_volumes decrypt json_summary self app volumes places due pass reached w = (Err e, w') ∧ w_holds w' = h ∧ w_x w' = x.
Proof.
  intros Em Es Hr. unfold copy_volumes, eff_bind, on_store, outcome_of, on_held. rewrite Em. cbn [w_holds w_x with_store].
  rewrite Es. unfold engine_sources, eff_bind, state_read. change (w_x (with_held _ _)) with x. rewrite Hr. by eexists.
Qed.

(** *** What is said *)

(** The attempt an event tells. *)
Definition says (e : Event) (r : Run) : Prop :=
  match e with
  | DoneItem _ d id => ru_destination r = Some d ∧ ru_snapshot r = Some id ∧ ru_error r = None
  | FailedItem _ d err => ru_destination r = d ∧ ru_snapshot r = None ∧ ru_error r = Some err
  | NotCovered _ _ => False
  end.
Definition tally (s : Summary) (evs : list Event) : Summary := foldl (λ s e, count_event e s) s evs.

(** The events and the attempts added: each attempt is said and each event about a destination
    has its attempt; what is said done is recorded as taken. *)
Record agreement (w w' : World X) (evs : list Event) (rows : list Run) : Prop := {
  ag_events : w_events w' = w_events w ++ evs;
  ag_runs : a_runs (w_archive w') = a_runs (w_archive w) ++ rows;
  ag_sum : w_sum w' = tally (w_sum w) evs;
  ag_kept : ∀ id, is_Some (a_taken (w_archive w) !! id) → is_Some (a_taken (w_archive w') !! id);
  ag_taken : ∀ what d id, DoneItem what d id ∈ evs → is_Some (a_taken (w_archive w') !! id);
  ag_rows : ∀ e, e ∈ evs → attempted e = true → ∃ r, r ∈ rows ∧ says e r;
  ag_said : ∀ r, r ∈ rows → ∃ e, e ∈ evs ∧ says e r }.
Definition agrees w w' : Prop := ∃ evs rows, agreement w w' evs rows.

#[local] Instance agrees_preorder : PreOrder agrees.
Proof.
  split.
  - intros w. exists [], []. split; rewrite ?app_nil_r; try done; intros; set_solver.
  - intros w1 w2 w3 (e1 & r1 & A) (e2 & r2 & B). exists (e1 ++ e2), (r1 ++ r2). split.
    + by rewrite (ag_events _ _ _ _ B), (ag_events _ _ _ _ A), app_assoc.
    + by rewrite (ag_runs _ _ _ _ B), (ag_runs _ _ _ _ A), app_assoc.
    + unfold tally. rewrite foldl_app. rewrite (ag_sum _ _ _ _ B), (ag_sum _ _ _ _ A). done.
    + intros id H. by apply (ag_kept _ _ _ _ B), (ag_kept _ _ _ _ A).
    + intros what d id [H|H]%elem_of_app; [by eapply (ag_kept _ _ _ _ B), (ag_taken _ _ _ _ A)|by eapply (ag_taken _ _ _ _ B)].
    + intros e [H|H]%elem_of_app Ha; [destruct (ag_rows _ _ _ _ A e H Ha) as (r & ? & ?)|destruct (ag_rows _ _ _ _ B e H Ha) as (r & ? & ?)];
        exists r; (split; [apply elem_of_app; tauto|done]).
    + intros r [H|H]%elem_of_app; [destruct (ag_said _ _ _ _ A r H) as (e & ? & ?)|destruct (ag_said _ _ _ _ B r H) as (e & ? & ?)];
        exists e; (split; [apply elem_of_app; tauto|done]).
Qed.

Lemma quiet_agrees w w' : quiet w w' → agrees w w'.
Proof. intros (H1 & H2 & _ & H4 & H5). exists [], []. split; rewrite ?app_nil_r; try done; intros; set_solver. Qed.
Lemma keeps_quiet_agrees {E A} (m : eff (World X) E A) : keeps quiet m → keeps agrees m.
Proof. intros H w. apply quiet_agrees, H. Qed.
Lemma agrees_emit e : attempted e = false → keeps agrees (emit (X := X) e).
Proof.
  intros He w. exists [e], []. split; cbn; rewrite ?app_nil_r; try done.
  - intros what d id H%list_elem_of_singleton. by subst e.
  - intros e' ->%list_elem_of_singleton. congruence.
  - intros r ?%elem_of_nil. done.
Qed.
Lemma agrees_failed what e : keeps agrees (emit (X := X) (FailedItem what None e)).
Proof. by apply agrees_emit. Qed.
Lemma agrees_not_covered what why : keeps agrees (emit (X := X) (NotCovered what why)).
Proof. by apply agrees_emit. Qed.
(** An attempt recorded and said, at once. *)
Lemma agrees_said e r now w :
  says e r → (∀ what d id, e = DoneItem what d id → is_Some (a_taken (w_archive now) !! id)) →
  w_events now = w_events w ++ [e] → a_runs (w_archive now) = a_runs (w_archive w) ++ [r] → w_sum now = count_event e (w_sum w) →
  (∀ id, is_Some (a_taken (w_archive w) !! id) → is_Some (a_taken (w_archive now) !! id)) → agrees w now.
Proof.
  intros Hs Ht He Hr Hc Hk. exists [e], [r]. split; try done.
  - intros what d id H%list_elem_of_singleton. by eapply Ht.
  - intros e' ->%list_elem_of_singleton _. exists r. split; [by left|done].
  - intros r' ->%list_elem_of_singleton. exists e. split; [by left|done].
Qed.
Lemma taken_after app dest id (a : Archive) k :
  is_Some (a_taken a !! k) → is_Some (a_taken (record_snapshot app dest id a) !! k).
Proof.
  intros Hk. cbn. destruct (a_taken a !! id) eqn:E; [done|].
  destruct (decide (k = id)) as [->|Hne]; [by rewrite lookup_insert_eq|by rewrite lookup_insert_ne].
Qed.
Lemma taken_itself app dest id (a : Archive) : is_Some (a_taken (record_snapshot app dest id a) !! id).
Proof. cbn. destruct (a_taken a !! id) eqn:E; [by rewrite E|by rewrite lookup_insert_eq]. Qed.

Definition result_ok {E A} (r : result E A) : option A := match r with Ok a => Some a | Err _ => None end.
Definition result_err {E A} (r : result E A) : option E := match r with Ok _ => None | Err e => Some e end.
Lemma agrees_record app kind what d outcome report :
  (∀ e, attempted e = true → report e = emit e) →
  keeps agrees (let! e := record (X := X) app kind what d outcome in report e).
Proof.
  intros Hrep w. set (now := sv_now (w_x w)).
  set (row := {| ru_app := app; ru_kind := kind; ru_destination := Some (de_name d); ru_snapshot := result_ok outcome;
                 ru_error := result_err outcome; ru_finished := now |}).
  destruct outcome as [id|err]; cbn -[record_snapshot record_backup_to]; rewrite Hrep by done.
  - apply agrees_said with (e := DoneItem what (de_name d) id) (r := row); try done.
    + intros ? ? ? [= <- <- <-]. apply taken_itself.
    + intros k Hk. apply taken_after, Hk.
  - by apply agrees_said with (e := FailedItem what (Some (de_name d)) err) (r := row).
Qed.
Lemma agrees_dump_failed app what e :
  keeps agrees (recorded_at (X := X) (λ now, record_backup now app SQL_DUMP None (Some e)) ;;! emit (FailedItem what None e)).
Proof.
  intros w. by apply agrees_said with (e := FailedItem what None e) (r := {| ru_app := app; ru_kind := SQL_DUMP; ru_destination := None; ru_snapshot := None;
    ru_error := Some e; ru_finished := sv_now (w_x w) |}).
Qed.
Lemma agrees_on_held {A} (m : eff (Holds * X) string A) : keeps agrees (on_held m).
Proof.
  intros w. unfold on_held. destruct (m _) as [r hx]. exists [], [].
  split; rewrite ?app_nil_r; try done; intros; set_solver.
Qed.
Lemma keeps_bind_assoc {A B C} (R : relation (World X)) (m : P X A) (f : A → P X B) (g : B → P X C) :
  keeps R (eff_bind (eff_bind m f) g) → keeps R (eff_bind m (λ a, eff_bind (f a) g)).
Proof. intros H w. specialize (H w). unfold eff_bind in *. by destruct (m w) as [[a|e] w1]. Qed.
#[local] Hint Resolve agrees_failed agrees_not_covered agrees_dump_failed agrees_on_held : quiet.
#[local] Hint Extern 1 (keeps agrees _) => (apply keeps_quiet_agrees; solve [auto 2 with quiet nocore]) : quiet.

Ltac agrees_steps :=
  repeat (intros; first
    [ solve [auto 2 with quiet nocore]
    | apply agrees_record; [by intros [] ?] | apply keeps_bind_assoc; eapply keeps_bind; [apply _|apply agrees_record; by intros [] ?|]
    | eapply keeps_bind; [apply _|..] | eapply keeps_when; [apply _|..]
    | eapply keeps_each; [apply _|..] | apply keeps_outcome_of | apply keeps_told
    | apply keeps_ret; apply _ | apply keeps_fail; apply _ | apply keeps_get; apply _ | apply keeps_of; apply _ | case_match ]); intros.

Lemma agrees_record_volumes app outcomes reached : keeps agrees (record_volumes (X := X) app outcomes reached).
Proof.
  revert reached. induction outcomes as [|[d o] outcomes IH]; intros reached; cbn [record_volumes]; agrees_steps.
Qed.
#[local] Hint Resolve agrees_record_volumes : quiet.
Lemma agrees_copy_volumes app volumes places due pass reached :
  keeps agrees (copy_volumes decrypt json_summary self app volumes places due pass reached).
Proof. unfold copy_volumes. agrees_steps. Qed.
#[local] Hint Resolve agrees_copy_volumes : quiet.
(** What takes the reports of a part of the pass. *)
Definition reporter (report : Event → P X ()) : Prop :=
  (∀ e, attempted e = true → report e = emit e) ∧ ∀ e, attempted e = false → keeps agrees (report e).
Lemma reporter_emit : reporter emit.
Proof. split; [done|]. intros. by apply agrees_emit. Qed.
Lemma reporter_emit_again : reporter emit_again.
Proof.
  split; [by intros []|]. intros e He. destruct e; cbn; [by apply agrees_emit..|apply keeps_ret; apply _].
Qed.
Lemma agrees_archive_to app kind what dump dests report :
  reporter report → keeps agrees (archive_to decrypt json_summary self app kind what dump dests report).
Proof.
  intros [Hr _]. unfold archive_to. eapply keeps_each; [apply _|]. intros d _. eapply keeps_bind; [apply _|..].
  - unfold dump_to. agrees_steps.
  - intros o. by apply agrees_record.
Qed.
#[local] Hint Resolve agrees_archive_to : quiet.
Lemma agrees_state_snapshot report :
  reporter report → keeps agrees (state_snapshot decrypt json_summary self report).
Proof.
  intros Hr. unfold state_snapshot. pose proof (proj2 Hr) as Hf. agrees_steps; by apply Hf.
Qed.
Lemma agrees_volumes_pass pass apps reached : keeps agrees (volumes_pass decrypt json_summary self pass apps reached).
Proof.
  revert reached. induction apps as [|[app status] apps IH]; intros reached; cbn [volumes_pass]; unfold volumes_of_app, volumes_to_backup; agrees_steps.
Qed.
Lemma agrees_buckets_of_app pass e : keeps agrees (buckets_of_app decrypt json_summary self pass e).
Proof. unfold buckets_of_app, bucket_to_dest, is_due. agrees_steps. Qed.
Lemma agrees_sqlite_found rows : keeps agrees (sqlite_found (X := X) self rows).
Proof. induction rows as [|[[[app v] mp] f] rows IH]; cbn [sqlite_found]; agrees_steps. Qed.
Lemma agrees_sqlite app v mp dests pass : keeps agrees (sqlite decrypt json_summary self app v mp dests pass).
Proof. unfold sqlite, sqlite_to. agrees_steps. Qed.
#[local] Hint Resolve agrees_archive_to reporter_emit reporter_emit_again agrees_state_snapshot agrees_volumes_pass agrees_buckets_of_app agrees_sqlite_found agrees_sqlite : quiet.

Definition is_done (e : Event) : bool := match e with DoneItem _ _ _ => true | _ => false end.
Definition is_failed (e : Event) : bool := match e with FailedItem _ _ _ => true | _ => false end.
Lemma tally_counts evs s :
  tally s evs = {| sm_done := (sm_done s + length (keep is_done evs))%nat; sm_failed := (sm_failed s + length (keep is_failed evs))%nat |}.
Proof.
  revert s. induction evs as [|e evs IH]; intros s; [destruct s; cbn; f_equal; lia|].
  change (tally s (e :: evs)) with (tally (count_event e s) evs). rewrite IH, !keep_cons.
  destruct s, e; cbn; f_equal; lia.
Qed.

(** C24. What a pass says is what it did, whatever failed in it and wherever it stopped: each attempt it
    recorded is told by an event and each event about a destination has its attempt recorded, with
    the snapshot or the error it tells; a snapshot said done is recorded as taken by this
    installation, so a restore takes it; and the summary counts the events. *)
Theorem pass_says_what_it_did w :
  ∃ evs rows, agreement (begun w) (run_pass decrypt json_summary self w).2 evs rows ∧
    ∀ sum, (run_pass decrypt json_summary self w).1 = Ok sum →
      sum = {| sm_done := length (keep is_done evs); sm_failed := length (keep is_failed evs) |}.
Proof.
  unfold run_pass. set (body := pass_steps decrypt json_summary self).
  assert (Hk : keeps agrees body).
  { subst body. unfold pass_steps, sqlite_pass, databases_pass, sqlite_of_volume, dump_database. agrees_steps. }
  assert (Hs : ∀ sum, (body (begun w)).1 = Ok sum → sum = w_sum (body (begun w)).2).
  { subst body. clear. unfold pass_steps, eff_bind, eff_get.
    repeat match goal with |- context [match ?m with _ => _ end] => destruct m as [[?|?] ?] end; cbn; congruence. }
  destruct (Hk (begun w)) as (evs & rows & Ha). exists evs, rows. split; [exact Ha|].
  intros sum E. rewrite (Hs sum E), (ag_sum _ _ _ _ Ha), tally_counts. done.
Qed.

(** *** Every destination *)

(** What is said of an outcome. *)
Definition answer (app : string) (o : Destination * result string string) : Event :=
  match o.2 with
  | Ok id => DoneItem (app +:+ " volumes") (de_name o.1) id
  | Err e => FailedItem (app +:+ " volumes") (Some (de_name o.1)) e
  end.
Lemma record_volumes_said app outcomes reached w :
  ∃ reached' w', record_volumes (X := X) app outcomes reached w = (Ok reached', w') ∧
    w_events w' = w_events w ++ (answer app <$> outcomes) ∧
    default [] (reached' !! app) = default [] (reached !! app) ++ omap (λ o, match o.2 with Ok _ => Some o.1 | Err _ => None end) outcomes.
Proof.
  revert reached w. induction outcomes as [|[d o] outcomes IH]; intros reached w; cbn [record_volumes].
  { exists reached, w. by rewrite !app_nil_r. }
  set (w1 := (record app VOLUME (app +:+ " volumes") d o w).2).
  assert (Hr : record app VOLUME (app +:+ " volumes") d o w = (Ok (answer app (d, o)), w1)) by (subst w1; by destruct o).
  assert (He : w_events w1 = w_events w) by (subst w1; by destruct o).
  unfold eff_bind at 1. rewrite Hr. unfold eff_bind, emit at 1, eff_put.
  match goal with |- context [record_volumes app outcomes ?rr ?ww] => destruct (IH rr ww) as (reached' & w' & -> & He' & Hd) end.
  exists reached', w'. split; [done|]. split.
  - rewrite He'. cbn [w_events]. by rewrite He, fmap_cons, <- app_assoc.
  - rewrite Hd. destruct o as [i|e]; cbn [omap list_omap snd fst]; [|done]. rewrite lookup_insert_eq. cbn [default from_option id]. by rewrite <- app_assoc.
Qed.


(** *** The copy before an update *)

Definition taken_in (id : string) w : Prop := is_Some (a_taken (w_archive w) !! id).
Lemma quiet_taken id w w' : quiet w w' → taken_in id w → taken_in id w'.
Proof. intros (_ & _ & _ & _ & H). apply H. Qed.
Lemma told_recorded app dest id w :
  told (archive_put (X := X) (record_snapshot app dest id)) w = (Ok (), with_archive (record_snapshot app dest id (w_archive w)) w).
Proof. done. Qed.
(** The [Ok] of a sequence. *)
Lemma snapshot_each_taken repo dest app tags paths last w id w' :
  snapshot_each json_summary repo dest app tags paths last w = (Ok id, w') → (paths = [] → taken_in last w) → taken_in id w'.
Proof.
  revert last w. induction paths as [|p paths IH]; intros last w; cbn [snapshot_each].
  - intros [= <- <-] H. by apply H.
  - intros (i & w1 & _ & H)%eff_bind_Ok _. apply eff_bind_Ok in H as ([] & w2 & E & H). rewrite told_recorded in E. injection E as <-.
    apply IH in H; [done|]. intros _. apply taken_itself.
Qed.
Lemma back_up_each_taken orchestrated net d password vars app sources tags places last w id w' :
  back_up_each json_summary orchestrated net d password vars app sources tags places last w = (Ok id, w') →
  Forall (λ pv, pv.2 ≠ []) places → (∀ i, last = Ok i → taken_in i w) → taken_in id w'.
Proof.
  revert last w. induction places as [|[place vs] places IH]; intros last w; cbn [back_up_each].
  - unfold eff_of. intros [= -> <-] _ H. by apply H.
  - intros (rl & w1 & _ & H)%eff_bind_Ok [Hv Hvs]%Forall_cons _. destruct rl as [r location]. apply eff_bind_Ok in H as (i & w2 & E & H).
    apply IH in H; [done|done|]. intros ? [= <-]. unfold snapshot in E. apply eff_bind_Ok in E as (_ & w3 & _ & E).
    apply snapshot_each_taken in E; [done|]. by intros ->%fmap_nil_inv.
Qed.
Lemma copy_buckets_each_taken repo dest tags buckets last w id w' :
  copy_buckets_each json_summary repo dest tags buckets last w = (Ok id, w') → (∀ i, last = Ok i → taken_in i w) → taken_in id w'.
Proof.
  revert last w. induction buckets as [|[[name endpoint] key] buckets IH]; intros last w; cbn [copy_buckets_each].
  - unfold eff_of. intros [= -> <-] H. by apply H.
  - intros (i & w1 & E & H)%eff_bind_Ok _. apply IH in H; [done|]. intros ? [= <-]. unfold bucket_snapshot in E.
    apply eff_bind_Ok in E as (j & w2 & _ & E). apply eff_bind_Ok in E as ([] & w3 & E & E'). rewrite told_recorded in E.
    injection E as <-. injection E' as <- <-. apply taken_itself.
Qed.
Lemma dump_each_taken pp app dbs last w id w' :
  dump_each json_summary pp app dbs last w = (Ok (Some id), w') → (∀ i, last = Some i → taken_in i w) → taken_in id w'.
Proof.
  revert last w. induction dbs as [|db dbs IH]; intros last w; cbn [dump_each].
  - intros [= -> <-] H. by apply H.
  - intros (i & w1 & E & H)%eff_bind_Ok _. apply IH in H; [done|]. intros ? [= <-]. unfold dump_first in E.
    apply eff_bind_Ok in E as (d & w2 & _ & E). destruct (pd_to db) as [dd creds].
    apply eff_bind_Ok in E as (j & w3 & _ & E). apply eff_bind_Ok in E as ([] & w4 & E & E'). rewrite told_recorded in E.
    injection E as <-. injection E' as <- <-. apply taken_itself.
Qed.

Lemma push_at_nonempty p v l : Forall (λ pv : Place * list string, pv.2 ≠ []) l → Forall (λ pv, pv.2 ≠ []) (push_at p v l).
Proof.
  induction l as [|[q vs] l IH]; cbn [push_at]; [by repeat constructor|]. intros [Hv Hl]%Forall_cons.
  destruct (place_cmp p q); repeat (constructor; cbn; try done); [by destruct vs|by apply IH].
Qed.
Lemma locate_volumes_nonempty orchestrated volumes services x :
  volumes ≠ [] → Forall (λ pv : Place * list string, pv.2 ≠ []) (locate_volumes (X := X) orchestrated volumes services x).1.
Proof.
  intros Hv. unfold locate_volumes. assert (H1 : ∀ p : Place, Forall (λ pv : Place * list string, pv.2 ≠ []) [(p, volumes)]) by (by repeat constructor).
  destruct (negb orchestrated); [apply H1|]. destruct (px_local_node x) as [[[local|]|e] x1]; [|apply H1..].
  destruct (px_tasks x1) as [tasks x2]. destruct (px_nodes x2) as [nodes x3]. cbn [fst].
  destruct tasks as [tasks|], nodes as [nodes|]; [|apply H1..].
  unfold locate. assert (H : ∀ l out, Forall (λ pv : Place * list string, pv.2 ≠ []) out →
    Forall (λ pv, pv.2 ≠ []) (foldl (λ out v, push_at (place_of services tasks nodes (Some local) v) v out) out l)).
  { induction l as [|v l IH]; intros out Ho; [done|]. cbn [foldl]. by apply IH, push_at_nonempty. }
  by apply H.
Qed.

Section prior.
Context (pp : PlacedProvider) (orchestrated : bool).

Lemma quiet_copy_and_back_up app places to stopped :
  keeps quiet (copy_and_back_up json_summary pp orchestrated app places to stopped).
Proof.
  unfold copy_and_back_up, declared, take_copies. eapply keeps_bind; [apply _|quiet_steps|]. intros copies.
  eapply keeps_bind; [apply _|quiet_steps|]. intros sources w.
  pose proof (quiet_back_up_each orchestrated (pp_network pp) to.1 (pp_password pp) to.2 app sources
    (BACKED_UP :: option_list (if stopped then Some STOPPED_TAG else None)) places (Err ("no volume of " +:+ app +:+ " to back up")) w) as H.
  unfold back_up_where_they_are. destruct (back_up_each _ _ _ _ _ _ _ _ _ _ _ w) as [taken w1]. cbn [snd] in *.
  etransitivity; [exact H|]. apply quiet_clear_all.
Qed.
Lemma copy_and_back_up_taken app places to stopped w id w' :
  copy_and_back_up json_summary pp orchestrated app places to stopped w = (Ok id, w') →
  Forall (λ pv, pv.2 ≠ []) places → taken_in id w'.
Proof.
  unfold copy_and_back_up. intros (copies & w1 & _ & H)%eff_bind_Ok Hp. apply eff_bind_Ok in H as (sources & w2 & _ & H).
  unfold back_up_where_they_are in H. destruct (back_up_each _ _ _ _ _ _ _ _ _ _ _ w2) as [r w3] eqn:E.
  injection H as -> <-. apply back_up_each_taken in E; [|done|done].
  eapply quiet_taken; [apply quiet_clear_all|exact E].
Qed.

(** What a copy before an update leaves: nothing held, and its snapshot recorded as taken. *)
Lemma copy_volumes_first_spec app volumes to w r w' :
  copy_volumes_first json_summary pp orchestrated app volumes to w = (r, w') →
  released w w' ∧ (∀ i, taken_in i w → taken_in i w') ∧ (volumes ≠ [] → ∀ id, r = Ok id → taken_in id w').
Proof.
  unfold copy_volumes_first. unfold eff_bind at 1, askt. cbn [w_x].
  pose proof (locate_volumes_nonempty orchestrated volumes (default [] (pp_services pp !! app)) (w_x w)) as Hl.
  destruct (locate_volumes _ _ _ _) as [places x0]. cbn [fst] in Hl. set (w0 := with_x x0 w).
  assert (Hn : keeps quiet (told (X := X) (stopped_for_update_copy app))) by (unfold stopped_for_update_copy; quiet_steps).
  specialize (Hn w0). unfold eff_bind at 1. destruct (told _ w0) as [[names|e] w1]; cbn [fst snd] in *; cycle 1.
  { intros [= <- <-]. split_and!; [by apply (quiet_released w0)|intros i; by apply (quiet_taken i w0)|intros _ id [=]]. }
  assert (H01 : released w w1) by (by apply (quiet_released w0)).
  assert (K01 : ∀ i, taken_in i w → taken_in i w1) by (intros i; by apply (quiet_taken i w0)).
  unfold eff_bind, on_held at 1. destruct (stop_for_copy _ _ _ _) as [stopped [h2 x2]] eqn:Es. apply stop_for_copy_holds in Es as [Hne Hst].
  destruct stopped as [stopped|e]; cycle 1.
  { intros [= <- <-]. split_and!; [|done|intros _ id [=]]. intros s row. cbn. destruct (Hst s) as [->| ->]; [apply H01|done]. }
  set (w2 := with_held (h2, x2) w1).
  pose proof (quiet_copy_and_back_up app places to (bool_decide (is_Some stopped)) w2) as Hq.
  destruct (copy_and_back_up _ _ _ _ _ _ _ w2) as [taken w3] eqn:Ec. cbn [snd] in Hq.
  pose proof (λ id, copy_and_back_up_taken app places to (bool_decide (is_Some stopped)) w2 id w3) as Ht. rewrite Ec in Ht.
  assert (Hmono : ∀ i, taken_in i w → taken_in i w3) by (intros i Hi; apply (quiet_taken i w2); [done|by apply K01]).
  destruct Hq as (_ & _ & Hh & _). destruct stopped as [services|].
  - destruct (on_held (start services) w3) as [started w4] eqn:E4. unfold on_held in E4.
    pose proof (start_holds services (w_holds w3) (w_x w3)) as Hs. destruct (start services _) as [r4 [h4 x4]]. injection E4 as <- <-.
    cbn [fst snd] in Hs. intros [= <- <-]. split_and!; [|done|].
    + intros s row. cbn. rewrite Hs, release_lookup, Hst. destruct (decide _) as [|Hn']; [done|]. rewrite Hh. cbn. rewrite Hne by done. apply H01.
    + intros Hv id Hid. destruct taken as [id'|t], r4; try done. injection Hid as ->. by apply Ht; [|apply Hl].
  - intros [= <- <-]. split_and!; [|done|].
    + intros s row. rewrite Hh. cbn. rewrite Hst. apply H01.
    + intros Hv id ->. by apply Ht; [|apply Hl].
Qed.

Lemma quiet_connect_each refused endpoint key names : keeps quiet (connect_each (X := X) refused endpoint key names).
Proof. induction names as [|name names IH]; cbn [connect_each]; unfold bucket_at; quiet_steps. Qed.
Lemma quiet_buckets_to_read app : keeps quiet (buckets_to_read (X := X) pp app).
Proof. unfold buckets_to_read. pose proof quiet_connect_each. quiet_steps. Qed.
Lemma quiet_copy_buckets_each repo dest tags buckets last :
  keeps quiet (copy_buckets_each json_summary repo dest tags buckets last).
Proof. revert last. induction buckets as [|[[name endpoint] key] buckets IH]; intros last; cbn [copy_buckets_each]; unfold bucket_snapshot; quiet_steps. Qed.
Lemma quiet_copy_buckets app buckets to : keeps quiet (copy_buckets json_summary pp app buckets to).
Proof. unfold copy_buckets. pose proof quiet_copy_buckets_each. quiet_steps. Qed.
Lemma quiet_dump_each app dbs last : keeps quiet (dump_each json_summary pp app dbs last).
Proof. revert last. induction dbs as [|db dbs IH]; intros last; cbn [dump_each]; unfold dump_first; quiet_steps. Qed.

(** The volumes of an update's copy, when it has any. *)
Lemma volumes_first_spec app w r w' :
  volumes_first json_summary pp orchestrated app w = (r, w') →
  released w w' ∧ (pp_volumes pp !! app ≠ Some [] → ∀ id, r = Ok (Some id) → taken_in id w').
Proof.
  unfold volumes_first. destruct (pp_volumes pp !! app) as [volumes|]; [|by intros [= <- <-]].
  destruct (pp_volumes_to pp) as [to|]; [|by intros [= <- <-]].
  unfold eff_bind. destruct (copy_volumes_first _ _ _ _ _ _ w) as [c w1] eqn:E.
  apply copy_volumes_first_spec in E as (Hr & _ & Ht). destruct c as [i|e]; intros [= <- <-]; (split; [done|]); intros Hv id [=].
  subst i. apply Ht; [congruence|done].
Qed.
Lemma quiet_buckets_first app buckets last : keeps quiet (buckets_first json_summary pp app buckets last).
Proof. unfold buckets_first. pose proof quiet_copy_buckets. quiet_steps. Qed.
Lemma buckets_first_taken app buckets last w id w' :
  buckets_first json_summary pp app buckets last w = (Ok (Some id), w') → (∀ i, last = Some i → taken_in i w) → taken_in id w'.
Proof.
  unfold buckets_first. destruct buckets as [|b buckets]; [intros [= -> <-] H; by apply H|].
  destruct (pp_volumes_to pp) as [to|]; [|intros [= -> <-] H; by apply H].
  intros (i & w1 & E & H)%eff_bind_Ok _. injection H as -> ->. unfold copy_buckets in E. destruct (runner _ _ _) as [rn location].
  apply eff_bind_Ok in E as (? & w2 & _ & E). by apply copy_buckets_each_taken in E.
Qed.

End prior.
End laws.
