(* ===== verification/Replication.v ===== *)
(** * Streaming replication

    [crates/hlb-backup/src/replication.rs]: the name of a standby's slot, what the primary says of
    its standbys and slots, and whether a standby can be promoted without losing anything. *)

From S2P Require Import Prelude RustStr.

#[local] Open Scope hlb_scope.
#[local] Open Scope Z_scope.

(** ** Slots *)

(** [to_lowercase], then an underscore for each character that is not an ASCII letter or digit:
    of the others two become ones, as [RustStr.to_lowercase] says.
    @ hlb-backup/src/replication.rs:55-59 [slot_name] *)
Fixpoint slot_chars (s : string) : string :=
  match s with
  | "" => ""
  | String a s1 =>
      let one rest := if is_alnum a then String (ascii_lower a) rest
                      else if is_cont a then rest else String "_" rest in
      match s1 with
      | String b s2 =>
          if ((byte_of a =? 196) && (byte_of b =? 176))%N then String "i" (String "_" (slot_chars s2))
          else match s2 with
               | String c s3 =>
                   if ((byte_of a =? 226) && (byte_of b =? 132) && (byte_of c =? 170))%N
                   then String "k" (slot_chars s3) else one (slot_chars s1)
               | "" => one (slot_chars s1)
               end
      | "" => one (slot_chars s1)
      end
  end.

(** @ hlb-backup/src/replication.rs:50-67 [slot_name] *)
Definition slot_name (standby : string) : result string string :=
  let sanitized := slot_chars standby in
  if str_is_empty sanitized || (55 <? String.length sanitized)%nat
  then Err (quoted_str standby +:+ ": standby name unusable as a slot (1 to 55 characters)")
  else Ok ("hlb_" +:+ sanitized).

(** @ hlb-backup/src/replication.rs:40-48 [MAX_SLOT_WAL_KEEP] *)
Definition MAX_SLOT_WAL_KEEP : string := "8GB".

(** The settings, without their comments: [max_standbys + 2] wraps.
    @ hlb-backup/src/replication.rs:69-97 [primary_settings] *)
Definition primary_settings (max_standbys : N) : list (string * string) :=
  [("wal_level", "replica"); ("max_wal_senders", show_N (wrap_u32 (max_standbys + 2)));
   ("max_replication_slots", show_N (wrap_u32 (max_standbys + 2)));
   ("max_slot_wal_keep_size", MAX_SLOT_WAL_KEEP); ("synchronous_commit", "on"); ("synchronous_standby_names", "''")].
(** @ hlb-backup/src/replication.rs:110-133 [standby_settings] *)
Definition standby_settings (primary_host : string) (port : N) (slot user : string) : list (string * string) :=
  [("primary_conninfo", "'host=" +:+ primary_host +:+ " port=" +:+ show_N port +:+ " user=" +:+ user +:+
      " password=… application_name=" +:+ slot +:+ "'");
   ("primary_slot_name", "'" +:+ slot +:+ "'"); ("hot_standby", "on"); ("hot_standby_feedback", "on")].

(** ** Standbys *)

(** @ hlb-backup/src/replication.rs:168-176 [StandbyStatus] *)
Record StandbyStatus := { application_name : string; sb_state : string; lag_bytes : option Z }.
#[global] Instance StandbyStatus_eq_dec : EqDecision StandbyStatus.
Proof. solve_decision. Defined.
(** @ hlb-backup/src/replication.rs:178-189 [Health] *)
Inductive Health := Streaming | CatchingUp | Lagging | Disconnected.
#[global] Instance Health_eq_dec : EqDecision Health.
Proof. solve_decision. Defined.
(** @ hlb-backup/src/replication.rs:191-196 [MAX_LAG_BYTES] *)
Definition MAX_LAG_BYTES : Z := 64 * 1024 * 1024.

(** @ hlb-backup/src/replication.rs:218-227 [StandbyStatus::health] *)
Definition health (s : StandbyStatus) : Health :=
  if sb_state s ==? "streaming" then
    match lag_bytes s with
    | Some l => if MAX_LAG_BYTES <? l then Lagging else Streaming
    | None => CatchingUp
    end
  else if bool_decide (sb_state s ∈ ["catchup"; "startup"]) then CatchingUp
  else Lagging.

(** @ hlb-backup/src/replication.rs:147-166 [indistinguishable] *)
Definition indistinguishable (standbys : list StandbyStatus) : list string :=
  let names := sort_by String.compare (application_name <$> standbys) in
  foldl (λ ambiguous name,
    if (1 <? length (keep (λ n, n ==? name) names))%nat && negb (bool_decide (name ∈ ambiguous))
    then ambiguous ++ [name] else ambiguous) [] names.

(** @ hlb-backup/src/replication.rs:208-215 [size] *)
Definition size_text (bytes : Z) : string :=
  if bytes <? 1024 then show_Z bytes +:+ " B"
  else if bytes <? 1024 * 1024 then show_Z (Z.quot bytes 1024) +:+ " KB"
  else show_Z (Z.quot bytes (1024 * 1024)) +:+ " MB".

(** @ hlb-backup/src/replication.rs:229-247 [StandbyStatus::describe] *)
Definition describe_standby (s : StandbyStatus) : string :=
  let lag := match lag_bytes s with Some l => size_text l | None => "?" end in
  match health s with
  | Streaming => "✓ " +:+ application_name s +:+ " is keeping up (" +:+ lag +:+ " behind)"
  | CatchingUp => "🟠 " +:+ application_name s +:+ " is catching up (" +:+ lag +:+ ")"
  | Lagging => "🔴 " +:+ application_name s +:+ " has fallen behind — state " +:+ quoted_str (sb_state s) +:+
               ", " +:+ lag +:+ " behind"
  | Disconnected => "🔴 " +:+ application_name s +:+ " is no longer connected"
  end.

(** @ hlb-backup/src/replication.rs:250-258 [OrphanSlot] *)
Record OrphanSlot := { os_name : string; retained_bytes : Z; invalidated : bool }.
(** @ hlb-backup/src/replication.rs:260-268 [OrphanSlot::is_dangerous] *)
Definition is_dangerous (s : OrphanSlot) : bool := negb (invalidated s) && (MAX_LAG_BYTES <? retained_bytes s).

(** ** Promotion *)

(** @ hlb-backup/src/replication.rs:312-327 [Promotion] *)
Inductive Promotion :=
| Switchover
| SwitchoverWouldLose (bytes : Z)
| LagUnknown
| Failover (last_known_lag : option Z)
| UnknownStandby.
(** @ hlb-backup/src/replication.rs:329-351 [Promotion::decide] *)
Definition decide_promotion (standbys : option (list StandbyStatus)) (target : string) : Promotion :=
  match standbys with
  | None => Failover None
  | Some l =>
      match find_first (λ s, application_name s ==? target) l with
      | None => UnknownStandby
      | Some s =>
          match health s, lag_bytes s with
          | Streaming, Some 0 => Switchover
          | _, Some bytes => SwitchoverWouldLose bytes
          | _, None => LagUnknown
          end
      end
  end.
(** @ hlb-backup/src/replication.rs:353-359 [Promotion::is_safe] *)
Definition is_safe (p : Promotion) : bool := match p with Switchover => true | _ => false end.
(** @ hlb-backup/src/replication.rs:361-390 [Promotion::describe] *)
Definition describe_promotion (p : Promotion) : string :=
  match p with
  | Switchover => "the standby is keeping up: promoting it loses nothing"
  | SwitchoverWouldLose bytes => "the standby is " +:+ size_text bytes +:+ " behind. Promoting it now DROPS what it has " +:+
      "not replayed - stop the writes and let it catch up first"
  | LagUnknown => "the standby has replayed nothing the primary can measure: what promoting it would drop is unknown"
  | Failover (Some l) => "the primary does not answer. The last known lag was " +:+ show_Z (Z.quot l (1024 * 1024)) +:+
      " MB, and it may have written since: what is lost cannot be known from here"
  | Failover None => "the primary does not answer: what is lost cannot be known from here"
  | UnknownStandby => "this standby is not replicating: it is absent from pg_stat_replication, and its copy is frozen " +:+
      "at whenever it last connected"
  end.

(** ** What the primary answers *)

(** The field of a line, [""] past the last. *)
Definition column (l : list string) (n : nat) : string := trim (default "" (l !! n)).
(** @ hlb-backup/src/replication.rs:409-420 [parse_standbys] *)
Definition standby_of (line : string) : option StandbyStatus :=
  let c := split_char "|" (trim line) in
  if str_is_empty (column c 0) then None
  else Some {| application_name := column c 0; sb_state := column c 1; lag_bytes := c !! 2%nat ≫= λ v, parse_i64 (trim v) |}.
(** @ hlb-backup/src/replication.rs:403-422 [parse_standbys] *)
Definition parse_standbys (output : string) : list StandbyStatus := omap standby_of (lines output).
(** @ hlb-backup/src/replication.rs:430-446 [parse_slots] *)
Definition slot_of (line : string) : option OrphanSlot :=
  let c := split_char "|" (trim line) in
  if str_is_empty (column c 0) then None
  else if column c 1 ==? "t" then None
  else Some {| os_name := column c 0; retained_bytes := default 0 (c !! 2%nat ≫= λ v, parse_i64 (trim v));
               invalidated := column c 3 ==? "t" |}.
(** @ hlb-backup/src/replication.rs:424-448 [parse_slots] *)
Definition parse_slots (output : string) : list OrphanSlot := omap slot_of (lines output).

(** ** Theorems *)

(** A promotion is called safe only when it loses nothing: the primary answered, the standby
    it names is streaming, and the lag the primary measures is exactly zero. A silent primary, a
    standby it does not list, a lag it cannot measure and a standby that streams behind are not. *)
Theorem promotion_safe_iff standbys target :
  is_safe (decide_promotion standbys target) = true ↔
    ∃ before s after, standbys = Some (before ++ s :: after) ∧
      Forall (λ s, application_name s ≠ target) before ∧
      application_name s = target ∧ sb_state s = "streaming" ∧ lag_bytes s = Some 0.
Proof.
  unfold decide_promotion. destruct standbys as [l|]; cycle 1.
  { split; [done|]. by intros (? & ? & ? & ? & _). }
  split.
  - destruct (find_first _ l) as [s|] eqn:E; [|done].
    apply find_first_Some in E as (before & after & -> & Hs & Hb). apply bool_decide_eq_true in Hs.
    unfold health. case_bool_decide as Hst.
    + destruct (lag_bytes s) as [lag|] eqn:El; [|done]. destruct (MAX_LAG_BYTES <? lag); [done|].
      destruct lag; try done. intros _. exists before, s, after. repeat split; try done.
      eapply Forall_impl; [exact Hb|]. intros x Hx. by apply bool_decide_eq_false in Hx.
    + case_bool_decide; destruct (lag_bytes s); done.
  - intros (before & s & after & [= ->] & Hb & Hs & Hst & Hl).
    assert (E : find_first (λ s, application_name s ==? target) (before ++ s :: after) = Some s).
    { apply find_first_Some. exists before, after. split; [done|]. split; [by apply bool_decide_eq_true|].
      eapply Forall_impl; [exact Hb|]. intros x Hx. by apply bool_decide_eq_false. }
    rewrite E. unfold health. rewrite Hst, Hl. done.
Qed.

(** A character a slot's name may hold. *)
Definition slot_char (c : ascii) : bool := is_digit c || is_lower c || bool_decide (c = "_"%char).

Lemma slot_chars_valid s : str_all slot_char (slot_chars s) = true.
Proof.
  assert (H : ∀ n s, (String.length s < n)%nat → str_all slot_char (slot_chars s) = true); [|exact (H (S (String.length s)) s (Nat.lt_succ_diag_r _))].
  clear s. induction n as [|n IH]; [lia|]. intros [|a s1] Hl; [done|]. cbn [String.length] in Hl.
  assert (Hone : ∀ rest, str_all slot_char rest = true →
    str_all slot_char (if is_alnum a then String (ascii_lower a) rest
                       else if is_cont a then rest else String "_" rest) = true).
  { intros rest Hr. destruct (is_alnum a) eqn:E; [|by destruct (is_cont a)]. cbn [str_all]. rewrite Hr.
    clear -E. by destruct a as [[] [] [] [] [] [] [] []]. }
  cbn [slot_chars]. destruct s1 as [|b s2]; [apply Hone; done|]. cbn [String.length] in Hl.
  destruct (_ && _)%N; [cbn [str_all]; rewrite IH by lia; done|].
  destruct s2 as [|c s3]; [apply Hone, IH; cbn; lia|]. cbn [String.length] in Hl.
  destruct (_ && _ && _)%N; [cbn [str_all]; rewrite IH by lia; done|]. apply Hone, IH. cbn. lia.
Qed.

(** A slot's name is one PostgreSQL takes, whatever the host is called: lower-case letters,
    digits and underscores, never empty, and at most 59 characters of the 63 an identifier has. *)
Theorem slot_name_valid standby slot :
  slot_name standby = Ok slot →
  str_all slot_char slot = true ∧ (4 < String.length slot <= 59)%nat ∧ ∃ r, slot = "hlb_" +:+ r.
Proof.
  unfold slot_name. destruct (_ || _) eqn:E; [done|]. intros [= <-].
  apply orb_false_iff in E as [He Hl]. apply Nat.ltb_ge in Hl. split.
  - rewrite str_all_append. by rewrite slot_chars_valid.
  - split; [|by eexists]. rewrite string_length_append. cbn [String.length].
    destruct (slot_chars standby); [done|cbn in *; lia].
Qed.

Lemma slot_name_valid_witness : ∃ slot, slot_name "Box-7.lan" = Ok slot ∧ slot = "hlb_box_7_lan" ∧
  str_all slot_char slot = true.
Proof.
  exists "hlb_box_7_lan". split; [reflexivity|]. split; [reflexivity|].
  exact (proj1 (slot_name_valid "Box-7.lan" "hlb_box_7_lan" eq_refl)).
Defined.

(** Standbys that cannot be told apart are all named, once each, and no other is: a name is in
    the list exactly when two standbys at least announce it. *)
Theorem indistinguishable_spec standbys name :
  NoDup (indistinguishable standbys) ∧
  (name ∈ indistinguishable standbys ↔
    (2 <= length (keep (λ s, application_name s ==? name) standbys))%nat).
Proof.
  unfold indistinguishable. set (names := sort_by String.compare _).
  assert (Hp : names ≡ₚ application_name <$> standbys) by apply sort_by_perm.
  assert (Hcount : ∀ n, length (keep (λ m, m ==? n) names) = length (keep (λ s, application_name s ==? n) standbys)).
  { intros n. unfold keep. rewrite Hp. clear. induction standbys as [|s l IH]; [done|].
    rewrite fmap_cons, !filter_cons. cbn. repeat case_decide; cbn; congruence. }
  set (many := λ n, (1 <? length (keep (λ m, m ==? n) names))%nat).
  assert (Hgo : ∀ l acc, NoDup acc →
    let out := foldl (λ ambiguous n, if many n && negb (bool_decide (n ∈ ambiguous)) then ambiguous ++ [n] else ambiguous) acc l in
    NoDup out ∧ ∀ n, n ∈ out ↔ n ∈ acc ∨ (n ∈ l ∧ many n = true)).
  { induction l as [|m l IH]; intros acc Hnd; cbn [foldl].
    - split; [done|]. intros n. rewrite elem_of_nil. tauto.
    - destruct (many m) eqn:Em; cbn [andb]; [case_bool_decide as Hin; cbn [negb]|].
      + destruct (IH acc Hnd) as [H1 H2]. split; [done|]. intros n. rewrite H2, elem_of_cons. split; intros; destruct_or?; destruct_and?; destruct_or?; subst; tauto.
      + destruct (IH (acc ++ [m])) as [H1 H2].
        { apply NoDup_app. split; [done|]. split; [|apply NoDup_singleton].
          intros x Hx ->%list_elem_of_singleton. done. }
        split; [done|]. intros n. rewrite H2, elem_of_app, list_elem_of_singleton, elem_of_cons. split; intros; destruct_or?; destruct_and?; subst; tauto.
      + destruct (IH acc Hnd) as [H1 H2]. split; [done|]. intros n. rewrite H2, elem_of_cons. split; intros; destruct_or?; destruct_and?; destruct_or?; subst; [tauto|tauto|tauto|congruence|tauto]. }
  destruct (Hgo names [] ltac:(constructor)) as [H1 H2]. split; [exact H1|].
  rewrite <- Hcount. etrans; [apply (H2 name)|]. unfold many. rewrite Nat.ltb_lt, elem_of_nil. split; [lia|].
  intros Hl. right. split; [|lia]. destruct (keep _ names) as [|x l] eqn:E; [cbn in Hl; lia|].
  assert (Hx : x ∈ keep (λ m, m ==? name) names) by (rewrite E; by left).
  apply elem_of_keep in Hx as [Hx%bool_decide_eq_true Hin]. by subst.
Qed.
