(* ===== verification/Trail.v ===== *)
(** * The audit log

    [crates/hlb-state/src/lib.rs]: who did what, each entry carrying the fingerprint of the
    one before it. The log is the rows of [audit_log] in the order of their ids; SQLite gives
    an entry its id and its date. Entries written before the chaining have no fingerprint. *)

From S2P Require Import Prelude RustStr Encoding Rbac.

(** @ hlb-state/src/lib.rs:376-392 [AuditRecord] *)
Record AuditRecord := {
  au_id : Z; au_at : string; au_actor : string; au_role : string; au_action : string;
  au_target : string; au_outcome : string; au_detail : option string }.

(** A row of [audit_log]: the entry and its place in the chain. *)
Record AuditRow := {
  ro_entry : AuditRecord; ro_prev_hash : option string; ro_hash : option string }.

Abbreviation Log := (list AuditRow).

(** @ hlb-state/src/lib.rs:395-407 [AuditIntegrity] *)
Inductive AuditIntegrity :=
| Intact (verified unchained : nat) (since_entry : option Z)
| Broken (at_entry : Z) (detail : string).

(** @ hlb-state/src/lib.rs:410-412 [AuditIntegrity::is_intact] *)
Definition is_intact (i : AuditIntegrity) : bool :=
  match i with Intact _ _ _ => true | Broken _ _ => false end.

(** @ hlb-state/src/lib.rs:414-445 [AuditIntegrity::describe] *)
Definition integrity_describe (i : AuditIntegrity) : string :=
  match i with
  | Intact 0%nat unchained _ =>
      "no chained entry (" +:+ show_nat unchained +:+
      " predating the chaining, outside the guarantee)"
  | Intact verified 0%nat _ =>
      "chain intact, " +:+ show_nat verified +:+ " " +:+
      (if (verified =? 1)%nat then "entry" else "entries") +:+ " verified"
  | Intact verified unchained since_entry =>
      "chain intact since entry " +:+ show_Z (default 0%Z since_entry) +:+ ": " +:+
      show_nat verified +:+ " verified, " +:+ show_nat unchained +:+
      " predating the chaining and therefore outside the guarantee"
  | Broken at_entry detail =>
      "🔴 CHAIN BROKEN at entry " +:+ show_Z at_entry +:+ ": " +:+ detail
  end.

(** @ hlb-state/src/lib.rs:492-494 [entry_fingerprint] *)
Definition prefixed (field : string) : string :=
  show_nat (String.length field) +:+ ":" +:+ field.

(** @ hlb-state/src/lib.rs:486-495 [entry_fingerprint] *)
Definition entry_text (fields : list string) : string :=
  foldr (λ field rest, prefixed field +:+ rest) "" fields.

(** @ hlb-state/src/lib.rs:475-497 [entry_fingerprint] *)
Definition entry_fingerprint (prev : option string) (fields : list string)
    (detail : option string) : string :=
  sha256_hex (bytes_of (entry_text (default "" prev :: fields ++ [default "" detail]))).

(** The fields a fingerprint covers.
    @ hlb-state/src/lib.rs:1616-1619 [State::verify_audit_chain] *)
Definition fields_of (e : AuditRecord) : list string :=
  [au_at e; au_actor e; au_role e; au_action e; au_target e; au_outcome e].

Definition next_id (log : Log) : Z :=
  match last log with Some r => (au_id (ro_entry r) + 1)%Z | None => 1%Z end.

(** @ hlb-state/src/lib.rs:1403-1464 [State::audit] *)
Definition audit (now : string) (actor : string) (role : Role) (action target outcome : string)
    (detail : option string) (log : Log) : Log :=
  let previous := last log ≫= ro_hash in
  let e := {| au_id := next_id log; au_at := now; au_actor := actor; au_role := role_as_str role;
              au_action := action; au_target := target; au_outcome := outcome;
              au_detail := detail |} in
  log ++ [{| ro_entry := e; ro_prev_hash := previous;
             ro_hash := Some (entry_fingerprint previous (fields_of e) detail) |}].

(** @ hlb-state/src/lib.rs:1585-1638 [State::verify_audit_chain] *)
Fixpoint verify_go (verified unchained : nat) (since : option Z) (expected : option string)
    (rows : Log) : AuditIntegrity :=
  match rows with
  | [] => Intact verified unchained since
  | r :: rows =>
      match ro_hash r with
      | None => verify_go verified (S unchained) since expected rows
      | Some hash =>
          let id := au_id (ro_entry r) in
          if bool_decide (is_Some since) && negb (ro_prev_hash r ==? expected) then
            Broken id ("the entry does not name the fingerprint of the one before it: an " +:+
                       "entry was removed or inserted")
          else if negb (entry_fingerprint (ro_prev_hash r) (fields_of (ro_entry r))
                          (au_detail (ro_entry r)) ==? hash) then
            Broken id ("the entry's content no longer matches its fingerprint: it was " +:+
                       "modified after the fact")
          else
            verify_go (S verified) unchained (Some (default id since)) (Some hash) rows
      end
  end.

(** @ hlb-state/src/lib.rs:1566-1639 [State::verify_audit_chain] *)
Definition verify_audit_chain (log : Log) : AuditIntegrity := verify_go 0 0 None None log.

(** Newest first. *)
Definition newest (a b : AuditRecord) : comparison :=
  then_with (String.compare (au_at b) (au_at a)) (Z.compare (au_id b) (au_id a)).

(** @ hlb-state/src/lib.rs:1466-1493 [State::audit_trail] *)
Definition audit_trail (limit : nat) (log : Log) : list AuditRecord :=
  take limit (sort_by newest (ro_entry <$> log)).

(** @ hlb-state/src/lib.rs:1357-1382 [State::audit_for] *)
Definition audit_for (target : string) (limit : nat) (log : Log) : list AuditRecord :=
  take limit (sort_by newest (keep (λ e, au_target e ==? target) (ro_entry <$> log))).

(** @ hlb-state/src/lib.rs:621 [APP_REMOVED] *)
Definition APP_REMOVED : string := "app-remove".

(** @ hlb-state/src/lib.rs:1344-1355 [State::app_was_removed] *)
Definition app_was_removed (app : string) (log : Log) : bool :=
  any_of (λ e, (au_action e ==? APP_REMOVED) && (au_target e ==? app) && (au_outcome e ==? "ok"))
    (ro_entry <$> log).

(** ** The text of an entry *)

Lemma prefixed_inj a b s t : prefixed a +:+ s = prefixed b +:+ t → a = b ∧ s = t.
Proof.
  unfold prefixed. rewrite !append_assoc. intros H.
  assert (Hs : ∀ f r, split_once ":" (show_nat (String.length f) +:+ ":" +:+ r) =
    Some (show_nat (String.length f), r)).
  { intros f r. apply split_once_append, show_N_no_char. done. }
  pose proof (Hs a (a +:+ s)) as Ha. rewrite H, Hs in Ha. injection Ha as El Er.
  apply show_N_inj in El.
  assert (Hl : String.length b = String.length a) by lia. clear - Er Hl.
  revert b Hl Er. induction a as [|c a IH]; intros [|d b]; cbn [String.length]; [|done..|].
  - intros _ E. by split.
  - intros [= Hl]. rewrite !append_cons. intros [= -> E]. destruct (IH b Hl E) as [-> ->]. done.
Qed.

Lemma entry_text_inj l k : length l = length k → entry_text l = entry_text k → l = k.
Proof.
  revert k. induction l as [|a l IH]; intros [|b k]; [done..|]. cbn. intros [= Hl] H.
  apply prefixed_inj in H as [-> H]. by rewrite (IH k Hl H).
Qed.

(** What a fingerprint covers of a row: everything but its id. An absent detail reads as an
    empty one. *)
Definition covered (r : AuditRow) : list string :=
  default "" (ro_prev_hash r) :: fields_of (ro_entry r) ++ [default "" (au_detail (ro_entry r))].

(** Two rows that collide: one fingerprint for different contents. *)
Definition collide (r r' : AuditRow) : Prop :=
  entry_text (covered r) ≠ entry_text (covered r') ∧
  sha256_hex (bytes_of (entry_text (covered r))) = sha256_hex (bytes_of (entry_text (covered r'))).

Definition chained (log : Log) : Log := keep (λ r, bool_decide (is_Some (ro_hash r))) log.

Lemma chained_cons r log :
  chained (r :: log) = if ro_hash r is Some _ then r :: chained log else chained log.
Proof. unfold chained. rewrite keep_cons. by destruct (ro_hash r). Qed.

(** ** What verifying concludes *)

(** A row whose fingerprint is its content's. *)
Definition sealed (r : AuditRow) : Prop :=
  ro_hash r = Some (sha256_hex (bytes_of (entry_text (covered r)))).

(** Each row names the fingerprint of the one before it. *)
Fixpoint linked (expected : option string) (rows : Log) : Prop :=
  match rows with
  | [] => True
  | r :: rows => ro_prev_hash r = expected ∧ sealed r ∧ linked (ro_hash r) rows
  end.

(** The first covered entry names what nobody can check. *)
Definition chain (rows : Log) : Prop :=
  match rows with [] => True | r :: rows => sealed r ∧ linked (ro_hash r) rows end.

Lemma sealed_fingerprint r hash :
  ro_hash r = Some hash →
  (entry_fingerprint (ro_prev_hash r) (fields_of (ro_entry r)) (au_detail (ro_entry r)) ==? hash) = true
  ↔ sealed r.
Proof.
  intros E. rewrite bool_decide_eq_true. unfold sealed. rewrite E.
  change (entry_fingerprint _ _ _) with (sha256_hex (bytes_of (entry_text (covered r)))).
  split; [by intros ->|by intros [= ->]].
Qed.

Lemma verify_go_since log : ∀ v u first expected n m s,
  verify_go v u (Some first) expected log = Intact n m s ↔
  linked expected (chained log) ∧ n = (v + length (chained log))%nat ∧
  m = (u + (length log - length (chained log)))%nat ∧ s = Some first.
Proof.
  induction log as [|r log IH]; intros v u first expected n m s.
  { cbn. rewrite !Nat.add_0_r. naive_solver. }
  cbn [verify_go]. rewrite chained_cons.
  assert (Hle : (length (chained log) ≤ length log)%nat).
  { unfold chained, keep. apply length_filter. }
  destruct (ro_hash r) as [hash|] eqn:Eh; cbn -[bool_decide].
  - rewrite bool_decide_true by done. cbn [andb].
    destruct (bool_decide_reflect (ro_prev_hash r = expected)) as [Hp|Hp]; cbn [negb]; [|naive_solver].
    pose proof (sealed_fingerprint r hash Eh) as Hs.
    destruct (_ ==? hash); cbn [negb].
    + rewrite IH, Eh. split; [intros (? & ? & ? & ?)|intros ((? & ? & ?) & ? & ? & ?)];
        split_and!; done || lia || by apply Hs.
    + split; [done|]. intros [(_ & Hr & _) _]. apply Hs in Hr. done.
  - rewrite IH. split; intros (? & ? & ? & ?); split_and!; done || lia.
Qed.

(** What a sound verdict says: every entry covered has the fingerprint of its content
    and, but the first, names its predecessor's; and the verdict counts the entries covered
    and the ones outside its reach, and says where it starts. *)
Theorem verify_spec (log : Log) (n m : nat) (s : option Z) :
  verify_audit_chain log = Intact n m s ↔
  chain (chained log) ∧ n = length (chained log) ∧ (n + m)%nat = length log ∧
  s = au_id ∘ ro_entry <$> head (chained log).
Proof.
  unfold verify_audit_chain.
  assert (Hgo : ∀ u, verify_go 0 u None None log = Intact n m s ↔
    chain (chained log) ∧ n = length (chained log) ∧ (n + m)%nat = (u + length log)%nat ∧
    s = au_id ∘ ro_entry <$> head (chained log)); [|by rewrite Hgo].
  induction log as [|r log IH]; intros u; cbn [verify_go].
  { cbn. split; [intros [= <- <- <-]; split_and!; done || lia|].
    intros (_ & -> & E & ->). f_equal. lia. }
  rewrite chained_cons. destruct (ro_hash r) as [hash|] eqn:Eh; cbn -[bool_decide].
  - rewrite bool_decide_false by apply is_Some_None. cbn [andb].
    pose proof (sealed_fingerprint r hash Eh) as Hs.
    assert (Hle : (length (chained log) ≤ length log)%nat) by (unfold chained, keep; apply length_filter).
    destruct (_ ==? hash); cbn [negb].
    + rewrite verify_go_since, Eh. split.
      * intros (Hl & -> & -> & ->). split_and!; [by apply Hs|done|done|lia|done].
      * intros ([_ Hl] & -> & E & ->). split_and!; [done|done|lia|done].
    + split; [done|]. intros [[Hr _] _]. apply Hs in Hr. done.
  - rewrite IH. split; intros (? & ? & ? & ?); split_and!; done || lia.
Qed.

(** ** Writing to the log *)

Lemma linked_snoc rows : ∀ expected r,
  linked expected (rows ++ [r]) ↔
  linked expected rows ∧ ro_prev_hash r = from_option ro_hash expected (last rows) ∧ sealed r.
Proof.
  induction rows as [|x rows IH]; intros expected r; cbn [app linked]; [cbn; naive_solver|].
  rewrite IH. rewrite last_cons. destruct (last rows); cbn; naive_solver.
Qed.

Lemma chain_snoc rows r :
  chain (rows ++ [r]) ↔
  chain rows ∧ sealed r ∧ (∀ x, last rows = Some x → ro_prev_hash r = ro_hash x).
Proof.
  destruct rows as [|x rows]; cbn [app chain]; [cbn; naive_solver|].
  rewrite linked_snoc, last_cons. destruct (last rows); cbn; naive_solver.
Qed.

Lemma chained_app log log' : chained (log ++ log') = chained log ++ chained log'.
Proof. apply keep_app. Qed.

Lemma elem_of_chained r log : r ∈ chained log ↔ r ∈ log ∧ is_Some (ro_hash r).
Proof. unfold chained. rewrite elem_of_keep, bool_decide_eq_true. naive_solver. Qed.

(** A log begun on entries of before the chaining, then only written by [audit]. *)
Inductive written (old : Log) : Log → Prop :=
| written_none : written old old
| written_one log now actor role action target outcome detail :
    written old log → written old (audit now actor role action target outcome detail log).

Lemma written_chain old log :
  chained old = [] → written old log →
  ∃ new, log = old ++ new ∧ chained log = new ∧ chain new ∧
    (last log ≫= ro_hash) = (last new ≫= ro_hash).
Proof.
  intros Hold Hw. induction Hw as [|log now actor role action target outcome detail Hw IH].
  - exists []. rewrite app_nil_r. split_and!; [done..|]. cbn.
    destruct (last old) as [r|] eqn:El; [|done]. cbn. destruct (ro_hash r) eqn:Eh; [|done].
    apply last_Some_elem_of in El.
    assert (Hr : r ∈ chained old) by (apply elem_of_chained; rewrite Eh; eauto).
    rewrite Hold in Hr. by apply elem_of_nil in Hr.
  - destruct IH as (new & El & Ec & Hc & Ep). unfold audit. set (row := {| ro_entry := _ |}).
    exists (new ++ [row]). split_and!.
    + by rewrite El, app_assoc.
    + rewrite chained_app, Ec. done.
    + apply chain_snoc. split_and!; [done|by unfold sealed|]. intros x Ex.
      unfold row. cbn. by rewrite Ep, Ex.
    + by rewrite !last_snoc.
Qed.

(** The log as the code writes it always verifies: whatever is written, on whatever was
    there before the chaining, the verdict is sound, covers every entry written since and
    leaves out exactly the ones of before. *)
Theorem audit_verifies (old log : Log) (Hold : chained old = []) (H : written old log) :
  ∃ n s, verify_audit_chain log = Intact n (length old) s ∧ (n + length old)%nat = length log.
Proof.
  destruct (written_chain old log Hold H) as (new & -> & Ec & Hc & _).
  exists (length new), (au_id ∘ ro_entry <$> head new). rewrite verify_spec, Ec, length_app.
  split_and!; done || lia.
Qed.

(** ** Tampering *)

Lemma covered_inj r r' : entry_text (covered r) = entry_text (covered r') → covered r = covered r'.
Proof. by apply entry_text_inj. Qed.

Lemma chains_agree c : ∀ c',
  chain c → chain c' → (∀ r, r ∈ c ++ c' → is_Some (ro_hash r)) →
  (ro_hash <$> last c) = (ro_hash <$> last c') →
  (∃ a b, a ∈ c ∧ b ∈ c' ∧ collide a b) ∨
  ∀ i, (i < length c)%nat → (i < length c')%nat →
    covered <$> (reverse c !! i) = covered <$> (reverse c' !! i).
Proof.
  induction c as [|r c IH] using rev_ind; intros c' Hc Hc' Hh Hlast; [right; cbn; lia|].
  destruct c' as [|r' c' _] using rev_ind; [right; cbn; lia|].
  rewrite !last_snoc in Hlast. injection Hlast as Hlast.
  apply chain_snoc in Hc as (Hc & Hr & Hp). apply chain_snoc in Hc' as (Hc' & Hr' & Hp').
  unfold sealed in Hr, Hr'. rewrite Hr, Hr' in Hlast. injection Hlast as Hlast.
  destruct (decide (entry_text (covered r) = entry_text (covered r'))) as [Et|Ht].
  2: { left. exists r, r'. split_and!; [set_solver..|by split]. }
  apply covered_inj in Et.
  destruct (last c) as [x|] eqn:Ex; [destruct (last c') as [x'|] eqn:Ex'|].
  - destruct (IH c' Hc Hc') as [(a & b & Ha & Hb & Hab)|Hag].
    + intros y Hy. apply Hh. set_solver.
    + rewrite Ex'. cbn. f_equal. specialize (Hp x eq_refl). specialize (Hp' x' eq_refl).
      destruct (Hh x) as [h Eh]; [apply last_Some_elem_of in Ex; set_solver|].
      destruct (Hh x') as [h' Eh']; [apply last_Some_elem_of in Ex'; set_solver|].
      unfold covered in Et. injection Et as Et _. rewrite Hp, Hp', Eh, Eh' in Et. cbn in Et. congruence.
    + left. exists a, b. split_and!; [set_solver..|done].
    + right. intros [|i]; rewrite !reverse_snoc, !length_app; cbn; [by rewrite Et|].
      intros Hi Hi'. apply Hag; lia.
  - apply last_None in Ex' as ->. right. intros [|i]; rewrite !reverse_snoc, !length_app; cbn; [by rewrite Et|lia].
  - apply last_None in Ex as ->. right. intros [|i]; rewrite !reverse_snoc, !length_app; cbn; [by rewrite Et|lia].
Qed.

(** C34. Tampering with a fingerprinted entry shows: between a log and a copy of it elsewhere whose
    last fingerprint is the same, both found sound, every entry with a fingerprint, from the last
    such one back - as far as the shorter goes -, is the same, its date, actor, role, action, target,
    outcome and detail, none of them dropped, added or moved among the others; or two of their
    entries are a collision of SHA-256. Entries without a fingerprint, of before the chaining or
    slipped in since, are counted and not compared. *)
Theorem tampering_shows (log copy : Log) (n m n' m' : nat) (s s' : option Z)
    (H : verify_audit_chain log = Intact n m s) (H' : verify_audit_chain copy = Intact n' m' s')
    (Hlast : (ro_hash <$> last (chained log)) = (ro_hash <$> last (chained copy))) :
  (∃ a b, a ∈ log ∧ b ∈ copy ∧ collide a b) ∨
  ∀ i, (i < n)%nat → (i < n')%nat →
    covered <$> (reverse (chained log) !! i) = covered <$> (reverse (chained copy) !! i).
Proof.
  apply verify_spec in H as (Hc & -> & _). apply verify_spec in H' as (Hc' & -> & _).
  destruct (chains_agree (chained log) (chained copy) Hc Hc') as [(a & b & Ha & Hb & Hab)|Hag].
  - intros r [Hr|Hr]%elem_of_app; by apply elem_of_chained in Hr as [_ ?].
  - done.
  - left. exists a, b. apply elem_of_chained in Ha as [? _], Hb as [? _]. done.
  - by right.
Qed.

(** An entry slipped in without a fingerprint passes for one of before the chaining, wherever
    it stands. *)
Lemma unchained_insertion_passes before r after n m s :
  ro_hash r = None → verify_audit_chain (before ++ after) = Intact n m s →
  verify_audit_chain (before ++ r :: after) = Intact n (S m) s.
Proof.
  intros Hr. assert (E : chained (before ++ r :: after) = chained (before ++ after)).
  { by rewrite !chained_app, chained_cons, Hr. }
  rewrite !verify_spec, E, !length_app. cbn [length]. intros (? & ? & ? & ?). split_and!; done || lia.
Qed.

(** ** A log of two entries *)

Module Sample.
Definition old : Log := [{| ro_entry := {| au_id := 1; au_at := "2026-01-01 10:00:00"; au_actor := "cli";
  au_role := "admin"; au_action := "install"; au_target := "gitea"; au_outcome := "ok";
  au_detail := None |}; ro_prev_hash := None; ro_hash := None |}].
Definition first : Log := audit "2026-01-02 10:00:00" "alice" Admin "app-remove" "gitea" "ok" None old.
Definition log : Log := audit "2026-01-03 10:00:00" "bob" Operator "restore" "gitea" "refused" (Some "no backup") first.
End Sample.

Lemma audit_verifies_witness : ∃ n s, verify_audit_chain Sample.log = Intact n 1 s ∧ (n + 1)%nat = 3%nat.
Proof.
  apply (audit_verifies Sample.old Sample.log); [by vm_compute|].
  unfold Sample.log, Sample.first. do 2 apply written_one. apply written_none.
Defined.

Lemma tampering_shows_witness :
  (∃ a b, a ∈ Sample.log ∧ b ∈ drop 1 Sample.log ∧ collide a b) ∨
  ∀ i, (i < 2)%nat → (i < 2)%nat →
    covered <$> (reverse (chained Sample.log) !! i) = covered <$> (reverse (chained (drop 1 Sample.log)) !! i).
Proof.
  assert (H : verify_audit_chain Sample.log = Intact 2 1 (Some 2%Z)) by (by vm_compute).
  assert (H' : verify_audit_chain (drop 1 Sample.log) = Intact 2 0 (Some 2%Z)) by (by vm_compute).
  apply (tampering_shows _ _ _ _ _ _ _ _ H H'). by vm_compute.
Defined.
