(* ===== verification/Users.v ===== *)
(** * People: limits, aliases, accounts

    [crates/hlb-users/src/role.rs], [alias.rs], [generation.rs], [lib.rs]: what a role lets a
    person create and how many, what has become of an alias, the names a person may take and
    the addresses generated for them. Times are Unix seconds, read as they are: the code
    subtracts [i64] whose difference a clock never takes out of its range. *)

From S2P Require Import Prelude RustStr Encoding Rbac.

(** ** Limits *)

Definition i64_max : Z := 9223372036854775807.

(** @ hlb-users/src/role.rs:26-49 [MailLimits] *)
Record MailLimits := {
  ml_max_mailboxes : N; ml_max_permanent_aliases : N; ml_max_temporary_aliases : N;
  ml_max_duration_s : Z; ml_quota_bytes : option N }.

(** @ hlb-users/src/role.rs:51-63 [MailLimits::standard] *)
Definition standard : MailLimits := {|
  ml_max_mailboxes := 3; ml_max_permanent_aliases := 10; ml_max_temporary_aliases := 50;
  ml_max_duration_s := 365 * 86400; ml_quota_bytes := Some (5 * 1024 * 1024 * 1024)%N |}.
(** @ hlb-users/src/role.rs:65-74 [MailLimits::guest] *)
Definition guest : MailLimits := {|
  ml_max_mailboxes := 1; ml_max_permanent_aliases := 0; ml_max_temporary_aliases := 5;
  ml_max_duration_s := 30 * 86400; ml_quota_bytes := Some (1024 * 1024 * 1024)%N |}.
(** @ hlb-users/src/role.rs:76-88 [MailLimits::unlimited] *)
Definition unlimited : MailLimits := {|
  ml_max_mailboxes := u32_max; ml_max_permanent_aliases := u32_max;
  ml_max_temporary_aliases := u32_max; ml_max_duration_s := i64_max; ml_quota_bytes := None |}.
(** @ hlb-users/src/role.rs:90-99 [MailLimits::none] *)
Definition no_limits : MailLimits := {|
  ml_max_mailboxes := 0; ml_max_permanent_aliases := 0; ml_max_temporary_aliases := 0;
  ml_max_duration_s := 0; ml_quota_bytes := Some 0%N |}.

(** @ hlb-users/src/role.rs:102-113 [RoleDef] *)
Record RoleDef := {
  rd_id : string; rd_name : string; rd_level : Role; rd_mail : MailLimits;
  rd_quotas : gmap string N }.

(** @ hlb-users/src/role.rs:115-124 [RoleDef::new] *)
Definition new_role (id : string) (level : Role) (mail : MailLimits) : RoleDef :=
  {| rd_id := id; rd_name := id; rd_level := level; rd_mail := mail; rd_quotas := ∅ |}.
(** @ hlb-users/src/role.rs:126-129 [RoleDef::nothing] *)
Definition no_role : RoleDef := new_role "" User no_limits.
(** @ hlb-users/src/role.rs:131-138 [RoleDef::label] *)
Definition label (r : RoleDef) : string :=
  if str_is_empty (rd_id r) then "no role" else rd_name r.

(** @ hlb-users/src/role.rs:141-147 [Request] *)
Inductive Request := MailboxRequest | AliasPermanent | AliasTemporary (duration_s : Z).

(** @ hlb-users/src/role.rs:149-155 [Usage] *)
Record Usage := { us_mailboxes : N; us_permanent : N; us_temporary : N }.

(** What a refusal reads.
    @ hlb-users/src/role.rs:177-242 [RoleDef::authorized] *)
Definition mailbox_refusal (r : RoleDef) (u : Usage) : string :=
  "mailbox limit reached: " +:+ show_N (us_mailboxes u) +:+ "/" +:+
  show_N (ml_max_mailboxes (rd_mail r)) +:+ " for the " +:+ quoted_str (label r) +:+
  " role. Give another role with `hlb user role <name> <role>`, raise this one's with " +:+
  "`hlb role set`, or delete a mailbox".
Definition permanent_refusal (r : RoleDef) (u : Usage) : string :=
  "permanent alias limit reached: " +:+ show_N (us_permanent u) +:+ "/" +:+
  show_N (ml_max_permanent_aliases (rd_mail r)) +:+ " for the " +:+ quoted_str (label r) +:+
  " role. A TEMPORARY alias is still possible (" +:+
  show_N (ml_max_temporary_aliases (rd_mail r)) +:+ " at most), and that is often what is wanted".
Definition temporary_refusal (r : RoleDef) (u : Usage) : string :=
  "temporary alias limit reached: " +:+ show_N (us_temporary u) +:+ "/" +:+
  show_N (ml_max_temporary_aliases (rd_mail r)) +:+ " for the " +:+ quoted_str (label r) +:+
  " role. Already-purged expired ones no longer count - `hlb user alias purge` removes them".
Definition too_long_refusal (r : RoleDef) (duration_s : Z) : string :=
  "requested duration too long: " +:+ show_Z (Z.quot duration_s 86400) +:+ " d, maximum " +:+
  show_Z (Z.quot (ml_max_duration_s (rd_mail r)) 86400) +:+ " d for the " +:+
  quoted_str (label r) +:+ " role. Beyond that, " +:+ quoted_str "temporary" +:+
  " stops meaning much - take a permanent alias if that is the intent".
Definition no_duration_refusal : string :=
  "zero or negative duration: the alias would be expired before existing, and the purge " +:+
  "would remove it on its first pass".

(** @ hlb-users/src/role.rs:169-247 [RoleDef::authorized] *)
Definition authorized (r : RoleDef) (u : Usage) (request : Request) : result string () :=
  match request with
  | MailboxRequest =>
      refuse_if (ml_max_mailboxes (rd_mail r) <=? us_mailboxes u)%N (mailbox_refusal r u)
  | AliasPermanent =>
      refuse_if (ml_max_permanent_aliases (rd_mail r) <=? us_permanent u)%N (permanent_refusal r u)
  | AliasTemporary duration_s =>
      refuse_if (ml_max_temporary_aliases (rd_mail r) <=? us_temporary u)%N (temporary_refusal r u) ;;
      refuse_if (ml_max_duration_s (rd_mail r) <? duration_s)%Z (too_long_refusal r duration_s) ;;
      refuse_if (duration_s <=? 0)%Z no_duration_refusal
  end.

(** ** Aliases *)

(** @ hlb-users/src/alias.rs:29-39 [Duration] *)
Inductive Duration := Permanent | Temporary (expires_at : Z).
#[export] Instance Duration_eq_dec : EqDecision Duration.
Proof. solve_decision. Defined.

(** @ hlb-users/src/alias.rs:41-54 [Alias] *)
Record Alias := { al_local : string; al_duration : Duration; al_active : bool; al_note : option string }.

(** @ hlb-users/src/alias.rs:56-70 [State] *)
Inductive AliasState :=
| StPermanent | StValid (remaining_s : Z) | StExpired | StExpiredButActive (since_s : Z).
#[export] Instance AliasState_eq_dec : EqDecision AliasState.
Proof. solve_decision. Defined.

(** @ hlb-users/src/alias.rs:96-114 [Alias::state] *)
Definition alias_state (a : Alias) (now : Z) : AliasState :=
  match al_duration a with
  | Permanent => StPermanent
  | Temporary expires_at =>
      if (expires_at <=? now)%Z then
        if al_active a then StExpiredButActive (now - expires_at) else StExpired
      else StValid (expires_at - now)
  end.

(** @ hlb-users/src/alias.rs:122-126 [State::breaks_the_promise] *)
Definition breaks_the_promise (s : AliasState) : bool :=
  match s with StExpiredButActive _ => true | _ => false end.
(** @ hlb-users/src/alias.rs:116-119 [Alias::is_due_for_purge] *)
Definition is_due_for_purge (a : Alias) (now : Z) : bool := breaks_the_promise (alias_state a now).

(** @ hlb-users/src/alias.rs:144-153 [readable_duration] *)
Definition readable_duration (s : Z) : string :=
  let s := Z.max s 0 in
  if (s <? 3600)%Z then show_Z (s / 60) +:+ " min"
  else if (s <? 172800)%Z then show_Z (s / 3600) +:+ " h"
  else show_Z (s / 86400) +:+ " d".

(** @ hlb-users/src/alias.rs:128-141 [State::describe] *)
Definition alias_describe (s : AliasState) : string :=
  match s with
  | StPermanent => "permanent"
  | StValid remaining_s => "expires in " +:+ readable_duration remaining_s
  | StExpired => "expired, removed"
  | StExpiredButActive since_s =>
      "🔴 EXPIRED " +:+ readable_duration since_s +:+ " ago and STILL ACTIVE - the purge did " +:+
      "not run, this address is still receiving"
  end.

(** @ hlb-users/src/alias.rs:161-164 [due_for_purge] *)
Definition expiry (a : Alias) : Z :=
  match al_duration a with Temporary expires_at => expires_at | Permanent => i64_max end.
(** @ hlb-users/src/alias.rs:155-166 [due_for_purge] *)
Definition due_for_purge (aliases : list Alias) (now : Z) : list Alias :=
  sort_by (λ a b, Z.compare (expiry a) (expiry b)) (keep (λ a, is_due_for_purge a now) aliases).

(** ** Accounts *)

(** @ hlb-users/src/lib.rs:47-66 [Error] *)
Inductive UserError :=
| QuotaExceeded (why : string) | InvalidName (name : string) | ReservedName (name : string)
| DefaultMailbox (address : string).

(** @ hlb-users/src/lib.rs:70-79 [Mailbox] *)
Record Mailbox := {
  mb_local : string; mb_domain : string; mb_default : bool; mb_aliases : list Alias }.
(** @ hlb-users/src/lib.rs:81-84 [Mailbox::address] *)
Definition address (b : Mailbox) : string := mb_local b +:+ "@" +:+ mb_domain b.
(** @ hlb-users/src/lib.rs:86-94 [Mailbox::broken_promises] *)
Definition mailbox_broken (b : Mailbox) (now : Z) : list Alias :=
  keep (λ a, breaks_the_promise (alias_state a now)) (mb_aliases b).

(** @ hlb-users/src/lib.rs:97-108 [Account] *)
Record Account := {
  ac_name : string; ac_role : option string; ac_pocket_id : option string;
  ac_mailboxes : list Mailbox }.

(** @ hlb-users/src/lib.rs:110-124 [Coherence] *)
Inductive Coherence := Complete | WithoutMailbox | WithoutIdentity | EmptyAccount.

(** @ hlb-users/src/lib.rs:162-165 [Account::default_mailbox] *)
Definition default_mailbox (a : Account) : option Mailbox := find_first mb_default (ac_mailboxes a).
(** @ hlb-users/src/lib.rs:167-175 [Account::coherence] *)
Definition coherence (a : Account) : Coherence :=
  match ac_pocket_id a, default_mailbox a with
  | Some _, Some _ => Complete
  | Some _, None => WithoutMailbox
  | None, Some _ => WithoutIdentity
  | None, None => EmptyAccount
  end.

(** @ hlb-users/src/lib.rs:188-199 [Account::usage] *)
Definition count_alias (now : Z) (u : Usage) (a : Alias) : Usage :=
  match al_duration a with
  | Permanent =>
      {| us_mailboxes := us_mailboxes u; us_permanent := wrap_u32 (us_permanent u + 1);
         us_temporary := us_temporary u |}
  | Temporary _ =>
      if alias_state a now ==? StExpired then u
      else {| us_mailboxes := us_mailboxes u; us_permanent := us_permanent u;
              us_temporary := wrap_u32 (us_temporary u + 1) |}
  end.
(** @ hlb-users/src/lib.rs:177-201 [Account::usage] *)
Definition usage (a : Account) (now : Z) : Usage :=
  foldl (λ u b, foldl (count_alias now) u (mb_aliases b))
    {| us_mailboxes := wrap_u32 (N.of_nat (length (ac_mailboxes a))); us_permanent := 0;
       us_temporary := 0 |}
    (ac_mailboxes a).

(** @ hlb-users/src/lib.rs:203-209 [Account::broken_promises] *)
Definition broken_promises (a : Account) (now : Z) : list (Mailbox * Alias) :=
  b ← ac_mailboxes a; (b,.) <$> mailbox_broken b now.

(** @ hlb-users/src/lib.rs:211-220 [Account::can_delete_mailbox] *)
Definition can_delete_mailbox (a : Account) (local : string) : result UserError () :=
  match find_first (λ b, mb_local b ==? local) (ac_mailboxes a) with
  | Some b => refuse_if (mb_default b) (DefaultMailbox (address b))
  | None => Ok ()
  end.

(** @ hlb-users/src/lib.rs:223-240 [RESERVED_LOCALS] *)
Definition RESERVED_LOCALS : list string :=
  ["postmaster"; "abuse"; "hostmaster"; "webmaster"; "noc"; "security"; "admin";
   "administrator"; "root"; "mailer-daemon"; "nobody"; "noreply"; "no-reply"].

(** [starts_with(['.', '-'])], [ends_with(['.', '-'])]. *)
Definition dot_or_dash (c : ascii) : bool := bool_decide (c ∈ ["."; "-"]%char).
Definition first_is (p : ascii → bool) (s : string) : bool :=
  if s is String c _ then p c else false.
Definition last_is (p : ascii → bool) (s : string) : bool :=
  if split_last s is Some (_, c) then p c else false.

(** @ hlb-users/src/lib.rs:251-252 [validate_name] *)
Definition name_char (c : ascii) : bool := is_lower c || is_digit c || dot_or_dash c.

(** @ hlb-users/src/lib.rs:242-264 [validate_name] *)
Definition validate_name (name : string) : result UserError () :=
  let ok := negb (str_is_empty name) && (String.length name <=? 50)%nat && str_all name_char name
            && negb (first_is dot_or_dash name) && negb (last_is dot_or_dash name)
            && negb (contains ".." name) in
  if negb ok then Err (InvalidName name)
  else if bool_decide (name ∈ RESERVED_LOCALS) then Err (ReservedName name)
  else Ok ().

(** ** Generated addresses *)

(** @ hlb-users/src/generation.rs:36-41 [ALPHABET] *)
Definition ALPHABET : list ascii := chars "abcdefghjkmnpqrstuvwxyz23456789".
(** @ hlb-users/src/generation.rs:43-47 [SUFFIX_LEN] *)
Definition SUFFIX_LEN : nat := 6.
(** @ hlb-users/src/generation.rs:49-51 [HINT_MAX] *)
Definition HINT_MAX : nat := 24.

(** [to_lowercase], and each character that is not of [\[a-z0-9\]] then made a hyphen. Of the
    characters that are not ASCII two become an ASCII letter in lower case: the Kelvin sign,
    and the capital I with a dot, which keeps its dot as a second character. A longer
    character gives a hyphen for each of its bytes: they are merged next.
    @ hlb-users/src/generation.rs:68-72 [clean_hint] *)
Fixpoint hint_chars (s : string) : list ascii :=
  match s with
  | "" => []
  | String a rest =>
      let dotted := if rest is String b _ then ((byte_of a =? 196) && (byte_of b =? 176))%N else false in
      let plain := if dotted then "i"%char else if is_alnum a then ascii_lower a else "-"%char in
      match rest with
      | String b (String c rest') =>
          if ((byte_of a =? 226) && (byte_of b =? 132) && (byte_of c =? 170))%N
          then "k"%char :: hint_chars rest'
          else plain :: hint_chars rest
      | _ => plain :: hint_chars rest
      end
  end.

(** Hyphens kept one at a time, none at the start.
    @ hlb-users/src/generation.rs:74-87 [clean_hint] *)
Fixpoint merge_dashes (dash : bool) (s : list ascii) : list ascii :=
  match s with
  | [] => []
  | c :: s =>
      if bool_decide (c = "-"%char)
      then if dash then merge_dashes true s else c :: merge_dashes true s
      else c :: merge_dashes false s
  end.

(** [while out.ends_with('-') { out.pop(); }] *)
Fixpoint drop_dashes (s : list ascii) : list ascii :=
  match s with
  | c :: rest => if bool_decide (c = "-"%char) then drop_dashes rest else s
  | [] => []
  end.
Definition pop_dashes (s : list ascii) : list ascii := reverse (drop_dashes (reverse s)).

(** @ hlb-users/src/generation.rs:62-96 [clean_hint] *)
Definition clean_hint (raw : string) : string :=
  of_chars (pop_dashes (take HINT_MAX (pop_dashes (merge_dashes true (hint_chars raw))))).

(** @ hlb-users/src/generation.rs:128-136 [suffix] *)
Definition suffix (entropy : list N) : string :=
  of_chars ((λ b, default "a"%char (ALPHABET !! (N.to_nat b mod length ALPHABET)%nat))
              <$> take SUFFIX_LEN entropy).

(** @ hlb-users/src/generation.rs:53-60 [Generated] *)
Record Generated := { ge_local : string; ge_hint : string }.

(** @ hlb-users/src/generation.rs:99-120 [Generated::for_site] *)
Definition for_site (hint : string) (entropy : list N) : Generated :=
  let hint := clean_hint hint in
  let suffix := suffix entropy in
  {| ge_local := if str_is_empty hint then suffix else hint +:+ "-" +:+ suffix; ge_hint := hint |}.

(** @ hlb-users/src/generation.rs:122-125 [Generated::address] *)
Definition generated_address (g : Generated) (domain : string) : string :=
  ge_local g +:+ "@" +:+ domain.

Example hint_plain : clean_hint "  Amazon.FR -- achats é " = "amazon-fr-achats".
Proof. reflexivity. Qed.

(** ** Limits *)

(** What a request asks of a role's limits. *)
Definition within (l : MailLimits) (u : Usage) (request : Request) : Prop :=
  match request with
  | MailboxRequest => (us_mailboxes u < ml_max_mailboxes l)%N
  | AliasPermanent => (us_permanent u < ml_max_permanent_aliases l)%N
  | AliasTemporary d => (us_temporary u < ml_max_temporary_aliases l)%N ∧ (0 < d ≤ ml_max_duration_s l)%Z
  end.

Lemma authorized_within r u request : authorized r u request = Ok () ↔ within (rd_mail r) u request.
Proof.
  destruct request as [| |d]; cbn.
  - rewrite refuse_if_Ok, N.leb_gt. done.
  - rewrite refuse_if_Ok, N.leb_gt. done.
  - rewrite !seq_Ok, !refuse_if_Ok, N.leb_gt, Z.ltb_ge, Z.leb_gt. lia.
Qed.

(** ** Purging *)

(** The purge closes every door left open past its time, and only those, the ones open
    longest first: an alias is due exactly when it still receives and its date has come. *)
Theorem due_for_purge_spec (aliases : list Alias) (now : Z) :
  (∀ a, a ∈ due_for_purge aliases now ↔ a ∈ aliases ∧ al_active a = true ∧
     ∃ expires_at, al_duration a = Temporary expires_at ∧ (expires_at ≤ now)%Z) ∧
  StronglySorted (λ a b, (expiry a ≤ expiry b)%Z) (due_for_purge aliases now).
Proof.
  split.
  - intros a. unfold due_for_purge. rewrite sort_by_perm, elem_of_keep.
    unfold is_due_for_purge, alias_state, breaks_the_promise.
    destruct (al_duration a) as [|e]; [naive_solver|].
    destruct (Z.leb_spec e now); [|naive_solver lia].
    destruct (al_active a); naive_solver.
  - unfold due_for_purge. eapply StronglySorted_weaken; [|apply sort_by_total].
    + intros a b H. cbn in H. destruct (Z.compare_spec (expiry a) (expiry b)); done || lia.
    + apply (total_cmp_on expiry). split; [intros; apply Z.compare_antisym|].
      intros x y z Hxy Hyz. rewrite <- !Z.le_ngt || idtac.
      destruct (Z.compare_spec x y), (Z.compare_spec y z), (Z.compare_spec x z); done || lia.
Qed.

(** ** Hints *)

Definition hint_char (c : ascii) : bool := is_lower c || is_digit c || bool_decide (c = "-"%char).

Lemma plain_hint_char a : hint_char (if is_alnum a then ascii_lower a else "-"%char) = true.
Proof. by destruct a as [[] [] [] [] [] [] [] []]. Qed.

Lemma hint_chars_ok s : Forall (λ c, hint_char c = true) (hint_chars s).
Proof.
  remember (String.length s) as n eqn:En. revert s En.
  induction n as [n IH] using lt_wf_ind. intros s ->. destruct s as [|a rest]; cbn; [constructor|].
  set (plain := if (if rest is String b _ then _ else false) then _ else _).
  assert (Hp : hint_char plain = true) by (unfold plain; case_match; [done|apply plain_hint_char]).
  assert (Hr : Forall (λ c, hint_char c = true) (hint_chars rest)) by (eapply IH; [|done]; cbn; lia).
  destruct rest as [|b [|c rest']]; [by constructor..|].
  destruct (_ && _ && _); [|by constructor]. constructor; [done|]. eapply IH; [|done]. cbn. lia.
Qed.

Lemma merge_dashes_ok dash s :
  Forall (λ c, hint_char c = true) s → Forall (λ c, hint_char c = true) (merge_dashes dash s).
Proof.
  intros H. revert dash. induction H as [|c s Hc Hs IH]; intros dash; cbn; [constructor|].
  case_bool_decide; [destruct dash; [done|]|]; by constructor.
Qed.

Lemma merge_dashes_head s : head (merge_dashes true s) ≠ Some "-"%char.
Proof. induction s as [|c s IH]; cbn; [done|]. case_bool_decide; [done|]. cbn. congruence. Qed.

Lemma pop_dashes_snoc s c :
  pop_dashes (s ++ [c]) = if bool_decide (c = "-"%char) then pop_dashes s else s ++ [c].
Proof.
  unfold pop_dashes. rewrite reverse_snoc. cbn [drop_dashes]. case_bool_decide; [done|].
  by rewrite reverse_cons, reverse_involutive.
Qed.

Lemma pop_dashes_prefix s : pop_dashes s `prefix_of` s ∧ last (pop_dashes s) ≠ Some "-"%char.
Proof.
  induction s as [|c s [IH1 IH2]] using rev_ind; [done|]. rewrite pop_dashes_snoc.
  case_bool_decide; [|by rewrite last_snoc; split; [|congruence]].
  split; [|done]. etrans; [done|]. by apply prefix_app_r.
Qed.

(** What a cleaned hint is: at most 24 of [\[a-z0-9-\]], no hyphen at either end. *)
Lemma clean_hint_ok raw :
  let l := chars (clean_hint raw) in
  Forall (λ c, hint_char c = true) l ∧ head l ≠ Some "-"%char ∧ last l ≠ Some "-"%char ∧
  (length l ≤ HINT_MAX)%nat.
Proof.
  unfold clean_hint. rewrite chars_of_chars. set (m := merge_dashes true (hint_chars raw)).
  set (l := pop_dashes (take HINT_MAX (pop_dashes m))).
  assert (Hl : l `prefix_of` take HINT_MAX (pop_dashes m)) by apply pop_dashes_prefix.
  assert (Hm : l `prefix_of` m).
  { etrans; [done|]. etrans; [apply prefix_take|]. apply pop_dashes_prefix. }
  cbv zeta. split_and!.
  - destruct Hm as [k Ek]. assert (H : Forall (λ c, hint_char c = true) m)
      by apply merge_dashes_ok, hint_chars_ok.
    rewrite Ek, Forall_app in H. by destruct H.
  - destruct Hm as [k Ek]. pose proof (merge_dashes_head (hint_chars raw)) as Hh. fold m in Hh.
    rewrite Ek in Hh. by destruct l.
  - apply pop_dashes_prefix.
  - apply prefix_length in Hl. rewrite length_take in Hl. lia.
Qed.

(** ** Generated addresses are names *)

Lemma alphabet_ok b : let c := default "a"%char (ALPHABET !! (N.to_nat b mod length ALPHABET)%nat) in
  c ∈ ALPHABET.
Proof.
  cbv zeta. destruct (ALPHABET !! _) as [c|] eqn:E; [by apply list_elem_of_lookup_2 in E|].
  apply lookup_ge_None in E. assert (length ALPHABET ≠ 0%nat) by done.
  pose proof (Nat.mod_upper_bound (N.to_nat b) (length ALPHABET)). lia.
Qed.

Definition in_alphabet (c : ascii) : bool := bool_decide (c ∈ ALPHABET).

Lemma suffix_ok entropy :
  (SUFFIX_LEN ≤ length entropy)%nat →
  length (chars (suffix entropy)) = SUFFIX_LEN ∧ Forall (λ c, in_alphabet c = true) (chars (suffix entropy)).
Proof.
  intros H. unfold suffix. rewrite chars_of_chars, length_fmap, length_take. split; [lia|].
  apply Forall_fmap, Forall_forall. intros b _. apply bool_decide_eq_true, alphabet_ok.
Qed.

Lemma in_alphabet_ok c : in_alphabet c = true → hint_char c = true ∧ dot_or_dash c = false.
Proof. by destruct c as [[] [] [] [] [] [] [] []]. Qed.

Lemma hint_char_ok c : hint_char c = true → name_char c = true ∧ c ≠ "."%char.
Proof. by destruct c as [[] [] [] [] [] [] [] []]. Qed.

(** A name none is given: it does not end as a generated address does. *)
Definition generated_form (l : list ascii) : bool :=
  let l := reverse l in
  forallb in_alphabet (take SUFFIX_LEN l) &&
  ((length l =? SUFFIX_LEN)%nat || (l !! SUFFIX_LEN ==? Some "-"%char)).

Lemma reserved_not_generated name : generated_form (chars name) = true → name ∉ RESERVED_LOCALS.
Proof.
  assert (H : Forall (λ n, generated_form (chars n) = false) RESERVED_LOCALS)
    by (unfold RESERVED_LOCALS; repeat (apply Forall_cons; split; [by vm_compute|]); done).
  intros Hg Hn. rewrite Forall_forall in H. rewrite (H name Hn) in Hg. done.
Qed.

Lemma str_all_chars p s : str_all p s = true ↔ Forall (λ c, p c = true) (chars s).
Proof.
  induction s as [|c s IH]; cbn; [split; [constructor|done]|].
  by rewrite Forall_cons, andb_true_iff, IH.
Qed.

Lemma last_is_chars p s : last_is p s = from_option p false (last (chars s)).
Proof.
  unfold last_is. destruct (split_last s) as [[a c]|] eqn:E.
  - apply split_last_Some in E as ->. rewrite chars_append. cbn. by rewrite last_snoc.
  - destruct (chars s) as [|c l _] eqn:Es using rev_ind; [done|].
    assert (Hs : s = of_chars l +:+ String c "").
    { apply chars_inj. by rewrite Es, chars_append, chars_of_chars. }
    by rewrite Hs, split_last_append in E.
Qed.

Lemma first_is_chars p s : first_is p s = from_option p false (head (chars s)).
Proof. by destruct s. Qed.

Lemma validate_name_chars name :
  let l := chars name in
  (0 < length l ≤ 50)%nat → Forall (λ c, hint_char c = true) l →
  from_option dot_or_dash false (head l) = false → from_option dot_or_dash false (last l) = false →
  name ∉ RESERVED_LOCALS → validate_name name = Ok ().
Proof.
  intros l Hlen Hall Hh Ht Hres. unfold validate_name.
  rewrite first_is_chars, last_is_chars. fold l. rewrite Hh, Ht, (bool_decide_false _ Hres).
  rewrite <- (length_chars name). fold l.
  assert (Ene : str_is_empty name = false) by (destruct name; [cbn in Hlen; lia|done]).
  assert (Eall : str_all name_char name = true).
  { apply str_all_chars. eapply Forall_impl; [done|]. intros c Hc. by apply hint_char_ok. }
  assert (Edots : contains ".." name = false).
  { apply not_true_iff_false. intros (a & b & E)%contains_true.
    assert (Hin : "."%char ∈ l).
    { unfold l. rewrite E, !chars_append. apply elem_of_app. right. apply elem_of_app. left. left. }
    rewrite Forall_forall in Hall. by apply Hall in Hin. }
  rewrite Ene, Eall, Edots. destruct (Nat.leb_spec (length l) 50); [done|lia].
Qed.

(** Six letters of the alphabet, after nothing or after a hyphen. *)
Lemma suffixed_valid before suf :
  length (chars suf) = SUFFIX_LEN → Forall (λ c, in_alphabet c = true) (chars suf) →
  Forall (λ c, hint_char c = true) (chars before) → (length (chars before) ≤ 25)%nat →
  head (chars before) ≠ Some "-"%char → (before = "" ∨ last (chars before) = Some "-"%char) →
  validate_name (before +:+ suf) = Ok ().
Proof.
  intros Hlen Hall Hb Hbl Hbh Hbt.
  apply validate_name_chars; rewrite ?chars_append.
  - rewrite length_app, Hlen. unfold SUFFIX_LEN. lia.
  - apply Forall_app. split; [done|]. eapply Forall_impl; [done|]. intros c Hc. by apply in_alphabet_ok.
  - destruct (chars before) as [|c l]; cbn.
    + destruct (chars suf) as [|c l]; [done|]. cbn. inversion Hall; subst. by apply in_alphabet_ok.
    + cbn in Hbh. inversion Hb as [|? ? Hc]; subst. apply hint_char_ok in Hc as [_ Hc].
      apply bool_decide_eq_false.
      rewrite !elem_of_cons. intros [-> |[-> |Hnil]]; [done|done|by apply elem_of_nil in Hnil].
  - destruct (chars suf) as [|c l _] using rev_ind; [done|]. rewrite app_assoc, last_snoc. cbn.
    apply Forall_app in Hall as [_ Hc]. inversion Hc; subst. by apply in_alphabet_ok.
  - apply reserved_not_generated. unfold generated_form.
    rewrite chars_append, reverse_app, take_app_le, take_ge by (rewrite length_reverse, Hlen; done).
    apply andb_true_intro. split.
    + apply forallb_forall. intros c Hc. apply list_elem_of_In in Hc. rewrite elem_of_reverse in Hc.
      rewrite Forall_forall in Hall. by apply Hall.
    + rewrite length_app, !length_reverse, Hlen, lookup_app_r, length_reverse, Hlen, Nat.sub_diag
        by (by rewrite length_reverse, Hlen).
      destruct Hbt as [-> |Hbt]; [done|]. apply orb_true_intro. right.
      destruct (chars before) as [|c l _] using rev_ind; [done|]. rewrite last_snoc in Hbt.
      rewrite reverse_snoc. cbn. by apply bool_decide_eq_true.
Qed.

(** A generated address is always one a mail server and the identity provider take: given
    six bytes of entropy, whatever the hint, it is a valid name, of at most 31 characters,
    and never the hint alone - its last six characters are the entropy's, of an alphabet
    without look-alikes. *)
Theorem for_site_valid (hint : string) (entropy : list N) (H : (SUFFIX_LEN ≤ length entropy)%nat) :
  let g := for_site hint entropy in
  validate_name (ge_local g) = Ok () ∧ (String.length (ge_local g) ≤ 31)%nat ∧
  ∃ before, ge_local g = before +:+ suffix entropy ∧ String.length (suffix entropy) = SUFFIX_LEN ∧
    Forall (λ c, in_alphabet c = true) (chars (suffix entropy)).
Proof.
  cbv zeta. destruct (suffix_ok entropy H) as [Hlen Hall].
  destruct (clean_hint_ok hint) as (Hh & Hhd & _ & Hmax).
  set (before := if str_is_empty (clean_hint hint) then "" else clean_hint hint +:+ "-").
  assert (El : ge_local (for_site hint entropy) = before +:+ suffix entropy).
  { unfold for_site, before. cbn [ge_local]. destruct (str_is_empty _); [done|]. by rewrite append_assoc. }
  assert (Hb : Forall (λ c, hint_char c = true) (chars before) ∧ (length (chars before) ≤ 25)%nat ∧
    head (chars before) ≠ Some "-"%char ∧ (before = "" ∨ last (chars before) = Some "-"%char)).
  { unfold before. destruct (clean_hint hint) as [|c s] eqn:Ec; [cbn; split_and!; auto; lia|].
    cbn [str_is_empty]. rewrite chars_append. change (chars "-") with ["-"%char].
    rewrite Forall_app, length_app, last_snoc.
    split_and!; [done|by repeat constructor|unfold HINT_MAX in Hmax; cbn [length]; lia|done|auto]. }
  destruct Hb as (Hb & Hbl & Hbh & Hbt). rewrite El. split_and!.
  - by apply suffixed_valid.
  - rewrite string_length_append, <- !length_chars, Hlen. unfold SUFFIX_LEN. lia.
  - exists before. split; [done|]. by rewrite <- length_chars.
Qed.

Lemma for_site_valid_witness :
  validate_name (ge_local (for_site "Amazon.fr" [1; 2; 3; 4; 5; 6]%N)) = Ok ().
Proof. apply (for_site_valid "Amazon.fr" [1; 2; 3; 4; 5; 6]%N). vm_compute. lia. Defined.
