(* ===== verification/Doors.v ===== *)
(** * Who enters which app

    [crates/hlb-users/src/access.rs]: what PocketID and the apps should hold, computed from
    the roles, the people who hold them and the roles each installed app lets in. An app
    lets in the groups of its door, and none closes it. *)

From S2P Require Import Prelude RustStr Rbac Capability Access Manifest Users.

(** ** A quota as a claim *)

(** [as f64]: the nearest of 53 significant bits, ties to even. *)
Definition round_even (n d : N) : N :=
  let q := (n / d)%N in let r := (n mod d)%N in
  if (d <? 2 * r)%N || ((2 * r =? d)%N && N.odd q) then (q + 1)%N else q.
Definition to_f64 (n : N) : N :=
  let ulp := (2 ^ (N.size n - 53))%N in (round_even n ulp * ulp)%N.

(** [format!("{:.6}")] of the quotient by a power of two, which is exact. *)
Definition six_decimals (n size : N) : string :=
  let m := round_even (to_f64 n * 1000000) size in
  let frac := show_N (m mod 1000000) in
  show_N (m / 1000000) +:+ "." +:+ of_chars (replicate (6 - String.length frac) "0"%char) +:+ frac.

(** @ hlb-types/src/access.rs:301-310 [QuotaUnit::amount] *)
Definition amount (u : QuotaUnit) (bytes : N) : string :=
  let size := quota_size u in
  if (bytes mod size =? 0)%N then show_N (bytes / size)
  else trim_end_matches "." (trim_end_matches "0" (six_decimals bytes size)).

(** @ hlb-types/src/access.rs:312-315 [QuotaUnit::claim_value] *)
Definition claim_value (u : QuotaUnit) (bytes : N) : Json := JNumber (amount u bytes).

(** ** What the copies should hold *)

(** @ hlb-users/src/access.rs:27-39 [Person] *)
Record Person := {
  pe_name : string; pe_sub : option string; pe_email : option string; pe_role : option string;
  pe_quotas : gmap string (option N) }.

(** @ hlb-users/src/access.rs:41-46 [Installed] *)
Record Installed := { in_manifest : Manifest; in_allowed : gset string }.

(** @ hlb-users/src/access.rs:48-55 [Entry] *)
Inductive Entry := EntryClient | EntryPortal.
#[export] Instance Entry_eq_dec : EqDecision Entry.
Proof. solve_decision. Defined.

(** @ hlb-users/src/access.rs:57-62 [Door] *)
Record Door := { do_entry : Entry; do_groups : gset string }.
(** @ hlb-users/src/access.rs:64-68 [Door::closed] *)
Definition closed (d : Door) : bool := do_groups d ==? ∅.

(** @ hlb-users/src/access.rs:70-78 [Group] *)
Record Group := {
  gp_role : string; gp_friendly_name : string; gp_members : gset string;
  gp_claims : gmap string Json }.

(** @ hlb-users/src/access.rs:80-90 [QuotaTask] *)
Record QuotaTask := {
  qt_app : string; qt_person : string; qt_sub : string; qt_bytes : option N; qt_own : bool }.

(** @ hlb-users/src/access.rs:92-100 [AdminTask] *)
Record AdminTask := { at_app : string; at_person : string; at_sub : string; at_admin : bool }.

(** @ hlb-users/src/access.rs:102-108 [Member] *)
Record Member := { me_email : string; me_external_id : string }.

(** @ hlb-users/src/access.rs:110-119 [MemberGroup] *)
Record MemberGroup := { mg_external_id : string; mg_name : string; mg_members : list string }.

(** @ hlb-users/src/access.rs:121-138 [Note] *)
Inductive Note :=
| UnknownRole (app role : string) | BelowFloor (app role : string) (floor : Role)
| NoIdentity (person : string) | NoEmail (app person : string) | NobodyReadsPostmaster.

(** @ hlb-users/src/access.rs:140-169 [Note::fmt] *)
Definition note_display (n : Note) : string :=
  match n with
  | UnknownRole app role =>
      app +:+ " is said to let in the role " +:+ quoted_str role +:+ ", which does not exist: " +:+
      "it is closed until that is corrected — `hlb role deny " +:+ role +:+ " " +:+ app +:+ " --apply`"
  | BelowFloor app role floor =>
      app +:+ " lets in " +:+ quoted_str (role_as_str floor) +:+ " roles and above: " +:+
      quoted_str role +:+ " is below, and stays out"
  | NoIdentity person =>
      person +:+ " has no PocketID identity yet: in no group, so in no app — `hlb user add " +:+
      person +:+ " --apply` finishes the account"
  | NoEmail app person =>
      person +:+ " has no mailbox: " +:+ app +:+ " invites by address, and is not told about them"
  | NobodyReadsPostmaster =>
      "no administrator has a mailbox: postmaster@ and abuse@, where other servers report " +:+
      "this one, are read by nobody"
  end.

(** @ hlb-users/src/access.rs:171-197 [Desired] *)
Record Desired := {
  ds_groups : gmap string Group;
  ds_claims_of : gmap string (gmap string Json);
  ds_person_claims : gset string;
  ds_doors : gmap string Door;
  ds_quotas : list QuotaTask;
  ds_admins : list AdminTask;
  ds_members : gmap string (list Member);
  ds_member_groups : gmap string (list MemberGroup);
  ds_postmaster : gset string;
  ds_notes : list Note }.

Definition nothing_desired : Desired := {|
  ds_groups := ∅; ds_claims_of := ∅; ds_person_claims := ∅; ds_doors := ∅; ds_quotas := [];
  ds_admins := []; ds_members := ∅; ds_member_groups := ∅; ds_postmaster := ∅; ds_notes := [] |}.

(** One field replaced. *)
Definition with_groups (m : gmap string Group) (d : Desired) : Desired := {|
  ds_groups := m; ds_claims_of := ds_claims_of d; ds_person_claims := ds_person_claims d;
  ds_doors := ds_doors d; ds_quotas := ds_quotas d; ds_admins := ds_admins d;
  ds_members := ds_members d; ds_member_groups := ds_member_groups d;
  ds_postmaster := ds_postmaster d; ds_notes := ds_notes d |}.
Definition with_doors (m : gmap string Door) (d : Desired) : Desired := {|
  ds_groups := ds_groups d; ds_claims_of := ds_claims_of d; ds_person_claims := ds_person_claims d;
  ds_doors := m; ds_quotas := ds_quotas d; ds_admins := ds_admins d;
  ds_members := ds_members d; ds_member_groups := ds_member_groups d;
  ds_postmaster := ds_postmaster d; ds_notes := ds_notes d |}.
Definition with_quotas (claims_of : gmap string (gmap string Json)) (person_claims : gset string)
    (quotas : list QuotaTask) (d : Desired) : Desired := {|
  ds_groups := ds_groups d; ds_claims_of := claims_of; ds_person_claims := person_claims;
  ds_doors := ds_doors d; ds_quotas := quotas; ds_admins := ds_admins d;
  ds_members := ds_members d; ds_member_groups := ds_member_groups d;
  ds_postmaster := ds_postmaster d; ds_notes := ds_notes d |}.
Definition with_admins (l : list AdminTask) (d : Desired) : Desired := {|
  ds_groups := ds_groups d; ds_claims_of := ds_claims_of d; ds_person_claims := ds_person_claims d;
  ds_doors := ds_doors d; ds_quotas := ds_quotas d; ds_admins := l;
  ds_members := ds_members d; ds_member_groups := ds_member_groups d;
  ds_postmaster := ds_postmaster d; ds_notes := ds_notes d |}.
Definition with_members (m : gmap string (list Member)) (g : gmap string (list MemberGroup))
    (d : Desired) : Desired := {|
  ds_groups := ds_groups d; ds_claims_of := ds_claims_of d; ds_person_claims := ds_person_claims d;
  ds_doors := ds_doors d; ds_quotas := ds_quotas d; ds_admins := ds_admins d;
  ds_members := m; ds_member_groups := g;
  ds_postmaster := ds_postmaster d; ds_notes := ds_notes d |}.
Definition with_postmaster (s : gset string) (d : Desired) : Desired := {|
  ds_groups := ds_groups d; ds_claims_of := ds_claims_of d; ds_person_claims := ds_person_claims d;
  ds_doors := ds_doors d; ds_quotas := ds_quotas d; ds_admins := ds_admins d;
  ds_members := ds_members d; ds_member_groups := ds_member_groups d;
  ds_postmaster := s; ds_notes := ds_notes d |}.
Definition noting (l : list Note) (d : Desired) : Desired := {|
  ds_groups := ds_groups d; ds_claims_of := ds_claims_of d; ds_person_claims := ds_person_claims d;
  ds_doors := ds_doors d; ds_quotas := ds_quotas d; ds_admins := ds_admins d;
  ds_members := ds_members d; ds_member_groups := ds_member_groups d;
  ds_postmaster := ds_postmaster d; ds_notes := ds_notes d ++ l |}.

(** ** Roles and apps *)

(** @ hlb-users/src/access.rs:199-214 [entry_of] *)
Definition entry_of (m : Manifest) : option Entry :=
  if md_name (mf_metadata m) ==? PORTAL_SERVICE then None
  else
    find_map (λ c,
      match c with
      | Sso SsoNative _ => Some EntryClient
      | Sso SsoProxyOnly _ | Sso SsoProxyHeader _ => Some EntryPortal
      | _ => None
      end) (sp_requires (mf_spec m)).

(** @ hlb-users/src/access.rs:216-219 [floor_of] *)
Definition floor_of (m : Manifest) : Role :=
  from_option access_floor User (sp_access (mf_spec m)).

Definition below (a b : Role) : bool := negb (bool_decide (role_le b a)).

(** @ hlb-users/src/access.rs:221-238 [refusal] *)
Definition refusal (r : RoleDef) (m : Manifest) : option string :=
  let app := md_name (mf_metadata m) in
  if entry_of m ==? None then
    Some (app +:+ " signs nobody in through PocketID: who enters it is not a role's to decide")
  else
    let floor := floor_of m in
    if below (rd_level r) floor then
      Some (app +:+ " lets in " +:+ quoted_str (role_as_str floor) +:+ " roles and above; " +:+
            quoted_str (label r) +:+ " is " +:+ quoted_str (role_as_str (rd_level r)))
    else None.

(** @ hlb-users/src/access.rs:240-246 [view] *)
Definition view (r : RoleDef) : RoleView :=
  {| rv_id := rd_id r; rv_name := rd_name r; rv_level := rd_level r |}.

(** [Access::default]. *)
Definition default_access : Access := {|
  access_floor := User; access_admins := None; access_claims := ∅; access_quota := None;
  access_members := None; access_accounts := None; access_nodes := None |}.

(** @ hlb-users/src/access.rs:251 [desired] *)
Definition by_id (roles : list RoleDef) : gmap string RoleDef :=
  foldl (λ m r, <[rd_id r := r]> m) ∅ roles.

(** @ hlb-users/src/access.rs:253-263 [desired] *)
Definition open_groups (roles : list RoleDef) : gmap string Group :=
  foldl (λ m r, <[group_of (rd_id r) := {| gp_role := rd_id r; gp_friendly_name := rd_name r;
                                           gp_members := ∅; gp_claims := ∅ |}]> m) ∅ roles.

Definition in_group (sub : string) (g : Group) : Group :=
  {| gp_role := gp_role g; gp_friendly_name := gp_friendly_name g;
     gp_members := {[sub]} ∪ gp_members g; gp_claims := gp_claims g |}.

(** @ hlb-users/src/access.rs:264-283 [desired] *)
Definition place_person (roles : gmap string RoleDef) (d : Desired) (p : Person) : Desired :=
  match pe_role p ≫= λ id, (id,.) <$> roles !! id with
  | None => d
  | Some (id, r) =>
      let d :=
        match pe_email p with
        | Some email =>
            if rd_level r ==? Admin then with_postmaster ({[email]} ∪ ds_postmaster d) d else d
        | None => d
        end in
      match pe_sub p with
      | Some sub => with_groups (alter (in_group sub) (group_of id) (ds_groups d)) d
      | None => noting [NoIdentity (pe_name p)] d
      end
  end.

(** The roles let in, and what could not be done as asked.
    @ hlb-users/src/access.rs:296-317 [desired] *)
Definition let_in (roles : gmap string RoleDef) (name : string) (floor : Role)
    (acc : bool * list RoleDef * list Note) (id : string) : bool * list RoleDef * list Note :=
  let '(unknown, admitted, notes) := acc in
  match roles !! id with
  | None => (true, admitted, notes ++ [UnknownRole name id])
  | Some r =>
      if below (rd_level r) floor then (unknown, admitted, notes ++ [BelowFloor name id floor])
      else (unknown, admitted ++ [r], notes)
  end.
Definition admission (roles : gmap string RoleDef) (app : Installed) : list RoleDef * list Note :=
  let name := md_name (mf_metadata (in_manifest app)) in
  let '(unknown, admitted, notes) :=
    foldl (let_in roles name (floor_of (in_manifest app))) (false, [], [])
      (btree_elems (in_allowed app)) in
  (if unknown then [] else admitted, notes).

(** @ hlb-users/src/access.rs:332-340 [desired] *)
Definition role_claims (access : Access) (name : string) (r : RoleDef) (claims : gmap string Json)
    : gmap string Json :=
  let claims := foldl (λ m '(claim, how),
    match value_for how (view r) with Some v => <[claim := v]> m | None => m end)
    claims (btree_entries (access_claims access)) in
  match access_quota access ≫= quota_claim, rd_quotas r !! name with
  | Some c, Some bytes => <[qc_name c := claim_value (qc_unit c) bytes]> claims
  | _, _ => claims
  end.
(** @ hlb-users/src/access.rs:326-341 [desired] *)
Definition tell_group (access : Access) (name : string) (groups : gmap string Group) (r : RoleDef)
    : gmap string Group :=
  alter (λ g, {| gp_role := gp_role g; gp_friendly_name := gp_friendly_name g;
                 gp_members := gp_members g;
                 gp_claims := role_claims access name r (gp_claims g) |})
    (group_of (rd_id r)) groups.

(** @ hlb-users/src/access.rs:343-347 [desired] *)
Definition is_inside (admitted : list RoleDef) (p : Person) : bool :=
  if pe_role p is Some r then bool_decide (r ∈ rd_id <$> admitted) else false.

(** @ hlb-users/src/access.rs:353-381 [desired] *)
Definition person_quota (roles : gmap string RoleDef) (name : string) (q : Quota)
    (acc : gmap string (gmap string Json) * list QuotaTask) (p : Person)
    : gmap string (gmap string Json) * list QuotaTask :=
  let '(claims_of, quotas) := acc in
  match pe_sub p with
  | None => acc
  | Some sub =>
      let own := pe_quotas p !! name in
      let role_quota := pe_role p ≫= λ r, roles !! r ≫= λ r, rd_quotas r !! name in
      let claims_of :=
        match quota_claim q, own with
        | Some c, Some (Some bytes) =>
            <[sub := <[qc_name c := claim_value (qc_unit c) bytes]> (default ∅ (claims_of !! sub))]>
              claims_of
        | _, _ => claims_of
        end in
      (claims_of,
       if quota_apply q is Some _ then
         quotas ++ [{| qt_app := name; qt_person := pe_name p; qt_sub := sub;
                       qt_bytes := default role_quota own;
                       qt_own := bool_decide (is_Some own) |}]
       else quotas)
  end.
(** @ hlb-users/src/access.rs:349-382 [desired] *)
Definition tell_quotas (roles : gmap string RoleDef) (access : Access) (name : string)
    (inside : list Person) (d : Desired) : Desired :=
  match access_quota access with
  | None => d
  | Some q =>
      let person_claims :=
        if quota_claim q is Some c then {[qc_name c]} ∪ ds_person_claims d else ds_person_claims d in
      let '(claims_of, quotas) :=
        foldl (person_quota roles name q) (ds_claims_of d, ds_quotas d) inside in
      with_quotas claims_of person_claims quotas d
  end.

(** @ hlb-users/src/access.rs:385-398 [desired] *)
Definition admin_task (roles : gmap string RoleDef) (name : string) (level : Role)
    (inside : list Person) (p : Person) : option AdminTask :=
  sub ← pe_sub p;
  Some {| at_app := name; at_person := pe_name p; at_sub := sub;
          at_admin := any_of (λ i, pe_name i ==? pe_name p) inside &&
            match pe_role p ≫= λ r, roles !! r with
            | Some r => bool_decide (role_le level (rd_level r))
            | None => false
            end |}.
(** @ hlb-users/src/access.rs:384-399 [desired] *)
Definition tell_admins (roles : gmap string RoleDef) (people : list Person) (access : Access)
    (name : string) (inside : list Person) (d : Desired) : Desired :=
  match access_admins access with
  | Some a =>
      if adm_apply a is Some _ then
        with_admins (ds_admins d ++ omap (admin_task roles name (adm_level a) inside) people) d
      else d
  | None => d
  end.

(** The derived orders.
    @ hlb-users/src/access.rs:415-428 [desired] *)
Definition member_cmp (a b : Member) : comparison :=
  then_with (String.compare (me_email a) (me_email b))
    (String.compare (me_external_id a) (me_external_id b)).
Fixpoint list_cmp {A} (cmp : A → A → comparison) (l k : list A) : comparison :=
  match l, k with
  | [], [] => Eq
  | [], _ => Lt
  | _, [] => Gt
  | x :: l, y :: k => then_with (cmp x y) (list_cmp cmp l k)
  end.
Definition member_group_cmp (a b : MemberGroup) : comparison :=
  then_with (String.compare (mg_external_id a) (mg_external_id b))
    (then_with (String.compare (mg_name a) (mg_name b))
       (list_cmp String.compare (mg_members a) (mg_members b))).

(** @ hlb-users/src/access.rs:416-427 [desired] *)
Definition member_group (inside : list Person) (r : RoleDef) : MemberGroup :=
  {| mg_external_id := group_of (rd_id r); mg_name := rd_name r;
     mg_members := pe_name <$> keep (λ p, (pe_role p ==? Some (rd_id r)) &&
                                           bool_decide (is_Some (pe_email p))) inside |}.
(** @ hlb-users/src/access.rs:401-431 [desired] *)
Definition tell_members (access : Access) (name : string) (admitted : list RoleDef)
    (inside : list Person) (d : Desired) : Desired :=
  match access_members access with
  | None => d
  | Some _ =>
      let members := omap (λ p, (λ email, {| me_email := email; me_external_id := pe_name p |})
                                  <$> pe_email p) inside in
      let notes := omap (λ p, if pe_email p is None then Some (NoEmail name (pe_name p)) else None)
                     inside in
      with_members (<[name := sort_by member_cmp members]> (ds_members d))
        (<[name := sort_by member_group_cmp (member_group inside <$> admitted)]> (ds_member_groups d))
        (noting notes d)
  end.

(** @ hlb-users/src/access.rs:289-432 [desired] *)
Definition app_step (roles : gmap string RoleDef) (people : list Person) (d : Desired)
    (app : Installed) : Desired :=
  let m := in_manifest app in
  let name := md_name (mf_metadata m) in
  match entry_of m with
  | None => d
  | Some entry =>
      let access := default default_access (sp_access (mf_spec m)) in
      let '(admitted, notes) := admission roles app in
      let d := noting notes d in
      let d := with_doors (<[name := {| do_entry := entry;
                 do_groups := list_to_set ((λ r, group_of (rd_id r)) <$> admitted) |}]> (ds_doors d)) d in
      let d := with_groups (foldl (tell_group access name) (ds_groups d) admitted) d in
      let inside := keep (is_inside admitted) people in
      let d := tell_quotas roles access name inside d in
      let d := tell_admins roles people access name inside d in
      tell_members access name admitted inside d
  end.

(** @ hlb-users/src/access.rs:285-287 [desired] *)
Definition check_postmaster (people : list Person) (d : Desired) : Desired :=
  if (ds_postmaster d ==? ∅) && any_of (λ p, bool_decide (is_Some (pe_email p))) people
  then noting [NobodyReadsPostmaster] d else d.

(** @ hlb-users/src/access.rs:248-434 [desired] *)
Definition desired (roles : list RoleDef) (people : list Person) (apps : list Installed) : Desired :=
  let ids := by_id roles in
  let d := with_groups (open_groups roles) nothing_desired in
  let d := check_postmaster people (foldl (place_person ids) d people) in
  foldl (app_step ids people) d apps.

(** @ hlb-users/src/access.rs:436-442 [Opening] *)
Record Opening := { og_app : string; og_display_name : string; og_means : string }.

(** @ hlb-users/src/access.rs:444-464 [opens] *)
Definition opens (r : RoleDef) (apps : list Installed) : list Opening :=
  omap (λ a,
    admins ← sp_access (mf_spec (in_manifest a)) ≫= access_admins;
    if bool_decide (role_le (adm_level admins) (rd_level r)) then
      let md := mf_metadata (in_manifest a) in
      Some {| og_app := md_name md; og_display_name := default (md_name md) (md_display_name md);
              og_means := adm_means admins |}
    else None)
    (keep (λ a, bool_decide (rd_id r ∈ in_allowed a) && (refusal r (in_manifest a) ==? None)) apps).

(** ** What each turn leaves alone *)

#[local] Arguments by_id : simpl never.
#[local] Arguments open_groups : simpl never.

Lemma tell_quotas_same roles access name inside d :
  let d' := tell_quotas roles access name inside d in
  ds_doors d' = ds_doors d ∧ ds_groups d' = ds_groups d ∧ ds_admins d' = ds_admins d ∧
  ds_postmaster d' = ds_postmaster d.
Proof. unfold tell_quotas. destruct (access_quota access) as [q|]; [|done]. by destruct (foldl _ _ _). Qed.

Lemma tell_admins_same roles people access name inside d :
  let d' := tell_admins roles people access name inside d in
  ds_doors d' = ds_doors d ∧ ds_groups d' = ds_groups d ∧ ds_postmaster d' = ds_postmaster d.
Proof. unfold tell_admins. destruct (access_admins access) as [a|]; [|done]. by destruct (adm_apply a). Qed.

Lemma tell_members_same access name admitted inside d :
  let d' := tell_members access name admitted inside d in
  ds_doors d' = ds_doors d ∧ ds_groups d' = ds_groups d ∧ ds_admins d' = ds_admins d ∧
  ds_postmaster d' = ds_postmaster d.
Proof. unfold tell_members. by destruct (access_members access). Qed.

Lemma app_step_doors roles people d app :
  ds_doors (app_step roles people d app) =
  match entry_of (in_manifest app) with
  | None => ds_doors d
  | Some entry =>
      <[md_name (mf_metadata (in_manifest app)) :=
        {| do_entry := entry;
           do_groups := list_to_set ((λ r, group_of (rd_id r)) <$> (admission roles app).1) |}]> (ds_doors d)
  end.
Proof.
  unfold app_step. destruct (entry_of _) as [entry|]; [|done].
  destruct (admission roles app) as [admitted notes].
  rewrite (proj1 (tell_members_same _ _ _ _ _)), (proj1 (tell_admins_same _ _ _ _ _ _)),
    (proj1 (tell_quotas_same _ _ _ _ _)). done.
Qed.

Lemma tell_group_members access name groups r g :
  gp_members <$> tell_group access name groups r !! g = gp_members <$> groups !! g.
Proof.
  unfold tell_group. destruct (decide (group_of (rd_id r) = g)) as [<-|Hne].
  - rewrite lookup_alter_eq. by destruct (groups !! _).
  - by rewrite lookup_alter_ne.
Qed.

Lemma tell_groups_members access name admitted groups g :
  gp_members <$> foldl (tell_group access name) groups admitted !! g = gp_members <$> groups !! g.
Proof.
  induction admitted as [|r admitted IH] using rev_ind; [done|].
  rewrite foldl_app. cbn [foldl]. by rewrite tell_group_members.
Qed.

Lemma app_step_members roles people d app g :
  gp_members <$> ds_groups (app_step roles people d app) !! g = gp_members <$> ds_groups d !! g.
Proof.
  unfold app_step. destruct (entry_of _) as [entry|]; [|done].
  destruct (admission roles app) as [admitted notes].
  rewrite (proj1 (proj2 (tell_members_same _ _ _ _ _))), (proj1 (proj2 (tell_admins_same _ _ _ _ _ _))),
    (proj1 (proj2 (tell_quotas_same _ _ _ _ _))). cbn.
  apply tell_groups_members.
Qed.

Lemma apps_members roles people apps d g :
  gp_members <$> ds_groups (foldl (app_step roles people) d apps) !! g = gp_members <$> ds_groups d !! g.
Proof.
  induction apps as [|app apps IH] using rev_ind; [done|]. by rewrite foldl_app; cbn; rewrite app_step_members, IH.
Qed.

(** ** Who is in which group *)

Lemma by_id_lookup roles id r : by_id roles !! id = Some r → rd_id r = id ∧ r ∈ roles.
Proof.
  unfold by_id. induction roles as [|x roles IH] using rev_ind; [cbn; by rewrite lookup_empty|].
  rewrite foldl_app. cbn. rewrite elem_of_app, list_elem_of_singleton.
  intros [[<- <-]|[_ H]]%lookup_insert_Some; [auto|]. apply IH in H as [? ?]. auto.
Qed.

Lemma open_groups_lookup roles id :
  open_groups roles !! group_of id =
  (λ r, {| gp_role := id; gp_friendly_name := rd_name r; gp_members := ∅; gp_claims := ∅ |})
    <$> by_id roles !! id.
Proof.
  unfold open_groups, by_id. induction roles as [|x roles IH] using rev_ind; [done|].
  rewrite !foldl_app. cbn. destruct (decide (rd_id x = id)) as [<-|Hne].
  - by rewrite !lookup_insert_eq.
  - rewrite !lookup_insert_ne; [done..|]. intros E. by apply append_inj_l in E.
Qed.

(** The members a group is found to have. *)
Definition members_of (d : Desired) (g : string) : gset string :=
  from_option gp_members ∅ (ds_groups d !! g).

Lemma place_person_members roles d p g :
  (∀ id r, roles !! id = Some r → is_Some (ds_groups d !! group_of id)) →
  members_of (place_person roles d p) g =
  match pe_role p ≫= (λ id, roles !! id), pe_sub p with
  | Some r, Some sub => if bool_decide (pe_role p ≫= (λ id, Some (group_of id)) = Some g)
                        then {[sub]} ∪ members_of d g else members_of d g
  | _, _ => members_of d g
  end.
Proof.
  intros Hg. unfold place_person. destruct (pe_role p) as [id|]; cbn; [|done].
  destruct (roles !! id) as [r|] eqn:Er; cbn; [|done].
  assert (Hpost : ∀ s, members_of (with_postmaster s d) g = members_of d g) by done.
  set (d' := match pe_email p with Some email => _ | None => _ end).
  assert (Eg : ds_groups d' = ds_groups d).
  { unfold d'. destruct (pe_email p); [|done]. by destruct (_ ==? Admin). }
  assert (Em : members_of d' g = members_of d g) by (unfold members_of; by rewrite Eg).
  destruct (pe_sub p) as [sub|]; [|done].
  unfold members_of. cbn. rewrite Eg. case_bool_decide as E.
  - injection E as <-. rewrite lookup_alter_eq. destruct (Hg id r Er) as [x ->]. done.
  - rewrite lookup_alter_ne by congruence. done.
Qed.

Lemma place_person_known roles d p g :
  is_Some (ds_groups d !! g) → is_Some (ds_groups (place_person roles d p) !! g).
Proof.
  intros Hg. unfold place_person. destruct (pe_role p ≫= _) as [[id r]|]; [|done].
  set (d' := match pe_email p with Some email => _ | None => _ end).
  assert (Eg : ds_groups d' = ds_groups d).
  { unfold d'. destruct (pe_email p); [|done]. by destruct (_ ==? Admin). }
  destruct (pe_sub p); cbn; rewrite Eg; [|done]. by apply lookup_alter_is_Some.
Qed.

Lemma place_person_member roles d p sub g :
  (∀ id r, roles !! id = Some r → is_Some (ds_groups d !! group_of id)) →
  sub ∈ members_of (place_person roles d p) g ↔
  sub ∈ members_of d g ∨
  ∃ id, pe_sub p = Some sub ∧ pe_role p = Some id ∧ is_Some (roles !! id) ∧ g = group_of id.
Proof.
  intros Hg. rewrite place_person_members by done.
  destruct (pe_role p) as [id|] eqn:Er; cbn; [|naive_solver].
  destruct (roles !! id) as [r|] eqn:El; cbn.
  2: { split; [by left|]. intros [?|(id' & _ & [= <-] & [? Hr] & _)]; [done|congruence]. }
  destruct (pe_sub p) as [s|]; [|naive_solver].
  case_bool_decide as E; [injection E as <-; rewrite elem_of_union, elem_of_singleton|].
  - split; [intros [-> |?]; [right; exists id; by rewrite El|by left]|].
    intros [?|(id' & [= ->] & _)]; auto.
  - split; [by left|]. intros [?|(id' & _ & [= <-] & _ & ->)]; done.
Qed.

Lemma placed_members roles people d sub g :
  (∀ id r, roles !! id = Some r → is_Some (ds_groups d !! group_of id)) →
  sub ∈ members_of (foldl (place_person roles) d people) g ↔
  sub ∈ members_of d g ∨
  ∃ p id, p ∈ people ∧ pe_sub p = Some sub ∧ pe_role p = Some id ∧ is_Some (roles !! id) ∧ g = group_of id.
Proof.
  intros Hg. induction people as [|p people IH] in d, Hg |- *; cbn [foldl].
  { split; [by left|]. intros [?|(? & ? & H & _)]; [done|]. by apply elem_of_nil in H. }
  rewrite IH by (intros id r Hr; by eapply place_person_known, Hg).
  rewrite place_person_member by done. setoid_rewrite elem_of_cons. naive_solver.
Qed.

(** ** Who is let in *)

Lemma admission_spec roles app :
  let floor := floor_of (in_manifest app) in
  (∀ r, r ∈ (admission roles app).1 ↔
     (∀ id, id ∈ in_allowed app → is_Some (roles !! id)) ∧
     ∃ id, id ∈ in_allowed app ∧ roles !! id = Some r ∧ role_le floor (rd_level r)).
Proof.
  intros floor r. unfold admission. fold floor. set (name := md_name _).
  assert (Hgo : ∀ ids, let '(unknown, admitted, _) := foldl (let_in roles name floor) (false, [], []) ids in
    (unknown = false ↔ ∀ id, id ∈ ids → is_Some (roles !! id)) ∧
    (r ∈ admitted ↔ ∃ id, id ∈ ids ∧ roles !! id = Some r ∧ role_le floor (rd_level r))).
  { induction ids as [|id ids IH] using rev_ind.
    - split; [split; [|done]; intros _ id H; by apply elem_of_nil in H|].
      rewrite elem_of_nil. split; [done|]. intros (id & H & _). by apply elem_of_nil in H.
    - rewrite foldl_app. cbn [foldl]. destruct (foldl _ _ ids) as [[unknown admitted] notes].
      destruct IH as [IH1 IH2]. cbn [let_in].
      assert (Hi : ∀ i, i ∈ ids ++ [id] ↔ i ∈ ids ∨ i = id)
        by (intros i; by rewrite elem_of_app, list_elem_of_singleton).
      destruct (roles !! id) as [x|] eqn:Ex.
      + assert (Hu : unknown = false ↔ ∀ i, i ∈ ids ++ [id] → is_Some (roles !! i)).
        { rewrite IH1. split; [intros H i [?| ->]%Hi; [auto|by rewrite Ex]|].
          intros H i Hin. apply H, Hi. by left. }
        unfold below. case_bool_decide as Hle; cbn [negb]; (split; [done|]).
        * rewrite elem_of_app, list_elem_of_singleton, IH2. split.
          -- intros [(i & ? & ?)| ->]; [exists i|exists id]; rewrite Hi; auto.
          -- intros (i & [?| ->]%Hi & E & ?); [left; by exists i|right; congruence].
        * rewrite IH2. split; [intros (i & ? & ?); exists i; rewrite Hi; auto|].
          intros (i & [?| ->]%Hi & E & ?); [by exists i|]. congruence.
      + split.
        * split; [done|]. intros H. destruct (H id) as [y Ey]; [by apply Hi; right|congruence].
        * rewrite IH2. split; [intros (i & ? & ?); exists i; rewrite Hi; auto|].
          intros (i & [?| ->]%Hi & E & ?); [by exists i|congruence]. }
  specialize (Hgo (btree_elems (in_allowed app))).
  destruct (foldl _ _ (btree_elems _)) as [[unknown admitted] notes]. destruct Hgo as [Hu Ha].
  assert (E : ∀ id, id ∈ btree_elems (in_allowed app) ↔ id ∈ in_allowed app)
    by (intros id; apply elem_of_btree_elems).
  cbn [fst]. destruct unknown.
  - split; [intros H; by apply elem_of_nil in H|]. intros [H _].
    assert (true = false); [|done]. apply Hu. intros id Hid. by apply H, E.
  - rewrite Ha. split.
    + intros (id & Hid & Hr). split; [|exists id; by rewrite <- E].
      intros i Hi. apply Hu; [done|]. by apply E.
    + intros [_ (id & Hid & Hr)]. exists id. by rewrite E.
Qed.

(** Whose door an app's is: the last of its name, when names are told apart. *)
Lemma doors_of roles people apps d app :
  NoDup ((λ a, md_name (mf_metadata (in_manifest a))) <$> apps) → app ∈ apps →
  ds_doors d !! md_name (mf_metadata (in_manifest app)) = None →
  ds_doors (foldl (app_step roles people) d apps) !! md_name (mf_metadata (in_manifest app)) =
  (λ entry, {| do_entry := entry;
               do_groups := list_to_set ((λ r, group_of (rd_id r)) <$> (admission roles app).1) |})
    <$> entry_of (in_manifest app).
Proof.
  intros Hnd Hin Hd. set (name a := md_name (mf_metadata (in_manifest a))) in *.
  change (md_name (mf_metadata (in_manifest app))) with (name app) in *.
  induction apps as [|x apps IH] using rev_ind; [by apply elem_of_nil in Hin|].
  rewrite foldl_app. cbn [foldl]. rewrite app_step_doors. fold (name x).
  rewrite fmap_app in Hnd. apply NoDup_app in Hnd as (Hnd & Hx & _).
  apply elem_of_app in Hin as [Hin|Hin%list_elem_of_singleton].
  - assert (Hne : name x ≠ name app).
    { intros E. apply (Hx (name app)); [by apply (list_elem_of_fmap_2 name)|].
      rewrite <- E. by left. }
    destruct (entry_of (in_manifest x)); [rewrite lookup_insert_ne by done|]; by apply IH.
  - subst x. destruct (entry_of (in_manifest app)) as [entry|]; cbn; [by rewrite lookup_insert_eq|].
    clear IH Hnd. revert Hx. induction apps as [|x apps IH] using rev_ind; [done|].
    intros Hx. rewrite foldl_app. cbn [foldl]. rewrite app_step_doors. fold (name x).
    assert (Hne : name x ≠ name app).
    { intros E. apply (Hx (name x)); [rewrite fmap_app; apply elem_of_app; right; left|].
      rewrite E. by left. }
    destruct (entry_of (in_manifest x)); [rewrite lookup_insert_ne by done|];
      apply IH; intros y Hy; apply Hx; rewrite fmap_app; apply elem_of_app; by left.
Qed.

Lemma open_groups_empty roles g : from_option gp_members ∅ (open_groups roles !! g) = ∅.
Proof.
  unfold open_groups. induction roles as [|x roles IH] using rev_ind; [cbn; by rewrite lookup_empty|].
  rewrite foldl_app. cbn [foldl]. destruct (decide (group_of (rd_id x) = g)) as [<-|Hne].
  - by rewrite lookup_insert_eq.
  - by rewrite lookup_insert_ne.
Qed.

(** The members of a group, once everything is computed. *)
Lemma desired_members roles people apps sub g :
  sub ∈ members_of (desired roles people apps) g ↔
  ∃ p id, p ∈ people ∧ pe_sub p = Some sub ∧ pe_role p = Some id ∧
    is_Some (by_id roles !! id) ∧ g = group_of id.
Proof.
  assert (Ed : members_of (desired roles people apps) g =
    members_of (foldl (place_person (by_id roles)) (with_groups (open_groups roles) nothing_desired) people) g).
  { unfold desired, members_of. set (d := check_postmaster _ _).
    pose proof (apps_members (by_id roles) people apps d g) as H.
    assert (Hd : ds_groups d = ds_groups (foldl (place_person (by_id roles))
      (with_groups (open_groups roles) nothing_desired) people)).
    { unfold d, check_postmaster. by destruct (_ && _). }
    rewrite <- Hd. destruct (ds_groups _ !! g), (ds_groups d !! g); cbn in H |- *; congruence. }
  rewrite Ed, placed_members.
  - unfold members_of at 1. cbn [ds_groups with_groups]. rewrite open_groups_empty. set_solver.
  - intros id r Hr. cbn [ds_groups with_groups]. rewrite open_groups_lookup, Hr. by eexists.
Qed.

Lemma place_person_doors roles d people : ds_doors (foldl (place_person roles) d people) = ds_doors d.
Proof.
  induction people as [|p people IH] using rev_ind; [done|]. rewrite foldl_app. cbn [foldl].
  rewrite <- IH. unfold place_person. destruct (pe_role p ≫= _) as [[id r]|]; [|done].
  set (d' := match pe_email p with Some email => _ | None => _ end).
  assert (E : ds_doors d' = ds_doors (foldl (place_person roles) d people)).
  { unfold d'. destruct (pe_email p); [|done]. by destruct (_ ==? Admin). }
  by destruct (pe_sub p).
Qed.

(** An app without a door is restricted by nothing: its client admits every identity, its
    route asks no group. One with a door admits the members of the groups it lets in. *)
Definition enters (d : Desired) (app sub : string) : Prop :=
  match ds_doors d !! app with
  | None => True
  | Some door => ∃ g, g ∈ do_groups door ∧ sub ∈ members_of d g
  end.

(** C7. Who enters an app, installed under a name of its own. The apps a person signs in to - their own client, or the portal
    in front - each have a door, of that kind, and the others have none: nothing restricts
    those. Through a door enter exactly the people with an identity whose role exists, is
    allowed into the app and is of its floor or above - and nobody at all, when a role
    said to be allowed does not exist or none is allowed. *)
Theorem who_enters (roles : list RoleDef) (people : list Person) (apps : list Installed)
    (app : Installed) (sub : string)
    (Hnd : NoDup ((λ a, md_name (mf_metadata (in_manifest a))) <$> apps)) (Hin : app ∈ apps) :
  let d := desired roles people apps in
  let name := md_name (mf_metadata (in_manifest app)) in
  (do_entry <$> ds_doors d !! name) = entry_of (in_manifest app) ∧
  (enters d name sub ↔
   entry_of (in_manifest app) = None ∨
   (∀ id, id ∈ in_allowed app → is_Some (by_id roles !! id)) ∧
   ∃ p id r, p ∈ people ∧ pe_sub p = Some sub ∧ pe_role p = Some id ∧ by_id roles !! id = Some r ∧
     id ∈ in_allowed app ∧ role_le (floor_of (in_manifest app)) (rd_level r)).
Proof.
  cbv zeta. unfold enters.
  assert (Ed : ∀ d, ds_doors d !! md_name (mf_metadata (in_manifest app)) = None →
    ds_doors (foldl (app_step (by_id roles) people) d apps) !! md_name (mf_metadata (in_manifest app)) = _)
    by (intros d; apply (doors_of (by_id roles) people apps d app Hnd Hin)).
  unfold desired at 1 2. rewrite Ed.
  2: { unfold check_postmaster. destruct (_ && _); cbn; by rewrite place_person_doors. }
  pose proof (admission_spec (by_id roles) app) as Hadm. cbv zeta in Hadm.
  destruct (entry_of (in_manifest app)) as [entry|]; cbn; [|split; [done|naive_solver]].
  split; [done|]. setoid_rewrite desired_members. split.
  - intros (g & Hg & p & id & Hp & Hs & Hr & [r Er] & ->). cbn in Hg. right.
    rewrite elem_of_list_to_set, list_elem_of_fmap in Hg. destruct Hg as (x & Eg & Hx).
    apply append_inj_l in Eg. subst id. apply Hadm in Hx as [Hall (id & Hid & Ex & Hle)].
    pose proof (by_id_lookup _ _ _ Ex) as [<- _].
    split_and!; [done..|]. exists p, (rd_id x), x. done.
  - intros [[=]|(Hall & p & id & r & Hp & Hs & Hr & Er & Hid & Hle)].
    exists (group_of id). split_and!; [|exists p, id; by split_and!].
    cbn. rewrite elem_of_list_to_set, list_elem_of_fmap. exists r.
    pose proof (by_id_lookup _ _ _ Er) as [-> _]. split; [done|]. apply Hadm. split; [done|]. by exists id.
Qed.

(** ** Who administers an app *)

Definition admins_of (app : Installed) : option Admins :=
  entry_of (in_manifest app) ;; sp_access (mf_spec (in_manifest app)) ≫= access_admins.

(** What one app adds to the tasks. *)
Definition tasks_of (roles : gmap string RoleDef) (people : list Person) (app : Installed)
    : list AdminTask :=
  match admins_of app with
  | Some a =>
      if adm_apply a is Some _ then
        omap (admin_task roles (md_name (mf_metadata (in_manifest app))) (adm_level a)
                (keep (is_inside (admission roles app).1) people)) people
      else []
  | None => []
  end.

Lemma app_step_admins roles people d app :
  ds_admins (app_step roles people d app) = ds_admins d ++ tasks_of roles people app.
Proof.
  unfold app_step, tasks_of, admins_of. destruct (entry_of _) as [entry|]; cbn; [|by rewrite app_nil_r].
  destruct (admission roles app) as [admitted notes].
  rewrite (proj1 (proj2 (proj2 (tell_members_same _ _ _ _ _)))). unfold tell_admins.
  destruct (sp_access _) as [access|]; cbn.
  - destruct (access_admins access) as [a|]; [destruct (adm_apply a)|]; cbn;
      by rewrite (proj1 (proj2 (proj2 (tell_quotas_same _ _ _ _ _)))), ?app_nil_r.
  - by rewrite app_nil_r.
Qed.

Lemma desired_admins roles people apps :
  ds_admins (desired roles people apps) = apps ≫= tasks_of (by_id roles) people.
Proof.
  unfold desired. set (d := check_postmaster _ _).
  assert (Hd : ds_admins d = []).
  { unfold d, check_postmaster. assert (H : ds_admins (foldl (place_person (by_id roles))
      (with_groups (open_groups roles) nothing_desired) people) = []); [|by destruct (_ && _)].
    induction people as [|p l IH] using rev_ind; [done|]. rewrite foldl_app. cbn [foldl].
    rewrite <- IH. unfold place_person. destruct (pe_role p ≫= _) as [[id r]|]; [|done].
    destruct (pe_email p); [destruct (_ ==? Admin)|]; by destruct (pe_sub p). }
  assert (H : ds_admins (foldl (app_step (by_id roles) people) d apps)
    = ds_admins d ++ (apps ≫= tasks_of (by_id roles) people)); [|by rewrite H, Hd].
  clear Hd. induction apps as [|a l IH] using rev_ind; [cbn; by rewrite app_nil_r|].
  rewrite foldl_app. cbn [foldl]. rewrite app_step_admins, IH, bind_app. cbn.
  by rewrite app_nil_r, app_assoc.
Qed.

(** A person let into the app, whose role is of the level that administers it. *)
Definition administers (roles : list RoleDef) (app : Installed) (level : Role) (p : Person) : Prop :=
  (∀ id, id ∈ in_allowed app → is_Some (by_id roles !! id)) ∧
  ∃ id r, pe_role p = Some id ∧ by_id roles !! id = Some r ∧ id ∈ in_allowed app ∧
    role_le (floor_of (in_manifest app)) (rd_level r) ∧ role_le level (rd_level r).

Lemma is_inside_spec roles app p :
  is_inside (admission (by_id roles) app).1 p = true ↔
  (∀ id, id ∈ in_allowed app → is_Some (by_id roles !! id)) ∧
  ∃ id r, pe_role p = Some id ∧ by_id roles !! id = Some r ∧ id ∈ in_allowed app ∧
    role_le (floor_of (in_manifest app)) (rd_level r).
Proof.
  unfold is_inside. destruct (pe_role p) as [id|]; [|naive_solver].
  rewrite bool_decide_eq_true, list_elem_of_fmap. setoid_rewrite admission_spec. split.
  - intros (r & -> & Hall & i & Hi & Er & Hle). split; [done|].
    pose proof (by_id_lookup _ _ _ Er) as [-> _]. exists i, r. done.
  - intros (Hall & i & r & [= ->] & Er & Hi & Hle). exists r.
    pose proof (by_id_lookup _ _ _ Er) as [-> _]. split; [done|]. split; [done|]. by exists i.
Qed.

Lemma admin_task_spec roles people app level p t :
  NoDup (pe_name <$> people) → p ∈ people →
  admin_task (by_id roles) (at_app t) level
    (keep (is_inside (admission (by_id roles) app).1) people) p = Some t ↔
  pe_name p = at_person t ∧ pe_sub p = Some (at_sub t) ∧
  (at_admin t = true ↔ administers roles app level p).
Proof.
  intros Hpeople Hp. unfold admin_task. set (adm := any_of _ _ && _).
  assert (Hadm : adm = true ↔ administers roles app level p).
  { unfold adm, any_of. rewrite andb_true_iff, existsb_exists. unfold administers. split.
    - intros [(i & Hi & Ei) Hl]. apply list_elem_of_In, elem_of_keep in Hi as [Hi Hip].
      apply bool_decide_eq_true in Ei.
      assert (i = p) as -> by by eapply (NoDup_fmap_inj_on pe_name people).
      apply is_inside_spec in Hi as [Hall (id & r & Er & El & Hid & Hle)]. split; [done|].
      exists id, r. rewrite Er in Hl. cbn in Hl. rewrite El in Hl.
      by apply bool_decide_eq_true in Hl.
    - intros (Hall & id & r & Er & El & Hid & Hle & Hlev). split.
      + exists p. split; [|by rewrite bool_decide_true]. apply list_elem_of_In, elem_of_keep.
        split; [|done]. apply is_inside_spec. split; [done|]. by exists id, r.
      + rewrite Er. cbn. rewrite El. by apply bool_decide_eq_true. }
  clearbody adm. destruct t as [ta tp ts tadm]. cbn in *.
  destruct (pe_sub p) as [s|]; cbn; [|naive_solver]. rewrite <- Hadm.
  destruct adm, tadm; naive_solver.
Qed.

(** What an app told by command hears: every person with an identity, once each, and that
    they administer it exactly when they are let in with a role of the level asked - so a
    role lowered, or taken away, or no longer allowed, takes the right back. *)
Theorem admins_told (roles : list RoleDef) (people : list Person) (apps : list Installed)
    (app : Installed) (a : Admins) (how : AdminsApply) (t : AdminTask)
    (Happs : NoDup ((λ a, md_name (mf_metadata (in_manifest a))) <$> apps))
    (Hpeople : NoDup (pe_name <$> people)) (Hin : app ∈ apps)
    (Ha : admins_of app = Some a) (Hhow : adm_apply a = Some how)
    (Ht : at_app t = md_name (mf_metadata (in_manifest app))) :
  t ∈ ds_admins (desired roles people apps) ↔
  ∃ p, p ∈ people ∧ pe_name p = at_person t ∧ pe_sub p = Some (at_sub t) ∧
    (at_admin t = true ↔ administers roles app (adm_level a) p).
Proof.
  rewrite desired_admins, list_elem_of_bind.
  pose proof (λ p, admin_task_spec roles people app (adm_level a) p t Hpeople) as Htask.
  split.
  - intros (x & Hx & Hxin).
    assert (Hn : md_name (mf_metadata (in_manifest x)) = at_app t).
    { unfold tasks_of in Hx. destruct (admins_of x) as [b|]; [|by apply elem_of_nil in Hx].
      destruct (adm_apply b); [|by apply elem_of_nil in Hx].
      apply list_elem_of_omap in Hx as (p & _ & Hp). unfold admin_task in Hp.
      destruct (pe_sub p); cbn in Hp; [|done]. by injection Hp as <-. }
    assert (x = app) as ->.
    { eapply (NoDup_fmap_inj_on (λ a, md_name (mf_metadata (in_manifest a))) apps); try done. congruence. }
    unfold tasks_of in Hx. rewrite Ha, Hhow, <- Ht in Hx.
    apply list_elem_of_omap in Hx as (p & Hp & Hpt). exists p. split; [done|]. by apply Htask.
  - intros (p & Hp & Hpt). exists app. split; [|done]. unfold tasks_of.
    rewrite Ha, Hhow, <- Ht. apply list_elem_of_omap. exists p. split; [done|]. by apply Htask.
Qed.

(** A quota below half a millionth of its claim's unit is written as no quota at all. *)
Lemma quota_rounds_to_zero : amount QGiB 1 = "0" ∧ amount QMiB 1048577 = "1.000001".
Proof. split; by vm_compute. Qed.

(** ** A household *)

Module Sample.
Definition admins : Admins := {|
  adm_level := Admin; adm_means := "every photo";
  adm_apply := Some {| aa_service := None; aa_grant := ["grant"]; aa_revoke := ["revoke"] |} |}.
Definition access : Access := {|
  access_floor := User; access_admins := Some admins; access_claims := ∅; access_quota := None;
  access_members := None; access_accounts := None; access_nodes := None |}.
Definition immich : Installed := {|
  in_manifest := {| mf_api_version := V1; mf_kind := App;
    mf_metadata := {| md_name := "immich"; md_hlb := None; md_criticality := None;
                      md_display_name := None; md_category := None; md_homepage := None |};
    mf_spec := {| sp_image := example_image; sp_runtime := Manifest.Swarm;
      sp_requires := [Sso SsoNative ["/auth"]]; sp_ingress := []; sp_swarm := default_swarm;
      sp_update := default_update; sp_companions := []; sp_env := ∅; sp_shared_env := ∅;
      sp_security := default_security; sp_files := []; sp_command := []; sp_args := [];
      sp_process := default_process; sp_assertions := []; sp_access := Some access;
      sp_recovery := []; sp_jobs := []; sp_downloads := [] |} |};
  in_allowed := {["family"]} |}.
Definition family : RoleDef := new_role "family" User standard.
Definition alice : Person := {|
  pe_name := "alice"; pe_sub := Some "sub-a"; pe_email := None; pe_role := Some "family";
  pe_quotas := ∅ |}.
Definition held : Desired := desired [family] [alice] [immich].
End Sample.

Lemma who_enters_witness : enters Sample.held "immich" "sub-a".
Proof.
  assert (E : by_id [Sample.family] !! "family" = Some Sample.family) by (by vm_compute).
  apply (who_enters [Sample.family] [Sample.alice] [Sample.immich] Sample.immich "sub-a").
  - apply NoDup_singleton.
  - left.
  - right. split.
    + intros id Hid. unfold Sample.immich in Hid. cbn in Hid. apply elem_of_singleton in Hid as ->.
      by rewrite E.
    + exists Sample.alice, "family", Sample.family. split_and!; [left|done|done|done| |by vm_compute; lia].
      change ("family" ∈ ({["family"]} : gset string)). by apply elem_of_singleton.
Defined.

Lemma admins_told_witness :
  {| at_app := "immich"; at_person := "alice"; at_sub := "sub-a"; at_admin := false |}
    ∈ ds_admins Sample.held.
Proof.
  assert (E : by_id [Sample.family] !! "family" = Some Sample.family) by (by vm_compute).
  apply (admins_told [Sample.family] [Sample.alice] [Sample.immich] Sample.immich Sample.admins
    {| aa_service := None; aa_grant := ["grant"]; aa_revoke := ["revoke"] |}
    {| at_app := "immich"; at_person := "alice"; at_sub := "sub-a"; at_admin := false |});
    [apply NoDup_singleton|apply NoDup_singleton|left|reflexivity|reflexivity|reflexivity|].
  exists Sample.alice. split_and!; [left|reflexivity|reflexivity|]. split; [done|].
  intros (_ & id & r & [= <-] & Er & _ & _ & Hl). rewrite E in Er. injection Er as <-.
  unfold role_le in Hl. cbn in Hl. lia.
Defined.
