(* ===== verification/Accounts.v ===== *)
(** * People in the state store

    [crates/hlb-state/src/lib.rs], [roles.rs]: the roles, the accounts and their mailboxes,
    the tokens of machines, the sessions of browsers, the invitations. A table is a map from
    its primary key - the mailboxes, of which one is looked for by address, the rows in the
    order they were inserted - less the columns of dates nothing reads. Only fingerprints of
    tokens, cookies and links are kept. The database itself answers: what fails here is what
    SQL refuses. *)

From S2P Require Import Prelude RustStr Encoding Rbac Access Users.

(** @ hlb-state/src/lib.rs:39-91 [Error] *)
Inductive Error :=
| Db (why : string) | UnknownRole (role : string) | InvalidRole (role : string)
| MailboxTaken (address : string).

(** ** Tables *)

(** A row of [roles], as it is written: [i64] columns, the level as text. *)
Record RoleRow := {
  rr_name : string; rr_level : string; rr_max_mailboxes : Z; rr_max_permanent : Z;
  rr_max_temporary : Z; rr_max_duration_s : Z; rr_mail_quota : option Z }.
Record UserRow := {
  ur_role : option string; ur_pocket_id : option string; ur_granted_by : option string }.
Record MailboxRow := {
  mr_user : string; mr_local : string; mr_domain : string; mr_default : bool; mr_created_at : string }.
Record TokenRow := {
  tr_fingerprint : string; tr_role : string; tr_user : option string; tr_mailbox : option string }.
Record SessionRow := {
  sr_user : string; sr_subject : option string; sr_created_at : Z; sr_expires_at : Z;
  sr_last_seen : Z; sr_user_agent : option string }.
Record InvitationRow := {
  iv_created_by : string; iv_role : string; iv_created_at : Z; iv_expires_at : Z;
  iv_uses : Z; iv_max_uses : Z; iv_account : option string; iv_note : option string }.

Record Tables := {
  t_roles : gmap string RoleRow;
  t_role_quotas : gmap (string * string) Z;
  t_users : gmap string UserRow;
  t_mailboxes : list MailboxRow;
  t_tokens : gmap string TokenRow;
  t_sessions : gmap string SessionRow;
  t_invitations : gmap string InvitationRow }.

Definition no_tables : Tables := {|
  t_roles := ∅; t_role_quotas := ∅; t_users := ∅; t_mailboxes := []; t_tokens := ∅;
  t_sessions := ∅; t_invitations := ∅ |}.

Definition set_roles (m : gmap string RoleRow) (t : Tables) : Tables := {|
  t_roles := m; t_role_quotas := t_role_quotas t; t_users := t_users t;
  t_mailboxes := t_mailboxes t; t_tokens := t_tokens t; t_sessions := t_sessions t;
  t_invitations := t_invitations t |}.
Definition set_role_quotas (m : gmap (string * string) Z) (t : Tables) : Tables := {|
  t_roles := t_roles t; t_role_quotas := m; t_users := t_users t;
  t_mailboxes := t_mailboxes t; t_tokens := t_tokens t; t_sessions := t_sessions t;
  t_invitations := t_invitations t |}.
Definition set_users (m : gmap string UserRow) (t : Tables) : Tables := {|
  t_roles := t_roles t; t_role_quotas := t_role_quotas t; t_users := m;
  t_mailboxes := t_mailboxes t; t_tokens := t_tokens t; t_sessions := t_sessions t;
  t_invitations := t_invitations t |}.
Definition set_mailboxes (l : list MailboxRow) (t : Tables) : Tables := {|
  t_roles := t_roles t; t_role_quotas := t_role_quotas t; t_users := t_users t;
  t_mailboxes := l; t_tokens := t_tokens t; t_sessions := t_sessions t;
  t_invitations := t_invitations t |}.
Definition set_tokens (m : gmap string TokenRow) (t : Tables) : Tables := {|
  t_roles := t_roles t; t_role_quotas := t_role_quotas t; t_users := t_users t;
  t_mailboxes := t_mailboxes t; t_tokens := m; t_sessions := t_sessions t;
  t_invitations := t_invitations t |}.
Definition set_sessions (m : gmap string SessionRow) (t : Tables) : Tables := {|
  t_roles := t_roles t; t_role_quotas := t_role_quotas t; t_users := t_users t;
  t_mailboxes := t_mailboxes t; t_tokens := t_tokens t; t_sessions := m;
  t_invitations := t_invitations t |}.
Definition set_invitations (m : gmap string InvitationRow) (t : Tables) : Tables := {|
  t_roles := t_roles t; t_role_quotas := t_role_quotas t; t_users := t_users t;
  t_mailboxes := t_mailboxes t; t_tokens := t_tokens t; t_sessions := t_sessions t;
  t_invitations := m |}.

Abbreviation db := (eff Tables Error).

(** ** Roles *)

(** @ hlb-state/src/roles.rs:68-70 [as_u32] *)
Definition as_u32 (v : Z) : N :=
  if ((0 <=? v) && (v <=? Z.of_N u32_max))%Z then Z.to_N v else u32_max.
(** @ hlb-state/src/roles.rs:64-66 [level_of] *)
Definition level_of (s : string) : Role := default User (role_parse s).

(** @ hlb-state/src/roles.rs:92-110 [State::roles] *)
Definition role_of_row (id : string) (quotas : gmap string N) (r : RoleRow) : RoleDef := {|
  rd_id := id; rd_name := rr_name r; rd_level := level_of (rr_level r);
  rd_mail := {| ml_max_mailboxes := as_u32 (rr_max_mailboxes r);
                ml_max_permanent_aliases := as_u32 (rr_max_permanent r);
                ml_max_temporary_aliases := as_u32 (rr_max_temporary r);
                ml_max_duration_s := rr_max_duration_s r;
                ml_quota_bytes := (λ b, Z.to_N (Z.max b 0)) <$> rr_mail_quota r |};
  rd_quotas := quotas |}.

(** @ hlb-state/src/roles.rs:75-84 [State::roles] *)
Definition quotas_of (id : string) (quotas : gmap (string * string) Z) : gmap string N :=
  list_to_map (omap (λ '((role, app), bytes),
    if role ==? id then Some (app, Z.to_N (Z.max bytes 0)) else None) (map_to_list quotas)).

(** @ hlb-state/src/roles.rs:73-112 [State::roles] *)
Definition roles (t : Tables) : list RoleDef :=
  (λ '(id, r), role_of_row id (quotas_of id (t_role_quotas t)) r) <$> btree_entries (t_roles t).

(** @ hlb-state/src/roles.rs:114-116 [State::role] *)
Definition role (id : string) (t : Tables) : option RoleDef :=
  find_first (λ r, rd_id r ==? id) (roles t).

(** @ hlb-state/src/roles.rs:118-131 [State::role_of] *)
Definition role_of (user : string) (t : Tables) : RoleDef :=
  match t_users t !! user ≫= ur_role with
  | Some id => default no_role (role id t)
  | None => no_role
  end.

(** @ hlb-state/src/roles.rs:133-165 [State::put_role] *)
Definition put_role (r : RoleDef) (by_ : string) : db () := λ t,
  if negb (valid_role_id (rd_id r)) then (Err (InvalidRole (rd_id r)), t)
  else if any_of (λ '(id, x), negb (id ==? rd_id r) && (rr_name x ==? rd_name r))
            (map_to_list (t_roles t))
  then (Err (Db "UNIQUE constraint failed: roles.name"), t)
  else
    let m := rd_mail r in
    (Ok (), set_roles (<[rd_id r := {| rr_name := rd_name r; rr_level := role_as_str (rd_level r);
        rr_max_mailboxes := Z.of_N (ml_max_mailboxes m);
        rr_max_permanent := Z.of_N (ml_max_permanent_aliases m);
        rr_max_temporary := Z.of_N (ml_max_temporary_aliases m);
        rr_max_duration_s := ml_max_duration_s m;
        rr_mail_quota := as_i64 <$> ml_quota_bytes m |}]> (t_roles t)) t).

(** @ hlb-state/src/roles.rs:237-258 [State::set_user_role] *)
Definition set_user_role (user id : string) (granted_by : option string) : db () := λ t,
  match role id t with
  | None => (Err (UnknownRole id), t)
  | Some _ =>
      (Ok (), set_users (alter (λ u, {| ur_role := Some id; ur_pocket_id := ur_pocket_id u;
                                        ur_granted_by := granted_by |}) user (t_users t)) t)
  end.

(** @ hlb-state/src/roles.rs:260-277 [State::user_role] *)
Definition user_role (user : string) (t : Tables) : Role :=
  default User (id ← t_users t !! user ≫= ur_role; r ← t_roles t !! id; role_parse (rr_level r)).

(** @ hlb-state/src/roles.rs:279-289 [State::clear_user_role] *)
Definition clear_user_role (user : string) : db bool := λ t,
  match t_users t !! user ≫= ur_role with
  | Some _ =>
      (Ok true, set_users (alter (λ u, {| ur_role := None; ur_pocket_id := ur_pocket_id u;
                                          ur_granted_by := None |}) user (t_users t)) t)
  | None => (Ok false, t)
  end.

(** @ hlb-state/src/roles.rs:317-330 [State::has_other_admin] *)
Definition has_other_admin (except : string) (t : Tables) : bool :=
  any_of (λ '(name, u), negb (name ==? except) &&
      match ur_role u ≫= λ id, t_roles t !! id with
      | Some r => rr_level r ==? "admin"
      | None => false
      end) (map_to_list (t_users t)).

(** @ hlb-state/src/roles.rs:202-210 [State::delete_role] *)
Definition delete_role (id : string) : db bool := λ t,
  (Ok (bool_decide (is_Some (t_roles t !! id))), set_roles (delete id (t_roles t)) t).

(** @ hlb-state/src/roles.rs:212-235 [State::set_role_quota] *)
Definition set_role_quota (role app : string) (bytes : option N) : db () := λ t,
  (Ok (), set_role_quotas
     (match bytes with
      | Some b => <[(role, app) := as_i64 b]> (t_role_quotas t)
      | None => delete (role, app) (t_role_quotas t)
      end) t).

(** ** Accounts *)

(** @ hlb-state/src/lib.rs:2144-2165 [State::upsert_user] *)
Definition upsert_user (name role : string) (pocket_id : option string) : db () := λ t,
  let row :=
    match t_users t !! name with
    | None => {| ur_role := Some role; ur_pocket_id := pocket_id; ur_granted_by := None |}
    | Some u =>
        {| ur_role := if ur_role u is Some r then Some r else Some role;
           ur_pocket_id := if pocket_id is Some p then Some p else ur_pocket_id u;
           ur_granted_by := ur_granted_by u |}
    end in
  (Ok (), set_users (<[name := row]> (t_users t)) t).

(** @ hlb-state/src/lib.rs:2167-2179 [State::create_user] *)
Definition create_user (name role : string) : db bool := λ t,
  match t_users t !! name with
  | Some _ => (Ok false, t)
  | None =>
      (Ok true, set_users (<[name := {| ur_role := Some role; ur_pocket_id := None;
                                        ur_granted_by := None |}]> (t_users t)) t)
  end.

(** @ hlb-state/src/lib.rs:2181-2195 [State::users] *)
Definition users (t : Tables) : list (string * option string * option string) :=
  (λ '(n, u), (n, ur_role u, ur_pocket_id u)) <$> btree_entries (t_users t).

(** @ hlb-state/src/lib.rs:4444-4458 [State::user_by_pocket_id] *)
Definition user_by_pocket_id (sub : string) (t : Tables) : option string :=
  fst <$> find_first (λ '(_, u), ur_pocket_id u ==? Some sub) (btree_entries (t_users t)).

(** @ hlb-state/src/lib.rs:4460-4476 [State::upsert_user_pocket_id] *)
Definition upsert_user_pocket_id (user sub : string) : db bool := λ t,
  match t_users t !! user with
  | Some u =>
      if (ur_pocket_id u ==? None) || (ur_pocket_id u ==? Some sub) then
        (Ok true, set_users (<[user := {| ur_role := ur_role u; ur_pocket_id := Some sub;
                                          ur_granted_by := ur_granted_by u |}]> (t_users t)) t)
      else (Ok false, t)
  | None => (Ok false, t)
  end.

(** ** Mailboxes *)

Definition at_address (local domain : string) (m : MailboxRow) : bool :=
  (mr_local m ==? local) && (mr_domain m ==? domain).
Definition of_user (user : string) (m : MailboxRow) : bool := mr_user m ==? user.

(** @ hlb-state/src/lib.rs:2229-2243 [State::mailbox_owner] *)
Definition mailbox_owner (local domain : string) (t : Tables) : option string :=
  mr_user <$> head (sort_by (λ a b, String.compare (mr_created_at a) (mr_created_at b))
                      (keep (at_address local domain) (t_mailboxes t))).

(** The insert is refused by the trigger of migration 0045 as by the check before it, and
    needs the account recorded.
    @ hlb-state/src/lib.rs:2197-2227 [State::add_mailbox] *)
Definition add_mailbox (now user local domain : string) (is_default : bool) : db () := λ t,
  if (if mailbox_owner local domain t is Some owner then negb (owner ==? user) else false) then
    (Err (MailboxTaken (local +:+ "@" +:+ domain)), t)
  else if any_of (λ m, at_address local domain m && negb (of_user user m)) (t_mailboxes t) then
    (Err (Db "this address is another account's mailbox"), t)
  else if any_of (λ m, of_user user m && (mr_local m ==? local)) (t_mailboxes t) then (Ok (), t)
  else if t_users t !! user is None then (Err (Db "FOREIGN KEY constraint failed"), t)
  else
    (Ok (), set_mailboxes (t_mailboxes t ++
       [{| mr_user := user; mr_local := local; mr_domain := domain; mr_default := is_default;
           mr_created_at := now |}]) t).

(** The default one first.
    @ hlb-state/src/lib.rs:2245-2263 [State::mailboxes] *)
Definition mailboxes (user : string) (t : Tables) : list (string * string * bool) :=
  (λ m, (mr_local m, mr_domain m, mr_default m)) <$>
    sort_by (λ a b, then_with (bool_cmp (mr_default b) (mr_default a))
                      (String.compare (mr_local a) (mr_local b)))
      (keep (of_user user) (t_mailboxes t)).

(** @ hlb-state/src/lib.rs:2265-2289 [State::set_default_mailbox] *)
Definition set_default_mailbox (user local : string) : db bool := λ t,
  if any_of (λ m, of_user user m && (mr_local m ==? local)) (t_mailboxes t) then
    (Ok true, set_mailboxes ((λ m,
       if of_user user m then
         {| mr_user := mr_user m; mr_local := mr_local m; mr_domain := mr_domain m;
            mr_default := mr_local m ==? local; mr_created_at := mr_created_at m |}
       else m) <$> t_mailboxes t) t)
  else (Ok false, t).

(** @ hlb-state/src/lib.rs:2291-2298 [State::remove_mailbox] *)
Definition remove_mailbox (user local : string) : db () :=
  eff_put (λ t, set_mailboxes
    (keep (λ m, negb (of_user user m && (mr_local m ==? local))) (t_mailboxes t)) t).

(** ** Tokens of machines *)

(** The fingerprint is unique over the table.
    @ hlb-state/src/lib.rs:2572-2593 [State::store_token] *)
Definition store_token (name fingerprint role : string) : db () := λ t,
  if any_of (λ '(n, x), negb (n ==? name) && (tr_fingerprint x ==? fingerprint))
       (map_to_list (t_tokens t))
  then (Err (Db "UNIQUE constraint failed: api_tokens.fingerprint"), t)
  else (Ok (), set_tokens (<[name := {| tr_fingerprint := fingerprint; tr_role := role;
                                        tr_user := None; tr_mailbox := None |}]> (t_tokens t)) t).

(** @ hlb-state/src/lib.rs:2595-2619 [State::find_token] *)
Definition find_token (presented : string) (t : Tables) : option (string * string * Role) :=
  let fingerprint := fingerprint presented in
  (λ '(name, x), (name, tr_fingerprint x, default User (role_parse (tr_role x)))) <$>
    find_first (λ '(_, x), tr_fingerprint x ==? fingerprint) (btree_entries (t_tokens t)).

(** @ hlb-state/src/lib.rs:2630-2645 [State::list_tokens] *)
Definition list_tokens (t : Tables) : list (string * string) :=
  (λ '(name, x), (name, tr_role x)) <$> btree_entries (t_tokens t).
(** @ hlb-state/src/lib.rs:2647-2654 [State::revoke_token] *)
Definition revoke_token (name : string) : db bool := λ t,
  (Ok (bool_decide (is_Some (t_tokens t !! name))), set_tokens (delete name (t_tokens t)) t).
(** @ hlb-state/src/lib.rs:2656-2665 [State::has_tokens] *)
Definition has_tokens (t : Tables) : bool := (0 <? size (t_tokens t))%nat.

(** @ hlb-state/src/lib.rs:2434-2443 [State::token_user] *)
Definition token_user (name : string) (t : Tables) : option string := t_tokens t !! name ≫= tr_user.
(** @ hlb-state/src/lib.rs:2387-2408 [State::token_target] *)
Definition token_target (name : string) (t : Tables) : option string * option string :=
  match t_tokens t !! name with Some x => (tr_user x, tr_mailbox x) | None => (None, None) end.
(** @ hlb-state/src/lib.rs:2420-2432 [State::set_token_user] *)
Definition set_token_user (name : string) (user : option string) : db () :=
  eff_put (λ t, set_tokens (alter (λ x, {| tr_fingerprint := tr_fingerprint x; tr_role := tr_role x;
     tr_user := user; tr_mailbox := tr_mailbox x |}) name (t_tokens t)) t).
(** @ hlb-state/src/lib.rs:2410-2418 [State::set_token_mailbox] *)
Definition set_token_mailbox (name : string) (mailbox : option string) : db () :=
  eff_put (λ t, set_tokens (alter (λ x, {| tr_fingerprint := tr_fingerprint x; tr_role := tr_role x;
     tr_user := tr_user x; tr_mailbox := mailbox |}) name (t_tokens t)) t).

(** ** References *)

(** [str::chars().count()]: the bytes that do not continue a character. *)
Fixpoint char_count (s : string) : nat :=
  match s with
  | "" => 0
  | String c s =>
      if ((128 <=? byte_of c) && (byte_of c <? 192))%N then char_count s else S (char_count s)
  end.

(** @ hlb-state/src/lib.rs:4153-4154 [SESSION_REFERENCE_LEN] *)
Definition SESSION_REFERENCE_LEN : nat := 8.
(** Of a fingerprint, which is hexadecimal.
    @ hlb-state/src/lib.rs:4156-4158 [session_reference] *)
Definition session_reference (fingerprint : string) : string :=
  of_chars (take SESSION_REFERENCE_LEN (chars fingerprint)).
(** @ hlb-state/src/lib.rs:4160-4164 [session_reference_of] *)
Definition session_reference_of (presented : string) : string :=
  session_reference (fingerprint presented).

(** [substr(fingerprint, 1, reference.len()) = reference]: the fingerprint is hexadecimal,
    its characters are bytes. *)
Definition refers (reference fingerprint : string) : bool :=
  of_chars (take (String.length reference) (chars fingerprint)) ==? reference.

(** ** Sessions *)

(** [i64::saturating_add]. *)
Definition saturating_add_i64 (a b : Z) : Z := Z.max (- 2 ^ 63) (Z.min (2 ^ 63 - 1) (a + b)).

(** @ hlb-state/src/lib.rs:4166-4180 [SessionInfo] *)
Record SessionInfo := {
  si_reference : string; si_user : string; si_created_at : Z; si_expires_at : Z;
  si_last_seen : Z; si_user_agent : option string }.

(** @ hlb-state/src/lib.rs:4265-4291 [State::open_session] *)
Definition open_session (presented user : string) (subject : option string) (now duration_s : Z)
    (user_agent : option string) : db () := λ t,
  if t_users t !! user is None then (Err (Db "FOREIGN KEY constraint failed"), t)
  else
    (Ok (), set_sessions (<[fingerprint presented :=
       {| sr_user := user; sr_subject := subject; sr_created_at := now;
          sr_expires_at := saturating_add_i64 now duration_s; sr_last_seen := now;
          sr_user_agent := user_agent |}]> (t_sessions t)) t).

Definition live (now : Z) (x : SessionRow) : bool := (now <? sr_expires_at x)%Z.

(** @ hlb-state/src/lib.rs:4293-4320 [State::find_session] *)
Definition find_session (presented : string) (now : Z) (t : Tables) : option (string * option string) :=
  x ← t_sessions t !! fingerprint presented;
  if live now x then Some (sr_user x, sr_subject x) else None.

(** @ hlb-state/src/lib.rs:4322-4337 [State::touch_session] *)
Definition touch_session (presented : string) (now duration_s : Z) : db () :=
  eff_put (λ t, set_sessions (alter (λ x,
    if live now x then
      {| sr_user := sr_user x; sr_subject := sr_subject x; sr_created_at := sr_created_at x;
         sr_expires_at := saturating_add_i64 now duration_s; sr_last_seen := now;
         sr_user_agent := sr_user_agent x |}
    else x) (fingerprint presented) (t_sessions t)) t).

(** @ hlb-state/src/lib.rs:4339-4346 [State::close_session] *)
Definition close_session (presented : string) : db bool := λ t,
  let f := fingerprint presented in
  (Ok (bool_decide (is_Some (t_sessions t !! f))), set_sessions (delete f (t_sessions t)) t).

(** @ hlb-state/src/lib.rs:4348-4365 [State::close_session_by_reference] *)
Definition close_session_by_reference (user reference : string) : db bool := λ t,
  if negb (char_count reference =? SESSION_REFERENCE_LEN)%nat then (Ok false, t)
  else
    let left := filter (λ kv, ((sr_user kv.2 ==? user) && refers reference kv.1) = false) (t_sessions t) in
    (Ok (size left <? size (t_sessions t))%nat, set_sessions left t).

(** @ hlb-state/src/lib.rs:4367-4377 [State::close_all_sessions] *)
Definition close_all_sessions (user : string) : db nat := λ t,
  let left := filter (λ kv, sr_user kv.2 ≠ user) (t_sessions t) in
  (Ok (size (t_sessions t) - size left)%nat, set_sessions left t).

(** @ hlb-state/src/lib.rs:4431-4442 [State::purge_expired_sessions] *)
Definition purge_expired_sessions (now : Z) : db nat := λ t,
  let left := filter (λ kv, live now kv.2 = true) (t_sessions t) in
  (Ok (size (t_sessions t) - size left)%nat, set_sessions left t).

(** @ hlb-state/src/lib.rs:4391-4403 [State::sessions_of] *)
Definition info_of (f : string) (x : SessionRow) : SessionInfo :=
  {| si_reference := session_reference f; si_user := sr_user x; si_created_at := sr_created_at x;
     si_expires_at := sr_expires_at x; si_last_seen := sr_last_seen x;
     si_user_agent := sr_user_agent x |}.
(** @ hlb-state/src/lib.rs:4379-4404 [State::sessions_of] *)
Definition sessions_of (user : string) (now : Z) (t : Tables) : list SessionInfo :=
  sort_by (λ a b, Z.compare (si_last_seen b) (si_last_seen a))
    (omap (λ '(f, x), if (sr_user x ==? user) && live now x then Some (info_of f x) else None)
       (btree_entries (t_sessions t))).
(** @ hlb-state/src/lib.rs:4406-4429 [State::all_sessions] *)
Definition all_sessions (now : Z) (t : Tables) : list SessionInfo :=
  sort_by (λ a b, Z.compare (si_last_seen b) (si_last_seen a))
    (omap (λ '(f, x), if live now x then Some (info_of f x) else None)
       (btree_entries (t_sessions t))).

(** ** Invitations *)

(** @ hlb-state/src/lib.rs:4631-4665 [State::create_invitation] *)
Definition create_invitation (presented created_by role : string) (now duration_s max_uses : Z)
    (note : option string) : db () := λ t,
  let f := fingerprint presented in
  if t_invitations t !! f is Some _ then (Err (Db "UNIQUE constraint failed: invitations.fingerprint"), t)
  else
    (Ok (), set_invitations (<[f :=
       {| iv_created_by := created_by; iv_role := role; iv_created_at := now;
          iv_expires_at := saturating_add_i64 now duration_s; iv_uses := 0;
          iv_max_uses := Z.max max_uses 1; iv_account := None; iv_note := note |}]>
       (t_invitations t)) t).

(** An invitation that would let someone in.
    @ hlb-state/src/lib.rs:4690-4693 [State::consume_invitation] *)
Definition opens_now (now : Z) (i : InvitationRow) : bool :=
  ((iv_uses i <? iv_max_uses i) && (now <? iv_expires_at i))%Z.

Definition with_use (uses : Z) (account : option string) (i : InvitationRow) : InvitationRow :=
  {| iv_created_by := iv_created_by i; iv_role := iv_role i; iv_created_at := iv_created_at i;
     iv_expires_at := iv_expires_at i; iv_uses := uses; iv_max_uses := iv_max_uses i;
     iv_account := account; iv_note := iv_note i |}.

(** @ hlb-state/src/lib.rs:4667-4720 [State::consume_invitation] *)
Definition consume_invitation (presented account : string) (now : Z) : db (option string) := λ t,
  let f := fingerprint presented in
  match t_invitations t !! f with
  | Some i =>
      if opens_now now i then
        (Ok (Some (iv_role i)),
         set_invitations (<[f := with_use (iv_uses i + 1) (Some account) i]> (t_invitations t)) t)
      else (Ok None, t)
  | None => (Ok None, t)
  end.

(** @ hlb-state/src/lib.rs:4722-4734 [State::invitation_open] *)
Definition invitation_open (presented : string) (now : Z) (t : Tables) : bool :=
  match t_invitations t !! fingerprint presented with Some i => opens_now now i | None => false end.

(** @ hlb-state/src/lib.rs:4767-4787 [State::revoke_invitation] *)
Definition revoke_invitation (reference : string) : db bool := λ t,
  if negb (char_count reference =? SESSION_REFERENCE_LEN)%nat then (Ok false, t)
  else
    let hit f i := refers reference f && (iv_uses i <? iv_max_uses i)%Z in
    (Ok (any_of (λ '(f, i), hit f i) (map_to_list (t_invitations t))),
     set_invitations (map_imap (λ f i, Some (if hit f i then with_use (iv_max_uses i) (iv_account i) i else i))
                        (t_invitations t)) t).

(** @ hlb-state/src/roles.rs:167-200 [State::role_in_use] *)
Inductive InUse := HeldBy (names : list string) | LetInto (apps : list string) | Invited (open : nat).
Definition role_in_use (id : string) (let_into : list string) (now : Z) (t : Tables) : option InUse :=
  let held := omap (λ '(n, u), if ur_role u ==? Some id then Some n else None) (btree_entries (t_users t)) in
  if decide (held = []) then
    if decide (let_into = []) then
      let open := length (keep (λ '(_, i), (iv_role i ==? id) && opens_now now i)
                            (map_to_list (t_invitations t))) in
      if (0 <? open)%nat then Some (Invited open) else None
    else Some (LetInto let_into)
  else Some (HeldBy held).

(** ** What a link grants *)

(** What is done to the invitations. *)
Inductive InviteOp :=
| Create (presented created_by role : string) (now duration_s max_uses : Z) (note : option string)
| Consume (presented account : string) (now : Z)
| Revoke (reference : string).

(** A person let in: by which link, under which name, with which role, when. *)
Record Grant := { gt_fingerprint : string; gt_account : string; gt_role : string; gt_at : Z }.

Definition invite_step (op : InviteOp) (t : Tables) : list Grant * Tables :=
  match op with
  | Create presented by_ role now duration_s max_uses note =>
      ([], (create_invitation presented by_ role now duration_s max_uses note t).2)
  | Consume presented account now =>
      match consume_invitation presented account now t with
      | (Ok (Some role), t) =>
          ([{| gt_fingerprint := fingerprint presented; gt_account := account; gt_role := role; gt_at := now |}], t)
      | (_, t) => ([], t)
      end
  | Revoke reference => ([], (revoke_invitation reference t).2)
  end.

Fixpoint invite_run (ops : list InviteOp) (t : Tables) : list Grant * Tables :=
  match ops with
  | [] => ([], t)
  | op :: ops =>
      let '(g, t) := invite_step op t in
      let '(gs, t) := invite_run ops t in (g ++ gs, t)
  end.

(** The grants of a link. *)
Definition grants_of (f : string) (gs : list Grant) : list Grant := keep (λ g, gt_fingerprint g ==? f) gs.

(** The link an operation asks for, and what the link it makes is. *)
Definition creates (f : string) (op : InviteOp) : bool :=
  match op with Create presented _ _ _ _ _ _ => fingerprint presented ==? f | _ => false end.
Definition made_with (op : InviteOp) (i : InvitationRow) : Prop :=
  match op with
  | Create _ created_by role now duration_s max_uses note =>
      iv_created_by i = created_by ∧ iv_role i = role ∧ iv_created_at i = now ∧
      iv_expires_at i = saturating_add_i64 now duration_s ∧ iv_max_uses i = Z.max max_uses 1 ∧ iv_note i = note
  | _ => False
  end.

(** What a table owes what was done and the grants made: a link as the first asked for it, with as
    many uses as grants, each of its role and before its end. *)
Definition accounts_for (past : list InviteOp) (gs : list Grant) (t : Tables) : Prop :=
  ∀ f, match t_invitations t !! f with
       | Some i => (∃ op, find_first (creates f) past = Some op ∧ made_with op i) ∧
                   (Z.of_nat (length (grants_of f gs)) ≤ iv_uses i ≤ iv_max_uses i)%Z ∧
                   ∀ g, g ∈ grants_of f gs → gt_role g = iv_role i ∧ (gt_at g < iv_expires_at i)%Z
       | None => grants_of f gs = [] ∧ find_first (creates f) past = None
       end.

#[local] Arguments grants_of : simpl never.

Lemma grants_of_app f gs hs : grants_of f (gs ++ hs) = grants_of f gs ++ grants_of f hs.
Proof. apply keep_app. Qed.

Lemma grants_of_one f g : grants_of f [g] = if gt_fingerprint g ==? f then [g] else [].
Proof. unfold grants_of. by rewrite keep_cons. Qed.

Lemma first_created f past op :
  find_first (creates f) (past ++ [op]) =
    match find_first (creates f) past with Some first => Some first | None => if creates f op then Some op else None end.
Proof. induction past as [|x past IH]; [done|]. cbn [app find_first]. by destruct (creates f x). Qed.
Lemma same_made op i j :
  iv_created_by j = iv_created_by i → iv_role j = iv_role i → iv_created_at j = iv_created_at i →
  iv_expires_at j = iv_expires_at i → iv_max_uses j = iv_max_uses i → iv_note j = iv_note i → made_with op i → made_with op j.
Proof. intros. destruct op; [|done..]. cbn in *. naive_solver congruence. Qed.
Lemma still_made f past op i uses who :
  (∃ first, find_first (creates f) past = Some first ∧ made_with first i) →
  ∃ first, find_first (creates f) (past ++ [op]) = Some first ∧ made_with first (with_use uses who i).
Proof. intros (first & E & H). exists first. rewrite first_created, E. split; [done|]. by apply (same_made first i). Qed.
(** An operation that asks for no link leaves those first asked for. *)
Lemma not_created f past op : creates f op = false → find_first (creates f) (past ++ [op]) = find_first (creates f) past.
Proof. intros E. rewrite first_created, E. by destruct (find_first _ past). Qed.

Lemma create_accounts p by_ role now duration_s max_uses note past gs t :
  let op := Create p by_ role now duration_s max_uses note in
  accounts_for past gs t → accounts_for (past ++ [op]) gs (create_invitation p by_ role now duration_s max_uses note t).2.
Proof.
  intros op H f. specialize (H f) as Hf. unfold create_invitation.
  destruct (decide (fingerprint p = f)) as [<-|Hne].
  - destruct (t_invitations t !! fingerprint p) as [i|] eqn:Ep; cbn [snd].
    + rewrite Ep. destruct Hf as ((first & E & Hm) & Hrest). split; [|done]. exists first. by rewrite first_created, E.
    + destruct Hf as [Hg E]. cbn [t_invitations set_invitations]. rewrite lookup_insert_eq, Hg. split_and!; cbn [length iv_uses iv_max_uses]; [|lia..|by intros g Hin%elem_of_nil].
      exists op. rewrite first_created, E. cbn [creates op]. by rewrite bool_decide_true.
  - rewrite not_created by (by apply bool_decide_eq_false). destruct (t_invitations t !! fingerprint p); [exact Hf|].
    cbn [snd t_invitations set_invitations]. by rewrite lookup_insert_ne.
Qed.
Lemma invite_step_accounts op past gs t :
  accounts_for past gs t → accounts_for (past ++ [op]) (gs ++ (invite_step op t).1) (invite_step op t).2.
Proof.
  intros H. destruct op as [p b r n d m o|p a n|r]; cbn [invite_step].
  { cbn [fst snd]. rewrite app_nil_r. by apply create_accounts. }
  all: intros f; specialize (H f); rewrite grants_of_app.
  - assert (Hnc : find_first (creates f) (past ++ [Consume p a n]) = find_first (creates f) past) by (by apply not_created).
    unfold consume_invitation. destruct (t_invitations t !! fingerprint p) as [i|] eqn:Ep;
      [|cbn; by rewrite app_nil_r, Hnc].
    destruct (opens_now n i) eqn:Eo; cbn; [|by rewrite app_nil_r, Hnc].
    unfold opens_now in Eo. apply andb_true_iff in Eo as [Eo%Z.ltb_lt En%Z.ltb_lt].
    rewrite grants_of_one. cbn [gt_fingerprint]. destruct (decide (fingerprint p = f)) as [<-|Hne].
    + rewrite bool_decide_true, lookup_insert_eq by done. rewrite Ep in H. destruct H as (Hm & Hle & Hr).
      split; [by apply still_made|]. cbn. rewrite length_app. cbn. split; [lia|].
      intros g [Hg|Hg%list_elem_of_singleton]%elem_of_app; [by apply Hr|by subst].
    + rewrite bool_decide_false, lookup_insert_ne by done. cbn. by rewrite app_nil_r, Hnc.
  - assert (Hnc : find_first (creates f) (past ++ [Revoke r]) = find_first (creates f) past) by (by apply not_created).
    cbn [fst snd]. unfold grants_of at 2 4 6. cbn. rewrite app_nil_r. unfold revoke_invitation. destruct (negb _); [cbn; by rewrite Hnc|]. cbn.
    rewrite map_lookup_imap. destruct (t_invitations t !! f) as [i|]; [|by rewrite Hnc]. cbn.
    destruct (refers r f && _) eqn:Eh; [|by rewrite Hnc]. cbn. destruct H as (Hm & Hle & Hr).
    split; [by apply still_made|]. split; [lia|done].
Qed.

(** C33. A link lets in no more people than it was made for - one at least -, none at or past the end it was
    made with, and gives the role it was made with, to all of them: the link of a fingerprint is as
    the first that asked for it made it - its maker, its role, its dates, its count, its note -,
    whatever is created, used, tried again and revoked since no link was there, in any order,
    counting every person each link let in. *)
Theorem invitations_bounded (ops : list InviteOp) (gs : list Grant) (t t' : Tables)
    (Hempty : t_invitations t = ∅) (H : invite_run ops t = (gs, t')) (f : string) :
  match find_first (creates f) ops with
  | Some (Create _ created_by role now duration_s max_uses note as op) =>
      (∃ i, t_invitations t' !! f = Some i ∧ made_with op i) ∧
      (Z.of_nat (length (grants_of f gs)) ≤ Z.max max_uses 1)%Z ∧
      ∀ g, g ∈ grants_of f gs → gt_role g = role ∧ (gt_at g < saturating_add_i64 now duration_s)%Z
  | _ => t_invitations t' !! f = None ∧ grants_of f gs = []
  end.
Proof.
  assert (Hrun : ∀ ops past gs0 t, accounts_for past gs0 t →
    accounts_for (past ++ ops) (gs0 ++ (invite_run ops t).1) (invite_run ops t).2).
  { clear. induction ops as [|op ops IH]; intros past gs0 t Hacc; cbn; [by rewrite !app_nil_r|].
    pose proof (invite_step_accounts op past gs0 t Hacc) as Hs.
    destruct (invite_step op t) as [g t1]. cbn in Hs. specialize (IH _ _ _ Hs).
    destruct (invite_run ops t1) as [gs t2]. cbn in *. by rewrite <- !app_assoc in IH. }
  assert (H0 : accounts_for [] [] t) by (intros g; by rewrite Hempty, lookup_empty).
  specialize (Hrun ops [] [] t H0 f). rewrite H in Hrun. cbn [fst snd app] in Hrun.
  destruct (t_invitations t' !! f) as [i|].
  - destruct Hrun as ((op & -> & Hm) & Hle & Hr). destruct op as [p b r n d m o|p a n|r]; [|done..].
    pose proof Hm as (_ & Er & _ & Ee & Ex & _). split; [by exists i|]. rewrite <- Er, <- Ee, <- Ex. split; [lia|done].
  - by destruct Hrun as [? ->].
Qed.

Lemma invitations_bounded_witness :
  let ops := [Create "link" "alice" "family" 100 3600 1 None; Consume "link" "bob" 200;
              Create "link" "mallory" "admin" 200 3600 9 None; Consume "link" "eve" 300] in
  (invite_run ops no_tables).1 = [{| gt_fingerprint := fingerprint "link"; gt_account := "bob"; gt_role := "family"; gt_at := 200 |}] ∧
  ∃ i, t_invitations (invite_run ops no_tables).2 !! fingerprint "link" = Some i ∧
    made_with (Create "link" "alice" "family" 100 3600 1 None) i.
Proof.
  intros ops. assert (E : find_first (creates (fingerprint "link")) ops = Some (Create "link" "alice" "family" 100 3600 1 None)) by (by vm_compute).
  split; [by vm_compute|]. destruct (invite_run ops no_tables) as [gs t] eqn:Er.
  pose proof (invitations_bounded ops gs no_tables t eq_refl Er (fingerprint "link")) as H. rewrite E in H. apply H.
Defined.

(** ** Signing a device out *)

Definition ascii_text (s : string) : Prop := Forall (λ c, (byte_of c < 128)%N) (chars s).

Lemma hex_byte_ascii b : (b < 256)%N → Forall (λ c, (byte_of c < 128)%N) (hex_byte b).
Proof.
  intros Hb.
  assert (H : ∀ b, (b < 256)%N → forallb (λ c, (byte_of c <? 128)%N) (hex_byte b) = true).
  { apply (below_forallb 256 (λ b, forallb (λ c, (byte_of c <? 128)%N) (hex_byte b))). by vm_compute. }
  specialize (H b Hb). rewrite forallb_forall in H. apply Forall_forall. intros c Hc.
  apply N.ltb_lt, H, list_elem_of_In, Hc.
Qed.

Lemma fingerprint_ascii s : ascii_text (fingerprint s).
Proof.
  unfold ascii_text, fingerprint, sha256_hex. rewrite chars_of_chars.
  pose proof (sha256_ok (bytes_of s)) as H. induction H as [|b l Hb Hl IH]; [constructor|].
  rewrite bind_cons. apply Forall_app. split; [by apply hex_byte_ascii|done].
Qed.

Lemma char_count_ascii l : Forall (λ c, (byte_of c < 128)%N) l → char_count (of_chars l) = length l.
Proof.
  induction 1 as [|c l Hc Hl IH]; [done|]. cbn. destruct (N.leb_spec 128 (byte_of c)); [lia|].
  cbn. by rewrite IH.
Qed.

Lemma refers_spec reference f :
  ascii_text f → char_count reference = SESSION_REFERENCE_LEN →
  refers reference f = true ↔ session_reference f = reference.
Proof.
  intros Hf Hc. unfold refers, session_reference. rewrite bool_decide_eq_true. split; intros E.
  - assert (Hl : length (take (String.length reference) (chars f)) = SESSION_REFERENCE_LEN).
    { rewrite <- char_count_ascii, E by by apply Forall_take. done. }
    rewrite length_take in Hl.
    destruct (Nat.min_spec (String.length reference) (length (chars f))) as [[_ Em]|[Hle Em]]; rewrite Em in Hl.
    + by rewrite <- Hl, E.
    + rewrite take_ge in E by done. by rewrite take_ge by (rewrite Hl; done).
  - rewrite <- E, length_of_chars, length_take, <- take_take, (take_ge _ (length _)); done.
Qed.

Lemma length_fingerprint s : length (chars (fingerprint s)) = 64%nat.
Proof.
  unfold fingerprint, sha256_hex. rewrite chars_of_chars.
  assert (H : ∀ l : list N, length (l ≫= hex_byte) = (2 * length l)%nat).
  { induction l as [|b l IH]; [done|]. rewrite bind_cons, length_app, IH. cbn. lia. }
  by rewrite H, length_sha256.
Qed.

Lemma char_count_reference presented :
  char_count (session_reference_of presented) = SESSION_REFERENCE_LEN.
Proof.
  unfold session_reference_of, session_reference. rewrite char_count_ascii.
  - by rewrite length_take, length_fingerprint.
  - apply Forall_take, fingerprint_ascii.
Qed.

(** Signing a device out by its short reference ends that session, and no other: after it
    the cookie opens nothing, at any time, when it is this account's and has that reference,
    and every other opens exactly what it did - another account's under the same reference,
    and all of them when the reference is not a whole one, or empty. *)
Theorem signed_out_device (user reference presented : string) (now : Z) (t : Tables) :
  find_session presented now (close_session_by_reference user reference t).2 =
  match find_session presented now t with
  | Some (u, s) =>
      if (u ==? user) && (session_reference_of presented ==? reference) then None else Some (u, s)
  | None => None
  end.
Proof.
  unfold close_session_by_reference. destruct (Nat.eqb_spec (char_count reference) SESSION_REFERENCE_LEN) as [Hc|Hc]; cbn.
  - unfold find_session. cbn. set (f := fingerprint presented).
    rewrite map_lookup_filter. destruct (t_sessions t !! f) as [x|]; cbn; [|done].
    assert (Er : refers reference f = (session_reference_of presented ==? reference)).
    { apply eq_true_iff_eq. rewrite bool_decide_eq_true. apply refers_spec; [apply fingerprint_ascii|done]. }
    rewrite Er. destruct (live now x) eqn:El; cbn.
    + destruct ((sr_user x ==? user) && _) eqn:E; cbn; [by rewrite option_guard_False by congruence|].
      rewrite option_guard_True by done. cbn. by rewrite El.
    + case_guard; cbn; by rewrite ?El.
  - destruct (find_session presented now t) as [[u s]|]; [|done].
    rewrite (bool_decide_false (session_reference_of presented = reference)), andb_false_r; [done|].
    intros <-. by apply Hc, char_count_reference.
Qed.

(** ** Whose an address is *)

Definition box_key (m : MailboxRow) : string * string := (mr_user m, mr_local m).
Definition box_address (m : MailboxRow) : string * string := (mr_local m, mr_domain m).

Definition held_by (l : list MailboxRow) (address : string * string) (user : string) : Prop :=
  ∃ m, m ∈ l ∧ box_address m = address ∧ mr_user m = user.

(** The primary key stays one, and two accounts share an address only where they did. *)
Record boxes_kept (l l' : list MailboxRow) : Prop := {
  kept_key : NoDup (box_key <$> l) → NoDup (box_key <$> l');
  kept_owners : ∀ address u v, u ≠ v → held_by l' address u → held_by l' address v →
    held_by l address u ∧ held_by l address v }.
#[local] Instance boxes_kept_refl : Reflexive boxes_kept.
Proof. by split. Qed.

Inductive MailboxOp :=
| AddBox (now user local domain : string) (is_default : bool)
| MakeDefault (user local : string)
| RemoveBox (user local : string).

Definition box_step (op : MailboxOp) (t : Tables) : bool * Tables :=
  match op with
  | AddBox now user local domain d =>
      let '(r, t) := add_mailbox now user local domain d t in (is_ok r, t)
  | MakeDefault user local =>
      let '(r, t) := set_default_mailbox user local t in (if r is Ok b then b else false, t)
  | RemoveBox user local => let '(r, t) := remove_mailbox user local t in (is_ok r, t)
  end.

Lemma at_address_true local domain m : at_address local domain m = true ↔ box_address m = (local, domain).
Proof. unfold at_address, box_address. rewrite andb_true_iff, !bool_decide_eq_true. split; [by intros [-> ->]|by intros [= -> ->]]. Qed.

Lemma add_mailbox_spec now user local domain d t r t' :
  add_mailbox now user local domain d t = (r, t') →
  boxes_kept (t_mailboxes t) (t_mailboxes t') ∧ (∀ m, m ∈ t_mailboxes t → m ∈ t_mailboxes t') ∧
  (∀ m, m ∈ t_mailboxes t' → m ∈ t_mailboxes t ∨
     r = Ok () ∧ mr_user m = user ∧ box_address m = (local, domain) ∧
     ∀ x, x ∈ t_mailboxes t → box_address x = (local, domain) → mr_user x = user) ∧
  (r = Ok () → ∃ m, m ∈ t_mailboxes t' ∧ box_key m = (user, local)).
Proof.
  unfold add_mailbox.
  destruct (if mailbox_owner _ _ _ is Some owner then _ else false); [intros [= <- <-]; split_and!; [done|done|by left|done]|].
  destruct (any_of _ (t_mailboxes t)) eqn:Eo; [intros [= <- <-]; split_and!; [done|done|by left|done]|].
  destruct (any_of (λ m, of_user user m && _) (t_mailboxes t)) eqn:Ek.
  { intros [= <- <-]. split_and!; [done|done|by left|]. intros _.
    apply any_of_true in Ek as (m & Hm & [Hu Hl]%andb_true_iff). exists m. split; [done|]. unfold box_key.
    by apply bool_decide_eq_true in Hu as ->, Hl as ->. }
  destruct (t_users t !! user) as [row|]; [|intros [= <- <-]; split_and!; [done|done|by left|done]].
  set (m := {| mr_user := user |}). intros [= <- <-]. cbn [t_mailboxes set_mailboxes]. rewrite any_of_false in Eo, Ek.
  assert (Hm : ∀ x, x ∈ t_mailboxes t → box_address x = (local, domain) → mr_user x = user).
  { intros x Hx Ha. specialize (Eo x Hx). rewrite (proj2 (at_address_true _ _ _) Ha) in Eo. cbn in Eo.
    by apply negb_false_iff, bool_decide_eq_true in Eo. }
  split_and!.
  - constructor.
    + intros Hkey. rewrite fmap_app. apply NoDup_app. split_and!; [done| |apply NoDup_singleton].
      intros k (x & -> & Hx)%list_elem_of_fmap Ex%list_elem_of_singleton.
      specialize (Ek x Hx). injection Ex as Eu El. unfold of_user in Ek.
      by rewrite Eu, El, !bool_decide_true in Ek.
    + intros address u v Hne (x & Hx & Ax & Ux) (y & Hy & Ay & Uy).
      apply elem_of_app in Hx as [Hx|Hx%list_elem_of_singleton], Hy as [Hy|Hy%list_elem_of_singleton]; subst x || idtac; subst y || idtac.
      * split; [by exists x|by exists y].
      * destruct Hne. rewrite <- Ux, <- Uy. apply Hm; [done|by rewrite Ax].
      * destruct Hne. rewrite <- Ux, <- Uy. symmetry. apply Hm; [done|by rewrite Ay].
      * destruct Hne. congruence.
  - intros x Hx. apply elem_of_app. by left.
  - intros x [Hx|Hx%list_elem_of_singleton]%elem_of_app; [by left|right]. by subst x.
  - intros _. exists m. split; [|done]. apply elem_of_app. right. by apply list_elem_of_singleton.
Qed.

(** A row of an account whose default mailbox is chosen. *)
Definition chosen (user local : string) (m : MailboxRow) : MailboxRow :=
  if of_user user m then
    {| mr_user := mr_user m; mr_local := mr_local m; mr_domain := mr_domain m;
       mr_default := mr_local m ==? local; mr_created_at := mr_created_at m |}
  else m.

Lemma chosen_same user local m :
  box_key (chosen user local m) = box_key m ∧ box_address (chosen user local m) = box_address m ∧
  of_user user (chosen user local m) = of_user user m.
Proof. unfold chosen. destruct (of_user user m) eqn:E; [|by rewrite E]. by unfold of_user in *. Qed.

Lemma chosen_kept user local l : boxes_kept l (chosen user local <$> l).
Proof.
  assert (Hh : ∀ address u, held_by (chosen user local <$> l) address u → held_by l address u).
  { intros address u (x & (m & -> & Hm)%list_elem_of_fmap & Ha & Hu). exists m. split; [done|].
    destruct (chosen_same user local m) as ([= Em _] & Am & _). by rewrite <- Am, <- Em. }
  split; [|by split; apply Hh].
  intros Hkey. rewrite <- list_fmap_compose, (list_fmap_ext _ box_key); [done|]. intros i x _. apply chosen_same.
Qed.

Lemma keep_kept p l : boxes_kept l (keep p l).
Proof.
  split; [|by intros address u v _ (x & [_ ?]%elem_of_keep & ? & ?) (y & [_ ?]%elem_of_keep & ? & ?); split; [exists x|exists y]].
  induction l as [|m l IH]; [done|]. rewrite keep_cons. intros [Hm Hl]%NoDup_cons. destruct (p m); [|by apply IH].
  apply NoDup_cons. split; [|by apply IH]. intros (x & Ex & [_ Hx]%elem_of_keep)%list_elem_of_fmap.
  apply Hm. rewrite Ex. by apply list_elem_of_fmap_2.
Qed.

(** C40. An address stays one account's. Whatever is asked of the mailboxes, two rows never come to
    share a key, and two accounts hold the same address after only if both held it before - no
    account joins another on its address, the pairs an old installation may hold being left as they
    were, and none appearing where there was none. What is added is the account's and at the
    address asked, and nothing else goes; what is removed is that row alone; and the account whose
    default was changed has that one alone, the others' mailboxes being as they were. *)
Theorem mailboxes_sound (op : MailboxOp) (t t' : Tables) (done_ : bool) (H : box_step op t = (done_, t')) :
  boxes_kept (t_mailboxes t) (t_mailboxes t') ∧
  match op with
  | AddBox now user local domain _ =>
      (∀ m, m ∈ t_mailboxes t → m ∈ t_mailboxes t') ∧
      (∀ m, m ∈ t_mailboxes t' → m ∈ t_mailboxes t ∨
         done_ = true ∧ mr_user m = user ∧ box_address m = (local, domain) ∧
         ∀ x, x ∈ t_mailboxes t → box_address x = (local, domain) → mr_user x = user) ∧
      (done_ = true → ∃ m, m ∈ t_mailboxes t' ∧ box_key m = (user, local))
  | MakeDefault user local =>
      done_ = true →
      (∃ m, m ∈ t_mailboxes t' ∧ of_user user m = true ∧ mr_local m = local) ∧
      (∀ m, m ∈ t_mailboxes t' → of_user user m = true → (mr_default m = true ↔ mr_local m = local)) ∧
      ∀ m, of_user user m = false → m ∈ t_mailboxes t' ↔ m ∈ t_mailboxes t
  | RemoveBox user local => ∀ m, m ∈ t_mailboxes t' ↔ m ∈ t_mailboxes t ∧ box_key m ≠ (user, local)
  end.
Proof.
  destruct op as [now user local domain d|user local|user local]; cbn in H.
  - destruct (add_mailbox _ _ _ _ _ _) as [r t1] eqn:E. injection H as <- <-.
    apply add_mailbox_spec in E as (H1 & H2 & H3 & H4). split_and!; [done|done| |].
    + intros m [?|(-> & ? & ? & ?)]%H3; [by left|by right].
    + destruct r as [[]|]; [by intros _; apply H4|done].
  - unfold set_default_mailbox in H. destruct (any_of _ _) eqn:Ea in H; [|by injection H as <- <-].
    injection H as <- <-. cbn. fold (chosen user local).
    split; [by apply chosen_kept|]. intros _. split_and!.
    + apply any_of_true in Ea as (m & Hm & [Eu El%bool_decide_eq_true]%andb_true_iff). exists (chosen user local m).
      destruct (chosen_same user local m) as ([= _ E] & _ & ->).
      split_and!; [by apply list_elem_of_fmap_2|done|congruence].
    + intros x (m & -> & Hm)%list_elem_of_fmap Eu.
      destruct (chosen_same user local m) as (_ & _ & E). rewrite E in Eu.
      unfold chosen. rewrite Eu. cbn. apply bool_decide_eq_true.
    + intros m Eu. rewrite list_elem_of_fmap. split.
      * intros (x & -> & Hx). destruct (chosen_same user local x) as (_ & _ & E). rewrite E in Eu.
        unfold chosen. by rewrite Eu.
      * intros Hm. exists m. split; [|done]. unfold chosen. by rewrite Eu.
  - injection H as _ <-. split; [by apply keep_kept|]. intros m. cbn. rewrite elem_of_keep, negb_true_iff. unfold of_user, box_key.
    rewrite andb_false_iff, !bool_decide_eq_false. split.
    + intros [[?|?] ?]; (split; [done|]); congruence.
    + intros [? Hk]. split; [|done]. destruct (decide (mr_user m = user)) as [Hu|]; [right; intros Hl; apply Hk; congruence|by left].
Qed.

Definition two_boxes : list MailboxRow :=
  [{| mr_user := "alice"; mr_local := "alice"; mr_domain := "example.org"; mr_default := true;
      mr_created_at := "2026-01-01" |};
   {| mr_user := "alice"; mr_local := "contact"; mr_domain := "example.org"; mr_default := false;
      mr_created_at := "2026-01-02" |}].

(** Two accounts an old installation left on one address, and a third asked onto it. *)
Lemma mailboxes_sound_witness :
  let shared := two_boxes ++ [{| mr_user := "bob"; mr_local := "contact"; mr_domain := "example.org"; mr_default := true;
                                 mr_created_at := "2026-01-03" |}] in
  box_step (AddBox "2026-02-01" "eve" "contact" "example.org" false) (set_mailboxes shared no_tables) = (false, set_mailboxes shared no_tables) ∧
  boxes_kept shared shared.
Proof.
  intros shared.
  assert (E : box_step (AddBox "2026-02-01" "eve" "contact" "example.org" false) (set_mailboxes shared no_tables) =
    (false, set_mailboxes shared no_tables)) by (by vm_compute).
  split; [exact E|]. exact (proj1 (mailboxes_sound _ _ _ _ E)).
Defined.

(** A quota past [i64] is kept as none of it: it wraps to a negative number, read as zero. *)
Lemma huge_quota_reads_zero r by_ t t' b :
  ml_quota_bytes (rd_mail r) = Some b → (2 ^ 63 ≤ b ≤ u64_max)%N → put_role r by_ t = (Ok (), t') →
  rr_mail_quota <$> t_roles t' !! rd_id r = Some (Some (Z.of_N b - 2 ^ 64)%Z) ∧
  (Z.max (Z.of_N b - 2 ^ 64) 0 = 0)%Z.
Proof.
  intros Hb Hbig H. unfold put_role in H. destruct (negb _); [done|].
  destruct (any_of _ _); [done|]. injection H as <-. cbn. rewrite lookup_insert_eq, Hb. cbn.
  unfold as_i64, wrap_u64, u64_max in *. rewrite N.mod_small by lia.
  destruct (Z.ltb_spec (Z.of_N b) (2 ^ 63)); [lia|]. split; [done|lia].
Qed.
