(* ===== verification/Intent.v ===== *)
(** * What the web side may ask

    [crates/hlb-api/src/intent]: every privileged thing a handler can ask of the daemon, and
    which of them take a passkey; and from [crates/hlb-api/src/lib.rs] the result of an
    action, which never confuses what would happen with what happened. Wire types the
    privileged side only stores (an announcement's level, a brand, a role's definition) are
    a parameter. *)

From S2P Require Import Prelude RustStr Encoding Rbac.

(** ** The result of an action *)

(** @ hlb-api/src/lib.rs:2483-2497 [StepState] *)
Inductive StepState := Planned | StepDone | StepFailed | StepUnimplemented.
#[export] Instance StepState_eq_dec : EqDecision StepState.
Proof. solve_decision. Defined.

(** @ hlb-api/src/lib.rs:2474-2481 [ActionStep] *)
Record ActionStep := { as_description : string; as_state : StepState; as_error : option string }.

(** @ hlb-api/src/lib.rs:2430-2465 [ActionResult] *)
Record ActionResult := {
  ar_applied : bool; ar_summary : string; ar_steps : list ActionStep; ar_cli_command : string;
  ar_blockers : list string; ar_warnings : list string;
  ar_confirmation_required : option string }.

(** @ hlb-api/src/lib.rs:2499-2511 [Outcome] *)
Inductive Outcome := Preview | OutcomeFailed (steps : nat) | Incomplete (steps : nat) | OutcomeDone.

(** @ hlb-api/src/lib.rs:2514-2517 [ActionResult::applicable] *)
Definition applicable (r : ActionResult) : bool := ar_blockers r ==? [].

(** @ hlb-api/src/lib.rs:2519-2525 [ActionResult::succeeded] *)
Definition succeeded (r : ActionResult) : bool :=
  ar_applied r && all_of (λ s, as_state s ==? StepDone) (ar_steps r).

Definition steps_in (state : StepState) (r : ActionResult) : nat :=
  length (keep (λ s, as_state s ==? state) (ar_steps r)).

(** @ hlb-api/src/lib.rs:2527-2554 [ActionResult::outcome] *)
Definition outcome_of (r : ActionResult) : Outcome :=
  if negb (ar_applied r) then Preview
  else if (0 <? steps_in StepFailed r)%nat then OutcomeFailed (steps_in StepFailed r)
  else if (0 <? steps_in StepUnimplemented r)%nat then Incomplete (steps_in StepUnimplemented r)
  else OutcomeDone.

(** @ hlb-api/src/lib.rs:3543-3549 [plural] *)
Definition plural (n : N) (singular plural : string) : string :=
  if (n =? 1)%N then show_N n +:+ " " +:+ singular else show_N n +:+ " " +:+ plural.

(** @ hlb-api/src/lib.rs:2556-2575 [ActionResult::verdict] *)
Definition verdict (r : ActionResult) : string :=
  match outcome_of r with
  | Preview => "Preview — nothing was changed. " +:+ ar_summary r
  | OutcomeFailed n =>
      plural (N.of_nat n) "step" "steps" +:+ " failed — the action stopped there."
  | Incomplete n =>
      plural (N.of_nat n) "step" "steps" +:+ " " +:+ (if (1 <? n)%nat then "are" else "is") +:+
      " not implemented yet — the action is INCOMPLETE, despite the absence of any error."
  | OutcomeDone => ar_summary r
  end.

(** ** Intents *)

(** @ hlb-api/src/intent/confirm.rs:19-26 [Proof] *)
Record Proof_ := { pf_state : string; pf_code : string }.

(** @ hlb-api/src/intent/mod.rs:412-420 [Refusal] *)
Inductive Refusal :=
| Conflict (why : string) | Unprocessable (why : string) | TooMany (why : string)
| Internal (why : string).

Section intent.
(** Wire types this side stores without looking into them. *)
Context {Payload : Type}.

(** @ hlb-api/src/intent/mod.rs:38-107 [Intent] *)
Inductive Intent :=
| Scale (app : string) (replicas : option N) (apply : bool)
| NodeAvailability (node availability : string) (confirmed : option string) (apply : bool)
| Nodes
| SwarmView (service : option string)
| Install (app : string) (domain mail_domain : option string) (apply : bool)
| Upgrade (app : string) (apply : bool)
| CatalogChanges (app : string)
| AttestGuide (app id : string) (force apply : bool)
| Remove (app : string) (confirmed : option string) (apply : bool)
| BackUp (app : string) (apply : bool)
| PurgeAlias (account : option string) (local : string) (apply : bool)
| KitFingerprint
| SignInClient
| Alerts
| Drifts
| Fleet
| MyIdentity (account : string)
| Rename (account : option string) (first_name last_name display_name : string) (apply : bool)
| DefaultMailbox (account : option string) (local : string) (apply : bool)
| CreateAlias (account : string) (mailbox domain description : option string)
| CreateMailbox (account : option string) (local : string)
| Devices (account : string)
| AddDevice (account : option string) (name : string) (mailbox : option string) (apply : bool)
| RevokeDevice (account : option string) (mailbox id : string) (apply : bool)
| SignUp (invitation name : string) (display_name : option string) (apply : bool)
| SyncRoles (apply : bool)
| PortalRoles (app : string)
| Audit (actor : string) (role : Role) (action target outcome : string) (detail : option string)
| OpenSession (presented user : string) (subject : option string) (now duration_s : Z)
    (user_agent : option string)
| TouchSession (presented : string) (now duration_s : Z)
| CloseSession (presented : string)
| CloseSessionByReference (user reference : string)
| BindIdentity (user sub : string)
| TouchToken (name : string)
| IssueAliasToken (name account mailbox fingerprint : string)
| PutRole (role : Payload) (by_ : string)
| DeleteRole (id : string)
| SetRoleQuota (role app : string) (bytes : option N)
| AllowRole (app role by_ : string)
| DenyRole (app role : string)
| SetPersonQuota (user app : string) (own : bool) (bytes : option N) (by_ : string)
| SetUserRole (user role : string) (granted_by : option string)
| CreateInvitation (presented created_by role : string) (now duration_s max_uses : Z)
    (note : option string)
| RevokeInvitation (reference : string)
| SetDestinationClasses (name classes : string)
| SetAliasFolder (user local : string) (folder : option string)
| SaveNamedPlan (name method path body summary by_ : string) (note : option string)
| AttestBreakglass (id by_ : string) (note : option string)
| SetTheme (user : string) (theme : option string)
| SetDensity (user : string) (density : Payload)
| SetHome (user : string) (home : option (list Payload))
| PublishAnnouncement (title body : string) (level : Payload) (pinned : bool)
    (audience : option Role) (author : string) (expires_at : option Z)
| FollowAnnouncement (announcement : Z) (body author : string)
| RemoveAnnouncement (id : Z)
| SetBrand (brand : Payload)
| SetAside (user : string) (aside : Payload)
| BringBack (user : string) (cause : Payload)
| MuteAlert (mute : Payload)
| UnmuteAlert (rule : string)
| SetLogo (png : option (list N))
| RecordHistory (samples : list Payload) (forget_before : Z)
| Confirmed (proof : Proof_) (asked : Intent)
| BeginConfirmation (intents : list Intent).

(** What whoever confirms an intent must be allowed to do, when it takes a passkey.
    @ hlb-api/src/intent/confirm.rs:60-135 [Intent::passkey] *)
Definition passkey (i : Intent) : option RbacAction :=
  match i with
  | Remove _ _ apply => if apply then Some Destroy else None
  | NodeAvailability _ availability _ apply =>
      if apply && negb (availability ==? "active") then Some Operate else None
  | DeleteRole _ | SetUserRole _ _ _ => Some ManageAccounts
  | AddDevice _ _ _ apply => if apply then Some ActOnSelf else None
  | _ => None
  end.

(** serde's JSON of a list of intents, and of one. *)
Context (json : Intent → list N) (json_list : list Intent → list N).

(** @ hlb-api/src/intent/confirm.rs:148-153 [digest] *)
Definition digest_of (bytes : list N) : string := base64url (sha256 bytes).
(** @ hlb-api/src/intent/confirm.rs:137-140 [Intent::digest] *)
Definition digest (i : Intent) : string := digest_of (json i).
(** @ hlb-api/src/intent/confirm.rs:143-146 [nonce] *)
Definition nonce (intents : list Intent) : string := digest_of (json_list intents).
End intent.
Arguments Intent : clear implicits.

(** ** The verdict *)

(** The verdict an interface shows reads finished exactly when the action was applied and
    no step of it failed or is one nobody can perform yet: a preview, a failure, a plan half
    implemented never do. *)
Theorem outcome_done (r : ActionResult) :
  outcome_of r = OutcomeDone ↔
  ar_applied r = true ∧ ∀ s, s ∈ ar_steps r → as_state s = StepDone ∨ as_state s = Planned.
Proof.
  unfold outcome_of. destruct (ar_applied r); cbn [negb]; [|naive_solver].
  assert (H0 : ∀ st, (0 <? steps_in st r)%nat = false ↔ ∀ s, s ∈ ar_steps r → as_state s ≠ st).
  { intros st. unfold steps_in. rewrite Nat.ltb_ge, Nat.le_0_r, length_zero_iff_nil. split.
    - intros E s Hs Es. apply (not_elem_of_nil s). rewrite <- E. apply elem_of_keep.
      by rewrite bool_decide_true.
    - intros H. destruct (keep _ _) as [|s l] eqn:E; [done|]. exfalso.
      assert (Hs : s ∈ keep (λ s, as_state s ==? st) (ar_steps r)) by (rewrite E; left).
      apply elem_of_keep in Hs as [Hst%bool_decide_eq_true Hs]. by apply (H s). }
  pose proof (H0 StepFailed) as Hf. pose proof (H0 StepUnimplemented) as Hu.
  destruct (0 <? steps_in StepFailed r)%nat.
  { split; [done|]. intros [_ H]. assert (E : true = false); [|done]. apply Hf.
    intros s Hs E. destruct (H s Hs); congruence. }
  destruct (0 <? steps_in StepUnimplemented r)%nat.
  { split; [done|]. intros [_ H]. assert (E : true = false); [|done]. apply Hu.
    intros s Hs E. destruct (H s Hs); congruence. }
  split; [|done]. intros _. split; [done|]. intros s Hs.
  specialize (proj1 Hf eq_refl s Hs) as H1. specialize (proj1 Hu eq_refl s Hs) as H2.
  destruct (as_state s); auto; done.
Qed.

(** A step that was never started does not keep the verdict from reading finished. *)
Lemma planned_reads_done : ∃ r, outcome_of r = OutcomeDone ∧ succeeded r = false.
Proof.
  by exists {| ar_applied := true; ar_summary := ""; ar_cli_command := ""; ar_blockers := [];
    ar_warnings := []; ar_confirmation_required := None;
    ar_steps := [{| as_description := ""; as_state := Planned; as_error := None |}] |}.
Qed.
