(* ===== verification/Privd.v ===== *)
(** * The privileged executor

    [crates/hlb-privd/src/lib.rs], [confirm.rs], [swarm.rs]: the one door to what is root on a
    node or reads a secret. An intent is answered once a passkey confirmed it, when it
    destroys and PocketID signs people in; a confirmation is begun for the intents of one
    action, used up as they are acted on, and dropped by whatever fails.

    What each request finds outside - the time, the network, the accounts and their roles -
    is its environment. *)

From S2P Require Import Prelude RustStr Encoding Rbac Oidc Intent.

(** @ hlb-privd/src/confirm.rs:22-24 [MAX_OPEN] *)
Definition MAX_OPEN : nat := 64.
(** @ hlb-api/src/intent/confirm.rs:15-17 [CALLBACK] *)
Definition CALLBACK : string := "/auth/confirmed".

(** @ hlb-privd/src/confirm.rs:43-48 [Granted] *)
Record Granted := { gr_code : string; gr_account : string; gr_auth_time : Z }.

(** @ hlb-privd/src/confirm.rs:36-41 [Open] *)
Record Open := { op_request : PendingRequest; op_left : list string; op_granted : option Granted }.

(** @ hlb-privd/src/confirm.rs:26-34 [Confirmations] *)
Abbreviation Confirmations := (gmap string Open).

(** @ hlb-privd/src/lib.rs:35-48 [Error] *)
Inductive Error := Wire (why : string) | Transport (why : string) | Refused (why : string).

(** What a request finds outside the daemon. *)
Record Env := {
  e_now : Z;
  (** The issuer given at the start, a test's. *)
  e_issuer : option Oidc;
  (** The sign-in client of the vault: its issuer, its id and its secret. *)
  e_sign_in : option (string * string * string);
  (** The controller's public host. *)
  e_exposure : result string (option string);
  e_discover : string * string * string → string → result string Oidc;
  e_entropy : list N;
  e_post : string → list (string * string) → result string Response;
  e_get : string → string → result string Response;
  e_user_by_pocket_id : string → result string (option string);
  e_user_role : string → result string Role }.

(** @ hlb-privd/src/confirm.rs:64-67 [required] *)
Definition required (e : Env) : bool :=
  bool_decide (is_Some (e_issuer e)) || bool_decide (is_Some (e_sign_in e)).

(** PocketID is told of the callback on the way, whatever it answers.
    @ hlb-privd/src/confirm.rs:69-118 [client] *)
Definition client (e : Env) : result string (option Oidc) :=
  match e_issuer e with
  | Some o => Ok (Some o)
  | None =>
      match e_sign_in e with
      | None => Ok None
      | Some c =>
          x ← e_exposure e;
          host ← ok_or ("no public address is configured: PocketID could not send the passkey " +:+
                        "back") x;
          Some <$> map_err (λ why, "PocketID cannot be reached to confirm with a passkey: " +:+ why)
                     (e_discover e c ("https://" +:+ host +:+ CALLBACK))
      end
  end.

Section privd.
Context {Payload : Type}.
Local Abbreviation Intent := (Intent Payload).
(** serde's JSON, and its readers. *)
Context (json : Intent → list N) (json_list : list Intent → list N)
  (token_of : list N → result string TokenResponse)
  (identity_of : list N → result string Identity)
  (claims_json : list N → option Claims) (lossy : list N → string)
  (oidc_display : OidcError → string).
(** The order a [HashMap] is walked in. *)
Context (iter : Confirmations → list (string * Open)).

(** @ hlb-privd/src/confirm.rs:132 [begin] *)
Definition started (e : Env) (o : Oidc) (intents : list Intent) : string * PendingRequest :=
  start_confirming o (e_entropy e) (nonce json_list intents) (e_now e).

(** The confirmations not expired, one fewer when there are too many.
    @ hlb-privd/src/confirm.rs:133-143 [begin] *)
Definition make_room (now : Z) (open : Confirmations) : Confirmations :=
  let open := filter (λ kv, is_expired (op_request kv.2) now = false) open in
  if (MAX_OPEN <=? size open)%nat then
    match max_by (λ a b, Z.compare (rq_created_at (op_request b.2)) (rq_created_at (op_request a.2)))
            (reverse (iter open)) with
    | Some (oldest, _) => delete oldest open
    | None => open
    end
  else open.

(** @ hlb-privd/src/confirm.rs:120-153 [begin] *)
Definition begin_ (e : Env) (intents : list Intent) (open : Confirmations)
    : result string (option string) * Confirmations :=
  if (intents ==? []) || any_of (λ i, passkey i ==? None) intents then
    (Err "a passkey confirms an action that destroys, and only one", open)
  else
    match client e with
    | Err why => (Err why, open)
    | Ok None => (Ok None, open)
    | Ok (Some oidc) =>
        let '(url, request) := started e oidc intents in
        (Ok (Some url),
         <[rq_state request := {| op_request := request; op_left := digest json <$> intents;
                                  op_granted := None |}]> (make_room (e_now e) open))
    end.

(** The passkey a code stands for: exchanged already, or exchanged now.
    @ hlb-privd/src/confirm.rs:175-203 [consume] *)
Definition granted_by (e : Env) (proof : Proof_) (open : Open) : result string Granted :=
  match op_granted open with
  | Some g =>
      if constant_eq (gr_code g) (pf_code proof) then Ok g
      else Err "the confirmation's code is not the one exchanged"
  | None =>
      o ← client e;
      oidc ← ok_or "nothing signs in by passkey here any more" o;
      c ← map_err oidc_display
            (finish_confirming (e_post e) (e_get e) token_of identity_of claims_json lossy
               oidc (op_request open) (pf_state proof) (pf_code proof) (e_now e));
      u ← e_user_by_pocket_id e (id_sub (cf_identity c));
      account ← ok_or ("the passkey is " +:+ account_name (cf_identity c) +:+
                       "'s, whom no account here is bound to") u;
      Ok {| gr_code := pf_code proof; gr_account := account; gr_auth_time := cf_auth_time c |}
  end.

(** The person's own device, when the intent is one.
    @ hlb-privd/src/confirm.rs:225-232 [consume] *)
Definition own_device (asked : Intent) (account : string) : bool :=
  match asked with AddDevice who _ _ _ => who ==? Some account | _ => true end.

(** What a passkey granted is checked for before it acts.
    @ hlb-privd/src/confirm.rs:204-232 [consume] *)
Definition check_grant (e : Env) (action : RbacAction) (asked : Intent) (g : Granted)
    : result string () :=
  refuse_if (CONFIRMATION_MAX_AGE_S <? saturating_sub_i64 (e_now e) (gr_auth_time g))%Z
    ("the passkey was presented more than " +:+ show_Z (CONFIRMATION_MAX_AGE_S / 60) +:+
     " minutes ago — confirm again") ;;
  role ← e_user_role e (gr_account g);
  refuse_if (negb (allows role action))
    (gr_account g +:+ " confirmed, and their role may not " +:+ action_describe action) ;;
  refuse_if (negb (own_device asked (gr_account g)))
    (gr_account g +:+ " confirmed, and the device would sign in to another person's mail").

(** @ hlb-privd/src/confirm.rs:155-240 [consume] *)
Definition consume (e : Env) (proof : Proof_) (asked : Intent) (confs : Confirmations)
    : result string string * Confirmations :=
  match passkey asked with
  | None => (Err "a passkey confirms an action that destroys, and this is not one", confs)
  | Some action =>
      let d := digest json asked in
      let taken := confs !! pf_state proof in
      let confs := delete (pf_state proof) confs in
      match taken with
      | None =>
          (Err ("no confirmation is waiting under that state: it expired (after " +:+
                show_Z REQUEST_TIMEOUT_S +:+
                " s), was used, or the daemon restarted — confirm again"), confs)
      | Some open =>
          if negb (bool_decide (d ∈ op_left open)) then
            (Err "the passkey confirmed another action than this one", confs)
          else
            match (g ← granted_by e proof open; check_grant e action asked g ;; Ok g) with
            | Err why => (Err why, confs)
            | Ok g =>
                let left := keep (λ x, negb (x ==? d)) (op_left open) in
                (Ok (gr_account g),
                 if decide (left = []) then confs
                 else <[pf_state proof := {| op_request := op_request open; op_left := left;
                                             op_granted := Some g |}]> confs)
            end
      end
  end.

(** ** The daemon *)

Context {S Answer : Type}.
(** What the handlers do of an intent let through, and how an answer travels. *)
Context (handle : Env → Intent → S → result Error Answer * S)
  (begun : result string (option string) → Answer).

(** @ hlb-privd/src/lib.rs:311-454 [Privd::act] *)
Definition act (e : Env) (i : Intent) (s : S) : result Error Answer * S :=
  match i with
  | Confirmed _ _ | BeginConfirmation _ =>
      (Err (Refused "a confirmation wraps the intent it confirms, never another"), s)
  | i => handle e i s
  end.

(** @ hlb-privd/src/lib.rs:282-309 [Privd::answer] *)
Definition answer (e : Env) (i : Intent) (d : Confirmations * S)
    : result Error Answer * (Confirmations * S) :=
  let '(confs, s) := d in
  match i with
  | Confirmed proof asked =>
      match consume e proof asked confs with
      | (Err why, confs) => (Err (Refused why), (confs, s))
      | (Ok _, confs) => let '(r, s) := act e asked s in (r, (confs, s))
      end
  | BeginConfirmation intents =>
      let '(r, confs) := begin_ e intents confs in (Ok (begun r), (confs, s))
  | other =>
      if bool_decide (is_Some (passkey other)) && required e then
        (Err (Refused ("this destroys, and only a passkey presented for it now allows it: " +:+
           "confirm it in the interface, or run its command as root")), (confs, s))
      else let '(r, s) := act e other s in (r, (confs, s))
  end.
End privd.

(** ** One request *)

Section requests.
Context {Payload : Type}.
Local Abbreviation Intent := (Intent Payload).
Context (json : Intent → list N) (json_list : list Intent → list N)
  (token_of : list N → result string TokenResponse)
  (identity_of : list N → result string Identity)
  (claims_json : list N → option Claims) (lossy : list N → string)
  (oidc_display : OidcError → string) (iter : Confirmations → list (string * Open)).

Local Abbreviation consume := (consume json token_of identity_of claims_json lossy oidc_display).
Local Abbreviation begin_ := (begin_ json json_list iter).
Local Abbreviation granted_by := (granted_by token_of identity_of claims_json lossy oidc_display).

(** A passkey good for an intent, now. *)
Definition good_for (e : Env) (action : RbacAction) (asked : Intent) (g : Granted) : Prop :=
  (saturating_sub_i64 (e_now e) (gr_auth_time g) ≤ CONFIRMATION_MAX_AGE_S)%Z ∧
  (∃ role, e_user_role e (gr_account g) = Ok role ∧ allows role action = true) ∧
  (∀ who name mailbox apply, asked = AddDevice who name mailbox apply → who = Some (gr_account g)).

Lemma check_grant_Ok e action asked g u :
  check_grant e action asked g = Ok u → good_for e action asked g.
Proof.
  unfold check_grant. rewrite seq_Ok, refuse_if_Ok, Z.ltb_ge. intros [Hage H].
  apply result_bind_Ok in H as (role & Hrole & H). apply seq_Ok in H as [Hal Hown].
  apply refuse_if_Ok, negb_false_iff in Hal. apply refuse_if_Ok, negb_false_iff in Hown.
  split_and!; [done|by exists role|]. intros who name mailbox apply ->. cbn in Hown.
  by apply bool_decide_eq_true in Hown.
Qed.

Lemma consume_Ok e proof asked confs account confs' :
  consume e proof asked confs = (Ok account, confs') →
  ∃ action o g left, passkey asked = Some action ∧ confs !! pf_state proof = Some o ∧
    digest json asked ∈ op_left o ∧ granted_by e proof o = Ok g ∧ account = gr_account g ∧
    good_for e action asked g ∧
    left = keep (λ x, negb (x ==? digest json asked)) (op_left o) ∧
    confs' = if decide (left = []) then delete (pf_state proof) confs
             else <[pf_state proof := {| op_request := op_request o; op_left := left;
                                         op_granted := Some g |}]> (delete (pf_state proof) confs).
Proof.
  unfold Privd.consume. destruct (passkey asked) as [action|]; [|done].
  destruct (confs !! pf_state proof) as [o|]; [|done].
  destruct (bool_decide_reflect (digest json asked ∈ op_left o)) as [Hd|]; cbn [negb]; [|done].
  destruct (_ ≫= _) as [g|] eqn:Eg; [|done].
  apply result_bind_Ok in Eg as (g' & Hg & Hc). apply seq_Ok in Hc as (Hc & [= ->]).
  intros H. injection H as <- <-. exists action, o, g. eexists. split_and!; try done.
  by apply (check_grant_Ok e action asked g ()).
Qed.

Lemma consume_Err e proof asked confs why confs' :
  consume e proof asked confs = (Err why, confs') →
  (passkey asked = None ∧ confs' = confs) ∨ confs' = delete (pf_state proof) confs.
Proof.
  unfold Privd.consume. destruct (passkey asked); [|by intros [= _ <-]; auto].
  destruct (confs !! pf_state proof); [|by intros [= _ <-]; auto].
  destruct (negb _); [by intros [= _ <-]; auto|].
  destruct (_ ≫= _); [done|]. intros [= _ <-]. auto.
Qed.

(** One try: a confirmation presented for an action that destroys and refused - another
    action, a code that does not match, a passkey too old, a role taken away, another
    person's device - is gone, and no other one is touched. *)
Theorem refused_confirmation_dropped (e : Env) (proof : Proof_) (asked : Intent)
    (confs confs' : Confirmations) (why : string) (action : RbacAction)
    (Hp : passkey asked = Some action) (H : consume e proof asked confs = (Err why, confs')) :
  confs' = delete (pf_state proof) confs ∧ confs' !! pf_state proof = None.
Proof.
  apply consume_Err in H as [[Hn _]| ->]; [congruence|]. split; [done|]. apply lookup_delete_eq.
Qed.

(** The exception to that rule: an intent that takes no passkey drops nothing. *)
Lemma harmless_keeps_confirmation e proof asked confs :
  passkey asked = None → (consume e proof asked confs).2 = confs.
Proof. unfold Privd.consume. by intros ->. Qed.

(** An invitation gives a role, and takes no passkey. *)
Lemma invitation_takes_no_passkey presented by_ role now duration uses note :
  passkey (CreateInvitation (Payload := Payload) presented by_ role now duration uses note) = None.
Proof. done. Qed.

Context {Answer : Type} (reply : Env → Intent → result Error Answer)
  (begun : result string (option string) → Answer).

(** The handlers, remembering what they were let to do. *)
Definition remember (e : Env) (i : Intent) (s : list Intent) : result Error Answer * list Intent :=
  (reply e i, s ++ [i]).
Definition answer_log := answer json json_list token_of identity_of claims_json lossy oidc_display iter
  (S := list Intent) remember begun.

Lemma act_log e i s : (act remember e i s).2 = s ∨ (act remember e i s).2 = s ++ [i].
Proof. destruct i; cbn; auto. Qed.

(** C6. Where passkeys are asked for, nothing that destroys is done without one: an intent
    that takes a passkey is acted on only when a confirmation begun for it was presented,
    its passkey seen less than five minutes ago, its account's role - read now - allowing
    the act, and its own device if it makes one; and it can be used for that act no more. *)
Theorem destruction_confirmed (e : Env) (i x : Intent) (confs confs' : Confirmations)
    (s : list Intent) (r : result Error Answer) (action : RbacAction)
    (Hreq : required e = true) (Hx : passkey x = Some action)
    (H : answer_log e i (confs, s) = (r, (confs', s ++ [x]))) :
  ∃ proof o g, i = Confirmed proof x ∧ confs !! pf_state proof = Some o ∧
    digest json x ∈ op_left o ∧ granted_by e proof o = Ok g ∧ good_for e action x g ∧
    (∀ o', confs' !! pf_state proof = Some o' → digest json x ∉ op_left o').
Proof.
  assert (Hne : s ≠ s ++ [x]).
  { intros E. assert (Hl : length s = length (s ++ [x])) by (by rewrite <- E).
    rewrite length_app in Hl. cbn in Hl. lia. }
  assert (Hplain : ∀ j, (match j with Confirmed _ _ | BeginConfirmation _ => False | _ => True end) →
    (if bool_decide (is_Some (passkey j)) && required e
     then (Err (Refused ("this destroys, and only a passkey presented for it now allows it: " +:+
            "confirm it in the interface, or run its command as root")), (confs, s))
     else let '(r, s) := act remember e j s in (r, (confs, s))) = (r, (confs', s ++ [x])) → False).
  { intros j _ E. rewrite Hreq, andb_true_r in E.
    destruct (bool_decide_reflect (is_Some (passkey j))) as [Hj|Hj]; [by injection E|].
    pose proof (act_log e j s) as Ha. destruct (act remember e j s) as [r' s']. cbn in Ha.
    injection E as <- <- ->. destruct Ha as [Ha|Ha]; [done|]. apply app_inv_head in Ha as [= ->].
    apply Hj. by eexists. }
  destruct i; try (match type of H with answer_log e ?j _ = _ => destruct (Hplain j I H) end).
  2: { match type of H with answer_log e (BeginConfirmation ?l) _ = _ =>
         unfold answer_log, answer in H; destruct (begin_ e l confs); by injection H end. }
  match type of H with answer_log e (Confirmed ?p ?y) _ = _ => rename p into proof, y into i end.
  unfold answer_log, answer in H.
  destruct (consume e proof i confs) as [[account|why] confs1] eqn:Ec; [|by injection H].
  pose proof (act_log e i s) as Ha. destruct (act remember e i s) as [r' s']. cbn in Ha.
  injection H as <- <- ->. destruct Ha as [Ha|Ha]; [done|]. apply app_inv_head in Ha as [= <-].
  apply consume_Ok in Ec as (a & o & g & left & Hp & Ho & Hd & Hg & _ & Hgood & El & ->).
  assert (a = action) as -> by congruence. exists proof, o, g. split_and!; try done.
  intros o'. case_decide; [by rewrite lookup_delete_eq|].
  rewrite lookup_insert_eq. intros [= <-]. cbn. rewrite El, elem_of_keep, bool_decide_true; done || naive_solver.
Qed.

(** ** A life of the daemon *)

(** What a request begins, and what it uses up: the digest of the intent acted on, under the
    state of its confirmation. *)
Definition begins (e : Env) (i : Intent) (confs : Confirmations) : option (string * list string) :=
  match i with
  | BeginConfirmation intents =>
      if (begin_ e intents confs).1 is Ok (Some _) then
        if client e is Ok (Some o) then
          Some (rq_state (started json_list e o intents).2, digest json <$> intents)
        else None
      else None
  | _ => None
  end.
Definition uses (e : Env) (i : Intent) (confs : Confirmations) : option (string * string) :=
  match i with
  | Confirmed proof asked =>
      if (consume e proof asked confs).1 is Ok _ then Some (pf_state proof, digest json asked) else None
  | _ => None
  end.

(** The confirmations after a run of requests, all that was begun and all that was used. *)
Fixpoint life (requests : list (Env * Intent)) (confs : Confirmations)
    : list (string * list string) * list (string * string) * Confirmations :=
  match requests with
  | [] => ([], [], confs)
  | (e, i) :: requests =>
      let '(bs, us, last) := life requests (answer_log e i (confs, [])).2.1 in
      (option_list (begins e i confs) ++ bs, option_list (uses e i confs) ++ us, last)
  end.

(** What is still open was begun, and what of it is left was not used. *)
Record honest (bs : list (string * list string)) (us : list (string * string)) (confs : Confirmations)
    : Prop := {
  honest_open : ∀ st o, confs !! st = Some o → ∃ ds, (st, ds) ∈ bs ∧
    ∀ d, d ∈ op_left o → d ∈ ds ∧ (st, d) ∉ us;
  honest_used : ∀ st d, (st, d) ∈ us → ∃ ds, (st, ds) ∈ bs ∧ d ∈ ds;
  honest_once : NoDup us }.

(** A request leaves the confirmations as they were, or fewer, or one more. *)
Inductive moves (e : Env) (i : Intent) (confs : Confirmations) : Confirmations → Prop :=
| moves_fewer confs' :
    begins e i confs = None → uses e i confs = None →
    (∀ st o, confs' !! st = Some o → confs !! st = Some o) → moves e i confs confs'
| moves_begun st ds o confs1 :
    begins e i confs = Some (st, ds) → uses e i confs = None → op_left o = ds →
    (∀ st o, confs1 !! st = Some o → confs !! st = Some o) → moves e i confs (<[st := o]> confs1)
| moves_used st d o confs' :
    begins e i confs = None → uses e i confs = Some (st, d) → confs !! st = Some o →
    d ∈ op_left o → (∀ st' o', st' ≠ st → confs' !! st' = Some o' → confs !! st' = Some o') →
    (∀ o', confs' !! st = Some o' → ∀ d', d' ∈ op_left o' → d' ∈ op_left o ∧ d' ≠ d) →
    moves e i confs confs'.

Lemma make_room_sub now confs st o :
  make_room iter now confs !! st = Some o → confs !! st = Some o.
Proof.
  unfold make_room. set (kept := filter _ confs).
  assert (Hk : kept !! st = Some o → confs !! st = Some o) by (intros [? _]%map_lookup_filter_Some; done).
  destruct (_ <=? _)%nat; [|done]. destruct (max_by _ _) as [[oldest ?]|]; [|done].
  intros [_ H]%lookup_delete_Some. auto.
Qed.

Lemma answer_moves e i confs : moves e i confs (answer_log e i (confs, [])).2.1.
Proof.
  assert (Hplain : ∀ j r, begins e j confs = None → uses e j confs = None →
    moves e j confs (if bool_decide (is_Some (passkey j)) && required e
     then (Err r, (confs, []))
     else let '(r, s) := act remember e j [] in (r, (confs, s))).2.1).
  { intros j r Hb Hu. apply moves_fewer; [done..|]. intros st o.
    destruct (_ && _); [done|]. by destruct (act _ _ _ _). }
  destruct i; try (by apply Hplain).
  - unfold answer_log, answer.
    match goal with |- moves e (Confirmed ?p ?y) _ _ => rename p into proof, y into asked end.
    destruct (consume e proof asked confs) as [[account|why] confs1] eqn:Ec.
    + assert (Hu : uses e (Confirmed proof asked) confs = Some (pf_state proof, digest json asked))
        by (cbn; by rewrite Ec).
      apply consume_Ok in Ec as (a & o & g & left & _ & Ho & Hd & _ & _ & _ & El & ->).
      destruct (act remember e asked []) as [r s]. cbn [fst snd].
      apply (moves_used _ _ _ _ _ o _ (eq_refl : begins e (Confirmed proof asked) confs = None) Hu Ho Hd).
      * intros st' o' Hne. case_decide; [|rewrite lookup_insert_ne by done];
          by rewrite lookup_delete_ne.
      * intros o'. case_decide; [by rewrite lookup_delete_eq|]. rewrite lookup_insert_eq.
        intros [= <-] d'. cbn. rewrite El, elem_of_keep. case_bool_decide; naive_solver.
    + apply moves_fewer; [done|cbn; by rewrite Ec|]. cbn.
      apply consume_Err in Ec as [[_ ->]| ->]; [done|]. intros st o [_ H]%lookup_delete_Some. done.
  - match goal with |- moves e (BeginConfirmation ?l) _ _ => rename l into intents end.
    unfold answer_log, answer.
    assert (Hb : begins e (BeginConfirmation intents) confs =
      if (begin_ e intents confs).1 is Ok (Some _) then
        if client e is Ok (Some o) then
          Some (rq_state (started json_list e o intents).2, digest json <$> intents)
        else None
      else None) by done.
    unfold Privd.begin_ in *. destruct (_ || _); [by apply moves_fewer|].
    destruct (client e) as [[oidc|]|]; [|by apply moves_fewer..].
    destruct (started json_list e oidc intents) as [url request]. cbn [fst snd] in *.
    apply (moves_begun _ _ _ _ _ _ _ Hb); [done|done|]. intros st o. apply make_room_sub.
Qed.

Lemma honest_step bs us e i confs confs' :
  honest bs us confs → moves e i confs confs' → NoDup (bs ++ option_list (begins e i confs)).*1 →
  honest (bs ++ option_list (begins e i confs)) (us ++ option_list (uses e i confs)) confs'.
Proof.
  intros [Hopen Hused Honce] Hm Hnd.
  destruct Hm as [confs' Eb Eu Hsub|st ds o confs1 Eb Eu El Hsub|st d o confs' Eb Eu Ho Hd Hother Hleft];
    rewrite Eb, Eu in *; cbn [option_list] in *; rewrite ?app_nil_r in *.
  - constructor; eauto.
  - assert (Hfresh : ∀ ds', (st, ds') ∉ bs).
    { intros ds' Hin. rewrite fmap_app in Hnd. apply NoDup_app in Hnd as (_ & Hnd & _).
      apply (Hnd st); [by apply (list_elem_of_fmap_2 fst _ (st, ds'))|left]. }
    constructor; [| |done].
    + intros st' o' [[<- <-]|[Hne Ho']]%lookup_insert_Some.
      * exists ds. split; [apply elem_of_app; right; left|]. intros d Hd. split; [by subst|].
        intros (ds' & Hin & _)%Hused. by apply (Hfresh ds').
      * apply Hsub, Hopen in Ho' as (ds' & Hin & Hl). exists ds'. split; [apply elem_of_app; by left|done].
    + intros st' d Hu. destruct (Hused st' d Hu) as (ds' & Hin & Hd). exists ds'.
      split; [apply elem_of_app; by left|done].
  - destruct (Hopen st o Ho) as (ds & Hin & Hl). destruct (Hl d Hd) as [Hds Hnew].
    constructor.
    + intros st' o' Ho'. destruct (decide (st' = st)) as [->|Hne].
      * exists ds. split; [done|]. intros d' [Hd' Hne]%(Hleft o' Ho'). split; [by apply Hl|].
        intros [Hu|[= ->]%list_elem_of_singleton]%elem_of_app; [by apply (Hl d')|done].
      * apply (Hother st' o' Hne), Hopen in Ho' as (ds' & Hin' & Hl'). exists ds'. split; [done|].
        intros d' Hd'. split; [by apply Hl'|].
        intros [Hu|[= -> _]%list_elem_of_singleton]%elem_of_app; [by apply (Hl' d')|done].
    + intros st' d' [Hu|[= -> ->]%list_elem_of_singleton]%elem_of_app; [by apply Hused|by exists ds].
    + apply NoDup_app. split_and!; [done| |apply NoDup_singleton].
      by intros [st' d'] Hu [= -> ->]%list_elem_of_singleton.
Qed.

Lemma life_honest requests confs bs us :
  honest bs us confs →
  let '(bs', us', last) := life requests confs in
  NoDup (bs ++ bs').*1 → honest (bs ++ bs') (us ++ us') last.
Proof.
  induction requests as [|[e i] requests IH] in confs, bs, us |- *; intros Hh; cbn [life].
  { by rewrite !app_nil_r. }
  pose proof (answer_moves e i confs) as Hm. set (confs' := (answer_log e i (confs, [])).2.1) in *.
  specialize (IH confs' (bs ++ option_list (begins e i confs)) (us ++ option_list (uses e i confs))).
  destruct (life requests confs') as [[bs' us'] last]. rewrite !app_assoc. intros Hnd.
  apply IH; [|done]. apply honest_step; [done..|].
  rewrite fmap_app in Hnd. by apply NoDup_app in Hnd as [? _].
Qed.

(** A passkey acts once, on what was begun: over any life of the daemon - however many
    requests, from whomever, whatever PocketID answers - as long as no two confirmations
    drew the same state, no intent of a confirmation is let through twice, and none that
    was not begun with it is let through at all. *)
Theorem passkey_acts_once (requests : list (Env * Intent)) (bs : list (string * list string))
    (us : list (string * string)) (last : Confirmations)
    (H : life requests ∅ = (bs, us, last)) (Hfresh : NoDup bs.*1) :
  NoDup us ∧ ∀ st d, (st, d) ∈ us → ∃ ds, (st, ds) ∈ bs ∧ d ∈ ds.
Proof.
  pose proof (life_honest requests ∅ [] []) as Hl. rewrite H in Hl.
  destruct Hl as [_ Hused Honce]; [|done|done].
  constructor; [by intros|by intros ?? ?%elem_of_nil|constructor].
Qed.

Lemma size_delete_le (confs : Confirmations) st : (size (delete st confs) ≤ size confs)%nat.
Proof. rewrite map_size_delete. destruct (confs !! st); unfold id; lia. Qed.

Lemma size_delete_lt (confs : Confirmations) st o :
  confs !! st = Some o → S (size (delete st confs)) = size confs.
Proof.
  intros Ho. rewrite map_size_delete, Ho. assert (size confs ≠ 0%nat); [|lia].
  intros E%map_size_empty_iff. by rewrite E, lookup_empty in Ho.
Qed.

Lemma make_room_size now confs (Hiter : ∀ c, iter c ≡ₚ map_to_list c) :
  (size confs ≤ MAX_OPEN → S (size (make_room iter now confs)) ≤ MAX_OPEN)%nat.
Proof.
  intros Hsize. unfold make_room. set (kept := filter _ confs).
  assert (Hk : (size kept ≤ size confs)%nat) by apply map_size_filter.
  destruct (Nat.leb_spec MAX_OPEN (size kept)) as [Hfull|]; [|lia].
  destruct (max_by _ _) as [[oldest o]|] eqn:Emax.
  - apply max_by_elem in Emax. rewrite elem_of_reverse, (Hiter kept), elem_of_map_to_list in Emax.
    rewrite map_size_delete, Emax. unfold MAX_OPEN in *. lia.
  - apply max_by_None in Emax. assert (E : iter kept = []).
    { by rewrite <- (reverse_involutive (iter kept)), Emax. }
    specialize (Hiter kept). rewrite E in Hiter.
    apply Permutation_nil, map_to_list_empty_iff in Hiter.
    rewrite Hiter in Hfull. unfold MAX_OPEN in *. rewrite map_size_empty in Hfull. lia.
Qed.

(** The confirmations waiting never fill the memory: from any number within the bound,
    whatever is asked, they stay within it. *)
Theorem confirmations_bounded (e : Env) (i : Intent) (confs : Confirmations) (s : list Intent)
    (Hiter : ∀ c, iter c ≡ₚ map_to_list c) (Hsize : (size confs ≤ MAX_OPEN)%nat) :
  (size (answer_log e i (confs, s)).2.1 ≤ MAX_OPEN)%nat.
Proof.
  assert (Hplain : ∀ (b : bool) r j, (size ((if b then (Err r, (confs, s))
     else let '(r, s) := act remember e j s in (r, (confs, s)))
       : result Error Answer * (Confirmations * list Intent)).2.1 ≤ MAX_OPEN)%nat).
  { intros [] r j; [done|]. by destruct (act _ _ _ _). }
  destruct i; try apply Hplain; unfold answer_log, answer.
  - match goal with |- context [consume e ?p ?y confs] => rename p into proof, y into asked end.
    destruct (consume e proof asked confs) as [[account|why] confs1] eqn:Ec.
    + apply consume_Ok in Ec as (_ & o & g & left & _ & Ho & _ & _ & _ & _ & _ & ->).
      destruct (act _ _ _ _). cbn. case_decide.
      * apply size_delete_lt in Ho. lia.
      * rewrite map_size_insert_None by apply lookup_delete_eq. apply size_delete_lt in Ho. lia.
    + cbn. apply consume_Err in Ec as [[_ ->]| ->]; [done|]. pose proof (size_delete_le confs (pf_state proof)). lia.
  - unfold Privd.begin_. destruct (_ || _); [done|].
    destruct (client e) as [[oidc|]|]; [|done..].
    destruct (started _ _ _ _) as [url request]. cbn.
    pose proof (make_room_size (e_now e) confs Hiter Hsize) as Hroom.
    rewrite map_size_insert. destruct (make_room iter (e_now e) confs !! _); unfold id, MAX_OPEN in *; lia.
Qed.
End requests.

(** ** One passkey, one removal *)

Module Sample.
Abbreviation Intent := (Intent ()).
Definition json (i : Intent) : list N := if i is Remove app _ _ then bytes_of app else [].
Definition json_list (l : list Intent) : list N := l ≫= json.
Definition remove : Intent := Remove "immich" (Some "immich") true.
Definition nonce : string := Intent.nonce json_list [remove].
Definition token_of := Oidc.Sample.token_with nonce.
Definition claims := Oidc.Sample.claims 1050.
Definition display (_ : OidcError) : string := "refused".
(** An account bound to PocketID's [alice], with a role. *)
Definition env (role : Role) (now : Z) : Env := {|
  e_now := now; e_issuer := Some Oidc.Sample.issuer; e_sign_in := None; e_exposure := Ok None;
  e_discover _ _ := Err "offline"; e_entropy := replicate 64 7%N;
  e_post := Oidc.Sample.post; e_get := Oidc.Sample.get;
  e_user_by_pocket_id sub := Ok (if sub ==? "alice" then Some "alice" else None);
  e_user_role _ := Ok role |}.
Definition reply (_ : Env) (_ : Intent) : result Error () := Ok ().
Definition begun (_ : result string (option string)) : () := ().
Definition state : string := base64url (replicate 32 7%N).
Definition proof : Proof_ := {| pf_state := state; pf_code := "code" |}.
Definition waiting : Confirmations := (begin_ json json_list map_to_list (env Admin 1000) [remove] ∅).2.
Definition answer_log := answer_log json json_list token_of Oidc.Sample.identity claims
  Oidc.Sample.text_of display map_to_list reply begun.
Definition life := life json json_list token_of Oidc.Sample.identity claims
  Oidc.Sample.text_of display map_to_list reply begun.
End Sample.

Lemma refused_confirmation_dropped_witness :
  (consume Sample.json Sample.token_of Oidc.Sample.identity Sample.claims Oidc.Sample.text_of
     Sample.display (Sample.env Viewer 1100) Sample.proof Sample.remove Sample.waiting).2
    !! Sample.state = None.
Proof.
  assert (E : consume Sample.json Sample.token_of Oidc.Sample.identity Sample.claims
     Oidc.Sample.text_of Sample.display (Sample.env Viewer 1100) Sample.proof Sample.remove
     Sample.waiting = (Err ("alice confirmed, and their role may not " +:+ action_describe Destroy), ∅))
    by (by vm_compute).
  rewrite E.
  by destruct (refused_confirmation_dropped _ _ _ _ _ _ _ _ _ _ _ _ Destroy (eq_refl : passkey Sample.remove = Some Destroy) E) as [_ H].
Defined.

Lemma destruction_confirmed_witness :
  ∃ o, Sample.waiting !! Sample.state = Some o ∧ digest Sample.json Sample.remove ∈ op_left o.
Proof.
  assert (E : Sample.answer_log (Sample.env Admin 1100) (Confirmed Sample.proof Sample.remove)
    (Sample.waiting, []) = (Ok (), (∅, [] ++ [Sample.remove]))) by (by vm_compute).
  assert (Er : required (Sample.env Admin 1100) = true) by (by vm_compute).
  generalize dependent Sample.waiting. unfold Sample.answer_log. intros waiting E.
  pose proof (destruction_confirmed _ _ _ _ _ _ _ _ _ _ _ _ _ _ _ _ _ Destroy Er
    (eq_refl : passkey Sample.remove = Some Destroy) E) as (proof & o & g & Ep & Ho & Hd & _).
  assert (Epr : Sample.proof = proof) by congruence. exists o. by rewrite <- Epr in Ho.
Defined.

Lemma passkey_acts_once_witness :
  NoDup [(Sample.state, digest Sample.json Sample.remove)].
Proof.
  set (d := digest Sample.json Sample.remove).
  assert (E : Sample.life
    [(Sample.env Admin 1000, BeginConfirmation [Sample.remove]);
     (Sample.env Admin 1100, Confirmed Sample.proof Sample.remove);
     (Sample.env Admin 1101, Confirmed Sample.proof Sample.remove)] ∅
    = ([(Sample.state, [d])], [(Sample.state, d)], ∅)) by (by vm_compute).
  unfold Sample.life in E. apply (passkey_acts_once _ _ _ _ _ _ _ _ _ _ _ _ _ _ E).
  apply NoDup_singleton.
Defined.

Lemma confirmations_bounded_witness :
  (size (Sample.answer_log (Sample.env Admin 1000) (BeginConfirmation [Sample.remove]) (∅, [])).2.1
     ≤ MAX_OPEN)%nat.
Proof.
  apply confirmations_bounded; [done|]. rewrite map_size_empty. unfold MAX_OPEN. lia.
Defined.
