(* ===== verification/Handlers.v ===== *)
(** * What the daemon does of an intent

    [crates/hlb-privd/src/swarm.rs], [record.rs]: a service's replicas, a node's
    availability, a token for aliases. Each is previewed, or applied once nothing blocks it;
    its result says which, and what became of each step. Docker is an environment with a
    state of its own. *)

From S2P Require Import Prelude RustStr Encoding Rbac Manifest Journal Users Accounts Swarm Intent.

#[local] Open Scope hlb_scope.

(** ** The Swarm *)

(** What the daemon asks of Docker ([trait Orchestrator]). *)
Class Docker (X : Type) := {
  dk_status : string → X → option N;
  dk_scale : string → N → X → result string () * X;
  dk_nodes : X → result string (list NodeInfo);
  dk_set_availability : string → string → X → result string () * X }.

Definition planned (description : string) : ActionStep :=
  {| as_description := description; as_state := Planned; as_error := None |}.
Definition with_state (st : StepState) (error : option string) (s : ActionStep) : ActionStep :=
  {| as_description := as_description s; as_state := st; as_error := error |}.

(** What a call came to. *)
Definition ended (r : result string ()) (s : ActionStep) : ActionStep :=
  match r with Ok _ => with_state StepDone None s | Err e => with_state StepFailed (Some e) s end.

Section swarm.
Context {X : Type} `{!Docker X} (display : Journal.Error → string).
(** There is an orchestrator. *)
Context (orchestrated : bool).

(** @ hlb-privd/src/swarm.rs:70-80 [scale] *)
Definition keep_replicas (app : string) (target : N) (s : Store) : option string * Store :=
  match app_manifest app s with
  | (Ok m, s) =>
      let decided := if (target =? sw_replicas (sp_swarm (mf_spec m)))%N then None else Some target in
      match set_app_replicas app decided s with
      | (Ok _, s) => (None, s)
      | (Err e, s) =>
          (Some ("scaled, but not kept: reconciliation may undo it — " +:+ display e), s)
      end
  | (Err _, s) => (None, s)
  end.

(** @ hlb-privd/src/swarm.rs:8-106 [scale] *)
Definition scale (app : string) (replicas : option N) (apply : bool) (w : Store * X)
    : ActionResult * (Store * X) :=
  let '(s, x) := w in
  match replicas with
  | None =>
      ({| ar_applied := false; ar_summary := "resize " +:+ app; ar_steps := [];
          ar_cli_command := "hlb scale " +:+ app +:+ " <n> --apply";
          ar_blockers := ["replica count missing (" +:+ quoted_str "replicas" +:+ " in the body)"];
          ar_warnings := []; ar_confirmation_required := None |}, w)
  | Some target =>
      let zero := if (target =? 0)%N then
        ["zero replicas stops the application — use " +:+ quoted_str "hlb stop" +:+
         " if that is the intent"] else [] in
      let current := if orchestrated then dk_status app x else None in
      let absent := if current is None then
        [quoted_str app +:+ " is not deployed, or Docker is unreachable"] else [] in
      let blockers := zero ++ absent in
      let applied := apply && (blockers ==? []) in
      let to_ := plural target "replica" "replicas" in
      let step := planned ("move " +:+ app +:+
        (if current is Some a then " from " +:+ show_N a else "") +:+ " to " +:+ to_) in
      let '(step, (s, x)) :=
        if applied then
          if orchestrated then
            match dk_scale app target x with
            | (Ok _, x) =>
                let '(e, s) := keep_replicas app target s in (with_state StepDone e step, (s, x))
            | (Err e, x) => (with_state StepFailed (Some e) step, (s, x))
            end
          else (with_state StepFailed (Some "Docker unreachable") step, (s, x))
        else (step, (s, x)) in
      ({| ar_applied := applied; ar_summary := app +:+ " to " +:+ to_; ar_steps := [step];
          ar_cli_command := "hlb scale " +:+ app +:+ " " +:+ show_N target +:+ " --apply";
          ar_blockers := blockers; ar_warnings := []; ar_confirmation_required := None |}, (s, x))
  end.

(** What a drain is checked for: the blockers, the warnings and the confirmation asked.
    @ hlb-privd/src/swarm.rs:123-175 [node_availability] *)
Definition drain_checks (id : string) (confirmed : option string) (apply : bool)
    (blockers : list string) (x : X) : list string * list string * option string :=
  let '(nodes, blockers) :=
    match dk_nodes x with
    | Ok n => (n, blockers)
    | Err e => ([], blockers ++ ["the cluster's nodes could not be read: " +:+ e])
    end in
  let healthy := length (keep in_service nodes) in
  let target_is_active := any_of (λ n, node_named id n && (n_availability n ==? "active")) nodes in
  let blockers :=
    if target_is_active && (healthy <=? 1)%nat then
      blockers ++ ["this is the last active node: draining it would stop ALL the applications, " +:+
                   "with nowhere to place them"]
    else blockers in
  if target_is_active && (blockers ==? []) then
    match maintenance nodes id with
    | Go => (blockers, [], None)
    | Downtime why =>
        (if apply && negb (confirmed ==? Some id) then
           blockers ++ ["the downtime is not accepted — send back {" +:+ quoted_str "confirmed" +:+
                        ": " +:+ quoted_str id +:+ "} to drain it anyway"]
         else blockers, [why], Some id)
    | Refused why => (blockers ++ [why], [], None)
    end
  else (blockers, [], None).

(** @ hlb-privd/src/swarm.rs:108-213 [node_availability] *)
Definition node_availability (id targeted : string) (confirmed : option string) (apply : bool)
    (x : X) : ActionResult * X :=
  let blockers :=
    if bool_decide (targeted ∈ ["active"; "pause"; "drain"]) then []
    else ["availability expected: " +:+ quoted_str "active" +:+ ", " +:+ quoted_str "pause" +:+
          " or " +:+ quoted_str "drain"] in
  let '(blockers, warnings, confirmation) :=
    if (targeted ==? "drain") && orchestrated then drain_checks id confirmed apply blockers x
    else (blockers, [], None) in
  let applied := apply && (blockers ==? []) in
  let step := planned ("move node " +:+ id +:+ " to " +:+ quoted_str targeted) in
  let '(step, x) :=
    if applied then
      if orchestrated then
        let '(r, x) := dk_set_availability id targeted x in (ended r step, x)
      else
        (with_state StepUnimplemented
           (Some "no orchestrator: Docker unreachable, or demonstration mode") step, x)
    else (step, x) in
  ({| ar_applied := applied; ar_summary := "node " +:+ id +:+ " to " +:+ quoted_str targeted;
      ar_steps := [step];
      ar_cli_command := "docker node update --availability " +:+ targeted +:+ " " +:+ id;
      ar_blockers := blockers; ar_warnings := warnings; ar_confirmation_required := confirmation |}, x).

(** @ hlb-privd/src/swarm.rs:215-219 [nodes] *)
Definition nodes (x : X) : option (result string (list NodeInfo)) :=
  if orchestrated then Some (dk_nodes x) else None.
End swarm.

Section swarm_handlers.
Context {X : Type} `{!Docker X} (display : Journal.Error → string).

(** A node is emptied safely: it was not in service, or another is and nothing stops while
    it is away - or what stops was said and accepted, by its name. *)
Definition drain_accepted (id : string) (confirmed : option string) (warnings : list string)
    (nodes : list NodeInfo) : Prop :=
  (∀ n, n ∈ nodes → node_named id n = true → n_availability n ≠ "active") ∨
  (2 ≤ length (keep in_service nodes))%nat ∧
  (maintenance nodes id = Go ∨
   ∃ why, maintenance nodes id = Downtime why ∧ confirmed = Some id ∧ warnings = [why]).

Lemma drain_checks_pass id confirmed blockers warnings confirmation x :
  drain_checks id confirmed true blockers x = ([], warnings, confirmation) →
  blockers = [] ∧ ∃ nodes, dk_nodes x = Ok nodes ∧ drain_accepted id confirmed warnings nodes.
Proof.
  unfold drain_checks. destruct (dk_nodes x) as [nodes|e]; [|cbn; by destruct blockers].
  set (active := any_of _ nodes).
  assert (Hactive : active = false → ∀ n, n ∈ nodes → node_named id n = true → n_availability n ≠ "active").
  { unfold active. rewrite any_of_false. intros H n Hn Hid E. specialize (H n Hn).
    by rewrite Hid, E in H. }
  destruct active; cbn [andb]; [|intros [= -> <- <-]; split; [done|]; exists nodes; split; [done|]; left; auto].
  destruct (Nat.leb_spec (length (keep in_service nodes)) 1); [by destruct blockers|].
  case_bool_decide as Eb; [|by intros [= ->]]. subst blockers.
  destruct (maintenance nodes id) as [|why|why] eqn:Em; [|cbn [andb]|done].
  - intros [= <- <-]. split; [done|]. exists nodes. split; [done|]. right. split; [lia|auto].
  - case_bool_decide as Ec; [|done]. intros [= <- <-]. split; [done|]. exists nodes. split; [done|].
    right. split; [lia|]. right. by exists why.
Qed.

(** A node is never emptied by surprise. Docker is asked to move a node only when the
    answer says it was applied, nothing blocking it; and it drains one in service only when
    its nodes were read, another stays in service, and either the cluster's rule lets it go
    or the downtime it names was accepted by the node's own name. *)
Theorem drain_guarded (orchestrated : bool) (id targeted : string) (confirmed : option string)
    (apply : bool) (x x' : X) (r : ActionResult)
    (H : node_availability orchestrated id targeted confirmed apply x = (r, x')) :
  (ar_applied r = false → x' = x) ∧
  (ar_applied r = true → apply = true ∧ ar_blockers r = [] ∧
    x' = (if orchestrated then (dk_set_availability id targeted x).2 else x) ∧
    targeted ∈ ["active"; "pause"; "drain"] ∧
    (targeted = "drain" → orchestrated = true →
     ∃ nodes, dk_nodes x = Ok nodes ∧ drain_accepted id confirmed (ar_warnings r) nodes)).
Proof.
  unfold node_availability in H. set (first := if bool_decide _ then _ else _) in H.
  destruct (if _ && orchestrated then _ else _) as [[blockers warnings] confirmation] eqn:Ec in H.
  destruct apply; cbn [andb] in H; [|by injection H as <- <-].
  case_bool_decide as Eb; [subst blockers|by injection H as <- <-].
  assert (Hfirst : first = [] ∧ (targeted = "drain" → orchestrated = true →
    ∃ nodes, dk_nodes x = Ok nodes ∧ drain_accepted id confirmed warnings nodes)).
  { case_bool_decide as Ed; cbn in Ec.
    - destruct orchestrated; [|by injection Ec]. apply drain_checks_pass in Ec as [? Hd]. auto.
    - injection Ec as ?. split; [done|]. intros. done. }
  destruct Hfirst as [Hf Hdrain].
  assert (Ht : targeted ∈ ["active"; "pause"; "drain"]).
  { unfold first in Hf. case_bool_decide as Ht; done. }
  destruct orchestrated.
  - destruct (dk_set_availability id targeted x) as [res x1]. injection H as <- <-.
    split; [done|]. intros _. by split_and!.
  - injection H as <- <-. split; [done|]. intros _. by split_and!.
Qed.

(** Replicas are what was asked and stay so: nothing is touched unless the answer says it
    was applied, and then never to zero; once Docker took the count it is the one reconciliation
    will keep - none kept when it is the manifest's own. *)
Theorem scale_spec (orchestrated : bool) (app : string) (replicas : option N) (apply : bool)
    (s s' : Store) (x x' : X) (r : ActionResult)
    (H : scale display orchestrated app replicas apply (s, x) = (r, (s', x'))) :
  (ar_applied r = false → s' = s ∧ x' = x) ∧
  (ar_applied r = true → ∃ target, replicas = Some target ∧ apply = true ∧ target ≠ 0%N ∧
    orchestrated = true ∧ is_Some (dk_status app x) ∧ x' = (dk_scale app target x).2 ∧
    match (dk_scale app target x).1, t_apps s !! app with
    | Ok _, Some row =>
        t_apps s' !! app = Some {| row_manifest := row_manifest row; row_domain := row_domain row;
          row_status := row_status row;
          row_replicas := if (target =? sw_replicas (sp_swarm (mf_spec (row_manifest row))))%N
                          then None else Some target |} ∧
        ∀ other, other ≠ app → t_apps s' !! other = t_apps s !! other
    | _, _ => s' = s
    end).
Proof.
  unfold scale in H. destruct replicas as [target|]; [|by injection H as <- <- <-].
  destruct (N.eqb_spec target 0) as [->|Hz]; cbn [Datatypes.app] in H.
  { destruct orchestrated, apply; cbn in H; by injection H as <- <- <-. }
  destruct orchestrated; cbn iota in H.
  2: { destruct apply; cbn in H; by injection H as <- <- <-. }
  destruct (dk_status app x) as [current|] eqn:Es; [|destruct apply; cbn in H; by injection H as <- <- <-].
  destruct apply; cbn [andb] in H; [|by injection H as <- <- <-].
  rewrite bool_decide_true in H by done.
  destruct (dk_scale app target x) as [[[]|e] x1] eqn:Ed; cbn in H.
  - unfold keep_replicas, app_manifest, set_app_replicas in H.
    destruct (t_apps s !! app) as [row|] eqn:Er; cbn in H; injection H as <- <- <-;
      (split; [done|]); intros _; exists target; rewrite Ed; split_and!; try done; cbn [fst snd t_apps set_apps].
    split; [by rewrite lookup_alter_eq, Er|]. intros other Hne. by rewrite lookup_alter_ne.
  - injection H as <- <- <-. split; [done|]. intros _. exists target. rewrite Ed. by split_and!.
Qed.
End swarm_handlers.

(** ** A token for aliases *)

Definition db_display (e : Accounts.Error) : string :=
  match e with
  | Db why => "state database: " +:+ why
  | UnknownRole role => "no role " +:+ quoted_str role +:+ " — `hlb role list` names them"
  | InvalidRole role =>
      quoted_str role +:+ ": a role id is lowercase letters, digits and hyphens, up to 40 — it " +:+
      "names a PocketID group"
  | MailboxTaken address => address +:+ " is another account's mailbox"
  end.

(** @ hlb-privd/src/record.rs:89-138 [issue_alias_token] *)
Definition issue_alias_token (name account mailbox fingerprint : string) (t : Tables)
    : result Refusal () * Tables :=
  let taken := any_of (λ '(n, _), n ==? name) (list_tokens t) in
  if taken && negb (token_user name t ==? Some account) then
    (Err (Conflict ("a token named " +:+ quoted_str name +:+ " exists and is not " +:+ account +:+
                    "'s: choose another name")), t)
  else
    match store_token name fingerprint (Rbac.role_as_str Rbac.User) t with
    | (Err e, t) => (Err (Conflict (db_display e)), t)
    | (Ok _, t) =>
        match set_token_user name (Some account) t with
        | (Err e, t) => (Err (Internal (db_display e)), t)
        | (Ok _, t) =>
            let '(r, t) := set_token_mailbox name (Some mailbox) t in
            (map_err (λ e, Internal (db_display e)) r, t)
        end
    end.

Lemma list_tokens_has name t :
  any_of (λ '(n, _), n ==? name) (list_tokens t) = true ↔ is_Some (t_tokens t !! name).
Proof.
  unfold any_of, list_tokens. rewrite existsb_exists. split.
  - intros ([n r] & Hin%list_elem_of_In & E). apply bool_decide_eq_true in E as ->.
    apply list_elem_of_fmap in Hin as ([n x] & E & Hx%elem_of_btree_entries).
    injection E as -> ->. by eexists.
  - intros [x Hx]. exists (name, tr_role x). split; [|by apply bool_decide_eq_true].
    apply list_elem_of_In, list_elem_of_fmap. exists (name, x). split; [done|].
    by apply elem_of_btree_entries.
Qed.

(** Tokens are told apart by their fingerprint. *)
Definition tokens_unique (t : Tables) : Prop :=
  ∀ n m x y, t_tokens t !! n = Some x → t_tokens t !! m = Some y →
    tr_fingerprint x = tr_fingerprint y → n = m.

Lemma find_token_unique presented name x t :
  tokens_unique t → t_tokens t !! name = Some x → tr_fingerprint x = fingerprint presented →
  find_token presented t = Some (name, tr_fingerprint x, default Rbac.User (Rbac.role_parse (tr_role x))).
Proof.
  intros Hu Hx Hf. unfold find_token.
  destruct (find_first _ (btree_entries (t_tokens t))) as [[n y]|] eqn:E.
  - apply find_first_Some in E as (l & k & El & Hy & _). apply bool_decide_eq_true in Hy.
    assert (Hin : (n, y) ∈ btree_entries (t_tokens t)) by (rewrite El; apply elem_of_app; right; left).
    apply elem_of_btree_entries in Hin.
    assert (n = name) as -> by (eapply Hu; [done..|congruence]). cbn.
    assert (y = x) as -> by congruence. done.
  - rewrite find_first_None, Forall_forall in E.
    assert (Hin : (name, x) ∈ btree_entries (t_tokens t)) by by apply elem_of_btree_entries.
    specialize (E _ Hin). cbn in E. by apply bool_decide_eq_false in E.
Qed.

(** A token for aliases acts for one account and opens nothing else: issued, whoever
    presents it is read as the least role, bound to that account and that mailbox; a name is
    only taken again from the account itself, never a service's or another person's; every
    other token is as it was, and a refusal changes nothing. *)
Theorem alias_token_spec (name account mailbox presented : string) (t t' : Tables)
    (r : result Refusal ()) (Hu : tokens_unique t)
    (H : issue_alias_token name account mailbox (fingerprint presented) t = (r, t')) :
  match r with
  | Ok _ =>
      find_token presented t' = Some (name, fingerprint presented, Rbac.User) ∧
      token_target name t' = (Some account, Some mailbox) ∧
      (∀ x, t_tokens t !! name = Some x → tr_user x = Some account) ∧
      (∀ other, other ≠ name → t_tokens t' !! other = t_tokens t !! other)
  | Err _ => t' = t
  end.
Proof.
  unfold issue_alias_token in H. pose proof (list_tokens_has name t) as Htaken.
  set (taken := any_of _ (list_tokens t)) in *.
  destruct (taken && negb _) eqn:Et; [by injection H as <- <-|].
  unfold store_token in H. destruct (any_of _ (map_to_list (t_tokens t))) eqn:Eu; [by injection H as <- <-|].
  cbn in H. injection H as <- <-. rewrite any_of_false in Eu. cbn [t_tokens set_tokens].
  set (m := alter _ name _). assert (Hm : m !! name = Some {| tr_fingerprint := fingerprint presented;
    tr_role := "user"; tr_user := Some account; tr_mailbox := Some mailbox |}).
  { unfold m. by rewrite !lookup_alter_eq, lookup_insert_eq. }
  assert (Ho : ∀ other, other ≠ name → m !! other = t_tokens t !! other).
  { intros other Hne. unfold m. by rewrite !lookup_alter_ne, lookup_insert_ne. }
  split_and!.
  - apply (find_token_unique presented name _ (set_tokens m t)) in Hm; [done| |done].
    assert (Hnew : ∀ n x, m !! n = Some x → tr_fingerprint x = fingerprint presented → n = name).
    { intros n x Hx Hf. destruct (decide (n = name)) as [->|Hne]; [done|].
      rewrite Ho in Hx by done. specialize (Eu (n, x)). rewrite elem_of_map_to_list in Eu.
      specialize (Eu Hx). by rewrite bool_decide_false, bool_decide_true in Eu by done. }
    intros n k x y Hx Hy E. cbn in Hx, Hy.
    destruct (decide (n = name)) as [->|Hn], (decide (k = name)) as [->|Hk]; [done|..].
    + rewrite Hm in Hx. injection Hx as <-. symmetry. by eapply Hnew.
    + rewrite Hm in Hy. injection Hy as <-. by eapply Hnew.
    + rewrite Ho in Hx by done. rewrite Ho in Hy by done. by eapply Hu.
  - unfold token_target. cbn. by rewrite Hm.
  - intros x Hx. rewrite (proj2 Htaken) in Et by by exists x. cbn in Et. apply negb_false_iff, bool_decide_eq_true in Et. unfold token_user in Et.
    by rewrite Hx in Et.
  - apply Ho.
Qed.

(** ** At concrete inputs *)

(** A cluster whose services run two replicas. *)
#[local] Instance example_docker : Docker (list NodeInfo) := {|
  dk_status := λ _ _, Some 2%N;
  dk_scale := λ _ _ x, (Ok (), x);
  dk_nodes := λ x, Ok x;
  dk_set_availability := λ id availability x, (Ok (), at_node id (with_availability availability) x) |}.

(** One manager of three may be drained. *)
Lemma drain_guarded_witness :
  let '(r, x) := node_availability true "a" "drain" None true three_managers in
  ar_applied r = true ∧ x = one_drained ∧ drain_accepted "a" None (ar_warnings r) three_managers.
Proof.
  destruct (node_availability _ _ _ _ _ _) as [r x] eqn:E.
  assert (Ha : ar_applied r = true).
  { assert (Eq : r = (node_availability true "a" "drain" None true three_managers).1) by by rewrite E.
    rewrite Eq. by vm_compute. }
  destruct (drain_guarded true "a" "drain" None true three_managers x r E) as [_ H].
  destruct (H Ha) as (_ & _ & Hx & _ & Hd). destruct (Hd eq_refl eq_refl) as (nodes & Hn & Hacc).
  injection Hn as <-. split; [done|]. split; [exact Hx|exact Hacc].
Defined.

(** Three replicas of an app whose manifest says one: kept. *)
Lemma scale_spec_witness :
  ∃ s', (scale (λ _, "") true "gitea" (Some 3%N) true (example_store, three_managers)).2 = (s', three_managers) ∧
    row_replicas <$> t_apps s' !! "gitea" = Some (Some 3%N).
Proof.
  destruct (scale (λ _, "") true "gitea" (Some 3%N) true (example_store, three_managers)) as [r [s' x']] eqn:E.
  assert (Ha : ar_applied r = true).
  { assert (Eq : r = (scale (λ _, "") true "gitea" (Some 3%N) true (example_store, three_managers)).1) by by rewrite E.
    rewrite Eq. by vm_compute. }
  destruct (scale_spec (λ _, "") true "gitea" (Some 3%N) true example_store s' three_managers x' r E) as [_ H].
  destruct (H Ha) as (target & Ht & _ & _ & _ & _ & Hx & Hrow). injection Ht as <-. cbn in Hx. subst x'.
  exists s'. split; [done|]. cbn in Hrow. destruct Hrow as [Hrow _]. rewrite Hrow. by vm_compute.
Defined.

(** Lena's token is read back as hers, with the least role. *)
Lemma alias_token_spec_witness :
  let t' := (issue_alias_token "phone" "lena" "lena" (fingerprint "secret") no_tables).2 in
  find_token "secret" t' = Some ("phone", fingerprint "secret", Rbac.User) ∧
  token_target "phone" t' = (Some "lena", Some "lena").
Proof.
  destruct (issue_alias_token "phone" "lena" "lena" (fingerprint "secret") no_tables) as [r t'] eqn:E.
  assert (Hr : r = Ok ()).
  { assert (Eq : r = (issue_alias_token "phone" "lena" "lena" (fingerprint "secret") no_tables).1)
      by by rewrite E. rewrite Eq. by vm_compute. }
  subst r. cbn [snd].
  assert (Hu : tokens_unique no_tables) by (intros n m x y Hx; discriminate Hx).
  destruct (alias_token_spec "phone" "lena" "lena" "secret" no_tables t' (Ok ()) Hu E) as (H1 & H2 & _).
  by split.
Defined.
