(* ===== verification/Signup.v ===== *)
(** * An account made from an invitation

    [crates/hlb-privd/src/signup.rs], with [crates/hlb-engine/src/mailbox.rs] and the calls of
    [crates/hlb-mail/src/lib.rs] it is made of: the one privileged act nobody signed in asks
    for. The state is the store of apps, the tables of people, and the world outside - what
    PocketID and the JMAP server of Stalwart hold, read and changed through their calls only.
    What others write meanwhile and the insert the state refuses are the environment's. *)

From S2P Require Import Prelude RustStr Encoding Rbac Manifest Journal Users Accounts Intent Handlers.

#[local] Open Scope hlb_scope.

(** ** The mail server *)

(** The JMAP calls, each the ids it answers or why it failed. *)
Class Jmap (X : Type) := {
  jm_domain_query : string → X → result string (list string);
  jm_domain_set : string → X → result string string * X;
  jm_account_query : string → string → X → result string (list string);
  jm_account_set : string → string → string → X → result string string * X }.

(** PocketID's calls: an account's id from its name, address and display name, and a token
    for its id. *)
Class PocketId (X : Type) := {
  pi_create_user : string → string → string → X → result string string * X;
  pi_one_time_token : string → string → X → result string string * X;
  pi_issuer : string }.

(** @ hlb-mail/src/lib.rs:74-109 [Error] *)
Inductive MailError := UnknownDomain (domain : string) | MailFailed (why : string).

(** @ hlb-mail/src/lib.rs:74-109 [Error] *)
Definition mail_display (e : MailError) : string :=
  match e with
  | UnknownDomain d =>
      "domain " +:+ quoted_str d +:+ " does not exist in Stalwart - an account cannot be created " +:+
      "on a missing domain; create it first"
  | MailFailed why => why
  end.

(** @ hlb-users/src/lib.rs:48-65 [Error] *)
Definition user_display (e : UserError) : string :=
  match e with
  | QuotaExceeded why => why
  | InvalidName n => quoted_str n +:+ ": unusable identifier — lowercase, digits, dot, hyphen"
  | ReservedName n =>
      quoted_str n +:+ " is reserved: other servers and people write there to reach the " +:+
      "installation's administrators, never one person's mailbox"
  | Users.DefaultMailbox b =>
      "the default mailbox " +:+ quoted_str b +:+ " cannot be deleted: it is the account's " +:+
      "identity. Change it first, or delete the whole user"
  end.

Section mail.
Context {X : Type} `{!Jmap X}.

(** @ hlb-mail/src/lib.rs:376-395 [Stalwart::domain_id] *)
Definition domain_id (domain : string) (x : X) : result MailError string :=
  ids ← map_err MailFailed (jm_domain_query domain x);
  ok_or (UnknownDomain domain) (head ids).

(** @ hlb-mail/src/lib.rs:397-428 [Stalwart::ensure_domain] *)
Definition ensure_domain (domain : string) : eff X MailError string := λ x,
  match domain_id domain x with
  | Ok id => (Ok id, x)
  | Err (UnknownDomain _) =>
      let '(r, x) := jm_domain_set domain x in (map_err MailFailed r, x)
  | Err e => (Err e, x)
  end.

(** @ hlb-mail/src/lib.rs:430-446 [Stalwart::find_account] *)
Definition find_account (local domain_id : string) (x : X) : result MailError (option string) :=
  head <$> map_err MailFailed (jm_account_query local domain_id x).

(** An account's id, and whether it was made.
    @ hlb-mail/src/lib.rs:2093-2129 [Stalwart::ensure_account] *)
Definition ensure_account (address password : string) : eff X MailError (string * bool) :=
  match find_str "@" address with
  | None => eff_fail (MailFailed ("address with no domain: " +:+ address))
  | Some (local, domain) =>
      let! id := ensure_domain domain in
      λ x, match find_account local id x with
           | Err e => (Err e, x)
           | Ok (Some account) => (Ok (account, false), x)
           | Ok None =>
               let '(r, x) := jm_account_set local id password x in
               ((λ account, (account, true)) <$> map_err MailFailed r, x)
           end
  end.
End mail.

(** ** A mailbox *)

(** @ hlb-engine/src/mailbox.rs:9-19 [Existing] *)
Inductive Existing := RefuseExisting | Adopt.
(** @ hlb-engine/src/mailbox.rs:21-27 [Created] *)
Record Created := { cr_address : string; cr_adopted : bool }.

(** Why [local@domain] may not be [user]'s.
    @ hlb-engine/src/mailbox.rs:74-104 [refusal] *)
Definition refusal (user local domain : string) (s : Store) (t : Tables) : option string :=
  match validate_name local with
  | Err e => Some (user_display e)
  | Ok _ =>
      let apps := match (installed_apps s).1 with Ok l => l | Err _ => [] end in
      if any_of (λ '(a, _), a ==? local) apps then
        Some (local +:+ "@" +:+ domain +:+ " is the app " +:+ quoted_str local +:+
              "'s own account — choose another name")
      else
        match mailbox_owner local domain t with
        | Some owner =>
            if negb (owner ==? user) then
              Some (local +:+ "@" +:+ domain +:+ " is another account's mailbox")
            else None
        | None => None
        end
  end.

Record World (X : Type) := { w_store : Store; w_tables : Tables; w_outside : X }.
Arguments w_store {X} w.
Arguments w_tables {X} w.
Arguments w_outside {X} w.
Arguments Build_World {X} w_store w_tables w_outside.

Definition with_tables {X} (t : Tables) (w : World X) : World X := Build_World (w_store w) t (w_outside w).
Definition with_outside {X} (x : X) (w : World X) : World X := Build_World (w_store w) (w_tables w) x.

(** A call on the tables, or on what is outside, as one on the world. *)
Definition on_tables {X A} (m : Accounts.db A) (w : World X) : result Accounts.Error A * World X :=
  let '(r, t) := m (w_tables w) in (r, with_tables t w).
Definition on_outside {X E A} (m : eff X E A) (w : World X) : result E A * World X :=
  let '(r, x) := m (w_outside w) in (r, with_outside x w).

Section mailbox.
Context {X : Type} `{!Jmap X}.

(** What fails is an error; what may not be is a refusal. A password nobody is told.
    @ hlb-engine/src/mailbox.rs:29-72 [create] *)
Definition create (now user local domain : string) (is_default : bool) (existing : Existing)
    (password : string) (w : World X) : result string (result string Created) * World X :=
  let address := local +:+ "@" +:+ domain in
  match refusal user local domain (w_store w) (w_tables w) with
  | Some why => (Ok (Err why), w)
  | None =>
      let ours := mailbox_owner local domain (w_tables w) ==? Some user in
      let '(id, w) := on_outside (ensure_domain domain) w in
      match (id' ← id; find_account local id' (w_outside w)) with
      | Err e => (Err (mail_display e), w)
      | Ok account =>
          let found := bool_decide (is_Some account) in
          if found && negb ours && (if existing is RefuseExisting then true else false) then
            (Ok (Err (address +:+ " exists already in the mail server, and is not yours — choose " +:+
                      "another name")), w)
          else
            let '(made, w) := if found then (Ok (), w) else
              let '(r, w) := on_outside (ensure_account address password) w in
              ((λ _, ()) <$> r, w) in
            match made with
            | Err e => (Err (mail_display e), w)
            | Ok _ =>
                match on_tables (add_mailbox now user local domain is_default) w with
                | (Ok _, w) => (Ok (Ok {| cr_address := address; cr_adopted := found && negb ours |}), w)
                | (Err (MailboxTaken a), w) => (Ok (Err (a +:+ " is another account's mailbox")), w)
                | (Err e, w) => (Err (db_display e), w)
                end
            end
      end
  end.
End mailbox.

(** ** Signing up *)

Section sign_up.
Context {X : Type} `{!Jmap X} `{!PocketId X}.
(** What the daemon was configured with. *)
Context (identity mail : bool) (mail_domain : string).
(** What others do between the invitation's use and the account's record - a sign-up racing
    for the same name -, and why the state refuses that record, when it does. *)
Context (others : World X → World X) (unrecorded : option Accounts.Error).

(** @ hlb-api/src/intent/mod.rs:502-510 [SignedUp] *)
Record SignedUp := { su_result : ActionResult; su_link : option string }.

(** @ hlb-privd/src/signup.rs:19-36 [result] *)
Definition sign_up_result (name : string) (applied : bool) (steps : list ActionStep)
    (blockers : list string) : ActionResult :=
  {| ar_applied := applied;
     ar_summary := if applied then "account " +:+ quoted_str name +:+ " created"
                   else "create the account " +:+ quoted_str name;
     ar_steps := steps; ar_cli_command := "hlb user add " +:+ name +:+ " --apply";
     ar_blockers := blockers; ar_warnings := []; ar_confirmation_required := None |}.
Definition sign_up_answer (name : string) (applied : bool) (steps : list ActionStep)
    (blockers : list string) : SignedUp :=
  {| su_result := sign_up_result name applied steps blockers; su_link := None |}.

(** @ hlb-privd/src/signup.rs:216-251 [name_taken] *)
Definition name_taken (name : string) (w : World X) : list string :=
  (if any_of (λ '(n, _, _), n ==? name) (users (w_tables w)) then
     ["the name " +:+ quoted_str name +:+ " is already taken"] else []) ++
  match refusal name name mail_domain (w_store w) (w_tables w) with Some r => [r] | None => [] end ++
  if mail then
    let found := match domain_id mail_domain (w_outside w) with
                 | Ok id => (λ a, bool_decide (is_Some a)) <$> find_account name id (w_outside w)
                 | Err (UnknownDomain _) => Ok false
                 | Err e => Err e
                 end in
    match found with
    | Ok false => []
    | Ok true => [name +:+ "@" +:+ mail_domain +:+
                  " exists already in the mail server — choose another name"]
    | Err e => ["the mail server cannot be read: " +:+ mail_display e]
    end
  else [].

(** @ hlb-engine/src/access.rs:73-81 [pocketid_public] *)
Definition pocketid_public (s : Store) : option string :=
  match (app_domain "pocket-id" s).1 with Ok d => (λ d, "https://" +:+ d) <$> d | Err _ => None end.
(** @ hlb-engine/src/access.rs:83-86 [enrolment_link] *)
Definition enrolment_link (public token : string) : string :=
  trim_end_matches "/"%char public +:+ "/lc/" +:+ token.

(** The third step: the identity, and the link to its first passkey.
    @ hlb-privd/src/signup.rs:114-172 [sign_up] *)
Definition make_identity (name : string) (display_name : option string) (w : World X)
    : ActionStep * option string * World X :=
  let step := planned "create the PocketID identity" in
  if identity then
    match on_outside (pi_create_user name (name +:+ "@" +:+ mail_domain) (default name display_name)) w with
    | (Err e, w) => (with_state StepFailed (Some e) step, None, w)
    | (Ok id, w) =>
        let '(_, w) := on_tables (upsert_user_pocket_id name id) w in
        match on_outside (pi_one_time_token id "12h") w with
        | (Ok token, w) =>
            let public := default pi_issuer (pocketid_public (w_store w)) in
            (with_state StepDone None step, Some (enrolment_link public token), w)
        | (Err e, w) =>
            (with_state StepDone (Some ("identity created, but the enrolment link failed (" +:+ e +:+
               ") — make another with " +:+ quoted_str ("hlb user link " +:+ name))) step, None, w)
        end
    end
  else
    (with_state StepUnimplemented (Some ("PocketID not configured on this controller — finish with " +:+
       quoted_str "hlb user add <name> --apply" +:+ ", which picks up where this stopped")) step, None, w).

(** The fourth: the mailbox.
    @ hlb-privd/src/signup.rs:174-209 [sign_up] *)
Definition open_mailbox (created_at name password : string) (w : World X) : ActionStep * World X :=
  let step := planned "open the mailbox" in
  if mail then
    match create created_at name name mail_domain true RefuseExisting password w with
    | (Ok (Ok _), w) => (with_state StepDone None step, w)
    | (Ok (Err why), w) => (with_state StepFailed (Some why) step, w)
    | (Err e, w) => (with_state StepFailed (Some e) step, w)
    end
  else
    (with_state StepUnimplemented (Some ("Stalwart not configured on this controller — the mailbox " +:+
       "does not exist, and the address will receive nothing")) step, w).

(** @ hlb-privd/src/signup.rs:38-214 [sign_up] *)
Definition sign_up (now : Z) (created_at password invitation name : string)
    (display_name : option string) (apply : bool) (w : World X) : SignedUp * World X :=
  let malformed := match validate_name name with Err e => [user_display e] | Ok _ => [] end in
  let blockers := malformed ++
    if invitation_open invitation now (w_tables w) && (malformed ==? []) then name_taken name w else [] in
  if negb apply then
    (sign_up_answer name false
       [planned "create the PocketID identity"; planned "open the mailbox"; planned "record the account"]
       blockers, w)
  else if negb (blockers ==? []) then (sign_up_answer name false [] blockers, w)
  else
    match on_tables (consume_invitation invitation name now) w with
    | (Ok (Some role), w) =>
        let w := others w in
        let step := planned "record the account" in
        match (if unrecorded is Some e then (Err e, w) else on_tables (create_user name role) w) with
        | (Ok true, w) =>
            let recorded := with_state StepDone None step in
            let '(_, w) := on_tables (set_user_role name role (Some "invitation")) w in
            let '(identified, link, w) := make_identity name display_name w in
            let '(opened, w) := open_mailbox created_at name password w in
            ({| su_result := sign_up_result name true [recorded; identified; opened] [];
                su_link := link |}, w)
        | (Ok false, w) =>
            (sign_up_answer name true [with_state StepFailed
               (Some ("the name " +:+ quoted_str name +:+ " is already taken")) step] [], w)
        | (Err e, w) =>
            (sign_up_answer name true [with_state StepFailed (Some (db_display e)) step] [], w)
        end
    | (_, w) =>
        (sign_up_answer name false []
           ["invalid, expired or already used invitation — ask for a new link"], w)
    end.
End sign_up.

(** ** What a sign-up changes *)

(** The foreign key of the mailboxes. *)
Definition boxes_owned (t : Tables) : Prop :=
  ∀ m, m ∈ t_mailboxes t → is_Some (t_users t !! mr_user m).

Section signed_up.
Context {X : Type} `{!Jmap X} `{!PocketId X}.

Lemma on_outside_keeps {E A} (m : eff X E A) w r w' :
  on_outside m w = (r, w') → w_store w' = w_store w ∧ w_tables w' = w_tables w.
Proof. unfold on_outside. destruct (m (w_outside w)). intros [= <- <-]. done. Qed.

(** What [create] leaves of the tables: the mailbox recorded, or nothing. *)
Lemma create_tables now user local domain d existing password w r w' :
  create now user local domain d existing password w = (r, w') →
  w_store w' = w_store w ∧
  match r with
  | Ok (Ok c) => add_mailbox now user local domain d (w_tables w) = (Ok (), w_tables w')
  | _ => w_tables w' = w_tables w
  end.
Proof.
  unfold create. destruct (refusal _ _ _ _ _); [by intros [= <- <-]|].
  destruct (on_outside (ensure_domain domain) w) as [id w1] eqn:E1. apply on_outside_keeps in E1 as [Hs1 Ht1].
  destruct (id ≫= _) as [account|e]; [|by intros [= <- <-]].
  set (found := bool_decide (is_Some account)). destruct (found && _ && _); [by intros [= <- <-]|].
  destruct (if found then _ else _) as [made w2] eqn:E2.
  assert (w_store w2 = w_store w ∧ w_tables w2 = w_tables w) as [Hs2 Ht2].
  { destruct found; [by injection E2 as _ <-|].
    destruct (on_outside _ w1) as [r1 w3] eqn:E3. apply on_outside_keeps in E3 as [Hs3 Ht3].
    injection E2 as _ <-. split; congruence. }
  destruct made as [[]|e]; [|by intros [= <- <-]].
  unfold on_tables. rewrite Ht2. destruct (add_mailbox _ _ _ _ _ _) as [ra ta] eqn:Ea. cbn.
  assert (Hkeep : is_ok ra = false → ta = w_tables w).
  { revert Ea. unfold add_mailbox. repeat (case_match; try (intros [= <- <-]; done)). }
  destruct ra as [[]|[]]; intros [= <- <-]; cbn; auto.
Qed.

Lemma add_mailbox_new now user local domain d t t' :
  (∀ m, m ∈ t_mailboxes t → mr_user m ≠ user) → add_mailbox now user local domain d t = (Ok (), t') →
  t' = set_mailboxes (t_mailboxes t ++ [{| mr_user := user; mr_local := local; mr_domain := domain;
         mr_default := d; mr_created_at := now |}]) t.
Proof.
  intros Hnone. unfold add_mailbox. destruct (if mailbox_owner _ _ _ is Some _ then _ else _); [done|].
  destruct (any_of _ _) eqn:E1; [done|]. clear E1. destruct (any_of _ _) eqn:E2.
  - unfold any_of in E2. rewrite existsb_exists in E2. destruct E2 as (m & Hm & Hu).
    apply list_elem_of_In in Hm. apply andb_true_iff in Hu as [Hu%bool_decide_eq_true _]. by apply Hnone in Hm.
  - destruct (t_users t !! user); [|done]. by intros [= <-].
Qed.

Context (identity mail : bool) (mail_domain : string).

Lemma make_identity_tables name display_name w step link w' u :
  make_identity identity mail_domain name display_name w = (step, link, w') →
  t_users (w_tables w) !! name = Some u → ur_pocket_id u = None →
  w_store w' = w_store w ∧
  (w_tables w' = w_tables w ∧ as_state step ≠ StepDone ∨
   ∃ id, w_tables w' = set_users (<[name := {| ur_role := ur_role u; ur_pocket_id := Some id;
     ur_granted_by := ur_granted_by u |}]> (t_users (w_tables w))) (w_tables w)).
Proof.
  unfold make_identity. intros H Hu Hp. destruct identity.
  2: { injection H as <- <- <-. split; [done|]. left. done. }
  destruct (on_outside (pi_create_user _ _ _) w) as [[id|e] w1] eqn:E1;
    apply on_outside_keeps in E1 as [Hs1 Ht1].
  2: { injection H as <- <- <-. split; [done|]. left. done. }
  unfold on_tables, upsert_user_pocket_id in H. rewrite Ht1, Hu, Hp in H. cbn in H.
  destruct (on_outside (pi_one_time_token id "12h") _) as [[token|e] w2] eqn:E2;
    apply on_outside_keeps in E2 as [Hs2 Ht2]; injection H as <- <- <-; cbn in Hs2, Ht2;
    (split; [congruence|]); right; exists id; by rewrite Ht2.
Qed.

Lemma open_mailbox_tables created_at name password w step w' :
  open_mailbox mail mail_domain created_at name password w = (step, w') →
  w_store w' = w_store w ∧
  if as_state step ==? StepDone
  then add_mailbox created_at name name mail_domain true (w_tables w) = (Ok (), w_tables w')
  else w_tables w' = w_tables w.
Proof.
  unfold open_mailbox. destruct mail; [|by intros [= <- <-]].
  destruct (create _ _ _ _ _ _ _ w) as [r w1] eqn:E. apply create_tables in E as [Hs Ht].
  destruct r as [[c|why]|e]; by intros [= <- <-].
Qed.

Lemma listed_false {A B} (m : gmap string A) (f : string * A → B) (p : B → bool) k :
  any_of p (f <$> btree_entries m) = false → (∀ x, p (f (k, x)) = true) → m !! k = None.
Proof.
  rewrite any_of_false. intros H Hp. destruct (m !! k) as [x|] eqn:E; [|done].
  specialize (H (f (k, x))). rewrite Hp in H. discriminate H.
  apply list_elem_of_fmap. exists (k, x). split; [done|]. by apply elem_of_btree_entries.
Qed.

Lemma name_taken_nil name w :
  name_taken mail mail_domain name w = [] → validate_name name = Ok () →
  t_users (w_tables w) !! name = None ∧ t_apps (w_store w) !! name = None.
Proof.
  unfold name_taken, refusal. intros [Hu [Ha _]%app_nil]%app_nil Hv. rewrite Hv in Ha. split.
  - destruct (any_of _ _) eqn:E in Hu; [done|]. eapply listed_false; [exact E|]. intros x. cbn.
    by apply bool_decide_eq_true.
  - unfold installed_apps in Ha. cbn [eff_get fst] in Ha. destruct (any_of _ _) eqn:E in Ha; [done|].
    eapply listed_false; [exact E|]. intros x. cbn. by apply bool_decide_eq_true.
Qed.

(** What the account is once recorded, from a role the invitation gives. *)
Definition joined (name role : string) (pocket_id : option string) (boxes : list MailboxRow)
    (t t' : Tables) : Prop :=
  t_mailboxes t' = t_mailboxes t ++ boxes ∧
  ∃ granted_by, t_users t' = <[name := {| ur_role := Some role; ur_pocket_id := pocket_id;
                                          ur_granted_by := granted_by |}]> (t_users t).

Lemma recorded_tables name role_ t t1 :
  create_user name role_ t = (Ok true, t1) →
  ∃ granted_by, (set_user_role name role_ (Some "invitation") t1).2 =
    set_users (<[name := {| ur_role := Some role_; ur_pocket_id := None; ur_granted_by := granted_by |}]>
      (t_users t)) t.
Proof.
  unfold create_user. destruct (t_users t !! name) eqn:Eu; [done|]. intros [= <-].
  unfold set_user_role. destruct (role role_ _); cbn; [|by exists None].
  exists (Some "invitation"). unfold set_users. cbn. by rewrite alter_insert_eq.
Qed.

(** The two last steps, from an account just recorded. *)
Lemma joined_after name role_ granted_by display_name created_at password t w w2 w3 identified opened link :
  make_identity identity mail_domain name display_name w = (identified, link, w2) →
  open_mailbox mail mail_domain created_at name password w2 = (opened, w3) →
  w_tables w = set_users (<[name := {| ur_role := Some role_; ur_pocket_id := None;
    ur_granted_by := granted_by |}]> (t_users t)) t →
  t_users t !! name = None → boxes_owned t →
  w_store w3 = w_store w ∧
  ∃ pocket_id boxes, joined name role_ pocket_id boxes t (w_tables w3) ∧
    w_tables w3 = set_mailboxes (t_mailboxes (w_tables w3)) (set_users (t_users (w_tables w3)) t) ∧
    let box := {| mr_user := name; mr_local := name; mr_domain := mail_domain; mr_default := true;
                  mr_created_at := created_at |} in
    (boxes = [] ∨ boxes = [box]) ∧
    (as_state identified = StepDone → as_state opened = StepDone → is_Some pocket_id ∧ boxes = [box]).
Proof.
  intros Hid Hbox Ht Hfree Hown.
  eapply make_identity_tables in Hid as [Hs2 Hid]; [|by rewrite Ht; cbn; rewrite lookup_insert_eq|done].
  apply open_mailbox_tables in Hbox as [Hs3 Hbox]. split; [congruence|].
  assert (∃ pocket_id, w_tables w2 = set_users (<[name := {| ur_role := Some role_;
      ur_pocket_id := pocket_id; ur_granted_by := granted_by |}]> (t_users t)) t ∧
      (as_state identified = StepDone → is_Some pocket_id)) as (pocket_id & Ht2 & Hdone).
  { destruct Hid as [[E Hn]|[id E]]; rewrite E, Ht.
    - exists None. by split.
    - exists (Some id). unfold set_users. cbn. rewrite insert_insert_eq. split; [done|]. by eexists. }
  exists pocket_id. case_bool_decide as Ed.
  - apply add_mailbox_new in Hbox.
    2: { rewrite Ht2. cbn. intros m Hm E. specialize (Hown m Hm). rewrite E, Hfree in Hown. by destruct Hown. }
    rewrite Ht2 in Hbox. eexists [_]. rewrite Hbox. cbn. split_and!; [|done|by right|auto].
    split; [done|]. by exists granted_by.
  - rewrite Hbox, Ht2. exists []. cbn. split_and!; [|done|by left|done].
    split; [by rewrite app_nil_r|]. by exists granted_by.
Qed.

Context (others : World X → World X) (unrecorded : option Accounts.Error).
(** Others keep to the schema: no mailbox without its account. *)
Context (Hothers : ∀ w, boxes_owned (w_tables w) → boxes_owned (w_tables (others w))).

End signed_up.

(** A mail server that hosts one domain, its accounts by name; a PocketID that takes anyone. *)
#[local] Instance example_jmap : Jmap (list string) := {|
  jm_domain_query := λ domain _, Ok (if domain ==? "example.org" then ["d1"] else []);
  jm_domain_set := λ _ x, (Err "no", x);
  jm_account_query := λ local _ x, Ok (if bool_decide (local ∈ x) then [local] else []);
  jm_account_set := λ local _ _ x, (Ok local, local :: x) |}.
#[local] Instance example_pocket_id : PocketId (list string) := {|
  pi_create_user := λ name _ _ x, (Ok ("id-" +:+ name), x);
  pi_one_time_token := λ _ _ x, (Ok "token", x);
  pi_issuer := "https://id.example.org" |}.

Definition example_tables : Tables :=
  (create_invitation "link" "alice" "family" 100 3600 1 None no_tables).2.
Definition example_world : World (list string) := Build_World empty_store example_tables ["vikunja"].

Definition alone (w : World (list string)) : World (list string) := w.


(** A sign-up that loses the race for its name says it was applied, and there is no account
    of its making. *)
Definition lena_first (w : World (list string)) : World (list string) :=
  with_tables (create_user "lena" "friend" (w_tables w)).2 w.
Lemma applied_without_account :
  let '(r, w) := sign_up true true "example.org" lena_first None 200 "now" "secret" "link" "lena" None true example_world in
  ar_applied (su_result r) = true ∧ ar_summary (su_result r) = "account " +:+ quoted_str "lena" +:+ " created" ∧
  (ur_role <$> t_users (w_tables w) !! "lena") = Some (Some "friend") ∧ t_mailboxes (w_tables w) = [].
Proof. by vm_compute. Qed.
