(* ===== verification/Ingress.v ===== *)
(** * The ingress

    [crates/hlb-ingress/src/caddyfile.rs], [dns.rs], [lib.rs], [hlb-types/src/domain.rs] and the routes and
    configuration of [hlb-engine/src/ingress.rs]: the Caddyfile every installed manifest asks for. Its
    text is a list of lines; how Caddy reads a block of it is [sites]. *)

From S2P Require Import Prelude RustStr Capability Access Guide Binding Manifest Plan Validate ValidateGuide Validated Journal.

#[local] Open Scope hlb_scope.

(** ** Domain names *)

(** @ hlb-types/src/domain.rs:29-36 [is_domain] *)
Definition is_label (l : string) : bool :=
  negb (str_is_empty l) && (String.length l <=? 63)%nat && negb (starts_with "-" l) && negb (ends_with "-" l) &&
  str_all (λ c, is_lower c || is_digit c || bool_decide (c = "-"%char)) l.
(** @ hlb-types/src/domain.rs:25-38 [is_domain] *)
Definition is_domain (d : string) : bool :=
  (String.length d <=? 253)%nat && contains_char "." d && all_of is_label (split_char "." d).
(** @ hlb-types/src/domain.rs:40-43 [is_host] *)
Definition is_host (h : string) : bool := is_domain (default h (strip_prefix "*." h)).
(** @ hlb-types/src/domain.rs:9-23 [parse] *)
Definition parse_domain (raw : string) : option string :=
  let d := to_ascii_lowercase (trim_end_matches "." (trim raw)) in
  if is_domain d then Some d else None.

(** ** The DNS providers *)

(** @ hlb-ingress/src/dns.rs:11-18 [Field] *)
Record Field := { fd_name : string; fd_default : option string }.
(** @ hlb-ingress/src/dns.rs:20-30 [Provider] *)
Record Provider := { pv_name : string; pv_module : string; pv_fields : list Field; pv_positional : bool }.
(** @ hlb-ingress/src/dns.rs:32-37 [secret] *)
Definition secret_field (name : string) : Field := {| fd_name := name; fd_default := None |}.
(** @ hlb-ingress/src/dns.rs:39-97 [PROVIDERS] *)
Definition PROVIDERS : list Provider := [
  {| pv_name := "cloudflare"; pv_module := "github.com/caddy-dns/cloudflare"; pv_fields := [secret_field "api_token"]; pv_positional := true |};
  {| pv_name := "desec"; pv_module := "github.com/caddy-dns/desec"; pv_fields := [secret_field "token"]; pv_positional := false |};
  {| pv_name := "duckdns"; pv_module := "github.com/caddy-dns/duckdns"; pv_fields := [secret_field "api_token"]; pv_positional := false |};
  {| pv_name := "gandi"; pv_module := "github.com/caddy-dns/gandi"; pv_fields := [secret_field "bearer_token"]; pv_positional := true |};
  {| pv_name := "hetzner"; pv_module := "github.com/caddy-dns/hetzner/v2"; pv_fields := [secret_field "api_token"]; pv_positional := true |};
  {| pv_name := "ovh"; pv_module := "github.com/caddy-dns/ovh";
     pv_fields := [{| fd_name := "endpoint"; fd_default := Some "ovh-eu" |}; secret_field "application_key";
                   secret_field "application_secret"; secret_field "consumer_key"]; pv_positional := false |};
  {| pv_name := "porkbun"; pv_module := "github.com/caddy-dns/porkbun";
     pv_fields := [secret_field "api_key"; secret_field "api_secret_key"]; pv_positional := false |}].
(** @ hlb-ingress/src/dns.rs:99-101 [provider] *)
Definition provider (name : string) : option Provider := head (keep (λ p, pv_name p ==? name) PROVIDERS).
(** @ hlb-ingress/src/dns.rs:109-112 [Provider::secret_name] *)
Definition secret_name (p : Provider) (f : Field) : string := "dns-" +:+ pv_name p +:+ "-" +:+ replace "_" "-" (fd_name f).
(** @ hlb-ingress/src/dns.rs:129-133 [quote] *)
Definition quote (v : string) : string :=
  quoted_str (replace (String "034" "") (String "092" (String "034" "")) (replace "\" "\\" v)).

(** ** Lines *)

Definition TAB : ascii := ascii_of_N 9.
Definition tabs (n : nat) (s : string) : string := of_chars (replicate n TAB) +:+ s.
(** @ hlb-ingress/src/dns.rs:114-126 [Provider::directive] *)
Definition directive (p : Provider) (values : list string) (n : nat) : list string :=
  if pv_positional p then [tabs n ("dns " +:+ pv_name p +:+ " " +:+ quote (default "" (head values)))]
  else [tabs n ("dns " +:+ pv_name p +:+ " {")] ++
       ((λ '(f, v), tabs (S n) (fd_name f +:+ " " +:+ quote v)) <$> zip (pv_fields p) values) ++
       [tabs n "}"].

(** ** Routes *)

(** @ hlb-ingress/src/caddyfile.rs:48-56 [CompanionPath] *)
Record CompanionPath := { cp_prefix : string; cp_upstream : string; cp_keep_prefix : bool }.
(** @ hlb-ingress/src/caddyfile.rs:22-46 [Route] *)
Record Route := { rt_host : string; rt_service : string; rt_port : N; rt_public : bool; rt_needs_forward_auth : bool;
  rt_allowed_groups : list string; rt_paths : list CompanionPath; rt_auth_routes : list AuthRoute; rt_open_paths : list string }.
(** @ hlb-ingress/src/caddyfile.rs:69-82 [Route::new] *)
Definition new_route (host service : string) (port : N) : Route :=
  {| rt_host := host; rt_service := service; rt_port := port; rt_public := false; rt_needs_forward_auth := false;
     rt_allowed_groups := []; rt_paths := []; rt_auth_routes := []; rt_open_paths := [] |}.
(** The derived orders: field after field, a list as a dictionary. *)
Fixpoint list_cmp {A} (cmp : A → A → comparison) (a b : list A) : comparison :=
  match a, b with
  | [], [] => Eq | [], _ => Lt | _, [] => Gt
  | x :: a, y :: b => then_with (cmp x y) (list_cmp cmp a b)
  end.
Definition path_cmp (a b : CompanionPath) : comparison :=
  then_with (String.compare (cp_prefix a) (cp_prefix b))
    (then_with (String.compare (cp_upstream a) (cp_upstream b)) (bool_cmp (cp_keep_prefix a) (cp_keep_prefix b))).
Definition auth_cmp (a b : AuthRoute) : comparison :=
  then_with (list_cmp String.compare (ar_paths a) (ar_paths b)) (option_cmp N.compare (ar_fails_with a) (ar_fails_with b)).
(** @ hlb-ingress/src/caddyfile.rs:23-46 [Route] *)
Definition route_cmp (a b : Route) : comparison :=
  then_with (String.compare (rt_host a) (rt_host b))
  (then_with (String.compare (rt_service a) (rt_service b))
  (then_with (N.compare (rt_port a) (rt_port b))
  (then_with (bool_cmp (rt_public a) (rt_public b))
  (then_with (bool_cmp (rt_needs_forward_auth a) (rt_needs_forward_auth b))
  (then_with (list_cmp String.compare (rt_allowed_groups a) (rt_allowed_groups b))
  (then_with (list_cmp path_cmp (rt_paths a) (rt_paths b))
  (then_with (list_cmp auth_cmp (rt_auth_routes a) (rt_auth_routes b))
             (list_cmp String.compare (rt_open_paths a) (rt_open_paths b))))))))).
(** @ hlb-ingress/src/lib.rs:25-36 [routes_from_manifest] *)
Definition needs_portal (m : Manifest) : bool :=
  any_of (λ c, match c with Sso (SsoProxyHeader | SsoProxyOnly) _ => true | _ => false end) (sp_requires (mf_spec m)).
(** @ hlb-ingress/src/lib.rs:41-72 [routes_from_manifest] *)
Definition route_of (m : Manifest) (domain : option string) (cleared : bool) (ing : Ingress) : Route :=
  {| rt_host := match domain with
       | Some d => replace "{{domain}}" d (replace "{{ domain }}" d (ing_host ing))
       | None => ing_host ing
       end;
     rt_service := md_name (mf_metadata m); rt_port := ing_port ing;
     rt_public := match ing_expose ing with Public => true | AfterGuide => cleared | Private => false end;
     rt_needs_forward_auth := needs_portal m; rt_allowed_groups := [];
     rt_paths := (λ p, {| cp_prefix := pr_prefix p;
       cp_upstream := md_name (mf_metadata m) +:+ "-" +:+ pr_companion p +:+ ":" +:+ show_N (pr_port p);
       cp_keep_prefix := pr_keep_prefix p |}) <$> ing_paths ing;
     rt_auth_routes := ing_auth_routes ing; rt_open_paths := ing_open_paths ing |}.
(** @ hlb-ingress/src/lib.rs:12-74 [routes_from_manifest] *)
Definition routes_from_manifest (m : Manifest) (domain : option string) (cleared : bool) : list Route :=
  route_of m domain cleared <$> sp_ingress (mf_spec m).

(** ** The configuration *)

(** @ hlb-ingress/src/caddyfile.rs:132-139 [CrowdSec] *)
Record CrowdSec := { cs_api_url : string; cs_api_key : string }.
(** @ hlb-ingress/src/caddyfile.rs:171-179 [ForwardAuth] *)
Record ForwardAuth := { fa_upstream : string; fa_verify_path : string; fa_sign_in_path : string }.
(** @ hlb-ingress/src/caddyfile.rs:181-189 [ForwardAuth::default] *)
Definition default_portal : ForwardAuth :=
  {| fa_upstream := "oauth2-proxy:4180"; fa_verify_path := "/oauth2/auth"; fa_sign_in_path := "/oauth2/sign_in" |}.
(** @ hlb-ingress/src/caddyfile.rs:255-262 [Wildcard] *)
Record Wildcard := { wc_provider : Provider; wc_credentials : list string; wc_base_domain : string }.
(** @ hlb-ingress/src/caddyfile.rs:206-236 [Tls] *)
Inductive Tls :=
| Acme (email : string) (wildcard : option Wildcard) (staging : bool) (ca : option string) (ca_root : bool)
| InternalTls (own_root : bool).
(** @ hlb-ingress/src/caddyfile.rs:290-297 [Config] *)
Record Config := { cf_crowdsec : option CrowdSec; cf_forward_auth : option ForwardAuth; cf_tls : Tls }.
(** @ hlb-ingress/src/caddyfile.rs:299-307 [Config::default] *)
Definition default_config : Config := {| cf_crowdsec := None; cf_forward_auth := None; cf_tls := InternalTls false |}.
(** @ hlb-ingress/src/caddyfile.rs:271-273 [Wildcard::subjects] *)
Definition subjects (w : Wildcard) : list string := ["*." +:+ wc_base_domain w; wc_base_domain w].
(** @ hlb-ingress/src/caddyfile.rs:282-288 [wildcard_covers] *)
Definition wildcard_covers (base host : string) : bool :=
  (host ==? base) ||
  match strip_suffix ("." +:+ base) host with
  | Some label => negb (str_is_empty label) && negb (contains_char "." label)
  | None => false
  end.
Definition FROM_THE_VAULT : string := "<from the vault>".
(** @ hlb-ingress/src/caddyfile.rs:309-326 [Config::redacted] *)
Definition redacted (c : Config) : Config :=
  {| cf_crowdsec := (λ cs, {| cs_api_url := cs_api_url cs; cs_api_key := FROM_THE_VAULT |}) <$> cf_crowdsec c;
     cf_forward_auth := cf_forward_auth c;
     cf_tls := match cf_tls c with
       | Acme email (Some w) staging ca ca_root =>
           Acme email (Some {| wc_provider := wc_provider w; wc_credentials := (λ _, FROM_THE_VAULT) <$> wc_credentials w;
                               wc_base_domain := wc_base_domain w |}) staging ca ca_root
       | t => t
       end |}.

(** @ hlb-ingress/src/caddyfile.rs:85-119 [PROBES] *)
Definition PROBES : list string :=
  ["/.env"; "/.env.*"; "/.git"; "/.git/*"; "/.svn/*"; "/.aws/*"; "/.ssh/*"; "/.DS_Store"; "/.vscode/*"; "/.idea/*"; "/wp-admin";
   "/wp-admin/*"; "/wp-login.php"; "/wp-content/*"; "/wp-includes/*"; "/xmlrpc.php"; "/wordpress"; "/wordpress/*"; "/phpmyadmin";
   "/phpmyadmin/*"; "/vendor/phpunit/*"; "/cgi-bin/*"; "/actuator/*"; "/server-status"; "/boaform/*"; "/HNAP1/*"].
(** @ hlb-ingress/src/caddyfile.rs:121-122 [AUTH_EVENTS_PER_MINUTE] *)
Definition AUTH_EVENTS_PER_MINUTE : N := 10.
(** @ hlb-ingress/src/caddyfile.rs:124-124 [PRIVATE_RANGES] *)
Definition PRIVATE_RANGES : list string := ["10.0.0.0/8"; "172.16.0.0/12"; "192.168.0.0/16"; "fd00::/8"].
(** @ hlb-ingress/src/caddyfile.rs:191-201 [AUTH_HEADERS] *)
Definition AUTH_HEADERS : list string :=
  ["X-Auth-Request-User"; "X-Auth-Request-Email"; "X-Auth-Request-Preferred-Username"; "X-Auth-Request-Groups"].
(** @ hlb-ingress/src/caddyfile.rs:203-204 [STAGING_CA] *)
Definition STAGING_CA : string := "https://acme-staging-v02.api.letsencrypt.org/directory".
(** @ hlb-ingress/src/caddyfile.rs:238-241 [ROOT_CERT] *)
Definition ROOT_CERT : string := "/config/hlb/root.crt".
Definition ROOT_KEY : string := "/config/hlb/root.key".
Definition ACME_ROOT : string := "/config/hlb/acme-root.crt".
(** @ hlb-ingress/src/caddyfile.rs:518-519 [ACCESS_LOG] *)
Definition ACCESS_LOG : string := "/var/log/caddy/access.log".
(** @ hlb-ingress/src/caddyfile.rs:669-669 [FORCED_REFUSAL] *)
Definition FORCED_REFUSAL : string := quoted_str "A write sent by another site is refused.".
(** @ hlb-ingress/src/caddyfile.rs:699-702 [AUTH_MARK] *)
Definition AUTH_MARK : string := "hlb_auth".
Definition AUTH_FAILS_MARK : string := "hlb_auth_fails".
(** @ hlb-ingress/src/caddyfile.rs:785-791 [UNCLEAN_PATH] *)
Definition UNCLEAN_PATH : string := "^[^?]*(%2[fF]|%5[cC]|%2[eE]|\\|/\.\.?(/|\?|$))".

(** ** One route *)

(** @ hlb-ingress/src/caddyfile.rs:805-810 [sanitize] *)
Definition sanitize : string → string := str_map (λ c, if is_alnum c then c else "_"%char).
(** @ hlb-ingress/src/caddyfile.rs:521-548 [render_log] *)
Definition render_log (cfg : Config) (n : nat) : list string :=
  match cf_crowdsec cfg with
  | None => []
  | Some _ =>
      [tabs n "log {";
       tabs (1 + n) ("output file " +:+ ACCESS_LOG +:+ " {");
       tabs (2 + n) "roll_size 50MiB";
       tabs (2 + n) "roll_keep 3";
       tabs (1 + n) "}";
       tabs (1 + n) "format filter {";
       tabs (2 + n) "wrap json";
       tabs (2 + n) "fields {";
       tabs (3 + n) "request>headers delete";
       tabs (3 + n) ("request>uri regexp \?.*$ " +:+ quoted_str "");
       tabs (3 + n) "resp_headers>Set-Cookie delete";
       tabs (2 + n) "}";
       tabs (1 + n) "}";
       tabs n "}"]
  end.
(** @ hlb-ingress/src/caddyfile.rs:793-803 [write_not_open] *)
Definition write_not_open (open : list string) (n : nat) : list string :=
  [tabs n "not {";
   tabs (1 + n) ("path " +:+ join " " open);
   tabs (1 + n) ("not vars_regexp {http.request.uri} `" +:+ UNCLEAN_PATH +:+ "`");
   tabs n "}"].
(** The headers scrubbed before the portal is asked. @ hlb-ingress/src/caddyfile.rs:704-783 [render_forward_auth] *)
Definition render_forward_auth (fa : ForwardAuth) (groups open : list string) (m : string) (n : nat) : list string :=
  [""; tabs n "# Authentication portal.";
   tabs n "# 🔴 Identity headers can come ONLY from the portal: without this";
   tabs n ("# line, `curl -H " +:+ quoted_str "X-Auth-Request-User: admin" +:+ "` is enough to impersonate.")] ++
  ((λ h, tabs n ("request_header -" +:+ h)) <$> AUTH_HEADERS) ++
  [""; tabs n "# The portal itself, or sign-in loops.";
   tabs n "handle /oauth2/* {";
   tabs (1 + n) ("reverse_proxy " +:+ fa_upstream fa);
   tabs n "}"] ++
  (match open with
   | [] => []
   | _ => [""; tabs n "# Open to anyone, by the manifest: not through the portal.";
           tabs n ("@gated_" +:+ m +:+ " {")] ++ write_not_open open (1 + n) ++ [tabs n "}"]
   end) ++
  [""; tabs n ("forward_auth " +:+ (match open with [] => "" | _ => "@gated_" +:+ m +:+ " " end) +:+ fa_upstream fa +:+ " {");
   tabs (1 + n) ("uri " +:+ fa_verify_path fa +:+ "?allowed_groups=" +:+ join "," groups);
   tabs (1 + n) ("copy_headers " +:+ join " " AUTH_HEADERS);
   ""; tabs (1 + n) ("@unauthenticated_" +:+ m +:+ " status 401");
   tabs (1 + n) ("handle_response @unauthenticated_" +:+ m +:+ " {");
   tabs (2 + n) ("redir * " +:+ fa_sign_in_path fa +:+ "?rd={scheme}://{host}{uri}");
   tabs (1 + n) "}";
   tabs n "}"].
(** @ hlb-ingress/src/caddyfile.rs:675-696 [render_auth_routes] *)
Definition render_auth_route (r : Route) (m : string) (n : nat) (i : nat) (a : AuthRoute) : list string :=
  let name := "signin" +:+ show_nat i +:+ "_" +:+ m in
  [""; tabs n ("# " +:+ rt_service r +:+ " checks a secret here: " +:+ show_N AUTH_EVENTS_PER_MINUTE +:+ " tries a minute an address.");
   tabs n ("@" +:+ name +:+ " path " +:+ join " " (ar_paths a));
   tabs n ("rate_limit @" +:+ name +:+ " {");
   tabs (1 + n) ("zone " +:+ name +:+ " {");
   tabs (2 + n) "key {client_ip}";
   tabs (2 + n) ("events " +:+ show_N AUTH_EVENTS_PER_MINUTE);
   tabs (2 + n) "window 1m";
   tabs (1 + n) "}";
   tabs n "}";
   tabs n ("log_append @" +:+ name +:+ " " +:+ AUTH_MARK +:+ " " +:+ rt_service r)] ++
  match ar_fails_with a with
  | Some code => [tabs n ("log_append @" +:+ name +:+ " " +:+ AUTH_FAILS_MARK +:+ " " +:+ show_N code)]
  | None => []
  end.
(** @ hlb-ingress/src/caddyfile.rs:671-697 [render_auth_routes] *)
Definition render_auth_routes (r : Route) (m : string) (n : nat) : list string :=
  concat (imap (render_auth_route r m n) (rt_auth_routes r)).
(** The private ranges and the forced writes said again inside. @ hlb-ingress/src/caddyfile.rs:645-664 [render_route] *)
Definition render_path (r : Route) (m : string) (n : nat) (i : nat) (p : CompanionPath) : list string :=
  let name := "@path" +:+ show_nat i +:+ "_" +:+ m in
  [""; tabs n ("# " +:+ cp_prefix p +:+ ": a companion of the app answers it.");
   tabs n (name +:+ " path " +:+ cp_prefix p +:+ " " +:+ cp_prefix p +:+ "/*");
   tabs n ("handle " +:+ name +:+ " {")] ++
  (if cp_keep_prefix p then [] else [tabs (1 + n) ("uri strip_prefix " +:+ cp_prefix p)]) ++
  (if rt_public r then [] else [tabs (1 + n) ("respond @external_" +:+ m +:+ " 403")]) ++
  [tabs (1 + n) ("respond @forced_" +:+ m +:+ " " +:+ FORCED_REFUSAL +:+ " 403");
   tabs (1 + n) ("reverse_proxy " +:+ cp_upstream p);
   tabs n "}"].
(** @ hlb-ingress/src/caddyfile.rs:582-594 [render_route] *)
Definition security_headers (n : nat) : list string :=
  [tabs n "header {";
   tabs (1 + n) ("Strict-Transport-Security " +:+ quoted_str "max-age=31536000; includeSubDomains");
   tabs (1 + n) "X-Content-Type-Options nosniff";
   tabs (1 + n) "Referrer-Policy strict-origin-when-cross-origin";
   tabs (1 + n) "-Server";
   tabs n "}"].
(** @ hlb-ingress/src/caddyfile.rs:598-625 [render_route] *)
Definition refusals (m : string) (n : nat) : list string :=
  [""; tabs n "# Scanners' probes: no app here serves them.";
   tabs n ("@probe_" +:+ m +:+ " path " +:+ join " " PROBES);
   tabs n ("@probe_xs_" +:+ m +:+ " {");
   tabs (1 + n) ("path " +:+ join " " PROBES);
   tabs (1 + n) "header Sec-Fetch-Site cross-site";
   tabs n "}";
   tabs n ("log_skip @probe_xs_" +:+ m);
   tabs n ("respond @probe_" +:+ m +:+ " 404");
   ""; tabs n "# Writes sent by another site's page.";
   tabs n ("@forced_" +:+ m +:+ " {");
   tabs (1 + n) "not method GET HEAD OPTIONS";
   tabs (1 + n) "header Sec-Fetch-Site cross-site";
   tabs (1 + n) "header_regexp Origin ^https?://";
   tabs n "}";
   tabs n ("log_skip @forced_" +:+ m);
   tabs n ("respond @forced_" +:+ m +:+ " " +:+ FORCED_REFUSAL +:+ " 403")].
(** @ hlb-ingress/src/caddyfile.rs:627-643 [render_route] *)
Definition private_only (r : Route) (m : string) (n : nat) : list string :=
  if rt_public r then []
  else
    [""; tabs n "# Private route: private addresses only."] ++
    (match rt_open_paths r with
     | [] => [tabs n ("@external_" +:+ m +:+ " not remote_ip " +:+ join " " PRIVATE_RANGES)]
     | open => [tabs n ("@external_" +:+ m +:+ " {"); tabs (1 + n) ("not remote_ip " +:+ join " " PRIVATE_RANGES)] ++
               write_not_open open (1 + n) ++ [tabs n "}"]
     end) ++
    [tabs n ("respond @external_" +:+ m +:+ " 403")].
(** Is somebody let into the route? @ hlb-ingress/src/caddyfile.rs:564-580 [render_route] *)
Definition nobody (r : Route) (cfg : Config) : bool :=
  bool_decide (is_Some (cf_forward_auth cfg)) && rt_needs_forward_auth r && (rt_allowed_groups r ==? []).
(** @ hlb-ingress/src/caddyfile.rs:550-667 [render_route] *)
Definition render_route (r : Route) (cfg : Config) (n : nat) : list string :=
  let m := sanitize (rt_host r) in
  (if cf_crowdsec cfg is Some _ then [tabs n "crowdsec"] else []) ++
  if nobody r cfg then
    [tabs n "# No role is let in: nobody, not the portal's every account.";
     tabs n ("respond " +:+ quoted_str ("No role is let into " +:+ rt_service r +:+ " yet.") +:+ " 403")]
  else
    (match cf_forward_auth cfg with
     | Some fa => if rt_needs_forward_auth r then render_forward_auth fa (rt_allowed_groups r) (rt_open_paths r) m n else []
     | None => []
     end) ++
    security_headers n ++ render_auth_routes r m n ++ refusals m n ++ private_only r m n ++
    concat (imap (render_path r m n) (rt_paths r)) ++
    [""; tabs n ("reverse_proxy " +:+ rt_service r +:+ ":" +:+ show_N (rt_port r))].

(** ** The Caddyfile *)

(** @ hlb-ingress/src/caddyfile.rs:357-410 [render] *)
Definition render_tls (t : Tls) : list string :=
  match t with
  | Acme email _ staging ca ca_root =>
      [tabs 1 ("email " +:+ email); tabs 1 "cert_issuer acme"] ++
      (match ca with
       | Some ca => [tabs 1 ("acme_ca " +:+ ca)]
       | None => if staging then
           [tabs 1 "# 🔴 Let's Encrypt STAGING: these certificates are NOT trusted by";
            tabs 1 "# browsers. Intended - the mechanism is checked without spending";
            tabs 1 "# quota. Drop --staging once it works."; tabs 1 ("acme_ca " +:+ STAGING_CA)]
           else []
       end) ++
      (if ca_root then [tabs 1 ("acme_ca_root " +:+ ACME_ROOT)] else [])
  | InternalTls false => [tabs 1 "local_certs"; tabs 1 "skip_install_trust"]
  | InternalTls true =>
      [tabs 1 "skip_install_trust"; tabs 1 "cert_issuer internal {"; tabs 2 "ca homelabus"; tabs 1 "}";
       tabs 1 "pki {"; tabs 2 "ca homelabus {"; tabs 3 ("name " +:+ quoted_str "Homelabus"); tabs 3 "root {";
       tabs 4 "format pem_file"; tabs 4 ("cert " +:+ ROOT_CERT); tabs 4 ("key " +:+ ROOT_KEY); tabs 3 "}"; tabs 2 "}"; tabs 1 "}"]
  end.
(** @ hlb-ingress/src/caddyfile.rs:357-448 [render] *)
Definition global_body (routes : list Route) (cfg : Config) : list string :=
  render_tls (cf_tls cfg) ++
  [tabs 1 "admin localhost:2019"; tabs 1 "servers {"; tabs 2 "protocols h1 h2"; tabs 2 "timeouts {"; tabs 3 "read_header 10s";
   tabs 3 "idle 2m"; tabs 2 "}"; tabs 1 "}"] ++
  (if any_of (λ r, negb (match rt_auth_routes r with [] => true | _ => false end)) routes
   then [tabs 1 "order rate_limit before basic_auth"] else []) ++
  (if bool_decide (is_Some (cf_forward_auth cfg)) && any_of rt_needs_forward_auth routes
   then [tabs 1 "order request_header before forward_auth"] else []) ++
  (match cf_crowdsec cfg with
   | Some cs => [tabs 1 "order crowdsec first"; tabs 1 "crowdsec {"; tabs 2 ("api_url " +:+ cs_api_url cs);
                 tabs 2 ("api_key " +:+ cs_api_key cs); tabs 2 "ticker_interval 15s"; tabs 1 "}"]
   | None => []
   end).
(** @ hlb-ingress/src/caddyfile.rs:356-449 [render] *)
Definition render_global (routes : list Route) (cfg : Config) : list string := ["{"] ++ global_body routes cfg ++ ["}"; ""].
(** One of each host, the least. @ hlb-ingress/src/caddyfile.rs:335-347 [render] *)
Fixpoint dedup_hosts (l : list Route) : list Route :=
  match l with
  | r :: l => r :: match dedup_hosts l with
                   | r' :: l' => if rt_host r ==? rt_host r' then l' else r' :: l'
                   | [] => []
                   end
  | [] => []
  end.
(** @ hlb-ingress/src/caddyfile.rs:331-347 [render] *)
Definition published_routes (routes : list Route) : list Route :=
  dedup_hosts (sort_by route_cmp (keep (λ r, is_host (rt_host r)) routes)).
(** @ hlb-ingress/src/caddyfile.rs:451-456 [render] *)
Definition wildcard_of (cfg : Config) : option Wildcard :=
  match cf_tls cfg with Acme _ (Some w) _ _ _ => Some w | _ => None end.
(** @ hlb-ingress/src/caddyfile.rs:462-464 [render] *)
Definition covered (cfg : Config) (r : Route) : bool :=
  match wildcard_of cfg with Some w => wildcard_covers (wc_base_domain w) (rt_host r) | None => false end.
(** @ hlb-ingress/src/caddyfile.rs:466-506 [render] *)
Definition render_wildcard (w : Wildcard) (routes : list Route) (cfg : Config) : list string :=
  [join ", " (subjects w) +:+ " {"; tabs 1 "tls {"] ++ directive (wc_provider w) (wc_credentials w) 2 ++
  (match cf_tls cfg with
   | Acme _ _ staging ca ca_root =>
       (match ca with Some ca => [tabs 2 ("ca " +:+ ca)] | None => if staging then [tabs 2 ("ca " +:+ STAGING_CA)] else [] end) ++
       (if ca_root then [tabs 2 ("ca_root " +:+ ACME_ROOT)] else [])
   | InternalTls _ => []
   end) ++
  [tabs 1 "}"] ++ render_log cfg 1 ++
  concat ((λ r, let m := sanitize (rt_host r) in
     ["" ; tabs 1 ("@" +:+ m +:+ " host " +:+ rt_host r); tabs 1 ("handle @" +:+ m +:+ " {")] ++ render_route r cfg 2 ++ [tabs 1 "}"])
     <$> keep (covered cfg) routes) ++
  [""; tabs 1 "handle {"; tabs 2 ("respond " +:+ quoted_str "no application at this address" +:+ " 404"); tabs 1 "}"; "}"; ""].
(** @ hlb-ingress/src/caddyfile.rs:508-513 [render] *)
Definition render_site (cfg : Config) (r : Route) : list string :=
  [rt_host r +:+ " {"] ++ render_log cfg 1 ++ render_route r cfg 1 ++ ["}"; ""].
(** @ hlb-ingress/src/caddyfile.rs:329-516 [render] *)
Definition render_lines (routes : list Route) (cfg : Config) : list string :=
  let routes := published_routes routes in
  ["# Generated by Homelabus - do not edit by hand."; "# Any change is overwritten on the next publication."; ""] ++
  render_global routes cfg ++
  (match wildcard_of cfg with Some w => render_wildcard w routes cfg | None => [] end) ++
  concat (render_site cfg <$> keep (λ r, negb (covered cfg r)) routes).
(** Each line written with its end. @ hlb-ingress/src/caddyfile.rs:329-516 [render] *)
Definition render (routes : list Route) (cfg : Config) : string :=
  foldr (λ l s, l +:+ String (ascii_of_N 10) s) "" (render_lines routes cfg).

(** ** What is published *)

(** @ hlb-state/src/lib.rs:570-576 [Certificates] *)
Inductive Certificates := AcmeCertificates | InternalCertificates.
(** @ hlb-state/src/lib.rs:548-568 [Exposure] *)
Record Exposure := { ex_domain : string; ex_certificates : Certificates; ex_acme_email : option string; ex_dns_provider : option string;
  ex_staging : bool; ex_controller_host : option string; ex_acme_ca : option string; ex_acme_ca_root : option string }.
(** @ hlb-state/src/lib.rs:596-601 [Exposure::controller_host] *)
Definition controller_host (e : Exposure) : string := default ("hlb." +:+ ex_domain e) (ex_controller_host e).
(** @ hlb-engine/src/ingress.rs:53-55 [CONTROLLER_SERVICE] *)
Definition CONTROLLER_SERVICE : string := "hlb-controller".
Definition CONTROLLER_PORT : N := 8420.
(** @ hlb-engine/src/ingress.rs:57-58 [ROUTE_ACTION] *)
Definition ROUTE_ACTION : string := "ConfigureIngress".
(** @ hlb-engine/src/ingress.rs:116-121 [routes] *)
Definition with_groups (groups : list string) (r : Route) : Route :=
  {| rt_host := rt_host r; rt_service := rt_service r; rt_port := rt_port r; rt_public := rt_public r;
     rt_needs_forward_auth := rt_needs_forward_auth r;
     rt_allowed_groups := if rt_needs_forward_auth r then groups else rt_allowed_groups r;
     rt_paths := rt_paths r; rt_auth_routes := rt_auth_routes r; rt_open_paths := rt_open_paths r |}.
(** A chain this program still serves. @ hlb-engine/src/ingress.rs:94-108 [routes] *)
Definition served_chain (ing : Ingress) : bool := all_of (λ l, bool_decide (l ∈ CHAIN_LINKS)) (ing_chain ing).
Section published.
(** The groups each app lets in, by the portal. *)
Context (portal : gmap string (list string)).
(** @ hlb-engine/src/ingress.rs:89-122 [routes] *)
Definition app_routes (app : string) : db (list Route) :=
  let! m := app_manifest app in
  let! domain := app_domain app in
  let! blocking := unverified_blocking app in
  eff_ret (with_groups (default [] (portal !! app)) <$>
           (route_of m domain (blocking =? 0)%nat <$> keep served_chain (sp_ingress (mf_spec m)))).
(** @ hlb-engine/src/ingress.rs:85-123 [routes] *)
Fixpoint routes_each (apps : list (string * string)) : db (list Route) :=
  match apps with
  | [] => eff_ret []
  | (app, status) :: apps =>
      if status ==? "failed" then routes_each apps
      else let! rs := app_routes app in let! rest := routes_each apps in eff_ret (rs ++ rest)
  end.
(** The interface's own, once the controller runs. @ hlb-engine/src/ingress.rs:127-133 [routes] *)
Definition controller_route (exposure : option Exposure) (runs : bool) : list Route :=
  match exposure with
  | Some e => if runs then
      [{| rt_host := controller_host e; rt_service := CONTROLLER_SERVICE; rt_port := CONTROLLER_PORT; rt_public := true;
          rt_needs_forward_auth := false; rt_allowed_groups := []; rt_paths := []; rt_auth_routes := []; rt_open_paths := [] |}] else []
  | None => []
  end.
(** @ hlb-engine/src/ingress.rs:74-135 [routes] *)
Definition routes (exposure : option Exposure) (controller_runs : bool) : db (list Route) :=
  let! apps := installed_apps in
  let! rs := routes_each apps in
  eff_ret (rs ++ controller_route exposure controller_runs).
End published.

Inductive PublishErr := StoreErr (e : Journal.Error) | Undecryptable (why : string) | ExposureErr (why : string).
Definition stored_as {A} (m : db A) : eff Store PublishErr A := λ s, let '(r, s) := m s in (map_err StoreErr r, s).
Section config.
(** The vault, when there is one, and the reading of the root's JSON. *)
Context (decrypt : option (list N → result string string)) (root_json : string → result string (option (string * string))).
(** @ hlb-engine/src/ingress.rs:187-192 [config] *)
Definition vault_read (name : string) : eff Store PublishErr (option string) :=
  let! ct := stored_as (secret name) in
  match decrypt, ct with
  | Some d, Some ct => let! v := eff_of (map_err Undecryptable (d ct)) in eff_ret (Some v)
  | _, _ => eff_ret None
  end.
(** @ hlb-engine/src/ingress.rs:137-163 [dns_credentials] *)
Fixpoint dns_credentials (p : Provider) (fields : list Field) : eff Store PublishErr (list string) :=
  match fields with
  | [] => eff_ret []
  | f :: fields =>
      let name := secret_name p f in
      let! stored := vault_read name in
      let! v := match stored, fd_default f with
        | Some v, _ => eff_ret v
        | None, Some d => eff_ret d
        | None, None => eff_fail (ExposureErr (name +:+ " is not in the vault — without it the wildcard cannot be obtained: hlb secret-set "
                                               +:+ name +:+ " --purpose dns"))
        end in
      let! rest := dns_credentials p fields in eff_ret (v :: rest)
  end.
(** @ hlb-engine/src/ingress.rs:300-301 [ROOT_SECRET] *)
Definition ROOT_SECRET : string := "ingress-root".
(** @ hlb-engine/src/ingress.rs:303-312 [root] *)
Definition root (d : list N → result string string) : eff Store PublishErr (option (string * string)) :=
  let! ct := stored_as (secret ROOT_SECRET) in
  match ct with
  | None => eff_ret None
  | Some ct => let! j := eff_of (map_err Undecryptable (d ct)) in
               eff_of (map_err (λ e, ExposureErr (ROOT_SECRET +:+ " is unreadable: " +:+ e)) (root_json j))
  end.
(** @ hlb-engine/src/ingress.rs:202-232 [config] *)
Definition acme_of (e : Exposure) : eff Store PublishErr Tls :=
  let! wildcard := match ex_dns_provider e with
    | None => eff_ret None
    | Some name =>
        let! p := eff_of (ok_or (ExposureErr ("DNS provider " +:+ quoted_str name +:+ " is not built into the ingress — one of "
                                              +:+ join ", " (pv_name <$> PROVIDERS))) (provider name)) in
        let! credentials := dns_credentials p (pv_fields p) in
        eff_ret (Some {| wc_provider := p; wc_credentials := credentials; wc_base_domain := ex_domain e |})
    end in
  let! email := eff_of (ok_or (ExposureErr "no ACME address: hlb config exposure --email <address>") (ex_acme_email e)) in
  eff_ret (Acme email wildcard (ex_staging e) (ex_acme_ca e) (bool_decide (is_Some (ex_acme_ca_root e)))).
(** @ hlb-engine/src/ingress.rs:194-234 [config] *)
Definition tls_of (exposure : option Exposure) : eff Store PublishErr Tls :=
  match exposure with
  | None => eff_ret (InternalTls false)
  | Some e =>
      match ex_certificates e with
      | InternalCertificates =>
          match decrypt with
          | Some d => let! r := root d in eff_ret (InternalTls (bool_decide (is_Some r)))
          | None => eff_ret (InternalTls false)
          end
      | AcmeCertificates => acme_of e
      end
  end.
(** @ hlb-ingress/src/crowdsec.rs:35-42 [SECRET_NAME] *)
Definition CROWDSEC_SECRET : string := "crowdsec-bouncer-key".
Definition CROWDSEC_URL : string := "http://crowdsec:8080".
(** @ hlb-ingress/src/crowdsec.rs:175-186 [looks_like_key] *)
Definition looks_like_key (k : string) : bool :=
  let k := trim k in
  (16 <=? String.length k)%nat && str_all (λ c, is_alnum c || bool_decide (c ∈ ["-"; "_"]%char)) k.
(** A damaged key is no bouncer rather than a silent one. @ hlb-engine/src/ingress.rs:236-255 [config] *)
Definition bouncer (crowdsec_runs : bool) (url : option string) : eff Store PublishErr (option CrowdSec) :=
  if negb crowdsec_runs then eff_ret None
  else
    let! key := vault_read CROWDSEC_SECRET in
    match key with
    | Some key => if looks_like_key key
        then eff_ret (Some {| cs_api_url := default CROWDSEC_URL url; cs_api_key := key |}) else eff_ret None
    | None => eff_ret None
    end.
(** @ hlb-engine/src/ingress.rs:165-257 [config] *)
Definition config (exposure : option Exposure) (rs : list Route) (crowdsec_runs : bool) (url : option string) : eff Store PublishErr Config :=
  let forward_auth := if any_of rt_needs_forward_auth rs then Some default_portal else None in
  let! tls := tls_of exposure in
  let! crowdsec := bouncer crowdsec_runs url in
  eff_ret {| cf_crowdsec := crowdsec; cf_forward_auth := forward_auth; cf_tls := tls |}.
(** The file, the routes and the files it names. @ hlb-engine/src/ingress.rs:259-298 [render] *)
Definition render_all (portal : gmap string (list string)) (exposure : option Exposure) (controller_runs crowdsec_runs : bool) (url : option string) :
    eff Store PublishErr (string * list Route * Config * list (string * string)) :=
  let! rs := stored_as (routes portal exposure controller_runs) in
  let! cfg := config exposure rs crowdsec_runs url in
  let! own := match cf_tls cfg, decrypt with
    | InternalTls true, Some d =>
        let! r := root d in
        eff_ret match r with Some (cert, key) => [(ROOT_CERT, cert); (ROOT_KEY, key)] | None => [] end
    | _, _ => eff_ret []
    end in
  let acme := match exposure ≫= ex_acme_ca_root with Some pem => [(ACME_ROOT, pem)] | None => [] end in
  eff_ret (render rs cfg, rs, cfg, own ++ acme).
End config.
(** @ hlb-engine/src/ingress.rs:324-332 [aliases] *)
Definition aliases : db (list string) := let! d := app_domain "pocket-id" in eff_ret (option_list d).
(** What is recorded as served; the routes given are every one there is. @ hlb-engine/src/ingress.rs:413-432 [published] *)
Definition recorded_as_served (rs : list Route) : list (string * string * bool) := (λ r, (rt_host r, rt_service r, rt_public r)) <$> rs.
(** @ hlb-engine/src/ingress.rs:424-431 [published] *)
Definition complete_routed (rs : list Route) : db (list string) := complete_unimplemented ROUTE_ACTION (rt_service <$> rs).

(** ** Reading a Caddyfile *)

(** What a line is to the blocks of a Caddyfile: nothing, the end of one, the start of one, or a directive. *)
Inductive LineKind := Skip | Closes | Opens (name : string) | Directive_.
Definition kind_of (l : string) : LineKind :=
  let t := trim_start_matches TAB l in
  if str_is_empty t || starts_with "#" t then Skip
  else if t ==? "}" then Closes
  else if t ==? "{" then Opens ""
  else match strip_suffix " {" t with Some name => Opens name | None => Directive_ end.
(** The blocks at the top of a file, by what they open on; [None] when it does not hold together. *)
Fixpoint sites (depth : nat) (ls : list string) : option (list string) :=
  match ls with
  | [] => if depth is O then Some [] else None
  | l :: ls =>
      match kind_of l with
      | Skip => sites depth ls
      | Closes => match depth with O => None | S d => sites d ls end
      | Opens name => rest ← sites (S depth) ls; Some (if depth is O then name :: rest else rest)
      | Directive_ => if depth is O then None else sites depth ls
      end
  end.

(** ** Laws *)

Definition NLc : ascii := ascii_of_N 10.
Definition CRc : ascii := ascii_of_N 13.
Definition single_char (c : ascii) : bool := negb (bool_decide (c ∈ [NLc; CRc])).
(** A brace that opens or closes a block is a word of its own: one that a space or nothing
    comes before. *)
Definition clean_char (c : ascii) : bool := negb (bool_decide (c ∈ [NLc; CRc; "{"; "}"]%char)).
Fixpoint no_block (starts : bool) (s : string) : bool :=
  match s with
  | "" => true
  | String c s => (if starts then clean_char c else single_char c) && no_block (bool_decide (c ∈ [" "; TAB]%char)) s
  end.
(** On one line; and without a brace that a word could start by. *)
Definition single (s : string) : Prop := str_all single_char s = true.
Definition clean (s : string) : Prop := no_block true s = true.
Lemma single_append s t : single s → single t → single (s +:+ t).
Proof. unfold single. rewrite str_all_append. intros -> ->. done. Qed.
Lemma clean_char_single c : clean_char c = true → single_char c = true.
Proof.
  unfold clean_char, single_char. rewrite !negb_true_iff, !bool_decide_eq_false.
  intros H1 H2. apply H1. apply list_elem_of_In in H2. apply list_elem_of_In. cbn in *. tauto.
Qed.
Lemma no_block_weaken b s : no_block true s = true → no_block b s = true.
Proof.
  destruct b; [done|]. destruct s as [|c s]; [done|]. cbn [no_block]. rewrite !andb_true_iff. intros [H ?].
  split; [by apply clean_char_single|done].
Qed.
Lemma clean_append s t : clean s → clean t → clean (s +:+ t).
Proof.
  unfold clean. generalize true at 1 5 as b. induction s as [|c s IH]; intros b Hs Ht; [by apply no_block_weaken|].
  cbn [no_block] in Hs. change (String c s +:+ t) with (String c (s +:+ t)). cbn [no_block].
  apply andb_true_iff in Hs as [-> Hs]. by apply IH.
Qed.
Lemma clean_single s : clean s → single s.
Proof.
  unfold clean, single. generalize true at 1 as b. induction s as [|c s IH]; intros b; [done|]. cbn.
  rewrite !andb_true_iff. intros [Hc Hs]. split; [|by eapply IH]. destruct b; [by apply clean_char_single|done].
Qed.
Lemma plain_clean s : str_all clean_char s = true → clean s.
Proof.
  unfold clean. generalize true at 2 as b. induction s as [|c s IH]; intros b; [done|]. cbn.
  rewrite !andb_true_iff. intros [Hc Hs]. split; [|by apply IH]. destruct b; [done|by apply clean_char_single].
Qed.
Lemma clean_join sep l : clean sep → Forall clean l → clean (join sep l).
Proof.
  intros Hs H. induction H as [|x l Hx Hl IH]; [done|]. destruct l as [|y l]; [done|]. rewrite join_cons by done. by repeat apply clean_append.
Qed.
Lemma clean_digits s : str_all is_digit s = true → clean s.
Proof.
  intros H. apply plain_clean. revert H.
  apply str_all_impl. intros c Hc. unfold clean_char. apply negb_true_iff, bool_decide_eq_false. intros H.
  apply list_elem_of_In in H. cbn in H. repeat (destruct H as [<-|H]; [vm_compute in Hc; discriminate|]). done.
Qed.
Lemma clean_show n : clean (show_N n).
Proof. apply clean_digits, show_N_digits. Qed.
Lemma clean_sanitize s : clean (sanitize s).
Proof.
  apply plain_clean. unfold sanitize. induction s as [|c s IH]; [done|]. cbn [str_map str_all]. rewrite IH, andb_true_r.
  destruct (is_alnum c) eqn:E; [|done]. unfold clean_char. apply negb_true_iff, bool_decide_eq_false. intros H.
  apply list_elem_of_In in H. cbn in H. repeat (destruct H as [<-|H]; [vm_compute in E; discriminate|]). done.
Qed.
Lemma single_tabs n s : single s → single (tabs n s).
Proof. intros H. apply single_append; [|done]. induction n; done. Qed.

Lemma kind_tabs n s : kind_of (tabs n s) = kind_of s.
Proof. unfold kind_of. assert (trim_start_matches TAB (tabs n s) = trim_start_matches TAB s) as ->; [|done]. induction n; done. Qed.
Definition starts_plain (s : string) : bool :=
  match s with String c _ => negb (bool_decide (c ∈ [TAB; "#"; "{"; "}"]%char)) | "" => false end.
Lemma starts_plain_spec s : starts_plain s = true →
  trim_start_matches TAB s = s ∧ str_is_empty s || starts_with "#" s = false ∧ s ≠ "}" ∧ s ≠ "{".
Proof.
  destruct s as [|c s]; [done|]. cbn [starts_plain]. intros H%negb_true_iff%bool_decide_eq_false. rewrite !not_elem_of_cons in H.
  destruct H as (H1 & H2 & H3 & H4 & _). split_and!; try congruence.
  - cbn. by rewrite decide_False by done.
  - cbn. unfold starts_with. cbn. rewrite decide_False by done. done.
Qed.
Lemma kind_other s : starts_plain s = true → (∀ a, s ≠ a +:+ " {") → kind_of s = Directive_.
Proof.
  intros H Ha. apply starts_plain_spec in H as (H1 & H2 & H3 & H4). unfold kind_of. rewrite H1, H2, !bool_decide_eq_false_2 by done.
  destruct (strip_suffix " {" s) as [x|] eqn:E; [|done]. apply strip_suffix_Some in E. exfalso. by apply (Ha x).
Qed.
Lemma clean_no_brace s a : clean s → s ≠ a +:+ " {".
Proof.
  intros H ->. revert H. unfold clean. generalize true at 1 as b. induction a as [|c a IH]; intros b; [by destruct b|].
  change (String c a +:+ " {") with (String c (a +:+ " {")). cbn [no_block]. rewrite andb_true_iff.
  intros [_ H]. by eapply IH.
Qed.
Lemma kind_clean n s : starts_plain s = true → clean s → kind_of (tabs n s) = Directive_.
Proof. intros H1 H2. rewrite kind_tabs. apply kind_other; [done|]. intros a. by apply clean_no_brace. Qed.
Lemma append_last s t a b c d : s +:+ String c "" = a → t +:+ String d "" = b → a = b → c = d.
Proof. intros <- <- H. apply (f_equal split_last) in H. rewrite !split_last_append in H. congruence. Qed.
Lemma kind_ends n s c : starts_plain (s +:+ String c "") = true → c ≠ "{"%char → kind_of (tabs n (s +:+ String c "")) = Directive_.
Proof. intros H1 H2. rewrite kind_tabs. apply kind_other; [done|]. intros a E. apply H2.
  apply (append_last s (a +:+ " ") _ _ c "{" eq_refl eq_refl). by rewrite append_assoc.
Qed.
Lemma kind_opens n s : starts_plain s = true → kind_of (tabs n (s +:+ " {")) = Opens s.
Proof.
  intros H. rewrite kind_tabs. assert (H' : starts_plain (s +:+ " {") = true) by (by destruct s).
  apply starts_plain_spec in H' as (H1 & H2 & H3 & H4). unfold kind_of. by rewrite H1, H2, !bool_decide_eq_false_2, strip_suffix_append by done.
Qed.
Lemma kind_comment n s : kind_of (tabs n ("#" +:+ s)) = Skip.
Proof. by rewrite kind_tabs. Qed.
Lemma sites_skip d l ls : kind_of l = Skip → sites d (l :: ls) = sites d ls.
Proof. cbn. by intros ->. Qed.
Lemma sites_directive d l ls : kind_of l = Directive_ → sites (S d) (l :: ls) = sites (S d) ls.
Proof. cbn. by intros ->. Qed.
Lemma sites_opens d l ls name : kind_of l = Opens name → sites (S d) (l :: ls) = sites (S (S d)) ls.
Proof. cbn. intros ->. by destruct (sites (S (S d)) ls). Qed.
Lemma sites_closes d l ls : kind_of l = Closes → sites (S d) (l :: ls) = sites d ls.
Proof. cbn. by intros ->. Qed.
(** Lines that are whole inside a block. *)
Definition inside (ls : list string) : Prop := Forall single ls ∧ ∀ d rest, sites (S d) (ls ++ rest) = sites (S d) rest.
Lemma inside_nil : inside [].
Proof. done. Qed.
Lemma inside_app a b : inside a → inside b → inside (a ++ b).
Proof. intros [H1 H2] [H3 H4]. split; [by apply Forall_app|]. intros d rest. by rewrite <- app_assoc, H2, H4. Qed.
Lemma inside_concat l : Forall inside l → inside (concat l).
Proof. induction 1 as [|a l Ha _ IH]; [apply inside_nil|]. by apply inside_app. Qed.

Lemma step_kind d l ls k : kind_of l = k →
  sites (S d) (l :: ls) =
    match k with Skip | Directive_ => sites (S d) ls | Closes => sites d ls | Opens _ => sites (S (S d)) ls end.
Proof. destruct k; [apply sites_skip|apply sites_closes|apply sites_opens|apply sites_directive]. Qed.

Lemma kind_suffix n a b x c :
  starts_plain (a +:+ b) = true → split_last b = Some (x, c) → c ≠ "{"%char → kind_of (tabs n (a +:+ b)) = Directive_.
Proof. intros H ->%split_last_Some Hc. rewrite <- append_assoc in *. by apply kind_ends. Qed.

Lemma clean_quoted s : clean s → clean (quoted_str s).
Proof. intros H. unfold quoted_str. change (clean (String "034" "" +:+ (s +:+ String "034" ""))). by repeat apply clean_append. Qed.

(** The texts of lines, part after part. *)
Ltac text := repeat lazymatch goal with
  | |- clean (String.append _ _) => apply clean_append
  | |- clean (sanitize _) => apply clean_sanitize
  | |- clean (quoted_str _) => apply clean_quoted
  | |- clean (show_N _) => apply clean_show
  | |- clean (show_nat _) => apply clean_show
  | |- clean (join _ ?l) => first [apply clean_join; [reflexivity|assumption] | vm_compute; reflexivity]
  | |- clean _ => first [assumption | vm_compute; reflexivity]
  end.
Ltac one_line := repeat lazymatch goal with
  | |- single (tabs _ _) => apply single_tabs
  | |- single (String.append _ _) => first [apply clean_single; solve [text] | apply single_append]
  | |- single _ => first [assumption | apply clean_single; solve [text] | vm_compute; reflexivity]
  end.
(** What stands before the last part of a text. *)
Ltac but_last s :=
  lazymatch s with
  | String.append ?a (String.append ?b ?c) => let r := but_last constr:(String.append b c) in constr:(String.append a r)
  | String.append ?a _ => a
  end.
Ltac last_part s := lazymatch s with String.append _ ?b => last_part b | _ => s end.
Ltac kind_text n s :=
  lazymatch s with
  | String.append (String "#" ?a) ?b => constr:(kind_comment n (String.append a b))
  | _ =>
      let e := last_part s in
      lazymatch e with
      | String " " (String "{" EmptyString) =>
          let p := but_last s in
          constr:(ltac:(transitivity (kind_of (tabs n (String.append p e)));
                        [rewrite ?append_assoc; reflexivity|apply kind_opens; reflexivity]) : kind_of (tabs n s) = Opens p)
      | _ =>
          let p := but_last s in
          constr:(ltac:(first
            [ apply kind_clean; [reflexivity|solve [text]]
            | transitivity (kind_of (tabs n (String.append p e)));
              [rewrite ?append_assoc; reflexivity|eapply kind_suffix; [reflexivity|vm_compute; reflexivity|discriminate]] ]) :
            kind_of (tabs n s) = Directive_)
      end
  end.
Ltac kind_line l :=
  lazymatch l with
  | tabs ?n (String ?c ?s) =>
      let k := eval vm_compute in (kind_of (String c s)) in
      constr:(ltac:(rewrite kind_tabs; vm_compute; reflexivity) : kind_of (tabs n (String c s)) = k)
  | tabs ?n ?s => kind_text n s
  | EmptyString => constr:(eq_refl : kind_of EmptyString = Skip)
  end.
(** Through a fragment, line after line. *)
Ltac through := repeat match goal with
  | |- sites (S ?d) (?l :: ?ls) = _ => let p := kind_line l in rewrite (step_kind d l ls _ p); cbn iota
  end.
Ltac all_single := repeat first [apply Forall_nil_2 | apply Forall_cons; split; [solve [one_line]|] | apply Forall_app; split; [solve [assumption]|] ].
Ltac fragment := split; [all_single | intros d rest; cbn [app]; through; try done].
Lemma inside_log cfg n : inside (render_log cfg n).
Proof. unfold render_log. destruct (cf_crowdsec cfg); [|apply inside_nil]. fragment. Qed.
Lemma inside_security n : inside (security_headers n).
Proof. unfold security_headers. fragment. Qed.
Lemma inside_not_open open n : Forall clean open → inside (write_not_open open n).
Proof. intros H. unfold write_not_open. fragment. Qed.
Lemma inside_refusals m n : clean m → inside (refusals m n).
Proof. intros H. unfold refusals. fragment. Qed.
Record clean_portal (fa : ForwardAuth) : Prop := {
  cl_upstream : clean (fa_upstream fa); cl_verify : clean (fa_verify_path fa); cl_sign_in : clean (fa_sign_in_path fa) }.
Lemma inside_forward_auth fa groups open m n :
  clean_portal fa → Forall clean groups → Forall clean open → clean m → inside (render_forward_auth fa groups open m n).
Proof.
  intros [H1 H2 H3] Hg Ho Hm. unfold render_forward_auth. repeat apply inside_app.
  - fragment.
  - cbn [fmap list_fmap AUTH_HEADERS]. fragment.
  - fragment.
  - destruct open as [|o open]; [apply inside_nil|]. set (l := o :: open) in *. split.
    + pose proof (proj1 (inside_not_open l (1 + n) Ho)). cbn [app]. all_single.
    + intros d rest. cbn [app]. through. rewrite <- app_assoc, (proj2 (inside_not_open l (1 + n) Ho)). cbn [app]. through. done.
  - set (gate := match open with [] => _ | _ => _ end).
    assert (Hgate : clean gate) by (subst gate; destruct open; text). fragment.
Qed.
(** What a route's texts are, its host apart: on one line, without a brace. *)
Record clean_route (r : Route) : Prop := {
  cr_service : clean (rt_service r); cr_groups : Forall clean (rt_allowed_groups r); cr_open : Forall clean (rt_open_paths r);
  cr_paths : Forall (λ p, clean (cp_prefix p) ∧ clean (cp_upstream p)) (rt_paths r);
  cr_auth : Forall (λ a, Forall clean (ar_paths a)) (rt_auth_routes r) }.
Lemma Forall_imap {A B} (P : B → Prop) (f : nat → A → B) l : (∀ i x, x ∈ l → P (f i x)) → Forall P (imap f l).
Proof.
  revert f. induction l as [|x l IH]; intros f H; [done|]. rewrite imap_cons. constructor; [by apply H; left|].
  apply IH. intros i y Hy. apply H. by right.
Qed.
Lemma inside_auth_routes r n : clean_route r → inside (render_auth_routes r (sanitize (rt_host r)) n).
Proof.
  intros [Hs _ _ _ Ha]. unfold render_auth_routes. apply inside_concat, Forall_imap. intros i a Hi.
  rewrite Forall_forall in Ha. specialize (Ha a Hi). unfold render_auth_route. set (name := "signin" +:+ _).
  assert (Hname : clean name) by (subst name; text). clearbody name. apply inside_app.
  - fragment.
  - destruct (ar_fails_with a); [fragment|apply inside_nil].
Qed.
Lemma inside_path r n i p : clean (cp_prefix p) → clean (cp_upstream p) → inside (render_path r (sanitize (rt_host r)) n i p).
Proof.
  intros Hp Hu. unfold render_path. set (m := sanitize _). assert (Hm : clean m) by apply clean_sanitize. clearbody m. cbv zeta.
  destruct (cp_keep_prefix p), (rt_public r); fragment.
Qed.
Lemma inside_private r n : clean_route r → inside (private_only r (sanitize (rt_host r)) n).
Proof.
  intros [_ _ Ho _ _]. unfold private_only. destruct (rt_public r); [apply inside_nil|]. set (m := sanitize _).
  assert (Hm : clean m) by apply clean_sanitize. clearbody m. destruct (rt_open_paths r) as [|o open]; [fragment|].
  set (l := o :: open) in *. pose proof (inside_not_open l (1 + n) Ho) as [H1 H2]. split.
  - cbn [app]. all_single.
  - intros d rest. rewrite <- ?app_assoc. cbn [app]. through. rewrite <- ?app_assoc, H2. cbn [app]. through. done.
Qed.
Lemma inside_route r cfg n :
  clean_route r → (∀ fa, cf_forward_auth cfg = Some fa → clean_portal fa) → inside (render_route r cfg n).
Proof.
  intros Hr Hfa. unfold render_route. apply inside_app; [destruct (cf_crowdsec cfg); [fragment|apply inside_nil]|].
  destruct (nobody r cfg); [destruct Hr as [Hs _ _ _ _]; fragment|]. repeat apply inside_app.
  - destruct (cf_forward_auth cfg) as [fa|]; [|apply inside_nil]. destruct (rt_needs_forward_auth r); [|apply inside_nil].
    apply inside_forward_auth; [by apply Hfa|apply Hr..|apply clean_sanitize].
  - apply inside_security.
  - by apply inside_auth_routes.
  - apply inside_refusals, clean_sanitize.
  - by apply inside_private.
  - apply inside_concat, Forall_imap. intros i p Hp. destruct Hr as [_ _ _ Hps _]. rewrite Forall_forall in Hps.
    destruct (Hps p Hp). by apply inside_path.
  - destruct Hr as [Hs _ _ _ _]. fragment.
Qed.
Lemma host_clean h : is_host h = true → clean h ∧ starts_plain h = true.
Proof.
  unfold is_host. assert (Hd : ∀ d, is_domain d = true → clean d ∧ starts_plain d = true).
  { intros d [[_ _]%andb_true_iff Hl]%andb_true_iff. rewrite <- (join_split "." d). rewrite all_of_true in Hl.
    pose proof (split_char_ne "." d) as Hne. destruct (split_char "." d) as [|l ls] eqn:E; [done|].
    assert (Hc : ∀ x, x ∈ l :: ls → clean x).
    { intros x Hx. specialize (Hl x Hx). unfold is_label in Hl. apply andb_true_iff in Hl as [_ Hl]. apply plain_clean. eapply str_all_impl; [|exact Hl].
      intros c Hcc. unfold clean_char. apply negb_true_iff, bool_decide_eq_false. intros H. apply list_elem_of_In in H. cbn in H.
      repeat (destruct H as [<-|H]; [vm_compute in Hcc; discriminate|]). done. }
    split; [apply clean_join; [done|by apply Forall_forall]|].
    specialize (Hl l ltac:(by left)). unfold is_label in Hl. rewrite !andb_true_iff in Hl. destruct Hl as ((((H1 & _) & _) & _) & H2).
    destruct l as [|c l]; [done|]. apply str_all_head in H2.
    assert (starts_plain (String c l) = true) as Hp.
    { cbn [starts_plain]. apply negb_true_iff, bool_decide_eq_false. intros H. apply list_elem_of_In in H. cbn in H.
      repeat (destruct H as [<-|H]; [vm_compute in H2; discriminate|]). done. }
    destruct ls; [done|]. by rewrite join_cons. }
  destruct (strip_prefix "*." h) as [d|] eqn:E; cbn [default from_option]; [|apply Hd].
  apply strip_prefix_Some in E as ->. intros [H _]%Hd. split; [by apply clean_append|done].
Qed.

Lemma append_assoc_r a b c : a +:+ (b +:+ c) = (a +:+ b) +:+ c.
Proof. by rewrite append_assoc. Qed.
Lemma replace_go_all p from to skip s : str_all p to = true → str_all p s = true → str_all p (replace_go from to skip s) = true.
Proof.
  intros Ht. revert skip. induction s as [|c s IH]; intros skip H; [done|]. cbn [replace_go]. cbn [str_all] in H.
  apply andb_true_iff in H as [Hc Hs]. destruct skip as [|skip]; [|by apply IH].
  destruct (starts_with from (String c s)); [rewrite str_all_append, Ht; by apply IH|]. cbn [str_all]. by rewrite Hc, IH.
Qed.
Lemma single_quote v : single v → single (quote v).
Proof.
  intros H. unfold quote, quoted_str. change (single (String "034" "" +:+ (replace (String "034" "") (String "092" (String "034" "")) (replace "\" "\\" v) +:+ String "034" ""))).
  repeat apply single_append; try done. by repeat apply replace_go_all.
Qed.
Lemma kind_quoted n s v : starts_plain s = true → kind_of (tabs n (s +:+ quote v)) = Directive_.
Proof.
  intros H. unfold quote, quoted_str. set (x := replace _ _ _).
  change (s +:+ String "034" (x +:+ String "034" "")) with (s +:+ (String "034" x +:+ String "034" "")). rewrite <- append_assoc.
  apply kind_ends; [|done]. by destruct s.
Qed.
Lemma inside_one l : single l → kind_of l = Directive_ → inside [l].
Proof. intros H1 H2. split; [by constructor|]. intros d rest. cbn [app]. by rewrite sites_directive. Qed.
Lemma inside_block a body b : single a → single b → (∃ name, kind_of a = Opens name) → kind_of b = Closes → inside body → inside (a :: body ++ [b]).
Proof.
  intros Ha Hb [name Hk] Hc [H1 H2]. split; [constructor; [done|]; apply Forall_app; split; [done|by repeat constructor]|].
  intros d rest. cbn [app]. rewrite (sites_opens _ _ _ name) by done. rewrite <- app_assoc, H2. cbn [app]. by rewrite sites_closes.
Qed.
Lemma inside_directive p values n : p ∈ PROVIDERS → Forall single values → inside (directive p values n).
Proof.
  intros Hp Hv. assert (Hf : clean (pv_name p) ∧ Forall (λ f, clean (fd_name f) ∧ starts_plain (fd_name f) = true) (pv_fields p)).
  { revert p Hp. apply Forall_forall. vm_compute. repeat constructor. }
  destruct Hf as [Hn Hf]. unfold directive. destruct (pv_positional p).
  - apply inside_one.
    + apply single_tabs. repeat (apply single_append; [by (done || apply clean_single)|]). apply single_quote. by destruct Hv.
    + rewrite append_assoc_r, append_assoc_r. by apply kind_quoted.
  - apply inside_block; [one_line|one_line| |by rewrite kind_tabs|].
    { eexists. rewrite append_assoc_r. by apply kind_opens. }
    clear Hp. revert values Hv. generalize (pv_fields p) Hf. clear. intros fields Hf. induction Hf as [|f fields [H1 H2] _ IH]; intros values Hv; [apply inside_nil|].
    destruct Hv as [|v values H3 Hv]; [apply inside_nil|]. cbn [zip_with fmap list_fmap]. apply (inside_app [_]); [|by apply IH].
    apply inside_one.
    + apply single_tabs. apply single_append; [by apply clean_single|]. apply single_append; [done|]. by apply single_quote.
    + rewrite append_assoc_r. apply kind_quoted. by destruct (fd_name f).
Qed.
(** What a configuration's texts are: on one line, and without a brace but for the credentials. *)
Record clean_config (cfg : Config) : Prop := {
  cc_portal : ∀ fa, cf_forward_auth cfg = Some fa → clean_portal fa;
  cc_crowdsec : ∀ cs, cf_crowdsec cfg = Some cs → clean (cs_api_url cs) ∧ clean (cs_api_key cs);
  cc_acme : ∀ email w staging ca ca_root, cf_tls cfg = Acme email w staging ca ca_root →
    clean email ∧ (∀ c, ca = Some c → clean c) ∧
    ∀ w', w = Some w' → clean (wc_base_domain w') ∧ wc_provider w' ∈ PROVIDERS ∧ Forall single (wc_credentials w') }.
Lemma inside_tls cfg : clean_config cfg → inside (render_tls (cf_tls cfg)).
Proof.
  intros [_ _ H]. destruct (cf_tls cfg) as [email w staging ca ca_root|own]; cbn [render_tls].
  - destruct (H _ _ _ _ _ eq_refl) as (He & Hc & _). repeat apply inside_app; [fragment| |destruct ca_root; [fragment|apply inside_nil]].
    destruct ca as [c|]; [specialize (Hc c eq_refl); fragment|]. destruct staging; [fragment|apply inside_nil].
  - destruct own; fragment.
Qed.
Lemma inside_global routes cfg : clean_config cfg → inside (global_body routes cfg).
Proof.
  intros H. unfold global_body. repeat apply inside_app; [by apply inside_tls|fragment|..].
  - destruct (any_of _ _); [fragment|apply inside_nil].
  - destruct (_ && _); [fragment|apply inside_nil].
  - destruct (cf_crowdsec cfg) as [cs|] eqn:E; [|apply inside_nil]. destruct (cc_crowdsec _ H cs E). fragment.
Qed.
(** A block at the top of the file. *)
Lemma top_block a name body ls : kind_of a = Opens name → inside body → sites 0 (a :: body ++ "}" :: ls) = (rest ← sites 0 ls; Some (name :: rest)).
Proof. intros Hk [_ H]. cbn [sites]. rewrite Hk, H. done. Qed.
Lemma inside_handle cfg r :
  clean_config cfg → clean_route r → is_host (rt_host r) = true →
  inside (["" ; tabs 1 ("@" +:+ sanitize (rt_host r) +:+ " host " +:+ rt_host r); tabs 1 ("handle @" +:+ sanitize (rt_host r) +:+ " {")] ++
          render_route r cfg 2 ++ [tabs 1 "}"]).
Proof.
  intros Hc Hr Hh. apply host_clean in Hh as [Hh _]. pose proof (inside_route r cfg 2 Hr (cc_portal _ Hc)) as Hin.
  apply (inside_app [_; _]); [fragment|]. apply inside_block; [one_line|one_line| |by rewrite kind_tabs|done].
  eexists. rewrite append_assoc_r. by apply kind_opens.
Qed.
Lemma dedup_hosts_in l r : r ∈ dedup_hosts l → r ∈ l.
Proof.
  induction l as [|x l IH]; [done|]. cbn [dedup_hosts]. rewrite !elem_of_cons. intros [->|H]; [by left|]. right. apply IH.
  destruct (dedup_hosts l) as [|y l']; [done|]. case_bool_decide; [by right|done].
Qed.
Lemma published_host routes r : r ∈ published_routes routes → is_host (rt_host r) = true ∧ r ∈ routes.
Proof. intros H%dedup_hosts_in. rewrite sort_by_perm in H. by apply elem_of_keep in H as [? ?]. Qed.

(** *** The text and its lines *)

Lemma single_no c s : single s → c ∈ [NLc; CRc] → contains_char c s = false.
Proof.
  intros H Hc. eapply (str_all_contains_char single_char); [exact H|]. unfold single_char. by rewrite bool_decide_eq_true_2.
Qed.
Lemma strip_cr_single s : single s → strip_cr s = s.
Proof.
  intros H. unfold strip_cr. destruct (strip_suffix (String "013" "") s) as [r|] eqn:E; [|done]. apply strip_suffix_Some in E. subst s.
  unfold single in H. rewrite str_all_append, andb_true_iff in H. by destruct H as [_ H].
Qed.
Lemma lines_of ls : Forall single ls → lines (foldr (λ l s, l +:+ String (ascii_of_N 10) s) "" ls) = ls.
Proof.
  intros H.
  assert (Hcr : strip_cr <$> ls = ls).
  { clear -H. induction H as [|l ls Hl _ IH]; [done|]. cbn [fmap list_fmap]. rewrite strip_cr_single by done. by f_equal. }
  assert (E : split_char "010" (foldr (λ l s, l +:+ String (ascii_of_N 10) s) "" ls) = ls ++ [""]).
  { clear Hcr. induction H as [|l ls Hl _ IH]; [done|]. cbn [foldr]. change (ascii_of_N 10) with "010"%char in *.
    rewrite split_char_append, IH, split_char_one; [done|]. apply single_no; [done|]. by left. }
  unfold lines. rewrite E, last_snoc. cbn [default from_option]. rewrite bool_decide_eq_true_2 by done.
  rewrite length_app. cbn [length]. replace (length ls + 1 - 1)%nat with (length ls) by lia. by rewrite take_app_length.
Qed.

(** *** The sites of the file *)

Lemma singles_of_block a body ls :
  single a → inside body → Forall single ls → Forall single (a :: body ++ "}" :: ls).
Proof. intros Ha [Hb _] Hl. constructor; [done|]. apply Forall_app. split; [done|]. by constructor. Qed.
Lemma site_lines cfg r : clean_config cfg → clean_route r → is_host (rt_host r) = true →
  Forall single (render_site cfg r) ∧ ∀ ls, sites 0 (render_site cfg r ++ ls) = (rest ← sites 0 ls; Some (rt_host r :: rest)).
Proof.
  intros Hc Hr Hh. apply host_clean in Hh as [Hh Hp]. pose proof (kind_opens 0 _ Hp) as Hk. change (tabs 0 ?s) with s in Hk.
  assert (Hin : inside (render_log cfg 1 ++ render_route r cfg 1)) by (apply inside_app; [apply inside_log|apply inside_route; [done|apply Hc]]).
  unfold render_site. cbn [app]. rewrite app_assoc. split.
  - apply singles_of_block; [one_line|done|by repeat constructor].
  - intros ls. cbn [app]. rewrite <- app_assoc. cbn [app]. rewrite (top_block _ (rt_host r)) by done. by rewrite sites_skip.
Qed.
Lemma sites_lines cfg rs : clean_config cfg → Forall (λ r, clean_route r ∧ is_host (rt_host r) = true) rs →
  Forall single (concat (render_site cfg <$> rs)) ∧ sites 0 (concat (render_site cfg <$> rs)) = Some (rt_host <$> rs).
Proof.
  intros Hc H. induction H as [|r rs [Hr Hh] _ [IH1 IH2]]; [done|]. cbn [fmap list_fmap concat].
  destruct (site_lines cfg r Hc Hr Hh) as [H1 H2]. split; [by apply Forall_app|]. by rewrite H2, IH2.
Qed.
Lemma wildcard_lines cfg w rs : clean_config cfg → wildcard_of cfg = Some w → Forall (λ r, clean_route r ∧ is_host (rt_host r) = true) rs →
  Forall single (render_wildcard w rs cfg) ∧
  ∀ ls, sites 0 (render_wildcard w rs cfg ++ ls) = (rest ← sites 0 ls; Some (join ", " (subjects w) :: rest)).
Proof.
  intros Hc Hw H. unfold wildcard_of in Hw. destruct (cf_tls cfg) as [email [w'|] staging ca ca_root|] eqn:Et; try done. injection Hw as ->.
  destruct (cc_acme _ Hc _ _ _ _ _ Et) as (_ & Hca & Hw). destruct (Hw w eq_refl) as (Hb & Hp & Hcr).
  unfold render_wildcard. rewrite Et.
  set (tls := tabs 1 "tls {" :: (directive (wc_provider w) (wc_credentials w) 2 ++ (match ca with Some ca => [tabs 2 ("ca " +:+ ca)] | None => if staging then [tabs 2 ("ca " +:+ STAGING_CA)] else [] end) ++
       (if ca_root then [tabs 2 ("ca_root " +:+ ACME_ROOT)] else [])) ++ [tabs 1 "}"]).
  set (handles := concat (_ <$> keep (covered cfg) rs)).
  set (none := ["" ; tabs 1 "handle {"; tabs 2 ("respond " +:+ quoted_str "no application at this address" +:+ " 404"); tabs 1 "}"]).
  assert (Hin : inside (tls ++ render_log cfg 1 ++ handles ++ none)).
  { apply inside_app; [|apply inside_app; [apply inside_log|apply inside_app]].
    - apply inside_block; [one_line|one_line|by eexists|by rewrite kind_tabs|]. repeat apply inside_app.
      + by apply inside_directive.
      + destruct ca as [c|]; [specialize (Hca c eq_refl); fragment|]. destruct staging; [fragment|apply inside_nil].
      + destruct ca_root; [fragment|apply inside_nil].
    - apply inside_concat, Forall_fmap, Forall_forall. intros r Hr%elem_of_keep. destruct Hr as [_ Hr]. rewrite Forall_forall in H.
      destruct (H r Hr). by apply inside_handle.
    - unfold none. fragment. }
  assert (Hk : kind_of (join ", " (subjects w) +:+ " {") = Opens (join ", " (subjects w))) by (apply (kind_opens 0); done).
  match goal with |- Forall single ?l ∧ _ => assert (El : l = (join ", " (subjects w) +:+ " {") :: (tls ++ render_log cfg 1 ++ handles ++ none) ++ ["}"; ""]) end.
  { subst tls none. repeat (progress (cbn [app]; rewrite <- ?app_assoc)). done. }
  rewrite El. split.
  - apply singles_of_block; [|done|by repeat constructor]. cbn [subjects join]. one_line.
  - intros ls. cbn [app]. rewrite <- app_assoc. cbn [app]. rewrite (top_block _ (join ", " (subjects w))) by done. by rewrite sites_skip.
Qed.

(** *** One of each host *)

Lemma total_cmp_list {A} (cmp : A → A → comparison) : total_cmp cmp → total_cmp (list_cmp cmp).
Proof.
  intros [Ho Ht]. split.
  - intros a. induction a as [|x a IH]; intros [|y b]; try done. cbn [list_cmp]. rewrite Ho, IH. by destruct (cmp y x).
  - intros a. induction a as [|x a IH]; intros [|y b] [|z c]; try done. cbn [list_cmp]. specialize (IH b c).
    pose proof (Ht x y z) as H1. pose proof (Ht y z x) as H2. pose proof (Ht z x y) as H3. unfold then_with.
    rewrite (Ho z x) in H2, H3. rewrite (Ho y x) in H2. rewrite (Ho z y) in H3.
    destruct (cmp x y), (cmp y z), (cmp x z); cbn in *; try done; intros; try (by auto);
      exfalso; first [by apply H2 | by apply H3 | by apply H1].
Qed.
Lemma total_cmp_path : total_cmp path_cmp.
Proof.
  unfold path_cmp. repeat (apply total_cmp_then; [apply total_cmp_on, total_cmp_string|]). apply total_cmp_on, total_cmp_bool.
Qed.
Lemma total_cmp_auth : total_cmp auth_cmp.
Proof.
  unfold auth_cmp. apply total_cmp_then; apply total_cmp_on; [apply total_cmp_list, total_cmp_string|apply total_cmp_option, total_cmp_N].
Qed.
Lemma total_cmp_route : total_cmp route_cmp.
Proof.
  unfold route_cmp. repeat (apply total_cmp_then; [apply total_cmp_on|]); try apply total_cmp_on;
    auto using total_cmp_string, total_cmp_N, total_cmp_bool, total_cmp_list, total_cmp_path, total_cmp_auth.
Qed.
Definition host_le (a b : Route) : Prop := String.compare (rt_host a) (rt_host b) ≠ Gt.
Lemma dedup_hosts_NoDup l : StronglySorted host_le l →
  NoDup (rt_host <$> dedup_hosts l) ∧ (∀ r l', l = r :: l' → ∃ l'', dedup_hosts l = r :: l'').
Proof.
  induction 1 as [|r l Hs [IH IHh] Hr]; [by split; [constructor|]|]. cbn [dedup_hosts].
  split; [|intros ? ? [= <- <-]; by eexists]. destruct l as [|r' l']; [by cbn; repeat constructor; apply not_elem_of_nil|].
  destruct (IHh r' l' eq_refl) as [l'' E]. rewrite E in IH |- *. cbn [fmap list_fmap] in IH. apply NoDup_cons in IH as [Hn Hd].
  case_bool_decide as Eh; cbn [fmap list_fmap]; apply NoDup_cons; [by rewrite Eh; split|]. split; [|by apply NoDup_cons].
  rewrite elem_of_cons. intros [?|Hin]; [done|]. apply list_elem_of_fmap in Hin as (x & Hx & Hin).
  assert (Hin' : x ∈ r' :: l') by (apply dedup_hosts_in; rewrite E; by right).
  pose proof total_cmp_string as [Ho Ht]. rewrite Forall_forall in Hr. pose proof (Hr x Hin') as H1. pose proof (Hr r' ltac:(by left)) as H2.
  apply elem_of_cons in Hin' as [->|Hin']; [by apply Eh|].
  inversion_clear Hs as [|? ? _ Hr']. rewrite List.Forall_forall in Hr'. specialize (Hr' x ltac:(by apply list_elem_of_In)).
  unfold host_le in *. rewrite <- Hx in Hr'. apply Eh. apply String.compare_eq_iff.
  destruct (String.compare (rt_host r) (rt_host r')) eqn:Ec; [done| |done]. exfalso. apply Hr'. by rewrite Ho, Ec.
Qed.
Lemma published_NoDup routes : NoDup (rt_host <$> published_routes routes).
Proof.
  apply dedup_hosts_NoDup. eapply StronglySorted_weaken; [|apply (sort_by_total route_cmp), total_cmp_route].
  intros x y H. unfold host_le. intros E. apply H. unfold route_cmp. by rewrite E.
Qed.

(** The blocks of a file of clean routes. *)
Lemma rendered_sites (routes : list Route) (cfg : Config) :
  Forall clean_route routes → clean_config cfg →
  let published := published_routes routes in
  sites 0 (lines (render routes cfg)) =
    Some ("" :: (match wildcard_of cfg with Some w => [join ", " (subjects w)] | None => [] end) ++
          (rt_host <$> keep (λ r, negb (covered cfg r)) published)) ∧
  NoDup (rt_host <$> published) ∧
  ∀ r, r ∈ published → is_host (rt_host r) = true ∧ r ∈ routes.
Proof.
  intros Hr Hc published. split_and!; [| |intros r; apply published_host].
  - assert (Hp : Forall (λ r, clean_route r ∧ is_host (rt_host r) = true) published).
    { apply Forall_forall. intros r [Hh Hin]%published_host. rewrite Forall_forall in Hr. by split; [apply Hr|]. }
    destruct (sites_lines cfg (keep (λ r, negb (covered cfg r)) published) Hc) as [S1 S2].
    { apply Forall_forall. intros r [_ H]%elem_of_keep. rewrite Forall_forall in Hp. by apply Hp. }
    pose proof (inside_global published cfg Hc) as Hin.
    assert (Hm : Forall single (match wildcard_of cfg with Some w => render_wildcard w published cfg | None => [] end) ∧
      ∀ ls, sites 0 ((match wildcard_of cfg with Some w => render_wildcard w published cfg | None => [] end) ++ ls) =
        (rest ← sites 0 ls; Some (match wildcard_of cfg with Some w => [join ", " (subjects w)] | None => [] end ++ rest))).
    { destruct (wildcard_of cfg) as [w|] eqn:Ew; [by apply wildcard_lines|]. split; [done|]. intros ls. cbn. by destruct (sites 0 ls). }
    destruct Hm as [M1 M2]. unfold render. rewrite lines_of.
    + unfold render_lines, render_global. fold published. cbn [app]. rewrite !sites_skip by done. rewrite <- app_assoc. cbn [app].
      rewrite (top_block "{" "") by done. rewrite sites_skip by done. rewrite M2, S2. done.
    + unfold render_lines, render_global. fold published.
      apply Forall_app; split; [by repeat constructor|]. apply Forall_app; split; [|by apply Forall_app].
      apply Forall_app; split; [by repeat constructor|]. apply Forall_app; split; [apply Hin|by repeat constructor].
  - apply published_NoDup.
Qed.

(** *** The routes published *)

Definition cleared (app : string) (s : Store) : bool :=
  (length (guides_where (λ r, gr_blocking r && negb (gr_verified r)) app s) =? 0)%nat.
(** A route of an app: one of its manifest's, whose chain is served, for the groups let in. *)
Record of_app (portal : gmap string (list string)) (s : Store) (app : string) (row : AppRow) (ing : Ingress) (r : Route) : Prop := {
  oa_row : t_apps s !! app = Some row;
  oa_status : row_status row ≠ "failed";
  oa_ingress : ing ∈ sp_ingress (mf_spec (row_manifest row));
  oa_chain : served_chain ing = true;
  oa_route : r = with_groups (default [] (portal !! app)) (route_of (row_manifest row) (row_domain row) (cleared app s) ing) }.

Lemma app_routes_spec portal app s row :
  t_apps s !! app = Some row →
  app_routes portal app s = (Ok (with_groups (default [] (portal !! app)) <$>
    (route_of (row_manifest row) (row_domain row) (cleared app s) <$> keep served_chain (sp_ingress (mf_spec (row_manifest row))))), s).
Proof.
  intros H. unfold app_routes, app_manifest, app_domain, unverified_blocking, eff_bind, eff_get, eff_ret. by rewrite H.
Qed.
Lemma app_routes_of_app portal app s row r :
  t_apps s !! app = Some row → row_status row ≠ "failed" →
  r ∈ (with_groups (default [] (portal !! app)) <$>
    (route_of (row_manifest row) (row_domain row) (cleared app s) <$> keep served_chain (sp_ingress (mf_spec (row_manifest row))))) ↔
  ∃ ing, of_app portal s app row ing r.
Proof.
  intros H Hst. rewrite list_elem_of_fmap. split.
  - intros (x & -> & (ing & -> & [Hc Hi]%elem_of_keep)%list_elem_of_fmap). by exists ing.
  - intros (ing & [_ _ Hi Hc ->]). eexists. split; [done|]. apply list_elem_of_fmap. exists ing. split; [done|]. by apply elem_of_keep.
Qed.
Lemma routes_each_spec portal apps s rs s' :
  (∀ app status, (app, status) ∈ apps → ∃ row, t_apps s !! app = Some row ∧ status = row_status row) →
  routes_each portal apps s = (Ok rs, s') →
  s' = s ∧ ∀ r, r ∈ rs ↔ ∃ app row ing, app ∈ apps.*1 ∧ of_app portal s app row ing r.
Proof.
  revert rs s'. induction apps as [|[app status] apps IH]; intros rs s' Happs; cbn [routes_each].
  { intros [= <- <-]. split; [done|]. intros r. split; [by intros ?%not_elem_of_nil|]. by intros (? & ? & ? & ?%not_elem_of_nil & _). }
  destruct (Happs app status ltac:(by left)) as (row & Hrow & ->).
  assert (Hrest : ∀ a st, (a, st) ∈ apps → ∃ row, t_apps s !! a = Some row ∧ st = row_status row) by (intros a st H; apply Happs; by right).
  case_bool_decide as Hst.
  - intros E. destruct (IH _ _ Hrest E) as [-> H]. split; [done|]. intros r. rewrite H. split.
    + intros (a & ro & i & Ha & Ho). exists a, ro, i. split; [by right|done].
    + intros (a & ro & i & [->|Ha]%elem_of_cons & Ho); [|by exists a, ro, i]. destruct Ho as [H1 H2 _ _ _]. cbn in H1. congruence.
  - unfold eff_bind. rewrite (app_routes_spec _ _ _ _ Hrow). destruct (routes_each portal apps s) as [[rs2|e] s2] eqn:E2; [|done].
    intros [= <- <-]. destruct (IH _ _ Hrest eq_refl) as [-> H]. split; [done|]. intros r. rewrite elem_of_app, (app_routes_of_app _ _ _ _ _ Hrow Hst), H. split.
    + intros [[i Ho]|(a & ro & i & Ha & Ho)]; [exists app, row, i; split; [by left|done]|exists a, ro, i; split; [by right|done]].
    + intros (a & ro & i & [->|Ha]%elem_of_cons & Ho); [left|right; by exists a, ro, i].
      cbn in Ho. assert (ro = row) as -> by (destruct Ho; congruence). by exists i.
Qed.
Lemma routes_spec portal exposure runs s rs s' :
  routes portal exposure runs s = (Ok rs, s') →
  s' = s ∧ ∀ r, r ∈ rs ↔ (∃ app row ing, of_app portal s app row ing r) ∨ r ∈ controller_route exposure runs.
Proof.
  unfold routes, eff_bind, installed_apps, eff_get. set (apps := _ <$> btree_entries (t_apps s)).
  assert (Happs : ∀ app status, (app, status) ∈ apps ↔ ∃ row, t_apps s !! app = Some row ∧ status = row_status row).
  { intros a st. unfold apps. rewrite list_elem_of_fmap. split.
    - intros ([k row] & [= -> ->] & Hin%elem_of_btree_entries). by exists row.
    - intros (row & Hr & ->). exists (a, row). split; [done|]. by apply elem_of_btree_entries. }
  destruct (routes_each portal apps s) as [[rs1|e] s1] eqn:E; [|done].
  apply routes_each_spec in E as [-> H]; [|intros a st; apply Happs]. intros [= <- <-]. split; [done|]. intros r. rewrite elem_of_app, H.
  split; (intros [Hr|Hr]; [left|by right]).
  - destruct Hr as (a & row & i & _ & Ho). by exists a, row, i.
  - destruct Hr as (a & row & i & Ho). exists a, row, i. split; [|done]. apply list_elem_of_fmap. exists (a, row_status row). split; [done|].
    apply Happs. exists row. split; [apply Ho|done].
Qed.

(** *** Behind the portal *)

(** Does a line hand requests on? *)
Definition proxies (l : string) : bool := starts_with "reverse_proxy " (trim_start_matches TAB l).
Lemma proxies_tabs n s : proxies (tabs n s) = proxies s.
Proof. unfold proxies. assert (trim_start_matches TAB (tabs n s) = trim_start_matches TAB s) as ->; [|done]. induction n; done. Qed.
Lemma nobody_let_in r cfg n : nobody r cfg = true → Forall (λ l, proxies l = false) (render_route r cfg n).
Proof.
  intros H. unfold render_route. rewrite H. apply Forall_app. split; [destruct (cf_crowdsec cfg); repeat constructor; by rewrite proxies_tabs|].
  repeat constructor; by rewrite proxies_tabs.
Qed.
(** The app signs nobody in itself: the portal does. *)
Definition behind_portal (m : Manifest) : Prop :=
  ∃ mode callbacks, Sso mode callbacks ∈ sp_requires (mf_spec m) ∧ (mode = SsoProxyHeader ∨ mode = SsoProxyOnly).
Lemma behind_needs m : behind_portal m → needs_portal m = true.
Proof. intros (mode & cb & Hin & Hm). apply any_of_true. exists (Sso mode cb). split; [done|]. by destruct Hm as [->| ->]. Qed.

(** The directive by which the portal is asked for one of the groups: of every request, unless the
    manifest opens paths to anyone. *)
Definition gate (groups open : list string) (m : string) (n : nat) : list string :=
  [tabs n ("forward_auth " +:+ (if decide (open = []) then "" else "@gated_" +:+ m +:+ " ") +:+ "oauth2-proxy:4180 {");
   tabs (1 + n) ("uri /oauth2/auth?allowed_groups=" +:+ join "," groups)].
(** The requests it is asked of then: all but those for these paths, written plainly. *)
Definition gated (open : list string) (m : string) (n : nat) : list string :=
  [tabs n ("@gated_" +:+ m +:+ " {");
   tabs (1 + n) "not {";
   tabs (2 + n) ("path " +:+ join " " open);
   tabs (2 + n) ("not vars_regexp {http.request.uri} `" +:+ UNCLEAN_PATH +:+ "`");
   tabs (1 + n) "}";
   tabs n "}"].
(** A route's lines let nobody through but the groups', the paths opened apart. *)
Definition guarded (groups open : list string) (m : string) (n : nat) (ls : list string) : Prop :=
  if decide (groups = []) then Forall (λ l, proxies l = false) ls
  else ∃ before after, ls = before ++ gate groups open m n ++ after ∧
    Forall (λ l, proxies l = true → l = tabs (1 + n) "reverse_proxy oauth2-proxy:4180") before ∧
    (open ≠ [] → ∃ b1 b2, before = b1 ++ gated open m n ++ b2).

Lemma portal_first groups open m n :
  groups ≠ [] → ∃ before after, render_forward_auth default_portal groups open m n = before ++ gate groups open m n ++ after ∧
    Forall (λ l, proxies l = true → l = tabs (1 + n) "reverse_proxy oauth2-proxy:4180") before ∧
    (open ≠ [] → ∃ b1 b2, before = b1 ++ gated open m n ++ b2).
Proof.
  intros Hg. unfold render_forward_auth, gate. set (head := [""; _; _; _]). set (scrub := _ <$> AUTH_HEADERS).
  set (own := [""; _; tabs n "handle /oauth2/* {"; _; _]).
  set (matcher := match open with [] => [] | _ => _ end).
  assert (Hown : Forall (λ l, proxies l = true → l = tabs (1 + n) "reverse_proxy oauth2-proxy:4180") (head ++ scrub ++ own)).
  { repeat constructor; by rewrite ?proxies_tabs. }
  exists ((head ++ scrub ++ own) ++ matcher ++ [""]). eexists. split; [|split].
  - rewrite <- !app_assoc. subst matcher. destruct open; cbn [app decide]; rewrite <- ?app_assoc; cbn [app]; reflexivity.
  - apply Forall_app. split; [done|]. apply Forall_app. split; [|by repeat constructor]. subst matcher. destruct open; [constructor|].
    repeat constructor; by rewrite ?proxies_tabs.
  - intros Ho. exists ((head ++ scrub ++ own) ++ [""; tabs n "# Open to anyone, by the manifest: not through the portal."]), [""].
    subst matcher. destruct open as [|o open]; [done|]. rewrite <- !app_assoc. cbn [app]. unfold gated, write_not_open. reflexivity.
Qed.
Lemma portal_asked_first r cfg n :
  cf_forward_auth cfg = Some default_portal → rt_needs_forward_auth r = true →
  guarded (rt_allowed_groups r) (rt_open_paths r) (sanitize (rt_host r)) n (render_route r cfg n).
Proof.
  intros Hf Hn. unfold guarded. destruct (decide _) as [Hg|Hg].
  { apply nobody_let_in. unfold nobody. by rewrite Hf, Hn, Hg. }
  destruct (portal_first (rt_allowed_groups r) (rt_open_paths r) (sanitize (rt_host r)) n Hg) as (b & a & E & Hb & Hm).
  assert (Hnb : nobody r cfg = false) by (unfold nobody; rewrite Hf, Hn; by rewrite (bool_decide_eq_false_2 (_ = []))).
  unfold render_route. rewrite Hnb, Hf, Hn, E. set (cs := if cf_crowdsec cfg is Some _ then _ else _).
  exists (cs ++ b). eexists. split; [|split].
  - rewrite <- !app_assoc. reflexivity.
  - apply Forall_app. split; [|done]. subst cs. destruct (cf_crowdsec cfg); repeat constructor. by rewrite proxies_tabs.
  - intros Ho. destruct (Hm Ho) as (b1 & b2 & ->). exists (cs ++ b1), b2. by rewrite <- !app_assoc.
Qed.
Lemma config_portal decrypt root_json exposure rs runs url s cfg s' :
  config decrypt root_json exposure rs runs url s = (Ok cfg, s') →
  cf_forward_auth cfg = if any_of rt_needs_forward_auth rs then Some default_portal else None.
Proof.
  unfold config, eff_bind. destruct (tls_of decrypt root_json exposure s) as [[tls|e] s1]; [|done].
  destruct (bouncer decrypt runs url s1) as [[b|e] s2]; [|done]. by intros [= <- _].
Qed.

(** What a publication gives, when it gives something. *)
Lemma render_all_Ok decrypt root_json portal exposure controller_runs crowdsec_runs url s text rs cfg files s' :
  render_all decrypt root_json portal exposure controller_runs crowdsec_runs url s = (Ok (text, rs, cfg, files), s') →
  text = render rs cfg ∧ routes portal exposure controller_runs s = (Ok rs, s) ∧
  ∃ s2, config decrypt root_json exposure rs crowdsec_runs url s = (Ok cfg, s2).
Proof.
  unfold render_all. unfold eff_bind at 1, stored_as. destruct (routes portal exposure controller_runs s) as [[rs'|e] s1] eqn:Er; [|done]. cbn [map_err].
  destruct (routes_spec _ _ _ _ _ _ Er) as [-> _].
  unfold eff_bind at 1. destruct (config decrypt root_json exposure rs' crowdsec_runs url s) as [[cfg'|e] s2] eqn:Ec; [|done].
  unfold eff_bind at 1. match goal with |- context [match ?m with _ => _ end] => destruct m as [[own|e] s3] end; [|done].
  intros [= <- <- <- _ _]. split; [done|]. split; [done|by exists s2].
Qed.

(** C9. An app that signs nobody in itself is never served without the portal. A publication serves
    the routes of the apps installed and not failed, each with the groups its app lets in, and
    the interface's own. In the lines written for a route of an app whose manifest asks for the
    portal - proxy-only or proxy-header, whatever the store, the vault and the exposure are -
    nothing hands a request on when no group is let in; when some are, the portal is asked for
    one of those groups before anything hands a request on but to the portal's own pages - of
    every request, the paths its manifest opens to anyone excepted, and those only as they are
    written. *)
Theorem portal_or_nobody decrypt root_json portal exposure controller_runs crowdsec_runs url (s : Store) :
  match (render_all decrypt root_json portal exposure controller_runs crowdsec_runs url s).1 with
  | Ok (text, rs, cfg, _) => text = render rs cfg ∧
      (∀ r, r ∈ rs ↔ (∃ app row ing, of_app portal s app row ing r) ∨ r ∈ controller_route exposure controller_runs) ∧
      ∀ app row ing r n, of_app portal s app row ing r → behind_portal (row_manifest row) →
        guarded (default [] (portal !! app)) (ing_open_paths ing) (sanitize (rt_host r)) n (render_route r cfg n)
  | Err _ => True
  end.
Proof.
  destruct (render_all _ _ _ _ _ _ _ _) as [[[[[text rs] cfg] files]|e] s'] eqn:E; [|done]. cbn [fst].
  apply render_all_Ok in E as (-> & Hr & s2 & Hc). apply routes_spec in Hr as [_ Hr]. split; [done|]. split; [done|].
  intros app row ing r n Ho Hb%behind_needs. apply config_portal in Hc.
  assert (Hn : rt_needs_forward_auth r = true) by (by rewrite (oa_route _ _ _ _ _ _ Ho)).
  assert (Hany : any_of rt_needs_forward_auth rs = true).
  { apply any_of_true. exists r. split; [|done]. apply Hr. left. by exists app, row, ing. }
  rewrite Hany in Hc. pose proof (portal_asked_first r cfg n Hc Hn) as H.
  assert (Hg : rt_allowed_groups r = default [] (portal !! app)).
  { rewrite (oa_route _ _ _ _ _ _ Ho) in *. cbn in *. by rewrite Hn. }
  assert (Hop : rt_open_paths r = ing_open_paths ing) by (by rewrite (oa_route _ _ _ _ _ _ Ho)).
  by rewrite Hg, Hop in H.
Qed.

(** *** Clean routes, from validated manifests *)

Lemma plain_of (p : ascii → bool) s :
  (∀ c, p c = true → clean_char c = true) → str_all p s = true → clean s.
Proof. intros H Hs. apply plain_clean. eapply str_all_impl; [|exact Hs]. done. Qed.
Ltac plain_char := intros c Hc; unfold clean_char; apply negb_true_iff, bool_decide_eq_false; intros Hin; apply list_elem_of_In in Hin;
  cbn in Hin; repeat (destruct Hin as [<-|Hin]; [vm_compute in Hc; discriminate|]); done.
Lemma dns_name_clean x : dns_name x = true → clean x.
Proof. intros [_ H]%andb_true_iff. revert H. apply plain_of. plain_char. Qed.
Lemma role_id_clean id : valid_role_id id = true → clean (group_of id).
Proof.
  unfold valid_role_id. rewrite !andb_true_iff. intros H. apply clean_append; [done|].
  revert H. intros (_ & H). revert H. apply plain_of. plain_char.
Qed.
Lemma prefix_clean p : prefix_shaped p = true → clean p.
Proof.
  unfold prefix_shaped. rewrite !andb_true_iff. intros [[[_ Hs] _] Hall]. unfold starts_with in Hs. destruct p as [|c r]; [done|].
  assert (c = "/"%char) as -> by (cbn in Hs; by destruct (decide _)).
  cbn [strip_prefix] in Hall. rewrite decide_True in Hall by done. cbn [default from_option strip_prefix] in Hall.
  change (String "/" r) with ("/" +:+ r). apply clean_append; [done|]. rewrite <- (join_split "/" r).
  apply clean_join; [done|]. apply Forall_forall. intros x Hx. rewrite all_of_true in Hall. specialize (Hall x Hx).
  apply andb_true_iff in Hall as [_ Hall]. revert Hall. apply plain_of. plain_char.
Qed.
(** A path without a space is a word of one line, and what starts by a slash starts by no brace. *)
Lemma spaceless_no_block s : has_whitespace s = false → no_block false s = true.
Proof.
  assert (Hw : ∀ a : ascii, ws1 a = false → single_char a = true ∧ bool_decide (a ∈ [" "; TAB]%char) = false).
  { intros a Ha. split.
    - unfold single_char. apply negb_true_iff, bool_decide_eq_false. intros H%list_elem_of_In. cbn in H.
      repeat (destruct H as [<-|H]; [vm_compute in Ha; discriminate|]). done.
    - apply bool_decide_eq_false. intros H%list_elem_of_In. cbn in H.
      repeat (destruct H as [<-|H]; [vm_compute in Ha; discriminate|]). done. }
  induction s as [|a s IH]; [done|]. cbn [has_whitespace]. intros H.
  apply orb_false_iff in H as [[H1 _]%orb_false_iff H2]. destruct (Hw a H1) as [Ha Hb]. cbn [no_block]. rewrite Ha, Hb. by apply IH.
Qed.
Lemma path_clean p : starts_with "/" p = true → has_whitespace p = false → clean p.
Proof.
  intros Hs Hw%spaceless_no_block. destruct p as [|c r]; [done|]. unfold starts_with in Hs.
  assert (c = "/"%char) as -> by (cbn in Hs; by destruct (decide _)). exact Hw.
Qed.

Section validated.
Context (json_text : Json → string).
(** The manifests frozen have passed the validation, and name the app by a word. *)
Definition validated_apps (s : Store) : Prop :=
  ∀ app row, t_apps s !! app = Some row →
    dns_name (md_name (mf_metadata (row_manifest row))) = true ∧
    ∃ g, validate_with_guide json_text (row_manifest row) g = Ok ().
(** The groups let in are those of roles. *)
Definition role_groups (portal : gmap string (list string)) : Prop :=
  ∀ app gs g, portal !! app = Some gs → g ∈ gs → ∃ id, g = group_of id ∧ valid_role_id id = true.

Lemma validated_paths m g ing p :
  validate_with_guide json_text m g = Ok () → ing ∈ sp_ingress (mf_spec m) → p ∈ ing_paths ing →
  clean (pr_prefix p) ∧ clean (pr_companion p).
Proof.
  intros Hv Hi Hp. pose proof (validated_accepted _ _ _ Hv) as Ha. pose proof (acc_paths _ _ _ Ha ing Hi) as H.
  unfold check_paths in H. rewrite each_after_Ok in H. apply list_elem_of_split in Hp as (l1 & l2 & E).
  apply H in E. unfold check_path in E. rewrite !seq_Ok, !refuse_if_Ok in E. destruct E as (E1 & E2 & _).
  apply negb_false_iff in E1, E2. split; [by apply prefix_clean|]. apply any_of_true in E2 as (c & Hc & Ec%bool_decide_eq_true).
  rewrite <- Ec. apply dns_name_clean. by apply (accepted_companions m (acc_companions _ _ _ Ha)).
Qed.
Lemma validated_open m g ing p :
  validate_with_guide json_text m g = Ok () → ing ∈ sp_ingress (mf_spec m) → p ∈ ing_open_paths ing → clean p.
Proof.
  intros Hv Hi Hp. pose proof (validated_accepted _ _ _ Hv) as Ha.
  assert (H : check_open_path m p = Ok ()) by (apply (acc_open _ _ _ Ha), list_elem_of_bind; eauto).
  unfold check_open_path in H. apply refuse_if_Ok, negb_false_iff in H. unfold open_path_shaped in H.
  rewrite !andb_true_iff, negb_true_iff in H. destruct H as [[[H1 H2] _] _]. by apply path_clean.
Qed.
Lemma validated_auth m g ing a p :
  validate_with_guide json_text m g = Ok () → ing ∈ sp_ingress (mf_spec m) → a ∈ ing_auth_routes ing → p ∈ ar_paths a → clean p.
Proof.
  intros Hv Hi Ha Hp. pose proof (acc_auth _ _ _ (validated_accepted _ _ _ Hv) a) as H.
  specialize (H ltac:(apply list_elem_of_bind; eauto)). unfold check_auth_route in H. rewrite !seq_Ok in H.
  destruct H as (_ & H & _). rewrite each_Ok in H. specialize (H p Hp). apply refuse_if_Ok, negb_false_iff in H.
  unfold auth_path_shaped in H. rewrite !andb_true_iff, negb_true_iff in H. destruct H as [[H1 H2] _]. by apply path_clean.
Qed.
Lemma of_app_clean portal s app row ing r :
  validated_apps s → role_groups portal → of_app portal s app row ing r → clean_route r.
Proof.
  intros Hv Hp [Hrow _ Hi _ ->]. destruct (Hv _ _ Hrow) as [Hn%dns_name_clean [g Hg]]. split; cbn.
  - done.
  - destruct (needs_portal _); [|constructor]. apply Forall_forall. intros x Hx. destruct (portal !! app) as [gs|] eqn:E; [|by apply not_elem_of_nil in Hx].
    destruct (Hp _ _ _ E Hx) as (id & -> & Hid). by apply role_id_clean.
  - apply Forall_forall. intros p Hop. by eapply validated_open.
  - apply Forall_fmap, Forall_forall. intros p Hpp. destruct (validated_paths _ _ _ _ Hg Hi Hpp). cbn. split; [done|].
    repeat apply clean_append; try done. apply clean_show.
  - apply Forall_forall. intros a Ha. apply Forall_forall. intros p Hpp. by eapply validated_auth.
Qed.
End validated.

(** *** Clean settings *)

(** A visible character is in a text as it is in the text trimmed. *)
Definition visible (c : ascii) : bool := ((33 <=? byte_of c) && (byte_of c <=? 126))%N.
Lemma visible_not_ws c : visible c = true →
  ws1 c = false ∧ (∀ a, ws2 c a = false ∧ ws2 a c = false) ∧ ∀ a b, ws3 c a b = false ∧ ws3 a c b = false ∧ ws3 a b c = false.
Proof.
  unfold visible, ws1, ws2, ws3. intros [H1%N.leb_le H2%N.leb_le]%andb_true_iff.
  assert (H : ∀ n, (126 < n)%N → (byte_of c =? n)%N = false) by (intros n Hn; apply N.eqb_neq; lia).
  assert (H' : (128 <=? byte_of c)%N = false) by (apply N.leb_gt; lia).
  assert (H9 : (byte_of c <=? 13)%N = false) by (apply N.leb_gt; lia). assert (H3 : (byte_of c =? 32)%N = false) by (apply N.eqb_neq; lia).
  repeat (rewrite (H 194%N) || rewrite (H 133%N) || rewrite (H 160%N) || rewrite (H 225%N) || rewrite (H 226%N) || rewrite (H 227%N) || rewrite (H 154%N)
    || rewrite (H 128%N) || rewrite (H 129%N) || rewrite (H 168%N) || rewrite (H 169%N) || rewrite (H 175%N) || rewrite (H 159%N)); try lia.
  rewrite H9, H3, H'. rewrite !andb_false_r. split; [done|].
  split; [intros a; by rewrite ?andb_false_r|intros a b; by rewrite ?andb_false_r].
Qed.
Lemma trim_start_keeps c s : visible c = true → c ∈ chars s → c ∈ chars (trim_start s).
Proof.
  intros Hc. destruct (visible_not_ws c Hc) as (H1 & H2 & H3). remember (String.length s) as n eqn:En. revert s En.
  induction n as [n IH] using lt_wf_ind. intros [|x r] ->; [done|]. cbn [trim_start chars String.length]. cbn in IH.
  destruct (ws1 x) eqn:Ex. { intros [->|Hr]%elem_of_cons; [congruence|]. apply (IH (String.length r)); [lia|done..]. }
  destruct r as [|y r]; [done|]. cbn [chars].
  destruct (ws2 x y) eqn:Ey.
  { intros [->|[->|Hr]%elem_of_cons]%elem_of_cons; [destruct (H2 y); congruence|destruct (H2 x); congruence|].
    apply (IH (String.length r)); [cbn; lia|done..]. }
  destruct r as [|z r]; [done|]. cbn [chars].
  destruct (ws3 x y z) eqn:Ez; [|done].
  intros [->|[->|[->|Hr]%elem_of_cons]%elem_of_cons]%elem_of_cons;
    [destruct (H3 y z) as (? & _); congruence|destruct (H3 x z) as (_ & ? & _); congruence|destruct (H3 x y) as (_ & _ & ?); congruence|].
  apply (IH (String.length r)); [cbn; lia|done..].
Qed.
Lemma trim_start_rev_keeps c s : visible c = true → c ∈ chars s → c ∈ chars (trim_start_rev s).
Proof.
  intros Hc. destruct (visible_not_ws c Hc) as (H1 & H2 & H3). remember (String.length s) as n eqn:En. revert s En.
  induction n as [n IH] using lt_wf_ind. intros [|x r] ->; [done|]. cbn [trim_start_rev chars String.length]. cbn in IH.
  destruct (ws1 x) eqn:Ex. { intros [->|Hr]%elem_of_cons; [congruence|]. apply (IH (String.length r)); [lia|done..]. }
  destruct r as [|y r]; [done|]. cbn [chars].
  destruct (ws2 y x) eqn:Ey.
  { intros [->|[->|Hr]%elem_of_cons]%elem_of_cons; [destruct (H2 y); congruence|destruct (H2 x); congruence|].
    apply (IH (String.length r)); [cbn; lia|done..]. }
  destruct r as [|z r]; [done|]. cbn [chars].
  destruct (ws3 z y x) eqn:Ez; [|done].
  intros [->|[->|[->|Hr]%elem_of_cons]%elem_of_cons]%elem_of_cons;
    [destruct (H3 z y) as (_ & _ & ?); congruence|destruct (H3 z x) as (_ & ? & _); congruence|destruct (H3 y x) as (? & _); congruence|].
  apply (IH (String.length r)); [cbn; lia|done..].
Qed.
Lemma chars_rev s : chars (String.rev s) = reverse (chars s).
Proof. by rewrite rev_spec, chars_of_chars. Qed.
Lemma trim_keeps c s : visible c = true → c ∈ chars s → c ∈ chars (trim s).
Proof.
  intros Hc Hs. unfold trim, trim_end. rewrite chars_rev. apply elem_of_reverse, trim_start_rev_keeps; [done|].
  rewrite chars_rev. by apply elem_of_reverse, trim_start_keeps.
Qed.
Lemma str_all_elems p s : str_all p s = true ↔ ∀ c, c ∈ chars s → p c = true.
Proof.
  induction s as [|c s IH]; cbn; [split; [intros _ c H; by apply not_elem_of_nil in H|done]|].
  rewrite andb_true_iff, IH. setoid_rewrite elem_of_cons. naive_solver.
Qed.
(** What passes for a key, on one line, has no brace. *)
Lemma key_clean k : looks_like_key k = true → single k → clean k.
Proof.
  unfold looks_like_key. intros [_ Hk]%andb_true_iff Hs. apply plain_clean, str_all_elems. intros c Hc.
  unfold single in Hs. rewrite str_all_elems in Hs, Hk. specialize (Hs c Hc).
  assert (Hb : ∀ b, b ∈ ["{"; "}"]%char → c ≠ b).
  { intros b Hb ->. assert (Hv : visible b = true) by (apply list_elem_of_In in Hb; cbn in Hb; by repeat (destruct Hb as [<-|Hb]; [done|])).
    specialize (Hk b (trim_keeps b k Hv Hc)). apply list_elem_of_In in Hb. cbn in Hb.
    repeat (destruct Hb as [<-|Hb]; [vm_compute in Hk; discriminate|]). done. }
  unfold single_char in Hs. unfold clean_char. apply negb_true_iff, bool_decide_eq_false in Hs. apply negb_true_iff, bool_decide_eq_false.
  rewrite !not_elem_of_cons in Hs. destruct Hs as (Hn & Hr & _).
  intros [->|[->|[->|[->|Hin%not_elem_of_nil]%elem_of_cons]%elem_of_cons]%elem_of_cons]%elem_of_cons; [done|done| | |done].
  - by apply (Hb "{"%char); [left|].
  - by apply (Hb "}"%char); [right; left|].
Qed.

(** The texts an operator sets, and the vault's. *)
Record clean_settings (decrypt : option (list N → result string string)) (exposure : option Exposure) (url : option string) : Prop := {
  st_domain : ∀ e, exposure = Some e → clean (ex_domain e);
  st_email : ∀ e a, exposure = Some e → ex_acme_email e = Some a → clean a;
  st_ca : ∀ e c, exposure = Some e → ex_acme_ca e = Some c → clean c;
  st_url : ∀ u, url = Some u → clean u;
  st_vault : ∀ d ct v, decrypt = Some d → d ct = Ok v → single v }.

Section settings.
Context (decrypt : option (list N → result string string)) (root_json : string → result string (option (string * string))).
Context (Hvault : ∀ d ct v, decrypt = Some d → d ct = Ok v → single v).
Lemma vault_read_single name s v s' : vault_read decrypt name s = (Ok (Some v), s') → single v.
Proof.
  unfold vault_read, eff_bind. destruct (stored_as (secret name) s) as [[ct|e] s1]; [|done].
  destruct decrypt as [d|] eqn:Ed; [|done]. destruct ct as [ct|]; [|done]. unfold eff_of.
  destruct (d ct) as [x|e] eqn:E; [|done]. cbn. intros [= <- _]. by eapply Hvault.
Qed.
Lemma dns_credentials_single p fields s l s' :
  Forall (λ f, ∀ d, fd_default f = Some d → single d) fields →
  dns_credentials decrypt p fields s = (Ok l, s') → Forall single l.
Proof.
  intros Hf. revert s l s'. induction Hf as [|f fields Hf _ IH]; intros s l s'; cbn [dns_credentials]; [by intros [= <- _]|].
  unfold eff_bind at 1. destruct (vault_read decrypt _ s) as [[stored|e] s1] eqn:Ev; [|done].
  assert (Hrest : ∀ v, single v → (let! rest := dns_credentials decrypt p fields in eff_ret (v :: rest)) s1 = (Ok l, s') → Forall single l).
  { intros v Hv. unfold eff_bind. destruct (dns_credentials decrypt p fields s1) as [[rest|e] s3] eqn:Er; [|done]. intros [= <- _].
    constructor; [done|by eapply IH]. }
  destruct stored as [x|]; [by apply Hrest; eapply vault_read_single|]. destruct (fd_default f) as [d|]; [|done]. by apply Hrest, Hf.
Qed.
Lemma provider_fields p : p ∈ PROVIDERS → Forall (λ f, ∀ d, fd_default f = Some d → single d) (pv_fields p).
Proof.
  assert (H : Forall (λ p, Forall (λ f, if fd_default f is Some d then str_all single_char d = true else True) (pv_fields p)) PROVIDERS)
    by (repeat constructor).
  rewrite Forall_forall in H. intros Hp. eapply Forall_impl; [by apply H|]. intros f Hf d E. cbn in Hf. by rewrite E in Hf.
Qed.
Lemma acme_clean e s tls s' :
  clean (ex_domain e) → (∀ a, ex_acme_email e = Some a → clean a) → (∀ c, ex_acme_ca e = Some c → clean c) →
  acme_of decrypt e s = (Ok tls, s') →
  ∀ email w staging ca ca_root, tls = Acme email w staging ca ca_root →
    clean email ∧ (∀ c, ca = Some c → clean c) ∧
    ∀ w', w = Some w' → clean (wc_base_domain w') ∧ wc_provider w' ∈ PROVIDERS ∧ Forall single (wc_credentials w').
Proof.
  intros Hd Hm Hc. unfold acme_of. unfold eff_bind at 1.
  match goal with |- context [match ?m with _ => _ end] => destruct m as [[w0|?] s1] eqn:Ew end; [|done].
  unfold eff_bind, eff_of. destruct (ex_acme_email e) as [a|] eqn:Ea; [|done]. cbn. intros [= <- _].
  intros email w staging ca ca_root [= <- <- _ <- _]. split; [by apply Hm|]. split; [done|]. intros w' ->.
  destruct (ex_dns_provider e) as [name|]; [|done]. unfold eff_bind at 1 in Ew. unfold eff_of in Ew.
  destruct (provider name) as [p|] eqn:Ep; [|done]. cbn [ok_or] in Ew. unfold eff_bind in Ew.
  destruct (dns_credentials decrypt p (pv_fields p) s) as [[l|?] s2] eqn:El; [|done]. injection Ew as <- _. cbn.
  assert (Hp : p ∈ PROVIDERS).
  { unfold provider in Ep. apply head_Some_elem_of, elem_of_keep in Ep. apply Ep. }
  split; [done|]. split; [done|]. eapply dns_credentials_single; [by apply provider_fields|exact El].
Qed.
Lemma config_clean exposure rs runs url s cfg s' :
  clean_settings decrypt exposure url → config decrypt root_json exposure rs runs url s = (Ok cfg, s') → clean_config cfg.
Proof.
  intros Hst. unfold config, eff_bind. destruct (tls_of decrypt root_json exposure s) as [[tls|e] s1] eqn:Et; [|done].
  destruct (bouncer decrypt runs url s1) as [[b|e] s2] eqn:Eb; [|done]. intros [= <- _]. split; cbn.
  - intros fa. destruct (any_of _ _); [|done]. intros [= <-]. by split.
  - intros cs ->. unfold bouncer in Eb. destruct runs; [|done]. cbn [negb] in Eb. unfold eff_bind in Eb.
    destruct (vault_read decrypt CROWDSEC_SECRET s1) as [[[key|]|e] s3] eqn:Ek; [|done..].
    destruct (looks_like_key key) eqn:El; [|done]. injection Eb as <- _. cbn. split.
    + destruct url as [u|] eqn:Eu; [by apply (st_url _ _ _ Hst)|done].
    + apply key_clean; [done|]. by eapply vault_read_single.
  - intros email w staging ca ca_root ->. unfold tls_of in Et. destruct exposure as [e|]; [|done]. destruct (ex_certificates e).
    + eapply acme_clean; [..|exact Et|done]; [by eapply st_domain|intros; by eapply st_email|intros; by eapply st_ca].
    + destruct decrypt as [d|]; [|done]. unfold eff_bind in Et. destruct (root root_json d s) as [[?|?] ?]; done.
Qed.
End settings.

(** C10. No app opens a site of its own: whatever hosts the manifests and the installs ask for - a newline,
    a brace -, the Caddyfile's blocks are the global options, the wildcard's site when there is one,
    and one site for each host published outside it, once each; only host names are published, and
    of the routes of the installed apps and of the interface. The manifests frozen are those the
    validation passes, their app named by lowercase letters, digits and hyphens, and the groups
    are those of roles; of the settings it is asked that the exposure's domain, address and
    authority and the bouncer's URL hold no line end and no brace a word starts by, and that the
    vault's texts are each on one line. *)
Theorem caddyfile_sites json_text decrypt root_json portal exposure controller_runs crowdsec_runs url s text rs cfg files s' :
  render_all decrypt root_json portal exposure controller_runs crowdsec_runs url s = (Ok (text, rs, cfg, files), s') →
  validated_apps json_text s → role_groups portal → clean_settings decrypt exposure url →
  let published := published_routes rs in
  sites 0 (lines text) =
    Some ("" :: (match wildcard_of cfg with Some w => [join ", " (subjects w)] | None => [] end) ++
          (rt_host <$> keep (λ r, negb (covered cfg r)) published)) ∧
  NoDup (rt_host <$> published) ∧
  ∀ r, r ∈ published → is_host (rt_host r) = true ∧
    ((∃ app row ing, of_app portal s app row ing r) ∨ r ∈ controller_route exposure controller_runs).
Proof.
  intros (-> & Hr & s2 & Hc)%render_all_Ok Hv Hp Hst published. apply routes_spec in Hr as [_ Hr].
  assert (Hclean : Forall clean_route rs).
  { apply Forall_forall. intros r [(app & row & ing & Ho)|Hc']%Hr; [by eapply of_app_clean|].
    unfold controller_route in Hc'. destruct exposure, controller_runs; try by apply not_elem_of_nil in Hc'.
    apply list_elem_of_singleton in Hc' as ->. repeat constructor. }
  destruct (rendered_sites rs cfg Hclean) as (Hs & Hnd & Hall); [by eapply config_clean; [apply Hst|..]|].
  split; [exact Hs|]. split; [exact Hnd|]. intros r Hin. destruct (Hall r Hin) as [Hh Hrs]. split; [done|]. by apply Hr.
Qed.

(** ** Examples *)

(** An app behind the portal, and two installs of it: one at a name, one at a text that would
    open a site of its own; the wildcard's certificate, and a vault. *)
Definition wiki_app : Manifest :=
  {| mf_api_version := V1; mf_kind := App;
     mf_metadata := {| md_name := "wiki"; md_hlb := None; md_criticality := None; md_display_name := None; md_category := None; md_homepage := None |};
     mf_spec :=
       {| sp_image := {| img_repo := "wiki"; img_tag := "1"; img_digest := None; img_built_here := false; img_signed_by := None |};
          sp_runtime := Swarm; sp_requires := [Sso SsoProxyHeader []];
          sp_ingress := [{| ing_host := "{{ domain }}"; ing_port := 80; ing_chain := ["caddy-front"; "caddy-back"]; ing_expose := Private; ing_paths := [];
                            ing_auth_routes := [{| ar_paths := ["/login{x}"]; ar_fails_with := Some 401%N |}]; ing_open_paths := ["/public/*"] |}];
          sp_swarm := default_swarm; sp_update := default_update; sp_companions := []; sp_env := ∅; sp_shared_env := ∅;
          sp_security := default_security; sp_files := []; sp_command := []; sp_args := []; sp_process := default_process; sp_assertions := [];
          sp_access := None; sp_recovery := []; sp_jobs := []; sp_downloads := [] |} |}.
Definition forged_host : string := "x.example.org {" +:+ String NLc "root * /config}".
Definition wikis : Store :=
  let s := (upsert_app "wiki" wiki_app (Some "wiki.example.org") empty_store).2 in
  let s := (upsert_app "forger" wiki_app (Some forged_host) s).2 in
  (store_secret_if_absent "dns-cloudflare-api-token" [1%N] "dns" s).2.
Definition at_home : Exposure :=
  {| ex_domain := "example.org"; ex_certificates := AcmeCertificates; ex_acme_email := Some "me@example.org"; ex_dns_provider := Some "cloudflare";
     ex_staging := false; ex_controller_host := Some "hlb.example.net"; ex_acme_ca := None; ex_acme_ca_root := None |}.
Definition a_vault : option (list N → result string string) := Some (λ _, Ok "se}cret{").
Definition family_in : gmap string (list string) := {[ "wiki" := ["hlb-family"] ]}.
Definition publication := render_all a_vault (λ _, Ok None) family_in (Some at_home) true false None wikis.
Definition ovh : Wildcard := {| wc_provider := nth 5 PROVIDERS {| pv_name := ""; pv_module := ""; pv_fields := []; pv_positional := true |};
  wc_credentials := ["ovh-eu"; "key"; "se}cret{"; "consumer"]; wc_base_domain := "example.org" |}.
Definition wild : Config := {| cf_crowdsec := Some {| cs_api_url := CROWDSEC_URL; cs_api_key := "K7xQ2mNpR4vL8wZa" |};
  cf_forward_auth := Some default_portal; cf_tls := Acme "me@example.org" (Some ovh) false None false |}.
Definition a_wiki : Route := {| rt_host := "wiki.example.org"; rt_service := "wiki"; rt_port := 80; rt_public := false; rt_needs_forward_auth := true;
  rt_allowed_groups := ["hlb-family"]; rt_paths := [{| cp_prefix := "/ws"; cp_upstream := "wiki-ws:81"; cp_keep_prefix := false |}];
  rt_auth_routes := [{| ar_paths := ["/login"]; ar_fails_with := Some 401%N |}]; rt_open_paths := ["/public/*"] |}.
Definition a_forger : Route := new_route forged_host "forger" 80.

Lemma wikis_validated : validated_apps (λ _, "") wikis.
Proof.
  assert (Hv : validate_with_guide (λ _, "") wiki_app default_guide = Ok ()) by (by vm_compute).
  assert (H : ∀ app row, t_apps wikis !! app = Some row → row_manifest row = wiki_app).
  { intros app row. change (t_apps wikis) with
      (<["forger" := {| row_manifest := wiki_app; row_domain := Some forged_host; row_status := "installing"; row_replicas := None |}]>
       (<["wiki" := {| row_manifest := wiki_app; row_domain := Some "wiki.example.org"; row_status := "installing"; row_replicas := None |}]>
        (∅ : gmap string AppRow))).
    intros [[_ <-]|[_ [[_ <-]|[_ []%lookup_empty_Some]]%lookup_insert_Some]]%lookup_insert_Some; done. }
  intros app row Hr. rewrite (H app row Hr). split; [by vm_compute|]. by exists default_guide.
Qed.
Lemma published_as : ∃ text rs cfg files s', publication = (Ok (text, rs, cfg, files), s') ∧
  (rt_host <$> rs) = [forged_host; "wiki.example.org"; "hlb.example.net"] ∧
  (rt_host <$> published_routes rs) = ["hlb.example.net"; "wiki.example.org"] ∧
  sites 0 (lines text) = Some [""; "*.example.org, example.org"; "hlb.example.net"].
Proof.
  assert (E : match publication.1 with
    | Ok (text, rs, cfg, _) => bool_decide ((rt_host <$> rs) = [forged_host; "wiki.example.org"; "hlb.example.net"])
        && bool_decide ((rt_host <$> published_routes rs) = ["hlb.example.net"; "wiki.example.org"])
        && bool_decide (sites 0 (lines text) = Some [""; "*.example.org, example.org"; "hlb.example.net"])
    | Err _ => false end = true) by (vm_compute; reflexivity).
  destruct publication as [[[[[text rs] cfg] files]|e] s']; [|done]. cbn [fst] in E.
  rewrite !andb_true_iff, !bool_decide_eq_true in E. destruct E as [[E1 E2] E3].
  exists text, rs, cfg, files, s'. by split_and!.
Qed.
Lemma caddyfile_sites_witness :
  ∃ text rs cfg files s', publication = (Ok (text, rs, cfg, files), s') ∧ NoDup (rt_host <$> published_routes rs) ∧
    sites 0 (lines text) = Some [""; "*.example.org, example.org"; "hlb.example.net"].
Proof.
  destruct published_as as (text & rs & cfg & files & s' & E & _ & _ & Hs). exists text, rs, cfg, files, s'.
  split; [exact E|]. split; [|exact Hs].
  refine (proj1 (proj2 (caddyfile_sites (λ _, "") a_vault (λ _, Ok None) family_in (Some at_home) true false None wikis
    text rs cfg files s' E wikis_validated _ _))); clear E Hs.
  - intros app gs g Hgs Hg. unfold family_in in Hgs. apply lookup_singleton_Some in Hgs as [<- <-]. apply list_elem_of_singleton in Hg as ->. by exists "family".
  - split; try (intros ? ? [= <-]; done); try (intros ? ? [= <-] [= <-]; done); try done.
    + by intros e [= <-].
    + by intros d ct v [= <-] [= <-].
Defined.
(** What guards the wiki: the portal, of everything but what is public. *)
Lemma wiki_guarded :
  ∃ before after, render_route a_wiki wild 1 = before ++ gate ["hlb-family"] ["/public/*"] "wiki_example_org" 1 ++ after.
Proof.
  pose proof (portal_asked_first a_wiki wild 1 eq_refl eq_refl) as H. unfold guarded in H.
  destruct (decide _) as [E|_]; [discriminate E|]. destruct H as (b & a & E & _). by exists b, a.
Qed.
(** Under a wildcard, the matcher of a host can be the name another route's probes are matched by. *)
Lemma matcher_named_twice :
  let ls := render_lines [new_route "git.example.org" "gitea" 3000; new_route "probe-git.example.org" "probe" 80] wild in
  tabs 1 "@probe_git_example_org host probe-git.example.org" ∈ ls ∧
  tabs 2 ("@probe_git_example_org path " +:+ join " " PROBES) ∈ ls.
Proof. vm_compute. split; repeat (first [left; reflexivity|right]). Qed.
(** A route that is not written is recorded as served all the same. *)
Lemma unpublished_recorded :
  published_routes [a_forger; a_wiki] = [a_wiki] ∧
  recorded_as_served [a_forger; a_wiki] = [(rt_host a_forger, "forger", false); ("wiki.example.org", "wiki", false)].
Proof. split; reflexivity. Qed.
