(* ===== verification/CatalogIndex.v ===== *)
(** * A catalog source's signed index

    [crates/hlb-types/src/index.rs], [quality.rs] and [release.rs] (the range of [hlb]
    versions a manifest declares), and of [crates/hlb-catalog/src/index.rs] what signs,
    verifies and accepts an index: [Disk], files by path; [Index], the data; [Signing]. What
    builds an index is in [IndexBuild], what a catalog makes of one in [Sources].

    The signature scheme is the class [Ed25519], what reads and writes JSON the class
    [IndexText], the reading of a version range the class [Semver]. *)

From S2P Require Import Prelude RustStr Encoding Validate SelfUpdate.
Local Open Scope N_scope.

(** ** Files by path

    A directory is there when a file is under it; there are no symbolic links. A path the
    system refuses to open is one [fault] answers for. *)

Module Disk.

Abbreviation path := (list string).
Abbreviation disk := (gmap path string).

Inductive io_error := NotFound | Refused (why : string).
#[global] Instance io_error_eq_dec : EqDecision io_error.
Proof. solve_decision. Defined.

(** [Path::components], of a path written out. *)
Inductive Component := RootDir | CurDir | ParentDir | Normal (name : string).
#[global] Instance Component_eq_dec : EqDecision Component.
Proof. solve_decision. Defined.

Definition component (s : string) : option Component :=
  if decide (s = "" ∨ s = ".") then None
  else if decide (s = "..") then Some ParentDir else Some (Normal s).

Definition components (p : string) : list Component :=
  match split_char "/" p with
  | [] => []
  | first :: rest =>
      if decide (first = "" ∧ rest ≠ []) then RootDir :: omap component rest
      else if decide (first = ".") then CurDir :: omap component rest
      else omap component (first :: rest)
  end.

(** [Path::join], of paths written out. *)
Definition join_path (base rel : string) : string :=
  if starts_with "/" rel then rel
  else if str_is_empty base || ends_with "/" base then base +:+ rel
  else base +:+ "/" +:+ rel.

Definition normal (c : Component) : option string := if c is Normal n then Some n else None.

(** Where a path written out leads from a directory. *)
Definition follow (dir : path) (p : string) : path :=
  foldl (λ at_ c, match c with
    | RootDir => []
    | CurDir => at_
    | ParentDir => removelast at_
    | Normal n => at_ ++ [n]
    end) dir (components p).

(** What lies under a path, by what is left of its own. *)
Fixpoint under (dir p : path) : option path :=
  match dir, p with
  | [], _ => Some p
  | a :: dir, b :: p => if decide (a = b) then under dir p else None
  | _ :: _, [] => None
  end.

Definition is_dir (d : disk) (p : path) : bool :=
  any_of (λ q, match under p q with Some (_ :: _) => true | _ => false end) (map_to_list d).*1.
Definition is_file (d : disk) (p : path) : bool := bool_decide (is_Some (d !! p)).
Definition exists_ (d : disk) (p : path) : bool := is_file d p || is_dir d p.

(** The names in a directory, once each. *)
Definition children (d : disk) (p : path) : list string :=
  remove_dups (omap (λ q, match under p q with Some (n :: _) => Some n | _ => None end)
    (map_to_list d).*1).
(** Deeper than any file: a walk goes down no further. *)
Definition depth (d : disk) : nat := S (foldr max 0%nat (length <$> (map_to_list d).*1)).

Section faults.
Context (fault : path → option string).

(** [std::fs::read]. *)
Definition read (d : disk) (p : path) : result io_error string :=
  match fault p with
  | Some why => Err (Refused why)
  | None =>
      match d !! p with
      | Some bytes => Ok bytes
      | None => Err (if is_dir d p then Refused "Is a directory (os error 21)" else NotFound)
      end
  end.

(** [std::fs::read_to_string]. *)
Definition read_to_string (d : disk) (p : path) : result io_error string :=
  bytes ← read d p;
  ok_or (Refused "stream did not contain valid UTF-8") (from_utf8 (chars bytes)).

(** [std::fs::read_dir]: the names of a directory, in the system's order. *)
Definition read_dir (order : path → list string → list string) (d : disk) (p : path)
    : result io_error (list string) :=
  match fault p with
  | Some why => Err (Refused why)
  | None => if is_dir d p then Ok (order p (children d p)) else Err NotFound
  end.

(** [create_dir_all] of the parent and [std::fs::write]: no file on the way, no directory
    there. *)
Definition write (d : disk) (p : path) (bytes : string) : result io_error disk :=
  match fault p with
  | Some why => Err (Refused why)
  | None =>
      if any_of (λ q, match under q p with Some (_ :: _) => true | _ => false end)
           (map_to_list d).*1
      then Err (Refused "Not a directory (os error 20)")
      else if is_dir d p then Err (Refused "Is a directory (os error 21)")
      else Ok (<[p := bytes]> d)
  end.
(** [std::fs::remove_dir_all] and [std::fs::rename] of a directory, onto a path where nothing
    is. *)
Definition outside (p : path) (d : disk) : disk := filter (λ q, under p q.1 = None) d.
Definition remove_dir_all (d : disk) (p : path) : result io_error disk :=
  match fault p with
  | Some why => Err (Refused why)
  | None => if exists_ d p then Ok (outside p d) else Err NotFound
  end.
Definition moved (d : disk) (a b : path) : disk :=
  list_to_map (omap (λ '(p, c), r ← under a p; Some (b ++ r, c)) (map_to_list d)) ∪ outside a d.
Definition rename (d : disk) (a b : path) : result io_error disk :=
  match fault a with
  | Some why => Err (Refused why)
  | None =>
      if negb (exists_ d a) then Err NotFound
      else if exists_ d b then Err (Refused "Directory not empty (os error 39)")
      else Ok (moved d a b)
  end.
End faults.

Lemma elem_of_files (d : disk) p : p ∈ (map_to_list d).*1 ↔ is_Some (d !! p).
Proof.
  rewrite list_elem_of_fmap. split.
  - intros ([q b] & -> & H%elem_of_map_to_list). by eexists.
  - intros [b H]. exists (p, b). split; [done|]. by apply elem_of_map_to_list.
Qed.

Lemma under_Some dir p r : under dir p = Some r ↔ p = dir ++ r.
Proof.
  revert p. induction dir as [|a dir IH]; intros p; cbn; [naive_solver|].
  destruct p as [|b p]; [done|]. case_decide as E; [subst; rewrite IH; naive_solver|].
  split; [done|]. by intros [= -> _].
Qed.

Lemma is_dir_true d p : is_dir d p = true ↔ ∃ n r, is_Some (d !! (p ++ n :: r)).
Proof.
  unfold is_dir. rewrite any_of_true. split.
  - intros (q & Hq%elem_of_files & H). destruct (under p q) as [[|n r]|] eqn:E; [done| |done].
    apply under_Some in E as ->. eauto.
  - intros (n & r & H). exists (p ++ n :: r). split; [by apply elem_of_files|].
    by rewrite (proj2 (under_Some p _ (n :: r))).
Qed.

Lemma elem_of_children d p n : n ∈ children d p ↔ ∃ r, is_Some (d !! (p ++ n :: r)).
Proof.
  unfold children. rewrite elem_of_remove_dups, list_elem_of_omap. split.
  - intros (q & Hq%elem_of_files & H). destruct (under p q) as [[|m r]|] eqn:E; [done| |done].
    injection H as ->. apply under_Some in E as ->. eauto.
  - intros (r & H). exists (p ++ n :: r). split; [by apply elem_of_files|].
    by rewrite (proj2 (under_Some p _ (n :: r))).
Qed.

Lemma depth_gt d p : is_Some (d !! p) → (length p < depth d)%nat.
Proof.
  intros H%elem_of_files. unfold depth. apply Nat.lt_succ_r.
  induction (map_to_list d).*1 as [|q l IH]; [by apply elem_of_nil in H|].
  apply elem_of_cons in H as [->|H]; cbn; [lia|]. apply IH in H. lia.
Qed.

Lemma read_Ok fault d p b : read fault d p = Ok b ↔ fault p = None ∧ d !! p = Some b.
Proof. unfold read. destruct (fault p), (d !! p); naive_solver. Qed.

Lemma write_Ok fault d p b d' : write fault d p b = Ok d' → fault p = None ∧ d' = <[p := b]> d.
Proof. unfold write. destruct (fault p); [done|]. repeat case_match; naive_solver. Qed.

Lemma read_write fault d p b d' : write fault d p b = Ok d' → read fault d' p = Ok b.
Proof. intros [Hf ->]%write_Ok. apply read_Ok. split; [done|]. by rewrite lookup_insert_eq. Qed.

Lemma read_write_ne fault d p b d' q c :
  write fault d p b = Ok d' → p ≠ q → read fault d q = Ok c → read fault d' q = Ok c.
Proof.
  intros [_ ->]%write_Ok Hne [Hf Hq]%read_Ok. apply read_Ok. by rewrite lookup_insert_ne.
Qed.

Lemma outside_lookup (d : disk) p q c : outside p d !! q = Some c ↔ d !! q = Some c ∧ under p q = None.
Proof. unfold outside. by rewrite map_lookup_filter_Some. Qed.

Lemma exists_false d p : exists_ d p = false → ∀ r, d !! (p ++ r) = None.
Proof.
  unfold exists_, is_file. intros [Hf Hd]%orb_false_iff r. destruct r as [|n r].
  - rewrite app_nil_r. apply bool_decide_eq_false in Hf. by apply eq_None_not_Some.
  - apply eq_None_not_Some. intros H. apply not_true_iff_false in Hd. apply Hd, is_dir_true. eauto.
Qed.

Lemma moved_lookup d a b r : moved d a b !! (b ++ r) = d !! (a ++ r) ∨
  (d !! (a ++ r) = None ∧ moved d a b !! (b ++ r) = outside a d !! (b ++ r)).
Proof.
  unfold moved. set (l := omap _ _).
  assert (Hl : ∀ q c, (q, c) ∈ l ↔ ∃ r, q = b ++ r ∧ d !! (a ++ r) = Some c).
  { intros q c. unfold l. rewrite list_elem_of_omap. split.
    - intros ([p c'] & Hp%elem_of_map_to_list & H). apply bind_Some in H as (r' & Hu & [= <- <-]).
      apply under_Some in Hu as ->. eauto.
    - intros (r' & -> & H). exists (a ++ r', c). split; [by apply elem_of_map_to_list|].
      by rewrite (proj2 (under_Some a (a ++ r') r')) by done. }
  destruct ((list_to_map l : disk) !! (b ++ r)) as [c|] eqn:E.
  - left. rewrite (lookup_union_Some_l _ _ _ c) by done.
    apply elem_of_list_to_map_2, Hl in E as (r' & ->%app_inv_head & ->). done.
  - destruct (d !! (a ++ r)) as [c|] eqn:Ed.
    + exfalso. assert (Hin : (b ++ r, c) ∈ l) by (apply Hl; eauto).
      apply not_elem_of_list_to_map_2 in E. apply E. apply list_elem_of_fmap. by exists (b ++ r, c).
    + right. split; [done|]. by rewrite lookup_union_r.
Qed.

Lemma rename_Ok fault d a b d' :
  rename fault d a b = Ok d' → fault a = None ∧ d' = moved d a b ∧ (∀ r, d !! (b ++ r) = None).
Proof.
  unfold rename. destruct (fault a); [done|]. destruct (exists_ d a); [|done]. cbn.
  destruct (exists_ d b) eqn:E; [done|]. intros [= <-]. split_and!; [done..|]. by apply exists_false.
Qed.

(** What was under [a] is under [b] after, and nothing else. *)
Lemma rename_lookup fault d a b d' r : rename fault d a b = Ok d' → d' !! (b ++ r) = d !! (a ++ r).
Proof.
  intros (_ & -> & Hb)%rename_Ok. destruct (moved_lookup d a b r) as [->|[-> ->]]; [done|].
  apply eq_None_not_Some. intros [c [H _]%outside_lookup]. by rewrite Hb in H.
Qed.

End Disk.
Import Disk.

(** ** The index *)

Module Index.

(** A release: its pre-release and build parts are cleared before it is compared. *)
Record Version := { v_major : N; v_minor : N; v_patch : N }.
Definition version_cmp (v w : Version) : comparison :=
  then_with (v_major v ?= v_major w) (then_with (v_minor v ?= v_minor w) (v_patch v ?= v_patch w)).
Definition show_version (v : Version) : string :=
  show_N (v_major v) +:+ "." +:+ show_N (v_minor v) +:+ "." +:+ show_N (v_patch v).

(** The [semver] crate: a range is a list of comparators. *)
Inductive Op := Exact | Greater | GreaterEq | Less | LessEq | Tilde | Caret | Wildcard | OtherOp.
Record Comparator := { c_op : Op; c_major : N; c_minor : option N; c_patch : option N }.
Class Semver := {
  version_req : string → result string (list Comparator);
  matches : list Comparator → Version → bool }.

(** @ hlb-types/src/index.rs:50-57 [Revoked] *)
Record Revoked := { r_version : string; r_why : string }.
(** @ hlb-types/src/index.rs:59-71 [AppVersion] *)
Record AppVersion := {
  av_version : string; av_hlb : string; av_files : gmap string string; av_images : list string }.
(** @ hlb-types/src/index.rs:29-48 [Index] *)
Record Index := {
  ix_source : string; ix_counter : N; ix_expires : Z;
  ix_apps : gmap string (list AppVersion);
  ix_revoked : gmap string (list Revoked) }.

#[global] Instance Version_eq_dec : EqDecision Version.
Proof. solve_decision. Defined.
#[global] Instance Revoked_eq_dec : EqDecision Revoked.
Proof. solve_decision. Defined.
#[global] Instance AppVersion_eq_dec : EqDecision AppVersion.
Proof. solve_decision. Defined.
#[global] Instance Index_eq_dec : EqDecision Index.
Proof. solve_decision. Defined.

(** @ hlb-types/src/index.rs:15-17 [VALIDITY_SECS] *)
Definition VALIDITY_SECS : Z := 30 * 24 * 3600.
(** @ hlb-types/src/index.rs:19-21 [FILE] *)
Definition FILE : string := "index.json".
Definition SIGNATURE_FILE : string := "index.json.sig".

(** @ hlb-types/src/index.rs:23-27 [version_dir] *)
Definition version_dir (app version : string) : string := "apps/" +:+ app +:+ "/" +:+ version.

(** *** Quality *)

(** @ hlb-types/src/quality.rs:66-73 [Outcome] *)
Inductive Outcome := Passed | Failed | NotRun.
(** @ hlb-types/src/quality.rs:48-64 [Run] *)
Record Run := {
  run_version : string; run_hlb : string; run_date : string;
  run_install : Outcome; run_update : Outcome; run_backup : Outcome; run_restore : Outcome;
  run_uninstall : Outcome }.
(** @ hlb-types/src/quality.rs:37-46 [AppQuality] *)
Record AppQuality := { aq_since : string; aq_last : option Run }.
(** @ hlb-types/src/quality.rs:25-35 [Quality] *)
Record Quality := { q_source : string; q_index : N; q_apps : gmap string AppQuality }.

#[global] Instance Outcome_eq_dec : EqDecision Outcome.
Proof. solve_decision. Defined.
#[global] Instance Run_eq_dec : EqDecision Run.
Proof. solve_decision. Defined.
#[global] Instance AppQuality_eq_dec : EqDecision AppQuality.
Proof. solve_decision. Defined.
#[global] Instance Quality_eq_dec : EqDecision Quality.
Proof. solve_decision. Defined.

(** @ hlb-types/src/quality.rs:15-17 [FILE] *)
Definition QUALITY_FILE : string := "quality-v1.json".
Definition QUALITY_SIGNATURE_FILE : string := "quality-v1.json.sig".
(** @ hlb-types/src/quality.rs:21-23 [run_file] *)
Definition run_file (app : string) : string := app +:+ ".json".
(** @ hlb-types/src/quality.rs:75-86 [Run::steps] *)
Definition steps (r : Run) : list (string * Outcome) :=
  [("install", run_install r); ("update", run_update r); ("backup", run_backup r);
   ("restore", run_restore r); ("uninstall", run_uninstall r)].

(** *** Which version a release takes *)

(** @ hlb-types/src/index.rs:83-90 [Index::revocation] *)
Definition revocation (idx : Index) (app version : string) : option string :=
  l ← ix_revoked idx !! app;
  r_why <$> find_first (λ r, r_version r ==? version) l.

Section semver.
Context {semver : Semver}.

(** @ hlb-types/src/release.rs:27-30 [parse] *)
Definition parse_range (range : string) : result string (list Comparator) :=
  map_err (λ e, "hlb " +:+ quoted_str range +:+ " is not a version range (" +:+ e +:+ ") — "
    +:+ quoted_str ">=0.4.0") (version_req range).

(** @ hlb-types/src/release.rs:32-35 [accepts] *)
Definition accepts (range : string) (release : Version) : result string bool :=
  req ← parse_range range; Ok (matches req release).

(** @ hlb-types/src/release.rs:45-61 [floor] *)
Definition lower_bound (c : Comparator) : option Version :=
  let minor := default 0 (c_minor c) in
  let patch := default 0 (c_patch c) in
  match c_op c with
  | Exact | GreaterEq | Tilde | Caret | Wildcard =>
      Some {| v_major := c_major c; v_minor := minor; v_patch := patch |}
  | Greater => Some match c_minor c, c_patch c with
      | Some _, Some _ =>
          {| v_major := c_major c; v_minor := minor; v_patch := wrap_u64 (patch + 1) |}
      | Some _, None =>
          {| v_major := c_major c; v_minor := wrap_u64 (minor + 1); v_patch := 0 |}
      | _, _ => {| v_major := wrap_u64 (c_major c + 1); v_minor := 0; v_patch := 0 |}
      end
  | Less | LessEq => None
  | OtherOp => None
  end.

(** @ hlb-types/src/release.rs:37-70 [floor] *)
Definition floor (range : string) : result string Version :=
  req ← parse_range range;
  ok_or ("hlb " +:+ quoted_str range +:+
      " has no lower bound — name the oldest hlb it runs on, " +:+ quoted_str ">=0.4.0")
    (max_by version_cmp (omap lower_bound req)).

(** [accepts(…).unwrap_or(false)]. *)
Definition runs_on (v : AppVersion) (release : Version) : bool :=
  match accepts (av_hlb v) release with Ok b => b | Err _ => false end.

(** @ hlb-types/src/index.rs:74-81 [Index::newest_for] *)
Definition newest_for (idx : Index) (app : string) (release : Version) : option AppVersion :=
  versions ← ix_apps idx !! app;
  find_first (λ v, runs_on v release && (revocation idx app (av_version v) ==? None))
    (reverse versions).

(** The version of an app offered to a release is one of its versions, runs on that
    release and is not revoked, and every version after it is revoked or for another
    release; none is offered exactly when every version is one or the other. *)
Lemma newest_for_Some idx app release v :
  newest_for idx app release = Some v ↔
  ∃ before after, ix_apps idx !! app = Some (before ++ v :: after) ∧
    runs_on v release = true ∧ revocation idx app (av_version v) = None ∧
    ∀ w, w ∈ after → runs_on w release = false ∨ is_Some (revocation idx app (av_version w)).
Proof.
  assert (Hno : ∀ w, runs_on w release && (revocation idx app (av_version w) ==? None) = false ↔
    runs_on w release = false ∨ is_Some (revocation idx app (av_version w))).
  { intros w. rewrite andb_false_iff, bool_decide_eq_false, not_eq_None_Some. done. }
  unfold newest_for. rewrite bind_Some. split.
  - intros (l & Hl & (before & after & Hr & [Hv Hn]%andb_true_iff & Hb)%find_first_Some).
    exists (reverse after), (reverse before). rewrite Hl.
    split. { f_equal. by rewrite <- (reverse_involutive l), Hr, reverse_app, reverse_cons, <- app_assoc. }
    split; [done|]. apply bool_decide_eq_true in Hn. split; [done|].
    intros w Hw. rewrite elem_of_reverse in Hw. apply Hno. rewrite Forall_forall in Hb. by apply Hb.
  - intros (before & after & Hl & Hv & Hn & Ha). exists (before ++ v :: after). split; [done|].
    apply find_first_Some. exists (reverse after), (reverse before).
    split. { by rewrite reverse_app, reverse_cons, <- app_assoc. }
    split. { apply andb_true_iff. by rewrite bool_decide_eq_true. }
    apply Forall_forall. intros w Hw. rewrite elem_of_reverse in Hw. apply Hno. by apply Ha.
Qed.
End semver.

End Index.
Import Index.

(** ** Signing and verifying *)

Module Signing.

(** The errors of a catalog, and those of an index.
    @ hlb-catalog/src/lib.rs:15-65 [Error] *)
Inductive CatError :=
| CNotFound (dir : path)
| CIo (p : path) (source : io_error)
| CParse (p : path) (source : Validate.Error)
| NameMismatch (p : path) (declared dir : string)
| UnknownApp (app : string)
| SetAside (app why : string)
| SourceName (name : string)
| SourceTaken (name : string)
| Reserved
| PlatformInApps (app : string).

(** @ hlb-catalog/src/index.rs:16-120 [Error] *)
Inductive Error :=
| Io (p : path) (source : io_error)
| Json (p : path) (source : string)
| Catalog (e : CatError)
| Replayed (seen counter : N)
| Unreadable (app why : string)
| NoRange (app : string)
| UnknownRevocation (file : path) (app version : string)
| Yaml (p : path) (source : string)
| OutNotEmpty (dir : path)
| WrongSource (expected found : string)
| NotRising (published counter : N)
| Expired (ago : Z)
| TooLong (ahead : Z)
| BadKey (key : string)
| BadSignature
| FileChanged (p : string)
| PathEscapes (p : string)
| QualityStale (file : string) (quality counter : N)
| QualityUnknownApp (file app : string)
| QualityBadSignature
| BadDate (p : path) (date : string).

(** The [ed25519_dalek] crate: what a seed signs, the key it signs for, and what that key
    accepts. *)
Class Ed25519 := {
  Key : Type;
  key_from_bytes : list N → option Key;
  ed_verify : Key → list N → list N → bool;
  ed_sign : list N → list N → list N;
  verifying_key : list N → list N }.
Class Ed25519Laws {ed : Ed25519} := {
  sign_length seed m : length (ed_sign seed m) = 64%nat ∧ bytes_ok (ed_sign seed m);
  public_length seed : length (verifying_key seed) = 32%nat ∧ bytes_ok (verifying_key seed);
  sign_verifies seed : ∃ key, key_from_bytes (verifying_key seed) = Some key ∧
    ∀ m, ed_verify key m (ed_sign seed m) = true }.

(** [serde_json], at the types it reads and writes. *)
Class IndexText := {
  index_parse : string → result string Index;
  index_print : Index → result string string;
  quality_parse : string → result string Quality;
  quality_print : Quality → result string string;
  run_parse : string → result string Run }.

(** @ hlb-catalog/src/index.rs:742-744 [hex] *)
Definition hex (bytes : list N) : string := of_chars (bytes ≫= hex_byte).

(** @ hlb-catalog/src/index.rs:746-754 [unhex] *)
Definition unhex (s : string) : option (list N) :=
  if negb (String.length s `mod` 2 =? 0)%nat || negb (str_all (λ c, byte_of c <? 128) s) then None
  else Signature.hex_pairs s.

(** What of an index names: the files' paths written out, with their digests.
    @ hlb-catalog/src/index.rs:660-668 [contained] *)
Definition contained (dir : path) (base rel : string) : option path :=
  let cs := components (join_path base rel) in
  names ← mapM normal cs; Some (dir ++ names).

(** @ hlb-catalog/src/index.rs:490-497 [is_day] *)
Definition is_day (s : string) : bool :=
  (String.length s =? 10)%nat &&
  all_of (λ '(i, c), if bool_decide (i = 4%nat ∨ i = 7%nat) then c ==? "-"%char else is_digit c)
    (imap pair (chars s)).

(** @ hlb-catalog/src/index.rs:560-577 [files] *)
Definition files (idx : Index) : result Error (list (string * string)) :=
  mapM (λ '(base, rel, digest),
    match contained [] base rel with
    | None => Err (PathEscapes (base +:+ "/" +:+ rel))
    | Some _ => Ok (base +:+ "/" +:+ rel, digest)
    end)
  ('(app, versions) ← btree_entries (ix_apps idx);
   v ← versions;
   '(rel, digest) ← btree_entries (av_files v);
   [(version_dir app (av_version v), rel, digest)]).

(** @ hlb-catalog/src/index.rs:607-615 [current] *)
Definition current (idx : Index) (now : Z) : result Error () :=
  if (ix_expires idx <=? now)%Z then Err (Expired (wrap_i64 (now - ix_expires idx))) else Ok ().

(** @ hlb-catalog/src/index.rs:341-364 [held_to] *)
Definition held_to (q : Quality) (idx : Index) : result Error () :=
  if decide (q_source q ≠ ix_source idx) then Err (WrongSource (ix_source idx) (q_source q))
  else if decide (q_index q ≠ ix_counter idx)
  then Err (QualityStale QUALITY_FILE (q_index q) (ix_counter idx))
  else match find_first (λ a, bool_decide (ix_apps idx !! a = None)) (btree_keys (q_apps q)) with
       | Some app => Err (QualityUnknownApp QUALITY_FILE app)
       | None => Ok ()
       end.

Section signing.
Context (fault : path → option string) {ed : Ed25519} {txt : IndexText}.

(** @ hlb-catalog/src/index.rs:626-631 [parse] *)
Definition parse (bytes : string) (p : path) : result Error Index :=
  map_err (Json p) (index_parse bytes).

(** @ hlb-catalog/src/index.rs:617-624 [read] *)
Definition read_index (p : path) (d : disk) : result Error Index :=
  bytes ← map_err (Io p) (read fault d p); parse bytes p.

(** @ hlb-catalog/src/index.rs:633-638 [parse_key] *)
Definition parse_key (key : string) : result Error Key :=
  ok_or (BadKey key)
    (b ← unhex (trim key); if decide (length b = 32%nat) then key_from_bytes b else None).

(** Sixty-four bytes written in hexadecimal.
    @ hlb-catalog/src/index.rs:545-548 [signed] *)
Definition parse_signature (sig : string) : option (list N) :=
  b ← unhex (trim sig); if decide (length b = 64%nat) then Some b else None.

(** @ hlb-catalog/src/index.rs:543-558 [signed] *)
Definition signed (bytes sig source key : string) (p : path) : result Error Index :=
  key ← parse_key key;
  sig ← ok_or BadSignature (parse_signature sig);
  if negb (ed_verify key (bytes_of bytes) sig) then Err BadSignature
  else
    idx ← parse bytes p;
    if decide (ix_source idx ≠ source) then Err (WrongSource source (ix_source idx)) else Ok idx.

(** @ hlb-catalog/src/index.rs:523-541 [accept] *)
Definition accept (bytes sig source key : string) (seen : option N) : result Error Index :=
  idx ← signed bytes sig source key [FILE];
  match seen with
  | Some seen => if ix_counter idx <? seen then Err (Replayed seen (ix_counter idx)) else Ok idx
  | None => Ok idx
  end.

(** @ hlb-catalog/src/index.rs:383-398 [accept_quality] *)
Definition accept_quality (bytes sig : string) (idx : Index) (key : string)
    : result Error Quality :=
  key ← parse_key key;
  sig ← ok_or QualityBadSignature (parse_signature sig);
  if negb (ed_verify key (bytes_of bytes) sig) then Err QualityBadSignature
  else
    q ← map_err (Json [QUALITY_FILE]) (quality_parse bytes);
    _ ← held_to q idx;
    Ok q.

(** @ hlb-catalog/src/index.rs:366-381 [quality] *)
Definition quality (dir : path) (idx : Index) (key : string) (d : disk)
    : result Error (option Quality) :=
  match read fault d (dir ++ [QUALITY_FILE]) with
  | Err NotFound => Ok None
  | Err e => Err (Io (dir ++ [QUALITY_FILE]) e)
  | Ok bytes =>
      sig ← map_err (Io (dir ++ [QUALITY_SIGNATURE_FILE]))
        (read_to_string fault d (dir ++ [QUALITY_SIGNATURE_FILE]));
      Some <$> accept_quality bytes sig idx key
  end.

(** One file of a version against its digest.
    @ hlb-catalog/src/index.rs:646-653 [check_files] *)
Definition check_file (d : disk) (dir : path) (base : string) (f : string * string)
    : result Error () :=
  let '(rel, digest) := f in
  let shown := base +:+ "/" +:+ rel in
  p ← ok_or (PathEscapes shown) (contained dir base rel);
  bytes ← map_err (Io p) (read fault d p);
  if decide (sha256_hex (bytes_of bytes) ≠ digest) then Err (FileChanged shown) else Ok ().

(** @ hlb-catalog/src/index.rs:640-658 [check_files] *)
Definition check_files (idx : Index) (dir : path) (d : disk) : result Error () :=
  each (λ '(app, versions),
    each (λ v, each (check_file d dir (version_dir app (av_version v))) (btree_entries (av_files v)))
      versions) (btree_entries (ix_apps idx)).

(** @ hlb-catalog/src/index.rs:504-521 [verify] *)
Definition verify (dir : path) (source key : string) (d : disk) : result Error Index :=
  bytes ← map_err (Io (dir ++ [FILE])) (read fault d (dir ++ [FILE]));
  sig ← map_err (Io (dir ++ [SIGNATURE_FILE])) (read_to_string fault d (dir ++ [SIGNATURE_FILE]));
  idx ← signed bytes sig source key (dir ++ [FILE]);
  _ ← check_files idx dir d;
  Ok idx.

(** @ hlb-catalog/src/index.rs:579-582 [holds] *)
Definition holds (dir : path) (rel digest : string) (d : disk) : bool :=
  match read fault d (follow dir rel) with
  | Ok b => sha256_hex (bytes_of b) ==? digest
  | Err _ => false
  end.

(** @ hlb-catalog/src/index.rs:499-502 [public_key] *)
Definition public_key (seed : list N) : string := hex (verifying_key seed).

(** @ hlb-catalog/src/index.rs:715-724 [write] *)
Definition write_file (p : path) (bytes : string) : eff disk Error () := λ d,
  match write fault d p bytes with
  | Ok d' => (Ok (), d')
  | Err e => (Err (Io p e), d)
  end.
Definition on_disk {A} (f : disk → result Error A) : eff disk Error A := λ d, (f d, d).

(** The counter above the published index's, for the same source.
    @ hlb-catalog/src/index.rs:284-297 [sign] *)
Definition rises (idx : Index) (published : option Index) : result Error () :=
  match published with
  | None => Ok ()
  | Some p =>
      if decide (ix_source p ≠ ix_source idx) then Err (WrongSource (ix_source p) (ix_source idx))
      else if ix_counter idx <=? ix_counter p then Err (NotRising (ix_counter p) (ix_counter idx))
      else Ok ()
  end.

(** The quality file beside an index, held to it before either is signed.
    @ hlb-catalog/src/index.rs:308-325 [sign] *)
Definition results_to_sign (dir : path) (idx : Index) (d : disk) : result Error (option string) :=
  match read fault d (dir ++ [QUALITY_FILE]) with
  | Ok q =>
      parsed ← map_err (Json (dir ++ [QUALITY_FILE])) (quality_parse q);
      _ ← held_to parsed idx;
      Ok (Some q)
  | Err NotFound => Ok None
  | Err e => Err (Io (dir ++ [QUALITY_FILE]) e)
  end.

Definition newline (s : string) : string := s +:+ String "010" "".
(** A file's detached signature, as written beside it.
    @ hlb-catalog/src/index.rs:326-337 [sign] *)
Definition signature_text (seed : list N) (bytes : string) : string :=
  newline (hex (ed_sign seed (bytes_of bytes))).

(** @ hlb-catalog/src/index.rs:270-339 [sign] *)
Definition sign (dir : path) (seed : list N) (published : option Index) (now : Z)
    : eff disk Error Index :=
  let! bytes := on_disk (λ d, map_err (Io (dir ++ [FILE])) (read fault d (dir ++ [FILE]))) in
  let! idx := eff_of (parse bytes (dir ++ [FILE])) in
  eff_of (rises idx published) ;;!
  eff_of (current idx now) ;;!
  let ahead := wrap_i64 (ix_expires idx - now) in
  (if (VALIDITY_SECS + 3600 <? ahead)%Z then eff_fail (TooLong ahead) else eff_ret ()) ;;!
  on_disk (check_files idx dir) ;;!
  let! results := on_disk (results_to_sign dir idx) in
  write_file (dir ++ [SIGNATURE_FILE]) (signature_text seed bytes) ;;!
  match results with
  | Some q => write_file (dir ++ [QUALITY_SIGNATURE_FILE]) (signature_text seed q)
  | None => eff_ret ()
  end ;;!
  eff_ret idx.

(** [Path::with_extension], of a path with a name. *)
Definition with_extension (p : path) (ext : string) : path :=
  match last p with
  | Some n =>
      let stem := match rsplit_once "." n with
                  | Some (a, _) => if str_is_empty a then n else a
                  | None => n end in
      removelast p ++ [stem +:+ "." +:+ ext]
  | None => p
  end.

Definition change (p : path) (f : disk → result io_error disk) : eff disk Error () := λ d,
  match f d with Ok d' => (Ok (), d') | Err e => (Err (Io p e), d) end.

(** @ hlb-catalog/src/index.rs:584-605 [swap_in] *)
Definition swap_in (staged cache : path) (source key : string) : eff disk Error Index :=
  let! idx := on_disk (verify staged source key) in
  on_disk (quality staged idx key) ;;!
  let old := with_extension cache "old" in
  let! there := eff_get (λ d, exists_ d old) in
  eff_when there (change old (λ d, remove_dir_all fault d old)) ;;!
  let! there := eff_get (λ d, exists_ d cache) in
  eff_when there (change cache (λ d, rename fault d cache old)) ;;!
  change staged (λ d, rename fault d staged cache) ;;!
  let! there := eff_get (λ d, exists_ d old) in
  eff_when there (change old (λ d, remove_dir_all fault d old)) ;;!
  eff_ret idx.

End signing.
(** ** Laws *)

(** *** Hexadecimal *)

Lemma hex_pair_byte b : b < 256 →
  Signature.hex_pair (Encoding.hex_digit (N.shiftr b 4)) (Encoding.hex_digit (N.land b 15)) = Some b.
Proof.
  intros Hb. set (f := λ b, bool_decide (Signature.hex_pair (Encoding.hex_digit (N.shiftr b 4))
    (Encoding.hex_digit (N.land b 15)) = Some b)).
  assert (f b = true) as H%bool_decide_eq_true by (apply (below_forallb 256 f); [vm_compute; reflexivity|lia]).
  exact H.
Qed.

Lemma hex_cons b l : hex (b :: l) =
  String (Encoding.hex_digit (N.shiftr b 4)) (String (Encoding.hex_digit (N.land b 15)) (hex l)).
Proof. reflexivity. Qed.

Lemma hex_pairs_hex l : bytes_ok l → Signature.hex_pairs (hex l) = Some l.
Proof.
  induction 1 as [|b l Hb _ IH]; [done|]. rewrite hex_cons. cbn [Signature.hex_pairs].
  by rewrite hex_pair_byte, IH.
Qed.

Lemma hex_char_ok n : n < 16 → is_alnum (Encoding.hex_digit n) = true ∧ is_graph (Encoding.hex_digit n) = true ∧
  byte_of (Encoding.hex_digit n) < 128.
Proof.
  intros Hn. set (f := λ n, is_alnum (Encoding.hex_digit n) && is_graph (Encoding.hex_digit n) &&
    (byte_of (Encoding.hex_digit n) <? 128)).
  assert (f n = true) as [[H1 H2]%andb_true_iff H3%N.ltb_lt]%andb_true_iff
    by (apply (below_forallb 16 f); [vm_compute; reflexivity|lia]). done.
Qed.

Lemma hex_all (p : ascii → bool) l :
  (∀ n, n < 16 → p (Encoding.hex_digit n) = true) → bytes_ok l → str_all p (hex l) = true.
Proof.
  intros Hp. induction 1 as [|b l Hb _ IH]; [done|]. rewrite hex_cons. cbn [str_all].
  rewrite !Hp; [exact IH| |].
  - change 15 with (N.ones 4). rewrite N.land_ones. by apply N.mod_lt.
  - rewrite N.shiftr_div_pow2. by apply N.Div0.div_lt_upper_bound.
Qed.

Lemma hex_length l : String.length (hex l) = (2 * length l)%nat.
Proof.
  induction l as [|b l IH]; [done|]. rewrite hex_cons. cbn [String.length length]. lia.
Qed.

Lemma unhex_hex l : bytes_ok l → unhex (hex l) = Some l.
Proof.
  intros H. unfold unhex. rewrite hex_length, hex_all by (done || (intros; apply N.ltb_lt; by apply hex_char_ok)).
  replace (2 * length l)%nat with (length l * 2)%nat by lia.
  rewrite Nat.Div0.mod_mul. cbn. by apply hex_pairs_hex.
Qed.

Lemma str_all_last p s c r : str_all p s = true → s = r +:+ String c "" → p c = true.
Proof. intros H ->. rewrite str_all_append in H. apply andb_true_iff in H as [_ H]. cbn in H. by rewrite andb_true_r in H. Qed.

Lemma trim_graph_str s : str_all is_graph s = true → trim s = s.
Proof.
  intros H. apply trim_graph.
  - intros c r ->. by apply str_all_head in H.
  - intros c r E. by eapply str_all_last.
Qed.

Lemma trim_newline s : str_all is_graph s = true → trim (newline s) = s.
Proof.
  intros H. destruct s as [|c r]; [done|]. unfold trim, newline. rewrite append_cons, trim_start_graph by (by apply str_all_head in H).
  unfold trim_end. rewrite <- append_cons, rev_append.
  change (trim_start_rev (String.rev (String "010" "") +:+ String.rev (String c r))) with (trim_start_rev (String.rev (String c r))).
  assert (trim_start (String c r) = String c r) as E by (apply trim_start_graph; by apply str_all_head in H).
  pose proof (trim_graph_str (String c r) H) as Ht. unfold trim in Ht. by rewrite E in Ht.
Qed.

Lemma unhex_line l : bytes_ok l → unhex (trim (newline (hex l))) = Some l ∧ unhex (trim (hex l)) = Some l.
Proof.
  intros H. assert (str_all is_graph (hex l) = true) as Hg by (apply hex_all; [intros; by apply hex_char_ok|done]).
  by rewrite trim_newline, trim_graph_str, unhex_hex.
Qed.

Lemma utf8_line l : bytes_ok l → utf8 (newline (hex l)).
Proof.
  intros H. apply utf8_append; apply utf8_ascii; [|done].
  apply hex_all; [|done]. intros n Hn. apply N.ltb_lt. by apply hex_char_ok.
Qed.

(** *** What a path of an index names *)

Lemma normal_list l names : mapM normal l = Some names → l = Normal <$> names.
Proof.
  intros H%mapM_Some. induction H as [|c n l names Hc _ ->]; [done|]. by destruct c; simplify_eq/=.
Qed.

(** A name in a path that stays inside its directory: neither empty, [.] nor [..], and no
    separator. *)
Definition plain (n : string) : Prop := n ≠ "" ∧ n ≠ "." ∧ n ≠ ".." ∧ contains_char "/" n = false.

Lemma split_char_plain c s : Forall (λ x, contains_char c x = false) (split_char c s).
Proof.
  unfold split_char. induction s as [|d s IH]; cbn; [by constructor|].
  destruct (bool_decide (d = c)) eqn:E; [by constructor|].
  destruct (split_by _ s) as [|x l] eqn:El; inversion IH; subst; constructor; try done.
  - cbn. by rewrite E.
  - unfold contains_char in *. cbn. by rewrite E.
Qed.

Lemma components_plain p n : Normal n ∈ components p → plain n.
Proof.
  intros H. assert (∃ x, x ∈ split_char "/" p ∧ component x = Some (Normal n)) as (x & Hx & Hc).
  { unfold components in H. destruct (split_char "/" p) as [|x l] eqn:E; [by apply elem_of_nil in H|].
    assert (Hl : Normal n ∈ omap component (x :: l) → ∃ y, y ∈ x :: l ∧ component y = Some (Normal n))
      by (intros (y & Hy)%list_elem_of_omap; eauto).
    assert (Hl' : Normal n ∈ omap component l → ∃ y, y ∈ x :: l ∧ component y = Some (Normal n))
      by (intros (y & Hy & Hc)%list_elem_of_omap; exists y; split; [by right|done]).
    case_decide; [apply elem_of_cons in H as [[=]|H]; by apply Hl'|].
    case_decide; [apply elem_of_cons in H as [[=]|H]; by apply Hl'|]. by apply Hl. }
  unfold component in Hc. case_decide as H1; [done|]. case_decide as H2; [done|]. simplify_eq.
  pose proof (split_char_plain "/" p) as Hall. rewrite Forall_forall in Hall. specialize (Hall _ Hx).
  unfold plain. tauto.
Qed.

Lemma contained_Some dir base rel p :
  contained dir base rel = Some p →
  ∃ names, p = dir ++ names ∧ Forall plain names ∧ components (join_path base rel) = Normal <$> names.
Proof.
  unfold contained. intros H. apply bind_Some in H as (names & Hn%normal_list & [= <-]).
  exists names. split; [done|]. split; [|done]. apply Forall_forall. intros n Hin.
  apply (components_plain (join_path base rel)). rewrite Hn. by apply list_elem_of_fmap_2.
Qed.

Lemma contained_again dir dir' base rel names :
  contained dir base rel = Some (dir ++ names) → contained dir' base rel = Some (dir' ++ names).
Proof.
  unfold contained. intros H. apply bind_Some in H as (ns & Hn & [= ?%app_inv_head]). subst.
  by rewrite Hn.
Qed.

Lemma split_char_apps s : ∃ l, l ≠ [] ∧ split_char "/" ("apps/" +:+ s) = "apps" :: l.
Proof.
  change ("apps/" +:+ s) with ("apps" +:+ String "/" s).
  rewrite split_char_append, split_char_one by done. exists (split_char "/" s). split; [apply split_char_ne|done].
Qed.

Lemma contained_apps dir app version rel p :
  contained dir (version_dir app version) rel = Some p → ∃ r, p = dir ++ "apps" :: r.
Proof.
  intros (names & -> & _ & Hc)%contained_Some. unfold join_path in Hc.
  destruct (starts_with "/" rel) eqn:Hs.
  { apply starts_with_true in Hs as [r ->]. change ("/" +:+ r) with ("" +:+ String "/" r) in Hc.
    unfold components in Hc. rewrite split_char_append, split_char_one in Hc by done.
    destruct (split_char "/" r) eqn:E; [by apply split_char_ne in E|].
    destruct names; discriminate Hc. }
  assert (∃ s, join_path (version_dir app version) rel = "apps/" +:+ s) as [s Es].
  { unfold join_path, version_dir. rewrite Hs. destruct (_ || _); rewrite !append_assoc; eauto. }
  unfold join_path in Es. rewrite Hs in Es. rewrite Es in Hc.
  destruct (split_char_apps s) as (l & Hl & E). unfold components in Hc. rewrite E, decide_False in Hc by (by intros []). cbn in Hc.
  destruct names as [|n names]; [done|]. injection Hc as <- _. by exists names.
Qed.

Lemma apps_apart (dir r : path) name : name ≠ "apps" → dir ++ "apps" :: r ≠ dir ++ [name].
Proof. intros H E%app_inv_head. congruence. Qed.

(** *** Checked files *)

Section checked.
Context (fault : path → option string) {ed : Ed25519} {txt : IndexText}.

(** The file of [rel] of a version, read where the index says, has that digest. *)
Definition held (d : disk) (dir : path) (app version rel digest : string) : Prop :=
  ∃ p b, contained dir (version_dir app version) rel = Some p ∧ read fault d p = Ok b ∧
    sha256_hex (bytes_of b) = digest.

(** Every file of every version. *)
Definition all_held (idx : Index) (d : disk) (dir : path) : Prop :=
  ∀ app versions v rel digest, ix_apps idx !! app = Some versions → v ∈ versions →
    av_files v !! rel = Some digest → held d dir app (av_version v) rel digest.

Lemma check_file_Ok d dir app version rel digest u :
  check_file fault d dir (version_dir app version) (rel, digest) = Ok u ↔ held d dir app version rel digest.
Proof.
  unfold check_file, held. split.
  - rewrite result_bind_Ok. intros (p & Hp%ok_or_Ok & H). apply result_bind_Ok in H as (b & Hb & H).
    destruct (read fault d p) eqn:E; [|done]. injection Hb as ->.
    case_decide as Hd; [done|]. eauto.
  - intros (p & b & Hp & Hr & Hd). rewrite Hp. cbn. rewrite Hr. cbn. rewrite decide_False by auto. by destruct u.
Qed.

Lemma check_files_Ok idx dir d u : check_files fault idx dir d = Ok u ↔ all_held idx d dir.
Proof.
  unfold check_files. rewrite each_Ok. split.
  - intros H app vs v rel digest Ha Hv Hf.
    specialize (H (app, vs) ltac:(by apply elem_of_btree_entries)). cbv beta iota in H.
    rewrite each_Ok in H. specialize (H v Hv). rewrite each_Ok in H. eapply check_file_Ok, H. by apply elem_of_btree_entries.
  - intros H [app vs] Ha%elem_of_btree_entries. apply each_Ok. intros v Hv. apply each_Ok.
    intros [rel digest] Hf%elem_of_btree_entries. by apply check_file_Ok, (H app vs).
Qed.

Lemma held_write d dir app version rel digest p bytes d' :
  write fault d p bytes = Ok d' → contained dir (version_dir app version) rel ≠ Some p →
  held d dir app version rel digest → held d' dir app version rel digest.
Proof.
  intros Hw Hne (q & b & Hq & Hr & Hd). exists q, b. split_and!; [done| |done].
  eapply read_write_ne; [done| |done]. congruence.
Qed.

Lemma held_elsewhere idx d dir name bytes d' :
  write fault d (dir ++ [name]) bytes = Ok d' → name ≠ "apps" → all_held idx d dir → all_held idx d' dir.
Proof.
  intros Hw Hn H app vs v rel digest Ha Hv Hf. eapply held_write; [done| |by eapply H].
  intros (r & E)%contained_apps. by apply (apps_apart dir r name Hn).
Qed.

Lemma write_file_Ok p bytes d u d' : write_file fault p bytes d = (Ok u, d') ↔ write fault d p bytes = Ok d'.
Proof. unfold write_file. destruct (write _ _ _ _), u; naive_solver. Qed.

Lemma parse_key_public {laws : Ed25519Laws} seed : ∃ key, parse_key (public_key seed) = Ok key ∧
  ∀ m, ed_verify key m (ed_sign seed m) = true.
Proof.
  destruct (sign_verifies seed) as (key & Hk & Hv). exists key. split; [|done].
  destruct (public_length seed) as [Hl Hb]. unfold parse_key, public_key.
  rewrite (proj2 (unhex_line _ Hb)). cbn. by rewrite decide_True, Hk.
Qed.

Lemma parse_signature_text {laws : Ed25519Laws} seed bytes :
  parse_signature (signature_text seed bytes) = Some (ed_sign seed (bytes_of bytes)).
Proof.
  destruct (sign_length seed (bytes_of bytes)) as [Hl Hb]. unfold parse_signature, signature_text.
  rewrite (proj1 (unhex_line _ Hb)). cbn. by rewrite decide_True.
Qed.

Lemma read_signature {laws : Ed25519Laws} d p seed bytes d' :
  write fault d p (signature_text seed bytes) = Ok d' → read_to_string fault d' p = Ok (signature_text seed bytes).
Proof.
  intros H%read_write. unfold read_to_string. rewrite H. unfold_bind. unfold signature_text.
  destruct (sign_length seed (bytes_of bytes)) as [_ Hb]. by rewrite (from_utf8_exact _ (utf8_line _ Hb)).
Qed.

Lemma sign_Ok dir seed published now d idx d' :
  sign fault dir seed published now d = (Ok idx, d') →
  ∃ bytes results d1,
    read fault d (dir ++ [FILE]) = Ok bytes ∧ index_parse bytes = Ok idx ∧
    rises idx published = Ok () ∧ current idx now = Ok () ∧ all_held idx d dir ∧
    (wrap_i64 (ix_expires idx - now) ≤ VALIDITY_SECS + 3600)%Z ∧
    results_to_sign fault dir idx d = Ok results ∧
    write fault d (dir ++ [SIGNATURE_FILE]) (signature_text seed bytes) = Ok d1 ∧
    match results with
    | Some q => write fault d1 (dir ++ [QUALITY_SIGNATURE_FILE]) (signature_text seed q) = Ok d'
    | None => d' = d1
    end.
Proof.
  unfold sign, eff_bind, on_disk, eff_of, eff_ret, eff_fail, parse.
  destruct (read fault d (dir ++ [FILE])) as [bytes|] eqn:Hr; cbn; [|done].
  destruct (index_parse bytes) as [i|] eqn:Hp; cbn; [|done].
  destruct (rises i published) as [[]|] eqn:Hi; [|done].
  destruct (current i now) as [[]|] eqn:Hc; [|done].
  destruct (Z.ltb_spec (VALIDITY_SECS + 3600) (wrap_i64 (ix_expires i - now))) as [|Ha]; [done|].
  destruct (check_files fault i dir d) as [[]|] eqn:Hf; [|done].
  destruct (results_to_sign fault dir i d) as [q|] eqn:Hq; [|done].
  destruct (write_file fault _ _ d) as [[u|] d1] eqn:Hw; [|done]. apply write_file_Ok in Hw.
  apply check_files_Ok in Hf. intros H. exists bytes, q, d1.
  destruct q as [q|].
  - destruct (write_file fault _ _ d1) as [[u2|] d2] eqn:Hw2; [|done]. apply write_file_Ok in Hw2.
    by injection H as <- <-.
  - by injection H as <- <-.
Qed.

Lemma results_to_sign_Ok dir idx d q :
  results_to_sign fault dir idx d = Ok q →
  match q with
  | Some text => ∃ parsed, read fault d (dir ++ [QUALITY_FILE]) = Ok text ∧ quality_parse text = Ok parsed ∧
      held_to parsed idx = Ok ()
  | None => read fault d (dir ++ [QUALITY_FILE]) = Err NotFound
  end.
Proof.
  unfold results_to_sign. destruct (read _ _ _) as [text|[|]]; [|intros; simplify_eq; done|done].
  rewrite result_bind_Ok. intros (parsed & Hp & H). apply result_bind_Ok in H as ([] & Hh & [= <-]).
  destruct (quality_parse text) eqn:E; [|done]. injection Hp as ->. eauto.
Qed.

Lemma name_ne (dir : path) a b : a ≠ b → dir ++ [a] ≠ dir ++ [b].
Proof. intros H E%app_inv_head. congruence. Qed.

Lemma read_missing d p bytes d' q : write fault d p bytes = Ok d' → p ≠ q → (∀ r, p ≠ q ++ r) →
  read fault d q = Err NotFound → read fault d' q = Err NotFound.
Proof.
  intros [_ ->]%write_Ok Hne Hr. unfold read. destruct (fault q); [done|]. rewrite lookup_insert_ne by done.
  destruct (d !! q); [done|]. destruct (is_dir d q) eqn:E; [done|].
  destruct (is_dir (<[p:=bytes]> d) q) eqn:E2; [|done]. exfalso.
  apply not_true_iff_false in E. apply E. apply is_dir_true in E2 as (n & r & [c H]). apply is_dir_true.
  rewrite lookup_insert_ne in H by apply Hr. eauto.
Qed.

(** C12. What the owner signs is what a house reads: once [sign] succeeds, the directory it
    leaves verifies under the seed's public key, for the index's own source, as that very
    index, and its quality file, when there is one, as the one held to it - none being read
    when there is none; the index is not out of date, its counter is above the published
    one's, and it stays valid a month and an hour at most. *)
Theorem signed_then_verified {laws : Ed25519Laws} dir seed published now d idx d' :
  sign fault dir seed published now d = (Ok idx, d') →
  verify fault dir (ix_source idx) (public_key seed) d' = Ok idx ∧
  (∃ q, quality fault dir idx (public_key seed) d' = Ok q ∧
    (q = None ↔ read fault d (dir ++ [QUALITY_FILE]) = Err NotFound)) ∧
  (now < ix_expires idx)%Z ∧ (wrap_i64 (ix_expires idx - now) ≤ VALIDITY_SECS + 3600)%Z ∧
  (∀ p, published = Some p → ix_source p = ix_source idx ∧ ix_counter p < ix_counter idx).
Proof.
  intros (bytes & q & d1 & Hr & Hp & Hi & Hc & Hh & Ha & Hq & Hw & Hw2)%sign_Ok.
  destruct (parse_key_public seed) as (key & Hk & Hv).
  assert (Hd : ∀ p b, p ≠ dir ++ [SIGNATURE_FILE] → p ≠ dir ++ [QUALITY_SIGNATURE_FILE] →
    read fault d p = Ok b → read fault d' p = Ok b).
  { intros p b H1%not_eq_sym H2%not_eq_sym H. pose proof (read_write_ne _ _ _ _ _ _ _ Hw H1 H) as H3.
    destruct q; [|by subst]. exact (read_write_ne _ _ _ _ _ _ _ Hw2 H2 H3). }
  assert (Hsig : read_to_string fault d' (dir ++ [SIGNATURE_FILE]) = Ok (signature_text seed bytes)).
  { pose proof (read_signature _ _ _ _ _ Hw) as H. destruct q; [|by subst]. unfold read_to_string in *.
    apply result_bind_Ok in H as (bs & H & Hs). rewrite (read_write_ne _ _ _ _ _ _ bs Hw2) by (done || by apply name_ne).
    exact Hs. }
  assert (Hh' : all_held idx d' dir).
  { assert (all_held idx d1 dir) by (by eapply held_elsewhere).
    destruct q; [by eapply held_elsewhere|by subst]. }
  split; [|split; [|split; [|split]]].
  - unfold verify. rewrite (Hd _ bytes) by (done || by apply name_ne). cbn. rewrite Hsig. cbn.
    unfold signed. rewrite Hk. cbn. rewrite parse_signature_text. cbn. rewrite Hv. cbn. unfold parse. rewrite Hp.
    cbn. rewrite decide_False by auto. cbn. by rewrite (proj2 (check_files_Ok idx dir d' ()) Hh').
  - apply results_to_sign_Ok in Hq. unfold quality. destruct q as [text|].
    + destruct Hq as (parsed & Ht & Hqp & Hto). rewrite (Hd _ text) by (done || by apply name_ne).
      rewrite (read_signature _ _ _ _ _ Hw2). cbn. unfold accept_quality. rewrite Hk. cbn.
      rewrite parse_signature_text. cbn. rewrite Hv. cbn. rewrite Hqp. cbn. rewrite Hto. cbn.
      eexists. split; [done|]. by rewrite Ht.
    + subst d1. rewrite (read_missing _ _ _ _ _ Hw) by (done || (by apply name_ne) || (intros r E; rewrite <- app_assoc in E;
        apply app_inv_head in E; discriminate E)). by eexists.
  - unfold current in Hc. destruct (Z.leb_spec (ix_expires idx) now); [done|lia].
  - done.
  - intros p ->. cbn in Hi. case_decide as Hs; [done|].
    destruct (N.leb_spec (ix_counter idx) (ix_counter p)); [done|]. auto.
Qed.

End checked.

(** *** Forgeries *)

Section forgeries.
Context (fault : path → option string) {ed : Ed25519} {txt : IndexText}.

Lemma signed_Ok bytes sig source key p idx :
  signed bytes sig source key p = Ok idx ↔
  ∃ k s, parse_key key = Ok k ∧ parse_signature sig = Some s ∧ ed_verify k (bytes_of bytes) s = true ∧
    index_parse bytes = Ok idx ∧ ix_source idx = source.
Proof.
  unfold signed, parse. split.
  - rewrite result_bind_Ok. intros (k & Hk & H). apply result_bind_Ok in H as (s & Hs%ok_or_Ok & H).
    destruct (ed_verify _ _ _) eqn:Hv; [|done]. cbn in H. destruct (index_parse bytes) eqn:Hp; [|done]. cbn in H.
    case_decide as Hd; [done|]. simplify_eq. eauto 10.
  - intros (k & s & Hk & Hs & Hv & Hp & <-). rewrite Hk. cbn. rewrite Hs. cbn. rewrite Hv. cbn. rewrite Hp. cbn.
    by rewrite decide_False by auto.
Qed.

(** C11. No host can forge, alter or replay an index. With a key whose holder signed only
    the texts [published], an index a house accepts from a mirror is one of them, for the
    source asked for, and never older than the highest counter seen; and an index read back
    from a directory is one of them, every file it names there with the digest it gives. *)
Theorem forged_or_replayed_refused key k source (published : list string) :
  parse_key key = Ok k →
  (∀ message sig, ed_verify k message sig = true → ∃ text, text ∈ published ∧ message = bytes_of text) →
  (∀ bytes sig seen idx, accept bytes sig source key seen = Ok idx →
     bytes ∈ published ∧ index_parse bytes = Ok idx ∧ ix_source idx = source ∧
     ∀ s, seen = Some s → s ≤ ix_counter idx) ∧
  (∀ dir d idx, verify fault dir source key d = Ok idx →
     ∃ bytes, bytes ∈ published ∧ d !! (dir ++ [FILE]) = Some bytes ∧ index_parse bytes = Ok idx ∧
       ix_source idx = source ∧
       ∀ app versions v rel digest, ix_apps idx !! app = Some versions → v ∈ versions →
         av_files v !! rel = Some digest →
         ∃ names b, Forall plain names ∧ d !! (dir ++ names) = Some b ∧ sha256_hex (bytes_of b) = digest).
Proof.
  intros Hk Hpub.
  assert (Hone : ∀ bytes sig p idx, signed bytes sig source key p = Ok idx →
    bytes ∈ published ∧ index_parse bytes = Ok idx ∧ ix_source idx = source).
  { intros bytes sig p idx (k' & s & Hk' & _ & Hv & Hp & Hs)%signed_Ok. rewrite Hk in Hk'. injection Hk' as <-.
    apply Hpub in Hv as (t & Ht & ->%bytes_of_inj). done. }
  split.
  - intros bytes sig seen idx H. apply result_bind_Ok in H as (i & Hi & H).
    assert (i = idx) as ->.
    { destruct seen as [n|]; [|by injection H]. destruct (ix_counter i <? n); [done|by injection H]. }
    destruct (Hone _ _ _ _ Hi) as (? & ? & ?). split_and!; [done..|]. intros n ->.
    destruct (N.ltb_spec (ix_counter idx) n); [done|lia].
  - intros dir d idx H. apply result_bind_Ok in H as (bytes & Hb & H). apply result_bind_Ok in H as (sig & _ & H).
    apply result_bind_Ok in H as (i & Hi & H). apply result_bind_Ok in H as ([] & Hf & [= ->]).
    destruct (Hone _ _ _ _ Hi) as (Hin & Hp & Hs). exists bytes.
    destruct (read fault d (dir ++ [FILE])) eqn:Hr; [|done]. injection Hb as ->. apply read_Ok in Hr as [_ Hr].
    split_and!; [done..|]. intros app vs v rel digest Ha Hv Hd.
    pose proof (proj1 (check_files_Ok fault idx dir d ()) Hf app vs v rel digest Ha Hv Hd) as (p & b & Hc & [_ Hb]%read_Ok & He).
    apply contained_Some in Hc as (names & -> & Hpl & _). eauto.
Qed.

End forgeries.

(** *** Taking a fetched directory in *)

(** Two paths neither of which lies under the other. *)
Definition apart (p q : path) : Prop := under p q = None ∧ under q p = None.
Lemma apart_under p q r : apart p q → under q (p ++ r) = None.
Proof.
  intros [H1 H2]. revert q H1 H2. induction p as [|a p IH]; intros [|b q]; cbn; try done.
  intros H1 H2. repeat case_decide; subst; try done. by apply IH.
Qed.
Lemma apart_sym p q : apart p q → apart q p.
Proof. intros []. by split. Qed.

Section swapping.
Context (fault : path → option string) {ed : Ed25519} {txt : IndexText}.

Lemma outside_apart (d : disk) p q r : apart p q → outside q d !! (p ++ r) = d !! (p ++ r).
Proof.
  intros Ha. apply option_eq. intros c. rewrite outside_lookup.
  split; [by intros []|]. intros H. split; [done|]. by apply apart_under.
Qed.
Lemma outside_gone (d : disk) p r : outside p d !! (p ++ r) = None.
Proof.
  apply eq_None_not_Some. intros [c [_ H]%outside_lookup].
  assert (under p (p ++ r) = Some r) by by apply under_Some. congruence.
Qed.
Lemma moved_apart (d : disk) a b p r : apart p a → apart p b → moved d a b !! (p ++ r) = d !! (p ++ r).
Proof.
  intros Ha Hb. unfold moved. rewrite lookup_union_r; [by apply outside_apart|].
  apply not_elem_of_list_to_map_1. intros ([q c] & E & Hin)%list_elem_of_fmap.
  apply list_elem_of_omap in Hin as ([q' c'] & _ & H). apply bind_Some in H as (s & _ & [= H _]).
  cbn in E. pose proof (apart_under p b r Hb) as Hn. rewrite E, <- H in Hn.
  assert (under b (b ++ s) = Some s) by by apply under_Some. congruence.
Qed.

(** What [change] of an operation under [d] answers. *)
Lemma change_Ok p f d u d' : change p f d = (Ok u, d') ↔ f d = Ok d'.
Proof. unfold change. destruct (f d), u; naive_solver. Qed.

(** [m] leaves what lies under [p] alone when it succeeds. *)
Definition spares (p : path) (m : eff disk Error ()) : Prop :=
  ∀ d u d', m d = (Ok u, d') → ∀ r, d' !! (p ++ r) = d !! (p ++ r).

Lemma spares_when p b m : spares p m → spares p (eff_when b m).
Proof. destruct b; [done|]. intros _ d u d' [= _ <-]. done. Qed.
Lemma spares_remove p old : apart p old → spares p (change old (λ d, remove_dir_all fault d old)).
Proof.
  intros Ha d u d' H%change_Ok r. unfold remove_dir_all in H. destruct (fault old); [done|].
  case_match; [|done]. injection H as <-. by apply outside_apart.
Qed.
Lemma spares_rename p a b : apart p a → apart p b → spares p (change a (λ d, rename fault d a b)).
Proof. intros Ha Hb d u d' (_ & -> & _)%change_Ok%rename_Ok r. by apply moved_apart. Qed.

(** A fetched directory takes the cache's place whole or not at all: one that does not
    verify, or whose quality file does not, changes nothing; and when the swap succeeds the
    fetched directory had verified, and the cache holds exactly what it held, with nothing
    left of the cache before it nor of the directory it came from. *)
Theorem swap_in_verified_whole staged cache source key d :
  apart staged cache → apart staged (with_extension cache "old") →
  apart cache (with_extension cache "old") →
  (∀ e, verify fault staged source key d = Err e → swap_in fault staged cache source key d = (Err e, d)) ∧
  (∀ idx e, verify fault staged source key d = Ok idx → quality fault staged idx key d = Err e →
     swap_in fault staged cache source key d = (Err e, d)) ∧
  (∀ idx d', swap_in fault staged cache source key d = (Ok idx, d') →
     verify fault staged source key d = Ok idx ∧ is_ok (quality fault staged idx key d) = true ∧
     ∀ r, d' !! (cache ++ r) = d !! (staged ++ r) ∧ d' !! (staged ++ r) = None ∧
       d' !! (with_extension cache "old" ++ r) = None).
Proof.
  intros Hsc Hso Hco. split; [|split].
  - intros e H. unfold swap_in, eff_bind, on_disk. by rewrite H.
  - intros idx e H Hq. unfold swap_in, eff_bind, on_disk. by rewrite H, Hq.
  - intros idx d'. unfold swap_in. cbv zeta. set (old := with_extension cache "old") in *.
    rewrite eff_bind_Ok. intros (i & d0 & H0 & H). injection H0 as Hv <-.
    apply eff_bind_Ok in H as (q & d0 & H0 & H). injection H0 as Hq <-.
    apply eff_bind_Ok in H as (b1 & d0 & H0 & H). injection H0 as _ <-.
    apply eff_bind_Ok in H as ([] & d1 & H1 & H).
    apply eff_bind_Ok in H as (b2 & d0 & H0 & H). injection H0 as _ <-.
    apply eff_bind_Ok in H as ([] & d2 & H2 & H).
    apply eff_bind_Ok in H as ([] & d3 & H3 & H).
    apply eff_bind_Ok in H as (b4 & d0 & H0 & H). injection H0 as Hb4 <-.
    apply eff_bind_Ok in H as ([] & d4 & H4 & H). injection H as -> <-.
    split; [done|]. split; [by rewrite Hq|]. intros r.
    assert (S1 : spares staged (eff_when b1 (change old (λ d, remove_dir_all fault d old))))
      by (by apply spares_when, spares_remove).
    assert (S2 : spares staged (eff_when b2 (change cache (λ d, rename fault d cache old))))
      by (by apply spares_when, spares_rename).
    assert (S4 : ∀ p, apart p old → spares p (eff_when b4 (change old (λ d, remove_dir_all fault d old))))
      by (by intros; apply spares_when, spares_remove).
    apply change_Ok in H3.
    split; [|split].
    + rewrite (S4 cache Hco _ _ _ H4), (rename_lookup _ _ _ _ _ r H3), (S2 _ _ _ H2), (S1 _ _ _ H1). done.
    + rewrite (S4 staged Hso _ _ _ H4). apply rename_Ok in H3 as (_ & -> & _).
      unfold moved. rewrite lookup_union_r; [apply outside_gone|].
      apply not_elem_of_list_to_map_1. intros ([x c] & E & Hin)%list_elem_of_fmap.
      apply list_elem_of_omap in Hin as ([x' c'] & _ & Hx). apply bind_Some in Hx as (s & _ & [= Hx _]).
      cbn in E. pose proof (apart_under staged cache r Hsc) as Hn. rewrite E, <- Hx in Hn.
      assert (under cache (cache ++ s) = Some s) by by apply under_Some. congruence.
    + subst b4. destruct (exists_ d3 old) eqn:Ex; unfold eff_when in H4.
      * apply change_Ok in H4. unfold remove_dir_all in H4. destruct (fault old); [done|].
        rewrite Ex in H4. injection H4 as <-. apply outside_gone.
      * injection H4 as <-. by apply exists_false.
Qed.

End swapping.


End Signing.
Import Signing.

(** ** A scheme and a text to evaluate on

    A key that is a fingerprint of its seed, and signs with one: no secret, which is enough
    to compute with. *)

Module Toy.

Definition seal (k m : list N) : list N := sha256 (k ++ m) ++ sha256 (m ++ k).
#[local] Instance ed : Ed25519 := {|
  Key := list N; key_from_bytes := Some; ed_verify k m s := s ==? seal k m;
  ed_sign seed m := seal (sha256 seed) m; verifying_key := sha256 |}.

#[local] Instance laws : @Ed25519Laws ed.
Proof.
  split; cbn.
  - intros seed m. unfold seal. rewrite length_app, !length_sha256. split; [done|].
    apply Forall_app. split; apply sha256_ok.
  - intros seed. split; [apply length_sha256|apply sha256_ok].
  - intros seed. exists (sha256 seed). split; [done|]. intros m. by apply bool_decide_eq_true.
Qed.

Definition no_fault : path → option string := λ _, None.

Definition icon : string := "<svg/>".
Definition one : AppVersion :=
  {| av_version := "1.0"; av_hlb := ">=0.4.0"; av_files := {[ "icon.svg" := sha256_hex (bytes_of icon) ]};
     av_images := ["repo:1.0"] |}.
Definition idx : Index :=
  {| ix_source := "guild"; ix_counter := 7; ix_expires := 2000000; ix_apps := {[ "wiki" := [one] ]};
     ix_revoked := ∅ |}.
Definition held_quality : Quality := {| q_source := "guild"; q_index := 7; q_apps := ∅ |}.

#[local] Instance txt : IndexText := {|
  index_parse s := if decide (s = "the index") then Ok idx else Err "expected value";
  index_print _ := Ok "the index";
  quality_parse s := if decide (s = "the runs") then Ok held_quality else Err "expected value";
  quality_print _ := Ok "the runs";
  run_parse _ := Err "expected value" |}.

Definition built : disk :=
  <[["w"; FILE] := "the index"]> (<[["w"; QUALITY_FILE] := "the runs"]>
    {[ ["w"; "apps"; "wiki"; "1.0"; "icon.svg"] := icon ]}).
Definition the_sign := sign no_fault ["w"] [1; 2; 3] None 1000000.

End Toy.

Lemma signed_then_verified_witness :
  (Toy.the_sign Toy.built).1 = Ok Toy.idx ∧
  @verify Toy.no_fault Toy.ed Toy.txt ["w"] (ix_source Toy.idx) (@public_key Toy.ed [1; 2; 3]) (Toy.the_sign Toy.built).2 = Ok Toy.idx.
Proof.
  assert ((Toy.the_sign Toy.built).1 = Ok Toy.idx) as H by (vm_compute; reflexivity). split; [exact H|].
  assert (Toy.the_sign Toy.built = (Ok Toy.idx, (Toy.the_sign Toy.built).2)) as Hs
    by (rewrite <- H; apply surjective_pairing).
  exact (proj1 (@Signing.signed_then_verified Toy.no_fault Toy.ed Toy.txt Toy.laws ["w"] [1; 2; 3] None 1000000
    Toy.built Toy.idx (Toy.the_sign Toy.built).2 Hs)).
Defined.

Lemma forged_or_replayed_refused_witness :
  ∃ bytes, bytes ∈ ["the index"] ∧ (Toy.the_sign Toy.built).2 !! ["w"; FILE] = Some bytes.
Proof.
  set (key := @public_key Toy.ed [1; 2; 3]).
  assert (@parse_key Toy.ed key = Ok (sha256 [1; 2; 3])) as Hk by (vm_compute; reflexivity).
  (* a scheme whose key accepts that one message *)
  set (ed := {| Key := list N; key_from_bytes := Some;
    ed_verify _ m _ := m ==? bytes_of "the index"; ed_sign := @ed_sign Toy.ed;
    verifying_key := @verifying_key Toy.ed |} : Ed25519).
  assert (@verify Toy.no_fault ed Toy.txt ["w"] "guild" key (Toy.the_sign Toy.built).2 = Ok Toy.idx) as Hv
    by (vm_compute; reflexivity).
  destruct (@Signing.forged_or_replayed_refused Toy.no_fault ed Toy.txt key (sha256 [1; 2; 3]) "guild" ["the index"]) as [_ H].
  - exact Hk.
  - intros m s E%bool_decide_eq_true. exists "the index". split; [left|exact E].
  - destruct (H ["w"] _ _ Hv) as (bytes & H1 & H2 & _). exists bytes. split; [exact H1|exact H2].
Defined.

(** A cache beside a fetched directory that verifies. *)
Definition to_swap : disk :=
  <[["new"; FILE] := "the index"]> (<[["new"; SIGNATURE_FILE] := @signature_text Toy.ed [1; 2; 3] "the index"]>
    (<[["new"; "apps"; "wiki"; "1.0"; "icon.svg"] := Toy.icon]> {[ ["w"; FILE] := "an older index" ]})).
Definition swapped (fault : path → option string) :=
  @swap_in fault Toy.ed Toy.txt ["new"] ["w"] "guild" (@public_key Toy.ed [1; 2; 3]) to_swap.

Lemma swap_in_verified_whole_witness :
  (swapped Toy.no_fault).1 = Ok Toy.idx ∧
  (swapped Toy.no_fault).2 !! ["w"; FILE] = to_swap !! ["new"; FILE].
Proof.
  assert ((swapped Toy.no_fault).1 = Ok Toy.idx) as H by (vm_compute; reflexivity). split; [exact H|].
  assert (swapped Toy.no_fault = (Ok Toy.idx, (swapped Toy.no_fault).2)) as Hs
    by (rewrite <- H; apply surjective_pairing).
  assert (apart ["new"] ["w"] ∧ apart ["new"] (with_extension ["w"] "old") ∧
    apart ["w"] (with_extension ["w"] "old")) as (H1 & H2 & H3) by (vm_compute; auto).
  pose proof (proj2 (proj2 (@Signing.swap_in_verified_whole Toy.no_fault Toy.ed Toy.txt ["new"] ["w"] "guild"
    (@public_key Toy.ed [1; 2; 3]) to_swap H1 H2 H3))) as Hok.
  destruct (Hok Toy.idx (swapped Toy.no_fault).2 Hs) as (_ & _ & Hr). exact (proj1 (Hr [FILE])).
Defined.

(** A second rename the system refuses leaves the source without its cache: the index that was
    there is gone from its place, with the one that verified. *)
Lemma swap_stopped_loses_cache :
  let r := swapped (λ p, if decide (p = ["new"]) then Some "denied" else None) in
  r.1 = Err (Io ["new"] (Refused "denied")) ∧
  to_swap !! ["w"; FILE] = Some "an older index" ∧ r.2 !! ["w"; FILE] = None ∧
  r.2 !! ["w.old"; FILE] = Some "an older index".
Proof. vm_compute. auto. Qed.
