(* ===== verification/Sources.v ===== *)
(** * The catalog and its sources

    [crates/hlb-catalog/src/lib.rs]: reading the apps of a directory, the catalog of several
    sources, and what a catalog is held to beyond what each manifest is. *)

From S2P Require Import Prelude RustStr Capability Access Guide Binding Manifest Validate ValidateGuide Resolver CatalogIndex.
Import Disk Index Signing.
Local Open Scope N_scope.

Module Sources.

(** What reads the texts of a catalog: [serde_yaml_ng], at the types it is asked for. A
    document read as it is written is a [value]. *)
Class CatalogText := {
  value : Type;
  yaml_range : string → option string;
  yaml_manifest : string → result string Manifest;
  yaml_guide : string → result string Guide;
  yaml_value : string → result string value }.

(** @ hlb-catalog/src/lib.rs:69-71 [OFFICIAL] *)
Definition OFFICIAL : string := "official".
(** @ hlb-catalog/src/lib.rs:82-83 [SEPARATOR] *)
Definition SEPARATOR : ascii := "/".

(** @ hlb-catalog/src/lib.rs:85-91 [qualified] *)
Definition qualified (source : option string) (app : string) : string :=
  match source with Some s => s +:+ String SEPARATOR app | None => app end.

(** @ hlb-catalog/src/lib.rs:93-101 [is_source_name] *)
Definition is_source_name (name : string) : bool :=
  (String.length name <=? 32)%nat &&
  match name with
  | String c rest => (is_lower c || is_digit c) &&
      str_all (λ c, is_lower c || is_digit c || bool_decide (c = "-"%char)) rest
  | "" => false
  end.

Section catalog.
Context {semver : Semver} {ed : Ed25519} {txt : IndexText} {cat : CatalogText}.
Context (fault : path → option string) (order : path → list string → list string).

(** @ hlb-catalog/src/lib.rs:114-134 [Entry] *)
Record Entry := {
  en_source : option string; en_index : option N; en_version : option string;
  en_quality : option AppQuality; en_manifest : Manifest; en_path : path;
  en_guide : Guide; en_written : value * value }.
(** @ hlb-catalog/src/lib.rs:103-112 [Catalog] *)
Record Catalog := {
  ct_entries : gmap string Entry;
  ct_set_aside : gmap string string;
  ct_revoked : gmap string (list Revoked) }.

Definition empty_catalog : Catalog := {| ct_entries := ∅; ct_set_aside := ∅; ct_revoked := ∅ |}.
Definition with_entries (m : gmap string Entry) (c : Catalog) : Catalog :=
  {| ct_entries := m; ct_set_aside := ct_set_aside c; ct_revoked := ct_revoked c |}.
Definition with_aside (m : gmap string string) (c : Catalog) : Catalog :=
  {| ct_entries := ct_entries c; ct_set_aside := m; ct_revoked := ct_revoked c |}.
Definition with_revoked (m : gmap string (list Revoked)) (c : Catalog) : Catalog :=
  {| ct_entries := ct_entries c; ct_set_aside := ct_set_aside c; ct_revoked := m |}.

Definition app_of (e : Entry) : string := md_name (mf_metadata (en_manifest e)).
Definition is_platform (e : Entry) : bool := mf_kind (en_manifest e) ==? PlatformService.

(** @ hlb-catalog/src/lib.rs:136-141 [Entry::name] *)
Definition entry_name (e : Entry) : string := qualified (en_source e) (app_of e).

(** *** Reading a directory *)

(** @ hlb-catalog/src/lib.rs:769-772 [Loaded] *)
Inductive Loaded := LoadedEntry (e : Entry) | LoadedAside (app why : string).

(** @ hlb-catalog/src/lib.rs:774-782 [declared_range] *)
Definition declared_range (raw : string) : option string := yaml_range raw.

(** Why a release does not read a manifest, by the range it declares.
    @ hlb-catalog/src/lib.rs:799-811 [load_one] *)
Definition left_aside (dir raw : string) (release : Version) : option string :=
  range ← declared_range raw;
  match accepts range release with
  | Ok true => None
  | Ok false => Some (quoted_str dir +:+ " needs hlb " +:+ range +:+ ", and this one is "
      +:+ show_version release +:+ " — update hlb to install it")
  | Err e => Some (quoted_str dir +:+ ": " +:+ e)
  end.

(** @ hlb-catalog/src/lib.rs:842-848 [load_one] *)
Definition as_json (text : string) (p : path) : result CatError value :=
  map_err (λ e, CParse p (Validate.Parse e)) (yaml_value text).

(** @ hlb-catalog/src/lib.rs:784-861 [load_one] *)
Definition load_one (d : disk) (p : path) (release : Version) (name : option string)
    : result CatError Loaded :=
  raw ← map_err (CIo p) (read_to_string fault d p);
  let dir := default (default "" (last (removelast p))) name in
  match left_aside dir raw release with
  | Some why => Ok (LoadedAside dir why)
  | None =>
      manifest ← map_err (λ e, CParse p (Validate.Parse e)) (yaml_manifest raw);
      if decide (dir ≠ md_name (mf_metadata manifest))
      then Err (NameMismatch p (md_name (mf_metadata manifest)) dir)
      else
        let guide_path := removelast p ++ ["guide.yaml"] in
        guide_raw ← (if exists_ d guide_path
                     then map_err (CIo guide_path) (read_to_string fault d guide_path)
                     else Ok "{}");
        guide ← map_err (λ e, CParse guide_path (Validate.Parse e)) (yaml_guide guide_raw);
        written ← as_json raw p;
        written_guide ← as_json guide_raw guide_path;
        Ok (LoadedEntry {| en_source := None; en_index := None; en_version := None;
          en_quality := None; en_manifest := manifest; en_path := p; en_guide := guide;
          en_written := (written, written_guide) |})
  end.

(** @ hlb-catalog/src/lib.rs:755-764 [collect] *)
Definition take_in (out : Catalog) (l : Loaded) : Catalog :=
  match l with
  | LoadedEntry e => with_entries (<[app_of e := e]> (ct_entries out)) out
  | LoadedAside app why => with_aside (<[app := why]> (ct_set_aside out)) out
  end.

(** The walk goes down no further than the files do: [depth].
    @ hlb-catalog/src/lib.rs:737-767 [collect] *)
Fixpoint collect (fuel : nat) (d : disk) (release : Version) (dir : path) (out : Catalog)
    : result CatError Catalog :=
  match fuel with
  | O => Ok out
  | S fuel =>
      names ← map_err (CIo dir) (read_dir fault order d dir);
      fold_m (λ out n,
        let p := dir ++ [n] in
        if is_dir d p then collect fuel d release p out
        else if decide (n = "manifest.yaml") then take_in out <$> load_one d p release None
        else Ok out) out names
  end.

(** @ hlb-catalog/src/lib.rs:152-162 [Catalog::load_as] *)
Definition load_as (root : path) (release : Version) (d : disk) : result CatError Catalog :=
  if negb (is_dir d root) then Err (CNotFound root)
  else collect (depth d) d release root empty_catalog.

(** This build's own release. *)
Context (running : Version).

(** @ hlb-catalog/src/lib.rs:144-150 [Catalog::load] *)
Definition load (root : path) (d : disk) : result CatError Catalog := load_as root running d.

(** *** Looking up *)

(** @ hlb-catalog/src/lib.rs:427-437 [Catalog::get] *)
Definition get (c : Catalog) (name : string) : result CatError Entry :=
  match ct_set_aside c !! name with
  | Some why => Err (SetAside name why)
  | None => ok_or (UnknownApp name) (ct_entries c !! name)
  end.

(** @ hlb-catalog/src/lib.rs:412-416 [Catalog::followed] *)
Definition followed (c : Catalog) (app : string) (source : option string)
    : result CatError Entry := get c (qualified source app).

(** @ hlb-catalog/src/lib.rs:418-425 [Catalog::revocation] *)
Definition revoked_why (c : Catalog) (app : string) (source : option string) (version : string)
    : option string :=
  l ← ct_revoked c !! qualified source app;
  r_why <$> find_first (λ r, r_version r ==? version) l.

(** @ hlb-catalog/src/lib.rs:439-442 [Catalog::left_out] *)
Definition left_out (c : Catalog) : list (string * string) := btree_entries (ct_set_aside c).
(** @ hlb-catalog/src/lib.rs:444-446 [Catalog::names] *)
Definition names (c : Catalog) : list string := btree_keys (ct_entries c).
(** @ hlb-catalog/src/lib.rs:448-450 [Catalog::entries] *)
Definition entries (c : Catalog) : list Entry := btree_values (ct_entries c).
(** @ hlb-catalog/src/lib.rs:452-454 [Catalog::manifests] *)
Definition manifests (c : Catalog) : list Manifest := en_manifest <$> btree_values (ct_entries c).
(** @ hlb-catalog/src/lib.rs:456-462 [Catalog::len] *)
Definition catalog_len (c : Catalog) : nat := size (ct_entries c).
Definition catalog_is_empty (c : Catalog) : bool := ct_entries c ==? ∅.

(** *** Several sources *)

(** @ hlb-catalog/src/lib.rs:374-378 [Catalog::merge] *)
Definition platform_names (c : Catalog) : list string :=
  app_of <$> keep (λ e, bool_decide (en_source e = None) && is_platform e) (btree_values (ct_entries c)).

(** Why a third-party source may not hold an app.
    @ hlb-catalog/src/lib.rs:387-399 [Catalog::merge] *)
Definition refused (platform : list string) (key app : string) (e : Entry) : option string :=
  if is_platform e then
    Some (quoted_str key +:+ " is a platform service: a source other than the official " +:+
      "catalog may require a capability, never provide one")
  else if decide (app ∈ platform) then
    Some (quoted_str key +:+ " is named like the official platform service " +:+ quoted_str app +:+
      ", whose place it would take for every app that requires it")
  else None.

Definition from_source (source : string) (e : Entry) : Entry :=
  {| en_source := Some source; en_index := en_index e; en_version := en_version e;
     en_quality := en_quality e; en_manifest := en_manifest e; en_path := en_path e;
     en_guide := en_guide e; en_written := en_written e |}.

(** @ hlb-catalog/src/lib.rs:385-409 [Catalog::merge] *)
Definition merge_entry (source : string) (platform : list string) (c : Catalog)
    (x : string * Entry) : Catalog :=
  let key := qualified (Some source) x.1 in
  match refused platform key x.1 x.2 with
  | Some why => with_aside (<[key := why]> (ct_set_aside c)) c
  | None => with_entries (<[key := from_source source x.2]> (ct_entries c)) c
  end.

(** @ hlb-catalog/src/lib.rs:370-410 [Catalog::merge] *)
Definition merge (source : string) (theirs : Catalog) (c : Catalog) : Catalog :=
  let platform := platform_names c in
  let c := foldl (λ c '(app, why),
    with_aside (<[qualified (Some source) app := why]> (ct_set_aside c)) c) c
    (btree_entries (ct_set_aside theirs)) in
  let c := foldl (λ c '(app, revoked),
    with_revoked (<[qualified (Some source) app := revoked]> (ct_revoked c)) c) c
    (btree_entries (ct_revoked theirs)) in
  foldl (merge_entry source platform) c (btree_entries (ct_entries theirs)).

(** @ hlb-catalog/src/lib.rs:197-216 [Catalog::add_source] *)
Definition add_source (source : string) (root : path) (d : disk) : eff Catalog CatError () := λ c,
  if decide (source = OFFICIAL) then (Err Reserved, c)
  else if negb (is_source_name source) then (Err (SourceName source), c)
  else
    let prefix := source +:+ String SEPARATOR "" in
    if any_of (starts_with prefix) (btree_keys (ct_entries c) ++ btree_keys (ct_set_aside c))
    then (Err (SourceTaken source), c)
    else match load root d with
         | Err e => (Err e, c)
         | Ok theirs => (Ok (), merge source theirs c)
         end.

(** The reason the newest version this release runs was withdrawn, when it was.
    @ hlb-catalog/src/lib.rs:327-332 [Catalog::from_index] *)
Definition withdrawn_why (idx : Index) (app : string) (versions : list AppVersion) : option string :=
  find_map (λ v, if runs_on v running then revocation idx app (av_version v) else None)
    (reverse versions).

Definition from_version (idx : Index) (v : AppVersion) (q : option AppQuality) (e : Entry) : Entry :=
  {| en_source := en_source e; en_index := Some (ix_counter idx); en_version := Some (av_version v);
     en_quality := q; en_manifest := en_manifest e; en_path := en_path e;
     en_guide := en_guide e; en_written := en_written e |}.

(** One app of an index: what is read so far, the quality results not yet taken, and the
    apps withdrawn.
    @ hlb-catalog/src/lib.rs:323-368 [Catalog::from_index] *)
Definition from_index_app (idx : Index) (dir : path) (d : disk)
    (st : Catalog * gmap string AppQuality * gset string) (x : string * list AppVersion)
    : result Error (Catalog * gmap string AppQuality * gset string) :=
  let '(theirs, quality, withdrawn) := st in
  let '(app, versions) := x in
  match newest_for idx app running with
  | None =>
      match withdrawn_why idx app versions with
      | Some why =>
          let said := "every version of " +:+ quoted_str app +:+ " this hlb runs is revoked: " +:+ why in
          Ok (with_aside (<[app := said]> (ct_set_aside theirs)) theirs, quality, {[ app ]} ∪ withdrawn)
      | None =>
          let said := quoted_str app +:+ " has no version for hlb " +:+ show_version running +:+
            " (theirs need " +:+ join ", " (av_hlb <$> versions) +:+ ") — update hlb to install it" in
          Ok (with_aside (<[app := said]> (ct_set_aside theirs)) theirs, quality, withdrawn)
      end
  | Some v =>
      loaded ← map_err Signing.Catalog
        (load_one d (follow dir (version_dir app (av_version v)) ++ ["manifest.yaml"]) running (Some app));
      match loaded with
      | LoadedEntry e => Ok (with_entries (<[app := from_version idx v (quality !! app) e]> (ct_entries theirs)) theirs,
          delete app quality, withdrawn)
      | LoadedAside app why => Ok (with_aside (<[app := why]> (ct_set_aside theirs)) theirs, quality, withdrawn)
      end
  end.

(** @ hlb-catalog/src/lib.rs:306-368 [Catalog::from_index] *)
Definition from_index (idx : Index) (dir : path) (key : string) (d : disk)
    : result Error (Catalog * gset string) :=
  let quality := match Signing.quality fault dir idx key d with
                 | Ok (Some q) => q_apps q
                 | _ => ∅
                 end in
  '(theirs, _, withdrawn) ← fold_m (from_index_app idx dir d) (empty_catalog, quality, ∅)
    (btree_entries (ix_apps idx));
  Ok (theirs, withdrawn).

(** Is it a platform service, under that name?
    @ hlb-catalog/src/lib.rs:282-286 [Catalog::add_official] *)
Definition platform_at (c : Catalog) (app : string) : bool :=
  match ct_entries c !! app with Some e => is_platform e | None => false end.

(** @ hlb-catalog/src/lib.rs:287-293 [Catalog::add_official] *)
Definition take_official (c : Catalog) (x : string * Entry) : Catalog :=
  let '(app, e) := x in
  if platform_at c app || is_platform e then c
  else with_entries (<[app := e]> (ct_entries c)) (with_aside (delete app (ct_set_aside c)) c).

(** @ hlb-catalog/src/lib.rs:294-302 [Catalog::add_official] *)
Definition leave_official (withdrawn : gset string) (c : Catalog) (x : string * string) : Catalog :=
  let '(app, why) := x in
  if platform_at c app then c
  else if decide (app ∈ withdrawn ∨ ct_entries c !! app = None)
  then with_aside (<[app := why]> (ct_set_aside c)) (with_entries (delete app (ct_entries c)) c)
  else c.

(** @ hlb-catalog/src/lib.rs:271-304 [Catalog::add_official] *)
Definition add_official (dir : path) (key : string) (now : Z) (d : disk) : eff Catalog Error () :=
  let! idx := eff_of (verify fault dir OFFICIAL key d) in
  eff_put (λ c, with_revoked (ix_revoked idx ∪ ct_revoked c) c) ;;!
  eff_of (current idx now) ;;!
  let! read := eff_of (from_index idx dir key d) in
  eff_put (λ c,
    let c := foldl take_official c (btree_entries (ct_entries read.1)) in
    foldl (leave_official read.2) c (btree_entries (ct_set_aside read.1))).

(** What an index out of date says of each of its apps.
    @ hlb-catalog/src/lib.rs:242-257 [Catalog::add_signed_source] *)
Definition out_of_date (source : string) (idx : Index) (show : Error → string) (e : Error) : Catalog :=
  let why := "the index of " +:+ quoted_str source +:+ " is out of date (" +:+ show e +:+
    ") — nothing new is installed from it until `hlb catalog source fetch " +:+ source +:+
    "` brings a fresh one" in
  with_aside ((λ _, why) <$> ix_apps idx) empty_catalog.

(** The text of an expiry. @ hlb-catalog/src/index.rs:78-79 [Error] *)
Definition show_expired (e : Error) : string :=
  match e with Expired ago => "the index expired " +:+ show_Z ago +:+ " s ago — build it again" | _ => "" end.

(** @ hlb-catalog/src/lib.rs:225-261 [Catalog::add_signed_source] *)
Definition add_signed_source (source : string) (dir : path) (key : string) (now : Z) (d : disk)
    : eff Catalog Error () :=
  if decide (source = OFFICIAL) then add_official dir key now d
  else if negb (is_source_name source) then eff_fail (Signing.Catalog (SourceName source))
  else
    let! idx := eff_of (verify fault dir source key d) in
    let! theirs := eff_of match current idx now with
      | Ok _ => fst <$> from_index idx dir key d
      | Err e => Ok (out_of_date source idx show_expired e)
      end in
    eff_put (merge source (with_revoked (ix_revoked idx) theirs)).

(** @ hlb-catalog/src/lib.rs:173-187 [Catalog::load_apps_over] *)
Definition load_apps_over (platform apps : path) (d : disk) : result CatError Catalog :=
  c ← load platform d;
  let c := with_aside ∅ (with_entries (filter (λ x, is_platform x.2 = true) (ct_entries c)) c) in
  theirs ← load apps d;
  c ← fold_m (λ c '(app, e),
    if is_platform e || bool_decide (is_Some (ct_entries c !! app)) then Err (PlatformInApps app)
    else Ok (with_entries (<[app := e]> (ct_entries c)) c)) c (btree_entries (ct_entries theirs));
  Ok (with_aside (ct_set_aside theirs ∪ ct_set_aside c) c).

(** *** What a catalog is held to *)

(** The schemas the releases committed, by the version they name; what reads one of them and
    what holds a written document to one of its parts, the first violation with where it is.
    @ hlb-types/src/release.rs:81-87 [release_schema] *)
Context {Schema : Type} (RELEASE_SCHEMAS : list (string * string))
  (version_parse : string → option Version) (schema_parse : string → option Schema)
  (violation : Schema → string → value → result string (option (string * string))).
Context (parse_json : string → result string Access.Json) (json_text : Access.Json → string).

Definition release_schema (release : Version) : option Schema :=
  '(_, s) ← find_first (λ '(v, _), bool_decide (version_parse v = Some release)) RELEASE_SCHEMAS;
  schema_parse s.

(** One part of an entry, as written, against the floor's schema of it.
    @ hlb-catalog/src/lib.rs:897-911 [release_rules] *)
Definition floor_reads (e : Entry) (range : string) (floor : Version) (schema : Schema)
    (x : string * value) : check :=
  let '(part, written) := x in
  match violation schema part written with
  | Err err => Err (invalid (en_manifest e)
      (show_version floor +:+ "'s " +:+ part +:+ " schema is unreadable: " +:+ err))
  | Ok (Some (at_, err)) => Err (invalid (en_manifest e)
      ("`metadata.hlb` " +:+ range +:+ ": " +:+ show_version floor +:+ " cannot read its " +:+ part +:+
       " — at " +:+ at_ +:+ ": " +:+ err +:+ "; raise the floor to the release that first reads it"))
  | Ok None => Ok ()
  end.

(** @ hlb-catalog/src/lib.rs:863-913 [release_rules] *)
Definition release_rules (e : Entry) (release : Version) : check :=
  let m := en_manifest e in
  match md_hlb (mf_metadata m) with
  | None => Err (invalid m ("`metadata.hlb` is required in the catalog: the hlb versions the app runs on, "
      +:+ quoted_str (">=" +:+ show_N (v_major release) +:+ "." +:+ show_N (v_minor release) +:+ ".0")
      +:+ " for what this one reads"))
  | Some range =>
      match floor range with
      | Err why => Err (invalid m why)
      | Ok floor =>
          if version_cmp floor release is (Eq | Gt) then Ok ()
          else match release_schema floor with
          | None => Err (invalid m ("`metadata.hlb` " +:+ range +:+ " starts at " +:+ show_version floor +:+
              ", which is no release whose schema this hlb carries (" +:+ join ", " RELEASE_SCHEMAS.*1 +:+
              ") — the floor names one of them, or " +:+ show_version release))
          | Some schema =>
              each (floor_reads e range floor schema)
                [("manifest", (en_written e).1); ("guide", (en_written e).2)]
          end
      end
  end.

(** @ hlb-catalog/src/lib.rs:610-626 [catalog_rules] *)
Definition check_criticality (m : Manifest) : check :=
  match mf_kind m, md_criticality (mf_metadata m) with
  | App, None => Err (invalid m ("`metadata.criticality` is required in the catalog: vital, important or " +:+
      "normal — what the household loses while it is down"))
  | PlatformService, Some _ => Err (invalid m ("a platform service declares no `metadata.criticality`: it matters as much " +:+
      "as the apps requiring it"))
  | App, Some _ | PlatformService, None => Ok ()
  end.

(** @ hlb-catalog/src/lib.rs:627-666 [catalog_rules] *)
Definition check_requires (m : Manifest) (c : Capability) : check :=
  match c with
  | Database engine _ extensions connections =>
      if (engine ==? Mariadb) && negb (extensions ==? []) then
        Err (invalid m ("a MariaDB database takes no extensions (" +:+ join ", " extensions +:+
          ") — only PostgreSQL has them"))
      else if connections ==? None then
        Err (invalid m ("a " +:+ db_service_name engine +:+ " database must say `connections`: the most the app opens to the " +:+
          "shared server, its pools capped to it"))
      else Ok ()
  | Cache _ true => Err (invalid m ("a dedicated cache runs an image nothing pins — use the shared one " +:+
      "(`dedicated: false`)"))
  | _ => Ok ()
  end.

(** @ hlb-catalog/src/lib.rs:667-678 [catalog_rules] *)
Definition check_tiers (m : Manifest) : check :=
  each (λ t, refuse_if (negb (bool_decide (t ∈ TIERS)))
      (invalid m ("tier " +:+ quoted_str t +:+ " is no node's — one of " +:+ join ", " TIERS +:+
        ": placed nowhere, the install would time out on " +:+ quoted_str "no suitable node")))
    (omap id (sw_tier (sp_swarm (mf_spec m)) :: (co_tier <$> sp_companions (mf_spec m)))).

(** The containers of an app: how a refusal names each, its environment and its files.
    @ hlb-catalog/src/lib.rs:684-692 [catalog_rules] *)
Definition containers (m : Manifest) : list (string * gmap string string * list ConfigFile) :=
  ("", sp_env (mf_spec m), sp_files (mf_spec m)) ::
  ((λ c, ("companion " +:+ co_name c +:+ ": ", environment c (mf_spec m), co_files c))
    <$> sp_companions (mf_spec m)).

(** @ hlb-catalog/src/lib.rs:693-707 [catalog_rules] *)
Definition check_environment (m : Manifest) (x : string * gmap string string * list ConfigFile) : check :=
  let '(at_, env, files) := x in
  each (λ '(var, value),
    if carries_secret value then
      Err (invalid m (at_ +:+ var +:+ " hands a secret through the environment, which `docker " +:+
        "inspect` shows — mount it as a `files:` entry and give the app its path"))
    else if starts_with "/run/secrets/" value && negb (any_of (λ f, cf_path f ==? value) files) then
      Err (invalid m (at_ +:+ var +:+ " names " +:+ value +:+ ", which no `files:` entry mounts there"))
    else Ok ()) (btree_entries env).

(** The tokens a text's templates name.
    @ hlb-catalog/src/lib.rs:721-722 [catalog_rules] *)
Fixpoint template_tokens (fuel : nat) (t : string) : list string :=
  match fuel with
  | O => []
  | S fuel =>
      match find_str "{{" t with
      | None => []
      | Some (_, rest) =>
          trim (match find_str "}}" rest with Some (token, _) => token | None => rest end)
            :: template_tokens fuel rest
      end
  end.

(** @ hlb-catalog/src/lib.rs:713-719 [catalog_rules] *)
Definition step_texts (s : GuideStep) : list string :=
  [step_title s; step_body s] ++ (if step_deeplink s is Some l then [l] else []) ++
  (a ← step_automate s; if a is AutoEnv vars then btree_values vars else []).

(** @ hlb-catalog/src/lib.rs:712-733 [catalog_rules] *)
Definition check_step (m : Manifest) (s : GuideStep) : check :=
  each (λ t, each (λ token,
      refuse_if (negb (bool_decide (token ∈ GUIDE_VARS)))
        (invalid m ("guide step " +:+ quoted_str (step_id s) +:+ " uses {{ " +:+ token +:+
          " }}, which nothing fills — a guide's templates are " +:+ join ", " GUIDE_VARS)))
      (template_tokens (String.length t) t)) (step_texts s).

(** @ hlb-catalog/src/lib.rs:602-735 [catalog_rules] *)
Definition catalog_rules (e : Entry) : check :=
  let m := en_manifest e in
  _ ← check_criticality m;
  _ ← each (check_requires m) (sp_requires (mf_spec m));
  _ ← check_tiers m;
  _ ← each (check_environment m) (containers m);
  each (check_step m) (guide_steps (en_guide e)).

(** *** Across apps *)

(** The connections an app declares to a server.
    @ hlb-catalog/src/lib.rs:512-526 [Catalog::connection_budgets] *)
Definition declared (engine : DbEngine) (m : Manifest) : N :=
  foldl (λ sum n, wrap_u32 (sum + n)) 0
    (omap (λ c, match c with
      | Database on _ _ connections => if decide (on = engine) then connections else None
      | _ => None end) (sp_requires (mf_spec m))).

(** The limit a server's arguments set.
    @ hlb-catalog/src/lib.rs:538-544 [Catalog::connection_budgets] *)
Definition connection_limit (engine : DbEngine) (server : Entry) : option N :=
  n ← find_map (strip_prefix (limit_arg engine)) (sp_args (mf_spec (en_manifest server)));
  parse_uint u32_max n.

(** @ hlb-catalog/src/lib.rs:509-571 [Catalog::connection_budgets] *)
Definition budget (c : Catalog) (engine : DbEngine) : list (string * Validate.Error) :=
  let server := db_service_name engine in
  let apps := omap (λ '(name, e),
    let n := declared engine (en_manifest e) in if 0 <? n then Some (name, n) else None)
    (btree_entries (ct_entries c)) in
  match get c server with
  | Err _ => []
  | Ok entry =>
      if apps ==? [] then []
      else match connection_limit engine entry with
      | None => [(server, Validation (server +:+ ": its connection limit must be one of its args (`" +:+
          limit_arg engine +:+ "N`) — the apps' budgets are summed against it"))]
      | Some limit =>
          let room := limit - kept_for_the_administrator engine in
          let sum := foldl (λ sum n, wrap_u32 (sum + n)) 0 apps.*2 in
          let updating := foldr N.max 0 apps.*2 in
          if room <? wrap_u32 (sum + updating) then
            [(server, Validation (server +:+ ": the apps' connections (" +:+
              join ", " ((λ '(a, n), a +:+ " " +:+ show_N n) <$> apps) +:+ ": " +:+ show_N sum +:+ ", and " +:+
              show_N updating +:+ " more while the largest is updated) exceed the " +:+ show_N room +:+
              " its limit of " +:+ show_N limit +:+ " leaves them"))]
          else []
      end
  end.

(** @ hlb-catalog/src/lib.rs:496-573 [Catalog::connection_budgets] *)
Definition connection_budgets (c : Catalog) : list (string * Validate.Error) :=
  budget c Postgres ++ budget c Mariadb.

(** The claims an app writes.
    @ hlb-catalog/src/lib.rs:582-586 [Catalog::shared_claims] *)
Definition claims_of (m : Manifest) : list string :=
  match sp_access (mf_spec m) with
  | None => []
  | Some a => btree_keys (access_claims a) ++
      (if access_quota a ≫= quota_claim is Some q then [qc_name q] else [])
  end.

(** @ hlb-catalog/src/lib.rs:586-596 [Catalog::shared_claims] *)
Definition claim_writer (st : gmap string string * list (string * Validate.Error)) (x : string * string)
    : gmap string string * list (string * Validate.Error) :=
  let '(writer, errs) := st in
  let '(name, claim) := x in
  (<[claim := name]> writer,
   match writer !! claim with
   | Some other => errs ++ [(name, Validation (name +:+ ": access — claim " +:+ quoted_str claim +:+ " is " +:+ other +:+
       "'s too: every app a person signs in to sees it, so one would read the other's value"))]
   | None => errs
   end).

(** @ hlb-catalog/src/lib.rs:575-599 [Catalog::shared_claims] *)
Definition shared_claims (c : Catalog) : list (string * Validate.Error) :=
  (foldl claim_writer (∅, [])
    ('(name, e) ← btree_entries (ct_entries c); (λ claim, (name, claim)) <$> claims_of (en_manifest e))).2.

(** What an entry is checked for by itself.
    @ hlb-catalog/src/lib.rs:480-487 [Catalog::validate_all] *)
Definition check_entry (e : Entry) : check :=
  _ ← validate_with_guide json_text (en_manifest e) (en_guide e);
  _ ← validate_guide parse_json (en_manifest e) (en_guide e);
  _ ← validate_catalog_images (en_manifest e);
  _ ← validate_catalog_memory (en_manifest e);
  catalog_rules e.

Definition failing (f : Entry → check) (c : Catalog) : list (string * Validate.Error) :=
  omap (λ '(name, e), match f e with Err err => Some (name, err) | Ok _ => None end)
    (btree_entries (ct_entries c)).

(** @ hlb-catalog/src/lib.rs:464-494 [Catalog::validate_all] *)
Definition validate_all (c : Catalog) : list (string * Validate.Error) :=
  ((λ '(name, why), (name, Validation why)) <$> btree_entries (ct_set_aside c)) ++
  failing (λ e, release_rules e running) c ++
  failing check_entry c ++
  shared_claims c ++
  connection_budgets c.

End catalog.
(** ** Laws *)

Section laws.
Context {semver : Semver} {ed : Ed25519} {txt : IndexText} {cat : CatalogText}.
Context (fault : path → option string) (order : path → list string → list string) (running : Version).

(** *** Names *)

Lemma fold_map_ind {K V A} (P : A → Prop) (f : A → K * V → A) (l : list (K * V)) a :
  P a → (∀ a x, x ∈ l → P a → P (f a x)) → P (foldl f a l).
Proof.
  revert a. induction l as [|x l IH]; intros a Ha Hf; [done|]. cbn. apply IH.
  - apply Hf; [left|done].
  - intros a' y Hy. apply Hf. by right.
Qed.

Lemma qualified_slash source app : contains_char "/" (qualified (Some source) app) = true.
Proof. unfold qualified. rewrite contains_char_append, contains_char_cons. by rewrite orb_true_r. Qed.

Lemma load_one_name d p release name e :
  load_one fault d p release name = Ok (LoadedEntry e) →
  app_of e = default (default "" (last (removelast p))) name ∧ en_source e = None.
Proof.
  unfold load_one. rewrite result_bind_Ok. intros (raw & _ & H). destruct (left_aside _ _ _); [done|].
  apply result_bind_Ok in H as (m & _ & H). case_decide as E; [done|].
  apply result_bind_Ok in H as (graw & _ & H). apply result_bind_Ok in H as (g & _ & H).
  apply result_bind_Ok in H as (w & _ & H). apply result_bind_Ok in H as (wg & _ & H).
  injection H as <-. unfold app_of. cbn. done.
Qed.

(** Every app of a catalog is under its own name, and official. *)
Definition bare (c : Catalog) : Prop :=
  ∀ name e, ct_entries c !! name = Some e → name = app_of e ∧ en_source e = None.

Lemma bare_insert c name e : name = app_of e → en_source e = None → bare c →
  bare (with_entries (<[name := e]> (ct_entries c)) c).
Proof. intros Hn Hs H n e' H'. cbn in H'. apply lookup_insert_Some in H' as [[<- <-]|[_ He]]; [done|by apply H]. Qed.

(** The names of a disk are plain, so that one is never a path. *)
Definition well_named (d : disk) : Prop := ∀ p, is_Some (d !! p) → Forall plain p.
Hypothesis order_perm : ∀ p l, order p l ≡ₚ l.

Lemma read_dir_Ok d p names n : read_dir fault order d p = Ok names →
  n ∈ names ↔ ∃ r, is_Some (d !! (p ++ n :: r)).
Proof.
  unfold read_dir. destruct (fault p); [done|]. destruct (is_dir d p); [|done].
  intros [= <-]. by rewrite (order_perm p), elem_of_children.
Qed.

(** Every app of a directory is named by a folder. *)
Lemma collect_bare fuel d release dir out c : well_named d → Forall plain dir →
  collect fault order fuel d release dir out = Ok c →
  (∀ name e, ct_entries out !! name = Some e → plain name ∨ name = "") → bare out →
  (∀ name e, ct_entries c !! name = Some e → plain name ∨ name = "") ∧ bare c.
Proof.
  intros Hd. revert dir out c. induction fuel as [|fuel IH]; intros dir out c Hdir H Hp Hb; [by injection H as <-|].
  cbn in H. apply result_bind_Ok in H as (names & Hn & H).
  destruct (read_dir _ _ _ _) as [l|] eqn:Hr; [|done]. injection Hn as ->.
  revert H. apply (fold_m_ind (λ c, (∀ name e, ct_entries c !! name = Some e → plain name ∨ name = "") ∧ bare c)); [|by split].
  intros c1 n c2 Hin [Hp1 Hb1] H.
  apply (read_dir_Ok _ _ _ n Hr) in Hin as (r & Hfile).
  assert (plain n) as Hpn by (apply Hd in Hfile; apply Forall_app in Hfile as [_ Hfile]; by inversion Hfile).
  destruct (is_dir d (dir ++ [n])) eqn:Ed.
  - eapply IH in H; [done| |done..]. apply Forall_app. split; [done|]. by apply Forall_singleton.
  - case_decide as En; [|by injection H as <-].
    destruct (load_one fault d (dir ++ [n]) release None) as [[e|app why]|] eqn:Hl; [| |done]; injection H as <-; [|done].
    apply load_one_name in Hl as [Happ Hs]. cbn in Happ. rewrite removelast_last in Happ.
    unfold take_in. split; [|by apply bare_insert].
    intros name e' H'. cbn in H'. apply lookup_insert_Some in H' as [[<- <-]|[_ He]]; [|by apply (Hp1 name e')].
    rewrite Happ. destruct (last dir) as [x|] eqn:El; [left|by right]. cbn.
    apply last_Some in El as [l' ->]. apply Forall_app in Hdir as [_ Hdir]. by inversion Hdir.
Qed.

Lemma load_bare root d c : well_named d → Forall plain root → load fault order running root d = Ok c →
  (∀ name e, ct_entries c !! name = Some e → contains_char "/" name = false) ∧ bare c.
Proof.
  intros Hd Hr H. unfold load, load_as in H. destruct (is_dir d root); [|done]. cbn [negb] in H.
  eapply collect_bare in H as [H Hb]; [|done..]. split; [|done].
  intros name e He. destruct (H name e He) as [(_ & _ & _ & Hc)| ->]; done.
Qed.

(** *** An index's apps *)

(** What [from_index] reads of an app is the newest version the release takes, read from where
    the index keeps it. *)
Definition offered (idx : Index) (dir : path) (d : disk) (app : string) (e : Entry) : Prop :=
  ∃ v e0, newest_for idx app running = Some v ∧ app = app_of e ∧ en_source e = None ∧
    en_version e = Some (av_version v) ∧ en_index e = Some (ix_counter idx) ∧
    load_one fault d (follow dir (version_dir app (av_version v)) ++ ["manifest.yaml"]) running (Some app)
      = Ok (LoadedEntry e0) ∧ en_manifest e = en_manifest e0 ∧ en_guide e = en_guide e0.

Lemma from_index_Ok idx dir key d theirs withdrawn :
  from_index fault running idx dir key d = Ok (theirs, withdrawn) →
  (∀ app e, ct_entries theirs !! app = Some e → offered idx dir d app e) ∧ ct_revoked theirs = ∅ ∧
  ∀ app, app ∈ withdrawn → newest_for idx app running = None.
Proof using Type.
  unfold from_index. rewrite result_bind_Ok. intros ([[t q] w] & H & [= -> ->]). revert H.
  set (st0 := (_, _, _)).
  intros H. cut ((λ st : Catalog * gmap string AppQuality * gset string,
    (∀ app e, ct_entries st.1.1 !! app = Some e → offered idx dir d app e) ∧ ct_revoked st.1.1 = ∅ ∧
    ∀ app, app ∈ st.2 → newest_for idx app running = None) (theirs, q, withdrawn)); [done|].
  revert H. apply fold_m_ind; [|split; [done|split; [done|intros a Ha; by apply not_elem_of_empty in Ha]]].
  intros [[c qs] ws] [app versions] [[c2 qs2] ws2] Hin (IH & Hr & Hw) H. cbn [fst snd] in *.
  apply elem_of_btree_entries in Hin. unfold from_index_app in H.
  destruct (newest_for idx app running) as [v|] eqn:Hv.
  - apply result_bind_Ok in H as (l & Hl & H).
    destruct (load_one _ _ _ _ _) as [[e0|a why]|] eqn:E; [| |done]; injection Hl as <-; injection H as <- <- <-; [|done].
    split; [|done]. intros a e H'. cbn in H'. apply lookup_insert_Some in H' as [[<- <-]|[_ He]]; [|by apply IH].
    pose proof (load_one_name _ _ _ _ _ E) as [Hn Hs]. cbn in Hn. exists v, e0. split_and!; try done.
  - destruct (withdrawn_why _ _ _ _); injection H as <- <- <-; split_and!; try done.
    intros a [->%elem_of_singleton|Ha]%elem_of_union; [done|by apply Hw].
Qed.

(** *** What sources may change *)

Inductive op :=
| AddSource (source : string) (root : path)
| AddSigned (source : string) (dir : path) (key : string) (now : Z)
| AddOfficial (dir : path) (key : string) (now : Z).

Definition do_op (c : Catalog) (x : op * disk) : Catalog :=
  match x.1 with
  | AddSource source root => (add_source fault order running source root x.2 c).2
  | AddSigned source dir key now => (add_signed_source fault running source dir key now x.2 c).2
  | AddOfficial dir key now => (add_official fault running dir key now x.2 c).2
  end.

(** Of a catalog [c] that came from the carried one [c0]: each app is under the name its
    source gives it, the platform services are those carried, and no third-party app is one
    or is named like one. *)
Definition guarded (c0 c : Catalog) : Prop :=
  (∀ name e, ct_entries c !! name = Some e → name = entry_name e) ∧
  (∀ name e, is_platform e = true → ct_entries c !! name = Some e ↔ ct_entries c0 !! name = Some e) ∧
  (∀ name e source, ct_entries c !! name = Some e → en_source e = Some source →
     ∀ n0 e0, ct_entries c0 !! n0 = Some e0 → is_platform e0 = true → app_of e0 ≠ app_of e).

Context (c0 : Catalog) (c0_bare : bare c0)
  (c0_names : ∀ name e, ct_entries c0 !! name = Some e → contains_char "/" name = false).

Lemma guarded_refl : guarded c0 c0.
Proof.
  split; [|split].
  - intros name e H. destruct (c0_bare _ _ H) as [-> Hs]. unfold entry_name. by rewrite Hs.
  - done.
  - intros name e s H Hs. destruct (c0_bare _ _ H) as [_ E]. congruence.
Qed.

Lemma guarded_ext c c' : ct_entries c' = ct_entries c → guarded c0 c → guarded c0 c'.
Proof. unfold guarded. by intros ->. Qed.

Lemma guarded_insert c name e : guarded c0 c → name = entry_name e → is_platform e = false →
  (∀ e0, ct_entries c !! name = Some e0 → is_platform e0 = false) →
  (∀ source, en_source e = Some source →
     ∀ n0 e0, ct_entries c0 !! n0 = Some e0 → is_platform e0 = true → app_of e0 ≠ app_of e) →
  guarded c0 (with_entries (<[name := e]> (ct_entries c)) c).
Proof.
  intros (H1 & H2 & H3) Hn Hp Hold Hthird. split; [|split]; cbn.
  - intros n e' [[<- <-]|[_ He]]%lookup_insert_Some; [done|by apply H1].
  - intros n e' Hp'. rewrite <- (H2 n e' Hp'), lookup_insert_Some. split.
    + intros [[_ ->]|[_ He]]; [congruence|done].
    + intros He. right. split; [|done]. intros <-. apply Hold in He. congruence.
  - intros n e' s [[<- <-]|[_ He]]%lookup_insert_Some; [by apply Hthird|by apply (H3 n)].
Qed.

Lemma guarded_platform_no_slash c name e : guarded c0 c → ct_entries c !! name = Some e →
  is_platform e = true → contains_char "/" name = false.
Proof. intros (_ & H2 & _) H Hp. apply (c0_names name e). by apply H2. Qed.

Lemma guarded_platform_names c n0 e0 : guarded c0 c → ct_entries c0 !! n0 = Some e0 → is_platform e0 = true →
  app_of e0 ∈ platform_names c.
Proof.
  intros (_ & H2 & _) H Hp. unfold platform_names. apply list_elem_of_fmap_2. apply elem_of_keep.
  destruct (c0_bare _ _ H) as [_ Hs]. rewrite Hs, Hp. split; [done|].
  apply elem_of_btree_values. exists n0. by apply H2.
Qed.

Lemma guarded_merge source theirs c : (∀ name e, ct_entries theirs !! name = Some e → name = app_of e) →
  guarded c0 c → guarded c0 (merge source theirs c).
Proof.
  intros Ht Hc. unfold merge. set (platform := platform_names c).
  assert (Hpl : ∀ n0 e0, ct_entries c0 !! n0 = Some e0 → is_platform e0 = true → app_of e0 ∈ platform)
    by (intros; by eapply guarded_platform_names).
  apply fold_map_ind.
  - apply fold_map_ind; [|by intros ? [? ?]; intros; eapply guarded_ext].
    apply fold_map_ind; [done|by intros ? [? ?]; intros; eapply guarded_ext].
  - intros c1 [app e] Hin%elem_of_btree_entries Hc1. unfold merge_entry, refused. cbn [fst snd].
    destruct (is_platform e) eqn:Hp; [by eapply guarded_ext|].
    case_decide as Hn; [by eapply guarded_ext|]. apply guarded_insert; [done| |done|..].
    + rewrite (Ht _ _ Hin) at 1. done.
    + intros e1 He1. destruct (is_platform e1) eqn:Hp1; [|done]. exfalso.
      pose proof (guarded_platform_no_slash _ _ _ Hc1 He1 Hp1) as Hs. by rewrite qualified_slash in Hs.
    + intros s _ n0 e0 H0 Hp0 E. apply Hn. rewrite (Ht _ _ Hin). change (app_of (from_source source e)) with (app_of e) in E.
      rewrite <- E. by eapply Hpl.
Qed.

Lemma guarded_add_official dir key now d c : guarded c0 c →
  guarded c0 (add_official fault running dir key now d c).2.
Proof.
  intros Hc. unfold add_official, eff_bind, eff_of, eff_put.
  destruct (verify _ _ _ _ _) as [idx|e]; [|done]. destruct (current idx now); [|by eapply guarded_ext].
  destruct (from_index _ _ _ _ _ _) as [[theirs withdrawn]|] eqn:Hf; [|by eapply guarded_ext].
  apply from_index_Ok in Hf as (Hf & _ & _). cbn [fst snd].
  apply fold_map_ind.
  - apply fold_map_ind; [by eapply guarded_ext|]. intros c1 [app e] Hin%elem_of_btree_entries Hc1. unfold take_official.
    destruct (platform_at c1 app) eqn:Ha; [done|]. destruct (is_platform e) eqn:Hp; [done|]. cbn [orb].
    apply Hf in Hin as (v & e0 & _ & -> & Hs & _).
    eapply guarded_ext; [reflexivity|]. apply (guarded_insert c1 (app_of e) e); [done| |done| |].
    + unfold entry_name. by rewrite Hs.
    + intros e1 He1. unfold platform_at in Ha. by rewrite He1 in Ha.
    + intros s Hs'. congruence.
  - intros c1 [app why] _ Hc1. unfold leave_official. destruct (platform_at c1 app) eqn:Ha; [done|].
    case_decide; [|done]. destruct Hc1 as (H1 & H2 & H3). split; [|split]; cbn.
    + intros n e [_ He]%lookup_delete_Some. by apply H1.
    + intros n e Hp. rewrite <- (H2 n e Hp), lookup_delete_Some. split; [by intros []|].
      intros He. split; [|done]. intros <-. unfold platform_at in Ha. rewrite He in Ha. congruence.
    + intros n e s [_ He]%lookup_delete_Some. by apply (H3 n).
Qed.

Lemma guarded_op c x : (well_named x.2) → (∀ source root, x.1 = AddSource source root → Forall plain root) →
  guarded c0 c → guarded c0 (do_op c x).
Proof.
  destruct x as [o d]. cbn [fst snd]. intros Hd Hroot Hc. destruct o as [source root|source dir key now|dir key now]; cbn [do_op fst snd].
  - unfold add_source. case_decide; [done|]. destruct (is_source_name source); [|done]. cbn [negb].
    destruct (any_of _ _); [done|]. destruct (load _ _ _ root d) as [theirs|] eqn:Hl; [|done].
    apply load_bare in Hl as [_ Hb]; [|done|by eapply Hroot]. apply guarded_merge; [|done]. intros name e He. by apply Hb.
  - unfold add_signed_source. case_decide; [by apply guarded_add_official|].
    destruct (is_source_name source); [|done]. cbn [negb]. unfold eff_bind, eff_of, eff_put.
    destruct (verify _ _ _ _ _) as [idx|e]; [|done].
    destruct (current idx now).
    + destruct (from_index _ _ _ _ _ _) as [[theirs withdrawn]|] eqn:Hf; [|done]. cbn.
      apply from_index_Ok in Hf as (Hf & _ & _). apply guarded_merge; [|done].
      intros name e He. by apply Hf in He as (v & e0 & _ & -> & _).
    + apply guarded_merge; [|done]. intros name e' He. by cbn in He.
  - by apply guarded_add_official.
Qed.

End laws.
(** *** Fuel enough *)

Section fuel.
Context {semver : Semver} {cat : CatalogText}.
Context (fault : path → option string) (order : path → list string → list string).

Lemma collect_enough f1 f2 d release dir out : is_dir d dir = true →
  (depth d ≤ f1 + length dir)%nat → (depth d ≤ f2 + length dir)%nat →
  collect fault order f1 d release dir out = collect fault order f2 d release dir out.
Proof.
  revert f2 dir out. induction f1 as [|f1 IH]; intros f2 dir out Hd H1 H2.
  { apply is_dir_true in Hd as (n & r & Hs). apply depth_gt in Hs. rewrite length_app in Hs. cbn in Hs. lia. }
  destruct f2 as [|f2].
  { apply is_dir_true in Hd as (n & r & Hs). apply depth_gt in Hs. rewrite length_app in Hs. cbn in Hs. lia. }
  cbn [collect]. destruct (map_err _ _) as [names|]; [|done]. cbn. apply fold_m_ext. intros c n.
  destruct (is_dir d (dir ++ [n])) eqn:E; [|done]. apply IH; [done|rewrite length_app; cbn; lia..].
Qed.

Lemma template_tokens_enough f1 f2 t : (String.length t ≤ f1)%nat → (String.length t ≤ f2)%nat →
  template_tokens f1 t = template_tokens f2 t.
Proof.
  revert f2 t. induction f1 as [|f1 IH]; intros f2 t H1 H2.
  { destruct t; [|cbn in H1; lia]. by destruct f2. }
  destruct f2 as [|f2]; [destruct t; [done|cbn in H2; lia]|]. cbn [template_tokens].
  destruct (find_str "{{" t) as [[a rest]|] eqn:E; [|done]. f_equal.
  apply find_str_Some in E as ->. rewrite !string_length_append in *. cbn in *. apply IH; lia.
Qed.
End fuel.

(** ** What a source may do *)

Section sources.
Context {semver : Semver} {ed : Ed25519} {txt : IndexText} {cat : CatalogText}.
Context (fault : path → option string) (order : path → list string → list string) (running : Version).

(** C14. Whatever sources are added, in whatever order, and whether or not each can be read: the
    platform services a catalog offers stay those the carried catalog holds, each under its
    name and as it was carried - neither a third-party source nor the official index adds,
    replaces or removes one -, and no third-party app is a platform service or named like
    one, each being found under its source's name. *)
Theorem third_party_never_provides (root : path) (d : disk) (c0 : Catalog) (l : list (op * disk)) :
  (∀ p l, order p l ≡ₚ l) → well_named d → Forall plain root → load fault order running root d = Ok c0 →
  (∀ (o : op) (d : disk), (o, d) ∈ l → well_named d ∧ ∀ source root, o = AddSource source root → Forall plain root) →
  let c := foldl (do_op fault order running) c0 l in
  (∀ name e, is_platform e = true → ct_entries c !! name = Some e ↔ ct_entries c0 !! name = Some e) ∧
  (∀ name e source, ct_entries c !! name = Some e → en_source e = Some source →
     name = qualified (Some source) (app_of e) ∧ is_platform e = false ∧
     ∀ n0 e0, ct_entries c0 !! n0 = Some e0 → is_platform e0 = true → app_of e0 ≠ app_of e).
Proof.
  intros Ho Hd Hr Hl Hops c.
  pose proof (load_bare fault order running Ho _ _ _ Hd Hr Hl) as [Hn Hb].
  assert (guarded c0 c) as (H1 & H2 & H3).
  { unfold c. clear c. apply fold_map_ind; [by apply guarded_refl|]. intros c [o d'] [Hd' Hr']%Hops Hc.
    apply guarded_op; done. }
  split; [done|]. intros name e s He Hs. split_and!.
  - specialize (H1 _ _ He). unfold entry_name in H1. by rewrite Hs in H1.
  - destruct (is_platform e) eqn:Hp; [|done]. apply (H2 name e Hp) in He. destruct (Hb _ _ He). congruence.
  - by apply (H3 name e s).
Qed.

(** [c] and [c'] agree on every name that is not under [source]. *)
Definition same_outside (source : string) (c c' : Catalog) : Prop :=
  ∀ name, starts_with (source +:+ "/") name = false →
    ct_entries c' !! name = ct_entries c !! name ∧ ct_set_aside c' !! name = ct_set_aside c !! name ∧
    ct_revoked c' !! name = ct_revoked c !! name.

Lemma merge_outside source (theirs c : Catalog) : same_outside source c (merge source theirs c).
Proof.
  intros name Hn. assert (Hne : ∀ app, qualified (Some source) app ≠ name).
  { intros app <-. unfold qualified, SEPARATOR in Hn. apply not_true_iff_false in Hn. apply Hn.
    apply starts_with_true. exists app. by rewrite append_assoc. }
  unfold merge. set (same := λ c' : Catalog, ct_entries c' !! name = ct_entries c !! name ∧
    ct_set_aside c' !! name = ct_set_aside c !! name ∧ ct_revoked c' !! name = ct_revoked c !! name).
  change (same (foldl (merge_entry source (platform_names c))
    (foldl (λ (c : Catalog) '(app, revoked), with_revoked (<[qualified (Some source) app:=revoked]> (ct_revoked c)) c)
       (foldl (λ (c : Catalog) '(app, why), with_aside (<[qualified (Some source) app:=why]> (ct_set_aside c)) c) c
          (btree_entries (ct_set_aside theirs))) (btree_entries (ct_revoked theirs))) (btree_entries (ct_entries theirs)))).
  apply fold_map_ind; [apply fold_map_ind; [apply fold_map_ind; [done|]|]|].
  - intros c1 [app why] _ (H1 & H2 & H3). split_and!; cbn -[qualified]; rewrite ?lookup_insert_ne by apply Hne; done.
  - intros c1 [app why] _ (H1 & H2 & H3). split_and!; cbn -[qualified]; rewrite ?lookup_insert_ne by apply Hne; done.
  - intros c1 [app e] _ (H1 & H2 & H3). unfold merge_entry. cbn [fst snd].
    destruct (refused _ _ _ _); split_and!; cbn -[qualified]; rewrite ?lookup_insert_ne by apply Hne; done.
Qed.

(** Adding a third-party source touches nothing but the names under that source: every
    other app, refusal and revocation of the catalog is as it was; and a source that cannot
    be added leaves the whole catalog as it was. *)
Theorem source_changes_its_own source root dir key now d (c : Catalog) :
  let a := add_source fault order running source root d c in
  let s := add_signed_source fault running source dir key now d c in
  same_outside source c a.2 ∧ (is_ok a.1 = false → a.2 = c) ∧
  (source ≠ OFFICIAL → same_outside source c s.2 ∧ (is_ok s.1 = false → s.2 = c)).
Proof.
  assert (Hrefl : same_outside source c c) by (intros name _; done).
  cbv zeta. split; [|split].
  - unfold add_source. case_decide; [done|]. destruct (is_source_name source); [|done]. cbn [negb].
    destruct (any_of _ _); [done|]. destruct (load _ _ _ _ _); [|done]. apply merge_outside.
  - unfold add_source. case_decide; [done|]. destruct (is_source_name source); [|done]. cbn [negb].
    destruct (any_of _ _); [done|]. by destruct (load _ _ _ _ _).
  - intros Hs. unfold add_signed_source. rewrite decide_False by done.
    destruct (is_source_name source); [|done]. cbn [negb]. unfold eff_bind, eff_of, eff_put.
    destruct (verify _ _ _ _ _) as [idx|]; [|done]. destruct (current idx now).
    + destruct (from_index _ _ _ _ _ _) as [[theirs w]|]; [|done]. cbn. split; [apply merge_outside|done].
    + split; [apply merge_outside|done].
Qed.

Lemma from_source_inv name app source platform (c : Catalog) x e :
  ct_entries (merge_entry source platform c x) !! name = Some e →
  ct_entries c !! name = Some e ∨ (x.1 = app → name = qualified (Some source) app ∧ e = from_source source x.2) ∧
    name = qualified (Some source) x.1 ∧ e = from_source source x.2.
Proof.
  unfold merge_entry. destruct (refused _ _ _ _); cbn; [auto|].
  intros [[<- <-]|[_ H]]%lookup_insert_Some; [right|by left]. split; [by intros <-|done].
Qed.

Lemma merge_new source (theirs c : Catalog) name e : ct_entries (merge source theirs c) !! name = Some e →
  ct_entries c !! name = Some e ∨
  ∃ app e0, ct_entries theirs !! app = Some e0 ∧ name = qualified (Some source) app ∧ e = from_source source e0.
Proof.
  unfold merge. intros H. revert name e H.
  apply (fold_map_ind (λ c' : Catalog, ∀ name e, ct_entries c' !! name = Some e → ct_entries c !! name = Some e ∨
    ∃ app e0, ct_entries theirs !! app = Some e0 ∧ name = qualified (Some source) app ∧ e = from_source source e0)).
  - intros name e. match goal with |- ct_entries ?x !! _ = _ → _ => assert (ct_entries x = ct_entries c) as -> end; [|auto].
    apply (fold_map_ind (λ c' : Catalog, ct_entries c' = ct_entries c)); [|by intros ? []].
    by apply (fold_map_ind (λ c' : Catalog, ct_entries c' = ct_entries c)); [|intros ? []].
  - intros c1 [app e0] Hin%elem_of_btree_entries IH name e H.
    apply (from_source_inv name app) in H as [H|(_ & -> & ->)]; [by apply IH|]. right. by exists app, e0.
Qed.

Lemma merge_no_entries source (theirs c : Catalog) : ct_entries theirs = ∅ →
  ct_entries (merge source theirs c) = ct_entries c.
Proof.
  intros He. apply map_eq. intros name. apply option_eq. intros e. split.
  - intros [H|(app & e0 & H & _)]%merge_new; [done|by rewrite He in H].
  - intros H. unfold merge. rewrite He. change (btree_entries ∅) with ([] : list (string * Entry)). cbn [foldl].
    revert H. apply (fold_map_ind (λ c' : Catalog, ct_entries c !! name = Some e → ct_entries c' !! name = Some e)); [|by intros ? []].
    by apply (fold_map_ind (λ c' : Catalog, ct_entries c !! name = Some e → ct_entries c' !! name = Some e)); [|intros ? []].
Qed.

(** A version in force, of an index of a source that is up to date. *)
Definition in_force (source : string) (dir : path) (key : string) (now : Z) (d : disk) (e : Entry) : Prop :=
  ∃ idx v, verify fault dir source key d = Ok idx ∧ (now < ix_expires idx)%Z ∧
    newest_for idx (app_of e) running = Some v ∧ runs_on v running = true ∧
    revocation idx (app_of e) (av_version v) = None ∧
    en_version e = Some (av_version v) ∧ en_index e = Some (ix_counter idx).

Lemma offered_in_force source dir key now d idx app e :
  verify fault dir source key d = Ok idx → current idx now = Ok () → offered fault running idx dir d app e →
  in_force source dir key now d e.
Proof.
  intros Hv Hc (v & e0 & Hn & -> & _ & Hver & Hidx & _). exists idx, v.
  pose proof (proj1 (newest_for_Some idx (app_of e) running v) Hn) as (b & a & _ & Hr & Hk & _).
  unfold current in Hc. destruct (Z.leb_spec (ix_expires idx) now); [done|]. done.
Qed.

(** C15. Every app a signed source brings into the catalog, the official one or another's, is
    in force: the source's signed index, not out of date, holds its version, the newest this
    hlb runs, and has not revoked it. An index out of date brings none. *)
Theorem signed_apps_in_force source dir key now d (c : Catalog) :
  let r := add_signed_source fault running source dir key now d c in
  (∀ name e, ct_entries r.2 !! name = Some e → ct_entries c !! name ≠ Some e →
     in_force source dir key now d e ∧
     name = qualified (if decide (source = OFFICIAL) then None else Some source) (app_of e)) ∧
  (∀ idx, verify fault dir source key d = Ok idx → (ix_expires idx ≤ now)%Z → ct_entries r.2 = ct_entries c).
Proof.
  cbv zeta. split.
  - intros name e He Hnew. unfold add_signed_source in He. case_decide as Ho.
    + subst source. unfold add_official, eff_bind, eff_of, eff_put in He.
      destruct (verify _ _ _ _ _) as [idx|] eqn:Hv; [|done]. destruct (current idx now) as [[]|] eqn:Hc; [|done].
      destruct (from_index _ _ _ _ _ _) as [[theirs w]|] eqn:Hf; [|done]. cbn [fst snd] in He.
      apply from_index_Ok in Hf as (Hf & _). revert name e He Hnew.
      apply (fold_map_ind (λ c' : Catalog, ∀ name e, ct_entries c' !! name = Some e → ct_entries c !! name ≠ Some e →
        in_force OFFICIAL dir key now d e ∧ name = qualified None (app_of e))).
      * apply (fold_map_ind (λ c' : Catalog, ∀ name e, ct_entries c' !! name = Some e → ct_entries c !! name ≠ Some e →
          in_force OFFICIAL dir key now d e ∧ name = qualified None (app_of e))); [done|].
        intros c1 [app e] Hin%elem_of_btree_entries IH name e' H. unfold take_official in H.
        destruct (_ || _); [by apply IH|]. cbn in H.
        apply lookup_insert_Some in H as [[<- <-]|[_ H]]; [|by apply IH]. intros _.
        pose proof (Hf _ _ Hin) as Hoff. split; [by eapply offered_in_force|]. by destruct Hoff as (v & e0 & _ & -> & _).
      * intros c1 [app why] _ IH name e H. apply IH. unfold leave_official in H. destruct (platform_at c1 app); [done|].
        case_decide; [|done]. cbn in H. by apply lookup_delete_Some in H as [_ H].
    + destruct (is_source_name source); [|done]. cbn [negb] in He. unfold eff_bind, eff_of, eff_put in He.
      destruct (verify _ _ _ _ _) as [idx|] eqn:Hv; [|done]. destruct (current idx now) as [[]|] eqn:Hc.
      * destruct (from_index _ _ _ _ _ _) as [[theirs w]|] eqn:Hf; [|done].
        apply from_index_Ok in Hf as (Hf & _). cbn in He. apply merge_new in He as [He|(app & e0 & He & -> & ->)]; [done|].
        pose proof (Hf _ _ He) as Hoff. split; [|by destruct Hoff as (v & e1 & _ & -> & _)].
        apply (offered_in_force source dir key now d idx app e0) in Hoff; done.
      * cbn in He. apply merge_new in He as [He|(app & ? & He & _)]; [done|]. by cbn in He.
  - intros idx Hv Hx. assert (current idx now = Err (Expired (wrap_i64 (now - ix_expires idx)))) as Hc.
    { unfold current. by rewrite (proj2 (Z.leb_le _ _) Hx). }
    unfold add_signed_source. case_decide as Ho.
    + subst source. unfold add_official, eff_bind, eff_of, eff_put. by rewrite Hv, Hc.
    + destruct (is_source_name source); [|done]. cbn [negb]. unfold eff_bind, eff_of, eff_put. rewrite Hv, Hc. cbn [snd].
      by rewrite merge_no_entries.
Qed.

End sources.
(** ** What a validated catalog is *)

Section validated.
Context {semver : Semver} {cat : CatalogText} (running : Version) {Schema : Type} (RELEASE_SCHEMAS : list (string * string))
  (version_parse : string → option Version) (schema_parse : string → option Schema)
  (violation : Schema → string → value → result string (option (string * string))).
Context (parse_json : string → result string Access.Json) (json_text : Access.Json → string).

Definition total (l : list N) : N := foldr N.add 0 l.

(** What every app of a catalog declares to a server, together. *)
Definition connections (c : Catalog) (engine : DbEngine) : N :=
  total ((λ e, declared engine (en_manifest e)) <$> btree_values (ct_entries c)).

Lemma foldl_wrap l acc : acc + total l < 2 ^ 32 → foldl (λ sum n, wrap_u32 (sum + n)) acc l = acc + total l.
Proof.
  revert acc. induction l as [|n l IH]; intros acc H; [cbn; lia|].
  change (total (n :: l)) with (n + total l) in *. cbn [foldl]. unfold wrap_u32 at 2, u32_max.
  change (4294967295 + 1) with (2 ^ 32). rewrite N.mod_small by lia. rewrite IH; lia.
Qed.

Lemma foldr_max_ge (l : list N) n : n ∈ l → n ≤ foldr N.max 0 l.
Proof. induction 1; cbn [foldr]; lia. Qed.

Lemma total_positive {A} (f : A → N) (l : list (string * A)) :
  total (omap (λ '(name, e), if 0 <? f e then Some (name, f e) else None) l).*2 = total (f <$> l.*2).
Proof.
  set (F := λ x : string * A, _). induction l as [|[name e] l IH]; [done|].
  change (omap F ((name, e) :: l)) with (match F (name, e) with Some y => y :: omap F l | None => omap F l end).
  transitivity (f e + total (f <$> l.*2)); [|done]. rewrite <- IH.
  unfold F at 1. destruct (N.ltb_spec 0 (f e)); [done|lia].
Qed.

Lemma max_le_total l : foldr N.max 0 l ≤ total l.
Proof. induction l as [|n l IH]; unfold total in *; cbn [foldr]; lia. Qed.

(** A budget without a refusal: the server's limit covers every app, and one of them twice. *)
Lemma budget_fits (c : Catalog) engine server :
  budget c engine = [] → get c (db_service_name engine) = Ok server → 2 * connections c engine < 2 ^ 32 →
  ∀ name e, ct_entries c !! name = Some e → 0 < declared engine (en_manifest e) →
    ∃ limit, connection_limit engine server = Some limit ∧
      connections c engine + declared engine (en_manifest e) ≤ limit - kept_for_the_administrator engine.
Proof.
  intros Hb Hs Hsum name e He Hpos. unfold budget in Hb. rewrite Hs in Hb.
  set (apps := omap _ _) in Hb.
  assert (Htot : total apps.*2 = connections c engine).
  { unfold apps. rewrite (total_positive (λ e, declared engine (en_manifest e))). unfold connections, btree_values.
    done. }
  assert (Hin : (name, declared engine (en_manifest e)) ∈ apps).
  { unfold apps. apply list_elem_of_omap. exists (name, e). split; [by apply elem_of_btree_entries|].
    by rewrite (proj2 (N.ltb_lt _ _) Hpos). }
  case_bool_decide as E; [rewrite E in Hin; by apply elem_of_nil in Hin|].
  destruct (connection_limit engine server) as [limit|]; [|done]. exists limit. split; [done|].
  assert (Hle : declared engine (en_manifest e) ≤ foldr N.max 0 apps.*2).
  { apply foldr_max_ge. apply list_elem_of_fmap. by exists (name, declared engine (en_manifest e)). }
  pose proof (max_le_total apps.*2) as Hmax. rewrite foldl_wrap in Hb by lia.
  unfold wrap_u32, u32_max in Hb. change (4294967295 + 1) with (2 ^ 32) in Hb. rewrite N.mod_small in Hb by lia.
  destruct (N.ltb_spec (limit - kept_for_the_administrator engine) (0 + total apps.*2 + foldr N.max 0 apps.*2)); [done|lia].
Qed.

(** Who writes which claim. *)
Definition claim_writers (c : Catalog) : list (string * string) :=
  '(name, e) ← btree_entries (ct_entries c); (λ claim, (name, claim)) <$> claims_of (en_manifest e).

Lemma claim_writer_none l w errs : (foldl claim_writer (w, errs) l).2 = [] ↔
  errs = [] ∧ NoDup l.*2 ∧ ∀ claim, claim ∈ l.*2 → w !! claim = None.
Proof.
  revert w errs. induction l as [|[name claim] l IH]; intros w errs; cbn [foldl].
  - cbn. split; [intros ->; split_and!; [done|constructor|intros ? H; by apply elem_of_nil in H]|by intros []].
  - unfold claim_writer at 2. rewrite IH. rewrite fmap_cons, NoDup_cons. cbn [snd]. split.
    + intros (He & Hnd & Hw). assert (Hc : claim ∉ l.*2).
      { intros H. apply Hw in H. by rewrite lookup_insert_eq in H. }
      destruct (w !! claim) as [other|] eqn:E; [by apply app_nil in He as [_ [=]]|].
      split_and!; [done..|]. intros cl [->|H]%elem_of_cons; [done|]. specialize (Hw cl H).
      by apply lookup_insert_None in Hw as [].
    + intros (-> & [Hc Hnd] & Hw). rewrite (Hw claim) by left. split_and!; [done..|].
      intros cl H. apply lookup_insert_None. split; [apply Hw; by right|]. intros ->. done.
Qed.

Lemma failing_none f (c : Catalog) : failing f c = [] ↔ ∀ name e, ct_entries c !! name = Some e → f e = Ok ().
Proof.
  unfold failing. split.
  - intros H name e He. destruct (f e) as [[]|err] eqn:E; [done|].
    assert (Hin : (name, err) ∈ omap (λ '(name, e), match f e with Err err => Some (name, err) | Ok _ => None end)
      (btree_entries (ct_entries c))).
    { apply list_elem_of_omap. exists (name, e). split; [by apply elem_of_btree_entries|]. by rewrite E. }
    rewrite H in Hin. by apply elem_of_nil in Hin.
  - intros H. destruct (omap _ _) as [|[name err] l] eqn:E; [done|]. exfalso.
    assert (Hin : (name, err) ∈ (name, err) :: l) by left. rewrite <- E in Hin.
    apply list_elem_of_omap in Hin as ([n e] & Hin%elem_of_btree_entries & Hf). by rewrite (H _ _ Hin) in Hf.
Qed.

(** No environment hands a secret over, and each file an environment names is mounted. *)
Definition no_secret_in_environment (m : Manifest) : Prop :=
  ∀ at_ env files var value, (at_, env, files) ∈ containers m → env !! var = Some value →
    carries_secret value = false ∧
    (starts_with "/run/secrets/" value = true → ∃ f, f ∈ files ∧ cf_path f = value).

Lemma catalog_rules_environment e : catalog_rules e = Ok () → no_secret_in_environment (en_manifest e).
Proof.
  unfold catalog_rules. rewrite !seq_Ok. intros (_ & _ & _ & H & _) at_ env files var value Hin Hv.
  rewrite each_Ok in H. specialize (H _ Hin). unfold check_environment in H. rewrite each_Ok in H.
  specialize (H (var, value) ltac:(by apply elem_of_btree_entries)). cbv beta iota in H.
  destruct (carries_secret value); [done|]. split; [done|]. intros Hs. rewrite Hs in H. cbn [andb] in H.
  destruct (any_of (λ f, cf_path f ==? value) files) eqn:E; [|done].
  apply any_of_true in E as (f & Hf & E%bool_decide_eq_true). eauto.
Qed.

(** The oldest hlb the range of an entry names reads it: it is this one or a later, or a
    release whose schema this one carries, and both documents as written hold to it. *)
Definition read_by_its_floor (e : Entry) : Prop :=
  ∃ range oldest, md_hlb (mf_metadata (en_manifest e)) = Some range ∧ floor range = Ok oldest ∧
    (version_cmp oldest running ≠ Lt ∨
     ∃ v text schema, (v, text) ∈ RELEASE_SCHEMAS ∧ version_parse v = Some oldest ∧ schema_parse text = Some schema ∧
       violation schema "manifest" (en_written e).1 = Ok None ∧ violation schema "guide" (en_written e).2 = Ok None).

Lemma release_rules_read e :
  release_rules RELEASE_SCHEMAS version_parse schema_parse violation e running = Ok () → read_by_its_floor e.
Proof.
  unfold release_rules. destruct (md_hlb _) as [range|] eqn:Er; [|done]. destruct (floor range) as [oldest|why] eqn:Ef; [|done].
  intros H. exists range, oldest. split; [done|]. split; [done|]. destruct (version_cmp oldest running) eqn:Ec; [by left| |by left]. right.
  destruct (release_schema RELEASE_SCHEMAS version_parse schema_parse oldest) as [schema|] eqn:Es; [|done].
  unfold release_schema in Es. destruct (find_first _ RELEASE_SCHEMAS) as [[v text]|] eqn:Ev; [|done]. cbn in Es.
  apply find_first_Some in Ev as (l1 & l2 & El & Hv%bool_decide_eq_true & _).
  exists v, text, schema. split; [rewrite El; apply elem_of_app; right; by left|]. split; [done|]. split; [done|]. rewrite each_Ok in H.
  assert (Hp : ∀ part written, (part, written) ∈ [("manifest", (en_written e).1); ("guide", (en_written e).2)] →
    violation schema part written = Ok None).
  { intros part written Hx. specialize (H _ Hx). unfold floor_reads in H. by destruct (violation schema part written) as [[[? ?]|]|]. }
  split; apply Hp; [left|right; left].
Qed.

(** What every service of an entry runs is pinned, and told its memory. *)
Definition pinned_and_sized (m : Manifest) : Prop :=
  (∀ i, i ∈ sp_image (mf_spec m) :: (co_image <$> sp_companions (mf_spec m)) → img_built_here i = false →
    ∃ d, img_digest i = Some d ∧ digest_written d = true) ∧
  ∀ mem, mem ∈ sw_memory (sp_swarm (mf_spec m)) :: (co_memory <$> sp_companions (mf_spec m)) → is_Some mem.

Lemma entry_pinned_and_sized m : validate_catalog_images m = Ok () → validate_catalog_memory m = Ok () → pinned_and_sized m.
Proof.
  unfold validate_catalog_images, validate_catalog_memory. rewrite !each_Ok. intros Hi Hm. split.
  - intros i Hin Hb. assert (Hx : ∃ who, (who, i) ∈ ("the app", sp_image (mf_spec m)) :: ((λ c, (co_name c, co_image c)) <$> sp_companions (mf_spec m))).
    { apply elem_of_cons in Hin as [->|(c & -> & Hc)%list_elem_of_fmap]; [exists "the app"; by left|].
      exists (co_name c). right. apply list_elem_of_fmap. by exists c. }
    destruct Hx as [who Hx]. specialize (Hi (who, i)). rewrite elem_of_keep, Hb in Hi. specialize (Hi (conj eq_refl Hx)).
    apply refuse_if_Ok, negb_false_iff in Hi. destruct (img_digest i) as [d|]; [by exists d|done].
  - intros mem Hin. assert (Hx : ∃ who, (who, mem) ∈ ("the app", sw_memory (sp_swarm (mf_spec m))) ::
      ((λ c, ("companion " +:+ co_name c, co_memory c)) <$> sp_companions (mf_spec m))).
    { apply elem_of_cons in Hin as [->|(c & -> & Hc)%list_elem_of_fmap]; [exists "the app"; by left|].
      eexists. right. apply list_elem_of_fmap. by exists c. }
    destruct Hx as [who Hx]. specialize (Hm _ Hx). apply refuse_if_Ok, bool_decide_eq_false in Hm. by apply not_eq_None_Some.
Qed.

(** C16. A catalog that validates: no app is set aside; each app's range names an oldest hlb that
    reads it - this one or a later, or a release whose schema this one carries, to which its
    manifest and its guide hold as they are written -, its manifest and guide pass the rules
    of every manifest, its images are pinned or built here, each of its services says its
    memory, and no environment hands a secret over; no two apps write one claim; and each
    database server holds the connections of all the apps at once, and those of any one of
    them again - unless they are so many that twice their sum passes what 32 bits count. *)
Theorem validated_catalog (c : Catalog) :
  validate_all running RELEASE_SCHEMAS version_parse schema_parse violation parse_json json_text c = [] →
  ct_set_aside c = ∅ ∧
  (∀ name e, ct_entries c !! name = Some e →
     read_by_its_floor e ∧
     validate_with_guide json_text (en_manifest e) (en_guide e) = Ok () ∧
     validate_guide parse_json (en_manifest e) (en_guide e) = Ok () ∧
     pinned_and_sized (en_manifest e) ∧
     no_secret_in_environment (en_manifest e)) ∧
  NoDup (claim_writers c).*2 ∧
  ∀ engine server, get c (db_service_name engine) = Ok server → 2 * connections c engine < 2 ^ 32 →
    ∀ name e, ct_entries c !! name = Some e → 0 < declared engine (en_manifest e) →
      ∃ limit, connection_limit engine server = Some limit ∧
        connections c engine + declared engine (en_manifest e) ≤ limit - kept_for_the_administrator engine.
Proof.
  unfold validate_all. intros ([=Ha]%fmap_nil_inv & (Hr & (He & (Hc & Hb)%app_nil)%app_nil)%app_nil)%app_nil.
  split; [|split; [|split]].
  - apply map_empty. intros name. apply eq_None_not_Some. intros [why H].
    assert (Hin : (name, why) ∈ btree_entries (ct_set_aside c)) by by apply elem_of_btree_entries.
    rewrite Ha in Hin. by apply elem_of_nil in Hin.
  - intros name e H. rewrite failing_none in Hr, He. specialize (Hr _ _ H). specialize (He _ _ H).
    unfold check_entry in He. rewrite !seq_Ok in He. destruct He as (H1 & H2 & H3 & H4 & H5).
    split_and!; [by apply release_rules_read|done|done|by apply entry_pinned_and_sized|by apply catalog_rules_environment].
  - unfold shared_claims in Hc. by apply claim_writer_none in Hc as (_ & Hc & _).
  - apply app_nil in Hb as [Hp Hm]. intros [] server; by apply budget_fits.
Qed.

End validated.
End Sources.

(** ** A catalog to evaluate on

    Manifests written as their kind and their name; every range accepts every release. *)

Module ToySources.
Import Sources.

#[local] Instance semver : Semver := {| version_req _ := Ok []; matches _ _ := true |}.
Definition running : Version := {| v_major := 0; v_minor := 4; v_patch := 0 |}.
Definition manifest (kind : Kind) (name : string) : Manifest :=
  {| mf_api_version := V1; mf_kind := kind;
     mf_metadata := {| md_name := name; md_hlb := None; md_criticality := None; md_display_name := None;
                       md_category := None; md_homepage := None |};
     mf_spec := example_spec |}.
#[local] Instance cat : CatalogText := {|
  value := string; yaml_range _ := None;
  yaml_manifest raw := match strip_prefix "app " raw, strip_prefix "platform " raw with
    | Some n, _ => Ok (manifest App n)
    | None, Some n => Ok (manifest PlatformService n)
    | None, None => Err "not a manifest"
    end;
  yaml_guide _ := Ok default_guide; yaml_value raw := Ok raw |}.
#[local] Existing Instance Toy.ed.
#[local] Existing Instance Toy.txt.

Definition order (p : path) (l : list string) := l.
(** The carried catalog in [c], a third-party one in [g]. *)
Definition tree : disk :=
  <[["c"; "_platform"; "db"; "manifest.yaml"] := "platform db"]>
  (<[["c"; "wiki"; "manifest.yaml"] := "app wiki"]>
  (<[["g"; "db"; "manifest.yaml"] := "app db"]>
  (<[["g"; "notes"; "manifest.yaml"] := "app notes"]> ∅))).
Definition carried : Catalog := match load Toy.no_fault order running ["c"] tree with Ok c => c | Err _ => empty_catalog end.
Definition ops : list (op * disk) := [(AddSource "guild" ["g"], tree)].
Definition all_in : Catalog := foldl (do_op Toy.no_fault order running) carried ops.

Lemma all_in_names : names carried = ["db"; "wiki"] ∧ names all_in = ["db"; "guild/notes"; "wiki"] ∧
  (left_out all_in).*1 = ["guild/db"].
Proof. vm_compute. auto. Qed.

#[local] Instance plain_dec n : Decision (plain n).
Proof. unfold plain. apply _. Defined.
Lemma plain_check (p : path) : bool_decide (Forall plain p) = true → Forall plain p.
Proof. apply bool_decide_eq_true. Qed.
Lemma well_named_check (d : disk) : forallb (λ p, bool_decide (Forall plain p)) (map_to_list d).*1 = true → well_named d.
Proof.
  intros H p Hp. rewrite forallb_forall in H. apply elem_of_files, list_elem_of_In, H in Hp.
  by apply bool_decide_eq_true in Hp.
Qed.

(** Two folders of one name: one of the two apps is not in the catalog. *)
Definition twice : disk :=
  <[["c"; "a"; "wiki"; "manifest.yaml"] := "app wiki"]> (<[["c"; "b"; "wiki"; "manifest.yaml"] := "app wiki"]> ∅).
Lemma same_folder_twice :
  ∃ c, load Toy.no_fault order running ["c"] twice = Ok c ∧ length (map_to_list twice) = 2%nat ∧ names c = ["wiki"].
Proof. eexists. split; [vm_compute; reflexivity|]. split; vm_compute; reflexivity. Qed.

(** A manifest no signature covers: the index of [Toy] lists an icon, and the manifest lying
    beside it in the directory is the one installed. *)
Lemma unlisted_manifest_read :
  let d := <[["w"; "apps"; "wiki"; "1.0"; "manifest.yaml"] := "app wiki"]> (Toy.the_sign Toy.built).2 in
  let r := add_signed_source Toy.no_fault running "guild" ["w"] (@public_key Toy.ed [1; 2; 3]) 1000000 d carried in
  av_files Toy.one !! "manifest.yaml" = None ∧ r.1 = Ok () ∧
  en_manifest <$> ct_entries r.2 !! "guild/wiki" = Some (manifest App "wiki").
Proof. vm_compute. auto. Qed.

End ToySources.

(** ** A catalog that validates *)

Module ToyValid.
Import Sources.

#[local] Instance semver : Semver := {|
  version_req _ := Ok [{| c_op := GreaterEq; c_major := 0; c_minor := Some 4; c_patch := None |}];
  matches _ _ := true |}.
#[local] Existing Instance ToySources.cat.

Definition pinned : Image :=
  {| img_repo := "ghcr.io/wiki/wiki"; img_tag := "1.0";
     img_digest := Some "sha256:e3b0c44298fc1c149afbf4c8996fb92427ae41e4649b934ca495991b7852b855";
     img_built_here := false; img_signed_by := None |}.
Definition spec (requires : list Capability) (files : list ConfigFile) (env : gmap string string)
    (args : list string) : Spec :=
  {| sp_image := pinned; sp_runtime := Swarm; sp_requires := requires; sp_ingress := [];
     sp_swarm := {| sw_replicas := 1; sw_healthcheck := None; sw_tier := None; sw_node_label := None;
       sw_memory := Some {| mem_reserve := MkBytes (64 * MIB); mem_limit := MkBytes (256 * MIB) |} |};
     sp_update := default_update; sp_companions := []; sp_env := env; sp_shared_env := ∅;
     sp_security := default_security; sp_files := files; sp_command := []; sp_args := args;
     sp_process := default_process; sp_assertions := []; sp_access := None;
     sp_recovery := []; sp_jobs := []; sp_downloads := [] |}.
Definition entry (kind : Kind) (name : string) (crit : option Criticality) (s : Spec) : Entry :=
  {| en_source := None; en_index := None; en_version := None; en_quality := None;
     en_manifest := {| mf_api_version := V1; mf_kind := kind;
       mf_metadata := {| md_name := name; md_hlb := Some ">=0.4.0"; md_criticality := crit;
         md_display_name := None; md_category := None; md_homepage := None |};
       mf_spec := s |};
     en_path := []; en_guide := default_guide; en_written := ("", "") |}.
Definition wiki : Entry := entry App "wiki" (Some Manifest.Normal)
  (spec [Database Postgres None [] (Some 10)]
    [{| cf_path := "/run/secrets/db"; cf_content := "{{ db.password }}" |}]
    {[ "DB_FILE" := "/run/secrets/db"; "DB_HOST" := "{{ db.host }}" ]} ["serve"]).
Definition postgres : Entry := entry PlatformService "postgres" None
  (spec [] [] ∅ ["-c"; "max_connections=100"]).
Definition whole : Catalog :=
  {| ct_entries := {[ "wiki" := wiki; "postgres" := postgres ]}; ct_set_aside := ∅; ct_revoked := ∅ |}.
Definition errors (c : Catalog) : list (string * Validate.Error) :=
  validate_all (Schema := ()) ToySources.running [] (λ _, None) (λ _, None) (λ _ _ _, Ok None)
    (λ _, Err "") (λ _, "") c.

End ToyValid.

Lemma validated_catalog_witness :
  ToyValid.errors ToyValid.whole = [] ∧ Sources.pinned_and_sized (Sources.en_manifest ToyValid.wiki).
Proof.
  assert (ToyValid.errors ToyValid.whole = []) as H by (vm_compute; reflexivity). split; [exact H|].
  refine (proj1 (proj2 (proj2 (proj2 (proj1 (proj2 (@Sources.validated_catalog ToyValid.semver ToySources.cat ToySources.running ()
    [] (λ _, None) (λ _, None) (λ _ _ _, Ok None) (λ _, Err "") (λ _, "") ToyValid.whole H)) "wiki" ToyValid.wiki _))))).
  vm_compute. reflexivity.
Defined.

Lemma third_party_never_provides_witness :
  Sources.names ToySources.all_in = ["db"; "guild/notes"; "wiki"] ∧
  Sources.ct_entries ToySources.all_in !! "db" = Sources.ct_entries ToySources.carried !! "db".
Proof.
  split; [by vm_compute|].
  destruct (Sources.ct_entries ToySources.carried !! "db") as [e|] eqn:He; [|by vm_compute in He].
  refine (proj2 (proj1 (@Sources.third_party_never_provides ToySources.semver Toy.ed Toy.txt ToySources.cat Toy.no_fault
    ToySources.order ToySources.running ["c"] ToySources.tree ToySources.carried ToySources.ops _ _ _ _ _) "db" e _) He).
  - intros p l. reflexivity.
  - apply ToySources.well_named_check. by vm_compute.
  - apply ToySources.plain_check. by vm_compute.
  - by vm_compute.
  - intros o d H%list_elem_of_singleton. injection H as -> ->. split; [apply ToySources.well_named_check; by vm_compute|].
    intros source root E. injection E as <- <-. apply ToySources.plain_check. by vm_compute.
  - vm_compute in He. injection He as <-. by vm_compute.
Defined.
