(* ===== verification/IndexBuild.v ===== *)
(** * Building a source's index

    The rest of [crates/hlb-catalog/src/index.rs]: the index of a catalog's directory, built
    above the one published before, and the results of its apps' runs beside it. *)

From S2P Require Import Prelude RustStr Encoding Guide Manifest CatalogIndex Sources.
Import Disk Index Signing Sources.
Local Open Scope N_scope.

Module IndexBuild.

(** How a version's packagings are told apart. *)
Definition PACKAGING : string := "~hlb".

(** The packaging of [tag] a version is: the first is the tag alone.
    @ hlb-catalog/src/index.rs:730-734 [next_version] *)
Definition packaging (tag version : string) : option N :=
  match find_str PACKAGING version with
  | None => if decide (version = tag) then Some 1 else None
  | Some (t, n) => if decide (t = tag) then parse_uint u32_max n else None
  end.

(** @ hlb-catalog/src/index.rs:726-740 [next_version] *)
Definition next_version (tag : string) (versions : list AppVersion) : string :=
  match max_by N.compare (omap (λ v, packaging tag (av_version v)) versions) with
  | None => tag
  | Some n => tag +:+ PACKAGING +:+ show_N (wrap_u32 (n + 1))
  end.

(** The file of a catalog listing its revoked versions.
    @ hlb-catalog/src/index.rs:224-225 [REVOKED_FILE] *)
Definition REVOKED_FILE : string := "revoked.yaml".

Section build.
Context {semver : Semver} {ed : Ed25519} {txt : IndexText} {cat : CatalogText}.
Context (fault : path → option string) (order : path → list string → list string) (running : Version).
Context (yaml_revoked : string → result string (gmap string (list Revoked))).

(** Does an index of the source hold that version of the app?
    @ hlb-catalog/src/index.rs:248-253 [revocations] *)
Definition holds_version (before : option Index) (apps : gmap string (list AppVersion))
    (app version : string) : bool :=
  any_of (λ v, av_version v ==? version)
    (default [] (apps !! app) ++ default [] (before ≫= λ b, ix_apps b !! app)).

(** @ hlb-catalog/src/index.rs:248-264 [revocations] *)
Definition revoke_one (file : path) (before : option Index) (apps : gmap string (list AppVersion))
    (app : string) (out : gmap string (list Revoked)) (r : Revoked)
    : result Error (gmap string (list Revoked)) :=
  if negb (holds_version before apps app (r_version r))
  then Err (UnknownRevocation file app (r_version r))
  else
    let l := default [] (out !! app) in
    Ok (<[app := if any_of (λ x, r_version x ==? r_version r) l then l else l ++ [r]]> out).

(** @ hlb-catalog/src/index.rs:227-268 [revocations] *)
Definition revocations (catalog_dir : path) (before : option Index)
    (apps : gmap string (list AppVersion)) (d : disk) : result Error (gmap string (list Revoked)) :=
  let file := catalog_dir ++ [REVOKED_FILE] in
  listed ← match read_to_string fault d file with
    | Ok text => map_err (Yaml file) (yaml_revoked text)
    | Err NotFound => Ok ∅
    | Err e => Err (Io file e)
    end;
  fold_m (λ out '(app, versions), fold_m (revoke_one file before apps app) out versions)
    (default ∅ (ix_revoked <$> before)) (btree_entries listed).

(** The name of a file under a directory, its separators those of the index.
    @ hlb-catalog/src/index.rs:689-693 [walk] *)
Definition shown_under (root p : path) : string :=
  replace "\" "/" (join "/" (default p (under root p))).

(** The walk goes down no further than the files do.
    @ hlb-catalog/src/index.rs:678-698 [walk] *)
Fixpoint walk (fuel : nat) (d : disk) (root dir : path) (out : gmap string string)
    : result Error (gmap string string) :=
  match fuel with
  | O => Ok out
  | S fuel =>
      names ← map_err (Io dir) (read_dir fault order d dir);
      fold_m (λ out n,
        let p := dir ++ [n] in
        if is_dir d p then walk fuel d root p out
        else
          bytes ← map_err (Io p) (read fault d p);
          Ok (<[shown_under root p := sha256_hex (bytes_of bytes)]> out)) out names
  end.

(** @ hlb-catalog/src/index.rs:670-676 [hashed] *)
Definition hashed (dir : path) (d : disk) : result Error (gmap string string) :=
  walk (depth d) d dir dir ∅.

(** @ hlb-catalog/src/index.rs:704-711 [copy_version] *)
Definition copy_file (src_base out : path) (base rel : string) : eff disk Error () := λ d,
  match contained out base rel with
  | None => (Err (PathEscapes (base +:+ "/" +:+ rel)), d)
  | Some to =>
      match read fault d (follow src_base rel) with
      | Err e => (Err (Io (follow src_base rel) e), d)
      | Ok bytes => write_file fault to bytes d
      end
  end.

(** @ hlb-catalog/src/index.rs:700-713 [copy_version] *)
Definition copy_version (src_base out : path) (app : string) (v : AppVersion) : eff disk Error () :=
  eff_each (copy_file src_base out (version_dir app (av_version v))) (btree_keys (av_files v)).

(** The images an app runs, as an index names them.
    @ hlb-catalog/src/index.rs:191-194 [build] *)
Definition images_of (m : Manifest) : list string :=
  image_reference <$> (sp_image (mf_spec m) :: (co_image <$> sp_companions (mf_spec m))).

(** The versions of an app in the index published before.
    @ hlb-catalog/src/index.rs:181-184 [build] *)
Definition published_versions (before : option (Index * path)) (app : string) : list AppVersion :=
  default [] (before ≫= λ b, ix_apps b.1 !! app).

(** @ hlb-catalog/src/index.rs:171-205 [build] *)
Definition build_app (before : option (Index * path)) (out : path)
    (e : Entry) : eff disk Error (string * list AppVersion) :=
  let m := en_manifest e in
  let app := md_name (mf_metadata m) in
  let! range := eff_of (ok_or (NoRange app) (md_hlb (mf_metadata m))) in
  let dir := removelast (en_path e) in
  let! files := on_disk (hashed dir) in
  let versions := published_versions before app in
  eff_each (λ v,
    match before with
    | Some (_, from) => copy_version (follow from (version_dir app (av_version v))) out app v
    | None => eff_ret ()
    end) versions ;;!
  if decide (av_files <$> last versions = Some files) then eff_ret (app, versions)
  else
    let v := {| av_version := next_version (img_tag (sp_image (mf_spec m))) versions;
                av_hlb := range; av_files := files; av_images := images_of m |} in
    copy_version dir out app v ;;!
    eff_ret (app, versions ++ [v]).

(** @ hlb-catalog/src/index.rs:170-205 [build] *)
Fixpoint build_apps (before : option (Index * path)) (out : path) (l : list Entry)
    (apps : gmap string (list AppVersion)) : eff disk Error (gmap string (list AppVersion)) :=
  match l with
  | [] => eff_ret apps
  | e :: l =>
      let! x := build_app before out e in
      build_apps before out l (<[x.1 := x.2]> apps)
  end.

(** The index published before, its files checked.
    @ hlb-catalog/src/index.rs:155-168 [build] *)
Definition read_previous (source : string) (previous : option path) (d : disk)
    : result Error (option (Index * path)) :=
  match previous with
  | None => Ok None
  | Some dir =>
      idx ← read_index fault (dir ++ [FILE]) d;
      if decide (ix_source idx ≠ source) then Err (WrongSource source (ix_source idx))
      else
        _ ← check_files fault idx dir d;
        Ok (Some (idx, dir))
  end.

(** @ hlb-catalog/src/index.rs:138-154 [build] *)
Definition load_to_build (catalog_dir out : path) (d : disk) : result Error Catalog :=
  catalog ← map_err Signing.Catalog (load fault order running catalog_dir d);
  match left_out catalog with
  | (app, why) :: _ => Err (Unreadable app why)
  | [] =>
      if exists_ d out then
        names ← map_err (Io out) (read_dir fault order d out);
        if decide (names = []) then Ok catalog else Err (OutNotEmpty out)
      else Ok catalog
  end.

(** @ hlb-catalog/src/index.rs:124-222 [build] *)
Definition build (catalog_dir : path) (source : string) (previous : option path) (out : path)
    (now : Z) : eff disk Error Index :=
  let! catalog := on_disk (load_to_build catalog_dir out) in
  let! before := on_disk (read_previous source previous) in
  let! apps := build_apps before out (entries catalog) ∅ in
  let! revoked := on_disk (revocations catalog_dir (fst <$> before) apps) in
  let idx := {| ix_source := source;
                ix_counter := match before with Some (i, _) => wrap_u64 (ix_counter i + 1) | None => 1 end;
                ix_expires := wrap_i64 (now + VALIDITY_SECS); ix_apps := apps; ix_revoked := revoked |} in
  let! text := eff_of (map_err (Json (out ++ [FILE])) (index_print idx)) in
  write_file fault (out ++ [FILE]) (newline text) ;;!
  eff_ret idx.

(** *** The results of the apps' runs *)

(** The quality file published before: none when there is no such path.
    @ hlb-catalog/src/index.rs:411-420 [build_quality] *)
Definition previous_quality (previous : option path) (d : disk) : result Error (option Quality) :=
  match previous with
  | Some p =>
      let file := p ++ [QUALITY_FILE] in
      if exists_ d file then
        bytes ← map_err (Io file) (read fault d file);
        Some <$> map_err (Json file) (quality_parse bytes)
      else Ok None
  | None => Ok None
  end.

(** One file of the directory of runs.
    @ hlb-catalog/src/index.rs:427-456 [build_quality] *)
Definition gather_run (idx : Index) (dir : path) (d : disk) (fresh : gmap string Run) (n : string)
    : result Error (gmap string Run) :=
  match strip_suffix ".json" n with
  | None => Ok fresh
  | Some app =>
      let p := dir ++ [n] in
      if decide (ix_apps idx !! app = None) then Err (QualityUnknownApp (join "/" p) app)
      else
        bytes ← map_err (Io p) (read fault d p);
        run ← map_err (Json p) (run_parse bytes);
        if negb (is_day (run_date run)) then Err (BadDate p (run_date run))
        else Ok (<[app := run]> fresh)
  end.

(** @ hlb-catalog/src/index.rs:421-457 [build_quality] *)
Definition gather_runs (idx : Index) (runs : option path) (d : disk) : result Error (gmap string Run) :=
  match runs with
  | None => Ok ∅
  | Some dir =>
      names ← map_err (Io dir) (read_dir fault order d dir);
      fold_m (gather_run idx dir d) ∅ names
  end.

(** The day compares as text. @ hlb-catalog/src/index.rs:464-470 [build_quality] *)
Definition newer_run (fresh old : option Run) : option Run :=
  match fresh, old with
  | Some new, Some old =>
      if String.compare (run_date old) (run_date new) is Gt then Some old else Some new
  | Some new, None => Some new
  | None, old => old
  end.

(** @ hlb-catalog/src/index.rs:462-473 [build_quality] *)
Definition app_quality (before : option Quality) (fresh : gmap string Run) (today app : string) : AppQuality :=
  let old := before ≫= λ b, q_apps b !! app in
  {| aq_since := match old with Some o => aq_since o | None => today end;
     aq_last := newer_run (fresh !! app) (old ≫= aq_last) |}.

(** @ hlb-catalog/src/index.rs:400-487 [build_quality] *)
Definition build_quality (idx : Index) (runs previous : option path) (out : path) (today : string)
    : eff disk Error (option Quality) :=
  let! before := on_disk (previous_quality previous) in
  let! fresh := on_disk (gather_runs idx runs) in
  if decide (before = None ∧ fresh = ∅) then eff_ret None
  else
    let q := {| q_source := ix_source idx; q_index := ix_counter idx;
                q_apps := map_imap (λ app _, Some (app_quality before fresh today app)) (ix_apps idx) |} in
    let! text := eff_of (map_err (Json (out ++ [QUALITY_FILE])) (quality_print q)) in
    write_file fault (out ++ [QUALITY_FILE]) (newline text) ;;!
    eff_ret (Some q).

End build.
(** ** Laws *)

(** *** Names of versions *)

Lemma max_N_ge l n m : max_by N.compare l = Some n → m ∈ l → m ≤ n.
Proof. intros H Hm. pose proof (max_by_ge N.compare l n m total_cmp_N H Hm) as E. by apply N.compare_le_iff. Qed.

Lemma packaging_next tag n : contains_char "~" tag = false → n ≤ u32_max →
  packaging tag (tag +:+ PACKAGING +:+ show_N n) = Some n.
Proof.
  intros Ht Hn. unfold packaging, PACKAGING. rewrite find_str_first by done.
  rewrite decide_True by done. by apply parse_uint_show.
Qed.

Lemma packaging_tag tag : contains_char "~" tag = false → packaging tag tag = Some 1.
Proof.
  intros Ht. unfold packaging. destruct (find_str PACKAGING tag) as [[a b]|] eqn:E; [|by rewrite decide_True].
  apply find_str_Some in E. rewrite E in Ht. unfold PACKAGING in Ht. rewrite append_cons, contains_char_append, contains_char_cons in Ht.
  rewrite bool_decide_eq_true_2, orb_true_r in Ht by done. done.
Qed.

Lemma next_version_new tag versions :
  contains_char "~" tag = false →
  (∀ v n, v ∈ versions → packaging tag (av_version v) = Some n → n < u32_max) →
  next_version tag versions ∉ av_version <$> versions.
Proof.
  intros Ht Hmax (v & Hv & Hin)%list_elem_of_fmap. unfold next_version in Hv.
  set (l := omap _ versions) in Hv.
  assert (Hl : ∀ n, packaging tag (av_version v) = Some n → n ∈ l)
    by (intros n Hn; apply list_elem_of_omap; eauto).
  destruct (max_by N.compare l) as [n|] eqn:E.
  - assert (Hn : n < u32_max).
    { apply max_by_elem, list_elem_of_omap in E as (w & Hw & Hp). exact (Hmax w n Hw Hp). }
    unfold wrap_u32 in Hv. rewrite N.mod_small in Hv by (unfold u32_max in *; lia).
    assert (n + 1 ∈ l) as Hin2 by (apply Hl; rewrite <- Hv; apply packaging_next; [done|lia]).
    pose proof (max_N_ge _ _ _ E Hin2). lia.
  - apply max_by_None in E. assert (1 ∈ l) as H by (apply Hl; rewrite <- Hv; by apply packaging_tag).
    rewrite E in H. by apply elem_of_nil in H.
Qed.

(** The name given to a new version is no other version's: packagings are counted past
    every one of the same tag there is, so an app's versions never share a name nor, each being
    kept under its name, a directory. *)
Theorem next_version_fresh tag versions :
  contains_char "~" tag = false →
  (∀ v n, v ∈ versions → packaging tag (av_version v) = Some n → n < u32_max) →
  next_version tag versions ∉ av_version <$> versions.
Proof. apply next_version_new. Qed.

Lemma next_version_fresh_witness :
  let v name := {| av_version := name; av_hlb := ""; av_files := ∅; av_images := [] |} in
  let versions := [v "1.0"; v "1.0~hlb2"; v "1.1"] in
  next_version "1.0" versions = "1.0~hlb3" ∧ next_version "1.0" versions ∉ av_version <$> versions.
Proof.
  intros v versions. split; [by vm_compute|]. apply next_version_fresh; [done|].
  intros w n Hw Hn. repeat (apply elem_of_cons in Hw as [->|Hw]; [vm_compute in Hn; simplify_eq; by vm_compute|]).
  by apply elem_of_nil in Hw.
Defined.

(** *** Paths written out *)

Lemma component_plain n : plain n → component n = Some (Normal n).
Proof. intros (H1 & H2 & H3 & _). unfold component. rewrite decide_False by tauto. by rewrite decide_False. Qed.

Lemma components_of_plain l : Forall plain l → omap component l = Normal <$> l.
Proof.
  induction 1 as [|n l Hn _ IH]; [done|].
  change (omap component (n :: l)) with (match component n with Some c => c :: omap component l | None => omap component l end).
  by rewrite (component_plain n Hn), IH.
Qed.

Lemma split_join l : Forall plain l → l ≠ [] → split_char "/" (join "/" l) = l.
Proof.
  induction 1 as [|n l Hn Hl IH]; [done|]. intros _. destruct l as [|m l].
  - cbn. by apply split_char_one, Hn.
  - rewrite join_cons by done. change ("/" +:+ join "/" (m :: l)) with (String "/" (join "/" (m :: l))).
    rewrite split_char_append, split_char_one by apply Hn. by rewrite IH.
Qed.

Lemma foldl_normals dir l :
  foldl (λ at_ c, match c with RootDir => [] | CurDir => at_ | ParentDir => removelast at_ | Normal n => at_ ++ [n] end)
    dir (Normal <$> l) = dir ++ l.
Proof. revert dir. induction l as [|n l IH]; intros dir; [by rewrite app_nil_r|]. cbn. by rewrite IH, <- app_assoc. Qed.

Lemma components_split s n l : plain n → split_char "/" s = n :: l → components s = omap component (n :: l).
Proof.
  intros (H1 & H2 & _) E. unfold components. rewrite E. rewrite decide_False by naive_solver. by rewrite decide_False.
Qed.

Lemma follow_join dir l : Forall plain l → l ≠ [] → follow dir (join "/" l) = dir ++ l.
Proof.
  intros Hl Hne. pose proof (split_join l Hl Hne) as E. destruct l as [|n l]; [done|].
  unfold follow. rewrite (components_split _ n l) by (done || by inversion Hl).
  rewrite components_of_plain by done. apply foldl_normals.
Qed.

(** Where the files of a version are: under its own directory, each where its path leads. *)
Definition version_path (app version : string) : path := ["apps"; app; version].

Lemma version_dir_join app version : version_dir app version = join "/" (version_path app version).
Proof. reflexivity. Qed.

Lemma version_path_plain app version : plain app → plain version → Forall plain (version_path app version).
Proof. intros Ha Hv. unfold version_path. rewrite !Forall_cons. split; [by vm_compute|]. by split_and!. Qed.

Lemma follow_version dir app version : plain app → plain version →
  follow dir (version_dir app version) = dir ++ version_path app version.
Proof. intros Ha Hv. rewrite version_dir_join. apply follow_join; [by apply version_path_plain|done]. Qed.

Lemma ends_with_slash l n : ends_with "/" (l +:+ "/" +:+ n) = true → plain n → False.
Proof.
  unfold ends_with. intros H%bool_decide_eq_true (Hn & _ & _ & Hs). destruct H as [r H%strip_suffix_Some].
  assert (n = "" ∨ ∃ a c, n = a +:+ String c "") as [->|(a & c & ->)]; [| |].
  { destruct n as [|c n]; [by left|right]. clear. revert c. induction n as [|d n IH]; intros c; [by exists "", c|].
    destruct (IH d) as (a & e & ->). by exists (String c a), e. }
  - done.
  - rewrite <- !append_assoc in H. apply (f_equal split_last) in H. rewrite !split_last_append in H.
    injection H as _ ->. rewrite contains_char_append, contains_char_cons in Hs.
    rewrite bool_decide_eq_true_2, orb_true_r in Hs by done. done.
Qed.

Lemma contained_version dir app version rel p : plain app → plain version →
  contained dir (version_dir app version) rel = Some p →
  ∃ rest, p = dir ++ version_path app version ++ rest ∧ Forall plain rest ∧
    (∀ dir', contained dir' (version_dir app version) rel = Some (dir' ++ version_path app version ++ rest)) ∧
    (∀ base, follow base rel = base ++ rest).
Proof.
  intros Ha Hv Hp. destruct (starts_with "/" rel) eqn:Hs.
  { apply contained_Some in Hp as (names & _ & _ & Hc). unfold join_path in Hc. rewrite Hs in Hc.
    apply starts_with_true in Hs as [r ->]. change ("/" +:+ r) with ("" +:+ String "/" r) in Hc.
    unfold components in Hc. rewrite split_char_append, split_char_one in Hc by done.
    destruct (split_char "/" r) eqn:E; [by apply split_char_ne in E|]. by destruct names. }
  pose proof (split_join _ (version_path_plain app version Ha Hv)) as Hbase.
  assert (Hj : join_path (version_dir app version) rel = version_dir app version +:+ String "/" rel).
  { unfold join_path. rewrite Hs. destruct (ends_with "/" (version_dir app version)) eqn:E; [|done].
    exfalso. rewrite version_dir_join in E. apply (ends_with_slash ("apps/" +:+ app) version); [|done].
    rewrite append_assoc. exact E. }
  assert (Hsp : split_char "/" (join_path (version_dir app version) rel) = version_path app version ++ split_char "/" rel).
  { rewrite Hj, split_char_append. f_equal. by apply Hbase. }
  assert (Hcomp : components (join_path (version_dir app version) rel) =
    (Normal <$> version_path app version) ++ omap component (split_char "/" rel)).
  { rewrite (components_split _ "apps" (app :: version :: split_char "/" rel)) by (done || by vm_compute).
    change ("apps" :: app :: version :: split_char "/" rel) with (version_path app version ++ split_char "/" rel).
    rewrite omap_app, components_of_plain; [done|by apply version_path_plain]. }
  apply contained_Some in Hp as (names & -> & Hpl & Hc). rewrite Hcomp in Hc.
  assert (∃ rest, omap component (split_char "/" rel) = Normal <$> rest ∧ names = version_path app version ++ rest) as (rest & Hrest & ->).
  { destruct names as [|n1 [|n2 [|n3 rest]]]; try discriminate Hc. cbn in Hc. injection Hc as <- <- <- Hc. by exists rest. }
  exists rest. split_and!; [done| | |].
  - by apply Forall_app in Hpl as [_ Hpl].
  - intros dir'. unfold contained. rewrite Hcomp, Hrest, <- fmap_app.
    assert (Hm : ∀ l, mapM normal (Normal <$> l) = Some l) by (intros l; apply mapM_Some; induction l; by constructor).
    by rewrite Hm.
  - intros base. unfold follow, components. destruct (split_char "/" rel) as [|first l] eqn:E; [by apply split_char_ne in E|].
    case_decide as H1.
    { destruct H1 as [-> Hl]. exfalso. destruct l as [|m l]; [done|]. pose proof (join_split "/" rel) as Hr. rewrite E in Hr.
      rewrite join_cons in Hr by done. rewrite <- Hr in Hs. apply not_true_iff_false in Hs. apply Hs, starts_with_true. by eexists. }
    case_decide as H2; [|rewrite Hrest; apply foldl_normals].
    subst first. change (omap component ("." :: l)) with (omap component l) in Hrest. rewrite Hrest. cbn [foldl]. apply foldl_normals.
Qed.

Lemma contained_joined dir app version p : plain app → plain version → Forall plain p → p ≠ [] →
  contained dir (version_dir app version) (join "/" p) = Some (dir ++ version_path app version ++ p).
Proof.
  intros Ha Hv Hp Hne. unfold contained, join_path.
  assert (starts_with "/" (join "/" p) = false) as ->.
  { apply not_true_iff_false. intros [r H]%starts_with_true. pose proof (split_join p Hp Hne) as E. rewrite H in E.
    change ("/" +:+ r) with ("" +:+ String "/" r) in E. rewrite split_char_append, split_char_one in E by done.
    subst p. inversion Hp as [|? ? [? _]]. done. }
  destruct (str_is_empty _ || ends_with "/" (version_dir app version)) eqn:E.
  { exfalso. apply (ends_with_slash ("apps/" +:+ app) version); [|done]. rewrite append_assoc. exact E. }
  rewrite version_dir_join, <- join_app by done.
  pose proof (split_join (version_path app version ++ p)) as Hs.
  change (version_path app version ++ p) with ("apps" :: app :: version :: p) in *.
  rewrite (components_split _ "apps" (app :: version :: p)), components_of_plain; [| |by vm_compute|].
  - assert (Hm : ∀ l, mapM normal (Normal <$> l) = Some l) by (intros l; apply mapM_Some; induction l; by constructor).
    by rewrite Hm.
  - by apply (Forall_app_2 _ (version_path app version)); [apply version_path_plain|].
  - apply Hs; [|done]. by apply (Forall_app_2 _ (version_path app version)); [apply version_path_plain|].
Qed.

(** *** Revocations *)

Section laws.
Context {semver : Semver} {ed : Ed25519} {txt : IndexText} {cat : CatalogText}.
Context (fault : path → option string) (order : path → list string → list string) (running : Version).
Context (yaml_revoked : string → result string (gmap string (list Revoked))).

(** Is a version of an app in a list of revocations? *)
Definition revokes (m : gmap string (list Revoked)) (app version : string) : Prop :=
  ∃ l r, m !! app = Some l ∧ r ∈ l ∧ r_version r = version.

(** Every revocation of [m] is one of [m'], with its reason. *)
Definition keeps_revoked (m m' : gmap string (list Revoked)) : Prop :=
  ∀ app l, m !! app = Some l → ∃ l', m' !! app = Some l' ∧ l `prefix_of` l'.
#[local] Instance keeps_revoked_preorder : PreOrder keeps_revoked.
Proof.
  split.
  - intros m app l H. by exists l.
  - intros m1 m2 m3 H1 H2 app l H. destruct (H1 _ _ H) as (l2 & E2 & P2). destruct (H2 _ _ E2) as (l3 & E3 & P3).
    exists l3. split; [done|]. by etransitivity.
Qed.

Lemma keeps_revokes m m' app version : keeps_revoked m m' → revokes m app version → revokes m' app version.
Proof.
  intros H (l & r & Hl & Hr & Hv). destruct (H _ _ Hl) as (l' & Hl' & k & ->). exists (l ++ k), r.
  split_and!; [done| |done]. apply elem_of_app. by left.
Qed.

Lemma revoke_one_Ok file before apps app out r out' :
  revoke_one file before apps app out r = Ok out' →
  holds_version before apps app (r_version r) = true ∧ keeps_revoked out out' ∧ revokes out' app (r_version r).
Proof.
  unfold revoke_one. destruct (holds_version _ _ _ _); [|done]. cbn. intros [= <-]. split; [done|].
  set (l := default [] (out !! app)). split.
  - intros a k Hk. destruct (decide (a = app)) as [->|Hne].
    + rewrite lookup_insert_eq. eexists. split; [done|]. unfold l. rewrite Hk. cbn [default]. case_match; [done|]. by apply prefix_app_r.
    + rewrite lookup_insert_ne by done. by exists k.
  - destruct (any_of _ l) eqn:E.
    + apply any_of_true in E as (x & Hx & E%bool_decide_eq_true). exists l, x. by rewrite lookup_insert_eq.
    + exists (l ++ [r]), r. rewrite lookup_insert_eq. split_and!; [done| |done]. apply elem_of_app. right. by apply list_elem_of_singleton.
Qed.

Lemma fold_keeps {A} (f : gmap string (list Revoked) → A → result Error (gmap string (list Revoked))) l out out' :
  (∀ o x o', f o x = Ok o' → keeps_revoked o o') → fold_m f out l = Ok out' →
  keeps_revoked out out' ∧ ∀ x, x ∈ l → ∃ o o', f o x = Ok o' ∧ keeps_revoked o' out'.
Proof.
  intros Hf. revert out. induction l as [|x l IH]; intros out H.
  - injection H as <-. split; [done|]. intros x Hx. by apply elem_of_nil in Hx.
  - cbn in H. apply result_bind_Ok in H as (o & Ho & H). destruct (IH _ H) as [H1 H2]. split.
    + etransitivity; [by eapply Hf|done].
    + intros y [->|Hy]%elem_of_cons; [by exists out, o|by apply H2].
Qed.

(** Withdrawing is for good: a built index keeps every revocation of the index published
    before, with its reason, and takes each one the catalog lists, which names a version that
    index or this one holds - a list naming another is refused. *)
Theorem revocations_never_dropped catalog_dir before apps d out :
  revocations fault yaml_revoked catalog_dir before apps d = Ok out →
  (∀ idx, before = Some idx → keeps_revoked (ix_revoked idx) out ∧
     ∀ app version, is_Some (revocation idx app version) → revokes out app version) ∧
  (∀ text listed app l r, read_to_string fault d (catalog_dir ++ [REVOKED_FILE]) = Ok text →
     yaml_revoked text = Ok listed → listed !! app = Some l → r ∈ l →
     revokes out app (r_version r) ∧
     ∃ v, av_version v = r_version r ∧
       (v ∈ default [] (apps !! app) ∨ ∃ idx, before = Some idx ∧ v ∈ default [] (ix_apps idx !! app))).
Proof.
  unfold revocations. rewrite result_bind_Ok. intros (listed & Hl & H).
  assert (Hone : ∀ app o r o', revoke_one (catalog_dir ++ [REVOKED_FILE]) before apps app o r = Ok o' → keeps_revoked o o')
    by (intros app o r o' (_ & ? & _)%revoke_one_Ok; done).
  apply fold_keeps in H as [Hk Hall]; [|by intros o [app l] o' (? & _)%(fold_keeps _ _ _ _ (Hone app))].
  split.
  - intros idx ->. cbn in Hk. split; [done|]. intros app version (why & Hw). unfold revocation in Hw.
    apply bind_Some in Hw as (l & Hl' & Hw). apply fmap_Some in Hw as (r & Hr & _).
    apply find_first_Some in Hr as (l1 & l2 & -> & Hr%bool_decide_eq_true & _).
    eapply keeps_revokes; [done|]. exists (l1 ++ r :: l2), r. split_and!; [done| |done]. apply elem_of_app. right. left.
  - intros text m app l r Ht Hy Ha Hr. rewrite Ht, Hy in Hl. injection Hl as <-.
    destruct (Hall (app, l)) as (o & o' & Ho & Hk'); [by apply elem_of_btree_entries|].
    apply (fold_keeps _ _ _ _ (Hone app)) in Ho as [_ Ho]. destruct (Ho _ Hr) as (o1 & o2 & H1 & H2).
    apply revoke_one_Ok in H1 as (Hheld & _ & Hrev). split.
    + eapply keeps_revokes; [done|]. by eapply keeps_revokes.
    + apply any_of_true in Hheld as (v & Hin & E%bool_decide_eq_true). exists v. split; [done|].
      apply elem_of_app in Hin as [Hin|Hin]; [by left|right]. destruct before as [idx|]; [by exists idx|by apply elem_of_nil in Hin].
Qed.

(** *** Results *)

(** The results published beside a built index are held to it: of its source and its counter,
    each of its apps and no other, entered on the day it was first published - today for an
    app new to the file -, with a run no older than the one published before. *)
Theorem quality_held_to_index idx runs previous out today d q d' :
  build_quality fault order idx runs previous out today d = (Ok (Some q), d') →
  held_to q idx = Ok () ∧
  ∃ before, previous_quality fault previous d = Ok before ∧
    ∀ app, match q_apps q !! app with
      | None => ix_apps idx !! app = None
      | Some a => is_Some (ix_apps idx !! app) ∧
          aq_since a = from_option aq_since today (before ≫= λ b, q_apps b !! app) ∧
          ∀ old, (before ≫= λ b, q_apps b !! app) ≫= aq_last = Some old →
            ∃ r, aq_last a = Some r ∧ String.compare (run_date old) (run_date r) ≠ Gt
      end.
Proof.
  unfold build_quality, eff_bind, on_disk. destruct (previous_quality _ _ d) as [before|] eqn:Hb; [|done].
  destruct (gather_runs _ _ _ _ d) as [fresh|]; [|done]. case_decide; [done|]. unfold eff_of.
  destruct (map_err _ _) as [text|]; [|done]. destruct (write_file _ _ _ _) as [[u|] d1]; [|done].
  intros [= <- <-].
  assert (Hlook : ∀ app, map_imap (λ app _, Some (app_quality before fresh today app)) (ix_apps idx) !! app =
    (λ _, app_quality before fresh today app) <$> ix_apps idx !! app).
  { intros app. rewrite map_lookup_imap. by destruct (ix_apps idx !! app). }
  split.
  - unfold held_to. cbn [q_source q_index q_apps]. rewrite !decide_False by auto.
    destruct (find_first _ _) as [app|] eqn:E; [|done]. exfalso.
    apply find_first_Some in E as (l1 & l2 & Hl & Hn%bool_decide_eq_true & _).
    assert (app ∈ l1 ++ app :: l2) as Hin by (apply elem_of_app; right; left). rewrite <- Hl in Hin.
    apply elem_of_btree_keys in Hin as [a Ha]. by rewrite Hlook, Hn in Ha.
  - exists before. split; [done|]. intros app. cbn [q_apps]. rewrite Hlook.
    destruct (ix_apps idx !! app) as [versions|]; [|done]. cbn [fmap option_fmap option_map]. split; [by eexists|].
    unfold app_quality. cbn [aq_since aq_last]. destruct (before ≫= λ b, q_apps b !! app) as [o|]; [|done].
    split; [done|]. cbn. intros old ->. unfold newer_run.
    assert (Hrefl : ∀ s, String.compare s s ≠ Gt)
      by (intros s Hs; pose proof (proj1 total_cmp_string s s) as E; by rewrite Hs in E). destruct (fresh !! app) as [new|].
    + destruct (String.compare (run_date old) (run_date new)) eqn:Ec; eexists; (split; [done|]); rewrite ?Ec; try done; by apply Hrefl.
    + exists old. split; [done|]. apply Hrefl.
Qed.

End laws.
(** *** A built directory *)

Lemma replace_absent c to s : contains_char c s = false → replace (String c "") to s = s.
Proof.
  unfold replace. induction s as [|d s IH]; [done|]. rewrite contains_char_cons. intros [Hd Hs]%orb_false_iff.
  apply bool_decide_eq_false in Hd. cbn [replace_go].
  assert (starts_with (String c "") (String d s) = false) as ->; [|by rewrite IH].
  apply not_true_iff_false. intros [r H]%starts_with_true. by injection H as ->.
Qed.

Section built.
Context {semver : Semver} {ed : Ed25519} {txt : IndexText} {cat : CatalogText}.
Context (fault : path → option string) (order : path → list string → list string) (running : Version).
Context (yaml_revoked : string → result string (gmap string (list Revoked))).
Context (order_perm : ∀ p l, order p l ≡ₚ l).

(** The names under a directory are plain, and hold no backslash. *)
Definition slashless (dir : path) (d : disk) : Prop :=
  ∀ p, is_Some (d !! (dir ++ p)) → Forall (λ n, plain n ∧ contains_char "\" n = false) p.

Lemma slashless_below dir r d : slashless dir d → slashless (dir ++ r) d.
Proof. intros H p Hp. rewrite <- app_assoc in Hp. apply H, Forall_app in Hp as [_ Hp]. done. Qed.

(** What a walk finds is there, under its own path. *)
Definition found (d : disk) (root : path) (m : gmap string string) : Prop :=
  ∀ rel digest, m !! rel = Some digest → ∃ p b, p ≠ [] ∧ Forall plain p ∧ rel = join "/" p ∧
    read fault d (root ++ p) = Ok b ∧ sha256_hex (bytes_of b) = digest.

Lemma join_no_backslash p : Forall (λ n, plain n ∧ contains_char "\" n = false) p → contains_char "\" (join "/" p) = false.
Proof.
  induction 1 as [|n l [_ Hn] Hl IH]; [done|]. destruct l as [|m l]; [done|]. rewrite join_cons by done.
  rewrite !contains_char_append, Hn. cbn [orb]. rewrite IH. done.
Qed.

Lemma walk_found fuel d root p out m : slashless root d →
  walk fault order fuel d root (root ++ p) out = Ok m → found d root out → found d root m.
Proof.
  intros Hd. revert p out m. induction fuel as [|fuel IH]; intros p out m H Hf; [by injection H as <-|].
  cbn [walk] in H. apply result_bind_Ok in H as (names & Hn & H).
  destruct (read_dir fault order d (root ++ p)) as [l|] eqn:Hr; [|done]. injection Hn as ->.
  revert H. apply (fold_m_ind (found d root)); [|done]. intros m1 n m2 Hin Hf1 H.
  apply (read_dir_Ok fault order order_perm _ _ _ n Hr) in Hin as (r & Hfile).
  cbv zeta in H. rewrite <- app_assoc in H. destruct (is_dir d (root ++ p ++ [n])); [by eapply IH|].
  apply result_bind_Ok in H as (b & Hb & H). injection H as <-.
  destruct (read fault d (root ++ p ++ [n])) as [b'|] eqn:Hread; [|done]. injection Hb as ->.
  assert (Hpn : Forall (λ n, plain n ∧ contains_char "\" n = false) (p ++ [n])).
  { apply read_Ok in Hread as [_ Hread]. assert (is_Some (d !! (root ++ p ++ [n]))) as Hs by by eexists.
    by apply Hd in Hs. }
  assert (Hshown : shown_under root (root ++ p ++ [n]) = join "/" (p ++ [n])).
  { unfold shown_under. rewrite (proj2 (under_Some root _ (p ++ [n])) eq_refl). cbn [default].
    apply replace_absent. by apply join_no_backslash. }
  intros rel digest [[<- <-]|[_ H]]%lookup_insert_Some; [|by apply Hf1].
  exists (p ++ [n]), b. rewrite Hshown. split_and!; [by destruct p| |done..].
  eapply Forall_impl; [exact Hpn|]. by intros x [].
Qed.

Lemma walk_enough f1 f2 d root dir out : is_dir d dir = true →
  (depth d ≤ f1 + length dir)%nat → (depth d ≤ f2 + length dir)%nat →
  walk fault order f1 d root dir out = walk fault order f2 d root dir out.
Proof.
  revert f2 dir out. induction f1 as [|f1 IH]; intros f2 dir out Hd H1 H2.
  { apply is_dir_true in Hd as (n & r & Hs). apply depth_gt in Hs. rewrite length_app in Hs. cbn in Hs. lia. }
  destruct f2 as [|f2].
  { apply is_dir_true in Hd as (n & r & Hs). apply depth_gt in Hs. rewrite length_app in Hs. cbn in Hs. lia. }
  cbn [walk]. destruct (map_err _ _) as [names|]; [|done]. cbn. apply fold_m_ext. intros c n.
  destruct (is_dir d (dir ++ [n])) eqn:E; [|done]. apply IH; [done|rewrite length_app; cbn; lia..].
Qed.

Lemma hashed_found d dir m : slashless dir d → hashed fault order dir d = Ok m → found d dir m.
Proof.
  intros Hd H. unfold hashed in H. rewrite <- (app_nil_r dir) in H at 2. eapply walk_found in H; [done|done|].
  intros rel digest E. by rewrite lookup_empty in E.
Qed.

(** [d'] is [d] but for what lies under [p]. *)
Definition only_under (p : path) (d d' : disk) : Prop := ∀ q, under p q = None → d' !! q = d !! q.
#[local] Instance only_under_preorder p : PreOrder (only_under p).
Proof. split; [by intros d q|]. intros d1 d2 d3 H1 H2 q Hq. by rewrite (H2 q Hq), (H1 q Hq). Qed.

Lemma under_app_None p r q : under p q = None → under (p ++ r) q = None.
Proof.
  intros H. destruct (under (p ++ r) q) as [s|] eqn:E; [|done]. apply under_Some in E as ->.
  rewrite <- app_assoc in H. assert (under p (p ++ r ++ s) = Some (r ++ s)) by by apply under_Some. congruence.
Qed.

Lemma only_under_weaken p r d d' : only_under (p ++ r) d d' → only_under p d d'.
Proof. intros H q Hq. apply H. by apply under_app_None. Qed.

Lemma read_same d d' q b : d' !! q = d !! q → read fault d q = Ok b → read fault d' q = Ok b.
Proof. rewrite !read_Ok. by intros ->. Qed.

(** The files of a version, copied: all under its directory, each with the bytes it had. *)
Lemma copy_files_Ok src out app version rels d0 d u d' : plain app → plain version →
  (∀ r, under out (src ++ r) = None) →
  only_under (out ++ version_path app version) d0 d →
  eff_each (copy_file fault src out (version_dir app version)) rels d = (Ok u, d') →
  only_under (out ++ version_path app version) d0 d' ∧
  (∀ rest b, read fault d (out ++ version_path app version ++ rest) = Ok b → read fault d0 (src ++ rest) = Ok b →
     read fault d' (out ++ version_path app version ++ rest) = Ok b) ∧
  (∀ rel, rel ∈ rels → ∃ rest b, contained out (version_dir app version) rel = Some (out ++ version_path app version ++ rest) ∧
     follow src rel = src ++ rest ∧ read fault d0 (src ++ rest) = Ok b ∧
     read fault d' (out ++ version_path app version ++ rest) = Ok b).
Proof.
  intros Ha Hv Hsrc. revert d. induction rels as [|rel rels IH]; intros d Hd H.
  - injection H as _ <-. split_and!; [done|done|]. intros rel Hr. by apply elem_of_nil in Hr.
  - cbn [eff_each] in H. unfold eff_bind in H. destruct (copy_file _ _ _ _ _ d) as [[u1|] d1] eqn:Hc; [|done].
    unfold copy_file in Hc. destruct (contained out _ rel) as [to|] eqn:Hto; [|done].
    destruct (contained_version out app version rel to Ha Hv Hto) as (rest & -> & _ & _ & Hfol).
    rewrite Hfol in Hc. destruct (read fault d (src ++ rest)) as [b|] eqn:Hb; [|done].
    apply write_file_Ok in Hc. pose proof (write_Ok _ _ _ _ _ Hc) as [_ Ed1].
    assert (Hb0 : read fault d0 (src ++ rest) = Ok b).
    { eapply read_same, Hb. symmetry. apply Hd. apply under_app_None, Hsrc. }
    assert (Hd1 : only_under (out ++ version_path app version) d0 d1).
    { etransitivity; [exact Hd|]. subst d1. intros q Hq. rewrite lookup_insert_ne; [done|]. intros <-.
      rewrite app_assoc in Hq. assert (under (out ++ version_path app version) ((out ++ version_path app version) ++ rest) = Some rest)
        by by apply under_Some. congruence. }
    destruct (IH d1 Hd1 H) as (H1 & H2 & H3). split_and!; [done| |].
    + intros r b' Hr Hr0. apply H2; [|done]. destruct (decide (r = rest)) as [->|Hne].
      * assert (b' = b) as -> by congruence. by eapply read_write.
      * eapply read_write_ne; [done| |done]. intros E%app_inv_head%app_inv_head. congruence.
    + intros rel' [->|Hin]%elem_of_cons; [|by apply H3]. exists rest, b. split_and!; [done|done|done|].
      apply H2; [|done]. by eapply read_write.
Qed.
End built.

(** *** The versions served *)

Section served.
Context {semver : Semver} {ed : Ed25519} {txt : IndexText} {cat : CatalogText}.
Context (fault : path → option string) (order : path → list string → list string) (running : Version).
Context (order_perm : ∀ p l, order p l ≡ₚ l).
#[local] Existing Instance only_under_preorder.

Lemma under_app (p q r : path) : under (p ++ q) (p ++ r) = under q r.
Proof. induction p as [|a p IH]; [done|]. cbn. by rewrite decide_True. Qed.

Lemma held_other (d d' : disk) out app version rel digest x : plain app → plain version →
  only_under (out ++ x) d d' → (∀ rest, under x (version_path app version ++ rest) = None) →
  held fault d out app version rel digest → held fault d' out app version rel digest.
Proof.
  intros Ha Hv Hd Hx (p & b & Hp & Hr & Hs). exists p, b. split_and!; [done| |done].
  apply (contained_version out app version rel p Ha Hv) in Hp as (rest & -> & _).
  eapply read_same, Hr. apply Hd. by rewrite under_app.
Qed.

Lemma under_other_version app version version' rest : version ≠ version' →
  under (version_path app version') (version_path app version ++ rest) = None.
Proof. intros H. cbn. rewrite !decide_True by done. by rewrite decide_False. Qed.

Lemma under_other_app app app' version rest : app ≠ app' →
  under ["apps"; app'] (version_path app version ++ rest) = None.
Proof. intros H. cbn. rewrite decide_True by done. by rewrite decide_False. Qed.

(** Every file of a version. *)
Definition version_held (d : disk) (dir : path) (app : string) (v : AppVersion) : Prop :=
  ∀ rel digest, av_files v !! rel = Some digest → held fault d dir app (av_version v) rel digest.

Lemma copied_held src out app v d d' u : plain app → plain (av_version v) →
  (∀ r, under out (src ++ r) = None) →
  (∀ rel digest, av_files v !! rel = Some digest → ∀ rest b, contained out (version_dir app (av_version v)) rel
     = Some (out ++ version_path app (av_version v) ++ rest) → follow src rel = src ++ rest →
     read fault d (src ++ rest) = Ok b → sha256_hex (bytes_of b) = digest) →
  copy_version fault src out app v d = (Ok u, d') →
  only_under (out ++ version_path app (av_version v)) d d' ∧ version_held d' out app v.
Proof.
  intros Ha Hv Hsrc Hdig H. unfold copy_version in H.
  apply (copy_files_Ok fault src out app (av_version v) _ d) in H as (H1 & _ & H3); [|done..].
  split; [done|]. intros rel digest Hrel. destruct (H3 rel) as (rest & b & Hc & Hfol & Hb & Hb'); [by apply elem_of_btree_keys; eexists|].
  exists (out ++ version_path app (av_version v) ++ rest), b. split_and!; [done|done|]. by eapply Hdig.
Qed.

Lemma copy_previous from out app vs d0 d u d' : plain app → Forall (λ v, plain (av_version v)) vs →
  NoDup (av_version <$> vs) → apart from out →
  (∀ v, v ∈ vs → version_held d0 from app v) →
  only_under (out ++ ["apps"; app]) d0 d →
  eff_each (λ v, copy_version fault (follow from (version_dir app (av_version v))) out app v) vs d = (Ok u, d') →
  only_under (out ++ ["apps"; app]) d0 d' ∧ (∀ v, v ∈ vs → version_held d' out app v) ∧
  (∀ w, plain (av_version w) → av_version w ∉ av_version <$> vs → version_held d out app w → version_held d' out app w).
Proof.
  intros Ha Hpl Hnd Hap Hheld. revert d. induction vs as [|v vs IH]; intros d Hd H.
  - injection H as _ <-. split_and!; [done| |done]. intros v Hv. by apply elem_of_nil in Hv.
  - cbn [eff_each] in H. unfold eff_bind in H. destruct (copy_version _ _ _ _ _ d) as [[u1|] d1] eqn:Hc; [|done].
    inversion Hpl as [|? ? Hv Hpl']; subst. inversion Hnd as [|? ? Hnin Hnd']; subst.
    rewrite follow_version in Hc by done.
    assert (Hsrc : ∀ r, under out ((from ++ version_path app (av_version v)) ++ r) = None)
      by (intros r; rewrite <- app_assoc; by apply apart_under).
    apply copied_held in Hc as [Hon Hok]; [|done|done|done|].
    2:{ intros rel digest Hrel rest b Hcont _ Hb. destruct (Hheld v ltac:(left) rel digest Hrel) as (p & b0 & Hp & Hb0 & <-).
      destruct (contained_version from app (av_version v) rel p Ha Hv Hp) as (rest' & -> & _ & Hall & _).
      specialize (Hall out). rewrite Hcont in Hall. injection Hall as E%app_inv_head. cbn in E. injection E as <-.
      rewrite <- app_assoc in Hb. assert (read fault d (from ++ version_path app (av_version v) ++ rest) = Ok b0) as E.
      { eapply read_same, Hb0. apply Hd. apply under_app_None. by apply apart_under. }
      congruence. }
    assert (Hd1 : only_under (out ++ ["apps"; app]) d0 d1).
    { etransitivity; [exact Hd|]. apply (only_under_weaken _ [av_version v]). rewrite <- app_assoc. exact Hon. }
    destruct (IH Hpl' Hnd' ltac:(intros w Hw; apply Hheld; by right) d1 Hd1 H) as (H1 & H2 & H3).
    split_and!; [done| |].
    + intros w [->|Hw]%elem_of_cons; [by apply H3|by apply H2].
    + intros w Hw Hni Hwh. rewrite fmap_cons, not_elem_of_cons in Hni. destruct Hni as [Hne Hni].
      apply H3; [done|done|]. intros rel digest Hrel.
      apply (held_other d d1 out app (av_version w) rel digest _ Ha Hw Hon); [|by apply Hwh].
      intros rest. by apply under_other_version.
Qed.

(** The versions of an app, as they are to be served. *)
Definition app_held (d : disk) (out : path) (x : string * list AppVersion) : Prop :=
  plain x.1 ∧ Forall (λ v, plain (av_version v)) x.2 ∧ NoDup (av_version <$> x.2) ∧
  ∀ v, v ∈ x.2 → version_held d out x.1 v.

Lemma app_held_other d d' out x app : app ≠ x.1 → only_under (out ++ ["apps"; app]) d d' →
  app_held d out x → app_held d' out x.
Proof.
  intros Hne Hon (H1 & H2 & H3 & H4). split_and!; [done..|]. intros v Hv rel digest Hrel.
  rewrite Forall_forall in H2. eapply held_other; [done|by apply H2|done| |by apply H4].
  intros rest. by apply under_other_app, not_eq_sym.
Qed.

(** An index that can be built above: every version under a name of its own. *)
Definition well_indexed (idx : Index) : Prop :=
  ∀ app versions, ix_apps idx !! app = Some versions →
    plain app ∧ Forall (λ v, plain (av_version v)) versions ∧ NoDup (av_version <$> versions).

(** An entry that can be built: its folder and its tag are names, its tag no packaging's. *)
Definition buildable (catalog_dir : path) (before : option (Index * path)) (e : Entry) : Prop :=
  let tag := img_tag (sp_image (mf_spec (en_manifest e))) in
  plain (app_of e) ∧ (∃ r, removelast (en_path e) = catalog_dir ++ r) ∧
  plain tag ∧ contains_char "~" tag = false ∧
  ∀ v n, v ∈ published_versions before (app_of e) → packaging tag (av_version v) = Some n → n < u32_max.

Lemma next_version_plain tag versions : plain tag → plain (next_version tag versions).
Proof.
  intros Ht. unfold next_version. destruct (max_by _ _) as [n|]; [|done]. destruct Ht as (H1 & H2 & H3 & H4).
  destruct tag as [|c tag]; [done|]. unfold PACKAGING. split_and!; [done| | |].
  - destruct tag as [|c2 tag]; [|done]. intros [= -> ?].
  - intros [= -> H]. destruct tag as [|c2 tag]; [done|]. injection H as _ H. by destruct tag.
  - rewrite !contains_char_append, H4. cbn [orb]. rewrite show_N_no_char by done. done.
Qed.

Lemma build_app_Ok catalog_dir before out e d0 d x d' :
  slashless catalog_dir d0 → apart catalog_dir out →
  (∀ idx from, before = Some (idx, from) → well_indexed idx ∧ apart from out ∧ all_held fault idx d0 from) →
  buildable catalog_dir before e →
  only_under (out ++ ["apps"]) d0 d →
  build_app fault order before out e d = (Ok x, d') →
  x.1 = app_of e ∧ only_under (out ++ ["apps"; app_of e]) d d' ∧ app_held d' out x ∧
  published_versions before (app_of e) `prefix_of` x.2.
Proof.
  intros Hd0 Hcat Hbefore (Happ & (r & Hr) & Htag & Htilde & Hpack) Hd H.
  unfold build_app, eff_bind, eff_of, on_disk, eff_ret in H.
  change (md_name (mf_metadata (en_manifest e))) with (app_of e) in H.
  destruct (ok_or _ _) as [range|]; [|done]. destruct (hashed _ _ _ d) as [files|] eqn:Hh; [|done].
  rewrite Hr in Hh. apply (hashed_found fault order order_perm d) in Hh.
  2:{ apply slashless_below. intros q Hq. apply Hd0. rewrite <- (Hd (catalog_dir ++ q)); [done|].
    apply under_app_None. by apply apart_under. }
  set (vs := published_versions before (app_of e)) in *.
  destruct (eff_each _ vs d) as [[u|] d1] eqn:Hc; [|done].
  assert (Hprev : only_under (out ++ ["apps"; app_of e]) d d1 ∧ app_held d1 out (app_of e, vs)).
  { destruct before as [[idx from]|].
    - destruct (Hbefore idx from eq_refl) as (Hwi & Hap & Hheld).
      assert (Hv : Forall (λ v, plain (av_version v)) vs ∧ NoDup (av_version <$> vs) ∧
        ∀ v, v ∈ vs → version_held d0 from (app_of e) v).
      { unfold vs, published_versions. cbn. destruct (ix_apps idx !! app_of e) as [l|] eqn:El; cbn.
        - destruct (Hwi _ _ El) as (_ & H1 & H2). split_and!; [done..|]. intros v Hv rel digest Hrel. by eapply Hheld.
        - split_and!; [constructor..|]. intros v Hv. by apply elem_of_nil in Hv. }
      destruct Hv as (Hv1 & Hv2 & Hv3).
      assert (Hv3' : ∀ v, v ∈ vs → version_held d from (app_of e) v).
      { intros v Hv rel digest Hrel. destruct (Hv3 v Hv rel digest Hrel) as (p & b & Hp & Hb & Hs). exists p, b.
        split_and!; [done| |done]. eapply read_same, Hb. apply Hd. apply contained_Some in Hp as (names & -> & _).
        apply under_app_None. by apply apart_under. }
      apply (copy_previous from out (app_of e) vs d d) in Hc as (H1 & H2 & _); [|done..]. done.
    - unfold vs, published_versions in *. cbn in *. injection Hc as _ <-. split; [done|].
      split_and!; [done|constructor|constructor|]. intros v Hv. by apply elem_of_nil in Hv. }
  destruct Hprev as [Hon Hah]. destruct Hah as (_ & Hp1 & Hp2 & Hp3). cbn [fst snd] in *.
  case_decide as Hlast.
  { injection H as <- <-. cbn. split_and!; [done|done|split_and!; done|done]. }
  set (v := {| av_version := _; av_hlb := range; av_files := files; av_images := _ |}) in H.
  destruct (copy_version _ _ _ _ _ d1) as [[u2|] d2] eqn:Hc2; [|done]. injection H as <- <-.
  assert (Hvp : plain (av_version v)) by by apply next_version_plain.
  assert (Hnew : av_version v ∉ av_version <$> vs) by by apply next_version_new.
  rewrite Hr in Hc2. assert (Hsrc : ∀ q, under out ((catalog_dir ++ r) ++ q) = None)
    by (intros q; rewrite <- app_assoc; by apply apart_under).
  apply copied_held in Hc2 as [Hon2 Hok]; [|done|done|done|].
  2:{ intros rel digest Hrel rest b _ Hfol Hb. destruct (Hh rel digest Hrel) as (p & b0 & Hne & Hpp & -> & Hb0 & <-).
    rewrite follow_join in Hfol by done. apply app_inv_head in Hfol as <-.
    assert (read fault d1 ((catalog_dir ++ r) ++ p) = Ok b0) as E; [|congruence].
    eapply read_same, Hb0. apply Hon. by apply under_app_None. }
  split_and!; [done| | |by apply prefix_app_r].
  - etransitivity; [exact Hon|]. apply (only_under_weaken _ [av_version v]). rewrite <- app_assoc. exact Hon2.
  - split_and!; [done| | |]; cbn [snd fst].
    + apply Forall_app. split; [done|]. by apply Forall_singleton.
    + rewrite fmap_app. apply NoDup_app. split_and!; [done| |apply NoDup_singleton].
      intros w Hw Hw2%list_elem_of_singleton. by subst w.
    + intros w [Hw|Hw%list_elem_of_singleton]%elem_of_app; [|by subst w].
      intros rel digest Hrel. rewrite Forall_forall in Hp1. eapply held_other; [done|by apply Hp1|exact Hon2| |by apply Hp3].
      intros rest. apply under_other_version. intros E. apply Hnew. rewrite <- E. by apply list_elem_of_fmap_2.
Qed.

End served.

(** *** The whole build *)

Section whole.
Context {semver : Semver} {ed : Ed25519} {txt : IndexText} {cat : CatalogText}.
Context (fault : path → option string) (order : path → list string → list string) (running : Version).
Context (yaml_revoked : string → result string (gmap string (list Revoked))).
Context (order_perm : ∀ p l, order p l ≡ₚ l).
#[local] Existing Instance only_under_preorder.

(** Where a catalog's entries were read. *)
Definition placed (d : disk) (root : path) (c : Catalog) : Prop :=
  ∀ name e, ct_entries c !! name = Some e →
    name = app_of e ∧ ∃ p, removelast (en_path e) = root ++ p ∧ is_Some (d !! (root ++ p ++ ["manifest.yaml"])) ∧
      app_of e = default "" (last (root ++ p)).

Lemma load_one_path d p release name e : load_one fault d p release name = Ok (LoadedEntry e) →
  en_path e = p ∧ is_Some (d !! p).
Proof.
  unfold load_one. rewrite result_bind_Ok. intros (raw & Hraw & H). destruct (left_aside _ _ _); [done|].
  apply result_bind_Ok in H as (m & _ & H). case_decide; [done|].
  apply result_bind_Ok in H as (graw & _ & H). apply result_bind_Ok in H as (g & _ & H).
  apply result_bind_Ok in H as (w & _ & H). apply result_bind_Ok in H as (wg & _ & H). injection H as <-. split; [done|].
  unfold read_to_string in Hraw. destruct (read fault d p) eqn:E; [|done]. apply read_Ok in E as [_ E]. by eexists.
Qed.

Lemma collect_placed fuel d release root p out c :
  collect fault order fuel d release (root ++ p) out = Ok c → placed d root out → placed d root c.
Proof.
  revert p out c. induction fuel as [|fuel IH]; intros p out c H Hp; [by injection H as <-|].
  cbn [collect] in H. apply result_bind_Ok in H as (names & Hn & H).
  revert H. apply (fold_m_ind (placed d root)); [|done]. intros c1 n c2 _ Hc1 H. cbv zeta in H. rewrite <- app_assoc in H.
  destruct (is_dir d (root ++ p ++ [n])); [by eapply IH|]. case_decide as En; [|by injection H as <-]. subst n.
  destruct (load_one fault d (root ++ p ++ ["manifest.yaml"]) release None) as [[e|a w]|] eqn:Hl; [| |done]; injection H as <-; [|done].
  intros name e' H. cbn in H. apply lookup_insert_Some in H as [[<- <-]|[_ H]]; [|by apply Hc1].
  split; [done|]. pose proof (load_one_path _ _ _ _ _ Hl) as [Hpath Hs]. apply load_one_name in Hl as [Happ _]. exists p.
  rewrite Hpath. rewrite app_assoc, removelast_last in *. done.
Qed.

Lemma load_placed root d c : load fault order running root d = Ok c → placed d root c.
Proof.
  unfold load, load_as. destruct (is_dir d root); [|done]. cbn [negb]. rewrite <- (app_nil_r root) at 1.
  intros H. eapply collect_placed; [done|]. intros name e E. cbn in E. by apply lookup_empty_Some in E.
Qed.

Lemma build_apps_Ok catalog_dir before out l d0 d apps d' res :
  slashless catalog_dir d0 → apart catalog_dir out →
  (∀ idx from, before = Some (idx, from) → well_indexed idx ∧ apart from out ∧ all_held fault idx d0 from) →
  (∀ e, e ∈ l → buildable catalog_dir before e) → only_under (out ++ ["apps"]) d0 d →
  (∀ app vs, apps !! app = Some vs → app_held fault d out (app, vs) ∧ published_versions before app `prefix_of` vs) →
  build_apps fault order before out l apps d = (Ok res, d') →
  only_under (out ++ ["apps"]) d0 d' ∧
  (∀ app vs, res !! app = Some vs → app_held fault d' out (app, vs) ∧ published_versions before app `prefix_of` vs) ∧
  (∀ app, is_Some (res !! app) ↔ is_Some (apps !! app) ∨ app ∈ app_of <$> l).
Proof.
  intros Hd0 Hcat Hbefore. revert d apps. induction l as [|e l IH]; intros d apps Hl Hd Happs H.
  - injection H as <- <-. split_and!; [done..|]. intros app. rewrite elem_of_nil. tauto.
  - cbn [build_apps] in H. unfold eff_bind in H. destruct (build_app fault order before out e d) as [[x|] d1] eqn:Hb; [|done].
    apply (build_app_Ok fault order order_perm catalog_dir before out e d0) in Hb as (Hx & Hon & Hah & Hpre); [|done..|by apply Hl; left|done].
    assert (Hd1 : only_under (out ++ ["apps"]) d0 d1).
    { etransitivity; [exact Hd|]. apply (only_under_weaken _ [app_of e]). by rewrite <- app_assoc. }
    destruct x as [app vs]. cbn [fst snd] in *. subst app.
    apply IH in H as (H1 & H2 & H3); [|by intros e' He'; apply Hl; right|done|].
    2:{ intros app vs' [[<- <-]|[Hne Hvs]]%lookup_insert_Some; [done|]. destruct (Happs _ _ Hvs) as [Hh Hp]. split; [|done].
      by eapply app_held_other; [| |done]. }
    split_and!; [done|done|]. intros app. rewrite H3, fmap_cons, elem_of_cons.
    destruct (decide (app = app_of e)) as [->|Hne].
    + rewrite lookup_insert_eq. split; [by right; left|]. intros _. left. by eexists.
    + rewrite lookup_insert_ne by done. tauto.
Qed.

(** *** Writing where nothing is in the way *)

Lemma write_possible d p b : fault p = None → (∀ q n r, is_Some (d !! q) → p ≠ q ++ n :: r) →
  (∀ n r, d !! (p ++ n :: r) = None) → write fault d p b = Ok (<[p := b]> d).
Proof.
  intros Hf Hup Hdown. unfold write. rewrite Hf.
  destruct (any_of _ _) eqn:E.
  { exfalso. apply any_of_true in E as (q & Hq%elem_of_files & E). destruct (under q p) as [[|n r]|] eqn:Eu; [done| |done].
    apply under_Some in Eu. by eapply Hup. }
  destruct (is_dir d p) eqn:Ed; [|done]. exfalso. apply is_dir_true in Ed as (n & r & [c H]). by rewrite Hdown in H.
Qed.

Lemma write_clear d p b d' : write fault d p b = Ok d' → ∀ q n r, is_Some (d !! q) → p ≠ q ++ n :: r.
Proof.
  unfold write. destruct (fault p); [done|]. destruct (any_of _ _) eqn:E; [done|]. intros _ q n r Hq ->.
  apply not_true_iff_false in E. apply E, any_of_true. exists q. split; [by apply elem_of_files|].
  by rewrite (proj2 (under_Some q _ (n :: r)) eq_refl).
Qed.

Lemma last_swap {A} (q : list A) n r out a b : out ++ [b] = q ++ n :: r → ∃ n' r', out ++ [a] = q ++ n' :: r'.
Proof.
  intros E. destruct r as [|m r] using rev_ind.
  - change (q ++ [n]) with (q ++ [n]) in E. apply app_inj_tail in E as [-> _]. by exists a, [].
  - rewrite app_comm_cons, app_assoc in E. apply app_inj_tail in E as [-> _]. exists n, (r ++ [a]). by rewrite <- app_assoc.
Qed.

(** Beside a file just written in a directory that holds nothing else but its [apps]. *)
Lemma write_beside d d1 out a b text text2 d2 : fault (out ++ [b]) = None → a ≠ b → b ≠ "apps" →
  (∀ n r, d !! (out ++ n :: r) = None) → only_under (out ++ ["apps"]) d d1 →
  write fault d1 (out ++ [a]) text = Ok d2 →
  write fault d2 (out ++ [b]) text2 = Ok (<[out ++ [b] := text2]> d2).
Proof.
  intros Hf Hab Hb Hempty Hon Hw. pose proof (write_clear _ _ _ _ Hw) as Hup. apply write_Ok in Hw as [_ ->].
  apply write_possible; [done| |].
  - intros q n r Hq E. destruct (decide (q = out ++ [a])) as [->|Hne].
    + rewrite <- app_assoc in E. apply app_inv_head in E. injection E as <- E. done.
    + rewrite lookup_insert_ne in Hq by done. destruct (last_swap q n r out a b E) as (n' & r' & E').
      by apply (Hup q n' r').
  - intros n r. rewrite <- app_assoc. cbn [app]. rewrite lookup_insert_ne.
    + rewrite Hon; [by apply Hempty|]. rewrite under_app. cbn. by rewrite decide_False.
    + intros E%app_inv_head. by injection E.
Qed.

Lemma on_disk_ok {A : Type} (f : disk → result Error A) (d : disk) (a : A) (d' : disk) : on_disk f d = (Ok a, d') ↔ f d = Ok a ∧ d' = d.
Proof. unfold on_disk. split; [by intros [= -> ->]|by intros [-> ->]]. Qed.

Lemma eff_of_ok {A : Type} (m : result Error A) (d : disk) (a : A) (d' : disk) : eff_of m d = (Ok a, d') ↔ m = Ok a ∧ d' = d.
Proof. unfold eff_of. split; [by intros [= -> ->]|by intros [-> ->]]. Qed.

(** What a successful build went through. *)
Lemma build_Ok catalog_dir source previous out now d idx d' :
  build fault order running yaml_revoked catalog_dir source previous out now d = (Ok idx, d') →
  ∃ catalog before apps d1 text,
    load_to_build fault order running catalog_dir out d = Ok catalog ∧
    read_previous fault source previous d = Ok before ∧
    build_apps fault order before out (entries catalog) ∅ d = (Ok apps, d1) ∧
    revocations fault yaml_revoked catalog_dir (fst <$> before) apps d1 = Ok (ix_revoked idx) ∧
    ix_source idx = source ∧ ix_apps idx = apps ∧ ix_expires idx = wrap_i64 (now + VALIDITY_SECS) ∧
    ix_counter idx = match before with Some (i, _) => wrap_u64 (ix_counter i + 1) | None => 1 end ∧
    index_print idx = Ok text ∧ write fault d1 (out ++ [FILE]) (newline text) = Ok d'.
Proof.
  unfold build. intros (catalog & d0 & [Hload ->]%on_disk_ok & H)%eff_bind_Ok.
  apply eff_bind_Ok in H as (before & d0 & [Hprev ->]%on_disk_ok & H).
  apply eff_bind_Ok in H as (apps & d1 & Hap & H). apply eff_bind_Ok in H as (revoked & d0 & [Hrev ->]%on_disk_ok & H).
  cbv zeta in H. apply eff_bind_Ok in H as (text & d0 & [Ht ->]%eff_of_ok & H).
  apply eff_bind_Ok in H as (u & d2 & Hw%write_file_Ok & H). injection H as <- <-.
  match type of Ht with map_err _ ?x = _ => destruct x as [t|] eqn:Et; [|done] end. injection Ht as ->.
  exists catalog, before, apps, d1, text. split_and!; done.
Qed.

(** The directory an index is built into holds nothing. *)
Lemma load_to_build_Ok catalog_dir out d catalog : load_to_build fault order running catalog_dir out d = Ok catalog →
  load fault order running catalog_dir d = Ok catalog ∧ ct_set_aside catalog = ∅ ∧ ∀ n r, d !! (out ++ n :: r) = None.
Proof.
  unfold load_to_build. rewrite result_bind_Ok. intros (c & Hc & H).
  destruct (load _ _ _ _ _) as [c'|]; [|done]. injection Hc as ->.
  destruct (left_out c) as [|[app why] l] eqn:El; [|done].
  assert (Ha : ct_set_aside c = ∅).
  { apply map_empty. intros name. apply eq_None_not_Some. intros [why Hw].
    assert ((name, why) ∈ left_out c) as Hin by by apply elem_of_btree_entries. rewrite El in Hin. by apply elem_of_nil in Hin. }
  destruct (exists_ d out) eqn:Ex.
  - apply result_bind_Ok in H as (names & Hn & H). case_decide as E; [|done]. injection H as <-. subst names.
    split_and!; [done..|]. destruct (read_dir fault order d out) as [l|] eqn:Hr; [|done]. injection Hn as ->.
    intros n r. apply eq_None_not_Some. intros Hs.
    assert (n ∈ []) as Hin by (apply (read_dir_Ok fault order order_perm _ _ _ n Hr); eauto). by apply elem_of_nil in Hin.
  - injection H as <-. split_and!; [done..|]. intros n r. by apply exists_false.
Qed.

Lemma read_previous_Ok source previous d before : read_previous fault source previous d = Ok before →
  ∀ idx from, before = Some (idx, from) → previous = Some from ∧ ix_source idx = source ∧ all_held fault idx d from.
Proof.
  unfold read_previous. destruct previous as [dir|]; [|intros [= <-]; done].
  rewrite result_bind_Ok. intros (i & Hi & H) idx from ->. case_decide as Es; [done|].
  apply result_bind_Ok in H as ([] & Hf & [= -> ->]). split_and!; [done|done|by apply check_files_Ok in Hf].
Qed.

Lemma all_held_apps idx d out : (∀ app vs, ix_apps idx !! app = Some vs → app_held fault d out (app, vs)) → all_held fault idx d out.
Proof.
  intros H app vs v rel digest Ha Hv Hrel. destruct (H _ _ Ha) as (_ & _ & _ & Hh). by apply (Hh v Hv).
Qed.

(** What a catalog's directory needs to be built: entries under names, their tags no
    packaging's, and what was published before in order. *)
Record ready (catalog_dir out : path) (before : option (Index * path)) (d : disk) : Prop := {
  ready_named : catalog_dir ≠ [] ∧ Forall plain catalog_dir ∧ slashless catalog_dir d;
  ready_apart : apart catalog_dir out;
  ready_out : ∀ r, fault (out ++ r) = None;
  ready_before : ∀ idx from, before = Some (idx, from) →
    well_indexed idx ∧ apart from out ∧ ix_counter idx < u64_max;
  ready_tags : ∀ c name e, load fault order running catalog_dir d = Ok c → ct_entries c !! name = Some e →
    let tag := img_tag (sp_image (mf_spec (en_manifest e))) in
    plain tag ∧ contains_char "~" tag = false ∧
    ∀ v n, v ∈ published_versions before name → packaging tag (av_version v) = Some n → n < u32_max }.

Lemma ready_buildable catalog_dir out before d c : ready catalog_dir out before d →
  load fault order running catalog_dir d = Ok c → ∀ e, e ∈ entries c → buildable catalog_dir before e.
Proof.
  intros [(Hne & Hpl & Hsl) _ _ _ Htags] Hl e He. unfold entries in He. apply elem_of_btree_values in He as [name He].
  destruct (load_placed _ _ _ Hl _ _ He) as (-> & p & Hr & Hs & Happ). destruct (Htags _ _ _ Hl He) as (Ht1 & Ht2 & Ht3).
  split_and!; [|by exists p|done..]. rewrite Happ. apply Hsl, Forall_app in Hs as [Hs _].
  assert (Forall plain (catalog_dir ++ p)) as Hall.
  { apply Forall_app. split; [done|]. eapply Forall_impl; [exact Hs|]. by intros n []. }
  destruct (last (catalog_dir ++ p)) as [n|] eqn:El.
  - cbn. apply last_Some in El as [l' El]. rewrite El in Hall. apply Forall_app in Hall as [_ Hall]. by inversion Hall.
  - apply last_None in El. by apply app_nil in El as [-> _].
Qed.

(** C13. A source's owner can sign what was built: an index built into an empty directory, above
    the one published before, is one [sign] takes until its month is over - its counter above
    the published one's, every file it names there, the earlier versions' included, with the
    digest it gives. It holds an app exactly when the catalog does, keeps every version of the
    app published before, in order and first, and no two versions of an app share a name. *)
Theorem built_index_signs catalog_dir source previous before out now now' seed d idx d' :
  (∀ i text, index_print i = Ok text → index_parse (newline text) = Ok i) →
  read_previous fault source previous d = Ok before → ready catalog_dir out before d →
  (0 ≤ now ≤ now')%Z → (now' < now + VALIDITY_SECS)%Z → (now + VALIDITY_SECS < 2 ^ 63)%Z →
  build fault order running yaml_revoked catalog_dir source previous out now d = (Ok idx, d') →
  (∃ d'', sign fault out seed (fst <$> before) now' d' = (Ok idx, d'')) ∧
  (∀ c, load fault order running catalog_dir d = Ok c →
     ∀ app, is_Some (ix_apps idx !! app) ↔ is_Some (ct_entries c !! app)) ∧
  (∀ app versions, ix_apps idx !! app = Some versions → published_versions before app `prefix_of` versions) ∧
  well_indexed idx.
Proof.
  intros Hjson Hbefore Hready Hnow Hnow' Hmax Hb.
  apply build_Ok in Hb as (catalog & b & apps & d1 & text & Hload & Hprev & Happs & _ & Hsrc & Hia & Hexp & Hctr & Hprint & Hw).
  rewrite Hbefore in Hprev. injection Hprev as <-.
  apply load_to_build_Ok in Hload as (Hload & _ & Hempty).
  pose proof (ready_buildable _ _ _ _ _ Hready Hload) as Hents. destruct Hready as [(_ & _ & Hsl) Hap Hfault Hbef _].
  apply (build_apps_Ok catalog_dir before out (entries catalog) d) in Happs as (Hon & Hheld & Hdom); [|done|done| |done|done|].
  2:{ intros i from E. destruct (Hbef _ _ E) as (H1 & H2 & _). split_and!; [done|done|].
    by destruct (read_previous_Ok _ _ _ _ Hbefore _ _ E) as (_ & _ & ?). }
  2:{ intros app vs E. by apply lookup_empty_Some in E. }
  assert (Hall : all_held fault idx d' out).
  { eapply held_elsewhere; [exact Hw|done|]. apply all_held_apps. intros app vs E. rewrite Hia in E. by apply Hheld. }
  split; [|split; [|split]].
  - assert (Hmonth : ix_expires idx = (now + VALIDITY_SECS)%Z).
    { rewrite Hexp. apply wrap_i64_small. unfold VALIDITY_SECS in *. lia. }
    assert (Hrises : rises idx (fst <$> before) = Ok ()).
    { unfold rises. destruct before as [[i from]|]; [|done]. cbn.
      destruct (read_previous_Ok _ _ _ _ Hbefore _ _ eq_refl) as (_ & Es & _). destruct (Hbef _ _ eq_refl) as (_ & _ & Hc).
      rewrite decide_False by congruence. rewrite Hctr. unfold wrap_u64, u64_max in *. rewrite N.mod_small by lia.
      by rewrite (proj2 (N.leb_gt _ _)) by lia. }
    assert (Hquality : read fault d' (out ++ [QUALITY_FILE]) = Err NotFound).
    { apply (read_missing fault d1 (out ++ [FILE]) (newline text)); [done|by apply name_ne| |].
      - intros r E. rewrite <- app_assoc in E. by apply app_inv_head in E.
      - unfold read. rewrite Hfault. assert (Hno : ∀ r, d1 !! ((out ++ [QUALITY_FILE]) ++ r) = None).
        { intros r. rewrite <- app_assoc. cbn [app]. rewrite Hon; [by apply Hempty|]. rewrite under_app. by vm_compute. }
        rewrite <- (app_nil_r (out ++ [QUALITY_FILE])) at 1. rewrite Hno.
        destruct (is_dir d1 (out ++ [QUALITY_FILE])) eqn:E; [|done]. apply is_dir_true in E as (n & r & [c E]).
        by rewrite Hno in E. }
    assert (Hsig : write fault d' (out ++ [SIGNATURE_FILE]) (signature_text seed (newline text)) =
      Ok (<[out ++ [SIGNATURE_FILE] := signature_text seed (newline text)]> d'))
      by (by eapply (write_beside d d1 out FILE SIGNATURE_FILE)).
    eexists. unfold sign. unfold eff_bind at 1, on_disk at 1. rewrite (read_write _ _ _ _ _ Hw). cbn [map_err].
    unfold eff_bind at 1, eff_of at 1, parse. rewrite (Hjson _ _ Hprint). cbn [map_err].
    unfold eff_bind at 1, eff_of at 1. rewrite Hrises. unfold eff_bind at 1, eff_of at 1.
    unfold current. rewrite Hmonth. rewrite (proj2 (Z.leb_gt _ _)) by lia. cbv zeta.
    rewrite wrap_i64_small by (unfold VALIDITY_SECS in *; lia). unfold eff_bind at 1.
    rewrite (proj2 (Z.ltb_ge _ _)) by lia. unfold eff_ret at 1. unfold eff_bind at 1, on_disk at 1.
    rewrite (proj2 (check_files_Ok fault idx out d' ()) Hall). unfold eff_bind at 1, on_disk at 1, results_to_sign.
    rewrite Hquality. unfold eff_bind at 1. rewrite (proj2 (write_file_Ok _ _ _ _ () _) Hsig). done.
  - intros c Hc app. rewrite Hload in Hc. injection Hc as <-. rewrite Hia, Hdom. rewrite lookup_empty.
    split.
    + intros [[? [=]]|(e & -> & He)%list_elem_of_fmap]. apply elem_of_btree_values in He as [name He].
      destruct (load_placed _ _ _ Hload _ _ He) as (-> & _). by eexists.
    + intros [e He]. right. destruct (load_placed _ _ _ Hload _ _ He) as (-> & _). apply list_elem_of_fmap_2.
      apply elem_of_btree_values. by eexists.
  - intros app vs E. rewrite Hia in E. by apply Hheld.
  - intros app vs E. rewrite Hia in E. by destruct (Hheld _ _ E) as ((? & ? & ? & _) & _).
Qed.
End whole.

End IndexBuild.

(** ** A catalog to build *)

Module ToyBuild.
Import IndexBuild.

#[local] Existing Instance ToySources.semver.
#[local] Existing Instance Toy.ed.
#[local] Existing Instance Toy.laws.
Definition wiki (name : string) : Manifest :=
  {| mf_api_version := V1; mf_kind := App;
     mf_metadata := {| md_name := name; md_hlb := Some ">=0.4.0"; md_criticality := None; md_display_name := None;
                       md_category := None; md_homepage := None |};
     mf_spec := example_spec |}.
#[local] Instance cat : CatalogText := {|
  value := string; yaml_range _ := None;
  yaml_manifest raw := match strip_prefix "app " raw with Some n => Ok (wiki n) | None => Err "not a manifest" end;
  yaml_guide _ := Ok default_guide; yaml_value raw := Ok raw |}.

Definition text : string := "app wiki".
Definition version : AppVersion :=
  {| av_version := img_tag (sp_image example_spec); av_hlb := ">=0.4.0";
     av_files := {[ "manifest.yaml" := sha256_hex (bytes_of text) ]}; av_images := images_of (wiki "wiki") |}.
Definition idx : Index :=
  {| ix_source := "guild"; ix_counter := 1; ix_expires := 1000 + VALIDITY_SECS;
     ix_apps := {[ "wiki" := [version] ]}; ix_revoked := ∅ |}.
#[local] Instance txt : IndexText := {|
  index_parse s := if decide (s = newline "the index") then Ok idx else Err "expected value";
  index_print i := if decide (i = idx) then Ok "the index" else Err "not it";
  quality_parse _ := Err ""; quality_print _ := Err ""; run_parse _ := Err "" |}.

Definition tree : disk := {[ ["c"; "wiki"; "manifest.yaml"] := text ]}.
Definition the_load := load Toy.no_fault ToySources.order ToySources.running ["c"] tree.
Definition the_build := build Toy.no_fault ToySources.order ToySources.running (λ _, Err "") ["c"] "guild" None ["out"] 1000 tree.

Definition wiki_entry : Entry :=
  {| en_source := None; en_index := None; en_version := None; en_quality := None; en_manifest := wiki "wiki";
     en_path := ["c"; "wiki"; "manifest.yaml"]; en_guide := default_guide; en_written := (text, "{}") |}.
Lemma the_load_is : the_load = Ok {| ct_entries := {[ "wiki" := wiki_entry ]}; ct_set_aside := ∅; ct_revoked := ∅ |}.
Proof. vm_compute. reflexivity. Qed.

Lemma print_parse i s : index_print i = Ok s → index_parse (newline s) = Ok i.
Proof. unfold index_print. cbn [txt]. case_decide as E; [|done]. intros [= <-]. subst i. vm_compute. reflexivity. Qed.

Lemma toy_ready : ready Toy.no_fault ToySources.order ToySources.running ["c"] ["out"] None tree.
Proof.
  split.
  - split; [done|]. split; [by apply ToySources.plain_check; vm_compute|]. intros p [b H]. unfold tree in H.
    apply lookup_singleton_Some in H as [H _]. injection H as <-. rewrite !Forall_cons, Forall_nil.
    assert (Forall plain ["wiki"; "manifest.yaml"]) as Hp by (apply ToySources.plain_check; by vm_compute).
    rewrite !Forall_cons in Hp. destruct Hp as (H1 & H2 & _). split_and!; done.
  - by vm_compute.
  - done.
  - done.
  - intros c name e Hl He. change (the_load = Ok c) in Hl. rewrite the_load_is in Hl. injection Hl as <-. cbn [ct_entries] in He.
    apply lookup_singleton_Some in He as [<- <-]. cbn zeta.
    assert (Forall plain [img_tag (sp_image (mf_spec (en_manifest wiki_entry)))]) as Hp
      by (apply ToySources.plain_check; by vm_compute).
    split; [by apply Forall_singleton in Hp|]. split; [by vm_compute|]. intros v n Hv. by apply elem_of_nil in Hv.
Qed.

End ToyBuild.

Lemma built_index_signs_witness :
  ToyBuild.the_build.1 = Ok ToyBuild.idx ∧
  ∃ d, @sign Toy.no_fault Toy.ed ToyBuild.txt ["out"] [1; 2; 3] None 2000 ToyBuild.the_build.2 = (Ok ToyBuild.idx, d).
Proof.
  assert (ToyBuild.the_build.1 = Ok ToyBuild.idx) as H by (vm_compute; reflexivity). split; [exact H|].
  assert (ToyBuild.the_build = (Ok ToyBuild.idx, ToyBuild.the_build.2)) as Hb by (rewrite <- H; apply surjective_pairing).
  exact (proj1 (@IndexBuild.built_index_signs ToySources.semver Toy.ed ToyBuild.txt ToyBuild.cat Toy.no_fault ToySources.order
    ToySources.running (λ _, Err "") (λ _ l, Permutation_refl l) ["c"] "guild" None None ["out"] 1000 2000 [1; 2; 3]
    ToyBuild.tree ToyBuild.idx ToyBuild.the_build.2 ToyBuild.print_parse eq_refl ToyBuild.toy_ready
    ltac:(lia) ltac:(unfold VALIDITY_SECS; lia) ltac:(unfold VALIDITY_SECS; lia) Hb)).
Defined.

(** An app that left the catalog and came back is given the name of a version withdrawn before
    it left: the index published before it came back holds none of its versions, so the name is
    free, and its revocations are kept. *)
Module ToyReturn.
Import IndexBuild.

#[local] Existing Instance ToySources.semver.
#[local] Existing Instance Toy.ed.
#[local] Existing Instance ToyBuild.cat.

Definition withdrawn : Revoked := {| r_version := img_tag (sp_image example_spec); r_why := "leaks" |}.
Definition published : Index :=
  {| ix_source := "guild"; ix_counter := 6; ix_expires := 500; ix_apps := ∅; ix_revoked := {[ "wiki" := [withdrawn] ]} |}.
#[local] Instance txt : IndexText := {|
  index_parse _ := Ok published; index_print _ := Ok "the index";
  quality_parse _ := Err ""; quality_print _ := Err ""; run_parse _ := Err "" |}.
Definition tree : disk := <[["p"; FILE] := "the index before"]> ToyBuild.tree.
Definition the_build :=
  build Toy.no_fault ToySources.order ToySources.running (λ _, Err "") ["c"] "guild" (Some ["p"]) ["out"] 1000 tree.

Lemma returning_app_born_revoked :
  ∃ idx, the_build.1 = Ok idx ∧ ix_counter idx = 7 ∧ av_version <$> (default [] (ix_apps idx !! "wiki")) = [r_version withdrawn] ∧
    revocation idx "wiki" (r_version withdrawn) = Some "leaks" ∧ newest_for idx "wiki" ToySources.running = None.
Proof. eexists. split; [vm_compute; reflexivity|]. vm_compute. auto. Qed.

(** The revocations of a catalog that lists one more. *)
Definition listing : disk := <[["c"; IndexBuild.REVOKED_FILE] := "listed"]> tree.
Definition again : Revoked := {| r_version := "0.9"; r_why := "older still" |}.
Definition the_apps : gmap string (list AppVersion) :=
  {[ "wiki" := [{| av_version := "0.9"; av_hlb := ""; av_files := ∅; av_images := [] |}] ]}.
Definition the_revocations :=
  revocations Toy.no_fault (λ _, Ok {[ "wiki" := [again] ]}) ["c"] (Some published) the_apps listing.

End ToyReturn.

Lemma revocations_never_dropped_witness :
  ∃ out, ToyReturn.the_revocations = Ok out ∧ IndexBuild.revokes out "wiki" "0.9" ∧
    IndexBuild.keeps_revoked (ix_revoked ToyReturn.published) out.
Proof.
  assert (ToyReturn.the_revocations = Ok {[ "wiki" := [ToyReturn.withdrawn; ToyReturn.again] ]}) as H by (vm_compute; reflexivity).
  eexists. split; [exact H|].
  destruct (IndexBuild.revocations_never_dropped Toy.no_fault (λ _, Ok {[ "wiki" := [ToyReturn.again] ]}) ["c"]
    (Some ToyReturn.published) ToyReturn.the_apps ToyReturn.listing _ H) as [H1 H2].
  split.
  - refine (proj1 (H2 "listed" {[ "wiki" := [ToyReturn.again] ]} "wiki" [ToyReturn.again] ToyReturn.again _ eq_refl eq_refl _)).
    + vm_compute. reflexivity.
    + apply list_elem_of_singleton. reflexivity.
  - exact (proj1 (H1 ToyReturn.published eq_refl)).
Defined.
