(* ===== verification/Fetch.v ===== *)
(** * Fetching a source

    [crates/hlb-engine/src/sources.rs]: a source's signed index fetched over the network into
    its cache, and the rows of [crates/hlb-state/src/lib.rs] that keep the sources and the
    highest counter read from each. What the network answers is an argument, a function of the
    request's number: a mirror may answer one address differently each time. A fetch answers with an
    index that was accepted, one that fails records nothing, and each source has its own answer. *)

From S2P Require Import Prelude RustStr Encoding Rbac Trail CatalogIndex Sources.
Import Disk Index Signing.
Local Open Scope N_scope.

Module Fetch.

(** ** The state *)

(** @ hlb-state/src/lib.rs:367-374 [SignedSource] *)
Record SignedSource := { ss_url : string; ss_key : string; ss_counter : option N }.
(** @ hlb-state/src/lib.rs:358-366 [CatalogSource] *)
Record CatalogSource := { cs_name : string; cs_directory : path; cs_signed : option SignedSource }.

(** A row of [catalog_sources]: the counter is kept as a signed integer. *)
Record SourceRow := {
  so_directory : path; so_url : option string; so_key : option string; so_counter : option Z }.
(** What a row of [apps] says of where the app came from. *)
Record AppSource := { as_source : option string; as_index : option Z; as_version : option string }.

Record World := {
  w_disk : disk;
  w_sources : gmap string SourceRow;
  w_apps : gmap string AppSource;
  w_log : Log;
  w_asked : nat }.

Definition on_world_disk (d : disk) (w : World) : World :=
  {| w_disk := d; w_sources := w_sources w; w_apps := w_apps w; w_log := w_log w; w_asked := w_asked w |}.
Definition on_sources (m : gmap string SourceRow) (w : World) : World :=
  {| w_disk := w_disk w; w_sources := m; w_apps := w_apps w; w_log := w_log w; w_asked := w_asked w |}.
Definition on_log (l : Log) (w : World) : World :=
  {| w_disk := w_disk w; w_sources := w_sources w; w_apps := w_apps w; w_log := l; w_asked := w_asked w |}.

(** An unsigned integer read back from a signed column. *)
Definition as_u64 (z : Z) : N := Z.to_N (z mod 2 ^ 64).

Definition row_of (s : CatalogSource) (counter : option Z) : SourceRow :=
  {| so_directory := cs_directory s; so_url := ss_url <$> cs_signed s; so_key := ss_key <$> cs_signed s;
     so_counter := counter |}.

(** @ hlb-state/src/lib.rs:949-967 [State::add_catalog_source] *)
Definition add_catalog_source (s : CatalogSource) (m : gmap string SourceRow) : bool * gmap string SourceRow :=
  match m !! cs_name s with
  | Some _ => (false, m)
  | None => (true, <[cs_name s := row_of s None]> m)
  end.

(** @ hlb-state/src/lib.rs:969-992 [State::set_carried_source] *)
Definition set_carried_source (s : CatalogSource) (m : gmap string SourceRow) : gmap string SourceRow :=
  <[cs_name s := row_of s (m !! cs_name s ≫= so_counter)]> m.

(** @ hlb-state/src/lib.rs:345-348 [source_cache] *)
Definition source_cache (state_dir : path) (name : string) : path := state_dir ++ ["catalog-sources"; name].

(** @ hlb-state/src/lib.rs:1001-1023 [State::catalog_sources] *)
Definition source_of_row (home : option path) (name : string) (r : SourceRow) : CatalogSource :=
  let signed := match so_url r, so_key r with
    | Some url, Some key => Some {| ss_url := url; ss_key := key; ss_counter := as_u64 <$> so_counter r |}
    | _, _ => None
    end in
  {| cs_name := name;
     cs_directory := match signed, home with Some _, Some home => source_cache home name | _, _ => so_directory r end;
     cs_signed := signed |}.

(** @ hlb-state/src/lib.rs:994-1025 [State::catalog_sources] *)
Definition catalog_sources (home : option path) (m : gmap string SourceRow) : list CatalogSource :=
  (λ '(name, r), source_of_row home name r) <$> btree_entries m.

(** @ hlb-state/src/lib.rs:1027-1040 [State::raise_catalog_source_counter] *)
Definition raise_catalog_source_counter (name : string) (counter : N) (m : gmap string SourceRow)
    : bool * gmap string SourceRow :=
  match m !! name with
  | Some r =>
      if match so_counter r with None => true | Some c => (c <=? as_i64 counter)%Z end
      then (true, <[name := {| so_directory := so_directory r; so_url := so_url r; so_key := so_key r;
                               so_counter := Some (as_i64 counter) |}]> m)
      else (false, m)
  | None => (false, m)
  end.

(** @ hlb-state/src/lib.rs:1042-1050 [State::remove_catalog_source] *)
Definition remove_catalog_source (name : string) (m : gmap string SourceRow) : bool * gmap string SourceRow :=
  (bool_decide (is_Some (m !! name)), delete name m).

(** ** Addresses *)

(** @ hlb-engine/src/sources.rs:13-15 [MOST_BYTES] *)
Definition MOST_BYTES : N := N.shiftl 8 20.

(** What [reqwest::Url::parse] reads of an address is an argument: its scheme and its host.
    @ hlb-engine/src/sources.rs:17-36 [address] *)
Definition address (url_parse : string → result string (string * option string)) (location : string)
    : option (result string string) :=
  if negb (contains "://" location) then None
  else match url_parse location with
  | Err e => Some (Err (location +:+ ": " +:+ e))
  | Ok (scheme, host) =>
      let loopback := match host with
        | Some h => bool_decide (h ∈ ["localhost"; "127.0.0.1"; "[::1]"])
        | None => false
        end in
      Some (if (scheme ==? "https") || (scheme ==? "http") && loopback then Ok (trim_end_matches "/" location)
            else Err (location +:+ ": a source is fetched over https:// (plain http only from this machine)"))
  end.

Section fetch.
Context {ed : Ed25519} {txt : IndexText}.
Context (fault : path → option string) (show : Error → string).
(** What the [n]th request is answered: a status and the chunks of a body, or a failure. *)
Context (net : nat → string → result string (N * list (result string string))).

(** ** Requests *)

(** @ hlb-engine/src/sources.rs:60-67 [get_if_served] *)
Fixpoint read_body (url acc : string) (chunks : list (result string string)) : result string string :=
  match chunks with
  | [] => Ok acc
  | Err e :: _ => Err (url +:+ ": " +:+ e)
  | Ok c :: chunks =>
      let acc := acc +:+ c in
      if MOST_BYTES <? N.of_nat (String.length acc)
      then Err (url +:+ ": over " +:+ show_N (N.shiftr MOST_BYTES 20) +:+ " MiB, refused")
      else read_body url acc chunks
  end.

(** @ hlb-engine/src/sources.rs:44-68 [get_if_served] *)
Definition get_if_served (url : string) : eff World string (option string) := λ w,
  let w' := {| w_disk := w_disk w; w_sources := w_sources w; w_apps := w_apps w; w_log := w_log w;
               w_asked := S (w_asked w) |} in
  (match net (w_asked w) url with
   | Err e => Err (url +:+ ": " +:+ e)
   | Ok (status, chunks) =>
       if decide (status = 404) then Ok None
       else if negb ((200 <=? status) && (status <? 300)) then Err (url +:+ ": HTTP " +:+ show_N status)
       else Some <$> read_body url "" chunks
   end, w').

(** @ hlb-engine/src/sources.rs:38-42 [get] *)
Definition get (url : string) : eff World string string :=
  let! o := get_if_served url in
  eff_of (ok_or (url +:+ ": HTTP 404") o).

(** *** Files *)

Definition show_io (e : io_error) : string :=
  match e with NotFound => "No such file or directory (os error 2)" | Refused why => why end.
Definition display (p : path) : string := "/" +:+ join "/" p.

(** A change of the disk, its failure told under the name of [p]. *)
Definition disk_op (p : path) (f : disk → result io_error disk) : eff World string () := λ w,
  match f (w_disk w) with
  | Ok d => (Ok (), on_world_disk d w)
  | Err e => (Err (display p +:+ ": " +:+ show_io e), w)
  end.

(** [create_dir_all]: nothing but directories on the way. *)
Definition make_dir (p : path) (d : disk) : result io_error disk :=
  match fault p with
  | Some why => Err (Refused why)
  | None => if any_of (λ q, bool_decide (is_Some (under q p))) (map_to_list d).*1
            then Err (Refused "Not a directory (os error 20)") else Ok d
  end.

(** [std::fs::copy]. *)
Definition copy_to (from to : path) (d : disk) : result io_error disk :=
  bytes ← read fault d from; write fault d to bytes.

(** ** Staging *)

Definition lossy (bytes : string) : string := from_utf8_lossy (chars bytes).

(** @ hlb-engine/src/sources.rs:70-92 [stage_quality] *)
Definition stage_quality (url : string) (idx : Index) (key : string) (staged : path) : eff World string bool :=
  let! served := get_if_served (url +:+ "/" +:+ QUALITY_FILE) in
  match served with
  | None => eff_ret false
  | Some bytes =>
      let! sig := get (url +:+ "/" +:+ QUALITY_SIGNATURE_FILE) in
      let sig := lossy sig in
      eff_of (map_err show (accept_quality bytes sig idx key)) ;;!
      disk_op staged (λ d, write fault d (staged ++ [QUALITY_FILE]) bytes) ;;!
      disk_op staged (λ d, write fault d (staged ++ [QUALITY_SIGNATURE_FILE]) sig) ;;!
      eff_ret true
  end.

(** @ hlb-engine/src/sources.rs:94-108 [signed_index] *)
Definition signed_index (url name key : string) (seen : option N) : eff World string (Index * string * string) :=
  let! bytes := get (url +:+ "/" +:+ FILE) in
  let! sig := get (url +:+ "/" +:+ SIGNATURE_FILE) in
  let sig := lossy sig in
  let! idx := eff_of (map_err show (accept bytes sig name key seen)) in
  eff_ret (idx, bytes, sig).

(** @ hlb-engine/src/sources.rs:110-117 [Staged] *)
Record Staged := {
  st_index : Index; st_downloaded : nat; st_kept : nat; st_quality : result string bool }.

(** The files the cache holds, by digest; the first of two.
    @ hlb-engine/src/sources.rs:144-149 [stage] *)
Definition held_by_digest (cache : path) (d : disk) : gmap string string :=
  match read_index fault (cache ++ [FILE]) d with
  | Err _ => ∅
  | Ok old =>
      foldl (λ m '(rel, digest), match m !! digest with Some _ => m | None => <[digest := rel]> m end) ∅
        (match files old with Ok l => l | Err _ => [] end)
  end.

(** One file of the index, from the cache or from the source: is it a download?
    @ hlb-engine/src/sources.rs:151-168 [stage] *)
Definition stage_file (url : string) (cache staged : path) (held : gmap string string) (f : string * string)
    : eff World string bool :=
  let '(rel, digest) := f in
  let to := follow staged rel in
  disk_op (removelast to) (make_dir (removelast to)) ;;!
  let! from := eff_get (λ w, find_first (λ r, holds fault cache r digest (w_disk w))
    (rel :: match held !! digest with Some r => [r] | None => [] end)) in
  match from with
  | Some from => disk_op to (copy_to (follow cache from) to) ;;! eff_ret false
  | None =>
      let! body := get (url +:+ "/" +:+ rel) in
      disk_op to (λ d, write fault d to body) ;;!
      eff_ret true
  end.

(** @ hlb-engine/src/sources.rs:150-168 [stage] *)
Fixpoint stage_files (url : string) (cache staged : path) (held : gmap string string) (l : list (string * string))
    (downloaded kept : nat) : eff World string (nat * nat) :=
  match l with
  | [] => eff_ret (downloaded, kept)
  | f :: l =>
      let! down := stage_file url cache staged held f in
      stage_files url cache staged held l (if down then S downloaded else downloaded) (if down then kept else S kept)
  end.

(** What a step answers, its failure kept as a value. *)
Definition outcome_of {A} (m : eff World string A) : eff World string (result string A) := λ w,
  let '(r, w') := m w in (Ok r, w').

(** @ hlb-engine/src/sources.rs:119-176 [stage] *)
Definition stage (url key : string) (x : Index * string * string) (cache staged : path)
    : eff World string Staged :=
  let '(idx, bytes, sig) := x in
  let! there := eff_get (λ w, exists_ (w_disk w) staged) in
  eff_when there (disk_op staged (λ d, remove_dir_all fault d staged)) ;;!
  disk_op staged (make_dir staged) ;;!
  disk_op staged (λ d, write fault d (staged ++ [FILE]) bytes) ;;!
  disk_op staged (λ d, write fault d (staged ++ [SIGNATURE_FILE]) sig) ;;!
  let! held := eff_get (λ w, held_by_digest cache (w_disk w)) in
  let! l := eff_of (map_err show (files idx)) in
  let! counts := stage_files url cache staged held l 0 0 in
  let! quality := outcome_of (stage_quality url idx key staged) in
  eff_ret {| st_index := idx; st_downloaded := counts.1; st_kept := counts.2; st_quality := quality |}.

(** ** A fetch *)

(** @ hlb-engine/src/sources.rs:185-197 [Fetched] *)
Record Fetched := {
  fe_index : Index; fe_files : option (nat * nat); fe_quality_refused : option string;
  fe_revoked : list (string * string * string) }.

(** @ hlb-engine/src/sources.rs:223-232 [fetch] *)
Definition stage_and_swap (url name key : string) (x : Index * string * string) (cache staged : path)
    : eff World string Staged := λ w,
  let swapped := (let! s := stage url key x cache staged in
    λ w, match swap_in fault staged cache name key (w_disk w) with
         | (Ok _, d) => (Ok s, on_world_disk d w)
         | (Err e, d) => (Err (show e), on_world_disk d w)
         end) w in
  match swapped with
  | (Ok s, w') => (Ok s, w')
  | (Err e, w') =>
      (Err e, match remove_dir_all fault (w_disk w') staged with Ok d => on_world_disk d w' | Err _ => w' end)
  end.

(** The apps of a source that run a version it revoked.
    @ hlb-engine/src/sources.rs:250-267 [fetch] *)
Definition revoked_running (name : string) (idx : Index) (apps : gmap string AppSource)
    : list (string * string * string) :=
  let from := if decide (name = Sources.OFFICIAL) then None else Some name in
  omap (λ '(app, a),
    if decide (as_source a ≠ from) then None
    else version ← as_version a; why ← revocation idx app version; Some (app, version, why))
    (btree_entries apps).

(** @ hlb-engine/src/sources.rs:216-249 [fetch] *)
Definition take_index (now actor : string) (role : Role) (url name key : string) (seen : option N) (cache : path)
    (x : Index * string * string) : eff World string (Index * option (nat * nat) * option string) :=
  let counter := ix_counter x.1.1 in
  let! unchanged := eff_get (λ w,
    bool_decide (Some counter = seen) &&
    match verify fault cache name key (w_disk w) with
    | Ok held => ix_counter held =? counter
    | Err _ => false
    end) in
  if (unchanged : bool) then eff_ret (x.1.1, None, None)
  else
    let! s := stage_and_swap url name key x cache (with_extension cache "new") in
    eff_put (λ w, on_sources (raise_catalog_source_counter name counter (w_sources w)).2 w) ;;!
    eff_put (λ w, on_log (audit now actor role "catalog-source-fetch" name "ok"
      (Some ("index " +:+ show_N counter)) (w_log w)) w) ;;!
    eff_ret (st_index s, Some (st_downloaded s, st_kept s),
      match st_quality s with Err e => Some e | Ok _ => None end).

(** @ hlb-engine/src/sources.rs:199-274 [fetch] *)
Definition fetch (now : string) (src : CatalogSource) (actor : string) (role : Role)
    : eff World string (option Fetched) :=
  match cs_signed src with
  | None => eff_ret None
  | Some signed =>
      let name := cs_name src in
      let! fetched := signed_index (ss_url signed) name (ss_key signed) (ss_counter signed) in
      let! taken := take_index now actor role (ss_url signed) name (ss_key signed) (ss_counter signed)
        (cs_directory src) fetched in
      let! revoked := eff_get (λ w, revoked_running name taken.1.1 (w_apps w)) in
      eff_ret (Some {| fe_index := taken.1.1; fe_files := taken.1.2; fe_quality_refused := taken.2;
                       fe_revoked := revoked |})
  end.

(** ** The official source *)

(** @ hlb-engine/src/sources.rs:276-283 [Official] *)
Record Official := { of_url : string; of_key : string; of_cache : path }.

(** @ hlb-catalog/src/lib.rs:73-80 [OFFICIAL_URL] *)
Definition OFFICIAL_URL : string := "https://turi-industries.github.io/homelabus-catalog".
Definition OFFICIAL_KEY : option string := Some "a8ca95b9966503c7fd9faebcb67e5d91a133678e408962efb67e917cca03271f".

(** @ hlb-engine/src/sources.rs:285-295 [Official::carried] *)
Definition official_carried (cache : path) : option Official :=
  (λ key, {| of_url := OFFICIAL_URL; of_key := key; of_cache := cache |}) <$> OFFICIAL_KEY.

(** @ hlb-engine/src/sources.rs:297-315 [ensure_official] *)
Definition ensure_official (official : option Official) (m : gmap string SourceRow) : gmap string SourceRow :=
  match official with
  | None => m
  | Some o => set_carried_source {| cs_name := Sources.OFFICIAL; cs_directory := of_cache o;
      cs_signed := Some {| ss_url := of_url o; ss_key := of_key o; ss_counter := None |} |} m
  end.

(** @ hlb-engine/src/sources.rs:328-332 [fetch_all] *)
Fixpoint fetch_each (now actor : string) (role : Role) (l : list CatalogSource)
    (out : list (string * result string Fetched)) (w : World) : list (string * result string Fetched) * World :=
  match l with
  | [] => (out, w)
  | src :: l =>
      match fetch now src actor role w with
      | (Ok None, w) => fetch_each now actor role l out w
      | (Ok (Some f), w) => fetch_each now actor role l (out ++ [(cs_name src, Ok f)]) w
      | (Err e, w) => fetch_each now actor role l (out ++ [(cs_name src, Err e)]) w
      end
  end.

(** @ hlb-engine/src/sources.rs:317-334 [fetch_all] *)
Definition fetch_all (now : string) (home : option path) (official : option Official) (actor : string) (role : Role)
    (w : World) : list (string * result string Fetched) * World :=
  let w := on_sources (ensure_official official (w_sources w)) w in
  fetch_each now actor role (catalog_sources home (w_sources w)) [] w.

(** ** Theorems *)

(** *** What a refusal leaves *)

(** The sources, the apps and the log are as they were. *)
Definition same_records (w w' : World) : Prop :=
  w_sources w' = w_sources w ∧ w_apps w' = w_apps w ∧ w_log w' = w_log w.
#[local] Instance same_records_preorder : PreOrder same_records.
Proof. split; [by intros w|]. intros w1 w2 w3 (?&?&?) (?&?&?). split_and!; congruence. Qed.
Lemma records_served url : keeps same_records (get_if_served url).
Proof. by intros w. Qed.
Lemma records_disk_op p f : keeps same_records (disk_op p f).
Proof. intros w. unfold disk_op. by destruct (f (w_disk w)). Qed.
Ltac records_steps :=
  repeat (intros; first
    [ apply records_served | apply records_disk_op | eapply keeps_bind; [apply _|..] | eapply keeps_when; [apply _|..]
    | apply keeps_ret; apply _ | apply keeps_fail; apply _ | apply keeps_get; apply _ | apply keeps_of; apply _ | case_match ]); intros.
Lemma records_get url : keeps same_records (get url).
Proof. unfold get. records_steps. Qed.
Lemma records_stage_quality url idx key staged : keeps same_records (stage_quality url idx key staged).
Proof. unfold stage_quality. records_steps; apply records_get. Qed.
Lemma records_signed_index url name key seen : keeps same_records (signed_index url name key seen).
Proof. unfold signed_index. records_steps; apply records_get. Qed.
Lemma records_stage_files url cache staged held l downloaded kept : keeps same_records (stage_files url cache staged held l downloaded kept).
Proof.
  revert downloaded kept. induction l as [|f l IH]; intros downloaded kept; cbn [stage_files]; [records_steps|].
  eapply keeps_bind; [apply _| |intros; apply IH]. unfold stage_file. destruct f. records_steps; apply records_get.
Qed.
Lemma records_stage url key x cache staged : keeps same_records (stage url key x cache staged).
Proof.
  unfold stage. destruct x as [[idx bytes] sig]. records_steps; try apply records_stage_files.
  intros w. pose proof (records_stage_quality url idx key staged w) as H. unfold outcome_of. by destruct (stage_quality _ _ _ _ w).
Qed.
Lemma records_stage_and_swap url name key x cache staged : keeps same_records (stage_and_swap url name key x cache staged).
Proof.
  intros w. unfold stage_and_swap, eff_bind. pose proof (records_stage url key x cache staged w) as H.
  destruct (stage url key x cache staged w) as [[s0|e] w1]; cbn [snd] in H |- *.
  - destruct (swap_in _ _ _ _ _ _) as [[u|e] d]; [exact H|]. by destruct (remove_dir_all _ _ _).
  - by destruct (remove_dir_all _ _ _).
Qed.

Lemma stage_index url key x cache staged w st w' : stage url key x cache staged w = (Ok st, w') → st_index st = x.1.1.
Proof.
  destruct x as [[idx bytes] sig]. unfold stage.
  do 9 (unfold eff_bind at 1; match goal with |- context [let '(_, _) := ?m in _] => destruct m as [[?|?] ?]; [|done] end).
  by intros [= <- _].
Qed.
(** Refused, it records nothing; taken, it is the index given. *)
Lemma take_index_ends now actor role url name key seen cache x w :
  match take_index now actor role url name key seen cache x w with
  | (Ok taken, _) => taken.1.1 = x.1.1
  | (Err _, w') => same_records w w'
  end.
Proof.
  unfold take_index, eff_get, eff_put. unfold eff_bind at 1. cbv beta iota.
  match goal with |- context [if ?b then eff_ret _ else _] => destruct b end; [done|]. unfold eff_bind at 1.
  pose proof (records_stage_and_swap url name key x cache (with_extension cache "new") w) as H.
  destruct (stage_and_swap _ _ _ _ _ _ w) as [[y|e] w2] eqn:Es; [|exact H]. cbn.
  revert Es. unfold stage_and_swap, eff_bind. destruct (stage _ _ _ _ _ w) as [[s0|e] w3] eqn:Et; [|done].
  destruct (swap_in _ _ _ _ _ _) as [[u|] d]; [|done]. intros [= <- _]. by eapply stage_index.
Qed.

(** A fetch that fails records nothing: the counters and the keys of the sources are as they were, and
    nothing is said in the log. *)
Theorem failed_fetch_records_nothing now src actor role w e w' :
  fetch now src actor role w = (Err e, w') → same_records w w'.
Proof.
  unfold fetch. destruct (cs_signed src) as [signed|]; [|done]. unfold eff_bind at 1.
  pose proof (records_signed_index (ss_url signed) (cs_name src) (ss_key signed) (ss_counter signed) w) as H1.
  destruct (signed_index _ _ _ _ w) as [[x|e1] w1]; cbn [snd] in H1; [|by intros [= _ <-]]. unfold eff_bind at 1.
  pose proof (take_index_ends now actor role (ss_url signed) (cs_name src) (ss_key signed) (ss_counter signed) (cs_directory src) x w1) as H2.
  destruct (take_index _ _ _ _ _ _ _ _ _ w1) as [[y|e2] w2]; [done|]. intros [= _ <-]. by transitivity w1.
Qed.

(** *** What is taken *)

(** The index a fetch answers with was accepted: signed by the source's key, for its name, and no older
    than what was seen. *)
Theorem fetched_was_accepted now src actor role w f w' :
  fetch now src actor role w = (Ok (Some f), w') →
  ∃ signed bytes sig, cs_signed src = Some signed ∧
    accept bytes sig (cs_name src) (ss_key signed) (ss_counter signed) = Ok (fe_index f).
Proof.
  unfold fetch. destruct (cs_signed src) as [signed|]; [|done]. unfold eff_bind at 1.
  destruct (signed_index _ _ _ _ w) as [[[[idx bytes] sig]|e1] w1] eqn:E; [|done]. unfold eff_bind at 1.
  pose proof (take_index_ends now actor role (ss_url signed) (cs_name src) (ss_key signed) (ss_counter signed) (cs_directory src) (idx, bytes, sig) w1) as H2.
  destruct (take_index _ _ _ _ _ _ _ _ _ w1) as [[y|e2] w2]; [|done]. unfold eff_bind, eff_get. intros [= <- _]. cbn [fe_index]. rewrite H2.
  exists signed, bytes, sig. split; [done|]. cbn [fst].
  revert E. unfold signed_index, eff_bind. destruct (get _ w) as [[b|] w3]; [|done]. destruct (get _ w3) as [[g|] w4]; [|done].
  unfold eff_of. destruct (accept b _ _ _ _) as [i|] eqn:Ei; cbn; [|done]. by intros [= -> -> <- _].
Qed.

(** A failed source never costs another its fetch: each signed source is answered, in order. *)
Theorem every_source_fetched now actor role l out w :
  (fetch_each now actor role l out w).1.*1 = out.*1 ++ (cs_name <$> keep (λ src, bool_decide (is_Some (cs_signed src))) l).
Proof.
  revert out w. induction l as [|src l IH]; intros out w; cbn [fetch_each]; [by rewrite app_nil_r|]. rewrite keep_cons.
  destruct (cs_signed src) as [signed|] eqn:E.
  - rewrite bool_decide_true by done. cbn [fmap list_fmap].
    destruct (fetch now src actor role w) as [[[f|]|e] w'] eqn:Ef; rewrite ?IH, ?fmap_app, <- ?app_assoc; [done| |done].
    exfalso. revert Ef. unfold fetch. rewrite E. unfold eff_bind. destruct (signed_index _ _ _ _ w) as [[?|] ?]; [|done].
    by destruct (take_index _ _ _ _ _ _ _ _ _ _) as [[?|] ?].
  - rewrite bool_decide_false by (by intros []). unfold fetch. rewrite E. unfold eff_ret. by rewrite IH.
Qed.

End fetch.

(** The highest counter read of a source never goes back, in the order of what is stored. *)
Theorem counter_never_back name counter m r :
  m !! name = Some r →
  ∃ r', (raise_catalog_source_counter name counter m).2 !! name = Some r' ∧ so_key r' = so_key r ∧
    ∀ c, so_counter r = Some c → ∃ c', so_counter r' = Some c' ∧ (c ≤ c')%Z.
Proof.
  intros E. unfold raise_catalog_source_counter. rewrite E. destruct (so_counter r) as [c|] eqn:Ec.
  - destruct (Z.leb_spec c (as_i64 counter)); cbn [snd].
    + eexists. rewrite lookup_insert_eq. split_and!; [done..|]. intros ? [= <-]. by exists (as_i64 counter).
    + exists r. split_and!; [done..|]. rewrite Ec. intros ? [= <-]. by exists c.
  - cbn [snd]. eexists. rewrite lookup_insert_eq. by split_and!.
Qed.
End Fetch.
